(* ===== verification/_CoqProject ===== *)
-Q . S2P
Prelude.v
RustStr.v
Names.v
HookCommand.v
Slug.v
TaskData.v
TaskStore.v
Resume.v
Blockers.v
Relation.v
Forest.v
SessionStore.v
SessionFacts.v
SessionLaws.v
TaskResolve.v
TaskOps.v
TaskFacts.v
ParentLaws.v
TaskLaws.v
System.v
TaskInvariants.v
OwnershipLaws.v
Glob.v
Tags.v
Marker.v
Scope.v
Bundles.v
Ssrf.v
NetAddr.v
ShellSplit.v
Json.v
JsonMerge.v
ProxyPath.v
LaunchProxy.v
Wildcard.v
Permissions.v
HookState.v
RepeatDetect.v
StopDedupe.v
ReadOnce.v
Idempotency.v
Framing.v
SessionLedger.v
CdGuard.v
Text.v
Reminders.v
TaskNudge.v
TaskRedirect.v
ConfigSchema.v
ConfigValidate.v
ConfigLaws.v
McpResolve.v
ClaudePerms.v
ClaudeJson.v
ClaudeSettings.v
CrushRender.v
Slippage.v
Transcript.v
CbmRoots.v
PreTool.v
YamlMerge.v
CapMerge.v
PluginResolve.v
BundleMerge.v
Throttle.v
BuildManifest.v
CacheFolder.v
CacheSweep.v
StateSweep.v
Inherit.v
SessionLog.v
TranscriptLink.v
Splice.v
MemoryEndpoint.v
MergeCacheLaws.v
Witnesses.v
HookWitnesses.v
ConfigWitnesses.v
ManifestWitnesses.v
FolderWitnesses.v
