(* ===== verification/Prelude.v ===== *)
(** * llmenv: a verification development

    llmenv gives coding agents their environment. From one configuration file and the scopes of
    the machine and the project it selects bundles, merges them into a manifest, renders the
    manifest into the settings of each engine (Claude Code, opencode, crush), and then runs as a
    hook of the engine, where it keeps a task tracker, guards tool calls and reaches a memory
    server. This library models the decisions of that program, from its Rust source under src/, and
    states what makes them correct.

    ** How a definition relates to the code

    A definition is a function with the name of the Rust function, on records and inductive types
    with its fields and variants. [Result] is [result]; an error is a value of an error type with
    what its message says; a [Vec] is a list, a [BTreeMap] or [HashMap] is a [gmap], a [BTreeSet]
    is a [gset] that is read in its order where the order shows. A string is the list of its
    bytes, so lengths are byte lengths; characters outside ASCII matter only where a definition says
    so. Unsigned numbers are [N] with their saturation or wrap written out. A function that reads
    or writes files passes the files along: the task tracker is a state monad over [world] (two
    folders, a clock, the notices), a hook takes what the file system answers ([HookIo]) and the
    files ([Hooks]). A write is atomic, as in the source, which writes a temporary file and renames
    it. Locks: the store lock of the tracker makes a command run alone; the hooks have the outcome
    of their lock as an input.

    ** The parts and their files

    1. Shared: this file (results, the state monad and its rules, lemmas on lists, maxima and
       sorts, the tactics and the hint databases [llmenv]), RustStr (the string operations of the
       standard library), Json (serde_json), NetAddr (the address parsers of std::net).
    2. The task tracker, crates/llmenv-task/src: TaskData (the records), Slug, TaskStore
       (lib.rs, the files), SessionStore (session.rs), TaskResolve (resolve.rs, ownership.rs,
       session_choice.rs), TaskOps (the commands of lib.rs, edit.rs, note.rs, reopen.rs), Forest,
       Relation and Blockers (the trees of tasks), Resume, Reminders (what a session hears of its
       tasks). System is the tracker as a step relation over all commands. The theorems: every
       reachable store is well formed; a finished session stays finished; a command puts an undone
       sub-task under a done parent only by force, by a reopen or by a new parent; an edit makes no
       loop of parents; what each command writes, and when it
       refuses (TaskLaws, SessionLaws, ParentLaws, OwnershipLaws, TaskInvariants).
    3. The scopes, crates/llmenv-scope/src: Glob, Tags, Marker (the project file and the links it
       may follow), Scope, and Bundles (src/bundle_select.rs: which bundles fire, and
       with what rank).
    4. The configuration, crates/llmenv-config/src and src/onboarding: ConfigSchema (the records, with the equality
       that Rust derives), ConfigValidate (Config::validate with each error), ConfigLaws (a
       declarative specification of a valid configuration, which the validator decides), Splice
       (config_splice.rs: additions to config.yaml as inserted lines, which keep every other line and
       are checked against the parsed file).
    5. The merge, src/merge and src/materialize: JsonMerge and YamlMerge (the merge of values),
       CapMerge (merge_capabilities), BundleMerge (the files of a bundle), PluginResolve,
       McpResolve (crates/llmenv-mcp/src/resolve.rs), Throttle, BuildManifest (the manifest of a
       host and the slice that is cached), MemoryEndpoint (src/memory/resolve.rs, which reads that
       slice). The theorems (CapMerge, BundleMerge, BuildManifest, MergeCacheLaws): the
       merge meets a specification field by field and is refused exactly on a tie; no refusal is
       lost; the order of bundles does not matter; a hit of the cache is sound when the hash does not
       collide on the two inputs.
    6. The adapters, src/adapter: Permissions and Wildcard (opencode), ClaudePerms,
       ClaudeSettings and ClaudeJson (Claude Code: the permission buckets, the reconciliation of
       settings.json, the servers in .claude.json), CrushRender, HookCommand (paths in hook
       commands). The theorems: a deny rule is never overruled, what llmenv neither owns nor renders
       in a file stays but for what each theorem names, a file that cannot be read is not overwritten.
    7. The hooks, src/hook_run: HookState (the state files), PreTool (the one decision before a
       tool call, composed of ShellSplit with TaskNudge (the commit gate), Slippage (reads before
       writes), CbmRoots (the guard of the code index), TaskRedirect, RepeatDetect, ReadOnce, CdGuard
       and Transcript), StopDedupe, SessionLedger, Idempotency, Text, SessionLog
       (src/session_log: the log file with its rotations) and TranscriptLink (hooks that run at once
       and start one transcript, as a step relation). The theorems: each state file refines an
       abstract machine over the calls of a session, under the saves that the theorem names; the gate
       and the guards fail closed where the source means them to; the stop hook settles; the log is
       the tail of what was logged; and no two hooks of a session start a transcript while their
       clocks agree and no other session evicts their marker from a full map.
    8. Requests: Ssrf (which addresses an MCP client may reach), LaunchProxy and ProxyPath (the
       rewriting proxy of [llmenv launch]).
    9. The cache folders, src/materialize and src/cli: Framing (length-prefixed encodings and when
       they are injective), CacheFolder (the hash of a manifest, the name of its folder, the write of
       a render with the removal of what the last one wrote, the check for drift), CacheSweep
       (the collection of old folders: gc and prune), StateSweep (the sweep of the temp folder, of
       marketplace clones and of the adapters' folders by [llmenv clean]), Inherit (the
       transcripts, history and databases that move from a folder into a durable store). The theorems:
       after any renders and edits a folder holds the last render and the files of others,
       and, outside strict mode, no file that only an older render wrote; a sweep removes exactly the entries that its
       rule names, and a preview tells what it does; the move to the store loses no file.
   10. Witnesses, HookWitnesses, ConfigWitnesses, ManifestWitnesses, FolderWitnesses: for each theorem with hypotheses a concrete input at which they hold, with a concrete instance of
       every class of parameters.

    ** What is a parameter

    Code that is not in the repository is a class or a record, with the documented facts that a
    theorem uses as a class of laws: the clock, random numbers and file kinds ([Platform]), opening
    files ([FileSystem], [Folders], [BundleDisk], [FileView], [PathView], [LogIo]), serde
    ([JsonText], [Codec], [Yaml], [YamlOps], [YamlLeaves], [BundleYaml], [YamlText], [YamlFile]), SHA-256
    ([Digest], [HexDigest]), the crates for regular expressions, globs and networks ([Matchers],
    [Http], [Net]), the rights and contents of a disk and what its removals answer ([DiskRights],
    [Sizes], [Removal]), git and the marketplace files ([PluginCache]), and texts that only show
    ([GateTexts], [Surroundings]).

    ** Fuel and bounds

    A loop that is not structural takes fuel, and a lemma says that the fuel is enough: a walk over
    tasks takes two more than their number, since a walk that meets a task twice stops; the readers
    of shell commands and of paths take one more than the length of the text; the search for a
    free slug takes one more than the number of files. Limits of the source (sizes of files,
    lengths of lists, nesting of shells, counters that saturate) are constants of the model with their names in the source.

    ** Not modelled

    Input and output as such: running git, ps, ip and the engines, sockets, file permissions and
    fsync, terminal output, and the command line parser. The MCP transports and the calls to the
    memory server. The swap of a whole folder in strict mode, the caches of the code index,
    the plans of the onboarding, sync, statusline, sandboxes, and the parts of the adapters that
    lay out agents, skills and plugin files. serde's derived readers: a configuration enters the model as a record. Interleavings
    inside one command: a command of the tracker holds the store lock, and a hook reads and
    writes its file in one step, except where the source checks for a change in between. *)

From Stdlib Require Ascii.
From stdpp Require Export prelude strings gmap sorting pretty.
Export Stdlib.Strings.Ascii (ascii(..)).
Export (notations) Stdlib.Strings.Ascii.

Set Default Goal Selector "!".

(** The facts that close the common cases by [eauto] or [autorewrite]. *)
Create HintDb llmenv.
Create Rewrite HintDb llmenv.

(** ** Results: [anyhow::Result] and [Result<T, E>]. *)

Inductive result (E A : Type) : Type :=
| Ok (a : A)
| Err (e : E).
Arguments Ok {E A} a.
Arguments Err {E A} e.

Global Instance result_eq_dec `{EqDecision E, EqDecision A} :
  EqDecision (result E A).
Proof. solve_decision. Defined.

Definition is_ok {E A} (r : result E A) : bool :=
  match r with Ok _ => true | Err _ => false end.

Definition ok_or {E A} (o : option A) (e : E) : result E A :=
  match o with Some a => Ok a | None => Err e end.

Definition map_err {E F A} (f : E → F) (r : result E A) : result F A :=
  match r with Ok a => Ok a | Err e => Err (f e) end.

Global Instance result_ret {E} : MRet (result E) := λ A a, Ok a.
Global Instance result_bind {E} : MBind (result E) := λ A B k r,
  match r with Ok a => k a | Err e => Err e end.

Lemma ok_inj {E A} (a b : A) : @Ok E A a = Ok b → a = b.
Proof. by intros [= ->]. Qed.
Lemma ok_or_ok {E A} (o : option A) (e : E) a : ok_or o e = Ok a → o = Some a.
Proof. destruct o; [by intros [= ->]|done]. Qed.
Lemma result_bind_ok {E A B} (r : result E A) (k : A → result E B) b :
  (r ≫= k) = Ok b ↔ ∃ a, r = Ok a ∧ k a = Ok b.
Proof. destruct r; unfold mbind; simpl; naive_solver. Qed.

(** ** Stateful fallible code.

    A command of the program reads and changes a state and ends in a value or an
    error. An error does not undo the changes made before it: the state is
    returned in both cases, as a failed command leaves the files it wrote. *)

Definition ST (S E A : Type) : Type := S → result E A * S.

Global Instance st_ret {S E} : MRet (ST S E) := λ A a s, (Ok a, s).
Global Instance st_bind {S E} : MBind (ST S E) := λ A B k m s,
  match m s with
  | (Ok a, s1) => k a s1
  | (Err e, s1) => (Err e, s1)
  end.

Definition st_fail {S E A} (e : E) : ST S E A := λ s, (Err e, s).
Definition st_get {S E A} (f : S → A) : ST S E A := λ s, (Ok (f s), s).
Definition st_put {S E} (f : S → S) : ST S E unit := λ s, (Ok tt, f s).
Definition st_lift {S E A} (r : result E A) : ST S E A := λ s, (r, s).
Definition st_map_err {S E F A} (f : E → F) (m : ST S E A) : ST S F A := λ s,
  let '(r, s') := m s in (map_err f r, s').
(** The outcome of [m] as a value: a [match] on a call that can fail. *)
Definition st_try {S E F A} (m : ST S E A) : ST S F (result E A) := λ s,
  let '(r, s') := m s in (Ok r, s').

Fixpoint st_for {S E A B} (f : A → ST S E B) (l : list A) : ST S E (list B) :=
  match l with
  | [] => mret []
  | a :: l => b ← f a; bs ← st_for f l; mret (b :: bs)
  end.

Section st_facts.
Context {S E : Type}.
Implicit Types s : S.

Lemma st_bind_inv {A B} (m : ST S E A) (k : A → ST S E B) s r s' :
  (m ≫= k) s = (r, s') →
  (∃ a s1, m s = (Ok a, s1) ∧ k a s1 = (r, s')) ∨
  (∃ e, m s = (Err e, s') ∧ r = Err e).
Proof.
  unfold mbind, st_bind. destruct (m s) as [[a|e] s1]; intros H.
  - left. eauto.
  - right. exists e. by simplify_eq.
Qed.

Lemma st_bind_ok {A B} (m : ST S E A) (k : A → ST S E B) s b s' :
  (m ≫= k) s = (Ok b, s') ↔ ∃ a s1, m s = (Ok a, s1) ∧ k a s1 = (Ok b, s').
Proof.
  unfold mbind, st_bind. destruct (m s) as [[a|e] s1]; naive_solver.
Qed.

Lemma st_bind_eval {A B} (m : ST S E A) (k : A → ST S E B) s a s1 :
  m s = (Ok a, s1) → (m ≫= k) s = k a s1.
Proof. intros H. unfold mbind, st_bind. by rewrite H. Qed.

Lemma st_bind_err {A B} (m : ST S E A) (k : A → ST S E B) s e s1 :
  m s = (Err e, s1) → (m ≫= k) s = (Err e, s1).
Proof. intros H. unfold mbind, st_bind. by rewrite H. Qed.
End st_facts.

(** *** Frames: what a computation leaves alone.

    [Keeps f m] says that [m] never changes the observation [f] of the state, on
    the success path and on the error path. The instances below let
    [solve_keeps] prove it by walking over the code of a command. *)

Class Keeps {S E A T} (f : S → T) (m : ST S E A) : Prop :=
  keeps : ∀ s, f (m s).2 = f s.

(** [Preserves P m]: [m] keeps the invariant [P], on both paths. *)
Class Preserves {S E A} (P : S → Prop) (m : ST S E A) : Prop :=
  preserves : ∀ s, P s → P (m s).2.

Section keeps.
Context {S E T : Type} (f : S → T).

Global Instance keeps_ret {A} (a : A) : Keeps f (mret a : ST S E A).
Proof. by intros s. Qed.
Global Instance keeps_fail {A} (e : E) : Keeps f (st_fail e : ST S E A).
Proof. by intros s. Qed.
Global Instance keeps_get {A} (g : S → A) : Keeps f (st_get g : ST S E A).
Proof. by intros s. Qed.
Global Instance keeps_lift {A} (r : result E A) : Keeps f (st_lift r : ST S E A).
Proof. by intros s. Qed.
Global Instance keeps_bind {A B} (m : ST S E A) (k : A → ST S E B) :
  Keeps f m → (∀ a, Keeps f (k a)) → Keeps f (m ≫= k).
Proof.
  intros Hm Hk s. unfold mbind, st_bind. specialize (Hm s).
  destruct (m s) as [[a|e] s1]; simpl in *; [|done].
  by rewrite (Hk a s1).
Qed.
Global Instance keeps_map_err {F A} (g : F → E) (m : ST S F A) :
  Keeps f m → Keeps f (st_map_err g m).
Proof. intros Hm s. unfold st_map_err. specialize (Hm s). by destruct (m s). Qed.
Global Instance keeps_try {F A} (m : ST S F A) :
  Keeps f m → Keeps f (st_try m : ST S E _).
Proof. intros Hm s. unfold st_try. specialize (Hm s). by destruct (m s). Qed.
Global Instance keeps_for {A B} (g : A → ST S E B) l :
  (∀ a, Keeps f (g a)) → Keeps f (st_for g l).
Proof. intros Hg. induction l; simpl; apply _. Qed.

Lemma keeps_run {A} (m : ST S E A) `{!Keeps f m} s r s' :
  m s = (r, s') → f s' = f s.
Proof. intros H. pose proof (keeps (f := f) (m := m) s) as K. by rewrite H in K. Qed.
End keeps.

Section preserves.
Context {S E : Type} (P : S → Prop).

Global Instance preserves_ret {A} (a : A) : Preserves P (mret a : ST S E A).
Proof. by intros s. Qed.
Global Instance preserves_fail {A} (e : E) : Preserves P (st_fail e : ST S E A).
Proof. by intros s. Qed.
Global Instance preserves_get {A} (g : S → A) : Preserves P (st_get g : ST S E A).
Proof. by intros s. Qed.
Global Instance preserves_lift {A} (r : result E A) :
  Preserves P (st_lift r : ST S E A).
Proof. by intros s. Qed.
Global Instance preserves_bind {A B} (m : ST S E A) (k : A → ST S E B) :
  Preserves P m → (∀ a, Preserves P (k a)) → Preserves P (m ≫= k).
Proof.
  intros Hm Hk s Hs. unfold mbind, st_bind. specialize (Hm s Hs).
  destruct (m s) as [[a|e] s1]; simpl in *; [|done]. by apply Hk.
Qed.
Global Instance preserves_map_err {F A} (g : F → E) (m : ST S F A) :
  Preserves P m → Preserves P (st_map_err g m).
Proof. intros Hm s Hs. unfold st_map_err. specialize (Hm s Hs). by destruct (m s). Qed.
Global Instance preserves_try {F A} (m : ST S F A) :
  Preserves P m → Preserves P (st_try m : ST S E _).
Proof. intros Hm s Hs. unfold st_try. specialize (Hm s Hs). by destruct (m s). Qed.
Global Instance preserves_for {A B} (g : A → ST S E B) l :
  (∀ a, Preserves P (g a)) → Preserves P (st_for g l).
Proof. intros Hg. induction l; simpl; apply _. Qed.

(** A bind whose continuation needs what the first step established. *)
Lemma preserves_bind_when {A B} (R : A → Prop) (m : ST S E A) (k : A → ST S E B) :
  (∀ s r s', P s → m s = (r, s') → P s' ∧ ∀ a, r = Ok a → R a) →
  (∀ a, R a → Preserves P (k a)) → Preserves P (m ≫= k).
Proof.
  intros Hm Hk s Hs. unfold mbind, st_bind. specialize (Hm s).
  destruct (m s) as [[a|e] s1]; destruct (Hm _ _ Hs eq_refl) as [Hs1 HR]; [|done].
  apply Hk; auto.
Qed.

Lemma preserves_run {A} (m : ST S E A) `{!Preserves P m} s r s' :
  P s → m s = (r, s') → P s'.
Proof. intros Hs H. pose proof (preserves (m := m) s Hs) as K. by rewrite H in K. Qed.
End preserves.

(** Walk over the code of a command: binds, branches, then the instances. *)
Ltac solve_frame :=
  repeat first
    [ progress intros
    | apply _
    | apply keeps_bind
    | apply preserves_bind
    | match goal with
      | |- Keeps _ (match ?x with _ => _ end) => destruct x
      | |- Preserves _ (match ?x with _ => _ end) => destruct x
      | |- Keeps _ (if ?x then _ else _) => destruct x
      | |- Preserves _ (if ?x then _ else _) => destruct x
      end ].

(** ** Relations *)

(** The last step of a non-empty path. *)
Lemma tc_inv_r {A} (R : relation A) x z : tc R x z → ∃ y, rtc R x y ∧ R y z.
Proof.
  induction 1 as [x y Hxy|x y z Hxy Hyz (y' & Hy & Hz)]; [by exists x|].
  exists y'. split; [by eapply rtc_l|done].
Qed.

Lemma tc_l_rtc {A} (R : relation A) x y z : R x y → rtc R y z → tc R x z.
Proof. intros. by eapply tc_rtc_r; [by constructor|]. Qed.

(** ** Sets *)

Lemma prefix_snoc_inv {A} (q p : list A) x : q `prefix_of` p ++ [x] → q = p ++ [x] ∨ q `prefix_of` p.
Proof.
  intros [k E]. destruct k as [|y k _] using rev_ind; [left; by rewrite app_nil_r in E|].
  rewrite app_assoc in E. apply app_inj_tail in E as [-> _]. right. by apply prefix_app_r.
Qed.
Lemma prefix_comparable {A} (p q l : list A) :
  p `prefix_of` l → q `prefix_of` l → p `prefix_of` q ∨ q `prefix_of` p.
Proof.
  intros [k ->] [k' E]. revert q E. induction p as [|x p IH]; intros q E.
  - left. apply prefix_nil.
  - destruct q as [|y q]; [right; apply prefix_nil|]. injection E as <- E.
    destruct (IH q E); [left|right]; by apply prefix_cons.
Qed.

Lemma size_list_to_set_le (l : list string) : size (list_to_set l : gset string) ≤ length l.
Proof.
  induction l as [|x l IH]; [done|]. cbn [list_to_set length].
  rewrite size_union_alt, size_singleton.
  assert (size (list_to_set l ∖ {[x]} : gset string) ≤ size (list_to_set l : gset string));
    [apply subseteq_size; set_solver|lia].
Qed.

(** ** Iterator adapters: [find], [position], [min_by], [max_by]. *)

Section iter.
Context {A : Type}.

Definition find_first (P : A → Prop) `{∀ x, Decision (P x)} (l : list A) : option A :=
  snd <$> list_find P l.
Definition position (P : A → Prop) `{∀ x, Decision (P x)} (l : list A) : option nat :=
  fst <$> list_find P l.

(** [R] is the order [≤]. [min_by] keeps the first of equal elements, [max_by] the
    last. *)
Definition min_by (R : relation A) `{!RelDecision R} (l : list A) : option A :=
  match l with
  | [] => None
  | x :: l => Some (foldl (λ a b, if decide (R a b) then a else b) x l)
  end.
Definition max_by (R : relation A) `{!RelDecision R} (l : list A) : option A :=
  match l with
  | [] => None
  | x :: l => Some (foldl (λ a b, if decide (R a b) then b else a) x l)
  end.

Lemma find_first_Some (P : A → Prop) `{∀ x, Decision (P x)} l x :
  find_first P l = Some x → x ∈ l ∧ P x.
Proof.
  unfold find_first. intros ([i y] & Hf & ->)%fmap_Some.
  apply list_find_Some in Hf as (Hi & HP & _). split; [|done].
  by eapply list_elem_of_lookup_2.
Qed.
Lemma find_first_None (P : A → Prop) `{∀ x, Decision (P x)} l :
  find_first P l = None ↔ Forall (λ x, ¬ P x) l.
Proof. unfold find_first. by rewrite fmap_None, list_find_None. Qed.

Lemma min_by_foldl_spec (R : relation A) `{!RelDecision R, !PreOrder R, !Total R} x l :
  let y := foldl (λ a b, if decide (R a b) then a else b) x l in
  y ∈ x :: l ∧ ∀ z, z ∈ x :: l → R y z.
Proof.
  revert x. induction l as [|b l IH]; intros x; simpl.
  { split; [set_solver|]. intros z ->%list_elem_of_singleton. done. }
  destruct (IH (if decide (R x b) then x else b)) as [H1 H2]. split.
  - case_decide; set_solver.
  - intros z Hz. case_decide as Hd.
    + apply elem_of_cons in Hz as [->|Hz]; [apply H2; set_solver|].
      apply elem_of_cons in Hz as [->|Hz]; [|apply H2; set_solver].
      transitivity x; [apply H2; set_solver|done].
    + assert (R b x) by (destruct (total R x b); done).
      apply elem_of_cons in Hz as [->|Hz]; [|apply H2; set_solver].
      transitivity b; [apply H2; set_solver|done].
Qed.
(** [min_by] gives a least element of a non-empty list. *)
Lemma min_by_Some (R : relation A) `{!RelDecision R, !PreOrder R, !Total R} l x :
  min_by R l = Some x → x ∈ l ∧ ∀ y, y ∈ l → R x y.
Proof. destruct l as [|a l]; [done|]. intros [= <-]. apply (min_by_foldl_spec R). Qed.
Lemma max_by_foldl_spec (R : relation A) `{!RelDecision R, !PreOrder R, !Total R} x l :
  let y := foldl (λ a b, if decide (R a b) then b else a) x l in
  y ∈ x :: l ∧ ∀ z, z ∈ x :: l → R z y.
Proof.
  revert x. induction l as [|b l IH]; intros x; simpl.
  { split; [set_solver|]. intros z ->%list_elem_of_singleton. done. }
  destruct (IH (if decide (R x b) then b else x)) as [H1 H2]. split.
  - case_decide; set_solver.
  - intros z Hz. case_decide as Hd.
    + apply elem_of_cons in Hz as [->|Hz]; [|apply H2; set_solver].
      transitivity b; [done|apply H2; set_solver].
    + assert (R b x) by (destruct (total R x b); done).
      apply elem_of_cons in Hz as [->|Hz]; [apply H2; set_solver|].
      apply elem_of_cons in Hz as [->|Hz]; [|apply H2; set_solver].
      transitivity x; [done|apply H2; set_solver].
Qed.
Lemma max_by_Some (R : relation A) `{!RelDecision R, !PreOrder R, !Total R} l x :
  max_by R l = Some x → x ∈ l ∧ ∀ y, y ∈ l → R y x.
Proof. destruct l as [|a l]; [done|]. intros [= <-]. apply (max_by_foldl_spec R). Qed.
Lemma max_by_None (R : relation A) `{!RelDecision R} l : max_by R l = None ↔ l = [].
Proof. by destruct l. Qed.
Lemma min_by_None (R : relation A) `{!RelDecision R} l : min_by R l = None ↔ l = [].
Proof. by destruct l. Qed.
End iter.
