(* ===== verification/RustStr.v ===== *)
(** * Rust string operations

    The operations of [str] and [String] that the modelled code calls, on
    [string] seen as the UTF-8 bytes of the Rust value. An operation on [char]s
    (whitespace, [chars]) reads the UTF-8 encoding; an operation on ASCII reads
    the bytes, which is the same thing because no byte of a multi-byte UTF-8
    sequence is ASCII. *)

From S2P Require Import Prelude.

Definition chr (c : ascii) : string := String c "".
(** The double quote character. *)
Definition dq : string := chr "034".
Definition nl : string := chr "010".

Definition code (c : ascii) : N := Ascii.N_of_ascii c.
Definition in_range (lo hi : N) (c : ascii) : bool :=
  bool_decide (lo ≤ code c ∧ code c ≤ hi)%N.

(** [char::is_ascii_digit], [is_ascii_lowercase], ... *)
Definition is_ascii_digit : ascii → bool := in_range 48 57.
Definition is_ascii_upper : ascii → bool := in_range 65 90.
Definition is_ascii_lower : ascii → bool := in_range 97 122.
Definition is_ascii_alphanumeric (c : ascii) : bool :=
  is_ascii_digit c || is_ascii_upper c || is_ascii_lower c.

(** [char::to_ascii_lowercase]. *)
Definition ascii_lower (c : ascii) : ascii :=
  if is_ascii_upper c then Ascii.ascii_of_N (code c + 32) else c.

Fixpoint string_map (f : ascii → ascii) (s : string) : string :=
  match s with
  | "" => ""
  | String c s => String (f c) (string_map f s)
  end.
Definition to_ascii_lowercase : string → string := string_map ascii_lower.

(** [s.chars().all(p)] for a predicate on ASCII characters. *)
Fixpoint str_all (p : ascii → bool) (s : string) : bool :=
  match s with
  | "" => true
  | String c s => p c && str_all p s
  end.

(** [s.contains(c)]. *)
Definition str_contains_char (c : ascii) (s : string) : bool :=
  negb (str_all (λ d, negb (Ascii.eqb d c)) s).

(** [slice.join(sep)]. *)
Fixpoint join (sep : string) (l : list string) : string :=
  match l with
  | [] => ""
  | [x] => x
  | x :: l => x +:+ sep +:+ join sep l
  end.

(** [s.strip_prefix(p)] and [s.starts_with(p)]. *)
Fixpoint strip_prefix (p s : string) : option string :=
  match p, s with
  | "", _ => Some s
  | String a p, String b s => if Ascii.eqb a b then strip_prefix p s else None
  | String _ _, "" => None
  end.
Definition starts_with (p s : string) : bool := bool_decide (is_Some (strip_prefix p s)).

(** [s[n..]] and [s.ends_with(t)]. *)
Fixpoint str_drop (n : nat) (s : string) : string :=
  match n, s with
  | S n, String _ s => str_drop n s
  | _, _ => s
  end.
Fixpoint str_take (n : nat) (s : string) : string :=
  match n, s with
  | S n, String c s => String c (str_take n s)
  | _, _ => ""
  end.
Definition ends_with (t s : string) : bool :=
  bool_decide (String.length t ≤ String.length s) &&
  bool_decide (str_drop (String.length s - String.length t) s = t).

(** [s.find(sub)]: the byte index of the first occurrence, with the rest after it. *)
Fixpoint find_sub (sub s : string) : option (string * string) :=
  match strip_prefix sub s with
  | Some rest => Some ("", rest)
  | None =>
    match s with
    | "" => None
    | String c s =>
      match find_sub sub s with
      | Some (before, after) => Some (String c before, after)
      | None => None
      end
    end
  end.

(** [s.split(p)] for a predicate on ASCII characters: always one part more than
    there are separators. *)
Fixpoint split_on (p : ascii → bool) (s : string) : list string :=
  match s with
  | "" => [""]
  | String c s =>
    if p c then "" :: split_on p s
    else match split_on p s with
         | x :: l => String c x :: l
         | [] => [chr c]
         end
  end.

(** The bytes of the whitespace character that starts [s], 0 when none does:
    the characters with the Unicode property White_Space, in UTF-8. *)
Definition ws_len (s : string) : nat :=
  match s with
  | String a s1 =>
    if in_range 9 13 a || bool_decide (code a = 32)%N then 1
    else match s1 with
    | String b s2 =>
      if bool_decide (code a = 194)%N && (bool_decide (code b = 133)%N || bool_decide (code b = 160)%N)
      then 2
      else match s2 with
      | String c _ =>
        if (bool_decide (code a = 225)%N && bool_decide (code b = 154)%N && bool_decide (code c = 128)%N)
         || (bool_decide (code a = 226)%N && bool_decide (code b = 128)%N &&
             (in_range 128 138 c || bool_decide (code c = 168)%N || bool_decide (code c = 169)%N
              || bool_decide (code c = 175)%N))
         || (bool_decide (code a = 226)%N && bool_decide (code b = 129)%N && bool_decide (code c = 159)%N)
         || (bool_decide (code a = 227)%N && bool_decide (code b = 128)%N && bool_decide (code c = 128)%N)
        then 3 else 0
      | "" => 0
      end
    | "" => 0
    end
  | "" => 0
  end.

Definition nonempty_piece (s : string) : list string :=
  if decide (s = "") then [] else [s].

(** [s.split_whitespace()]: [skip] counts the bytes left of a whitespace
    character, [cur] is the word read so far. *)
Fixpoint split_ws_go (skip : nat) (cur s : string) : list string :=
  match s with
  | "" => nonempty_piece cur
  | String c s' =>
    match skip with
    | S k => split_ws_go k cur s'
    | 0 =>
      match ws_len s with
      | S k => nonempty_piece cur ++ split_ws_go k "" s'
      | 0 => split_ws_go 0 (cur +:+ chr c) s'
      end
    end
  end.
Definition split_whitespace (s : string) : list string := split_ws_go 0 "" s.

(** [s.trim()]. [trim_end] keeps the text up to the last non-whitespace byte. *)
Fixpoint trim_start_go (skip : nat) (s : string) : string :=
  match s with
  | "" => ""
  | String _ s' =>
    match skip with
    | S k => trim_start_go k s'
    | 0 => match ws_len s with S k => trim_start_go k s' | 0 => s end
    end
  end.
Definition trim_start (s : string) : string := trim_start_go 0 s.

Fixpoint trim_end_go (skip : nat) (pend s : string) : string :=
  match s with
  | "" => ""
  | String c s' =>
    match skip with
    | S k => trim_end_go k (pend +:+ chr c) s'
    | 0 =>
      match ws_len s with
      | S k => trim_end_go k (pend +:+ chr c) s'
      | 0 => pend +:+ chr c +:+ trim_end_go 0 "" s'
      end
    end
  end.
Definition trim_end (s : string) : string := trim_end_go 0 "" s.
Definition trim (s : string) : string := trim_end (trim_start s).

(** [s.rsplit_once(c)]: the text before and after the last [c]. *)
Fixpoint rsplit_once (c : ascii) (s : string) : option (string * string) :=
  match s with
  | "" => None
  | String d s =>
    match rsplit_once c s with
    | Some (a, b) => Some (String d a, b)
    | None => if Ascii.eqb d c then Some ("", s) else None
    end
  end.

(** [s.split_once(c)]: the text before and after the first [c]. *)
Fixpoint split_once (c : ascii) (s : string) : option (string * string) :=
  match s with
  | "" => None
  | String d s =>
    if Ascii.eqb d c then Some ("", s)
    else match split_once c s with
         | Some (a, b) => Some (String d a, b)
         | None => None
         end
  end.

(** The value of a string of ASCII digits, and [str::parse] for an unsigned type
    of maximum [max]: an optional [+], at least one digit, and no overflow. *)
Fixpoint digits_value (acc : N) (s : string) : option N :=
  match s with
  | "" => Some acc
  | String c s =>
    if is_ascii_digit c then digits_value (acc * 10 + (code c - 48)) s else None
  end.
Definition parse_unsigned (max : N) (s : string) : option N :=
  let digits := match s with String "+" s' => s' | _ => s end in
  match digits with
  | "" => None
  | _ => n ← digits_value 0 digits; if decide (n ≤ max)%N then Some n else None
  end.
Definition u32_max : N := 4294967295.
(** u32 arithmetic that stops at the end of the range, and its difference that stops at zero. *)
Definition saturating_add32 (a b : N) : N := N.min (a + b) u32_max.
Definition saturating_mul32 (a b : N) : N := N.min (a * b) u32_max.
Definition saturating_sub32 (a b : N) : N := a - b.
Definition u64_max : N := 18446744073709551615.

(** [a.cmp(&b)] on strings is the byte order. *)
Definition str_le (a b : string) : Prop := String.le a b.
Global Instance str_le_dec : RelDecision str_le := _.

(** [s.strip_suffix(t)]. *)
Fixpoint strip_suffix (t s : string) : option string :=
  if decide (s = t) then Some ""
  else match s with
       | "" => None
       | String c s => String c <$> strip_suffix t s
       end.

(** [s.chars()]: each character with its UTF-8 bytes. A byte that continues a sequence
    belongs to the character before it. *)
Definition is_continuation (c : ascii) : bool := in_range 128 191 c.
Fixpoint chars (s : string) : list string :=
  match s with
  | "" => []
  | String c s' =>
    match s' with
    | "" => [chr c]
    | String d _ =>
      if is_continuation d then
        match chars s' with
        | x :: l => String c x :: l
        | [] => [chr c]
        end
      else chr c :: chars s'
    end
  end.
(** [chars.collect::<String>()]. *)
Definition of_chars (l : list string) : string := join "" l.

(** [s.contains(char::is_whitespace)]. *)
Fixpoint has_whitespace (s : string) : bool :=
  match s with
  | "" => false
  | String _ s' => bool_decide (0 < ws_len s) || has_whitespace s'
  end.

(** The entries of a [BTreeMap<String, _>] in its iteration order. *)
Definition entry_le {A} (a b : string * A) : Prop := str_le a.1 b.1.
Global Instance entry_le_dec {A} : RelDecision (@entry_le A) := λ a b, str_le_dec a.1 b.1.
Definition btree_entries {A} (m : gmap string A) : list (string * A) :=
  merge_sort entry_le (map_to_list m).

(** ** Lemmas *)

Lemma str_app_nil_l s : "" +:+ s = s.
Proof. done. Qed.
Lemma str_app_cons c s t : String c s +:+ t = String c (s +:+ t).
Proof. done. Qed.
Lemma str_app_nil_r s : s +:+ "" = s.
Proof. induction s as [|c s IH]; [done|]. by rewrite str_app_cons, IH. Qed.
Lemma str_app_assoc s t u : (s +:+ t) +:+ u = s +:+ t +:+ u.
Proof. induction s as [|c s IH]; [done|]. by rewrite !str_app_cons, IH. Qed.
Lemma str_length_app s t : String.length (s +:+ t) = String.length s + String.length t.
Proof. induction s as [|c s IH]; [done|]. rewrite str_app_cons. simpl. lia. Qed.

#[export] Hint Rewrite str_app_nil_l str_app_nil_r str_app_assoc str_length_app : llmenv.
(** Concatenations to the right, without empty parts, and their lengths as sums. *)
Ltac str_simpl := autorewrite with llmenv.

Lemma str_all_app p s t : str_all p (s +:+ t) = str_all p s && str_all p t.
Proof.
  induction s as [|c s IH]; [done|]. rewrite str_app_cons. simpl.
  by rewrite IH, andb_assoc.
Qed.
Lemma str_all_impl (p q : ascii → bool) s :
  (∀ c, p c = true → q c = true) → str_all p s = true → str_all q s = true.
Proof.
  intros Hpq. induction s as [|c s IH]; [done|]. simpl.
  rewrite !andb_true_iff. naive_solver.
Qed.
Lemma str_all_map p f s : str_all p (string_map f s) = str_all (λ c, p (f c)) s.
Proof. induction s as [|c s IH]; [done|]. simpl. by rewrite IH. Qed.

Lemma str_all_join (p : ascii → bool) sep l :
  str_all p sep = true →
  Forall (λ x, str_all p x = true) l → str_all p (join sep l) = true.
Proof.
  intros Hsep. induction l as [|x [|y l] IH]; intros Hl; inv Hl; [done..|].
  change (str_all p (x +:+ sep +:+ join sep (y :: l)) = true).
  rewrite !str_all_app, Hsep, IH by done. by rewrite andb_true_r.
Qed.

Lemma split_on_nonempty p s : split_on p s ≠ [].
Proof.
  destruct s as [|c s]; [done|]. simpl. destruct (p c); [done|].
  by destruct (split_on p s).
Qed.

(** No part of a split holds a separator. *)
Lemma split_on_parts p s : Forall (λ x, str_all (λ c, negb (p c)) x = true) (split_on p s).
Proof.
  induction s as [|c s IH]; [by repeat constructor|]. simpl.
  destruct (p c) eqn:Hc; [by constructor|].
  destruct (split_on p s) as [|x l]; [constructor; [|done]; simpl; by rewrite Hc|].
  inv IH. constructor; [|done]. simpl. by rewrite Hc.
Qed.

Lemma split_on_app_sep p x c s :
  str_all (λ c, negb (p c)) x = true → p c = true →
  split_on p (x +:+ String c s) = x :: split_on p s.
Proof.
  intros Hx Hc. induction x as [|d x IH].
  - rewrite str_app_nil_l. simpl. by rewrite Hc.
  - simpl in Hx. apply andb_true_iff in Hx as [Hd Hx].
    rewrite str_app_cons. simpl. rewrite (IH Hx).
    by destruct (p d).
Qed.

Lemma split_on_none p x : str_all (λ c, negb (p c)) x = true → split_on p x = [x].
Proof.
  induction x as [|d x IH]; [done|]. simpl. intros [Hd Hx]%andb_true_iff.
  rewrite (IH Hx). by destruct (p d).
Qed.

(** [split] undoes [join] for parts without separators. *)
Lemma split_on_join p c l :
  p c = true → l ≠ [] → Forall (λ x, str_all (λ c, negb (p c)) x = true) l →
  split_on p (join (chr c) l) = l.
Proof.
  intros Hc. induction l as [|x [|y l] IH]; intros Hne Hl; [done|..]; inv Hl.
  - by apply split_on_none.
  - change (split_on p (x +:+ String c (join (chr c) (y :: l))) = x :: y :: l).
    rewrite split_on_app_sep by done. by rewrite IH.
Qed.

Lemma split_ws_none cur s :
  (∀ a b, s = a +:+ b → ws_len b = 0) →
  split_ws_go 0 cur s = nonempty_piece (cur +:+ s).
Proof.
  revert cur. induction s as [|c s IH]; intros cur Hs.
  - by rewrite str_app_nil_r.
  - assert (Hw : ws_len (String c s) = 0) by (by apply (Hs "")).
    cbn [split_ws_go]. rewrite Hw. rewrite IH.
    + by rewrite str_app_assoc.
    + intros a b ->. by apply (Hs (String c a)).
Qed.

Lemma strip_prefix_app p s : strip_prefix p (p +:+ s) = Some s.
Proof.
  induction p as [|c p IH]; [done|]. rewrite str_app_cons. simpl.
  by rewrite Ascii.eqb_refl.
Qed.
Lemma strip_prefix_Some p s r : strip_prefix p s = Some r ↔ s = p +:+ r.
Proof.
  split; [|intros ->; apply strip_prefix_app].
  revert s. induction p as [|c p IH]; intros s; [simpl; naive_solver|].
  destruct s as [|d s]; [done|]. simpl.
  destruct (Ascii.eqb_spec c d) as [->|]; [|done].
  intros ->%IH. done.
Qed.

(** [find] returns the first occurrence. *)
Lemma find_sub_Some sub s a b : find_sub sub s = Some (a, b) → s = a +:+ sub +:+ b.
Proof.
  revert a. induction s as [|c s IH]; intros a; cbn [find_sub].
  - destruct (strip_prefix sub "") as [r|] eqn:Hp; [|done].
    intros. simplify_eq. by apply strip_prefix_Some in Hp.
  - destruct (strip_prefix sub (String c s)) as [r|] eqn:Hp.
    { intros. simplify_eq. by apply strip_prefix_Some in Hp. }
    destruct (find_sub sub s) as [[a' b']|]; [|done].
    intros. simplify_eq. by rewrite str_app_cons, <-(IH a').
Qed.

Lemma str_app_inj_r s t u : s +:+ u = t +:+ u → s = t.
Proof.
  revert t. induction s as [|c s IH]; intros [|d t]; [done|..].
  - rewrite str_app_nil_l, str_app_cons. intros E.
    apply (f_equal String.length) in E. simpl in E. rewrite str_length_app in E. lia.
  - rewrite str_app_nil_l, str_app_cons. intros E.
    apply (f_equal String.length) in E. simpl in E. rewrite str_length_app in E. lia.
  - rewrite !str_app_cons. intros E. simplify_eq. f_equal. by apply IH.
Qed.

Lemma rsplit_once_app c s t :
  str_contains_char c t = false → rsplit_once c (s +:+ String c t) = Some (s, t).
Proof.
  unfold str_contains_char. rewrite negb_false_iff. intros Ht.
  assert (Hn : rsplit_once c t = None).
  { induction t as [|d t IH]; [done|]. simpl in *. apply andb_true_iff in Ht as [Hd Ht].
    rewrite (IH Ht). by destruct (Ascii.eqb d c). }
  induction s as [|d s IH].
  - rewrite str_app_nil_l. simpl. by rewrite Hn, Ascii.eqb_refl.
  - rewrite str_app_cons. simpl. by rewrite IH.
Qed.

Lemma contains_char_cons c d s :
  str_contains_char c (String d s) = Ascii.eqb d c || str_contains_char c s.
Proof. unfold str_contains_char. simpl. by rewrite negb_andb, negb_involutive. Qed.

Lemma rsplit_once_None c s : rsplit_once c s = None ↔ str_contains_char c s = false.
Proof.
  induction s as [|d s IH]; [done|]. simpl. rewrite contains_char_cons, orb_false_iff.
  destruct (rsplit_once c s) as [[a b]|].
  - split; [done|]. intros [_ H]. by apply IH in H.
  - destruct (Ascii.eqb d c); naive_solver.
Qed.

Lemma rsplit_once_Some c s a b :
  rsplit_once c s = Some (a, b) ↔ s = a +:+ String c b ∧ str_contains_char c b = false.
Proof.
  split; [|intros [-> H]; by apply rsplit_once_app].
  revert a. induction s as [|d s IH]; intros a; [done|]. simpl.
  destruct (rsplit_once c s) as [[a' b']|] eqn:E.
  - intros [= <- <-]. destruct (IH a' eq_refl) as [-> ?]. by rewrite str_app_cons.
  - destruct (Ascii.eqb d c) eqn:Hd; [|done]. intros [= <- <-].
    apply Ascii.eqb_eq in Hd as ->. rewrite str_app_nil_l. split; [done|]. by apply rsplit_once_None.
Qed.

Lemma str_take_length n s : String.length (str_take n s) = Nat.min n (String.length s).
Proof. revert s. induction n as [|n IH]; intros [|c s]; cbn; [done..|]. by rewrite IH. Qed.
Lemma str_take_drop n s : str_take n s +:+ str_drop n s = s.
Proof. revert s. induction n as [|n IH]; intros [|c s]; [done..|]. cbn [str_take str_drop]. by rewrite str_app_cons, IH. Qed.
Lemma str_drop_app s t : str_drop (String.length s) (s +:+ t) = t.
Proof. induction s as [|c s IH]; [by destruct t|]. by rewrite str_app_cons. Qed.
Lemma str_drop_drop n k s : str_drop n (str_drop k s) = str_drop (k + n) s.
Proof.
  revert s. induction k as [|k IH]; intros [|c s]; simpl; try done; by destruct n.
Qed.

Lemma ends_with_spec t s : ends_with t s = true ↔ ∃ x, s = x +:+ t.
Proof.
  unfold ends_with. rewrite andb_true_iff, !bool_decide_eq_true. split.
  - intros [Hl Hd]. revert Hd. remember (String.length s - String.length t) as n eqn:Hn.
    assert (Hn' : n ≤ String.length s) by lia. clear Hn Hl. revert n Hn'.
    induction s as [|c s IH]; intros n Hn Hd.
    + destruct n; [|simpl in Hn; lia]. by exists "".
    + destruct n as [|n].
      * by exists "".
      * simpl in Hn, Hd. destruct (IH n) as [x ->]; [lia|done|]. by exists (String c x).
  - intros [x ->]. rewrite str_length_app. split; [lia|].
    replace (_ + _ - _) with (String.length x) by lia. apply str_drop_app.
Qed.

Lemma starts_with_spec p s : starts_with p s = true ↔ ∃ r, s = p +:+ r.
Proof.
  unfold starts_with. rewrite bool_decide_eq_true. split.
  - intros [r Hr]. exists r. by apply strip_prefix_Some.
  - intros [r Hr]. exists r. by apply strip_prefix_Some.
Qed.

(** ** Decimal numbers *)

Lemma str_append_String (s t : string) : String.append s t = s +:+ t.
Proof. done. Qed.

Lemma digits_value_app acc s t : digits_value acc (s +:+ t) = digits_value acc s ≫= λ a, digits_value a t.
Proof.
  revert acc. induction s as [|c s IH]; intros acc; [done|]. rewrite str_app_cons. cbn [digits_value].
  by case_match.
Qed.

Lemma pretty_N_char_digit n : (n < 10)%N →
  is_ascii_digit (pretty_N_char n) = true ∧ (code (pretty_N_char n) - 48 = n)%N.
Proof.
  intros Hn. assert (Hc : n ∈ (N.of_nat <$> seq 0 10)).
  { rewrite list_elem_of_fmap. exists (N.to_nat n). rewrite elem_of_seq. lia. }
  clear Hn. revert n Hc. apply Forall_forall. repeat constructor.
Qed.

Lemma pretty_N_go_value n s acc :
  digits_value acc (pretty_N_go n s) =
  digits_value (acc * 10 ^ N.of_nat (String.length (pretty_N_go n "")) + n) s.
Proof.
  revert s acc. induction (N.lt_wf_0 n) as [n _ IH]; intros s acc.
  destruct (decide (n = 0)%N) as [->|Hn].
  { rewrite !pretty_N_go_0. simpl. f_equal. lia. }
  rewrite !(pretty_N_go_step n) by lia.
  assert (Hl : (n `div` 10 < n)%N) by (apply N.div_lt; lia).
  assert (Hlen : ∀ m t, String.length (pretty_N_go m t) = String.length (pretty_N_go m "") + String.length t).
  { clear. intros m. induction (N.lt_wf_0 m) as [m _ IH]; intros t.
    destruct (decide (m = 0)%N) as [->|Hm]; [by rewrite !pretty_N_go_0|].
    rewrite !(pretty_N_go_step m) by lia. assert (Hm' : (m `div` 10 < m)%N) by (apply N.div_lt; lia).
    rewrite (IH _ Hm' (String _ t)), (IH _ Hm' (String _ "")). simpl. lia. }
  rewrite IH by done. cbn [digits_value].
  destruct (pretty_N_char_digit (n `mod` 10)) as [-> ->]; [by apply N.mod_lt|].
  f_equal. rewrite (Hlen _ (String _ "")). simpl.
  rewrite Nat2N.inj_add, N.pow_add_r. change (10 ^ N.of_nat 1)%N with 10%N.
  pose proof (N.div_mod n 10). lia.
Qed.

(** [str::parse] reads back what [Display] wrote. *)
Lemma digits_value_pretty (n : N) : digits_value 0 (pretty n) = Some n.
Proof.
  destruct (decide (n = 0)%N) as [->|Hn]; [done|].
  unfold pretty, pretty_N. rewrite decide_False by done. by rewrite pretty_N_go_value.
Qed.

Lemma pretty_digits (n : N) : pretty n ≠ "" ∧ str_all is_ascii_digit (pretty n) = true.
Proof.
  assert (Hd : ∀ s acc, is_Some (digits_value acc s) → str_all is_ascii_digit s = true).
  { induction s as [|c s IH]; intros acc [v H]; [done|]. cbn in *. destruct (is_ascii_digit c); [|done].
    by eapply IH. }
  pose proof (digits_value_pretty n) as H. split; [|by apply (Hd _ 0%N); rewrite H].
  intros E. rewrite E in H. injection H as <-. done.
Qed.
Lemma parse_pretty (max i : N) : (i ≤ max)%N → parse_unsigned max (pretty i) = Some i.
Proof.
  intros Hi. destruct (pretty_digits i) as [Hne Hd]. unfold parse_unsigned.
  assert (E : match pretty i with String "+" s' => s' | _ => pretty i end = pretty i).
  { destruct (pretty i) as [|c s]; [done|]. cbn [str_all] in Hd. apply andb_true_iff in Hd as [Hc _].
    destruct c as [[] [] [] [] [] [] [] []]; done. }
  rewrite E, (digits_value_pretty i). destruct (pretty i); [done|]. cbn. by rewrite decide_True.
Qed.

(** ** Characters *)

Lemma strip_suffix_Some t s x : strip_suffix t s = Some x ↔ s = x +:+ t.
Proof.
  revert x. induction s as [|c s IH]; intros x; cbn [strip_suffix].
  - case_decide as E; [subst t|].
    + split; [by intros [= <-]|]. intros Hx. by destruct x.
    + split; [done|]. intros Hx. destruct x; [by destruct E|done].
  - case_decide as E; [subst t|].
    + split; [by intros [= <-]|]. intros Hx. f_equal. apply (str_app_inj_r "" x (String c s)). done.
    + rewrite fmap_Some. split.
      * intros (y & Hy & ->). apply IH in Hy. by rewrite str_app_cons, <-Hy.
      * intros Hx. destruct x as [|d x]; [by destruct E|]. rewrite str_app_cons in Hx. injection Hx as <- Hx.
        exists x. split; [by apply IH|done].
Qed.

(** One character: a first byte and the bytes that continue it. *)
Definition is_char (x : string) : Prop :=
  ∃ c r, x = String c r ∧ is_continuation c = false ∧ str_all is_continuation r = true.
(** A text that starts with a character, as every Rust text does. *)
Definition starts_char (s : string) : bool :=
  match s with String c _ => negb (is_continuation c) | "" => true end.

Lemma chars_cons c s :
  chars (String c s) =
  if starts_char s then chr c :: chars s
  else match chars s with x :: l => String c x :: l | [] => [chr c] end.
Proof. destruct s as [|d s]; [done|]. cbn [chars starts_char]. by destruct (is_continuation d). Qed.

Lemma chars_shape s :
  match chars s with
  | [] => s = ""
  | x :: l => (∃ c r s', s = String c s' ∧ x = String c r ∧ str_all is_continuation r = true) ∧ Forall is_char l
  end.
Proof.
  induction s as [|c s IH]; [done|]. rewrite chars_cons. destruct (starts_char s) eqn:Hs.
  - split; [by exists c, "", s|]. destruct (chars s) as [|x l]; [done|].
    destruct IH as [(d & r & s' & -> & -> & Hr) Hl]. constructor; [|done]. exists d, r.
    cbn in Hs. by rewrite negb_true_iff in Hs.
  - destruct (chars s) as [|x l]; [by rewrite IH in Hs|].
    destruct IH as [(d & r & s' & -> & -> & Hr) Hl]. split; [|done]. exists c, (String d r), (String d s').
    split_and!; [done..|]. cbn in *. rewrite negb_false_iff in Hs. by rewrite Hs, Hr.
Qed.
Lemma chars_is_char s : starts_char s = true → Forall is_char (chars s).
Proof.
  intros Hs. pose proof (chars_shape s) as H. destruct (chars s) as [|x l]; [done|].
  destruct H as [(c & r & s' & -> & -> & Hr) Hl]. constructor; [|done]. exists c, r.
  cbn in Hs. by rewrite negb_true_iff in Hs.
Qed.

Lemma of_chars_cons x l : of_chars (x :: l) = x +:+ of_chars l.
Proof. destruct l; [|done]. cbn. by rewrite str_app_nil_r. Qed.
Lemma of_chars_chars s : of_chars (chars s) = s.
Proof.
  induction s as [|c s IH]; [done|]. rewrite chars_cons. destruct (starts_char s).
  - by rewrite of_chars_cons, IH.
  - destruct (chars s) as [|x l] eqn:E; [by rewrite <-IH|]. rewrite of_chars_cons in *.
    by rewrite str_app_cons, IH.
Qed.

Lemma chars_of_run c r l : str_all is_continuation r = true → chars (of_chars l) = l → starts_char (of_chars l) = true →
  chars (String c r +:+ of_chars l) = String c r :: l.
Proof.
  intros Hr IH Hs. rewrite str_app_cons. revert c. induction r as [|d r IHr]; intros c.
  - rewrite str_app_nil_l, chars_cons, Hs. by rewrite IH.
  - cbn in Hr. apply andb_true_iff in Hr as [Hd Hr]. rewrite str_app_cons, chars_cons. cbn [starts_char].
    rewrite Hd. cbn [negb]. by rewrite (IHr Hr).
Qed.
Lemma chars_of_chars l : Forall is_char l → chars (of_chars l) = l ∧ starts_char (of_chars l) = true.
Proof.
  induction 1 as [|x l (c & r & -> & Hc & Hr) Hl [IH Hs]]; [done|]. rewrite of_chars_cons.
  split; [by apply chars_of_run|]. rewrite str_app_cons. cbn. by rewrite Hc.
Qed.
(** The characters of a head of a text. *)
Lemma chars_take n s : chars (of_chars (take n (chars s))) = take n (chars s).
Proof.
  pose proof (chars_shape s) as H. destruct (chars s) as [|x l]; [by rewrite take_nil|].
  destruct H as [(c & r & _ & _ & -> & Hr) Hl]. destruct n as [|n]; [done|]. cbn [take]. rewrite of_chars_cons.
  destruct (chars_of_chars (take n l)) as [IH Hs]; [by apply Forall_take|]. by apply chars_of_run.
Qed.

(** A change of bytes that keeps what continues a character goes through [chars]. *)
Lemma chars_map f s : (∀ c, is_continuation (f c) = is_continuation c) →
  chars (string_map f s) = string_map f <$> chars s.
Proof.
  intros Hf. induction s as [|c s IH]; [done|]. cbn [string_map]. rewrite !chars_cons.
  replace (starts_char (string_map f s)) with (starts_char s) by (destruct s; [done|]; cbn; by rewrite Hf).
  rewrite IH. destruct (starts_char s); [done|]. by destruct (chars s).
Qed.

Lemma btree_entries_perm {A} (m : gmap string A) : btree_entries m ≡ₚ map_to_list m.
Proof. apply merge_sort_Permutation. Qed.
Lemma elem_of_btree {A} (m : gmap string A) k v : (k, v) ∈ btree_entries m ↔ m !! k = Some v.
Proof. rewrite btree_entries_perm. apply elem_of_map_to_list. Qed.

Global Instance entry_le_total {A} : Total (@entry_le A).
Proof. intros a b. unfold entry_le, str_le. apply (total _). Qed.
Global Instance entry_le_trans {A} : Transitive (@entry_le A).
Proof. intros a b c. unfold entry_le, str_le. apply transitivity. Qed.

(** The entries of a map come in the order of the keys, each key once. *)
Definition key_before {A} (a b : string * A) : Prop := str_le a.1 b.1 ∧ a.1 ≠ b.1.
Lemma btree_entries_sorted {A} (m : gmap string A) : StronglySorted key_before (btree_entries m).
Proof.
  assert (Hs : StronglySorted entry_le (btree_entries m)).
  { apply (StronglySorted_merge_sort _). }
  assert (Hd : NoDup (btree_entries m).*1).
  { rewrite btree_entries_perm. apply NoDup_fst_map_to_list. }
  induction Hs as [|x l Hs IH Hx]; [constructor|]. rewrite fmap_cons in Hd.
  apply NoDup_cons in Hd as [Hn Hd]. constructor; [by apply IH|].
  rewrite Forall_forall in *. intros y Hy. split; [by apply Hx|].
  intros E. apply Hn. rewrite E. by apply list_elem_of_fmap_2.
Qed.
