(* ===== verification/Names.v ===== *)
(** * Path names (crates/llmenv-paths/src/names.rs)

    The checks on names and path strings that guard every place where text from
    a user or a file becomes part of a path. [components] is [Path::components]
    on Unix: a leading slash is the root, repeated slashes and inner [.] parts
    vanish, a leading [.] stays. *)

From S2P Require Import Prelude RustStr.

Inductive component :=
| RootDir
| CurDir
| ParentDir
| Normal (s : string).

Global Instance component_eq_dec : EqDecision component.
Proof. solve_decision. Defined.

Definition is_slash (c : ascii) : bool := Ascii.eqb c "/".

Definition component_of (s : string) : list component :=
  if decide (s = "") then []
  else if decide (s = ".") then []
  else if decide (s = "..") then [ParentDir]
  else [Normal s].

Definition is_absolute (path : string) : bool := starts_with "/" path.

Definition components (path : string) : list component :=
  let parts := split_on is_slash path in
  (if is_absolute path then [RootDir]
   else if decide (head parts = Some ".") then [CurDir] else []) ++
  (parts ≫= component_of).

Definition has_parent_component (path : string) : bool :=
  bool_decide (ParentDir ∈ components path).

Definition is_unsafe_join_target (path : string) : bool :=
  is_absolute path || has_parent_component path.

Definition is_short_name_char (c : ascii) : bool :=
  is_ascii_alphanumeric c || Ascii.eqb c "." || Ascii.eqb c "_" || Ascii.eqb c "-".

Definition is_valid_short_name (name : string) : bool :=
  if decide (name = "" ∨ name = "." ∨ name = "..") then false
  else if starts_with "-" name then false
  else str_all is_short_name_char name.

(** [Path::starts_with]: one component list is a prefix of the other. *)
Definition cwd_under_prefix (cwd pre : string) : bool :=
  bool_decide (components pre `prefix_of` components cwd).

(** [Path::join] on Unix, as a string: an absolute argument replaces the base. *)
Definition path_join (base rel : string) : string :=
  if is_absolute rel then rel
  else if decide (base = "") then rel
  else match rsplit_once "/" base with
       | Some (_, "") => base +:+ rel
       | _ => base +:+ "/" +:+ rel
       end.

(** ** Lemmas *)

Lemma short_name_char_not_slash c : is_short_name_char c = true → negb (is_slash c) = true.
Proof.
  unfold is_slash. destruct (Ascii.eqb_spec c "/") as [->|]; [|done].
  vm_compute. done.
Qed.

Lemma valid_short_name_inv s :
  is_valid_short_name s = true →
  s ≠ "" ∧ s ≠ "." ∧ s ≠ ".." ∧ starts_with "-" s = false ∧
  str_all is_short_name_char s = true.
Proof.
  unfold is_valid_short_name. case_decide as H; [done|].
  destruct (starts_with "-" s); [done|]. intros. naive_solver.
Qed.

Lemma valid_short_name_no_slash s :
  is_valid_short_name s = true → split_on is_slash s = [s].
Proof.
  intros (_ & _ & _ & _ & H)%valid_short_name_inv. apply split_on_none.
  eapply str_all_impl; [|exact H]. apply short_name_char_not_slash.
Qed.

Lemma short_name_not_absolute s : is_valid_short_name s = true → is_absolute s = false.
Proof.
  intros H. pose proof (valid_short_name_no_slash s H) as Hs.
  destruct s as [|c s]; [done|]. unfold is_absolute, starts_with. cbn [strip_prefix].
  destruct (Ascii.eqb_spec "/" c) as [<-|]; [|done].
  simpl in Hs. by destruct (split_on is_slash s) as [|? []].
Qed.

(** A valid short name is one normal path component, so joining it to a folder
    names an entry of that folder: no separator, no [..], not absolute. *)
Lemma valid_short_name_component s :
  is_valid_short_name s = true → components s = [Normal s].
Proof.
  intros H. unfold components.
  rewrite (short_name_not_absolute s H), (valid_short_name_no_slash s H).
  apply valid_short_name_inv in H as (H1 & H2 & H3 & _). simpl.
  rewrite decide_False by naive_solver. unfold component_of.
  by rewrite !decide_False by done.
Qed.

Lemma elem_of_components_parent path :
  ParentDir ∈ components path ↔ ".." ∈ split_on is_slash path.
Proof.
  unfold components. rewrite elem_of_app, list_elem_of_bind. split.
  - intros [H|(x & Hx & Hin)].
    + destruct (is_absolute path); [set_solver|].
      case_decide; set_solver.
    + unfold component_of in Hx. repeat case_decide; set_solver.
  - intros H. right. exists "..". split; [|done]. set_solver.
Qed.
