(* ===== verification/HookCommand.v ===== *)
(** * Paths in the hook commands of bundles (src/adapter/hook_command.rs)

    A hook command of a bundle names files of the bundle; a render moves them to the cache folder,
    and the words of the command that name them follow. What the file system says of a path below
    the cache is a parameter. *)

From S2P Require Import Prelude RustStr Names.

Definition SYSTEM_DIRS : list string :=
  ["dev"; "usr"; "bin"; "sbin"; "etc"; "tmp"; "var"; "proc"; "sys"; "opt"; "System"; "Library"].

Definition is_path_char (c : ascii) : bool :=
  is_ascii_alphanumeric c || str_contains_char c "._-+@/".

(** [trim_start_matches] and [trim_end_matches] for a set of ASCII characters. *)
Fixpoint trim_start_chars (p : ascii → bool) (s : string) : string :=
  match s with String c s' => if p c then trim_start_chars p s' else s | "" => "" end.
Fixpoint trim_end_chars (p : ascii → bool) (s : string) : string :=
  match s with
  | "" => ""
  | String c s =>
    let t := trim_end_chars p s in
    if bool_decide (t = "") && p c then "" else String c t
  end.
Definition opens_word (c : ascii) : bool := str_contains_char c (String "034" (String "'" "(")).
Definition closes_word (c : ascii) : bool := str_contains_char c (String "034" (String "'" ";&|)")).
(** The text before a word, the word, and the text after it. *)
Definition split_word (word : string) : string * string * string :=
  let rest := trim_start_chars opens_word word in
  let core := trim_end_chars closes_word rest in
  (str_take (String.length word - String.length rest) word, core, str_drop (String.length core) rest).

(** [split_inclusive(char::is_whitespace)]: each word with the whitespace character after it. *)
Fixpoint chunks_go (skip : nat) (word ws s : string) : list (string * string) :=
  match s with
  | "" => if decide (word = "" ∧ ws = "") then [] else [(word, ws)]
  | String c s' =>
    match skip with
    | S 0 => (word, ws +:+ chr c) :: chunks_go 0 "" "" s'
    | S k => chunks_go k word (ws +:+ chr c) s'
    | 0 =>
      match ws_len s with
      | 0 => chunks_go 0 (word +:+ chr c) "" s'
      | S 0 => (word, chr c) :: chunks_go 0 "" "" s'
      | S k => chunks_go k word (chr c) s'
      end
    end
  end.
Definition chunks (s : string) : list (string * string) := chunks_go 0 "" "" s.
Definition core_of (word : string) : string := (split_word word).1.2.

Definition rewrite_word (f : string → option string) (word : string) : option string :=
  let '(prefix, core, suffix) := split_word word in
  if decide (core = "") then None else new ← f core; Some (prefix +:+ new +:+ suffix).
Definition rewrite_words (command : string) (f : string → option string) : option string :=
  let pieces := map (λ c : string * string, (rewrite_word f c.1, c)) (chunks command) in
  if existsb (λ p, bool_decide (is_Some p.1)) pieces
  then Some (join "" (map (λ p : option string * (string * string), default p.2.1 p.1 +:+ p.2.2) pieces))
  else None.

Definition is_relative_path (word : string) : bool :=
  str_contains_char "/" word &&
  negb (starts_with "/" word || starts_with "~" word || starts_with "$" word || starts_with "-" word) &&
  str_all is_path_char word && negb (is_unsafe_join_target word).
Definition resolve_bundle_relative_paths (command bundle_dir : string) : option string :=
  rewrite_words command (λ word, if is_relative_path word then Some (path_join bundle_dir word) else None).

Definition suffix_matches (word key : string) : bool :=
  ends_with key word &&
  let prefix_len := String.length word - String.length key in
  (bool_decide (prefix_len = 0) || bool_decide (String.get (prefix_len - 1) word = Some "/"%char)).

(** The known file that a word names: the longest that is a suffix at a component boundary. *)
Definition longer (a b : string) : Prop := String.length b ≤ String.length a.
Global Instance longer_dec : RelDecision longer := λ a b, Nat.le_dec (String.length b) (String.length a).
Definition matching_key (known : list string) (word : string) : option string :=
  if str_contains_char "/" word then find_first (λ k, suffix_matches word k = true) (merge_sort longer known) else None.
Definition resolve_command_paths_against_files (command cache_dir : string) (known : list string)
  : result string (option string) :=
  let refused := omap (λ c : string * string, k ← matching_key known (core_of c.1);
                        if is_unsafe_join_target k then Some k else None) (chunks command) in
  match refused with
  | key :: _ => Err key
  | [] => Ok (rewrite_words command (λ word, path_join cache_dir <$> matching_key known word))
  end.

(** ** Paths that stay unresolved *)

Definition is_system_path (rest : string) : bool :=
  match split_on is_slash rest with top :: _ => bool_decide (top ∈ SYSTEM_DIRS) | [] => false end.
Definition is_var_char (c : ascii) : bool := is_ascii_alphanumeric c || Ascii.eqb c "_".
Definition strip_path_root (word : string) : option string :=
  match strip_prefix "~/" word, strip_prefix "/" word with
  | Some rest, _ => Some rest
  | None, Some rest => Some rest
  | None, None =>
    var ← strip_prefix "$" word;
    '(name, after_var) ←
      match strip_prefix "{" var with
      | Some braced => split_once "}" braced
      | None =>
        let after := trim_start_chars is_var_char var in
        Some (str_take (String.length var - String.length after) var, after)
      end;
    if decide (name = "") then None else strip_prefix "/" after_var
  end.
Definition is_script_path (word : string) : bool :=
  match strip_path_root word with
  | None => false
  | Some rest =>
    negb (bool_decide (is_Some (find_sub "//" word))) && negb (bool_decide (rest = "")) && negb (ends_with "/" rest) &&
    str_all is_path_char rest && negb (starts_with "/" word && is_system_path rest)
  end.

Section resolve.
Context (is_within : string → string → bool).

Definition unresolved_path_tokens (command cache : string) : list string :=
  filter (λ w, is_script_path w = true ∧ is_within cache w = false) (map core_of (split_whitespace command)).

(** The warnings that were given, by bundle and path, and those that a command adds. *)
Definition warn_once (name : string) (warned : list (string * string)) (token : string)
  : list (string * string) * list string :=
  if decide ((name, token) ∈ warned) then (warned, []) else ((name, token) :: warned, [token]).
Fixpoint warn_all (name : string) (warned : list (string * string)) (tokens : list string)
  : list (string * string) * list string :=
  match tokens with
  | [] => (warned, [])
  | t :: tokens =>
    let '(warned, now) := warn_once name warned t in
    let '(warned, later) := warn_all name warned tokens in (warned, now ++ later)
  end.

(** [resolve_hook_command]: the command, the set of warnings and the warnings of this call. *)
Definition resolve_hook_command (command : string) (bundle : option string) (out : string) (known : list string)
    (warned : list (string * string)) : result string (string * list (string * string) * list string) :=
  match bundle with
  | None => Ok (command, warned, [])
  | Some name =>
    let relative := resolve_bundle_relative_paths command out in
    by_suffix ← resolve_command_paths_against_files (default command relative) out known;
    let resolved := match by_suffix with Some c => c | None => default command relative end in
    let '(warned, now) := warn_all name warned (unresolved_path_tokens resolved out) in
    Ok (resolved, warned, now)
  end.
End resolve.

(** ** Laws *)

Lemma join_nil_cons x l : join "" (x :: l) = x +:+ join "" l.
Proof. destruct l; [cbn; by rewrite str_app_nil_r|done]. Qed.
(** The whitespace that is pending belongs after the word: there is none while a word is read. *)
Lemma chunks_go_text skip word ws s : (skip = 0 → ws = "") →
  join "" (map (λ c : string * string, c.1 +:+ c.2) (chunks_go skip word ws s)) = word +:+ ws +:+ s.
Proof.
  revert skip word ws. induction s as [|c s IH]; intros skip word ws Hws; cbn [chunks_go].
  { case_decide as H; [destruct H as [-> ->]; done|]. cbn [map fst snd]. rewrite join_nil_cons. cbn [join].
    by rewrite !str_app_nil_r. }
  assert (Hc : String c s = chr c +:+ s) by done.
  destruct skip as [|[|k]]; [rewrite Hws by done; destruct (ws_len (String c s)) as [|[|k]]|..];
    cbn [map fst snd]; rewrite ?join_nil_cons, IH by done; rewrite Hc; by rewrite ?str_app_assoc, ?str_app_nil_l.
Qed.
Lemma trim_start_chars_length p s : String.length (trim_start_chars p s) ≤ String.length s.
Proof. induction s as [|c s IH]; cbn [trim_start_chars]; [done|]. destruct (p c); cbn [String.length]; lia. Qed.
Lemma trim_start_chars_suffix p s :
  str_take (String.length s - String.length (trim_start_chars p s)) s +:+ trim_start_chars p s = s.
Proof.
  induction s as [|c s IH]; [done|]. cbn [trim_start_chars]. destruct (p c).
  - pose proof (trim_start_chars_length p s). cbn [String.length].
    replace (S (String.length s) - String.length (trim_start_chars p s))
      with (S (String.length s - String.length (trim_start_chars p s))) by lia.
    cbn [str_take]. by rewrite str_app_cons, IH.
  - by rewrite Nat.sub_diag.
Qed.
Lemma trim_end_chars_prefix p s : trim_end_chars p s +:+ str_drop (String.length (trim_end_chars p s)) s = s.
Proof.
  induction s as [|c s IH]; [done|]. cbn [trim_end_chars].
  destruct (bool_decide (trim_end_chars p s = "") && p c); [done|]. rewrite str_app_cons. cbn [String.length str_drop]. by rewrite IH.
Qed.
Lemma split_word_text word : (split_word word).1.1 +:+ core_of word +:+ (split_word word).2 = word.
Proof. unfold core_of, split_word. cbn [fst snd]. by rewrite trim_end_chars_prefix, trim_start_chars_suffix. Qed.

(** A rewrite of a command is local. The chunks of the command make up its text, and a result
    has for each chunk the same whitespace and the same text around the word, with the word
    replaced where the function has a replacement; a function that keeps every word it answers
    for gives the command itself. *)
Theorem rewrite_words_local (command : string) (f : string → option string) :
  join "" (map (λ c : string * string, c.1 +:+ c.2) (chunks command)) = command ∧
  (∀ out, rewrite_words command f = Some out → ∃ words, out = join "" words ∧
     Forall2 (λ (c : string * string) w, w = c.1 +:+ c.2 ∨
       ∃ new, f (core_of c.1) = Some new ∧ core_of c.1 ≠ "" ∧
         w = (split_word c.1).1.1 +:+ new +:+ (split_word c.1).2 +:+ c.2) (chunks command) words) ∧
  ((∀ w new, f w = Some new → new = w) → ∀ out, rewrite_words command f = Some out → out = command).
Proof.
  assert (Hw : ∀ word new, rewrite_word f word = Some new → ∃ n, f (core_of word) = Some n ∧ core_of word ≠ "" ∧
    new = (split_word word).1.1 +:+ n +:+ (split_word word).2).
  { intros word new. unfold rewrite_word, core_of. destruct (split_word word) as [[p core] s]. cbn [fst snd].
    case_decide as E; [done|]. destruct (f core) as [n|] eqn:Ef; [|done]. intros [= <-]. by exists n. }
  pose proof (chunks_go_text 0 "" "" command (λ _, eq_refl)) as Ht. rewrite !str_app_nil_l in Ht.
  split; [exact Ht|split].
  - intros out. unfold rewrite_words. destruct (existsb _ _); [|done]. intros [= <-]. eexists. split; [done|].
    clear Ht. induction (chunks command) as [|[word ws] l IH]; cbn [map fst snd]; [constructor|]. constructor; [|exact IH].
    cbn [fst snd]. destruct (rewrite_word f word) as [new|] eqn:En; [right|by left].
    apply Hw in En as (n & Ef & Hne & ->). exists n. cbn [from_option id]. unfold id. by rewrite !str_app_assoc.
  - intros Hf out. unfold rewrite_words. destruct (existsb _ _); [|done]. intros [= <-]. rewrite <- Ht at 2.
    rewrite map_map. f_equal. apply map_ext. intros [word ws]. cbn [fst snd]. f_equal.
    destruct (rewrite_word f word) as [new|] eqn:En; [|done]. apply Hw in En as (n & Ef%Hf & _ & ->). subst n.
    apply split_word_text.
Qed.

Lemma split_on_app p x c s : p c = true → split_on p (x +:+ String c s) = split_on p x ++ split_on p s.
Proof.
  intros Hc. induction x as [|d x IH].
  - rewrite str_app_nil_l. cbn [split_on]. by rewrite Hc.
  - rewrite str_app_cons. cbn [split_on]. rewrite IH. destruct (p d); [done|].
    pose proof (split_on_nonempty p x). by destruct (split_on p x).
Qed.
Lemma components_join base rel : base ≠ "" → is_absolute rel = false →
  components (path_join base rel) = components base ++ (split_on is_slash rel ≫= component_of).
Proof.
  intros Hb Hr. unfold path_join. rewrite Hr, decide_False by done.
  assert (Hslash : ∀ b, b ≠ "" → components (b +:+ "/" +:+ rel) = components b ++ (split_on is_slash rel ≫= component_of)).
  { intros b Hn. unfold components. change (b +:+ "/" +:+ rel) with (b +:+ String "/" rel).
    rewrite split_on_app by done. destruct b as [|d b]; [done|].
    assert (is_absolute (String d b +:+ String "/" rel) = is_absolute (String d b)) as ->.
    { unfold is_absolute, starts_with. rewrite str_app_cons. cbn [strip_prefix]. by destruct (Ascii.eqb _ _). }
    pose proof (split_on_nonempty is_slash (String d b)). destruct (split_on is_slash (String d b)) as [|x l]; [done|].
    cbn [app head]. rewrite bind_cons, bind_app. cbn [mbind list_bind]. by rewrite <- !app_assoc. }
  destruct (rsplit_once "/" base) as [[b' [|]]|] eqn:E; try by apply Hslash.
  apply rsplit_once_Some in E as (-> & _).
  destruct (decide (b' = "")) as [->|Hb'].
  - unfold components. cbn. by rewrite ?app_nil_r.
  - assert (b' +:+ String "/" "" ≠ "") as Hne by (by destruct b').
    rewrite str_app_assoc. change (String "/" "" +:+ rel) with ("/" +:+ rel). rewrite Hslash by done. f_equal.
    unfold components. rewrite split_on_app by done. destruct b' as [|d b]; [done|].
    assert (is_absolute (String d b +:+ String "/" "") = is_absolute (String d b)) as ->.
    { unfold is_absolute, starts_with. rewrite str_app_cons. cbn [strip_prefix]. by destruct (Ascii.eqb _ _). }
    pose proof (split_on_nonempty is_slash (String d b)). destruct (split_on is_slash (String d b)) as [|x l]; [done|].
    cbn [app head]. rewrite !bind_cons, bind_app. cbn. by rewrite app_nil_r.
Qed.

(** A word that the first pass moves stays in the bundle folder: its components are those of
    the folder followed by names, none of which steps up. *)
Theorem moved_word_contained (word bundle_dir : string) :
  bundle_dir ≠ "" → is_relative_path word = true →
  ∃ l, components (path_join bundle_dir word) = components bundle_dir ++ l ∧ ParentDir ∉ l ∧ RootDir ∉ l.
Proof.
  intros Hb Hw. unfold is_relative_path in Hw. rewrite !andb_true_iff, !negb_true_iff, !orb_false_iff in Hw.
  destruct Hw as [[[Hslash (((Ha & _) & _) & _)] _] Hu]. unfold is_unsafe_join_target in Hu.
  rewrite orb_false_iff in Hu. destruct Hu as [_ Hp]. unfold has_parent_component in Hp.
  rewrite bool_decide_eq_false in Hp. rewrite components_join by done. eexists. split; [done|].
  unfold components, is_absolute in Hp. rewrite Ha in Hp.
  assert (Hr : ∀ s, RootDir ∉ component_of s) by
    (intros s; unfold component_of; repeat case_decide; rewrite ?list_elem_of_singleton, ?elem_of_nil; naive_solver).
  split.
  - intros H. apply Hp. rewrite elem_of_app. by right.
  - intros (s & Hs & _)%list_elem_of_bind. by apply (Hr s).
Qed.

Global Instance longer_total : Total longer.
Proof. intros a b. unfold longer. lia. Qed.
Global Instance longer_trans : Transitive longer.
Proof. intros a b c. unfold longer. lia. Qed.
(** The first element of a sorted list with a property comes before the others that have it. *)
Lemma find_first_sorted {A} (R : relation A) (P : A → Prop) `{∀ x, Decision (P x)} l x y :
  StronglySorted R l → find_first P l = Some x → y ∈ l → P y → y = x ∨ R x y.
Proof.
  induction 1 as [|z l Hs IH Hz]; [done|]. unfold find_first in *. cbn [list_find].
  case_decide as Hp; cbn.
  - intros [= <-] [->|Hy]%elem_of_cons _; [by left|]. rewrite Forall_forall in Hz. right. by apply Hz.
  - destruct (list_find P l) as [[i w]|]; cbn in *; [|done]. intros [= ->] [->|Hy]%elem_of_cons Py; [done|]. by apply IH.
Qed.
(** Of the bundle files that a word names by a suffix, the longest is taken; a word with a slash
    that names one is never left. *)
Theorem matching_key_longest (known : list string) (word : string) :
  match matching_key known word with
  | Some k => k ∈ known ∧ suffix_matches word k = true ∧
      ∀ k', k' ∈ known → suffix_matches word k' = true → String.length k' ≤ String.length k
  | None => str_contains_char "/" word = true → ∀ k, k ∈ known → suffix_matches word k = false
  end.
Proof.
  unfold matching_key. destruct (str_contains_char "/" word); [|done].
  assert (Hin : ∀ k, k ∈ merge_sort longer known ↔ k ∈ known) by (intros k; by rewrite merge_sort_Permutation).
  destruct (find_first _ _) as [k|] eqn:E.
  - apply find_first_Some in E as Ek. destruct Ek as [Hk Hm]. split_and!; [by apply Hin|done|].
    intros k' Hk' Hm'. destruct (find_first_sorted longer (λ k, suffix_matches word k = true) (merge_sort longer known) k k') as [->|Hl];
      [apply StronglySorted_merge_sort; apply _|done|by apply Hin|done|done|exact Hl].
  - intros _ k Hk. apply find_first_None in E. rewrite Forall_forall in E. apply not_true_iff_false, E. by apply Hin.
Qed.

(** A path is warned about once for each bundle. What a command warns about is new and has no
    repeat, the paths are remembered, and the same command warns about nothing the next time. *)
Theorem warnings_once (name : string) (warned : list (string * string)) (tokens : list string) :
  let '(warned', now) := warn_all name warned tokens in
  NoDup now ∧ (∀ t, t ∈ now ↔ t ∈ tokens ∧ (name, t) ∉ warned) ∧
  (∀ p, p ∈ warned' ↔ p ∈ warned ∨ ∃ t, t ∈ tokens ∧ p = (name, t)) ∧
  (warn_all name warned' tokens).2 = [].
Proof.
  enough (let '(warned', now) := warn_all name warned tokens in
    NoDup now ∧ (∀ t, t ∈ now ↔ t ∈ tokens ∧ (name, t) ∉ warned) ∧
    (∀ p, p ∈ warned' ↔ p ∈ warned ∨ ∃ t, t ∈ tokens ∧ p = (name, t))) as H.
  { destruct (warn_all name warned tokens) as [w' now]. destruct H as (H1 & H2 & H3). split_and!; [done..|].
    assert (Ha : Forall (λ t, (name, t) ∈ w') tokens) by (apply Forall_forall; intros t Ht; apply H3; right; by exists t).
    clear H1 H2 H3. induction Ha as [|t l Ht _ IH]; [done|]. cbn [warn_all]. unfold warn_once.
    rewrite decide_True by done. by destruct (warn_all name w' l). }
  revert warned. induction tokens as [|t tokens IH]; intros warned; cbn [warn_all].
  { split_and!; [constructor|intros t; rewrite elem_of_nil; tauto|]. intros p. setoid_rewrite elem_of_nil. naive_solver. }
  unfold warn_once. case_decide as Ht.
  - specialize (IH warned). destruct (warn_all name warned tokens) as [w' now]. destruct IH as (H1 & H2 & H3).
    split_and!; [done|intros x; rewrite H2, elem_of_cons; naive_solver|].
    intros p. rewrite H3. setoid_rewrite elem_of_cons. naive_solver.
  - specialize (IH ((name, t) :: warned)). destruct (warn_all name ((name, t) :: warned) tokens) as [w' now].
    destruct IH as (H1 & H2 & H3). cbn [app]. split_and!.
    + constructor; [|done]. rewrite H2. intros [_ Hn]. apply Hn. by left.
    + intros x. rewrite elem_of_cons, H2, !elem_of_cons. destruct (decide (x = t)); naive_solver.
    + intros p. rewrite H3. setoid_rewrite elem_of_cons. naive_solver.
Qed.
