(* ===== verification/Slug.v ===== *)
(** * Slugs (crates/llmenv-task/src/slug.rs, unique_slug of lib.rs)

    A slug names a task file or a session file. [slugify] derives it from a
    title; [unique_name] is the collision loop of [unique_slug], over the test
    whether a name is taken. *)

From S2P Require Import Prelude RustStr Names.

Definition slug_sep (c : ascii) : bool := negb (is_ascii_alphanumeric c).

Definition slugify (title : string) : string :=
  let words := take 6 (split_whitespace title) in
  join "-" (to_ascii_lowercase <$>
            filter (λ part, part ≠ "") (split_on slug_sep (join " " words))).

(** [unique_slug]: the base name, else the first free [base-n] for n = 2, 3, ....
    The Rust loop has no bound; [fuel] is one more than the number of files, and
    [unique_name_free] shows that a free name is found within it. *)
Definition candidate (base : string) (n : N) : string := base +:+ "-" +:+ pretty n.

Fixpoint unique_name_from (taken : string → bool) (base : string) (fuel : nat) (n : N) : string :=
  match fuel with
  | 0 => candidate base n
  | S fuel =>
    if taken (candidate base n) then unique_name_from taken base fuel (n + 1)
    else candidate base n
  end.

Definition unique_name (taken : string → bool) (fuel : nat) (base : string) : string :=
  if taken base then unique_name_from taken base fuel 2 else base.

(** ** The shape of a slug *)

Definition is_slug_char (c : ascii) : bool :=
  is_ascii_lower c || is_ascii_digit c.

(** The parts of a slug between its dashes. *)
Definition slug_parts (title : string) : list string :=
  to_ascii_lowercase <$>
    filter (λ part, part ≠ "")
      (split_on slug_sep (join " " (take 6 (split_whitespace title)))).

(** A fact on all 256 byte values, by evaluation. *)
Fixpoint ascii_below (n : nat) : list ascii :=
  match n with 0 => [] | S n => Ascii.ascii_of_nat n :: ascii_below n end.
Lemma ascii_forall (p : ascii → bool) :
  forallb p (ascii_below 256) = true → ∀ c, p c = true.
Proof.
  intros H c. rewrite forallb_forall in H. apply H. clear H.
  rewrite <-(Ascii.ascii_nat_embedding c).
  pose proof (Ascii.nat_ascii_bounded c) as Hb.
  generalize 256, (Ascii.nat_of_ascii c), Hb. clear.
  intros k n. induction k as [|k IH]; [lia|]. intros Hlt. simpl.
  destruct (decide (n = k)) as [->|]; [by left|]. right. apply IH. lia.
Qed.
Ltac ascii_eval := intros c; revert c; apply ascii_forall; vm_compute; reflexivity.

Lemma lower_is_slug_char c :
  implb (is_ascii_alphanumeric c) (is_slug_char (ascii_lower c)) = true.
Proof. revert c. ascii_eval. Qed.
Lemma slug_char_lower c :
  implb (is_slug_char c) (Ascii.eqb (ascii_lower c) c) = true.
Proof. revert c. ascii_eval. Qed.
Lemma slug_char_not_sep c : implb (is_slug_char c) (negb (slug_sep c)) = true.
Proof. revert c. ascii_eval. Qed.
Lemma slug_char_short_name c : implb (is_slug_char c) (is_short_name_char c) = true.
Proof. revert c. ascii_eval. Qed.
Lemma slug_char_not_dash c : implb (is_slug_char c) (negb (Ascii.eqb c "-")) = true.
Proof. revert c. ascii_eval. Qed.

Lemma str_all_implb (p q : ascii → bool) s :
  (∀ c, implb (p c) (q c) = true) → str_all p s = true → str_all q s = true.
Proof.
  intros H. apply str_all_impl. intros c Hc. specialize (H c). by rewrite Hc in H.
Qed.

Lemma to_ascii_lowercase_id s : str_all is_slug_char s = true → to_ascii_lowercase s = s.
Proof.
  unfold to_ascii_lowercase. induction s as [|c s IH]; [done|].
  simpl. intros [Hc Hs]%andb_true_iff. rewrite IH by done. f_equal.
  pose proof (slug_char_lower c) as H. rewrite Hc in H. by apply Ascii.eqb_eq.
Qed.

Lemma to_ascii_lowercase_empty s : to_ascii_lowercase s = "" ↔ s = "".
Proof. by destruct s. Qed.

Definition slug_part (x : string) : Prop := x ≠ "" ∧ str_all is_slug_char x = true.

Lemma slug_parts_shape title : Forall slug_part (slug_parts title).
Proof.
  unfold slug_parts. apply Forall_fmap, Forall_forall. intros x Hx.
  apply list_elem_of_filter in Hx as [Hne Hx]. split; simpl.
  - by rewrite to_ascii_lowercase_empty.
  - pose proof (split_on_parts slug_sep (join " " (take 6 (split_whitespace title)))) as H.
    rewrite Forall_forall in H. specialize (H x Hx).
    unfold to_ascii_lowercase. rewrite str_all_map.
    eapply str_all_impl; [|exact H]. intros c Hc. unfold slug_sep in Hc.
    rewrite negb_involutive in Hc. pose proof (lower_is_slug_char c) as Hl.
    by rewrite Hc in Hl.
Qed.

Lemma slugify_parts title : slugify title = join "-" (slug_parts title).
Proof. done. Qed.

Lemma join_slug_parts_nonempty l : l ≠ [] → Forall slug_part l → join "-" l ≠ "".
Proof.
  destruct l as [|x [|y l]]; intros Hne Hl; [done|..]; inv Hl as [|?? [Hx _]]; [done|].
  destruct x; [done|]. by simpl.
Qed.

(** Text without whitespace is one word. *)
Definition is_slug_or_dash (c : ascii) : bool := is_slug_char c || Ascii.eqb c "-".

Lemma slug_char_no_ws c s : implb (is_slug_or_dash c) (bool_decide (ws_len (String c s) = 0)) = true.
Proof.
  destruct (is_slug_or_dash c) eqn:Hc; [|done]. simpl. apply bool_decide_eq_true.
  assert (Hlow : (code c < 128)%N ∧ in_range 9 13 c = false ∧ bool_decide (code c = 32)%N = false).
  { cut (implb (is_slug_or_dash c)
          (bool_decide (code c < 128)%N && negb (in_range 9 13 c)
           && negb (bool_decide (code c = 32)%N)) = true).
    { rewrite Hc. simpl. rewrite !andb_true_iff, !negb_true_iff, bool_decide_eq_true. tauto. }
    clear Hc. revert c. ascii_eval. }
  destruct Hlow as (Hl & H1 & H2). unfold ws_len. rewrite H1, H2. simpl.
  assert (Hc2 : ∀ n, (128 ≤ n)%N → bool_decide (code c = n) = false).
  { intros n Hn. apply bool_decide_eq_false. lia. }
  destruct s as [|b [|d s]]; [done|..]; rewrite !Hc2 by done; done.
Qed.

Lemma split_whitespace_slug s :
  str_all is_slug_or_dash s = true → split_whitespace s = nonempty_piece s.
Proof.
  intros H. apply split_ws_none. intros a b ->.
  rewrite str_all_app, andb_true_iff in H. destruct H as [_ H].
  destruct b as [|c b]; [done|]. simpl in H. apply andb_true_iff in H as [H _].
  pose proof (slug_char_no_ws c b) as Hw. rewrite H in Hw. by apply bool_decide_eq_true in Hw.
Qed.

Lemma slugify_chars title : str_all is_slug_or_dash (slugify title) = true.
Proof.
  rewrite slugify_parts. apply str_all_join; [done|].
  eapply Forall_impl; [apply slug_parts_shape|]. intros x [_ Hx]. simpl.
  eapply str_all_impl; [|exact Hx]. unfold is_slug_or_dash. intros c ->. done.
Qed.

Lemma lower_filter_slug l :
  Forall slug_part l → to_ascii_lowercase <$> filter (λ part, part ≠ "") l = l.
Proof.
  induction 1 as [|x l [Hx Hs] Hl IH]; [done|].
  rewrite filter_cons_True by done. by rewrite fmap_cons, to_ascii_lowercase_id, IH.
Qed.

Lemma slug_parts_of_slug l : Forall slug_part l → slug_parts (join "-" l) = l.
Proof.
  intros Hl. destruct (decide (l = [])) as [->|Hne]; [done|].
  pose proof (join_slug_parts_nonempty l Hne Hl) as Hj.
  unfold slug_parts.
  assert (Hall : str_all is_slug_or_dash (join "-" l) = true).
  { apply str_all_join; [done|]. eapply Forall_impl; [exact Hl|]. intros x [_ Hx]. simpl.
    eapply str_all_impl; [|exact Hx]. unfold is_slug_or_dash. intros c ->. done. }
  rewrite split_whitespace_slug by done.
  unfold nonempty_piece. rewrite decide_False by done. simpl.
  change "-" with (chr "-"). rewrite split_on_join.
  - by apply lower_filter_slug.
  - done.
  - done.
  - eapply Forall_impl; [exact Hl|]. intros x [_ Hx]. simpl.
    by eapply str_all_implb; [apply slug_char_not_sep|].
Qed.

Lemma join_slug_valid l : l ≠ [] → Forall slug_part l → is_valid_short_name (join "-" l) = true.
Proof.
  intros Hne Hl. pose proof (join_slug_parts_nonempty l Hne Hl) as Hj.
  assert (Hall : str_all is_short_name_char (join "-" l) = true).
  { apply str_all_join; [done|]. eapply Forall_impl; [exact Hl|]. intros x [_ Hx]. simpl.
    by eapply str_all_implb; [apply slug_char_short_name|]. }
  assert (Hfirst : ∃ c s, join "-" l = String c s ∧ is_slug_char c = true).
  { destruct l as [|[|c x] l]; [done|by inv Hl as [|?? []]|].
    exists c. inv Hl as [|?? [_ Hx]]. simpl in Hx. apply andb_true_iff in Hx as [Hx _].
    destruct l; eauto. }
  destruct Hfirst as (c & s & Hcs & Hc). unfold is_valid_short_name.
  rewrite Hcs in *. rewrite decide_False; last first.
  { intros [?|[?|?]]; simplify_eq; by vm_compute in Hc. }
  unfold starts_with. cbn [strip_prefix].
  destruct (Ascii.eqb_spec "-" c) as [<-|]; [by vm_compute in Hc|done].
Qed.

(** [slugify] gives a file-safe name: the text is empty, or its parts between
    dashes are all non-empty runs of lower-case ASCII letters and digits, and it is a
    valid short name, so it names one entry of the store folder. *)
Theorem slugify_file_safe (title : string) :
  Forall slug_part (slug_parts title) ∧ slugify title = join "-" (slug_parts title) ∧
  (slugify title = "" ∨
   is_valid_short_name (slugify title) = true ∧ components (slugify title) = [Normal (slugify title)]).
Proof.
  split; [apply slug_parts_shape|]. split; [done|].
  destruct (decide (slug_parts title = [])) as [He|Hne].
  - left. by rewrite slugify_parts, He.
  - right. rewrite slugify_parts.
    pose proof (join_slug_valid _ Hne (slug_parts_shape title)).
    eauto using valid_short_name_component.
Qed.

(** [slugify] is idempotent: a slug typed again as a title keeps its name. *)
Theorem slugify_idempotent (title : string) : slugify (slugify title) = slugify title.
Proof.
  rewrite (slugify_parts (slugify title)), (slugify_parts title).
  by rewrite slug_parts_of_slug by apply slug_parts_shape.
Qed.

Lemma candidate_inj base n m : candidate base n = candidate base m → n = m.
Proof. unfold candidate. intros H. by simplify_eq. Qed.

Lemma unique_name_from_free taken base fuel n (X : gset string) :
  (∀ m, (n ≤ m)%N → taken (candidate base m) = true → candidate base m ∈ X) →
  size X < fuel →
  taken (unique_name_from taken base fuel n) = false ∧
  ∃ m, unique_name_from taken base fuel n = candidate base m ∧
       (n ≤ m)%N ∧ (m ≤ n + N.of_nat (size X))%N.
Proof.
  revert n X. induction fuel as [|fuel IH]; intros n X HX Hsz; [lia|]. simpl.
  destruct (taken (candidate base n)) eqn:Ht; [|split; [done|]; exists n; split_and!; [done|lia..]].
  assert (Hin : candidate base n ∈ X) by (apply HX; [lia|done]).
  assert (Hsize : size X = S (size (X ∖ {[candidate base n]}))).
  { rewrite size_difference by set_solver. rewrite size_singleton.
    assert (size X ≠ 0); [|lia]. rewrite size_non_empty_iff. set_solver. }
  destruct (IH (n + 1)%N (X ∖ {[candidate base n]})) as (Hf & m & Hm & Hlo & Hhi).
  - intros m Hm Htm. apply elem_of_difference. split; [apply HX; [lia|done]|].
    rewrite elem_of_singleton. intros ->%candidate_inj. lia.
  - lia.
  - split; [done|]. exists m. split_and!; [done|lia..].
Qed.
