(* ===== verification/TaskData.v ===== *)
(** * Data of the task tracker (crates/llmenv-task)

    The records and enums of lib.rs, relation.rs, session.rs, resume.rs and
    ownership.rs, with the fields of the source in the order of the source, and
    the errors of the crate. A timestamp is the RFC 3339 text the code stores:
    the code only stores it, shows it and compares it as a string. *)

From S2P Require Import Prelude RustStr.

(** ** Tasks *)

(** [TaskState]. *)
Inductive TaskState := Open | Wip | Waiting | Done.
Global Instance TaskState_eq_dec : EqDecision TaskState.
Proof. solve_decision. Defined.

Definition as_str (s : TaskState) : string :=
  match s with
  | Open => "open" | Wip => "wip" | Waiting => "waiting" | Done => "done"
  end.

(** [Relation]. *)
Inductive Relation := Queued | Child.
Global Instance Relation_eq_dec : EqDecision Relation.
Proof. solve_decision. Defined.

(** [TaskNote]. *)
Record TaskNote := mkNote { n_at : string; n_text : string }.
Global Instance TaskNote_eq_dec : EqDecision TaskNote.
Proof. solve_decision. Defined.

(** [Task]. *)
Record Task := mkTask {
  t_slug : string;
  t_title : string;
  t_state : TaskState;
  t_parent : option string;
  t_relation : Relation;
  t_parallel : bool;
  t_blocked_on : list string;
  t_notes : list TaskNote;
  t_detail : option string;
  t_session : option string;
  t_created_at : string;
  t_updated_at : string }.
Global Instance Task_eq_dec : EqDecision Task.
Proof. solve_decision. Defined.

Definition set_title (x : string) (t : Task) : Task :=
  mkTask (t_slug t) x (t_state t) (t_parent t) (t_relation t) (t_parallel t)
    (t_blocked_on t) (t_notes t) (t_detail t) (t_session t) (t_created_at t) (t_updated_at t).
Definition set_state (x : TaskState) (t : Task) : Task :=
  mkTask (t_slug t) (t_title t) x (t_parent t) (t_relation t) (t_parallel t)
    (t_blocked_on t) (t_notes t) (t_detail t) (t_session t) (t_created_at t) (t_updated_at t).
Definition set_parent (x : option string) (t : Task) : Task :=
  mkTask (t_slug t) (t_title t) (t_state t) x (t_relation t) (t_parallel t)
    (t_blocked_on t) (t_notes t) (t_detail t) (t_session t) (t_created_at t) (t_updated_at t).
Definition set_blocked_on (x : list string) (t : Task) : Task :=
  mkTask (t_slug t) (t_title t) (t_state t) (t_parent t) (t_relation t) (t_parallel t)
    x (t_notes t) (t_detail t) (t_session t) (t_created_at t) (t_updated_at t).
Definition set_notes (x : list TaskNote) (t : Task) : Task :=
  mkTask (t_slug t) (t_title t) (t_state t) (t_parent t) (t_relation t) (t_parallel t)
    (t_blocked_on t) x (t_detail t) (t_session t) (t_created_at t) (t_updated_at t).
Definition set_detail (x : option string) (t : Task) : Task :=
  mkTask (t_slug t) (t_title t) (t_state t) (t_parent t) (t_relation t) (t_parallel t)
    (t_blocked_on t) (t_notes t) x (t_session t) (t_created_at t) (t_updated_at t).
Definition set_session (x : option string) (t : Task) : Task :=
  mkTask (t_slug t) (t_title t) (t_state t) (t_parent t) (t_relation t) (t_parallel t)
    (t_blocked_on t) (t_notes t) (t_detail t) x (t_created_at t) (t_updated_at t).
Definition set_updated_at (x : string) (t : Task) : Task :=
  mkTask (t_slug t) (t_title t) (t_state t) (t_parent t) (t_relation t) (t_parallel t)
    (t_blocked_on t) (t_notes t) (t_detail t) (t_session t) (t_created_at t) x.
(** [task.notes.push(TaskNote { at, text })]. *)
Definition push_note (at_ text : string) (t : Task) : Task :=
  set_notes (t_notes t ++ [mkNote at_ text]) t.

(** [Placement], [ParentSpec], [NewTask], [TaskEdit], [TaskTarget]. *)
Inductive Placement := PQueue | PParallel | PChild (parent : string).
Inductive ParentSpec := Explicit (parent : string) | Detached.
Record NewTask := mkNewTask {
  nt_title : string;
  nt_detail : option string;
  nt_placement : Placement;
  nt_after : option string }.
Record TaskEdit := mkTaskEdit {
  ed_title : option string;
  ed_parent : option string;
  ed_no_parent : bool;
  ed_block_on : list string;
  ed_unblock : list string;
  ed_add_note : option string;
  ed_delete_note : option string;
  ed_detail : option string }.
Inductive TaskTarget := Input (name : string) | Resolved (slug : string).

(** ** Sessions *)

(** [ResumeContext]. *)
Record ResumeContext := mkResume {
  rc_context : option string;
  rc_issues : list N;
  rc_branch : option string;
  rc_base : option string;
  rc_memory_topics : list string;
  rc_docs : list string }.
Global Instance ResumeContext_eq_dec : EqDecision ResumeContext.
Proof. solve_decision. Defined.
Definition resume_default : ResumeContext := mkResume None [] None None [] [].

(** [Session]. *)
Record Session := mkSession {
  s_id : string;
  s_name : option string;
  s_project : string;
  s_description : option string;
  s_started_at : string;
  s_last_activity : string;
  s_finished_at : option string;
  s_abandoned_at : option string;
  s_owner_session : option string;
  s_owner_pid : option N;
  s_resume : ResumeContext }.
Global Instance Session_eq_dec : EqDecision Session.
Proof. solve_decision. Defined.

Definition set_last_activity (x : string) (s : Session) : Session :=
  mkSession (s_id s) (s_name s) (s_project s) (s_description s) (s_started_at s) x
    (s_finished_at s) (s_abandoned_at s) (s_owner_session s) (s_owner_pid s) (s_resume s).
Definition set_finished_at (x : option string) (s : Session) : Session :=
  mkSession (s_id s) (s_name s) (s_project s) (s_description s) (s_started_at s)
    (s_last_activity s) x (s_abandoned_at s) (s_owner_session s) (s_owner_pid s) (s_resume s).
Definition set_abandoned_at (x : option string) (s : Session) : Session :=
  mkSession (s_id s) (s_name s) (s_project s) (s_description s) (s_started_at s)
    (s_last_activity s) (s_finished_at s) x (s_owner_session s) (s_owner_pid s) (s_resume s).
Definition set_owner (o : option string) (p : option N) (s : Session) : Session :=
  mkSession (s_id s) (s_name s) (s_project s) (s_description s) (s_started_at s)
    (s_last_activity s) (s_finished_at s) (s_abandoned_at s) o p (s_resume s).
Definition set_resume (x : ResumeContext) (s : Session) : Session :=
  mkSession (s_id s) (s_name s) (s_project s) (s_description s) (s_started_at s)
    (s_last_activity s) (s_finished_at s) (s_abandoned_at s) (s_owner_session s)
    (s_owner_pid s) x.

(** [EngineIdentity], [StartRequest], [StartDecision], [StartOutcome],
    [SessionChoice], [PickError]. *)
Record EngineIdentity := mkIdentity { ei_session_id : option string; ei_pid : option N }.
Definition no_identity : EngineIdentity := mkIdentity None None.

Record StartRequest := mkStart {
  sr_name : option string;
  sr_description : option string;
  sr_project : string;
  sr_owner : EngineIdentity;
  sr_resume : ResumeContext }.
Inductive StartDecision := Auto | Resume (id : string) | Replace | New.
Inductive StartOutcome :=
| Created (s : Session)
| Resumed (s : Session)
| Replaced (s : Session) (abandoned : list Session).
Inductive SessionChoice :=
| Named (id : string)
| Resolve (owner : EngineIdentity)
| Checked (s : Session).
Inductive PickError :=
| NoneOpen
| Ambiguous (open owned : nat) (identified : bool).
Global Instance PickError_eq_dec : EqDecision PickError.
Proof. solve_decision. Defined.

(** [Caller]. *)
Inductive Caller := CallerSession (id : string) | Unidentified (reason : string).
Global Instance Caller_eq_dec : EqDecision Caller.
Proof. solve_decision. Defined.
