(* ===== verification/TaskStore.v ===== *)
(** * The task store (crates/llmenv-task/src/lib.rs, session.rs, store_lock.rs)

    One JSON file per task under [tasks/] and one per session under
    [tasks/sessions/]. The model keeps the two folders as they are on disk: a
    file name mapped to what a read of that file gives. A file can fail to be
    read, hold text that is not a task, or hold a task whose [slug] is not the
    name of the file, because a person can edit it.

    [Platform] is what the code takes from outside the repository: the JSON
    texts of serde_json, the order in which the operating system lists a
    folder, the clock, the time formats of humantime, and [ps]. [PlatformLaws]
    states what the code relies on. *)

From S2P Require Import Prelude RustStr Names Slug TaskData.

(** [std::io::ErrorKind], as far as the code looks at it. *)
Inductive io_kind := NotFound | InvalidData | PermissionDenied | OtherIo.
Global Instance io_kind_eq_dec : EqDecision io_kind.
Proof. solve_decision. Defined.

(** What a read of a file gives: its text, or an I/O error (no permission, a FIFO,
    a file past the size cap, a dangling link). *)
Inductive node (text : Type) := NText (t : text) | NBroken (k : io_kind).
Arguments NText {text} t.
Arguments NBroken {text} k.

Inductive dir_status := Missing | Uncreatable | Unlistable | Present.

Record dir (text : Type) := mkDir {
  d_status : dir_status;
  d_files : gmap string (node text);
  d_bad : nat;              (** entries of the listing that fail *)
  d_ro : gset string }.     (** names whose write or removal fails *)
Arguments mkDir {text}.
Arguments d_status {text}.
Arguments d_files {text}.
Arguments d_bad {text}.
Arguments d_ro {text}.

Inductive dirent (text : Type) := DEntry (name : string) (n : node text) | DEntryErr.
Arguments DEntry {text} name n.
Arguments DEntryErr {text}.

Class Platform := {
  text : Type;
  task_to_json : Task → text;
  task_from_json : text → option Task;
  session_to_json : Session → text;
  session_from_json : text → option Session;
  readdir : dir text → list (dirent text);
  clock : nat → string;                   (** the time of a reading, in RFC 3339 *)
  system_now : nat → Z;                   (** the same reading, in nanoseconds *)
  parse_rfc3339 : string → option Z;      (** humantime *)
  format_duration : N → string;           (** humantime, of whole seconds *)
  ps_etime : N → option string }.         (** the output of a [ps -o etime=] that worked *)

(** What the code relies on: serde_json reads back what it wrote, and a folder
    listing holds each entry once, in any order. *)
Class PlatformLaws `{Platform} := {
  task_json_roundtrip : ∀ t, task_from_json (task_to_json t) = Some t;
  session_json_roundtrip : ∀ s, session_from_json (session_to_json s) = Some s;
  readdir_perm : ∀ d, readdir d ≡ₚ
    (uncurry DEntry <$> map_to_list (d_files d)) ++ replicate (d_bad d) DEntryErr }.

(** A value read from the environment: [std::env::var]. *)
Inductive env_var := NotPresent | NotUnicode | Value (s : string).

(** ** Errors

    An [anyhow::Error] is an I/O error, a JSON error or a message, under any number
    of contexts. The code never reads a message back; it only asks whether the
    cause is an I/O error of some kind. *)

Inductive ctx :=
| CMakeStore | CLockStore
| CReadTask (slug : string) | CParseTask (slug : string)
| CReadTasksDir | CReadTasksEntry | CReadTaskFile (file : string) | CParseTaskFile (file : string)
| CReadSessionsDir | CReadSessionsEntry
| CReadSessionFile (file : string) | CParseSessionFile (file : string)
| CTouch (session_id : string)
| CListSessions (input : string)
| CAncestorUnreadable (child parent : string)
| CCheckParent (new_parent slug current : string)
| CReopenParent (parent task : string)
| CReopenSave (task : string) (reopened : list string)
| CUntag (task session_id : string) (earlier : nat)
| CAbandon (id : string) (earlier : nat)
| CStaysOpen (id : string) (untagged : nat)
| COverrideNote (task note : string)
| CSessionOverrideNote (id : string)
| CDeleteTask (slug : string) (earlier total : nat) (session_id : string)
| CStoreUnreadable
| COwnerLessDelete (id : string).

Inductive msg :=
| MBadSlug (slug : string)
| MBadIdentifier (input : string)
| MBadSessionId (id : string)
| MVarNotUtf8 (name : string)
| MNoTask (input : string)
| MManyTasks (input : string) (candidates : list string)
| MStoreNotRead (name : string)
| MStartDone (slug : string)
| MBlocked (slug : string) (unmet : list string)
| MQueueBlock (text : string)
| MSubTaskNoParent (child current : string)
| MAncestorLoop (child parent : string)
| MParentMissing (child parent : string)
| MParentDone (parent child : string)
| MParentCannotStart (child text : string)
| MBlockerLoop (slug : string)
| MNeverStarted (slug : string)
| MUndoneChildren (text : string)
| MWaitDone (slug : string)
| MSelfBlock (slug : string)
| MSelfParent (slug : string)
| MOwnAncestor (new_parent slug : string)
| MParentChainLoop (slug new_parent current : string)
| MParentChainMissing (slug new_parent current : string)
| MNoteRange (idx : N) (len : nat)
| MNoNote (id : string)
| MParentNotFound (parent : string)
| MParentOtherSession (parent session : string)
| MParentNoSession (parent : string)
| MChildOfDone (parent : string)
| MChildOfNoSession (parent session : string)
| MChildOtherSession (parent : string)
| MReopenNotDone (refused : list (string * TaskState))
| MReopenDoneParent (task parent : string)
| MNoSession (id : string)
| MReadSession (id : string) (k : io_kind)
| MParseSession (id : string)
| MSessionClosedResume (id : string)
| MSessionClosedChange (id : string)
| MSessionAlreadyClosed (id : string)
| MUnfinished (id : string) (tasks : list (string * string * string))
| MCheckpoint (text : string)
| MNamedNotOpen (id : string)
| MCheckedNotOpen (id : string)
| MNoOpenSession
| MAmbiguous (text : string)
| MForeignSession (id : string)
| MTaskNotInStore (slug : string)
| MNoTaskChecked (input : string)
| MWrongOther (slug owner named : string)
| MWrongOtherSession (session_id named : string)
| MNotCaller (what why : string)
| MOwnerLessDelete (reason : string).

Inductive error :=
| EIo (k : io_kind)
| EJson
| ECtx (c : ctx) (e : error)
| EMsg (m : msg).

(** [err.downcast_ref::<std::io::Error>()]. *)
Fixpoint io_error_of (e : error) : option io_kind :=
  match e with
  | EIo k => Some k
  | ECtx _ e => io_error_of e
  | EJson | EMsg _ => None
  end.
Definition is_not_found (e : error) : bool := bool_decide (io_error_of e = Some NotFound).

(** Text recorded for the agent ([llmenv_util::agent_notice]). *)
Inductive notice :=
| NSkippedEntry
| NSkippedUnreadable (file : string) (refused : bool)
| NSkippedCorrupt (file : string)
| NTouchFailed (session_id : string) (e : error).

(** ** The world *)

Inductive which := Tasks | Sessions.

Section world.
Context `{Platform}.

Record world := mkWorld {
  w_tasks : dir text;
  w_sessions : dir text;
  w_lockable : bool;
  w_tick : nat;                 (** clock readings so far *)
  w_session_var : env_var;      (** CLAUDE_CODE_SESSION_ID *)
  w_pid_var : env_var;          (** CLAUDE_PID *)
  w_notices : list notice }.

Definition w_dir (k : which) (w : world) : dir text :=
  match k with Tasks => w_tasks w | Sessions => w_sessions w end.
Definition set_dir (k : which) (d : dir text) (w : world) : world :=
  match k with
  | Tasks => mkWorld d (w_sessions w) (w_lockable w) (w_tick w)
               (w_session_var w) (w_pid_var w) (w_notices w)
  | Sessions => mkWorld (w_tasks w) d (w_lockable w) (w_tick w)
               (w_session_var w) (w_pid_var w) (w_notices w)
  end.
Definition set_files (f : gmap string (node text)) (d : dir text) : dir text :=
  mkDir (d_status d) f (d_bad d) (d_ro d).
Definition set_status (s : dir_status) (d : dir text) : dir text :=
  mkDir s (d_files d) (d_bad d) (d_ro d).
Definition tick (w : world) : world :=
  mkWorld (w_tasks w) (w_sessions w) (w_lockable w) (S (w_tick w))
    (w_session_var w) (w_pid_var w) (w_notices w).
Definition add_notice (n : notice) (w : world) : world :=
  mkWorld (w_tasks w) (w_sessions w) (w_lockable w) (w_tick w)
    (w_session_var w) (w_pid_var w) (w_notices w ++ [n]).

Definition M (A : Type) : Type := ST world error A.
Definition fail {A} (e : error) : M A := st_fail e.
Definition bail {A} (m : msg) : M A := st_fail (EMsg m).
Definition lift {A} (r : result error A) : M A := st_lift r.
Definition with_context {A} (c : ctx) (m : M A) : M A := st_map_err (ECtx c) m.
Definition record (n : notice) : M unit := st_put (add_notice n).

(** [now_rfc3339]. *)
Definition now_rfc3339 : M string := λ w, (Ok (clock (w_tick w)), tick w).

(** ** Files *)

(** The name of the file of a slug or a session id. *)
Definition json_name (slug : string) : string := slug +:+ ".json".

(** [Path::extension] of a file name. *)
Definition extension (name : string) : option string :=
  match rsplit_once "." name with
  | Some (stem, ext) => if decide (stem = "") then None else Some ext
  | None => None
  end.

Definition node_exists (n : node text) : bool :=
  match n with NText _ => true | NBroken k => negb (bool_decide (k = NotFound)) end.
(** [Path::exists]. *)
Definition file_exists (d : dir text) (name : string) : bool :=
  match d_files d !! name with Some n => node_exists n | None => false end.

(** [read_state_text]. *)
Definition read_node (o : option (node text)) : result error text :=
  match o with
  | Some (NText t) => Ok t
  | Some (NBroken k) => Err (EIo k)
  | None => Err (EIo NotFound)
  end.
Definition read_state_text (k : which) (name : string) : M text :=
  λ w, (read_node (d_files (w_dir k w) !! name), w).

(** [create_dir_owner_only]. *)
Definition create_dir (k : which) : M unit := λ w,
  match d_status (w_dir k w) with
  | Uncreatable => (Err (EIo PermissionDenied), w)
  | Missing => (Ok tt, set_dir k (set_status Present (w_dir k w)) w)
  | Unlistable | Present => (Ok tt, w)
  end.

(** [write_owner_only_atomic]: the whole file is replaced, or nothing changes. *)
Definition write_atomic (k : which) (name : string) (t : text) : M unit := λ w,
  let d := w_dir k w in
  if decide (name ∈ d_ro d) then (Err (EIo PermissionDenied), w)
  else (Ok tt, set_dir k (set_files (<[name := NText t]> (d_files d)) d) w).

(** [std::fs::remove_file]. *)
Definition remove_file (k : which) (name : string) : M unit := λ w,
  let d := w_dir k w in
  if decide (name ∈ d_ro d) then (Err (EIo PermissionDenied), w)
  else match d_files d !! name with
       | None => (Err (EIo NotFound), w)
       | Some _ => (Ok tt, set_dir k (set_files (delete name (d_files d)) d) w)
       end.

(** [std::fs::read_dir]. *)
Definition read_dir (k : which) : M (list (dirent text)) := λ w,
  match d_status (w_dir k w) with
  | Missing | Uncreatable => (Err (EIo NotFound), w)
  | Unlistable => (Err (EIo PermissionDenied), w)
  | Present => (Ok (readdir (w_dir k w)), w)
  end.

(** [with_store_lock]. One command runs at a time, so the model has no other
    process to wait for; a nested call runs at once, as the code does. *)
Definition with_store_lock {A} (f : M A) : M A :=
  with_context CMakeStore (create_dir Tasks);;
  lockable ← st_get w_lockable;
  if lockable : bool then f else fail (ECtx CLockStore (EIo PermissionDenied)).

(** [unique_slug], over the folder of tasks or of sessions. *)
Definition unique_slug (d : dir text) (base_slug : string) : string :=
  unique_name (λ s, file_exists d (json_name s)) (S (size (d_files d))) base_slug.

(** ** Tasks in the store *)

Definition save_task (task : Task) : M unit :=
  if is_valid_short_name (t_slug task) then
    create_dir Tasks;;
    write_atomic Tasks (json_name (t_slug task)) (task_to_json task)
  else bail (MBadSlug (t_slug task)).

Definition load_task (slug : string) : M Task :=
  if is_valid_short_name slug then
    content ← with_context (CReadTask slug) (read_state_text Tasks (json_name slug));
    match task_from_json content with
    | Some t => mret t
    | None => fail (ECtx (CParseTask slug) EJson)
    end
  else bail (MBadSlug slug).

Inductive UnreadablePolicy := Skip | Fail_.

(** The body of the loop of [read_tasks], for each entry of the listing. *)
Fixpoint read_entries (policy : UnreadablePolicy) (es : list (dirent text)) : M (list Task) :=
  match es with
  | [] => mret []
  | DEntryErr :: es =>
    match policy with
    | Fail_ => fail (ECtx CReadTasksEntry (EIo OtherIo))
    | Skip => record NSkippedEntry;; read_entries policy es
    end
  | DEntry name n :: es =>
    if decide (extension name = Some "json") then
      match read_node (Some n) with
      | Err e =>
        match policy with
        | Fail_ => fail (ECtx (CReadTaskFile name) e)
        | Skip =>
          record (NSkippedUnreadable name (bool_decide (io_error_of e = Some InvalidData)));;
          read_entries policy es
        end
      | Ok content =>
        match task_from_json content with
        | Some t => ts ← read_entries policy es; mret (t :: ts)
        | None =>
          match policy with
          | Fail_ => fail (ECtx (CParseTaskFile name) EJson)
          | Skip => record (NSkippedCorrupt name);; read_entries policy es
          end
        end
      end
    else read_entries policy es
  end.

Definition read_tasks (policy : UnreadablePolicy) : M (list Task) := λ w,
  match read_dir Tasks w with
  | (Ok es, w) => read_entries policy es w
  | (Err e, w) => if is_not_found e then (Ok [], w) else (Err (ECtx CReadTasksDir e), w)
  end.

(** [try_list_tasks], [list_tasks], [list_tasks_strict] ([StrictTasks::read]). *)
Definition try_list_tasks : M (list Task) := read_tasks Skip.
Definition list_tasks_strict : M (list Task) := read_tasks Fail_.
Definition list_tasks : M (list Task) :=
  r ← st_try try_list_tasks;
  match r with Ok ts => mret ts | Err _ => mret [] end.
End world.

(** ** Facts about the task store

    The abstract view of the store ([lookup_task]), the invariant that a file
    named [slug.json] holds the task [slug] ([tasks_wf]), and what each file
    operation does to them. The client files use these lemmas and not the
    folders. *)

(** Evaluate the plumbing of a command: binds, failures, contexts. *)
Ltac run_unfold :=
  unfold with_context, st_map_err, st_try, bail, fail, lift, record,
    st_fail, st_lift, st_get, st_put, mret, st_ret, mbind, st_bind in *; simpl in *.

Section facts.
Context `{HP : Platform, HL : !PlatformLaws}.

Definition task_files (w : world) : gmap string (node text) := d_files (w_tasks w).
Definition session_files (w : world) : gmap string (node text) := d_files (w_sessions w).

(** The task that the file of [slug] holds. *)
Definition parse_node (n : node text) : option Task :=
  match n with NText c => task_from_json c | NBroken _ => None end.
Definition lookup_task (w : world) (slug : string) : option Task :=
  task_files w !! json_name slug ≫= parse_node.

(** A file that the listing reads as a task holds the task of its own name. *)
Definition wf_task_entry (name : string) (n : node text) : Prop :=
  extension name = Some "json" →
  ∃ t, parse_node n = Some t ∧ name = json_name (t_slug t) ∧
       is_valid_short_name (t_slug t) = true.
Definition tasks_wf (w : world) : Prop :=
  map_Forall wf_task_entry (task_files w).

(** ** Names *)

Global Instance json_name_inj : Inj (=) (=) json_name.
Proof. intros s t. unfold json_name. apply str_app_inj_r. Qed.

Lemma extension_json_name slug : slug ≠ "" → extension (json_name slug) = Some "json".
Proof.
  intros Hs. unfold extension, json_name.
  rewrite (rsplit_once_app "." slug "json") by done. by rewrite decide_False.
Qed.

Lemma extension_valid slug :
  is_valid_short_name slug = true → extension (json_name slug) = Some "json".
Proof. intros (? & _)%valid_short_name_inv. by apply extension_json_name. Qed.

Lemma lookup_task_files w slug t :
  lookup_task w slug = Some t ↔
  ∃ c, task_files w !! json_name slug = Some (NText c) ∧ task_from_json c = Some t.
Proof.
  unfold lookup_task. rewrite bind_Some. split.
  - intros ([c|k] & ? & ?); [eauto|done].
  - intros (c & ? & ?). by exists (NText c).
Qed.

Lemma tasks_wf_slug w slug t :
  tasks_wf w → is_valid_short_name slug = true →
  lookup_task w slug = Some t → t_slug t = slug.
Proof.
  intros Hwf Hv Ht. unfold lookup_task in Ht. apply bind_Some in Ht as (n & Hn & Hp).
  specialize (Hwf _ _ Hn (extension_valid _ Hv)) as (t' & Hp' & Hname & _).
  by simplify_eq.
Qed.

(** ** Saving and loading *)

Lemma set_dir_tasks_sessions d w : w_sessions (set_dir Tasks d w) = w_sessions w.
Proof. done. Qed.

Lemma create_dir_files k w r w' :
  create_dir k w = (r, w') →
  task_files w' = task_files w ∧ session_files w' = session_files w.
Proof.
  unfold create_dir. destruct (d_status (w_dir k w)), k; intros; by simplify_eq.
Qed.

(** What [save_task] does, on both paths. *)
Lemma save_task_spec task w r w' :
  save_task task w = (r, w') →
  session_files w' = session_files w ∧
  match r with
  | Ok _ => is_valid_short_name (t_slug task) = true ∧
      task_files w' = <[json_name (t_slug task) := NText (task_to_json task)]> (task_files w)
  | Err _ => task_files w' = task_files w
  end.
Proof.
  unfold save_task, bail, st_fail.
  destruct (is_valid_short_name (t_slug task)); [|intros; by simplify_eq].
  intros [([] & w1 & Hc & Hw)|(e & Hc & ->)]%st_bind_inv.
  - apply create_dir_files in Hc as [Ht Hs]. unfold write_atomic in Hw.
    case_decide; simplify_eq; [done|]. unfold task_files, session_files in *.
    simpl in *. by rewrite Ht, Hs.
  - apply create_dir_files in Hc as [Ht Hs]. done.
Qed.

Lemma save_task_ok task w w' :
  save_task task w = (Ok tt, w') →
  is_valid_short_name (t_slug task) = true ∧
  session_files w' = session_files w ∧
  task_files w' = <[json_name (t_slug task) := NText (task_to_json task)]> (task_files w).
Proof. intros (? & ? & ?)%save_task_spec. done. Qed.

Lemma lookup_task_save task w w' slug :
  save_task task w = (Ok tt, w') →
  lookup_task w' slug = if decide (slug = t_slug task) then Some task else lookup_task w slug.
Proof.
  intros (_ & _ & Hf)%save_task_ok. unfold lookup_task. rewrite Hf.
  case_decide as Hd.
  - subst. rewrite lookup_insert_eq. simpl. apply task_json_roundtrip.
  - rewrite lookup_insert_ne; [done|]. intros ?%(inj json_name). congruence.
Qed.

Lemma save_task_wf task w r w' :
  save_task task w = (r, w') → tasks_wf w → tasks_wf w'.
Proof.
  intros [_ Hr]%save_task_spec Hwf. unfold tasks_wf in *. destruct r as [[]|e].
  - destruct Hr as [Hv ->]. apply map_Forall_insert_2; [|done].
    intros _. exists task. split_and!; [apply task_json_roundtrip|done..].
  - by rewrite Hr.
Qed.

Lemma load_task_spec slug w r w' :
  load_task slug w = (r, w') →
  w' = w ∧ (∀ t, r = Ok t → is_valid_short_name slug = true ∧ lookup_task w slug = Some t).
Proof.
  unfold load_task, read_state_text, lookup_task, task_files. run_unfold.
  destruct (is_valid_short_name slug); [|intros; simplify_eq; split; [done|naive_solver]].
  destruct (d_files (w_tasks w) !! json_name slug) as [[c|k]|]; simpl.
  - destruct (task_from_json c); simpl; intros; simplify_eq; split; naive_solver.
  - intros; simplify_eq; split; naive_solver.
  - intros; simplify_eq; split; naive_solver.
Qed.

Lemma load_task_ok slug w t :
  is_valid_short_name slug = true → lookup_task w slug = Some t →
  load_task slug w = (Ok t, w).
Proof.
  intros Hv (c & Hc & Hp)%lookup_task_files. unfold load_task. rewrite Hv.
  unfold read_state_text. run_unfold.
  unfold task_files in Hc. rewrite Hc. simpl. by rewrite Hp.
Qed.

Lemma load_task_err_missing slug w :
  is_valid_short_name slug = true → task_files w !! json_name slug = None →
  load_task slug w = (Err (ECtx (CReadTask slug) (EIo NotFound)), w).
Proof.
  intros Hv Hn. unfold load_task. rewrite Hv.
  unfold read_state_text. run_unfold.
  unfold task_files in Hn. by rewrite Hn.
Qed.

(** ** New names *)

Lemma file_exists_in d name : file_exists d name = true → name ∈ dom (d_files d).
Proof.
  unfold file_exists. destruct (d_files d !! name) eqn:E; [|done]. intros _.
  by apply elem_of_dom_2 in E.
Qed.

(** The names that the files of a folder take. *)
Definition taken_names (d : dir text) : gset string :=
  list_to_set (omap (λ name, fst <$> rsplit_once "." name) (elements (dom (d_files d)))).

Lemma taken_names_spec d base :
  file_exists d (json_name base) = true → base ∈ taken_names d.
Proof.
  intros H%file_exists_in. unfold taken_names. rewrite elem_of_list_to_set, list_elem_of_omap.
  exists (json_name base). rewrite elem_of_elements. split; [done|]. unfold json_name.
  by rewrite (rsplit_once_app "." base "json").
Qed.

Lemma size_taken_names d : size (taken_names d) ≤ size (d_files d).
Proof.
  unfold taken_names. etransitivity; [apply size_list_to_set_le|].
  rewrite <-size_dom. change (size (dom (d_files d))) with (length (elements (dom (d_files d)))).
  induction (elements (dom (d_files d))) as [|x l IH]; [done|].
  cbn [omap list_omap]. destruct (fst <$> rsplit_once "." x); cbn [length] in *; lia.
Qed.

Lemma unique_slug_spec d base :
  file_exists d (json_name (unique_slug d base)) = false ∧
  (unique_slug d base = base ∨
   ∃ n, unique_slug d base = candidate base n ∧ (2 ≤ n ≤ 2 + N.of_nat (size (d_files d)))%N).
Proof.
  unfold unique_slug, unique_name.
  destruct (file_exists d (json_name base)) eqn:Hb; [|by auto].
  pose proof (size_taken_names d) as Hsz.
  destruct (unique_name_from_free (λ s, file_exists d (json_name s)) base (S (size (d_files d))) 2
    (taken_names d)) as (Hf & n & Hn & Hlo & Hhi).
  - intros m _. apply taken_names_spec.
  - lia.
  - split; [done|]. right. exists n. split; [done|]. lia.
Qed.

(** A new name is free. [unique_slug] ends, and the file of the name it gives
    does not exist, so adding a task or a session never overwrites a file. The name is
    the base, or the base with a number; the number is at most the number of files plus
    two, so the u32 counter of the loop does not overflow below 2^32 - 2 files. *)
Theorem unique_slug_free (d : dir text) (base : string) :
  file_exists d (json_name (unique_slug d base)) = false ∧
  (unique_slug d base = base ∨ ∃ n, unique_slug d base = candidate base n ∧ (2 ≤ n)%N ∧
     (N.of_nat (size (d_files d)) < u32_max - 1 → n ≤ u32_max)%N).
Proof.
  destruct (unique_slug_spec d base) as [Hf [E|(n & E & Hn)]]; (split; [done|]); [by left|].
  right. exists n. split_and!; [done|lia|]. unfold u32_max. lia.
Qed.

(** ** Listings *)

Definition entry_task (e : dirent text) : option Task :=
  match e with
  | DEntry name n => if decide (extension name = Some "json") then parse_node n else None
  | DEntryErr => None
  end.

(** An entry that the strict listing accepts. *)
Definition entry_ok (e : dirent text) : Prop :=
  match e with
  | DEntry name n => extension name = Some "json" → is_Some (parse_node n)
  | DEntryErr => False
  end.

Lemma read_entries_strict es w :
  (read_entries Fail_ es w).2 = w ∧
  (∀ ts, (read_entries Fail_ es w).1 = Ok ts ↔ Forall entry_ok es ∧ ts = omap entry_task es).
Proof.
  induction es as [|[name n|] es [IHw IH]]; cbn [read_entries].
  - split; [done|]. intros ts. split; [intros [= <-]; by split|naive_solver].
  - simpl. case_decide as Hext; last first.
    { split; [done|]. intros ts. rewrite IH, Forall_cons. simpl. naive_solver. }
    destruct n as [c|k]; simpl; last first.
    { split; [done|]. intros ts. rewrite Forall_cons. simpl. unfold is_Some. naive_solver. }
    destruct (task_from_json c) as [t|] eqn:Hc; last first.
    { split; [done|]. intros ts. rewrite Forall_cons. simpl. rewrite Hc.
      unfold is_Some. naive_solver. }
    run_unfold. destruct (read_entries Fail_ es w) as [[ts1|e] w1]; simpl in *.
    + split; [done|]. intros ts. rewrite Forall_cons. simpl. rewrite Hc.
      specialize (IH ts1). unfold is_Some. naive_solver.
    + split; [done|]. intros ts. rewrite Forall_cons. specialize (IH (omap entry_task es)). naive_solver.
  - split; [done|]. intros ts. rewrite Forall_cons. simpl. naive_solver.
Qed.

(** The tolerant listing never fails on an entry, and keeps what it can read. *)
Lemma read_entries_skip es w :
  ∃ w', read_entries Skip es w = (Ok (omap entry_task es), w') ∧
        w_tasks w' = w_tasks w ∧ w_sessions w' = w_sessions w.
Proof.
  revert w. induction es as [|[name n|] es IH]; intros w; cbn [read_entries]; [eauto|..].
  - simpl. case_decide; [|apply IH]. destruct n as [c|k]; simpl.
    + destruct (task_from_json c) as [t|]; run_unfold.
      * destruct (IH w) as (w' & -> & ?). eauto.
      * destruct (IH (add_notice (NSkippedCorrupt name) w)) as (w' & -> & ?). eauto.
    + run_unfold. edestruct IH as (w' & -> & ?). eauto.
  - run_unfold. edestruct IH as (w' & -> & ?). eauto.
Qed.

Lemma elem_of_readdir d name n :
  DEntry name n ∈ readdir d ↔ d_files d !! name = Some n.
Proof.
  rewrite readdir_perm, elem_of_app, list_elem_of_fmap. split.
  - intros [((name' & n') & E & Hin)|Hin].
    + simpl in E. simplify_eq. by apply elem_of_map_to_list in Hin.
    + by apply elem_of_replicate in Hin as [? _].
  - intros Hn. left. exists (name, n). split; [done|]. by apply elem_of_map_to_list.
Qed.

Lemma elem_of_entry_tasks d t :
  t ∈ omap entry_task (readdir d) ↔
  ∃ name n, d_files d !! name = Some n ∧ extension name = Some "json" ∧ parse_node n = Some t.
Proof.
  rewrite list_elem_of_omap. split.
  - intros ([name n|] & Hin & He); [|done]. apply elem_of_readdir in Hin.
    simpl in He. case_decide; [eauto 10|done].
  - intros (name & n & Hn & Hext & Hp). exists (DEntry name n).
    rewrite elem_of_readdir. split; [done|]. simpl. by rewrite decide_True.
Qed.

(** A strict listing of a present task folder changes nothing, and when it
    succeeds it holds exactly the tasks of the [.json] files: no readable file is
    left out, nothing is made up, and every [.json] file was readable. *)
Theorem list_tasks_strict_exact (w w' : world) (ts : list Task) :
  d_status (w_tasks w) = Present →
  list_tasks_strict w = (Ok ts, w') →
  w' = w ∧ d_bad (w_tasks w) = 0 ∧
  (∀ t, t ∈ ts ↔ ∃ name n, task_files w !! name = Some n ∧
                    extension name = Some "json" ∧ parse_node n = Some t) ∧
  (∀ name n, task_files w !! name = Some n → extension name = Some "json" →
             is_Some (parse_node n)).
Proof.
  intros Hp. unfold list_tasks_strict, read_tasks, read_dir. simpl. rewrite Hp.
  destruct (read_entries_strict (readdir (w_tasks w)) w) as [Hw Hok]. intros E.
  rewrite E in Hw, Hok. simpl in *. subst w'.
  destruct (Hok ts) as [[Hall ->] _]; [done|]. rewrite Forall_forall in Hall.
  split_and!; [done| |intros; apply elem_of_entry_tasks|].
  - destruct (d_bad (w_tasks w)) as [|k] eqn:Hb; [done|]. exfalso.
    apply (Hall DEntryErr). rewrite readdir_perm, Hb. set_solver.
  - intros name n Hn. apply (Hall (DEntry name n)). by apply elem_of_readdir.
Qed.

Lemma NoDup_entry_tasks d :
  map_Forall wf_task_entry (d_files d) → NoDup (t_slug <$> omap entry_task (readdir d)).
Proof.
  intros Hwf. rewrite readdir_perm, omap_app.
  assert (Hr : omap entry_task (replicate (d_bad d) DEntryErr) = []).
  { induction (d_bad d); [done|]. by simpl. }
  rewrite Hr, app_nil_r. clear Hr.
  rewrite map_Forall_to_list in Hwf. pose proof (NoDup_fst_map_to_list (d_files d)) as Hnd.
  induction (map_to_list (d_files d)) as [|[name n] l IH]; [constructor|].
  apply Forall_cons in Hwf as [Hn Hwf]. apply NoDup_cons in Hnd as [Hni Hnd].
  simpl. case_decide as Hext; [|by apply IH]. simpl in Hn.
  destruct (Hn Hext) as (t & Hp & Hname & _). rewrite Hp. simpl. constructor; [|by apply IH].
  rewrite list_elem_of_fmap. intros (t' & Hs & Hin). apply Hni.
  apply list_elem_of_omap in Hin as (e & He & Hte).
  apply list_elem_of_fmap in He as ([name' n'] & -> & Hin'). simpl in Hte.
  case_decide as Hext'; [|done]. rewrite Forall_forall in Hwf.
  destruct (Hwf _ Hin' Hext') as (t'' & Hp' & Hname' & _). simplify_eq.
  apply list_elem_of_fmap. exists (json_name (t_slug t'), n'). split; [|done].
  simpl. by rewrite Hs.
Qed.

(** A well-formed task folder refines a map from slugs to tasks: the strict
    listing succeeds, and it gives each task of the map once, under its own slug. *)
Theorem list_tasks_strict_refines (w : world) :
  tasks_wf w → d_status (w_tasks w) = Present → d_bad (w_tasks w) = 0 →
  ∃ ts, list_tasks_strict w = (Ok ts, w) ∧ NoDup (t_slug <$> ts) ∧
    ∀ t, t ∈ ts ↔ is_valid_short_name (t_slug t) = true ∧ lookup_task w (t_slug t) = Some t.
Proof.
  intros Hwf Hp Hb. exists (omap entry_task (readdir (w_tasks w))).
  destruct (read_entries_strict (readdir (w_tasks w)) w) as [Hw Hok].
  split_and!.
  - unfold list_tasks_strict, read_tasks, read_dir. simpl. rewrite Hp.
    rewrite (surjective_pairing (read_entries _ _ _)), Hw. f_equal. apply Hok.
    split; [|done]. apply Forall_forall. intros [name n|] Hin.
    + apply elem_of_readdir in Hin. intros Hext.
      destruct (Hwf _ _ Hin Hext) as (t & Ht & _). by exists t.
    + rewrite readdir_perm, Hb, app_nil_r in Hin.
      by apply list_elem_of_fmap in Hin as ([] & ? & _).
  - by apply NoDup_entry_tasks.
  - intros t. rewrite elem_of_entry_tasks. split.
    + intros (name & n & Hn & Hext & Hpn).
      destruct (Hwf _ _ Hn Hext) as (t' & Hp' & -> & Hv). simplify_eq.
      split; [done|]. unfold lookup_task. unfold task_files. by rewrite Hn.
    + intros [Hv Ht]. unfold lookup_task in Ht. apply bind_Some in Ht as (n & Hn & Hpn).
      exists (json_name (t_slug t)), n. split_and!; [done|by apply extension_valid|done].
Qed.

(** The tolerant listing never fails on a broken file: on a present folder it
    succeeds, leaves the files alone, and gives exactly the readable tasks. *)
Theorem try_list_tasks_keeps_readable (w : world) :
  d_status (w_tasks w) = Present →
  ∃ ts w', try_list_tasks w = (Ok ts, w') ∧
    task_files w' = task_files w ∧ session_files w' = session_files w ∧
    ∀ t, t ∈ ts ↔ ∃ name n, task_files w !! name = Some n ∧
                    extension name = Some "json" ∧ parse_node n = Some t.
Proof.
  intros Hp. destruct (read_entries_skip (readdir (w_tasks w)) w) as (w' & E & Ht & Hs).
  exists (omap entry_task (readdir (w_tasks w))), w'.
  unfold try_list_tasks, read_tasks, read_dir. simpl. rewrite Hp, E.
  unfold task_files, session_files. rewrite Ht, Hs.
  split_and!; [done..|]. intros t. apply elem_of_entry_tasks.
Qed.

(** A task saved with success is the task that a load of its slug returns. *)
Theorem save_load_roundtrip (task : Task) (w w' : world) :
  save_task task w = (Ok tt, w') → load_task (t_slug task) w' = (Ok task, w').
Proof.
  intros Hs. pose proof (save_task_ok _ _ _ Hs) as (Hv & _).
  apply load_task_ok; [done|]. rewrite (lookup_task_save _ _ _ _ Hs). by rewrite decide_True.
Qed.
End facts.
