(* ===== verification/Resume.v ===== *)
(** * Resume context of a session (crates/llmenv-task/src/resume.rs)

    What a fresh agent needs to take a session up again. [apply] folds an update
    in, [append_note] adds text, [fill_detected] fills what git tells. *)

From S2P Require Import Prelude RustStr TaskData.

Definition MAX_ISSUE_DIGITS : nat := 7.

Definition resume_is_empty (r : ResumeContext) : bool := bool_decide (r = resume_default).

Definition needs_nudge (r : ResumeContext) : bool :=
  bool_decide (rc_context r = None) && bool_decide (rc_issues r = []) &&
  bool_decide (rc_docs r = []) && bool_decide (rc_memory_topics r = []).

Fixpoint extend_unique `{EqDecision A} (into from : list A) : list A :=
  match from with
  | [] => into
  | item :: from =>
    extend_unique (if decide (item ∈ into) then into else into ++ [item]) from
  end.

(** [if update.x.is_some() { self.x = update.x }]. *)
Definition replace_if_set {A} (old new : option A) : option A :=
  match new with Some _ => new | None => old end.

Definition apply (self update : ResumeContext) : ResumeContext :=
  mkResume (replace_if_set (rc_context self) (rc_context update))
    (extend_unique (rc_issues self) (rc_issues update))
    (replace_if_set (rc_branch self) (rc_branch update))
    (replace_if_set (rc_base self) (rc_base update))
    (extend_unique (rc_memory_topics self) (rc_memory_topics update))
    (extend_unique (rc_docs self) (rc_docs update)).

Definition append_note (self : ResumeContext) (text : string) : ResumeContext :=
  let context :=
    match rc_context self with
    | Some existing => if decide (existing = "") then text else existing +:+ nl +:+ text
    | None => text
    end in
  mkResume (Some context) (rc_issues self) (rc_branch self) (rc_base self)
    (rc_memory_topics self) (rc_docs self).

(** [last.split_at(digit_count)]: the leading ASCII digits and the rest. *)
Fixpoint take_digits (s : string) : string * string :=
  match s with
  | "" => ("", "")
  | String c s' =>
    if is_ascii_digit c then let '(d, r) := take_digits s' in (String c d, r) else ("", s)
  end.

Definition detect_issue (branch : string) : option N :=
  '(_, last) ← rsplit_once "/" branch;
  let '(digits, rest) := take_digits last in
  if decide (digits = "" ∨ MAX_ISSUE_DIGITS < String.length digits) then None
  else if decide (rest ≠ "" ∧ starts_with "-" rest = false) then None
  else parse_unsigned u32_max digits.

Definition fill_detected (self : ResumeContext) (git_branch : option string) : ResumeContext :=
  let branch := match rc_branch self with None => git_branch | b => b end in
  let issues :=
    match rc_issues self with
    | [] => match branch ≫= detect_issue with Some n => [n] | None => [] end
    | l => l
    end in
  mkResume (rc_context self) issues branch (rc_base self) (rc_memory_topics self) (rc_docs self).

(** ** Folding an update in *)

Section extend.
Context `{EqDecision A}.
Implicit Types l k : list A.

Lemma elem_of_extend_unique l k x : x ∈ extend_unique l k ↔ x ∈ l ∨ x ∈ k.
Proof.
  revert l. induction k as [|y k IH]; intros l; simpl; [set_solver|].
  rewrite IH. case_decide; set_solver.
Qed.
Lemma extend_unique_prefix l k : l `prefix_of` extend_unique l k.
Proof.
  revert l. induction k as [|y k IH]; intros l; simpl; [done|].
  etransitivity; [|apply IH]. case_decide; [done|]. by eexists.
Qed.
Lemma NoDup_extend_unique l k : NoDup l → NoDup (extend_unique l k).
Proof.
  revert l. induction k as [|y k IH]; intros l Hl; simpl; [done|].
  apply IH. case_decide; [done|]. apply NoDup_app. split_and!; [done|set_solver|].
  apply NoDup_singleton.
Qed.
Lemma extend_unique_id l k : (∀ x, x ∈ k → x ∈ l) → extend_unique l k = l.
Proof.
  revert l. induction k as [|y k IH]; intros l Hk; simpl; [done|].
  rewrite decide_True by set_solver. apply IH. set_solver.
Qed.
End extend.

(** Folding a resume update in twice is folding it in once; nothing recorded is
    lost (each list keeps what it had, in order, and gains every entry of the update,
    without adding a duplicate); and the empty update changes nothing. *)
Theorem apply_update (r u : ResumeContext) :
  apply (apply r u) u = apply r u ∧ apply r resume_default = r ∧
  rc_issues r `prefix_of` rc_issues (apply r u) ∧
  rc_memory_topics r `prefix_of` rc_memory_topics (apply r u) ∧
  rc_docs r `prefix_of` rc_docs (apply r u) ∧
  (∀ n, n ∈ rc_issues (apply r u) ↔ n ∈ rc_issues r ∨ n ∈ rc_issues u) ∧
  (∀ s, s ∈ rc_memory_topics (apply r u) ↔ s ∈ rc_memory_topics r ∨ s ∈ rc_memory_topics u) ∧
  (∀ s, s ∈ rc_docs (apply r u) ↔ s ∈ rc_docs r ∨ s ∈ rc_docs u) ∧
  (NoDup (rc_issues r) → NoDup (rc_issues (apply r u))).
Proof.
  unfold apply. simpl. split_and!.
  - assert (∀ A (x y : option A), replace_if_set (replace_if_set x y) y = replace_if_set x y) as Hr
      by (by intros ? ? []).
    rewrite !Hr. f_equal; apply extend_unique_id; intros; apply elem_of_extend_unique; auto.
  - by destruct r.
  - apply extend_unique_prefix.
  - apply extend_unique_prefix.
  - apply extend_unique_prefix.
  - intros; apply elem_of_extend_unique.
  - intros; apply elem_of_extend_unique.
  - intros; apply elem_of_extend_unique.
  - apply NoDup_extend_unique.
Qed.

(** ** Issue numbers *)

Lemma digits_value_bound s acc n :
  digits_value acc s = Some n → (n < (acc + 1) * 10 ^ N.of_nat (String.length s))%N.
Proof.
  revert acc. induction s as [|c s IH]; intros acc; simpl String.length.
  - intros [= <-]. rewrite N.pow_0_r. lia.
  - cbn [digits_value]. destruct (is_ascii_digit c) eqn:Hc; [|done]. intros Hn%IH.
    assert (code c - 48 ≤ 9)%N.
    { unfold is_ascii_digit, in_range in Hc. apply bool_decide_eq_true in Hc. lia. }
    rewrite Nat2N.inj_succ, N.pow_succ_r'.
    assert (acc * 10 + (code c - 48) + 1 ≤ (acc + 1) * 10)%N by lia.
    eapply N.lt_le_trans; [exact Hn|].
    replace ((acc + 1) * (10 * 10 ^ N.of_nat (String.length s)))%N
      with (((acc + 1) * 10) * 10 ^ N.of_nat (String.length s))%N by lia.
    by apply N.mul_le_mono_r.
Qed.

Lemma digits_value_total s acc :
  str_all is_ascii_digit s = true → is_Some (digits_value acc s).
Proof.
  revert acc. induction s as [|c s IH]; intros acc; simpl; [by eexists|].
  intros [-> ?]%andb_true_iff. by apply IH.
Qed.

Lemma take_digits_spec s d r :
  take_digits s = (d, r) →
  s = d +:+ r ∧ str_all is_ascii_digit d = true ∧
  match r with String c _ => is_ascii_digit c = false | "" => True end.
Proof.
  revert d r. induction s as [|c s IH]; intros d r; simpl.
  - intros [= <- <-]. done.
  - destruct (is_ascii_digit c) eqn:Hc; [|by intros [= <- <-]].
    destruct (take_digits s) as [d' r'] eqn:E. intros [= <- <-].
    destruct (IH _ _ eq_refl) as (-> & Hd & Hr). rewrite str_app_cons. simpl. by rewrite Hc.
Qed.

Lemma take_digits_app d r :
  str_all is_ascii_digit d = true →
  match r with String c _ => is_ascii_digit c = false | "" => True end →
  take_digits (d +:+ r) = (d, r).
Proof.
  intros Hd Hr. induction d as [|c d IH].
  - rewrite str_app_nil_l. destruct r as [|c r]; [done|]. simpl. by rewrite Hr.
  - simpl in Hd. apply andb_true_iff in Hd as [Hc Hd]. rewrite str_app_cons. simpl.
    by rewrite Hc, (IH Hd).
Qed.

Lemma parse_digits s :
  s ≠ "" → str_all is_ascii_digit s = true →
  parse_unsigned u32_max s = n ← digits_value 0 s; if decide (n ≤ u32_max)%N then Some n else None.
Proof.
  intros Hs Hd. unfold parse_unsigned. destruct s as [|c s]; [done|].
  by destruct c as [[] [] [] [] [] [] [] []].
Qed.

(** An issue number is read from a branch name exactly as documented: the last
    path segment is 1 to 7 ASCII digits, followed by nothing or by a dash. The number
    is below ten million, so it always fits the u32 field and the parse never fails. *)
Theorem detect_issue_spec (branch : string) :
  (∀ n, detect_issue branch = Some n → (n < 10000000)%N) ∧
  (is_Some (detect_issue branch) ↔
   ∃ prefix digits rest, branch = prefix +:+ "/" +:+ digits +:+ rest ∧
     str_contains_char "/" (digits +:+ rest) = false ∧
     1 ≤ String.length digits ≤ 7 ∧ str_all is_ascii_digit digits = true ∧
     (rest = "" ∨ ∃ tail, rest = "-" +:+ tail)).
Proof.
  unfold detect_issue. split.
  - intros n ([pre last] & Hs & H)%bind_Some. destruct (take_digits last) as [d r] eqn:Ed.
    apply take_digits_spec in Ed as (-> & Hd & _). case_decide as Hc1; [done|].
    case_decide; [done|]. rewrite parse_digits in H by naive_solver.
    apply bind_Some in H as (m & Hm & H). case_decide; [|done]. simplify_eq.
    apply digits_value_bound in Hm. unfold MAX_ISSUE_DIGITS in Hc1.
    assert (10 ^ N.of_nat (String.length d) ≤ 10 ^ 7)%N; [apply N.pow_le_mono_r; lia|].
    change (10 ^ 7)%N with 10000000%N in *. lia.
  - split.
    + intros (n & ([pre last] & Hs & H)%bind_Some). apply rsplit_once_Some in Hs as [-> Hns].
      destruct (take_digits last) as [d r] eqn:Ed.
      apply take_digits_spec in Ed as (-> & Hd & _). case_decide as Hc1; [done|].
      case_decide as Hc2; [done|]. exists pre, d, r. split_and!; [done|done| | |done|].
      * destruct d; [naive_solver|simpl; lia].
      * unfold MAX_ISSUE_DIGITS in Hc1. lia.
      * destruct (decide (r = "")) as [|Hr]; [by left|]. right.
        destruct (starts_with "-" r) eqn:Hst; [|naive_solver].
        unfold starts_with in Hst. apply bool_decide_eq_true in Hst as [t Ht].
        apply strip_prefix_Some in Ht. eauto.
    + intros (pre & d & r & -> & Hns & Hl & Hd & Hr).
      change ("/" +:+ d +:+ r) with (String "/" (d +:+ r)).
      rewrite (rsplit_once_app "/" pre (d +:+ r)) by done. cbn [mbind option_bind].
      rewrite (take_digits_app d r) by (destruct Hr as [->|[t ->]]; done).
      rewrite decide_False by (unfold MAX_ISSUE_DIGITS; intros [->|?]; simpl in *; lia).
      rewrite decide_False.
      * rewrite parse_digits; [|intros ->; simpl in *; lia|done].
        destruct (digits_value_total d 0 Hd) as [n Hn]. rewrite Hn. cbn [mbind option_bind].
        rewrite decide_True; [by eexists|]. apply digits_value_bound in Hn.
        assert (10 ^ N.of_nat (String.length d) ≤ 10 ^ 7)%N; [apply N.pow_le_mono_r; lia|].
        change (10 ^ 7)%N with 10000000%N in *. unfold u32_max. lia.
      * intros [? Hst]. destruct Hr as [->|[t ->]]; [done|].
        unfold starts_with in Hst. rewrite strip_prefix_app in Hst. done.
Qed.
