(* ===== verification/Blockers.v ===== *)
(** * The blocker walk (crates/llmenv-task/src/blockers.rs)

    Which [blocked_on] references are done, counting the subtree of the task they
    name. [by_slug] is the map the callers build from a listing. *)

From S2P Require Import Prelude RustStr Names Slug TaskData TaskStore.

(** [tasks.iter().map(|t| (t.slug.as_str(), t)).collect()]: a later task with the
    same slug replaces an earlier one. *)
Definition by_slug (tasks : list Task) : gmap string Task :=
  list_to_map (reverse ((λ t, (t_slug t, t)) <$> tasks)).

(** The children that [go] descends into, in slug order. *)
Definition subtree_children (m : gmap string Task) (waiter slug : string) : list string :=
  merge_sort str_le
    (t_slug <$> filter (λ t, t_parent t = Some slug ∧ t_slug t ≠ waiter)
                  (snd <$> map_to_list m)).

(** The walk returns the first undone slug and the slugs it has visited. *)
Definition walk := result error (option string * gset string).

Fixpoint go_children (rec : string → gset string → option walk) (cs : list string)
    (visited : gset string) : option walk :=
  match cs with
  | [] => Some (Ok (None, visited))
  | c :: cs =>
    match rec c visited with
    | Some (Ok (None, visited)) => go_children rec cs visited
    | r => r
    end
  end.

(** [go]. The recursion ends because every call adds a slug to [visited]; [fuel]
    stands for that, [None] is running out of it, and [go_enough_fuel] shows that
    it does not happen. *)
Fixpoint go (m : gmap string Task) (waiter : string) (fuel : nat) (slug : string)
    (visited : gset string) : option walk :=
  match fuel with
  | 0 => None
  | S fuel =>
    if decide (slug ∈ visited) then Some (Err (EMsg (MBlockerLoop slug)))
    else
      let visited := {[slug]} ∪ visited in
      match m !! slug with
      | None => Some (Ok (Some slug, visited))
      | Some task =>
        if decide (t_state task = Done)
        then go_children (go m waiter fuel) (subtree_children m waiter slug) visited
        else Some (Ok (Some slug, visited))
      end
  end.

Definition walk_fuel (m : gmap string Task) : nat := S (S (size m)).

Definition first_undone_in_subtree (slug waiter : string) (m : gmap string Task)
  : result error (option string) :=
  match go m waiter (walk_fuel m) slug ∅ with
  | Some (Ok (undone, _)) => Ok undone
  | Some (Err e) => Err e
  | None => Err (EMsg (MBlockerLoop slug))
  end.

Definition is_done_including_descendants (slug waiter : string) (m : gmap string Task) : bool :=
  match first_undone_in_subtree slug waiter m with
  | Ok None => true
  | Ok (Some _) | Err _ => false
  end.

Definition is_actionable (task : Task) (m : gmap string Task) : bool :=
  bool_decide (t_state task ≠ Done ∧ t_state task ≠ Waiting) &&
  forallb (λ b, is_done_including_descendants b (t_slug task) m) (t_blocked_on task).

(** ** The specification *)

Section spec.
Context (m : gmap string Task) (waiter : string).

(** [below a b]: [b] is a child of [a] that the walk does not skip. *)
Definition below (a b : string) : Prop :=
  ∃ t, m !! b = Some t ∧ t_parent t = Some a ∧ b ≠ waiter.
Definition task_done (a : string) : Prop := ∃ t, m !! a = Some t ∧ t_state t = Done.

(** The map of a listing: the key of a task is its slug. *)
Definition keyed : Prop := map_Forall (λ k t, t_slug t = k) m.
Hypothesis Hkeyed : keyed.

Lemma elem_of_subtree_children a b : b ∈ subtree_children m waiter a ↔ below a b.
Proof.
  unfold subtree_children. rewrite merge_sort_Permutation, list_elem_of_fmap.
  setoid_rewrite list_elem_of_filter. setoid_rewrite list_elem_of_fmap. split.
  - intros (t & -> & [Hp Hw] & ([k t'] & Ht & Hin)). simpl in Ht. subst t'.
    apply elem_of_map_to_list in Hin. pose proof (Hkeyed _ _ Hin) as Hk. simpl in Hk.
    subst k. exists t. done.
  - intros (t & Ht & Hp & Hw). pose proof (Hkeyed _ _ Ht) as Hk. simpl in Hk.
    exists t. split_and!; [done|done|by rewrite Hk|].
    exists (b, t). by rewrite elem_of_map_to_list.
Qed.

Lemma NoDup_subtree_children a : NoDup (subtree_children m waiter a).
Proof.
  unfold subtree_children. rewrite merge_sort_Permutation.
  assert (H : NoDup (t_slug <$> (snd <$> map_to_list m))).
  { assert (E : t_slug <$> (snd <$> map_to_list m) = fst <$> map_to_list m).
    { rewrite <-list_fmap_compose. apply list_fmap_ext. intros i [k t] Hi. simpl.
      apply (Hkeyed k t). apply elem_of_map_to_list. by eapply list_elem_of_lookup_2. }
    rewrite E. apply NoDup_fst_map_to_list. }
  revert H. generalize (snd <$> map_to_list m). intros l.
  induction l as [|t l IH]; [done|]. rewrite fmap_cons, NoDup_cons. intros [Hn Hl].
  rewrite filter_cons. case_decide; [|by apply IH].
  rewrite fmap_cons, NoDup_cons. split; [|by apply IH].
  rewrite list_elem_of_fmap in *. setoid_rewrite list_elem_of_filter. naive_solver.
Qed.

Lemma below_dom a b : below a b → b ∈ dom m.
Proof. intros (t & Ht & _). by apply elem_of_dom_2 in Ht. Qed.

(** ** Fuel *)

Lemma go_children_enough rec cs (K visited : gset string) :
  (∀ c v, c ∈ cs → visited ⊆ v →
     ∃ r, rec c v = Some r ∧ ∀ u v', r = Ok (u, v') → v ⊆ v') →
  ∃ r, go_children rec cs visited = Some r ∧ ∀ u v', r = Ok (u, v') → visited ⊆ v'.
Proof.
  revert visited. induction cs as [|c cs IH]; intros visited Hrec; simpl.
  { eexists. split; [done|]. naive_solver. }
  destruct (Hrec c visited) as (r & -> & Hr); [set_solver|done|].
  destruct r as [[[u|] v]|e].
  - eexists. split; [done|]. naive_solver.
  - specialize (Hr None v eq_refl). destruct (IH v) as (r & -> & Hr').
    { intros c' v' Hc Hv. apply Hrec; set_solver. }
    eexists. split; [done|]. intros u v' ->. specialize (Hr' u v' eq_refl). set_solver.
  - eexists. split; [done|]. naive_solver.
Qed.

Lemma size_remaining (K visited : gset string) slug :
  slug ∈ K → slug ∉ visited → size (K ∖ ({[slug]} ∪ visited)) < size (K ∖ visited).
Proof.
  intros HK Hv. apply subset_size. split; [set_solver|]. intros H. set_solver.
Qed.

(** Every call adds a slug of the store to [visited], so the walk ends. *)
Lemma go_enough_fuel (K : gset string) fuel slug visited :
  dom m ⊆ K → slug ∈ K → size (K ∖ visited) < fuel →
  ∃ r, go m waiter fuel slug visited = Some r ∧
       ∀ u v', r = Ok (u, v') → visited ⊆ v'.
Proof.
  intros HK. revert slug visited. induction fuel as [|fuel IH]; intros slug visited Hs Hf; [lia|].
  simpl. case_decide as Hv; [eexists; split; [done|]; naive_solver|].
  pose proof (size_remaining K visited slug Hs Hv) as Hsz.
  destruct (m !! slug) as [t|] eqn:Ht; [|eexists; split; [done|]; set_solver].
  case_decide; [|eexists; split; [done|]; set_solver].
  destruct (go_children_enough (go m waiter fuel) (subtree_children m waiter slug) K
              ({[slug]} ∪ visited)) as (r & -> & Hr).
  { intros c v Hc Hsub. apply IH.
    - apply elem_of_subtree_children in Hc. apply below_dom in Hc. set_solver.
    - eapply Nat.le_lt_trans; [|exact (Nat.lt_le_trans _ _ _ Hsz (proj2 (Nat.succ_le_mono _ _) Hf))].
      apply subseteq_size. set_solver. }
  eexists. split; [done|]. intros u v' ->. specialize (Hr u v' eq_refl). set_solver.
Qed.

Lemma go_root_fuel slug :
  ∃ r, go m waiter (walk_fuel m) slug ∅ = Some r.
Proof.
  destruct (go_enough_fuel ({[slug]} ∪ dom m) (walk_fuel m) slug ∅) as (r & Hr & _).
  - set_solver.
  - set_solver.
  - unfold walk_fuel. rewrite difference_empty_L.
    rewrite size_union_alt, size_singleton, <-(size_dom m).
    assert (size (dom m ∖ {[slug]}) ≤ size (dom m)); [apply subseteq_size; set_solver|]. lia.
  - by exists r.
Qed.

(** ** Soundness: an answer "nothing undone" covers the whole subtree. *)

Definition closed_from (v v' : gset string) : Prop :=
  v ⊆ v' ∧ ∀ x, x ∈ v' → x ∉ v → task_done x ∧ ∀ y, below x y → y ∈ v' ∧ y ∉ v.

Lemma closed_from_refl v : closed_from v v.
Proof. split; [done|]. naive_solver. Qed.

Lemma closed_from_trans v1 v2 v3 :
  closed_from v1 v2 → closed_from v2 v3 → closed_from v1 v3.
Proof.
  intros [H1 H2] [H3 H4]. split; [set_solver|]. intros x Hx Hn.
  destruct (decide (x ∈ v2)) as [Hx2|Hx2].
  - destruct (H2 x Hx2 Hn) as [Hd Hy]. split; [done|]. intros y Hb.
    apply Hy in Hb as [??]. set_solver.
  - destruct (H4 x Hx Hx2) as [Hd Hy]. split; [done|]. intros y Hb.
    apply Hy in Hb as [??]. set_solver.
Qed.

Lemma go_children_sound rec cs v v' :
  (∀ c v1 v2, rec c v1 = Some (Ok (None, v2)) → closed_from v1 v2 ∧ c ∈ v2 ∧ c ∉ v1) →
  go_children rec cs v = Some (Ok (None, v')) →
  closed_from v v' ∧ ∀ c, c ∈ cs → c ∈ v' ∧ c ∉ v.
Proof.
  intros Hrec. revert v. induction cs as [|c cs IH]; intros v; simpl.
  { intros [= <-]. split; [apply closed_from_refl|set_solver]. }
  destruct (rec c v) as [[[[u|] v1]|e]|] eqn:Hc; [done| |done..].
  intros H. apply Hrec in Hc as (Hc1 & Hc2 & Hc3). apply IH in H as [H1 H2]. split.
  - by eapply closed_from_trans.
  - intros c' [->|Hc']%elem_of_cons; [destruct H1; set_solver|].
    apply H2 in Hc' as [??]. destruct Hc1. set_solver.
Qed.

Lemma go_sound fuel slug v v' :
  go m waiter fuel slug v = Some (Ok (None, v')) →
  closed_from v v' ∧ slug ∈ v' ∧ slug ∉ v ∧
  ∀ x y, x ∈ v' → x ∉ v → below x y → y ≠ slug.
Proof.
  revert slug v v'. induction fuel as [|fuel IH]; intros slug v v'; simpl; [done|].
  case_decide as Hv; [done|]. destruct (m !! slug) as [t|] eqn:Ht; [|done].
  case_decide as Hd; [|done]. intros H.
  apply go_children_sound in H as [[H1 H2] H3]; last first.
  { intros c v1 v2 Hc. apply IH in Hc. naive_solver. }
  assert (Hx : ∀ x, x ∈ v' → x ∉ v →
    task_done x ∧ ∀ y, below x y → y ∈ v' ∧ y ∉ {[slug]} ∪ v).
  { intros x Hx Hn. destruct (decide (x = slug)) as [->|Hne]; [|apply H2; set_solver].
    split; [by exists t|]. intros y Hy. apply H3. by apply elem_of_subtree_children. }
  split_and!; [|set_solver|done|].
  - split; [set_solver|]. intros x Hxv Hn. destruct (Hx x Hxv Hn) as [? Hy].
    split; [done|]. intros y Hb. apply Hy in Hb. set_solver.
  - intros x y Hxv Hn Hb. apply (Hx x Hxv Hn) in Hb. set_solver.
Qed.

Lemma go_sound_reach fuel slug v' :
  go m waiter fuel slug ∅ = Some (Ok (None, v')) →
  ¬ tc below slug slug ∧ ∀ x, rtc below slug x → task_done x.
Proof.
  intros ([_ H] & Hs & _ & Hroot)%go_sound.
  assert (Hin : ∀ x, rtc below slug x → x ∈ v').
  { refine (rtc_ind_r _ _ _ _); [done|]. intros y z _ Hyz Hy.
    apply (H y); set_solver. }
  split.
  - intros (y & Hy & Hb)%tc_inv_r. apply Hin in Hy.
    by apply (Hroot y slug); [|set_solver|..].
  - intros x Hx. apply (H x); [by apply Hin|set_solver].
Qed.

(** An undone answer names a task of the subtree that is missing or not done. *)
Lemma go_undone fuel slug v u v' :
  go m waiter fuel slug v = Some (Ok (Some u, v')) → rtc below slug u ∧ ¬ task_done u.
Proof.
  revert slug v v'. induction fuel as [|fuel IH]; intros slug v v'; simpl; [done|].
  case_decide as Hv; [done|]. destruct (m !! slug) as [t|] eqn:Ht; last first.
  { intros [= <- _]. split; [done|]. intros (t & ? & _). congruence. }
  case_decide as Hd; last first.
  { intros [= <- _]. split; [done|]. intros (t' & ? & ?). congruence. }
  assert (Hcs : ∀ c, c ∈ subtree_children m waiter slug → below slug c)
    by (intros; by apply elem_of_subtree_children).
  revert Hcs. generalize (subtree_children m waiter slug), ({[slug]} ∪ v).
  intros cs. induction cs as [|c cs IHc]; intros v1 Hcs; simpl; [done|].
  destruct (go m waiter fuel c v1) as [[[[u1|] v2]|e]|] eqn:Hg; [| |done..].
  - intros [= -> ->]. apply IH in Hg as [Hr Hu]. split; [|done].
    eapply rtc_l; [|exact Hr]. apply Hcs. set_solver.
  - apply IHc. intros c' Hc'. apply Hcs. set_solver.
Qed.

(** ** Completeness: without a loop the walk gives an answer. *)

Lemma below_parent_unique a a' b : below a b → below a' b → a = a'.
Proof. intros (t & Ht & Hp & _) (t' & Ht' & Hp' & _). congruence. Qed.

(** One parent per task: two tasks above the same task are on one line. *)
Lemma below_line c c' z :
  rtc below c z → rtc below c' z → rtc below c c' ∨ rtc below c' c.
Proof.
  intros H. revert z H c'. refine (rtc_ind_r _ _ _ _).
  - intros c' Hc'. by right.
  - intros y z Hy Hyz IH c' Hc'. apply rtc_inv_r in Hc' as [->|(y' & Hc' & Hy')].
    + left. by eapply rtc_r.
    + pose proof (below_parent_unique _ _ _ Hyz Hy') as ->. by apply IH.
Qed.

Lemma below_loop_up slug x : rtc below slug x → tc below x x → tc below slug slug.
Proof.
  revert x. refine (rtc_ind_r _ _ _ _); [done|].
  intros y z Hy Hyz IH Hz. apply IH.
  apply tc_inv_r in Hz as (y' & Hzy & Hy').
  pose proof (below_parent_unique _ _ _ Hyz Hy') as <-. by eapply tc_l_rtc.
Qed.

(** Two children of one task share no descendant, unless the task is on a loop. *)
Lemma siblings_disjoint s c c' x :
  below s c → below s c' → c ≠ c' → rtc below c x → rtc below c' x → tc below s s.
Proof.
  assert (Hup : ∀ d d', below s d → below s d' → d ≠ d' → rtc below d d' → tc below s s).
  { intros d d' Hd Hd' Hne [->|(y & Hdy & Hy)]%rtc_inv_r; [done|].
    pose proof (below_parent_unique _ _ _ Hd' Hy) as <-. exact (tc_l_rtc _ _ _ _ Hd Hdy). }
  intros Hc Hc' Hne H1 H2. destruct (below_line _ _ _ H1 H2); eauto.
Qed.

Lemma go_complete (K : gset string) fuel s v :
  dom m ⊆ K → s ∈ K → size (K ∖ v) < fuel →
  ¬ tc below s s →
  (∀ x, rtc below s x → x ∉ v) →
  ∃ u v', go m waiter fuel s v = Some (Ok (u, v')) ∧
        (u = None → ∀ x, x ∈ v' ↔ x ∈ v ∨ rtc below s x).
Proof.
  intros HK. revert s v. induction fuel as [|fuel IH]; intros s v Hs Hf Hloop Hall; [lia|].
  assert (Hsv : s ∉ v) by (by apply Hall). simpl.
  rewrite decide_False by done.
  destruct (m !! s) as [t|]; [|by exists (Some s), ({[s]} ∪ v)].
  case_decide; [|by exists (Some s), ({[s]} ∪ v)].
  pose proof (size_remaining K v s Hs Hsv) as Hsz.
  cut (∀ cs v1, NoDup cs → (∀ c, c ∈ cs → below s c) → {[s]} ∪ v ⊆ v1 →
    (∀ c x, c ∈ cs → rtc below c x → x ∉ v1) →
    ∃ u v', go_children (go m waiter fuel) cs v1 = Some (Ok (u, v')) ∧
          (u = None → ∀ x, x ∈ v' ↔ x ∈ v1 ∨ ∃ c, c ∈ cs ∧ rtc below c x)).
  { intros Hcut. destruct (Hcut (subtree_children m waiter s) ({[s]} ∪ v)) as (u & v' & -> & Hv').
    - apply NoDup_subtree_children.
    - intros c. apply elem_of_subtree_children.
    - done.
    - intros c x Hc Hx. apply elem_of_subtree_children in Hc.
      assert (Hxv : x ∉ v) by (apply Hall; by eapply rtc_l). rewrite elem_of_union, elem_of_singleton.
      intros [->|?]; [|done]. apply Hloop. by eapply tc_l_rtc.
    - exists u, v'. split; [done|]. intros Hu x.
      rewrite (Hv' Hu), elem_of_union, elem_of_singleton. split.
      + intros [[->|?]|(c & Hc & Hx)]; [by right|by left|]. right.
        eapply rtc_l; [|exact Hx]. by apply elem_of_subtree_children.
      + intros [?|[->|(c & Hc & Hx)]%rtc_inv]; [by left; right|by left; left|].
        right. exists c. by rewrite elem_of_subtree_children. }
  intros cs. induction cs as [|c cs IHc]; intros v1 Hnd Hcs Hsub Hfree; simpl.
  { exists None, v1. split; [done|]. set_solver. }
  apply NoDup_cons in Hnd as [Hni Hnd].
  assert (Hbc : below s c) by (apply Hcs; set_solver).
  destruct (IH c v1) as (u1 & v2 & -> & Hv2).
  - apply below_dom in Hbc. set_solver.
  - assert (size (K ∖ v1) ≤ size (K ∖ ({[s]} ∪ v))); [apply subseteq_size; set_solver|]. lia.
  - intros Hc. apply Hloop. eapply below_loop_up; [|exact Hc]. by apply rtc_once.
  - intros x Hx. by apply (Hfree c x); [set_solver|].
  - destruct u1 as [u1|]; [by exists (Some u1), v2|]. specialize (Hv2 eq_refl).
    destruct (IHc v2) as (u & v' & -> & Hv').
    + done.
    + intros; apply Hcs; set_solver.
    + intros x Hx. rewrite Hv2. left. by apply Hsub.
    + intros c' x Hc' Hx. rewrite Hv2. intros [?|Hcx].
      * by apply (Hfree c' x); [set_solver|..].
      * apply Hloop. eapply (siblings_disjoint s c c' x); [done| |set_solver|done..].
        apply Hcs. set_solver.
    + exists u, v'. split; [done|]. intros Hu x. rewrite (Hv' Hu), Hv2. set_solver.
Qed.
End spec.

Section theorems.
Context (m : gmap string Task) (waiter slug : string).

Lemma first_undone_cases :
  keyed m → ∃ r, go m waiter (walk_fuel m) slug ∅ = Some r ∧
    first_undone_in_subtree slug waiter m =
      match r with Ok (u, _) => Ok u | Err e => Err e end.
Proof.
  intros Hk. destruct (go_root_fuel m waiter Hk slug) as (r & Hr). exists r.
  split; [done|]. unfold first_undone_in_subtree. rewrite Hr. by destruct r as [[]|].
Qed.

Lemma first_undone_total :
  keyed m → ¬ tc (below m waiter) slug slug → ∃ u, first_undone_in_subtree slug waiter m = Ok u.
Proof.
  intros Hk Hl. destruct (first_undone_cases Hk) as (r & Hr & ->).
  destruct (go_complete m waiter Hk ({[slug]} ∪ dom m) (walk_fuel m) slug ∅)
    as (u & v' & Hg & _); [set_solver..| |done|set_solver|].
  - unfold walk_fuel. rewrite difference_empty_L, size_union_alt, size_singleton, <-(size_dom m).
    assert (size (dom m ∖ {[slug]}) ≤ size (dom m)); [apply subseteq_size; set_solver|]. lia.
  - exists u. rewrite Hr in Hg. by simplify_eq.
Qed.

Lemma first_undone_some u :
  keyed m → first_undone_in_subtree slug waiter m = Ok (Some u) →
  rtc (below m waiter) slug u ∧ ¬ task_done m u.
Proof.
  intros Hk. destruct (first_undone_cases Hk) as (r & Hr & ->).
  destruct r as [[u' v]|]; [|done]. intros [= ->]. by eapply go_undone.
Qed.

Lemma first_undone_none :
  keyed m →
  first_undone_in_subtree slug waiter m = Ok None ↔
    ¬ tc (below m waiter) slug slug ∧ ∀ x, rtc (below m waiter) slug x → task_done m x.
Proof.
  intros Hk. split.
  - destruct (first_undone_cases Hk) as (r & Hr & ->).
    destruct r as [[u v]|]; [|done]. intros [= ->]. by eapply go_sound_reach.
  - intros [Hl Hall]. destruct (first_undone_total Hk Hl) as ([u|] & E); [|done].
    apply first_undone_some in E as [Hr Hu]; [|done]. by apply Hall in Hr.
Qed.

(** The blocker walk decides its specification, and always ends. It answers
    "nothing undone" exactly when the blocker and every task below it (outside the
    waiting task's own subtree) are done and the parent links below it do not loop;
    the slug it names otherwise is below the blocker and missing or not done; and it
    gives an answer whenever the parent links do not loop through the blocker. *)
Theorem first_undone_correct :
  keyed m →
  (first_undone_in_subtree slug waiter m = Ok None ↔
     ¬ tc (below m waiter) slug slug ∧ ∀ x, rtc (below m waiter) slug x → task_done m x) ∧
  (∀ u, first_undone_in_subtree slug waiter m = Ok (Some u) →
     rtc (below m waiter) slug u ∧ ¬ task_done m u) ∧
  (¬ tc (below m waiter) slug slug → ∃ u, first_undone_in_subtree slug waiter m = Ok u).
Proof.
  intros Hk. split_and!; [by apply first_undone_none|intros u; by apply first_undone_some|].
  by apply first_undone_total.
Qed.
End theorems.

(** ** The map of a listing *)

Lemma elem_of_by_slug_1 ts k t : by_slug ts !! k = Some t → t ∈ ts ∧ t_slug t = k.
Proof.
  unfold by_slug. intros H%elem_of_list_to_map_2.
  rewrite elem_of_reverse, list_elem_of_fmap in H. destruct H as (t' & E & ?). by simplify_eq.
Qed.
Lemma keyed_by_slug ts : keyed (by_slug ts).
Proof. intros k t H. by apply elem_of_by_slug_1 in H as [_ ?]. Qed.
Lemma by_slug_lookup ts t :
  NoDup (t_slug <$> ts) → t ∈ ts → by_slug ts !! t_slug t = Some t.
Proof.
  intros Hnd Hin. unfold by_slug. apply elem_of_list_to_map_1.
  - rewrite fmap_reverse, <-list_fmap_compose. by rewrite reverse_Permutation.
  - rewrite elem_of_reverse, list_elem_of_fmap. eauto.
Qed.

(** A task is offered as the next step exactly when it is open or in progress
    and each of its blockers is stored, done, free of parent loops, and done through
    its whole subtree outside the task's own. A missing blocker keeps it blocked. *)
Theorem is_actionable_correct (ts : list Task) (task : Task) :
  is_actionable task (by_slug ts) = true ↔
  (t_state task = Open ∨ t_state task = Wip) ∧
  ∀ b, b ∈ t_blocked_on task →
    let R := below (by_slug ts) (t_slug task) in
    ¬ tc R b b ∧ ∀ x, rtc R b x → task_done (by_slug ts) x.
Proof.
  unfold is_actionable. rewrite andb_true_iff, bool_decide_eq_true, forallb_forall.
  assert (Hs : t_state task ≠ Done ∧ t_state task ≠ Waiting ↔
               t_state task = Open ∨ t_state task = Wip)
    by (destruct (t_state task); naive_solver).
  assert (Hb : ∀ b, is_done_including_descendants b (t_slug task) (by_slug ts) = true ↔
    first_undone_in_subtree b (t_slug task) (by_slug ts) = Ok None).
  { intros b. unfold is_done_including_descendants.
    destruct (first_undone_in_subtree _ _ _) as [[]|]; naive_solver. }
  setoid_rewrite Hb. setoid_rewrite (first_undone_none _ _ _ (keyed_by_slug ts)).
  setoid_rewrite <-list_elem_of_In. naive_solver.
Qed.
