(* ===== verification/Relation.v ===== *)
(** * Sub-tasks and the queue (crates/llmenv-task/src/relation.rs)

    A sub-task belongs to a parent, which cannot finish before it. A top-level
    task waits for the task ahead of it in its session. *)

From S2P Require Import Prelude RustStr Names Slug TaskData TaskStore.

(** [queue_order]: creation time, then slug ([Ordering::then_with]). The order [≤]. *)
Definition queue_order (a b : Task) : Prop :=
  if decide (t_created_at a = t_created_at b) then str_le (t_slug a) (t_slug b)
  else str_le (t_created_at a) (t_created_at b).
Global Instance queue_order_dec : RelDecision queue_order.
Proof. intros a b. unfold queue_order. case_decide; apply _. Defined.

(** The queue of a session. *)
Definition queue (session_tasks : list Task) : list Task :=
  merge_sort queue_order
    (filter (λ t, t_relation t = Queued ∧ t_parallel t = false) session_tasks).

Definition blocked_message (task ahead : Task) (state : string) : string :=
  "task '" +:+ t_slug task +:+ "' is queued behind '" +:+ t_slug ahead +:+ "' (" +:+ state +:+
  "). Finish '" +:+ t_slug ahead +:+ "' with `llmenv task done " +:+ t_slug ahead +:+
  "`, or park it with `llmenv task wait " +:+ t_slug ahead +:+ " " +:+ dq +:+ "<reason>" +:+ dq +:+
  "`. If '" +:+ t_slug task +:+ "' can run beside it, pass --force.".

Definition queue_block (task : Task) (session_tasks : list Task) : option string :=
  if decide (t_state task ≠ Open ∨ t_relation task ≠ Queued ∨ t_parallel task = true) then None
  else
    let queued := queue session_tasks in
    match find_first (λ t, t_slug t ≠ t_slug task ∧ t_state t = Wip) queued with
    | Some busy => Some (blocked_message task busy "in progress")
    | None =>
      match position (λ t, t_slug t = t_slug task) queued with
      | Some (S before) =>
        ahead ← queued !! before;
        if decide (t_state ahead = Done ∨ t_state ahead = Waiting) then None
        else Some (blocked_message task ahead (as_str (t_state ahead)))
      | Some 0 | None => None
      end
    end.

(** The direct children of [parent]. *)
Definition children (parent : string) (all : list Task) : list Task :=
  filter (λ t, t_relation t = Child ∧ t_parent t = Some parent) all.

(** The loop body of [undone_descendants] for the children of one task. [frontier]
    is the Vec used as a stack, its top first. *)
Fixpoint scan_children (kids : list Task) (seen frontier : list string) (found : list Task)
  : list string * list string * list Task :=
  match kids with
  | [] => (seen, frontier, found)
  | child :: kids =>
    if decide (t_slug child ∈ seen) then scan_children kids seen frontier found
    else scan_children kids (seen ++ [t_slug child]) (t_slug child :: frontier)
           (if decide (t_state child = Done) then found else found ++ [child])
  end.

(** The [while let Some(current) = frontier.pop()] loop. [None] is running out of
    [fuel], which [descend_spec] rules out. *)
Fixpoint descend (fuel : nat) (all : list Task) (seen frontier : list string)
    (found : list Task) : option (list Task) :=
  match fuel with
  | 0 => None
  | S fuel =>
    match frontier with
    | [] => Some found
    | current :: frontier =>
      let '(seen, frontier, found) := scan_children (children current all) seen frontier found in
      descend fuel all seen frontier found
    end
  end.

Definition undone_descendants (slug : string) (all : list Task) : list Task :=
  merge_sort queue_order
    (default [] (descend (S (S (length all))) all [slug] [slug] [])).


Definition undone_children_message (slug : string) (undone : list Task) : string :=
  "'" +:+ slug +:+ "' has sub-tasks that are not done: " +:+
  join ", " ((λ t, "'" +:+ t_slug t +:+ "' (" +:+ as_str (t_state t) +:+ ")") <$> undone) +:+
  ". Finish them first, or pass --force.".

(** [ChildProgress]. *)
Record ChildProgress := mkProgress {
  cp_done : nat; cp_wip : nat; cp_waiting : nat; cp_open : nat }.
Definition cp_total (p : ChildProgress) : nat :=
  cp_done p + cp_wip p + cp_waiting p + cp_open p.
Definition cp_all_waiting (p : ChildProgress) : bool :=
  bool_decide (0 < cp_waiting p ∧ cp_wip p = 0 ∧ cp_open p = 0).
Definition cp_stalled (p : ChildProgress) : bool :=
  bool_decide (0 < cp_open p ∧ cp_wip p = 0 ∧ cp_waiting p = 0).
Definition cp_line (p : ChildProgress) : string :=
  pretty (cp_done p) +:+ " of " +:+ pretty (cp_total p) +:+ " sub-tasks done, " +:+
  pretty (cp_wip p) +:+ " in progress, " +:+ pretty (cp_waiting p) +:+ " waiting, " +:+
  pretty (cp_open p) +:+ " not started".

Definition count_state (s : TaskState) (l : list Task) : nat :=
  length (filter (λ t, t_state t = s) l).

Definition child_progress (parent : string) (all : list Task) : option ChildProgress :=
  let kids := children parent all in
  if decide (kids = []) then None
  else Some (mkProgress (count_state Done kids) (count_state Wip kids)
               (count_state Waiting kids) (count_state Open kids)).

Definition first_open_child (parent : string) (all : list Task) : option Task :=
  min_by queue_order (filter (λ t, t_state t = Open) (children parent all)).

Definition progress_suffix (slug : string) (all : list Task) : string :=
  match child_progress slug all with
  | Some p =>
    if cp_all_waiting p then " — every open sub-task is waiting on external input"
    else " — " +:+ cp_line p
  | None => ""
  end.

Definition stalled_parent_line (all : list Task) (parent : Task) : option string :=
  progress ← child_progress (t_slug parent) all;
  if cp_stalled progress then
    next ← first_open_child (t_slug parent) all;
    Some ("Task '" +:+ t_slug parent +:+ "' (" +:+ t_title parent +:+ ") has " +:+
      cp_line progress +:+
      ". If you recognize it as your own work, run `llmenv task start " +:+ t_slug next +:+
      "` (" +:+ t_title next +:+
      ") before you work on that step. If you don't recognize it, it belongs to a different session — leave it alone.")
  else None.

(** [t.session.as_ref().is_some_and(|s| ids.contains(s))]. *)
Definition session_among (ids : list string) (t : Task) : Prop :=
  match t_session t with Some s => s ∈ ids | None => False end.
Global Instance session_among_dec ids t : Decision (session_among ids t).
Proof. unfold session_among. destruct (t_session t); apply _. Defined.

Definition stalled_parent_lines (all : list Task) (session_ids : list string) : list string :=
  omap (stalled_parent_line all)
    (filter (λ t, t_state t = Wip ∧ session_among session_ids t) all).

(** ** The queue *)

Global Instance queue_order_preorder : PreOrder queue_order.
Proof.
  split.
  - intros a. unfold queue_order, str_le. by rewrite decide_True.
  - intros a b c. unfold queue_order, str_le. intros Hab Hbc.
    repeat case_decide; try congruence; [by etransitivity|..|by etransitivity].
    assert (t_created_at a = t_created_at b); [|done]. apply (anti_symm String.le); congruence.
Qed.
Global Instance queue_order_total : Total queue_order.
Proof.
  intros a b. unfold queue_order, str_le. repeat case_decide; try congruence; apply (total _).
Qed.
(** Two tasks that the order does not tell apart have one slug. *)
Lemma queue_order_slug a b : queue_order a b → queue_order b a → t_slug a = t_slug b.
Proof.
  unfold queue_order, str_le. intros Hab Hba. repeat case_decide; try congruence.
  - by apply (anti_symm String.le).
  - assert (t_created_at a = t_created_at b); [|done]. by apply (anti_symm String.le).
Qed.

Lemma elem_of_queue t ts :
  t ∈ queue ts ↔ t ∈ ts ∧ t_relation t = Queued ∧ t_parallel t = false.
Proof. unfold queue. rewrite merge_sort_Permutation, list_elem_of_filter. tauto. Qed.
Lemma queue_sorted ts : StronglySorted queue_order (queue ts).
Proof. apply (StronglySorted_merge_sort _). Qed.

(** [b] is directly ahead of [a] in the queue: before it, and nothing between them. *)
Definition directly_ahead (ts : list Task) (b a : Task) : Prop :=
  b ∈ queue ts ∧ b ≠ a ∧ queue_order b a ∧
  ∀ c, c ∈ queue ts → c ≠ a → c ≠ b → queue_order c b ∨ queue_order a c.

Lemma StronglySorted_lookup {A} (R : relation A) l i j x y :
  StronglySorted R l → i < j → l !! i = Some x → l !! j = Some y → R x y.
Proof.
  intros Hs. revert i j. induction Hs as [|a l Hs IH Hall]; intros i j Hij Hx Hy; [done|].
  destruct j as [|j]; [lia|]. destruct i as [|i]; simpl in *.
  - simplify_eq. rewrite Forall_forall in Hall. apply Hall. by eapply list_elem_of_lookup_2.
  - apply (IH i j); [lia|done..].
Qed.

Lemma NoDup_slug_eq ts (a b : Task) :
  NoDup (t_slug <$> ts) → a ∈ ts → b ∈ ts → t_slug a = t_slug b → a = b.
Proof.
  intros Hnd [i Hi]%list_elem_of_lookup [j Hj]%list_elem_of_lookup E.
  assert (i = j) as ->; [|congruence]. apply (NoDup_lookup _ _ _ (t_slug a) Hnd).
  - by rewrite list_lookup_fmap, Hi.
  - by rewrite list_lookup_fmap, Hj, E.
Qed.

Lemma NoDup_slug_queue ts : NoDup (t_slug <$> ts) → NoDup (t_slug <$> queue ts).
Proof.
  intros H. unfold queue. rewrite merge_sort_Permutation.
  eapply sublist_NoDup; [exact H|]. apply fmap_sublist, sublist_filter.
Qed.

(** The element just before [a] in the queue is the one directly ahead of it. *)
Lemma queue_ahead ts i a b :
  NoDup (t_slug <$> ts) → queue ts !! S i = Some a → queue ts !! i = Some b →
  directly_ahead ts b a ∧ ∀ b', directly_ahead ts b' a → b' = b.
Proof.
  intros Hnd Ha Hb. pose proof (queue_sorted ts) as Hs.
  pose proof (NoDup_slug_queue _ Hnd) as Hq.
  assert (Hinj : ∀ j k x y, queue ts !! j = Some x → queue ts !! k = Some y →
            t_slug x = t_slug y → j = k).
  { intros j k x y Hj Hk E. apply (NoDup_lookup _ _ _ (t_slug x) Hq);
      rewrite list_lookup_fmap; [by rewrite Hj|by rewrite Hk, E]. }
  assert (Hbef : ∀ c, c ∈ queue ts → c ≠ a → c ≠ b → queue_order c b ∨ queue_order a c).
  { intros c [k Hk]%list_elem_of_lookup Hca Hcb. destruct (decide (k < i)).
    - left. eapply StronglySorted_lookup; [exact Hs| |exact Hk|exact Hb]. lia.
    - right. assert (k ≠ i ∧ k ≠ S i) by (split; congruence).
      eapply StronglySorted_lookup; [exact Hs| |exact Ha|exact Hk]. lia. }
  assert (Hba : b ≠ a) by (intros ->; assert (i = S i) by (by eapply Hinj); lia).
  assert (Ho : queue_order b a) by (eapply StronglySorted_lookup; [exact Hs| |exact Hb|exact Ha]; lia).
  split.
  - split_and!; [by eapply list_elem_of_lookup_2|done..].
  - intros b' (Hin & Hne & Ho' & Hbet). destruct (decide (b' = b)) as [|Hd]; [done|exfalso].
    assert (Hbq : b ∈ queue ts) by (by eapply list_elem_of_lookup_2).
    assert (Haq : a ∈ queue ts) by (by eapply list_elem_of_lookup_2).
    assert (Heq : ∀ x y, x ∈ queue ts → y ∈ queue ts → queue_order x y → queue_order y x → x = y).
    { intros x y Hx Hy Hxy Hyx. eapply NoDup_slug_eq; [exact Hnd| | |by apply queue_order_slug];
        [by apply elem_of_queue in Hx as []|by apply elem_of_queue in Hy as []]. }
    destruct (Hbet b) as [?|?]; [done..|by intros ->| |].
    + destruct (Hbef b') as [?|?]; [done..| |]; [apply Hd|apply Hne]; by apply Heq.
    + apply Hba. by apply Heq.
Qed.

(** The queue rule. In a session with distinct slugs, a task of the session may
    start ([queue_block] gives nothing) exactly when it is not an open, queued,
    non-parallel task, or no other queued task is in progress and the task directly
    ahead of it in creation order, if there is one, is done or waiting. *)
Theorem queue_block_correct (ts : list Task) (task : Task) :
  NoDup (t_slug <$> ts) → task ∈ ts →
  (queue_block task ts = None ↔
   ¬ (t_state task = Open ∧ task ∈ queue ts) ∨
   (∀ t, t ∈ queue ts → t_state t = Wip → t = task) ∧
   (∀ b, directly_ahead ts b task → t_state b = Done ∨ t_state b = Waiting)).
Proof.
  intros Hnd Hin. unfold queue_block.
  assert (Hq : task ∈ queue ts ↔ t_relation task = Queued ∧ t_parallel task = false)
    by (rewrite elem_of_queue; tauto).
  assert (Hslug : ∀ t, t ∈ queue ts → t_slug t = t_slug task → t = task).
  { intros t Ht%elem_of_queue E. eapply NoDup_slug_eq; [exact Hnd|tauto..]. }
  case_decide as Hd.
  { split; [|done]. intros _. left. rewrite Hq. destruct (t_parallel task); naive_solver. }
  assert (Hopen : t_state task = Open ∧ task ∈ queue ts).
  { rewrite Hq. destruct (t_state task), (t_relation task), (t_parallel task); naive_solver. }
  destruct Hopen as [Hop Htq].
  destruct (find_first _ _) as [busy|] eqn:Hf.
  { apply find_first_Some in Hf as (Hb & Hne & Hw). split; [done|].
    intros [?|[Hall _]]; [naive_solver|]. specialize (Hall _ Hb Hw). congruence. }
  apply find_first_None in Hf. rewrite Forall_forall in Hf.
  assert (Hwip : ∀ t, t ∈ queue ts → t_state t = Wip → t = task).
  { intros t Ht Hw. apply Hslug; [done|]. specialize (Hf t Ht). destruct (decide (t_slug t = t_slug task)); tauto. }
  unfold position. destruct (list_find _ (queue ts)) as [[i a]|] eqn:Hl; simpl; last first.
  { apply list_find_None in Hl. rewrite Forall_forall in Hl. by destruct (Hl task). }
  apply list_find_Some in Hl as (Ha & E & _).
  apply Hslug in E; [subst a|by eapply list_elem_of_lookup_2].
  destruct i as [|i].
  - split; [|done]. intros _. right. split; [done|]. intros b (Hb & Hne & Ho & _).
    destruct (decide (b = task)) as [|]; [done|]. exfalso.
    apply list_elem_of_lookup in Hb as [j Hj]. destruct j as [|j]; [congruence|].
    assert (queue_order task b) by (eapply StronglySorted_lookup; [apply queue_sorted| |done..]; lia).
    apply Hne, Hslug; [by eapply list_elem_of_lookup_2|by apply queue_order_slug].
  - destruct (lookup_lt_is_Some_2 (queue ts) i) as [b Hb].
    { apply lookup_lt_Some in Ha. lia. }
    rewrite Hb. simpl. destruct (queue_ahead ts i task b Hnd Ha Hb) as [Hahead Huniq].
    case_decide as Hs; split; try done.
    + intros _. right. split; [done|]. intros b' ->%Huniq. done.
    + intros [?|[_ H]]; [naive_solver|]. by apply H in Hahead.
Qed.

(** ** Undone descendants *)

(** [child_of all a b]: a stored task [b] is a direct sub-task of [a]. *)
Definition child_of (all : list Task) (a b : string) : Prop :=
  ∃ t, t ∈ all ∧ t_slug t = b ∧ t_relation t = Child ∧ t_parent t = Some a.

Definition unseen (all : list Task) (seen : list string) : nat :=
  length (filter (λ t, t_slug t ∉ seen) all).

Lemma unseen_snoc all seen t :
  t ∈ all → t_slug t ∉ seen → unseen all (seen ++ [t_slug t]) < unseen all seen.
Proof.
  unfold unseen. intros Hin Hns. induction all as [|a all IH]; [by apply elem_of_nil in Hin|].
  rewrite !filter_cons. apply elem_of_cons in Hin as [<-|Hin].
  - rewrite decide_False, decide_True by set_solver. simpl. apply Nat.lt_succ_r.
    clear IH. induction all as [|a all IH]; [done|]. rewrite !filter_cons.
    repeat case_decide; simpl; try lia. set_solver.
  - specialize (IH Hin). repeat case_decide; simpl; try lia. set_solver.
Qed.

(** What one pass over the children of a task adds. *)
Lemma scan_children_spec all kids seen frontier found seen' frontier' found' :
  (∀ k, k ∈ kids → k ∈ all) →
  scan_children kids seen frontier found = (seen', frontier', found') →
  ∃ nk, (∀ t, t ∈ nk → t ∈ kids ∧ t_slug t ∉ seen) ∧
    (∀ s, s ∈ seen' ↔ s ∈ seen ∨ s ∈ t_slug <$> nk) ∧
    (∀ s, s ∈ frontier' ↔ s ∈ frontier ∨ s ∈ t_slug <$> nk) ∧
    found' = found ++ filter (λ t, t_state t ≠ Done) nk ∧ NoDup (t_slug <$> nk) ∧
    (∀ k, k ∈ kids → t_slug k ∈ seen') ∧
    length frontier' + unseen all seen' ≤ length frontier + unseen all seen.
Proof.
  intros Hall. revert seen frontier found.
  induction kids as [|k kids IH]; intros seen frontier found; simpl.
  { intros [= <- <- <-]. exists []. rewrite filter_nil, app_nil_r.
    split_and!; [set_solver..|done|constructor|set_solver|lia]. }
  assert (Hall' : ∀ x, x ∈ kids → x ∈ all) by set_solver.
  case_decide as Hk; intros E.
  { destruct (IH Hall' _ _ _ E) as (nk & H1 & H2 & H3 & H4 & H5 & H6 & H7).
    exists nk. split_and!; try done; [set_solver|]. intros k' [->|?]%elem_of_cons; [|by apply H6].
    apply H2. by left. }
  destruct (IH Hall' _ _ _ E) as (nk & H1 & H2 & H3 & -> & H5 & H6 & H7).
  exists (k :: nk). split_and!.
  - intros t [->|Ht]%elem_of_cons; [set_solver|]. apply H1 in Ht. set_solver.
  - intros s. rewrite H2. set_solver.
  - intros s. rewrite H3. set_solver.
  - rewrite filter_cons. repeat case_decide; try done. by rewrite <-app_assoc.
  - simpl. constructor; [|done]. intros (t & E' & Ht)%list_elem_of_fmap.
    apply H1 in Ht. set_solver.
  - intros k' [->|?]%elem_of_cons; [|by apply H6]. apply H2. set_solver.
  - assert (unseen all (seen ++ [t_slug k]) < unseen all seen) by (apply unseen_snoc; set_solver).
    simpl in H7. lia.
Qed.

Section descend.
Context (all : list Task) (slug : string).

(** The invariant of the loop: everything seen is below [slug], the children of
    what left the frontier are seen, and [found] holds what is seen and undone. *)
Record descend_inv (seen frontier : list string) (found : list Task) : Prop := {
  di_frontier : ∀ x, x ∈ frontier → x ∈ seen;
  di_root : slug ∈ seen;
  di_reach : ∀ x, x ∈ seen → rtc (child_of all) slug x;
  di_closed : ∀ x y, x ∈ seen → x ∉ frontier → child_of all x y → y ∈ seen;
  di_sound : ∀ t, t ∈ found →
    t ∈ all ∧ t_state t ≠ Done ∧ t_relation t = Child ∧ t_slug t ∈ seen ∧ t_slug t ≠ slug;
  di_complete : ∀ t, t ∈ all → t_slug t ∈ seen → t_slug t ≠ slug → t_state t ≠ Done → t ∈ found;
  di_nodup : NoDup (t_slug <$> found) }.

Lemma elem_of_children t p :
  t ∈ children p all ↔ t ∈ all ∧ t_relation t = Child ∧ t_parent t = Some p.
Proof. unfold children. rewrite list_elem_of_filter. tauto. Qed.

Lemma descend_step current frontier seen found seen' frontier' found' :
  NoDup (t_slug <$> all) →
  descend_inv seen (current :: frontier) found →
  scan_children (children current all) seen frontier found = (seen', frontier', found') →
  descend_inv seen' frontier' found' ∧
  length frontier' + unseen all seen' ≤ length frontier + unseen all seen.
Proof.
  intros Hnd [I1 I2 I3 I4 I5 I6 I7] E.
  destruct (scan_children_spec all _ _ _ _ _ _ _ (λ k Hk, proj1 (proj1 (elem_of_children _ _) Hk)) E)
    as (nk & H1 & H2 & H3 & -> & H5 & H6 & H7).
  assert (Hcur : current ∈ seen) by (apply I1; set_solver).
  assert (Hnk : ∀ t, t ∈ nk → t ∈ all ∧ t_relation t = Child ∧
            child_of all current (t_slug t) ∧ t_slug t ∉ seen).
  { intros t Ht. destruct (H1 t Ht) as [(?&?&?)%elem_of_children ?].
    split_and!; [done..| |done]. by exists t. }
  split; [split|done].
  - intros x [?|?]%H3; apply H2; [left; apply I1; set_solver|by right].
  - apply H2. by left.
  - intros x [?|(t & -> & Ht)%list_elem_of_fmap]%H2; [by apply I3|].
    eapply rtc_r; [by apply (I3 current)|]. by apply Hnk.
  - intros x y [Hx|Hx]%H2 Hnf Hc; [|by destruct Hnf; apply H3; right].
    destruct (decide (x = current)) as [->|Hne].
    + destruct Hc as (t & ? & <- & ? & ?). apply H6. by apply elem_of_children.
    + apply H2. left. apply (I4 x y); [done| |done]. intros [?|?]%elem_of_cons; [done|].
      apply Hnf, H3. by left.
  - intros t [Ht|[? Ht]%list_elem_of_filter]%elem_of_app.
    + destruct (I5 t Ht) as (?&?&?&?&?). split_and!; try done. apply H2. by left.
    + destruct (Hnk t Ht) as (?&?&?&?). split_and!; try done; [apply H2; set_solver|congruence].
  - intros t Ht [Hs|(t' & Es & Ht')%list_elem_of_fmap]%H2 Hne Hd; apply elem_of_app.
    + left. by apply I6.
    + right. apply list_elem_of_filter. split; [done|].
      rewrite (NoDup_slug_eq all t t'); [done..|by apply Hnk|done].
  - rewrite fmap_app. apply NoDup_app. split_and!; [done| |].
    + intros s (t & -> & Ht)%list_elem_of_fmap (t' & Es & Ht')%list_elem_of_fmap.
      apply list_elem_of_filter in Ht' as [_ Ht']. apply Hnk in Ht' as (_&_&_&Hns).
      apply Hns. rewrite <-Es. by apply I5.
    + eapply sublist_NoDup; [exact H5|]. apply fmap_sublist, sublist_filter.
Qed.

(** Enough fuel gives the result, and the invariant holds of it. *)
Lemma descend_spec fuel seen frontier found :
  NoDup (t_slug <$> all) →
  length frontier + unseen all seen < fuel →
  descend_inv seen frontier found →
  ∃ seen' found', descend fuel all seen frontier found = Some found' ∧
                  descend_inv seen' [] found'.
Proof.
  intros Hnd. revert seen frontier found.
  induction fuel as [|fuel IH]; intros seen frontier found Hf I; [lia|].
  destruct frontier as [|current frontier]; simpl; [eauto|].
  destruct (scan_children _ _ _ _) as [[seen' frontier'] found'] eqn:E.
  destruct (descend_step _ _ _ _ _ _ _ Hnd I E) as [I' Hm].
  apply IH; [simpl in Hf; lia|done].
Qed.
End descend.

Lemma undone_descendants_inv slug all :
  NoDup (t_slug <$> all) →
  ∃ seen found, undone_descendants slug all = merge_sort queue_order found ∧
                descend_inv all slug seen [] found.
Proof.
  intros Hnd. unfold undone_descendants.
  destruct (descend_spec all slug (S (S (length all))) [slug] [slug] [])
    as (seen & found & -> & I); [done| | |eauto].
  - assert (unseen all [slug] ≤ length all); [|simpl; lia]. apply length_filter.
  - split.
    + done.
    + set_solver.
    + intros x ->%list_elem_of_singleton. done.
    + set_solver.
    + by intros t ?%elem_of_nil.
    + set_solver.
    + constructor.
Qed.

Lemma elem_of_undone_descendants slug all t :
  NoDup (t_slug <$> all) →
  t ∈ undone_descendants slug all ↔
  t ∈ all ∧ t_state t ≠ Done ∧ t_slug t ≠ slug ∧ rtc (child_of all) slug (t_slug t).
Proof.
  intros Hnd. destruct (undone_descendants_inv slug all Hnd) as (seen & found & -> & I).
  rewrite merge_sort_Permutation. split.
  - intros Ht. destruct (di_sound _ _ _ _ _ I t Ht) as (?&?&_&?&?). split_and!; try done.
    by eapply di_reach.
  - intros (Hin & Hd & Hne & Hr). eapply di_complete; [done..| |done|done].
    revert Hr. clear Hne Hd Hin. generalize (t_slug t). refine (rtc_ind_r _ _ _ _).
    + by eapply di_root.
    + intros y z _ Hyz Hy. eapply di_closed; [done|exact Hy|set_solver|done].
Qed.

(** A parent is finished against its whole subtree. With distinct slugs,
    [undone_descendants] ends and gives exactly the stored tasks below [slug], at any
    depth over sub-task links and through loops, that are not done; each once, in
    queue order. *)
Theorem undone_descendants_exact (slug : string) (all : list Task) :
  NoDup (t_slug <$> all) →
  (∀ t, t ∈ undone_descendants slug all ↔
     t ∈ all ∧ t_state t ≠ Done ∧ t_slug t ≠ slug ∧ rtc (child_of all) slug (t_slug t)) ∧
  NoDup (t_slug <$> undone_descendants slug all) ∧
  StronglySorted queue_order (undone_descendants slug all).
Proof.
  intros Hnd. split; [intros t; by apply elem_of_undone_descendants|].
  destruct (undone_descendants_inv slug all Hnd) as (seen & found & -> & I). split.
  - rewrite merge_sort_Permutation. by eapply di_nodup.
  - apply (StronglySorted_merge_sort _).
Qed.

(** ** Progress counts *)

Lemma count_state_total l :
  count_state Done l + count_state Wip l + count_state Waiting l + count_state Open l = length l.
Proof.
  unfold count_state. induction l as [|t l IH]; [done|]. rewrite !filter_cons.
  destruct (t_state t) eqn:E; repeat (rewrite decide_True by done || rewrite decide_False by done);
    simpl; lia.
Qed.

(** The four counts of a parent's sub-tasks add up to its number of sub-tasks,
    there is a progress record exactly when there are sub-tasks, and a stalled parent
    always has a sub-task to start: the open sub-task that is first in queue order. *)
Theorem child_progress_total (parent : string) (all : list Task) (p : ChildProgress) :
  child_progress parent all = Some p →
  0 < cp_total p ∧ cp_total p = length (children parent all) ∧
  (cp_stalled p = true → ∃ t, first_open_child parent all = Some t ∧
     t ∈ children parent all ∧ t_state t = Open ∧
     ∀ t', t' ∈ children parent all → t_state t' = Open → queue_order t t').
Proof.
  unfold child_progress. case_decide as Hk; [done|]. intros [= <-].
  assert (Hlen : 0 < length (children parent all)) by (destruct (children parent all); [done|simpl; lia]).
  unfold cp_total. simpl. rewrite count_state_total. split_and!; [done..|].
  unfold cp_stalled. simpl. intros [Ho _]%bool_decide_eq_true. unfold count_state in Ho.
  unfold first_open_child. destruct (min_by _ _) as [t|] eqn:Hm.
  - apply min_by_Some in Hm as [[? ?]%list_elem_of_filter Hmin]; [|apply _..]. exists t. split_and!; try done.
    intros t' ? ?. apply Hmin, list_elem_of_filter. done.
  - apply min_by_None in Hm. rewrite Hm in Ho. simpl in Ho. lia.
Qed.
