(* ===== verification/Forest.v ===== *)
(** * Listing and picking tasks (crates/llmenv-task/src/lib.rs)

    The order of [task ls]: the sessions as groups, each group as a forest of
    parents and children; and the current and the next task of a session, which use
    the same order. *)

From S2P Require Import Prelude RustStr Names Slug TaskData TaskStore Blockers Relation.

(** [DisplayRow]. *)
Record DisplayRow := mkRow { r_depth : nat; r_task : Task }.

Definition filter_by_state (tasks : list Task) (states : list TaskState) : list Task :=
  if decide (states = []) then tasks else filter (λ t, t_state t ∈ states) tasks.

Definition session_rank (key : option string) (priority : list string) : nat * nat * string :=
  match key with
  | Some id =>
    match position (λ p, p = id) priority with
    | Some i => (0, i, "")
    | None => (1, 0, id)
    end
  | None => (2, 0, "")
  end.

(** The order of Rust tuples: lexicographic. *)
Definition rank_le (x y : nat * nat * string) : Prop :=
  let '(a, b, s) := x in
  let '(c, d, t) := y in
  a < c ∨ a = c ∧ (b < d ∨ b = d ∧ str_le s t).
Global Instance rank_le_dec : RelDecision rank_le.
Proof. intros [[a b] s] [[c d] t]. unfold rank_le. apply _. Defined.

Definition key_le (priority : list string) (k k' : option string) : Prop :=
  rank_le (session_rank k priority) (session_rank k' priority).
Global Instance key_le_dec priority : RelDecision (key_le priority).
Proof. intros k k'. unfold key_le. apply _. Defined.

(** ** One group *)

Definition present (group : list Task) : gset string := list_to_set (t_slug <$> group).

(** [children.get(slug)]: the tasks whose parent is [slug], when it is in the group. *)
Definition kids (group : list Task) (slug : string) : list Task :=
  merge_sort queue_order
    (filter (λ t, t_parent t = Some slug ∧ slug ∈ present group) group).

Definition has_present_parent (group : list Task) (t : Task) : Prop :=
  match t_parent t with Some p => p ∈ present group | None => False end.
Global Instance has_present_parent_dec group t : Decision (has_present_parent group t).
Proof. unfold has_present_parent. destruct (t_parent t); apply _. Defined.

Definition roots (group : list Task) : list Task :=
  merge_sort queue_order (filter (λ t, ¬ has_present_parent group t) group).

Definition display := (gset string * list DisplayRow)%type.

Fixpoint visit_all (rec : Task → display → option display) (ts : list Task) (st : display)
  : option display :=
  match ts with
  | [] => Some st
  | t :: ts => st ← rec t st; visit_all rec ts st
  end.

(** [visit]. Each call that goes on adds a slug to [visited], so the recursion ends;
    [fuel] stands for that and [visit_spec] shows that it does not run out. *)
Fixpoint visit (fuel : nat) (group : list Task) (depth : nat) (task : Task) (st : display)
  : option display :=
  match fuel with
  | 0 => None
  | S fuel =>
    let '(visited, rows) := st in
    if decide (t_slug task ∈ visited) then Some (visited, rows)
    else
      visit_all (visit fuel group (S depth)) (kids group (t_slug task))
        ({[t_slug task]} ∪ visited, rows ++ [mkRow depth task])
  end.

Definition visit_fuel (group : list Task) : nat := S (length group).

Definition orphans (group : list Task) (visited : gset string) : list Task :=
  merge_sort queue_order (filter (λ t, t_slug t ∉ visited) group).

(** [append_forest], as the rows it adds. *)
Definition append_forest (group : list Task) : option (list DisplayRow) :=
  let go := visit_all (visit (visit_fuel group) group 0) in
  '(visited, rows) ← go (roots group) (∅, []);
  '(_, rows) ← go (orphans group visited) (visited, rows);
  Some rows.

Definition session_keys (tasks : list Task) (priority : list string) : list (option string) :=
  merge_sort (key_le priority) (elements (list_to_set (t_session <$> tasks) : gset _)).

Definition session_group (tasks : list Task) (key : option string) : list Task :=
  filter (λ t, t_session t = key) tasks.

Definition display_rows (tasks : list Task) (session_priority : list string) : list DisplayRow :=
  concat ((λ key, default [] (append_forest (session_group tasks key)))
            <$> session_keys tasks session_priority).

(** ** Current and next task *)

Definition updated_le (a b : Task) : Prop := str_le (t_updated_at a) (t_updated_at b).
Global Instance updated_le_dec : RelDecision updated_le.
Proof. intros a b. unfold updated_le. apply _. Defined.
Definition most_recently_updated (tasks : list Task) : option Task := max_by updated_le tasks.

Definition resolve_current_task (tasks : list Task) : option Task :=
  match most_recently_updated (filter (λ t, t_state t = Wip) tasks) with
  | Some t => Some t
  | None => most_recently_updated (filter (λ t, t_state t ≠ Done) tasks)
  end.

Definition execution_order (tasks : list Task) : list Task :=
  r_task <$> display_rows tasks [].

Definition resolve_next_task (all_tasks session_tasks : list Task) (current : Task) : option Task :=
  let order := execution_order session_tasks in
  pos ← position (λ t, t_slug t = t_slug current) order;
  find_first (λ t, is_actionable t (by_slug all_tasks) = true) (drop (S pos) order).

(** ** The specification: a forest in preorder *)

Inductive tree := Node (task : Task) (subs : list tree).
Definition root_of (t : tree) : Task := let 'Node task _ := t in task.

(** A parent is followed by its subtree, one level deeper. *)
Fixpoint preorder (depth : nat) (t : tree) : list DisplayRow :=
  let 'Node task subs := t in
  mkRow depth task :: concat (preorder (S depth) <$> subs).

(** Every edge of the tree is a parent link. *)
Fixpoint linked (t : tree) : Prop :=
  let 'Node task subs := t in
  foldr (λ u P, t_parent (root_of u) = Some (t_slug task) ∧ linked u ∧ P) True subs.

Definition row_slugs (rows : list DisplayRow) : list string := (λ r, t_slug (r_task r)) <$> rows.

Section group.
Context (group : list Task).

Lemma elem_of_kids t p :
  t ∈ kids group p ↔ t ∈ group ∧ t_parent t = Some p ∧ p ∈ present group.
Proof. unfold kids. rewrite merge_sort_Permutation, list_elem_of_filter. tauto. Qed.
Lemma elem_of_present p : p ∈ present group ↔ ∃ t, t ∈ group ∧ t_slug t = p.
Proof.
  unfold present. rewrite elem_of_list_to_set, list_elem_of_fmap. naive_solver.
Qed.

(** What a walk adds to the visited slugs and to the rows: [ts] are the trees it
    shows; what it visits is closed under children. *)
Definition shows (depth : nat) (ts : list tree) (st st' : display) : Prop :=
  let rs := concat (preorder depth <$> ts) in
  st'.2 = st.2 ++ rs ∧ Forall linked ts ∧
  NoDup (row_slugs rs) ∧
  (∀ x, x ∈ st'.1 ↔ x ∈ st.1 ∨ x ∈ row_slugs rs) ∧
  (∀ x, x ∈ row_slugs rs → x ∉ st.1) ∧
  (∀ r, r ∈ rs → r_task r ∈ group) ∧
  (∀ r k, r ∈ rs → k ∈ kids group (t_slug (r_task r)) → t_slug k ∈ st'.1).

Lemma shows_nil depth st : shows depth [] st st.
Proof. unfold shows. simpl. rewrite app_nil_r. split_and!; try done; [constructor|set_solver..]. Qed.

Lemma shows_app depth ts1 ts2 st st1 st2 :
  shows depth ts1 st st1 → shows depth ts2 st1 st2 → shows depth (ts1 ++ ts2) st st2.
Proof.
  unfold shows. rewrite fmap_app, concat_app. unfold row_slugs. rewrite fmap_app.
  intros (E1 & L1 & N1 & V1 & F1 & G1 & C1) (E2 & L2 & N2 & V2 & F2 & G2 & C2). split_and!.
  - by rewrite E2, E1, <-app_assoc.
  - by apply Forall_app.
  - apply NoDup_app. split_and!; [done| |done]. intros x Hx Hx2.
    apply (F2 x Hx2), V1. by right.
  - intros x. rewrite V2, V1. set_solver.
  - intros x [Hx|Hx]%elem_of_app; [by apply F1|]. intros Hv. apply (F2 x Hx), V1. by left.
  - intros r [?|?]%elem_of_app; eauto.
  - intros r k [Hr|Hr]%elem_of_app Hk; [|by eapply C2]. apply V2. left. by eapply C1.
Qed.

Lemma visit_all_spec (rec : Task → display → option display) (Q : display → Prop) depth ts st :
  (∀ t st, t ∈ ts → Q st → ∃ us st',
      rec t st = Some st' ∧ shows depth us st st' ∧ Q st' ∧ t_slug t ∈ st'.1 ∧
      Forall (λ u, root_of u = t) us) →
  Q st →
  ∃ us st', visit_all rec ts st = Some st' ∧ shows depth us st st' ∧ Q st' ∧
    (∀ t, t ∈ ts → t_slug t ∈ st'.1) ∧ Forall (λ u, root_of u ∈ ts) us.
Proof.
  intros Hrec HQ. revert st HQ. induction ts as [|t ts IH]; intros st HQ; simpl.
  { exists [], st. split_and!; [done|apply shows_nil|done|set_solver|done]. }
  destruct (Hrec t st) as (us & st1 & -> & Hs & HQ1 & Ht & Hu); [set_solver|done|]. simpl.
  destruct (IH (λ t' st' Ht', Hrec t' st' ltac:(set_solver)) st1 HQ1)
    as (us2 & st2 & -> & Hs2 & HQ2 & Ht2 & Hu2).
  exists (us ++ us2), st2. split_and!; [done|by eapply shows_app|done| |].
  - intros t' [->|Ht']%elem_of_cons; [|by apply Ht2].
    destruct Hs2 as (_ & _ & _ & V & _). apply V. by left.
  - apply Forall_app. split; eapply Forall_impl; [exact Hu| |exact Hu2|].
    + intros u ->. set_solver.
    + intros u ?. set_solver.
Qed.

Lemma linked_node task subs :
  Forall linked subs → Forall (λ u, t_parent (root_of u) = Some (t_slug task)) subs →
  linked (Node task subs).
Proof.
  intros Hl Hp. simpl. induction subs as [|u subs IH]; simpl; [done|].
  apply Forall_cons in Hl as [? ?], Hp as [? ?]. eauto.
Qed.

(** [visit] ends with the fuel it is given and shows one tree, or nothing when the
    task was shown before. *)
Lemma visit_spec fuel depth task st :
  task ∈ group → size (present group ∖ st.1) < fuel →
  ∃ us st', visit fuel group depth task st = Some st' ∧ shows depth us st st' ∧
    size (present group ∖ st'.1) ≤ size (present group ∖ st.1) ∧
    t_slug task ∈ st'.1 ∧ Forall (λ u, root_of u = task) us.
Proof.
  revert depth task st. induction fuel as [|fuel IH]; intros depth task [v rows] Hin Hf; [lia|].
  simpl in *. case_decide as Hv.
  { exists [], (v, rows). split_and!; [done|apply shows_nil|done|done|done]. }
  assert (Hp : t_slug task ∈ present group) by (apply elem_of_present; eauto).
  assert (Hsz : size (present group ∖ ({[t_slug task]} ∪ v)) < fuel).
  { assert (size (present group ∖ ({[t_slug task]} ∪ v)) < size (present group ∖ v)); [|lia].
    apply subset_size. set_solver. }
  destruct (visit_all_spec (visit fuel group (S depth))
    (λ st, size (present group ∖ st.1) ≤ size (present group ∖ ({[t_slug task]} ∪ v)))
    (S depth) (kids group (t_slug task)) ({[t_slug task]} ∪ v, rows ++ [mkRow depth task]))
    as (us & [v' rows'] & E & Hs & Hle & Hk & Hu).
  { intros t st (? & _ & _)%elem_of_kids Hst. destruct (IH (S depth) t st) as (us & st' & -> & HH).
    - done.
    - lia.
    - destruct HH as (?&?&?&?). exists us, st'. split_and!; try done. lia. }
  { done. }
  exists [Node task us], (v', rows'). simpl in *.
  destruct Hs as (E1 & L1 & N1 & V1 & F1 & G1 & C1). simpl in *.
  split_and!; [done| | |apply V1; set_solver|by constructor].
  - unfold shows. cbn [fmap list_fmap concat]. rewrite app_nil_r.
    split_and!; simpl in *.
    + by rewrite E1, <-app_assoc.
    + constructor; [|done]. apply linked_node; [done|]. eapply Forall_impl; [exact Hu|].
      intros u (_ & ? & _)%elem_of_kids. done.
    + constructor; [|done]. intros Hx%F1. set_solver.
    + intros x. rewrite V1. set_solver.
    + intros x [->|Hx]%elem_of_cons; [done|]. apply F1 in Hx. set_solver.
    + intros r [->|Hr]%elem_of_cons; [done|by apply G1].
    + intros r k [->|Hr]%elem_of_cons Hkk; simpl in *; [by apply Hk|by eapply C1].
  - etransitivity; [exact Hle|]. apply subseteq_size. set_solver.
Qed.

Lemma visit_group_spec ts st :
  (∀ t, t ∈ ts → t ∈ group) → 
  ∃ us st', visit_all (visit (visit_fuel group) group 0) ts st = Some st' ∧ shows 0 us st st' ∧
    (∀ t, t ∈ ts → t_slug t ∈ st'.1) ∧ Forall (λ u, root_of u ∈ ts) us.
Proof.
  intros Hts. destruct (visit_all_spec (visit (visit_fuel group) group 0) (λ _, True) 0 ts st)
    as (us & st' & ? & ? & _ & ? & ?); [|done|by eauto 10].
  intros t st1 Ht _. destruct (visit_spec (visit_fuel group) 0 t st1) as (us & st' & H).
  - by apply Hts.
  - unfold visit_fuel. apply Nat.lt_succ_r.
    trans (size (present group)); [apply subseteq_size; set_solver|].
    unfold present. etransitivity; [apply size_list_to_set_le|]. by rewrite length_fmap.
  - destruct H as (?&?&_&?&?). eauto 10.
Qed.
(** [parent_link a b]: the task [a] of the group has the parent [b] of the group. *)
Definition parent_link (a b : string) : Prop :=
  ∃ t, t ∈ group ∧ t_slug t = a ∧ t_parent t = Some b ∧ b ∈ present group.

(** Without a loop, every task of the group is below a root. *)
Lemma acyclic_visited (v : gset string) t :
  Irreflexive (tc parent_link) → NoDup (t_slug <$> group) →
  (∀ r, r ∈ roots group → t_slug r ∈ v) →
  (∀ x k, x ∈ v → k ∈ kids group x → t_slug k ∈ v) →
  t ∈ group → t_slug t ∈ v.
Proof.
  intros Hirr Hnd Hroots Hcl Hin.
  assert (Hsn : sn parent_link (t_slug t)).
  { apply tc_finite_sn; [done|]. exists (elements (present group)).
    intros y (z & _ & Hz)%tc_inv_r. apply elem_of_elements. by destruct Hz as (? & _ & _ & _ & ?). }
  remember (t_slug t) as s eqn:Es. revert t Es Hin.
  induction Hsn as [s _ IH]; intros t -> Hin.
  destruct (decide (has_present_parent group t)) as [Hp|Hp].
  - unfold has_present_parent in Hp. destruct (t_parent t) as [p|] eqn:Et; [|done].
    pose proof Hp as (tp & Htp & <-)%elem_of_present.
    eapply (Hcl (t_slug tp)); [|by apply elem_of_kids].
    apply (IH (t_slug tp)) with tp; [|done..]. by exists t.
  - apply Hroots. unfold roots. by rewrite merge_sort_Permutation, list_elem_of_filter.
Qed.

Lemma append_forest_spec :
  ∃ forest, append_forest group = Some (concat (preorder 0 <$> forest)) ∧
    Forall linked forest ∧
    (NoDup (t_slug <$> group) → (r_task <$> concat (preorder 0 <$> forest)) ≡ₚ group) ∧
    (NoDup (t_slug <$> group) → Irreflexive (tc parent_link) →
     Forall (λ u, ¬ has_present_parent group (root_of u)) forest).
Proof.
  assert (Hr : ∀ t, t ∈ roots group ↔ t ∈ group ∧ ¬ has_present_parent group t).
  { intros t. unfold roots. rewrite merge_sort_Permutation, list_elem_of_filter. tauto. }
  destruct (visit_group_spec (roots group) (∅, [])) as (us & [v rows] & E & Hs & Hk & Hu).
  { intros t. rewrite Hr. tauto. }
  destruct (visit_group_spec (orphans group v) (v, rows)) as (us2 & [v2 rows2] & E2 & Hs2 & Hk2 & Hu2).
  { intros t. unfold orphans. rewrite merge_sort_Permutation, list_elem_of_filter. tauto. }
  exists (us ++ us2). pose proof (shows_app _ _ _ _ _ _ Hs Hs2) as (E3 & L & N & V & _ & G & C).
  unfold append_forest. rewrite E. cbn [mbind option_bind]. rewrite E2.
  cbn [mbind option_bind]. cbn [fst snd app] in *. rewrite E3.
  split_and!; [done|done| |].
  - intros Hnd. apply NoDup_Permutation.
    + apply (NoDup_fmap_1 t_slug). by rewrite <-list_fmap_compose.
    + by apply (NoDup_fmap_1 t_slug).
    + intros t. rewrite list_elem_of_fmap. split; [intros (r & -> & Hr'); by apply G|].
      intros Hin. assert (Hv : t_slug t ∈ v2).
      { destruct (decide (t_slug t ∈ v)) as [Hv|Hv].
        - destruct Hs2 as (_ & _ & _ & V2 & _). apply V2. by left.
        - apply Hk2. unfold orphans. by rewrite merge_sort_Permutation, list_elem_of_filter. }
      apply V in Hv as [Hv|(r & Es & Hrow)%list_elem_of_fmap]; [set_solver|].
      exists r. split; [|done]. eapply NoDup_slug_eq; [exact Hnd|done|by apply G|done].
  - intros Hnd Hirr.
    assert (Ho : orphans group v = []).
    { apply elem_of_nil_inv. intros t. unfold orphans.
      rewrite merge_sort_Permutation, list_elem_of_filter. intros [Hnv Hin]. apply Hnv.
      destruct Hs as (_ & _ & _ & V1 & _ & _ & C1). simpl in *.
      apply acyclic_visited; [done..| |done]. intros x k Hx Hkx.
      apply V1 in Hx as [?|(r & -> & Hrow)%list_elem_of_fmap]; [set_solver|]. by eapply C1. }
    rewrite Ho in Hu2. apply Forall_app. split; eapply Forall_impl; [exact Hu| |exact Hu2|].
    + intros u ?%Hr. tauto.
    + intros u ?%elem_of_nil. done.
Qed.
End group.

Lemma elem_of_session_keys tasks priority k :
  k ∈ session_keys tasks priority ↔ ∃ t, t ∈ tasks ∧ t_session t = k.
Proof.
  unfold session_keys. rewrite merge_sort_Permutation, elem_of_elements,
    elem_of_list_to_set, list_elem_of_fmap. naive_solver.
Qed.

Lemma NoDup_session_keys tasks priority : NoDup (session_keys tasks priority).
Proof. unfold session_keys. rewrite merge_sort_Permutation. apply NoDup_elements. Qed.

(** The groups of the keys hold every task once. *)
Lemma groups_permutation (keys : list (option string)) (tasks : list Task) :
  NoDup keys → (∀ t, t ∈ tasks → t_session t ∈ keys) →
  concat (session_group tasks <$> keys) ≡ₚ tasks.
Proof.
  intros Hnd. revert tasks. induction Hnd as [|k keys Hk Hnd IH]; intros tasks Hall; simpl.
  { destruct tasks as [|t ?]; [done|]. specialize (Hall t). set_solver. }
  etransitivity; [|apply (filter_app_complement (λ t, t_session t = k) tasks)].
  apply Permutation_app; [done|]. etransitivity; [|apply (IH (filter (λ t, t_session t ≠ k) tasks))].
  - f_equiv. apply reflexive_eq, list_fmap_ext. intros i k' Hi. unfold session_group.
    rewrite list_filter_filter. apply list_filter_iff. intros t. split; [|tauto].
    intros ->. split; [done|]. intros ->. apply Hk. by eapply list_elem_of_lookup_2.
  - intros t [Hne Ht]%list_elem_of_filter. specialize (Hall t Ht). set_solver.
Qed.

Lemma NoDup_slug_group tasks k : NoDup (t_slug <$> tasks) → NoDup (t_slug <$> session_group tasks k).
Proof. intros H. eapply sublist_NoDup; [exact H|]. apply fmap_sublist, sublist_filter. Qed.

(** [task ls] drops nothing and shows nothing twice. Whatever the session
    priorities and whatever the parent links, loops and dangling parents included, the
    rows of [display_rows] hold exactly the given tasks, each once (tasks have distinct
    slugs). *)
Theorem display_rows_complete (tasks : list Task) (priority : list string) :
  NoDup (t_slug <$> tasks) →
  (r_task <$> display_rows tasks priority) ≡ₚ tasks.
Proof.
  intros Hnd. unfold display_rows.
  rewrite <-(groups_permutation (session_keys tasks priority) tasks) at 2.
  - generalize (session_keys tasks priority). intros keys. induction keys as [|k keys IH]; [done|].
    simpl. rewrite fmap_app. apply Permutation_app; [|exact IH].
    destruct (append_forest_spec (session_group tasks k)) as (forest & -> & _ & Hp & _). simpl.
    by apply Hp, NoDup_slug_group.
  - apply NoDup_session_keys.
  - intros t Ht. apply elem_of_session_keys. eauto.
Qed.

(** [task ls] shows parents before their children. The rows are, session by
    session in rank order, a forest in preorder whose edges are parent links: a parent
    is followed at once by its subtree, one level deeper. In a session whose parent
    links do not loop, the top rows are the tasks with no parent in the session. *)
Theorem display_rows_forest (tasks : list Task) (priority : list string) :
  NoDup (t_slug <$> tasks) →
  ∃ forests : list (option string * list tree),
    display_rows tasks priority = concat ((λ f, concat (preorder 0 <$> f.2)) <$> forests) ∧
    fst <$> forests = session_keys tasks priority ∧
    Forall (λ f, Forall linked f.2 ∧
      (Irreflexive (tc (parent_link (session_group tasks f.1))) →
       Forall (λ u, ¬ has_present_parent (session_group tasks f.1) (root_of u)) f.2)) forests.
Proof.
  intros Hnd. unfold display_rows. induction (session_keys tasks priority) as [|k keys IH].
  - by exists [].
  - destruct IH as (fs & E & Ek & Hall).
    destruct (append_forest_spec (session_group tasks k)) as (forest & Ef & Hl & _ & Ha).
    exists ((k, forest) :: fs). rewrite !fmap_cons. cbn [concat fst snd].
    rewrite Ef, E, Ek. split_and!; [done..|].
    constructor; [|done]. split; [done|]. apply Ha. by apply NoDup_slug_group.
Qed.

(** ** Current and next *)

Global Instance updated_le_preorder : PreOrder updated_le.
Proof. split; [intros a|intros a b c]; unfold updated_le, str_le; [done|apply transitivity]. Qed.
Global Instance updated_le_total : Total updated_le.
Proof. intros a b. unfold updated_le, str_le. apply (total _). Qed.

Lemma most_recently_updated_Some l x :
  most_recently_updated l = Some x → x ∈ l ∧ ∀ y, y ∈ l → updated_le y x.
Proof. apply max_by_Some; apply _. Qed.
Lemma most_recently_updated_None l : most_recently_updated l = None ↔ l = [].
Proof. by destruct l. Qed.

(** The current task. [resolve_current_task] gives nothing exactly when every
    task is done; else it gives a most recently updated task in progress when there is
    one, and a most recently updated unfinished task when there is none. *)
Theorem resolve_current_task_correct (tasks : list Task) :
  match resolve_current_task tasks with
  | None => ∀ t, t ∈ tasks → t_state t = Done
  | Some c => c ∈ tasks ∧ t_state c ≠ Done ∧
      (∀ t, t ∈ tasks → t_state t = Wip → t_state c = Wip ∧ updated_le t c) ∧
      (t_state c ≠ Wip → ∀ t, t ∈ tasks → t_state t ≠ Done → updated_le t c)
  end.
Proof.
  unfold resolve_current_task.
  destruct (most_recently_updated (filter _ tasks)) as [c|] eqn:Hw.
  - apply most_recently_updated_Some in Hw as [[Hc ?]%list_elem_of_filter Hmax].
    split_and!; [done|congruence| |done]. intros t Ht Hs. split; [done|].
    apply Hmax, list_elem_of_filter. done.
  - apply most_recently_updated_None in Hw.
    assert (Hnw : ∀ t, t ∈ tasks → t_state t ≠ Wip).
    { intros t Ht Hs. assert (t ∈ []) as []%elem_of_nil. rewrite <-Hw. by apply list_elem_of_filter. }
    destruct (most_recently_updated _) as [c|] eqn:Hd.
    + apply most_recently_updated_Some in Hd as [[Hc ?]%list_elem_of_filter Hmax].
      split_and!; [done..| |]; [by intros t ? ?%Hnw|].
      intros _ t Ht Hs. by apply Hmax, list_elem_of_filter.
    + apply most_recently_updated_None in Hd. intros t Ht.
      destruct (decide (t_state t = Done)) as [|Hs]; [done|].
      assert (t ∈ []) as []%elem_of_nil. rewrite <-Hd. by apply list_elem_of_filter.
Qed.

Lemma list_find_drop_spec (P : Task → Prop) `{∀ x, Decision (P x)} n l t :
  find_first P (drop n l) = Some t →
  ∃ j, n ≤ j ∧ l !! j = Some t ∧ P t ∧ ∀ k u, n ≤ k < j → l !! k = Some u → ¬ P u.
Proof.
  unfold find_first. intros ([i t'] & Hf & ->)%fmap_Some.
  apply list_find_Some in Hf as (Hi & HP & Hmin). rewrite lookup_drop in Hi.
  exists (n + i). split_and!; [lia|done|done|]. intros k u Hk Hu.
  apply (Hmin (k - n) u); [|lia]. rewrite lookup_drop. by replace (n + (k - n)) with k by lia.
Qed.

(** The next task. What [resolve_next_task] gives is the first actionable task
    after the current one in the order [task ls] shows; with no such task it gives
    nothing. *)
Theorem resolve_next_task_correct (all session_tasks : list Task) (current : Task) :
  let order := execution_order session_tasks in
  let ready t := is_actionable t (by_slug all) = true in
  (∀ t, resolve_next_task all session_tasks current = Some t →
     ∃ i j c, i < j ∧ order !! i = Some c ∧ t_slug c = t_slug current ∧
       order !! j = Some t ∧ ready t ∧
       ∀ k u, i < k < j → order !! k = Some u → ¬ ready u) ∧
  (resolve_next_task all session_tasks current = None →
     ∀ i c, order !! i = Some c → t_slug c = t_slug current →
     (∀ k u, k < i → order !! k = Some u → t_slug u ≠ t_slug current) →
     ∀ j u, i < j → order !! j = Some u → ¬ ready u).
Proof.
  intros order ready. unfold resolve_next_task. fold order. unfold position.
  destruct (list_find _ order) as [[i c]|] eqn:Hl; simpl.
  - apply list_find_Some in Hl as (Hi & Hs & Hmin). split.
    + intros t (j & Hj & Ht & HP & Hb)%list_find_drop_spec.
      exists i, j, c. split_and!; try done.
    + intros Hn%find_first_None i' c' Hi' Hs' Hmin' j u Hj Hu.
      assert (i = i') as <-.
      { destruct (Nat.lt_trichotomy i i') as [|[|]]; [|done|].
        - by destruct (Hmin' i c).
        - by destruct (Hmin i' c'). }
      rewrite Forall_forall in Hn. apply Hn. apply (list_elem_of_lookup_2 _ (j - S i)).
      rewrite lookup_drop. by replace (S i + (j - S i)) with j by lia.
  - split; [done|]. intros _ i c Hi Hs. exfalso. apply list_find_None in Hl.
    rewrite Forall_forall in Hl. apply (Hl c); [by eapply list_elem_of_lookup_2|done].
Qed.
