(* ===== verification/SessionStore.v ===== *)
(** * Task sessions (crates/llmenv-task/src/session.rs and session/)

    A session is a named span of work of one project; its tasks carry its id. This
    file has the caller's identity, the choice of a session, the session files, the
    [session start] checkpoint, finishing, abandoning, resuming and the rollups. *)

From S2P Require Import Prelude RustStr Names Slug TaskData TaskStore Resume Relation.
From S2P Require Import Forest.

(** ** Identity *)

Definition identity_var (name : string) (value : env_var) : result error (option string) :=
  match value with
  | Value v => Ok (Some v)
  | NotPresent => Ok None
  | NotUnicode => Err (EMsg (MVarNotUtf8 name))
  end.

Definition from_vars (session_id pid : option string) : EngineIdentity :=
  mkIdentity
    (s ← trim <$> session_id; if decide (s = "") then None else Some s)
    (p ← pid; parse_unsigned u32_max (trim p)).

Definition from_session_id (session_id : option string) : EngineIdentity :=
  from_vars session_id None.

(** ** Choosing a session *)

Definition ambiguity_message (e : PickError) (fix_ : string) : option string :=
  match e with
  | NoneOpen => None
  | Ambiguous open owned identified =>
    Some (if negb identified then
            pretty open +:+ " open sessions for this project — " +:+ fix_
          else if decide (owned = 0) then
            pretty open +:+ " open sessions for this project, and none of them is owned by this conversation — " +:+ fix_
          else
            pretty open +:+ " open sessions for this project, and this conversation owns " +:+
            pretty owned +:+ " of them — " +:+ fix_)
  end.

Definition owned_by (owner : EngineIdentity) (s : Session) : Prop :=
  is_Some (ei_session_id owner) ∧ s_owner_session s = ei_session_id owner.
Global Instance owned_by_dec owner s : Decision (owned_by owner s).
Proof. unfold owned_by. apply _. Defined.

Definition pick_open_session (open : list Session) (owner : EngineIdentity)
  : result PickError Session :=
  match open with
  | [] => Err NoneOpen
  | [s] => Ok s
  | _ =>
    match filter (owned_by owner) open with
    | [s] => Ok s
    | owned => Err (Ambiguous (length open) (length owned) (bool_decide (is_Some (ei_session_id owner))))
    end
  end.

Definition claim (s : Session) (owner : EngineIdentity) : Session :=
  set_owner
    (match ei_session_id owner with Some id => Some id | None => s_owner_session s end)
    (match ei_pid owner with Some p => Some p | None => s_owner_pid s end) s.

Definition is_open (s : Session) : Prop := s_finished_at s = None ∧ s_abandoned_at s = None.
Global Instance is_open_dec s : Decision (is_open s).
Proof. unfold is_open. apply _. Defined.

(** visibility.rs. *)
Definition owner_visible (owner caller : option string) : bool :=
  match caller, owner with
  | Some caller, Some owner => bool_decide (caller = owner)
  | _, _ => true
  end.
Definition visible_to (s : Session) (caller : option string) : bool :=
  owner_visible (s_owner_session s) caller.
Definition may_take_tasks (s : Session) (caller : option string) : bool :=
  match s_owner_session s with
  | None => true
  | Some owner => bool_decide (caller = Some owner)
  end.

(** session/filter.rs. *)
Definition open_visible (sessions : list Session) (project : string) (caller : option string)
  : list Session :=
  filter (λ s, is_open s ∧ s_project s = project ∧ visible_to s caller = true) sessions.
Definition ids_visible (sessions : list Session) (project : string) (caller : option string)
  : list string :=
  s_id <$> filter (λ s, s_project s = project ∧ visible_to s caller = true) sessions.
Definition tasks_in_sessions (tasks : list Task) (session_ids : list string) : list Task :=
  filter (session_among session_ids) tasks.

(** ** The checkpoint (session/checkpoint.rs) *)

Inductive Ownership := OConversation | OProcess | ONone.

Definition ownership (s : Session) (owner : EngineIdentity) : Ownership :=
  if decide (owned_by owner s) then OConversation
  else if decide (is_Some (ei_pid owner) ∧ s_owner_pid s = ei_pid owner) then OProcess
  else ONone.

Definition ownership_note (s : Session) (owner : EngineIdentity) : string :=
  match ownership s owner with
  | OConversation => " — yours: started by this conversation"
  | OProcess => " — yours: started by this engine process, most likely before a /clear or a compaction"
  | ONone => ""
  end.

Definition number (t : string) (max : N) : option N :=
  if decide (1 ≤ String.length t ≤ 7 ∧ str_all is_ascii_digit t = true) then
    value ← parse_unsigned u64_max t; if decide (value ≤ max)%N then Some value else None
  else None.

Definition checked (n : N) : option N := if decide (n ≤ u64_max)%N then Some n else None.

(** The [etime] of [ps], in seconds. *)
Definition parse_etime (t : string) : option N :=
  '(days, clock_) ← match split_once "-" t with
                    | Some (d, c) => n ← number d u64_max; Some (n, c)
                    | None => Some (0%N, t)
                    end;
  '(hours, minutes, seconds) ←
    match split_on (Ascii.eqb ":") clock_ with
    | [m; s] => m ← number m 59; s ← number s 59; Some (0%N, m, s)
    | [h; m; s] => h ← number h 23; m ← number m 59; s ← number s 59; Some (h, m, s)
    | _ => None
    end;
  total ← checked (days * 86400);
  checked (total + (hours * 3600 + minutes * 60 + seconds)).

Section session.
Context `{Platform}.

(** [EngineIdentity::from_env]. *)
Definition from_env : M EngineIdentity :=
  sv ← st_get w_session_var;
  session_id ← lift (identity_var "CLAUDE_CODE_SESSION_ID" sv);
  pv ← st_get w_pid_var;
  pid ← lift (identity_var "CLAUDE_PID" pv);
  mret (from_vars session_id pid).

(** [SystemTime::now]. *)
Definition now_nanos : M Z := λ w, (Ok (system_now (w_tick w)), tick w).

Definition active_since (s : Session) (start : Z) : bool :=
  match parse_rfc3339 (s_last_activity s) with
  | Some at_ => bool_decide (start ≤ at_)%Z
  | None => false
  end.

Definition engine_start (pid : N) : M (option Z) :=
  match ps_etime pid ≫= (λ t, parse_etime (trim t)) with
  | None => mret None
  | Some age => now ← now_nanos; mret (Some (now - (Z.of_N age + 1) * 1000000000)%Z)
  end.

Definition is_own (owner : EngineIdentity) (engine_start : option Z) (s : Session) : Prop :=
  match ownership s owner with
  | OConversation => True
  | OProcess => match engine_start with Some start => active_since s start = true | None => False end
  | ONone => False
  end.
Global Instance is_own_dec owner es s : Decision (is_own owner es s).
Proof. unfold is_own. destruct (ownership s owner), es; apply _. Defined.

Definition only_own_session (existing : list Session) (owner : EngineIdentity)
    (engine_start : option Z) : option Session :=
  match filter (is_own owner engine_start) existing with
  | [only] => Some only
  | _ => None
  end.

Definition idle_display (last_activity : string) : M string :=
  now ← now_nanos;
  mret (match parse_rfc3339 last_activity with
        | Some t => if decide (t ≤ now)%Z
                    then format_duration (Z.to_N ((now - t) / 1000000000))
                    else "unknown"
        | None => "unknown"
        end).

Definition checkpoint_line (owner : EngineIdentity) (s : Session) : M string :=
  idle ← idle_display (s_last_activity s);
  mret ("  - " +:+ s_id s +:+ " (" +:+ default "unnamed" (s_name s) +:+ ")" +:+
        default "" ((λ d, ": " +:+ d) <$> s_description s) +:+ " — idle " +:+ idle +:+
        ownership_note s owner).

Definition checkpoint_error (existing : list Session) (owner : EngineIdentity) : M string :=
  lines ← st_for (checkpoint_line owner) existing;
  let yours := length (filter (λ s, ownership_note s owner ≠ "") existing) in
  let hint :=
    if decide (yours = 0) then ""
    else if decide (yours = length existing) then
      nl +:+ "Every listed session is yours: pass --resume <id> to continue one, or --replace to drop them all. Use --new only for a second, parallel window."
    else
      nl +:+ "A session marked as yours holds your own earlier work: pass --resume <id> to continue it, or close it with `llmenv task session finish <id>`. --replace abandons all " +:+
      pretty (length existing) +:+ " listed sessions, including the ones that are not yours." in
  mret ("session(s) already open for this project:" +:+ nl +:+ join nl lines +:+ nl +:+
        "pass one of --resume <id>, --replace, or --new" +:+ hint).

(** ** Session files *)

Definition ensure_plain_name (id : string) : M unit :=
  if is_valid_short_name id then mret tt else bail (MBadSessionId id).

Definition save_session (session : Session) : M unit :=
  ensure_plain_name (s_id session);;
  create_dir Sessions;;
  write_atomic Sessions (json_name (s_id session)) (session_to_json session).

Definition load_session (id : string) : M Session :=
  ensure_plain_name id;;
  content ← read_state_text Sessions (json_name id);
  match session_from_json content with
  | Some s => mret s
  | None => fail EJson
  end.

Definition load_existing_session (id : string) : M Session :=
  ensure_plain_name id;;
  r ← st_try (read_state_text Sessions (json_name id));
  match r with
  | Ok content =>
    match session_from_json content with
    | Some s => mret s
    | None => bail (MParseSession id)
    end
  | Err e =>
    match io_error_of e with
    | Some NotFound => bail (MNoSession id)
    | Some k => bail (MReadSession id k)
    | None => fail e
    end
  end.

(** The loop of [list_sessions_strict]. *)
Fixpoint read_session_entries (es : list (dirent text)) : M (list Session) :=
  match es with
  | [] => mret []
  | DEntryErr :: _ => fail (ECtx CReadSessionsEntry (EIo OtherIo))
  | DEntry name n :: es =>
    if decide (extension name = Some "json") then
      content ← with_context (CReadSessionFile name) (lift (read_node (Some n)));
      match session_from_json content with
      | Some s => ss ← read_session_entries es; mret (s :: ss)
      | None => fail (ECtx (CParseSessionFile name) EJson)
      end
    else read_session_entries es
  end.

Definition list_sessions_strict : M (list Session) := λ w,
  match read_dir Sessions w with
  | (Ok es, w) => read_session_entries es w
  | (Err e, w) => if is_not_found e then (Ok [], w) else (Err (ECtx CReadSessionsDir e), w)
  end.

Definition open_sessions_strict (project : string) : M (list Session) :=
  ss ← list_sessions_strict;
  mret (open_visible ss project None).

Definition touch_last_activity (session_id : string) : M unit :=
  with_store_lock (
    r ← st_try (load_session session_id);
    match r with
    | Err e => if is_not_found e then mret tt else fail (ECtx (CTouch session_id) e)
    | Ok session =>
      if decide (is_open session) then
        now ← now_rfc3339;
        save_session (set_last_activity now session)
      else mret tt
    end).

(** ** Starting *)

Definition resume (session : Session) (request : StartRequest) : M Session :=
  now ← now_rfc3339;
  let session := set_last_activity now session in
  let session := claim session (sr_owner request) in
  let session := set_resume (apply (s_resume session) (sr_resume request)) session in
  save_session session;;
  mret session.

Definition session_base_slug (name : option string) : string :=
  match slugify <$> name with
  | Some s => if decide (s = "") then "session" else s
  | None => "session"
  end.

Definition create_session (request : StartRequest) : M Session :=
  create_dir Sessions;;
  d ← st_get w_sessions;
  let id := unique_slug d (session_base_slug (sr_name request)) in
  now ← now_rfc3339;
  let session := mkSession id (sr_name request) (sr_project request) (sr_description request)
                   now now None None None None (sr_resume request) in
  let session := claim session (sr_owner request) in
  save_session session;;
  mret session.

Definition in_session (session_id : string) (t : Task) : Prop := t_session t = Some session_id.
Global Instance in_session_dec id t : Decision (in_session id t).
Proof. unfold in_session. apply _. Defined.

Definition try_tasks_in_session (session_id : string) : M (list Task) :=
  ts ← read_tasks Fail_;
  mret (filter (in_session session_id) ts).

(** The loop of [untag_unfinished]; [earlier] counts the tasks untagged so far. *)
Fixpoint untag_loop (session_id now note : string) (earlier : nat) (ts : list Task)
  : M (list Task) :=
  match ts with
  | [] => mret []
  | task :: ts =>
    if decide (t_state task = Done) then untag_loop session_id now note earlier ts
    else
      let task := push_note now note task in
      let task := set_session None task in
      let task := set_updated_at now task in
      with_context (CUntag (t_slug task) session_id earlier) (save_task task);;
      untagged ← untag_loop session_id now note (S earlier) ts;
      mret (task :: untagged)
  end.
Definition untag_unfinished (session_id : string) (ts : list Task) (now note : string)
  : M (list Task) :=
  untag_loop session_id now note 0 ts.

Definition abandon_session (session : Session) (ts : list Task) : M Session :=
  now ← now_rfc3339;
  let label := default (s_id session) (s_name session) in
  let note := "Orphaned: session '" +:+ label +:+
    "' was abandoned (`session start --replace`) before this task was finished." in
  _ ← untag_unfinished (s_id session) ts now note;
  let session := set_abandoned_at (Some now) session in
  save_session session;;
  mret session.

(** The loop of the [Replace] arm. *)
Fixpoint abandon_all (earlier : nat) (existing : list Session) (ts : list Task)
  : M (list Session) :=
  match existing with
  | [] => mret []
  | session :: existing =>
    let own := filter (in_session (s_id session)) ts in
    let rest := filter (λ t, ¬ in_session (s_id session) t) ts in
    s ← with_context (CAbandon (s_id session) earlier) (abandon_session session own);
    ss ← abandon_all (S earlier) existing rest;
    mret (s :: ss)
  end.

Definition start_session_as (request : StartRequest) (decision : StartDecision)
  : M StartOutcome :=
  with_store_lock
    match decision with
    | Auto =>
      existing ← open_sessions_strict (sr_project request);
      if decide (existing = []) then
        s ← create_session request; mret (Created s)
      else
        start ← match ei_pid (sr_owner request) with
                | Some pid => engine_start pid
                | None => mret None
                end;
        match only_own_session existing (sr_owner request) start with
        | Some own => s ← resume own request; mret (Resumed s)
        | None => text_ ← checkpoint_error existing (sr_owner request); bail (MCheckpoint text_)
        end
    | Resume id =>
      session ← load_existing_session id;
      if decide (is_open session) then s ← resume session request; mret (Resumed s)
      else bail (MSessionClosedResume id)
    | Replace =>
      existing ← open_sessions_strict (sr_project request);
      ts ← (if decide (existing = []) then mret [] else read_tasks Fail_);
      abandoned ← abandon_all 0 existing ts;
      session ← create_session request;
      mret (Replaced session abandoned)
    | New => s ← create_session request; mret (Created s)
    end.

(** ** Finishing (session/finish.rs) *)

Record FinishOutcome := mkFinish {
  fo_session : Session; fo_done : nat; fo_total : nat; fo_abandoned : list Task }.

Definition unfinished_error (id : string) (unfinished : list Task) : msg :=
  MUnfinished id ((λ t, (as_str (t_state t), t_slug t, t_title t)) <$> unfinished).

Definition finish_session (id : string) (abandon_open : bool) : M FinishOutcome :=
  with_store_lock (
    session ← load_existing_session id;
    if decide (is_open session) then
      ts ← try_tasks_in_session (s_id session);
      let unfinished := filter (λ t, t_state t ≠ Done) ts in
      if decide (unfinished ≠ [] ∧ abandon_open = false) then bail (unfinished_error id unfinished)
      else
        let total := length ts in
        let done_ := length ts - length unfinished in
        now ← now_rfc3339;
        let note := "Dropped: session '" +:+ s_id session +:+
          "' finished (`session finish --abandon-open`) before this task was finished." in
        abandoned ← untag_unfinished (s_id session) ts now note;
        let session := set_finished_at (Some now) session in
        with_context (CStaysOpen id (length abandoned)) (save_session session);;
        mret (mkFinish session done_ total abandoned)
    else bail (MSessionAlreadyClosed id)).

(** ** Resume context of a stored session (session/resume_write.rs) *)

Definition update_resume (id : string) (change : ResumeContext → ResumeContext) : M Session :=
  with_store_lock (
    session ← load_existing_session id;
    if decide (is_open session) then
      now ← now_rfc3339;
      let session := set_last_activity now (set_resume (change (s_resume session)) session) in
      save_session session;;
      mret session
    else bail (MSessionClosedChange id)).

Definition append_override_note (id : string) (note : option string) : M unit :=
  match note with
  | None => mret tt
  | Some text_ =>
    with_context (CSessionOverrideNote id) (with_store_lock (
      session ← load_existing_session id;
      save_session (set_resume (append_note (s_resume session) text_) session)))
  end.

(** ** Rollups *)

(** [progress_in]. *)
Definition progress_in (tasks : list Task) (session_id : string) : nat * nat :=
  let own := filter (in_session session_id) tasks in
  (length (filter (λ t, t_state t = Done) own), length own).
Definition try_session_progress (session_id : string) : M (nat * nat) :=
  ts ← list_tasks_strict; mret (progress_in ts session_id).

Record SessionSummaryTask := mkSummaryTask {
  st_slug : string; st_title : string; st_state : TaskState; st_parent : option string;
  st_blocked_on : list string; st_notes : list TaskNote; st_detail : option string }.
Definition summary_task (t : Task) : SessionSummaryTask :=
  mkSummaryTask (t_slug t) (t_title t) (t_state t) (t_parent t) (t_blocked_on t) (t_notes t)
    (t_detail t).

Record SessionSummary := mkSummary {
  su_id : string; su_name : option string; su_description : option string;
  su_done : nat; su_total : nat; su_tasks : list SessionSummaryTask; su_resume : ResumeContext }.

(** [session_summary_with_agent], without the opaque agent document that the root
    crate adds. *)
Definition session_summary (session_id : string) : M SessionSummary :=
  session ← load_existing_session session_id;
  ts ← try_tasks_in_session session_id;
  let done_ := length (filter (λ t, t_state t = Done) ts) in
  let rows := default [] (append_forest ts) in
  mret (mkSummary (s_id session) (s_name session) (s_description session) done_ (length ts)
          ((λ r, summary_task (r_task r)) <$> rows) (s_resume session)).

(** The loop of [delete_tasks_in_session]. *)
Fixpoint delete_loop (session_id : string) (earlier total : nat) (ts : list Task) : M unit :=
  match ts with
  | [] => mret tt
  | t :: ts =>
    with_context (CDeleteTask (t_slug t) earlier total session_id)
      (remove_file Tasks (json_name (t_slug t)));;
    delete_loop session_id (S earlier) total ts
  end.

Definition delete_tasks_in_session (session_id : string) : M (list Task) :=
  with_store_lock (
    ts ← try_tasks_in_session session_id;
    delete_loop session_id 0 (length ts) ts;;
    mret ts).
End session.
