(* ===== verification/SessionFacts.v ===== *)
(** * Facts about sessions

    The abstract view of the session folder, and what each session command does to
    it: which sessions are open, which tasks they keep, and that a closed session
    stays closed. *)

From S2P Require Import Prelude RustStr Names Slug TaskData TaskStore Resume.
From S2P Require Import Relation Forest SessionStore.

(** ** Choosing a session *)

Lemma pick_many open owner :
  2 ≤ length open →
  pick_open_session open owner =
  match filter (owned_by owner) open with
  | [s] => Ok s
  | owned => Err (Ambiguous (length open) (length owned) (bool_decide (is_Some (ei_session_id owner))))
  end.
Proof. intros Hl. destruct open as [|a [|b l]]; simpl in Hl; [lia..|done]. Qed.

Lemma pick_ok open owner s :
  pick_open_session open owner = Ok s ↔
  open = [s] ∨ 2 ≤ length open ∧ filter (owned_by owner) open = [s].
Proof.
  destruct open as [|a [|b l]].
  - simpl. naive_solver lia.
  - simpl. naive_solver lia.
  - rewrite pick_many by (simpl; lia). destruct (filter _ _) as [|x [|y k]]; split; naive_solver lia.
Qed.

Lemma pick_perm open open' owner :
  open ≡ₚ open' → pick_open_session open' owner = pick_open_session open owner.
Proof.
  intros Hp. pose proof (Permutation_length Hp) as Hl.
  destruct (decide (2 ≤ length open)) as [H2|H2].
  - rewrite !pick_many by lia.
    assert (Hf : filter (owned_by owner) open ≡ₚ filter (owned_by owner) open') by (by rewrite Hp).
    pose proof (Permutation_length Hf) as Hlf.
    destruct (filter _ open) as [|x [|y k]].
    + apply Permutation_nil_l in Hf as <-. by rewrite Hl.
    + by apply Permutation_singleton_l in Hf as <-.
    + destruct (filter _ open') as [|x' [|y' k']]; simpl in Hlf; [lia..|]. simpl. by rewrite Hlf, Hl.
  - destruct open as [|a [|b l]].
    + by apply Permutation_nil_l in Hp as <-.
    + by apply Permutation_singleton_l in Hp as <-.
    + simpl in H2. lia.
Qed.

(** The session an id-less command means. The choice does not depend on the
    order in which the folder is listed; it is the only open session, or else the only
    one that the caller's conversation owns; and it fails as "none open" exactly when
    no session is open. A caller with no conversation id is never given one of several. *)
Theorem pick_open_session_correct (open : list Session) (owner : EngineIdentity) :
  (∀ open', open ≡ₚ open' → pick_open_session open' owner = pick_open_session open owner) ∧
  (pick_open_session open owner = Err NoneOpen ↔ open = []) ∧
  (∀ s, pick_open_session open owner = Ok s ↔
     open = [s] ∨ 2 ≤ length open ∧ filter (owned_by owner) open = [s]) ∧
  (∀ s, ei_session_id owner = None → pick_open_session open owner = Ok s → open = [s]).
Proof.
  split_and!; [intros; by apply pick_perm| |intros; apply pick_ok|].
  - destruct open as [|a [|b l]]; [done..|]. rewrite pick_many by (simpl; lia).
    by destruct (filter _ _) as [|x [|y k]].
  - intros s Hn [->|[_ Hf]]%pick_ok; [done|]. exfalso.
    assert (Hin : s ∈ filter (owned_by owner) open) by (rewrite Hf; set_solver).
    apply list_elem_of_filter in Hin as [[Ho _] _]. rewrite Hn in Ho. by destruct Ho.
Qed.

(** Who may add tasks to a session. An owned session takes tasks only from its
    owner, so a caller with no conversation id is refused; a session without an owner
    takes tasks from anyone; and whoever may write to a session may also see it. *)
Theorem may_take_tasks_correct (s : Session) (caller : option string) :
  (may_take_tasks s caller = true ↔
     s_owner_session s = None ∨ caller ≠ None ∧ s_owner_session s = caller) ∧
  (may_take_tasks s caller = true → visible_to s caller = true) ∧
  (visible_to s None = true).
Proof.
  unfold may_take_tasks, visible_to, owner_visible.
  destruct (s_owner_session s) as [o|], caller as [c|]; split_and!;
    rewrite ?bool_decide_eq_true; naive_solver.
Qed.

(** ** Elapsed time *)

Lemma number_bound t max n :
  number t max = Some n → (n ≤ max)%N ∧ (n < 10000000)%N.
Proof.
  unfold number. case_decide as Hd; [|done]. intros (v & Hv & Hm)%bind_Some.
  case_decide; [|done]. simplify_eq. split; [done|].
  unfold parse_unsigned in Hv. destruct Hd as [Hl Ha].
  assert (Hdig : digits_value 0 t = Some n).
  { destruct t as [|c t]; [simpl in Hl; lia|].
    destruct c as [[] [] [] [] [] [] [] []]; try done;
      apply bind_Some in Hv as (v & -> & Hv); case_decide; by simplify_eq. }
  apply digits_value_bound in Hdig.
  assert (10 ^ N.of_nat (String.length t) ≤ 10 ^ 7)%N; [apply N.pow_le_mono_r; lia|].
  change (10 ^ 7)%N with 10000000%N in *. lia.
Qed.

(** The shape of [[dd-]hh:]mm:ss and its value without any bound check. *)
Definition etime_value (t : string) : option N :=
  '(d, c) ← match split_once "-" t with
            | Some (d, c) => n ← number d u64_max; Some (n, c)
            | None => Some (0%N, t)
            end;
  match split_on (Ascii.eqb ":") c with
  | [m; s] => m ← number m 59; s ← number s 59; Some (d * 86400 + (m * 60 + s))%N
  | [h; m; s] =>
    h ← number h 23; m ← number m 59; s ← number s 59;
    Some (d * 86400 + (h * 3600 + m * 60 + s))%N
  | _ => None
  end.

Lemma checked_ok n : (n ≤ u64_max)%N → checked n = Some n.
Proof. intros. unfold checked. by rewrite decide_True. Qed.

(** The elapsed time of [ps] is read without overflow. The checked u64
    arithmetic of the parse never fails, so a text is refused only for its shape; a
    result is below 864 billion seconds, so adding the second of [ps]'s resolution
    cannot overflow either. *)
Theorem parse_etime_bounds (t : string) :
  parse_etime t = etime_value t ∧
  ∀ n, parse_etime t = Some n → (n < 864000000000)%N ∧ (n + 1 ≤ u64_max)%N.
Proof.
  assert (Hmain : ∀ d c,
    (d < 10000000)%N →
    ('(hours, minutes, seconds) ←
      match split_on (Ascii.eqb ":") c with
      | [m; s] => m ← number m 59; s ← number s 59; Some (0%N, m, s)
      | [h; m; s] => h ← number h 23; m ← number m 59; s ← number s 59; Some (h, m, s)
      | _ => None
      end;
     total ← checked (d * 86400);
     checked (total + (hours * 3600 + minutes * 60 + seconds))) =
    match split_on (Ascii.eqb ":") c with
    | [m; s] => m ← number m 59; s ← number s 59; Some (d * 86400 + (m * 60 + s))%N
    | [h; m; s] =>
      h ← number h 23; m ← number m 59; s ← number s 59;
      Some (d * 86400 + (h * 3600 + m * 60 + s))%N
    | _ => None
    end ∧ ∀ n, match split_on (Ascii.eqb ":") c with
    | [m; s] => m ← number m 59; s ← number s 59; Some (d * 86400 + (m * 60 + s))%N
    | [h; m; s] =>
      h ← number h 23; m ← number m 59; s ← number s 59;
      Some (d * 86400 + (h * 3600 + m * 60 + s))%N
    | _ => None
    end = Some n → (n < 864000000000)%N).
  { intros d c Hd.
    assert (Hb : ∀ x k v, number x k = Some v → (v ≤ k)%N) by (intros ? ? ? ?%number_bound; tauto).
    destruct (split_on (Ascii.eqb ":") c) as [|a [|b [|e [|? ?]]]]; try done.
    - destruct (number a 59) as [m|] eqn:Hm; [|done]. destruct (number b 59) as [s|] eqn:Hs; [|done].
      apply Hb in Hm, Hs. cbn [mbind option_bind]. rewrite checked_ok by (unfold u64_max; lia).
      cbn [mbind option_bind]. rewrite checked_ok by (unfold u64_max; lia).
      split; [f_equal; lia|]. intros n [= <-]. lia.
    - destruct (number a 23) as [h|] eqn:Hh; [|done].
      destruct (number b 59) as [m|] eqn:Hm; [|done]. destruct (number e 59) as [s|] eqn:Hs; [|done].
      apply Hb in Hh, Hm, Hs. cbn [mbind option_bind]. rewrite checked_ok by (unfold u64_max; lia).
      cbn [mbind option_bind]. rewrite checked_ok by (unfold u64_max; lia).
      split; [done|]. intros n [= <-]. lia. }
  assert (Hboth : parse_etime t = etime_value t ∧
    ∀ n, etime_value t = Some n → (n < 864000000000)%N).
  { unfold parse_etime, etime_value. destruct (split_once "-" t) as [[dd c]|].
    - destruct (number dd u64_max) as [d|] eqn:Hd; [|done]. apply number_bound in Hd as [_ Hd].
      cbn [mbind option_bind]. by apply Hmain.
    - cbn [mbind option_bind]. by apply Hmain. }
  destruct Hboth as [E Hv]. split; [done|]. rewrite E. intros n Hn%Hv. unfold u64_max. lia.
Qed.

(** ** The session folder *)

Section facts.
Context `{HP : Platform, HL : !PlatformLaws}.

Definition parse_session (n : node text) : option Session :=
  match n with NText c => session_from_json c | NBroken _ => None end.
Definition lookup_session (w : world) (id : string) : option Session :=
  session_files w !! json_name id ≫= parse_session.

Definition wf_session_entry (name : string) (n : node text) : Prop :=
  extension name = Some "json" →
  ∃ s, parse_session n = Some s ∧ name = json_name (s_id s) ∧
       is_valid_short_name (s_id s) = true.
Definition sessions_wf (w : world) : Prop := map_Forall wf_session_entry (session_files w).

(** A folder that is not there holds nothing. *)
Definition dir_consistent (d : dir text) : Prop :=
  d_status d = Missing ∨ d_status d = Uncreatable → d_files d = ∅.

(** A world as the program keeps it. *)
Record world_ok (w : world) : Prop := {
  ok_tasks : tasks_wf w;
  ok_sessions : sessions_wf w;
  ok_tasks_dir : dir_consistent (w_tasks w);
  ok_sessions_dir : dir_consistent (w_sessions w) }.

Lemma sessions_wf_id w id s :
  sessions_wf w → is_valid_short_name id = true → lookup_session w id = Some s → s_id s = id.
Proof.
  intros Hwf Hv Ht. unfold lookup_session in Ht. apply bind_Some in Ht as (n & Hn & Hp).
  specialize (Hwf _ _ Hn (extension_valid _ Hv)) as (t' & Hp' & Hname & _). by simplify_eq.
Qed.

(** *** Running the folder operations *)

Lemma create_dir_inv k w r w' :
  create_dir k w = (r, w') →
  w' = w ∧ d_status (w_dir k w) ≠ Missing ∨
  r = Ok tt ∧ d_status (w_dir k w) = Missing ∧ w' = set_dir k (set_status Present (w_dir k w)) w.
Proof. unfold create_dir. destruct (d_status (w_dir k w)); intros; simplify_eq; auto. Qed.

Lemma create_dir_ok k w r w' : create_dir k w = (r, w') → world_ok w → world_ok w'.
Proof.
  intros [[-> _]|(_ & Hm & ->)]%create_dir_inv [H1 H2 H3 H4]; [done|].
  destruct k; split; try done; by intros [?|?].
Qed.

Lemma save_session_valid s :
  is_valid_short_name (s_id s) = true →
  save_session s =
    (create_dir Sessions;; write_atomic Sessions (json_name (s_id s)) (session_to_json s)).
Proof. intros Hv. unfold save_session, ensure_plain_name. by rewrite Hv. Qed.
Lemma save_session_invalid s w :
  is_valid_short_name (s_id s) = false →
  save_session s w = (Err (EMsg (MBadSessionId (s_id s))), w).
Proof. intros Hv. unfold save_session, ensure_plain_name. by rewrite Hv. Qed.

Lemma save_session_spec s w r w' :
  save_session s w = (r, w') →
  task_files w' = task_files w ∧
  match r with
  | Ok _ => is_valid_short_name (s_id s) = true ∧
      session_files w' = <[json_name (s_id s) := NText (session_to_json s)]> (session_files w)
  | Err _ => session_files w' = session_files w
  end.
Proof.
  destruct (is_valid_short_name (s_id s)) eqn:Hv;
    [|rewrite save_session_invalid by done; intros; by simplify_eq].
  rewrite save_session_valid by done.
  intros [([] & w2 & Hc & Hw)|(e & Hc & ->)]%st_bind_inv.
  - apply create_dir_files in Hc as [Ht Hs]. unfold write_atomic in Hw.
    case_decide; simplify_eq; [done|]. unfold task_files, session_files in *.
    simpl in *. by rewrite Ht, Hs.
  - apply create_dir_files in Hc as [Ht Hs]. done.
Qed.

Lemma lookup_session_save s w w' id :
  save_session s w = (Ok tt, w') →
  lookup_session w' id = if decide (id = s_id s) then Some s else lookup_session w id.
Proof.
  intros (_ & _ & Hf)%save_session_spec. unfold lookup_session. rewrite Hf.
  case_decide as Hd.
  - subst. rewrite lookup_insert_eq. simpl. apply session_json_roundtrip.
  - rewrite lookup_insert_ne; [done|]. intros ?%(inj json_name). congruence.
Qed.

Lemma dir_consistent_write k name t w r w' :
  write_atomic k name t w = (r, w') → d_status (w_dir k w) ≠ Missing →
  d_status (w_dir k w) ≠ Uncreatable → dir_consistent (w_dir k w').
Proof.
  intros E Hm Hu. assert (Hs : d_status (w_dir k w') = d_status (w_dir k w)).
  { unfold write_atomic in E. case_decide; simplify_eq; [done|]. by destruct k. }
  unfold dir_consistent. rewrite Hs. intros [?|?]; contradiction.
Qed.

Lemma create_dir_status k w w' :
  create_dir k w = (Ok tt, w') → d_status (w_dir k w') = Present ∨ d_status (w_dir k w') = Unlistable.
Proof.
  unfold create_dir. destruct (d_status (w_dir k w)) eqn:E; intros; simplify_eq; auto.
  destruct k; auto.
Qed.

Lemma write_atomic_other k name t w r w' :
  write_atomic k name t w = (r, w') →
  (k = Tasks → w_sessions w' = w_sessions w) ∧ (k = Sessions → w_tasks w' = w_tasks w).
Proof. unfold write_atomic. case_decide; intros; simplify_eq; destruct k; done. Qed.

Global Instance save_session_world_ok s : Preserves world_ok (save_session s).
Proof.
  intros w Hok. destruct (save_session s w) as [r w'] eqn:E. simpl.
  pose proof (save_session_spec _ _ _ _ E) as [Ht Hs].
  destruct (is_valid_short_name (s_id s)) eqn:Hv;
    [|rewrite save_session_invalid in E by done; by simplify_eq].
  rewrite save_session_valid in E by done.
  apply st_bind_inv in E as [([] & w2 & Hc & Hw)|(e & Hc & ->)]; [|by eapply create_dir_ok].
  pose proof (create_dir_ok _ _ _ _ Hc Hok) as [H1 H2 H3 H4].
  pose proof (write_atomic_other _ _ _ _ _ _ Hw) as [_ Hwt].
  apply create_dir_status in Hc as Hst. split.
  - unfold tasks_wf. rewrite Ht. apply Hok.
  - unfold sessions_wf. destruct r as [[]|]; [|rewrite Hs; apply Hok].
    destruct Hs as [_ ->]. apply map_Forall_insert_2; [|apply Hok].
    intros _. exists s. split_and!; [apply session_json_roundtrip|done..].
  - by rewrite Hwt.
  - eapply (dir_consistent_write Sessions); [exact Hw|..]; destruct Hst; congruence.
Qed.

Global Instance save_task_world_ok t : Preserves world_ok (save_task t).
Proof.
  intros w Hok. destruct (save_task t w) as [r w'] eqn:E. simpl.
  pose proof (save_task_wf _ _ _ _ E (ok_tasks _ Hok)) as Hwf.
  pose proof (save_task_spec _ _ _ _ E) as [Hs _].
  unfold save_task, bail, st_fail in E. destruct (is_valid_short_name (t_slug t)); [|by simplify_eq].
  apply st_bind_inv in E as [([] & w2 & Hc & Hw)|(e & Hc & ->)]; [|by eapply create_dir_ok].
  pose proof (create_dir_ok _ _ _ _ Hc Hok) as [H1 H2 H3 H4].
  pose proof (write_atomic_other _ _ _ _ _ _ Hw) as [Hwt _].
  apply create_dir_status in Hc as Hst. split; [done|..].
  - unfold sessions_wf. rewrite Hs. apply Hok.
  - eapply (dir_consistent_write Tasks); [exact Hw|..]; destruct Hst; congruence.
  - by rewrite Hwt.
Qed.

(** *** Strict listings *)

Definition entry_session (e : dirent text) : option Session :=
  match e with
  | DEntry name n => if decide (extension name = Some "json") then parse_session n else None
  | DEntryErr => None
  end.

Lemma read_session_entries_strict es w :
  (read_session_entries es w).2 = w ∧
  ∀ ss, (read_session_entries es w).1 = Ok ss → ss = omap entry_session es.
Proof.
  induction es as [|[name n|] es [IHw IH]]; cbn [read_session_entries].
  - split; [done|]. by intros ss [= <-].
  - simpl. case_decide as Hext; [|done]. destruct n as [c|k]; simpl; [|done].
    run_unfold. destruct (session_from_json c) as [s|]; [|done].
    destruct (read_session_entries es w) as [[ss1|e] w1]; simpl in *; [|done].
    split; [done|]. intros ss [= <-]. by rewrite (IH ss1).
  - done.
Qed.

Lemma elem_of_entry_sessions d s :
  s ∈ omap entry_session (readdir d) ↔
  ∃ name n, d_files d !! name = Some n ∧ extension name = Some "json" ∧ parse_session n = Some s.
Proof.
  rewrite list_elem_of_omap. split.
  - intros ([name n|] & Hin & He); [|done]. apply elem_of_readdir in Hin.
    simpl in He. case_decide; [eauto 10|done].
  - intros (name & n & Hn & Hext & Hp). exists (DEntry name n).
    rewrite elem_of_readdir. split; [done|]. simpl. by rewrite decide_True.
Qed.

Lemma NoDup_entry_sessions d :
  map_Forall wf_session_entry (d_files d) → NoDup (s_id <$> omap entry_session (readdir d)).
Proof.
  intros Hwf. rewrite readdir_perm, omap_app.
  assert (Hr : omap entry_session (replicate (d_bad d) DEntryErr) = []).
  { induction (d_bad d); [done|]. by simpl. }
  rewrite Hr, app_nil_r. clear Hr.
  rewrite map_Forall_to_list in Hwf. pose proof (NoDup_fst_map_to_list (d_files d)) as Hnd.
  induction (map_to_list (d_files d)) as [|[name n] l IH]; [constructor|].
  apply Forall_cons in Hwf as [Hn Hwf]. apply NoDup_cons in Hnd as [Hni Hnd].
  simpl. case_decide as Hext; [|by apply IH]. simpl in Hn.
  destruct (Hn Hext) as (t & Hp & Hname & _). rewrite Hp. simpl. constructor; [|by apply IH].
  rewrite list_elem_of_fmap. intros (t' & Hs & Hin). apply Hni.
  apply list_elem_of_omap in Hin as (e & He & Hte).
  apply list_elem_of_fmap in He as ([name' n'] & -> & Hin'). simpl in Hte.
  case_decide as Hext'; [|done]. rewrite Forall_forall in Hwf.
  destruct (Hwf _ Hin' Hext') as (t'' & Hp' & Hname' & _). simplify_eq.
  apply list_elem_of_fmap. exists (json_name (s_id t'), n'). split; [|done].
  simpl. by rewrite Hs.
Qed.

Lemma list_sessions_strict_inv w r w' :
  list_sessions_strict w = (r, w') → w' = w ∧
  ∀ ss, r = Ok ss → world_ok w → ∀ s, s ∈ ss ↔
    is_valid_short_name (s_id s) = true ∧ lookup_session w (s_id s) = Some s.
Proof.
  unfold list_sessions_strict, read_dir. simpl.
  destruct (d_status (w_sessions w)) eqn:Hst; intros E.
  - run_unfold. simplify_eq. split; [done|]. intros ss [= <-] Hok s. split; [set_solver|].
    intros [_ Hl]. unfold lookup_session, session_files in Hl.
    rewrite (ok_sessions_dir _ Hok) in Hl by auto. done.
  - run_unfold. simplify_eq. split; [done|]. intros ss [= <-] Hok s. split; [set_solver|].
    intros [_ Hl]. unfold lookup_session, session_files in Hl.
    rewrite (ok_sessions_dir _ Hok) in Hl by auto. done.
  - run_unfold. simplify_eq. by split.
  - destruct (read_session_entries_strict (readdir (w_sessions w)) w) as [Hw Hr].
    rewrite E in Hw, Hr. simpl in *. split; [done|]. intros ss -> Hok s.
    rewrite (Hr ss) by done. rewrite elem_of_entry_sessions. split.
    + intros (name & n & Hn & Hext & Hp). destruct (ok_sessions _ Hok _ _ Hn Hext) as (s' & Hp' & -> & Hv).
      simplify_eq. split; [done|]. unfold lookup_session, session_files. by rewrite Hn.
    + intros [Hv Hl]. unfold lookup_session in Hl. apply bind_Some in Hl as (n & Hn & Hp).
      exists (json_name (s_id s)), n. split_and!; [done|by apply extension_valid|done].
Qed.

Lemma read_tasks_strict_inv w r w' :
  read_tasks Fail_ w = (r, w') → w' = w ∧
  ∀ ts, r = Ok ts → world_ok w → NoDup (t_slug <$> ts) ∧ ∀ t, t ∈ ts ↔
    is_valid_short_name (t_slug t) = true ∧ lookup_task w (t_slug t) = Some t.
Proof.
  unfold read_tasks, read_dir. simpl.
  destruct (d_status (w_tasks w)) eqn:Hst; intros E.
  - run_unfold. simplify_eq. split; [done|]. intros ts [= <-] Hok. split; [constructor|].
    intros t. split; [set_solver|]. intros [_ Hl]. unfold lookup_task, task_files in Hl.
    rewrite (ok_tasks_dir _ Hok) in Hl by auto. done.
  - run_unfold. simplify_eq. split; [done|]. intros ts [= <-] Hok. split; [constructor|].
    intros t. split; [set_solver|]. intros [_ Hl]. unfold lookup_task, task_files in Hl.
    rewrite (ok_tasks_dir _ Hok) in Hl by auto. done.
  - run_unfold. simplify_eq. by split.
  - destruct (read_entries_strict (readdir (w_tasks w)) w) as [Hw Hr].
    rewrite E in Hw, Hr. simpl in *. split; [done|]. intros ts -> Hok.
    destruct (Hr ts) as [[_ ->] _]; [done|]. split; [apply NoDup_entry_tasks, Hok|].
    intros t. rewrite elem_of_entry_tasks. split.
    + intros (name & n & Hn & Hext & Hp). destruct (ok_tasks _ Hok _ _ Hn Hext) as (s' & Hp' & -> & Hv).
      simplify_eq. split; [done|]. unfold lookup_task, task_files. by rewrite Hn.
    + intros [Hv Hl]. unfold lookup_task in Hl. apply bind_Some in Hl as (n & Hn & Hp).
      exists (json_name (t_slug t)), n. split_and!; [done|by apply extension_valid|done].
Qed.

Lemma load_session_inv id w r w' :
  load_session id w = (r, w') →
  w' = w ∧ ∀ s, r = Ok s → is_valid_short_name id = true ∧ lookup_session w id = Some s.
Proof.
  unfold load_session, ensure_plain_name, read_state_text, lookup_session, session_files.
  run_unfold. destruct (is_valid_short_name id); [|intros; simplify_eq; split; [done|naive_solver]].
  destruct (d_files (w_sessions w) !! json_name id) as [[c|k]|]; simpl;
    [destruct (session_from_json c)|..]; simpl; intros; simplify_eq; split; naive_solver.
Qed.

Lemma load_existing_session_inv id w r w' :
  load_existing_session id w = (r, w') →
  w' = w ∧ ∀ s, r = Ok s → is_valid_short_name id = true ∧ lookup_session w id = Some s.
Proof.
  unfold load_existing_session, ensure_plain_name, read_state_text, lookup_session, session_files.
  run_unfold. destruct (is_valid_short_name id); [|intros; simplify_eq; split; [done|naive_solver]].
  destruct (d_files (w_sessions w) !! json_name id) as [[c|[]]|]; simpl;
    [destruct (session_from_json c)|..]; simpl; intros; simplify_eq; split; naive_solver.
Qed.

(** ** Frames *)

(** What a command can change on disk. *)
Definition stores (w : world) : dir text * dir text := (w_tasks w, w_sessions w).

Global Instance stores_world_ok {A} (m : M A) : Keeps stores m → Preserves world_ok m | 10.
Proof.
  intros Hk w [H1 H2 H3 H4]. specialize (Hk w). unfold stores in Hk. simplify_eq/=.
  assert (Ht : w_tasks (m w).2 = w_tasks w) by congruence.
  assert (Hs : w_sessions (m w).2 = w_sessions w) by congruence.
  split; unfold tasks_wf, sessions_wf, task_files, session_files; by rewrite ?Ht, ?Hs.
Qed.

Global Instance now_stores : Keeps stores now_rfc3339.
Proof. done. Qed.
Global Instance nanos_stores : Keeps stores now_nanos.
Proof. done. Qed.
Global Instance record_stores n : Keeps stores (record n).
Proof. done. Qed.
Global Instance read_state_text_stores k name : Keeps stores (read_state_text k name).
Proof. done. Qed.
Global Instance read_dir_stores k : Keeps stores (read_dir k).
Proof. intros w. unfold read_dir. by destruct (d_status (w_dir k w)). Qed.
Global Instance load_task_stores slug : Keeps stores (load_task slug).
Proof. unfold load_task, with_context. solve_frame. Qed.
Global Instance load_session_stores id : Keeps stores (load_session id).
Proof. unfold load_session, ensure_plain_name. solve_frame. Qed.
Global Instance load_existing_session_stores id : Keeps stores (load_existing_session id).
Proof. unfold load_existing_session, ensure_plain_name. solve_frame. Qed.
Global Instance read_entries_stores p es : Keeps stores (read_entries p es).
Proof. induction es as [|[name n|] es IH]; cbn [read_entries]; solve_frame. Qed.
Global Instance read_tasks_stores p : Keeps stores (read_tasks p).
Proof.
  intros w. unfold read_tasks. pose proof (keeps (f := stores) (m := read_dir Tasks) w) as Hk.
  destruct (read_dir Tasks w) as [[es|e] w1]; simpl in Hk; rewrite <-Hk.
  - apply read_entries_stores.
  - by destruct (is_not_found e).
Qed.
Global Instance list_sessions_strict_stores : Keeps stores list_sessions_strict.
Proof.
  intros w. destruct (list_sessions_strict w) as [r w'] eqn:E.
  by apply list_sessions_strict_inv in E as [-> _].
Qed.
Global Instance list_tasks_stores : Keeps stores list_tasks.
Proof. unfold list_tasks, try_list_tasks. solve_frame. Qed.
Global Instance open_sessions_strict_stores p : Keeps stores (open_sessions_strict p).
Proof. unfold open_sessions_strict. solve_frame. Qed.
Global Instance try_tasks_in_session_stores id : Keeps stores (try_tasks_in_session id).
Proof. unfold try_tasks_in_session. solve_frame. Qed.
Global Instance engine_start_stores pid : Keeps stores (engine_start pid).
Proof. unfold engine_start. solve_frame. Qed.
Global Instance checkpoint_error_stores ss o : Keeps stores (checkpoint_error ss o).
Proof. unfold checkpoint_error, checkpoint_line, idle_display. solve_frame. Qed.

Global Instance create_dir_world_ok k : Preserves world_ok (create_dir k).
Proof.
  intros w Hok. destruct (create_dir k w) eqn:E. by eapply create_dir_ok.
Qed.
Global Instance with_store_lock_world_ok {A} (f : M A) :
  Preserves world_ok f → Preserves world_ok (with_store_lock f).
Proof. unfold with_store_lock, with_context. intros ?. solve_frame. Qed.

Global Instance remove_file_world_ok name : Preserves world_ok (remove_file Tasks name).
Proof.
  intros w [H1 H2 H3 H4]. unfold remove_file. case_decide; [done|].
  destruct (d_files (w_dir Tasks w) !! name) eqn:Hn; [|done]. simpl. split; try done.
  - unfold tasks_wf, task_files. simpl. by apply map_Forall_delete.
  - unfold dir_consistent in *. simpl. intros Hd. by rewrite (H3 Hd), delete_empty.
Qed.

(** ** Commands keep the stores well-formed *)

Global Instance untag_loop_world_ok sid now note k ts :
  Preserves world_ok (untag_loop sid now note k ts).
Proof.
  revert k. induction ts as [|t ts IH]; intros k; cbn [untag_loop];
    unfold with_context; solve_frame.
Qed.
Global Instance abandon_session_world_ok s ts : Preserves world_ok (abandon_session s ts).
Proof. unfold abandon_session, untag_unfinished. solve_frame. Qed.
Global Instance abandon_all_world_ok k ss ts : Preserves world_ok (abandon_all k ss ts).
Proof.
  revert k ts. induction ss as [|s ss IH]; intros k ts; cbn [abandon_all];
    unfold with_context; solve_frame.
Qed.
Global Instance create_session_world_ok req : Preserves world_ok (create_session req).
Proof. unfold create_session. solve_frame. Qed.
Global Instance resume_world_ok s req : Preserves world_ok (resume s req).
Proof. unfold resume. solve_frame. Qed.
Global Instance start_session_as_world_ok req d : Preserves world_ok (start_session_as req d).
Proof. unfold start_session_as. apply with_store_lock_world_ok. solve_frame. Qed.
Global Instance finish_session_world_ok id b : Preserves world_ok (finish_session id b).
Proof.
  unfold finish_session, untag_unfinished, with_context. apply with_store_lock_world_ok. solve_frame.
Qed.
Global Instance update_resume_world_ok id f : Preserves world_ok (update_resume id f).
Proof. unfold update_resume. apply with_store_lock_world_ok. solve_frame. Qed.
Global Instance append_override_note_world_ok id n : Preserves world_ok (append_override_note id n).
Proof.
  unfold append_override_note, with_context. destruct n; [|apply _].
  apply preserves_map_err, with_store_lock_world_ok. solve_frame.
Qed.
Global Instance touch_last_activity_world_ok id : Preserves world_ok (touch_last_activity id).
Proof. unfold touch_last_activity. apply with_store_lock_world_ok. solve_frame. Qed.
Global Instance delete_loop_world_ok sid k n ts : Preserves world_ok (delete_loop sid k n ts).
Proof.
  revert k. induction ts as [|t ts IH]; intros k; cbn [delete_loop];
    unfold with_context; solve_frame.
Qed.
Global Instance delete_tasks_in_session_world_ok id : Preserves world_ok (delete_tasks_in_session id).
Proof. unfold delete_tasks_in_session. apply with_store_lock_world_ok. solve_frame. Qed.
End facts.
