(* ===== verification/SessionLaws.v ===== *)
(** * What the session commands guarantee

    Finishing leaves no unfinished task behind; [--replace] leaves one open session;
    a plain start never makes a second session; a closed session stays closed. *)

From S2P Require Import Prelude RustStr Names Slug TaskData TaskStore Resume.
From S2P Require Import Relation Forest SessionStore SessionFacts.

Section laws.
Context `{HP : Platform, HL : !PlatformLaws}.

(** A step that changes neither folder's files. *)
Definition same_files (w w' : world) : Prop :=
  task_files w' = task_files w ∧ session_files w' = session_files w.

Global Instance same_files_equivalence : Equivalence same_files.
Proof.
  unfold same_files. split; [by intros w|by intros w w' [-> ->]|].
  by intros w1 w2 w3 [-> ->] [-> ->].
Qed.
Lemma keeps_stores_same_files {A} (m : M A) `{!Keeps stores m} w r w' :
  m w = (r, w') → same_files w w'.
Proof.
  intros E%(keeps_run stores m). unfold stores in E. injection E as Et Es.
  unfold same_files, task_files, session_files. by rewrite Et, Es.
Qed.
Lemma same_files_task w w' slug : same_files w w' → lookup_task w' slug = lookup_task w slug.
Proof. intros [H _]. unfold lookup_task. by rewrite H. Qed.
Lemma same_files_session w w' id : same_files w w' → lookup_session w' id = lookup_session w id.
Proof. intros [_ H]. unfold lookup_session. by rewrite H. Qed.

(** Taking the lock changes no file and keeps the store well-formed. *)
Lemma with_store_lock_inv {A} (f : M A) w r w' :
  with_store_lock f w = (r, w') →
  (∃ e, r = Err e ∧ same_files w w') ∨
  ∃ w1, same_files w w1 ∧ (world_ok w → world_ok w1) ∧ f w1 = (r, w').
Proof.
  unfold with_store_lock, with_context. intros [([] & w1 & Hc & H)|(e & Hc & ->)]%st_bind_inv.
  - unfold st_map_err in Hc. destruct (create_dir Tasks w) as [[[]|e] w2] eqn:E; simplify_eq/=.
    pose proof (create_dir_files _ _ _ _ E) as Hf.
    apply st_bind_inv in H as [(l & w2 & [= <- <-] & H)|(e & [=] & _)].
    destruct (w_lockable w1).
    + right. exists w1. split_and!; [done| |done]. by apply (create_dir_ok _ _ _ _ E).
    + left. unfold fail, st_fail in H. simplify_eq. eauto.
  - unfold st_map_err in Hc. destruct (create_dir Tasks w) as [[[]|e'] w2] eqn:E; simplify_eq/=.
    left. pose proof (create_dir_files _ _ _ _ E). eauto.
Qed.

(** A bind after a step that changes no file. *)
Lemma bind_stores_inv {A B} (m : M A) `{!Keeps stores m} (k : A → M B) w r w' :
  (m ≫= k) w = (r, w') →
  (∃ e, m w = (Err e, w') ∧ r = Err e ∧ same_files w w') ∨
  ∃ a w1, m w = (Ok a, w1) ∧ same_files w w1 ∧ (world_ok w → world_ok w1) ∧ k a w1 = (r, w').
Proof.
  intros [(a & w1 & Hm & Hk)|(e & Hm & ->)]%st_bind_inv.
  - right. exists a, w1. split_and!; [done|by eapply (keeps_stores_same_files m)| |done].
    intros Hok. by eapply (preserves_run world_ok m).
  - left. exists e. split_and!; [done..|]. by eapply (keeps_stores_same_files m).
Qed.

(** Run a first step that only reads: either it failed, or its value is known. *)
Tactic Notation "read_step" ident(H) "as" simple_intropattern(p) :=
  apply bind_stores_inv in H; [destruct H as p|apply _].

Lemma try_tasks_in_session_inv id w r w' :
  try_tasks_in_session id w = (r, w') → w' = w ∧
  ∀ ts, r = Ok ts → world_ok w → NoDup (t_slug <$> ts) ∧ ∀ t, t ∈ ts ↔
    is_valid_short_name (t_slug t) = true ∧ lookup_task w (t_slug t) = Some t ∧
    t_session t = Some id.
Proof.
  unfold try_tasks_in_session. intros [(ts & w1 & Hr & [= <- <-])|(e & Hr & ->)]%st_bind_inv;
    apply read_tasks_strict_inv in Hr as [-> Hts]; split; try done.
  intros ts' [= <-] Hok. destruct (Hts ts eq_refl Hok) as [Hnd Hin]. split.
  - eapply sublist_NoDup; [exact Hnd|]. apply fmap_sublist, sublist_filter.
  - intros t. rewrite list_elem_of_filter, Hin. unfold in_session. tauto.
Qed.

(** ** Untagging *)

(** The task after [untag_unfinished]. *)
Definition untagged (now note : string) (t : Task) : Task :=
  set_updated_at now (set_session None (push_note now note t)).

Lemma untag_loop_spec sid now note k ts w r w' :
  NoDup (t_slug <$> ts) →
  untag_loop sid now note k ts w = (r, w') →
  session_files w' = session_files w ∧
  (∀ slug, lookup_task w' slug ≠ lookup_task w slug →
     ∃ t, t ∈ ts ∧ t_slug t = slug ∧ t_state t ≠ Done ∧ lookup_task w' slug = Some (untagged now note t)) ∧
  ∀ us, r = Ok us →
    us = untagged now note <$> filter (λ t, t_state t ≠ Done) ts ∧
    ∀ t, t ∈ ts → t_state t ≠ Done → lookup_task w' (t_slug t) = Some (untagged now note t).
Proof.
  revert k w r w'. induction ts as [|t ts IH]; intros k w r w' Hnd; cbn [untag_loop].
  { intros [= <- <-]. split_and!; [done|done|]. intros us [= <-]. split; [done|set_solver]. }
  apply NoDup_cons in Hnd as [Hni Hnd]. case_decide as Hd.
  { intros E. destruct (IH _ _ _ _ Hnd E) as (H1 & H2 & H3). split_and!; [done|..].
    - intros slug Hne. destruct (H2 slug Hne) as (t' & ? & ?). exists t'. set_solver.
    - intros us Hus. destruct (H3 us Hus) as [-> Hall]. rewrite filter_cons.
      rewrite decide_False by naive_solver. split; [done|].
      intros t' [->|?]%elem_of_cons ?; [done|by apply Hall]. }
  unfold with_context. intros [([] & w1 & Hs & H)|(e & Hs & ->)]%st_bind_inv; last first.
  { unfold st_map_err in Hs. destruct (save_task _ w) as [[[]|e'] w2] eqn:E; simplify_eq/=.
    apply save_task_spec in E as [? Hf]. split_and!; [done| |done].
    intros slug Hne. unfold lookup_task in Hne. by rewrite Hf in Hne. }
  unfold st_map_err in Hs. destruct (save_task _ w) as [[[]|e'] w2] eqn:E; simplify_eq/=.
  pose proof (lookup_task_save _ _ _ (t_slug t) E) as Hl0.
  assert (Hl : ∀ slug, lookup_task w1 slug =
    if decide (slug = t_slug t) then Some (untagged now note t) else lookup_task w slug).
  { intros slug. by rewrite (lookup_task_save _ _ _ slug E). }
  apply save_task_spec in E as [Hsf _].
  assert (Hkeep : ∀ x, x ∈ ts → t_slug x ≠ t_slug t).
  { intros x Hx Ex. apply Hni, list_elem_of_fmap. eauto. }
  assert (Hhere : ∀ r2 w2, untag_loop sid now note (S k) ts w1 = (r2, w2) →
    lookup_task w2 (t_slug t) = Some (untagged now note t)).
  { intros r2 w2 E2. destruct (IH _ _ _ _ Hnd E2) as (_ & H2 & _).
    destruct (decide (lookup_task w2 (t_slug t) = lookup_task w1 (t_slug t))) as [->|Hne].
    - rewrite Hl. by rewrite decide_True.
    - apply H2 in Hne as (t' & Hin & Hs & _). by destruct (Hkeep t'). }
  assert (Hstep : ∀ r2 w2, untag_loop sid now note (S k) ts w1 = (r2, w2) →
    session_files w2 = session_files w ∧
    ∀ slug, lookup_task w2 slug ≠ lookup_task w slug →
     ∃ x, x ∈ t :: ts ∧ t_slug x = slug ∧ t_state x ≠ Done ∧ lookup_task w2 slug = Some (untagged now note x)).
  { intros r2 w2 E2. destruct (IH _ _ _ _ Hnd E2) as (H1 & H2 & _). split; [congruence|].
    intros slug Hne. destruct (decide (slug = t_slug t)) as [->|Hs].
    - exists t. split_and!; [set_solver|done|done|by eapply Hhere].
    - destruct (H2 slug) as (x & ? & ? & ? & ?); [|exists x; set_solver].
      rewrite Hl. by rewrite decide_False. }
  apply st_bind_inv in H as [(us & w2 & E2 & [= <- <-])|(e & E2 & ->)];
    destruct (Hstep _ _ E2) as [H1 H2]; (split_and!; [done..|]); [|done].
  intros us' [= <-]. pose proof (Hhere _ _ E2).
  destruct (IH _ _ _ _ Hnd E2) as (_ & _ & H3). destruct (H3 us eq_refl) as [-> Hall].
  rewrite filter_cons, decide_True by done. split; [done|].
  intros x [->|?]%elem_of_cons ?; [done|by apply Hall].
Qed.

(** Nothing to untag: nothing happens. *)
Lemma untag_loop_done sid now note k ts w :
  Forall (λ t, t_state t = Done) ts → untag_loop sid now note k ts w = (Ok [], w).
Proof.
  intros H. revert k. induction H as [|t ts Ht H IH]; intros k; cbn [untag_loop]; [done|].
  by rewrite decide_True.
Qed.

(** The tasks of session [id] in the world [w]. *)
Record tasks_of (w : world) (id : string) (ts : list Task) : Prop := {
  to_nodup : NoDup (t_slug <$> ts);
  to_in : ∀ t, t ∈ ts ↔
    is_valid_short_name (t_slug t) = true ∧ lookup_task w (t_slug t) = Some t ∧
    t_session t = Some id }.

(** Untagging all of a session's tasks, on the map of tasks. *)
Definition untag_one (id now note : string) (t : Task) : Task :=
  if decide (t_session t = Some id ∧ t_state t ≠ Done) then untagged now note t else t.

Lemma untag_one_done id now note t :
  t_session (untag_one id now note t) = Some id → t_state (untag_one id now note t) = Done.
Proof. unfold untag_one. case_decide; [done|]. destruct (decide (t_state t = Done)); tauto. Qed.

Lemma untag_unfinished_ok id now note ts w us w' :
  world_ok w → tasks_of w id ts →
  untag_unfinished id ts now note w = (Ok us, w') →
  session_files w' = session_files w ∧
  us = untagged now note <$> filter (λ t, t_state t ≠ Done) ts ∧
  ∀ slug, is_valid_short_name slug = true →
    lookup_task w' slug = untag_one id now note <$> lookup_task w slug.
Proof.
  intros Hok [Hnd Hin] Hu. apply untag_loop_spec in Hu as (Hsf & Hch & Hus); [|done].
  destruct (Hus us eq_refl) as [-> Hall]. split_and!; [done..|]. intros slug Hv.
  destruct (decide (lookup_task w' slug = lookup_task w slug)) as [E|Hne]; last first.
  { apply Hch in Hne as (t & Ht & <- & Hd & ->). apply Hin in Ht as (_ & -> & Hs).
    simpl. unfold untag_one. by rewrite decide_True. }
  rewrite E. destruct (lookup_task w slug) as [t|] eqn:Ht; [|done]. simpl.
  unfold untag_one. case_decide as Hc; [|done].
  pose proof (tasks_wf_slug _ _ _ (ok_tasks _ Hok) Hv Ht) as <-.
  rewrite <-E. apply Hall; [|tauto]. apply Hin. tauto.
Qed.

Lemma with_context_ok {A} c (m : M A) w a w' :
  with_context c m w = (Ok a, w') ↔ m w = (Ok a, w').
Proof. unfold with_context, st_map_err. destruct (m w) as [[b|e] w1]; naive_solver. Qed.
Lemma with_context_err {A} c (m : M A) w e w' :
  with_context c m w = (Err e, w') ↔ ∃ e0, m w = (Err e0, w') ∧ e = ECtx c e0.
Proof. unfold with_context, st_map_err. destruct (m w) as [[b|e0] w1]; naive_solver. Qed.

(** ** Finishing *)

Lemma unfinished_nil (ts : list Task) :
  filter (λ t, t_state t ≠ Done) ts = [] ↔ Forall (λ t, t_state t = Done) ts.
Proof.
  induction ts as [|t ts IH]; [done|]. rewrite filter_cons, Forall_cons.
  case_decide; [|rewrite IH]; destruct (decide (t_state t = Done)); naive_solver.
Qed.

Lemma length_filter_split (P : Task → Prop) `{∀ t, Decision (P t)} (ts : list Task) :
  length (filter (λ t, ¬ P t) ts) ≤ length ts.
Proof. apply length_filter. Qed.

Lemma finish_session_ok id abandon_open w w' out :
  world_ok w → finish_session id abandon_open w = (Ok out, w') →
  ∃ s now note ts w1,
    is_valid_short_name id = true ∧ lookup_session w id = Some s ∧ s_id s = id ∧ is_open s ∧
    tasks_of w id ts ∧ (abandon_open = false → Forall (λ t, t_state t = Done) ts) ∧
    (∀ slug, is_valid_short_name slug = true →
      lookup_task w' slug = untag_one id now note <$> lookup_task w slug) ∧
    session_files w1 = session_files w ∧ save_session (set_finished_at (Some now) s) w1 = (Ok tt, w') ∧
    (abandon_open = false → task_files w1 = task_files w) ∧
    let us := untagged now note <$> filter (λ t, t_state t ≠ Done) ts in
    out = mkFinish (set_finished_at (Some now) s) (length ts - length us) (length ts) us.
Proof.
  intros Hok. unfold finish_session.
  intros [(e & He & Hf)|(w1 & Hf1 & Hok1 & H)]%with_store_lock_inv; [done|]. specialize (Hok1 Hok).
  read_step H as [(e & _ & He & Hf2)|(s & w2 & Hs & _ & _ & H)]; [done|].
  apply load_existing_session_inv in Hs as [-> Hs]. destruct (Hs s eq_refl) as [Hv Hl]. clear Hs.
  pose proof (sessions_wf_id _ _ _ (ok_sessions _ Hok1) Hv Hl) as Hid.
  case_decide as Hop; [|done].
  read_step H as [(e & _ & He & Hf2)|(ts & w2 & Hts & _ & _ & H)]; [done|].
  apply try_tasks_in_session_inv in Hts as [-> Hts]. destruct (Hts ts eq_refl Hok1) as [Hnd Hin].
  rewrite Hid in *. clear Hts. case_decide as Hun; [done|].
  read_step H as [(e & He & _)|(now & w2 & _ & Hf2 & Hok2 & H)]; [done|]. specialize (Hok2 Hok1).
  pose proof (transitivity Hf1 Hf2) as Hf.
  assert (Hto : tasks_of w2 id ts).
  { split; [done|]. intros t. by rewrite Hin, (same_files_task _ _ _ Hf2). }
  assert (Hnone : abandon_open = false → Forall (λ t, t_state t = Done) ts).
  { intros ->. apply unfinished_nil. destruct (decide (filter (λ t, t_state t ≠ Done) ts = [])); [done|].
    destruct Hun. done. }
  apply st_bind_ok in H as (us & w3 & Hu & H). apply st_bind_ok in H as ([] & w4 & Hsv & [= <- <-]).
  apply with_context_ok in Hsv. pose proof Hu as Hu'.
  apply untag_unfinished_ok in Hu as (Hsf & -> & Hlt); [|done..].
  eexists s, now, _, ts, w3. split_and!; try done.
  - by rewrite <-(same_files_session _ _ _ Hf1).
  - destruct Hto as [_ Hto]. split; [done|]. intros t. by rewrite Hto, (same_files_task _ _ _ Hf).
  - intros slug Hvs. rewrite <-(same_files_task _ _ _ Hf), <-Hlt by done.
    apply save_session_spec in Hsv as [Ht1 _]. unfold lookup_task. by rewrite Ht1.
  - rewrite Hsf. by destruct Hf.
  - intros Ha. unfold untag_unfinished in Hu'. rewrite (untag_loop_done _ _ _ _ _ _ (Hnone Ha)) in Hu'.
    simplify_eq. by destruct Hf.
  - by rewrite length_fmap.
Qed.

(** Finishing a session. In a well-formed store, a finish that succeeds found
    the session open, stores it as closed and leaves every other session as it was; no
    unfinished task keeps the tag: each one is untagged with the drop note and every
    other task is unchanged; the counts of the report add up. Without
    [--abandon-open] nothing is untagged and no task file changes. *)
Theorem finish_session_correct (id : string) (abandon_open : bool) (w w' : world)
    (out : FinishOutcome) :
  world_ok w → finish_session id abandon_open w = (Ok out, w') →
  ∃ s now note,
    is_valid_short_name id = true ∧ lookup_session w id = Some s ∧ is_open s ∧
    fo_session out = set_finished_at (Some now) s ∧
    (∀ id', lookup_session w' id' =
       if decide (id' = id) then Some (set_finished_at (Some now) s) else lookup_session w id') ∧
    (∀ slug, is_valid_short_name slug = true →
       lookup_task w' slug = untag_one id now note <$> lookup_task w slug) ∧
    (∀ slug t, is_valid_short_name slug = true → lookup_task w' slug = Some t →
       t_session t = Some id → t_state t = Done) ∧
    fo_done out + length (fo_abandoned out) = fo_total out ∧
    (abandon_open = false → fo_abandoned out = [] ∧ task_files w' = task_files w).
Proof.
  intros Hok (s & now & note & ts & w1 & Hv & Hl & Hid & Hop & Hto & Hnone & Hlt & Hsf & Hsv & Htf & ->)%finish_session_ok;
    [|done].
  exists s, now, note. split_and!; try done.
  - intros id'. rewrite (lookup_session_save _ _ _ id' Hsv). simpl. rewrite Hid.
    unfold lookup_session. by rewrite Hsf.
  - intros slug t Hvs Ht Hses. rewrite Hlt in Ht by done.
    apply fmap_Some in Ht as (t0 & _ & ->). by eapply untag_one_done.
  - simpl. rewrite length_fmap. pose proof (length_filter_split (λ t, t_state t = Done) ts). lia.
  - intros Ha. simpl. split.
    + by rewrite (proj2 (unfinished_nil ts) (Hnone Ha)).
    + apply save_session_spec in Hsv as [-> _]. auto.
Qed.

(** A refused finish is atomic: without [--abandon-open], a finish that fails, for
    whatever reason, leaves every task file and every session file as it was. *)
Theorem finish_session_refused (id : string) (w w' : world) (e : error) :
  world_ok w → finish_session id false w = (Err e, w') → same_files w w'.
Proof.
  intros Hok. unfold finish_session.
  intros [(e1 & _ & Hf)|(w1 & Hf1 & Hok1 & H)]%with_store_lock_inv; [done|]. specialize (Hok1 Hok).
  etrans; [exact Hf1|].
  read_step H as [(e1 & _ & _ & Hf2)|(s & w2 & _ & Hf2 & _ & H)]; [done|].
  etrans; [exact Hf2|]. clear Hf1 Hf2.
  case_decide as Hop; [|unfold bail, st_fail in H; by simplify_eq].
  read_step H as [(e1 & _ & _ & Hf2)|(ts & w3 & _ & Hf2 & _ & H)]; [done|].
  etrans; [exact Hf2|]. clear Hf2.
  case_decide as Hun; [unfold bail, st_fail in H; by simplify_eq|].
  read_step H as [(e1 & He & _)|(now & w4 & _ & Hf2 & _ & H)]; [done|].
  etrans; [exact Hf2|]. clear Hf2.
  assert (Hdone : Forall (λ t, t_state t = Done) ts).
  { apply unfinished_nil. destruct (decide (filter (λ t, t_state t ≠ Done) ts = [])); [done|].
    destruct Hun. done. }
  unfold untag_unfinished in H. unfold mbind, st_bind at 1 in H.
  rewrite (untag_loop_done _ _ _ _ _ _ Hdone) in H.
  apply st_bind_inv in H as [([] & w5 & _ & [=])|(e1 & Hsv & _)].
  apply with_context_err in Hsv as (e0 & Hsv & _). by apply save_session_spec in Hsv.
Qed.

(** ** Starting *)

Lemma create_session_ok req w w' s :
  world_ok w → create_session req w = (Ok s, w') →
  is_valid_short_name (s_id s) = true ∧ is_open s ∧ s_project s = sr_project req ∧
  lookup_session w (s_id s) = None ∧ task_files w' = task_files w ∧
  ∀ id, lookup_session w' id = if decide (id = s_id s) then Some s else lookup_session w id.
Proof.
  intros Hok. unfold create_session. intros H.
  apply st_bind_ok in H as ([] & w1 & Hc & H). apply create_dir_files in Hc as [Ht Hs].
  apply st_bind_ok in H as (d & w2 & [= <- <-] & H).
  apply st_bind_ok in H as (now & w3 & [= <- <-] & H).
  apply st_bind_ok in H as ([] & w4 & Hsv & [= <- <-]).
  destruct (unique_slug_spec (w_sessions w1) (session_base_slug (sr_name req))) as [Hfree _].
  set (sess := claim _ _) in *. assert (Hid : s_id sess = unique_slug (w_sessions w1) (session_base_slug (sr_name req)))
    by done.
  assert (Hl : ∀ id, lookup_session w1 id = lookup_session w id).
  { intros id. unfold lookup_session. by rewrite Hs. }
  split_and!; try done.
  - by apply save_session_spec in Hsv as (_ & ? & _).
  - rewrite <-Hl. unfold lookup_session, session_files. rewrite Hid.
    unfold file_exists in Hfree. destruct (d_files (w_sessions w1) !! _) as [[c|k]|]; done.
  - by apply save_session_spec in Hsv as [-> _].
  - intros id. rewrite (lookup_session_save _ _ _ id Hsv). case_decide; [done|]. apply Hl.
Qed.

Lemma create_session_err req w w' e :
  create_session req w = (Err e, w') → same_files w w'.
Proof.
  unfold create_session. intros [([] & w1 & Hc & H)|(e1 & Hc & _)]%st_bind_inv;
    apply create_dir_files in Hc as [Ht Hs]; [|done].
  etrans; [by split|].
  read_step H as [(e1 & He & _)|(d & w2 & _ & Hf & _ & H)]; [done|].
  etrans; [exact Hf|].
  read_step H as [(e1 & He & _)|(now & w3 & _ & Hf2 & _ & H)]; [done|].
  etrans; [exact Hf2|].
  apply st_bind_inv in H as [([] & w4 & _ & [=])|(e1 & Hsv & _)].
  by apply save_session_spec in Hsv.
Qed.

Lemma abandon_session_ok s ts w w' s' :
  world_ok w → tasks_of w (s_id s) ts → abandon_session s ts w = (Ok s', w') →
  ∃ now note, s' = set_abandoned_at (Some now) s ∧
    (∀ id, lookup_session w' id = if decide (id = s_id s) then Some s' else lookup_session w id) ∧
    (∀ slug, is_valid_short_name slug = true →
      lookup_task w' slug = untag_one (s_id s) now note <$> lookup_task w slug).
Proof.
  intros Hok Hto H. unfold abandon_session in H.
  read_step H as [(e & He & _)|(now & w1 & _ & Hf & Hok1 & H)]; [done|]. specialize (Hok1 Hok).
  set (note := "Orphaned: session '" +:+ _) in H.
  assert (Hto1 : tasks_of w1 (s_id s) ts).
  { destruct Hto as [? Hto]. split; [done|]. intros t. by rewrite Hto, (same_files_task _ _ _ Hf). }
  apply st_bind_ok in H as (us & w2 & Hu & H). apply st_bind_ok in H as ([] & w3 & Hsv & [= <- <-]).
  apply untag_unfinished_ok in Hu as (Hsf & _ & Hlt); [|done..].
  exists now, note. split_and!; [done|..].
  - intros id. rewrite (lookup_session_save _ _ _ id Hsv). simpl. case_decide; [done|].
    unfold lookup_session. rewrite Hsf. destruct Hf as [_ ->]. done.
  - intros slug Hv. rewrite <-(same_files_task _ _ _ Hf), <-Hlt by done.
    apply save_session_spec in Hsv as [Ht _]. unfold lookup_task. by rewrite Ht.
Qed.

(** What [untag_one] does to the tag of another session. *)
Lemma untag_one_session id id' now note t :
  id' ≠ id → t_session (untag_one id now note t) = Some id' ↔ t_session t = Some id'.
Proof. unfold untag_one. case_decide as Hc; simpl; [|done]. destruct Hc. naive_solver. Qed.

Lemma untag_one_other id now note t : t_session t ≠ Some id → untag_one id now note t = t.
Proof. intros. unfold untag_one. rewrite decide_False; [done|]. tauto. Qed.
Lemma untag_one_slug id now note t : t_slug (untag_one id now note t) = t_slug t.
Proof. unfold untag_one. by case_decide. Qed.

(** The tasks of another session are the same ones after an abandon. *)
Lemma tasks_of_untag w w' id id' now note ts :
  world_ok w → id' ≠ id →
  (∀ slug, is_valid_short_name slug = true →
     lookup_task w' slug = untag_one id now note <$> lookup_task w slug) →
  tasks_of w id' ts → tasks_of w' id' ts.
Proof.
  intros Hok Hne Hlt [Hnd Hin]. split; [done|]. intros t. rewrite Hin. split.
  - intros (Hv & Hl & Hs). split_and!; [done| |done]. rewrite Hlt, Hl by done. simpl.
    by rewrite untag_one_other by congruence.
  - intros (Hv & Hl & Hs). split_and!; [done| |done]. rewrite Hlt in Hl by done.
    apply fmap_Some in Hl as (t0 & Hl & ->). rewrite untag_one_slug in Hl |- *.
    apply untag_one_session in Hs; [|done]. rewrite untag_one_other by congruence. done.
Qed.

Lemma abandon_all_ok ss k ts w w' ab :
  world_ok w → NoDup (s_id <$> ss) →
  (∀ s, s ∈ ss → tasks_of w (s_id s) (filter (in_session (s_id s)) ts)) →
  abandon_all k ss ts w = (Ok ab, w') →
  world_ok w' ∧ s_id <$> ab = s_id <$> ss ∧
  (∀ id, id ∉ s_id <$> ss → lookup_session w' id = lookup_session w id) ∧
  (∀ s, s ∈ ab → ¬ is_open s ∧ lookup_session w' (s_id s) = Some s) ∧
  (∀ slug t id, is_valid_short_name slug = true → lookup_task w' slug = Some t →
     t_session t = Some id → lookup_task w slug = Some t ∧ (id ∈ s_id <$> ss → t_state t = Done)).
Proof.
  revert k ts w ab. induction ss as [|s ss IH]; intros k ts w ab Hok Hnd Hts; cbn [abandon_all].
  { intros [= <- <-]. split_and!; [done..|set_solver|]. intros. split; [done|]. set_solver. }
  apply NoDup_cons in Hnd as [Hni Hnd]. intros H.
  apply st_bind_ok in H as (s' & w1 & Ha & H). apply with_context_ok in Ha.
  assert (Hok1 : world_ok w1) by (by eapply (preserves_run world_ok (abandon_session s _))).
  apply abandon_session_ok in Ha as (now & note & -> & Hls & Hlt); [|done|apply Hts; set_solver].
  apply st_bind_ok in H as (ss' & w2 & H & [= <- <-]).
  apply IH in H as (Hok2 & Hids & Hsame & Hclosed & Htask); [|done|done|]; last first.
  { intros x Hx. assert (Hne : s_id x ≠ s_id s).
    { intros E. apply Hni, list_elem_of_fmap. eauto. }
    eapply (tasks_of_untag w w1 (s_id s)); [done..|]. rewrite list_filter_filter.
    erewrite list_filter_iff; [apply Hts; set_solver|]. intros t. unfold in_session. naive_solver. }
  split_and!.
  - done.
  - rewrite !fmap_cons, Hids. done.
  - intros id Hid. rewrite fmap_cons in Hid. rewrite Hsame by set_solver. rewrite Hls.
    rewrite decide_False by set_solver. done.
  - intros x [->|Hx]%elem_of_cons; [|by apply Hclosed]. split; [by intros []|].
    simpl. rewrite Hsame by done. rewrite Hls. by rewrite decide_True.
  - intros slug t id Hv Ht Hs. destruct (Htask slug t id Hv Ht Hs) as [Ht1 Hd].
    rewrite Hlt in Ht1 by done. apply fmap_Some in Ht1 as (t0 & Ht0 & Et).
    destruct (decide (id = s_id s)) as [->|Hne].
    + subst t. pose proof (untag_one_done _ _ _ _ Hs) as Hdone. split; [|done].
      rewrite Ht0. f_equal. unfold untag_one in *. by case_decide.
    + subst t. apply untag_one_session in Hs; [|done]. split.
      * rewrite Ht0. f_equal. by rewrite untag_one_other by congruence.
      * intros Hin. apply Hd. rewrite fmap_cons in Hin. set_solver.
Qed.

Lemma open_sessions_strict_inv project w r w' :
  open_sessions_strict project w = (r, w') → w' = w ∧
  ∀ ss, r = Ok ss → world_ok w → ∀ s, s ∈ ss ↔
    is_valid_short_name (s_id s) = true ∧ lookup_session w (s_id s) = Some s ∧
    is_open s ∧ s_project s = project.
Proof.
  unfold open_sessions_strict. intros [(ss & w1 & Hl & [= <- <-])|(e & Hl & ->)]%st_bind_inv;
    apply list_sessions_strict_inv in Hl as [-> Hss]; split; try done.
  intros ss' [= <-] Hok s. unfold open_visible. rewrite list_elem_of_filter, (Hss ss eq_refl Hok).
  unfold visible_to, owner_visible. destruct (s_owner_session s); naive_solver.
Qed.

Lemma tasks_of_filter w ts id :
  NoDup (t_slug <$> ts) →
  (∀ t, t ∈ ts ↔ is_valid_short_name (t_slug t) = true ∧ lookup_task w (t_slug t) = Some t) →
  tasks_of w id (filter (in_session id) ts).
Proof.
  intros Hnd Hin. split.
  - eapply sublist_NoDup; [exact Hnd|]. apply fmap_sublist, sublist_filter.
  - intros t. rewrite list_elem_of_filter, Hin. unfold in_session. tauto.
Qed.

(** The listing holds each session once. *)
Lemma NoDup_open_sessions project w ss w' :
  world_ok w → open_sessions_strict project w = (Ok ss, w') → NoDup (s_id <$> ss).
Proof.
  intros Hok. unfold open_sessions_strict. intros (ss0 & w1 & Hl & [= <- <-])%st_bind_ok.
  unfold list_sessions_strict, read_dir in Hl. simpl in Hl.
  assert (Hnd : NoDup (s_id <$> ss0)).
  { destruct (d_status (w_sessions w)); run_unfold; simplify_eq; [constructor..|].
    destruct (read_session_entries_strict (readdir (w_sessions w)) w) as [_ Hr].
    rewrite Hl in Hr. simpl in Hr. rewrite (Hr ss0 eq_refl).
    apply NoDup_entry_sessions, Hok. }
  eapply sublist_NoDup; [exact Hnd|]. unfold open_visible. apply fmap_sublist, sublist_filter.
Qed.

(** [session start --replace]. When it succeeds, the new session is the only open
    session of the project; no unfinished task is left in a session that was abandoned;
    and no task was put into any session. *)
Theorem start_replace_correct (req : StartRequest) (w w' : world) (out : StartOutcome) :
  world_ok w → start_session_as req Replace w = (Ok out, w') →
  ∃ s abandoned, out = Replaced s abandoned ∧
    is_open s ∧ s_project s = sr_project req ∧ lookup_session w (s_id s) = None ∧
    (∀ s', is_valid_short_name (s_id s') = true → lookup_session w' (s_id s') = Some s' →
       is_open s' → s_project s' = sr_project req → s' = s) ∧
    (∀ s', s' ∈ abandoned → ¬ is_open s' ∧ lookup_session w' (s_id s') = Some s') ∧
    (∀ slug t id, is_valid_short_name slug = true → lookup_task w' slug = Some t →
       t_session t = Some id →
       lookup_task w slug = Some t ∧ (id ∈ s_id <$> abandoned → t_state t = Done)).
Proof.
  intros Hok. unfold start_session_as.
  intros [(e & He & Hf)|(w1 & Hf1 & Hok1 & H)]%with_store_lock_inv; [done|]. specialize (Hok1 Hok).
  apply st_bind_ok in H as (ss & w2 & Hss & H).
  pose proof (NoDup_open_sessions _ _ _ _ Hok1 Hss) as Hnd.
  apply open_sessions_strict_inv in Hss as [-> Hss]. specialize (Hss ss eq_refl Hok1).
  apply st_bind_ok in H as (ts & w2 & Hts & H).
  assert (w2 = w1 ∧ ∀ s, s ∈ ss → tasks_of w1 (s_id s) (filter (in_session (s_id s)) ts)) as [-> Hto].
  { case_decide; [subst ss; injection Hts as <- <-; set_solver|].
    apply read_tasks_strict_inv in Hts as [-> Hts]. destruct (Hts ts eq_refl Hok1) as [? ?].
    split; [done|]. intros. by apply tasks_of_filter. }
  apply st_bind_ok in H as (ab & w3 & Hab & H). apply st_bind_ok in H as (s & w4 & Hc & [= <- <-]).
  apply abandon_all_ok in Hab as (Hok3 & Hids & Hsame & Hcl & Htk); [|done..].
  apply create_session_ok in Hc as (Hv & Hop & Hp & Hnew & Htf & Hl); [|done].
  assert (Hnot : s_id s ∉ s_id <$> ss).
  { rewrite <-Hids. intros (x & Ex & Hx)%list_elem_of_fmap. apply Hcl in Hx as [_ Hx]. congruence. }
  exists s, ab. split; [done|]. split; [done|]. split; [done|]. split_and!.
  - rewrite <-(same_files_session _ _ _ Hf1), <-Hsame by done. done.
  - intros s' Hv' Hl' Hop' Hp'. rewrite Hl in Hl'. case_decide as Hd; [congruence|].
    exfalso. destruct (decide (s_id s' ∈ s_id <$> ss)) as [Hin|Hin].
    + rewrite <-Hids in Hin. apply list_elem_of_fmap in Hin as (x & Ex & Hx).
      apply Hcl in Hx as [Hn Hx]. rewrite <-Ex in Hx. naive_solver congruence.
    + apply Hin, list_elem_of_fmap. exists s'. split; [done|]. rewrite Hsame in Hl' by done.
      by apply Hss.
  - intros s' [Hn Hl']%Hcl. split; [done|]. rewrite Hl.
    rewrite decide_False; [done|]. intros E. congruence.
  - intros slug t id Hvs Ht Hs. unfold lookup_task in Ht. rewrite Htf in Ht.
    destruct (Htk slug t id Hvs Ht Hs) as [Ht1 Hd]. rewrite <-(same_files_task _ _ _ Hf1).
    split; [done|]. by rewrite Hids.
Qed.

Lemma resume_inv s req w r w' :
  resume s req w = (r, w') →
  task_files w' = task_files w ∧
  match r with
  | Ok s' => s_id s' = s_id s ∧ s_project s' = s_project s ∧ (is_open s' ↔ is_open s) ∧
     ∀ id, lookup_session w' id = if decide (id = s_id s) then Some s' else lookup_session w id
  | Err _ => session_files w' = session_files w
  end.
Proof.
  unfold resume. intros H. read_step H as [(e & He & _)|(now & w1 & _ & Hf & _ & H)]; [done|].
  set (s1 := set_resume _ _) in H.
  apply st_bind_inv in H as [([] & w2 & Hsv & [= <- <-])|(e & Hsv & ->)].
  - split; [apply save_session_spec in Hsv as [-> _]; by destruct Hf|].
    split_and!; [done..|]. intros id. rewrite (lookup_session_save _ _ _ id Hsv).
    change (s_id s1) with (s_id s). case_decide; [done|]. by apply same_files_session.
  - apply save_session_spec in Hsv as [-> ->]. by destruct Hf.
Qed.

(** The refusal of the checkpoint changes no file. *)
Lemma checkpoint_refused ss owner w {A} (r : result error A) w' :
  (checkpoint_error ss owner ≫= λ t, bail (MCheckpoint t)) w = (r, w') →
  same_files w w' ∧ ∃ e, r = Err e.
Proof.
  intros H. read_step H as [(e & _ & -> & Hf)|(tx & w1 & _ & Hf & _ & H)]; [eauto|].
  unfold bail, st_fail in H. simplify_eq. eauto.
Qed.

Lemma only_own_session_inv ss owner st own :
  only_own_session ss owner st = Some own →
  own ∈ ss ∧ ownership own owner ≠ ONone ∧
  ∀ s, s ∈ ss → ownership s owner = OConversation → s = own.
Proof.
  unfold only_own_session. intros H.
  destruct (filter (is_own owner st) ss) as [|x [|? ?]] eqn:E; simplify_eq.
  assert (Hf : ∀ s, s ∈ ss ∧ is_own owner st s ↔ s = own).
  { intros s. rewrite <-(list_elem_of_singleton s own), <-E, list_elem_of_filter. tauto. }
  destruct (proj2 (Hf own) eq_refl) as [Hin Ho]. split_and!; [done| |].
  - unfold is_own in Ho. by destruct (ownership own owner).
  - intros s Hs Ho'. apply Hf. split; [done|]. unfold is_own. by rewrite Ho'.
Qed.

(** A plain [session start] never makes a second session. When it creates one, no
    session of the project was open; when it resumes one, that session was open in the
    project, the caller owns it, and it owns no other; when it refuses, no file changed.
    No task changes in any case. *)
Theorem start_auto_correct (req : StartRequest) (w w' : world) (r : result error StartOutcome) :
  world_ok w → start_session_as req Auto w = (r, w') →
  task_files w' = task_files w ∧
  match r with
  | Ok (Created s) =>
      (∀ s', is_valid_short_name (s_id s') = true → lookup_session w (s_id s') = Some s' →
         s_project s' = sr_project req → ¬ is_open s') ∧
      is_open s ∧ s_project s = sr_project req ∧ lookup_session w (s_id s) = None ∧
      ∀ id, lookup_session w' id = if decide (id = s_id s) then Some s else lookup_session w id
  | Ok (Resumed s) => ∃ own,
      lookup_session w (s_id s) = Some own ∧ is_open own ∧ s_project own = sr_project req ∧
      ownership own (sr_owner req) ≠ ONone ∧ is_open s ∧
      (∀ s', is_valid_short_name (s_id s') = true → lookup_session w (s_id s') = Some s' →
         is_open s' → s_project s' = sr_project req →
         ownership s' (sr_owner req) = OConversation → s' = own) ∧
      ∀ id, lookup_session w' id = if decide (id = s_id s) then Some s else lookup_session w id
  | Ok (Replaced _ _) => False
  | Err _ => session_files w' = session_files w
  end.
Proof.
  intros Hok. unfold start_session_as.
  intros [(e & -> & [? ?])|(w1 & Hf1 & Hok1 & H)]%with_store_lock_inv; [done|]. specialize (Hok1 Hok).
  assert (Hl1 : ∀ id, lookup_session w1 id = lookup_session w id)
    by (intros; by apply same_files_session).
  destruct Hf1 as [Ht1 Hs1].
  read_step H as [(e & _ & -> & [? ?])|(ss & w2 & Hss & _ & _ & H)]; [split; congruence|].
  apply open_sessions_strict_inv in Hss as [-> Hss]. specialize (Hss ss eq_refl Hok1).
  setoid_rewrite Hl1 in Hss. case_decide as He.
  - apply st_bind_inv in H as [(s & w2 & Hc & [= <- <-])|(e & Hc & ->)].
    + apply create_session_ok in Hc as (Hv & Hop & Hp & Hnew & Htf & Hl); [|done].
      split; [congruence|]. split; [|split; [done|split; [done|split]]].
      * intros s' Hv' Hl' Hp' Hop'. assert (Hin : s' ∈ ss) by (by apply Hss).
        rewrite He in Hin. set_solver.
      * by rewrite <-Hl1.
      * intros id. by rewrite Hl, Hl1.
    + apply create_session_err in Hc as [? ?]. split; congruence.
  - apply bind_stores_inv in H; [|destruct (ei_pid (sr_owner req)); apply _].
    destruct H as [(e & _ & -> & [? ?])|(st & w2 & _ & Hf2 & _ & H)]; [split; congruence|].
    destruct (only_own_session ss (sr_owner req) st) as [own|] eqn:Hown.
    + apply only_own_session_inv in Hown as ((Hv & Hl & Hop & Hp)%Hss & Ho & Hone).
      assert (Hl2 : ∀ id, lookup_session w2 id = lookup_session w id).
      { intros id. rewrite (same_files_session _ _ _ Hf2). apply Hl1. }
      destruct Hf2 as [Ht2 Hs2].
      apply st_bind_inv in H as [(s & w3 & Hr & [= <- <-])|(e & Hr & ->)]; apply resume_inv in Hr as [Htf Hr];
        [|split; congruence].
      destruct Hr as (Hid & _ & Hops & Hlr). split; [congruence|]. exists own. rewrite Hid.
      split_and!; [done..|by apply Hops| |].
      * intros s' Hv' Hl' Hop' Hp' Ho'. apply Hone; [by apply Hss|done].
      * intros id. by rewrite Hlr, Hl2.
    + apply checkpoint_refused in H as [[? ?] [e ->]]. destruct Hf2. split; congruence.
Qed.

(** ** A closed session stays closed *)

Record closed_in (id : string) (w : world) : Prop := {
  ci_ok : world_ok w;
  ci_closed : ∃ s, lookup_session w id = Some s ∧ ¬ is_open s }.

(** Every command that leaves the session files alone keeps it closed. *)
Lemma closed_in_frame {A} id (m : M A) :
  Preserves world_ok m → Keeps session_files m → Preserves (closed_in id) m.
Proof.
  intros Hok Hk w [Hw (s & Hs & Hn)]. split; [by apply Hok|]. exists s. split; [|done].
  unfold lookup_session. by rewrite (Hk w).
Qed.

Global Instance stores_session_files {A} (m : M A) : Keeps stores m → Keeps session_files m | 10.
Proof. intros Hk w. unfold session_files. specialize (Hk w). unfold stores in Hk. by injection Hk as _ ->. Qed.
Global Instance save_task_session_files t : Keeps session_files (save_task t).
Proof. intros w. destruct (save_task t w) eqn:E. by apply save_task_spec in E as [? _]. Qed.
Global Instance create_dir_session_files k : Keeps session_files (create_dir k).
Proof. intros w. destruct (create_dir k w) eqn:E. by apply create_dir_files in E as [_ ?]. Qed.
Global Instance remove_file_session_files name : Keeps session_files (remove_file Tasks name).
Proof.
  intros w. unfold remove_file. case_decide; [done|]. by destruct (d_files (w_dir Tasks w) !! name).
Qed.
Global Instance untag_loop_session_files sid now note k ts :
  Keeps session_files (untag_loop sid now note k ts).
Proof.
  revert k. induction ts as [|t ts IH]; intros k; cbn [untag_loop]; unfold with_context; solve_frame.
Qed.
Global Instance delete_loop_session_files sid k n ts : Keeps session_files (delete_loop sid k n ts).
Proof.
  revert k. induction ts as [|t ts IH]; intros k; cbn [delete_loop]; unfold with_context; solve_frame.
Qed.

Global Instance frame_closed_in {A} id (m : M A) :
  Preserves world_ok m → Keeps session_files m → Preserves (closed_in id) m | 10 :=
  closed_in_frame id m.

Global Instance with_store_lock_closed {A} id (f : M A) :
  Preserves (closed_in id) f → Preserves (closed_in id) (with_store_lock f).
Proof. intros Hf. unfold with_store_lock, with_context. solve_frame. Qed.

Lemma save_session_closed id s :
  (is_open s → s_id s ≠ id) → Preserves (closed_in id) (save_session s).
Proof.
  intros Hs w [Hok (s0 & Hl & Hn)]. destruct (save_session s w) as [r w'] eqn:E. simpl. split.
  - by eapply (preserves_run world_ok (save_session s)).
  - destruct r as [[]|e].
    + exists (if decide (id = s_id s) then s else s0).
      rewrite (lookup_session_save _ _ _ id E). case_decide; [|done]. split; [done|].
      intros Ho. by apply Hs in Ho.
    + exists s0. unfold lookup_session. apply save_session_spec in E as [_ ->]. done.
Qed.

(** A session that was read as open is not the closed one. *)
Lemma load_existing_closed {A} id x (k : Session → M A) :
  (∀ s, (is_open s → s_id s ≠ id) → Preserves (closed_in id) (k s)) →
  Preserves (closed_in id) (s ← load_existing_session x; k s).
Proof.
  intros Hk. apply (preserves_bind_when _ (λ s, is_open s → s_id s ≠ id)); [|done].
  intros w r w' Hw E. apply load_existing_session_inv in E as [-> E]. split; [done|].
  intros s Es Ho Hid. destruct (E s Es) as [Hv Hl]. destruct Hw as [Hok (s0 & Hl0 & Hn)].
  assert (s_id s = x) as Hx by (by eapply sessions_wf_id; [apply Hok|..]).
  rewrite <-Hx, Hid in Hl. congruence.
Qed.

Lemma resume_closed id s req :
  (is_open s → s_id s ≠ id) → Preserves (closed_in id) (resume s req).
Proof.
  intros Hs. unfold resume. apply preserves_bind; [apply _|]. intros now.
  apply preserves_bind; [|apply _]. by apply save_session_closed.
Qed.

Global Instance create_session_closed id req : Preserves (closed_in id) (create_session req).
Proof.
  intros w [Hok (s0 & Hl & Hn)]. destruct (create_session req w) as [r w'] eqn:E. simpl. split.
  - by eapply (preserves_run world_ok (create_session req)).
  - exists s0. split; [|done]. destruct r as [s|e].
    + apply create_session_ok in E as (_ & _ & _ & Hnew & _ & Hls); [|done].
      rewrite Hls, decide_False; [done|]. intros ->. congruence.
    + apply create_session_err in E. by rewrite (same_files_session _ _ _ E).
Qed.

Global Instance abandon_session_closed id s ts : Preserves (closed_in id) (abandon_session s ts).
Proof.
  unfold abandon_session, untag_unfinished. apply preserves_bind; [apply _|]. intros now.
  apply preserves_bind; [apply _|]. intros us. apply preserves_bind; [|apply _].
  apply save_session_closed. by intros [].
Qed.
Global Instance abandon_all_closed id k ss ts : Preserves (closed_in id) (abandon_all k ss ts).
Proof.
  revert k ts. induction ss as [|s ss IH]; intros k ts; cbn [abandon_all];
    unfold with_context; solve_frame.
Qed.

Global Instance start_session_as_closed id req d :
  Preserves (closed_in id) (start_session_as req d).
Proof.
  unfold start_session_as. apply with_store_lock_closed. destruct d as [|x| |].
  - apply (preserves_bind_when _ (λ ss, ∀ s, s ∈ ss → s_id s ≠ id)).
    { intros w r w' Hw E. apply open_sessions_strict_inv in E as [-> E]. split; [done|].
      intros ss -> s Hs Hid. destruct Hw as [Hok (s0 & Hl0 & Hn)].
      apply (E ss eq_refl Hok) in Hs as (_ & Hl & Ho & _). rewrite Hid in Hl. congruence. }
    intros ss Hss. case_decide; [solve_frame|]. apply preserves_bind.
    { destruct (ei_pid (sr_owner req)); apply _. }
    intros st. destruct (only_own_session ss (sr_owner req) st) as [own|] eqn:Ho; [|solve_frame].
    apply preserves_bind; [|apply _]. apply resume_closed. intros _. apply Hss.
    unfold only_own_session in Ho. destruct (filter _ ss) as [|a [|? ?]] eqn:Hf; simplify_eq.
    assert (Hin : own ∈ filter (is_own (sr_owner req) st) ss) by (rewrite Hf; set_solver).
    by apply list_elem_of_filter in Hin as [_ ?].
  - apply load_existing_closed. intros s Hs. case_decide; [|apply _].
    apply preserves_bind; [by apply resume_closed|apply _].
  - solve_frame.
  - solve_frame.
Qed.

Global Instance finish_session_closed id x b : Preserves (closed_in id) (finish_session x b).
Proof.
  unfold finish_session, untag_unfinished, with_context. apply with_store_lock_closed.
  apply load_existing_closed. intros s Hs. case_decide; [|apply _].
  apply preserves_bind; [apply _|]. intros ts. case_decide; [apply _|].
  apply preserves_bind; [apply _|]. intros now. apply preserves_bind; [apply _|]. intros us.
  apply preserves_bind; [|apply _]. apply preserves_map_err, save_session_closed. by intros [].
Qed.

Global Instance update_resume_closed id x f : Preserves (closed_in id) (update_resume x f).
Proof.
  unfold update_resume. apply with_store_lock_closed. apply load_existing_closed. intros s Hs.
  case_decide; [|apply _]. apply preserves_bind; [apply _|]. intros now.
  apply preserves_bind; [|apply _]. by apply save_session_closed.
Qed.

Global Instance append_override_note_closed id x n :
  Preserves (closed_in id) (append_override_note x n).
Proof.
  unfold append_override_note, with_context. destruct n as [t|]; [|apply _].
  apply preserves_map_err, with_store_lock_closed, load_existing_closed. intros s Hs.
  by apply save_session_closed.
Qed.

Global Instance touch_last_activity_closed id x : Preserves (closed_in id) (touch_last_activity x).
Proof.
  unfold touch_last_activity. apply with_store_lock_closed.
  apply (preserves_bind_when _ (λ r, ∀ s, r = Ok s → is_open s → s_id s ≠ id)).
  { intros w r w' Hw E. unfold st_try in E. destruct (load_session x w) as [r0 w0] eqn:El.
    apply load_session_inv in El as [-> El]. simplify_eq. split; [done|].
    intros a [= <-] s1 Es Ho Hid. destruct (El s1 Es) as [Hv Hl].
    destruct Hw as [Hok (s0 & Hl0 & Hn)].
    assert (s_id s1 = x) as Hx by (by eapply sessions_wf_id; [apply Hok|..]).
    rewrite <-Hx, Hid in Hl. congruence. }
  intros [s1|e] Hs; [|destruct (is_not_found e); apply _].
  case_decide; [|apply _]. apply preserves_bind; [apply _|]. intros now.
  apply save_session_closed. intros Ho. by apply (Hs s1).
Qed.

Global Instance delete_tasks_in_session_closed id x :
  Preserves (closed_in id) (delete_tasks_in_session x).
Proof. unfold delete_tasks_in_session. apply with_store_lock_closed. solve_frame. Qed.
End laws.
