(* ===== verification/TaskResolve.v ===== *)
(** * Names, ownership and the choice of a session
    (crates/llmenv-task/src/resolve.rs, ownership.rs, session_choice.rs)

    How a typed name becomes the slug of a stored task, who may act on it, and which
    session a new task joins. *)

From S2P Require Import Prelude RustStr Names Slug TaskData TaskStore Resume.
From S2P Require Import Relation Forest SessionStore.

(** ** Names *)

(** [pick]: an exact match wins, else the one slug that starts with [input]. *)
Definition pick (slugs : list string) (input : string) : result error (option string) :=
  if decide (input ∈ slugs) then Ok (Some input)
  else
    match filter (λ s, starts_with input s = true) slugs with
    | [] => Ok None
    | [s] => Ok (Some s)
    | matches => Err (EMsg (MManyTasks input (merge_sort str_le matches)))
    end.

(** ** Ownership: pure checks *)

Definition describe (c : Caller) : string :=
  match c with
  | CallerSession id => "session '" +:+ id +:+ "'"
  | Unidentified reason => "an unidentified caller (" +:+ reason +:+ ")"
  end.

(** [OverrideNote]. *)
Record OverrideNote := mkOverride { on_slug : string; on_text : string; on_owner_less : bool }.

Definition refuse_unless_caller (owner : string) (caller : Caller) (what : string)
  : result error unit :=
  match caller with
  | CallerSession id =>
    if decide (id = owner) then Ok tt
    else Err (EMsg (MNotCaller what ("your session is '" +:+ id +:+ "'")))
  | Unidentified reason => Err (EMsg (MNotCaller what reason))
  end.

Definition is_caller (owner : string) (caller : Caller) : Prop := caller = CallerSession owner.

(** [ownership::ownership_note]. *)
Definition task_ownership_note (slug : string) (task : Task) (caller : Caller)
    (other_session : option string) : result error (option OverrideNote) :=
  match t_session task with
  | None =>
    Ok (Some (mkOverride slug ("acted on a task with no session; caller: " +:+ describe caller) true))
  | Some owner =>
    if decide (caller = CallerSession owner) then Ok None
    else
      match other_session with
      | Some named =>
        if decide (named = owner) then
          Ok (Some (mkOverride slug
            ("acted on with --other-session " +:+ owner +:+ "; caller: " +:+ describe caller) false))
        else Err (EMsg (MWrongOther slug owner named))
      | None =>
        refuse_unless_caller owner caller
          ("task '" +:+ slug +:+ "' belongs to session '" +:+ owner +:+ "'");;
        Ok None
      end
  end.

Definition ensure_session_is_ours (session_id : string) (caller : Caller)
    (other_session : option string) : result error (option string) :=
  if decide (caller = CallerSession session_id) then Ok None
  else
    match other_session with
    | Some named =>
      if decide (named = session_id) then
        Ok (Some ("acted on with --other-session " +:+ session_id +:+ "; caller: " +:+ describe caller))
      else Err (EMsg (MWrongOtherSession session_id named))
    | None =>
      refuse_unless_caller session_id caller
        ("this command acts on session '" +:+ session_id +:+ "'");;
      Ok None
    end.

Definition check_takes_tasks (session : Session) (owner : EngineIdentity) : result error unit :=
  if may_take_tasks session (ei_session_id owner) then Ok tt
  else Err (EMsg (MForeignSession (s_id session))).

Definition ensure_parent_in_session (parent : option Task) (parent_slug : string)
    (child_session : option string) : result error unit :=
  match parent with
  | None => Err (EMsg (MParentNotFound parent_slug))
  | Some parent =>
    match t_session parent with
    | Some session =>
      if decide (Some session = child_session) then Ok tt
      else Err (EMsg (MParentOtherSession (t_slug parent) session))
    | None => Err (EMsg (MParentNoSession (t_slug parent)))
    end
  end.

Definition check_child_parent (parent : Task) (session_id : string) : result error unit :=
  if decide (t_state parent = Done) then Err (EMsg (MChildOfDone (t_slug parent)))
  else if decide (t_session parent = None) then Err (EMsg (MChildOfNoSession (t_slug parent) session_id))
  else if decide (t_session parent ≠ Some session_id) then Err (EMsg (MChildOtherSession (t_slug parent)))
  else Ok tt.

Definition check_owner_less_delete (caller : Caller) : result error unit :=
  match caller with
  | CallerSession _ => Ok tt
  | Unidentified reason => Err (EMsg (MOwnerLessDelete reason))
  end.

Section resolve.
Context `{Platform}.

Definition check_identifier (input : string) : M unit :=
  if is_valid_short_name input then mret tt else bail (MBadIdentifier input).

Definition preferred_sessions (owner : EngineIdentity) : M (list string) :=
  ss ← list_sessions_strict;
  let open := filter is_open ss in
  mret (match pick_open_session open owner with
        | Ok picked => [s_id picked]
        | Err _ => s_id <$> open
        end).

Definition resolve_with (input : string) (owner : EngineIdentity) (tasks : list Task) : M string :=
  preferred ← with_context (CListSessions input) (preferred_sessions owner);
  mine ← (if decide (preferred = []) then mret None
          else lift (pick (t_slug <$> filter (session_among preferred) tasks) input));
  match mine with
  | Some slug => mret slug
  | None =>
    d ← st_get w_tasks;
    if file_exists d (json_name input) then mret input
    else
      found ← lift (pick (t_slug <$> tasks) input);
      match found with
      | Some slug => mret slug
      | None => bail (MNoTask input)
      end
  end.

Definition resolve_in (input : string) (tasks : list Task) : M string :=
  owner ← from_env;
  resolve_with input owner tasks.

Definition resolve_identifier_for (input : string) (owner : EngineIdentity) : M string :=
  check_identifier input;;
  ts ← list_tasks_strict;
  resolve_with input owner ts.

Definition resolve_identifier (input : string) : M string :=
  owner ← from_env;
  resolve_identifier_for input owner.

(** [TaskTarget::check], [slug], [slug_in]. *)
Definition target_check (target : TaskTarget) : M unit :=
  match target with Input name | Resolved name => check_identifier name end.

Definition target_slug (target : TaskTarget) : M string :=
  match target with
  | Input input => resolve_identifier input
  | Resolved slug => check_identifier slug;; mret slug
  end.

Definition target_slug_in (target : TaskTarget) (tasks : list Task) : M string :=
  match target with
  | Input input => check_identifier input;; resolve_in input tasks
  | Resolved slug => check_identifier slug;; mret slug
  end.

(** ** Ownership *)

Definition caller_session (project : string) (owner : EngineIdentity) : M Caller :=
  open ← open_sessions_strict project;
  mret (match pick_open_session open owner with
        | Ok picked =>
          if may_take_tasks picked (ei_session_id owner) then CallerSession (s_id picked)
          else if decide (ei_session_id owner = None) then
            Unidentified ("the only open session '" +:+ s_id picked +:+
              "' belongs to another conversation, and this caller has no conversation id. Set CLAUDE_CODE_SESSION_ID")
          else
            Unidentified ("the only open session '" +:+ s_id picked +:+
              "' belongs to another conversation")
        | Err err =>
          Unidentified (default "no session of yours is open in this project"
            (ambiguity_message err "set CLAUDE_CODE_SESSION_ID, or pass --other-session <SESSION_ID>"))
        end).

Definition check_owned (all_tasks : list Task) (caller : Caller) (other_session : option string)
    (input : string) : M (string * option OverrideNote) :=
  slug ← resolve_in input all_tasks;
  task ← lift (ok_or (find_first (λ t, t_slug t = slug) all_tasks) (EMsg (MTaskNotInStore slug)));
  note ← lift (task_ownership_note slug task caller other_session);
  mret (slug, note).

Definition ensure_tasks_are_ours (inputs : list string) (caller : Caller)
    (other_session : option string) : M (list (string * option OverrideNote)) :=
  _ ← st_for check_identifier inputs;
  all_tasks ← list_tasks_strict;
  st_for (check_owned all_tasks caller other_session) inputs.

Definition ensure_task_is_ours (input : string) (caller : Caller) (other_session : option string)
  : M (string * option OverrideNote) :=
  checked ← ensure_tasks_are_ours [input] caller other_session;
  lift (ok_or (head checked) (EMsg (MNoTaskChecked input))).

Definition ensure_named_session_takes_tasks (session_id : string) (owner : EngineIdentity)
    (other_session : option string) : M bool :=
  sessions ← list_sessions_strict;
  match find_first (λ s, s_id s = session_id) sessions with
  | None => mret false
  | Some target =>
    if may_take_tasks target (ei_session_id owner) then mret false
    else if decide (other_session = Some session_id) then mret true
    else bail (MForeignSession session_id)
  end.

Definition record_owner_less_delete (caller : Caller) (slugs : list string) : M unit :=
  match caller with
  | CallerSession id =>
    let text_ := "Deleted tasks with no session: " +:+ join ", " slugs +:+ ". Caller: " +:+
                 describe caller +:+ "." in
    with_context (COwnerLessDelete id) (append_override_note id (Some text_))
  | Unidentified _ => lift (check_owner_less_delete caller)
  end.

(** ** The session of a new task (session_choice.rs) *)

Definition resolve_session_for_add (session : SessionChoice) (project : string) : M string :=
  match session with
  | Named id =>
    ss ← list_sessions_strict;
    if existsb (λ s, bool_decide (s_id s = id ∧ is_open s)) ss then mret id
    else bail (MNamedNotOpen id)
  | Checked s =>
    if decide (¬ is_open s ∨ s_project s ≠ project) then bail (MCheckedNotOpen (s_id s))
    else mret (s_id s)
  | Resolve owner =>
    open ← open_sessions_strict project;
    match pick_open_session open owner with
    | Ok s => lift (check_takes_tasks s owner);; mret (s_id s)
    | Err NoneOpen => bail MNoOpenSession
    | Err e =>
      bail (MAmbiguous (default "more than one session is open, so none was chosen"
        (ambiguity_message e "pass --session <id>, or see `llmenv task session ls`")))
    end
  end.
End resolve.
