(* ===== verification/TaskOps.v ===== *)
(** * The task commands (crates/llmenv-task/src/lib.rs, edit.rs, note.rs, reopen.rs,
    ancestors.rs, parent_chain.rs)

    Each command runs under the store lock: it reads the store, checks, changes task
    records and saves them; then it bumps the activity time of the task's session, which
    can fail without failing the command. *)

From S2P Require Import Prelude RustStr Names Slug TaskData TaskStore Blockers.
From S2P Require Import Resume Relation Forest SessionStore SessionFacts SessionLaws TaskResolve.

(** [resolve_note_index]: [id.parse::<usize>()], else the exact time of a note. *)
Definition resolve_note_index (notes : list TaskNote) (id : string) : result error nat :=
  match parse_unsigned u64_max id with
  | Some idx =>
    if decide (idx < N.of_nat (length notes))%N then Ok (N.to_nat idx)
    else Err (EMsg (MNoteRange idx (length notes)))
  | None => ok_or (position (λ n, n_at n = id) notes) (EMsg (MNoNote id))
  end.

(** [forced_close_text]; the [Debug] name of a state, in lower case, is its name. *)
Definition forced_close_text (prior : TaskState) (caller : Caller) : string :=
  "Closed by done --force from " +:+ as_str prior +:+ " (by " +:+ describe caller +:+ ").".

(** [Completed]. *)
Record Completed := mkCompleted {
  c_task : Task; c_prior : TaskState; c_undone_children : list string }.

Definition skipped_start_note (c : Completed) : option string :=
  if decide (c_prior c = Open) then
    Some ("Note: '" +:+ t_slug (c_task c) +:+
      "' was never started (open -> done); --force skipped the start. If its work is not finished, run `llmenv task start --reopen " +:+
      t_slug (c_task c) +:+ "`.")
  else None.
Definition undone_children_note (c : Completed) : option string :=
  if decide (c_undone_children c = []) then None
  else
    Some ("Note: '" +:+ t_slug (c_task c) +:+ "' was closed while its sub-tasks were not done (" +:+
      join ", " (c_undone_children c) +:+ "); --force skipped the check.").

(** The blockers of a task that are not met, with the text that [start_task] shows. *)
Fixpoint unmet_blockers (slug : string) (m : gmap string Task) (blockers : list string)
  : result error (list string) :=
  match blockers with
  | [] => Ok []
  | blocker :: blockers =>
    undone ← first_undone_in_subtree blocker slug m;
    unmet ← unmet_blockers slug m blockers;
    Ok (match undone with
        | None => unmet
        | Some u =>
          (if decide (u = blocker) then blocker
           else blocker +:+ " (its descendant '" +:+ u +:+ "' is not done)") :: unmet
        end)
  end.

(** [replace([':', '-'], "")]. *)
Fixpoint drop_chars (p : ascii → bool) (s : string) : string :=
  match s with
  | "" => ""
  | String c s => if p c then drop_chars p s else String c (drop_chars p s)
  end.
Definition timestamp_slug (now : string) : string :=
  "task-" +:+ drop_chars (λ c, Ascii.eqb c ":" || Ascii.eqb c "-") now.

(** The base of a new task's slug: a title with no ASCII letter or digit falls back to
    the time. *)
Definition task_base_slug (title now : string) : string :=
  if decide (slugify title = "") then timestamp_slug now else slugify title.

(** [mark_reopened]. *)
Definition mark_reopened (now command : string) (t : Task) : Task :=
  set_updated_at now
    (push_note now ("Reopened (`" +:+ command +:+ "`) after it was marked done.") (set_state Open t)).

Section ops.
Context `{Platform}.

(** [touch_task_session]: a failure is recorded, not reported. *)
Definition touch_task_session (task : Task) : M unit :=
  match t_session task with
  | Some session_id =>
    r ← st_try (touch_last_activity session_id);
    match r with
    | Ok _ => mret tt
    | Err e => record (NTouchFailed session_id e)
    end
  | None => mret tt
  end.

(** ** Adding *)

Definition parent_input (parent : ParentSpec) : option string :=
  match parent with Explicit p => Some p | Detached => None end.
Definition placement_input (placement : Placement) : option string :=
  match placement with PChild p => Some p | PQueue | PParallel => None end.

(** The names a new task refers to. *)
Definition add_names (new : NewTask) (parent : ParentSpec) : list string :=
  omap id [parent_input parent; placement_input (nt_placement new); nt_after new].

(** [resolve] of [add_task_for_session_with]: without a name there was no read. *)
Definition resolve_read (all_tasks : option (list Task)) (name : string) : M string :=
  match all_tasks with
  | Some all => resolve_in name all
  | None => bail (MStoreNotRead name)
  end.

Definition add_explicit_parent (all_tasks : option (list Task)) (parent : ParentSpec)
    (session_id : string) : M (option string) :=
  match parent with
  | Explicit p =>
    slug ← resolve_read all_tasks p;
    let parent_task := all_tasks ≫= find_first (λ t, t_slug t = slug) in
    lift (ensure_parent_in_session parent_task slug (Some session_id));;
    mret (Some slug)
  | Detached => mret None
  end.

Definition add_placement (all_tasks : option (list Task)) (placement : Placement)
    (explicit_parent : option string) (session_id : string)
  : M (option string * Relation * bool) :=
  match placement with
  | PQueue => mret (explicit_parent, Queued, false)
  | PParallel => mret (explicit_parent, Queued, true)
  | PChild p =>
    slug ← resolve_read all_tasks p;
    parent ← load_task slug;
    lift (check_child_parent parent session_id);;
    mret (Some slug, Child, false)
  end.

Definition add_task_for_session_with (new : NewTask) (parent : ParentSpec) (session_id : string)
  : M Task :=
  with_store_lock (
    let names := add_names new parent in
    _ ← st_for check_identifier names;
    all_tasks ← (if decide (names = []) then mret None
                 else ts ← list_tasks_strict; mret (Some ts));
    explicit_parent ← add_explicit_parent all_tasks parent session_id;
    '(parent_slug, relation, parallel) ←
      add_placement all_tasks (nt_placement new) explicit_parent session_id;
    blocked_on ← match nt_after new with
                 | Some after => s ← resolve_read all_tasks after; mret [s]
                 | None => mret []
                 end;
    now ← now_rfc3339;
    d ← st_get w_tasks;
    let slug := unique_slug d (task_base_slug (nt_title new) now) in
    let task := mkTask slug (nt_title new) Open parent_slug relation parallel blocked_on []
      (d ← nt_detail new; if decide (d = "") then None else Some d)
      (Some session_id) now now in
    save_task task;;
    mret task).

Definition add_task_with (new : NewTask) (parent : ParentSpec) (session : SessionChoice)
    (project : string) : M Task :=
  resolved_session ← resolve_session_for_add session project;
  task ← add_task_for_session_with new parent resolved_session;
  touch_task_session task;;
  mret task.

(** ** Starting *)

(** The loop of [ancestors_to_start]. Each turn adds a slug of a stored task to [seen],
    so [fuel] above the number of files is enough. *)
Fixpoint ancestors_loop (fuel : nat) (child : Task) (force : bool) (all_tasks : list Task)
    (seen : list string) (current : Task) (promoted : list Task) : M (list Task) :=
  match fuel with
  | 0 => mret promoted
  | S fuel =>
    if decide (t_relation current = Child) then
      match t_parent current with
      | None => bail (MSubTaskNoParent (t_slug child) (t_slug current))
      | Some parent_slug =>
        if decide (parent_slug ∈ seen) then bail (MAncestorLoop (t_slug child) parent_slug)
        else
          r ← st_try (load_task parent_slug);
          match r with
          | Err e =>
            if is_not_found e then bail (MParentMissing (t_slug child) parent_slug)
            else fail (ECtx (CAncestorUnreadable (t_slug child) parent_slug) e)
          | Ok parent =>
            if decide (t_state parent = Done ∧ force = false)
            then bail (MParentDone parent_slug (t_slug child))
            else
              promoted ←
                (if decide (t_state parent = Open) then
                   match (if force then None
                          else s ← t_session parent;
                               queue_block parent (tasks_in_sessions all_tasks [s])) with
                   | Some block => bail (MParentCannotStart (t_slug child) block)
                   | None => mret (promoted ++ [parent])
                   end
                 else mret promoted);
              ancestors_loop fuel child force all_tasks (seen ++ [parent_slug]) parent promoted
          end
      end
    else mret promoted
  end.

Definition ancestors_to_start (child : Task) (force : bool) (all_tasks : list Task)
  : M (list Task) :=
  d ← st_get w_tasks;
  ancestors_loop (S (S (size (d_files d)))) child force all_tasks [t_slug child] child [].

(** [for mut ancestor in promoted { .. save_task .. }]. *)
Fixpoint save_promoted (now : string) (promoted : list Task) : M unit :=
  match promoted with
  | [] => mret tt
  | ancestor :: promoted =>
    save_task (set_updated_at now (set_state Wip ancestor));;
    save_promoted now promoted
  end.

(** The checks of [start_task], in order. *)
Definition check_blockers (task : Task) (slug : string) (force : bool) (all_tasks : list Task)
  : M unit :=
  if decide (force = true ∨ t_blocked_on task = []) then mret tt
  else
    unmet ← lift (unmet_blockers slug (by_slug all_tasks) (t_blocked_on task));
    if decide (unmet = []) then mret tt else bail (MBlocked slug unmet).

Definition check_queue (task : Task) (force : bool) (all_tasks : list Task) : M unit :=
  match (if force then None
         else s ← t_session task; queue_block task (tasks_in_sessions all_tasks [s])) with
  | Some block => bail (MQueueBlock block)
  | None => mret tt
  end.

Definition start_task (target : TaskTarget) (force : bool) : M Task :=
  task ← with_store_lock (
    target_check target;;
    all_tasks ← list_tasks_strict;
    slug ← target_slug_in target all_tasks;
    task ← load_task slug;
    (if decide (t_state task = Done) then bail (MStartDone slug) else mret tt);;
    check_blockers task slug force all_tasks;;
    check_queue task force all_tasks;;
    promoted ← ancestors_to_start task force all_tasks;
    now ← now_rfc3339;
    save_promoted now promoted;;
    let task := set_updated_at now (set_state Wip task) in
    save_task task;;
    mret task);
  touch_task_session task;;
  mret task.

(** ** Finishing, waiting, deleting *)

Definition delete_task (target : TaskTarget) : M Task :=
  with_store_lock (
    slug ← target_slug target;
    task ← load_task slug;
    remove_file Tasks (json_name slug);;
    mret task).

Definition close_task (target : TaskTarget) (force : bool) (caller : option Caller) : M Completed :=
  completed ← with_store_lock (
    target_check target;;
    all_tasks ← list_tasks_strict;
    slug ← target_slug_in target all_tasks;
    task ← load_task slug;
    let prior := t_state task in
    (if decide (prior = Open ∧ force = false) then bail (MNeverStarted slug) else mret tt);;
    let undone := undone_descendants slug all_tasks in
    (if decide (force = false ∧ undone ≠ [])
     then bail (MUndoneChildren (undone_children_message slug undone)) else mret tt);;
    task ← (if decide (prior ≠ Done) then
              now ← now_rfc3339;
              let task := match caller with
                          | Some c => if force then push_note now (forced_close_text prior c) task
                                      else task
                          | None => task
                          end in
              let task := set_updated_at now (set_state Done task) in
              save_task task;;
              mret task
            else mret task);
    mret (mkCompleted task prior (t_slug <$> undone)));
  touch_task_session (c_task completed);;
  mret completed.

Definition complete_task (target : TaskTarget) (force : bool) : M Completed :=
  close_task target force None.
Definition complete_task_by (target : TaskTarget) (force : bool) (caller : Caller) : M Completed :=
  close_task target force (Some caller).

Definition wait_task (target : TaskTarget) (reason : string) : M Task :=
  task ← with_store_lock (
    slug ← target_slug target;
    task ← load_task slug;
    (if decide (t_state task = Done) then bail (MWaitDone slug) else mret tt);;
    now1 ← now_rfc3339;
    now2 ← now_rfc3339;
    let task := set_updated_at now2
      (push_note now1 ("Waiting: " +:+ reason) (set_state Waiting task)) in
    save_task task;;
    mret task);
  touch_task_session task;;
  mret task.

Definition block_task (target : TaskTarget) (on : string) : M Task :=
  with_store_lock (
    target_check target;;
    check_identifier on;;
    all_tasks ← list_tasks_strict;
    slug ← target_slug_in target all_tasks;
    on_slug ← resolve_in on all_tasks;
    (if decide (slug = on_slug) then bail (MSelfBlock slug) else mret tt);;
    task ← load_task slug;
    let task := if decide (on_slug ∈ t_blocked_on task) then task
                else set_blocked_on (t_blocked_on task ++ [on_slug]) task in
    now ← now_rfc3339;
    let task := set_updated_at now task in
    save_task task;;
    mret task).

Definition note_task (target : TaskTarget) (text_ : string) : M Task :=
  task ← with_store_lock (
    slug ← target_slug target;
    task ← load_task slug;
    now1 ← now_rfc3339;
    now2 ← now_rfc3339;
    let task := set_updated_at now2 (push_note now1 text_ task) in
    save_task task;;
    mret task);
  touch_task_session task;;
  mret task.

(** [OverrideNote::record]. *)
Definition record_override (n : OverrideNote) : M unit :=
  _ ← with_context (COverrideNote (on_slug n) (on_text n)) (note_task (Input (on_slug n)) (on_text n));
  mret tt.

(** ** Editing *)

(** The loop of [reject_cycle]. Each turn adds a stored slug to [visited], so [fuel]
    above the number of files is enough. *)
Fixpoint reject_cycle_loop (fuel : nat) (slug new_parent current : string)
    (visited : list string) : M unit :=
  match fuel with
  | 0 => mret tt
  | S fuel =>
    if decide (current = slug) then bail (MOwnAncestor new_parent slug)
    else if decide (current ∈ visited) then bail (MParentChainLoop slug new_parent current)
    else
      r ← st_try (load_task current);
      match r with
      | Err e =>
        if is_not_found e then bail (MParentChainMissing slug new_parent current)
        else fail (ECtx (CCheckParent new_parent slug current) e)
      | Ok task =>
        match t_parent task with
        | None => mret tt
        | Some parent => reject_cycle_loop fuel slug new_parent parent (current :: visited)
        end
      end
  end.

Definition reject_cycle (slug new_parent : string) : M unit :=
  d ← st_get w_tasks;
  reject_cycle_loop (S (S (size (d_files d)))) slug new_parent new_parent [].

Definition edit_parent (edit : TaskEdit) (slug : string) (all_tasks : list Task) (task : Task)
  : M Task :=
  match ed_parent edit with
  | Some parent_name =>
    parent_slug ← resolve_in parent_name all_tasks;
    (if decide (parent_slug = slug) then bail (MSelfParent slug) else mret tt);;
    let parent_task := find_first (λ t, t_slug t = parent_slug) all_tasks in
    lift (ensure_parent_in_session parent_task parent_slug (t_session task));;
    reject_cycle slug parent_slug;;
    mret (set_parent (Some parent_slug) task)
  | None => mret (if ed_no_parent edit then set_parent None task else task)
  end.

Fixpoint edit_block_on (slug : string) (all_tasks : list Task) (ons : list string) (task : Task)
  : M Task :=
  match ons with
  | [] => mret task
  | on :: ons =>
    on_slug ← resolve_in on all_tasks;
    (if decide (on_slug = slug) then bail (MSelfBlock slug) else mret tt);;
    edit_block_on slug all_tasks ons
      (if decide (on_slug ∈ t_blocked_on task) then task
       else set_blocked_on (t_blocked_on task ++ [on_slug]) task)
  end.

Fixpoint edit_unblock (all_tasks : list Task) (ons : list string) (task : Task) : M Task :=
  match ons with
  | [] => mret task
  | on :: ons =>
    on_slug ← resolve_in on all_tasks;
    edit_unblock all_tasks ons (set_blocked_on (filter (λ b, b ≠ on_slug) (t_blocked_on task)) task)
  end.

Definition edit_task (target : TaskTarget) (edit : TaskEdit) : M Task :=
  task ← with_store_lock (
    target_check target;;
    _ ← st_for check_identifier
          (option_list (ed_parent edit) ++ ed_block_on edit ++ ed_unblock edit);
    all_tasks ← list_tasks_strict;
    slug ← target_slug_in target all_tasks;
    task ← load_task slug;
    let task := match ed_title edit with Some title => set_title title task | None => task end in
    task ← edit_parent edit slug all_tasks task;
    task ← edit_block_on slug all_tasks (ed_block_on edit) task;
    task ← edit_unblock all_tasks (ed_unblock edit) task;
    task ← match ed_add_note edit with
           | Some text_ => now ← now_rfc3339; mret (push_note now text_ task)
           | None => mret task
           end;
    task ← match ed_delete_note edit with
           | Some id =>
             idx ← lift (resolve_note_index (t_notes task) id);
             mret (set_notes (delete idx (t_notes task)) task)
           | None => mret task
           end;
    let task := match ed_detail edit with
                | Some d => set_detail (if decide (d = "") then None else Some d) task
                | None => task
                end in
    now ← now_rfc3339;
    let task := set_updated_at now task in
    save_task task;;
    mret task);
  touch_task_session task;;
  mret task.

(** ** Reopening *)

Definition reopen_task (target : TaskTarget) : M Task :=
  task ← with_store_lock (
    slug ← target_slug target;
    task ← load_task slug;
    if decide (t_state task ≠ Done) then mret task
    else
      now ← now_rfc3339;
      let task := mark_reopened now "task start --reopen" task in
      save_task task;;
      mret task);
  touch_task_session task;;
  mret task.

(** The lookup loop of [reopen_targets]: a repeated name counts once. *)
Fixpoint load_targets (all_tasks : list Task) (targets : list TaskTarget) (tasks : list Task)
  : M (list Task) :=
  match targets with
  | [] => mret tasks
  | target :: targets =>
    slug ← target_slug_in target all_tasks;
    if decide (slug ∈ t_slug <$> tasks) then load_targets all_tasks targets tasks
    else task ← load_task slug; load_targets all_tasks targets (tasks ++ [task])
  end.

(** The loop of [refuse_done_parents]. *)
Fixpoint refuse_loop (named : list string) (open_parents : list string) (ts : list Task) : M unit :=
  match ts with
  | [] => mret tt
  | task :: ts =>
    match t_parent task with
    | None => refuse_loop named open_parents ts
    | Some parent_slug =>
      if decide (parent_slug ∈ open_parents ∨ parent_slug ∈ named)
      then refuse_loop named open_parents ts
      else
        parent ← with_context (CReopenParent parent_slug (t_slug task)) (load_task parent_slug);
        if decide (t_state parent = Done)
        then bail (MReopenDoneParent (t_slug task) parent_slug)
        else refuse_loop named (parent_slug :: open_parents) ts
    end
  end.
Definition refuse_done_parents (tasks : list Task) : M unit :=
  refuse_loop (t_slug <$> tasks) [] (filter (λ t, t_relation t = Child) tasks).

(** The save loop of [reopen_targets]. *)
Fixpoint reopen_loop (reopened : list string) (tasks : list Task) : M (list Task) :=
  match tasks with
  | [] => mret []
  | task :: tasks =>
    now ← now_rfc3339;
    let task := mark_reopened now "task reopen" task in
    with_context (CReopenSave (t_slug task) reopened) (save_task task);;
    rest ← reopen_loop (reopened ++ [t_slug task]) tasks;
    mret (task :: rest)
  end.

(** The sessions of the reopened tasks, each touched once. *)
Fixpoint touch_sessions (touched : list string) (tasks : list Task) : M unit :=
  match tasks with
  | [] => mret tt
  | task :: tasks =>
    match t_session task with
    | Some id =>
      if decide (id ∈ touched) then touch_sessions touched tasks
      else touch_task_session task;; touch_sessions (touched ++ [id]) tasks
    | None => touch_sessions touched tasks
    end
  end.

Definition reopen_targets (targets : list TaskTarget) : M (list Task) :=
  tasks ← with_store_lock (
    _ ← st_for target_check targets;
    all_tasks ← list_tasks_strict;
    tasks ← load_targets all_tasks targets [];
    let refused := filter (λ t, t_state t ≠ Done) tasks in
    (if decide (refused = []) then mret tt
     else bail (MReopenNotDone ((λ t, (t_slug t, t_state t)) <$> refused)));;
    refuse_done_parents tasks;;
    reopen_loop [] tasks);
  touch_sessions [] tasks;;
  mret tasks.

Definition reopen_resolved (slugs : list string) : M (list Task) :=
  reopen_targets (Resolved <$> slugs).
End ops.
