(* ===== verification/TaskFacts.v ===== *)
(** * Facts about the task commands

    Frames: what each command leaves alone and which invariants it keeps. [world_ok]
    (each file holds the record it is named for) and [closed_in] (a closed session
    stays closed) hold through every command, on the success and on the error path. *)

From S2P Require Import Prelude RustStr Names Slug TaskData TaskStore Blockers.
From S2P Require Import Resume Relation Forest SessionStore SessionFacts SessionLaws TaskResolve TaskOps.

Section frames.
Context `{HP : Platform, HL : !PlatformLaws}.

(** ** Reading commands *)

Global Instance from_env_stores : Keeps stores from_env.
Proof. unfold from_env. solve_frame. Qed.
Global Instance check_identifier_stores i : Keeps stores (check_identifier i).
Proof. unfold check_identifier. solve_frame. Qed.
Global Instance preferred_sessions_stores o : Keeps stores (preferred_sessions o).
Proof. unfold preferred_sessions. solve_frame. Qed.
Global Instance resolve_with_stores i o ts : Keeps stores (resolve_with i o ts).
Proof. unfold resolve_with, with_context. solve_frame. Qed.
Global Instance resolve_in_stores i ts : Keeps stores (resolve_in i ts).
Proof. unfold resolve_in. solve_frame. Qed.
Global Instance resolve_identifier_stores i : Keeps stores (resolve_identifier i).
Proof. unfold resolve_identifier, resolve_identifier_for, list_tasks_strict. solve_frame. Qed.
Global Instance target_check_stores t : Keeps stores (target_check t).
Proof. unfold target_check. solve_frame. Qed.
Global Instance target_slug_stores t : Keeps stores (target_slug t).
Proof. unfold target_slug. solve_frame. Qed.
Global Instance target_slug_in_stores t ts : Keeps stores (target_slug_in t ts).
Proof. unfold target_slug_in. solve_frame. Qed.
Global Instance list_tasks_strict_stores : Keeps stores list_tasks_strict.
Proof. unfold list_tasks_strict. apply _. Qed.
Global Instance resolve_session_for_add_stores s p : Keeps stores (resolve_session_for_add s p).
Proof. unfold resolve_session_for_add. solve_frame. Qed.
Global Instance caller_session_stores p o : Keeps stores (caller_session p o).
Proof. unfold caller_session. solve_frame. Qed.
Global Instance ensure_tasks_are_ours_stores l c o : Keeps stores (ensure_tasks_are_ours l c o).
Proof. unfold ensure_tasks_are_ours, check_owned. solve_frame. Qed.
Global Instance resolve_read_stores ts n : Keeps stores (resolve_read ts n).
Proof. unfold resolve_read. solve_frame. Qed.
Global Instance add_explicit_parent_stores ts p s : Keeps stores (add_explicit_parent ts p s).
Proof. unfold add_explicit_parent. solve_frame. Qed.
Global Instance add_placement_stores ts p e s : Keeps stores (add_placement ts p e s).
Proof. unfold add_placement. solve_frame. Qed.
Global Instance ancestors_loop_stores fuel c f ts seen cur pr :
  Keeps stores (ancestors_loop fuel c f ts seen cur pr).
Proof.
  revert seen cur pr. induction fuel as [|fuel IH]; intros seen cur pr;
    cbn [ancestors_loop]; solve_frame.
Qed.
Global Instance ancestors_to_start_stores c f ts : Keeps stores (ancestors_to_start c f ts).
Proof. unfold ancestors_to_start. solve_frame. Qed.
Global Instance check_blockers_stores t s f ts : Keeps stores (check_blockers t s f ts).
Proof. unfold check_blockers. solve_frame. Qed.
Global Instance check_queue_stores t f ts : Keeps stores (check_queue t f ts).
Proof. unfold check_queue. solve_frame. Qed.
Global Instance reject_cycle_loop_stores fuel s p c v : Keeps stores (reject_cycle_loop fuel s p c v).
Proof.
  revert c v. induction fuel as [|fuel IH]; intros c v; cbn [reject_cycle_loop]; solve_frame.
Qed.
Global Instance reject_cycle_stores s p : Keeps stores (reject_cycle s p).
Proof. unfold reject_cycle. solve_frame. Qed.
Global Instance edit_parent_stores e s ts t : Keeps stores (edit_parent e s ts t).
Proof. unfold edit_parent. solve_frame. Qed.
Global Instance edit_block_on_stores s ts ons t : Keeps stores (edit_block_on s ts ons t).
Proof. revert t. induction ons as [|o ons IH]; intros t; cbn [edit_block_on]; solve_frame. Qed.
Global Instance edit_unblock_stores ts ons t : Keeps stores (edit_unblock ts ons t).
Proof. revert t. induction ons as [|o ons IH]; intros t; cbn [edit_unblock]; solve_frame. Qed.
Global Instance load_targets_stores ts tg acc : Keeps stores (load_targets ts tg acc).
Proof. revert acc. induction tg as [|t tg IH]; intros acc; cbn [load_targets]; solve_frame. Qed.
Global Instance refuse_loop_stores n o ts : Keeps stores (refuse_loop n o ts).
Proof.
  revert o. induction ts as [|t ts IH]; intros o; cbn [refuse_loop]; unfold with_context; solve_frame.
Qed.
Global Instance refuse_done_parents_stores ts : Keeps stores (refuse_done_parents ts).
Proof. unfold refuse_done_parents. apply _. Qed.

(** ** Invariants of the writing commands *)

(** An invariant that every elementary write keeps. *)
Class StoreInvariant (P : world → Prop) := {
  si_stores {A} (m : M A) : Keeps stores m → Preserves P m;
  si_create k : Preserves P (create_dir k);
  si_save t : Preserves P (save_task t);
  si_remove name : Preserves P (remove_file Tasks name);
  si_touch id : Preserves P (touch_last_activity id) }.

Global Instance world_ok_store_invariant : StoreInvariant world_ok.
Proof. split; intros; apply _. Qed.
Global Instance closed_in_store_invariant id : StoreInvariant (closed_in id).
Proof. split; intros; apply _. Qed.

Section invariant.
Context (P : world → Prop) `{!StoreInvariant P}.

Local Instance si_stores_i {A} (m : M A) : Keeps stores m → Preserves P m | 10 := si_stores m.
Local Instance si_create_i k : Preserves P (create_dir k) := si_create k.
Local Instance si_save_i t : Preserves P (save_task t) := si_save t.
Local Instance si_remove_i n : Preserves P (remove_file Tasks n) := si_remove n.
Local Instance si_touch_i id : Preserves P (touch_last_activity id) := si_touch id.

Lemma with_store_lock_inv_P {A} (f : M A) : Preserves P f → Preserves P (with_store_lock f).
Proof. intros Hf. unfold with_store_lock, with_context. solve_frame. Qed.
Lemma touch_task_session_P t : Preserves P (touch_task_session t).
Proof. unfold touch_task_session. solve_frame. Qed.
Local Existing Instance touch_task_session_P.
Local Existing Instance with_store_lock_inv_P.

Lemma add_task_with_P n p s pr : Preserves P (add_task_with n p s pr).
Proof.
  unfold add_task_with, add_task_for_session_with. apply preserves_bind; [apply _|]. intros id.
  apply preserves_bind; [apply with_store_lock_inv_P; solve_frame|]. solve_frame.
Qed.
Lemma save_promoted_P now ts : Preserves P (save_promoted now ts).
Proof. induction ts as [|t ts IH]; cbn [save_promoted]; solve_frame. Qed.
Local Existing Instance save_promoted_P.
Lemma start_task_P t f : Preserves P (start_task t f).
Proof.
  unfold start_task. apply preserves_bind; [apply with_store_lock_inv_P; solve_frame|]. solve_frame.
Qed.
Lemma delete_task_P t : Preserves P (delete_task t).
Proof. unfold delete_task. apply with_store_lock_inv_P. solve_frame. Qed.
Lemma close_task_P t f c : Preserves P (close_task t f c).
Proof.
  unfold close_task. apply preserves_bind; [apply with_store_lock_inv_P; solve_frame|]. solve_frame.
Qed.
Lemma wait_task_P t r : Preserves P (wait_task t r).
Proof.
  unfold wait_task. apply preserves_bind; [apply with_store_lock_inv_P; solve_frame|]. solve_frame.
Qed.
Lemma block_task_P t o : Preserves P (block_task t o).
Proof. unfold block_task. apply with_store_lock_inv_P. solve_frame. Qed.
Lemma note_task_P t x : Preserves P (note_task t x).
Proof.
  unfold note_task. apply preserves_bind; [apply with_store_lock_inv_P; solve_frame|]. solve_frame.
Qed.
Lemma edit_task_P t e : Preserves P (edit_task t e).
Proof.
  unfold edit_task. apply preserves_bind; [apply with_store_lock_inv_P; solve_frame|]. solve_frame.
Qed.
Lemma reopen_task_P t : Preserves P (reopen_task t).
Proof.
  unfold reopen_task. apply preserves_bind; [apply with_store_lock_inv_P; solve_frame|]. solve_frame.
Qed.
Lemma reopen_loop_P acc ts : Preserves P (reopen_loop acc ts).
Proof.
  revert acc. induction ts as [|t ts IH]; intros acc; cbn [reopen_loop];
    unfold with_context; solve_frame.
Qed.
Local Existing Instance reopen_loop_P.
Lemma touch_sessions_P acc ts : Preserves P (touch_sessions acc ts).
Proof. revert acc. induction ts as [|t ts IH]; intros acc; cbn [touch_sessions]; solve_frame. Qed.
Local Existing Instance touch_sessions_P.
Lemma reopen_targets_P ts : Preserves P (reopen_targets ts).
Proof.
  unfold reopen_targets. apply preserves_bind; [apply with_store_lock_inv_P; solve_frame|].
  solve_frame.
Qed.
End invariant.

(** ** Reading prefixes *)

(** [quiet w0 w]: no file changed from [w0] to [w], and [w] is as well-formed. *)
Record quiet (w0 w : world) : Prop := {
  q_same : same_files w0 w;
  q_ok : world_ok w0 → world_ok w }.

Global Instance quiet_preorder : PreOrder quiet.
Proof.
  split; [intros w; by split|].
  intros w1 w2 w3 [? ?] [? ?]. split; [by etrans|auto].
Qed.
Lemma keeps_quiet {A} (m : M A) `{!Keeps stores m} w r w' : m w = (r, w') → quiet w w'.
Proof.
  intros E. split; [by eapply (keeps_stores_same_files m)|].
  intros Hok. by eapply (preserves_run world_ok m).
Qed.

Lemma bind_quiet {A B} (m : M A) (k : A → M B) w0 w r w' :
  quiet w0 w → Keeps stores m → (m ≫= k) w = (r, w') →
  (∃ e, r = Err e ∧ quiet w0 w') ∨
  ∃ a w1, m w = (Ok a, w1) ∧ quiet w0 w1 ∧ k a w1 = (r, w').
Proof.
  intros Hq Hm [(a & w1 & Ha & Hk)|(e & Ha & ->)]%st_bind_inv; apply keeps_quiet in Ha as Hq'; try done.
  - right. exists a, w1. split_and!; [done|by etrans|done].
  - left. exists e. split; [done|by etrans].
Qed.

Lemma lock_quiet {A} (f : M A) w r w' :
  with_store_lock f w = (r, w') →
  (∃ e, r = Err e ∧ quiet w w') ∨ ∃ w1, quiet w w1 ∧ f w1 = (r, w').
Proof.
  unfold with_store_lock, with_context. intros [([] & w1 & Hc & H)|(e & Hc & ->)]%st_bind_inv.
  - apply with_context_ok in Hc.
    assert (Hq : quiet w w1).
    { split; [by apply create_dir_files in Hc|]. by apply (create_dir_ok _ _ _ _ Hc). }
    apply (bind_quiet _ _ w) in H; [|done|apply _].
    destruct H as [?|(l & w2 & [= <- <-] & Hq' & H)]; [by left|]. destruct (w_lockable w1).
    + right. eauto.
    + left. unfold fail, st_fail in H. simplify_eq. eauto.
  - apply with_context_err in Hc as (e0 & Hc & _). left. exists e. split; [done|].
    split; [by apply create_dir_files in Hc|]. by apply (create_dir_ok _ _ _ _ Hc).
Qed.

(** A guard that passed. *)
Lemma guard_ok (P : Prop) `{!Decision P} m w u w' :
  (if decide P then bail m else mret tt : M unit) w = (Ok u, w') → ¬ P ∧ w' = w.
Proof. case_decide; [done|]. by intros [= _ <-]. Qed.

Lemma quiet_task w w' slug : quiet w w' → lookup_task w' slug = lookup_task w slug.
Proof. intros [Hf _]. by apply same_files_task. Qed.

(** The effect of one save on the map of tasks, and of one removal. *)
Definition wrote (slug : string) (t : Task) (w w' : world) : Prop :=
  is_valid_short_name slug = true ∧
  ∀ s, lookup_task w' s = if decide (s = slug) then Some t else lookup_task w s.
Definition removed (slug : string) (w w' : world) : Prop :=
  ∀ s, lookup_task w' s = if decide (s = slug) then None else lookup_task w s.

Lemma save_task_cases t w r w' :
  save_task t w = (r, w') →
  (∃ e, r = Err e ∧ same_files w w') ∨ r = Ok tt ∧ wrote (t_slug t) t w w'.
Proof.
  intros H. destruct r as [[]|e].
  - right. split; [done|]. split; [by apply save_task_ok in H as [? _]|].
    intros s. by apply lookup_task_save.
  - left. exists e. split; [done|]. apply save_task_spec in H as [? ?]. by split.
Qed.

Lemma save_tail {A} t (a : A) w r w' :
  (save_task t;; mret a) w = (r, w') →
  (∃ e, r = Err e ∧ same_files w w') ∨ r = Ok a ∧ wrote (t_slug t) t w w'.
Proof.
  intros [([] & w1 & Hs & [= <- <-])|(e & Hs & ->)]%st_bind_inv;
    apply save_task_cases in Hs as [(e' & ? & ?)|[? ?]]; try done; eauto.
Qed.

(** Touching a session leaves the task files alone. *)
Global Instance save_session_task_files s : Keeps task_files (save_session s).
Proof. intros w. destruct (save_session s w) eqn:E. by apply save_session_spec in E as [? _]. Qed.
Global Instance create_dir_task_files k : Keeps task_files (create_dir k).
Proof. intros w. destruct (create_dir k w) eqn:E. by apply create_dir_files in E as [? _]. Qed.
Global Instance stores_task_files {A} (m : M A) : Keeps stores m → Keeps task_files m | 10.
Proof. intros Hk w. unfold task_files. specialize (Hk w). unfold stores in Hk. by injection Hk as -> _. Qed.
Global Instance touch_last_activity_task_files id : Keeps task_files (touch_last_activity id).
Proof. unfold touch_last_activity, with_store_lock, with_context. solve_frame. Qed.
Global Instance touch_task_session_task_files t : Keeps task_files (touch_task_session t).
Proof. unfold touch_task_session. solve_frame. Qed.

Lemma task_files_lookup w w' s : task_files w' = task_files w → lookup_task w' s = lookup_task w s.
Proof. intros E. unfold lookup_task. by rewrite E. Qed.

(** A command that ends with touching the session: only its first part counts. *)
Lemma touch_tail {A} (m : M A) (f : A → Task) w r w' :
  (a ← m; touch_task_session (f a);; mret a) w = (r, w') →
  ∃ w1, m w = (r, w1) ∧ task_files w' = task_files w1.
Proof.
  intros [(a & w1 & Hm & H)|(e & Hm & ->)]%st_bind_inv; [|by eauto].
  exists w1. apply st_bind_inv in H as [([] & w2 & Ht & [= <- <-])|(e & Ht & _)].
  - split; [done|]. by apply (keeps_run task_files) in Ht; [|apply _].
  - exfalso. unfold touch_task_session in Ht. destruct (t_session (f a)); [|done].
    unfold mbind, st_bind, st_try in Ht. destruct (touch_last_activity s w1) as [[[]|e'] w2]; done.
Qed.
End frames.

(** Run one reading step of a command: it fails with no file changed, or gives a value. *)
Tactic Notation "qstep" ident(H) ident(Hq) "as" simple_intropattern(x) simple_intropattern(Hm) :=
  apply (bind_quiet _ _ _ _ _ _ Hq) in H; [|solve_frame];
  let Hq' := fresh in
  destruct H as [(? & -> & ?)|(x & ? & Hm & Hq' & H)];
  [first [by eauto using q_same | left; by apply q_same
         | left; split; [by eexists|by apply q_same]]|];
  clear Hq; rename Hq' into Hq.
