(* ===== verification/ParentLaws.v ===== *)
(** * Parent links: no loops

    [reject_cycle] decides whether a new parent is safe, and with it [edit_task] never
    makes a loop of parent links. *)

From S2P Require Import Prelude RustStr Names Slug TaskData TaskStore Blockers.
From S2P Require Import Resume Relation Forest SessionStore SessionFacts SessionLaws TaskResolve TaskOps.
From S2P Require Import TaskFacts.

Section parents.
Context `{HP : Platform, HL : !PlatformLaws}.

(** The task that [load_task slug] gives. *)
Definition stored (w : world) (slug : string) (t : Task) : Prop :=
  is_valid_short_name slug = true ∧ lookup_task w slug = Some t.

(** [parent_of w a b]: the stored task [a] has the parent link [b]. *)
Definition parent_of (w : world) (a b : string) : Prop :=
  ∃ t, stored w a t ∧ t_parent t = Some b.

(** The chain of parents of [a] ends at a stored task with no parent. *)
Definition chain_ends (w : world) (a : string) : Prop :=
  ∃ root t, rtc (parent_of w) a root ∧ stored w root t ∧ t_parent t = None.

Lemma load_task_stored slug w t w' :
  load_task slug w = (Ok t, w') ↔ w' = w ∧ stored w slug t.
Proof.
  split.
  - intros [-> H]%load_task_spec. split; [done|]. by apply H.
  - intros [-> [Hv Hl]]. by apply load_task_ok.
Qed.

Lemma stored_fun w a t t' : stored w a t → stored w a t' → t = t'.
Proof. intros [_ ?] [_ ?]. congruence. Qed.
Lemma stored_same w w' a t : same_files w w' → stored w' a t ↔ stored w a t.
Proof. intros Hf. unfold stored. by rewrite (same_files_task _ _ _ Hf). Qed.
Lemma stored_slug w a t : world_ok w → stored w a t → t_slug t = a.
Proof. intros Hok [Hv Hl]. by eapply tasks_wf_slug; [apply Hok|..]. Qed.

Lemma parent_of_fun w a b b' : parent_of w a b → parent_of w a b' → b = b'.
Proof. intros (t & Ht & Hb) (t' & Ht' & Hb'). pose proof (stored_fun _ _ _ _ Ht Ht'). congruence. Qed.

Lemma chain_ends_step w a b : parent_of w a b → chain_ends w a ↔ chain_ends w b.
Proof.
  intros Hab. split; intros (root & t & Hr & Ht & Hp); exists root, t.
  - split; [|done]. destruct Hr as [a|a b' root Hab' Hr].
    + destruct Hab as (t' & Ht' & Hp'). pose proof (stored_fun _ _ _ _ Ht Ht'). congruence.
    + by rewrite (parent_of_fun _ _ _ _ Hab Hab').
  - split; [by eapply rtc_l|done].
Qed.

Lemma chain_ends_no_loop w a : chain_ends w a → ¬ tc (parent_of w) a a.
Proof.
  intros (root & t & Hr & Ht & Hp). induction Hr as [a|a b root Hab Hr IH]; intros Hloop.
  - apply tc_inv_r in Hloop as (y & Hy & Hyr).
    destruct Hy as [|a x y Hax Hxy]; [destruct Hyr as (t' & Ht' & ?)|destruct Hax as (t' & Ht' & ?)];
      pose proof (stored_fun _ _ _ _ Ht Ht'); congruence.
  - apply (IH Ht). inversion Hloop as [? ? Haa|? x ? Hax Hxa]; subst.
    + rewrite (parent_of_fun _ _ _ _ Hab Haa) in *. by constructor.
    + rewrite (parent_of_fun _ _ _ _ Hab Hax) in *. eapply tc_r; [exact Hxa|done].
Qed.

(** A list of distinct stored slugs is not longer than the folder. *)
Lemma stored_bound w l :
  NoDup l → (∀ a, a ∈ l → ∃ t, stored w a t) → length l ≤ size (task_files w).
Proof.
  intros Hnd Hl. rewrite <-(length_fmap json_name l), <-size_dom.
  rewrite <-(size_list_to_set (C := gset string) (json_name <$> l)).
  - apply subseteq_size. intros x. rewrite elem_of_list_to_set, list_elem_of_fmap.
    intros (a & -> & Ha). destruct (Hl a Ha) as (t & _ & Ht). unfold lookup_task in Ht.
    apply bind_Some in Ht as (n & Hn & _). by apply elem_of_dom_2 in Hn.
  - apply NoDup_fmap_2; [apply _|done].
Qed.

Lemma reject_cycle_loop_ok fuel slug np cur visited w :
  NoDup visited → (∀ v, v ∈ visited → (∃ t, stored w v t) ∧ tc (parent_of w) v cur) →
  size (task_files w) + 1 < fuel + length visited →
  (reject_cycle_loop fuel slug np cur visited w = (Ok tt, w) ↔
   chain_ends w cur ∧ ¬ rtc (parent_of w) cur slug).
Proof.
  revert cur visited. induction fuel as [|fuel IH]; intros cur visited Hnd Hv Hf.
  { pose proof (stored_bound w visited Hnd (λ v H, proj1 (Hv v H))). simpl in Hf. lia. }
  cbn [reject_cycle_loop]. case_decide as Hc.
  { split; [done|]. intros [_ Hr]. destruct Hr. by subst. }
  case_decide as Hin.
  { split; [done|]. intros [Hr _]. destruct (Hv cur Hin) as [_ Hl]. by apply chain_ends_no_loop in Hl. }
  unfold st_try. unfold mbind at 1, st_bind. destruct (load_task cur w) as [[t|e] w1] eqn:El; last first.
  { apply load_task_spec in El as E; destruct E as [-> _]. split; [by destruct (is_not_found e)|].
    intros [(root & t & Hr & Ht & _) _]. exfalso.
    assert (∃ t', stored w cur t') as (t' & Ht').
    { destruct Hr as [|a b c (t' & Ht' & _) _]; eauto. }
    assert (load_task cur w = (Ok t', w)) by (by apply load_task_stored). congruence. }
  apply load_task_stored in El as [-> Ht]. destruct (t_parent t) as [p|] eqn:Hp; last first.
  { split; [|done]. intros _. split; [by exists cur, t|].
    intros Hr. destruct Hr as [|a b c (t' & Ht' & ?) _]; [done|].
    pose proof (stored_fun _ _ _ _ Ht Ht'). congruence. }
  assert (Hcp : parent_of w cur p) by (by exists t).
  rewrite IH.
  - rewrite (chain_ends_step _ _ _ Hcp). split; intros [? Hn]; (split; [done|]); intros Hr; apply Hn.
    + destruct Hr as [|a b c Hab Hr]; [done|]. by rewrite (parent_of_fun _ _ _ _ Hcp Hab).
    + by eapply rtc_l.
  - by constructor.
  - intros v [->|Hvv]%elem_of_cons; [split; [eauto|by constructor]|].
    destruct (Hv v Hvv) as [? Hl]. split; [done|]. by eapply tc_r.
  - simpl. lia.
Qed.

Lemma reject_cycle_ok slug np w :
  reject_cycle slug np w = (Ok tt, w) ↔ chain_ends w np ∧ ¬ rtc (parent_of w) np slug.
Proof.
  unfold reject_cycle. rewrite <-(reject_cycle_loop_ok (S (S (size (d_files (w_tasks w))))) slug np np [] w).
  - done.
  - constructor.
  - set_solver.
  - unfold task_files. simpl. lia.
Qed.

Lemma reject_cycle_loop_reads fuel slug np cur visited w :
  (reject_cycle_loop fuel slug np cur visited w).2 = w.
Proof.
  revert cur visited. induction fuel as [|fuel IH]; intros cur visited; cbn [reject_cycle_loop]; [done|].
  case_decide; [done|]. case_decide; [done|]. unfold st_try, mbind, st_bind.
  destruct (load_task cur w) as [[t|e] w1] eqn:El; apply load_task_spec in El as [-> _].
  - destruct (t_parent t); [apply IH|done].
  - by destruct (is_not_found e).
Qed.

Lemma reject_cycle_reads slug np w : (reject_cycle slug np w).2 = w.
Proof. apply reject_cycle_loop_reads. Qed.

(** C34: the loop check decides its specification, and ends. [reject_cycle] accepts a
    new parent exactly when the parent's chain of links ends at a stored task with no
    parent and does not pass through the task itself; it reads and never writes. *)
Theorem reject_cycle_correct (slug new_parent : string) (w : world) :
  (reject_cycle slug new_parent w).2 = w ∧
  ((reject_cycle slug new_parent w).1 = Ok tt ↔
   chain_ends w new_parent ∧ ¬ rtc (parent_of w) new_parent slug).
Proof.
  pose proof (reject_cycle_reads slug new_parent w) as Hw. split; [done|]. rewrite <-reject_cycle_ok. rewrite (surjective_pairing (reject_cycle _ _ w)) at 2.
  rewrite Hw. split; [by intros ->|congruence].
Qed.

(** ** Changing one parent link *)

(** Redirecting the link of one task cannot make a loop when the task is not above
    its new parent. *)
Lemma acyclic_redirect (R R' : relation string) slug :
  (∀ a b, a ≠ slug → R' a b → R a b) →
  (∀ p, R' slug p → ¬ rtc R p slug) →
  Irreflexive (tc R) → Irreflexive (tc R').
Proof.
  intros Hother Hslug Hirr.
  assert (Hpath : ∀ a, rtc R' a slug → rtc R a slug).
  { intros a Ha. induction Ha as [|a b c Hab Hbc IH]; [done|]. destruct (decide (a = c)) as [->|Hne]; [done|].
    eapply rtc_l; [by apply Hother|by apply IH]. }
  assert (Hns : ¬ tc R' slug slug).
  { intros Hl. inversion Hl as [? ? Hs|? p ? Hs Hp]; subst.
    - by destruct (Hslug slug Hs).
    - apply (Hslug p Hs), Hpath. by apply tc_rtc. }
  assert (Hsplit : ∀ x y, tc R' x y → tc R x y ∨ rtc R' x slug ∧ tc R' slug y).
  { intros x y Hxy. induction Hxy as [x y Hxy|x y z Hxy Hyz IH];
      (destruct (decide (x = slug)) as [->|Hne]; [right; split; [done|by econstructor]|]).
    - left. constructor. by apply Hother.
    - destruct IH as [IH|[IH1 IH2]]; [left; eapply tc_l; [by apply Hother|done]|].
      right. split; [by eapply rtc_l|done]. }
  intros a Ha. destruct (Hsplit a a Ha) as [Ha'|[H1 H2]]; [by apply (Hirr a)|].
  apply Hns. by eapply tc_rtc_r.
Qed.

(** ** Editing *)

(** What places a task: an edit changes no more of it than the parent link. *)
Definition place (t : Task) : string * Relation * TaskState := (t_slug t, t_relation t, t_state t).

Lemma edit_block_on_place slug ts ons t w t' w' :
  edit_block_on slug ts ons t w = (Ok t', w') → t_parent t' = t_parent t ∧ place t' = place t.
Proof.
  revert t w. induction ons as [|o ons IH]; intros t w; cbn [edit_block_on].
  { by intros [= <- _]. }
  intros (os & w1 & _ & H)%st_bind_ok. apply st_bind_ok in H as ([] & w2 & _ & H).
  apply IH in H as [-> ->]. by case_decide.
Qed.
Lemma edit_unblock_place ts ons t w t' w' :
  edit_unblock ts ons t w = (Ok t', w') → t_parent t' = t_parent t ∧ place t' = place t.
Proof.
  revert t w. induction ons as [|o ons IH]; intros t w; cbn [edit_unblock].
  { by intros [= <- _]. }
  intros (os & w1 & _ & H)%st_bind_ok. by apply IH in H as [-> ->].
Qed.

(** What an edit does to the parent link of the task it edits. *)
Definition edit_link (w : world) (slug : string) (old new : option string) : Prop :=
  new = old ∨ new = None ∨
  ∃ p, new = Some p ∧ chain_ends w p ∧ ¬ rtc (parent_of w) p slug.

Lemma parent_of_same w w' a b : same_files w w' → parent_of w' a b ↔ parent_of w a b.
Proof. intros Hf. unfold parent_of. by setoid_rewrite (stored_same _ _ _ _ Hf). Qed.

Lemma edit_parent_link e slug ts t w t' w' :
  edit_parent e slug ts t w = (Ok t', w') →
  edit_link w slug (t_parent t) (t_parent t') ∧ place t' = place t ∧
  (ed_parent e = None → t_parent t' = t_parent t ∨ t_parent t' = None).
Proof.
  unfold edit_parent. destruct (ed_parent e) as [pn|]; last first.
  { intros [= <- <-]. unfold edit_link, place. destruct (ed_no_parent e); simpl; auto. }
  intros (p & w1 & Hr & H)%st_bind_ok. apply keeps_quiet in Hr as Hq; [|apply _].
  apply st_bind_ok in H as ([] & w2 & [_ ->]%guard_ok & H).
  apply st_bind_ok in H as ([] & w3 & [= Hl <-] & H).
  apply st_bind_ok in H as ([] & w4 & Hc & [= <- <-]).
  assert (w4 = w1) as ->.
  { pose proof (reject_cycle_reads slug p w1) as Hw. by rewrite Hc in Hw. }
  split; [|done]. right. right. exists p. split; [done|].
  apply reject_cycle_ok in Hc as [(root & tr & Hrt & Hst & Hn) Hnr].
  pose proof (λ a b, parent_of_same w w1 a b (q_same _ _ Hq)) as Hpo. split.
  - exists root, tr. split_and!; [|by apply (stored_same _ _ _ _ (q_same _ _ Hq))|done].
    revert Hrt. apply rtc_subrel. intros a b. by rewrite Hpo.
  - intros Hps. apply Hnr. revert Hps. apply rtc_subrel. intros a b. by rewrite Hpo.
Qed.

Lemma edit_link_same w w' slug old new :
  same_files w w' → edit_link w' slug old new → edit_link w slug old new.
Proof.
  intros Hf [?|[?|(p & ? & (root & t & Hr & Ht & Hn) & Hnr)]]; [by left|by right; left|].
  pose proof (λ a b, parent_of_same w w' a b Hf) as Hpo. right. right. exists p. split_and!; [done| |].
  - exists root, t. split_and!; [|by apply (stored_same _ _ _ _ Hf)|done].
    revert Hr. apply rtc_subrel. intros a b. by rewrite Hpo.
  - intros Hps. apply Hnr. revert Hps. apply rtc_subrel. intros a b. by rewrite Hpo.
Qed.

(** An edit changes no file, or saves one task under its own slug with a safe link. *)
Lemma edit_task_inv target e w r w' :
  world_ok w → edit_task target e w = (r, w') →
  task_files w' = task_files w ∨
  ∃ slug t t', stored w slug t ∧ edit_link w slug (t_parent t) (t_parent t') ∧ place t' = place t ∧
    (ed_parent e = None → t_parent t' = t_parent t ∨ t_parent t' = None) ∧
    ∀ s, lookup_task w' s = if decide (s = slug) then Some t' else lookup_task w s.
Proof.
  intros Hok. unfold edit_task. intros (w1 & H & Ht)%(touch_tail _ (λ t, t)).
  cut (same_files w w1 ∨ ∃ slug t t', stored w slug t ∧
    edit_link w slug (t_parent t) (t_parent t') ∧ place t' = place t ∧
    (ed_parent e = None → t_parent t' = t_parent t ∨ t_parent t' = None) ∧
    ∀ s, lookup_task w1 s = if decide (s = slug) then Some t' else lookup_task w s).
  { intros [[? _]|(slug & t & t' & ? & ? & ? & ? & Hl)]; [left; congruence|]. right.
    exists slug, t, t'. split_and!; [done..|]. intros s. by rewrite (task_files_lookup _ _ _ Ht). }
  apply lock_quiet in H as [(e0 & -> & Hq)|(w2 & Hq & H)]; [left; by apply q_same|].
  qstep H Hq as _u Hm. clear Hm.
  qstep H Hq as _u2 Hm. clear Hm.
  qstep H Hq as ts Hm. clear Hm.
  qstep H Hq as slug Hm. clear Hm.
  pose proof Hq as Hq0. qstep H Hq as t Hst.
  apply load_task_stored in Hst as [-> Hst]. apply (stored_same _ _ _ _ (q_same _ _ Hq)) in Hst.
  set (t1 := match ed_title e with Some _ => _ | None => _ end) in H.
  assert (Ht1 : t_parent t1 = t_parent t ∧ place t1 = place t) by (unfold t1; by destruct (ed_title e)).
  pose proof Hq as Hq1. qstep H Hq as t2 Hep. apply edit_parent_link in Hep as (Hlink & Hs2 & Hkeep).
  qstep H Hq as t3 Hm. apply edit_block_on_place in Hm as [Hp3 Hs3].
  qstep H Hq as t4 Hm. apply edit_unblock_place in Hm as [Hp4 Hs4].
  qstep H Hq as t5 Hm.
  assert (t_parent t5 = t_parent t4 ∧ place t5 = place t4) as [Hp5 Hs5].
  { destruct (ed_add_note e); [|by injection Hm as <- _].
    apply st_bind_ok in Hm as (now & w6 & _ & [= <- _]). done. }
  clear Hm. qstep H Hq as t6 Hm.
  assert (t_parent t6 = t_parent t5 ∧ place t6 = place t5) as [Hp6 Hs6].
  { destruct (ed_delete_note e); [|by injection Hm as <- _].
    apply st_bind_ok in Hm as (idx & w6 & _ & [= <- _]). done. }
  clear Hm. set (t7 := match ed_detail e with Some _ => _ | None => _ end) in H.
  assert (Ht7 : t_parent t7 = t_parent t6 ∧ place t7 = place t6) by (unfold t7; by destruct (ed_detail e)).
  qstep H Hq as now Hm. clear Hm.
  set (t8 := set_updated_at now t7) in H.
  apply save_tail in H as [(e0 & _ & Hf)|[_ [_ Hw]]].
  { left. etrans; [apply (q_same _ _ Hq)|done]. }
  right. exists slug, t, t8. destruct Ht1 as [Hp1 Hs1], Ht7 as [Hp7 Hs7].
  assert (Hpl : place t8 = place t) by (change (place t8) with (place t7); congruence).
  assert (Hp8 : t_parent t8 = t_parent t2) by (change (t_parent t8) with (t_parent t7); congruence).
  assert (Hslug : t_slug t8 = slug).
  { pose proof (stored_slug _ _ _ Hok Hst). unfold place in Hpl. congruence. }
  rewrite Hslug in Hw. rewrite Hp8. split_and!; [done| |done| |].
  - rewrite <-Hp1. eapply edit_link_same; [|exact Hlink]. by apply q_same.
  - intros Hn. rewrite <-Hp1. by apply Hkeep.
  - intros s. by rewrite Hw, (quiet_task _ _ _ Hq).
Qed.

(** C33: editing never makes a loop. When no chain of parent links in the store loops,
    none does after [edit_task], whatever it edits and whether it succeeds or fails. *)
Theorem edit_task_acyclic (target : TaskTarget) (e : TaskEdit) (w w' : world) (r : result error Task) :
  world_ok w → Irreflexive (tc (parent_of w)) → edit_task target e w = (r, w') →
  Irreflexive (tc (parent_of w')).
Proof.
  intros Hok Hirr [Hf|(slug & t & t' & Hst & Hlink & _ & _ & Hl)]%edit_task_inv; [..|done].
  - intros a Ha. apply (Hirr a). revert Ha. apply (tc_congruence id). intros x y (tx & [Hv Hx] & Hp).
    exists tx. split; [|done]. split; [done|]. by rewrite <-(task_files_lookup _ _ _ Hf).
  - apply (acyclic_redirect (parent_of w) (parent_of w') slug); [..|done].
    + intros a b Hne (ta & [Hv Ha] & Hp). rewrite Hl, decide_False in Ha by done. by exists ta.
    + intros p (ta & [Hv Ha] & Hp). rewrite Hl, decide_True in Ha by done. injection Ha as <-.
      destruct Hlink as [E|[E|(p' & E & Hends & Hn)]]; [|congruence|congruence].
      intros Hr. apply (Hirr p). rewrite E in Hp. eapply tc_rtc_l; [exact Hr|]. constructor. by exists t.
Qed.
End parents.
