(* ===== verification/TaskLaws.v ===== *)
(** * What the task commands guarantee

    Starting, finishing and the other commands, on every branch: what they check,
    what they write, and what they leave alone. *)

From S2P Require Import Prelude RustStr Names Slug TaskData TaskStore Blockers.
From S2P Require Import Resume Relation Forest SessionStore SessionFacts SessionLaws TaskResolve TaskOps.
From S2P Require Import TaskFacts ParentLaws.

Section laws.
Context `{HP : Platform, HL : !PlatformLaws}.

(** [all] holds every stored task once: what a strict read gives. *)
Record listing (w : world) (all : list Task) : Prop := {
  li_nodup : NoDup (t_slug <$> all);
  li_in : ∀ t, t ∈ all ↔ stored w (t_slug t) t }.

Lemma list_tasks_strict_listing w all w' :
  world_ok w → list_tasks_strict w = (Ok all, w') → listing w all.
Proof.
  intros Hok H. apply read_tasks_strict_inv in H as [-> H].
  destruct (H all eq_refl Hok) as [Hnd Hin]. split; [done|]. intros t. by rewrite Hin.
Qed.
Lemma listing_same w w' all : same_files w w' → listing w' all → listing w all.
Proof. intros Hf [Hnd Hin]. split; [done|]. intros t. by rewrite Hin, (stored_same _ _ _ _ Hf). Qed.

(** The listing that a command read after [w] is the listing of [w]. *)
Lemma quiet_listing w w1 all w2 :
  world_ok w → quiet w w1 → list_tasks_strict w1 = (Ok all, w2) → listing w all.
Proof.
  intros Hok [Hf Hk] H. apply (listing_same w w1); [done|].
  by eapply list_tasks_strict_listing; [apply Hk|].
Qed.
Lemma quiet_stored w w1 slug t w2 :
  quiet w w1 → load_task slug w1 = (Ok t, w2) → stored w slug t.
Proof. intros [Hf _] [-> H]%load_task_stored. by apply (stored_same _ _ _ _ Hf). Qed.

(** ** The ancestors of a sub-task *)

(** [sub_of w a b]: the stored task [a] is a sub-task of [b]. *)
Definition sub_of (w : world) (a b : string) : Prop :=
  ∃ t, stored w a t ∧ t_relation t = Child ∧ t_parent t = Some b.

Lemma sub_of_fun w a b b' : sub_of w a b → sub_of w a b' → b = b'.
Proof. intros (t & Ht & _ & Hb) (t' & Ht' & _ & Hb'). pose proof (stored_fun _ _ _ _ Ht Ht'). congruence. Qed.

(** May this ancestor be put in progress? *)
Definition queue_free (all : list Task) (t : Task) : Prop :=
  ∀ s, t_session t = Some s → queue_block t (tasks_in_sessions all [s]) = None.

Record promotes (w : world) (force : bool) (all : list Task) (start : string) (new : list Task)
  : Prop := {
  pr_above : ∀ a, tc (sub_of w) start a →
    ∃ ta, stored w a ta ∧ (t_state ta = Done → force = true) ∧ (t_state ta = Open → ta ∈ new);
  pr_new : ∀ ta, ta ∈ new →
    stored w (t_slug ta) ta ∧ t_state ta = Open ∧ tc (sub_of w) start (t_slug ta) ∧
    (force = false → queue_free all ta) }.

Lemma tc_sub_of_step w a b c : sub_of w a b → tc (sub_of w) a c → c = b ∨ tc (sub_of w) b c.
Proof.
  intros Hab Hac. inversion Hac as [? ? H|? x ? H Hxc]; subst.
  - left. by eapply sub_of_fun.
  - right. by rewrite (sub_of_fun _ _ _ _ Hab H).
Qed.

Lemma ancestors_loop_ok fuel child force all seen cur promoted w pr w' :
  world_ok w → stored w (t_slug cur) cur →
  NoDup seen → (∀ a, a ∈ seen → ∃ t, stored w a t) →
  size (task_files w) + 1 < fuel + length seen →
  ancestors_loop fuel child force all seen cur promoted w = (Ok pr, w') →
  ∃ new, pr = promoted ++ new ∧ promotes w force all (t_slug cur) new ∧
         NoDup (t_slug <$> new) ∧ ∀ t, t ∈ new → t_slug t ∉ seen.
Proof.
  intros Hok. revert seen cur promoted. induction fuel as [|fuel IH];
    intros seen cur promoted Hst Hnd Hseen Hf; cbn [ancestors_loop].
  { pose proof (stored_bound w seen Hnd Hseen). simpl in Hf. lia. }
  case_decide as Hch; last first.
  { intros [= <- <-]. exists []. rewrite app_nil_r. split_and!; [done| |constructor|set_solver].
    split; [|set_solver]. intros a Ha. exfalso.
    assert (∃ b, sub_of w (t_slug cur) b) as (b & tb & Hb & Hr & _) by (inversion Ha; eauto).
    pose proof (stored_fun _ _ _ _ Hst Hb). congruence. }
  destruct (t_parent cur) as [p|] eqn:Hp; [|done]. case_decide as Hin; [done|].
  assert (Hsub : sub_of w (t_slug cur) p) by (by exists cur).
  unfold st_try. unfold mbind at 1, st_bind at 1.
  destruct (load_task p w) as [[par|e] w1] eqn:El; [|by destruct (is_not_found e)].
  apply load_task_stored in El as [-> Hpar]. case_decide as Hdone; [done|].
  intros (pr1 & w2 & Hpr & H)%st_bind_ok.
  assert (w2 = w ∧ pr1 = promoted ++ (if decide (t_state par = Open) then [par] else []) ∧
    (t_state par = Open → force = false → queue_free all par)) as (-> & -> & Hqf).
  { case_decide as Hop; [|injection Hpr as <- <-; by rewrite app_nil_r].
    destruct (if force then None else _) as [block|] eqn:Hb; [done|]. injection Hpr as <- <-.
    split_and!; [done..|]. intros _ -> s Hs. by rewrite Hs in Hb. }
  pose proof (stored_slug _ _ _ Hok Hpar) as Hps.
  assert (Hpst : stored w (t_slug par) par) by (by rewrite Hps).
  apply IH in H; [destruct H as (new & -> & [Habove Hnew] & Hndn & Hns)|done|..].
  2: { apply NoDup_app. split_and!; [done|set_solver|apply NoDup_singleton]. }
  2: { intros a [?|?]%elem_of_app; [by apply Hseen|]. exists par. set_solver. }
  2: { rewrite length_app. simpl. lia. }
  exists ((if decide (t_state par = Open) then [par] else []) ++ new).
    rewrite Hps in Habove, Hnew. split_and!; [by rewrite app_assoc| | |].
    + split.
      * intros a [->|Ha]%(tc_sub_of_step _ _ _ _ Hsub).
        -- exists par. split_and!; [done| |].
           ++ intros Hd. destruct force; tauto.
           ++ intros Ho. rewrite decide_True by done. set_solver.
        -- destruct (Habove a Ha) as (ta & ? & ? & ?). exists ta. split_and!; [done..|]. set_solver.
      * intros ta [Hta|Hta]%elem_of_app.
        -- case_decide as Hop; [|set_solver]. apply list_elem_of_singleton in Hta as ->.
           rewrite Hps. split_and!; [done|done|by constructor|by apply Hqf].
        -- destruct (Hnew ta Hta) as (? & ? & ? & ?). split_and!; try done. by eapply tc_l.
    + case_decide; [|done]. simpl. constructor; [|done].
      intros (t & Et & Ht)%list_elem_of_fmap. apply (Hns t Ht). rewrite <-Et, Hps. set_solver.
    + intros t [Ht|Ht]%elem_of_app; [|specialize (Hns t Ht); set_solver].
      case_decide; [|set_solver]. apply list_elem_of_singleton in Ht as ->. by rewrite Hps.
Qed.

Lemma ancestors_to_start_ok child force all w pr w' :
  world_ok w → stored w (t_slug child) child →
  ancestors_to_start child force all w = (Ok pr, w') →
  promotes w force all (t_slug child) pr ∧ NoDup (t_slug <$> pr) ∧
  ∀ t, t ∈ pr → t_slug t ≠ t_slug child.
Proof.
  intros Hok Hst. unfold ancestors_to_start. intros (d & w1 & [= <- <-] & H)%st_bind_ok.
  apply ancestors_loop_ok in H as (new & -> & Hpr & Hnd & Hns); try done.
  - split_and!; [done..|]. intros t Ht. specialize (Hns t Ht). set_solver.
  - apply NoDup_singleton.
  - intros a ->%list_elem_of_singleton. eauto.
  - unfold task_files. simpl. lia.
Qed.

Lemma promotes_same w w' force all a new :
  same_files w w' → promotes w' force all a new → promotes w force all a new.
Proof.
  intros Hf [Hab Hnew].
  assert (Hso : ∀ x y, sub_of w' x y ↔ sub_of w x y).
  { intros x y. unfold sub_of. by setoid_rewrite (stored_same _ _ _ _ Hf). }
  assert (Htc : ∀ x y, tc (sub_of w') x y ↔ tc (sub_of w) x y).
  { intros x y. split; apply (tc_congruence id); intros; by apply Hso. }
  split.
  - intros b Hb%Htc. destruct (Hab b Hb) as (tb & ? & ? & ?). exists tb.
    split_and!; [by apply (stored_same _ _ _ _ Hf)|done..].
  - intros t Ht. destruct (Hnew t Ht) as (? & ? & ? & ?).
    split_and!; [by apply (stored_same _ _ _ _ Hf)|done|by apply Htc|done].
Qed.

(** ** Starting *)

Lemma unmet_blockers_nil slug m bs :
  unmet_blockers slug m bs = Ok [] ↔
  ∀ b, b ∈ bs → first_undone_in_subtree b slug m = Ok None.
Proof.
  induction bs as [|b bs IH]; [split; [set_solver|done]|]. cbn [unmet_blockers].
  rewrite result_bind_ok. setoid_rewrite result_bind_ok. split.
  - intros (u & Hu & us & Hus & [= E]). destruct u as [u|]; [by destruct (decide _)|]. subst us.
    intros b' [->|Hb]%elem_of_cons; [done|]. by apply IH.
  - intros H. exists None. split; [apply H; set_solver|]. exists []. split; [|done].
    apply IH. intros. apply H. set_solver.
Qed.

(** The blockers of a task are met: each is stored and done with everything below it. *)
Definition blockers_met (all : list Task) (t : Task) : Prop :=
  ∀ b, b ∈ t_blocked_on t →
    let R := below (by_slug all) (t_slug t) in
    ¬ tc R b b ∧ ∀ x, rtc R b x → task_done (by_slug all) x.

Lemma check_blockers_ok t force all w u w' :
  check_blockers t (t_slug t) force all w = (Ok u, w') → force = false → blockers_met all t.
Proof.
  unfold check_blockers. intros H ->. case_decide as Hd.
  { destruct Hd as [|Hd]; [done|]. intros b. rewrite Hd. set_solver. }
  apply st_bind_ok in H as (unmet & w1 & [= Hu <-] & H). case_decide as Hn; [|done]. subst unmet.
  intros b Hb. apply first_undone_none; [apply keyed_by_slug|].
  by apply (proj1 (unmet_blockers_nil _ _ _) Hu).
Qed.

Lemma check_queue_ok t force all w u w' :
  check_queue t force all w = (Ok u, w') → force = false → queue_free all t.
Proof.
  unfold check_queue. intros H -> s Hs. rewrite Hs in H. simpl in H.
  by destruct (queue_block t (tasks_in_sessions all [s])).
Qed.

Definition to_wip (now : string) (t : Task) : Task := set_updated_at now (set_state Wip t).

Lemma save_promoted_lookup now ps w r w' :
  NoDup (t_slug <$> ps) → save_promoted now ps w = (r, w') →
  ∀ s, lookup_task w' s = lookup_task w s ∨
       ∃ t, t ∈ ps ∧ t_slug t = s ∧ lookup_task w' s = Some (to_wip now t).
Proof.
  revert w. induction ps as [|t ps IH]; intros w Hnd; cbn [save_promoted].
  { intros [= <- <-]. auto. }
  apply NoDup_cons in Hnd as [Hni Hnd].
  intros [([] & w1 & Hs & H)|(e & Hs & _)]%st_bind_inv s.
  - apply save_task_cases in Hs as [(? & ? & _)|[_ [_ Hw]]]; [done|].
    destruct (IH w1 Hnd H s) as [E|(t' & ? & ? & ?)]; [|right; exists t'; set_solver].
    rewrite E, Hw. case_decide as Hd; [|by left]. right. exists t. split_and!; [set_solver|done|done].
  - apply save_task_cases in Hs as [(? & _ & Hf)|[? _]]; [|done]. left. by apply same_files_task.
Qed.

Lemma save_promoted_ok now ps w w' :
  NoDup (t_slug <$> ps) → save_promoted now ps w = (Ok tt, w') →
  ∀ t, t ∈ ps → lookup_task w' (t_slug t) = Some (to_wip now t).
Proof.
  revert w. induction ps as [|t ps IH]; intros w Hnd; cbn [save_promoted]; [set_solver|].
  apply NoDup_cons in Hnd as [Hni Hnd]. intros ([] & w1 & Hs & H)%st_bind_ok t'.
  intros [->|Ht]%elem_of_cons; [|by eapply IH].
  apply save_task_cases in Hs as [(? & ? & _)|[_ [_ Hw]]]; [done|].
  destruct (save_promoted_lookup _ _ _ _ _ Hnd H (t_slug t)) as [->|(t' & Ht' & E & _)].
  - by rewrite Hw, decide_True.
  - destruct Hni. apply list_elem_of_fmap. eauto.
Qed.

(** The checks that a start passed before it writes. *)
Record start_checked (w : world) (force : bool) (slug : string) (t : Task) (all anc : list Task)
  : Prop := {
  sc_stored : stored w slug t;
  sc_not_done : t_state t ≠ Done;
  sc_listing : listing w all;
  sc_checks : force = false → blockers_met all t ∧ queue_free all t;
  sc_promotes : promotes w force all slug anc;
  sc_nodup : NoDup (t_slug <$> anc);
  sc_other : ∀ x, x ∈ anc → t_slug x ≠ slug }.

(** What a start does: it fails before it writes, or it passed every check. *)
Lemma start_task_inv target force w r w' :
  world_ok w → start_task target force w = (r, w') →
  ((∃ e, r = Err e) ∧ task_files w' = task_files w) ∨
  ∃ slug t all anc now w1 w2, start_checked w force slug t all anc ∧
    same_files w w1 ∧ task_files w' = task_files w2 ∧
    (save_promoted now anc;; save_task (to_wip now t);; mret (to_wip now t)) w1 = (r, w2).
Proof.
  intros Hok. unfold start_task. intros (w1 & H & Ht)%(touch_tail _ (λ t, t)).
  cut ((∃ e, r = Err e) ∧ same_files w w1 ∨
    ∃ slug t all anc now w0, start_checked w force slug t all anc ∧ same_files w w0 ∧
    (save_promoted now anc;; save_task (to_wip now t);; mret (to_wip now t)) w0 = (r, w1)).
  { intros [[? [? _]]|(slug & t & all & anc & now & w0 & H')]; [left; split; [done|congruence]|].
    right. exists slug, t, all, anc, now, w0, w1. tauto. }
  apply lock_quiet in H as [(e0 & -> & Hq)|(w2 & Hq & H)]; [left; split; [eauto|by apply q_same]|].
  qstep H Hq as _u Hm. clear Hm.
  pose proof Hq as Hq1. qstep H Hq as all Hall. apply (quiet_listing w) in Hall; [|done..].
  qstep H Hq as slug Hm. clear Hm.
  pose proof Hq as Hq2. qstep H Hq as t Hst. apply (quiet_stored w) in Hst; [|done].
  pose proof (stored_slug _ _ _ Hok Hst) as Hs.
  qstep H Hq as _u1 Hm. apply guard_ok in Hm as [Hnd _].
  qstep H Hq as _u2 Hbl. rewrite <-Hs in Hbl. pose proof (check_blockers_ok _ _ _ _ _ _ Hbl) as Hb.
  qstep H Hq as _u3 Hqu. pose proof (check_queue_ok _ _ _ _ _ _ Hqu) as Hqf.
  pose proof Hq as Hq3. qstep H Hq as anc Hanc.
  qstep H Hq as now Hm. clear Hm.
  apply ancestors_to_start_ok in Hanc as (Hpr & Hndp & Hne);
    [|by apply (q_ok _ _ Hq3)|rewrite Hs; by apply (stored_same _ _ _ _ (q_same _ _ Hq3))].
  right. exists slug, t, all, anc, now. eexists. split_and!; [|by apply (q_same _ _ Hq)|exact H].
  rewrite Hs in *. split; try done; [naive_solver|]. by eapply promotes_same; [apply (q_same _ _ Hq3)|].
Qed.

Lemma start_writes w1 w2 r now t anc :
  NoDup (t_slug <$> anc) → (∀ x, x ∈ anc → t_slug x ≠ t_slug t) →
  (save_promoted now anc;; save_task (to_wip now t);; mret (to_wip now t)) w1 = (r, w2) →
  (∀ s, lookup_task w2 s = lookup_task w1 s ∨
    ∃ x, (x = t ∨ x ∈ anc) ∧ t_slug x = s ∧ lookup_task w2 s = Some (to_wip now x)) ∧
  ∀ t', r = Ok t' → t' = to_wip now t ∧ lookup_task w2 (t_slug t) = Some t' ∧
    ∀ x, x ∈ anc → lookup_task w2 (t_slug x) = Some (to_wip now x).
Proof.
  intros Hnd Hne [([] & w3 & Hp & H)|(e & Hp & ->)]%st_bind_inv.
  - pose proof (save_promoted_ok _ _ _ _ Hnd Hp) as Hanc.
    pose proof (save_promoted_lookup _ _ _ _ _ Hnd Hp) as Hlk.
    apply save_tail in H as [(e & -> & Hf)|[-> [_ Hw]]].
    + split; [|done]. intros s. rewrite (same_files_task _ _ _ Hf).
      destruct (Hlk s) as [?|(x & ? & ? & ?)]; [by left|right; exists x; auto].
    + change (t_slug (to_wip now t)) with (t_slug t) in Hw. split.
      * intros s. rewrite Hw. case_decide as Hd; [right; exists t; auto|].
        destruct (Hlk s) as [?|(x & ? & ? & ?)]; [by left|right; exists x; auto].
      * intros t' [= <-]. rewrite Hw, decide_True by done. split_and!; [done..|].
        intros x Hx. rewrite Hw, decide_False by auto. auto.
  - split; [|done]. intros s.
    destruct (save_promoted_lookup _ _ _ _ _ Hnd Hp s) as [?|(x & ? & ? & ?)];
      [by left|right; exists x; auto].
Qed.

(** C4: starting a task. A start that succeeds acted on a stored task that was not
    done; unless forced, each of its blockers is done with its whole subtree, and the
    queue of its session lets it start. Every ancestor above it over sub-task links is
    stored, and done only under force; the open ones were free to start too. Exactly
    the task and its open ancestors are put in progress; every other task is as before. *)
Theorem start_task_correct (target : TaskTarget) (force : bool) (w w' : world) (t' : Task) :
  world_ok w → start_task target force w = (Ok t', w') →
  ∃ slug t (all anc : list Task) now,
    stored w slug t ∧ t_state t ≠ Done ∧ listing w all ∧ t' = to_wip now t ∧
    (force = false → blockers_met all t ∧ queue_free all t) ∧
    (∀ a, tc (sub_of w) slug a → ∃ ta, stored w a ta ∧
       (t_state ta = Done → force = true) ∧ (t_state ta = Open → ta ∈ anc)) ∧
    (∀ ta, ta ∈ anc → stored w (t_slug ta) ta ∧ t_state ta = Open ∧
       tc (sub_of w) slug (t_slug ta) ∧ (force = false → queue_free all ta)) ∧
    lookup_task w' slug = Some t' ∧
    (∀ ta, ta ∈ anc → lookup_task w' (t_slug ta) = Some (to_wip now ta)) ∧
    (∀ s, s ≠ slug → s ∉ t_slug <$> anc → lookup_task w' s = lookup_task w s).
Proof.
  intros Hok [[[e [=]] _]|(slug & t & all & anc & now & w1 & w2 & Hc & Hf & Ht & H)]%start_task_inv; [|done].
  destruct Hc as [Hst Hnd Hall Hchk [Hab Hnew] Hndp Hne].
  pose proof (stored_slug _ _ _ Hok Hst) as Hs. rewrite <-Hs in Hne.
  apply start_writes in H as [Hlk Hw]; [|done..]. destruct (Hw t' eq_refl) as (-> & Hl & Hanc).
  pose proof (λ s, task_files_lookup w2 w' s Ht) as Htl.
  exists slug, t, all, anc, now. split_and!; try done.
  - by rewrite Htl, <-Hs.
  - intros ta Hta. rewrite Htl. by apply Hanc.
  - intros s Hsn Hsa. rewrite Htl. destruct (Hlk s) as [->|(x & [->|Hx] & <- & _)].
    + by apply same_files_task.
    + congruence.
    + destruct Hsa. apply list_elem_of_fmap. eauto.
Qed.

(** A failed start. Whatever makes a start fail, each task is as it was, or it is
    the task or an open ancestor of it that was put in progress after every check had
    passed; no task is created, deleted, finished or reopened. *)
Theorem start_task_failed (target : TaskTarget) (force : bool) (w w' : world) (e : error) :
  world_ok w → start_task target force w = (Err e, w') →
  ∀ s, is_valid_short_name s = true →
    lookup_task w' s = lookup_task w s ∨
    ∃ x now, lookup_task w s = Some x ∧ lookup_task w' s = Some (to_wip now x) ∧ t_state x ≠ Done.
Proof.
  intros Hok [[_ Hf]|(slug & t & all & anc & now & w1 & w2 & Hc & Hf & Ht & H)]%start_task_inv s Hv; [..|done].
  { left. by apply task_files_lookup. }
  destruct Hc as [Hst Hnd Hall Hchk [Hab Hnew] Hndp Hne].
  pose proof (stored_slug _ _ _ Hok Hst) as Hs. rewrite <-Hs in Hne.
  apply start_writes in H as [Hlk _]; [|done..]. rewrite (task_files_lookup _ _ s Ht).
  destruct (Hlk s) as [->|(x & [->|Hx] & <- & ->)]; [left; by apply same_files_task|..].
  - right. exists t, now. rewrite Hs in *. destruct Hst as [_ Hst]. done.
  - right. destruct (Hnew x Hx) as ([_ Hl] & Ho & _). exists x, now. split_and!; [done..|congruence].
Qed.

(** ** Finishing *)

Definition closed_task (now : string) (force : bool) (caller : option Caller) (t : Task) : Task :=
  set_updated_at now (set_state Done
    (match caller with
     | Some c => if force then push_note now (forced_close_text (t_state t) c) t else t
     | None => t
     end)).

Record close_checked (w : world) (force : bool) (slug : string) (t : Task) (all : list Task) : Prop := {
  cc_stored : stored w slug t;
  cc_listing : listing w all;
  cc_checks : force = false → t_state t ≠ Open ∧ undone_descendants slug all = [] }.

Lemma closed_task_slug now force caller t : t_slug (closed_task now force caller t) = t_slug t.
Proof. unfold closed_task. by destruct caller, force. Qed.

Lemma close_save t (force : bool) (caller : option Caller) undone w r w' :
  (task ← ((if decide (t_state t ≠ Done) then
             now ← now_rfc3339;
             let task := match caller with
                         | Some c => if force then push_note now (forced_close_text (t_state t) c) t else t
                         | None => t
                         end in
             let task := set_updated_at now (set_state Done task) in
             save_task task;;
             mret task
           else mret t) : M Task);
   mret (mkCompleted task (t_state t) undone) : M Completed) w = (r, w') →
  ((∃ e, r = Err e) ∧ same_files w w') ∨
  ∃ c, r = Ok c ∧ c_prior c = t_state t ∧ c_undone_children c = undone ∧
    if decide (t_state t = Done) then c_task c = t ∧ same_files w w'
    else ∃ now, c_task c = closed_task now force caller t ∧
      ∀ s, lookup_task w' s = if decide (s = t_slug t) then Some (c_task c) else lookup_task w s.
Proof.
  intros H. destruct (decide (t_state t = Done)) as [Hd|Hd].
  { rewrite decide_False in H by tauto. injection H as <- <-. right. eexists. by split_and!. }
  rewrite decide_True in H by done. apply st_bind_inv in H as [(t' & w1 & Hm & [= <- <-])|(e & Hm & ->)].
  - apply st_bind_ok in Hm as (now & w2 & [= <- <-] & Hm). apply save_tail in Hm as [(? & ? & _)|[E [_ Hw]]]; [done|].
    injection E as ->. fold (closed_task (clock (w_tick w)) force caller t) in Hw |- *.
    right. eexists. split; [done|]. split; [done|]. split; [done|].
    exists (clock (w_tick w)). split; [done|]. intros s. simpl. rewrite Hw.
    by rewrite (closed_task_slug (clock (w_tick w)) force caller t).
  - left. split; [eauto|]. apply (bind_quiet _ _ w) in Hm; [|reflexivity|apply _].
    destruct Hm as [(? & _ & ?)|(now & w2 & _ & Hq & Hm)]; [by apply q_same|].
    apply save_tail in Hm as [(? & _ & Hf)|[? _]]; [|done].
    etrans; [apply (q_same _ _ Hq)|done].
Qed.

(** Every single-save command: it fails and changes no task file, or it saves. *)
Lemma close_task_inv target force caller w r w' :
  world_ok w → close_task target force caller w = (r, w') →
  ((∃ e, r = Err e) ∧ task_files w' = task_files w) ∨
  ∃ slug t all c, close_checked w force slug t all ∧ r = Ok c ∧ c_prior c = t_state t ∧
    c_undone_children c = t_slug <$> undone_descendants slug all ∧
    if decide (t_state t = Done) then c_task c = t ∧ task_files w' = task_files w
    else ∃ now, c_task c = closed_task now force caller t ∧
      ∀ s, lookup_task w' s = if decide (s = slug) then Some (c_task c) else lookup_task w s.
Proof.
  intros Hok. unfold close_task. intros (w1 & H & Ht)%(touch_tail _ c_task).
  cut ((∃ e, r = Err e) ∧ same_files w w1 ∨
    ∃ slug t all c, close_checked w force slug t all ∧ r = Ok c ∧ c_prior c = t_state t ∧
    c_undone_children c = t_slug <$> undone_descendants slug all ∧
    if decide (t_state t = Done) then c_task c = t ∧ same_files w w1
    else ∃ now, c_task c = closed_task now force caller t ∧
      ∀ s, lookup_task w1 s = if decide (s = slug) then Some (c_task c) else lookup_task w s).
  { intros [[? [? _]]|(slug & t & all & c & ? & ? & ? & ? & Hc)]; [left; split; [done|congruence]|].
    right. exists slug, t, all, c. split_and!; try done. case_decide.
    - destruct Hc as [? [? _]]. split; [done|congruence].
    - destruct Hc as (now & ? & Hc). exists now. split; [done|]. intros s.
      by rewrite (task_files_lookup _ _ s Ht). }
  apply lock_quiet in H as [(e0 & -> & Hq)|(w2 & Hq & H)]; [left; split; [eauto|by apply q_same]|].
  qstep H Hq as _u Hm. clear Hm.
  pose proof Hq as Hq1. qstep H Hq as all Hall. apply (quiet_listing w) in Hall; [|done..].
  qstep H Hq as slug Hm. clear Hm.
  pose proof Hq as Hq2. qstep H Hq as t Hst. apply (quiet_stored w) in Hst; [|done].
  pose proof (stored_slug _ _ _ Hok Hst) as Hs.
  qstep H Hq as _u1 Hm. apply guard_ok in Hm as [Hg1 _].
  qstep H Hq as _u2 Hm. apply guard_ok in Hm as [Hg2 _].
  assert (Hcc : close_checked w force slug t all).
  { split; [done..|]. intros ->. split; [tauto|].
    destruct (decide (undone_descendants slug all = [])); tauto. }
  apply close_save in H as [H|(c & -> & Hp & Hu & H)].
  { left. destruct H as [? Hf]. split; [done|]. etrans; [by apply (q_same _ _ Hq)|done]. }
  right. exists slug, t, all, c. split_and!; try done. case_decide.
  - destruct H as [? Hf]. split; [done|]. etrans; [by apply (q_same _ _ Hq)|done].
  - destruct H as (now & ? & H). exists now. split; [done|]. intros s.
    by rewrite H, Hs, (quiet_task _ _ _ Hq).
Qed.

(** C5: finishing a task. A finish that succeeds stored the task as done. Unless
    forced, the task had been started and no stored sub-task below it, at any depth,
    was unfinished. Finishing a finished task changes nothing; a forced close by a named
    caller leaves a note with the caller and the prior state; no other task changes. *)
Theorem close_task_correct (target : TaskTarget) (force : bool) (caller : option Caller)
    (w w' : world) (c : Completed) :
  world_ok w → close_task target force caller w = (Ok c, w') →
  ∃ slug t, stored w slug t ∧ stored w' slug (c_task c) ∧
    t_state (c_task c) = Done ∧ c_prior c = t_state t ∧
    (force = false → t_state t ≠ Open ∧ c_undone_children c = [] ∧
       ∀ s x, stored w s x → s ≠ slug → rtc (flip (sub_of w)) slug s → t_state x = Done) ∧
    (t_state t = Done → c_task c = t ∧ task_files w' = task_files w) ∧
    (∀ who, t_state t ≠ Done → force = true → caller = Some who →
       ∃ now, t_notes (c_task c) = t_notes t ++ [mkNote now (forced_close_text (t_state t) who)]) ∧
    (∀ s, s ≠ slug → lookup_task w' s = lookup_task w s).
Proof.
  intros Hok [[[e [=]] _]|(slug & t & all & c' & [Hst Hall Hchk] & [= <-] & Hp & Hu & H)]%close_task_inv; [|done].
  exists slug, t. destruct Hst as [Hv Hst]. split; [done|].
  assert (Hfree : force = false → t_state t ≠ Open ∧ c_undone_children c = [] ∧
       ∀ s x, stored w s x → s ≠ slug → rtc (flip (sub_of w)) slug s → t_state x = Done).
  { intros ->. destruct (Hchk eq_refl) as [? Hnil]. rewrite Hu, Hnil. split_and!; [done..|].
    intros s x Hx Hne Hr. destruct (decide (t_state x = Done)) as [|Hd]; [done|]. exfalso.
    pose proof (stored_slug _ _ _ Hok Hx) as Hsx. assert (Hin : x ∈ undone_descendants slug all).
    { apply elem_of_undone_descendants; [apply Hall|]. rewrite Hsx. split_and!; try done.
      - apply Hall. by rewrite Hsx.
      - revert Hr. apply rtc_subrel. intros a b (tb & Hb & Hc & Hpb). exists tb.
        pose proof (stored_slug _ _ _ Hok Hb) as Hsb. split_and!; try done.
        apply Hall. by rewrite Hsb. }
    rewrite Hnil in Hin. by apply elem_of_nil in Hin. }
  case_decide as Hd.
  - destruct H as [-> Hf]. split_and!; try done; [|by intros; apply task_files_lookup].
    split; [done|]. by rewrite (task_files_lookup _ _ _ Hf).
  - destruct H as (now & Hc & Hl). split_and!; try done.
    + split; [done|]. by rewrite Hl, decide_True.
    + by rewrite Hc.
    + intros who _ -> ->. exists now. by rewrite Hc.
    + intros s Hs. by rewrite Hl, decide_False.
Qed.

(** ** Adding *)

(** Where a new task sits, as the request says. *)
Definition placed (w : world) (placement : Placement) (session_id : string) (t : Task) : Prop :=
  match placement with
  | PQueue => t_relation t = Queued ∧ t_parallel t = false
  | PParallel => t_relation t = Queued ∧ t_parallel t = true
  | PChild _ => t_relation t = Child ∧ t_parallel t = false ∧
      ∃ p tp, t_parent t = Some p ∧ stored w p tp ∧ t_state tp ≠ Done ∧ t_session tp = Some session_id
  end.

Lemma check_child_parent_ok p sid : check_child_parent p sid = Ok tt →
  t_state p ≠ Done ∧ t_session p = Some sid.
Proof.
  unfold check_child_parent. repeat case_decide; done.
Qed.

Lemma add_placement_ok all pl ep sid w w1 x w2 t :
  quiet w w1 → add_placement all pl ep sid w1 = (Ok x, w2) →
  t_parent t = x.1.1 → t_relation t = x.1.2 → t_parallel t = x.2 → placed w pl sid t.
Proof.
  intros Hq H Hp Hr Hpa. unfold placed. destruct pl as [| |p]; simpl in H.
  - injection H as <- _. done.
  - injection H as <- _. done.
  - apply st_bind_ok in H as (slug & w3 & Hs & H). apply keeps_quiet in Hs as Hq2; [|apply _].
    apply st_bind_ok in H as (tp & w4 & Hl & H).
    apply (quiet_stored w) in Hl; [|by etrans].
    apply st_bind_ok in H as ([] & w5 & [= Hc _] & [= <- _]).
    apply check_child_parent_ok in Hc as [? ?]. simpl in *. split_and!; [done..|]. eauto 10.
Qed.

(** The parent link of a new task, as the request says. A sub-task's link is part of [placed]. *)
Definition linked (w : world) (new : NewTask) (parent : ParentSpec) (session_id : string) (t : Task) : Prop :=
  match nt_placement new, parent with
  | PChild _, _ => True
  | _, Detached => t_parent t = None
  | _, Explicit _ => ∃ p tp, t_parent t = Some p ∧ stored w p tp ∧ t_session tp = Some session_id
  end.

Lemma ensure_parent_in_session_ok parent slug sid u : ensure_parent_in_session parent slug (Some sid) = Ok u →
  ∃ p, parent = Some p ∧ t_session p = Some sid.
Proof.
  unfold ensure_parent_in_session. destruct parent as [p|]; [|done]. destruct (t_session p) eqn:?; [|done].
  case_decide; [|done]. intros _. exists p. by split; [|congruence].
Qed.

(** The parent that a request names is a stored task of the session. *)
Lemma add_explicit_parent_ok w w1 all p sid ep w2 :
  (∀ ts, all = Some ts → listing w ts) → add_explicit_parent all (Explicit p) sid w1 = (Ok ep, w2) →
  ∃ slug tp, ep = Some slug ∧ stored w slug tp ∧ t_session tp = Some sid.
Proof.
  intros Hall H. simpl in H. apply st_bind_ok in H as (slug & w3 & _ & H).
  apply st_bind_ok in H as ([] & w5 & [= Hc _] & [= <- _]).
  apply ensure_parent_in_session_ok in Hc as (tp & Htp & Hs).
  destruct all as [ts|]; [|done]. simpl in Htp. apply find_first_Some in Htp as [Hin <-].
  exists (t_slug tp), tp. split_and!; [done| |done]. by apply (li_in _ _ (Hall _ eq_refl)).
Qed.

(** What an add does: it changes no task file, or it writes one new file. *)
Lemma add_task_inv new parent sc project w r w' :
  world_ok w → add_task_with new parent sc project w = (r, w') →
  ((∃ e, r = Err e) ∧ task_files w' = task_files w) ∨
  ∃ t sid, r = Ok t ∧ placed w (nt_placement new) sid t ∧
    file_exists (w_tasks w) (json_name (t_slug t)) = false ∧
    t_state t = Open ∧ t_title t = nt_title new ∧ t_session t = Some sid ∧ t_notes t = [] ∧
    is_valid_short_name (t_slug t) = true ∧
    linked w new parent sid t ∧
    ∀ s, lookup_task w' s = if decide (s = t_slug t) then Some t else lookup_task w s.
Proof.
  intros Hok H. unfold add_task_with in H. pose proof (reflexivity w : quiet w w) as Hq.
  apply (bind_quiet _ _ _ _ _ _ Hq) in H as [(e & -> & Hf)|(sid & w1 & _ & Hq1 & H)]; [..|apply _].
  { left. split; [eauto|]. by destruct (q_same _ _ Hf). }
  clear Hq. apply (touch_tail _ (λ t, t)) in H as (w2 & H & Ht).
  cut ((∃ e, r = Err e) ∧ same_files w w2 ∨
    ∃ t sid, r = Ok t ∧ placed w (nt_placement new) sid t ∧
    file_exists (w_tasks w) (json_name (t_slug t)) = false ∧
    t_state t = Open ∧ t_title t = nt_title new ∧ t_session t = Some sid ∧ t_notes t = [] ∧
    is_valid_short_name (t_slug t) = true ∧
    linked w new parent sid t ∧
    ∀ s, lookup_task w2 s = if decide (s = t_slug t) then Some t else lookup_task w s).
  { intros [[? [? _]]|(t & sid' & H')]; [left; split; [done|congruence]|].
    right. exists t, sid'. destruct H' as (?&?&?&?&?&?&?&?&?&Hl). split_and!; try done.
    intros s. by rewrite (task_files_lookup _ _ s Ht). }
  clear Ht w'. unfold add_task_for_session_with in H.
  apply lock_quiet in H as [(e0 & -> & Hq)|(w3 & Hq & H)].
  { left. split; [eauto|]. by etrans; [apply (q_same _ _ Hq1)|apply (q_same _ _ Hq)]. }
  pose proof (transitivity Hq1 Hq) as Hqq. clear Hq Hq1. rename Hqq into Hq.
  qstep H Hq as _u Hm. clear Hm.
  pose proof Hq as Hq0. qstep H Hq as all Hm.
  assert (Hall : ∀ ts, all = Some ts → listing w ts).
  { intros ts ->. case_decide; [done|]. apply st_bind_ok in Hm as (ts' & w5 & Hm & [= <- _]).
    by apply (quiet_listing _ _ _ _ Hok Hq0 Hm). }
  clear Hm Hq0. qstep H Hq as ep Hep.
  pose proof Hq as Hq2. qstep H Hq as pl Hpl. destruct pl as [[ps rel] par].
  qstep H Hq as bo Hm. clear Hm.
  qstep H Hq as now Hm. clear Hm.
  pose proof Hq as Hq3. qstep H Hq as d Hm. injection Hm as <- _.
  set (t := mkTask _ _ _ _ _ _ _ _ _ _ _ _) in H.
  apply save_tail in H as [(e0 & -> & Hf)|[-> [Hv Hw]]].
  { left. split; [eauto|]. etrans; [apply (q_same _ _ Hq)|done]. }
  right. exists t, sid. destruct (unique_slug_spec (w_tasks x4) (task_base_slug (nt_title new) now)) as [Hfree _].
  split_and!; try done.
  - by eapply (add_placement_ok _ _ _ _ _ _ _ _ t Hq2 Hpl).
  - unfold file_exists in *. destruct (q_same _ _ Hq3) as [Hf _]. unfold task_files in Hf. by rewrite <-Hf.
  - unfold linked. destruct (nt_placement new) as [| |q]; [..|done].
    all: injection Hpl as <- _; destruct parent as [p|]; [|by injection Hep as <- _].
    all: apply (add_explicit_parent_ok _ _ _ _ _ _ _ Hall) in Hep as (? & ? & ? & ?); eauto.
  - intros s. by rewrite Hw, (quiet_task _ _ _ Hq).
Qed.

(** C6: adding a task. An add that succeeds writes one new open task, under a name
    whose file did not exist, in a session, placed as asked; a sub-task's parent is
    stored, unfinished and in the same session, and a parent that the request names is
    stored and in the same session. Every other task is as before; and an
    add that fails changes no task file. *)
Theorem add_task_correct (new : NewTask) (parent : ParentSpec) (sc : SessionChoice)
    (project : string) (w w' : world) (r : result error Task) :
  world_ok w → add_task_with new parent sc project w = (r, w') →
  match r with
  | Ok t => ∃ sid, placed w (nt_placement new) sid t ∧
      file_exists (w_tasks w) (json_name (t_slug t)) = false ∧
      t_state t = Open ∧ t_title t = nt_title new ∧ t_session t = Some sid ∧ t_notes t = [] ∧
      linked w new parent sid t ∧
      stored w' (t_slug t) t ∧
      ∀ s, s ≠ t_slug t → lookup_task w' s = lookup_task w s
  | Err _ => task_files w' = task_files w
  end.
Proof.
  intros Hok [[[e ->] Hf]|(t & sid & -> & H)]%add_task_inv; [done| |done].
  destruct H as (?&?&?&?&?&?&?&?&Hl). exists sid. split_and!; try done.
  - split; [done|]. by rewrite Hl, decide_True.
  - intros s Hs. by rewrite Hl, decide_False.
Qed.
End laws.
