(* ===== verification/System.v ===== *)
(** * The tracker as a state machine

    All commands of the tracker as steps on the world, with the changes that happen
    around it, and the invariants that hold in every reachable world. *)

From S2P Require Import Prelude RustStr Names Slug TaskData TaskStore Blockers.
From S2P Require Import Resume Relation Forest SessionStore SessionFacts SessionLaws TaskResolve TaskOps.
From S2P Require Import TaskFacts ParentLaws TaskLaws.

(** The commands of the tracker that write. *)
Inductive command :=
| Add (new : NewTask) (parent : ParentSpec) (session : SessionChoice) (project : string)
| Start (target : TaskTarget) (force : bool)
| Finish (target : TaskTarget) (force : bool) (caller : option Caller)
| Wait (target : TaskTarget) (reason : string)
| Block (target : TaskTarget) (on : string)
| Note (target : TaskTarget) (text_ : string)
| Edit (target : TaskTarget) (edit : TaskEdit)
| Delete (target : TaskTarget)
| Reopen (target : TaskTarget)
| ReopenAll (targets : list TaskTarget)
| SessionStart (request : StartRequest) (decision : StartDecision)
| SessionFinish (id : string) (abandon_open : bool)
| SessionEdit (id : string) (change : ResumeContext → ResumeContext)
| SessionNote (id : string) (note : option string)
| SessionClear (id : string).

Section system.
Context `{HP : Platform, HL : !PlatformLaws}.

Definition void {A} (m : M A) : M unit := _ ← m; mret tt.

Definition run (c : command) : M unit :=
  match c with
  | Add new parent session project => void (add_task_with new parent session project)
  | Start target force => void (start_task target force)
  | Finish target force caller => void (close_task target force caller)
  | Wait target reason => void (wait_task target reason)
  | Block target on => void (block_task target on)
  | Note target text_ => void (note_task target text_)
  | Edit target edit => void (edit_task target edit)
  | Delete target => void (delete_task target)
  | Reopen target => void (reopen_task target)
  | ReopenAll targets => void (reopen_targets targets)
  | SessionStart request decision => void (start_session_as request decision)
  | SessionFinish id abandon_open => void (finish_session id abandon_open)
  | SessionEdit id change => void (update_resume id change)
  | SessionNote id note => append_override_note id note
  | SessionClear id => void (delete_tasks_in_session id)
  end.

(** One step: a command that succeeds or fails, or a change around the program that
    touches neither folder: the clock, the environment, the lock. *)
Inductive step : world → world → Prop :=
| step_run c w : step w (run c w).2
| step_env w w' : stores w' = stores w → step w w'.

(** An invariant of the elementary writes holds through every command. *)
Lemma void_P {A} (P : world → Prop) (m : M A) : Preserves P m → Preserves P (void m).
Proof. intros Hm. unfold void. apply preserves_bind; [done|intros; by intros w]. Qed.

Lemma run_preserves (P : world → Prop) `{!StoreInvariant P} c :
  (∀ req d, Preserves P (start_session_as req d)) → (∀ id b, Preserves P (finish_session id b)) →
  (∀ id f, Preserves P (update_resume id f)) → (∀ id n, Preserves P (append_override_note id n)) →
  (∀ id, Preserves P (delete_tasks_in_session id)) → Preserves P (run c).
Proof.
  intros H1 H2 H3 H4 H5. destruct c; simpl; try apply void_P; auto.
  - by apply add_task_with_P.
  - by apply start_task_P.
  - by apply close_task_P.
  - by apply wait_task_P.
  - by apply block_task_P.
  - by apply note_task_P.
  - by apply edit_task_P.
  - by apply delete_task_P.
  - by apply reopen_task_P.
  - by apply reopen_targets_P.
Qed.

Lemma step_world_ok w w' : step w w' → world_ok w → world_ok w'.
Proof.
  intros [c w1|w1 w2 E] Hok.
  - assert (Hp : Preserves world_ok (run c)) by (apply run_preserves; apply _). by apply Hp.
  - unfold stores in E. injection E as Et Es. destruct Hok as [H1 H2 H3 H4].
    split; unfold tasks_wf, sessions_wf, task_files, session_files; by rewrite ?Et, ?Es.
Qed.

Lemma step_closed id w w' : step w w' → closed_in id w → closed_in id w'.
Proof.
  intros [c w1|w1 w2 E] Hc.
  - assert (Hp : Preserves (closed_in id) (run c)) by (apply run_preserves; apply _). by apply Hp.
  - destruct Hc as [Hok (s & Hs & Hn)]. split; [by eapply step_world_ok; [apply step_env|]|].
    exists s. split; [|done]. unfold lookup_session, session_files. unfold stores in E.
    injection E as _ ->. done.
Qed.

(** The world before the first command: the folders are empty or not there. *)
Definition initial (w : world) : Prop := task_files w = ∅ ∧ session_files w = ∅.

(** C1: the store is well-formed in every reachable world. Starting from empty folders,
    after any sequence of commands, succeeding or failing, each task file and each
    session file holds the record it is named for, under a safe name. *)
Theorem reachable_world_ok (w w' : world) : initial w → rtc step w w' → world_ok w'.
Proof.
  intros [Ht Hs] Hr. assert (Hok : world_ok w).
  { split; unfold tasks_wf, sessions_wf, dir_consistent; intros; rewrite ?Ht, ?Hs; done. }
  clear Ht Hs. induction Hr as [|w w1 w2 Hstep _ IH]; [done|]. apply IH. by eapply step_world_ok.
Qed.

(** C2: a closed session stays closed. Whatever commands run after a session was
    finished or abandoned, by whichever conversation, it is never open again. *)
Theorem closed_stays_closed (id : string) (w w' : world) :
  world_ok w → (∃ s, lookup_session w id = Some s ∧ ¬ is_open s) → rtc step w w' →
  ∃ s, lookup_session w' id = Some s ∧ ¬ is_open s.
Proof.
  intros Hok Hc Hr. assert (closed_in id w) as Hci by (by split). clear Hok Hc.
  induction Hr as [w|w w1 w2 Hstep _ IH]; [by destruct Hci|]. apply IH. by eapply step_closed.
Qed.
End system.
