(* ===== verification/TaskInvariants.v ===== *)
(** * A finished parent has only finished sub-tasks

    The invariant that the tracker keeps as long as nothing is forced, and the
    commands that keep it. *)

From S2P Require Import Prelude RustStr Names Slug TaskData TaskStore Blockers.
From S2P Require Import Resume Relation Forest SessionStore SessionFacts SessionLaws TaskResolve TaskOps.
From S2P Require Import TaskFacts ParentLaws TaskLaws System.

Section invariants.
Context `{HP : Platform, HL : !PlatformLaws}.

(** One task was replaced, or no task file changed. *)
Definition changed_one (P : Task → Task → Prop) (w w' : world) : Prop :=
  task_files w' = task_files w ∨
  ∃ slug t t', stored w slug t ∧ P t t' ∧
    ∀ s, lookup_task w' s = if decide (s = slug) then Some t' else lookup_task w s.

Lemma changed_one_files P w w1 w' :
  task_files w' = task_files w1 → changed_one P w w1 → changed_one P w w'.
Proof.
  intros E [Hf|(slug & t & t' & ? & ? & Hl)]; [left; congruence|].
  right. exists slug, t, t'. split_and!; [done..|]. intros s. by rewrite (task_files_lookup _ _ s E).
Qed.

(** The end of a command: save the changed task. *)
Lemma changed_one_save (P : Task → Task → Prop) {A} w w1 slug t t' (a : A) r w' :
  world_ok w → quiet w w1 → stored w slug t → P t t' → t_slug t' = t_slug t →
  (save_task t';; mret a) w1 = (r, w') → changed_one P w w'.
Proof.
  intros Hok Hq Hst HP' Hs H. pose proof (stored_slug _ _ _ Hok Hst) as E.
  apply save_tail in H as [(e & _ & Hf)|[_ [_ Hw]]].
  - left. destruct (transitivity (q_same _ _ Hq) Hf) as [? _]. done.
  - right. exists slug, t, t'. split_and!; [done..|]. intros s.
    by rewrite Hw, Hs, E, (quiet_task _ _ _ Hq).
Qed.
Lemma changed_one_quiet P w w' : quiet w w' → changed_one P w w'.
Proof. intros [[? _] _]. by left. Qed.

Tactic Notation "rstep" ident(H) ident(Hq) "as" simple_intropattern(x) simple_intropattern(Hm) :=
  apply (bind_quiet _ _ _ _ _ _ Hq) in H; [|solve_frame];
  let Hq' := fresh in
  destruct H as [(? & _ & ?)|(x & ? & Hm & Hq' & H)]; [by apply changed_one_quiet|];
  clear Hq; rename Hq' into Hq.

Lemma wait_task_changed target reason w r w' :
  world_ok w → wait_task target reason w = (r, w') →
  changed_one (λ t t', t_state t ≠ Done ∧ ∃ n1 n2,
    t' = set_updated_at n2 (push_note n1 ("Waiting: " +:+ reason) (set_state Waiting t))) w w'.
Proof.
  intros Hok. unfold wait_task. intros (w1 & H & Ht)%(touch_tail _ (λ t, t)).
  apply (changed_one_files _ _ _ _ Ht). clear Ht.
  apply lock_quiet in H as [(e0 & _ & Hq)|(w2 & Hq & H)]; [by apply changed_one_quiet|].
  rstep H Hq as slug _m.
  pose proof Hq as Hq2. rstep H Hq as t Hst. apply (quiet_stored w) in Hst; [|done].
  rstep H Hq as _u Hg. apply guard_ok in Hg as [Hg _].
  rstep H Hq as n1 _m1. rstep H Hq as n2 _m2.
  eapply (changed_one_save _ _ _ _ t); [done|exact Hq|exact Hst| | |exact H]; [|done]. eauto.
Qed.

Lemma note_task_changed target text_ w r w' :
  world_ok w → note_task target text_ w = (r, w') →
  changed_one (λ t t', ∃ n1 n2, t' = set_updated_at n2 (push_note n1 text_ t)) w w'.
Proof.
  intros Hok. unfold note_task. intros (w1 & H & Ht)%(touch_tail _ (λ t, t)).
  apply (changed_one_files _ _ _ _ Ht). clear Ht.
  apply lock_quiet in H as [(e0 & _ & Hq)|(w2 & Hq & H)]; [by apply changed_one_quiet|].
  rstep H Hq as slug _m.
  pose proof Hq as Hq2. rstep H Hq as t Hst. apply (quiet_stored w) in Hst; [|done].
  rstep H Hq as n1 _m1. rstep H Hq as n2 _m2.
  eapply (changed_one_save _ _ _ _ t); [done|exact Hq|exact Hst| | |exact H]; [|done]. eauto.
Qed.

Lemma block_task_changed target on w r w' :
  world_ok w → block_task target on w = (r, w') →
  changed_one (λ t t', ∃ on_slug n, on_slug ≠ t_slug t ∧
    t' = set_updated_at n (if decide (on_slug ∈ t_blocked_on t) then t
                           else set_blocked_on (t_blocked_on t ++ [on_slug]) t)) w w'.
Proof.
  intros Hok. unfold block_task. intros H.
  apply lock_quiet in H as [(e0 & _ & Hq)|(w2 & Hq & H)]; [by apply changed_one_quiet|].
  rstep H Hq as _u _m. rstep H Hq as _u1 _m1. rstep H Hq as all _m2. rstep H Hq as slug _m3.
  rstep H Hq as on_slug _m4. rstep H Hq as _u2 Hg. apply guard_ok in Hg as [Hg _].
  pose proof Hq as Hq2. rstep H Hq as t Hst. apply (quiet_stored w) in Hst; [|done].
  pose proof (stored_slug _ _ _ Hok Hst) as Hs.
  rstep H Hq as n _m5.
  eapply (changed_one_save _ _ _ _ t); [done|exact Hq|exact Hst| | |exact H]; simpl.
  - exists on_slug, n. split; [congruence|done].
  - by case_decide.
Qed.

Lemma reopen_task_changed target w r w' :
  world_ok w → reopen_task target w = (r, w') →
  changed_one (λ t t', t_state t = Done ∧ ∃ n, t' = mark_reopened n "task start --reopen" t) w w'.
Proof.
  intros Hok. unfold reopen_task. intros (w1 & H & Ht)%(touch_tail _ (λ t, t)).
  apply (changed_one_files _ _ _ _ Ht). clear Ht.
  apply lock_quiet in H as [(e0 & _ & Hq)|(w2 & Hq & H)]; [by apply changed_one_quiet|].
  rstep H Hq as slug _m.
  pose proof Hq as Hq2. rstep H Hq as t Hst. apply (quiet_stored w) in Hst; [|done].
  case_decide as Hd; [injection H as _ <-; by apply changed_one_quiet|].
  rstep H Hq as n _m1.
  eapply (changed_one_save _ _ _ _ t); [done|exact Hq|exact Hst| | |exact H]; [|done].
  split; [|eauto]. destruct (decide (t_state t = Done)); tauto.
Qed.

Lemma delete_task_removed target w r w' :
  world_ok w → delete_task target w = (r, w') →
  task_files w' = task_files w ∨
  ∃ slug t, stored w slug t ∧ r = Ok t ∧
    ∀ s, lookup_task w' s = if decide (s = slug) then None else lookup_task w s.
Proof.
  intros Hok. unfold delete_task. intros H.
  apply lock_quiet in H as [(e0 & _ & Hq)|(w2 & Hq & H)]; [left; by destruct (q_same _ _ Hq)|].
  qstep H Hq as slug _m.
  pose proof Hq as Hq2. qstep H Hq as t Hst. apply (quiet_stored w) in Hst; [|done].
  apply st_bind_inv in H as [([] & w3 & Hr & [= <- <-])|(e & Hr & ->)]; unfold remove_file in Hr.
  - case_decide; [done|]. destruct (d_files _ !! json_name slug) eqn:E; [|done]. injection Hr as <-.
    right. exists slug, t. split_and!; [done..|]. intros s. rewrite <-(quiet_task _ _ s Hq).
    unfold lookup_task, task_files. simpl. case_decide as Hd.
    + subst. by rewrite lookup_delete_eq.
    + rewrite lookup_delete_ne; [done|]. intros ?%(inj json_name). congruence.
  - left. destruct (q_same _ _ Hq) as [<- _]. case_decide; [by injection Hr as _ <-|].
    destruct (d_files _ !! json_name slug); [done|]. by injection Hr as _ <-.
Qed.

(** ** Reopening several tasks *)

Lemma load_targets_ok all targets acc w w0 ts w' :
  world_ok w → quiet w w0 → NoDup (t_slug <$> acc) → (∀ t, t ∈ acc → stored w (t_slug t) t) →
  load_targets all targets acc w0 = (Ok ts, w') →
  NoDup (t_slug <$> ts) ∧ ∀ t, t ∈ ts → stored w (t_slug t) t.
Proof.
  intros Hok. revert acc w0. induction targets as [|tg targets IH]; intros acc w0 Hq Hnd Hst;
    cbn [load_targets]; [by intros [= <- _]|].
  intros (slug & w1 & Hs & H)%st_bind_ok. apply keeps_quiet in Hs as Hq1; [|apply _].
  pose proof (transitivity Hq Hq1) as Hq2. case_decide as Hin; [by eapply IH|].
  apply st_bind_ok in H as (t & w2 & Hl & H). apply keeps_quiet in Hl as Hq3; [|apply _].
  apply (quiet_stored w) in Hl; [|done]. pose proof (stored_slug _ _ _ Hok Hl) as E.
  eapply IH; [by etrans| | |exact H].
  - rewrite fmap_app. apply NoDup_app. split_and!; [done| |apply NoDup_singleton].
    simpl. rewrite E. set_solver.
  - intros t' [?| ->%list_elem_of_singleton]%elem_of_app; [by apply Hst|by rewrite E].
Qed.

Lemma refuse_loop_ok named op ts w w0 u w' :
  quiet w w0 → (∀ p, p ∈ op → ∃ tp, stored w p tp ∧ t_state tp ≠ Done) →
  refuse_loop named op ts w0 = (Ok u, w') →
  ∀ t p, t ∈ ts → t_parent t = Some p → p ∈ named ∨ ∃ tp, stored w p tp ∧ t_state tp ≠ Done.
Proof.
  revert op w0. induction ts as [|t ts IH]; intros op w0 Hq Hop; cbn [refuse_loop]; [set_solver|].
  intros H t' p [->|Ht']%elem_of_cons Hp.
  - rewrite Hp in H. case_decide as Hd; [destruct Hd; auto|].
    apply st_bind_ok in H as (par & w1 & Hl%with_context_ok & H).
    apply (quiet_stored w) in Hl; [|done]. case_decide; [done|]. eauto.
  - destruct (t_parent t) as [q|]; [|by eapply IH]. case_decide as Hd; [by eapply IH|].
    apply st_bind_ok in H as (par & w1 & Hl%with_context_ok & H).
    apply keeps_quiet in Hl as Hq1; [|apply _]. apply (quiet_stored w) in Hl; [|done].
    case_decide; [done|]. eapply IH; [by etrans| |exact H|done|done].
    intros x [->|?]%elem_of_cons; [eauto|by apply Hop].
Qed.

Lemma reopen_loop_ok acc ts w rs w' :
  NoDup (t_slug <$> ts) → reopen_loop acc ts w = (Ok rs, w') →
  (∀ s, s ∉ t_slug <$> ts → lookup_task w' s = lookup_task w s) ∧
  (∀ t, t ∈ ts → ∃ now, lookup_task w' (t_slug t) = Some (mark_reopened now "task reopen" t)).
Proof.
  revert acc w rs. induction ts as [|t ts IH]; intros acc w rs Hnd; cbn [reopen_loop].
  { intros [= _ <-]. split; [done|set_solver]. }
  apply NoDup_cons in Hnd as [Hni Hnd]. intros (now & w1 & Hn & H)%st_bind_ok.
  apply keeps_quiet in Hn as Hq; [|apply _].
  apply st_bind_ok in H as ([] & w2 & Hs%with_context_ok & H).
  apply save_task_cases in Hs as [(? & ? & _)|[_ [_ Hw]]]; [done|].
  apply st_bind_ok in H as (rest & w3 & H & [= _ <-]). destruct (IH _ _ _ Hnd H) as [H1 H2].
  simpl in Hw. change (t_slug (mark_reopened now "task reopen" t)) with (t_slug t) in Hw. split.
  - intros s Hs. rewrite fmap_cons in Hs. rewrite H1, Hw, decide_False by set_solver.
    by apply quiet_task.
  - intros t' [->|Ht']%elem_of_cons; [|by apply H2]. exists now.
    rewrite H1 by done. by rewrite Hw, decide_True.
Qed.

Lemma touch_sessions_files acc ts w r w' :
  touch_sessions acc ts w = (r, w') → task_files w' = task_files w.
Proof.
  revert acc w. induction ts as [|t ts IH]; intros acc w; cbn [touch_sessions]; [by intros [= _ <-]|].
  destruct (t_session t) as [sid|]; [|apply IH]. case_decide; [apply IH|].
  intros [([] & w1 & Ht & Hr)|(e & Ht & _)]%st_bind_inv;
    pose proof (keeps_run task_files _ _ _ _ Ht) as E; [|done].
  rewrite <-E. by eapply IH.
Qed.

(** What a successful bulk reopen did. *)
Lemma reopen_targets_ok targets w ts w' :
  world_ok w → reopen_targets targets w = (Ok ts, w') →
  ∃ ts0, NoDup (t_slug <$> ts0) ∧
    (∀ t, t ∈ ts0 → stored w (t_slug t) t ∧ t_state t = Done ∧
      ∃ now, lookup_task w' (t_slug t) = Some (mark_reopened now "task reopen" t)) ∧
    (∀ t p, t ∈ ts0 → t_relation t = Child → t_parent t = Some p →
      p ∈ t_slug <$> ts0 ∨ ∃ tp, stored w p tp ∧ t_state tp ≠ Done) ∧
    (∀ s, s ∉ t_slug <$> ts0 → lookup_task w' s = lookup_task w s).
Proof.
  intros Hok. unfold reopen_targets. intros (ts1 & w1 & H & Htail)%st_bind_ok.
  apply st_bind_ok in Htail as ([] & w2 & Ht%touch_sessions_files & [= <- <-]).
  apply lock_quiet in H as [(e0 & ? & _)|(w3 & Hq & H)]; [done|].
  apply st_bind_ok in H as (u & w4 & Hm & H). apply keeps_quiet in Hm as Hq1; [|solve_frame].
  apply st_bind_ok in H as (all & w5 & Hm2 & H). apply keeps_quiet in Hm2 as Hq2; [|apply _].
  assert (Hq5 : quiet w w5) by (etrans; [exact Hq|by etrans]).
  apply st_bind_ok in H as (ts0 & w6 & Hm3 & H). apply keeps_quiet in Hm3 as Hq3; [|apply _].
  apply load_targets_ok with (w := w) in Hm3 as [Hnd Hst]; [|done|done|constructor|set_solver].
  assert (Hq6 : quiet w w6) by (by etrans).
  apply st_bind_ok in H as ([] & w7 & Hm4 & H).
  assert (w7 = w6 ∧ ∀ t, t ∈ ts0 → t_state t = Done) as [-> Hdone].
  { case_decide as Hn; [|done]. injection Hm4 as <-. split; [done|].
    intros t Ht0. by apply (proj1 (Forall_forall _ _) (proj1 (unfinished_nil ts0) Hn)). }
  clear Hm4. apply st_bind_ok in H as ([] & w8 & Hm5 & H). apply keeps_quiet in Hm5 as Hq8; [|apply _].
  assert (Hpar : ∀ t p, t ∈ filter (λ t, t_relation t = Child) ts0 → t_parent t = Some p →
    p ∈ t_slug <$> ts0 ∨ ∃ tp, stored w p tp ∧ t_state tp ≠ Done).
  { eapply (refuse_loop_ok _ []); [exact Hq6|by intros p ?%elem_of_nil|exact Hm5]. }
  assert (Hqq : quiet w w8) by (by etrans).
  apply reopen_loop_ok in H as [Hsame Hre]; [|done]. exists ts0. split; [done|]. split_and!.
  - intros t Ht0. split_and!; [by apply Hst|by apply Hdone|].
    destruct (Hre t Ht0) as (now & E). exists now. by rewrite (task_files_lookup _ _ _ Ht).
  - intros t p Ht0 Hc. apply Hpar, list_elem_of_filter. done.
  - intros s Hs. rewrite (task_files_lookup _ _ _ Ht), Hsame by done. by apply quiet_task.
Qed.

(** ** Tame changes: no task moves, finishes or is reopened *)

Definition tame (t t' : Task) : Prop :=
  t_relation t' = t_relation t ∧ (t_parent t' = t_parent t ∨ t_parent t' = None) ∧
  (t_state t' = Done ↔ t_state t = Done).
Definition tamed (w w' : world) : Prop :=
  ∀ s t', stored w' s t' → ∃ t, stored w s t ∧ tame t t'.

Global Instance tame_reflexive : Reflexive tame.
Proof. intros t. unfold tame. tauto. Qed.
Lemma tamed_files w w' : task_files w' = task_files w → tamed w w'.
Proof.
  intros E s t' [Hv Hl]. exists t'. split; [|reflexivity]. split; [done|].
  by rewrite <-(task_files_lookup _ _ _ E).
Qed.
Lemma changed_one_tamed P w w' :
  (∀ t t', P t t' → tame t t') → changed_one P w w' → tamed w w'.
Proof.
  intros HP' [E|(slug & t & t' & Hst & Ht & Hl)]; [by apply tamed_files|].
  intros s x [Hv Hx]. rewrite Hl in Hx. case_decide as Hd.
  - injection Hx as <-. subst s. exists t. auto.
  - exists x. split; [by split|reflexivity].
Qed.

Lemma task_files_tamed {A} w (m : M A) : Keeps task_files m → Preserves (tamed w) m.
Proof.
  intros Hk w1 H1 s t' [Hv Hl]. apply H1. split; [done|].
  by rewrite <-(task_files_lookup _ _ s (Hk w1)).
Qed.
Lemma save_task_tamed w t0 t :
  stored w (t_slug t) t0 → tame t0 t → Preserves (tamed w) (save_task t).
Proof.
  intros Hst Ht w1 H1. destruct (save_task t w1) as [r w2] eqn:E.
  apply save_task_cases in E as [(e & _ & Hf)|[_ [_ Hw]]]; simpl.
  - intros s t' Hs. apply H1. by apply (stored_same _ _ _ _ Hf).
  - intros s t' [Hv Hl]. rewrite Hw in Hl. case_decide as Hd.
    + injection Hl as <-. subst s. eauto.
    + apply H1. by split.
Qed.

Global Instance create_session_task_files req : Keeps task_files (create_session req).
Proof. unfold create_session. solve_frame. Qed.
Global Instance resume_task_files x req : Keeps task_files (resume x req).
Proof. unfold resume. solve_frame. Qed.

Lemma untag_loop_tamed w sid now note k ts :
  (∀ t, t ∈ ts → stored w (t_slug t) t) → Preserves (tamed w) (untag_loop sid now note k ts).
Proof.
  revert k. induction ts as [|t ts IH]; intros k Hst; cbn [untag_loop]; [apply _|].
  case_decide; [apply IH; set_solver|]. apply preserves_bind.
  - apply preserves_map_err, (save_task_tamed w t); [apply (Hst t); set_solver|].
    unfold tame. simpl. tauto.
  - intros _. apply preserves_bind; [apply IH; set_solver|]. intros us. apply _.
Qed.

Lemma abandon_all_tamed w k ss ts :
  (∀ t, t ∈ ts → stored w (t_slug t) t) → Preserves (tamed w) (abandon_all k ss ts).
Proof.
  revert k ts. induction ss as [|s ss IH]; intros k ts Hst; cbn [abandon_all]; [apply _|].
  apply preserves_bind.
  - apply preserves_map_err. unfold abandon_session, untag_unfinished.
    apply preserves_bind; [apply task_files_tamed, _|]. intros now.
    apply preserves_bind.
    { apply untag_loop_tamed. intros t [_ ?]%list_elem_of_filter. by apply Hst. }
    intros us. apply preserves_bind; [apply task_files_tamed, _|apply _].
  - intros s2. apply preserves_bind; [|apply _]. apply IH.
    intros t [_ ?]%list_elem_of_filter. by apply Hst.
Qed.

Lemma strict_stored w all t : listing w all → t ∈ all → stored w (t_slug t) t.
Proof. intros Hl. by apply (li_in _ _ Hl). Qed.

(** Reads that give stored tasks, before a command that writes them. *)
Lemma tamed_bind_read {A B} (R : A → Prop) w (m : M A) (k : A → M B) w0 r w' :
  quiet w w0 → Keeps stores m →
  (∀ a w1, m w0 = (Ok a, w1) → R a) → (∀ a, R a → Preserves (tamed w) (k a)) →
  (m ≫= k) w0 = (r, w') → tamed w w'.
Proof.
  intros Hq Hm HR Hk H. apply (bind_quiet _ _ _ _ _ _ Hq) in H as [(e & _ & Hf)|(a & w1 & Ha & Hq1 & H)]; [..|done].
  - destruct (q_same _ _ Hf). by apply tamed_files.
  - destruct (q_same _ _ Hq1) as [E _]. specialize (Hk a (HR _ _ Ha)).
    eapply (preserves_run (tamed w) (k a)); [by apply tamed_files|exact H].
Qed.

Lemma start_session_as_tamed req d w r w' :
  world_ok w → start_session_as req d w = (r, w') → tamed w w'.
Proof.
  intros Hok. unfold start_session_as. intros H.
  apply lock_quiet in H as [(e0 & _ & Hq)|(w2 & Hq & H)]; [destruct (q_same _ _ Hq); by apply tamed_files|].
  assert (Hrest : ∀ m : M StartOutcome, Keeps task_files m → m w2 = (r, w') → tamed w w').
  { intros m Hk E. apply tamed_files. destruct (q_same _ _ Hq) as [<- _].
    by apply (keeps_run task_files m) in E. }
  destruct d as [|id| |].
  - eapply Hrest; [|exact H]. apply keeps_bind; [apply _|]. intros ss.
    case_decide; [solve_frame|]. apply keeps_bind; [destruct (ei_pid (sr_owner req)); apply _|]. solve_frame.
  - eapply Hrest; [|exact H]. solve_frame.
  - apply (bind_quiet _ _ _ _ _ _ Hq) in H as [(e & _ & Hf)|(ss & w3 & _ & Hq3 & H)]; [..|apply _].
    { destruct (q_same _ _ Hf). by apply tamed_files. }
    eapply (tamed_bind_read (λ ts, ∀ t, t ∈ ts → stored w (t_slug t) t)); [exact Hq3| | | |exact H].
    + case_decide; apply _.
    + intros ts w4 Hts. case_decide; [injection Hts as <- _; by intros t ?%elem_of_nil|].
      intros t. eapply strict_stored. by eapply quiet_listing.
    + intros ts Hts. apply preserves_bind; [by apply abandon_all_tamed|]. intros ab.
      apply preserves_bind; [apply task_files_tamed, _|apply _].
  - eapply Hrest; [|exact H]. solve_frame.
Qed.

Lemma finish_session_tamed id b w r w' :
  world_ok w → finish_session id b w = (r, w') → tamed w w'.
Proof.
  intros Hok. unfold finish_session. intros H.
  apply lock_quiet in H as [(e0 & _ & Hq)|(w2 & Hq & H)]; [destruct (q_same _ _ Hq); by apply tamed_files|].
  apply (bind_quiet _ _ _ _ _ _ Hq) in H as [(e & _ & Hf)|(x & w3 & _ & Hq3 & H)]; [..|apply _].
  { destruct (q_same _ _ Hf). by apply tamed_files. }
  case_decide; [|unfold bail, st_fail in H; simplify_eq; destruct (q_same _ _ Hq3); by apply tamed_files].
  eapply (tamed_bind_read (λ ts, ∀ t, t ∈ ts → stored w (t_slug t) t)); [exact Hq3| | | |exact H].
  - apply _.
  - intros ts w4 Hts. unfold try_tasks_in_session in Hts.
    apply st_bind_ok in Hts as (all & w5 & Hall & [= <- _]). intros t [_ Ht]%list_elem_of_filter.
    eapply strict_stored; [|done]. by eapply quiet_listing.
  - intros ts Hts. cbv beta.
    match goal with |- Preserves _ (match ?d with _ => _ end) => destruct d end; [apply _|].
    apply preserves_bind; [apply task_files_tamed, _|].
    intros now. apply preserves_bind; [by apply untag_loop_tamed|]. intros us.
    apply preserves_bind; [|apply _]. apply preserves_map_err, task_files_tamed, _.
Qed.

Lemma start_task_tamed target force w r w' :
  world_ok w → start_task target force w = (r, w') → tamed w w'.
Proof.
  intros Hok [[_ Hf]|(slug & t & all & anc & now & w1 & w2 & Hc & Hf & Ht & H)]%start_task_inv; [..|done].
  { by apply tamed_files. }
  destruct Hc as [Hst Hnd Hall Hchk [Hab Hnew] Hndp Hne].
  pose proof (stored_slug _ _ _ Hok Hst) as Hs. rewrite <-Hs in Hne.
  apply start_writes in H as [Hlk _]; [|done..]. intros s x [Hv Hx].
  rewrite (task_files_lookup _ _ s Ht) in Hx.
  destruct (Hlk s) as [E|(y & Hy & <- & E)]; rewrite E in Hx.
  - exists x. split; [|reflexivity]. split; [done|]. by rewrite <-(same_files_task _ _ _ Hf).
  - injection Hx as <-. exists y. assert (stored w (t_slug y) y ∧ t_state y ≠ Done) as [? ?].
    { destruct Hy as [->|Hy]; [by rewrite Hs|]. destruct (Hnew y Hy) as (? & Ho & _).
      split; [done|congruence]. }
    split; [done|]. unfold tame. simpl. split_and!; [done|by left|done..].
Qed.

Lemma run_tame {A} (m : M A) w r w' :
  void m w = (r, w') → ∃ r0, m w = (r0, w') ∧ (is_ok r = is_ok r0).
Proof.
  unfold void. intros [(a & w1 & Hm & [= <- <-])|(e & Hm & ->)]%st_bind_inv; eauto.
Qed.

Lemma remove_file_tamed w name : Preserves (tamed w) (remove_file Tasks name).
Proof.
  intros w1 H1. unfold remove_file. case_decide; [done|].
  destruct (d_files (w_dir Tasks w1) !! name); [|done]. intros s t' [Hv Hl]. apply H1. split; [done|].
  unfold lookup_task, task_files in *. simpl in *. apply bind_Some in Hl as (n' & Hn & Hp).
  apply lookup_delete_Some in Hn as [_ ->]. done.
Qed.

Lemma delete_tasks_tamed id w r w' : delete_tasks_in_session id w = (r, w') → tamed w w'.
Proof.
  intros H. assert (Hp : Preserves (tamed w) (delete_tasks_in_session id)).
  { assert (Hk : ∀ B (m : M B), Keeps task_files m → Preserves (tamed w) m)
      by (intros; by apply task_files_tamed).
    unfold delete_tasks_in_session, with_store_lock, with_context.
    apply preserves_bind; [apply Hk, _|]. intros _. apply preserves_bind; [apply Hk, _|].
    intros l. destruct l; [|apply _]. apply preserves_bind; [apply Hk, _|]. intros ts.
    apply preserves_bind; [|apply _]. generalize 0 (length ts). induction ts as [|t ts IH];
      intros k n; cbn [delete_loop]; [apply _|].
    apply preserves_bind; [apply preserves_map_err, remove_file_tamed|]. intros _. apply IH. }
  eapply (preserves_run (tamed w) _); [by apply tamed_files|exact H].
Qed.

(** The commands that move no task, finish none and reopen none. *)
Definition quiet_command (c : command) : Prop :=
  match c with
  | Start _ _ | Wait _ _ | Block _ _ | Note _ _ | SessionStart _ _ | SessionFinish _ _
  | SessionEdit _ _ | SessionNote _ _ | Delete _ | SessionClear _ => True
  | Edit _ e => ed_parent e = None
  | Add _ _ _ _ | Finish _ _ _ | Reopen _ | ReopenAll _ => False
  end.

Lemma update_resume_task_files id f : Keeps task_files (update_resume id f).
Proof. unfold update_resume, with_store_lock, with_context. solve_frame. Qed.
Lemma append_override_note_task_files id n : Keeps task_files (append_override_note id n).
Proof.
  unfold append_override_note, with_store_lock, with_context. destruct n as [t|]; [|apply _].
  apply keeps_map_err. solve_frame.
Qed.

Lemma quiet_command_tamed c w r w' :
  world_ok w → quiet_command c → run c w = (r, w') → tamed w w'.
Proof.
  intros Hok Hc H. destruct c; simpl in Hc, H; try done;
    try (apply run_tame in H as (r0 & H & _)).
  - by eapply start_task_tamed.
  - apply wait_task_changed in H; [|done]. eapply changed_one_tamed; [|exact H].
    intros t t' (Hd & n1 & n2 & ->). unfold tame. simpl. naive_solver.
  - apply block_task_changed in H; [|done]. eapply changed_one_tamed; [|exact H].
    intros t t' (os & n & _ & ->). unfold tame. case_decide; simpl; tauto.
  - apply note_task_changed in H; [|done]. eapply changed_one_tamed; [|exact H].
    intros t t' (n1 & n2 & ->). unfold tame. simpl. tauto.
  - apply edit_task_inv in H; [|done]. eapply (changed_one_tamed (λ t t', place t' = place t ∧
      (t_parent t' = t_parent t ∨ t_parent t' = None))).
    + intros t t' [[= _ Er Es] Hp]. unfold tame. rewrite Er, Es. tauto.
    + destruct H as [?|(slug & t & t' & ? & _ & ? & ? & ?)]; [by left|]. right. exists slug, t, t'. auto.
  - apply delete_task_removed in H as [E|(slug & t & _ & _ & Hl)]; [by apply tamed_files| |done].
    intros s t' [Hv Hs]. rewrite Hl in Hs. case_decide; [done|]. exists t'. split; [by split|reflexivity].
  - by eapply start_session_as_tamed.
  - by eapply finish_session_tamed.
  - apply tamed_files. pose proof (update_resume_task_files id change w) as E. by rewrite H in E.
  - apply tamed_files. pose proof (append_override_note_task_files id note w) as E. by rewrite H in E.
  - by eapply delete_tasks_tamed.
Qed.

(** ** The invariant *)

(** A finished task has only finished sub-tasks. *)
Definition done_parents (w : world) : Prop :=
  ∀ a b ta tb, stored w a ta → t_relation ta = Child → t_parent ta = Some b →
    stored w b tb → t_state tb = Done → t_state ta = Done.

Lemma tamed_done_parents w w' : tamed w w' → done_parents w → done_parents w'.
Proof.
  intros Ht Hd a b ta tb (ta0 & Ha & Hra & Hpa & Hsa)%Ht Hr Hp (tb0 & Hb & _ & _ & Hsb)%Ht Hdone.
  apply Hsa. apply (Hd a b ta0 tb0); [done|congruence| |done|by apply Hsb].
  destruct Hpa; congruence.
Qed.

(** A command that forces nothing: no forced finish, no lenient reopen of one task, no
    edit of a parent link. *)
Definition unforced (c : command) : Prop :=
  match c with
  | Finish _ force _ => force = false
  | Edit _ e => ed_parent e = None
  | Reopen _ => False
  | _ => True
  end.

Lemma add_done_parents new parent sc project w t w' :
  world_ok w → done_parents w → add_task_with new parent sc project w = (Ok t, w') → done_parents w'.
Proof.
  intros Hok Hd [[[e [=]] _]|(x & sid & [= <-] & Hpl & Hfree & Ho & _ & _ & _ & Hv & _ & Hl)]%add_task_inv; [|done].
  assert (Hnew : lookup_task w (t_slug t) = None).
  { unfold lookup_task, task_files. unfold file_exists in Hfree.
    by destruct (d_files (w_tasks w) !! json_name (t_slug t)) as [[c|k]|]. }
  intros a b ta tb [Hva Ha] Hr Hp [Hvb Hb] Hdone. rewrite Hl in Ha, Hb.
  case_decide as Hbt; [congruence|]. case_decide as Hat; [|by eapply (Hd a b ta tb)].
  injection Ha as <-. exfalso. unfold placed in Hpl.
  destruct (nt_placement new) as [| |pn]; [destruct Hpl; congruence..|].
  destruct Hpl as (_ & _ & p & tp & Ep & Hst & Hnd & _). rewrite Hp in Ep. injection Ep as <-.
  apply Hnd. by rewrite (stored_fun _ _ _ _ Hst (conj Hvb Hb)).
Qed.

Lemma finish_done_parents target caller w c w' :
  world_ok w → done_parents w → close_task target false caller w = (Ok c, w') → done_parents w'.
Proof.
  intros Hok Hd [[[e [=]] _]|(slug & t & all & c' & [Hst Hall Hchk] & [= <-] & _ & _ & H)]%close_task_inv; [|done].
  destruct (Hchk eq_refl) as [_ Hnil]. case_decide as Hdt.
  { destruct H as [_ Hf]. eapply tamed_done_parents; [by apply tamed_files|done]. }
  destruct H as (now & Hc & Hl). pose proof (stored_slug _ _ _ Hok Hst) as Hs.
  assert (Hct : t_relation (c_task c) = t_relation t ∧ t_parent (c_task c) = t_parent t ∧ t_state (c_task c) = Done).
  { rewrite Hc. unfold closed_task. by destruct caller. }
  destruct Hct as (Hcr & Hcp & Hcs). intros a b ta tb [Hva Ha] Hr Hp [Hvb Hb] Hdone.
  rewrite Hl in Ha, Hb. destruct (decide (a = slug)) as [->|Hat]; [by injection Ha as <-|].
  destruct (decide (b = slug)) as [->|Hbt].
  - destruct (decide (t_state ta = Done)) as [|Hnd]; [done|]. exfalso.
    assert (Hsa : stored w a ta) by done. pose proof (stored_slug _ _ _ Hok Hsa) as Ea.
    assert (Hin : ta ∈ undone_descendants slug all).
    { apply elem_of_undone_descendants; [apply Hall|]. rewrite Ea. split_and!; try done.
      - apply (li_in _ _ Hall). by rewrite Ea.
      - apply rtc_once. exists ta. split_and!; try done. apply (li_in _ _ Hall). by rewrite Ea. }
    rewrite Hnil in Hin. by apply elem_of_nil in Hin.
  - by eapply (Hd a b ta tb).
Qed.

Lemma reopen_done_parents targets w ts w' :
  world_ok w → done_parents w → reopen_targets targets w = (Ok ts, w') → done_parents w'.
Proof.
  intros Hok Hd (ts0 & Hnd & Hre & Hpar & Hsame)%reopen_targets_ok; [|done].
  intros a b ta tb [Hva Ha] Hr Hp [Hvb Hb] Hdone.
  assert (Hnb : b ∉ t_slug <$> ts0).
  { intros (t & -> & Ht)%list_elem_of_fmap. destruct (Hre t Ht) as (_ & _ & now & E).
    rewrite E in Hb. by injection Hb as <-. }
  rewrite Hsame in Hb by done.
  destruct (decide (a ∈ t_slug <$> ts0)) as [(t & -> & Ht)%list_elem_of_fmap|Hna].
  - exfalso. destruct (Hre t Ht) as (_ & _ & now & E). rewrite E in Ha. injection Ha as <-.
    destruct (Hpar t b Ht Hr Hp) as [?|(tp & Hst & Hnd')]; [done|].
    apply Hnd'. by rewrite (stored_fun _ _ _ _ Hst (conj Hvb Hb)).
  - rewrite Hsame in Ha by done. by eapply (Hd a b ta tb).
Qed.

(** [a] is an unfinished sub-task of the finished task [b]. *)
Definition open_under_done (w : world) (a b : string) : Prop :=
  ∃ ta tb, stored w a ta ∧ stored w b tb ∧ t_relation ta = Child ∧ t_parent ta = Some b ∧ t_state tb = Done ∧ t_state ta ≠ Done.
Lemma done_parents_iff w : done_parents w ↔ ∀ a b, ¬ open_under_done w a b.
Proof.
  split.
  - intros Hd a b (ta & tb & Ha & Hb & Hr & Hp & Hdone & Hnd). by apply Hnd, (Hd a b ta tb).
  - intros Hn a b ta tb Ha Hr Hp Hb Hdone. destruct (decide (t_state ta = Done)) as [|Hnd]; [done|].
    destruct (Hn a b). by exists ta, tb.
Qed.
(** How a command can bring such a pair about: a forced finish closes [b]; the reopen of one task
    opens [a]; an edit that names a parent puts [a] under [b]. *)
Definition brings (c : command) (w : world) (a b : string) : Prop :=
  match c with
  | Finish _ force _ => force = true ∧ ∃ tb, stored w b tb ∧ t_state tb ≠ Done
  | Reopen _ => ∃ ta, stored w a ta ∧ t_state ta = Done
  | Edit _ e => ed_parent e ≠ None ∧ ∃ ta, stored w a ta ∧ (t_relation ta ≠ Child ∨ t_parent ta ≠ Some b)
  | _ => False
  end.
Lemma kept_unless_unforced c w w' :
  world_ok w → done_parents w → unforced c → run c w = (Ok tt, w') → done_parents w'.
Proof.
  intros Hok Hd Hu H.
  assert (quiet_command c ∨ (∃ n p s pr, c = Add n p s pr) ∨ (∃ t who, c = Finish t false who) ∨
          ∃ ts, c = ReopenAll ts) as [Hq|[(n & p & s & pr & ->)|[(t & who & ->)|(ts & ->)]]].
  { destruct c; simpl in *; try subst; eauto 10. }
  - eapply tamed_done_parents; [by eapply quiet_command_tamed|done].
  - apply run_tame in H as ([t|e] & H & E); [|done]. by eapply add_done_parents.
  - apply run_tame in H as ([c|e] & H & E); [|done]. by eapply finish_done_parents.
  - apply run_tame in H as ([rs|e] & H & E); [|done]. by eapply reopen_done_parents.
Qed.
(** A pair that a change of one task brings about has that task in it. *)
Lemma changed_one_pair P w w' a b :
  done_parents w → changed_one P w w' → open_under_done w' a b →
  ∃ slug t t', stored w slug t ∧ stored w' slug t' ∧ P t t' ∧ (slug = a ∨ slug = b) ∧
    ∀ s x, s ≠ slug → stored w' s x → stored w s x.
Proof.
  intros Hd [Hf|(slug & t & t' & Hst & HP' & Hl)] Hab.
  - destruct (proj1 (done_parents_iff w) Hd a b). destruct Hab as (ta & tb & [Hva Ha] & [Hvb Hb] & Hr).
    exists ta, tb. split_and!; [split; [done|by rewrite <- (task_files_lookup _ _ _ Hf)]..|apply Hr|apply Hr|apply Hr|apply Hr].
  - assert (Hother : ∀ s x, s ≠ slug → stored w' s x → stored w s x).
    { intros s x Hs [Hv Hx]. split; [done|]. by rewrite Hl, decide_False in Hx. }
    destruct (decide (slug = a ∨ slug = b)) as [Hin|Hno].
    + exists slug, t, t'. split_and!; [done| |done..]. split; [by destruct Hst|]. by rewrite Hl, decide_True.
    + destruct (proj1 (done_parents_iff w) Hd a b). destruct Hab as (ta & tb & Ha & Hb & Hr).
      exists ta, tb. split_and!; [apply Hother; [naive_solver|done]..|apply Hr|apply Hr|apply Hr|apply Hr].
Qed.
Lemma finish_pair target force caller w c w' a b :
  world_ok w → done_parents w → close_task target force caller w = (Ok c, w') → open_under_done w' a b →
  ∃ tb, stored w b tb ∧ t_state tb ≠ Done.
Proof.
  intros Hok Hd H Hab.
  assert (Hc : changed_one (λ t t', t_state t ≠ Done ∧ t_state t' = Done) w w').
  { apply close_task_inv in H as [[[e [=]] _]|(slug & t & all & c' & [Hst _ _] & [= <-] & _ & _ & H)]; [|done].
    case_decide as Hdt; [left; apply H|]. destruct H as (now & Hc & Hl). right. exists slug, t, (c_task c).
    split_and!; [done|done| |done]. rewrite Hc. unfold closed_task. by destruct caller. }
  destruct (changed_one_pair _ _ _ a b Hd Hc Hab) as (slug & t & t' & Hst & Hst' & [Hn Hdone] & [->| ->] & _); [|by exists t].
  destruct Hab as (ta & _ & Ha & _ & _ & _ & _ & Hnd). by rewrite (stored_fun _ _ _ _ Ha Hst') in Hnd.
Qed.
Lemma reopen_pair target w r w' a b :
  world_ok w → done_parents w → reopen_task target w = (r, w') → open_under_done w' a b →
  ∃ ta, stored w a ta ∧ t_state ta = Done.
Proof.
  intros Hok Hd Hc%reopen_task_changed Hab; [|done].
  destruct (changed_one_pair _ _ _ a b Hd Hc Hab) as (slug & t & t' & Hst & Hst' & (Hdone & n & E) & [->| ->] & _); [by exists t|].
  destruct Hab as (_ & tb & _ & Hb & _ & _ & Hbd & _). by rewrite (stored_fun _ _ _ _ Hb Hst'), E in Hbd.
Qed.
Lemma edit_pair target e w r w' a b :
  world_ok w → done_parents w → edit_task target e w = (r, w') → open_under_done w' a b →
  ∃ ta, stored w a ta ∧ (t_relation ta ≠ Child ∨ t_parent ta ≠ Some b).
Proof.
  intros Hok Hd H Hab.
  assert (Hc : changed_one (λ t t', place t' = place t) w w').
  { apply edit_task_inv in H as [?|(slug & t & t' & ? & _ & ? & _ & ?)]; [by left| |done]. right. by exists slug, t, t'. }
  destruct (changed_one_pair _ _ _ a b Hd Hc Hab) as (slug & t & t' & Hst & Hst' & [= _ Er Es] & Hin & Hother).
  destruct Hab as (ta & tb & Ha & Hb & Hr & Hp & Hbd & Hnd). destruct (decide (a = b)) as [->|Hab].
  { by rewrite (stored_fun _ _ _ _ Ha Hb) in Hnd. }
  destruct Hin as [->| ->].
  - rewrite (stored_fun _ _ _ _ Ha Hst') in *. exists t. split; [done|].
    destruct (decide (t_parent t = Some b)) as [Ep|]; [|by right]. destruct (proj1 (done_parents_iff w) Hd a b).
    exists t, tb. split_and!; [done|by apply Hother|congruence..].
  - rewrite (stored_fun _ _ _ _ Hb Hst') in *. destruct (proj1 (done_parents_iff w) Hd a b).
    exists ta, t. split_and!; [by apply Hother|done|done|done|congruence|done].
Qed.

(** C3: a finished task has only finished sub-tasks. Take a store in which that holds and a command that
    succeeds. It holds afterwards, except where the command is one of three, and then only at the task
    that the command changes: a forced finish, of a task that was not done; the reopen of a single
    task, which was done; and an edit that names a parent, of a task that was not a sub-task of that
    parent. Every other command keeps it: a sub-task is added only to an unfinished parent, a finish
    without force needs finished sub-tasks, and a bulk reopen leaves no open sub-task under a finished
    parent. *)
Theorem done_parents_kept (c : command) (w w' : world) :
  world_ok w → done_parents w → run c w = (Ok tt, w') →
  (unforced c → done_parents w') ∧ ∀ a b, open_under_done w' a b → brings c w a b.
Proof.
  intros Hok Hd H. assert (Hu : unforced c → done_parents w') by (intros Hu; by eapply kept_unless_unforced).
  split; [exact Hu|]. intros a b Hab.
  assert (Hno : ¬ unforced c) by (intros Hc; by destruct (proj1 (done_parents_iff w') (Hu Hc) a b)).
  destruct c; cbn in Hno |- *; try (by destruct Hno); apply run_tame in H as ([x|e] & H & E); try done.
  - split; [by destruct force; [|destruct Hno]|by eapply finish_pair].
  - split; [done|by eapply edit_pair].
  - by eapply reopen_pair.
Qed.
End invariants.
