(* ===== verification/OwnershipLaws.v ===== *)
(** * Names and ownership: what the checks guarantee

    A typed name reaches only a stored task that it names, and a command acts on
    another session's task only when that session is named. *)

From S2P Require Import Prelude RustStr Names Slug TaskData TaskStore Blockers.
From S2P Require Import Resume Relation Forest SessionStore SessionFacts SessionLaws TaskResolve TaskOps.
From S2P Require Import TaskFacts ParentLaws TaskLaws.

(** ** Names *)

Lemma starts_with_refl s : starts_with s s = true.
Proof.
  unfold starts_with. apply bool_decide_eq_true. exists "".
  rewrite <-(str_app_nil_r s) at 2. apply strip_prefix_app.
Qed.

Lemma pick_some slugs input s :
  pick slugs input = Ok (Some s) ↔
  s ∈ slugs ∧ (s = input ∨ input ∉ slugs ∧ filter (λ x, starts_with input x = true) slugs = [s]).
Proof.
  unfold pick. case_decide as Hin.
  - split; [intros [= <-]; auto|]. intros [Hs [->|[? _]]]; [done|contradiction].
  - split.
    + destruct (filter _ slugs) as [|x [|y k]] eqn:E; try done. intros [= ->].
      split; [|by right]. assert (Hx : s ∈ filter (λ x, starts_with input x = true) slugs) by (rewrite E; set_solver).
      by apply list_elem_of_filter in Hx as [_ ?].
    + intros [Hs [->|[_ ->]]]; [contradiction|done].
Qed.

Lemma pick_starts slugs input s : pick slugs input = Ok (Some s) → s ∈ slugs ∧ starts_with input s = true.
Proof.
  intros [Hs [->|[_ Hf]]]%pick_some; [split; [done|apply starts_with_refl]|]. split; [done|].
  assert (Hx : s ∈ filter (λ x, starts_with input x = true) slugs) by (rewrite Hf; set_solver).
  by apply list_elem_of_filter in Hx as [? _].
Qed.

(** ** Ownership of one task *)

Lemma task_ownership_note_ok slug t caller other n :
  task_ownership_note slug t caller other = Ok n ↔
  match t_session t with
  | None => n = Some (mkOverride slug ("acted on a task with no session; caller: " +:+ describe caller) true)
  | Some owner =>
    (caller = CallerSession owner ∧ n = None) ∨
    (caller ≠ CallerSession owner ∧ other = Some owner ∧
     n = Some (mkOverride slug ("acted on with --other-session " +:+ owner +:+ "; caller: " +:+ describe caller) false))
  end.
Proof.
  unfold task_ownership_note. destruct (t_session t) as [owner|]; [|naive_solver].
  case_decide as Hc; [naive_solver|]. destruct other as [named|].
  - case_decide; naive_solver.
  - unfold refuse_unless_caller. destruct caller as [id|reason].
    + rewrite decide_False by (intros ->; done). simpl. naive_solver.
    + simpl. naive_solver.
Qed.

Section laws.
Context `{HP : Platform, HL : !PlatformLaws}.

Lemma st_for_ok {A B} (f : A → M B) l w bs w' :
  st_for f l w = (Ok bs, w') →
  Forall2 (λ a b, ∃ w1 w2, f a w1 = (Ok b, w2)) l bs.
Proof.
  revert w bs w'. induction l as [|a l IH]; intros w bs w'; simpl; [intros [= <- _]; constructor|].
  intros (b & w1 & Hb & H)%st_bind_ok. apply st_bind_ok in H as (bs' & w2 & H & [= <- _]).
  constructor; [eauto|]. eapply IH; exact H.
Qed.

Lemma ensure_tasks_inv (inputs : list string) (caller : Caller)
    (other_session : option string) (w w' : world) (checked : list (string * option OverrideNote)) :
  world_ok w → ensure_tasks_are_ours inputs caller other_session w = (Ok checked, w') →
  same_files w w' ∧ length checked = length inputs ∧
  ∀ slug note, (slug, note) ∈ checked → ∃ t, stored w slug t ∧
    match t_session t with
    | None => ∃ n, note = Some n ∧ on_slug n = slug ∧ on_owner_less n = true
    | Some owner => caller = CallerSession owner ∧ note = None ∨
        caller ≠ CallerSession owner ∧ other_session = Some owner ∧
        ∃ n, note = Some n ∧ on_slug n = slug ∧ on_owner_less n = false
    end.
Proof.
  intros Hok H. split; [by eapply (keeps_stores_same_files (ensure_tasks_are_ours _ _ _))|].
  unfold ensure_tasks_are_ours in H. apply st_bind_ok in H as (u & w1 & Hm & H).
  apply keeps_quiet in Hm as Hq; [|solve_frame].
  apply st_bind_ok in H as (all & w2 & Hall & H). apply (quiet_listing w) in Hall; [|done..].
  apply st_for_ok in H. split; [symmetry; by eapply Forall2_length|]. intros slug note Hin.
  apply list_elem_of_lookup in Hin as [i Hi].
  destruct (Forall2_lookup_r _ _ _ _ _ H Hi) as (input & _ & w3 & w4 & Hc). unfold check_owned in Hc.
  apply st_bind_ok in Hc as (s & w5 & _ & Hc). apply st_bind_ok in Hc as (t & w6 & [= Ht _] & Hc).
  apply st_bind_ok in Hc as (n & w7 & [= Hn _] & [= <- <- _]).
  destruct (find_first _ all) as [t'|] eqn:Hf; [|done]. simpl in Ht. injection Ht as ->.
  apply find_first_Some in Hf as [Hta <-]. exists t. split; [by apply (li_in _ _ Hall)|].
  apply task_ownership_note_ok in Hn. destruct (t_session t) as [owner|]; [|subst n; eauto].
  destruct Hn as [[-> ->]|(? & -> & ->)]; [by left|right; eauto 10].
Qed.

(** No command acts on another session's task by accident. When
    [ensure_tasks_are_ours] accepts the names, it changed no file, and each name was
    resolved to a stored task that has no session, or is in the caller's own session, or
    is in the very session that [--other-session] names; in the first and the third case
    it returns the note that puts the caller on record. *)
Theorem ensure_tasks_are_ours_correct (inputs : list string) (caller : Caller)
    (other_session : option string) (w w' : world) (checked : list (string * option OverrideNote)) :
  world_ok w → ensure_tasks_are_ours inputs caller other_session w = (Ok checked, w') →
  same_files w w' ∧ length checked = length inputs ∧
  ∀ slug note, (slug, note) ∈ checked → ∃ t, stored w slug t ∧
    match t_session t with
    | None => ∃ n, note = Some n ∧ on_slug n = slug ∧ on_owner_less n = true
    | Some owner => caller = CallerSession owner ∧ note = None ∨
        caller ≠ CallerSession owner ∧ other_session = Some owner ∧
        ∃ n, note = Some n ∧ on_slug n = slug ∧ on_owner_less n = false
    end.
Proof. apply ensure_tasks_inv. Qed.

Lemma caller_session_inv (project : string) (owner : EngineIdentity) (w w' : world) (id : string) :
  world_ok w → caller_session project owner w = (Ok (CallerSession id), w') →
  w' = w ∧ ∃ s, lookup_session w id = Some s ∧ s_id s = id ∧ is_open s ∧ s_project s = project ∧
    (s_owner_session s = None ∨
     ei_session_id owner ≠ None ∧ s_owner_session s = ei_session_id owner).
Proof.
  intros Hok. unfold caller_session. intros (ss & w1 & Hs & H)%st_bind_ok.
  apply open_sessions_strict_inv in Hs as [-> Hs]. specialize (Hs ss eq_refl Hok).
  injection H as H <-. split; [done|].
  destruct (pick_open_session ss owner) as [s|e] eqn:Hp; [|done].
  destruct (may_take_tasks s (ei_session_id owner)) eqn:Hm; [|by case_decide].
  injection H as <-. exists s.
  assert (Hin : s ∈ ss).
  { apply pick_ok in Hp as [->|[_ Hf]]; [set_solver|].
    assert (Hx : s ∈ filter (owned_by owner) ss) by (rewrite Hf; set_solver).
    by apply list_elem_of_filter in Hx as [_ ?]. }
  apply Hs in Hin as (_ & Hl & Ho & Hpr). split_and!; try done.
  unfold may_take_tasks in Hm. destruct (s_owner_session s) as [o|]; [|by left].
  apply bool_decide_eq_true in Hm. right. rewrite Hm. done.
Qed.

(** Who the caller is. When [caller_session] names a session, that session is open
    in the project and either has no owner or is owned by the caller's conversation; a
    caller without a conversation id is never taken for the owner of an owned session. *)
Theorem caller_session_correct (project : string) (owner : EngineIdentity) (w w' : world) (id : string) :
  world_ok w → caller_session project owner w = (Ok (CallerSession id), w') →
  w' = w ∧ ∃ s, lookup_session w id = Some s ∧ s_id s = id ∧ is_open s ∧ s_project s = project ∧
    (s_owner_session s = None ∨
     ei_session_id owner ≠ None ∧ s_owner_session s = ei_session_id owner).
Proof. apply caller_session_inv. Qed.

(** Resolving a name. A name that [resolve_with] accepts becomes a slug that
    begins with it and that is stored: it is the slug of a listed task, or the file of
    exactly that name exists. A task of a preferred (open) session is taken before any
    other: if the name picks one there, that one is the result. *)
Theorem resolve_with_correct (input : string) (owner : EngineIdentity) (tasks : list Task)
    (w w' : world) (slug : string) :
  resolve_with input owner tasks w = (Ok slug, w') →
  same_files w w' ∧ starts_with input slug = true ∧
  (slug ∈ t_slug <$> tasks ∨ slug = input ∧ file_exists (w_tasks w) (json_name input) = true) ∧
  ∀ preferred w1 mine, preferred_sessions owner w = (Ok preferred, w1) → preferred ≠ [] →
    pick (t_slug <$> filter (session_among preferred) tasks) input = Ok (Some mine) → slug = mine.
Proof.
  intros H. split; [by eapply (keeps_stores_same_files (resolve_with _ _ _))|].
  unfold resolve_with in H. apply st_bind_ok in H as (pref & w2 & Hp%with_context_ok & H).
  apply keeps_quiet in Hp as Hq; [|apply _].
  apply st_bind_ok in H as (mine & w3 & Hm & H).
  assert (w3 = w2 ∧ (pref = [] ∧ mine = None ∨ pref ≠ [] ∧
    pick (t_slug <$> filter (session_among pref) tasks) input = Ok mine)) as [-> Hmine].
  { case_decide; injection Hm as Hm <-; (split; [done|]); [left|right]; auto. }
  destruct mine as [m|].
  - injection H as <- _. destruct Hmine as [[_ ?]|[Hne Hpk]]; [done|].
    pose proof (pick_starts _ _ _ Hpk) as [Hin Hst]. split_and!; [done| |].
    + left. apply list_elem_of_fmap in Hin as (t & -> & [_ Ht]%list_elem_of_filter).
      apply list_elem_of_fmap. eauto.
    + intros pref' w1 m' Hp' _ Hpk'. rewrite Hp in Hp'. injection Hp' as <- _. congruence.
  - apply st_bind_ok in H as (d & w4 & [= <- <-] & H).
    assert (Hno : ∀ preferred w1 mine, preferred_sessions owner w = (Ok preferred, w1) → preferred ≠ [] →
      pick (t_slug <$> filter (session_among preferred) tasks) input = Ok (Some mine) → slug = mine).
    { intros pref' w1 m' Hp' Hne Hpk'. rewrite Hp in Hp'. injection Hp' as <- _.
      destruct Hmine as [[? _]|[_ E]]; congruence. }
    destruct (file_exists (w_tasks w2) (json_name input)) eqn:Hf.
    + injection H as <- _. split_and!; [apply starts_with_refl| |done]. right. split; [done|].
      unfold file_exists in *. destruct (q_same _ _ Hq) as [E _]. unfold task_files in E. by rewrite <-E.
    + apply st_bind_ok in H as (found & w5 & [= Hpk <-] & H). destruct found as [s|]; [|done].
      injection H as <- _. apply pick_starts in Hpk as [? ?]. split_and!; [done|by left|done].
Qed.
End laws.
