(* ===== verification/Glob.v ===== *)
(** * Host name patterns (crates/llmenv-scope/src/matcher.rs, [glob_matches])

    The [*] patterns of [match.hostname]. [glob_spec] is what such a pattern
    means: the text is cut into the parts of the pattern with anything between
    them. The code looks for the first and the last part at the ends and for the
    middle parts left to right. *)

From S2P Require Import Prelude RustStr.

Definition is_star (c : ascii) : bool := Ascii.eqb c "*".

(** The loop over the middle parts: [pos] is the byte where the search goes on. *)
Fixpoint match_middle (middle : list string) (text : string) (pos : nat) : bool :=
  match middle with
  | [] => true
  | part :: middle =>
    match find_sub part (str_drop pos text) with
    | Some (before, _) => match_middle middle text (pos + (String.length before + String.length part))
    | None => false
    end
  end.

Definition glob_matches (pattern text : string) : bool :=
  let pattern_lower := to_ascii_lowercase pattern in
  let text_lower := to_ascii_lowercase text in
  if negb (str_contains_char "*" pattern_lower) then bool_decide (pattern_lower = text_lower)
  else
    match split_on is_star pattern_lower with
    | [] => false
    | first :: rest =>
      let last_part := default first (last rest) in
      if decide (first ≠ "" ∧ starts_with first text_lower = false) then false
      else if decide (last_part ≠ "" ∧ ends_with last_part text_lower = false) then false
      else if decide (String.length text_lower < String.length first + String.length last_part) then false
      else match_middle (removelast rest) text_lower (String.length first)
    end.

(** ** What a pattern means *)

(** [parts_match ps t]: [t] is the parts [ps] in order, with any text between them. *)
Fixpoint parts_match (ps : list string) (t : string) : Prop :=
  match ps with
  | [] => False
  | [p] => t = p
  | p :: ps => ∃ x t', t = p +:+ x +:+ t' ∧ parts_match ps t'
  end.
Definition glob_spec (pattern text : string) : Prop :=
  parts_match (split_on is_star (to_ascii_lowercase pattern)) (to_ascii_lowercase text).

(** [occur ps t]: the parts [ps] occur in [t] in order, without overlap. *)
Fixpoint occur (ps : list string) (t : string) : Prop :=
  match ps with
  | [] => True
  | p :: ps => ∃ x t', t = x +:+ p +:+ t' ∧ occur ps t'
  end.

(** ** Lemmas *)

Lemma occur_app ps y t : occur ps t → occur ps (y +:+ t).
Proof.
  destruct ps as [|p ps]; [done|]. intros (x & t' & -> & H).
  exists (y +:+ x), t'. by str_simpl.
Qed.

(** [find] leaves the longest rest: a later occurrence ends inside it. *)
Lemma find_sub_first sub x r :
  ∃ a b z, find_sub sub (x +:+ sub +:+ r) = Some (a, b) ∧ b = z +:+ r.
Proof.
  induction x as [|c x IH].
  - rewrite str_app_nil_l. exists "", r, "". split; [|done].
    destruct (sub +:+ r) eqn:E; cbn [find_sub]; rewrite <-E, strip_prefix_app; done.
  - rewrite str_app_cons. cbn [find_sub].
    destruct (strip_prefix sub (String c (x +:+ sub +:+ r))) as [rest|] eqn:Hp.
    + apply strip_prefix_Some in Hp. exists "", rest.
      (* the first occurrence is before the known one, so its rest is at least as long *)
      assert (∃ z, rest = z +:+ r) as [z Hz].
      { destruct IH as (a & b & z & Hf & ->). clear Hf a z.
        assert (Hd : str_drop (S (String.length x)) (sub +:+ rest) = sub +:+ r).
        { rewrite <-Hp. simpl. apply str_drop_app. }
        assert (Hd2 : str_drop (S (String.length x) + String.length sub) (sub +:+ rest) = r).
        { rewrite <-str_drop_drop, Hd. apply str_drop_app. }
        rewrite Nat.add_comm, <-str_drop_drop, str_drop_app in Hd2.
        revert Hd2. clear. generalize (S (String.length x)) as n. revert r.
        induction rest as [|c rest IH]; intros r n Hd.
        - exists "". by destruct n.
        - destruct n as [|n]; [by exists ""|]. simpl in Hd.
          destruct (IH _ _ Hd) as [z ->]. by exists (String c z). }
      by exists z.
    + destruct IH as (a & b & z & -> & ->). by exists (String c a), (z +:+ r), z.
Qed.

Lemma match_middle_spec ps pre t :
  match_middle ps (pre +:+ t) (String.length pre) = true ↔ occur ps t.
Proof.
  revert pre t. induction ps as [|p ps IH]; intros pre t; [done|].
  cbn [match_middle]. rewrite str_drop_app. split.
  - destruct (find_sub p t) as [[a b]|] eqn:Hf; [|done].
    apply find_sub_Some in Hf as ->. intros H. exists a, b. split; [done|].
    apply (IH (pre +:+ a +:+ p)). rewrite !str_app_assoc, !str_length_app. exact H.
  - intros (x & t' & -> & Ho). destruct (find_sub_first p x t') as (a & b & z & Hf & ->).
    rewrite Hf. apply find_sub_Some in Hf. rewrite Hf.
    specialize (IH (pre +:+ a +:+ p) (z +:+ t')).
    rewrite !str_app_assoc, !str_length_app in IH. apply IH. by apply occur_app.
Qed.

Lemma parts_match_snoc first mid lst t :
  parts_match (first :: mid ++ [lst]) t ↔
  ∃ body, t = first +:+ body +:+ lst ∧ occur mid body.
Proof.
  revert first t. induction mid as [|m mid IH]; intros first t.
  - split.
    + intros (x & t' & -> & ->). by exists x.
    + intros (body & -> & _). by exists body, lst.
  - change (parts_match (first :: (m :: mid) ++ [lst]) t) with
      (∃ x t', t = first +:+ x +:+ t' ∧ parts_match (m :: mid ++ [lst]) t').
    setoid_rewrite IH. split.
    + intros (x & t' & -> & body & -> & Ho). exists (x +:+ m +:+ body).
      str_simpl. split; [done|]. by exists x, body.
    + intros (body & -> & x & t' & -> & Ho). exists x, (m +:+ t' +:+ lst).
      str_simpl. split; [done|]. by exists t'.
Qed.

Lemma split_star_single p : str_contains_char "*" p = false → split_on is_star p = [p].
Proof.
  unfold str_contains_char. rewrite negb_false_iff. apply split_on_none.
Qed.

Lemma split_star_many p : str_contains_char "*" p = true →
  ∃ first mid lst, split_on is_star p = first :: mid ++ [lst].
Proof.
  intros Hc. assert (Hn : ∀ x, split_on is_star p ≠ [x]).
  { intros x Hx. pose proof (split_on_parts is_star p) as Hp. rewrite Hx in Hp. inv Hp.
    assert (p = x) as ->; [|unfold str_contains_char in Hc;
      rewrite negb_true_iff in Hc; unfold is_star in *; congruence].
    clear Hc H1 H2. revert x Hx. induction p as [|c p IH]; intros x Hx; simpl in Hx; [congruence|].
    destruct (is_star c); [by destruct (split_on is_star p) eqn:E; [destruct (split_on_nonempty _ _ E)|]|].
    destruct (split_on is_star p) as [|y l] eqn:E; [destruct (split_on_nonempty _ _ E)|].
    injection Hx as <- ->. by rewrite (IH y eq_refl). }
  destruct (split_on is_star p) as [|first rest] eqn:E; [destruct (split_on_nonempty _ _ E)|].
  destruct (exists_last (l := rest)) as (mid & lst & ->); [intros ->; by apply (Hn first)|].
  by exists first, mid, lst.
Qed.

(** What the code accepts for a pattern with a star. *)
Lemma glob_matches_star pattern text first mid lst :
  split_on is_star (to_ascii_lowercase pattern) = first :: mid ++ [lst] →
  str_contains_char "*" (to_ascii_lowercase pattern) = true →
  glob_matches pattern text = true ↔
  ∃ rest body, to_ascii_lowercase text = first +:+ rest ∧ occur mid rest ∧ rest = body +:+ lst.
Proof.
  intros Hs Hc. unfold glob_matches. rewrite Hc, Hs. simpl.
  rewrite last_snoc, removelast_last. simpl.
  set (t := to_ascii_lowercase text). split.
  - repeat case_decide; try done. intros Hm.
    assert (Hsw : starts_with first t = true).
    { destruct (decide (first = "")) as [->|]; [by apply starts_with_spec; exists t|].
      destruct (starts_with first t) eqn:?; naive_solver. }
    assert (Hew : ends_with lst t = true).
    { destruct (decide (lst = "")) as [->|]; [apply ends_with_spec; exists t; by str_simpl|].
      destruct (ends_with lst t) eqn:?; naive_solver. }
    apply starts_with_spec in Hsw as [rest Hr]. apply ends_with_spec in Hew as [x Hx].
    rewrite Hr in Hm. apply match_middle_spec in Hm.
    assert (Hlen : String.length first ≤ String.length x).
    { rewrite Hx, str_length_app in *. lia. }
    exists rest, (str_drop (String.length first) x). split_and!; [done..|].
    assert (E : first +:+ rest = x +:+ lst) by congruence. revert Hlen E. clear.
    revert x. induction first as [|c first IH]; intros x Hl E.
    + rewrite str_app_nil_l in E. by destruct x.
    + destruct x as [|d x]; [simpl in Hl; lia|]. rewrite !str_app_cons in E. injection E as <- E.
      simpl in *. apply IH; [lia|done].
  - intros (rest & body & Ht & Ho & ->). rewrite Ht.
    assert (Hsw : starts_with first (first +:+ body +:+ lst) = true)
      by (apply starts_with_spec; by eexists).
    assert (Hew : ends_with lst (first +:+ body +:+ lst) = true)
      by (apply ends_with_spec; exists (first +:+ body); by str_simpl).
    rewrite Hsw, Hew. rewrite decide_False by (by intros [_ ?]).
    rewrite decide_False by (by intros [_ ?]).
    rewrite decide_False by (rewrite !str_length_app; lia). by apply match_middle_spec.
Qed.

(** Host name patterns. A text that a [*] pattern means is always accepted, and with
    at most one star exactly those texts are accepted, without regard to ASCII case. With
    more stars the code accepts more than the pattern means, because a middle part may
    overlap the last one: [a*b*b] accepts [ab]. *)
Theorem glob_matches_correct (pattern text : string) :
  (glob_spec pattern text → glob_matches pattern text = true) ∧
  (length (split_on is_star pattern) ≤ 2 →
     glob_matches pattern text = true → glob_spec pattern text) ∧
  (glob_matches "a*b*b" "ab" = true ∧ ¬ glob_spec "a*b*b" "ab").
Proof.
  assert (Hlen : length (split_on is_star (to_ascii_lowercase pattern)) =
                 length (split_on is_star pattern)).
  { induction pattern as [|c p IH]; [done|]. simpl.
    assert (Hc : is_star (ascii_lower c) = is_star c) by (destruct c as [[][][][][][][][]]; vm_compute; reflexivity).
    unfold to_ascii_lowercase in *. rewrite Hc. destruct (is_star c); simpl; [by rewrite IH|].
    destruct (split_on is_star (string_map ascii_lower p)) eqn:E1, (split_on is_star p) eqn:E2;
      simpl in *; congruence. }
  unfold glob_spec. split_and!.
  - intros Hspec. destruct (str_contains_char "*" (to_ascii_lowercase pattern)) eqn:Hc.
    + destruct (split_star_many _ Hc) as (first & mid & lst & Hs).
      apply (glob_matches_star _ _ _ _ _ Hs Hc). rewrite Hs in Hspec.
      apply parts_match_snoc in Hspec as (body & -> & Ho).
      exists (body +:+ lst), body. split_and!; try done.
      clear -Ho. revert body Ho. induction mid as [|m mid IH]; intros body; [done|].
      intros (x & t' & -> & Ho). exists x, (t' +:+ lst). str_simpl. split; [done|]. auto.
    + rewrite (split_star_single _ Hc) in Hspec. simpl in Hspec.
      unfold glob_matches. rewrite Hc. simpl. by apply bool_decide_eq_true.
  - rewrite <-Hlen. intros Hl Hm. destruct (str_contains_char "*" (to_ascii_lowercase pattern)) eqn:Hc.
    + destruct (split_star_many _ Hc) as (first & mid & lst & Hs).
      apply (glob_matches_star _ _ _ _ _ Hs Hc) in Hm as (rest & body & Ht & Ho & ->).
      rewrite Hs in *. simpl in Hl. rewrite length_app in Hl. simpl in Hl.
      destruct mid; [|simpl in Hl; lia]. apply parts_match_snoc. by exists body.
    + rewrite (split_star_single _ Hc). unfold glob_matches in Hm. rewrite Hc in Hm.
      simpl in Hm. apply bool_decide_eq_true in Hm. simpl. congruence.
  - vm_compute. reflexivity.
  - intros (x & t' & E & y & u & E' & Hu). simpl in Hu. subst u.
    vm_compute in E. injection E as E. subst t'.
    apply (f_equal String.length) in E. rewrite !str_length_app in E. simpl in E. lia.
Qed.
