(* ===== verification/Tags.v ===== *)
(** * Tags from untrusted sources (crates/llmenv-scope/src/tags.rs, matcher.rs)

    The charset, length and count limits of tags, and the tags of
    [$LLMENV_EXTRA_TAGS]. A dropped tag is reported to the agent, so each operation
    gives its notices with its result. *)

From S2P Require Import Prelude RustStr TaskStore.

(** What [agent_notice::record_logged] is called with. *)
Inductive scope_notice :=
| DroppedCharset (source tag : string)
| DroppedLong (source tag : string)
| Truncated (source : string) (count : nat)
| AggregateCut (total : nat)
| InvalidGlob (id glob : string)
| CwdUnreadable
| MarkerUnreadable
| MarkerMalformed.

(** A result with the notices recorded on the way. *)
Definition logged (A : Type) : Type := list scope_notice * A.
Global Instance logged_ret : MRet logged := λ A a, ([], a).
Global Instance logged_bind : MBind logged := λ A B f m, ((m.1 ++ (f m.2).1), (f m.2).2).
Definition log (n : scope_notice) : logged unit := ([n], tt).

Definition is_tag_char (c : ascii) : bool :=
  is_ascii_alphanumeric c || Ascii.eqb c "-" || Ascii.eqb c "_".
Definition is_valid_tag_charset (tag : string) : bool :=
  negb (bool_decide (tag = "")) && str_all is_tag_char tag.

Definition MAX_TAG_LEN : nat := 64.
Definition MAX_TAGS_PER_SOURCE : nat := 64.

(** The loop of [sanitize_tags]. *)
Fixpoint sanitize_loop (source : string) (raw : list string) : logged (list string) :=
  match raw with
  | [] => mret []
  | tag :: raw =>
    if negb (is_valid_tag_charset tag) then
      log (DroppedCharset source tag);; sanitize_loop source raw
    else if decide (MAX_TAG_LEN < String.length tag) then
      log (DroppedLong source tag);; sanitize_loop source raw
    else valid ← sanitize_loop source raw; mret (tag :: valid)
  end.
Definition sanitize_tags (raw : list string) (source : string) : logged (list string) :=
  valid ← sanitize_loop source raw;
  if decide (MAX_TAGS_PER_SOURCE < length valid) then
    log (Truncated source (length valid));; mret (take MAX_TAGS_PER_SOURCE valid)
  else mret valid.

(** A [BTreeSet<String>] in its iteration order. *)
Definition in_order (tags : gset string) : list string := merge_sort str_le (elements tags).
Definition cap_aggregate_tags (tags : gset string) : logged (gset string) :=
  if decide (size tags ≤ MAX_TAGS_PER_SOURCE) then mret tags
  else log (AggregateCut (size tags));; mret (list_to_set (take MAX_TAGS_PER_SOURCE (in_order tags))).

(** [$LLMENV_EXTRA_TAGS]. *)
Definition is_comma (c : ascii) : bool := Ascii.eqb c ",".
Definition parse_extra_tags (raw : string) : logged (list string) :=
  sanitize_tags (filter (λ t, t ≠ "") (trim <$> split_on is_comma raw)) "$LLMENV_EXTRA_TAGS".

Inductive extra_tags_error := ExtraTagsNotUtf8.
Definition extra_tags_from_var (value : env_var) : logged (result extra_tags_error (list string)) :=
  match value with
  | Value raw => tags ← parse_extra_tags raw; mret (Ok tags)
  | NotPresent => mret (Ok [])
  | NotUnicode => mret (Err ExtraTagsNotUtf8)
  end.
Definition extra_tags_from_env (value : env_var) : logged (list string) :=
  r ← extra_tags_from_var value; mret (match r with Ok tags => tags | Err _ => [] end).

(** The keywords under which memory is stored (lib.rs). *)
Inductive keyword_error := InvalidTag (tag : string) | InvalidBundle (bundle : string).
Definition tag_keyword (tag : string) : result keyword_error string :=
  if negb (is_valid_tag_charset tag) then Err (InvalidTag tag) else Ok ("llmenv-tag:" +:+ tag).
Definition bundle_keyword (bundle : string) : result keyword_error string :=
  if negb (is_valid_tag_charset bundle) then Err (InvalidBundle bundle)
  else Ok ("llmenv-bundle:" +:+ bundle).

(** ** Lemmas *)

(** A tag that passes both checks. *)
Definition good_tag (tag : string) : Prop :=
  is_valid_tag_charset tag = true ∧ String.length tag ≤ MAX_TAG_LEN.
Global Instance good_tag_dec tag : Decision (good_tag tag).
Proof. unfold good_tag. apply _. Defined.

Lemma sanitize_loop_spec source raw :
  (sanitize_loop source raw).2 = filter good_tag raw ∧
  ∀ t, t ∈ raw → ¬ good_tag t →
    DroppedCharset source t ∈ (sanitize_loop source raw).1 ∨
    DroppedLong source t ∈ (sanitize_loop source raw).1.
Proof.
  induction raw as [|tag raw [IH1 IH2]]; [split; [done|]; by intros t ?%elem_of_nil|].
  cbn [sanitize_loop]. destruct (is_valid_tag_charset tag) eqn:Hc; simpl.
  - case_decide as Hl.
    + rewrite filter_cons_False by (intros [_ ?]; lia). split; [done|].
      intros t [->|Ht]%elem_of_cons Hn; [right; by left|].
      destruct (IH2 t Ht Hn); [left|right]; by right.
    + rewrite filter_cons_True by (split; [done|lia]). simpl. rewrite IH1. split; [done|].
      rewrite app_nil_r. intros t [->|Ht]%elem_of_cons Hn; [|by apply IH2].
      exfalso. apply Hn. split; [done|lia].
  - rewrite filter_cons_False by (intros [? _]; congruence). split; [done|].
    intros t [->|Ht]%elem_of_cons Hn; [left; by left|].
    destruct (IH2 t Ht Hn); [left|right]; by right.
Qed.

Lemma sanitize_tags_result raw source :
  (sanitize_tags raw source).2 = take MAX_TAGS_PER_SOURCE (filter good_tag raw).
Proof.
  unfold sanitize_tags. destruct (sanitize_loop_spec source raw) as [<- _].
  unfold mbind, logged_bind. simpl. case_decide as Hd; simpl; [done|].
  rewrite take_ge; [done|]. unfold MAX_TAGS_PER_SOURCE in *. lia.
Qed.

Lemma sanitize_tags_good raw source t : t ∈ (sanitize_tags raw source).2 → good_tag t ∧ t ∈ raw.
Proof.
  rewrite sanitize_tags_result. intros Ht.
  assert (t ∈ filter good_tag raw) as [? ?]%list_elem_of_filter; [|done].
  rewrite <-(take_drop MAX_TAGS_PER_SOURCE (filter good_tag raw)). apply elem_of_app. by left.
Qed.

Lemma tag_char_not_ws c s : is_tag_char c = true → ws_len (String c s) = 0.
Proof.
  intros Hc. destruct c as [[][][][][][][][]]; vm_compute in Hc; try discriminate Hc;
    vm_compute; first [reflexivity|by destruct s as [|? []]].
Qed.

Lemma trim_start_no_ws s : ws_len s = 0 → trim_start s = s.
Proof. unfold trim_start. destruct s; [done|]. intros H. cbn [trim_start_go]. by rewrite H. Qed.
Lemma trim_end_no_ws s : (∀ a b, s = a +:+ b → ws_len b = 0) → trim_end s = s.
Proof.
  unfold trim_end. induction s as [|c s IH]; intros H; [done|]. cbn [trim_end_go].
  rewrite (H "" (String c s) eq_refl), IH; [done|]. intros a b ->. by apply (H (String c a)).
Qed.

Lemma trim_tag s : str_all is_tag_char s = true → trim s = s.
Proof.
  intros Hs. assert (Hb : ∀ a b, s = a +:+ b → ws_len b = 0).
  { intros a b ->. rewrite str_all_app, andb_true_iff in Hs. destruct Hs as [_ Hb].
    destruct b; [done|]. simpl in Hb. apply andb_true_iff in Hb as [Hb _]. by apply tag_char_not_ws. }
  unfold trim. rewrite trim_start_no_ws; [by apply trim_end_no_ws|]. by apply (Hb "").
Qed.

Lemma good_tag_no_comma t : good_tag t → str_all (λ c, negb (is_comma c)) t = true.
Proof.
  intros [Hc _]. unfold is_valid_tag_charset in Hc. apply andb_true_iff in Hc as [_ Hc].
  revert Hc. apply str_all_impl. intros c Hc.
  destruct c as [[][][][][][][][]]; vm_compute in Hc; try discriminate Hc; vm_compute; reflexivity.
Qed.

(** ** Properties *)

(** Tags from an untrusted source. The tags kept are the first 64 of those with a valid
    charset and at most 64 bytes, in the order given; and no tag vanishes silently: one that
    is not kept is named in a notice, or the notice of the cut list is there. *)
Theorem sanitize_tags_correct (raw : list string) (source : string) :
  let notices := (sanitize_tags raw source).1 in
  let kept := (sanitize_tags raw source).2 in
  kept = take 64 (filter good_tag raw) ∧ length kept ≤ 64 ∧
  ∀ t, t ∈ raw → t ∉ kept →
    DroppedCharset source t ∈ notices ∨ DroppedLong source t ∈ notices ∨
    ∃ n, 64 < n ∧ Truncated source n ∈ notices.
Proof.
  intros notices kept. split_and!.
  - apply sanitize_tags_result.
  - subst kept. rewrite sanitize_tags_result, length_take. unfold MAX_TAGS_PER_SOURCE. lia.
  - intros t Ht Hn. subst notices kept. destruct (sanitize_loop_spec source raw) as [Hr Hd].
    rewrite sanitize_tags_result in Hn. unfold sanitize_tags, mbind, logged_bind. simpl.
    destruct (decide (good_tag t)) as [Hg|Hg].
    + right; right. rewrite Hr. exists (length (filter good_tag raw)).
      assert (Hl : MAX_TAGS_PER_SOURCE < length (filter good_tag raw)).
      { destruct (decide (MAX_TAGS_PER_SOURCE < length (filter good_tag raw))); [done|].
        exfalso. apply Hn. rewrite take_ge by lia. by apply list_elem_of_filter. }
      split; [done|]. rewrite decide_True by done. simpl. apply elem_of_app. right. left.
    + destruct (Hd t Ht Hg); [left|right; left]; apply elem_of_app; by left.
Qed.

(** The format of [$LLMENV_EXTRA_TAGS] round-trips: at most 64 valid tags joined with
    commas are read back as they are, with no notice. *)
Theorem extra_tags_roundtrip (tags : list string) :
  Forall good_tag tags → length tags ≤ 64 → parse_extra_tags (join "," tags) = ([], tags).
Proof.
  intros Hg Hl. unfold parse_extra_tags. destruct (decide (tags = [])) as [->|Hne]; [done|].
  assert (Hs : split_on is_comma (join "," tags) = tags).
  { apply (split_on_join is_comma ","); [done..|].
    eapply Forall_impl; [exact Hg|]. apply good_tag_no_comma. }
  rewrite Hs. assert (Hf : filter (λ t, t ≠ "") (trim <$> tags) = tags).
  { clear Hs Hl Hne. induction Hg as [|t tags Ht Hg IH]; [done|]. rewrite fmap_cons.
    destruct Ht as [Hc _]. unfold is_valid_tag_charset in Hc.
    apply andb_true_iff in Hc as [Hn Hc]. apply negb_true_iff, bool_decide_eq_false in Hn.
    rewrite (trim_tag _ Hc), filter_cons_True by done. by rewrite IH. }
  rewrite Hf. clear Hs Hf Hne.
  assert (Hloop : ∀ src, sanitize_loop src tags = ([], tags)).
  { clear Hl. intros src. induction Hg as [|t tags [Hc Ht] Hg IH]; [done|]. cbn [sanitize_loop].
    rewrite Hc. simpl. rewrite decide_False by lia. by rewrite IH. }
  unfold sanitize_tags. rewrite Hloop. unfold mbind, logged_bind. simpl.
  unfold MAX_TAGS_PER_SOURCE. rewrite decide_False by lia. done.
Qed.
