(* ===== verification/Marker.v ===== *)
(** * The project marker file (crates/llmenv-scope/src/marker_file.rs, marker_link.rs,
    crates/llmenv-paths/src/bounded_read.rs)

    How [.llmenv.yaml] is found, which file is read for it when it is a link, and
    what is taken from it. A cloned repository controls the marker, so the walk, the
    links and the sizes are all bounded. [FileSystem] is what the operating system
    and serde_yaml answer. *)

From S2P Require Import Prelude RustStr Names TaskStore Tags.

(** A path as [Path::components] gives it. *)
Abbreviation path := (list component).

(** An open file: whether it is a regular file, and its bytes or the error of the read. *)
Record open_file := mkOpenFile { of_regular : bool; of_read : result io_kind string }.

(** The fields of [ProjectFile]; [pf_extra] has the keys of the other fields. *)
Record ProjectFile := mkProjectFile {
  pf_id : option string;
  pf_name : option string;
  pf_description : option string;
  pf_tags : list string;
  pf_enable_bundles : list string;
  pf_disable_bundles : list string;
  pf_extra : list string }.
Definition project_file_default : ProjectFile := mkProjectFile None None None [] [] [] [].

Class FileSystem := {
  fs_open : path → result io_kind open_file;
  fs_lstat : path → result io_kind bool;        (** whether the entry is a link *)
  fs_read_link : path → result io_kind string;
  fs_canonicalize : path → result io_kind path;
  utf8_ok : string → bool;
  project_from_yaml : string → option ProjectFile }.

(** [ResolvedProject]. *)
Record ResolvedProject := mkProject {
  rp_root : path;
  rp_id : string;
  rp_name : string;
  rp_description : option string;
  rp_tags : list string;
  rp_enable_bundles : list string;
  rp_disable_bundles : list string;
  rp_unknown_fields : list string }.

Definition MAX_LINKS : nat := 40.
Definition MAX_DESCRIPTION_BYTES : nat := 1024.
Definition MAX_MARKER_FILE_BYTES : N := 65536.

(** [str::is_char_boundary] and [String::truncate]. *)
Definition is_char_boundary (s : string) (i : nat) : bool :=
  if decide (i = 0 ∨ i = String.length s) then true
  else match String.get i s with
       | Some c => negb (in_range 128 191 c)
       | None => false
       end.
Definition truncate_at_char_boundary (s : string) (max : nat) : bool * string :=
  if decide (String.length s ≤ max) then (false, s)
  else
    let cut := default 0 (find_first (λ i, is_char_boundary s i = true) (rev (seq 0 (S max)))) in
    (true, String.substring 0 cut s).

Definition MARKER : component := Normal ".llmenv.yaml".

(** [Path::file_name] and [Path::parent]. *)
Definition file_name (p : path) : option string :=
  match last p with Some (Normal s) => Some s | _ => None end.
Definition parent_path (p : path) : option path :=
  match last p with Some RootDir | None => None | Some _ => Some (removelast p) end.
(** [Path::strip_prefix]. *)
Fixpoint strip_path (root p : path) : option path :=
  match root, p with
  | [], p => Some p
  | a :: root, b :: p => if decide (a = b) then strip_path root p else None
  | _ :: _, [] => None
  end.

Section marker.
Context `{FileSystem}.

(** ** Bounded reads *)

Definition read_open_file (f : open_file) (max_bytes : N) : result io_kind string :=
  if of_regular f then
    match of_read f with
    | Ok bytes => if decide (max_bytes < N.of_nat (String.length bytes))%N then Err InvalidData
                  else Ok bytes
    | Err e => Err e
    end
  else Err InvalidData.
Definition read_file_bounded (p : path) (max_bytes : N) : result io_kind (option string) :=
  match fs_open p with
  | Ok file =>
    match read_open_file file max_bytes with Ok bytes => Ok (Some bytes) | Err e => Err e end
  | Err NotFound =>
    match fs_lstat p with
    | Ok _ => Err InvalidData
    | Err NotFound => Ok None
    | Err e => Err e
    end
  | Err e => Err e
  end.
Definition read_text_bounded (p : path) (max_bytes : N) : result io_kind (option string) :=
  match read_file_bounded p max_bytes with
  | Ok (Some bytes) => if utf8_ok bytes then Ok (Some bytes) else Err InvalidData
  | Ok None => Ok None
  | Err e => Err e
  end.

(** ** Links (marker_link.rs)

    The state is the list of the paths that were looked at. *)

Definition L (A : Type) : Type := ST (list path) io_kind A.
Definition look {A} (p : path) (r : result io_kind A) : L A := λ s, (r, s ++ [p]).

(** [push_front]: the components of [rel] in front of [pending]. *)
Fixpoint rel_parts (rel : path) : option (list string) :=
  match rel with
  | [] => Some []
  | Normal s :: rel => cons s <$> rel_parts rel
  | ParentDir :: rel => cons ".." <$> rel_parts rel
  | CurDir :: rel => rel_parts rel
  | RootDir :: _ => None
  end.
Definition push_front (pending : list string) (rel : path) : result io_kind (list string) :=
  match rel_parts rel with Some parts => Ok (parts ++ pending) | None => Err PermissionDenied end.

(** The target of a link: where the walk goes on, and what is pending. *)
Definition follow (root resolved : path) (pending : list string) (target : string)
  : result io_kind (path * list string) :=
  if is_absolute target then
    match strip_path root (components target) with
    | Some inside => pending ← push_front pending inside; Ok (root, pending)
    | None => Err PermissionDenied
    end
  else pending ← push_front pending (components target); Ok (resolved, pending).

(** The loop of [resolve_inside]: [links] is how many links it may still follow. *)
Fixpoint resolve_loop (links : nat) (root : path) : path → list string → L path :=
  fix go (resolved : path) (pending : list string) : L path :=
    match pending with
    | [] => mret resolved
    | part :: pending =>
      if decide (part = "..") then
        if decide (resolved = root) then st_fail PermissionDenied
        else go (removelast resolved) pending
      else
        let next := resolved ++ [Normal part] in
        is_link ← look next (match fs_lstat next with
                             | Ok b => Ok b
                             | Err NotFound => Ok false
                             | Err e => Err e
                             end);
        if is_link : bool then
          match links with
          | 0 => st_fail PermissionDenied
          | S links =>
            target ← look next (fs_read_link next);
            on ← st_lift (follow root resolved pending target);
            resolve_loop links root on.1 on.2
          end
        else go next pending
    end.
Definition resolve_inside (root rel : path) : L path :=
  pending ← st_lift (push_front [] rel);
  resolve_loop MAX_LINKS root root pending.

Definition read_marker (p : path) (max_bytes : N) : result io_kind (option string) :=
  match parent_path p with
  | None => Err PermissionDenied
  | Some dir =>
    match fs_lstat p with
    | Err NotFound => Ok None
    | Err e => Err e
    | Ok false => read_text_bounded p max_bytes
    | Ok true =>
      root ← fs_canonicalize dir;
      target ← (resolve_inside root (option_list (Normal <$> file_name p)) []).1;
      text ← read_text_bounded target max_bytes;
      match text with Some text => Ok (Some text) | None => Err NotFound end
    end
  end.

(** ** The marker (marker_file.rs) *)

Definition read_project_file (p : path) : logged ProjectFile :=
  match read_marker p MAX_MARKER_FILE_BYTES with
  | Ok None => mret project_file_default
  | Err _ => log MarkerUnreadable;; mret project_file_default
  | Ok (Some body) =>
    if decide (trim body = "") then mret project_file_default
    else
      match project_from_yaml body with
      | Some pf =>
        mret (mkProjectFile (pf_id pf) (pf_name pf)
          ((λ d, (truncate_at_char_boundary d MAX_DESCRIPTION_BYTES).2) <$> pf_description pf)
          (pf_tags pf) (pf_enable_bundles pf) (pf_disable_bundles pf) (pf_extra pf))
      | None => log MarkerMalformed;; mret project_file_default
      end
  end.

Definition known_field (k : string) : Prop :=
  k ∈ ["id"; "name"; "description"; "tags"; "enable_bundles"; "disable_bundles"].
#[global] Instance known_field_dec k : Decision (known_field k).
Proof. unfold known_field. apply _. Defined.

Definition resolved_project (cur : path) : logged ResolvedProject :=
  pf ← read_project_file (cur ++ [MARKER]);
  let basename := default "llmenv" (file_name cur) in
  tags ← sanitize_tags (pf_tags pf) ".llmenv.yaml";
  enable ← sanitize_tags (pf_enable_bundles pf) ".llmenv.yaml enable_bundles";
  disable ← sanitize_tags (pf_disable_bundles pf) ".llmenv.yaml disable_bundles";
  mret (mkProject cur (default basename (pf_id pf)) (default basename (pf_name pf))
    (pf_description pf) tags enable disable
    (filter (λ k, ¬ known_field k) (pf_extra pf))).

Definition has_marker (cur : path) : bool := is_ok (fs_lstat (cur ++ [MARKER])).

(** The walk of [discover_project]. The path is reversed, so that [pop] drops the head. *)
Fixpoint discover_walk (home : option path) (rcur : path) : logged (option ResolvedProject) :=
  if has_marker (rev rcur) then
    p ← resolved_project (rev rcur); mret (Some p)
  else if decide (home = None ∨ home = Some (rev rcur)) then mret None
  else
    match rcur with
    | [] | RootDir :: _ => mret None
    | _ :: rcur => discover_walk home rcur
    end.
Definition discover_project (cwd : string) (home : option string)
  : logged (option ResolvedProject) :=
  discover_walk (components <$> home) (rev (components cwd)).
End marker.

(** ** Laws of the marker file

    A marker link never leads out of its folder; the walk for the marker finds the
    nearest one among the folders it may visit; and what it gives is bounded. *)
Section laws.
Context `{HF : FileSystem}.

(** ** Links *)

(** [q] is strictly inside the folder [root]. *)
Definition under (root q : path) : Prop := root `prefix_of` q ∧ q ≠ root.
(** An entry that is no link: a file, a folder, or nothing. *)
Definition no_link (q : path) : Prop := fs_lstat q = Ok false ∨ fs_lstat q = Err NotFound.
(** A path that is inside [root] and goes through no link there. *)
Definition contained (root p : path) : Prop :=
  root `prefix_of` p ∧ ∀ q, under root q → q `prefix_of` p → no_link q.

Lemma contained_root root : contained root root.
Proof.
  split; [done|]. intros q [Hq Hne] Hp. destruct Hne. by apply (anti_symm prefix).
Qed.

Lemma prefix_removelast (q p : path) : q `prefix_of` removelast p → q `prefix_of` p.
Proof.
  intros Hq. destruct p as [|x p] using rev_ind; [done|].
  rewrite removelast_last in Hq. by apply prefix_app_r.
Qed.

Lemma contained_pop root p : contained root p → p ≠ root → contained root (removelast p).
Proof.
  intros [Hr Hl] Hne. split; [|intros q Hq Hp; apply Hl; [done|]; by apply prefix_removelast].
  destruct Hr as [k ->]. destruct k as [|x k _] using rev_ind; [by rewrite app_nil_r in Hne|].
  rewrite app_assoc, removelast_last. by apply prefix_app_r.
Qed.

Lemma under_snoc root p x : root `prefix_of` p → under root (p ++ [x]).
Proof.
  intros [k ->]. split; [rewrite <-app_assoc; by apply prefix_app_r|].
  intros E. apply (f_equal length) in E. rewrite !length_app in E. simpl in E. lia.
Qed.

Lemma contained_snoc root p x : contained root p → no_link (p ++ [x]) → contained root (p ++ [x]).
Proof.
  intros [Hr Hl] Hn. split; [by apply under_snoc|].
  intros q Hq Hp. apply prefix_snoc_inv in Hp as [->|Hp]; [done|]. by apply Hl.
Qed.

Lemma follow_contained root resolved pending target p ps :
  contained root resolved → follow root resolved pending target = Ok (p, ps) → contained root p.
Proof.
  intros Hc. unfold follow. destruct (is_absolute target).
  - destruct (strip_path root (components target)); [|done].
    destruct (push_front pending _); [|done]. intros [= <- <-]. apply contained_root.
  - destruct (push_front pending _); [|done]. by intros [= <- <-].
Qed.

Lemma resolve_loop_inv links root resolved pending s r s' :
  contained root resolved → Forall (under root) s →
  resolve_loop links root resolved pending s = (r, s') →
  Forall (under root) s' ∧ ∀ p, r = Ok p → contained root p.
Proof.
  revert resolved pending s. induction links as [|links IH]; intros resolved pending s;
    revert resolved s; induction pending as [|part pending IHp]; intros resolved s Hc Hs.
  1, 3: intros [= <- <-]; split; [done|]; by intros p [= <-].
  all: cbn [resolve_loop]; destruct (decide (part = "..")).
  1, 3: destruct (decide (resolved = root)) as [|Hne];
    [by intros [= <- <-]|]; apply IHp; [by apply contained_pop|done].
  all: assert (Hu : Forall (under root) (s ++ [resolved ++ [Normal part]]))
    by (apply Forall_app; split; [done|]; constructor; [|done]; apply under_snoc, Hc).
  all: unfold look, mbind, st_bind; cbn [fst snd];
    destruct (fs_lstat (resolved ++ [Normal part])) as [[]|[]] eqn:El.
  all: try (by intros [= <- <-]).
  all: try (apply IHp; [|done]; apply contained_snoc; [done|]; (by left) || (by right)).
  destruct (fs_read_link (resolved ++ [Normal part])) as [target|e]; cbn [fst snd];
    [|intros [= <- <-]; split; [by apply Forall_app; split; [|constructor; [apply under_snoc, Hc|]]|done]].
  unfold st_lift. destruct (follow root resolved pending target) as [[p ps]|e] eqn:Ef.
  - apply IH; [by eapply follow_contained|].
    apply Forall_app. split; [done|]. constructor; [apply under_snoc, Hc|done].
  - intros [= <- <-]. split; [|done].
    apply Forall_app. split; [done|]. constructor; [apply under_snoc, Hc|done].
Qed.

(** A marker link is followed only inside the folder of the marker. Whatever the links
    are, and whether it succeeds or not, [resolve_inside] looks only at paths strictly
    inside [root]; and the path it gives is inside [root] and goes through no link there. *)
Theorem resolve_inside_contained (root rel p : path) (r : result io_kind path) (looked : list path) :
  resolve_inside root rel [] = (r, looked) →
  Forall (under root) looked ∧ (r = Ok p → contained root p).
Proof.
  unfold resolve_inside, st_lift, mbind, st_bind.
  destruct (push_front [] rel) as [pending|e]; cbn [fst snd].
  - intros Hr. apply resolve_loop_inv in Hr as [Hl Hp]; [by auto|apply contained_root|done].
  - intros [= <- <-]. by split.
Qed.

(** ** The walk *)

(** The folders that the walk for a marker may visit. The home folder bounds it only when
    it is above the working directory. *)
Definition visited (home : option path) (cwd q : path) : Prop :=
  q `prefix_of` cwd ∧ (q = [] → head cwd ≠ Some RootDir) ∧
  match home with None => q = cwd | Some h => h `prefix_of` cwd → h `prefix_of` q end.

(** The same, by what stops the walk on the way down to [q]. *)
Definition reach (home : option path) (cur q : path) : Prop :=
  q `prefix_of` cur ∧ ∀ q', q `prefix_of` q' → q' ≠ q → q' `prefix_of` cur →
    home ≠ None ∧ home ≠ Some q' ∧ last q' ≠ Some RootDir.

Lemma reach_visited home cwd q :
  (∀ k l, cwd = k ++ RootDir :: l → k = []) → reach home cwd q ↔ visited home cwd q.
Proof.
  intros Hroot. unfold reach, visited. split.
  - intros [Hq Hs]. split_and!; [done|..].
    + intros -> Hh. destruct cwd as [|c cwd]; [done|]. injection Hh as ->.
      destruct (Hs [RootDir]) as (_ & _ & Hl); [apply prefix_nil|done|by exists cwd|]. by destruct Hl.
    + destruct home as [h|].
      * intros Hh. destruct (prefix_comparable _ _ _ Hq Hh) as [Hqh|]; [|done].
        destruct (decide (h = q)) as [->|Hne]; [done|].
        by destruct (Hs h Hqh Hne Hh) as (_ & [] & _).
      * destruct (decide (cwd = q)) as [|Hne]; [done|].
        by destruct (Hs cwd Hq Hne) as [[] _].
  - intros (Hq & Hn & Hh). split; [done|]. intros q' Hqq Hne Hq'. split_and!.
    + intros ->. subst q. apply Hne. by apply (anti_symm prefix).
    + intros ->. apply Hne. apply (anti_symm prefix); [by apply Hh|done].
    + intros Hl. apply last_Some in Hl as [k ->]. destruct Hq' as [l ->].
      rewrite <-app_assoc in Hroot, Hn. specialize (Hroot k l eq_refl) as ->.
      apply prefix_snoc_inv in Hqq as [->|Hqq]; [done|]. apply prefix_nil_inv in Hqq as ->. by apply Hn.
Qed.

Lemma discover_walk_spec home rcur ns o :
  discover_walk home rcur = (ns, o) →
  match o with
  | Some p => (resolved_project (rp_root p)).2 = p ∧ reach home (rev rcur) (rp_root p) ∧
      has_marker (rp_root p) = true ∧
      ∀ q, reach home (rev rcur) q → has_marker q = true → q `prefix_of` rp_root p
  | None => ∀ q, reach home (rev rcur) q → has_marker q = false
  end.
Proof.
  revert ns o. induction rcur as [|c rcur IH]; intros ns o; cbn [discover_walk].
  all: match goal with |- context [has_marker ?p] => set (cur := p) end.
  all: destruct (has_marker cur) eqn:Hm;
    [unfold mbind, logged_bind; intros [= _ <-]; cbn; split_and!;
      [by unfold resolved_project, mbind, logged_bind
      |split; [done|]; intros q' H1 H2 H3; destruct H2; by apply (anti_symm prefix)
      |done|by intros q [Hq _] _]|].
  all: destruct (decide (home = None ∨ home = Some cur)) as [Hs|Hs];
    [intros [= _ <-]; intros q [Hq Hr]; destruct (decide (cur = q)) as [<-|Hne]; [done|];
     by destruct (Hr cur Hq Hne) as (? & ? & _), Hs|].
  - intros [= _ <-]. intros q [Hq _]. by apply prefix_nil_inv in Hq as ->.
  - assert (Hcur : cur = rev rcur ++ [c]) by done. clearbody cur.
    (* below a folder that is not the root, the walk goes on in its parent *)
    assert (Hup : c ≠ RootDir → ∀ q, reach home cur q ↔ q = cur ∨ reach home (rev rcur) q).
    { intros Hc q. rewrite Hcur. unfold reach. split.
      - intros [Hq Hr]. apply prefix_snoc_inv in Hq as [->|Hq]; [by left|]. right. split; [done|].
        intros q' H1 H2 H3. apply Hr; [done..|]. by apply prefix_app_r.
      - intros [->|[Hq Hr]].
        + split; [done|]. intros q' H1 H2 H3. destruct H2. by apply (anti_symm prefix).
        + split; [by apply prefix_app_r|]. intros q' H1 H2 H3.
          apply prefix_snoc_inv in H3 as [->|H3]; [|by apply Hr].
          rewrite last_snoc, <-Hcur. split_and!; [naive_solver..|congruence]. }
    assert (Hstep : c ≠ RootDir → ∀ ns o, discover_walk home rcur = (ns, o) →
      match o with
      | Some p => (resolved_project (rp_root p)).2 = p ∧ reach home cur (rp_root p) ∧
          has_marker (rp_root p) = true ∧
          ∀ q, reach home cur q → has_marker q = true → q `prefix_of` rp_root p
      | None => ∀ q, reach home cur q → has_marker q = false
      end).
    { intros Hc ns' o' Hw. specialize (IH ns' o' Hw). destruct o' as [p|].
      - destruct IH as (H1 & H2 & H3 & H4). split_and!; [done|apply Hup; [done|by right]|done|].
        intros q [->|Hq]%Hup Hmq; [congruence|by apply H4|done].
      - intros q [->|Hq]%Hup; [done|by apply IH|done]. }
    destruct c; [|by apply Hstep..].
    intros [= _ <-]. intros q [Hq Hr]. destruct (decide (cur = q)) as [<-|Hne]; [done|].
    destruct (Hr cur Hq Hne) as (_ & _ & Hl); [done|]. rewrite Hcur, last_snoc in Hl. done.
Qed.

Lemma components_root cwd k l : components cwd = k ++ RootDir :: l → k = [].
Proof.
  unfold components. set (parts := split_on is_slash cwd). intros E.
  assert (Hb : RootDir ∉ parts ≫= component_of).
  { rewrite list_elem_of_bind. intros (x & Hx & _). unfold component_of in Hx.
    repeat case_decide; set_solver. }
  destruct k as [|c k]; [done|]. exfalso. apply Hb.
  destruct (is_absolute cwd); [|case_decide]; simpl in E.
  - injection E as _ E. rewrite E. set_solver.
  - injection E as _ E. rewrite E. set_solver.
  - rewrite E. set_solver.
Qed.

Lemma substring_length n s : String.length (String.substring 0 n s) ≤ n.
Proof. revert s. induction n as [|n IH]; intros [|c s]; simpl; try lia. specialize (IH s). lia. Qed.

Lemma truncate_length s max : String.length (truncate_at_char_boundary s max).2 ≤ max.
Proof.
  unfold truncate_at_char_boundary. case_decide; [done|]. cbn [snd].
  etrans; [apply substring_length|].
  destruct (find_first _ _) as [n|] eqn:E; simpl; [|lia].
  apply find_first_Some in E as [Hl _].
  apply list_elem_of_In, in_rev, list_elem_of_In, elem_of_seq in Hl. lia.
Qed.

Lemma read_project_file_bounds p d :
  pf_description (read_project_file p).2 = Some d → String.length d ≤ MAX_DESCRIPTION_BYTES.
Proof.
  unfold read_project_file. destruct (read_marker p MAX_MARKER_FILE_BYTES) as [[body|]|]; [|done..].
  case_decide; [done|]. destruct (project_from_yaml body) as [pf|]; [|done]. simpl.
  destruct (pf_description pf); [|done]. intros [= <-]. apply truncate_length.
Qed.

Lemma sanitized_good raw source : Forall good_tag (sanitize_tags raw source).2.
Proof. apply Forall_forall. intros t Ht. by apply sanitize_tags_good in Ht as [? _]. Qed.

Lemma sanitized_short raw source : length (sanitize_tags raw source).2 ≤ 64.
Proof. rewrite sanitize_tags_result, length_take. unfold MAX_TAGS_PER_SOURCE. lia. Qed.

Lemma resolved_project_bounds cur p : (resolved_project cur).2 = p →
  Forall good_tag (rp_tags p) ∧ length (rp_tags p) ≤ 64 ∧
  Forall good_tag (rp_enable_bundles p) ∧ Forall good_tag (rp_disable_bundles p) ∧
  ∀ d, rp_description p = Some d → String.length d ≤ 1024.
Proof.
  intros <-. unfold resolved_project, mbind, logged_bind. cbn [fst snd rp_root rp_tags
    rp_enable_bundles rp_disable_bundles rp_description]. simpl.
  split_and!; [apply sanitized_good|apply sanitized_short|apply sanitized_good..|
    apply read_project_file_bounds].
Qed.

(** Where the project marker is found. The walk finds the marker of the nearest folder
    that it may visit, and finds none only when no such folder has one. The folders are the
    working directory and those above it: only itself when the home folder is unknown, down
    to the home folder when that is above it, and else all up to the root. The project's
    tags and bundle names are valid, and its description has at most 1024 bytes. *)
Theorem discover_project_correct (cwd : string) (home : option string) :
  let reachable := visited (components <$> home) (components cwd) in
  match (discover_project cwd home).2 with
  | Some p =>
      reachable (rp_root p) ∧ has_marker (rp_root p) = true ∧
      (∀ q, reachable q → has_marker q = true → q `prefix_of` rp_root p) ∧
      Forall good_tag (rp_tags p) ∧ length (rp_tags p) ≤ 64 ∧
      Forall good_tag (rp_enable_bundles p) ∧ Forall good_tag (rp_disable_bundles p) ∧
      (∀ d, rp_description p = Some d → String.length d ≤ 1024)
  | None => ∀ q, reachable q → has_marker q = false
  end.
Proof.
  unfold discover_project. destruct (discover_walk _ _) as [ns o] eqn:E. cbn [snd].
  apply discover_walk_spec in E. rewrite rev_involutive in E.
  pose proof (λ q, reach_visited (components <$> home) (components cwd) q (components_root cwd)) as Hv.
  destruct o as [p|].
  - destruct E as (H1 & H2 & H3 & H4). apply resolved_project_bounds in H1 as Hb.
    split_and!; try apply Hb; [by apply Hv|done|]. intros q Hq%Hv. by apply H4.
  - intros q Hq%Hv. by apply E.
Qed.
End laws.
