(* ===== verification/Scope.v ===== *)
(** * Scopes and the active tags (crates/llmenv-scope)

    Which scopes of the configuration match the environment (lib.rs, matcher.rs,
    network.rs, content_walk.rs), and the tags that are active as a result.
    [Matchers] is what ipnet, globset and walkdir answer. *)

From S2P Require Import Prelude RustStr Names TaskStore Glob Tags Marker.

(** ** Configuration and environment *)

Record NetworkScope := mkNetworkScope {
  ns_id : string;
  ns_gateway_mac : option string;
  ns_ssid : option string;
  ns_cidr : option string;
  ns_tags : list string }.
Record HostScope := mkHostScope { hs_id : string; hs_hostname : option string; hs_tags : list string }.
Record UserScope := mkUserScope { us_id : string; us_user : option string; us_tags : list string }.
Record ContentScope := mkContentScope {
  cs_id : string;
  cs_glob : string;
  cs_depth : option nat;
  cs_tags : list string }.
Record Config := mkConfig {
  cfg_network : list NetworkScope;
  cfg_host : list HostScope;
  cfg_user : list UserScope;
  cfg_content : list ContentScope }.

(** An entry of a folder walk: an error, or a path relative to the root of the walk ([None]
    when it is not below it), at a depth. *)
Inductive walk_entry :=
| WalkErr (depth : nat)
| WalkEntry (relative : option string) (depth : nat) (is_dir : bool).
Definition entry_depth (e : walk_entry) : nat :=
  match e with WalkErr d => d | WalkEntry _ d _ => d end.

Class Matchers := {
  addr : Type;
  cidr_parse : string → option (addr → bool);
  glob_new : string → option (string → bool);
  walkdir : string → option nat → list walk_entry;
  path_exists : string → bool }.
(** A walk with a depth limit gives the entries up to that depth. *)
Class MatchersLaws `{Matchers} := {
  walkdir_max_depth : ∀ root d,
    walkdir root (Some d) = filter (λ e, entry_depth e ≤ d) (walkdir root None) }.

(** [ActiveScope]. *)
Inductive scope_kind := KNetwork | KHost | KUser | KContent | KProject.
Global Instance scope_kind_eq_dec : EqDecision scope_kind.
Proof. solve_decision. Defined.
Record ActiveScope := mkActiveScope {
  as_id : string;
  as_kind : scope_kind;
  as_tags : list string;
  as_project_root : option path;
  as_enable_bundles : list string;
  as_disable_bundles : list string;
  as_name : option string;
  as_description : option string;
  as_unknown_fields : list string }.
(** [ActiveScopes]. *)
Record ActiveScopes := mkActiveScopes {
  ac_scopes : list ActiveScope;
  ac_tags : gset string;
  ac_extra_tags : gset string }.

(** ** Network facts *)

Record NetworkNeeds := mkNeeds { nn_gateway_mac : bool; nn_local_addrs : bool; nn_ssid : bool }.
Definition needs_none : NetworkNeeds := mkNeeds false false false.
Definition needs_all : NetworkNeeds := mkNeeds true true true.
Definition from_scopes (scopes : list NetworkScope) : NetworkNeeds :=
  foldl (λ acc s, mkNeeds
    (nn_gateway_mac acc || bool_decide (is_Some (ns_gateway_mac s)))
    (nn_local_addrs acc || bool_decide (is_Some (ns_cidr s)))
    (nn_ssid acc || bool_decide (is_Some (ns_ssid s)))) needs_none scopes.
Definition covers (self other : NetworkNeeds) : bool :=
  (nn_gateway_mac self || negb (nn_gateway_mac other)) &&
  (nn_local_addrs self || negb (nn_local_addrs other)) &&
  (nn_ssid self || negb (nn_ssid other)).

Definition is_ascii_hexdigit (c : ascii) : bool :=
  is_ascii_digit c || in_range 65 70 c || in_range 97 102 c.
Definition is_colon (c : ascii) : bool := Ascii.eqb c ":".
(** One octet of a MAC, padded to two digits. *)
Definition mac_octet (part : string) : option string :=
  if decide (1 ≤ String.length part ≤ 2 ∧ str_all is_ascii_hexdigit part = true) then
    let low := to_ascii_lowercase part in
    Some (if decide (String.length low = 1) then "0" +:+ low else low)
  else None.
Definition normalize_mac (s : string) : option string :=
  octets ← mapM mac_octet (split_on is_colon s);
  if decide (length octets = 6) then Some (join ":" octets) else None.

Section scope.
Context `{Matchers, FileSystem}.

(** [Env]. *)
Record Env := mkEnv {
  env_hostname : string;
  env_user : string;
  env_cwd : string;
  env_gateway_mac : option string;
  env_local_addrs : list addr;
  env_ssid : option string;
  env_home : option string;
  env_os : string;
  env_extra_tags : list string }.

(** The network facts of [detect_fresh]: only the probes that are needed run. *)
Definition probed (needs : NetworkNeeds) (full : Env) : Env :=
  mkEnv (env_hostname full) (env_user full) (env_cwd full)
    (if nn_gateway_mac needs then env_gateway_mac full else None)
    (if nn_local_addrs needs then env_local_addrs full else [])
    (if nn_ssid needs then env_ssid full else None)
    (env_home full) (env_os full) (env_extra_tags full).

Definition gateway_mac_matches (want : string) (env : Env) : bool :=
  match env_gateway_mac env with
  | None => false
  | Some got =>
    match normalize_mac want, normalize_mac got with
    | Some w, Some g => bool_decide (w = g)
    | _, _ => bool_decide (to_ascii_lowercase got = to_ascii_lowercase want)
    end
  end.
Definition cidr_matches (cidr : string) (addrs : list addr) : bool :=
  match cidr_parse cidr with
  | Some contains => existsb contains addrs
  | None => false
  end.
Definition is_none_or {A} (o : option A) (p : A → bool) : bool :=
  match o with Some x => p x | None => true end.
Definition matches_network (s : NetworkScope) (env : Env) : bool :=
  if decide (ns_gateway_mac s = None ∧ ns_ssid s = None ∧ ns_cidr s = None) then false
  else
    is_none_or (ns_gateway_mac s) (λ want, gateway_mac_matches want env) &&
    is_none_or (ns_ssid s) (λ want, bool_decide (env_ssid env = Some want)) &&
    is_none_or (ns_cidr s) (λ want, cidr_matches want (env_local_addrs env)).
Definition matches_host (s : HostScope) (env : Env) : bool :=
  match hs_hostname s with Some h => glob_matches h (env_hostname env) | None => false end.
Definition matches_user (s : UserScope) (env : Env) : bool :=
  match us_user s with Some u => bool_decide (u = env_user env) | None => false end.

(** ** Content scopes *)

Definition pending_scope : Type := string * (string → bool) * option nat.

Fixpoint compile_globs (scopes : list ContentScope) : logged (list pending_scope) :=
  match scopes with
  | [] => mret []
  | s :: scopes =>
    match glob_new (cs_glob s) with
    | Some glob => rest ← compile_globs scopes; mret ((cs_id s, glob, cs_depth s) :: rest)
    | None => log (InvalidGlob (cs_id s) (cs_glob s));; compile_globs scopes
    end
  end.
Definition over_depth (entry : nat) (depth : option nat) : Prop :=
  match depth with Some d => d < entry | None => False end.
#[global] Instance over_depth_dec entry depth : Decision (over_depth entry depth).
Proof. unfold over_depth. destruct depth; apply _. Defined.

(** [pending.retain(..)] for one file. *)
Fixpoint retain (relative : string) (depth : nat) (pending : list pending_scope)
    (matched : gset string) : list pending_scope * gset string :=
  match pending with
  | [] => ([], matched)
  | (id, matcher, limit) :: pending =>
    if decide (over_depth depth limit) then
      let r := retain relative depth pending matched in ((id, matcher, limit) :: r.1, r.2)
    else if matcher relative : bool then retain relative depth pending ({[id]} ∪ matched)
    else let r := retain relative depth pending matched in ((id, matcher, limit) :: r.1, r.2)
  end.
Fixpoint content_loop (entries : list walk_entry) (pending : list pending_scope)
    (matched : gset string) : logged (gset string) :=
  match entries with
  | [] => mret matched
  | entry :: entries =>
    match pending with
    | [] => mret matched
    | _ =>
      match entry with
      | WalkErr depth =>
        (if decide (depth = 0) then log CwdUnreadable else mret tt);;
        content_loop entries pending matched
      | WalkEntry relative depth is_dir =>
        if is_dir : bool then content_loop entries pending matched
        else
          match relative with
          | None => content_loop entries pending matched
          | Some relative =>
            let r := retain relative depth pending matched in content_loop entries r.1 r.2
          end
      end
    end
  end.
(** The loosest depth limit; [None] as soon as a scope has no limit. *)
Definition max_depth (pending : list pending_scope) : option nat :=
  foldl (λ acc p, acc ← acc; d ← p.2; Some (acc `max` d)) (Some 0) pending.
Definition matches_content_all (scopes : list ContentScope) (cwd : string)
  : logged (gset string) :=
  pending ← compile_globs scopes;
  match pending with
  | [] => mret ∅
  | _ => content_loop (walkdir cwd (max_depth pending)) pending ∅
  end.

(** ** Evaluation *)

Definition config_scope (id : string) (kind : scope_kind) (tags : list string)
  : logged ActiveScope :=
  tags ← sanitize_tags tags "config.yaml scope tags";
  mret (mkActiveScope id kind tags None [] [] None None []).
Fixpoint matching {A} (matches : A → bool) (scope : A → logged ActiveScope) (l : list A)
  : logged (list ActiveScope) :=
  match l with
  | [] => mret []
  | s :: l =>
    if matches s then a ← scope s; rest ← matching matches scope l; mret (a :: rest)
    else matching matches scope l
  end.
Definition content_scopes (cfg : Config) (env : Env) : logged (list ActiveScope) :=
  if decide (path_exists (env_cwd env) = true ∧ cfg_content cfg ≠ []) then
    matched_ids ← matches_content_all (cfg_content cfg) (env_cwd env);
    matching (λ s, bool_decide (cs_id s ∈ matched_ids))
      (λ s, config_scope (cs_id s) KContent (cs_tags s)) (cfg_content cfg)
  else mret [].
Definition project_scope (p : ResolvedProject) : ActiveScope :=
  mkActiveScope (rp_id p) KProject (rp_tags p) (Some (rp_root p)) (rp_enable_bundles p)
    (rp_disable_bundles p) (Some (rp_name p)) (rp_description p) (rp_unknown_fields p).

(** The tags of all scopes, with the OS and the extra tags. *)
Definition all_tags (scopes : list ActiveScope) (os : string) (extra : gset string) : gset string :=
  list_to_set (scopes ≫= as_tags) ∪ (if decide (os = "") then ∅ else {[os]}) ∪ extra.

Definition evaluate (cfg : Config) (env : Env) : logged ActiveScopes :=
  network ← matching (λ s, matches_network s env)
    (λ s, config_scope (ns_id s) KNetwork (ns_tags s)) (cfg_network cfg);
  host ← matching (λ s, matches_host s env)
    (λ s, config_scope (hs_id s) KHost (hs_tags s)) (cfg_host cfg);
  user ← matching (λ s, matches_user s env)
    (λ s, config_scope (us_id s) KUser (us_tags s)) (cfg_user cfg);
  content ← content_scopes cfg env;
  project ← discover_project (env_cwd env) (env_home env);
  let scopes := network ++ host ++ user ++ content ++ option_list (project_scope <$> project) in
  let extra_tags : gset string := list_to_set (env_extra_tags env) in
  tags ← cap_aggregate_tags (all_tags scopes (env_os env) extra_tags);
  mret (mkActiveScopes scopes tags extra_tags).

(** [ActiveScopes::non_project_tags]. *)
Definition non_project_tags (active : ActiveScopes) : gset string :=
  list_to_set (filter (λ s, as_kind s ≠ KProject) (ac_scopes active) ≫= as_tags) ∪
  filter (λ t, ¬ Exists (λ s, t ∈ as_tags s) (ac_scopes active) ∧ t ∉ ac_extra_tags active)
    (ac_tags active).
End scope.

(** ** Laws of the scopes

    The probes that are skipped cannot change a match; one shared walk finds the same
    content scopes as one walk per scope; and where the active tags come from. *)

(** ** MAC addresses *)

(** Two lower-case hex digits. *)
Lemma mac_octet_two a b :
  is_ascii_hexdigit a = true → is_ascii_hexdigit b = true → ascii_lower a = a → ascii_lower b = b →
  mac_octet (String a (String b "")) = Some (String a (String b "")).
Proof.
  intros Ha Hb La Lb. unfold mac_octet, to_ascii_lowercase. cbn [string_map str_all].
  rewrite Ha, Hb, La, Lb. reflexivity.
Qed.

Lemma mac_octet_canonical part o : mac_octet part = Some o →
  mac_octet o = Some o ∧ str_all (λ c, negb (is_colon c)) o = true.
Proof.
  assert (Hlow : ∀ c, is_ascii_hexdigit c = true →
    is_ascii_hexdigit (ascii_lower c) = true ∧ ascii_lower (ascii_lower c) = ascii_lower c ∧
    is_colon (ascii_lower c) = false).
  { intros c Hc. destruct c as [[][][][][][][][]]; vm_compute in Hc; try discriminate Hc;
      split_and!; vm_compute; reflexivity. }
  assert (H0 : is_ascii_hexdigit "0"%char = true ∧ ascii_lower "0"%char = "0"%char ∧ is_colon "0"%char = false)
    by (split_and!; vm_compute; reflexivity).
  assert (Hgo : ∀ a b, is_ascii_hexdigit a = true ∧ ascii_lower a = a ∧ is_colon a = false →
    is_ascii_hexdigit b = true ∧ ascii_lower b = b ∧ is_colon b = false →
    mac_octet (String a (String b "")) = Some (String a (String b "")) ∧
    str_all (λ c, negb (is_colon c)) (String a (String b "")) = true).
  { intros a b (H1 & H2 & H3) (H4 & H5 & H6). split; [by apply mac_octet_two|].
    cbn [str_all]. by rewrite H3, H6. }
  unfold mac_octet at 1. destruct (decide (1 ≤ String.length part ≤ 2 ∧ _)) as [[Hl Hx]|]; [|done].
  destruct part as [|a [|b [|d part]]]; cbn [String.length] in Hl; try lia; cbn [str_all] in Hx.
  - apply andb_true_iff in Hx as [Ha _]. intros [= <-]. by apply Hgo; [|apply Hlow].
  - apply andb_true_iff in Hx as [Ha Hx]. apply andb_true_iff in Hx as [Hb _].
    intros [= <-]. by apply Hgo; apply Hlow.
Qed.

(** MAC addresses have one normal form. The normal form of a MAC is a MAC whose normal
    form is itself, so two spellings match exactly when their normal forms are equal. *)
Theorem normalize_mac_canonical (s mac : string) :
  normalize_mac s = Some mac →
  normalize_mac mac = Some mac ∧
  ∃ octets, length octets = 6 ∧ mac = join ":" octets ∧ Forall (λ o, mac_octet o = Some o) octets.
Proof.
  unfold normalize_mac. destruct (mapM mac_octet (split_on is_colon s)) as [octets|] eqn:E; [|done].
  simpl. case_decide as Hl; [|done]. intros [= <-].
  assert (Ho : Forall (λ o, mac_octet o = Some o ∧ str_all (λ c, negb (is_colon c)) o = true) octets).
  { apply mapM_Some in E. clear Hl. revert E. generalize (split_on is_colon s) as parts.
    intros parts E. induction E as [|p o parts octets Hp _ IH]; constructor; [|done].
    by eapply mac_octet_canonical. }
  assert (Hs : split_on is_colon (join ":" octets) = octets).
  { apply (split_on_join is_colon ":"); [done|by intros ->|].
    eapply Forall_impl; [exact Ho|]. naive_solver. }
  rewrite Hs. assert (Hm : mapM mac_octet octets = Some octets).
  { apply mapM_Some. clear -Ho. induction Ho as [|o octets [Ho _] _ IH]; by constructor. }
  rewrite Hm. simpl. rewrite decide_True by done. split; [done|]. exists octets.
  split_and!; [done..|]. eapply Forall_impl; [exact Ho|]. naive_solver.
Qed.

Section laws.
Context `{HM : Matchers, HF : FileSystem}.

(** ** Probes *)

Lemma from_scopes_go scopes acc s :
  let n := foldl (λ acc s, mkNeeds
    (nn_gateway_mac acc || bool_decide (is_Some (ns_gateway_mac s)))
    (nn_local_addrs acc || bool_decide (is_Some (ns_cidr s)))
    (nn_ssid acc || bool_decide (is_Some (ns_ssid s)))) acc scopes in
  (nn_gateway_mac acc = true → nn_gateway_mac n = true) ∧
  (nn_local_addrs acc = true → nn_local_addrs n = true) ∧
  (nn_ssid acc = true → nn_ssid n = true) ∧
  (s ∈ scopes → (is_Some (ns_gateway_mac s) → nn_gateway_mac n = true) ∧
    (is_Some (ns_cidr s) → nn_local_addrs n = true) ∧ (is_Some (ns_ssid s) → nn_ssid n = true)).
Proof.
  revert acc. induction scopes as [|x scopes IH]; intros acc.
  { split_and!; try done. by intros ?%elem_of_nil. }
  cbn [foldl]. match goal with |- context [foldl _ ?a scopes] => set (acc' := a) end.
  destruct (IH acc') as (H1 & H2 & H3 & H4). split_and!.
  - intros H. apply H1. subst acc'. simpl. by rewrite H.
  - intros H. apply H2. subst acc'. simpl. by rewrite H.
  - intros H. apply H3. subst acc'. simpl. by rewrite H.
  - intros [->|Hs]%elem_of_cons; [|by apply H4].
    split_and!; intros H; [apply H1|apply H2|apply H3]; subst acc'; simpl;
      rewrite (bool_decide_eq_true_2 _ H); by rewrite orb_true_r.
Qed.

(** A skipped probe never changes a match. With the probes that the declared network
    scopes need, or with any probes that cover them (as a cached result must), each
    declared scope matches exactly when it matches the full environment. *)
Theorem probes_suffice (scopes : list NetworkScope) (needs : NetworkNeeds) (full : Env)
    (s : NetworkScope) :
  covers needs (from_scopes scopes) = true → s ∈ scopes →
  matches_network s (probed needs full) = matches_network s full.
Proof.
  intros Hcov Hs. destruct (from_scopes_go scopes needs_none s) as (_ & _ & _ & H).
  destruct (H Hs) as (Hmac & Haddr & Hssid). clear H.
  change (foldl _ needs_none scopes) with (from_scopes scopes) in *.
  unfold covers in Hcov. rewrite !andb_true_iff, !orb_true_iff, !negb_true_iff in Hcov.
  destruct Hcov as [[H1 H2] H3].
  unfold matches_network, probed, gateway_mac_matches. simpl.
  case_decide as Hd; [done|]. f_equal; [f_equal|].
  - destruct (ns_gateway_mac s); [|done]. simpl. specialize (Hmac (mk_is_Some _ _ eq_refl)).
    destruct H1 as [->|]; [done|congruence].
  - destruct (ns_ssid s); [|done]. simpl. specialize (Hssid (mk_is_Some _ _ eq_refl)).
    destruct H3 as [->|]; [done|congruence].
  - destruct (ns_cidr s); [|done]. simpl. specialize (Haddr (mk_is_Some _ _ eq_refl)).
    destruct H2 as [->|]; [done|congruence].
Qed.

(** ** Content scopes *)

(** A file of the walk, at a depth, that a compiled scope takes. *)
Definition takes (p : pending_scope) (relative : string) (depth : nat) : Prop :=
  ¬ over_depth depth p.2 ∧ p.1.2 relative = true.
Definition found_in (entries : list walk_entry) (p : pending_scope) : Prop :=
  ∃ relative depth, WalkEntry (Some relative) depth false ∈ entries ∧ takes p relative depth.

Lemma retain_spec relative depth pending matched :
  let r := retain relative depth pending matched in
  (∀ p, p ∈ r.1 ↔ p ∈ pending ∧ ¬ takes p relative depth) ∧
  (∀ id, id ∈ r.2 ↔ id ∈ matched ∨ ∃ p, p ∈ pending ∧ takes p relative depth ∧ p.1.1 = id).
Proof.
  revert matched. induction pending as [|[[id m] lim] pending IH]; intros matched.
  { simpl. split; [set_solver|]. intros id. split; [by left|].
    intros [?|(p & ?%elem_of_nil & _)]; done. }
  cbn [retain]. assert (Hskip : ¬ takes (id, m, lim) relative depth →
    let r := retain relative depth pending matched in
    (∀ p, p ∈ (id, m, lim) :: r.1 ↔ p ∈ (id, m, lim) :: pending ∧ ¬ takes p relative depth) ∧
    (∀ x, x ∈ r.2 ↔ x ∈ matched ∨
       ∃ p, p ∈ (id, m, lim) :: pending ∧ takes p relative depth ∧ p.1.1 = x)).
  { intros Hn. destruct (IH matched) as [H1 H2]. split.
    - intros p. rewrite !elem_of_cons, H1. naive_solver.
    - intros x. rewrite H2. setoid_rewrite elem_of_cons. naive_solver. }
  destruct (decide (over_depth depth lim)) as [Ho|Ho]; [apply Hskip; by intros [? _]|].
  destruct (m relative) eqn:Hm.
  - destruct (IH ({[id]} ∪ matched)) as [H1 H2].
    assert (Ht : takes (id, m, lim) relative depth) by (by split). split.
    + intros p. rewrite H1, elem_of_cons. naive_solver.
    + intros x. rewrite H2, elem_of_union, elem_of_singleton. setoid_rewrite elem_of_cons. naive_solver.
  - apply Hskip. intros [_ ?]. simpl in *. congruence.
Qed.

Lemma content_loop_spec entries pending matched id :
  id ∈ (content_loop entries pending matched).2 ↔
  id ∈ matched ∨ ∃ p, p ∈ pending ∧ found_in entries p ∧ p.1.1 = id.
Proof.
  revert pending matched. induction entries as [|e entries IH]; intros pending matched.
  { simpl. split; [by left|]. intros [?|(p & _ & (r & d & ?%elem_of_nil & _) & _)]; done. }
  cbn [content_loop]. destruct pending as [|q pending].
  { simpl. split; [by left|]. intros [?|(p & ?%elem_of_nil & _)]; done. }
  set (ps := q :: pending).
  assert (Hskip : (∀ r d, e ≠ WalkEntry (Some r) d false) →
    id ∈ (content_loop entries ps matched).2 ↔
    id ∈ matched ∨ ∃ p, p ∈ ps ∧ found_in (e :: entries) p ∧ p.1.1 = id).
  { intros He. rewrite IH. unfold found_in. setoid_rewrite elem_of_cons. naive_solver. }
  destruct e as [d|[rel|] d [|]].
  - unfold mbind, logged_bind. cbn [snd]. by apply Hskip.
  - by apply Hskip.
  - rewrite IH. destruct (retain_spec rel d ps matched) as [H1 H2].
    unfold found_in. rewrite H2. setoid_rewrite H1. setoid_rewrite elem_of_cons. split.
    + intros [[?|(p & Hp & Ht & Hid)]|(p & [Hp Hn] & (r & d' & He & Ht) & Hid)].
      * by left.
      * right. exists p. split_and!; [done|exists rel, d; by split; [left|]|done].
      * right. exists p. split_and!; [done|exists r, d'; by split; [right|]|done].
    + intros [?|(p & Hp & (r & d' & [[= -> ->]|He] & Ht) & Hid)].
      * by left; left.
      * left. right. by exists p.
      * destruct (decide (over_depth d p.2)) as [Ho|Ho];
          [right; exists p; split_and!; [done|by intros [? _]|by exists r, d'|done]|].
        destruct (p.1.2 rel) eqn:Hm.
        -- left. right. exists p. by split_and!.
        -- right. exists p. split_and!; [done|intros [_ ?]; congruence|by exists r, d'|done].
  - by apply Hskip.
  - by apply Hskip.
Qed.

Lemma compile_globs_spec scopes p :
  p ∈ (compile_globs scopes).2 ↔
  ∃ s g, s ∈ scopes ∧ glob_new (cs_glob s) = Some g ∧ p = (cs_id s, g, cs_depth s).
Proof.
  induction scopes as [|s scopes IH].
  { simpl. split; [by intros ?%elem_of_nil|]. by intros (? & ? & ?%elem_of_nil & _). }
  cbn [compile_globs]. destruct (glob_new (cs_glob s)) as [g|] eqn:Hg;
    unfold mbind, logged_bind; cbn [snd].
  - match goal with |- _ ↔ ?Q => change (p ∈ (cs_id s, g, cs_depth s) :: (compile_globs scopes).2 ↔ Q) end.
    rewrite elem_of_cons, IH.
    setoid_rewrite elem_of_cons. naive_solver.
  - rewrite IH. setoid_rewrite elem_of_cons. naive_solver.
Qed.

Lemma max_depth_None ps : foldl (λ acc p, acc ← acc; d ← p.2; Some (acc `max` d)) None (ps : list pending_scope) = None.
Proof. induction ps as [|p ps IH]; [done|]. simpl. exact IH. Qed.

Lemma max_depth_bound (ps : list pending_scope) n d p : p ∈ ps →
  foldl (λ acc p, acc ← acc; d ← p.2; Some (acc `max` d)) (Some n) ps = Some d →
  ∃ k, p.2 = Some k ∧ k ≤ d.
Proof.
  assert (Hmono : ∀ (ps : list pending_scope) n d,
    foldl (λ acc p, acc ← acc; d ← p.2; Some (acc `max` d)) (Some n) ps = Some d → n ≤ d).
  { clear. intros ps. induction ps as [|p ps IH]; intros n d; simpl; [by intros [= ->]|].
    destruct p.2 as [k|]; simpl; [|by rewrite max_depth_None]. intros H%IH. lia. }
  revert n. induction ps as [|q ps IH]; intros n; [by intros ?%elem_of_nil|].
  simpl. destruct q.2 as [k|] eqn:Hk; simpl; [|by rewrite max_depth_None].
  intros [->|Hp]%elem_of_cons; [|by apply IH]. intros H%Hmono. exists k. split; [done|lia].
Qed.

(** One walk for all content scopes. An id is matched exactly when a scope with that id
    has a valid glob and some file within the scope's own depth limit matches it: the shared
    walk, its common depth limit and its early end lose nothing. *)
Theorem content_walk_correct `{HL : !MatchersLaws} (scopes : list ContentScope) (cwd id : string) :
  id ∈ (matches_content_all scopes cwd).2 ↔
  ∃ s glob relative depth, s ∈ scopes ∧ cs_id s = id ∧ glob_new (cs_glob s) = Some glob ∧
    WalkEntry (Some relative) depth false ∈ walkdir cwd None ∧
    ¬ over_depth depth (cs_depth s) ∧ glob relative = true.
Proof.
  set (ps := (compile_globs scopes).2).
  assert (E : (matches_content_all scopes cwd).2 =
              (content_loop (walkdir cwd (max_depth ps)) ps ∅).2).
  { unfold matches_content_all, mbind, logged_bind. cbn [snd]. fold ps.
    destruct ps; [|done]. by destruct (walkdir cwd (max_depth [])). }
  rewrite E, content_loop_spec. unfold found_in, takes. split.
  - intros [?|(p & Hp & (r & d & Hin & Hd & Hm) & Hid)]; [set_solver|].
    apply compile_globs_spec in Hp as (s & g & Hs & Hg & ->). simpl in *.
    exists s, g, r, d. split_and!; try done.
    destruct (max_depth ps); [|done]. rewrite walkdir_max_depth in Hin.
    by apply list_elem_of_filter in Hin as [_ ?].
  - intros (s & g & r & d & Hs & Hid & Hg & Hin & Hd & Hm). right.
    exists (cs_id s, g, cs_depth s).
    assert (Hp : (cs_id s, g, cs_depth s) ∈ ps) by (apply compile_globs_spec; by exists s, g).
    split_and!; [done| |done]. exists r, d. split; [|by split].
    destruct (max_depth ps) as [md|] eqn:Hmd; [|done]. rewrite walkdir_max_depth.
    apply list_elem_of_filter. split; [|done]. simpl.
    destruct (max_depth_bound ps 0 md _ Hp Hmd) as (k & Hk & Hle). simpl in Hk. rewrite Hk in Hd.
    simpl in Hd. lia.
Qed.

(** ** Where the tags come from *)

Lemma config_scope_kind id kind tags : as_kind (config_scope id kind tags).2 = kind.
Proof. done. Qed.

Lemma matching_elem {A} (matches : A → bool) (scope : A → logged ActiveScope) l a :
  a ∈ (matching matches scope l).2 ↔ ∃ s, s ∈ l ∧ matches s = true ∧ a = (scope s).2.
Proof.
  induction l as [|s l IH].
  { simpl. split; [by intros ?%elem_of_nil|]. by intros (? & ?%elem_of_nil & _). }
  cbn [matching]. destruct (matches s) eqn:Hm.
  - change (a ∈ (scope s).2 :: (matching matches scope l).2 ↔
      ∃ s0, s0 ∈ s :: l ∧ matches s0 = true ∧ a = (scope s0).2).
    rewrite elem_of_cons, IH. split.
    + intros [Ha|(x & ? & ? & ?)]; [exists s|exists x]; split_and!; try done; [by left|by right].
    + intros (x & [->|Hx]%elem_of_cons & ? & ?); [by left|right; by exists x].
  - rewrite IH. split.
    + intros (x & ? & ? & ?). exists x. split_and!; try done. by right.
    + intros (x & [->|Hx]%elem_of_cons & ? & ?); [congruence|by exists x].
Qed.

Lemma cap_aggregate_spec tags :
  let r := (cap_aggregate_tags tags).2 in
  size r ≤ 64 ∧ r ⊆ tags ∧ (size tags ≤ 64 → r = tags).
Proof.
  unfold cap_aggregate_tags, MAX_TAGS_PER_SOURCE. case_decide as Hd; [by simpl|].
  unfold mbind, logged_bind. simpl. split_and!.
  - etrans; [apply size_list_to_set_le|]. rewrite length_take. lia.
  - intros t Ht%elem_of_list_to_set. apply elem_of_elements.
    unfold in_order in Ht. rewrite <-(merge_sort_Permutation str_le).
    rewrite <-(take_drop 64 (merge_sort str_le (elements tags))). apply elem_of_app. by left.
  - intros. lia.
Qed.

(** The active tags. There are at most 64; each comes from a matching scope, from the
    OS, or from [$LLMENV_EXTRA_TAGS]; and below the cap none of those is missing. *)
Theorem evaluate_tags_correct (cfg : Config) (env : Env) :
  let active := (evaluate cfg env).2 in
  let sources := all_tags (ac_scopes active) (env_os env) (ac_extra_tags active) in
  size (ac_tags active) ≤ 64 ∧ ac_tags active ⊆ sources ∧
  (size sources ≤ 64 → ac_tags active = sources) ∧
  ac_extra_tags active = list_to_set (env_extra_tags env) ∧
  (∀ s, s ∈ ac_scopes active → as_kind s = KNetwork →
     ∃ n, n ∈ cfg_network cfg ∧ matches_network n env = true ∧ as_id s = ns_id n).
Proof.
  unfold evaluate, mbind, logged_bind. cbn [fst snd ac_scopes ac_tags ac_extra_tags].
  match goal with |- context [cap_aggregate_tags ?t] => pose proof (cap_aggregate_spec t) as (H1 & H2 & H3) end.
  split_and!; [exact H1|exact H2|exact H3|done|].
  intros s Hs Hk. simpl in Hs. rewrite !elem_of_app in Hs.
  destruct Hs as [Hs|[Hs|[Hs|[Hs|Hs]]]].
  - apply matching_elem in Hs as (n & Hn & Hm & ->). by exists n.
  - apply matching_elem in Hs as (n & Hn & Hm & ->). done.
  - apply matching_elem in Hs as (n & Hn & Hm & ->). done.
  - unfold content_scopes in Hs. case_decide; [|by apply elem_of_nil in Hs].
    unfold mbind, logged_bind in Hs. cbn [snd] in Hs.
    apply matching_elem in Hs as (n & Hn & Hm & ->). done.
  - destruct (discover_project _ _).2 as [p|]; simpl in Hs; [|by apply elem_of_nil in Hs].
    apply list_elem_of_singleton in Hs as ->. done.
Qed.

(** The tags of a project stay out of host-level decisions. A tag of
    [non_project_tags] comes from a network, host, user or content scope that matches, or
    is the OS tag; a tag that only the project or [$LLMENV_EXTRA_TAGS] gives is never in
    it. The price: the OS tag is lost too when the project, or the variable, names it. *)
Theorem non_project_tags_correct (cfg : Config) (env : Env) (t : string) :
  let active := (evaluate cfg env).2 in
  let environment := ∃ s, s ∈ ac_scopes active ∧ as_kind s ≠ KProject ∧ t ∈ as_tags s in
  t ∈ non_project_tags active ↔
    environment ∨
    t = env_os env ∧ t ≠ "" ∧ t ∈ ac_tags active ∧ t ∉ ac_extra_tags active ∧
      ¬ ∃ s, s ∈ ac_scopes active ∧ t ∈ as_tags s.
Proof.
  intros active environment.
  assert (Hsub : ac_tags active ⊆ all_tags (ac_scopes active) (env_os env) (ac_extra_tags active)).
  { subst active. unfold evaluate, mbind, logged_bind. cbn [fst snd ac_scopes ac_tags ac_extra_tags].
    apply cap_aggregate_spec. }
  clearbody active. unfold non_project_tags.
  rewrite elem_of_union, elem_of_list_to_set, list_elem_of_bind, elem_of_filter, Exists_exists.
  assert (He : (∃ y, t ∈ as_tags y ∧ y ∈ filter (λ s, as_kind s ≠ KProject) (ac_scopes active))
               ↔ environment).
  { subst environment. setoid_rewrite list_elem_of_filter. naive_solver. }
  rewrite He. clearbody environment. split; [|naive_solver].
  intros [?|[[Hn Hx] Ht]]; [by left|]. right.
  pose proof (Hsub t Ht) as Hall. unfold all_tags in Hall. rewrite !elem_of_union in Hall.
  destruct Hall as [[Hall|Hall]|Hall]; [|case_decide; [set_solver|]|done].
  - exfalso. apply Hn. apply elem_of_list_to_set, list_elem_of_bind in Hall as (s & ? & ?). by exists s.
  - apply elem_of_singleton in Hall. by subst.
Qed.
End laws.
