(* ===== verification/Bundles.v ===== *)
(** * Bundle selection and precedence (src/bundle_select.rs, src/merge/precedence.rs)

    Which bundles of the configuration fire, with which rank each becomes a
    contributor, and how a setting that several contributors give is resolved. *)

From S2P Require Import Prelude RustStr Names Tags Marker Scope.

(** ** Selection *)

Record Bundle := mkBundle { b_name : string; b_when : list string }.
Record BundleRef := mkBundleRef { br_name : string; br_path : string; br_precedence : N }.

Definition marker_enabled_bundle_names (active : ActiveScopes) : gset string :=
  list_to_set (ac_scopes active ≫= as_enable_bundles).
Definition marker_disabled_bundle_names (active : ActiveScopes) : gset string :=
  list_to_set (ac_scopes active ≫= as_disable_bundles).
Definition tag_or_marker_selected (bundle : Bundle) (active : ActiveScopes)
    (manually_enabled : gset string) : bool :=
  existsb (λ t, bool_decide (t ∈ ac_tags active)) (b_when bundle) ||
  bool_decide (b_name bundle ∈ manually_enabled).
Definition firing_bundles (bundles : list Bundle) (active : ActiveScopes)
    (tag_filter : option string) : list Bundle :=
  let manually_enabled := marker_enabled_bundle_names active in
  let disabled := marker_disabled_bundle_names active in
  filter (λ b, tag_or_marker_selected b active manually_enabled = true)
    (filter (λ b, is_none_or tag_filter (λ t, existsb (λ w, bool_decide (w = t)) (b_when b)) = true)
      (filter (λ b, b_name b ∉ disabled) bundles)).

(** [PRECEDENCE], and the rank of a tier: [PRECEDENCE.len() - tier]. *)
Definition PRECEDENCE : list scope_kind := [KNetwork; KHost; KUser; KContent; KProject].
Definition tier_rank (tier : nat) : N := N.of_nat (length PRECEDENCE - tier).
Definition kind_tags (active : ActiveScopes) (kind : scope_kind) : gset string :=
  list_to_set (filter (λ s, as_kind s = kind) (ac_scopes active) ≫= as_tags).

Section refs.
(** [Path::exists]. *)
Context (path_exists : string → bool) (bundles_dir : string).

Definition push_ref (name : string) (precedence : N) (refs : list BundleRef) : list BundleRef :=
  if decide (name ∈ br_name <$> refs) then refs
  else if is_unsafe_join_target name then refs
  else
    let path := path_join bundles_dir name in
    if path_exists path then refs ++ [mkBundleRef name path precedence] else refs.
Definition push_tier (active : ActiveScopes) (firing : list Bundle) (refs : list BundleRef)
    (tier : nat * scope_kind) : list BundleRef :=
  let tags := kind_tags active tier.2 in
  foldl (λ refs b, if existsb (λ t, bool_decide (t ∈ tags)) (b_when b)
                   then push_ref (b_name b) (tier_rank tier.1) refs else refs) refs firing.
End refs.

Definition build_bundle_refs (path_exists : string → bool) (config_dir : string)
    (active : ActiveScopes) (firing : list Bundle) : list BundleRef :=
  let bundles_dir := path_join config_dir "bundles" in
  let refs := foldl (push_tier path_exists bundles_dir active firing) [] (imap pair PRECEDENCE) in
  foldl (λ refs b, push_ref path_exists bundles_dir (b_name b) 0 refs) refs firing.

(** ** Precedence *)

(** [CapabilityContributor], over any type of capabilities. *)
Record CapabilityContributor (C : Type) := mkContributor {
  cc_name : string; cc_precedence : N; cc_capabilities : C }.
Arguments mkContributor {C}.
Arguments cc_name {C}.
Arguments cc_precedence {C}.
Arguments cc_capabilities {C}.
Definition TOP_LEVEL_PRECEDENCE : N := 255.

(** Two contributors at the same precedence set different values. *)
Record tie (T : Type) := mkTie {
  tie_what : string; tie_first : string; tie_first_value : T; tie_other : string; tie_other_value : T }.
Arguments mkTie {T}.

Section precedence.
Context {C T : Type} `{EqDecision T}.
Implicit Types (c : CapabilityContributor C) (entries : list (CapabilityContributor C * T)).

(** The loop of [check_same_precedence_ties]. *)
Fixpoint check_ties_loop (what : string) (first_at : gmap N (CapabilityContributor C * T)) entries
  : result (tie T) unit :=
  match entries with
  | [] => Ok tt
  | (c, value) :: entries =>
    match first_at !! cc_precedence c with
    | None => check_ties_loop what (<[cc_precedence c := (c, value)]> first_at) entries
    | Some (first, first_value) =>
      if decide (first_value ≠ value) then
        Err (mkTie what (cc_name first) first_value (cc_name c) value)
      else check_ties_loop what first_at entries
    end
  end.
Definition check_same_precedence_ties (what : string) entries : result (tie T) unit :=
  check_ties_loop what ∅ entries.

Definition precedence_le (a b : CapabilityContributor C * T) : Prop :=
  (cc_precedence a.1 ≤ cc_precedence b.1)%N.
#[global] Instance precedence_le_dec : RelDecision precedence_le.
Proof. unfold precedence_le. intros ??. apply _. Defined.

(** The contributors that set the field, with their values. *)
Definition entries_of (contributors : list (CapabilityContributor C)) (pick : C → option T)
  : list (CapabilityContributor C * T) :=
  omap (λ c, v ← pick (cc_capabilities c); Some (c, v)) contributors.
Definition highest_precedence (contributors : list (CapabilityContributor C))
    (field_name : string) (pick : C → option T) : result (tie T) (option T) :=
  let entries := entries_of contributors pick in
  check_same_precedence_ties field_name entries;;
  Ok (snd <$> max_by precedence_le entries).

(** The loop of [resolve_per_key] over the keys, in the order of the map. *)
Fixpoint resolve_keys (contributors : list (CapabilityContributor C)) (label : string)
    (pick : C → gmap string T) (keys : list string) (acc : gmap string T)
  : result (tie T) (gmap string T) :=
  match keys with
  | [] => Ok acc
  | key :: keys =>
    let entries := entries_of contributors (λ caps, pick caps !! key) in
    check_same_precedence_ties (label +:+ " '" +:+ key +:+ "'") entries;;
    resolve_keys contributors label pick keys
      (match max_by precedence_le entries with
       | Some (_, value) => <[key := value]> acc
       | None => acc
       end)
  end.
Definition all_keys (contributors : list (CapabilityContributor C)) (pick : C → gmap string T)
  : gset string :=
  ⋃ ((λ c, dom (pick (cc_capabilities c))) <$> contributors).
Definition resolve_per_key (contributors : list (CapabilityContributor C)) (label : string)
    (pick : C → gmap string T) : result (tie T) (gmap string T) :=
  resolve_keys contributors label pick (in_order (all_keys contributors pick)) ∅.
End precedence.

(** ** Laws of precedence *)

Section laws.
Context {C T : Type} `{EqDecision T}.
Implicit Types (c : CapabilityContributor C) (contributors : list (CapabilityContributor C)) (entries : list (CapabilityContributor C * T)).

#[local] Instance precedence_le_preorder : PreOrder (precedence_le (C := C) (T := T)).
Proof. split; [intros ?|intros ???]; unfold precedence_le; lia. Qed.
#[local] Instance precedence_le_total : Total (precedence_le (C := C) (T := T)).
Proof. intros ??. unfold precedence_le. lia. Qed.

(** No two entries of one precedence differ. *)
Definition untied entries : Prop :=
  ∀ e1 e2, e1 ∈ entries → e2 ∈ entries → cc_precedence e1.1 = cc_precedence e2.1 → e1.2 = e2.2.

Lemma check_ties_loop_spec what first_at entries :
  map_Forall (λ p e, cc_precedence e.1 = p) first_at →
  check_ties_loop what first_at entries = Ok tt ↔
  untied entries ∧ ∀ p e e', first_at !! p = Some e → e' ∈ entries →
    cc_precedence e'.1 = p → e.2 = e'.2.
Proof.
  revert first_at. induction entries as [|[c v] entries IH]; intros first_at Hf.
  { split; [|done]. intros _. split; [intros ?? ?%elem_of_nil; done|].
    intros ??? _ ?%elem_of_nil. done. }
  cbn [check_ties_loop]. destruct (first_at !! cc_precedence c) as [[c0 v0]|] eqn:Hl.
  - destruct (decide (v0 ≠ v)) as [Hd|Hd].
    + split; [done|]. intros [_ H]. destruct Hd. by apply (H _ _ (c, v) Hl); [left|].
    + assert (v0 = v) as -> by (by destruct (decide (v0 = v))). rewrite IH by done. split.
      * intros [Hu Hfa]. assert (Hcv : ∀ e, e ∈ entries → cc_precedence e.1 = cc_precedence c → e.2 = v)
          by (intros e He Hp; symmetry; by apply (Hfa _ _ _ Hl)).
        split.
        -- intros e1 e2 [->|H1]%elem_of_cons [->|H2]%elem_of_cons Hp; simpl in *; auto.
           by symmetry; apply Hcv.
        -- intros p e e' Hp [->|He]%elem_of_cons Hpr; [|by eapply Hfa]. simpl in *. by simplify_eq.
      * intros [Hu Hfa]. split; [intros ?? H1 H2; apply Hu; by right|].
        intros p e e' Hp He. apply Hfa; [done|by right].
  - rewrite IH.
    2:{ apply map_Forall_insert_2; done. }
    split.
    + intros [Hu Hfa].
      assert (Hcv : ∀ e, e ∈ entries → cc_precedence e.1 = cc_precedence c → e.2 = v)
        by (intros e He Hp; symmetry; by apply (Hfa _ (c, v) _ (lookup_insert_eq _ _ _))).
      split.
      * intros e1 e2 [->|H1]%elem_of_cons [->|H2]%elem_of_cons Hp; simpl in *; auto.
        by symmetry; apply Hcv.
      * intros p e e' Hp [->|He]%elem_of_cons Hpr; [simpl in *; congruence|].
        apply (Hfa p); [|done..]. rewrite lookup_insert_ne; [done|congruence].
    + intros [Hu Hfa]. split; [intros ?? H1 H2; apply Hu; by right|].
      intros p e e' [[<- <-]|[Hne Hp]]%lookup_insert_Some He Hpr.
      * by apply (Hu (c, v)); [left|right|].
      * apply (Hfa p); [done|by right|done].
Qed.

Lemma check_ties_spec what entries :
  check_same_precedence_ties what entries = Ok tt ↔ untied entries.
Proof.
  unfold check_same_precedence_ties. rewrite check_ties_loop_spec by apply map_Forall_empty.
  split; [by intros [? _]|]. intros H. split; [done|]. intros ??? Hl. by rewrite lookup_empty in Hl.
Qed.

(** The value of a highest entry. *)
Definition wins entries (v : T) : Prop :=
  ∃ c, (c, v) ∈ entries ∧ ∀ e, e ∈ entries → (cc_precedence e.1 ≤ cc_precedence c)%N.

Lemma wins_unique entries v v' : untied entries → wins entries v → wins entries v' → v = v'.
Proof.
  intros Hu (c & Hc & Hm) (c' & Hc' & Hm'). apply (Hu (c, v) (c', v')); [done..|].
  simpl. pose proof (Hm _ Hc'). pose proof (Hm' _ Hc). simpl in *. lia.
Qed.

Lemma max_by_wins entries :
  match max_by precedence_le entries with
  | Some e => wins entries e.2
  | None => entries = []
  end.
Proof.
  destruct (max_by precedence_le entries) as [[c v]|] eqn:E.
  - apply max_by_Some in E as [H1 H2]; [|apply _..]. exists c. split; [done|exact H2].
  - by apply max_by_None in E.
Qed.

Lemma resolve_entries what entries :
  (check_same_precedence_ties what entries = Ok tt ∧ untied entries) ∨
  (∃ e, check_same_precedence_ties what entries = Err e) ∧ ¬ untied entries.
Proof.
  pose proof (check_ties_spec what entries) as Hs.
  destruct (check_same_precedence_ties what entries) as [[]|e]; [left|right]; split.
  - done.
  - by apply Hs.
  - by exists e.
  - intros Hu%Hs. done.
Qed.

Lemma elem_of_entries contributors (pick : C → option T) c v :
  (c, v) ∈ entries_of contributors pick ↔ c ∈ contributors ∧ pick (cc_capabilities c) = Some v.
Proof.
  unfold entries_of. rewrite list_elem_of_omap. split.
  - intros (x & Hx & E). destruct (pick (cc_capabilities x)) eqn:Hp; [|done].
    simpl in E. by injection E as <- <-.
  - intros [Hc Hp]. exists c. by rewrite Hp.
Qed.

(** [v] is what the contributors of the highest precedence that set the field say. *)
Definition decides contributors (pick : C → option T) (v : T) : Prop :=
  ∃ c, c ∈ contributors ∧ pick (cc_capabilities c) = Some v ∧
    ∀ c', c' ∈ contributors → is_Some (pick (cc_capabilities c')) →
      (cc_precedence c' ≤ cc_precedence c)%N.
(** Two contributors of one precedence that disagree. *)
Definition conflict contributors (pick : C → option T) : Prop :=
  ∃ c c' v v', c ∈ contributors ∧ c' ∈ contributors ∧ cc_precedence c = cc_precedence c' ∧
    pick (cc_capabilities c) = Some v ∧ pick (cc_capabilities c') = Some v' ∧ v ≠ v'.

Lemma wins_decides contributors pick v :
  wins (entries_of contributors pick) v ↔ decides contributors pick v.
Proof.
  unfold wins, decides. split.
  - intros (c & [Hc Hp]%elem_of_entries & Hm). exists c. split_and!; [done..|].
    intros c' Hc' [v' Hv']. by apply (Hm (c', v')), elem_of_entries.
  - intros (c & Hc & Hp & Hm). exists c. split; [by apply elem_of_entries|].
    intros [c' v'] [Hc' Hp']%elem_of_entries. apply Hm; [done|by exists v'].
Qed.
Lemma untied_conflict contributors pick :
  untied (entries_of contributors pick) → ¬ conflict contributors pick.
Proof.
  intros Hu (c & c' & v & v' & Hc & Hc' & Hp & Hv & Hv' & Hne). apply Hne.
  by apply (Hu (c, v) (c', v')); [apply elem_of_entries..|].
Qed.
Lemma not_untied_conflict contributors pick :
  ¬ conflict contributors pick → untied (entries_of contributors pick).
Proof.
  intros Hn [c v] [c' v'] [Hc Hv]%elem_of_entries [Hc' Hv']%elem_of_entries Hp. simpl in *.
  destruct (decide (v = v')); [done|]. destruct Hn. by exists c, c', v, v'.
Qed.

Lemma highest_precedence_spec contributors field_name pick :
  match highest_precedence contributors field_name pick with
  | Err _ => conflict contributors pick
  | Ok None => ∀ c, c ∈ contributors → pick (cc_capabilities c) = None
  | Ok (Some v) => ¬ conflict contributors pick ∧ ∀ v', decides contributors pick v' ↔ v' = v
  end.
Proof.
  unfold highest_precedence. set (es := entries_of contributors pick).
  destruct (resolve_entries field_name es) as [[-> Hu]|[[err ->] Hu]]; simpl.
  - pose proof (max_by_wins es) as Hw. destruct (max_by precedence_le es) as [[c v]|]; simpl in *.
    + split; [by apply untied_conflict|]. intros v'. rewrite <-wins_decides. fold es. split.
      * intros Hw'. by apply (wins_unique es).
      * by intros ->.
    + intros c Hc. destruct (pick (cc_capabilities c)) as [v|] eqn:Hp; [|done].
      assert (Hin : (c, v) ∈ es) by (by apply elem_of_entries). rewrite Hw in Hin.
      by apply elem_of_nil in Hin.
  - (* the entries are finite, so the disagreement can be found *)
    pose proof (elem_of_entries contributors pick) as Hes. fold es in Hes. clearbody es.
    unfold conflict.
    destruct (decide (Exists (λ e, Exists (λ e', cc_precedence e.1 = cc_precedence e'.1 ∧ e.2 ≠ e'.2) es) es))
      as [Hx|Hx].
    + apply Exists_exists in Hx as ([c v] & H1 & Hx).
      apply Exists_exists in Hx as ([c' v'] & H2 & Hp & Hne).
      apply Hes in H1 as [? ?], H2 as [? ?]. by exists c, c', v, v'.
    + destruct Hu. intros e e' H1 H2 Hp. destruct (decide (e.2 = e'.2)); [done|].
      destruct Hx. apply Exists_exists. exists e. split; [done|]. apply Exists_exists. by exists e'.
Qed.

(** How one setting is resolved. The result is an error exactly when two contributors of
    one precedence disagree, at any precedence; otherwise it is the value of the
    contributors with the highest precedence that set it, and nothing when none does. So
    the result does not depend on the order of the contributors. *)
Theorem highest_precedence_correct (contributors : list (CapabilityContributor C))
    (field_name : string) (pick : C → option T) :
  match highest_precedence contributors field_name pick with
  | Err _ => conflict contributors pick
  | Ok None => ∀ c, c ∈ contributors → pick (cc_capabilities c) = None
  | Ok (Some v) => ¬ conflict contributors pick ∧
      ∀ v', decides contributors pick v' ↔ v' = v
  end ∧
  ∀ contributors' r, contributors ≡ₚ contributors' →
    highest_precedence contributors field_name pick = Ok r →
    highest_precedence contributors' field_name pick = Ok r.
Proof.
  split; [apply highest_precedence_spec|]. intros cs' r Hperm E.
  pose proof (highest_precedence_spec contributors field_name pick) as H1. rewrite E in H1.
  pose proof (highest_precedence_spec cs' field_name pick) as H2.
  assert (Hc : conflict contributors pick ↔ conflict cs' pick)
    by (unfold conflict; by setoid_rewrite Hperm).
  assert (Hd : ∀ v, decides contributors pick v ↔ decides cs' pick v)
    by (intros v; unfold decides; by setoid_rewrite Hperm).
  destruct r as [v|], (highest_precedence cs' field_name pick) as [[v'|]|e].
  - destruct H1 as [_ H1], H2 as [_ H2]. do 2 f_equal. apply H1, Hd. by apply H2.
  - destruct H1 as [_ H1]. destruct (proj2 (H1 v) eq_refl) as (c & Hcs & Hp & _).
    rewrite Hperm in Hcs. apply H2 in Hcs. congruence.
  - destruct H1 as [Hn _]. by apply Hc in H2.
  - destruct H2 as [_ H2]. destruct (proj2 (H2 v') eq_refl) as (c & Hcs & Hp & _).
    rewrite <-Hperm in Hcs. apply H1 in Hcs. congruence.
  - done.
  - apply Hc in H2 as (c & c' & v & v' & Hcs & _ & _ & Hv & _). apply H1 in Hcs. congruence.
Qed.

Lemma resolve_keys_spec contributors label (pick : C → gmap string T) keys acc :
  NoDup keys → (∀ k, k ∈ keys → acc !! k = None) →
  let one k := highest_precedence contributors (label +:+ " '" +:+ k +:+ "'")
                 (λ caps, pick caps !! k) in
  match resolve_keys contributors label pick keys acc with
  | Ok m => ∀ k, if decide (k ∈ keys) then one k = Ok (m !! k) else m !! k = acc !! k
  | Err e => ∃ k, one k = Err e
  end.
Proof.
  intros Hnd Hacc. revert acc Hacc. induction Hnd as [|key keys Hk Hnd IH]; intros acc Hacc one.
  { cbn [resolve_keys]. intros k. rewrite decide_False; [done|]. apply not_elem_of_nil. }
  cbn [resolve_keys]. set (es := entries_of contributors (λ caps, pick caps !! key)).
  assert (Hone : one key = (check_same_precedence_ties (label +:+ " '" +:+ key +:+ "'") es;;
                            Ok (snd <$> max_by precedence_le es))) by done.
  destruct (check_same_precedence_ties _ es) as [[]|e]; simpl; [|by exists key].
  simpl in Hone. set (acc' := match max_by precedence_le es with
                 | Some (_, value) => <[key:=value]> acc | None => acc end).
  assert (Hacc' : acc' !! key = snd <$> max_by precedence_le es ∧
                  ∀ k, k ≠ key → acc' !! k = acc !! k).
  { subst acc'. destruct (max_by precedence_le es) as [[c v]|]; simpl.
    - split; [by rewrite lookup_insert_eq|]. intros k Hne. by rewrite lookup_insert_ne.
    - split; [|done]. apply Hacc. left. }
  destruct Hacc' as [Hk' Hne']. clearbody acc'.
  specialize (IH acc'). assert (Hpre : ∀ k, k ∈ keys → acc' !! k = None).
  { intros k Hin. rewrite Hne' by (intros ->; done). apply Hacc. by right. }
  specialize (IH Hpre). cbv zeta in IH.
  destruct (resolve_keys contributors label pick keys acc') as [m|e]; [|exact IH].
  intros k. specialize (IH k). destruct (decide (k ∈ keys)) as [Hin|Hnin].
  - rewrite decide_True by (by right). exact IH.
  - destruct (decide (k = key)) as [->|Hne].
    + rewrite decide_True by left. by rewrite IH, Hk'.
    + rewrite decide_False by (rewrite elem_of_cons; naive_solver). by rewrite IH, Hne'.
Qed.

(** A map setting is resolved key by key. When it succeeds, each key holds exactly what
    the resolution of a single setting gives for that key; and it fails exactly with the
    error of some key. *)
Theorem resolve_per_key_correct (contributors : list (CapabilityContributor C))
    (label : string) (pick : C → gmap string T) :
  let one k := highest_precedence contributors (label +:+ " '" +:+ k +:+ "'")
                 (λ caps, pick caps !! k) in
  match resolve_per_key contributors label pick with
  | Ok m => ∀ k, one k = Ok (m !! k)
  | Err e => ∃ k, one k = Err e
  end.
Proof.
  intros one. unfold resolve_per_key. set (keys := in_order (all_keys contributors pick)).
  assert (Hmem : ∀ k, k ∈ keys ↔ k ∈ all_keys contributors pick).
  { intros k. subst keys. unfold in_order. by rewrite merge_sort_Permutation, elem_of_elements. }
  assert (Hnd : NoDup keys).
  { subst keys. unfold in_order. rewrite merge_sort_Permutation. apply NoDup_elements. }
  pose proof (resolve_keys_spec contributors label pick keys ∅ Hnd
    (λ k _, lookup_empty k)) as Hs. cbv zeta in Hs.
  destruct (resolve_keys contributors label pick keys ∅) as [m|e]; [|exact Hs].
  intros k. specialize (Hs k). case_decide as Hk; [exact Hs|].
  rewrite lookup_empty in Hs. rewrite Hs. subst one. simpl.
  assert (Hnone : entries_of contributors (λ caps, pick caps !! k) = []).
  { destruct (entries_of _ _) as [|[c v] es] eqn:E; [done|]. exfalso. apply Hk, Hmem.
    assert (Hin : (c, v) ∈ entries_of contributors (λ caps, pick caps !! k))
      by (rewrite E; left).
    apply elem_of_entries in Hin as [Hc Hv]. unfold all_keys. apply elem_of_union_list.
    exists (dom (pick (cc_capabilities c))). split; [|by apply elem_of_dom_2 in Hv].
    apply list_elem_of_fmap. by exists c. }
  unfold highest_precedence. by rewrite Hnone.
Qed.
End laws.

(** ** Laws of bundle selection

    Each firing bundle with a content folder becomes one contributor, ranked by the
    strongest scope kind that fires it. *)
Section refs.
Context (path_exists : string → bool) (bundles_dir : string).

(** A bundle name that can be joined to the folder, with a content folder there. *)
Definition placeable (name : string) : Prop :=
  is_unsafe_join_target name = false ∧ path_exists (path_join bundles_dir name) = true.
Global Instance placeable_dec name : Decision (placeable name).
Proof. unfold placeable. apply _. Defined.

Local Abbreviation push := (λ refs p, push_ref path_exists bundles_dir p.1 p.2 refs).
Definition rank_ge (a b : string * N) : Prop := (b.2 ≤ a.2)%N.

Lemma push_ref_eq name p refs : push_ref path_exists bundles_dir name p refs =
  if decide (name ∉ br_name <$> refs ∧ placeable name)
  then refs ++ [mkBundleRef name (path_join bundles_dir name) p] else refs.
Proof.
  unfold push_ref. destruct (decide (name ∈ br_name <$> refs)).
  { rewrite decide_False; [done|naive_solver]. }
  destruct (is_unsafe_join_target name) eqn:E1;
    [rewrite decide_False; [done|unfold placeable; naive_solver congruence]|].
  destruct (path_exists (path_join bundles_dir name)) eqn:E2.
  - by rewrite decide_True by (unfold placeable; naive_solver).
  - rewrite decide_False; [done|unfold placeable; naive_solver congruence].
Qed.

(** What a sequence of pushes of falling rank builds. *)
Lemma foldl_push (pushes : list (string * N)) : StronglySorted rank_ge pushes →
  let refs := foldl push [] pushes in
  NoDup (br_name <$> refs) ∧
  StronglySorted (λ a b, (br_precedence b ≤ br_precedence a)%N) refs ∧
  (∀ name, name ∈ br_name <$> refs ↔ placeable name ∧ ∃ p, (name, p) ∈ pushes) ∧
  (∀ r, r ∈ refs → br_path r = path_join bundles_dir (br_name r) ∧
     (br_name r, br_precedence r) ∈ pushes ∧
     ∀ p, (br_name r, p) ∈ pushes → (p ≤ br_precedence r)%N).
Proof.
  induction pushes as [|[n p] pushes IH] using rev_ind; intros Hs.
  { simpl. split_and!; [constructor|constructor| |by intros r ?%elem_of_nil].
    intros name. split; [by intros ?%elem_of_nil|]. by intros (_ & p & ?%elem_of_nil). }
  assert (Hs' : StronglySorted rank_ge pushes ∧ ∀ q, q ∈ pushes → (p ≤ q.2)%N).
  { apply StronglySorted_app in Hs as (Hc & Hs' & _). split; [done|].
    intros q Hq. apply (Hc q (n, p)); [done|by left]. }
  destruct Hs' as [Hs' Hlow]. destruct (IH Hs') as (H1 & H2 & H3 & H4). clear IH.
  cbv zeta. rewrite foldl_snoc. cbn [fst snd]. set (refs := foldl push [] pushes) in *.
  rewrite push_ref_eq. destruct (decide (n ∉ br_name <$> refs ∧ placeable n)) as [[Hn Hp]|Hn].
  - assert (Hfresh : ∀ q, (n, q) ∉ pushes).
    { intros q Hq. apply Hn, H3. split; [done|by exists q]. }
    split_and!.
    + rewrite fmap_app. apply NoDup_app. split_and!; [done| |by apply NoDup_singleton].
      intros x Hx ->%list_elem_of_singleton. done.
    + apply StronglySorted_app_2; [|done|by repeat constructor].
      intros x y Hx ->%list_elem_of_singleton. simpl. apply H4 in Hx as (_ & Hx & _).
      by apply (Hlow _ Hx).
    + intros name. rewrite fmap_app, elem_of_app, H3. simpl. rewrite list_elem_of_singleton.
      setoid_rewrite elem_of_app. setoid_rewrite list_elem_of_singleton. split.
      * intros [[? [q Hq]]| ->]; [split; [done|by exists q; left]|]. split; [done|]. exists p. by right.
      * intros (? & q & [Hq|Hq]); [left; split; [done|by exists q]|right; congruence].
    + intros r [Hr| ->%list_elem_of_singleton]%elem_of_app.
      * destruct (H4 r Hr) as (E1 & E2 & E3). split_and!; [done|apply elem_of_app; by left|].
        intros q [Hq|Hq]%elem_of_app; [by apply E3|]. apply list_elem_of_singleton in Hq.
        injection Hq as Hq ->. apply (Hlow _ E2).
      * simpl. split_and!; [done|apply elem_of_app; right; by left|].
        intros q [Hq|Hq]%elem_of_app; [by apply Hfresh in Hq|].
        apply list_elem_of_singleton in Hq. injection Hq as ->. done.
  - split_and!; [done|done| |].
    + intros name. rewrite H3. setoid_rewrite elem_of_app. setoid_rewrite list_elem_of_singleton. split.
      * intros (? & q & Hq). split; [done|]. exists q. by left.
      * intros (Hp & q & [Hq|Hq]); [split; [done|by exists q]|]. injection Hq as -> ->.
        destruct (decide (n ∈ br_name <$> refs)) as [Hin|]; [by apply H3|naive_solver].
    + intros r Hr. destruct (H4 r Hr) as (E1 & E2 & E3).
      split_and!; [done|apply elem_of_app; by left|].
      intros q [Hq|Hq]%elem_of_app; [by apply E3|]. apply list_elem_of_singleton in Hq.
      injection Hq as Hq ->. apply (Hlow _ E2).
Qed.
End refs.

(** The rank of a scope kind. *)
Definition kind_rank (kind : scope_kind) : N :=
  match kind with KNetwork => 5 | KHost => 4 | KUser => 3 | KContent => 2 | KProject => 1 end.
(** A scope of the kind has a tag that the bundle waits for. *)
Definition fired_by (active : ActiveScopes) (b : Bundle) (kind : scope_kind) : Prop :=
  ∃ t s, t ∈ b_when b ∧ s ∈ ac_scopes active ∧ as_kind s = kind ∧ t ∈ as_tags s.

Definition tier_pushes (active : ActiveScopes) (firing : list Bundle) (kind : scope_kind)
  : list (string * N) :=
  (λ b, (b_name b, kind_rank kind)) <$>
    filter (λ b, existsb (λ t, bool_decide (t ∈ kind_tags active kind)) (b_when b) = true) firing.
Definition all_pushes (active : ActiveScopes) (firing : list Bundle) : list (string * N) :=
  tier_pushes active firing KNetwork ++ tier_pushes active firing KHost ++
  tier_pushes active firing KUser ++ tier_pushes active firing KContent ++
  tier_pushes active firing KProject ++ ((λ b, (b_name b, 0%N)) <$> firing).

Lemma push_tier_eq path_exists dir active firing refs tier kind :
  tier_rank tier = kind_rank kind →
  push_tier path_exists dir active firing refs (tier, kind) =
  foldl (λ refs p, push_ref path_exists dir p.1 p.2 refs) refs (tier_pushes active firing kind).
Proof.
  intros Hr. unfold push_tier, tier_pushes. cbn [fst snd]. rewrite Hr.
  revert refs. induction firing as [|b firing IH]; intros refs; [done|].
  cbn [foldl]. rewrite filter_cons. destruct (existsb _ _); cbn [decide]; simpl; apply IH.
Qed.

Lemma build_pushes path_exists config_dir active firing :
  build_bundle_refs path_exists config_dir active firing =
  foldl (λ refs p, push_ref path_exists (path_join config_dir "bundles") p.1 p.2 refs) []
    (all_pushes active firing).
Proof.
  unfold build_bundle_refs, all_pushes. rewrite !foldl_app.
  cbn [imap PRECEDENCE foldl compose]. rewrite !push_tier_eq by done.
  generalize (foldl (λ refs p, push_ref path_exists (path_join config_dir "bundles") p.1 p.2 refs)
    (foldl (λ refs p, push_ref path_exists (path_join config_dir "bundles") p.1 p.2 refs)
      (foldl (λ refs p, push_ref path_exists (path_join config_dir "bundles") p.1 p.2 refs)
        (foldl (λ refs p, push_ref path_exists (path_join config_dir "bundles") p.1 p.2 refs)
          (foldl (λ refs p, push_ref path_exists (path_join config_dir "bundles") p.1 p.2 refs) []
             (tier_pushes active firing KNetwork)) (tier_pushes active firing KHost))
        (tier_pushes active firing KUser)) (tier_pushes active firing KContent))
    (tier_pushes active firing KProject)) as refs.
  induction firing as [|b firing IH]; intros refs; [done|]. simpl. apply IH.
Qed.

Lemma elem_of_tier_pushes active firing kind n p : (n, p) ∈ tier_pushes active firing kind ↔
  p = kind_rank kind ∧ ∃ b, b ∈ firing ∧ b_name b = n ∧ fired_by active b kind.
Proof.
  unfold tier_pushes. rewrite list_elem_of_fmap. setoid_rewrite list_elem_of_filter.
  assert (Hf : ∀ b, existsb (λ t, bool_decide (t ∈ kind_tags active kind)) (b_when b) = true ↔
                    fired_by active b kind).
  { intros b. rewrite existsb_exists. unfold fired_by, kind_tags.
    setoid_rewrite bool_decide_eq_true. setoid_rewrite elem_of_list_to_set.
    setoid_rewrite list_elem_of_bind. setoid_rewrite list_elem_of_filter.
    setoid_rewrite <-list_elem_of_In. naive_solver. }
  setoid_rewrite Hf. naive_solver.
Qed.

Lemma elem_of_all_pushes active firing n p : (n, p) ∈ all_pushes active firing ↔
  ∃ b, b ∈ firing ∧ b_name b = n ∧ (p = 0%N ∨ ∃ kind, fired_by active b kind ∧ p = kind_rank kind).
Proof.
  unfold all_pushes. rewrite !elem_of_app, !elem_of_tier_pushes, list_elem_of_fmap. split.
  - intros [(-> & b & ? & ? & ?)|[(-> & b & ? & ? & ?)|[(-> & b & ? & ? & ?)|
           [(-> & b & ? & ? & ?)|[(-> & b & ? & ? & ?)|(b & Hb & ?)]]]]];
      try (exists b; split_and!; [done..|right; by eexists]).
    injection Hb as -> ->. exists b. split_and!; [done..|by left].
  - intros (b & Hb & Hn & [->|([] & Hf & ->)]).
    + do 5 right. exists b. by rewrite Hn.
    + left. split; [done|]. by exists b.
    + right; left. split; [done|]. by exists b.
    + do 2 right; left. split; [done|]. by exists b.
    + do 3 right; left. split; [done|]. by exists b.
    + do 4 right; left. split; [done|]. by exists b.
Qed.

Lemma constant_sorted (l : list (string * N)) k : (∀ q, q ∈ l → q.2 = k) → StronglySorted rank_ge l.
Proof.
  induction l as [|q l IH]; intros H; constructor.
  - apply IH. intros x Hx. apply H. by right.
  - apply Forall_forall. intros x Hx. unfold rank_ge. rewrite (H q), (H x); [done|by right|by left].
Qed.

Lemma all_pushes_sorted active firing : StronglySorted rank_ge (all_pushes active firing).
Proof.
  assert (Ht : ∀ kind q, q ∈ tier_pushes active firing kind → q.2 = kind_rank kind).
  { intros kind [n p] [-> _]%elem_of_tier_pushes. done. }
  assert (Hz : ∀ q, q ∈ (λ b, (b_name b, 0%N)) <$> firing → q.2 = 0%N).
  { intros q (b & -> & _)%list_elem_of_fmap. done. }
  unfold all_pushes.
  repeat (apply StronglySorted_app_2; [|by eapply constant_sorted, Ht|]; [intros x y Hx Hy; unfold rank_ge;
    rewrite (Ht _ _ Hx); rewrite ?elem_of_app in Hy;
    repeat (destruct Hy as [Hy|Hy]; [rewrite (Ht _ _ Hy); simpl; lia|]);
    first [rewrite (Hz _ Hy)|rewrite (Ht _ _ Hy)]; simpl; lia|]).
  by eapply constant_sorted, Hz.
Qed.

(** The contributors. Each firing bundle with a safe name and a content folder becomes
    exactly one reference, in the folder of its name; no other does. The references fall
    in rank. The rank of each is that of the strongest scope kind that fires a bundle of
    the name (network 5, host 4, user 3, content 2, project 1), or 0 when a marker alone
    enables it, so the top-level configuration outranks them all; a bundle that the network
    fires outranks one that only the project fires. *)
Theorem build_bundle_refs_correct (path_exists : string → bool) (config_dir : string)
    (active : ActiveScopes) (firing : list Bundle) :
  let dir := path_join config_dir "bundles" in
  let refs := build_bundle_refs path_exists config_dir active firing in
  NoDup (br_name <$> refs) ∧
  StronglySorted (λ a b, (br_precedence b ≤ br_precedence a)%N) refs ∧
  (∀ name, name ∈ br_name <$> refs ↔
     placeable path_exists dir name ∧ ∃ b, b ∈ firing ∧ b_name b = name) ∧
  (∀ r, r ∈ refs →
     br_path r = path_join dir (br_name r) ∧ (br_precedence r < TOP_LEVEL_PRECEDENCE)%N ∧
     (∀ b kind, b ∈ firing → b_name b = br_name r → fired_by active b kind →
        (kind_rank kind ≤ br_precedence r)%N) ∧
     (br_precedence r = 0%N ∨ ∃ b kind, b ∈ firing ∧ b_name b = br_name r ∧
        fired_by active b kind ∧ br_precedence r = kind_rank kind)) ∧
  (kind_rank KProject < kind_rank KNetwork)%N.
Proof.
  intros dir refs. unfold refs. rewrite build_pushes. fold dir.
  destruct (foldl_push path_exists dir _ (all_pushes_sorted active firing)) as (H1 & H2 & H3 & H4).
  split_and!; [exact H1|exact H2| | |done].
  - intros name. rewrite H3. setoid_rewrite elem_of_all_pushes. split.
    + intros (? & p & b & ? & ? & _). split; [done|by exists b].
    + intros (? & b & ? & ?). split; [done|]. exists 0%N, b. by split_and!; [..|left].
  - intros r Hr. destruct (H4 r Hr) as (E1 & E2 & E3).
    apply elem_of_all_pushes in E2 as (b & Hb & Hn & Hp). split_and!; [done|..].
    + destruct Hp as [->|([] & _ & ->)]; vm_compute; reflexivity.
    + intros b' kind Hb' Hn' Hf. apply E3, elem_of_all_pushes. exists b'. split_and!; [done..|].
      right. by exists kind.
    + destruct Hp as [->|(kind & Hf & ->)]; [by left|right]. by exists b, kind.
Qed.

(** Which bundles fire. A bundle fires exactly when one of its tags is active or an active
    scope enables it, it passes the tag filter, and no active scope disables it: a disable
    always wins, also over an enable of the same scope. *)
Theorem firing_bundles_correct (bundles : list Bundle) (active : ActiveScopes)
    (tag_filter : option string) (b : Bundle) :
  b ∈ firing_bundles bundles active tag_filter ↔
  b ∈ bundles ∧
  (∀ s, s ∈ ac_scopes active → b_name b ∉ as_disable_bundles s) ∧
  (∀ t, tag_filter = Some t → t ∈ b_when b) ∧
  ((∃ t, t ∈ b_when b ∧ t ∈ ac_tags active) ∨
   ∃ s, s ∈ ac_scopes active ∧ b_name b ∈ as_enable_bundles s).
Proof.
  unfold firing_bundles, tag_or_marker_selected, marker_disabled_bundle_names,
    marker_enabled_bundle_names.
  rewrite !list_elem_of_filter, orb_true_iff, existsb_exists, bool_decide_eq_true,
    !elem_of_list_to_set, !list_elem_of_bind.
  setoid_rewrite bool_decide_eq_true. setoid_rewrite <-list_elem_of_In.
  assert (Ht : is_none_or tag_filter (λ t, existsb (λ w, bool_decide (w = t)) (b_when b)) = true ↔
               ∀ t, tag_filter = Some t → t ∈ b_when b).
  { destruct tag_filter as [t|]; simpl; [|naive_solver]. rewrite existsb_exists.
    setoid_rewrite bool_decide_eq_true. setoid_rewrite <-list_elem_of_In. naive_solver. }
  rewrite Ht. naive_solver.
Qed.
