(* ===== verification/Ssrf.v ===== *)
(** * Addresses an MCP client may contact
    (crates/llmenv-mcp/src/mcp_client/ssrf.rs, cleartext.rs)

    The gate before an outbound request: which addresses a URL may lead to, and when
    clear text is allowed. [Net] is what the url crate and the resolver answer. *)

From S2P Require Import Prelude RustStr.

(** ** Addresses: octets and 16-bit segments as in [std::net] *)

Record ipv4 := mkV4 { v4_a : N; v4_b : N; v4_c : N; v4_d : N }.
Global Instance ipv4_eq_dec : EqDecision ipv4.
Proof. solve_decision. Defined.
Record ipv6 := mkV6 {
  v6_0 : N; v6_1 : N; v6_2 : N; v6_3 : N; v6_4 : N; v6_5 : N; v6_6 : N; v6_7 : N }.
Global Instance ipv6_eq_dec : EqDecision ipv6.
Proof. solve_decision. Defined.
Inductive IpAddr := V4 (ip : ipv4) | V6 (ip : ipv6).
Global Instance IpAddr_eq_dec : EqDecision IpAddr.
Proof. solve_decision. Defined.
Record SocketAddr := mkSocket { sa_ip : IpAddr; sa_port : N }.

Definition v4_is_loopback (ip : ipv4) : bool := (v4_a ip =? 127)%N.
Definition v4_is_private (ip : ipv4) : bool :=
  ((v4_a ip =? 10) || ((v4_a ip =? 172) && (16 <=? v4_b ip) && (v4_b ip <=? 31)) ||
   ((v4_a ip =? 192) && (v4_b ip =? 168)))%N.
Definition v4_is_link_local (ip : ipv4) : bool := ((v4_a ip =? 169) && (v4_b ip =? 254))%N.
Definition v4_is_unspecified (ip : ipv4) : bool := bool_decide (ip = mkV4 0 0 0 0).
Definition v4_is_broadcast (ip : ipv4) : bool := bool_decide (ip = mkV4 255 255 255 255).

Definition v6_is_loopback (ip : ipv6) : bool := bool_decide (ip = mkV6 0 0 0 0 0 0 0 1).
Definition v6_is_unspecified (ip : ipv6) : bool := bool_decide (ip = mkV6 0 0 0 0 0 0 0 0).
Definition v6_is_unicast_link_local (ip : ipv6) : bool :=
  (N.land (v6_0 ip) 65472 =? 65152)%N.    (* & 0xffc0 == 0xfe80 *)
Definition is_unique_local_v6 (ip : ipv6) : bool :=
  (N.land (N.shiftr (v6_0 ip) 8) 254 =? 252)%N.    (* the first octet & 0xfe == 0xfc *)

(** The IPv4 address of two segments: [(hi >> 8) as u8, hi as u8, ..]. *)
Definition low (hi lo : N) : ipv4 :=
  mkV4 (N.land (N.shiftr hi 8) 255) (N.land hi 255) (N.land (N.shiftr lo 8) 255) (N.land lo 255).
Definition to_ipv4_mapped (ip : ipv6) : option ipv4 :=
  if decide (v6_0 ip = 0 ∧ v6_1 ip = 0 ∧ v6_2 ip = 0 ∧ v6_3 ip = 0 ∧ v6_4 ip = 0 ∧ v6_5 ip = 65535)%N
  then Some (low (v6_6 ip) (v6_7 ip)) else None.

(** ** cleartext.rs *)

Definition embedded_ipv4 (ip : ipv6) : option ipv4 :=
  match to_ipv4_mapped ip with
  | Some mapped => Some mapped
  | None =>
    if decide ((v6_0 ip = 0 ∧ v6_1 ip = 0 ∧ v6_2 ip = 0 ∧ v6_3 ip = 0 ∧ v6_4 ip = 0 ∧ v6_5 ip = 0)%N ∧
               v6_is_unspecified ip = false ∧ v6_is_loopback ip = false)
    then Some (low (v6_6 ip) (v6_7 ip))
    else if decide (v6_0 ip = 100 ∧ v6_1 ip = 65435 ∧ v6_2 ip = 0 ∧ v6_3 ip = 0 ∧ v6_4 ip = 0 ∧ v6_5 ip = 0)%N
    then Some (low (v6_6 ip) (v6_7 ip))
    else if decide (v6_0 ip = 8194)%N then Some (low (v6_1 ip) (v6_2 ip))
    else None
  end.

Definition is_cgnat (ip : ipv4) : bool := ((v4_a ip =? 100) && (N.land (v4_b ip) 192 =? 64))%N.
Definition is_cleartext_safe_v4 (ip : ipv4) : bool :=
  v4_is_loopback ip || v4_is_private ip || is_cgnat ip.
Definition is_cleartext_safe (ip : IpAddr) : bool :=
  match ip with
  | V4 v4 => is_cleartext_safe_v4 v4
  | V6 v6 =>
    match to_ipv4_mapped v6 with
    | Some mapped => is_cleartext_safe_v4 mapped
    | None => v6_is_loopback v6 || is_unique_local_v6 v6
    end
  end.

(** ** ssrf.rs *)

Inductive SsrfPolicy := PublicOnly | AllowPrivateNetwork.
Global Instance SsrfPolicy_eq_dec : EqDecision SsrfPolicy.
Proof. solve_decision. Defined.

Definition then_some (b : bool) (s : string) : option string := if b then Some s else None.
Definition blocked_reason_v4 (v4 : ipv4) (policy : SsrfPolicy) : option string :=
  let block_private := bool_decide (policy = PublicOnly) in
  if v4_is_loopback v4 then then_some block_private "loopback IPv4"
  else if v4_is_private v4 then then_some block_private "private IPv4"
  else if v4_is_link_local v4 then Some "link-local IPv4"
  else if v4_is_unspecified v4 then Some "unspecified IPv4"
  else if v4_is_broadcast v4 then Some "broadcast IPv4"
  else None.
Definition blocked_reason (ip : IpAddr) (policy : SsrfPolicy) : option string :=
  let block_private := bool_decide (policy = PublicOnly) in
  match ip with
  | V4 v4 => blocked_reason_v4 v4 policy
  | V6 v6 =>
    match embedded_ipv4 v6 with
    | Some embedded => blocked_reason_v4 embedded policy
    | None =>
      if v6_is_loopback v6 then then_some block_private "loopback IPv6"
      else if v6_is_unspecified v6 then Some "unspecified IPv6"
      else if v6_is_unicast_link_local v6 then Some "link-local IPv6"
      else if is_unique_local_v6 v6 then then_some block_private "unique-local IPv6 (ULA)"
      else None
    end
  end.
Definition is_link_local (ip : IpAddr) : bool :=
  match ip with
  | V4 v4 => v4_is_link_local v4
  | V6 v6 =>
    match embedded_ipv4 v6 with
    | Some v4 => v4_is_link_local v4
    | None => v6_is_unicast_link_local v6
    end
  end.

(** The host of a URL, and the URL as far as the code reads it. *)
Inductive Host := HIpv4 (ip : ipv4) | HIpv6 (ip : ipv6) | HDomain (name : string).
Record Url := mkUrl { url_scheme : string; url_host : option Host; url_port : option N }.
(** What the thread of [run_with_timeout] gives in time. *)
Inductive race := RaceResolved (addrs : list SocketAddr) | RaceFailed | RaceTimeout | RaceDisconnected.

Class Net := {
  url_parse : string → option Url;
  to_socket_addrs : string → N → race;
  host_to_string : Host → string }.

Inductive url_error :=
| InvalidUrl | UnsupportedScheme (scheme : string) | NoHost | NoPort
| DnsFailed (host : string) | DnsTimeout (host : string) | DnsPanicked (host : string)
| NoAddresses | OnlyLinkLocal (first : IpAddr) | Blocked (reason : string) (ip : IpAddr)
| Cleartext (ip : IpAddr).

Section net.
Context `{Net}.

Definition resolve_with_timeout (host : string) (port : N) : result url_error (list SocketAddr) :=
  match to_socket_addrs host port with
  | RaceResolved addrs => Ok addrs
  | RaceFailed => Err (DnsFailed host)
  | RaceTimeout => Err (DnsTimeout host)
  | RaceDisconnected => Err (DnsPanicked host)
  end.

Definition require_https_for_public (url : string) (addrs : list SocketAddr)
  : result url_error unit :=
  parsed ← ok_or (url_parse url) InvalidUrl;
  if decide (url_scheme parsed ≠ "http") then Ok tt
  else
    match find_first (λ a, is_cleartext_safe (sa_ip a) = false) addrs with
    | Some addr => Err (Cleartext (sa_ip addr))
    | None => Ok tt
    end.

Definition drop_link_local_for_domain (resolved : list SocketAddr) (policy : SsrfPolicy)
  : result url_error (list SocketAddr) :=
  if decide (resolved = []) then Err NoAddresses
  else if decide (policy ≠ AllowPrivateNetwork) then Ok resolved
  else
    let dropped := filter (λ a, is_link_local (sa_ip a) = true) resolved in
    let kept := filter (λ a, is_link_local (sa_ip a) ≠ true) resolved in
    match kept, dropped with
    | [], first :: _ => Err (OnlyLinkLocal (sa_ip first))
    | _, _ => Ok kept
    end.

(** The loop that rejects the first blocked address. *)
Fixpoint reject_blocked (addrs : list SocketAddr) (policy : SsrfPolicy) : result url_error unit :=
  match addrs with
  | [] => Ok tt
  | addr :: addrs =>
    match blocked_reason (sa_ip addr) policy with
    | Some reason => Err (Blocked reason (sa_ip addr))
    | None => reject_blocked addrs policy
    end
  end.

Definition validate_url_production (url : string) (policy : SsrfPolicy)
  : result url_error (string * list SocketAddr) :=
  parsed ← ok_or (url_parse url) InvalidUrl;
  if decide (url_scheme parsed ≠ "http" ∧ url_scheme parsed ≠ "https") then
    Err (UnsupportedScheme (url_scheme parsed))
  else
    host ← ok_or (url_host parsed) NoHost;
    port ← ok_or (url_port parsed) NoPort;
    addrs ← match host with
            | HIpv4 v4 => Ok [mkSocket (V4 v4) port]
            | HIpv6 v6 => Ok [mkSocket (V6 v6) port]
            | HDomain name =>
              resolved ← resolve_with_timeout name port;
              drop_link_local_for_domain resolved policy
            end;
    reject_blocked addrs policy;;
    Ok (host_to_string host, addrs).

(** [public_cleartext_literal] (cleartext.rs). *)
Definition public_cleartext_literal (url : string) : option IpAddr :=
  parsed ← url_parse url;
  if decide (url_scheme parsed ≠ "http") then None
  else
    host ← url_host parsed;
    ip ← match host with HIpv4 v4 => Some (V4 v4) | HIpv6 v6 => Some (V6 v6) | HDomain _ => None end;
    if is_cleartext_safe ip then None else Some ip.
End net.

(** ** What the policies promise *)

(** The address that a packet to [ip] reaches: the IPv4 address that an IPv6 address wraps. *)
Definition reached (ip : IpAddr) : IpAddr :=
  match ip with
  | V4 v4 => V4 v4
  | V6 v6 => match embedded_ipv4 v6 with Some v4 => V4 v4 | None => V6 v6 end
  end.
Definition loopback (ip : IpAddr) : bool :=
  match ip with V4 v4 => v4_is_loopback v4 | V6 v6 => v6_is_loopback v6 end.
Definition private (ip : IpAddr) : bool :=
  match ip with V4 v4 => v4_is_private v4 | V6 v6 => is_unique_local_v6 v6 end.
(** No endpoint: link-local (the metadata service is 169.254.169.254), unspecified, broadcast. *)
Definition unroutable (ip : IpAddr) : bool :=
  match ip with
  | V4 v4 => v4_is_link_local v4 || v4_is_unspecified v4 || v4_is_broadcast v4
  | V6 v6 => v6_is_unicast_link_local v6 || v6_is_unspecified v6
  end.
Definition permitted (policy : SsrfPolicy) (ip : IpAddr) : Prop :=
  unroutable (reached ip) = false ∧
  (policy = PublicOnly → loopback (reached ip) = false ∧ private (reached ip) = false).

Lemma v4_loopback_routable v4 : v4_is_loopback v4 = true → unroutable (V4 v4) = false.
Proof.
  destruct v4 as [a b c d]. unfold v4_is_loopback, unroutable, v4_is_link_local, v4_is_unspecified,
    v4_is_broadcast. simpl. intros ->%N.eqb_eq. rewrite !bool_decide_eq_false_2; [done|by intros [=]..].
Qed.
Lemma v4_private_routable v4 : v4_is_private v4 = true → unroutable (V4 v4) = false.
Proof.
  destruct v4 as [a b c d]. unfold v4_is_private, unroutable, v4_is_link_local, v4_is_unspecified,
    v4_is_broadcast. simpl. rewrite !orb_true_iff, !andb_true_iff, !N.eqb_eq. intros Ha.
  assert (Hne : a ≠ 0%N ∧ a ≠ 169%N ∧ a ≠ 255%N) by (destruct Ha as [[->|[[-> _] _]]|[-> _]]; done).
  destruct Hne as (H0 & H169 & H255). apply N.eqb_neq in H169 as ->.
  rewrite !bool_decide_eq_false_2; [done|congruence..].
Qed.

Lemma blocked_v4_permitted v4 policy :
  blocked_reason_v4 v4 policy = None ↔
  unroutable (V4 v4) = false ∧
  (policy = PublicOnly → loopback (V4 v4) = false ∧ private (V4 v4) = false).
Proof.
  pose proof (v4_loopback_routable v4) as Hl. pose proof (v4_private_routable v4) as Hp.
  unfold blocked_reason_v4, loopback, private, then_some.
  destruct (v4_is_loopback v4); [destruct policy; simpl; naive_solver|].
  destruct (v4_is_private v4); [destruct policy; simpl; naive_solver|].
  unfold unroutable in *. rewrite !orb_false_iff.
  destruct (v4_is_link_local v4), (v4_is_unspecified v4), (v4_is_broadcast v4); naive_solver.
Qed.

Lemma v6_loopback_exact v6 : v6_is_loopback v6 = true → v6 = mkV6 0 0 0 0 0 0 0 1.
Proof. unfold v6_is_loopback. by intros ?%bool_decide_eq_true. Qed.
(** [fe80::/10] and [fc00::/7] differ in bit 9 of the first segment. *)
Lemma v6_ula_not_link_local v6 :
  is_unique_local_v6 v6 = true → v6_is_unicast_link_local v6 = false.
Proof.
  unfold is_unique_local_v6, v6_is_unicast_link_local. intros H1%N.eqb_eq. apply N.eqb_neq.
  intros H2. apply (f_equal (λ x, N.testbit x 1)) in H1. apply (f_equal (λ x, N.testbit x 9)) in H2.
  rewrite N.land_spec in H1, H2. rewrite N.shiftr_spec' in H1.
  change (N.testbit (v6_0 v6) 9 && true = false) in H1.
  change (N.testbit (v6_0 v6) 9 && true = true) in H2. congruence.
Qed.
Lemma v6_ula_not_unspecified v6 : is_unique_local_v6 v6 = true → v6_is_unspecified v6 = false.
Proof.
  unfold v6_is_unspecified. rewrite bool_decide_eq_false. intros Hu ->. vm_compute in Hu. done.
Qed.

(** The gate decides what the policy promises, for the address that is reached. *)
Lemma blocked_permitted ip policy : blocked_reason ip policy = None ↔ permitted policy ip.
Proof.
  unfold permitted, reached. destruct ip as [v4|v6]; [apply blocked_v4_permitted|].
  unfold blocked_reason. destruct (embedded_ipv4 v6) as [v4|]; [apply blocked_v4_permitted|].
  pose proof (v6_loopback_exact v6) as Hl. pose proof (v6_ula_not_link_local v6) as Hu.
  pose proof (v6_ula_not_unspecified v6) as Hs.
  unfold unroutable, loopback, private, then_some. destruct (v6_is_loopback v6).
  { rewrite (Hl eq_refl). destruct policy; vm_compute; naive_solver. }
  destruct (v6_is_unspecified v6) eqn:E1; [rewrite orb_true_r; naive_solver|].
  destruct (v6_is_unicast_link_local v6) eqn:E2; [naive_solver|].
  destruct (is_unique_local_v6 v6); destruct policy; simpl; naive_solver.
Qed.

Lemma reject_blocked_spec addrs policy :
  reject_blocked addrs policy = Ok tt ↔ Forall (λ a, permitted policy (sa_ip a)) addrs.
Proof.
  induction addrs as [|a addrs IH]; [by split|]. cbn [reject_blocked].
  rewrite Forall_cons, <-IH, <-blocked_permitted. destruct (blocked_reason (sa_ip a) policy); naive_solver.
Qed.

Lemma is_link_local_unroutable ip : is_link_local ip = true → unroutable (reached ip) = true.
Proof.
  destruct ip as [v4|v6]; unfold is_link_local, reached; simpl; [by intros ->|].
  destruct (embedded_ipv4 v6); simpl; by intros ->.
Qed.

Section laws.
Context `{HN : Net}.

Lemma drop_link_local_spec resolved policy addrs :
  drop_link_local_for_domain resolved policy = Ok addrs →
  resolved ≠ [] ∧ addrs ≠ [] ∧
  ∀ a, a ∈ addrs ↔ a ∈ resolved ∧ (policy = AllowPrivateNetwork → is_link_local (sa_ip a) = false).
Proof.
  unfold drop_link_local_for_domain. case_decide as Hr; [done|]. case_decide as Hp.
  { intros [= <-]. split_and!; [done..|]. destruct policy; naive_solver. }
  assert (policy = AllowPrivateNetwork) as -> by (by destruct policy).
  assert (Hmem : ∀ a, a ∈ filter (λ a, is_link_local (sa_ip a) ≠ true) resolved ↔
    a ∈ resolved ∧ (AllowPrivateNetwork = AllowPrivateNetwork → is_link_local (sa_ip a) = false)).
  { intros a. rewrite list_elem_of_filter, not_true_iff_false. naive_solver. }
  destruct (filter (λ a, is_link_local (sa_ip a) ≠ true) resolved) as [|k kept] eqn:Ek.
  - destruct (filter (λ a, is_link_local (sa_ip a) = true) resolved) as [|d dropped] eqn:Ed; [|done].
    exfalso. destruct resolved as [|a resolved]; [done|].
    destruct (is_link_local (sa_ip a)) eqn:Ea.
    + assert (Hin : a ∈ filter (λ a, is_link_local (sa_ip a) = true) (a :: resolved))
        by (apply list_elem_of_filter; split; [done|left]).
      rewrite Ed in Hin. by apply elem_of_nil in Hin.
    + assert (Hin : a ∈ (@nil SocketAddr)) by (apply Hmem; split; [left|done]).
      by apply elem_of_nil in Hin.
  - intros [= <-]. by split_and!.
Qed.

(** The gate before an outbound request. A URL that passes has the scheme http or https
    and a host, and gives at least one address to connect to. Each of them reaches, also
    through an IPv6 address that wraps an IPv4 one, no link-local, unspecified or broadcast
    address, and under [PublicOnly] no loopback or private one. For a host name, the
    addresses are those of one resolution: under [PublicOnly] all of them, so one blocked
    address refuses the URL; else all but the link-local ones. *)
Theorem validate_url_correct (url : string) (policy : SsrfPolicy) (key : string)
    (addrs : list SocketAddr) :
  validate_url_production url policy = Ok (key, addrs) →
  ∃ u host, url_parse url = Some u ∧ (url_scheme u = "http" ∨ url_scheme u = "https") ∧
    url_host u = Some host ∧ key = host_to_string host ∧ addrs ≠ [] ∧
    Forall (λ a, permitted policy (sa_ip a)) addrs ∧
    ∀ name, host = HDomain name → ∃ port resolved,
      to_socket_addrs name port = RaceResolved resolved ∧
      ∀ a, a ∈ addrs ↔ a ∈ resolved ∧
        (policy = AllowPrivateNetwork → is_link_local (sa_ip a) = false).
Proof.
  unfold validate_url_production. destruct (url_parse url) as [u|]; [|done]. cbn [ok_or].
  intros (? & [= <-] & H)%result_bind_ok. case_decide as Hs; [done|].
  assert (Hscheme : url_scheme u = "http" ∨ url_scheme u = "https").
  { destruct (decide (url_scheme u = "http")); [by left|].
    destruct (decide (url_scheme u = "https")); [by right|naive_solver]. }
  apply result_bind_ok in H as (host & Eh & H). destruct (url_host u) as [h|] eqn:Eu; [|done].
  injection Eh as ->. apply result_bind_ok in H as (port & _ & H).
  apply result_bind_ok in H as (as' & Ea & H). apply result_bind_ok in H as ([] & Eb & [= <- <-]).
  apply reject_blocked_spec in Eb. exists u, host. split_and!; [done..| |done|].
  - destruct host as [v4|v6|name]; [by injection Ea as <-..|].
    apply result_bind_ok in Ea as (resolved & _ & Ed). by apply drop_link_local_spec in Ed as (_ & ? & _).
  - intros name ->. apply result_bind_ok in Ea as (resolved & Er & Ed). exists port, resolved.
    unfold resolve_with_timeout in Er. destruct (to_socket_addrs name port); try done.
    injection Er as ->. split; [done|]. by apply drop_link_local_spec in Ed as (_ & _ & ?).
Qed.

Lemma safe_v4_permitted v4 :
  is_cleartext_safe_v4 v4 = true → loopback (V4 v4) = false → private (V4 v4) = false → is_cgnat v4 = true.
Proof. unfold is_cleartext_safe_v4, loopback, private. rewrite !orb_true_iff. intuition congruence. Qed.

Lemma safe_v6_not_embedded v6 :
  v6_is_loopback v6 || is_unique_local_v6 v6 = true → embedded_ipv4 v6 = None.
Proof.
  rewrite orb_true_iff. intros [H|H]; [by apply v6_loopback_exact in H as ->|].
  assert (Hne : v6_0 v6 ≠ 0%N ∧ v6_0 v6 ≠ 100%N ∧ v6_0 v6 ≠ 8194%N).
  { unfold is_unique_local_v6 in H. split_and!; intros E; rewrite E in H; vm_compute in H; done. }
  unfold embedded_ipv4, to_ipv4_mapped. by rewrite !decide_False by naive_solver.
Qed.

(** Clear text stays on the operator's own network. [require_https_for_public] accepts an
    [http] URL exactly when each address is cleartext-safe; and the two address rules agree:
    an address that is cleartext-safe and that [PublicOnly] would still let through is in the
    carrier-grade NAT range. *)
Theorem cleartext_correct (url : string) (addrs : list SocketAddr) (u : Url) :
  url_parse url = Some u → url_scheme u = "http" →
  (require_https_for_public url addrs = Ok tt ↔
     ∀ a, a ∈ addrs → is_cleartext_safe (sa_ip a) = true) ∧
  ∀ ip, is_cleartext_safe ip = true → permitted PublicOnly ip →
    ∃ v4, reached ip = V4 v4 ∧ is_cgnat v4 = true.
Proof.
  intros Hu Hs. split.
  - unfold require_https_for_public. rewrite Hu. cbn [ok_or mbind result_bind].
    rewrite decide_False by (by intros []).
    destruct (find_first _ addrs) as [a|] eqn:E; cbn.
    + split; [done|]. intros H. apply find_first_Some in E as [Ha E]. rewrite H in E; done.
    + split; [|done]. intros _ a Ha. apply find_first_None in E. rewrite Forall_forall in E.
      specialize (E a Ha). by destruct (is_cleartext_safe (sa_ip a)).
  - intros [v4|v6] Hsafe [_ Hp]; destruct (Hp eq_refl) as [H1 H2].
    { exists v4. split; [done|]. by apply safe_v4_permitted. }
    unfold is_cleartext_safe in Hsafe. unfold reached in *.
    destruct (to_ipv4_mapped v6) as [mapped|] eqn:Em.
    + assert (Ee : embedded_ipv4 v6 = Some mapped) by (unfold embedded_ipv4; by rewrite Em).
      rewrite Ee in *. exists mapped. split; [done|]. by apply safe_v4_permitted.
    + rewrite (safe_v6_not_embedded _ Hsafe) in *. simpl in *.
      apply orb_true_iff in Hsafe. destruct Hsafe; congruence.
Qed.
End laws.
