(* ===== verification/NetAddr.v ===== *)
(** * IP address literals ([std::net] parsers)

    The parser of the standard library behind [str::parse::<IpAddr>()]: each reader takes a prefix
    of the text and gives the value with the rest. The addresses are those of [Ssrf]. *)

From S2P Require Import Prelude RustStr Ssrf.

Definition digit_value (radix : N) (c : ascii) : option N :=
  let n := code c in
  let v :=
    if is_ascii_digit c then Some (n - 48)%N
    else if in_range 97 102 c then Some (n - 87)%N
    else if in_range 65 70 c then Some (n - 55)%N
    else None in
  d ← v; if decide (d < radix)%N then Some d else None.

(** The digits at the front of the text: their value, how many there are, the rest. *)
Fixpoint read_digits (radix acc : N) (count : nat) (s : string) : N * nat * string :=
  match s with
  | String c rest =>
    match digit_value radix c with
    | Some d => read_digits radix (acc * radix + d) (S count) rest
    | None => (acc, count, s)
    end
  | "" => (acc, count, s)
  end.
(** [Parser::read_number] with a limit on the digits. *)
Definition read_number (radix max : N) (max_digits : nat) (allow_zero_prefix : bool) (s : string)
  : option (N * string) :=
  let '(value, count, rest) := read_digits radix 0 0 s in
  let leading_zero := match s with String "0" _ => true | _ => false end in
  if decide (max_digits < count ∨ count = 0) then None
  else if negb allow_zero_prefix && leading_zero && bool_decide (1 < count) then None
  else if decide (value ≤ max)%N then Some (value, rest) else None.

Definition read_char (c : ascii) (s : string) : option string :=
  match s with String d rest => if Ascii.eqb d c then Some rest else None | "" => None end.

Definition read_octet : string → option (N * string) := read_number 10 255 3 false.
Definition read_ipv4 (s : string) : option (ipv4 * string) :=
  '(a, s) ← read_octet s; s ← read_char "." s;
  '(b, s) ← read_octet s; s ← read_char "." s;
  '(c, s) ← read_octet s; s ← read_char "." s;
  '(d, s) ← read_octet s; Some (mkV4 a b c d, s).

(** Up to [limit] groups from the [i]th on, each after a colon unless it is the first; the last two
    can be an IPv4 address. The groups, whether they end in an IPv4 address, and the rest. *)
Fixpoint read_groups (fuel : nat) (i limit : nat) (s : string) : list N * bool * string :=
  match fuel with
  | 0 => ([], false, s)
  | S fuel =>
    if decide (limit ≤ i) then ([], false, s)
    else
      let after_separator := if decide (0 < i) then read_char ":" s else Some s in
      let embedded := if decide (S i < limit) then after_separator ≫= read_ipv4 else None in
      match embedded with
      | Some (ip, rest) => ([v4_a ip * 256 + v4_b ip; v4_c ip * 256 + v4_d ip]%N, true, rest)
      | None =>
        match after_separator ≫= read_number 16 65535 4 true with
        | Some (g, rest) => let '(gs, v4, rest) := read_groups fuel (S i) limit rest in (g :: gs, v4, rest)
        | None => ([], false, s)
        end
      end
  end.
Definition v6_of (l : list N) : ipv6 :=
  let at_ i := nth i l 0%N in mkV6 (at_ 0) (at_ 1) (at_ 2) (at_ 3) (at_ 4) (at_ 5) (at_ 6) (at_ 7).
Definition read_ipv6 (s : string) : option (ipv6 * string) :=
  let '(front, front_v4, s) := read_groups 8 0 8 s in
  if decide (length front = 8) then Some (v6_of front, s)
  else if front_v4 then None
  else
    s ← read_char ":" s; s ← read_char ":" s;
    let limit := 7 - length front in
    let '(back, _, s) := read_groups limit 0 limit s in
    Some (v6_of (front ++ replicate (8 - length front - length back) 0%N ++ back), s).

(** [IpAddr::from_str]: nothing may be left over. *)
Definition parse_ip (s : string) : option IpAddr :=
  match read_ipv4 s with
  | Some (ip, rest) => if decide (rest = "") then Some (V4 ip) else None
  | None =>
    match read_ipv6 s with
    | Some (ip, rest) => if decide (rest = "") then Some (V6 ip) else None
    | None => None
    end
  end.

Example parse_ip_v4 : parse_ip "127.0.0.1" = Some (V4 (mkV4 127 0 0 1)) ∧ parse_ip "1.2.3" = None ∧
  parse_ip "01.2.3.4" = None ∧ parse_ip "256.1.1.1" = None ∧ parse_ip "1.2.3.4x" = None.
Proof. vm_compute. done. Qed.
Example parse_ip_v6 : parse_ip "::1" = Some (V6 (mkV6 0 0 0 0 0 0 0 1)) ∧
  parse_ip "fe80::1:2" = Some (V6 (mkV6 65152 0 0 0 0 0 1 2)) ∧
  parse_ip "::ffff:1.2.3.4" = Some (V6 (mkV6 0 0 0 0 0 65535 258 772)) ∧
  parse_ip "1:2:3:4:5:6:7:8" = Some (V6 (mkV6 1 2 3 4 5 6 7 8)) ∧ parse_ip "1:2:3:4:5:6:7::8" = None ∧
  parse_ip "1::2::3" = None ∧ parse_ip ":1" = None ∧ parse_ip "1:2:3:4:5:6:7::" = Some (V6 (mkV6 1 2 3 4 5 6 7 0)).
Proof. vm_compute. done. Qed.
