(* ===== verification/ShellSplit.v ===== *)
(** * Splitting a shell command (src/hook_run/shell_split.rs and shell_split/)

    The commit gate sees a command as segments of words. A substitution is split out
    first, and a command that another shell runs is split again, with one budget for all
    nesting. A command is a string of bytes here; only ASCII characters and whitespace
    matter to the splitter. *)

From S2P Require Import Prelude RustStr.

Definition MAX_SUBSTITUTION_DEPTH : nat := 32.
Inductive nesting_too_deep := NestingTooDeep.

(** ** Substitutions *)

(** [take_until_close]: the text up to the closing parenthesis, and the text after it. *)
Fixpoint take_until_close (depth : nat) (single double : bool) (s : string) : string * string :=
  match s with
  | "" => ("", "")
  | String c s' =>
    let push (r : string * string) := (String c r.1, r.2) in
    if single then push (take_until_close depth (negb (Ascii.eqb c "'")) double s')
    else if Ascii.eqb c "\" then
      match s' with
      | "" => (String c "", "")
      | String n s'' =>
        let r := take_until_close depth single double s'' in (String c (String n r.1), r.2)
      end
    else if Ascii.eqb c "'" && negb double then push (take_until_close depth true double s')
    else if Ascii.eqb c "034" then push (take_until_close depth single (negb double) s')
    else if Ascii.eqb c ")" && negb double then
      match depth with
      | 0 => ("", s')
      | S depth => push (take_until_close depth single double s')
      end
    else if Ascii.eqb c "(" && negb double then push (take_until_close (S depth) single double s')
    else push (take_until_close depth single double s')
  end.
(** [chars.take_while(|c| c != '`')], which takes the closing backtick too. *)
Fixpoint take_backtick (s : string) : string * string :=
  match s with
  | "" => ("", "")
  | String c s => if Ascii.eqb c "`" then ("", s)
                  else let r := take_backtick s in (String c r.1, r.2)
  end.

Definition part (inner : string) : string := ";" +:+ inner +:+ ";".
Definition is_operator (c : ascii) : bool :=
  Ascii.eqb c ";" || Ascii.eqb c "|" || Ascii.eqb c "&" || Ascii.eqb c "010".
Definition opens (s : string) : option string :=
  match s with String "(" s => Some s | _ => None end.

(** The loop of [split_at_depth]. The output is in two pieces: [before] is
    [out[..segment_start]] and [segment] the rest. [nested] splits one level deeper. Each turn
    takes a character, so [fuel] above the length of the text is enough. *)
Fixpoint split_loop (nested : string → result nesting_too_deep string) (fuel : nat)
    (before segment hoisted : string) (single double : bool) (s : string)
  : result nesting_too_deep string :=
  match fuel with
  | 0 => Ok (before +:+ hoisted +:+ segment)
  | S fuel =>
    match s with
    | "" => Ok (before +:+ hoisted +:+ segment)
    | String c s' =>
      let push single double :=
        split_loop nested fuel before (segment +:+ chr c) hoisted single double s' in
      if Ascii.eqb c "'" && negb double then push (negb single) double
      else if Ascii.eqb c "034" && negb single then push single (negb double)
      else if Ascii.eqb c "\" && negb single then
        match s' with
        | "" => split_loop nested fuel before (segment +:+ chr c) hoisted single double ""
        | String n s'' =>
          split_loop nested fuel before (segment +:+ chr c +:+ chr n) hoisted single double s''
        end
      else if Ascii.eqb c "$" && negb single && bool_decide (is_Some (opens s')) then
        let r := take_until_close 0 false false (default "" (opens s')) in
        inner ← nested r.1;
        split_loop nested fuel before segment (hoisted +:+ part inner) single double r.2
      else if Ascii.eqb c "`" && negb single then
        let r := take_backtick s' in
        inner ← nested r.1;
        split_loop nested fuel before segment (hoisted +:+ part inner) single double r.2
      else if (Ascii.eqb c "<" || Ascii.eqb c ">") && negb single && negb double &&
              bool_decide (is_Some (opens s')) then
        let r := take_until_close 0 false false (default "" (opens s')) in
        inner ← nested r.1;
        split_loop nested fuel (before +:+ hoisted +:+ segment +:+ part inner) "" "" single double r.2
      else if is_operator c && negb single && negb double then
        split_loop nested fuel (before +:+ hoisted +:+ segment +:+ chr c) "" "" single double s'
      else push single double
    end
  end.
(** [split_at_depth]; [budget] is how many levels are left: [MAX + 1 - depth]. *)
Fixpoint split_at (budget : nat) (command : string) : result nesting_too_deep string :=
  match budget with
  | 0 => Err NestingTooDeep
  | S budget =>
    split_loop (split_at budget) (S (String.length command)) "" "" "" false false command
  end.
Definition split_at_depth (command : string) (depth : nat) : result nesting_too_deep string :=
  split_at (S MAX_SUBSTITUTION_DEPTH - depth) command.
Definition split_substitutions (command : string) : result nesting_too_deep string :=
  split_at_depth command 0.

Definition ends_with_substitution (command : string) : result nesting_too_deep bool :=
  let command := trim_end command in
  if negb (ends_with ")" command || ends_with "`" command) then Ok false
  else out ← split_at_depth command 0; Ok (ends_with ";" (trim_end out)).

(** ** Words *)

(** [word.get_or_insert_default().push_str(t)]. *)
Definition grow (word : option string) (t : string) : option string := Some (default "" word +:+ t).

(** [split_words]. [skip] counts the bytes left of a whitespace character. *)
Fixpoint words_loop (skip : nat) (segments : list (list string)) (words : list string)
    (word : option string) (quote : option ascii) (s : string) : list (list string) :=
  match s with
  | "" =>
    let words := words ++ option_list word in
    if decide (words = []) then segments else segments ++ [words]
  | String c s' =>
    match skip with
    | S skip => words_loop skip segments words word quote s'
    | 0 =>
      match quote with
      | Some q =>
        if Ascii.eqb c q then words_loop 0 segments words word None s'
        else if Ascii.eqb q "034" && Ascii.eqb c "\" then
          match s' with
          | "" => words_loop 0 segments words word quote s'
          | String n s'' => words_loop 0 segments words (grow word (chr n)) quote s''
          end
        else words_loop 0 segments words (grow word (chr c)) quote s'
      | None =>
        if Ascii.eqb c "'" || Ascii.eqb c "034" then
          words_loop 0 segments words (grow word "") (Some c) s'
        else if Ascii.eqb c "\" then
          match s' with
          | "" => words_loop 0 segments words word quote s'
          | String n s'' => words_loop 0 segments words (grow word (chr n)) quote s''
          end
        else if is_operator c then
          let words := words ++ option_list word in
          if decide (words = []) then words_loop 0 segments [] None None s'
          else words_loop 0 (segments ++ [words]) [] None None s'
        else
          match ws_len s with
          | S k => words_loop k segments (words ++ option_list word) None None s'
          | 0 => words_loop 0 segments words (grow word (chr c)) None s'
          end
      end
    end
  end.
Definition split_words (command : string) : list (list string) :=
  words_loop 0 [] [] None None command.

(** ** Programs and wrappers *)

Definition program (word : string) : string :=
  match rsplit_once "/" word with Some (_, name) => name | None => word end.
(** [trim_start_matches(['(', '{'])]. *)
Fixpoint trim_group (w : string) : string :=
  match w with
  | String c w' => if Ascii.eqb c "(" || Ascii.eqb c "{" then trim_group w' else w
  | "" => ""
  end.
Definition is_assignment (word : string) : bool :=
  str_contains_char "=" word && negb (starts_with "-" word).

Definition TIMEOUT_OPTS : list string := ["-s"; "--signal"; "-k"; "--kill-after"].
Definition STDBUF_OPTS : list string := ["-i"; "--input"; "-o"; "--output"; "-e"; "--error"].
(** [WRAPPERS]: a name, the options that take a value, the operands before the command. *)
Definition WRAPPERS : list (string * list string * nat) :=
  [
    ("env", ["-u"; "--unset"; "-C"; "--chdir"; "-S"; "--split-string"], 0);
    ("sudo", ["-u"; "--user"; "-g"; "--group"; "-C"; "--close-from"; "-p"; "--prompt"; "-U";
      "--other-user"; "-r"; "--role"; "-t"; "--type"; "-D"; "--chdir"; "-R"; "--chroot"; "-T";
      "--command-timeout"], 0);
    ("doas", ["-u"; "-C"], 0);
    ("nice", ["-n"; "--adjustment"], 0);
    ("gnice", ["-n"; "--adjustment"], 0);
    ("ionice", ["-c"; "--class"; "-n"; "--classdata"; "-p"; "--pid"; "-P"; "--pgid"; "-u";
      "--uid"], 0);
    ("nohup", [], 0);
    ("gnohup", [], 0);
    ("time", ["-f"; "--format"; "-o"; "--output"], 0);
    ("exec", ["-a"], 0);
    ("command", [], 0);
    ("builtin", [], 0);
    ("timeout", TIMEOUT_OPTS, 1);
    ("gtimeout", TIMEOUT_OPTS, 1);
    ("stdbuf", STDBUF_OPTS, 0);
    ("gstdbuf", STDBUF_OPTS, 0);
    ("setsid", [], 0);
    ("xargs", ["-a"; "--arg-file"; "-d"; "--delimiter"; "-E"; "-I"; "--replace"; "-L";
      "--max-lines"; "-n"; "--max-args"; "-P"; "--max-procs"; "-s"; "--max-chars"], 0);
    ("caffeinate", ["-t"; "-w"], 0);
    ("flock", ["-w"; "--timeout"; "-E"; "--conflict-exit-code"], 1) ].

Fixpoint last_char (s : string) : option ascii :=
  match s with "" => None | String c "" => Some c | String _ s => last_char s end.
Definition takes_value (word : string) (value_opts : list string) : bool :=
  if decide (word ∈ value_opts) then true
  else
    match strip_prefix "-" word with
    | Some cluster =>
      if starts_with "-" cluster then false
      else match last_char cluster with
           | Some last => bool_decide ("-" +:+ chr last ∈ value_opts)
           | None => false
           end
    | None => false
    end.
Fixpoint wrapper_args (value_opts : list string) (operands : nat) (words : list string) : nat :=
  match words with
  | [] => 0
  | word :: words =>
    if starts_with "-" word then
      if takes_value word value_opts then
        match words with
        | _ :: words => S (S (wrapper_args value_opts operands words))
        | [] => 1
        end
      else S (wrapper_args value_opts operands words)
    else if str_contains_char "=" word || bool_decide (0 < operands) then
      S (wrapper_args value_opts (operands - 1) words)
    else 0
  end.
(** Each turn drops a word, so [fuel] at least the number of words is enough. *)
Fixpoint skip_wrappers_loop (fuel : nat) (rest : list string) : list string :=
  match fuel, rest with
  | S fuel, word :: tail =>
    if is_assignment word then skip_wrappers_loop fuel tail
    else
      match find_first (λ w, w.1.1 = program word) WRAPPERS with
      | Some (_, value_opts, operands) =>
        skip_wrappers_loop fuel (drop (wrapper_args value_opts operands tail) tail)
      | None => rest
      end
  | _, _ => rest
  end.
Definition skip_wrappers (rest : list string) : list string :=
  skip_wrappers_loop (length rest) rest.
Definition program_words (words : list string) : list string :=
  skip_wrappers (filter (λ w, w ≠ "") (trim_group <$> words)).

(** ** Nested commands *)

Fixpoint skip_assignments (words : list string) : list string :=
  match words with
  | word :: tail => if is_assignment word then skip_assignments tail else words
  | [] => []
  end.
(** The loop of [env_split_string]. *)
Fixpoint env_loop (rest : list string) : option string :=
  match rest with
  | [] => None
  | word :: rest =>
    if decide (word = "-S" ∨ word = "--split-string") then head rest
    else if decide (word ∈ ["-u"; "--unset"; "-C"; "--chdir"]) then
      match rest with _ :: rest => env_loop rest | [] => None end
    else
      match strip_prefix "-S" word with
      | Some value => Some value
      | None =>
        match strip_prefix "--split-string=" word with
        | Some value => Some value
        | None =>
          if negb (starts_with "-" word) && negb (str_contains_char "=" word) then None
          else env_loop rest
        end
      end
  end.
Definition env_split_string (words : list string) : option string :=
  match skip_assignments (trim_group <$> words) with
  | first :: rest => if decide (program first ≠ "env") then None else env_loop rest
  | [] => None
  end.

(** [shell_script]: the script of [-c]. *)
Fixpoint shell_script (args : list string) : option string :=
  match args with
  | [] => None
  | arg :: rest =>
    match (match strip_prefix "-" arg with Some f => Some f | None => strip_prefix "+" arg end) with
    | None => None
    | Some flags =>
      let short := negb (starts_with "-" flags) in
      if starts_with "-" arg && short && str_contains_char "c" flags then head rest
      else if bool_decide (arg = "--rcfile" ∨ arg = "--init-file") ||
              (short && (ends_with "o" flags || ends_with "O" flags)) then
        match rest with _ :: rest => shell_script rest | [] => None end
      else shell_script rest
    end
  end.
Definition nested_command (words : list string) : option string :=
  match env_split_string words with
  | Some script => Some script
  | None =>
    match program_words words with
    | [] => None
    | first :: tail =>
      if decide (program first = "eval") then Some (join " " tail)
      else if decide (program first ∈ ["sh"; "bash"; "zsh"]) then shell_script tail
      else None
    end
  end.

(** [segments_at]; the loop over the segments of one level. *)
Fixpoint segments_loop (nested : string → result nesting_too_deep (list (list string)))
    (segments : list (list string)) : result nesting_too_deep (list (list string)) :=
  match segments with
  | [] => Ok []
  | words :: segments =>
    inner ← match nested_command words with Some inner => nested inner | None => Ok [] end;
    rest ← segments_loop nested segments;
    Ok (inner ++ words :: rest)
  end.
Fixpoint segments (budget : nat) (command : string) : result nesting_too_deep (list (list string)) :=
  match budget with
  | 0 => Err NestingTooDeep
  | S b => command ← split_at budget command; segments_loop (segments b) (split_words command)
  end.
Definition shell_segments (command : string) : result nesting_too_deep (list (list string)) :=
  segments (S MAX_SUBSTITUTION_DEPTH) command.

(** ** The gate *)

(** The first two subcommand words of [gh]. *)
Fixpoint gh_subcommands (tail subcommands : list string) : list string :=
  if decide (length subcommands = 2) then subcommands
  else
    match tail with
    | [] => subcommands
    | word :: tail =>
      if decide (word = "-R" ∨ word = "--repo") then
        match tail with _ :: tail => gh_subcommands tail subcommands | [] => subcommands end
      else if starts_with "-" word then gh_subcommands tail subcommands
      else gh_subcommands tail (subcommands ++ [word])
    end.
Fixpoint git_subcommand (tail : list string) : option string :=
  match tail with
  | [] => None
  | word :: tail =>
    if decide (word ∈ ["-C"; "-c"; "--git-dir"; "--work-tree"]) then
      match tail with _ :: tail => git_subcommand tail | [] => None end
    else if starts_with "-" word then git_subcommand tail
    else Some word
  end.

Definition starts_commit_or_pr (words : list string) : bool :=
  match program_words words with
  | [] => false
  | first :: tail =>
    if decide (program first = "gh") then bool_decide (gh_subcommands tail [] = ["pr"; "create"])
    else if decide (program first = "git") then bool_decide (git_subcommand tail = Some "commit")
    else false
  end.
Definition boundary_of (words : list string) : option string :=
  match program_words words with
  | [] => None
  | first :: tail =>
    if decide (program first = "git") then
      if decide (git_subcommand tail = Some "push") then Some "git push" else None
    else if decide (program first = "gh") then
      match gh_subcommands tail [] with
      | ["pr"; "create"] => Some "gh pr create"
      | ["pr"; "ready"] => Some "gh pr ready"
      | ["pr"; "merge"] => Some "gh pr merge"
      | _ => None
      end
    else None
  end.
(** [segments.iter().find_map(boundary_of)]. *)
Fixpoint first_boundary (segments : list (list string)) : option string :=
  match segments with
  | [] => None
  | words :: segments =>
    match boundary_of words with Some b => Some b | None => first_boundary segments end
  end.
Definition step_boundary (command : string) : result nesting_too_deep (option string) :=
  segments ← shell_segments command; Ok (first_boundary segments).

Definition runs_commit_or_pr (command : string) : bool :=
  match shell_segments command with
  | Ok segments => existsb starts_commit_or_pr segments
  | Err NestingTooDeep => true
  end.

Definition task_end_target (words : list string) : option string :=
  match program_words words with
  | first :: "task" :: verb :: target :: _ =>
    if decide (program first = "llmenv" ∧ (verb = "done" ∨ verb = "wait")) then Some target else None
  | _ => None
  end.
(** The loop of [ends_task_before_commit]. *)
Fixpoint ends_task_loop (wip : string) (segments : list (list string)) : bool :=
  match segments with
  | [] => false
  | words :: segments =>
    if starts_commit_or_pr words then false
    else if decide (task_end_target words = Some wip) then true
    else ends_task_loop wip segments
  end.
Definition ends_task_before_commit (command wip : string) : bool :=
  match shell_segments command with
  | Ok segments => ends_task_loop wip segments
  | Err NestingTooDeep => true
  end.

(** ** Laws of the commit gate

    The fuel of the splitter is enough; a chain of commands is split as its parts; and
    nesting is followed to the bound and refused beyond it. *)
(** ** Fuel *)

Lemma take_until_close_length depth single double s :
  String.length (take_until_close depth single double s).2 ≤ String.length s.
Proof.
  remember (String.length s) as n eqn:Hn. revert depth single double s Hn.
  induction n as [n IH] using lt_wf_ind. intros depth single double s ->.
  destruct s as [|c s]; [done|]. cbn [take_until_close].
  assert (Hs : ∀ d x y, String.length (take_until_close d x y s).2 ≤ S (String.length s)).
  { intros d x y. etrans; [apply (IH (String.length s)); simpl; lia|lia]. }
  repeat case_match; simpl; try apply Hs; try lia.
  subst. match goal with |- String.length (take_until_close ?d ?x ?y ?t).2 ≤ _ =>
    assert (String.length (take_until_close d x y t).2 ≤ String.length t) by
      (apply (IH (String.length t)); simpl; lia) end. lia.
Qed.
Lemma take_backtick_length s : String.length (take_backtick s).2 ≤ String.length s.
Proof.
  induction s as [|c s IH]; [done|]. cbn [take_backtick]. case_match; simpl; lia.
Qed.
Lemma opens_Some s t : opens s = Some t → s = String "(" t.
Proof. destruct s as [|[[][][][][][][][]] s]; simpl; by intros [= ->] || done. Qed.

(** Any fuel above the length of the text gives the same result. *)
Lemma split_loop_fuel nested f1 f2 before segment hoisted single double s :
  String.length s < f1 → String.length s < f2 →
  split_loop nested f1 before segment hoisted single double s =
  split_loop nested f2 before segment hoisted single double s.
Proof.
  revert f2 before segment hoisted single double s.
  induction f1 as [|f1 IH]; intros f2 before segment hoisted single double s H1 H2; [lia|].
  destruct f2 as [|f2]; [lia|]. cbn [split_loop]. destruct s as [|c s]; [done|]. simpl in H1, H2.
  assert (Hpush : ∀ b sg h x y, split_loop nested f1 b sg h x y s = split_loop nested f2 b sg h x y s)
    by (intros; apply IH; lia).
  assert (Htake : ∀ t b sg h x y, opens s = Some t →
    split_loop nested f1 b sg h x y (take_until_close 0 false false t).2 =
    split_loop nested f2 b sg h x y (take_until_close 0 false false t).2).
  { intros t b sg h x y ->%opens_Some. pose proof (take_until_close_length 0 false false t).
    simpl in H1, H2. apply IH; lia. }
  destruct (Ascii.eqb c "'" && negb double); [apply Hpush|].
  destruct (Ascii.eqb c "034" && negb single); [apply Hpush|].
  destruct (Ascii.eqb c "\" && negb single).
  { destruct s as [|n s]; [apply Hpush|]. simpl in H1, H2. apply IH; lia. }
  destruct (opens s) as [t|] eqn:Ho.
  - destruct (Ascii.eqb c "$" && negb single && _).
    { cbn [default]. destruct (nested _) as [inner|]; [|done]. by apply Htake. }
    destruct (Ascii.eqb c "`" && negb single).
    { pose proof (take_backtick_length s). destruct (nested _) as [inner|]; [|done]. apply IH; lia. }
    destruct ((Ascii.eqb c "<" || Ascii.eqb c ">") && negb single && negb double && _).
    { cbn [default]. destruct (nested _) as [inner|]; [|done]. by apply Htake. }
    destruct (is_operator c && negb single && negb double); apply Hpush.
  - rewrite bool_decide_eq_false_2 by (by intros [? ?]). rewrite !andb_false_r.
    destruct (Ascii.eqb c "`" && negb single).
    { pose proof (take_backtick_length s). destruct (nested _) as [inner|]; [|done]. apply IH; lia. }
    destruct (is_operator c && negb single && negb double); apply Hpush.
Qed.

(** The text before the current segment is only a prefix of the result. *)
Lemma split_loop_before nested f before segment hoisted single double s :
  split_loop nested f before segment hoisted single double s =
  (x ← split_loop nested f "" segment hoisted single double s; Ok (before +:+ x)).
Proof.
  revert before segment hoisted single double s.
  induction f as [|f IH]; intros before segment hoisted single double s; [done|].
  cbn [split_loop]. destruct s as [|c s]; [done|].
  destruct (Ascii.eqb c "'" && negb double); [apply IH|].
  destruct (Ascii.eqb c "034" && negb single); [apply IH|].
  destruct (Ascii.eqb c "\" && negb single); [destruct s; apply IH|].
  destruct (Ascii.eqb c "$" && negb single && _).
  { destruct (nested _) as [inner|]; [apply IH|done]. }
  destruct (Ascii.eqb c "`" && negb single).
  { destruct (nested _) as [inner|]; [apply IH|done]. }
  destruct ((Ascii.eqb c "<" || Ascii.eqb c ">") && negb single && negb double && _).
  { destruct (nested _) as [inner|]; [|done]. cbn [mbind result_bind].
    rewrite IH, (IH ("" +:+ _)). destruct (split_loop _ _ "" _ _ _ _ _); [|done].
    cbn. by str_simpl. }
  destruct (is_operator c && negb single && negb double); [|apply IH].
  rewrite IH, (IH ("" +:+ _)). destruct (split_loop _ _ "" _ _ _ _ _); [|done].
  cbn. by str_simpl.
Qed.

(** ** Plain text *)

(** ASCII text without quotes, escapes, substitutions and redirections. *)
Definition plain_char (c : ascii) : bool :=
  (code c <? 128)%N && negb (Ascii.eqb c "'" || Ascii.eqb c "034" || Ascii.eqb c "\" ||
    Ascii.eqb c "$" || Ascii.eqb c "`" || Ascii.eqb c "<" || Ascii.eqb c ">").
Definition plain (s : string) : Prop := str_all plain_char s = true.

Lemma plain_char_inv c : plain_char c = true →
  Ascii.eqb c "'" = false ∧ Ascii.eqb c "034" = false ∧ Ascii.eqb c "\" = false ∧
  Ascii.eqb c "$" = false ∧ Ascii.eqb c "`" = false ∧ Ascii.eqb c "<" = false ∧ Ascii.eqb c ">" = false.
Proof.
  unfold plain_char. rewrite andb_true_iff, negb_true_iff, !orb_false_iff. naive_solver.
Qed.
Lemma plain_cons c s : plain (String c s) ↔ plain_char c = true ∧ plain s.
Proof. unfold plain. simpl. by rewrite andb_true_iff. Qed.
Lemma plain_app s t : plain (s +:+ t) ↔ plain s ∧ plain t.
Proof. unfold plain. by rewrite str_all_app, andb_true_iff. Qed.

(** A plain character does nothing, or ends a segment. *)
Lemma split_loop_step nested f before segment c s : plain_char c = true →
  split_loop nested (S f) before segment "" false false (String c s) =
  if is_operator c then split_loop nested f (before +:+ segment +:+ chr c) "" "" false false s
  else split_loop nested f before (segment +:+ chr c) "" false false s.
Proof.
  intros (H1 & H2 & H3 & H4 & H5 & H6 & H7)%plain_char_inv. cbn [split_loop].
  rewrite H1, H2, H3, H4, H5, H6, H7. cbn [andb orb negb]. by rewrite !andb_true_r.
Qed.

Lemma split_loop_plain nested f before segment a rest :
  plain a → String.length (a +:+ rest) < f →
  ∃ f' before' segment', String.length rest < f' ∧ before' +:+ segment' = before +:+ segment +:+ a ∧
    split_loop nested f before segment "" false false (a +:+ rest) =
    split_loop nested f' before' segment' "" false false rest.
Proof.
  revert f before segment. induction a as [|c a IH]; intros f before segment Ha Hf.
  - exists f, before, segment. by str_simpl.
  - destruct f as [|f]; [lia|]. apply plain_cons in Ha as [Hc Ha].
    rewrite str_app_cons in *. simpl in Hf. rewrite split_loop_step by done.
    destruct (is_operator c).
    + destruct (IH f (before +:+ segment +:+ chr c) "" Ha) as (f' & b & g & H1 & H2 & ->); [lia|].
      exists f', b, g. split_and!; [done| |done]. rewrite H2. by str_simpl.
    + destruct (IH f before (segment +:+ chr c) Ha) as (f' & b & g & H1 & H2 & ->); [lia|].
      exists f', b, g. split_and!; [done| |done]. rewrite H2. by str_simpl.
Qed.

Lemma split_at_plain budget a : plain a → split_at (S budget) a = Ok a.
Proof.
  intros Ha. cbn [split_at].
  destruct (split_loop_plain (split_at budget) (S (String.length a)) "" "" a "" Ha)
    as (f & b & g & Hf & E & Hs); [rewrite str_app_nil_r; lia|].
  rewrite str_app_nil_r in Hs. rewrite Hs. destruct f; [simpl in Hf; lia|].
  cbn [split_loop]. rewrite str_app_nil_l, E. done.
Qed.

Lemma operator_plain c : is_operator c = true → plain_char c = true.
Proof. by destruct c as [[][][][][][][][]]; vm_compute. Qed.

(** A plain part and an operator in front of a command stay as they are. *)
Lemma split_at_chain budget a op b : plain a → is_operator op = true →
  split_at (S budget) (a +:+ String op b) =
  (x ← split_at (S budget) b; Ok (a +:+ String op x)).
Proof.
  intros Ha Hop. cbn [split_at].
  destruct (split_loop_plain (split_at budget) (S (String.length (a +:+ String op b))) "" "" a
    (String op b) Ha) as (f & b' & g & Hf & E & ->); [lia|].
  destruct f as [|f]; [simpl in Hf; lia|]. rewrite split_loop_step by (by apply operator_plain).
  rewrite Hop, split_loop_before. rewrite (split_loop_fuel _ f (S (String.length b))); [|simpl in Hf; lia..].
  destruct (split_loop _ _ "" "" "" false false b) as [x|]; [|done].
  cbn [mbind result_bind]. rewrite <-!str_app_assoc, E, !str_app_assoc. done.
Qed.

(** ** Words *)

Lemma ws_len_ascii c s : plain_char c = true → ws_len (String c s) = ws_len (chr c) ∧ ws_len (chr c) ≤ 1.
Proof.
  intros Hc. destruct c as [[][][][][][][][]]; vm_compute in Hc; try discriminate Hc;
    (split; [destruct s as [|? []]; vm_compute; reflexivity|apply Nat.leb_le; vm_compute; reflexivity]).
Qed.

Lemma words_loop_segments skip segments words word quote s :
  words_loop skip segments words word quote s = segments ++ words_loop skip [] words word quote s.
Proof.
  remember (String.length s) as n eqn:Hn. revert skip segments words word quote s Hn.
  induction n as [n IH] using lt_wf_ind. intros skip segments words word quote s ->.
  destruct s as [|c s]; cbn [words_loop]; [case_decide; by rewrite ?app_nil_r|].
  assert (Hs : ∀ k sg ws w q, words_loop k sg ws w q s = sg ++ words_loop k [] ws w q s)
    by (intros; eapply IH; [|done]; simpl; lia).
  destruct skip as [|skip]; [|apply Hs].
  destruct quote as [q|].
  - repeat case_match; try apply Hs. eapply IH; [|done]. simpl. lia.
  - destruct (Ascii.eqb c "'" || Ascii.eqb c "034"); [apply Hs|].
    destruct (Ascii.eqb c "\"); [destruct s as [|m s]; [apply Hs|]; eapply IH; [|done]; simpl; lia|].
    destruct (is_operator c); [case_decide; [apply Hs|]|destruct (ws_len _); apply Hs].
    rewrite Hs, (Hs 0 ([] ++ _)). by rewrite app_assoc.
Qed.

Lemma words_loop_chain words word a op x : plain a → is_operator op = true →
  words_loop 0 [] words word None (a +:+ String op x) =
  words_loop 0 [] words word None a ++ split_words x.
Proof.
  intros Ha Hop. revert words word. induction a as [|c a IH]; intros words word.
  - rewrite str_app_nil_l. cbn [words_loop].
    destruct (plain_char_inv op (operator_plain op Hop)) as (-> & -> & -> & _). cbn [orb].
    rewrite Hop. unfold split_words. case_decide; [done|]. by rewrite words_loop_segments.
  - apply plain_cons in Ha as [Hc Ha]. rewrite str_app_cons. cbn [words_loop].
    destruct (plain_char_inv c Hc) as (-> & -> & -> & _). cbn [orb].
    destruct (is_operator c).
    + case_decide; [by apply IH|]. rewrite words_loop_segments, IH by done.
      by rewrite (words_loop_segments _ ([] ++ _)), app_assoc.
    + destruct (ws_len_ascii c (a +:+ String op x) Hc) as [-> Hle].
      destruct (ws_len_ascii c a Hc) as [-> _].
      destruct (ws_len (chr c)) as [|[|k]]; [by apply IH..|lia].
Qed.
Lemma split_words_chain a op x : plain a → is_operator op = true →
  split_words (a +:+ String op x) = split_words a ++ split_words x.
Proof. apply words_loop_chain. Qed.

(** ** Chains *)

Definition both {A} (r1 r2 : result nesting_too_deep (list A)) : result nesting_too_deep (list A) :=
  match r1, r2 with Ok x, Ok y => Ok (x ++ y) | _, _ => Err NestingTooDeep end.

Lemma segments_loop_app nested l1 l2 :
  segments_loop nested (l1 ++ l2) = both (segments_loop nested l1) (segments_loop nested l2).
Proof.
  induction l1 as [|words l1 IH].
  - cbn [app segments_loop]. unfold both. by destruct (segments_loop nested l2) as [|[]].
  - cbn [app segments_loop]. rewrite IH.
    destruct (match nested_command words with Some inner => nested inner | None => Ok [] end) as [x|[]];
      [|done]. cbn [mbind result_bind]. unfold both.
    destruct (segments_loop nested l1) as [y|[]], (segments_loop nested l2) as [z|[]]; cbn; try done.
    by rewrite <-app_assoc.
Qed.

Lemma segments_chain budget a op b : plain a → is_operator op = true →
  segments (S budget) (a +:+ String op b) = both (segments (S budget) a) (segments (S budget) b).
Proof.
  intros Ha Hop. cbn [segments]. rewrite split_at_chain, (split_at_plain budget a) by done.
  destruct (split_at (S budget) b) as [x|[]]; cbn [mbind result_bind].
  - rewrite split_words_chain by done. apply segments_loop_app.
  - unfold both. by destruct (segments_loop _ _) as [|[]].
Qed.

(** The commit gate sees every part of a chain. For a plain part, any shell operator and
    any command after it, the gate fires exactly when one of the two parts would fire it, so
    a commit cannot hide behind a command in front of it, nor the other way round. And a
    chain can end the task before its commit only if its first part does, or if the first
    part has no commit and the second part ends it. *)
Theorem gate_chain (a b wip : string) (op : ascii) : plain a → is_operator op = true →
  runs_commit_or_pr (a +:+ String op b) = runs_commit_or_pr a || runs_commit_or_pr b ∧
  (ends_task_before_commit (a +:+ String op b) wip = true →
     ends_task_before_commit a wip = true ∨ shell_segments b = Err NestingTooDeep ∨
     runs_commit_or_pr a = false ∧ ends_task_before_commit b wip = true).
Proof.
  intros Ha Hop. unfold runs_commit_or_pr, ends_task_before_commit, shell_segments.
  rewrite segments_chain by done. unfold both.
  destruct (segments _ a) as [x|[]]; [|split; [done|by left]].
  destruct (segments _ b) as [y|[]]; [|split; [by rewrite orb_true_r|by right; left]].
  split; [apply existsb_app|].
  induction x as [|words x IH]; [intros H; right; right; by split|].
  cbn [app ends_task_loop existsb]. destruct (starts_commit_or_pr words); [done|].
  case_decide; [by left|exact IH].
Qed.

(** ** Nesting *)

(** [s] under [n] substitutions. *)
Fixpoint nest (n : nat) (s : string) : string :=
  match n with 0 => s | S n => "$(" +:+ nest n s +:+ ")" end.
(** Plain text without parentheses. *)
Definition flat (s : string) : Prop :=
  str_all (λ c, plain_char c && negb (Ascii.eqb c "(" || Ascii.eqb c ")")) s = true.
Lemma flat_plain s : flat s → plain s.
Proof. apply str_all_impl. intros c. by rewrite andb_true_iff; intros [? _]. Qed.

Lemma take_flat depth s r : flat s →
  take_until_close depth false false (s +:+ r) =
  (s +:+ (take_until_close depth false false r).1, (take_until_close depth false false r).2).
Proof.
  induction s as [|c s IH]; [intros _; rewrite !str_app_nil_l; by destruct (take_until_close _ _ _ r)|].
  unfold flat. cbn [str_all]. rewrite !andb_true_iff, negb_true_iff, orb_false_iff.
  intros [[Hc [H1 H2]] Hs]. rewrite str_app_cons. cbn [take_until_close].
  destruct (plain_char_inv c Hc) as (-> & -> & -> & _). rewrite H1, H2. cbn [andb].
  by rewrite (IH Hs).
Qed.

Lemma take_nest n s depth r : flat s →
  take_until_close depth false false (nest n s +:+ r) =
  (nest n s +:+ (take_until_close depth false false r).1, (take_until_close depth false false r).2).
Proof.
  intros Hs. revert depth r. induction n as [|n IH]; intros depth r; [by apply take_flat|].
  cbn [nest]. rewrite !str_app_assoc.
  change ("$(" +:+ nest n s +:+ ")" +:+ r) with (String "$" (String "(" (nest n s +:+ ")" +:+ r))).
  cbn [take_until_close]. cbn -[take_until_close nest]. rewrite IH.
  change (")" +:+ r) with (String ")" r). cbn -[nest]. done.
Qed.

Lemma split_at_nest budget n s : flat s →
  split_at (S budget) (nest (S n) s) = (x ← split_at budget (nest n s); Ok (part x)).
Proof.
  intros Hs. cbn [split_at nest].
  change ("$(" +:+ nest n s +:+ ")") with (String "$" (String "(" (nest n s +:+ ")"))).
  assert (E : take_until_close 0 false false (nest n s +:+ ")") = (nest n s, "")).
  { rewrite take_nest by done. cbn. by str_simpl. }
  cbn [split_loop].
  change (default "" (opens (String "(" (nest n s +:+ ")")))) with (nest n s +:+ ")").
  rewrite E. cbn [fst snd].
  cbn -[split_at nest take_until_close split_loop].
  destruct (split_at budget (nest n s)) as [x|[]]; [|done]. cbn [mbind result_bind].
  cbn [String.length split_loop]. by rewrite !str_app_nil_l, str_app_nil_r.
Qed.

(** What a nest is split into: the text between as many empty parts. *)
Fixpoint parts (n : nat) (s : string) : string := match n with 0 => s | S n => part (parts n s) end.
Lemma split_at_nest_all budget n s : flat s →
  split_at budget (nest n s) = if decide (n < budget) then Ok (parts n s) else Err NestingTooDeep.
Proof.
  intros Hs. revert budget. induction n as [|n IH]; intros [|budget]; [done| |done|].
  - rewrite decide_True by lia. apply split_at_plain. by apply flat_plain.
  - rewrite split_at_nest, IH by done. repeat case_decide; done || lia.
Qed.
Lemma plain_parts n s : plain s → plain (parts n s).
Proof.
  intros Hs. induction n as [|n IH]; [done|]. cbn [parts]. unfold part.
  by rewrite !plain_app.
Qed.
Lemma split_words_parts n s : plain s → split_words (parts n s) = split_words s.
Proof.
  intros Hs. induction n as [|n IH]; [done|]. cbn [parts]. unfold part.
  change (";" +:+ parts n s +:+ ";") with ("" +:+ String ";" (parts n s +:+ String ";" "")).
  rewrite !split_words_chain by (done || by apply plain_parts). rewrite IH.
  change (split_words "") with (@nil (list string)). by rewrite app_nil_r.
Qed.

(** The nesting bound of the commit gate. A command under up to 32 substitutions is
    checked as the command itself; under more, the gate fails closed: it counts as a commit
    and as ending the task, whatever the command is. *)
Theorem gate_nesting (n : nat) (s wip : string) : flat s →
  (n ≤ 32 → runs_commit_or_pr (nest n s) = runs_commit_or_pr s ∧
            ends_task_before_commit (nest n s) wip = ends_task_before_commit s wip) ∧
  (32 < n → runs_commit_or_pr (nest n s) = true ∧ ends_task_before_commit (nest n s) wip = true ∧
            step_boundary (nest n s) = Err NestingTooDeep).
Proof.
  intros Hs. split; intros Hn.
  - assert (E : shell_segments (nest n s) = shell_segments s).
    { unfold shell_segments, MAX_SUBSTITUTION_DEPTH. cbn [segments].
      rewrite split_at_nest_all, (split_at_plain 32 s) by (done || by apply flat_plain).
      rewrite decide_True by lia. cbn [mbind result_bind].
      by rewrite split_words_parts by (by apply flat_plain). }
    unfold runs_commit_or_pr, ends_task_before_commit. by rewrite E.
  - assert (E : shell_segments (nest n s) = Err NestingTooDeep).
    { unfold shell_segments, MAX_SUBSTITUTION_DEPTH. cbn [segments].
      rewrite split_at_nest_all by done. by rewrite decide_False by lia. }
    unfold runs_commit_or_pr, ends_task_before_commit, step_boundary. by rewrite E.
Qed.
