(* ===== verification/Json.v ===== *)
(** * JSON values (serde_json::Value)

    The values that hook payloads, request bodies and settings files are made of. An
    object is a map by key: serde_json keeps a [BTreeMap], so two objects are equal when
    they hold the same entries. [JsonText] is the text form of a value, and [Codec] the
    text form of a record that serde derives. *)

From S2P Require Import Prelude RustStr.

(** A number is a whole number, or any other number by its text. *)
Inductive number := NumInt (z : Z) | NumFloat (text : string).
Global Instance number_eq_dec : EqDecision number.
Proof. solve_decision. Defined.

#[warnings="-register-all"]
Inductive json :=
| JNull
| JBool (b : bool)
| JNum (n : number)
| JStr (s : string)
| JArr (l : list json)
| JObj (m : gmap string json).

Global Instance json_eq_dec : EqDecision json.
Proof.
  refine (fix go (x y : json) {struct x} : Decision (x = y) :=
    let _ : EqDecision json := go in
    match x, y with
    | JNull, JNull => left eq_refl
    | JBool a, JBool b => cast_if (decide (a = b))
    | JNum a, JNum b => cast_if (decide (a = b))
    | JStr a, JStr b => cast_if (decide (a = b))
    | JArr a, JArr b => cast_if (decide (a = b))
    | JObj a, JObj b => cast_if (decide (a = b))
    | _, _ => right _
    end); congruence.
Defined.

(** [Value::get] with a key, and [value[key]], which is null when there is no entry. *)
Definition json_get (key : string) (v : json) : option json :=
  match v with JObj m => m !! key | _ => None end.
Definition json_index (key : string) (v : json) : json := default JNull (json_get key v).

Definition as_str (v : json) : option string := match v with JStr s => Some s | _ => None end.
Definition as_bool (v : json) : option bool := match v with JBool b => Some b | _ => None end.
Definition as_object (v : json) : option (gmap string json) :=
  match v with JObj m => Some m | _ => None end.

(** [Value::to_string] and [serde_json::from_slice]. *)
Class JsonText := {
  json_text : json → string;
  json_parse : string → option json }.
(** serde_json reads back what it wrote. *)
Class JsonTextLaws `{JsonText} := {
  json_parse_text : ∀ v, json_parse (json_text v) = Some v }.

Lemma json_text_inj `{JsonTextLaws} : Inj (=) (=) json_text.
Proof. intros v w E. apply (f_equal json_parse) in E. rewrite !json_parse_text in E. by simplify_eq. Qed.

(** The text form of a type with derived [Serialize] and [Deserialize]. *)
Class Codec (A : Type) := {
  encode : A → string;
  decode : string → option A }.
Class CodecLaws (A : Type) `{Codec A} := {
  decode_encode : ∀ a : A, decode (encode a) = Some a }.
