(* ===== verification/JsonMerge.v ===== *)
(** * Merging of engine settings (crates/llmenv-util/src/lib.rs)

    [merge_json] lays a native fragment over rendered settings: objects key by key, arrays by
    concatenation without repeats, everything else by replacement. [dedup] is the stable removal
    of repeats that every list of rules goes through. *)

From S2P Require Import Prelude RustStr Json.

(** ** Building values *)

Definition json_strings (l : list string) : json := JArr (map JStr l).
Definition json_map (m : gmap string string) : json := JObj (JStr <$> m).
Definition json_nat (n : N) : json := JNum (NumInt (Z.of_N n)).
(** An entry that is there only when the condition holds, or when there is a value. *)
Definition put_if (b : bool) (key : string) (v : json) (o : gmap string json) : gmap string json :=
  if b then <[key := v]> o else o.
Definition put_some {A} (key : string) (f : A → json) (a : option A) (o : gmap string json) : gmap string json :=
  match a with Some a => <[key := f a]> o | None => o end.

(** ** dedup *)

Section dedup.
Context `{EqDecision A}.

(** The scan of [dedup] from the element after [kept] on. *)
Fixpoint dedup_scan (kept rest : list A) : list A :=
  match rest with
  | [] => kept
  | x :: rest => if decide (x ∈ kept) then dedup_scan kept rest else dedup_scan (kept ++ [x]) rest
  end.
Definition dedup (items : list A) : list A := dedup_scan [] items.

Lemma dedup_scan_spec kept rest : NoDup kept →
  NoDup (dedup_scan kept rest) ∧ (∀ x, x ∈ dedup_scan kept rest ↔ x ∈ kept ∨ x ∈ rest) ∧
  kept `prefix_of` dedup_scan kept rest ∧ dedup_scan kept rest `sublist_of` kept ++ rest.
Proof.
  revert kept. induction rest as [|x rest IH]; intros kept Hk; cbn [dedup_scan].
  { rewrite app_nil_r. split_and!; [done| |done|done]. intros y. rewrite elem_of_nil. tauto. }
  case_decide as Hx.
  - destruct (IH kept Hk) as (H1 & H2 & H3 & H4). split_and!; [done| |done|].
    + intros y. rewrite H2, elem_of_cons. naive_solver.
    + etrans; [exact H4|]. apply sublist_app; [done|]. by apply sublist_cons.
  - destruct (IH (kept ++ [x])) as (H1 & H2 & H3 & H4).
    { apply NoDup_app. split_and!; [done| |apply NoDup_singleton]. intros y Hy ->%list_elem_of_singleton. done. }
    split_and!; [done| | |].
    + intros y. rewrite H2, elem_of_app, list_elem_of_singleton, elem_of_cons. tauto.
    + etrans; [|exact H3]. by eexists.
    + by rewrite <- app_assoc in H4.
Qed.
Lemma elem_of_dedup l x : x ∈ dedup l ↔ x ∈ l.
Proof. unfold dedup. destruct (dedup_scan_spec [] l) as (_ & H & _); [constructor|]. rewrite H, elem_of_nil. tauto. Qed.
Lemma NoDup_dedup l : NoDup (dedup l).
Proof. apply (dedup_scan_spec [] l). constructor. Qed.
Lemma dedup_scan_NoDup kept rest : NoDup (kept ++ rest) → dedup_scan kept rest = kept ++ rest.
Proof.
  revert kept. induction rest as [|x rest IH]; intros kept Hk; cbn [dedup_scan]; [by rewrite app_nil_r|].
  rewrite decide_False.
  - rewrite IH; by rewrite <- app_assoc.
  - intros Hx. apply NoDup_app in Hk as (_ & H & _). apply (H x Hx). by left.
Qed.
Lemma dedup_NoDup l : NoDup l → dedup l = l.
Proof. apply (dedup_scan_NoDup []). Qed.
Lemma dedup_scan_old kept rest : (∀ x, x ∈ rest → x ∈ kept) → dedup_scan kept rest = kept.
Proof.
  induction rest as [|x rest IH]; intros H; [done|]. cbn [dedup_scan].
  rewrite decide_True by (apply H; by left). apply IH. intros y Hy. apply H. by right.
Qed.
Lemma dedup_app_old l r : (∀ x, x ∈ r → x ∈ l) → dedup (dedup l ++ r) = dedup l.
Proof.
  intros H. unfold dedup at 1.
  assert (Hs : ∀ kept rest r', dedup_scan kept (rest ++ r') = dedup_scan (dedup_scan kept rest) r').
  { intros kept rest r'. revert kept. induction rest as [|x rest IH]; intros kept; [done|]. cbn [dedup_scan app].
    case_decide; apply IH. }
  rewrite Hs. change (dedup_scan [] (dedup l)) with (dedup (dedup l)). rewrite (dedup_NoDup (dedup l)) by apply NoDup_dedup.
  apply dedup_scan_old. intros x Hx. by apply elem_of_dedup, H.
Qed.
(** [dedup] keeps each element once, in the order in which the elements first occur. *)
Theorem dedup_correct l :
  NoDup (dedup l) ∧ (∀ x, x ∈ dedup l ↔ x ∈ l) ∧ dedup l `sublist_of` l ∧ (NoDup l → dedup l = l).
Proof.
  split_and!; [apply NoDup_dedup|intros x; apply elem_of_dedup| |apply dedup_NoDup].
  apply (dedup_scan_spec [] l). constructor.
Qed.
End dedup.

(** ** Normal form and merge *)

Definition is_null (v : json) : bool := match v with JNull => true | _ => false end.
(** [Map::retain] of the entries that are not null. *)
Definition strip_nulls (m : gmap string json) : gmap string json := filter (λ kv, is_null kv.2 = false) m.

Fixpoint normalize_json (v : json) : json :=
  match v with
  | JArr items => JArr (dedup (map normalize_json items))
  | JObj m => JObj (strip_nulls (normalize_json <$> m))
  | _ => v
  end.

(** What an entry of the source does with the entry of its key: it is merged into the one that is
    there; when there is none it is added, unless it is null. *)
Definition apply_entries (changes : gmap string (option json → option json)) (d : gmap string json)
  : gmap string json :=
  merge (λ old change, match change with Some f => f old | None => old end) d changes.
Definition insert_value (v : json) : option json := if is_null v then None else Some v.

Fixpoint merge_json (dst src : json) {struct src} : json :=
  match src with
  | JObj s =>
    match dst with
    | JObj d => JObj (apply_entries ((λ v old, match old with
        | Some existing => Some (merge_json existing v)
        | None => insert_value (normalize_json v)
        end) <$> s) d)
    | _ => normalize_json src
    end
  | JArr s =>
    match dst with
    | JArr d => JArr (dedup (map normalize_json (d ++ s)))
    | _ => normalize_json src
    end
  | _ => normalize_json src
  end.

(** ** Induction over values *)

Fixpoint json_size (v : json) : nat :=
  match v with
  | JArr l => S (foldr (λ w n, json_size w + n) 0 l)
  | JObj m => S (map_fold (λ _ w n, json_size w + n) 0 m)
  | _ => 1
  end.
Lemma json_size_item l v : v ∈ l → json_size v < json_size (JArr l).
Proof.
  cbn [json_size]. induction 1 as [x l|x y l _ IH]; cbn [foldr]; lia.
Qed.
Lemma json_size_entry m k v : m !! k = Some v → json_size v < json_size (JObj m).
Proof.
  intros Hk. cbn [json_size]. rewrite (map_fold_delete_L _ _ k v m); [lia| |done].
  intros. lia.
Qed.
Lemma json_nested_ind (P : json → Prop) :
  P JNull → (∀ b, P (JBool b)) → (∀ n, P (JNum n)) → (∀ s, P (JStr s)) →
  (∀ l, Forall P l → P (JArr l)) → (∀ m, map_Forall (λ _, P) m → P (JObj m)) → ∀ v, P v.
Proof.
  intros Hnull Hbool Hnum Hstr Harr Hobj v. remember (json_size v) as n eqn:En. revert v En.
  induction n as [n IH] using lt_wf_ind. intros [|b|x|s|l|m] ->; auto.
  - apply Harr, Forall_forall. intros v Hv. eapply IH; [|done]. by apply json_size_item.
  - apply Hobj. intros k v Hk. eapply IH; [|done]. by eapply json_size_entry.
Qed.

(** ** Laws *)

(** A value is normal when no array has an element twice and no object has a null entry. *)
Inductive normal : json → Prop :=
| normal_null : normal JNull
| normal_bool b : normal (JBool b)
| normal_num n : normal (JNum n)
| normal_str s : normal (JStr s)
| normal_arr l : Forall normal l → NoDup l → normal (JArr l)
| normal_obj m : map_Forall (λ _ v, normal v ∧ v ≠ JNull) m → normal (JObj m).

Lemma is_null_spec v : is_null v = false ↔ v ≠ JNull.
Proof. by destruct v. Qed.
Lemma lookup_strip_nulls m k v : strip_nulls m !! k = Some v ↔ m !! k = Some v ∧ v ≠ JNull.
Proof. unfold strip_nulls. rewrite map_lookup_filter_Some. cbn [snd]. by rewrite is_null_spec. Qed.
Lemma normalize_normal v : normal (normalize_json v).
Proof.
  induction v as [| | | |l IH|m IH] using json_nested_ind; cbn [normalize_json]; try by constructor.
  - constructor; [|apply NoDup_dedup]. apply Forall_forall. intros v (w & -> & Hw)%elem_of_dedup%list_elem_of_fmap.
    rewrite Forall_forall in IH. by apply IH.
  - constructor. intros k v [Hk Hv]%lookup_strip_nulls. split; [|done].
    rewrite lookup_fmap in Hk. apply fmap_Some in Hk as (w & Hw & ->). by eapply IH.
Qed.
Lemma normalize_id v : normal v → normalize_json v = v.
Proof.
  induction v as [| | | |l IH|m IH] using json_nested_ind; intros H; inversion H as [| | | |l' Hl Hd|m' Hm]; subst;
    cbn [normalize_json]; try done.
  - f_equal. rewrite (map_ext_in _ id), List.map_id; [by apply dedup_NoDup|].
    intros v Hv%list_elem_of_In. rewrite Forall_forall in IH, Hl. by apply IH, Hl.
  - f_equal. apply map_eq. intros k. apply option_eq. intros v. rewrite lookup_strip_nulls, lookup_fmap. split.
    + intros [(w & Hw & ->)%fmap_Some Hv]. destruct (Hm k w Hw). by rewrite (IH k w Hw).
    + intros Hk. destruct (Hm k v Hk). rewrite Hk. cbn. split; [f_equal; by apply (IH k v)|done].
Qed.
Lemma normalize_null v : normalize_json v = JNull ↔ v = JNull.
Proof. by destruct v. Qed.
Lemma insert_normalized v : insert_value (normalize_json v) = if is_null v then None else Some (normalize_json v).
Proof. by destruct v. Qed.

(** The entry of a key after a merge of objects. *)
Lemma merge_json_obj d s k : 
  (∃ m, merge_json (JObj d) (JObj s) = JObj m ∧
    m !! k = match s !! k, d !! k with
             | Some v, Some existing => Some (merge_json existing v)
             | Some v, None => insert_value (normalize_json v)
             | None, old => old
             end).
Proof.
  eexists. split; [done|]. unfold apply_entries. rewrite lookup_merge, lookup_fmap.
  destruct (s !! k); cbn; destruct (d !! k); done.
Qed.
Lemma merge_json_obj_eq d d' s :
  (∀ k v, s !! k = Some v → match d !! k with
    | Some existing => d' !! k = Some (merge_json existing v)
    | None => d' !! k = insert_value (normalize_json v) end) →
  (∀ k, s !! k = None → d' !! k = d !! k) → merge_json (JObj d) (JObj s) = JObj d'.
Proof.
  intros H1 H2. cbn [merge_json]. f_equal. apply map_eq. intros k. unfold apply_entries.
  rewrite lookup_merge, lookup_fmap. specialize (H1 k). specialize (H2 k).
  destruct (s !! k) as [v|]; cbn.
  - specialize (H1 v eq_refl). by destruct (d !! k).
  - rewrite H2 by done. by destruct (d !! k).
Qed.
Lemma merge_normalized v : merge_json (normalize_json v) v = normalize_json v.
Proof.
  induction v as [| | | |l IH|m IH] using json_nested_ind; try done.
  - cbn [normalize_json merge_json]. f_equal. rewrite map_app.
    rewrite (map_ext_in normalize_json id (dedup _)), List.map_id.
    + by rewrite dedup_app_old.
    + intros v (w & -> & _)%list_elem_of_In%elem_of_dedup%list_elem_of_fmap. apply normalize_id, normalize_normal.
  - cbn [normalize_json]. apply merge_json_obj_eq.
    + intros k v Hk. destruct (strip_nulls (normalize_json <$> m) !! k) as [w|] eqn:Ew.
      * apply lookup_strip_nulls in Ew as [Ew _]. rewrite lookup_fmap, Hk in Ew. injection Ew as <-.
        f_equal. symmetry. by apply (IH k v).
      * rewrite insert_normalized. destruct (is_null v) eqn:En; [done|].
        rewrite (proj2 (lookup_strip_nulls _ k (normalize_json v))) in Ew; [done|].
        rewrite lookup_fmap, Hk. split; [done|]. rewrite normalize_null. by apply is_null_spec.
    + done.
Qed.

(** [normalize_json] gives a normal value, is the identity on normal values, and a second
    normalisation changes nothing. *)
Theorem normalize_json_correct (v : json) :
  normal (normalize_json v) ∧ (normal v → normalize_json v = v) ∧
  normalize_json (normalize_json v) = normalize_json v.
Proof. pose proof (normalize_normal v). split_and!; [done|apply normalize_id|by apply normalize_id]. Qed.

(** A merge is idempotent: laying the same fragment over the result once more changes
    nothing, for every pair of values. *)
Theorem merge_json_idempotent (dst src : json) : merge_json (merge_json dst src) src = merge_json dst src.
Proof.
  revert dst. induction src as [| | | |s IH|s IH] using json_nested_ind; intros dst; try done.
  - destruct dst as [| | | |d|d]; try apply (merge_normalized (JArr s)). cbn [merge_json]. f_equal.
    rewrite (map_app _ (dedup _) s).
    rewrite (map_ext_in normalize_json id (dedup _)), List.map_id.
    + apply dedup_app_old. intros x. rewrite map_app, elem_of_app. by right.
    + intros v (w & -> & _)%list_elem_of_In%elem_of_dedup%list_elem_of_fmap. apply normalize_id, normalize_normal.
  - destruct dst as [| | | |d|d]; try apply (merge_normalized (JObj s)).
    destruct (merge_json (JObj d) (JObj s)) as [| | | |d'|d'] eqn:E; try done.
    assert (Hd : ∀ k, d' !! k = match s !! k, d !! k with
      | Some v, Some existing => Some (merge_json existing v)
      | Some v, None => insert_value (normalize_json v) | None, old => old end).
    { intros k. destruct (merge_json_obj d s k) as (m & Em & Hm). rewrite E in Em. by injection Em as ->. }
    apply merge_json_obj_eq; [|done]. intros k v Hk. specialize (Hd k). rewrite Hk in Hd.
    destruct (d !! k) as [e|]; rewrite Hd; [by rewrite (IH k v Hk)|].
    rewrite insert_normalized. destruct (is_null v); [done|]. by rewrite merge_normalized.
Qed.

(** An overlay is at the top of the result. A scalar of the fragment replaces what was there;
    an array holds the elements of both, once each; an object has the entries of both, the shared
    ones merged in turn, and loses none of the entries it had. *)
Theorem merge_json_overlay (dst src : json) :
  match src with
  | JArr s => ∃ l, merge_json dst src = JArr l ∧ NoDup l ∧
      ∀ x, x ∈ l ↔ ∃ w, (w ∈ s ∨ ∃ d, dst = JArr d ∧ w ∈ d) ∧ x = normalize_json w
  | JObj s => ∃ m, merge_json dst src = JObj m ∧
      ∀ k, m !! k = match s !! k, json_get k dst with
        | Some v, Some existing => Some (merge_json existing v)
        | Some v, None => insert_value (normalize_json v)
        | None, old => old
        end
  | _ => merge_json dst src = src
  end.
Proof.
  destruct src as [| | | |s|s]; try done.
  - destruct dst as [| | | |d|d]; (eexists; split; [done|split; [apply NoDup_dedup|]]);
      intros x; rewrite elem_of_dedup, list_elem_of_fmap; try setoid_rewrite elem_of_app; naive_solver.
  - assert (Hn : ∀ k, strip_nulls (normalize_json <$> s) !! k =
      match s !! k with Some v => insert_value (normalize_json v) | None => None end).
    { intros k. apply option_eq. intros w. rewrite lookup_strip_nulls, lookup_fmap. destruct (s !! k) as [v|]; cbn.
      - unfold insert_value. destruct (is_null (normalize_json v)) eqn:En; [|apply is_null_spec in En; naive_solver].
        destruct (normalize_json v); naive_solver.
      - naive_solver. }
    destruct dst as [| | | |d|d]; (eexists; split; [done|]); intros k; try (rewrite Hn; by destruct (s !! k)).
    unfold apply_entries. rewrite lookup_merge, lookup_fmap. cbn [json_get].
    destruct (s !! k); cbn; destruct (d !! k); done.
Qed.

(** ** Removal of nulls at the write boundary (src/adapter/json_nulls.rs) *)

(** [strip_json_nulls_depth], by the levels that are left: below the last one the value stays. *)
Fixpoint strip_json_nulls_depth (levels : nat) (v : json) : json :=
  match levels with
  | 0 => v
  | S n =>
    match v with
    | JArr items => JArr (map (strip_json_nulls_depth n) items)
    | JObj m => JObj (strip_json_nulls_depth n <$> strip_nulls m)
    | _ => v
    end
  end.
(** Depth 0 to 64. *)
Definition strip_json_nulls (v : json) : json := strip_json_nulls_depth 65 v.

(** No object has a null entry in the first [n] levels. *)
Fixpoint no_nulls (n : nat) (v : json) : Prop :=
  match n with
  | 0 => True
  | S n =>
    match v with
    | JArr l => Forall (no_nulls n) l
    | JObj m => map_Forall (λ _ w, w ≠ JNull ∧ no_nulls n w) m
    | _ => True
    end
  end.
Lemma strip_depth_null n v : strip_json_nulls_depth n v = JNull ↔ v = JNull.
Proof. by destruct n, v. Qed.
Lemma strip_depth_no_nulls n v : no_nulls n (strip_json_nulls_depth n v).
Proof.
  revert v. induction n as [|n IH]; intros v; [done|]. destruct v as [| | | |l|m]; try done; cbn [strip_json_nulls_depth no_nulls].
  - apply Forall_forall. by intros w (x & -> & _)%list_elem_of_fmap.
  - intros k w Hk. rewrite lookup_fmap in Hk. apply fmap_Some in Hk as (x & [_ Hx]%lookup_strip_nulls & ->).
    by rewrite strip_depth_null.
Qed.
Lemma strip_depth_id n v : no_nulls n v → strip_json_nulls_depth n v = v.
Proof.
  revert v. induction n as [|n IH]; intros v H; [done|]. destruct v as [| | | |l|m]; try done; cbn in *.
  - f_equal. rewrite (map_ext_in _ id), List.map_id; [done|]. intros w Hw%list_elem_of_In.
    rewrite Forall_forall in H. by apply IH, H.
  - f_equal. apply map_eq. intros k. rewrite lookup_fmap. apply option_eq. intros w. rewrite fmap_Some.
    setoid_rewrite lookup_strip_nulls. split.
    + intros (x & [Hx _] & ->). destruct (H k x Hx). by rewrite IH.
    + intros Hk. destruct (H k w Hk). exists w. by rewrite IH.
Qed.
Lemma normal_no_nulls n v : normal v → no_nulls n v.
Proof.
  revert v. induction n as [|n IH]; intros v H; [done|]. inversion H as [| | | |l Hl Hd|m Hm]; subst; cbn; try done.
  - eapply Forall_impl; [exact Hl|done].
  - intros k w Hk. destruct (Hm k w Hk). auto.
Qed.
Lemma strip_depth_normal n v : normal v → strip_json_nulls_depth n v = v.
Proof. intros H. by apply strip_depth_id, normal_no_nulls. Qed.
Lemma strip_depth_idemp n v : strip_json_nulls_depth n (strip_json_nulls_depth n v) = strip_json_nulls_depth n v.
Proof. apply strip_depth_id, strip_depth_no_nulls. Qed.

Lemma strip_depth_get n v k :
  json_get k (strip_json_nulls_depth (S n) v) =
  (w ← json_get k v; if is_null w then None else Some (strip_json_nulls_depth n w)).
Proof.
  destruct v as [| | | |l|m]; try done. cbn [json_get strip_json_nulls_depth].
  rewrite lookup_fmap. destruct (strip_nulls m !! k) as [w|] eqn:E.
  - apply lookup_strip_nulls in E as [-> Hw]. cbn. by rewrite (proj2 (is_null_spec w)).
  - destruct (m !! k) as [w|] eqn:Ew; [|done]. cbn. destruct (is_null w) eqn:En; [done|].
    apply is_null_spec in En. by rewrite (proj2 (lookup_strip_nulls m k w) (conj Ew En)) in E.
Qed.

(** [strip_json_nulls] leaves no null entry in an object of its first 65 levels, is the identity
    on a value that has none there, and a second call changes nothing; what it leaves below an
    object key is what it makes of the value that was there, and a key goes away only when its
    value is null. *)
Theorem strip_json_nulls_correct (v : json) :
  no_nulls 65 (strip_json_nulls v) ∧ (no_nulls 65 v → strip_json_nulls v = v) ∧
  strip_json_nulls (strip_json_nulls v) = strip_json_nulls v ∧
  ∀ k, json_get k (strip_json_nulls v) =
       (w ← json_get k v; if is_null w then None else Some (strip_json_nulls_depth 64 w)).
Proof.
  split_and!; [apply strip_depth_no_nulls|apply strip_depth_id|apply strip_depth_idemp|].
  intros k. apply strip_depth_get.
Qed.
