(* ===== verification/ProxyPath.v ===== *)
(** * Paths into a JSON body (crates/llmenv-config/src/proxy_path.rs)

    [key], [key.key], [key[N]] and their combinations: parsing, reading, writing and
    removing. A write makes what is missing on the way and replaces what has the wrong
    shape. *)

From S2P Require Import Prelude RustStr Json.

Inductive PathSegment := Key (k : string) | Index (i : N).
Global Instance PathSegment_eq_dec : EqDecision PathSegment.
Proof. solve_decision. Defined.

Inductive PathParseError :=
| EmptyPath
| EmptySegment (path : string)
| ExpectedBracket (path : string)
| UnmatchedBracket (path : string)
| InvalidIndex (idx path : string)
| NoSegments (path : string).

Definition is_dot (c : ascii) : bool := Ascii.eqb c ".".

(** The loop over the brackets of one dotted part. Each turn takes at least two bytes off
    [rest], so its length is fuel enough. *)
Fixpoint parse_indices (fuel : nat) (path rest : string) : result PathParseError (list PathSegment) :=
  match fuel with
  | 0 => Ok []
  | S fuel =>
    match rest with
    | "" => Ok []
    | String "[" after =>
      match split_once "]" after with
      | None => Err (UnmatchedBracket path)
      | Some (idx_str, rest) =>
        match parse_unsigned u64_max idx_str with
        | None => Err (InvalidIndex idx_str path)
        | Some idx => segments ← parse_indices fuel path rest; mret (Index idx :: segments)
        end
      end
    | _ => Err (ExpectedBracket path)
    end
  end.

(** One part between dots. *)
Definition parse_part (path dotted : string) : result PathParseError (list PathSegment) :=
  if decide (dotted = "") then Err (EmptySegment path)
  else
    match find_sub "[" dotted with
    | Some (key, after) =>
      indices ← parse_indices (String.length dotted) path ("[" +:+ after);
      mret (if decide (key = "") then indices else Key key :: indices)
    | None => Ok [Key dotted]
    end.

Fixpoint parse_parts (path : string) (parts : list string) : result PathParseError (list PathSegment) :=
  match parts with
  | [] => Ok []
  | dotted :: parts =>
    segments ← parse_part path dotted;
    more ← parse_parts path parts;
    mret (segments ++ more)
  end.

Definition parse_path (path : string) : result PathParseError (list PathSegment) :=
  if decide (path = "") then Err EmptyPath
  else
    segments ← parse_parts path (split_on is_dot path);
    if decide (segments = []) then Err (NoSegments path) else Ok segments.

(** One step down. *)
Definition get_segment (seg : PathSegment) (v : json) : option json :=
  match seg, v with
  | Key k, JObj m => m !! k
  | Index i, JArr l => l !! N.to_nat i
  | _, _ => None
  end.
Fixpoint get_path (v : json) (segments : list PathSegment) : option json :=
  match segments with
  | [] => Some v
  | seg :: segments => child ← get_segment seg v; get_path child segments
  end.

(** The object or array that a write finds or makes. *)
Definition object_at (v : json) : gmap string json := match v with JObj m => m | _ => ∅ end.
Definition array_at (v : json) : list json := match v with JArr l => l | _ => [] end.
(** [arr.resize(i + 1, Null)] when the array is too short. *)
Definition grow_to (i : N) (l : list json) : list json :=
  l ++ replicate (S (N.to_nat i) - length l) JNull.

(** [set_path]. [None] is a panic: the array would need more than [capacity] elements,
    or [i + 1] does not fit in a [usize]. *)
Section set_path.
Context (capacity : N).

Fixpoint set_path (v : json) (segments : list PathSegment) (new_value : json) : option json :=
  match segments with
  | [] => Some new_value
  | Key k :: segments =>
    let m := object_at v in
    child ← set_path (default JNull (m !! k)) segments new_value;
    Some (JObj (<[k := child]> m))
  | Index i :: segments =>
    if decide (capacity ≤ i)%N then None
    else
      let l := grow_to i (array_at v) in
      child ← set_path (default JNull (l !! N.to_nat i)) segments new_value;
      Some (JArr (<[N.to_nat i := child]> l))
  end.
End set_path.

(** [remove_path]: the value after the call, and whether something was removed. *)
Fixpoint remove_path (v : json) (segments : list PathSegment) : json * bool :=
  match segments with
  | [] => (v, false)
  | [Key k] =>
    match v with
    | JObj m => (JObj (delete k m), bool_decide (is_Some (m !! k)))
    | _ => (v, false)
    end
  | [Index i] =>
    match v with
    | JArr l =>
      if decide (N.to_nat i < length l) then (JArr (take (N.to_nat i) l ++ drop (S (N.to_nat i)) l), true)
      else (v, false)
    | _ => (v, false)
    end
  | seg :: segments =>
    match seg, v with
    | Key k, JObj m =>
      match m !! k with
      | Some child => let '(child, removed) := remove_path child segments in
                      (JObj (<[k := child]> m), removed)
      | None => (v, false)
      end
    | Index i, JArr l =>
      match l !! N.to_nat i with
      | Some child => let '(child, removed) := remove_path child segments in
                      (JArr (<[N.to_nat i := child]> l), removed)
      | None => (v, false)
      end
    | _, _ => (v, false)
    end
  end.

(** ** Reading and writing *)

Lemma length_grow_to i l : N.to_nat i < length (grow_to i l).
Proof. unfold grow_to. rewrite length_app, length_replicate. lia. Qed.
Lemma grow_to_lookup i l j x : l !! j = Some x → grow_to i l !! j = Some x.
Proof. intros H. by apply lookup_app_l_Some. Qed.

Lemma set_path_total capacity v p new :
  Forall (λ s, match s with Index i => (i < capacity)%N | Key _ => True end) p →
  is_Some (set_path capacity v p new).
Proof.
  revert v. induction p as [|[k|i] p IH]; intros v Hp; [by eexists|..]; inv Hp; cbn [set_path].
  - destruct (IH (default JNull (object_at v !! k))) as [c ->]; [done|]. by eexists.
  - rewrite decide_False by lia.
    destruct (IH (default JNull (grow_to i (array_at v) !! N.to_nat i))) as [c ->]; [done|]. by eexists.
Qed.

Lemma set_path_get capacity v p new v' : set_path capacity v p new = Some v' → get_path v' p = Some new.
Proof.
  revert v v'. induction p as [|[k|i] p IH]; intros v v' H; cbn [set_path] in H; [by simplify_eq|..].
  - apply bind_Some in H as (c & Hc & [= <-]). cbn. rewrite lookup_insert_eq. by eapply IH.
  - case_decide; [done|]. apply bind_Some in H as (c & Hc & [= <-]). cbn.
    rewrite list_lookup_insert_eq by apply length_grow_to. by eapply IH.
Qed.

(** Two paths that part at two keys or at two indices of the same value. *)
Definition same_shape (a b : PathSegment) : bool :=
  match a, b with Key _, Key _ | Index _, Index _ => true | _, _ => false end.
Definition apart (p q : list PathSegment) : Prop :=
  ∃ common a b p' q', p = common ++ a :: p' ∧ q = common ++ b :: q' ∧ a ≠ b ∧ same_shape a b = true.

Lemma set_path_frame capacity v p q new v' x :
  set_path capacity v p new = Some v' → apart p q → get_path v q = Some x → get_path v' q = Some x.
Proof.
  intros H (c & a & b & p' & q' & -> & -> & Hab & Hs). revert v v' H.
  induction c as [|s c IH]; intros v v' H Hq; cbn [app] in *.
  - destruct a as [k|i], b as [k'|i']; try done; cbn [set_path get_path] in *.
    + apply bind_Some in H as (y & _ & [= <-]). destruct v as [| | | | |m]; try done. cbn in *.
      by rewrite lookup_insert_ne by naive_solver.
    + case_decide; [done|]. apply bind_Some in H as (y & _ & [= <-]). destruct v as [| | | |l|]; try done.
      cbn [get_segment array_at] in *. rewrite list_lookup_insert_ne by (intros ?%N2Nat.inj; naive_solver).
      apply bind_Some in Hq as (z & Hz & Hq). by rewrite (grow_to_lookup i l _ _ Hz).
  - apply bind_Some in Hq as (z & Hz & Hq). destruct s as [k|i], v as [| | | |l|m]; try done; cbn [set_path] in H.
    + cbn [get_segment object_at] in Hz, H. rewrite Hz in H. apply bind_Some in H as (y & Hy & [= <-]). cbn.
      rewrite lookup_insert_eq. by eapply IH.
    + case_decide; [done|]. cbn [get_segment array_at] in Hz, H. rewrite (grow_to_lookup i l _ _ Hz) in H.
      apply bind_Some in H as (y & Hy & [= <-]). cbn.
      rewrite list_lookup_insert_eq by apply length_grow_to. by eapply IH.
Qed.

(** Writing a path of the body. A write fails only at an index that no array can
    have; what it wrote is what a read of the path gives; and every value that could be read at
    a path that parts from this one, at another key of the same object or at another index
    of the same array, reads the same. *)
Theorem set_path_correct (capacity : N) (v new : json) (p : list PathSegment) :
  (Forall (λ s, match s with Index i => (i < capacity)%N | Key _ => True end) p →
   is_Some (set_path capacity v p new)) ∧
  ∀ v', set_path capacity v p new = Some v' →
    get_path v' p = Some new ∧
    ∀ q x, apart p q → get_path v q = Some x → get_path v' q = Some x.
Proof.
  split; [apply set_path_total|]. intros v' H. split; [by eapply set_path_get|].
  intros q x. by eapply set_path_frame.
Qed.

(** ** Removing *)

(** What is left of a value when the last segment of a path is removed from it. *)
Definition removed_at (seg : PathSegment) (parent : json) : json :=
  match seg, parent with
  | Key k, JObj m => JObj (delete k m)
  | Index i, JArr l => JArr (take (N.to_nat i) l ++ drop (S (N.to_nat i)) l)
  | _, _ => parent
  end.

Lemma remove_path_last seg v :
  remove_path v [seg] =
  if decide (is_Some (get_segment seg v)) then (removed_at seg v, true) else (v, false).
Proof.
  destruct seg as [k|i], v as [| | | |l|m]; cbn [remove_path get_segment removed_at];
    try (rewrite decide_False by (by intros [? ?]); done).
  - case_decide as Hk; [by rewrite bool_decide_eq_true_2|]. rewrite bool_decide_eq_false_2 by done.
    by rewrite delete_id by (by apply eq_None_not_Some).
  - pose proof (lookup_lt_is_Some l (N.to_nat i)). repeat case_decide; tauto.
Qed.

(** [v] with the value one step down replaced. *)
Definition put_segment (seg : PathSegment) (child v : json) : json :=
  match seg, v with
  | Key k, JObj m => JObj (<[k := child]> m)
  | Index i, JArr l => JArr (<[N.to_nat i := child]> l)
  | _, _ => v
  end.
Lemma get_put_segment seg child v x :
  get_segment seg v = Some x → get_segment seg (put_segment seg child v) = Some child.
Proof.
  destruct seg, v; try done; simpl; intros H; [by rewrite lookup_insert_eq|].
  apply list_lookup_insert_eq. by eapply lookup_lt_Some.
Qed.
Lemma get_put_segment_ne seg seg' child v :
  seg ≠ seg' → get_segment seg' (put_segment seg child v) = get_segment seg' v.
Proof.
  destruct seg, seg', v; try done; simpl; intros H.
  - by rewrite lookup_insert_ne by naive_solver.
  - rewrite list_lookup_insert_ne by (intros ?%N2Nat.inj; naive_solver). done.
Qed.

Lemma remove_path_cons seg p v : p ≠ [] →
  remove_path v (seg :: p) =
  match get_segment seg v with
  | Some child => (put_segment seg (remove_path child p).1 v, (remove_path child p).2)
  | None => (v, false)
  end.
Proof.
  intros Hp. destruct p as [|s p]; [done|].
  destruct seg as [k|i], v as [| | | |l|m]; try done; cbn [get_segment put_segment].
  - change (match m !! k with Some child => let '(c, r) := remove_path child (s :: p) in
      (JObj (<[k := c]> m), r) | None => (JObj m, false) end =
      match m !! k with Some child => (JObj (<[k := (remove_path child (s :: p)).1]> m),
      (remove_path child (s :: p)).2) | None => (JObj m, false) end).
    destruct (m !! k) as [c|]; [|done]. by destruct (remove_path c (s :: p)).
  - change (match l !! N.to_nat i with Some child => let '(c, r) := remove_path child (s :: p) in
      (JArr (<[N.to_nat i := c]> l), r) | None => (JArr l, false) end = 
      match l !! N.to_nat i with Some child => (JArr (<[N.to_nat i := (remove_path child (s :: p)).1]> l),
      (remove_path child (s :: p)).2) | None => (JArr l, false) end).
    destruct (l !! N.to_nat i) as [c|]; [|done]. by destruct (remove_path c (s :: p)).
Qed.

Lemma get_path_app v p q : get_path v (p ++ q) = get_path v p ≫= λ w, get_path w q.
Proof. revert v. induction p as [|s p IH]; intros v; [done|]. cbn. destruct (get_segment s v); cbn; [apply IH|done]. Qed.

Lemma put_segment_same seg v c : get_segment seg v = Some c → put_segment seg c v = v.
Proof.
  destruct seg as [k|i], v as [| | | |l|m]; try done; cbn [get_segment put_segment]; intros H.
  - by rewrite insert_id.
  - by rewrite list_insert_id.
Qed.

Lemma remove_path_spec v p seg :
  match get_path v (p ++ [seg]) with
  | Some _ => (remove_path v (p ++ [seg])).2 = true ∧
      get_path (remove_path v (p ++ [seg])).1 p = removed_at seg <$> get_path v p ∧
      ∀ q, (∃ c a b p' q', p = c ++ a :: p' ∧ q = c ++ b :: q' ∧ a ≠ b) →
        get_path (remove_path v (p ++ [seg])).1 q = get_path v q
  | None => remove_path v (p ++ [seg]) = (v, false)
  end.
Proof.
  revert v. induction p as [|s p IH]; intros v; cbn [app].
  { rewrite remove_path_last. cbn [get_path]. destruct (get_segment seg v) as [x|] eqn:E; cbn.
    - rewrite decide_True by eauto. split_and!; [done|done|]. by intros q ([|??] & ? & ? & ? & ? & ? & _).
    - by rewrite decide_False by (by intros [? ?]). }
  rewrite remove_path_cons by (by destruct p). cbn [get_path].
  destruct (get_segment s v) as [c|] eqn:E; [|done].
  cbn [mbind option_bind]. specialize (IH c). destruct (get_path c (p ++ [seg])) as [x|].
  - destruct IH as (H1 & H2 & H3). split_and!; [done| |].
    + cbn [fst]. rewrite (get_put_segment _ _ _ _ E). cbn. exact H2.
    + intros q (l & a & b & p' & q' & Ep & -> & Hab). destruct l as [|s' l]; injection Ep as -> Ep.
      * cbn [app get_path fst]. by rewrite get_put_segment_ne.
      * cbn [app get_path fst]. rewrite (get_put_segment _ _ _ _ E), E. cbn. apply H3.
        subst p. by exists l, a, b, p', q'.
  - rewrite IH. cbn. by rewrite put_segment_same.
Qed.

(** Removing a path of the body. Something is removed exactly when the path could be
    read, and otherwise the body is as it was. Then the object around it has lost the key, or
    the array the element, with the elements after it one place down; every path that parts
    before the last step reads the same. *)
Theorem remove_path_correct (v : json) (p : list PathSegment) (seg : PathSegment) :
  let '(v', removed) := remove_path v (p ++ [seg]) in
  removed = bool_decide (is_Some (get_path v (p ++ [seg]))) ∧
  (removed = false → v' = v) ∧
  (removed = true →
    match seg with
    | Key k => get_path v' (p ++ [seg]) = None ∧
        ∀ k', k' ≠ k → get_path v' (p ++ [Key k']) = get_path v (p ++ [Key k'])
    | Index i => ∀ j, get_path v' (p ++ [Index j]) =
        get_path v (p ++ [Index (if decide (j < i)%N then j else N.succ j)])
    end) ∧
  ∀ q, (∃ c a b p' q', p = c ++ a :: p' ∧ q = c ++ b :: q' ∧ a ≠ b) → get_path v' q = get_path v q.
Proof.
  pose proof (remove_path_spec v p seg) as H. destruct (remove_path v (p ++ [seg])) as [v' r]. cbn [fst snd] in H.
  destruct (get_path v (p ++ [seg])) as [x|] eqn:E.
  - destruct H as (-> & Hp & Hq). rewrite bool_decide_eq_true_2 by done. split_and!; [done..| |exact Hq].
    intros _. rewrite get_path_app in E. apply bind_Some in E as (w & Hw & E).
    rewrite Hw in Hp. cbn in Hp. cbn [get_path] in E. apply bind_Some in E as (y & Hy & _).
    destruct seg as [k|i], w as [| | | |l|m]; try done; cbn [removed_at get_segment] in *.
    + split; [|intros k' Hk]; rewrite !get_path_app, Hp, ?Hw; cbn; [by rewrite lookup_delete_eq|].
      by rewrite lookup_delete_ne by done.
    + intros j. rewrite !get_path_app, Hp, Hw. cbn [mbind option_bind get_path get_segment].
      f_equal. apply lookup_lt_Some in Hy. case_decide.
      * rewrite lookup_app_l by (rewrite length_take; lia). by rewrite lookup_take_lt by lia.
      * rewrite lookup_app_r by (rewrite length_take; lia). rewrite length_take, lookup_drop. f_equal. lia.
  - injection H as -> ->. rewrite bool_decide_eq_false_2 by (by intros [? ?]). done.
Qed.

(** ** Parsing *)

(** The spelling of a path: a dot before each key but the first, an index in brackets. *)
Fixpoint spell_rest (p : list PathSegment) : string :=
  match p with
  | [] => ""
  | Key k :: p => "." +:+ k +:+ spell_rest p
  | Index i :: p => "[" +:+ pretty i +:+ "]" +:+ spell_rest p
  end.
Definition spell (p : list PathSegment) : string :=
  match p with
  | Key k :: p => k +:+ spell_rest p
  | p => spell_rest p
  end.

(** A key without a dot or an opening bracket, and an index that fits in a [usize]. *)
Definition plain_segment (s : PathSegment) : Prop :=
  match s with
  | Key k => k ≠ "" ∧ str_all (λ c, negb (is_dot c || Ascii.eqb c "[")) k = true
  | Index i => (i ≤ u64_max)%N
  end.

Fixpoint spell_indices (l : list N) : string :=
  match l with
  | [] => ""
  | i :: l => "[" +:+ pretty i +:+ "]" +:+ spell_indices l
  end.

Lemma digit_not (c d : ascii) : is_ascii_digit d = false → is_ascii_digit c = true → Ascii.eqb c d = false.
Proof. intros Hd Hc. destruct (Ascii.eqb_spec c d) as [->|]; [congruence|done]. Qed.

Lemma split_once_app c s t :
  str_all (λ d, negb (Ascii.eqb d c)) s = true → split_once c (s +:+ String c t) = Some (s, t).
Proof.
  induction s as [|d s IH]; cbn [str_all]; intros H.
  - rewrite str_app_nil_l. cbn. by rewrite Ascii.eqb_refl.
  - apply andb_true_iff in H as [Hd H]. rewrite str_app_cons. cbn [split_once].
    destruct (Ascii.eqb d c); [done|]. by rewrite (IH H).
Qed.

Lemma str_all_digits_not (c : ascii) s :
  is_ascii_digit c = false → str_all is_ascii_digit s = true → str_all (λ d, negb (Ascii.eqb d c)) s = true.
Proof. intros Hc. apply str_all_impl. intros d Hd. by rewrite digit_not. Qed.

Lemma parse_indices_spell fuel path l :
  length l < fuel → Forall (λ i, (i ≤ u64_max)%N) l →
  parse_indices fuel path (spell_indices l) = Ok (Index <$> l).
Proof.
  revert fuel. induction l as [|i l IH]; intros fuel Hf Hl; destruct fuel as [|fuel]; try (cbn in Hf; lia); [done|].
  inv Hl. cbn [spell_indices]. change ("[" +:+ ?s) with (String "[" s). change ("]" +:+ ?s) with (String "]" s).
  cbn [parse_indices].
  rewrite (split_once_app "]" (pretty i)) by (apply str_all_digits_not; [done|apply pretty_digits]).
  rewrite parse_pretty by done. rewrite IH by (done || cbn in Hf; lia). done.
Qed.

(** A key, or nothing, and the indices after it. *)
Definition part_key (k : string) : list PathSegment := if decide (k = "") then [] else [Key k].

Lemma length_spell_indices l : 2 * length l ≤ String.length (spell_indices l).
Proof. induction l as [|i l IH]; [done|]. cbn [spell_indices length]. str_simpl. simpl. lia. Qed.

Lemma find_sub_bracket k s :
  str_all (λ c, negb (is_dot c || Ascii.eqb c "[")) k = true →
  find_sub "[" (k +:+ String "[" s) = Some (k, s).
Proof.
  induction k as [|c k IH]; cbn [str_all]; intros H; [done|]. apply andb_true_iff in H as [Hc H].
  rewrite str_app_cons. cbn [find_sub strip_prefix].
  destruct (Ascii.eqb_spec "[" c) as [<-|]; [done|]. by rewrite (IH H).
Qed.
Lemma find_sub_no_bracket k :
  str_all (λ c, negb (is_dot c || Ascii.eqb c "[")) k = true → find_sub "[" k = None.
Proof.
  induction k as [|c k IH]; cbn [str_all]; intros H; [done|]. apply andb_true_iff in H as [Hc H].
  cbn [find_sub strip_prefix]. destruct (Ascii.eqb_spec "[" c) as [<-|]; [done|]. by rewrite (IH H).
Qed.

Lemma parse_part_spell path k l :
  (k ≠ "" ∨ l ≠ []) → str_all (λ c, negb (is_dot c || Ascii.eqb c "[")) k = true →
  Forall (λ i, (i ≤ u64_max)%N) l →
  parse_part path (k +:+ spell_indices l) = Ok (part_key k ++ (Index <$> l)).
Proof.
  intros Hne Hk Hl. unfold parse_part, part_key. destruct l as [|i l].
  - destruct Hne as [Hne|]; [|done]. cbn [spell_indices]. rewrite str_app_nil_r, decide_False by done.
    rewrite find_sub_no_bracket by done. by rewrite decide_False.
  - rewrite decide_False by (by destruct k). 
    assert (Hlen : length (i :: l) < String.length (k +:+ spell_indices (i :: l))).
    { pose proof (length_spell_indices (i :: l)). rewrite str_length_app. cbn [length] in *. lia. }
    change (spell_indices (i :: l)) with (String "[" (pretty i +:+ "]" +:+ spell_indices l)) at 1.
    rewrite find_sub_bracket by done.
    change ("[" +:+ pretty i +:+ "]" +:+ spell_indices l) with (spell_indices (i :: l)).
    rewrite parse_indices_spell by done.
    cbn [mbind result_bind]. by case_decide.
Qed.

(** The parts between the dots of a spelling that starts with [k] and indices [l]. *)
Fixpoint parts_of (k : string) (l : list N) (p : list PathSegment) : list string :=
  match p with
  | [] => [k +:+ spell_indices l]
  | Key k' :: p => (k +:+ spell_indices l) :: parts_of k' [] p
  | Index i :: p => parts_of k (l ++ [i]) p
  end.

Lemma spell_indices_app l l' : spell_indices (l ++ l') = spell_indices l +:+ spell_indices l'.
Proof. induction l as [|i l IH]; [done|]. cbn [app spell_indices]. rewrite IH. by str_simpl. Qed.

Lemma split_spell k l p :
  str_all (λ c, negb (is_dot c || Ascii.eqb c "[")) k = true → Forall plain_segment p →
  split_on is_dot (k +:+ spell_indices l +:+ spell_rest p) = parts_of k l p.
Proof.
  assert (Hnd : ∀ k l, str_all (λ c, negb (is_dot c || Ascii.eqb c "[")) k = true →
    str_all (λ c, negb (is_dot c)) (k +:+ spell_indices l) = true).
  { clear. intros k l Hk. rewrite str_all_app, andb_true_iff. split.
    - revert Hk. apply str_all_impl. intros c. destruct (is_dot c); done.
    - induction l as [|i l IH]; [done|]. cbn [spell_indices]. rewrite !str_all_app, IH. cbn.
      rewrite !andb_true_r. by apply (str_all_digits_not "."), pretty_digits. }
  revert k l. induction p as [|[k'|i] p IH]; intros k l Hk Hp; cbn [spell_rest parts_of].
  - rewrite str_app_nil_r. by apply split_on_none, Hnd.
  - inv Hp. destruct (H1 : plain_segment (Key k')) as [_ Hk'].
    change ("." +:+ ?s) with (String "." s). rewrite <-str_app_assoc.
    rewrite split_on_app_sep by (done || by apply Hnd). by rewrite <-(IH k' []).
  - inv Hp. rewrite <-IH, spell_indices_app by done. cbn [spell_indices]. by str_simpl.
Qed.

Lemma parse_parts_of path k l p :
  (k ≠ "" ∨ l ≠ [] ∨ ∃ i p', p = Index i :: p') →
  str_all (λ c, negb (is_dot c || Ascii.eqb c "[")) k = true →
  Forall (λ i, (i ≤ u64_max)%N) l → Forall plain_segment p →
  parse_parts path (parts_of k l p) = Ok (part_key k ++ (Index <$> l) ++ p).
Proof.
  revert k l. induction p as [|[k'|i] p IH]; intros k l Hne Hk Hl Hp; cbn [parts_of parse_parts].
  - rewrite parse_part_spell by naive_solver. cbn. by rewrite !app_nil_r.
  - inv Hp. destruct (H1 : plain_segment (Key k')) as [Hk0 Hk'].
    rewrite parse_part_spell by naive_solver. cbn [mbind result_bind].
    rewrite (IH k' []) by auto. cbn [mbind result_bind]. unfold part_key at 2. rewrite decide_False by done.
    cbn. by rewrite <-app_assoc.
  - inv Hp. rewrite IH; [|right; left; by destruct l|done|apply Forall_app_2; [done|by repeat constructor]|done].
    rewrite fmap_app, <-app_assoc. done.
Qed.

(** C39: A path is read as it is spelled: for every non-empty path whose keys are non-empty and hold no
    dot and no opening bracket, and whose indices fit in a 64-bit [usize], its spelling with dots
    before keys and brackets around indices parses to that path. *)
Theorem parse_path_roundtrip (p : list PathSegment) :
  p ≠ [] → Forall plain_segment p → parse_path (spell p) = Ok p.
Proof.
  intros Hne Hp. destruct p as [|s p]; [done|]. inv Hp. unfold parse_path.
  assert (H : ∃ k l q, str_all (λ c, negb (is_dot c || Ascii.eqb c "[")) k = true ∧ (k ≠ "" ∨ l ≠ []) ∧
    Forall (λ i, (i ≤ u64_max)%N) l ∧ Forall plain_segment q ∧
    spell (s :: p) = k +:+ spell_indices l +:+ spell_rest q ∧ s :: p = part_key k ++ (Index <$> l) ++ q).
  { destruct s as [k|i].
    - exists k, [], p. destruct (H1 : plain_segment (Key k)) as [? ?]. unfold part_key.
      rewrite decide_False by done. split_and!; auto.
    - exists "", [i], p. split_and!; [done|by right|by repeat constructor|done| |done]. cbn [spell spell_indices spell_rest]. by str_simpl. }
  destruct H as (k & l & q & Hk & Hkl & Hl & Hq & -> & E).
  rewrite decide_False.
  { rewrite split_spell by done. rewrite parse_parts_of; [|naive_solver|done..].
    cbn. rewrite <-E. done. }
  intros E0. apply (f_equal String.length) in E0. revert E0. str_simpl. simpl.
  destruct Hkl as [Hk0|Hl0]; [by destruct k|]. destruct l; [done|]. cbn [spell_indices]. str_simpl. simpl. lia.
Qed.
