(* ===== verification/LaunchProxy.v ===== *)
(** * The rewriting proxy of [llmenv launch] (src/launch/proxy.rs)

    A request of the engine is checked for the session token, rewritten by the declared rules
    and forwarded to the upstream. [Http] is what the http, url and regex crates answer; the
    handler ends in a reply or in the request that is sent on. *)

From S2P Require Import Prelude RustStr Json ProxyPath.

(** ** Rules (crates/llmenv-config/src/schema.rs) *)

Inductive ProxyTarget := THeader (name : string) | TBody (path : string).
Inductive ProxyConditionTarget := CHeader (name : string) | CBody (path : option string).
Inductive ProxyOp := OpSet (value : json) | OpRemove | OpStrip (pattern : string) (regex : bool).
Inductive ProxyCheck := Missing | Present | Equals (value : json) | Matches (pattern : string) (regex : bool).
Record ProxyCondition := mkCondition { pc_target : ProxyConditionTarget; pc_check : ProxyCheck }.
Record ProxyRule := mkRule { pr_when : list ProxyCondition; pr_target : ProxyTarget; pr_op : ProxyOp }.

(** ** The libraries *)

Class Http := {
  header_name : Type; header_value : Type; header_map : Type; url : Type; url_origin : Type;
  header_name_eq_dec :: EqDecision header_name;
  name_of : string → option header_name;       (** [HeaderName::try_from] *)
  name_str : header_name → string;             (** [HeaderName::as_str] *)
  value_of : string → option header_value;     (** [HeaderValue::try_from] *)
  value_str : header_value → option string;    (** [HeaderValue::to_str] *)
  headers_get : header_map → header_name → option header_value;
  headers_insert : header_name → header_value → header_map → header_map;
  headers_remove : header_name → header_map → header_map;
  headers_list : header_map → list (header_name * header_value);
  regex_is_match : string → option (string → bool);      (** [Regex::new], then [is_match] *)
  regex_strip : string → option (string → string);       (** [replace_all] with nothing *)
  origin : url → url_origin;                   (** scheme, host, port and credentials *)
  url_path : url → string;
  url_set_path : string → url → url;
  url_set_query : option string → url → url }.

(** A header name has one spelling, in lower case; the map keeps what is put in; and a new path
    or query leaves the rest of a URL alone. *)
Class HttpLaws `{Http} := {
  name_of_str : ∀ n, name_of (name_str n) = Some n;
  name_str_lower : ∀ n, to_ascii_lowercase (name_str n) = name_str n;
  headers_list_insert : ∀ n v h n' v', (n', v') ∈ headers_list (headers_insert n v h) ↔
    n' = n ∧ v' = v ∨ n' ≠ n ∧ (n', v') ∈ headers_list h;
  headers_list_remove : ∀ n h n' v', (n', v') ∈ headers_list (headers_remove n h) ↔
    n' ≠ n ∧ (n', v') ∈ headers_list h;
  headers_get_list : ∀ h n, is_Some (headers_get h n) ↔ ∃ v, (n, v) ∈ headers_list h;
  origin_set_path : ∀ p u, origin (url_set_path p u) = origin u;
  origin_set_query : ∀ q u, origin (url_set_query q u) = origin u }.

Section proxy.
Context `{HH : Http} `{HJ : JsonText} (capacity : N).

(** ** Conditions *)

(** [HeaderMap::get] with a text: a text that is no header name finds nothing. *)
Definition get_header (h : header_map) (name : string) : option header_value :=
  n ← name_of name; headers_get h n.

Definition contains_sub (pattern text : string) : bool := bool_decide (is_Some (find_sub pattern text)).

Definition matches_pattern (pattern : string) (is_regex : bool) (text : string) : bool :=
  if is_regex then match regex_is_match pattern with Some is_match => is_match text | None => false end
  else contains_sub pattern text.

Definition check_matches_str (check : ProxyCheck) (value : option string) : bool :=
  match check with
  | Missing => bool_decide (value = None)
  | Present => bool_decide (is_Some value)
  | Equals expected =>
    match value, as_str expected with Some v, Some e => bool_decide (e = v) | _, _ => false end
  | Matches pattern regex => match value with Some v => matches_pattern pattern regex v | None => false end
  end.

Definition condition_matches (cond : ProxyCondition) (headers : header_map) (body : json) : bool :=
  match pc_target cond with
  | CHeader name => check_matches_str (pc_check cond) (get_header headers name ≫= value_str)
  | CBody None => check_matches_str (pc_check cond) (Some (json_text body))
  | CBody (Some path) =>
    match parse_path path with
    | Err _ => false
    | Ok segments =>
      let found := get_path body segments in
      match pc_check cond with
      | Missing => bool_decide (found = None)
      | Present => bool_decide (is_Some found)
      | Equals expected => bool_decide (found = Some expected)
      | Matches pattern regex =>
        match found with
        | Some found => matches_pattern pattern regex (default (json_text found) (as_str found))
        | None => false
        end
      end
    end
  end.

(** ** Operations *)

(** [text.replace(pattern, "")]. An empty pattern replaces nothing with nothing. *)
Fixpoint replace_loop (fuel : nat) (pattern text : string) : string :=
  match fuel with
  | 0 => text
  | S fuel =>
    match find_sub pattern text with
    | Some (before, after) => before +:+ replace_loop fuel pattern after
    | None => text
    end
  end.
Definition strip_pattern (pattern : string) (is_regex : bool) (text : string) : string :=
  if is_regex then match regex_strip pattern with Some strip => strip text | None => text end
  else if decide (pattern = "") then text else replace_loop (String.length text) pattern text.

(** [apply_body_op]. [None] is a panic of the write. *)
Definition apply_body_op (path : string) (op : ProxyOp) (body : json) : option json :=
  match parse_path path with
  | Err _ => Some body
  | Ok segments =>
    match op with
    | OpSet value => set_path capacity body segments value
    | OpRemove => Some (remove_path body segments).1
    | OpStrip pattern regex =>
      match get_path body segments ≫= as_str with
      | None => Some body
      | Some current => set_path capacity body segments (JStr (strip_pattern pattern regex current))
      end
    end
  end.

Definition apply_header_op (name : string) (op : ProxyOp) (headers : header_map) : header_map :=
  match op with
  | OpSet value =>
    match as_str value with
    | None => headers
    | Some s =>
      match name_of name, value_of s with
      | Some n, Some v => headers_insert n v headers
      | _, _ => headers
      end
    end
  | OpRemove => match name_of name with Some n => headers_remove n headers | None => headers end
  | OpStrip pattern regex =>
    match name_of name with
    | None => headers
    | Some n =>
      match headers_get headers n ≫= value_str with
      | None => headers
      | Some current =>
        match value_of (strip_pattern pattern regex current) with
        | Some v => headers_insert n v headers
        | None => headers
        end
      end
    end
  end.

Definition apply_op (rule : ProxyRule) (headers : header_map) (body : json) : option (header_map * json) :=
  match pr_target rule with
  | THeader name => Some (apply_header_op name (pr_op rule) headers, body)
  | TBody path => body ← apply_body_op path (pr_op rule) body; Some (headers, body)
  end.

Definition rule_fires (rule : ProxyRule) (headers : header_map) (body : json) : bool :=
  forallb (λ c, condition_matches c headers body) (pr_when rule).

Fixpoint apply_rules (rules : list ProxyRule) (headers : header_map) (body : json)
  : option (header_map * json) :=
  match rules with
  | [] => Some (headers, body)
  | rule :: rules =>
    if rule_fires rule headers body then
      '(headers, body) ← apply_op rule headers body; apply_rules rules headers body
    else apply_rules rules headers body
  end.

(** ** The session token *)

Definition PEER_AUTH_HEADER : string := "x-llmenv-launch-proxy-token".

Fixpoint byte_diff (acc : N) (a b : string) : N :=
  match a, b with
  | String x a, String y b => byte_diff (N.lor acc (N.lxor (code x) (code y))) a b
  | _, _ => acc
  end.
Definition constant_time_eq (a b : string) : bool :=
  if decide (String.length a ≠ String.length b) then false
  else bool_decide (byte_diff 0 a b = 0%N).

Definition peer_authorized (headers : header_map) (token : string) : bool :=
  match get_header headers PEER_AUTH_HEADER ≫= value_str with
  | Some value => constant_time_eq value token
  | None => false
  end.

(** ** One request *)

Record Request := mkRequest {
  rq_method : string; rq_path : string; rq_query : option string;
  rq_headers : header_map;
  rq_body : option string }.   (** [None]: the body failed to arrive, or is over the cap *)

Inductive Outcome :=
| Unauthorized                 (** 401 *)
| BadRequest                   (** 400 *)
| Forward (method : string) (target : url) (headers : list (string * string)) (body : string).

(** The headers that are not sent on: the hop-by-hop ones, those that the client sets itself,
    and the token. *)
Definition dropped_headers : list string :=
  ["host"; "content-length"; "connection"; "transfer-encoding"; "te"; "upgrade"; "proxy-authorization"].
Definition is_dropped (name : header_name) : bool :=
  bool_decide (name_str name ∈ dropped_headers) ||
  bool_decide (to_ascii_lowercase (name_str name) = "keep-alive") ||
  bool_decide (to_ascii_lowercase (name_str name) = PEER_AUTH_HEADER).

Definition forwarded_headers (h : header_map) : list (string * string) :=
  omap (λ nv, if is_dropped nv.1 then None else v ← value_str nv.2; Some (name_str nv.1, v)) (headers_list h).

Fixpoint trim_end_slashes (s : string) : string :=
  match s with
  | "" => ""
  | String c s =>
    match trim_end_slashes s with
    | "" => if Ascii.eqb c "/" then "" else chr c
    | t => String c t
    end
  end.

(** [handle], up to the request that is sent. [None] is a panic in a rule. *)
Definition handle (req : Request) (upstream : url) (rules : list ProxyRule) (token : string)
  : option Outcome :=
  if peer_authorized (rq_headers req) token then
    match rq_body req with
    | None => Some BadRequest
    | Some bytes =>
      match (if decide (bytes = "") then Some JNull else json_parse bytes) with
      | None => Some BadRequest
      | Some json_body =>
        '(headers, json_body) ← apply_rules rules (rq_headers req) json_body;
        if starts_with "//" (rq_path req) then Some BadRequest
        else
          let target := url_set_query (rq_query req)
            (url_set_path (trim_end_slashes (url_path upstream) +:+ rq_path req) upstream) in
          Some (Forward (rq_method req) target (forwarded_headers headers) (json_text json_body))
      end
    end
  else Some Unauthorized.
End proxy.

(** ** Laws *)

Lemma byte_diff_zero acc a b : String.length a = String.length b →
  byte_diff acc a b = 0%N ↔ acc = 0%N ∧ a = b.
Proof.
  revert acc b. induction a as [|x a IH]; intros acc [|y b] Hl; cbn in *; try done; [naive_solver|].
  rewrite IH by lia. rewrite N.lor_eq_0_iff, N.lxor_eq_0_iff. unfold code. split.
  - intros [[-> Hc] ->]. split; [done|]. f_equal.
    rewrite <-(Ascii.ascii_N_embedding x), <-(Ascii.ascii_N_embedding y). by f_equal.
  - intros [-> [= -> ->]]. done.
Qed.

(** The comparison of the session token accepts the token and nothing else. *)
Theorem constant_time_eq_correct (a b : string) : constant_time_eq a b = true ↔ a = b.
Proof.
  unfold constant_time_eq. case_decide as Hl.
  - split; [done|]. by intros ->.
  - rewrite bool_decide_eq_true, byte_diff_zero by lia. naive_solver.
Qed.

Lemma find_sub_before sub s a b : sub ≠ "" → find_sub sub s = Some (a, b) → find_sub sub a = None.
Proof.
  intros Hne. revert a. induction s as [|c s IH]; intros a; cbn [find_sub].
  - destruct sub; [done|]. done.
  - destruct (strip_prefix sub (String c s)) as [r|] eqn:Hp; [intros [= <- <-]; by destruct sub|].
    destruct (find_sub sub s) as [[a' b']|] eqn:Hf; [|done]. intros [= <- <-].
    cbn [find_sub]. rewrite (IH a' eq_refl). destruct (strip_prefix sub (String c a')) as [r|] eqn:Hp'; [|done].
    apply strip_prefix_Some in Hp'. apply find_sub_Some in Hf as ->.
    assert (E : strip_prefix sub (String c (a' +:+ sub +:+ b')) = Some (r +:+ sub +:+ b')).
    { apply strip_prefix_Some. by rewrite <-(str_app_assoc sub r), <-Hp', str_app_cons. }
    congruence.
Qed.

Section laws.
Context `{HL : HttpLaws} `{HJ : JsonText}.

Lemma replace_loop_spec fuel pattern text : pattern ≠ "" → String.length text ≤ fuel →
  ∃ parts, text = join pattern parts ∧ replace_loop fuel pattern text = join "" parts ∧
    parts ≠ [] ∧ Forall (λ x, find_sub pattern x = None) parts.
Proof.
  intros Hne. revert text. induction fuel as [|fuel IH]; intros text Hl; cbn [replace_loop].
  { destruct text; [|simpl in Hl; lia]. exists [""]. split_and!; try done. constructor; [|done]. by destruct pattern. }
  destruct (find_sub pattern text) as [[a b]|] eqn:E.
  - pose proof (find_sub_before _ _ _ _ Hne E) as Ha. apply find_sub_Some in E as ->.
    destruct (IH b) as (parts & -> & -> & Hp & Hf).
    { revert Hl. str_simpl. destruct pattern; [done|]. simpl. lia. }
    exists (a :: parts). destruct parts as [|p ps]; [done|]. split_and!; try done. by constructor.
  - exists [text]. split_and!; try done. by repeat constructor.
Qed.

(** Stripping a text pattern. The text is cut at the occurrences of the pattern, left to
    right, so that no piece holds the pattern, and the pieces are put together again. *)
Theorem strip_pattern_correct (pattern text : string) : pattern ≠ "" →
  ∃ parts, text = join pattern parts ∧ strip_pattern pattern false text = join "" parts ∧
    Forall (λ x, find_sub pattern x = None) parts.
Proof.
  intros Hne. unfold strip_pattern. rewrite decide_False by done.
  destruct (replace_loop_spec (String.length text) pattern text Hne) as (ps & ? & ? & _ & ?); [lia|]. eauto.
Qed.

(** Rules run in order: each sees the headers and the body that the ones before it left. *)
Lemma apply_rules_app capacity r1 r2 headers body :
  apply_rules capacity (r1 ++ r2) headers body =
  '(headers, body) ← apply_rules capacity r1 headers body; apply_rules capacity r2 headers body.
Proof.
  revert headers body. induction r1 as [|r r1 IH]; intros headers body; [done|]. cbn [app apply_rules].
  destruct (rule_fires r headers body); [|apply IH].
  destruct (apply_op capacity r headers body) as [[h b]|]; [|done]. apply IH.
Qed.

Lemma forwarded_headers_spec h n v : (n, v) ∈ forwarded_headers h ↔
  n ∉ dropped_headers ∧ n ≠ "keep-alive" ∧ n ≠ PEER_AUTH_HEADER ∧
  ∃ hn hv, (hn, hv) ∈ headers_list h ∧ name_str hn = n ∧ value_str hv = Some v.
Proof.
  unfold forwarded_headers. rewrite list_elem_of_omap. split.
  - intros ([hn hv] & Hin & Hd). cbn [fst snd] in Hd.
    destruct (is_dropped hn) eqn:E; [done|]. apply bind_Some in Hd as (v' & Hv & [= <- <-]).
    unfold is_dropped in E. rewrite !orb_false_iff, !bool_decide_eq_false, name_str_lower in E. naive_solver.
  - intros (Hd & Hk & Hp & hn & hv & Hin & <- & Hv). exists (hn, hv). split; [done|]. cbn [fst snd].
    assert (is_dropped hn = false) as ->.
    { unfold is_dropped. by rewrite !orb_false_iff, !bool_decide_eq_false, name_str_lower. }
    by rewrite Hv.
Qed.

(** C38: what the proxy sends on. A request without the session token is refused, whatever it
    holds, and nothing is sent. A request that is sent on goes to the declared upstream, whatever
    its path says, and its body is the JSON body that the rules left. Its headers are those that
    the rules left and whose value is text, but for these nine: Host and Content-Length, which the
    client sets itself, Connection, Transfer-Encoding, TE, Upgrade, Proxy-Authorization,
    Keep-Alive, and the token's own. Every other header is sent on, also Trailer, Proxy-Connection
    and the ones that Connection names. *)
Theorem handle_correct capacity (req : Request) (upstream : url) (rules : list ProxyRule) (token : string) :
  let token_sent := get_header (rq_headers req) "x-llmenv-launch-proxy-token" ≫= value_str in
  (handle capacity req upstream rules token = Some Unauthorized ↔ token_sent ≠ Some token) ∧
  ∀ method target headers body,
    handle capacity req upstream rules token = Some (Forward method target headers body) →
    origin target = origin upstream ∧ starts_with "//" (rq_path req) = false ∧
    ∃ bytes v h v', rq_body req = Some bytes ∧
      (bytes = "" ∧ v = JNull ∨ bytes ≠ "" ∧ json_parse bytes = Some v) ∧
      apply_rules capacity rules (rq_headers req) v = Some (h, v') ∧ body = json_text v' ∧
      ∀ name value, (name, value) ∈ headers ↔
        name ∉ ["host"; "content-length"; "connection"; "transfer-encoding"; "te"; "upgrade";
                "proxy-authorization"; "keep-alive"; "x-llmenv-launch-proxy-token"] ∧
        ∃ hn hv, (hn, hv) ∈ headers_list h ∧ name_str hn = name ∧ value_str hv = Some value.
Proof.
  intros sent. unfold handle.
  assert (Hp : peer_authorized (rq_headers req) token = true ↔ sent = Some token).
  { unfold peer_authorized. change PEER_AUTH_HEADER with "x-llmenv-launch-proxy-token". fold sent.
    destruct sent as [v|]; [|done]. rewrite constant_time_eq_correct. naive_solver. }
  destruct (peer_authorized (rq_headers req) token) eqn:Ea; [|split; [naive_solver|done]].
  split.
  { split; [|naive_solver]. intros Hu. exfalso. revert Hu.
    destruct (rq_body req) as [bytes|]; [|done]. destruct (if decide (bytes = "") then _ else _) as [v|]; [|done].
    destruct (apply_rules _ _ _ _) as [[h v']|]; [|done]. cbn. by destruct (starts_with _ _). }
  intros m t hs b Hf. destruct (rq_body req) as [bytes|] eqn:Eb; [|done].
  destruct (if decide (bytes = "") then _ else _) as [v|] eqn:Ev; [|done].
  destruct (apply_rules _ _ _ v) as [[h v']|] eqn:Er; [|done]. cbn in Hf.
  destruct (starts_with "//" (rq_path req)); [done|]. injection Hf as <- <- <- <-.
  rewrite origin_set_query, origin_set_path. split_and!; [done|done|].
  exists bytes, v, h, v'. split_and!; try done; [case_decide; naive_solver|].
  intros n x. rewrite forwarded_headers_spec. unfold dropped_headers, PEER_AUTH_HEADER. set_solver.
Qed.
End laws.
