(* ===== verification/Wildcard.v ===== *)
(** * Wildcard patterns of permission rules (src/adapter/opencode/permissions.rs)

    [*] stands for any run of characters, [?] for one. The matcher, the test whether two
    patterns share an input, and the test whether one pattern covers another, each against
    the language of a pattern, [denotes]. *)

From S2P Require Import Prelude RustStr.

(** ** The matcher *)

(** The loop of [glob_matches]: the rest of the pattern and of the input at [p] and [i]. The
    last star is kept as the pattern after it and the input at [resume]. *)
Fixpoint glob_loop (fuel : nat) (pat input : list string) (star : option (list string * list string))
  : bool :=
  match fuel with
  | 0 => false
  | S fuel =>
    match input with
    | [] => forallb (λ c, bool_decide (c = "*")) pat
    | x :: input' =>
      let backtrack :=
        match star with
        | Some (after_star, _ :: resume) => glob_loop fuel after_star resume (Some (after_star, resume))
        | _ => false
        end in
      match pat with
      | [] => backtrack
      | c :: pat' =>
        if decide (c = "*") then glob_loop fuel pat' input (Some (pat', input))
        else if decide (c = "?" ∨ c = x) then glob_loop fuel pat' input' star
        else backtrack
      end
    end
  end.
(** Each turn but a backtrack moves forward in the pattern, and each backtrack moves [resume]
    forward, so this fuel is enough. *)
Definition glob_fuel (pat input : list string) : nat := S (S (length pat) * S (length input)).
Definition glob_matches (pattern : string) (input : list string) : bool :=
  glob_loop (glob_fuel (chars pattern) input) (chars pattern) input None.

(** [replace('\\', "/")]. *)
Definition to_slashes : string → string := string_map (λ c, if Ascii.eqb c "\" then "/"%char else c).

Definition wildcard_matches (pattern input : string) : bool :=
  let normalized := chars (to_slashes input) in
  let pattern := to_slashes pattern in
  match strip_suffix " *" pattern with
  | Some prefix => glob_matches prefix normalized || glob_matches pattern normalized
  | None => glob_matches pattern normalized
  end.

(** ** Overlap *)

Definition all_stars (p : list string) : bool := forallb (λ c, bool_decide (c = "*")) p.

(** The rows of the table [reachable], from the last one up: [row a b] holds the cells for
    each suffix of [b]. [row_step] fills a row right to left from the one below it. *)
Fixpoint row_step (a : list string) (x : string) (b : list string) (below : list bool) : list bool :=
  match b, below with
  | [], _ => [all_stars a]
  | y :: b, down :: below =>
    let right := row_step a x b below in
    let cell :=
      if decide (x = "*") then down || default false (head right)
      else if decide (y = "*") then default false (head right) || down
      else bool_decide (x = "?" ∨ y = "?" ∨ x = y) && default false (head below) in
    cell :: right
  | _ :: _, [] => []
  end.
Fixpoint last_row (b : list string) : list bool :=
  match b with
  | [] => [true]
  | y :: b' => all_stars b :: last_row b'
  end.
Fixpoint row (a b : list string) : list bool :=
  match a with
  | [] => last_row b
  | x :: a' => row_step a x b (row a' b)
  end.
Definition globs_intersect (a b : string) : bool := default false (head (row (chars a) (chars b))).

Definition spellings (pattern : string) : list string :=
  let pattern := to_slashes pattern in
  match strip_suffix " *" pattern with
  | Some prefix => [prefix; pattern]
  | None => [pattern]
  end.
Definition patterns_overlap (a b : string) : bool :=
  existsb (λ x, existsb (λ y, globs_intersect x y) (spellings b)) (spellings a).

(** ** Cover *)

Definition SENTINEL : string := chr "001".
Definition witness_char (run : nat) (c : string) : list string :=
  if decide (c = "*") then replicate run SENTINEL
  else if decide (c = "?") then [SENTINEL] else [c].
Definition probe (run : nat) (narrow : string) : string :=
  of_chars (chars narrow ≫= witness_char run).
Definition pattern_subsumes (broad narrow : string) : bool :=
  let widest := length (filter (λ c, c = "?") (chars broad)) + 1 in
  forallb (λ run, wildcard_matches broad (probe run narrow)) [0; 1; widest].

(** ** What a pattern means *)

Fixpoint denotes (p s : list string) : Prop :=
  match p with
  | [] => s = []
  | c :: p =>
    if decide (c = "*") then ∃ a b, s = a ++ b ∧ denotes p b
    else ∃ x b, s = x :: b ∧ (c = "?" ∨ c = x) ∧ denotes p b
  end.

Lemma denotes_nil p : denotes p [] ↔ all_stars p = true.
Proof.
  induction p as [|c p IH]; [done|]. cbn. rewrite andb_true_iff, bool_decide_eq_true.
  case_decide as Hc; [|naive_solver]. rewrite <-IH. split.
  - intros (a & b & E & H). symmetry in E. apply app_nil in E as [-> ->]. done.
  - intros [_ H]. exists [], []. done.
Qed.

Lemma denotes_star p s : denotes ("*" :: p) s ↔ ∃ a b, s = a ++ b ∧ denotes p b.
Proof. done. Qed.
Lemma denotes_one c p s : c ≠ "*" →
  denotes (c :: p) s ↔ ∃ x b, s = x :: b ∧ (c = "?" ∨ c = x) ∧ denotes p b.
Proof. intros Hc. cbn. by rewrite decide_False. Qed.

(** A part without stars takes as many characters as it is long. *)
Lemma denotes_app_plain m q s : "*" ∉ m → denotes (m ++ q) s →
  ∃ s1 s2, s = s1 ++ s2 ∧ length s1 = length m ∧ denotes q s2.
Proof.
  revert s. induction m as [|c m IH]; intros s Hm H; [by exists [], s|].
  cbn [app] in H. rewrite not_elem_of_cons in Hm. destruct Hm as [Hc Hm].
  apply denotes_one in H as (x & b & -> & _ & H); [|done].
  destruct (IH b Hm H) as (s1 & s2 & -> & Hl & H'). exists (x :: s1), s2. cbn. auto.
Qed.

(** What the loop still has to find: the rest of the input, or the input after the star from a
    later place on. *)
Definition loop_goal (pat input : list string) (star : option (list string * list string)) : Prop :=
  denotes pat input ∨
  match star with
  | Some (after_star, resume) =>
      ∃ y w r, resume = y :: w ++ r ∧ denotes after_star r
  | None => False
  end.
Definition loop_inv (pat input : list string) (star : option (list string * list string)) : Prop :=
  match star with
  | Some (after_star, resume) =>
      ∃ m w, after_star = m ++ pat ∧ resume = w ++ input ∧ length m = length w ∧ "*" ∉ m
  | None => True
  end.
Definition loop_fuel (n : nat) (pat input : list string) (star : option (list string * list string)) : nat :=
  S (length pat) + S n * match star with Some (_, resume) => length resume | None => length input end.

Lemma loop_goal_later pat input after_star resume :
  loop_inv pat input (Some (after_star, resume)) →
  (∃ y w r, resume = y :: w ++ r ∧ denotes after_star r) →
  ∃ y w r, input = y :: w ++ r ∧ denotes pat r.
Proof.
  intros (m & w & -> & -> & Hl & Hm) (y & w' & r & E & Hd).
  apply denotes_app_plain in Hd as (s1 & s2 & -> & Hl' & Hd); [|done].
  assert (Hi : ∃ u, input = u ++ s2 ∧ u ≠ []).
  { assert (El : w ++ input = (y :: w' ++ s1) ++ s2) by (rewrite E; by simplify_list_eq).
    apply app_eq_inv in El as [(k & E1 & E2)|(k & E1 & E2)].
    - exfalso. apply (f_equal length) in E1. rewrite length_app in E1. cbn in E1. rewrite length_app in E1. lia.
    - exists k. split; [done|]. intros ->. apply (f_equal length) in E1. cbn in E1.
      rewrite !length_app in E1. cbn in E1. lia. }
  destruct Hi as ([|z u] & -> & Hu); [done|]. by exists z, u, s2.
Qed.

Lemma loop_inv_start p i : loop_inv p i (Some (p, i)).
Proof. exists [], []. split_and!; [done..|apply not_elem_of_nil]. Qed.

Lemma glob_loop_spec n fuel pat input star :
  loop_inv pat input star → length pat ≤ n →
  match star with Some (after_star, _) => length after_star ≤ n | None => True end →
  loop_fuel n pat input star ≤ fuel →
  glob_loop fuel pat input star = true ↔ loop_goal pat input star.
Proof.
  revert pat input star. induction fuel as [|fuel IH]; intros pat input star Hinv Hp Hs Hf.
  { unfold loop_fuel in Hf. lia. }
  cbn [glob_loop]. destruct input as [|x input].
  { change (forallb _ pat) with (all_stars pat). rewrite <-denotes_nil. unfold loop_goal.
    split; [by left|]. intros [?|H]; [done|]. destruct star as [[as_ r]|]; [|done].
    eapply loop_goal_later in H; [|done]. by destruct H as (? & ? & ? & ? & _). }
  set (backtrack := match star with Some (as_, _ :: r) => _ | _ => false end).
  assert (Hback : backtrack = true ↔
    match star with Some (as_, r) => ∃ y w r', r = y :: w ++ r' ∧ denotes as_ r' | None => False end).
  { subst backtrack. destruct star as [[as_ [|y r]]|]; [|..|done].
    { split; [done|]. by intros (? & ? & ? & ? & _). }
    rewrite IH; [|apply loop_inv_start|done|done|unfold loop_fuel in *; cbn in Hf; cbn; nia].
    unfold loop_goal. split.
    - intros [H|(z & w & r' & -> & H)]; [by exists y, [], r|by exists y, (z :: w), r'].
    - intros (z & w & r' & [= <- ->] & H). destruct w as [|z w]; [by left|right; by exists z, w, r']. }
  clearbody backtrack. destruct pat as [|c pat].
  { rewrite Hback. unfold loop_goal. split; [by right|]. by intros [?|?]. }
  cbn in Hp. case_decide as Hc; [|case_decide as Hx].
  - subst c. rewrite IH; [|apply loop_inv_start|lia|cbn in *; lia|].
    2: { unfold loop_fuel in *. destruct star as [[as_ r]|]; cbn in *; [|nia].
         destruct Hinv as (m & w & _ & -> & _). rewrite length_app in Hf. cbn in Hf. nia. }
    unfold loop_goal. rewrite denotes_star. split.
    + intros [H|(y & w & r & -> & H)]; left; [by exists [], (x :: input)|by exists (y :: w), r].
    + intros [(a & b & E & H)|H].
      * destruct a as [|y a]; [left; by rewrite E|right; exists y, a, b; by rewrite E].
      * destruct star as [[as_ r]|]; [|done]. eapply loop_goal_later in H; [|done].
        destruct H as (y & w & r' & E & H). apply denotes_star in H as (a & b & -> & H).
        right. exists y, (w ++ a), b. split; [by rewrite E, app_assoc|done].
  - rewrite IH; [| |lia|done|].
    2: { destruct star as [[as_ r]|]; [|done]. destruct Hinv as (m & w & -> & -> & Hl & Hm).
         exists (m ++ [c]), (w ++ [x]). rewrite !length_app, <-!app_assoc, not_elem_of_app, not_elem_of_cons.
         split_and!; try done; [cbn; lia|apply not_elem_of_nil]. }
    2: { unfold loop_fuel in *. destruct star as [[as_ r]|]; cbn in *; nia. }
    unfold loop_goal. rewrite denotes_one by done. naive_solver.
  - rewrite Hback. unfold loop_goal. rewrite denotes_one by done. naive_solver.
Qed.

Lemma glob_matches_denotes pattern input : glob_matches pattern input = true ↔ denotes (chars pattern) input.
Proof.
  unfold glob_matches. rewrite (glob_loop_spec (length (chars pattern))); [|done..|].
  - unfold loop_goal. naive_solver.
  - unfold loop_fuel, glob_fuel. nia.
Qed.

(** The pattern as it is, or without a last [" *"]. *)
Lemma elem_of_spellings q p :
  q ∈ spellings p ↔ q = to_slashes p ∨ to_slashes p = q +:+ " *".
Proof.
  unfold spellings. pose proof (strip_suffix_Some " *" (to_slashes p)) as H.
  destruct (strip_suffix " *" (to_slashes p)) as [prefix|].
  - rewrite !elem_of_cons, elem_of_nil. rewrite <-H. naive_solver.
  - rewrite elem_of_cons, elem_of_nil. naive_solver.
Qed.

Lemma wildcard_matches_spec pattern input :
  wildcard_matches pattern input = true ↔
  ∃ q, q ∈ spellings pattern ∧ denotes (chars q) (chars (to_slashes input)).
Proof.
  unfold wildcard_matches, spellings. destruct (strip_suffix " *" (to_slashes pattern)) as [prefix|].
  - rewrite orb_true_iff, !glob_matches_denotes. set_solver.
  - rewrite glob_matches_denotes. set_solver.
Qed.

(** The matcher decides the language of a pattern: an input matches exactly when some
    spelling of the pattern, with stars for runs of characters and question marks for single
    ones, denotes it. The search with one remembered star always ends and misses nothing. *)
Theorem wildcard_matches_correct (pattern input : string) :
  (∀ p i, glob_matches p i = true ↔ denotes (chars p) i) ∧
  (wildcard_matches pattern input = true ↔
   denotes (chars (to_slashes pattern)) (chars (to_slashes input)) ∨
   ∃ prefix, to_slashes pattern = prefix +:+ " *" ∧ denotes (chars prefix) (chars (to_slashes input))).
Proof.
  split; [intros p i; apply glob_matches_denotes|]. rewrite wildcard_matches_spec.
  setoid_rewrite elem_of_spellings. naive_solver.
Qed.

(** ** Overlap *)

Definition inter (a b : list string) : Prop := ∃ s, denotes a s ∧ denotes b s.
Lemma inter_sym a b : inter a b ↔ inter b a.
Proof. unfold inter. naive_solver. Qed.
Lemma inter_nil_r a : inter a [] ↔ all_stars a = true.
Proof. rewrite <-denotes_nil. unfold inter. cbn. naive_solver. Qed.

Lemma inter_star a y b : inter ("*" :: a) (y :: b) ↔ inter a (y :: b) ∨ inter ("*" :: a) b.
Proof.
  unfold inter. split.
  - intros (s & (u & v & -> & Hv)%denotes_star & Hs). destruct (decide (y = "*")) as [->|Hy].
    + apply denotes_star in Hs as (u' & v' & E & Hv'). apply app_eq_inv in E as [(k & -> & ->)|(k & -> & ->)].
      * right. exists (k ++ v). split; [|done]. apply denotes_star. by exists k, v.
      * left. exists (k ++ v'). split; [done|]. apply denotes_star. by exists k, v'.
    + apply denotes_one in Hs as (z & s' & E & Hz & Hs'); [|done]. destruct u as [|z' u].
      * left. exists v. split; [done|]. apply denotes_one; [done|]. exists z, s'. auto.
      * injection E as -> <-. right. exists (u ++ v). split; [|done]. apply denotes_star. by exists u, v.
  - intros [(s & Ha & Hb)|(s & Ha & Hb)].
    + exists s. split; [|done]. apply denotes_star. by exists [], s.
    + destruct (decide (y = "*")) as [->|Hy].
      * exists s. split; [done|]. apply denotes_star. by exists [], s.
      * exists (y :: s). split; [|apply denotes_one; [done|]; exists y, s; auto].
        apply denotes_star in Ha as (u & v & -> & Hv). apply denotes_star. by exists (y :: u), v.
Qed.
Lemma inter_one x a y b : x ≠ "*" → y ≠ "*" →
  inter (x :: a) (y :: b) ↔ (x = "?" ∨ y = "?" ∨ x = y) ∧ inter a b.
Proof.
  intros Hx Hy. unfold inter. setoid_rewrite (denotes_one x); [|done]. setoid_rewrite (denotes_one y); [|done].
  split; [naive_solver|]. intros (H & s & Ha & Hb).
  exists ((if decide (x = "?") then y else x) :: s).
  split; eexists _, s; (split; [done|]); (split; [|done]); case_decide; naive_solver.
Qed.

(** The cells of a row decide which suffixes of [b] share an input with [a]. *)
Fixpoint cells (a b : list string) (l : list bool) : Prop :=
  match b, l with
  | [], [v] => v = true ↔ inter a []
  | _ :: b', v :: l => (v = true ↔ inter a b) ∧ cells a b' l
  | _, _ => False
  end.
Lemma cells_head a b l : cells a b l → default false (head l) = true ↔ inter a b.
Proof. destruct b, l as [|v [|??]]; cbn; tauto. Qed.

Lemma last_row_cells b : cells [] b (last_row b).
Proof.
  induction b as [|y b IH]; cbn.
  - split; [|done]. intros _. by exists [].
  - split; [|done]. rewrite inter_sym. symmetry. apply inter_nil_r.
Qed.
Lemma row_step_cells x a b below : cells a b below → cells (x :: a) b (row_step (x :: a) x b below).
Proof.
  revert below. induction b as [|y b IH]; intros below H.
  - cbn [row_step cells]. symmetry. apply inter_nil_r.
  - destruct below as [|down below]; [done|]. destruct H as [Hd H]. cbn [row_step cells]. split; [|by apply IH].
    pose proof (cells_head _ _ _ (IH below H)) as Hr. apply cells_head in H.
    case_decide as Hx; [|case_decide as Hy].
    + subst x. by rewrite orb_true_iff, Hd, Hr, inter_star.
    + subst y. rewrite orb_true_iff, Hd, Hr, (inter_sym (x :: a) ("*" :: b)), inter_star.
      by rewrite (inter_sym b), (inter_sym ("*" :: b)).
    + by rewrite andb_true_iff, bool_decide_eq_true, H, inter_one.
Qed.
Lemma row_cells a b : cells a b (row a b).
Proof. induction a as [|x a IH]; [apply last_row_cells|by apply row_step_cells]. Qed.

Lemma globs_intersect_spec a b : globs_intersect a b = true ↔ inter (chars a) (chars b).
Proof. apply cells_head, row_cells. Qed.

(** A text of the language whose characters come from the pattern, or are an [a]. *)
Lemma denotes_map f p s : (∀ c, c ∈ p → f c = c) → denotes p s → denotes p (f <$> s).
Proof.
  revert s. induction p as [|c p IH]; intros s Hf H; [by rewrite (H : s = [])|].
  destruct (decide (c = "*")) as [->|Hc].
  - apply denotes_star in H as (u & v & -> & H). rewrite fmap_app. apply denotes_star.
    eexists _, _. split; [done|]. apply IH; [set_solver|done].
  - apply denotes_one in H as (x & v & -> & Hx & H); [|done]. apply denotes_one; [done|].
    eexists _, _. split; [done|]. split; [|apply IH; [set_solver|done]].
    destruct Hx as [?|<-]; [by left|right]. symmetry. apply Hf. set_solver.
Qed.

Definition no_backslash (s : string) : bool := str_all (λ c, negb (Ascii.eqb c "\")) s.
Global Instance is_char_dec x : Decision (is_char x).
Proof.
  destruct x as [|c r]; [right; by intros (? & ? & ? & _)|].
  destruct (decide (is_continuation c = false ∧ str_all is_continuation r = true)) as [[??]|Hn]; [left|right].
  - by exists c, r.
  - intros (c' & r' & [= -> ->] & ?). tauto.
Defined.

Lemma to_slashes_id s : no_backslash s = true → to_slashes s = s.
Proof.
  unfold no_backslash, to_slashes. induction s as [|c s IH]; [done|]. cbn.
  destruct (Ascii.eqb c "\"); [done|]. intros H. by rewrite IH.
Qed.
Lemma no_backslash_to_slashes s : no_backslash (to_slashes s) = true.
Proof.
  unfold no_backslash, to_slashes. rewrite str_all_map. induction s as [|c s IH]; [done|]. cbn. rewrite IH.
  destruct (Ascii.eqb c "\") eqn:E; [done|]. by rewrite E.
Qed.
Lemma no_backslash_of_chars l : no_backslash (of_chars l) = true ↔ Forall (λ x, no_backslash x = true) l.
Proof.
  induction l as [|x l IH]; [done|]. rewrite of_chars_cons, Forall_cons, <-IH. unfold no_backslash.
  by rewrite str_all_app, andb_true_iff.
Qed.
Lemma starts_to_slashes s : starts_char (to_slashes s) = starts_char s.
Proof. destruct s as [|c s]; [done|]. cbn. by destruct (Ascii.eqb_spec c "\") as [->|]. Qed.

Lemma spelling_chars p q : starts_char p = true → q ∈ spellings p →
  Forall (λ c, is_char c ∧ no_backslash c = true) (chars q).
Proof.
  intros Hp Hq. apply Forall_and. split.
  - apply chars_is_char. rewrite elem_of_spellings, <-(starts_to_slashes p) in *.
    destruct Hq as [->|E]; [done|]. rewrite E in Hp. by destruct q.
  - rewrite <-no_backslash_of_chars, of_chars_chars. pose proof (no_backslash_to_slashes p) as H.
    rewrite elem_of_spellings in Hq. destruct Hq as [->|E]; [done|]. rewrite E in H. unfold no_backslash in *.
    rewrite str_all_app, andb_true_iff in H. tauto.
Qed.

Lemma matched_overlap a b input :
  wildcard_matches a input = true → wildcard_matches b input = true → patterns_overlap a b = true.
Proof.
  rewrite !wildcard_matches_spec. intros (x & Hx & Hs) (y & Hy & Hs'). unfold patterns_overlap.
  apply existsb_exists. exists x. split; [by apply list_elem_of_In|].
  apply existsb_exists. exists y. split; [by apply list_elem_of_In|].
  apply globs_intersect_spec. by eexists.
Qed.

(** Two patterns overlap exactly when some input matches both. *)
Theorem patterns_overlap_correct (a b : string) :
  starts_char a = true → starts_char b = true →
  patterns_overlap a b = true ↔
  ∃ input, wildcard_matches a input = true ∧ wildcard_matches b input = true.
Proof.
  intros Ha Hb. split; [|intros (input & Ha' & Hb'); by eapply matched_overlap].
  unfold patterns_overlap. setoid_rewrite wildcard_matches_spec.
  rewrite existsb_exists. setoid_rewrite existsb_exists. setoid_rewrite <-list_elem_of_In.
  setoid_rewrite globs_intersect_spec. intros (x & Hx & y & Hy & s & Hs & Hs').
  pose proof (spelling_chars _ _ Ha Hx) as Hcx. pose proof (spelling_chars _ _ Hb Hy) as Hcy.
  rewrite Forall_forall in Hcx, Hcy.
  set (f := λ c : string, if decide (is_char c ∧ no_backslash c = true) then c else "a").
  assert (Hf : Forall (λ c, is_char c ∧ no_backslash c = true) (f <$> s)).
  { apply Forall_fmap, Forall_true. intros c. unfold compose, f. case_decide; [done|].
    split; [by exists "a"%char, ""|done]. }
  apply Forall_and in Hf as [Hf1 Hf2].
  exists (of_chars (f <$> s)).
  rewrite to_slashes_id by (by apply no_backslash_of_chars). rewrite (proj1 (chars_of_chars _ Hf1)).
  split; [exists x|exists y]; (split; [done|]); apply denotes_map; try done;
    intros c Hc; unfold f; rewrite decide_True; auto.
Qed.

(** ** Cover *)

Lemma chars_to_slashes s : chars (to_slashes s) = to_slashes <$> chars s.
Proof. apply chars_map. intros c. by destruct (Ascii.eqb_spec c "\") as [->|]. Qed.
Lemma to_slashes_of_chars l : to_slashes (of_chars l) = of_chars (to_slashes <$> l).
Proof.
  induction l as [|x l IH]; [done|]. cbn [fmap list_fmap]. rewrite !of_chars_cons, <-IH.
  unfold to_slashes. induction x as [|c x IHx]; [done|]. rewrite !str_app_cons. cbn [string_map].
  by rewrite str_app_cons, IHx.
Qed.

Lemma to_slashes_is c d : is_char c → to_slashes c = d → d = "*" ∨ d = "?" → c = d.
Proof.
  intros (a & r & -> & _ & _) <- Hd. unfold to_slashes in *. cbn in *.
  destruct (Ascii.eqb_spec a "\") as [->|]; [by destruct Hd|]. by destruct r, Hd.
Qed.

Lemma probe_denotes run l : Forall is_char l →
  denotes (to_slashes <$> l) (to_slashes <$> (l ≫= witness_char run)).
Proof.
  induction 1 as [|c l Hc Hl IH]; [done|]. change ((c :: l) ≫= witness_char run) with
    (witness_char run c ++ (l ≫= witness_char run)). rewrite fmap_app. cbn [fmap list_fmap].
  unfold witness_char at 1. case_decide as H1; [subst c|case_decide as H2; [subst c|]].
  - apply denotes_star. eexists _, _. split; [done|exact IH].
  - apply denotes_one; [done|]. eexists _, _. split; [done|]. split; [by left|exact IH].
  - apply denotes_one; [intros E; apply H1; apply to_slashes_is; auto|].
    eexists _, _. split; [done|]. split; [by right|exact IH].
Qed.
Lemma witness_is_char run l : Forall is_char l → Forall is_char (l ≫= witness_char run).
Proof.
  intros Hl. rewrite Forall_forall in *. intros x (c & Hx & Hc)%list_elem_of_bind. unfold witness_char in Hx.
  assert (Hs : is_char SENTINEL) by (by exists "001"%char, "").
  repeat case_decide; [|set_solver..]. by apply elem_of_replicate in Hx as [-> _].
Qed.

Lemma probe_matches run narrow : starts_char narrow = true → wildcard_matches narrow (probe run narrow) = true.
Proof.
  intros Hn. apply wildcard_matches_spec. exists (to_slashes narrow). split; [apply elem_of_spellings; by left|].
  unfold probe. rewrite !chars_to_slashes. pose proof (chars_is_char _ Hn) as Hc.
  rewrite (proj1 (chars_of_chars _ (witness_is_char run _ Hc))). by apply probe_denotes.
Qed.

(** The test never misses a pattern that covers another: when every input of [narrow]
    matches [broad], [pattern_subsumes] says so. *)
Theorem pattern_subsumes_complete (broad narrow : string) :
  starts_char narrow = true →
  (∀ input, wildcard_matches narrow input = true → wildcard_matches broad input = true) →
  pattern_subsumes broad narrow = true.
Proof.
  intros Hn H. unfold pattern_subsumes. apply forallb_forall. intros run _.
  apply H. by apply probe_matches.
Qed.

(** The converse does not hold, although the lengths of the probes are meant to guard it:
    here the test says that the first pattern covers the second, and it does not. *)
Example pattern_subsumes_too_often :
  pattern_subsumes "*?ab*" "*abxa*b" = true ∧
  wildcard_matches "*abxa*b" "abxaSb" = true ∧ wildcard_matches "*?ab*" "abxaSb" = false.
Proof. vm_compute. auto. Qed.
