(* ===== verification/Permissions.v ===== *)
(** * Permission rules for opencode (src/adapter/opencode/permissions.rs, src/adapter/tools.rs)

    The permission rules of the configuration become one ordered list, and opencode applies the
    last rule that matches. [render] builds the list and refuses a pair of rules whose order
    would invert what the user wrote. *)

From S2P Require Import Prelude RustStr Wildcard.

(** ** Tools *)

Inductive ToolMapping :=
| Renamed (key : string)
| Closest (key : string)
| Unsupported.
Definition tool_key (m : ToolMapping) : option string :=
  match m with Renamed key | Closest key => Some key | Unsupported => None end.

Record NeutralTool := mkTool { nt_name : string; nt_opencode : ToolMapping; nt_crush : ToolMapping }.

(** The table, without the notes for the documentation. *)
Definition NEUTRAL_TOOLS : list NeutralTool :=
  [mkTool "Bash" (Renamed "shell") (Renamed "bash");
   mkTool "Read" (Renamed "read") (Renamed "view");
   mkTool "Edit" (Renamed "edit") (Closest "edit");
   mkTool "Write" (Closest "edit") (Renamed "write");
   mkTool "MultiEdit" (Closest "edit") (Closest "multiedit");
   mkTool "Glob" (Renamed "glob") (Renamed "glob");
   mkTool "Grep" (Renamed "grep") (Renamed "grep");
   mkTool "LS" Unsupported (Renamed "ls");
   mkTool "WebFetch" (Renamed "webfetch") (Renamed "fetch");
   mkTool "WebSearch" (Renamed "websearch") Unsupported;
   mkTool "TodoWrite" Unsupported (Renamed "todos");
   mkTool "Task" (Renamed "subagent") (Renamed "agent");
   mkTool "AskUserQuestion" (Renamed "question") (Renamed "question");
   mkTool "NotebookEdit" Unsupported Unsupported;
   mkTool "Skill" (Renamed "skill") Unsupported].

Definition lookup_tool (neutral : string) : option NeutralTool :=
  find_first (λ t, nt_name t = neutral) NEUTRAL_TOOLS.
Definition is_known (neutral : string) : bool := bool_decide (is_Some (lookup_tool neutral)).
Definition opencode_key (neutral : string) : option string :=
  t ← lookup_tool neutral; tool_key (nt_opencode t).
Definition crush_key (neutral : string) : option string :=
  t ← lookup_tool neutral; tool_key (nt_crush t).
Definition neutral_for_crush (crush_tool : string) : option string :=
  nt_name <$> find_first (λ t, tool_key (nt_crush t) = Some crush_tool) NEUTRAL_TOOLS.

(** ** Rules (crates/llmenv-config/src/schema.rs) *)

Record PermissionRule := mkPermRule {
  pm_tool : string; pm_pattern : option string; pm_paths : list string }.
Inductive PermissionMode := AcceptEdits | Plan | DefaultMode | BypassPermissions | Auto | DontAsk | Manual.
Inductive PermissionPreset := SafeReadonly.
Record Permissions := mkPermissions {
  p_default_mode : option PermissionMode; p_preset : option PermissionPreset;
  p_allow : list PermissionRule; p_ask : list PermissionRule; p_deny : list PermissionRule }.
Record NativePermissionRules := mkNative {
  n_allow : list string; n_ask : list string; n_deny : list string }.

Record Rule := mkOcRule { r_action : string; r_resource : string; r_effect : string }.
Global Instance Rule_eq_dec : EqDecision Rule.
Proof. solve_decision. Defined.

Inductive permission_error :=
| SpacedTool (action rule tool : string)
| EmptyRule (action : string)
| NoToolName (action rule : string)
| EmptyPattern (action rule : string)
| TextAfter (action rule : string)
| UnbalancedParens (action rule : string)
| Inverted (early late : Rule) (remedy : string).

(** ** From rules to patterns *)

Definition normalize_action (key : string) : string :=
  if decide (key = "write" ∨ key = "patch") then "edit"
  else if decide (key = "task") then "subagent"
  else if decide (key = "bash") then "shell"
  else key.

Definition rule_to_patterns (rule : PermissionRule) : list (string * string) :=
  match opencode_key (pm_tool rule) with
  | None => []
  | Some tool =>
    match pm_pattern rule with
    | Some pat => [(tool, pat)]
    | None =>
      if decide (pm_paths rule = []) then [(tool, "*")] else (λ p, (tool, p)) <$> pm_paths rule
    end
  end.

Definition native_tool (s : string) : string := normalize_action (to_ascii_lowercase (trim s)).
Definition reject_spaced_tool (tool rule action : string) : result permission_error unit :=
  if has_whitespace tool then Err (SpacedTool action rule tool) else Ok tt.

Definition ensure {E} (b : bool) (e : E) : result E unit := if b then Ok tt else Err e.

(** [parse_native_rule]: [find('(')] and [rfind(')')] cut the rule; they are in the wrong
    order when the last [)] is before the first [(]. *)
Definition parse_native_rule (s action : string) : result permission_error (string * string) :=
  if negb (str_contains_char "(" s) && negb (str_contains_char ")" s) then
    let tool := native_tool s in
    ensure (negb (bool_decide (tool = ""))) (EmptyRule action) ≫= λ _,
    reject_spaced_tool tool s action ≫= λ _,
    Ok (tool, "*")
  else
    match split_once "(" s with
    | Some (before, after) =>
      match rsplit_once ")" after with
      | Some (pattern, rest) =>
        let tool := native_tool before in
        ensure (negb (bool_decide (tool = ""))) (NoToolName action s) ≫= λ _,
        reject_spaced_tool tool s action ≫= λ _,
        ensure (negb (bool_decide (pattern = ""))) (EmptyPattern action s) ≫= λ _,
        ensure (bool_decide (trim rest = "")) (TextAfter action s) ≫= λ _,
        Ok (tool, pattern)
      | None => Err (UnbalancedParens action s)
      end
    | None => Err (UnbalancedParens action s)
    end.

(** ** The map: tool, then pattern, then effect *)

Notation permission_map := (gmap string (gmap string string)).

Definition insert_pattern (action : string) (m : permission_map) (tp : string * string) : permission_map :=
  <[tp.1 := <[tp.2 := action]> (default ∅ (m !! tp.1))]> m.
Definition insert_patterns (m : permission_map) (l : list (string * string)) (action : string)
  : permission_map := foldl (insert_pattern action) m l.

Fixpoint collect {E A B} (f : A → result E B) (l : list A) : result E (list B) :=
  match l with
  | [] => Ok []
  | a :: l => f a ≫= λ b, collect f l ≫= λ bs, Ok (b :: bs)
  end.

(** One tier: the structured rules, then the native ones. *)
Definition insert_tier (m : permission_map) (action : string) (structured : list PermissionRule)
    (native : option (list string)) : result permission_error permission_map :=
  let m := insert_patterns m (structured ≫= rule_to_patterns) action in
  match native with
  | None => Ok m
  | Some n => collect (λ s, parse_native_rule s action) n ≫= λ l, Ok (insert_patterns m l action)
  end.

Definition build_map (perms : Permissions) (native : option NativePermissionRules)
  : result permission_error permission_map :=
  insert_tier ∅ "allow" (p_allow perms) (n_allow <$> native) ≫= λ m,
  insert_tier m "ask" (p_ask perms) (n_ask <$> native) ≫= λ m,
  insert_tier m "deny" (p_deny perms) (n_deny <$> native).

(** The rules in the order of the map, which is the order of the list. *)
Definition rules_of (m : permission_map) : list Rule :=
  btree_entries m ≫= λ tp, (λ pe, mkOcRule tp.1 pe.1 pe.2) <$> btree_entries tp.2.

(** ** The check of the order *)

Definition render_rule (tool pattern : string) : string :=
  if decide (pattern = "*") then "`" +:+ tool +:+ "`" else "`" +:+ tool +:+ "(" +:+ pattern +:+ ")`".

Definition ordering_remedy (early_tool early_pat late_tool late_pat : string) : string :=
  if decide (early_tool = late_tool) then
    "Rewrite " +:+ render_rule late_tool late_pat +:+ " so it only covers what " +:+
    render_rule early_tool early_pat +:+ " does not, or give the two the same action."
  else
    "Move " +:+ render_rule early_tool early_pat +:+ " onto the `" +:+ late_tool +:+
    "` key so it sorts after " +:+ render_rule late_tool late_pat +:+
    " — e.g. `native_permissions.opencode` rule " +:+ render_rule late_tool early_pat +:+
    " — or give the two the same action.".

Definition inverts (early late : Rule) : bool :=
  bool_decide (r_effect late ≠ r_effect early) &&
  patterns_overlap (r_action early) (r_action late) &&
  patterns_overlap (r_resource early) (r_resource late) &&
  negb (pattern_subsumes (r_action early) (r_action late) &&
        pattern_subsumes (r_resource early) (r_resource late)).

Fixpoint check_rules (rules : list Rule) : result permission_error unit :=
  match rules with
  | [] => Ok tt
  | early :: rules =>
    match find_first (λ late, inverts early late = true) rules with
    | Some late =>
      Err (Inverted early late
        (ordering_remedy (r_action early) (r_resource early) (r_action late) (r_resource late)))
    | None => check_rules rules
    end
  end.
Definition check_rule_ordering (m : permission_map) : result permission_error unit :=
  check_rules (rules_of m).

Definition render (perms : Permissions) (native : option NativePermissionRules)
  : result permission_error (option (list Rule)) :=
  build_map perms native ≫= λ m,
  if decide (m = ∅) then Ok None
  else check_rule_ordering m ≫= λ _, Ok (Some (rules_of m)).

(** ** What the list should hold *)

(** The pairs one tier asks for, and the strongest effect asked for a pair. *)
Definition pairs_of (action : string) (structured : list PermissionRule) (native : option (list string))
  : list (string * string) :=
  (structured ≫= rule_to_patterns) ++
  (default [] native ≫= λ s, match parse_native_rule s action with Ok p => [p] | Err _ => [] end).
Definition asked (perms : Permissions) (native : option NativePermissionRules) (effect : string)
    (p : string * string) : Prop :=
  (effect = "allow" ∧ p ∈ pairs_of "allow" (p_allow perms) (n_allow <$> native)) ∨
  (effect = "ask" ∧ p ∈ pairs_of "ask" (p_ask perms) (n_ask <$> native)) ∨
  (effect = "deny" ∧ p ∈ pairs_of "deny" (p_deny perms) (n_deny <$> native)).
Definition strongest (perms : Permissions) (native : option NativePermissionRules) (p : string * string)
    (effect : string) : Prop :=
  asked perms native effect p ∧
  (effect = "allow" → ¬ asked perms native "ask" p) ∧ (effect ≠ "deny" → ¬ asked perms native "deny" p).

(** How opencode picks a rule: the last one whose two patterns match. *)
Definition rule_matches (tool input : string) (r : Rule) : bool :=
  wildcard_matches (r_action r) tool && wildcard_matches (r_resource r) input.
Definition narrower (r broad : Rule) : Prop :=
  pattern_subsumes (r_action broad) (r_action r) = true ∧
  pattern_subsumes (r_resource broad) (r_resource r) = true.

(** ** The map *)

Definition effect_at (m : permission_map) (p : string * string) : option string := ps ← m !! p.1; ps !! p.2.

Lemma effect_at_empty p : effect_at ∅ p = None.
Proof. unfold effect_at. by rewrite lookup_empty. Qed.
Lemma insert_pattern_at action m q p :
  effect_at (insert_pattern action m q) p = if decide (p = q) then Some action else effect_at m p.
Proof.
  destruct p as [t r], q as [t' r']. unfold effect_at, insert_pattern. cbn [fst snd].
  destruct (decide (t = t')) as [->|Ht].
  - rewrite lookup_insert_eq. cbn [mbind option_bind]. destruct (decide (r = r')) as [->|Hr].
    + by rewrite lookup_insert_eq, decide_True.
    + rewrite lookup_insert_ne, decide_False by congruence. by destruct (m !! t'); [|apply lookup_empty].
  - by rewrite lookup_insert_ne, decide_False by congruence.
Qed.
Lemma insert_patterns_at l action m p :
  effect_at (insert_patterns m l action) p = if decide (p ∈ l) then Some action else effect_at m p.
Proof.
  unfold insert_patterns. revert m. induction l as [|q l IH]; intros m.
  - cbn [foldl]. by rewrite decide_False by apply not_elem_of_nil.
  - cbn [foldl]. rewrite IH, insert_pattern_at. repeat case_decide; set_solver.
Qed.

Lemma collect_ok {E A B} (f : A → result E B) l bs : collect f l = Ok bs →
  bs = l ≫= λ a, match f a with Ok b => [b] | Err _ => [] end.
Proof.
  revert bs. induction l as [|a l IH]; intros bs; cbn [collect]; [by intros [=]|].
  intros (b & Hb & (bs' & Hbs & [=<-])%result_bind_ok)%result_bind_ok. cbn. rewrite Hb. cbn. f_equal. by apply IH.
Qed.
Lemma collect_err {E A B} (f : A → result E B) l e : collect f l = Err e → ∃ a, a ∈ l ∧ f a = Err e.
Proof.
  induction l as [|a l IH]; cbn [collect]; [done|]. destruct (f a) as [b|e'] eqn:Hf; cbn.
  - destruct (collect f l); cbn; [done|]. intros [=->]. destruct IH as (a' & ? & ?); [done|]. exists a'. set_solver.
  - intros [=->]. exists a. set_solver.
Qed.

Lemma insert_tier_at m action structured native m' : insert_tier m action structured native = Ok m' →
  ∀ p, effect_at m' p = if decide (p ∈ pairs_of action structured native) then Some action else effect_at m p.
Proof.
  unfold insert_tier, pairs_of. destruct native as [n|]; cbn [default].
  - intros (l & ->%collect_ok & [=<-])%result_bind_ok p. rewrite !insert_patterns_at.
    repeat case_decide; try done; set_solver.
  - intros [=<-] p. rewrite insert_patterns_at. cbn. by rewrite app_nil_r.
Qed.

(** Every rule of the list is the strongest effect asked for its pair of patterns. *)
Lemma build_map_at perms native m : build_map perms native = Ok m →
  ∀ p effect, effect_at m p = Some effect ↔ strongest perms native p effect.
Proof.
  unfold build_map. intros (m1 & H1 & (m2 & H2 & H3)%result_bind_ok)%result_bind_ok p effect.
  rewrite (insert_tier_at _ _ _ _ _ H3), (insert_tier_at _ _ _ _ _ H2), (insert_tier_at _ _ _ _ _ H1), effect_at_empty.
  unfold strongest, asked. repeat case_decide; naive_solver.
Qed.

(** No tool of the map is without a pattern. *)
Definition filled (m : permission_map) : Prop := map_Forall (λ _ ps, ps ≠ ∅) m.
Lemma insert_patterns_filled l action m : filled m → filled (insert_patterns m l action).
Proof.
  unfold insert_patterns. revert m. induction l as [|q l IH]; intros m Hm; [done|]. apply IH.
  apply map_Forall_insert_2; [apply insert_non_empty|done].
Qed.
Lemma insert_tier_filled m action structured native m' :
  filled m → insert_tier m action structured native = Ok m' → filled m'.
Proof.
  unfold insert_tier. intros Hm. destruct native as [n|].
  - intros (l & _ & [=<-])%result_bind_ok. by repeat apply insert_patterns_filled.
  - intros [=<-]. by apply insert_patterns_filled.
Qed.
Lemma build_map_filled perms native m : build_map perms native = Ok m → filled m.
Proof.
  unfold build_map. intros (m1 & H1 & (m2 & H2 & H3)%result_bind_ok)%result_bind_ok.
  repeat (eapply insert_tier_filled; [|done]). apply map_Forall_empty.
Qed.

(** ** The list *)

Definition rule_before (a b : Rule) : Prop :=
  key_before (r_action a, tt) (r_action b, tt) ∨
  r_action a = r_action b ∧ key_before (r_resource a, tt) (r_resource b, tt).

Lemma elem_of_rules_of m a r e : mkOcRule a r e ∈ rules_of m ↔ effect_at m (a, r) = Some e.
Proof.
  unfold rules_of, effect_at. rewrite list_elem_of_bind. cbn [fst snd]. rewrite bind_Some. split.
  - intros ([t ps] & ([r' e'] & [=-> -> ->] & H)%list_elem_of_fmap & Ht).
    cbn in *. exists ps. by rewrite <-!elem_of_btree.
  - intros (ps & Ht & Hr). exists (a, ps). rewrite elem_of_btree. split; [|done].
    apply list_elem_of_fmap. exists (r, e). by rewrite elem_of_btree.
Qed.

Lemma rules_of_nil m : filled m → rules_of m = [] → m = ∅.
Proof.
  intros Hm H. apply map_eq. intros t. rewrite lookup_empty. destruct (m !! t) as [ps|] eqn:E; [|done]. exfalso.
  destruct (map_choose _ (Hm _ _ E)) as (r & e & Hr).
  apply (not_elem_of_nil (mkOcRule t r e)). rewrite <-H. apply elem_of_rules_of. unfold effect_at. cbn [fst snd].
  by rewrite E.
Qed.

Lemma sorted_bind {A B} (R : relation A) (S : relation B) (f : A → list B) (l : list A) :
  (∀ x, StronglySorted S (f x)) → (∀ x y a b, R x y → a ∈ f x → b ∈ f y → S a b) →
  StronglySorted R l → StronglySorted S (l ≫= f).
Proof.
  intros Hf HS. induction 1 as [|x l Hl IH Hx]; [constructor|]. cbn. apply StronglySorted_app_2; [|done..].
  intros a b Ha (y & Hb & Hy)%list_elem_of_bind. rewrite Forall_forall in Hx. eauto.
Qed.
Lemma rules_of_sorted m : StronglySorted rule_before (rules_of m).
Proof.
  unfold rules_of. eapply sorted_bind; [| |apply btree_entries_sorted].
  - intros [t ps]. cbn. induction (btree_entries_sorted ps) as [|x l Hl IH Hx]; [constructor|].
    cbn. constructor; [done|]. rewrite Forall_fmap. eapply Forall_impl; [done|]. intros y [H H']. right. done.
  - intros [t ps] [t' ps'] a b H ([] & -> & _)%list_elem_of_fmap ([] & -> & _)%list_elem_of_fmap. left. exact H.
Qed.

Lemma check_rules_ok rules : check_rules rules = Ok tt ↔
  ∀ pre early mid late post, rules = pre ++ early :: mid ++ late :: post → inverts early late = false.
Proof.
  induction rules as [|r rules IH]; cbn [check_rules]; [split; [by intros _ []|done]|]. split.
  - destruct (find_first _ rules) eqn:Hf; [done|]. intros H [|r' pre] early mid late post E; cbn in E; simplify_eq.
    + apply find_first_None in Hf. rewrite Forall_app, Forall_cons in Hf. apply not_true_is_false. tauto.
    + by eapply (proj1 IH).
  - intros H. destruct (find_first _ rules) as [late|] eqn:Hf.
    + apply find_first_Some in Hf as [(mid & post & ->)%list_elem_of_split Hl].
      rewrite (H [] r mid late post) in Hl; [done|done].
    + apply IH. intros pre early mid late post ->. by eapply (H (r :: pre)).
Qed.
Lemma check_rules_err rules e : check_rules rules = Err e → ∃ pre early mid late post remedy,
  rules = pre ++ early :: mid ++ late :: post ∧ inverts early late = true ∧ e = Inverted early late remedy.
Proof.
  induction rules as [|r rules IH]; cbn [check_rules]; [done|].
  destruct (find_first _ rules) as [late|] eqn:Hf.
  - intros [=<-]. apply find_first_Some in Hf as [(mid & post & ->)%list_elem_of_split Hl].
    by exists [], r, mid, late, post; eexists.
  - intros (pre & early & mid & late & post & remedy & -> & H & ->)%IH.
    by exists (r :: pre), early, mid, late, post, remedy.
Qed.

Lemma inverts_false early late tool input : inverts early late = false →
  r_effect late ≠ r_effect early → rule_matches tool input early = true → rule_matches tool input late = true →
  narrower late early.
Proof.
  unfold inverts, rule_matches. rewrite !andb_true_iff. intros H He [H1 H2] [H3 H4].
  rewrite (matched_overlap _ _ tool), (matched_overlap _ _ input), bool_decide_true in H by done. cbn in H.
  apply negb_false_iff, andb_true_iff in H. done.
Qed.

(** ** The errors of native rules *)

Definition native_error (perms : Permissions) (native : option NativePermissionRules) (e : permission_error) : Prop :=
  ∃ n s, native = Some n ∧
    (s ∈ n_allow n ∧ parse_native_rule s "allow" = Err e ∨
     s ∈ n_ask n ∧ parse_native_rule s "ask" = Err e ∨
     s ∈ n_deny n ∧ parse_native_rule s "deny" = Err e).

Lemma insert_tier_err m action structured native e : insert_tier m action structured native = Err e →
  ∃ n s, native = Some n ∧ s ∈ n ∧ parse_native_rule s action = Err e.
Proof.
  unfold insert_tier. destruct native as [n|]; [|done].
  destruct (collect _ n) as [l|e'] eqn:Hc; cbn; [done|]. intros [=->].
  apply collect_err in Hc as (s & Hs & He). by exists n, s.
Qed.
Lemma build_map_err perms native e : build_map perms native = Err e → native_error perms native e.
Proof.
  unfold build_map, native_error.
  destruct (insert_tier ∅ _ _ _) as [m1|e1] eqn:H1; cbn.
  - destruct (insert_tier m1 _ _ _) as [m2|e2] eqn:H2; cbn.
    + intros (n & s & H & Hs & He)%insert_tier_err. apply fmap_Some in H as (n' & -> & ->). exists n', s. auto.
    + intros [=->]. apply insert_tier_err in H2 as (n & s & H & Hs & He).
      apply fmap_Some in H as (n' & -> & ->). exists n', s. auto.
  - intros [=->]. apply insert_tier_err in H1 as (n & s & H & Hs & He).
    apply fmap_Some in H as (n' & -> & ->). exists n', s. auto.
Qed.

(** C29: the rendered list holds, for every pair of patterns, the strongest effect that the
    configuration asks for (deny over ask over allow, across the two sources), in a fixed order
    without repetition, and none other. Whichever rule opencode picks as the last match, every
    rule of the list that matches the same request and says otherwise is broader by the test of
    cover. Nothing is rendered exactly when nothing is asked for. An error names a malformed
    native rule, or two of the asked rules in the wrong order. *)
Theorem render_correct (perms : Permissions) (native : option NativePermissionRules) :
  match render perms native with
  | Ok None => ∀ p effect, ¬ strongest perms native p effect
  | Ok (Some rules) =>
    rules ≠ [] ∧ StronglySorted rule_before rules ∧
    (∀ a r effect, mkOcRule a r effect ∈ rules ↔ strongest perms native (a, r) effect) ∧
    ∀ pre early mid late post tool input, rules = pre ++ early :: mid ++ late :: post →
      rule_matches tool input early = true → rule_matches tool input late = true →
      r_effect late ≠ r_effect early → narrower late early
  | Err (Inverted early late _) =>
    strongest perms native (r_action early, r_resource early) (r_effect early) ∧
    strongest perms native (r_action late, r_resource late) (r_effect late) ∧
    rule_before early late ∧ r_effect late ≠ r_effect early ∧ ¬ narrower late early
  | Err e => native_error perms native e
  end.
Proof.
  unfold render. destruct (build_map perms native) as [m|e] eqn:Hb; cbn.
  - pose proof (build_map_at _ _ _ Hb) as Hat. pose proof (build_map_filled _ _ _ Hb) as Hf. case_decide as Hm.
    + subst m. intros p effect H. apply Hat in H. by rewrite effect_at_empty in H.
    + unfold check_rule_ordering. destruct (check_rules (rules_of m)) as [[]|e] eqn:Hc; cbn.
      * split; [intros H; by apply Hm, rules_of_nil|]. split; [apply rules_of_sorted|].
        split; [intros a r effect; rewrite elem_of_rules_of; apply Hat|].
        intros pre early mid late post tool input E He Hl Hne.
        eapply inverts_false; [|done..]. by eapply check_rules_ok.
      * apply check_rules_err in Hc as (pre & [ea er ee] & mid & [la lr le'] & post & remedy & E & Hi & ->). cbn.
        pose proof (rules_of_sorted m) as Hs. rewrite E in Hs.
        rewrite <-!Hat, <-!elem_of_rules_of, E. split; [set_solver|]. split; [set_solver|].
        apply StronglySorted_app in Hs as (_ & _ & Hs). apply StronglySorted_cons in Hs as [Hs _].
        rewrite Forall_forall in Hs. split; [apply Hs; set_solver|].
        unfold inverts in Hi. cbn in Hi. rewrite !andb_true_iff, bool_decide_eq_true, negb_true_iff, andb_false_iff in Hi.
        destruct Hi as [[[Hi _] _] Hsub]. split; [done|]. unfold narrower. cbn. intros [H1 H2]. destruct Hsub; congruence.
  - apply build_map_err in Hb. destruct e; try done.
    destruct Hb as (n & s & _ & Hb). exfalso.
    assert (Hno : ∀ action, parse_native_rule s action ≠ Err (Inverted early late remedy)).
    { intros action. unfold parse_native_rule, reject_spaced_tool, ensure.
      repeat case_match; cbn; intros; try done; repeat case_match; done. }
    naive_solver.
Qed.
