(* ===== verification/HookState.v ===== *)
(** * State files of the hooks (src/hook_run/session_state.rs, record_hash.rs)

    Each hook call is a process of its own, so a hook keeps what it must remember in a file
    [<feature>/<key>.json] of the state folder, with a lock file [<feature>/<key>.lock] beside it.
    [Hooks] is the state folder and the notices for the agent; [HookIo] says what the file system
    answers during one call. *)

From S2P Require Import Prelude RustStr Names Json.

(** ** The state folder *)

(** The bytes of a file: text, text that ends inside a character, other bytes that are not
    UTF-8, or a file that cannot be read (which is also the outcome for one that is too large). *)
Inductive content := Text (s : string) | Cut (s tail : string) | Mangled (s : string) | Unreadable.
(** The age of a file counts from the later of its two times; [None]: it cannot be found out. *)
Record Entry := mkEntry { en_content : content; en_stamp : option Z }.
Global Instance content_eq_dec : EqDecision content.
Proof. solve_decision. Defined.
Global Instance Entry_eq_dec : EqDecision Entry.
Proof. solve_decision. Defined.

(** A file by its folder (the feature) and its name. *)
Notation hook_files := (gmap (string * string) Entry).

Inductive Notice :=
| LockNotTaken (dir : string)
| CannotList (dir : string)
| AgeUnknown (file : string * string)
| CannotRemove (file : string * string)
| BadSessionId (dir : string)
| PayloadFault (dir : string)
| StateCorrupt (dir : string)
| StateUnreadable (dir : string)
| NotSaved (dir : string)
| CheckOff (dir : string)
| DeprecatedKey (dir : string)
| TargetFault (path : string).
Global Instance Notice_eq_dec : EqDecision Notice.
Proof. solve_decision. Defined.

Record Hooks := mkHooks { hk_files : hook_files; hk_notices : list Notice }.

(** A lock: taken, held by another hook (or not usable, once the file is there), or the lock
    file cannot be made. *)
Inductive lock_outcome := Taken | Busy | NoLockFile.
Global Instance lock_outcome_eq_dec : EqDecision lock_outcome.
Proof. solve_decision. Defined.
Record HookIo := mkIo {
  io_now : Z;
  io_lock : string → lock_outcome;
  io_write : string → bool;
  io_list : string → bool;
  io_remove : string * string → bool }.

Definition note (n : Notice) (h : Hooks) : Hooks := mkHooks (hk_files h) (hk_notices h ++ [n]).
Definition put_file (k : string * string) (e : Entry) (h : Hooks) : Hooks :=
  mkHooks (<[k := e]> (hk_files h)) (hk_notices h).

(** [bounded::state_text_io] (which drops a last character that was cut) and
    [bounded::state_bytes_io]. *)
Inductive read_outcome := Got (s : string) | Missing | Failed.
Definition read_text (k : string * string) (h : Hooks) : read_outcome :=
  match en_content <$> hk_files h !! k with
  | Some (Text s) | Some (Cut s _) => Got s
  | Some _ => Failed
  | None => Missing
  end.
Definition read_bytes (k : string * string) (h : Hooks) : read_outcome :=
  match en_content <$> hk_files h !! k with
  | Some (Text s) | Some (Mangled s) => Got s
  | Some (Cut s tail) => Got (s +:+ tail)
  | Some Unreadable => Failed
  | None => Missing
  end.

Definition json_file (dir key : string) : string * string := (dir, key +:+ ".json").
Definition lock_file (dir key : string) : string * string := (dir, key +:+ ".lock").

(** [write_owner_only_atomic]. *)
Definition write_file (io : HookIo) (k : string * string) (text : string) (h : Hooks) : bool * Hooks :=
  if io_write io k.1 then (true, put_file k (mkEntry (Text text) (Some (io_now io))) h) else (false, h).

(** [remove_if_present], with a notice when the file stays. *)
Definition remove_file (io : HookIo) (n : Notice) (k : string * string) (h : Hooks) : Hooks :=
  if decide (hk_files h !! k = None) then h
  else if io_remove io k then mkHooks (delete k (hk_files h)) (hk_notices h)
  else note n h.

(** ** Locks *)

Definition lock_state_file (io : HookIo) (dir key : string) (h : Hooks) : bool * Hooks :=
  if negb (is_valid_short_name key) then (false, note (LockNotTaken dir) h)
  else
    let k := lock_file dir key in
    let content := default (Text "") (en_content <$> hk_files h !! k) in
    match io_lock io dir with
    | NoLockFile => (false, note (LockNotTaken dir) h)
    | Busy =>
      let old := default (mkEntry content (Some (io_now io))) (hk_files h !! k) in
      (false, note (LockNotTaken dir) (put_file k old h))
    | Taken => (true, put_file k (mkEntry content (Some (io_now io))) h)
    end.

(** ** Sweeps of old files *)

(** [Path::extension] and [Path::with_extension] of a file name. *)
Definition extension (name : string) : option string :=
  match rsplit_once "." name with
  | Some (stem, ext) => if decide (stem = "") then None else Some ext
  | None => None
  end.
Definition with_extension (ext name : string) : string :=
  match rsplit_once "." name with
  | Some (stem, _) => if decide (stem = "") then name +:+ "." +:+ ext else stem +:+ "." +:+ ext
  | None => name +:+ "." +:+ ext
  end.

Definition is_prunable_state_file (name : string) : bool :=
  if decide (extension name = Some "json") then true
  else
    match find_sub ".json.corrupt" name with
    | None => false
    | Some (stem, tail) =>
      let numbered := match strip_prefix "." tail with
        | Some n => negb (bool_decide (n = "")) && str_all is_ascii_digit n
        | None => false
        end in
      negb (bool_decide (stem = "")) && (bool_decide (tail = "") || numbered)
    end.

Definition max_age (days : N) : Z := Z.of_N (N.min (days * 86400) u64_max).
Definition file_age (now : Z) (e : Entry) : option Z := (λ stamp, Z.max 0 (now - stamp)) <$> en_stamp e.
Definition is_stale (now : Z) (days : N) (e : Entry) : bool :=
  match file_age now e with Some age => bool_decide (max_age days < age)%Z | None => false end.

(** One sweep: the old files of [dir] that [wanted] picks go, unless they cannot be removed. *)
Definition sweeps (io : HookIo) (dir : string) (days : N) (wanted : string → bool)
    (k : string * string) (e : Entry) : Prop :=
  k.1 = dir ∧ wanted k.2 = true ∧ is_stale (io_now io) days e = true.
Global Instance sweeps_dec io dir days wanted k e : Decision (sweeps io dir days wanted k e) := _.

Definition sweep_notices (io : HookIo) (dir : string) (days : N) (wanted : string → bool) (files : hook_files)
  : list Notice :=
  map_to_list files ≫= λ '(k, e),
    if decide (k.1 = dir ∧ wanted k.2 = true ∧ en_stamp e = None) then [AgeUnknown k]
    else if decide (sweeps io dir days wanted k e ∧ io_remove io k = false) then [CannotRemove k] else [].
Definition sweep (io : HookIo) (dir : string) (days : N) (wanted : string → bool) (h : Hooks) : Hooks :=
  if io_list io dir then
    mkHooks
      (filter (λ ke, ¬ (sweeps io dir days wanted ke.1 ke.2 ∧ io_remove io ke.1 = true)) (hk_files h))
      (hk_notices h ++ sweep_notices io dir days wanted (hk_files h))
  else note (CannotList dir) h.

Definition prune_stale_json_files (io : HookIo) (dir : string) (days : N) (h : Hooks) : Hooks :=
  sweep io dir days is_prunable_state_file h.
Definition json_entry_is_absent (h : Hooks) (k : string * string) : bool := bool_decide (hk_files h !! k = None).
Definition prune_orphan_locks (io : HookIo) (dir : string) (days : N) (h : Hooks) : Hooks :=
  sweep io dir days
    (λ name, bool_decide (extension name = Some "lock") &&
             json_entry_is_absent h (dir, with_extension "json" name)) h.

(** Both sweeps, as every save runs them. *)
Definition STALE_DAYS : N := 7.
Definition prune_folder (io : HookIo) (dir : string) (h : Hooks) : Hooks :=
  prune_orphan_locks io dir STALE_DAYS (prune_stale_json_files io dir STALE_DAYS h).

(** ** Keys *)

(** The first 16 hexadecimal digits of a SHA-256. *)
Class Digest := hash_prefix : string → string.
Definition is_lower_hex (c : ascii) : bool := is_ascii_digit c || in_range 97 102 c.
Class DigestLaws `{Digest} := {
  hash_prefix_len : ∀ s, String.length (hash_prefix s) = 16%nat;
  hash_prefix_hex : ∀ s, str_all is_lower_hex (hash_prefix s) = true }.

Definition NUL : string := chr "000".
Definition agent_state_key `{Digest, JsonText} (session_id : string) (payload : json) : string :=
  let hashed agent_id := session_id +:+ ".agent-" +:+ hash_prefix (session_id +:+ NUL +:+ agent_id) in
  match json_get "agent_id" payload with
  | None | Some JNull => session_id
  | Some agent =>
    if negb (is_valid_short_name session_id) then session_id
    else match agent with JStr id => hashed id | other => hashed (json_text other) end
  end.

(** [record_hash]: the spacing of a record does not count. *)
Definition record_hash `{Digest} (record : string) : string := hash_prefix (join " " (split_whitespace record)).

(** ** Reset after the context is lost *)

Definition context_was_lost (source : option string) : bool :=
  bool_decide (source = Some "startup" ∨ source = Some "clear" ∨ source = Some "compact").
Definition READ_STATE : list string := ["read_once"; "slippage"; "repeat_detect"].
Definition reset_read_state (io : HookIo) (session_id : string) (h : Hooks) : Hooks :=
  if negb (is_valid_short_name session_id) then note (BadSessionId "read state") h
  else foldl (λ h dir, remove_file io (CannotRemove (json_file dir session_id)) (json_file dir session_id) h)
         h READ_STATE.
(** [None] for the state folder: it cannot be found. *)
Definition reset_read_state_after_compaction (io : HookIo) (session_id : option string) (has_state_dir : bool)
    (h : Hooks) : Hooks :=
  match session_id with
  | None => h
  | Some session_id =>
    if has_state_dir then reset_read_state io session_id h else note (CheckOff "read state") h
  end.

(** ** The sweeps *)

Lemma sweep_lookup io dir days wanted h k e :
  hk_files (sweep io dir days wanted h) !! k = Some e ↔
  hk_files h !! k = Some e ∧
  ¬ (io_list io dir = true ∧ sweeps io dir days wanted k e ∧ io_remove io k = true).
Proof.
  unfold sweep. destruct (io_list io dir) eqn:El; cbn [hk_files note].
  - rewrite map_lookup_filter_Some. cbn. naive_solver.
  - naive_solver.
Qed.

(** A file that a save's sweeps can remove: an old state file or old copy of one, or an old lock
    whose state file is not there. *)
Definition is_lock (k : string * string) : bool := bool_decide (extension k.2 = Some "lock").
Definition json_of (k : string * string) : string * string := (k.1, with_extension "json" k.2).

Lemma prune_folder_lookup io dir h k e :
  let after := hk_files (prune_folder io dir h) in
  let removable := io_list io dir = true ∧ k.1 = dir ∧ is_stale (io_now io) STALE_DAYS e = true ∧ io_remove io k = true in
  after !! k = Some e ↔
  hk_files h !! k = Some e ∧ ¬ (removable ∧ is_prunable_state_file k.2 = true) ∧
  ¬ (removable ∧ is_lock k = true ∧
     hk_files (prune_stale_json_files io dir STALE_DAYS h) !! json_of k = None).
Proof.
  cbn zeta. unfold prune_folder, prune_orphan_locks at 1. rewrite sweep_lookup.
  unfold prune_stale_json_files at 1. rewrite sweep_lookup. unfold sweeps, is_lock, json_of, json_entry_is_absent.
  split.
  - intros [[Hk H1] H2]. split; [done|]. split; [tauto|]. intros [(H3 & <- & H5 & H6) [H7 H8]].
    apply H2. repeat split; try done. rewrite H7. cbn. by apply bool_decide_eq_true.
  - intros (Hk & H1 & H2). split; [split; [done|tauto]|]. intros (H3 & (<- & H4 & H5) & H6).
    apply andb_true_iff in H4 as [H4 H7]. apply bool_decide_eq_true in H7. apply H2. done.
Qed.

Lemma extension_json_not_lock name : extension name = Some "json" → extension name ≠ Some "lock".
Proof. by intros ->. Qed.

(** The sweeps of a save only remove: every file they leave is the file it was. They touch
    neither another feature's folder, nor a file at or under the age limit, nor a lock whose state
    file stays. When the folder can be listed and its files removed, no old state file stays, and
    an old lock stays only beside its state file. *)
Theorem prune_folder_correct (io : HookIo) (dir : string) (h : Hooks) (k : string * string) :
  let after := hk_files (prune_folder io dir h) in
  (∀ e, after !! k = Some e → hk_files h !! k = Some e) ∧
  (∀ e, hk_files h !! k = Some e →
     k.1 ≠ dir ∨ is_stale (io_now io) STALE_DAYS e = false ∨
     is_prunable_state_file k.2 = false ∧ (is_lock k = false ∨ is_Some (after !! json_of k)) →
     after !! k = Some e) ∧
  (∀ e, io_list io dir = true → (∀ k, io_remove io k = true) → k.1 = dir →
     after !! k = Some e → is_stale (io_now io) STALE_DAYS e = true →
     is_prunable_state_file k.2 = false ∧
     (is_lock k = true → is_Some (hk_files (prune_stale_json_files io dir STALE_DAYS h) !! json_of k))).
Proof.
  cbn zeta. repeat apply conj.
  - intros e He. apply prune_folder_lookup in He. tauto.
  - intros e He H. apply prune_folder_lookup. split; [done|].
    destruct H as [H|[H|[H1 H2]]]; [split; intros; intuition congruence..|]. split; [by intros [_ ?]; congruence|].
    intros [_ [Hl Hn]]. destruct H2 as [H2|[e' H2]]; [congruence|].
    unfold prune_folder, prune_orphan_locks in H2. apply sweep_lookup in H2 as [H2 _]. congruence.
  - intros e Hl Hr Hd He Hs. apply prune_folder_lookup in He as (_ & H1 & H2).
    assert (Hrem : io_list io dir = true ∧ k.1 = dir ∧ is_stale (io_now io) STALE_DAYS e = true ∧ io_remove io k = true)
      by auto.
    split; [apply not_true_is_false; tauto|]. intros Hlock. apply not_eq_None_Some. tauto.
Qed.

(** ** What taking a lock leaves alone *)

Lemma app_inj_same_length s t u v : String.length u = String.length v → s +:+ u = t +:+ v → s = t ∧ u = v.
Proof.
  intros Hl. revert t. induction s as [|c s IH]; intros [|d t] E.
  - done.
  - apply (f_equal String.length) in E. rewrite !str_length_app in E. cbn in E. lia.
  - apply (f_equal String.length) in E. rewrite !str_length_app in E. cbn in E. lia.
  - rewrite !str_app_cons in E. injection E as -> E. by destruct (IH _ E) as [-> ->].
Qed.

Lemma json_not_lock dir key dir' key' : json_file dir key ≠ lock_file dir' key'.
Proof. intros [= _ E]. by apply app_inj_same_length in E as [_ E]. Qed.
Global Instance json_file_inj dir : Inj (=) (=) (json_file dir).
Proof. intros k k' [= E]. by apply app_inj_same_length in E as [-> _]. Qed.

Lemma lock_keeps_json io dir key h dir' key' :
  hk_files (lock_state_file io dir key h).2 !! json_file dir' key' = hk_files h !! json_file dir' key'.
Proof.
  unfold lock_state_file. destruct (is_valid_short_name key); cbn [negb]; [|done].
  destruct (io_lock io dir); cbn; [| |done]; rewrite lookup_insert_ne; try done; apply not_eq_sym, json_not_lock.
Qed.
Lemma lock_keeps_text io dir key h dir' key' :
  read_text (json_file dir' key') (lock_state_file io dir key h).2 = read_text (json_file dir' key') h.
Proof. unfold read_text. by rewrite lock_keeps_json. Qed.
Lemma lock_keeps_bytes io dir key h dir' key' :
  read_bytes (json_file dir' key') (lock_state_file io dir key h).2 = read_bytes (json_file dir' key') h.
Proof. unfold read_bytes. by rewrite lock_keeps_json. Qed.

Lemma lock_other io dir key h k : k.1 ≠ dir →
  hk_files (lock_state_file io dir key h).2 !! k = hk_files h !! k.
Proof.
  intros Hk. unfold lock_state_file. destruct (is_valid_short_name key); cbn [negb]; [|done].
  destruct (io_lock io dir); cbn; [| |done]; by rewrite lookup_insert_ne by (intros <-; by apply Hk).
Qed.
Lemma prune_folder_other io dir h k : k.1 ≠ dir → hk_files (prune_folder io dir h) !! k = hk_files h !! k.
Proof.
  intros Hk. apply option_eq. intros e. rewrite prune_folder_lookup. naive_solver.
Qed.

(** ** Keys *)

Definition agent_of `{JsonText} (payload : json) : option string :=
  match json_get "agent_id" payload with
  | None | Some JNull => None
  | Some (JStr id) => Some id
  | Some other => Some (json_text other)
  end.

Section keys.
Context `{HD : DigestLaws, HJ : JsonText}.

Lemma agent_state_key_shape session_id payload : is_valid_short_name session_id = true →
  agent_state_key session_id payload =
  match agent_of payload with
  | None => session_id
  | Some a => session_id +:+ ".agent-" +:+ hash_prefix (session_id +:+ NUL +:+ a)
  end.
Proof.
  intros Hv. unfold agent_state_key, agent_of. rewrite Hv. cbn [negb].
  by destruct (json_get "agent_id" payload) as [[]|].
Qed.

Lemma hex_short_name c : is_lower_hex c = true → is_short_name_char c = true.
Proof.
  destruct c as [[] [] [] [] [] [] [] []]; vm_compute; done.
Qed.

Lemma valid_short_name_app s t :
  is_valid_short_name s = true → str_all is_short_name_char t = true → (2 ≤ String.length t)%nat →
  is_valid_short_name (s +:+ t) = true.
Proof.
  intros (H1 & H2 & H3 & H4 & H5)%valid_short_name_inv Ht Hl. unfold is_valid_short_name.
  destruct s as [|c s]; [done|]. rewrite decide_False; cycle 1.
  { intros [E|[E|E]]; apply (f_equal String.length) in E; rewrite str_length_app in E; cbn in E; lia. }
  replace (starts_with "-" (String c s +:+ t)) with false.
  - by rewrite str_all_app, H5.
  - symmetry. rewrite str_app_cons. unfold starts_with in *. cbn [strip_prefix] in *.
    by destruct (Ascii.eqb_spec "-" c).
Qed.

Lemma hash_short_name s : is_valid_short_name (hash_prefix s) = true.
Proof.
  pose proof (hash_prefix_len s) as Hl. pose proof (hash_prefix_hex s) as Hx. unfold is_valid_short_name.
  rewrite decide_False by (intros [E|[E|E]]; rewrite E in Hl; done).
  destruct (hash_prefix s) as [|c t]; [done|]. cbn in Hx. apply andb_true_iff in Hx as [Hc Ht].
  replace (starts_with "-" (String c t)) with false.
  - cbn. rewrite hex_short_name by done. eapply str_all_impl; [|exact Ht]. apply hex_short_name.
  - symmetry. unfold starts_with. cbn [strip_prefix]. destruct (Ascii.eqb_spec "-" c) as [<-|]; done.
Qed.

(** A state key is a plain file name, whatever the agent id holds. The main agent has the bare
    session id. Two agents have one key only in the same session and when their hashes collide,
    and a main agent shares a key with a subagent only when its session id is spelled as that
    subagent's key. *)
Theorem agent_state_key_correct (s t : string) (p q : json) :
  is_valid_short_name s = true → is_valid_short_name t = true →
  is_valid_short_name (agent_state_key s p) = true ∧
  (agent_of p = None → agent_state_key s p = s) ∧
  (agent_state_key s p = agent_state_key t q →
   match agent_of p, agent_of q with
   | None, None => s = t
   | Some a, Some b => s = t ∧ hash_prefix (s +:+ NUL +:+ a) = hash_prefix (s +:+ NUL +:+ b)
   | Some a, None => t = s +:+ ".agent-" +:+ hash_prefix (s +:+ NUL +:+ a)
   | None, Some b => s = t +:+ ".agent-" +:+ hash_prefix (t +:+ NUL +:+ b)
   end).
Proof.
  intros Hs Ht. rewrite !agent_state_key_shape by done. repeat apply conj.
  - destruct (agent_of p) as [a|]; [|done]. apply valid_short_name_app; [done| |].
    + rewrite str_all_app. apply andb_true_iff. split; [done|].
      eapply str_all_impl; [|apply hash_prefix_hex]. apply hex_short_name.
    + rewrite str_length_app. cbn. lia.
  - by intros ->.
  - destruct (agent_of p) as [a|], (agent_of q) as [b|]; intros E; try done.
    apply app_inj_same_length in E as [-> E]; [|by rewrite !str_length_app, !hash_prefix_len].
    by apply app_inj_same_length in E as [_ E]; [|by rewrite !hash_prefix_len].
Qed.
End keys.
