(* ===== verification/RepeatDetect.v ===== *)
(** * Repeat detection (src/hook_run/repeat_detect.rs)

    One state file per agent holds two counters of identical events in a row: tool calls, and
    reminders at a stop. The third call is warned about; a reminder gets a hint at the third
    repeat and falls silent at the ninth (with the default threshold). *)

From S2P Require Import Prelude RustStr Names Json HookState.

Definition DIR : string := "repeat_detect".
Definition SILENCE_AFTER_THRESHOLD_MULTIPLE : N := 3.

Record RepeatDetectConfig := mkRdConfig { rd_enabled : bool; rd_threshold : N }.
Definition default_config : RepeatDetectConfig := mkRdConfig true 3.

(** The part of [SessionState] that the file holds. *)
Record Saved := mkSaved {
  rd_session_id : string;
  last_signature : option string; consecutive : N;
  last_stop_signature : option string; stop_consecutive : N }.
Record SessionState := mkRdState { saved : Saved; read_failed : bool }.

Definition session_state_path (key : string) : string * string := json_file DIR key.
Definition fresh (key : string) : Saved := mkSaved key None 0 None 0.

Section repeat.
Context `{Codec Saved, JsonText, Digest}.

Definition load (key : string) (h : Hooks) : SessionState * Hooks :=
  match read_text (session_state_path key) h with
  | Got content =>
    match decode content with
    | Some s => (mkRdState s false, h)
    | None => (mkRdState (fresh key) false, note (StateCorrupt DIR) h)
    end
  | Missing => (mkRdState (fresh key) false, h)
  | Failed => (mkRdState (fresh key) true, note (StateUnreadable DIR) h)
  end.

Definition save (io : HookIo) (s : SessionState) (h : Hooks) : bool * Hooks :=
  if read_failed s then (false, h)
  else
    let path := session_state_path (rd_session_id (saved s)) in
    let h := if json_entry_is_absent h path then prune_folder io DIR h else h in
    write_file io path (encode (saved s)) h.

Definition note_save_failure (r : bool * Hooks) : Hooks :=
  let '(done, h) := r in if done then h else note (NotSaved DIR) h.

(** One more event on a tracker. *)
Definition bump (last : option string) (count : N) (signature : string) : option string * N :=
  if decide (last = Some signature) then (last, saturating_add32 count 1) else (Some signature, 1%N).

Definition warning (tool_name : string) (n : N) : string :=
  "You've called " +:+ tool_name +:+ " with identical input " +:+ pretty n +:+
  " times in a row. This is very likely a stuck loop, not progress — stop, re-read the actual error or goal, and try a different approach instead of repeating this call.".

Definition handle_pre_tool_use (io : HookIo) (payload : json) (session_id : option string)
    (config : RepeatDetectConfig) (h : Hooks) : string * Hooks :=
  match session_id with
  | None => ("", h)
  | Some session_id =>
    if negb (is_valid_short_name session_id) then ("", note (BadSessionId DIR) h)
    else
      match json_get "tool_name" payload ≫= as_str with
      | None => ("", note (PayloadFault DIR) h)
      | Some tool_name =>
        let state_key := agent_state_key session_id payload in
        let tool_input := default JNull (json_get "tool_input" payload) in
        let signature := tool_name +:+ ":" +:+ json_text tool_input in
        let h := (lock_state_file io DIR state_key h).2 in
        let '(state, h) := load state_key h in
        let s := saved state in
        let '(last, n) := bump (last_signature s) (consecutive s) signature in
        let s := mkSaved (rd_session_id s) last n (last_stop_signature s) (stop_consecutive s) in
        let h := note_save_failure (save io (mkRdState s (read_failed state)) h) in
        (if bool_decide (N.max (rd_threshold config) 1 ≤ n)%N then warning tool_name n else "", h)
      end
  end.

Definition escalated (reminder : string) (n : N) : string :=
  reminder +:+ nl +:+ nl +:+ "This exact reminder has repeated " +:+ pretty n +:+
  " times in a row with no progress. If a listed task is your own, run `llmenv task start <slug>` to work on it, or `llmenv task wait <slug> " +:+ dq +:+ "<reason>" +:+ dq +:+
  "` if you are blocked on something outside your control — that silences this nag until the blocker clears. If none of the listed tasks are yours (a different, possibly still-active session owns them), this repeat is expected and needs no action from you — it clears on its own once that session updates or closes them.".

(** What a reminder becomes at its [n]th repeat. *)
Definition stop_answer (config : RepeatDetectConfig) (reminder : string) (n : N) : string :=
  let threshold := N.max (rd_threshold config) 1 in
  if bool_decide (saturating_mul32 threshold SILENCE_AFTER_THRESHOLD_MULTIPLE ≤ n)%N then ""
  else if bool_decide (threshold ≤ n)%N then escalated reminder n
  else reminder.

Definition handle_stop (io : HookIo) (reminder : string) (session_id : option string)
    (config : RepeatDetectConfig) (h : Hooks) : string * Hooks :=
  if decide (reminder = "") then ("", h)
  else
    match session_id with
    | None => (reminder, h)
    | Some session_id =>
      if negb (is_valid_short_name session_id) then (reminder, h)
      else
        let h := (lock_state_file io DIR session_id h).2 in
        let '(state, h) := load session_id h in
        let s := saved state in
        let '(last, n) := bump (last_stop_signature s) (stop_consecutive s) reminder in
        let s := mkSaved (rd_session_id s) (last_signature s) (consecutive s) last n in
        let h := note_save_failure (save io (mkRdState s (read_failed state)) h) in
        (stop_answer config reminder n, h)
    end.

(** ** What the counters count *)

(** A history of events, the latest first: how many of its latest events are the same. *)
Fixpoint same_front (x : string) (l : list string) : N :=
  match l with
  | [] => 0
  | y :: l => if decide (y = x) then 1 + same_front x l else 0
  end.
Definition streak (l : list string) : N := match l with [] => 0 | x :: l => 1 + same_front x l end.
Definition counted (l : list string) : N := N.min (streak l) u32_max.

Lemma bump_counts l x : bump (head l) (counted l) x = (head (x :: l), counted (x :: l)).
Proof.
  unfold bump, counted, saturating_add32, u32_max. destruct l as [|y l]; [done|]. cbn [head].
  case_decide as Hx.
  - simplify_eq. f_equal. unfold streak. cbn [same_front]. rewrite decide_True by done. lia.
  - f_equal. unfold streak. cbn [same_front]. rewrite decide_False by congruence. lia.
Qed.

(** The events of one agent, and what each answers. *)
Inductive event := PreTool (payload : json) | Reminder (text : string).
Definition handle (config : RepeatDetectConfig) (session_id : string) (io : HookIo) (e : event) (h : Hooks)
  : string * Hooks :=
  match e with
  | PreTool payload => handle_pre_tool_use io payload (Some session_id) config h
  | Reminder text => handle_stop io text (Some session_id) config h
  end.
Fixpoint handle_all (config : RepeatDetectConfig) (session_id : string) (events : list (HookIo * event))
    (h : Hooks) : list string * Hooks :=
  match events with
  | [] => ([], h)
  | (io, e) :: events =>
    let '(answer, h) := handle config session_id io e h in
    let '(answers, h) := handle_all config session_id events h in (answer :: answers, h)
  end.

(** The reference: each kind of event is answered by its own history alone. *)
Definition signature_of (payload : json) : option (string * string) :=
  tool ← json_get "tool_name" payload ≫= as_str;
  Some (tool, tool +:+ ":" +:+ json_text (default JNull (json_get "tool_input" payload))).
Definition call_answer (config : RepeatDetectConfig) (tool : string) (n : N) : string :=
  if bool_decide (N.max (rd_threshold config) 1 ≤ n)%N then warning tool n else "".
Fixpoint answers (config : RepeatDetectConfig) (calls reminders : list string) (events : list event)
  : list string :=
  match events with
  | [] => []
  | PreTool payload :: events =>
    match signature_of payload with
    | None => "" :: answers config calls reminders events
    | Some (tool, signature) =>
      let calls := signature :: calls in
      call_answer config tool (counted calls) :: answers config calls reminders events
    end
  | Reminder text :: events =>
    if decide (text = "") then "" :: answers config calls reminders events
    else
      let reminders := text :: reminders in
      stop_answer config text (counted reminders) :: answers config calls reminders events
  end.

Lemma load_lock io dir k key h : load key (lock_state_file io dir k h).2 =
  match read_text (session_state_path key) h with
  | Failed => (mkRdState (fresh key) true, note (StateUnreadable DIR) (lock_state_file io dir k h).2)
  | Missing => (mkRdState (fresh key) false, (lock_state_file io dir k h).2)
  | Got content =>
    match decode content with
    | Some s => (mkRdState s false, (lock_state_file io dir k h).2)
    | None => (mkRdState (fresh key) false, note (StateCorrupt DIR) (lock_state_file io dir k h).2)
    end
  end.
Proof. unfold load, session_state_path. by rewrite lock_keeps_text. Qed.

(** ** One event *)

Context `{HC : !CodecLaws Saved}.

(** The file of [key] holds the two histories. *)
Definition kept (key : string) (calls reminders : list string) : Saved :=
  mkSaved key (head calls) (counted calls) (head reminders) (counted reminders).
Definition holds (key : string) (calls reminders : list string) (h : Hooks) : Prop :=
  match read_text (session_state_path key) h with
  | Got content => decode content = Some (kept key calls reminders)
  | Missing => kept key calls reminders = fresh key
  | Failed => False
  end.

Lemma holds_load key calls reminders h :
  holds key calls reminders h → load key h = (mkRdState (kept key calls reminders) false, h).
Proof. unfold holds, load. destruct (read_text _ h); [by intros ->|by intros ->|done]. Qed.
Lemma holds_lock io dir k key calls reminders h :
  holds key calls reminders h → holds key calls reminders (lock_state_file io dir k h).2.
Proof. unfold holds, session_state_path. by rewrite lock_keeps_text. Qed.
Lemma holds_missing key h : hk_files h !! session_state_path key = None → holds key [] [] h.
Proof. intros Hn. unfold holds, read_text. by rewrite Hn. Qed.

Lemma save_holds io key calls reminders h : io_write io DIR = true →
  holds key calls reminders (note_save_failure (save io (mkRdState (kept key calls reminders) false) h)).
Proof.
  intros Hw. unfold save. cbn [read_failed saved rd_session_id kept]. unfold write_file. cbn [session_state_path json_file fst].
  rewrite Hw. cbn [note_save_failure]. unfold holds, read_text, put_file, session_state_path.
  cbn [hk_files]. rewrite lookup_insert_eq. cbn [fmap option_fmap option_map en_content].
  by rewrite decode_encode.
Qed.

Lemma handle_call config key io payload tool signature calls reminders h :
  is_valid_short_name key = true → agent_of payload = None → io_write io DIR = true →
  signature_of payload = Some (tool, signature) → holds key calls reminders h →
  ∃ h', handle_pre_tool_use io payload (Some key) config h =
          (call_answer config tool (counted (signature :: calls)), h') ∧
        holds key (signature :: calls) reminders h'.
Proof.
  intros Hk Ha Hw Hs Hh. unfold handle_pre_tool_use. rewrite Hk. cbn [negb].
  unfold signature_of in Hs. apply bind_Some in Hs as (tool' & Ht & [= -> <-]). rewrite Ht.
  rewrite agent_state_key_shape, Ha by done. cbv zeta.
  rewrite (holds_load _ _ _ _ (holds_lock io DIR key _ _ _ _ Hh)). cbn [kept saved last_signature consecutive last_stop_signature
    stop_consecutive rd_session_id read_failed]. rewrite bump_counts.
  eexists. split; [done|]. apply (save_holds io key (_ :: calls)). done.
Qed.
Lemma handle_reminder config key io text calls reminders h :
  is_valid_short_name key = true → io_write io DIR = true → text ≠ "" → holds key calls reminders h →
  ∃ h', handle_stop io text (Some key) config h = (stop_answer config text (counted (text :: reminders)), h') ∧
        holds key calls (text :: reminders) h'.
Proof.
  intros Hk Hw Ht Hh. unfold handle_stop. rewrite decide_False, Hk by done. cbn [negb]. cbv zeta.
  rewrite (holds_load _ _ _ _ (holds_lock io DIR key _ _ _ _ Hh)). cbn [kept saved last_signature consecutive last_stop_signature
    stop_consecutive rd_session_id read_failed]. rewrite bump_counts.
  eexists. split; [done|]. apply (save_holds io key calls (_ :: reminders)). done.
Qed.

Lemma handle_all_answers config key events calls reminders h :
  is_valid_short_name key = true →
  Forall (λ ie, io_write ie.1 DIR = true ∧ match ie.2 with PreTool payload => agent_of payload = None | _ => True end) events →
  holds key calls reminders h →
  (handle_all config key events h).1 = answers config calls reminders events.*2.
Proof.
  intros Hk He. revert calls reminders h. induction He as [|[io e] events [Hw Hp] He IH]; intros calls reminders h Hh; [done|].
  cbn [handle_all fmap list_fmap snd fst] in *. destruct e as [payload|text]; cbn [handle answers].
  - destruct (signature_of payload) as [[tool signature]|] eqn:Hs.
    + destruct (handle_call config key io payload tool signature calls reminders h) as (h' & -> & Hh'); try done.
      specialize (IH _ _ _ Hh'). destruct (handle_all config key events h'). cbn in *. by f_equal.
    + unfold handle_pre_tool_use. rewrite Hk. cbn [negb]. unfold signature_of in Hs.
      destruct (json_get "tool_name" payload ≫= as_str); [done|].
      assert (Hn : holds key calls reminders (note (PayloadFault DIR) h)).
      { exact Hh. }
      specialize (IH _ _ _ Hn). destruct (handle_all config key events _). cbn in *. by f_equal.
  - case_decide as Ht.
    + unfold handle_stop. rewrite decide_True by done. specialize (IH _ _ _ Hh).
      destruct (handle_all config key events h). cbn in *. by f_equal.
    + destruct (handle_reminder config key io text calls reminders h) as (h' & -> & Hh'); try done.
      specialize (IH _ _ _ Hh'). destruct (handle_all config key events h'). cbn in *. by f_equal.
Qed.

(** C31: the two counters implement the history. In a run of tool calls of the main agent and of
    stop reminders of one session, in any order, that starts without a state file and in which
    every save of the state succeeds: each call is answered by how often its own signature came
    last in a row among the calls, and each reminder by how often its own text did among the
    reminders. Neither kind of event disturbs the other, whether the locks are taken or not, and
    whatever the clock and the sweeps of old files do. A call that names a subagent has a state
    file of its own and is not part of the run. *)
Theorem repeat_detect_refines (config : RepeatDetectConfig) (key : string) (events : list (HookIo * event)) (h : Hooks) :
  is_valid_short_name key = true →
  Forall (λ ie, io_write ie.1 DIR = true ∧ match ie.2 with PreTool payload => agent_of payload = None | _ => True end) events →
  hk_files h !! session_state_path key = None →
  (handle_all config key events h).1 = answers config [] [] events.*2.
Proof. intros Hk He Hn. apply handle_all_answers; [done..|]. by apply holds_missing. Qed.

(** ** Silence *)

Definition is_reminder (e : event) : bool := match e with Reminder _ => true | PreTool _ => false end.
Definition reminder_count (events : list event) : N := N.of_nat (length (filter is_reminder events)).

Lemma same_front_app x n l : same_front x (replicate n x ++ l) = (N.of_nat n + same_front x l)%N.
Proof. induction n as [|n IH]; [done|]. cbn [replicate app same_front]. rewrite decide_True, IH by done. lia. Qed.

Lemma answers_silent config text pre post calls reminders n :
  text ≠ "" → Forall (λ e, match e with Reminder t => t = text | _ => True end) pre →
  (saturating_mul32 (N.max (rd_threshold config) 1) SILENCE_AFTER_THRESHOLD_MULTIPLE ≤ N.of_nat n + reminder_count pre + 1)%N →
  answers config calls (replicate n text ++ reminders) (pre ++ Reminder text :: post) !! length pre = Some "".
Proof.
  intros Ht. revert calls n. induction pre as [|e pre IH]; intros calls n Hp Hb.
  - cbn [app answers length]. rewrite decide_False by done. cbn [lookup list_lookup]. f_equal.
    unfold stop_answer. rewrite bool_decide_true; [done|].
    unfold counted. change (text :: replicate n text ++ reminders) with (replicate (S n) text ++ reminders).
    cbn [replicate app streak]. rewrite same_front_app. unfold reminder_count in Hb. cbn in Hb.
    unfold saturating_mul32 in *. lia.
  - apply Forall_cons in Hp as [He Hp]. destruct e as [payload|t]; cbn [app answers length].
    + assert (Hb' : reminder_count (PreTool payload :: pre) = reminder_count pre) by done.
      rewrite Hb' in Hb. destruct (signature_of payload) as [[tool signature]|]; apply IH; done.
    + subst t. rewrite decide_False by done. cbn [lookup list_lookup].
      apply (IH calls (S n)); [done|].
      assert (Hc : reminder_count (Reminder text :: pre) = (1 + reminder_count pre)%N).
      { unfold reminder_count. rewrite filter_cons_True by done. cbn [length]. lia. }
      lia.
Qed.

(** No reminder repeats without end: once the identical reminder has come three times the
    threshold in a row, it is answered with silence, from whatever counters the session had before
    and whatever tool calls come in between. *)
Theorem reminder_falls_silent (config : RepeatDetectConfig) (key text : string) (io : HookIo)
    (pre post : list (HookIo * event)) (calls reminders : list string) (h : Hooks) :
  is_valid_short_name key = true → text ≠ "" → holds key calls reminders h →
  Forall (λ ie, io_write ie.1 DIR = true ∧ match ie.2 with PreTool payload => agent_of payload = None | _ => True end)
    (pre ++ (io, Reminder text) :: post) →
  Forall (λ e, match e with Reminder t => t = text | _ => True end) pre.*2 →
  (3 * N.max (rd_threshold config) 1 ≤ reminder_count pre.*2 + 1)%N →
  (handle_all config key (pre ++ (io, Reminder text) :: post) h).1 !! length pre = Some "".
Proof.
  intros Hk Ht Hh He Hp Hb. rewrite (handle_all_answers config key _ calls reminders) by done.
  rewrite fmap_app, fmap_cons, <-(length_fmap snd). cbn [snd].
  apply (answers_silent config text pre.*2 post.*2 calls reminders 0); [done..|].
  unfold saturating_mul32, SILENCE_AFTER_THRESHOLD_MULTIPLE. lia.
Qed.

(** ** Files that cannot be read *)

Lemma bump_first x : bump None 0 x = (Some x, counted [x]).
Proof. exact (bump_counts [] x). Qed.
Lemma failed_save io s h : (save io (mkRdState s true) h) = (false, h).
Proof. done. Qed.

(** A state file that cannot be read is never overwritten: each event is answered as the first
    of its kind, the file stays as it is, and the agent is told that nothing was saved. *)
Theorem unreadable_state_kept (config : RepeatDetectConfig) (key : string) (io : HookIo) (e : event) (h : Hooks) :
  is_valid_short_name key = true → read_text (session_state_path key) h = Failed →
  match e with PreTool payload => agent_of payload = None | _ => True end →
  let '(answer, h') := handle config key io e h in
  hk_files h' !! session_state_path key = hk_files h !! session_state_path key ∧
  [answer] = answers config [] [] [e] ∧
  (match e with PreTool payload => is_Some (signature_of payload) | Reminder text => text ≠ "" end →
   StateUnreadable DIR ∈ hk_notices h' ∧ NotSaved DIR ∈ hk_notices h').
Proof.
  intros Hk Hf He. destruct e as [payload|text]; cbn [handle answers].
  - unfold handle_pre_tool_use. rewrite Hk. cbn [negb]. unfold signature_of.
    destruct (json_get "tool_name" payload ≫= as_str) as [tool|]; cbn [mbind option_bind]; [|split; [done|]; split; [done|]].
    + rewrite agent_state_key_shape, He by done. cbv zeta. rewrite load_lock, Hf. cbn [saved fresh last_signature
        consecutive read_failed]. rewrite bump_first, failed_save.
      cbn [note_save_failure note hk_files hk_notices]. unfold session_state_path. rewrite lock_keeps_json.
      split; [done|]. split; [done|]. intros _. set_solver.
    + by intros [? ?].
  - case_decide as Ht.
    + unfold handle_stop. rewrite decide_True by done. done.
    + unfold handle_stop. rewrite decide_False, Hk by done. cbn [negb]. cbv zeta. rewrite load_lock, Hf.
      cbn [saved fresh last_stop_signature stop_consecutive read_failed]. rewrite bump_first, failed_save. cbn [note_save_failure note hk_files hk_notices]. unfold session_state_path.
      rewrite lock_keeps_json. split; [done|]. split; [done|]. intros _. set_solver.
Qed.
End repeat.
