(* ===== verification/StopDedupe.v ===== *)
(** * The stop hook (src/hook_run/stop_dedupe.rs, stop_reminder.rs)

    A stop hook that returns text starts another turn, which ends in another stop. [emit_once]
    emits a reminder only when it differs from the last one of the session, and
    [resolve_stop_reminder] composes it with the repeat detector. *)

From S2P Require Import Prelude RustStr Names Json HookState RepeatDetect.

Definition DEDUPE_DIR : string := "stop_dedupe".
Record LastReminder := mkLast { lr_hash : string }.

Definition is_hook_continuation (payload : json) : bool :=
  bool_decide (json_get "stop_hook_active" payload ≫= as_bool = Some true).

Section dedupe.
Context `{HCodec : Codec LastReminder, HDigest : Digest}.

Definition state_path (session_id : option string) (h : Hooks) : option (string * string) * Hooks :=
  match session_id with
  | None => (None, h)
  | Some id =>
    if negb (is_valid_short_name id) then (None, note (BadSessionId DEDUPE_DIR) h)
    else (Some (json_file DEDUPE_DIR id), h)
  end.

Definition load_last (path : string * string) (h : Hooks) : option LastReminder * Hooks :=
  match read_text path h with
  | Got text =>
    match decode text with
    | Some last => (Some last, h)
    | None => (None, note (StateCorrupt DEDUPE_DIR) h)
    end
  | Missing => (None, h)
  | Failed => (None, note (StateUnreadable DEDUPE_DIR) h)
  end.

Definition save_last (io : HookIo) (path : string * string) (last : LastReminder) (h : Hooks) : Hooks :=
  let h := prune_folder io path.1 h in
  let '(done, h) := write_file io path (encode last) h in
  if done then h else note (NotSaved DEDUPE_DIR) h.

Definition clear_last (io : HookIo) (path : string * string) (h : Hooks) : Hooks :=
  remove_file io (CannotRemove path) path h.

Definition emit_once (io : HookIo) (session_id : option string) (reminder : string) (h : Hooks) : string * Hooks :=
  let '(path, h) := state_path session_id h in
  match path, session_id with
  | Some path, Some id =>
    let h := (lock_state_file io path.1 id h).2 in
    if decide (reminder = "") then ("", clear_last io path h)
    else
      let hash := hash_prefix reminder in
      let '(last, h) := load_last path h in
      if decide (lr_hash <$> last = Some hash) then ("", h)
      else (reminder, save_last io path (mkLast hash) h)
  | _, _ => (reminder, h)
  end.

Definition forget (io : HookIo) (session_id : option string) (h : Hooks) : Hooks :=
  let '(path, h) := state_path session_id h in
  match path with Some path => clear_last io path h | None => h end.

(** ** The stop hook *)

(** The texts of the task tracker, of the question it waits for, and of the critique. *)
Record StopTexts := mkTexts { st_tracker : string; st_waiting : string; st_critique : string }.
Definition push_section (text section : string) : string :=
  if decide (section = "") then text
  else if decide (text = "") then section else text +:+ nl +:+ nl +:+ section.
Definition stop_text (t : StopTexts) : string :=
  push_section (push_section (st_tracker t) (st_waiting t)) (st_critique t).

Context `{HSaved : Codec Saved}.

Definition resolve_stop_reminder (io : HookIo) (session_id : option string) (config : RepeatDetectConfig)
    (payload : json) (texts : StopTexts) (h : Hooks) : string * Hooks :=
  if is_hook_continuation payload then ("", h)
  else
    let '(reminder, h) := emit_once io session_id (stop_text texts) h in
    if rd_enabled config then handle_stop io reminder session_id config h else (reminder, h).

(** ** One call *)

Lemma read_text_not_here k h : hk_files h !! k = None → read_text k h = Missing.
Proof. intros Hn. unfold read_text. by rewrite Hn. Qed.

(** The baseline of a session: the hash its file holds. *)
Definition baseline (id : string) (h : Hooks) : option string :=
  match read_text (json_file DEDUPE_DIR id) h with
  | Got text => lr_hash <$> decode text
  | _ => None
  end.

Lemma load_last_baseline id h :
  lr_hash <$> (load_last (json_file DEDUPE_DIR id) h).1 = baseline id h ∧
  hk_files (load_last (json_file DEDUPE_DIR id) h).2 = hk_files h.
Proof.
  unfold load_last, baseline. destruct (read_text _ h) as [text| |]; [|done..].
  by destruct (decode text).
Qed.
Lemma baseline_files id h h' :
  hk_files h !! json_file DEDUPE_DIR id = hk_files h' !! json_file DEDUPE_DIR id → baseline id h = baseline id h'.
Proof. intros E. unfold baseline, read_text. by rewrite E. Qed.
Lemma baseline_lock io dir k id h : baseline id (lock_state_file io dir k h).2 = baseline id h.
Proof. apply baseline_files, lock_keeps_json. Qed.

Lemma emit_once_tracked io id reminder h : is_valid_short_name id = true →
  ∃ h1, hk_files h1 = hk_files (lock_state_file io DEDUPE_DIR id h).2 ∧
  emit_once io (Some id) reminder h =
    if decide (reminder = "") then ("", clear_last io (json_file DEDUPE_DIR id) h1)
    else if decide (baseline id h = Some (hash_prefix reminder)) then ("", h1)
    else (reminder, save_last io (json_file DEDUPE_DIR id) (mkLast (hash_prefix reminder)) h1).
Proof.
  intros Hv. unfold emit_once, state_path. rewrite Hv. cbn [negb]. cbv zeta.
  change ((json_file DEDUPE_DIR id).1) with DEDUPE_DIR.
  set (h0 := (lock_state_file io DEDUPE_DIR id h).2).
  destruct (decide (reminder = "")) as [->|Hr]; [by exists h0|].
  pose proof (load_last_baseline id h0) as [Hb Hf]. unfold h0 in Hb. rewrite baseline_lock in Hb. fold h0 in Hb.
  destruct (load_last _ h0) as [last h1]. cbn [fst snd] in *. exists h1. split; [done|]. by rewrite Hb.
Qed.

(** A reminder is swallowed only when it is empty or when the session's file holds its hash:
    no lock, no failed write and no damaged file can hide a new one. *)
Theorem emit_once_never_hides (io : HookIo) (session_id : option string) (reminder : string) (h : Hooks) :
  (emit_once io session_id reminder h).1 = reminder ∨
  (emit_once io session_id reminder h).1 = "" ∧
  ∃ id, session_id = Some id ∧ is_valid_short_name id = true ∧ baseline id h = Some (hash_prefix reminder).
Proof.
  destruct session_id as [id|]; [|by left]. destruct (is_valid_short_name id) eqn:Hv.
  - destruct (emit_once_tracked io id reminder h Hv) as (h1 & _ & ->).
    case_decide as Hr; [by left|]. case_decide as Hb; [right|by left]. split; [done|]. by exists id.
  - left. unfold emit_once, state_path. by rewrite Hv.
Qed.

(** ** A session *)

Context `{HLast : !CodecLaws LastReminder}.

Lemma cleared_baseline io id h : io_remove io (json_file DEDUPE_DIR id) = true →
  baseline id (clear_last io (json_file DEDUPE_DIR id) h) = None.
Proof.
  intros Hr. unfold baseline, clear_last, remove_file. case_decide as Hn.
  - by rewrite read_text_not_here.
  - rewrite Hr, read_text_not_here; [done|]. cbn [hk_files]. apply lookup_delete_eq.
Qed.
Lemma saved_baseline io id hash h : io_write io DEDUPE_DIR = true →
  baseline id (save_last io (json_file DEDUPE_DIR id) (mkLast hash) h) = Some hash.
Proof.
  intros Hw. unfold save_last, write_file. cbn [json_file fst]. rewrite Hw.
  unfold baseline, read_text, put_file. cbn [hk_files]. rewrite lookup_insert_eq.
  cbn [fmap option_fmap option_map en_content]. by rewrite decode_encode.
Qed.

(** The stops of a session, and the user's prompts in between. *)
Inductive stop_event := Stop (text : string) | Prompt.
Definition handle_event (id : string) (io : HookIo) (e : stop_event) (h : Hooks) : string * Hooks :=
  match e with
  | Stop text => emit_once io (Some id) text h
  | Prompt => ("", forget io (Some id) h)
  end.
Fixpoint handle_events (id : string) (events : list (HookIo * stop_event)) (h : Hooks) : list string :=
  match events with
  | [] => []
  | (io, e) :: events =>
    let '(answer, h) := handle_event id io e h in answer :: handle_events id events h
  end.

(** The reference: a text is emitted unless it is the last one emitted since the last prompt
    and the last empty reminder. *)
Fixpoint emitted (last : option string) (events : list stop_event) : list string :=
  match events with
  | [] => []
  | Prompt :: events => "" :: emitted None events
  | Stop text :: events =>
    if decide (text = "") then "" :: emitted None events
    else if decide (last = Some text) then "" :: emitted last events
    else text :: emitted (Some text) events
  end.
Definition texts_of (events : list stop_event) : list string :=
  events ≫= λ e, match e with Stop text => [text] | Prompt => [] end.

Lemma handle_events_emitted id events last h :
  is_valid_short_name id = true →
  Forall (λ ie, io_write ie.1 DEDUPE_DIR = true ∧ io_remove ie.1 (json_file DEDUPE_DIR id) = true) events →
  (∀ a b, a ∈ option_list last ++ texts_of events.*2 → b ∈ option_list last ++ texts_of events.*2 →
     hash_prefix a = hash_prefix b → a = b) →
  baseline id h = hash_prefix <$> last →
  handle_events id events h = emitted last events.*2.
Proof.
  intros Hv He. revert last h. induction He as [|[io e] events [Hw Hr] He IH]; intros last h Hi Hb; [done|].
  cbn [handle_events fmap list_fmap fst snd] in *. destruct e as [text|]; cbn [handle_event emitted].
  - destruct (emit_once_tracked io id text h Hv) as (h1 & Hf & ->). case_decide as Ht.
    + f_equal. apply (IH None); [|by apply cleared_baseline].
      intros a b Ha Hb'. apply Hi; apply elem_of_app; right; apply elem_of_app; right; done.
    + rewrite Hb. assert (Heq : hash_prefix <$> last = Some (hash_prefix text) ↔ last = Some text).
      { split; [|by intros ->]. intros (a & -> & E)%fmap_Some. f_equal. symmetry. apply Hi; [| |done]; set_solver. }
      rewrite (decide_ext _ (last = Some text)) by done. case_decide as Hl.
      * f_equal. apply IH; [intros a b Ha Hb'; apply Hi; set_solver|].
        rewrite <-Hb, <-(baseline_lock io DEDUPE_DIR id id h). apply baseline_files. by rewrite Hf.
      * f_equal. apply (IH (Some text)); [intros a b Ha Hb'; apply Hi; set_solver|]. by apply saved_baseline.
  - f_equal. unfold forget, state_path. rewrite Hv. cbn [negb].
    apply (IH None); [intros a b Ha Hb'; apply Hi; set_solver|]. by apply cleared_baseline.
Qed.

(** In a session whose reminders have different hashes, a reminder is emitted exactly when it is
    not the one that was emitted last: a change of the text, an empty reminder or a prompt of the
    user makes it due again, and nothing else does. *)
Theorem emit_once_refines (id : string) (events : list (HookIo * stop_event)) (h : Hooks) :
  is_valid_short_name id = true →
  Forall (λ ie, io_write ie.1 DEDUPE_DIR = true ∧ io_remove ie.1 (json_file DEDUPE_DIR id) = true) events →
  (∀ a b, a ∈ texts_of events.*2 → b ∈ texts_of events.*2 → hash_prefix a = hash_prefix b → a = b) →
  hk_files h !! json_file DEDUPE_DIR id = None →
  handle_events id events h = emitted None events.*2.
Proof.
  intros Hv He Hi Hn. apply handle_events_emitted; [done..|].
  unfold baseline. by rewrite read_text_not_here.
Qed.

(** ** The stop hook ends *)

Lemma handle_stop_other io text id config h k : k.1 ≠ DIR →
  hk_files (handle_stop io text id config h).2 !! k = hk_files h !! k.
Proof.
  intros Hk. unfold handle_stop. case_decide; [done|]. destruct id as [id|]; [|done].
  destruct (is_valid_short_name id); cbn [negb]; [|done]. cbv zeta. rewrite load_lock.
  assert (Hs : ∀ s g, hk_files g !! k = hk_files h !! k →
    hk_files (note_save_failure (save io s g)) !! k = hk_files h !! k).
  { intros s g Hg. unfold save. destruct (read_failed s); [done|]. unfold write_file.
    destruct (io_write io _); cbn [note_save_failure note put_file hk_files];
      [rewrite lookup_insert_ne by (intros <-; by apply Hk)|]; (destruct (json_entry_is_absent _ _); [by rewrite prune_folder_other|done]). }
  pose proof (lock_other io DIR id h k Hk) as Hl.
  destruct (read_text _ h) as [c| |]; [destruct (decode c)|..]; destruct (bump _ _ _) as [last n]; cbn [snd];
    by apply Hs.
Qed.

Lemma emit_once_settled io id text h : is_valid_short_name id = true → text ≠ "" →
  baseline id h = Some (hash_prefix text) →
  ∃ h', emit_once io (Some id) text h = ("", h') ∧ baseline id h' = Some (hash_prefix text).
Proof.
  intros Hv Ht Hb. destruct (emit_once_tracked io id text h Hv) as (h1 & Hf & ->).
  rewrite decide_False, decide_True by done. eexists. split; [done|].
  rewrite <-Hb, <-(baseline_lock io DEDUPE_DIR id id h). apply baseline_files. by rewrite Hf.
Qed.
Lemma emit_once_settles io id text h : is_valid_short_name id = true → text ≠ "" → io_write io DEDUPE_DIR = true →
  baseline id (emit_once io (Some id) text h).2 = Some (hash_prefix text).
Proof.
  intros Hv Ht Hw. destruct (decide (baseline id h = Some (hash_prefix text))) as [Hb|Hb].
  - by destruct (emit_once_settled io id text h Hv Ht Hb) as (h' & -> & ?).
  - destruct (emit_once_tracked io id text h Hv) as (h1 & Hf & ->). rewrite !decide_False by done.
    by apply saved_baseline.
Qed.

Fixpoint run_stops (session_id : option string) (config : RepeatDetectConfig) (stops : list (HookIo * json))
    (texts : StopTexts) (h : Hooks) : list string :=
  match stops with
  | [] => []
  | (io, payload) :: stops =>
    let '(answer, h) := resolve_stop_reminder io session_id config payload texts h in
    answer :: run_stops session_id config stops texts h
  end.

Lemma run_stops_settled id config stops texts h : is_valid_short_name id = true →
  stop_text texts = "" ∨ baseline id h = Some (hash_prefix (stop_text texts)) →
  Forall (λ answer, answer = "") (run_stops (Some id) config stops texts h).
Proof.
  intros Hv. revert h. induction stops as [|[io payload] stops IH]; intros h Hb; [constructor|].
  cbn [run_stops]. unfold resolve_stop_reminder. destruct (is_hook_continuation payload); [constructor; auto|].
  assert (He : ∃ h', emit_once io (Some id) (stop_text texts) h = ("", h') ∧
    (stop_text texts = "" ∨ baseline id h' = Some (hash_prefix (stop_text texts)))).
  { destruct (decide (stop_text texts = "")) as [E|E].
    - destruct (emit_once_tracked io id (stop_text texts) h Hv) as (h1 & _ & ->). rewrite decide_True by done. eauto.
    - destruct Hb as [Hb|Hb]; [done|]. destruct (emit_once_settled io id _ h Hv E Hb) as (h' & -> & ?). eauto. }
  destruct He as (h' & -> & Hb'). destruct (rd_enabled config).
  - unfold handle_stop. rewrite decide_True by done. constructor; auto.
  - constructor; auto.
Qed.

Lemma continued (payload : json) : is_hook_continuation payload = true ↔ json_get "stop_hook_active" payload = Some (JBool true).
Proof.
  unfold is_hook_continuation. rewrite bool_decide_eq_true. destruct (json_get _ payload) as [[| |b| | |]|]; cbn; try naive_solver.
Qed.

(** A stop that no stop hook caused, and whose reminder is saved, settles the session. *)
Lemma stop_settles io id config payload texts h : is_valid_short_name id = true → io_write io DEDUPE_DIR = true →
  is_hook_continuation payload = false →
  let h' := (resolve_stop_reminder io (Some id) config payload texts h).2 in
  stop_text texts = "" ∨ baseline id h' = Some (hash_prefix (stop_text texts)).
Proof.
  intros Hv Hw Hc. unfold resolve_stop_reminder. rewrite Hc. destruct (decide (stop_text texts = "")) as [|Ht]; [by left|].
  right. pose proof (emit_once_settles io id _ h Hv Ht Hw) as Hb. destruct (emit_once io _ _ h) as [reminder h1].
  destruct (rd_enabled config); [|done]. rewrite <-Hb. apply baseline_files. by apply handle_stop_other.
Qed.

Lemma run_stops_head id config io payload stops texts h :
  run_stops id config ((io, payload) :: stops) texts h =
    (resolve_stop_reminder io id config payload texts h).1 ::
    run_stops id config stops texts (resolve_stop_reminder io id config payload texts h).2.
Proof. cbn [run_stops]. by destruct (resolve_stop_reminder _ _ _ _ _ _). Qed.

Lemma run_stops_length id config stops texts h : length (run_stops id config stops texts h) = length stops.
Proof.
  revert h. induction stops as [|[io payload] stops IH]; intros h; [done|]. rewrite run_stops_head. cbn. by rewrite IH.
Qed.

(** C32: the stop hook cannot loop the agent. In the stops of a session, while the texts stay the
    same and the user sends no prompt: a stop whose payload says that a stop hook caused it gets no
    reminder, whatever came before; and after a stop that no stop hook caused and whose baseline
    can be written, no later stop gets one. The first stop of a session does get the whole text
    when the check for repeats is off, so the answers are not empty throughout. *)
Theorem stop_hook_settles (id : string) (config : RepeatDetectConfig) (stops : list (HookIo * json))
    (texts : StopTexts) (h : Hooks) :
  is_valid_short_name id = true →
  let answers := run_stops (Some id) config stops texts h in
  (∀ k io payload, stops !! k = Some (io, payload) →
     json_get "stop_hook_active" payload = Some (JBool true) → answers !! k = Some "") ∧
  (∀ k later io payload, stops !! k = Some (io, payload) →
     json_get "stop_hook_active" payload ≠ Some (JBool true) → io_write io DEDUPE_DIR = true →
     k < later < length stops → answers !! later = Some "") ∧
  (∀ io payload, stops !! 0 = Some (io, payload) → json_get "stop_hook_active" payload ≠ Some (JBool true) →
     rd_enabled config = false → hk_files h !! json_file DEDUPE_DIR id = None →
     answers !! 0 = Some (stop_text texts)).
Proof.
  intros Hv answers. subst answers. split_and!; setoid_rewrite <-continued.
  - revert h. induction stops as [|[io0 payload0] stops IH]; intros h [|k] io payload Hk Hc; [done..| |];
      rewrite run_stops_head.
    + injection Hk as -> ->. unfold resolve_stop_reminder. by rewrite Hc.
    + by eapply IH.
  - revert h. induction stops as [|[io0 payload0] stops IH]; intros h [|k] later io payload Hk Hc Hw Hl; [done..| |];
      rewrite run_stops_head; (destruct later as [|later]; [lia|]); cbn [lookup list_lookup length] in *.
    + injection Hk as -> ->. apply not_true_is_false in Hc.
      pose proof (run_stops_settled id config stops texts _ Hv (stop_settles io id config payload texts h Hv Hw Hc)) as Hs.
      rewrite Forall_lookup in Hs. destruct (lookup_lt_is_Some_2 (run_stops (Some id) config stops texts
        (resolve_stop_reminder io (Some id) config payload texts h).2) later) as [x Hx].
      { rewrite run_stops_length. lia. }
      transitivity (Some x); [exact Hx|]. f_equal. by eapply Hs.
    + eapply IH; [done..|lia].
  - intros io payload Hk Hc Hd Hn. destruct stops as [|[io0 payload0] stops]; [done|]. injection Hk as -> ->.
    rewrite run_stops_head. cbn. f_equal. apply not_true_is_false in Hc. unfold resolve_stop_reminder. rewrite Hc, Hd.
    destruct (emit_once_tracked io id (stop_text texts) h Hv) as (h1 & _ & ->).
    case_decide as Ht; [done|]. by rewrite decide_False by (unfold baseline; by rewrite read_text_not_here).
Qed.
End dedupe.
