(* ===== verification/ReadOnce.v ===== *)
(** * Read-once (src/hook_run/read_once.rs, read_once/cache.rs)

    The first full read of a file passes and is kept in the session's cache; the next one of
    the same unchanged file within the time limit is warned about or denied. *)

From S2P Require Import Prelude RustStr Names Json HookState.

Definition READ_DIR : string := "read_once".

Inductive ReadOnceMode := Warn | Deny.
Global Instance ReadOnceMode_eq_dec : EqDecision ReadOnceMode.
Proof. solve_decision. Defined.
Record ReadOnceConfig := mkRoConfig { ro_enabled : bool; ro_mode : ReadOnceMode; ro_ttl_seconds : N }.

Record ReadEntry := mkReadEntry {
  e_path : string; e_mtime_unix : Z; e_first_read_at : Z; e_hits : N; e_tokens_saved : N }.
(** The part of [SessionCache] that the file holds. *)
Record SessionCache := mkCache { sc_session_id : string; sc_entries : gmap string ReadEntry }.

(** What the file system says of the file to read: its modification time and size ([None]
    without a usable time), and its canonical path, or the path as given. *)
Record FileView := mkView { fv_stamp : string → option (Z * N); fv_key : string → string }.

Definition i64_max : Z := 9223372036854775807.
Definition i64_min : Z := -9223372036854775808.
Definition saturating_sub64 (a b : Z) : Z := Z.max i64_min (Z.min i64_max (a - b)).

Definition within_ttl (now first_read_at : Z) (ttl_seconds : N) : bool :=
  bool_decide (saturating_sub64 now first_read_at < Z.min (Z.of_N ttl_seconds) i64_max)%Z.

Definition session_cache_path (id : string) : string * string := json_file READ_DIR id.

(** The path of a full read: a [Read] call with a path and neither an offset nor a limit. *)
Definition read_target (payload : json) (h : Hooks) : option string * Hooks :=
  if negb (bool_decide (as_str (json_index "tool_name" payload) = Some "Read")) then (None, h)
  else
    match as_object (json_index "tool_input" payload) with
    | None => (None, note (PayloadFault READ_DIR) h)
    | Some tool_input =>
      let '(v, h) := match tool_input !! "file_path" with
        | Some v => (Some v, h)
        | None =>
          match tool_input !! "filePath" with
          | Some v => (Some v, note (DeprecatedKey READ_DIR) h)
          | None => (None, h)
          end
        end in
      match v ≫= as_str with
      | None => (None, note (PayloadFault READ_DIR) h)
      | Some file_path =>
        if bool_decide (is_Some (tool_input !! "offset")) || bool_decide (is_Some (tool_input !! "limit"))
        then (None, h) else (Some file_path, h)
      end
    end.

Definition held_message (file_path : string) (tokens_saved : N) : string :=
  file_path +:+ " was already read this session (~" +:+ pretty tokens_saved +:+
  " tokens saved from re-read). Prefer the copy already in context.".
Definition held (config : ReadOnceConfig) (file_path : string) (tokens_saved : N) : string :=
  let msg := held_message file_path tokens_saved in
  if decide (ro_mode config = Deny) then "__DENY__:" +:+ msg else msg.

Section read_once.
Context `{HCodec : Codec SessionCache}.

Definition prune (now : Z) (ttl_seconds : N) (c : SessionCache) : SessionCache :=
  mkCache (sc_session_id c)
    (filter (λ ke, within_ttl now (e_first_read_at ke.2) ttl_seconds = true) (sc_entries c)).

(** The cache, and whether its file could not be read. *)
Definition load (io : HookIo) (id : string) (ttl_seconds : N) (h : Hooks) : (SessionCache * bool) * Hooks :=
  let '((cache, failed), h) :=
    match read_text (session_cache_path id) h with
    | Got content =>
      match decode content with
      | Some c => ((c, false), h)
      | None => ((mkCache id ∅, false), note (StateCorrupt READ_DIR) h)
      end
    | Missing => ((mkCache id ∅, false), h)
    | Failed => ((mkCache id ∅, true), note (StateUnreadable READ_DIR) h)
    end in
  ((prune (io_now io) ttl_seconds cache, failed), h).

Definition save (io : HookIo) (c : SessionCache) (failed : bool) (h : Hooks) : Hooks :=
  if failed then note (NotSaved READ_DIR) h
  else
    let h := prune_folder io READ_DIR h in
    let '(done, h) := write_file io (session_cache_path (sc_session_id c)) (encode c) h in
    if done then h else note (NotSaved READ_DIR) h.

Definition handle_pre_tool_use (io : HookIo) (view : FileView) (payload : json) (session_id : option string)
    (config : ReadOnceConfig) (h : Hooks) : string * Hooks :=
  let '(target, h) := read_target payload h in
  match target with
  | None => ("", h)
  | Some file_path =>
    match fv_stamp view file_path with
    | None => ("", note (TargetFault file_path) h)
    | Some (mtime, file_size) =>
      match session_id with
      | None => ("", h)
      | Some id =>
        if negb (is_valid_short_name id) then ("", note (BadSessionId READ_DIR) h)
        else
          let path_key := fv_key view file_path in
          let h := (lock_state_file io READ_DIR id h).2 in
          let '((cache, failed), h) := load io id (ro_ttl_seconds config) h in
          let now := io_now io in
          let tokens_saved := (file_size / 4)%N in
          let pass e := ("", save io (mkCache (sc_session_id cache) (<[path_key := e]> (sc_entries cache))) failed h) in
          match sc_entries cache !! path_key with
          | Some entry =>
            if decide (e_mtime_unix entry = mtime) then
              if within_ttl now (e_first_read_at entry) (ro_ttl_seconds config)
              then (held config file_path tokens_saved, h)
              else pass (mkReadEntry (e_path entry) mtime now 0 0)
            else pass (mkReadEntry (e_path entry) mtime now 0 0)
          | None => pass (mkReadEntry file_path mtime now 0 0)
          end
      end
    end
  end.

(** ** The reference *)

(** A read that passes is remembered by its key with the file's time and the hour; the next is
    held back when the file's time is the same and the limit has not passed. *)
Definition still_held (config : ReadOnceConfig) (now mtime : Z) (last : option (Z * Z)) : bool :=
  match last with
  | Some (mtime', t) => bool_decide (mtime' = mtime) && within_ttl now t (ro_ttl_seconds config)
  | None => false
  end.
Definition read_answer (config : ReadOnceConfig) (io : HookIo) (view : FileView) (payload : json)
    (m : gmap string (Z * Z)) : string * gmap string (Z * Z) :=
  match (read_target payload (mkHooks ∅ [])).1 with
  | None => ("", m)
  | Some file_path =>
    match fv_stamp view file_path with
    | None => ("", m)
    | Some (mtime, size) =>
      let key := fv_key view file_path in
      if still_held config (io_now io) mtime (m !! key) then (held config file_path (size / 4)%N, m)
      else ("", <[key := (mtime, io_now io)]> m)
    end
  end.

Fixpoint handle_reads (config : ReadOnceConfig) (id : string) (reads : list (HookIo * FileView * json)) (h : Hooks)
  : list string :=
  match reads with
  | [] => []
  | (io, view, payload) :: reads =>
    let '(answer, h) := handle_pre_tool_use io view payload (Some id) config h in
    answer :: handle_reads config id reads h
  end.
Fixpoint read_answers (config : ReadOnceConfig) (reads : list (HookIo * FileView * json)) (m : gmap string (Z * Z))
  : list string :=
  match reads with
  | [] => []
  | (io, view, payload) :: reads =>
    let '(answer, m) := read_answer config io view payload m in answer :: read_answers config reads m
  end.

(** ** Lemmas *)

Lemma read_target_stateless payload h h' : (read_target payload h).1 = (read_target payload h').1.
Proof. unfold read_target. repeat case_match; simplify_eq/=; done. Qed.
Lemma read_target_files payload h : hk_files (read_target payload h).2 = hk_files h.
Proof. unfold read_target. repeat case_match; simplify_eq/=; done. Qed.

Lemma within_ttl_mono now now' t ttl : (now ≤ now')%Z → within_ttl now t ttl = false → within_ttl now' t ttl = false.
Proof. unfold within_ttl, saturating_sub64, i64_min, i64_max. rewrite !bool_decide_eq_false. lia. Qed.

Context `{HLaws : !CodecLaws SessionCache}.

(** The entries of a cache hold what the reference remembers, less what has expired by [T]. *)
Definition agrees (T : Z) (ttl : N) (m : gmap string (Z * Z)) (entries : gmap string ReadEntry) : Prop :=
  ∀ k, match entries !! k, m !! k with
       | Some e, last => last = Some (e_mtime_unix e, e_first_read_at e)
       | None, Some (_, t) => within_ttl T t ttl = false
       | None, None => True
       end.
Definition holds (id : string) (T : Z) (ttl : N) (m : gmap string (Z * Z)) (h : Hooks) : Prop :=
  match read_text (session_cache_path id) h with
  | Got content => ∃ c, decode content = Some c ∧ sc_session_id c = id ∧ agrees T ttl m (sc_entries c)
  | Missing => agrees T ttl m ∅
  | Failed => False
  end.

Lemma agrees_prune T now ttl m c : (T ≤ now)%Z → agrees T ttl m (sc_entries c) →
  agrees now ttl m (sc_entries (prune now ttl c)).
Proof.
  intros Hle Ha k. specialize (Ha k). cbn [prune sc_entries]. destruct (sc_entries c !! k) as [e|] eqn:E.
  - destruct (within_ttl now (e_first_read_at e) ttl) eqn:Hw.
    + rewrite (proj2 (map_lookup_filter_Some _ _ k e)) by (split; done). done.
    + rewrite (proj2 (map_lookup_filter_None _ _ k)); [by rewrite Ha|]. right. intros e' He'. simplify_eq. cbn. congruence.
  - rewrite (proj2 (map_lookup_filter_None _ _ k)) by (by left). destruct (m !! k) as [[? t]|]; [|done].
    by eapply within_ttl_mono.
Qed.
Lemma agrees_insert T ttl m entries k e :
  agrees T ttl m entries → agrees T ttl (<[k := (e_mtime_unix e, e_first_read_at e)]> m) (<[k := e]> entries).
Proof.
  intros Ha k'. destruct (decide (k = k')) as [->|Hk]; [by rewrite !lookup_insert_eq|].
  rewrite !lookup_insert_ne by done. apply Ha.
Qed.

Lemma load_holds io id T ttl m h : (T ≤ io_now io)%Z → holds id T ttl m h →
  ∃ c, load io id ttl h = ((c, false), h) ∧ sc_session_id c = id ∧ agrees (io_now io) ttl m (sc_entries c).
Proof.
  intros Hle. unfold holds, load. destruct (read_text _ h) as [content| |]; [| |done].
  - intros (c & -> & Hi & Ha). eexists. split; [done|]. split; [done|]. by eapply agrees_prune.
  - intros Ha. eexists. split; [done|]. split; [done|]. by apply (agrees_prune T _ _ _ (mkCache id ∅)).
Qed.
Lemma cache_holds_lock io dir k id T ttl m h : holds id T ttl m h → holds id T ttl m (lock_state_file io dir k h).2.
Proof. unfold holds, session_cache_path. by rewrite lock_keeps_text. Qed.
Lemma holds_files id T ttl m h h' : hk_files h = hk_files h' → holds id T ttl m h → holds id T ttl m h'.
Proof. intros E. unfold holds, read_text. by rewrite E. Qed.
Lemma holds_later id T T' ttl m h : (T ≤ T')%Z → holds id T ttl m h → holds id T' ttl m h.
Proof.
  intros Hle. assert (Hm : ∀ e, agrees T ttl m e → agrees T' ttl m e).
  { intros e Ha k. specialize (Ha k). destruct (e !! k), (m !! k) as [[]|]; try done. by eapply within_ttl_mono. }
  unfold holds. destruct (read_text _ h); naive_solver.
Qed.
Lemma cache_save_holds io id ttl m c h : io_write io READ_DIR = true → sc_session_id c = id →
  agrees (io_now io) ttl m (sc_entries c) → holds id (io_now io) ttl m (save io c false h).
Proof.
  intros Hw Hi Ha. unfold save, write_file. rewrite Hi. cbn [session_cache_path json_file fst]. rewrite Hw.
  unfold holds, read_text, put_file, session_cache_path. cbn [hk_files]. rewrite lookup_insert_eq.
  cbn [fmap option_fmap option_map en_content]. rewrite decode_encode. eauto.
Qed.

Lemma handle_read config id io view payload T m h :
  is_valid_short_name id = true → io_write io READ_DIR = true → (T ≤ io_now io)%Z →
  holds id T (ro_ttl_seconds config) m h →
  ∃ h', handle_pre_tool_use io view payload (Some id) config h = ((read_answer config io view payload m).1, h') ∧
        holds id (io_now io) (ro_ttl_seconds config) (read_answer config io view payload m).2 h'.
Proof.
  intros Hv Hw HT Hh. unfold handle_pre_tool_use, read_answer.
  rewrite (read_target_stateless payload (mkHooks ∅ []) h).
  pose proof (read_target_files payload h) as Hf. destruct (read_target payload h) as [target h0]. cbn [fst snd] in *.
  apply (holds_files _ _ _ _ _ h0) in Hh; [|done]. pose proof (holds_later _ _ _ _ _ _ HT Hh) as Hh'.
  destruct target as [file_path|]; [|by eexists].
  destruct (fv_stamp view file_path) as [[mtime size]|]; [|by eexists; split; [done|]].
  rewrite Hv. cbn [negb]. cbv zeta.
  destruct (load_holds io id T _ m _ HT (cache_holds_lock io READ_DIR id id _ _ _ _ Hh)) as (c & -> & Hi & Ha).
  pose proof (Ha (fv_key view file_path)) as Hk.
  assert (Hpass : ∀ e, e_mtime_unix e = mtime → e_first_read_at e = io_now io →
    holds id (io_now io) (ro_ttl_seconds config) (<[fv_key view file_path := (mtime, io_now io)]> m)
      (save io (mkCache (sc_session_id c) (<[fv_key view file_path := e]> (sc_entries c))) false
         (lock_state_file io READ_DIR id h0).2)).
  { intros e Hm Ht. apply cache_save_holds; [done..|]. cbn [sc_entries].
    pose proof (agrees_insert (io_now io) _ _ _ (fv_key view file_path) e Ha) as Hg. by rewrite Hm, Ht in Hg. }
  destruct (sc_entries c !! fv_key view file_path) as [e|].
  - rewrite Hk. cbn [still_held]. case_decide as Hm; cbn; [rewrite bool_decide_true by done|rewrite bool_decide_false by done].
    + destruct (within_ttl _ _ _); cbn; eexists; (split; [done|]); [by apply cache_holds_lock|by apply Hpass].
    + cbn. eexists. split; [done|]. by apply Hpass.
  - assert (Hn : still_held config (io_now io) mtime (m !! fv_key view file_path) = false).
    { destruct (m !! fv_key view file_path) as [[mt t]|]; [|done]. cbn. rewrite Hk. by rewrite andb_false_r. }
    rewrite Hn. eexists. split; [done|]. by apply Hpass.
Qed.

(** C35: the cache implements the memory of the session's reads. A read is held back exactly when the
    last read of the same file that passed saw the same modification time and lies within the
    limit; a first read, a changed file, a partial read and a file without a usable time pass. The
    entries that the cache drops, and the files that the sweeps remove, change no answer as long as
    the clock does not go back and the cache can be saved. *)
Theorem read_once_refines (config : ReadOnceConfig) (id : string) (reads : list (HookIo * FileView * json)) (h : Hooks) :
  is_valid_short_name id = true →
  Forall (λ r, io_write r.1.1 READ_DIR = true) reads →
  Sorted Z.le ((λ r, io_now r.1.1) <$> reads) →
  hk_files h !! session_cache_path id = None →
  handle_reads config id reads h = read_answers config reads ∅.
Proof.
  intros Hv Hw Hs Hn.
  assert (Hh : ∀ T, holds id T (ro_ttl_seconds config) ∅ h).
  { intros T. unfold holds, read_text. rewrite Hn. intros k. by rewrite !lookup_empty. }
  assert (HT : ∃ T, Forall (λ r, T ≤ io_now r.1.1)%Z reads ∧ holds id T (ro_ttl_seconds config) ∅ h).
  { destruct reads as [|r reads]; [by exists 0%Z|]. exists (io_now r.1.1). split; [|done].
    apply Sorted_StronglySorted in Hs; [|intros x y z; lia]. cbn in Hs. apply StronglySorted_cons in Hs as [Hs _].
    constructor; [lia|]. rewrite Forall_fmap in Hs. exact Hs. }
  clear Hh Hn. destruct HT as (T & HT & Hh). revert T HT h Hh. generalize (∅ : gmap string (Z * Z)) as m.
  apply Sorted_StronglySorted in Hs; [|intros x y z; lia].
  induction reads as [|[[io view] payload] reads IH]; intros m T HT h Hh; [done|].
  apply Forall_cons in Hw as [Hw Hws]. apply Forall_cons in HT as [HT _]. rewrite fmap_cons in Hs.
  apply StronglySorted_cons in Hs as [Hle Hs]. cbn [fst] in *. cbn [handle_reads read_answers].
  destruct (handle_read config id io view payload T m h Hv Hw HT Hh) as (h' & -> & Hh').
  destruct (read_answer config io view payload m) as [answer m']. cbn [fst snd] in *. f_equal.
  eapply IH; [done..| |exact Hh']. rewrite Forall_fmap in Hle. exact Hle.
Qed.
End read_once.
