(* ===== verification/Idempotency.v ===== *)
(** * Request ids and the seen-set (src/hook_run/idempotency.rs)

    A detached call is named by an id; the ids of the calls that succeeded are kept per key, the
    newest thousand, so that a call that is spawned twice runs once. *)

From S2P Require Import Prelude RustStr Names Json HookState.

Definition SEEN_DIR : string := "idempotency".
Definition MAX_IDS : nat := 1000.

(** [(len as u64).to_le_bytes()]. *)
Definition byte_of (n : N) : ascii := Ascii.ascii_of_N (n mod 256).
Fixpoint le_bytes (count : nat) (n : N) : string :=
  match count with
  | 0 => ""
  | S count => String (byte_of n) (le_bytes count (n / 256))
  end.
Fixpoint framed (parts : list string) : string :=
  match parts with
  | [] => ""
  | part :: parts => le_bytes 8 (N.of_nat (String.length part) mod (u64_max + 1)) +:+ part +:+ framed parts
  end.
Definition request_id `{Digest} (parts : list string) : string := hash_prefix (framed parts).

Definition state_key `{Digest} (raw : string) : string :=
  if is_valid_short_name raw then raw else hash_prefix raw.

Section seen.
Context `{HCodec : Codec (list string)}.

Definition read (key : string) (h : Hooks) : option (list string) * Hooks :=
  match read_bytes (json_file SEEN_DIR key) h with
  | Got bytes =>
    match decode bytes with
    | Some ids => (Some ids, h)
    | None => (Some [], note (StateCorrupt SEEN_DIR) h)
    end
  | Missing => (Some [], h)
  | Failed => (None, note (StateUnreadable SEEN_DIR) h)
  end.

Definition contains (io : HookIo) (key id : string) (h : Hooks) : bool * Hooks :=
  let '(locked, h) := lock_state_file io SEEN_DIR key h in
  if negb locked then (false, h)
  else
    let '(ids, h) := read key h in
    (match ids with Some ids => bool_decide (id ∈ ids) | None => false end, h).

(** [push_back], then [drain(..excess)]. *)
Definition push_id (ids : list string) (id : string) : list string :=
  let ids := ids ++ [id] in drop (length ids - MAX_IDS) ids.

Definition record (io : HookIo) (key id : string) (h : Hooks) : Hooks :=
  let '(locked, h) := lock_state_file io SEEN_DIR key h in
  if negb locked then h
  else
    let '(ids, h) := read key h in
    match ids with
    | None => h
    | Some ids =>
      if decide (id ∈ ids) then h
      else
        let h := prune_folder io SEEN_DIR h in
        let '(done, h) := write_file io (json_file SEEN_DIR key) (encode (push_id ids id)) h in
        if done then h else note (NotSaved SEEN_DIR) h
    end.

(** [Guard]: what one detached call is guarded by. *)
Record Guard := mkGuard { g_key : string; g_id : string }.
Definition new_guard `{Digest} (has_state_dir : bool) (key id : string) : option Guard :=
  if decide (id = "") then None
  else if has_state_dir then Some (mkGuard (state_key key) id) else None.
Definition already_done (io : HookIo) (g : Guard) (h : Hooks) : bool * Hooks := contains io (g_key g) (g_id g) h.
Definition mark_done (io : HookIo) (g : Guard) (h : Hooks) : Hooks := record io (g_key g) (g_id g) h.

(** ** The detached calls that are guarded *)

(** The check, the call, and the mark after it succeeded. [None]: the call was skipped;
    otherwise whether it succeeded. The two file accesses have answers of their own. *)
Definition guarded_call `{Digest} (io_check io_mark : HookIo) (has_state_dir : bool) (key id : string) (call : bool)
    (h : Hooks) : option bool * Hooks :=
  match new_guard has_state_dir key id with
  | None => (Some call, h)
  | Some g =>
    let '(done, h) := already_done io_check g h in
    if done then (None, h)
    else if call then (Some true, mark_done io_mark g h) else (Some false, h)
  end.

(** [take]: a text field of the arguments, which leaves them. *)
Definition take_field (field : string) (args : json) : string * json :=
  match args with
  | JObj m => (default "" (m !! field ≫= as_str), JObj (delete field m))
  | _ => ("", args)
  end.
(** [store_once]: the arguments that reach the service, when it is called. *)
Definition store_once `{Digest} (id_field key_field : string) (io_check io_mark : HookIo) (has_state_dir : bool)
    (args : json) (call : json → bool) (h : Hooks) : option json * bool * Hooks :=
  let '(id, args) := take_field id_field args in
  let '(key, args) := take_field key_field args in
  let args' := match args with
    | JObj m => if decide (id = "") then args else JObj (<["keywords" := JArr [JStr ("request:" +:+ id)]]> m)
    | _ => args
    end in
  let '(outcome, h) := guarded_call io_check io_mark has_state_dir key id (call args') h in
  match outcome with
  | None => (None, true, h)
  | Some ok => (Some args', ok, h)
  end.
(** [record_once] and [store_rule] guard one call each in the same way. *)
Definition record_once `{Digest} (io_check io_mark : HookIo) (has_state_dir : bool) (session_id request : string)
    (call : bool) (h : Hooks) : option bool * Hooks :=
  guarded_call io_check io_mark has_state_dir session_id request call h.
Definition store_rule `{Digest} (io_check io_mark : HookIo) (has_state_dir : bool) (project run_id rule : string)
    (call : bool) (h : Hooks) : option bool * Hooks :=
  guarded_call io_check io_mark has_state_dir project (request_id [project; "consolidation"; run_id; rule]) call h.

(** ** Many attempts *)

Record Attempt := mkAttempt {
  at_check : HookIo; at_mark : HookIo; at_key : string; at_id : string; at_call : bool }.
(** The calls that reached the service and whose answer of success arrived, the latest first. *)
Fixpoint attempts_done `{Digest} (attempts : list Attempt) (acc : list (string * string)) (h : Hooks)
  : list (string * string) :=
  match attempts with
  | [] => acc
  | a :: attempts =>
    let '(outcome, h) := guarded_call (at_check a) (at_mark a) true (at_key a) (at_id a) (at_call a) h in
    attempts_done attempts
      (if decide (outcome = Some true) then (state_key (at_key a), at_id a) :: acc else acc) h
  end.

Context `{HLaws : !CodecLaws (list string), HDigest : DigestLaws}.

Lemma state_key_valid raw : is_valid_short_name (state_key raw) = true.
Proof. unfold state_key. destruct (is_valid_short_name raw) eqn:E; [done|]. apply hash_short_name. Qed.

(** The files hold the ids of the successful calls, none is older than [T], and none is full. *)
Definition ids_at (key : string) (h : Hooks) : option (list string) := (read key h).1.
Definition young (T : Z) (key : string) (h : Hooks) : Prop :=
  ∀ e, hk_files h !! json_file SEEN_DIR key = Some e → ∃ t, en_stamp e = Some t ∧ (T ≤ t)%Z.
Definition seen_inv (T : Z) (done : list (string * string)) (h : Hooks) : Prop :=
  ∀ key, ∃ ids, ids_at key h = Some ids ∧ (∀ id, id ∈ ids ↔ (key, id) ∈ done) ∧
    length ids ≤ length done ∧ young T key h.

Lemma ids_at_file key h h' :
  hk_files h !! json_file SEEN_DIR key = hk_files h' !! json_file SEEN_DIR key → ids_at key h = ids_at key h'.
Proof.
  intros E. unfold ids_at, read, read_bytes. rewrite E. destruct (en_content <$> _) as [[s|s tail|s|]|]; try done;
    by destruct (decode _).
Qed.
Lemma seen_inv_files T done h h' :
  (∀ key, hk_files h !! json_file SEEN_DIR key = hk_files h' !! json_file SEEN_DIR key) →
  seen_inv T done h → seen_inv T done h'.
Proof.
  intros E Hi key. destruct (Hi key) as (ids & H1 & H2 & H3 & H4). exists ids.
  rewrite <-(ids_at_file key h h') by done. split; [done|]. split; [done|]. split; [done|].
  intros e He. apply H4. by rewrite E.
Qed.
Lemma read_files key h : hk_files (read key h).2 = hk_files h.
Proof. unfold read. destruct (read_bytes _ h); [destruct (decode _)|..]; done. Qed.

Lemma young_survives io T key e h : (io_now io ≤ T + 7 * 86400)%Z →
  hk_files h !! json_file SEEN_DIR key = Some e → young T key h →
  hk_files (prune_folder io SEEN_DIR h) !! json_file SEEN_DIR key = Some e.
Proof.
  intros Hn He Hy. apply prune_folder_lookup. split; [done|]. destruct (Hy e He) as (t & Ht & Hle).
  assert (Hs : is_stale (io_now io) STALE_DAYS e = false).
  { unfold is_stale, file_age. rewrite Ht. cbn. apply bool_decide_eq_false. unfold max_age, STALE_DAYS, u64_max. lia. }
  rewrite Hs. naive_solver.
Qed.
Lemma prune_keeps_seen io T done h key : (io_now io ≤ T + 7 * 86400)%Z → seen_inv T done h →
  hk_files (prune_folder io SEEN_DIR h) !! json_file SEEN_DIR key = hk_files h !! json_file SEEN_DIR key.
Proof.
  intros Hn Hi. destruct (hk_files h !! json_file SEEN_DIR key) as [e|] eqn:He.
  - destruct (Hi key) as (_ & _ & _ & _ & Hy). by eapply young_survives.
  - apply eq_None_not_Some. intros [e (He' & _)%prune_folder_lookup]. congruence.
Qed.

Lemma contains_spec io key id T done h : is_valid_short_name key = true → io_lock io SEEN_DIR = Taken →
  seen_inv T done h →
  ∃ h', contains io key id h = (bool_decide ((key, id) ∈ done), h') ∧ seen_inv T done h'.
Proof.
  intros Hv Hl Hi. unfold contains. destruct (lock_state_file io SEEN_DIR key h) as [locked h1] eqn:E.
  assert (Hlocked : locked = true).
  { unfold lock_state_file in E. rewrite Hv, Hl in E. cbn in E. congruence. }
  rewrite Hlocked. cbn [negb].
  assert (H1 : seen_inv T done h1).
  { eapply seen_inv_files; [|exact Hi]. intros k.
    pose proof (lock_keeps_json io SEEN_DIR key h SEEN_DIR k) as Hk. by rewrite E in Hk. }
  destruct (H1 key) as (ids & Hids & Hmem & _). pose proof (read_files key h1) as Hf. unfold ids_at in Hids.
  destruct (read key h1) as [o h2]. cbn [fst snd] in *. subst o. exists h2. split.
  - f_equal. by apply bool_decide_ext.
  - eapply seen_inv_files; [|exact H1]. intros k. by rewrite Hf.
Qed.

Lemma record_spec io key id T done h : is_valid_short_name key = true → io_lock io SEEN_DIR = Taken →
  io_write io SEEN_DIR = true → (T ≤ io_now io ≤ T + 7 * 86400)%Z → length done < MAX_IDS → (key, id) ∉ done →
  seen_inv T done h → seen_inv T ((key, id) :: done) (record io key id h).
Proof.
  intros Hv Hl Hw Hn Hlen Hnew Hi. unfold record. destruct (lock_state_file io SEEN_DIR key h) as [locked h1] eqn:E.
  assert (Hlocked : locked = true).
  { unfold lock_state_file in E. rewrite Hv, Hl in E. cbn in E. congruence. }
  rewrite Hlocked. cbn [negb].
  assert (H1 : seen_inv T done h1).
  { eapply seen_inv_files; [|exact Hi]. intros k.
    pose proof (lock_keeps_json io SEEN_DIR key h SEEN_DIR k) as Hk. by rewrite E in Hk. }
  destruct (H1 key) as (ids & Hids & Hmem & Hidl & _). pose proof (read_files key h1) as Hf. unfold ids_at in Hids.
  destruct (read key h1) as [o h2]. cbn [fst snd] in *. subst o. rewrite decide_False by (by rewrite Hmem).
  assert (H2 : seen_inv T done h2).
  { eapply seen_inv_files; [|exact H1]. intros k. by rewrite Hf. }
  unfold write_file. cbn [json_file fst]. rewrite Hw.
  assert (Hpush : push_id ids id = ids ++ [id]).
  { unfold push_id. rewrite length_app. cbn [length]. replace (length ids + 1 - MAX_IDS) with 0 by lia. apply drop_0. }
  intros key'. destruct (decide (key' = key)) as [->|Hne].
  - exists (ids ++ [id]). unfold ids_at, read, read_bytes, put_file. cbn [hk_files]. rewrite lookup_insert_eq.
    cbn [fmap option_fmap option_map en_content]. rewrite decode_encode, Hpush. split; [done|].
    split; [intros i; rewrite elem_of_app, list_elem_of_singleton, elem_of_cons, Hmem; naive_solver|].
    split; [rewrite length_app; cbn; lia|]. unfold young. cbn [hk_files]. rewrite lookup_insert_eq. intros e [=<-].
    cbn [en_stamp]. exists (io_now io). split; [done|lia].
  - destruct (H2 key') as (ids' & Hids' & Hmem' & Hidl' & Hy').
    assert (Hsame : hk_files h2 !! json_file SEEN_DIR key' =
      hk_files (put_file (json_file SEEN_DIR key) (mkEntry (Text (encode (push_id ids id))) (Some (io_now io)))
        (prune_folder io SEEN_DIR h2)) !! json_file SEEN_DIR key').
    { cbn [put_file hk_files]. rewrite lookup_insert_ne by (intros E'; by apply (inj _) in E').
      symmetry. eapply prune_keeps_seen; [|exact H2]. lia. }
    exists ids'. rewrite <-(ids_at_file _ _ _ Hsame). split; [done|].
    split; [intros i; rewrite elem_of_cons, Hmem'; naive_solver|]. split; [cbn; lia|].
    intros e He. apply Hy'. by rewrite Hsame.
Qed.

(** What the file system must answer for the seen-set to work: locks and writes succeed, and no
    seven days pass. *)
Definition seen_io (T : Z) (io : HookIo) : Prop :=
  io_lock io SEEN_DIR = Taken ∧ io_write io SEEN_DIR = true ∧ (T ≤ io_now io ≤ T + 7 * 86400)%Z.

Lemma attempts_done_spec T attempts acc h :
  Forall (λ a, seen_io T (at_check a) ∧ seen_io T (at_mark a) ∧ at_id a ≠ "") attempts →
  length acc + length attempts ≤ MAX_IDS → NoDup acc → seen_inv T acc h →
  let done := attempts_done attempts acc h in
  NoDup done ∧ ∀ p, p ∈ done ↔ p ∈ acc ∨ ∃ a, a ∈ attempts ∧ at_call a = true ∧ p = (state_key (at_key a), at_id a).
Proof.
  cbn zeta. intros Ha. revert acc h. induction Ha as [|a attempts (Hc & Hm & Hid) Ha IH]; intros acc h Hlen Hd Hi.
  - cbn [attempts_done]. split; [done|]. intros p. split; [by left|]. intros [?|(a & Hin & _)]; [done|].
    by apply not_elem_of_nil in Hin.
  - cbn [attempts_done]. unfold guarded_call, new_guard. rewrite decide_False by done.
    unfold already_done. cbn [g_key g_id]. set (key := state_key (at_key a)).
    destruct (contains_spec (at_check a) key (at_id a) T acc h (state_key_valid _) (proj1 Hc) Hi) as (h1 & -> & Hi1).
    cbn [length] in Hlen. case_bool_decide as Hin.
    + cbn [negb]. rewrite decide_False by done. destruct (IH acc h1) as [Hd' Hmem]; [lia|done..|]. split; [done|].
      intros p. rewrite Hmem. split; [set_solver|]. intros [?|(a' & [->|Hin']%elem_of_cons & Hok & ->)]; [by left| |].
      * by left.
      * right. eauto.
    + destruct (at_call a) eqn:Hcall.
      * rewrite decide_True by done. unfold mark_done. cbn [g_key g_id].
        destruct (IH ((key, at_id a) :: acc) (record (at_mark a) key (at_id a) h1)) as [Hd' Hmem].
        { cbn. lia. }
        { by apply NoDup_cons. }
        { destruct Hm as (Hm1 & Hm2 & Hm3). apply record_spec; [apply state_key_valid|done|done|done|lia|done|done]. }
        split; [done|]. intros p. rewrite Hmem. set_solver.
      * rewrite decide_False by done. destruct (IH acc h1) as [Hd' Hmem]; [lia|done..|]. split; [done|].
        intros p. rewrite Hmem. split; [set_solver|]. intros [?|(a' & [->|Hin']%elem_of_cons & Hok & ->)]; [by left|congruence|].
        right. eauto.
Qed.

(** C30: what the seen-set gives for attempts that run one after another. Let them be at most a
    thousand, of any keys and non-empty request ids and in any order; let the seen-set be empty at
    the start and every lock and save succeed, and let all clocks lie within one span of seven
    days. Then an event that has an attempt which the service would answer with success is
    answered with success exactly once, however often it is attempted, and an event without such an
    attempt is never taken for done. An attempt whose answer is lost is one that was not answered:
    it is sent again, and the service may have stored the event both times. *)
Theorem attempts_exactly_once (T : Z) (attempts : list Attempt) (h : Hooks) :
  Forall (λ a, seen_io T (at_check a) ∧ seen_io T (at_mark a) ∧ at_id a ≠ "") attempts →
  length attempts ≤ 1000 →
  (∀ key, hk_files h !! json_file SEEN_DIR key = None) →
  NoDup (attempts_done attempts [] h) ∧
  ∀ p, p ∈ attempts_done attempts [] h ↔
       ∃ a, a ∈ attempts ∧ at_call a = true ∧ p = (state_key (at_key a), at_id a).
Proof.
  intros Ha Hlen Hn. destruct (attempts_done_spec T attempts [] h) as [Hd Hmem]; [done|done|constructor| |].
  - intros key. exists []. unfold ids_at, read, read_bytes, young. rewrite Hn. split; [done|].
    split; [intros id; split; intros E; by apply not_elem_of_nil in E|]. split; [done|]. done.
  - split; [done|]. intros p. rewrite Hmem. set_solver.
Qed.
End seen.

(** ** Ids *)

Lemma le_bytes_length count n : String.length (le_bytes count n) = count.
Proof. revert n. induction count as [|count IH]; intros n; [done|]. cbn. by rewrite IH. Qed.
Lemma le_bytes_inj count n m : le_bytes count n = le_bytes count m →
  (n mod 256 ^ N.of_nat count = m mod 256 ^ N.of_nat count)%N.
Proof.
  revert n m. induction count as [|count IH]; intros n m; [by rewrite !N.mod_1_r|].
  cbn [le_bytes]. intros [= Hb Hr]. apply (f_equal Ascii.N_of_ascii) in Hb. unfold byte_of in Hb.
  rewrite !Ascii.N_ascii_embedding in Hb by (apply N.mod_lt; done). apply IH in Hr.
  rewrite Nat2N.inj_succ, N.pow_succ_r', !N.Div0.mod_mul_r, Hb, Hr. done.
Qed.

(** The framing of the parts of an id loses nothing: two lists of parts with the same bytes are
    the same list, so two events share an id only when the digest collides. *)
Theorem framed_injective `{Digest} (parts parts' : list string) :
  Forall (λ p, N.of_nat (String.length p) ≤ u64_max)%N (parts ++ parts') →
  (framed parts = framed parts' ↔ parts = parts') ∧
  (request_id parts = request_id parts' →
   parts = parts' ∨ framed parts ≠ framed parts' ∧ hash_prefix (framed parts) = hash_prefix (framed parts')).
Proof.
  intros Hl. assert (Hinj : framed parts = framed parts' → parts = parts').
  { apply Forall_app in Hl as [Hl Hl']. revert parts' Hl'. induction Hl as [|p parts Hp Hl IH]; intros [|q parts'] Hl' E; [done..|].
    apply Forall_cons in Hl' as [Hq Hl']. cbn [framed] in E. pose proof (f_equal (str_drop 8) E) as E'.
    assert (Hcut : le_bytes 8 (N.of_nat (String.length p) mod (u64_max + 1)) =
                   le_bytes 8 (N.of_nat (String.length q) mod (u64_max + 1)) ∧
                   p +:+ framed parts = q +:+ framed parts').
    { clear E'. revert E. generalize (p +:+ framed parts), (q +:+ framed parts').
      generalize (N.of_nat (String.length p) mod (u64_max + 1))%N, (N.of_nat (String.length q) mod (u64_max + 1))%N.
      intros a b s t E. cbn [le_bytes] in *. rewrite !str_app_cons, !str_app_nil_l in E.
      injection E. intros. split; congruence. }
    destruct Hcut as [Hlen Hrest]. apply le_bytes_inj in Hlen. unfold u64_max in *.
    rewrite !N.mod_small in Hlen by (cbn; try apply N.mod_lt; lia).
    assert (Hpq : String.length p = String.length q) by lia.
    assert (Hboth : p = q ∧ framed parts = framed parts').
    { clear -Hpq Hrest. revert q Hpq Hrest. induction p as [|c p IH]; intros [|d q] Hpq Hrest; try done.
      rewrite !str_app_cons in Hrest. injection Hrest as -> Hrest. injection Hpq as Hpq.
      by destruct (IH _ Hpq Hrest) as [-> ->]. }
    destruct Hboth as [-> Hf]. f_equal. by apply IH. }
  split; [split; [done|by intros ->]|]. intros E. destruct (decide (parts = parts')) as [|Hne]; [by left|right].
  split; [naive_solver|exact E].
Qed.
