(* ===== verification/Framing.v ===== *)
(** * Framed bytes (crates/llmenv-util/src/lib.rs)

    A text goes into a digest after its length, and a list after its count, so that no two inputs
    have the same bytes. An encoder that can be cut off the front of a longer text is
    [self_cut]; pairs, options of a tag and counted lists of such encoders are [self_cut] too. *)

From S2P Require Import Prelude RustStr TaskStore JsonMerge Bundles Idempotency.

(** [update_len_prefixed], and the count of a list. *)
Definition len_prefixed (data : string) : string := le_bytes 8 (N.of_nat (String.length data) mod (u64_max + 1)) +:+ data.
Definition count_bytes {A} (l : list A) : string := le_bytes 8 (N.of_nat (length l) mod (u64_max + 1)).

Definition fits (s : string) : Prop := (N.of_nat (String.length s) ≤ u64_max)%N.
Lemma fits_app s t : fits (s +:+ t) → fits s ∧ fits t.
Proof. unfold fits. rewrite str_length_app. lia. Qed.
Lemma head_cut p q s t : String.length p = String.length q → p +:+ s = q +:+ t → p = q ∧ s = t.
Proof.
  revert q. induction p as [|c p IH]; intros [|d q]; try done. intros [= El]. rewrite !str_app_cons. intros [= -> E].
  by destruct (IH q El E) as [-> ->].
Qed.
Lemma number_cut n m r r' : (n ≤ u64_max)%N → (m ≤ u64_max)%N →
  le_bytes 8 (n mod (u64_max + 1)) +:+ r = le_bytes 8 (m mod (u64_max + 1)) +:+ r' → n = m ∧ r = r'.
Proof.
  intros Hn Hm E. apply head_cut in E as [E Er]; [|by rewrite !le_bytes_length]. split; [|done].
  apply le_bytes_inj in E. unfold u64_max in *. rewrite !(N.mod_small _ (_ + 1)) in E by lia.
  by rewrite !N.mod_small in E by (cbn; lia).
Qed.
Lemma prefixed_cut a b r r' : fits (len_prefixed a +:+ r) → fits (len_prefixed b +:+ r') →
  len_prefixed a +:+ r = len_prefixed b +:+ r' → a = b ∧ r = r'.
Proof.
  unfold len_prefixed. rewrite !str_app_assoc. intros [_ [Ha _]%fits_app]%fits_app [_ [Hb _]%fits_app]%fits_app E.
  apply number_cut in E as [El E]; [|done..]. apply head_cut in E; [done|lia].
Qed.
Lemma join_cons s ss : join "" (s :: ss) = s +:+ join "" ss.
Proof. apply (of_chars_cons s ss). Qed.

Lemma count_fits {X} (enc : X → string → Prop) l ss r :
  (∀ x s, enc x s → s ≠ "") → Forall2 enc l ss → fits (join "" ss +:+ r) → (N.of_nat (length l) ≤ u64_max)%N.
Proof.
  intros Hne H Hf. apply fits_app in Hf as [Hf _]. unfold fits in Hf. etrans; [|exact Hf]. clear Hf.
  induction H as [|x s l ss Hx _ IH]; [done|]. rewrite join_cons, str_length_app. cbn [length].
  specialize (Hne x s Hx). destruct s; [done|]. cbn [String.length]. lia.
Qed.

(** Two lists of parts with one text, each part with its own end, are alike. *)
Section parts.
Context {X Y : Type} (enc : X → string → Prop) (enc' : Y → string → Prop) (alike : X → Y → Prop).
Hypothesis cut : ∀ x y s s' r r', enc x s → enc' y s' → fits (s +:+ r) → fits (s' +:+ r') →
  s +:+ r = s' +:+ r' → alike x y ∧ r = r'.
Lemma parts_cut l l' ss ss' r r' : Forall2 enc l ss → Forall2 enc' l' ss' → length l = length l' →
  fits (join "" ss +:+ r) → fits (join "" ss' +:+ r') →
  join "" ss +:+ r = join "" ss' +:+ r' → Forall2 alike l l' ∧ r = r'.
Proof.
  intros H. revert l' ss'. induction H as [|x s l ss Hx _ IH]; intros l' ss' H'; inversion H' as [|y s' k ks' Hy Hk]; subst;
    [by intros _ _ _ E|done|done|].
  intros [= El]. rewrite !join_cons, !str_app_assoc. intros Hf Hf' E.
  destruct (cut x y s s' _ _ Hx Hy Hf Hf' E) as [Ha Er]. apply fits_app in Hf as [_ Hf], Hf' as [_ Hf'].
  destruct (IH k ks' Hk El Hf Hf' Er) as [Hall ->]. split; [by constructor|done].
Qed.
Hypothesis nonempty : ∀ x s, enc x s → s ≠ "".
Hypothesis nonempty' : ∀ x s, enc' x s → s ≠ "".
Lemma counted_cut l l' ss ss' r r' : Forall2 enc l ss → Forall2 enc' l' ss' →
  fits (count_bytes l +:+ join "" ss +:+ r) → fits (count_bytes l' +:+ join "" ss' +:+ r') →
  count_bytes l +:+ join "" ss +:+ r = count_bytes l' +:+ join "" ss' +:+ r' → Forall2 alike l l' ∧ r = r'.
Proof.
  intros H H' [_ Hf]%fits_app [_ Hf']%fits_app E.
  pose proof (count_fits enc l ss r nonempty H Hf). pose proof (count_fits enc' l' ss' r' nonempty' H' Hf').
  apply number_cut in E as [El E]; [|done..]. apply (parts_cut l l' ss ss'); [done|done|lia|done..].
Qed.
End parts.

(** ** Encoders that are functions *)

Definition enc_list {A} (enc : A → string) (l : list A) : string := count_bytes l +:+ join "" (map enc l).

Class SelfCut {A} (enc : A → string) := self_cut : ∀ x y r r', fits (enc x +:+ r) → fits (enc y +:+ r') →
  enc x +:+ r = enc y +:+ r' → x = y ∧ r = r'.
Class NonEmpty {A} (enc : A → string) := enc_nonempty : ∀ x, enc x ≠ "".
Lemma self_cut_inj `{SelfCut A enc} x y : fits (enc x) → enc x = enc y → x = y.
Proof.
  intros Hf E. destruct (self_cut x y "" "") as [-> _]; [|rewrite <-E| |done]; rewrite !str_app_nil_r; done.
Qed.

#[export] Instance prefixed_self_cut : SelfCut len_prefixed.
Proof. intros x y r r'. apply prefixed_cut. Qed.
#[export] Instance prefixed_nonempty : NonEmpty len_prefixed.
Proof. intros x. done. Qed.
(** A part of a pair goes before the other one. *)
Definition enc_pair {A B} (f : A → string) (g : B → string) (p : A * B) : string := f p.1 +:+ g p.2.
#[export] Instance pair_self_cut {A B} (f : A → string) (g : B → string) `{!SelfCut f, !SelfCut g} : SelfCut (enc_pair f g).
Proof.
  intros [a b] [a' b'] r r'. unfold enc_pair. cbn [fst snd]. rewrite !str_app_assoc. intros Hf Hf' E.
  destruct (self_cut a a' _ _ Hf Hf' E) as [-> E']. apply fits_app in Hf as [_ Hf], Hf' as [_ Hf'].
  by destruct (self_cut b b' _ _ Hf Hf' E') as [-> ->].
Qed.
#[export] Instance pair_nonempty {A B} (f : A → string) (g : B → string) `{!NonEmpty f} : NonEmpty (enc_pair f g).
Proof.
  intros [a b]. unfold enc_pair. cbn [fst snd]. pose proof (enc_nonempty (enc:=f) a) as Hne. by destruct (f a).
Qed.
#[export] Instance list_self_cut {A} (enc : A → string) `{!SelfCut enc, !NonEmpty enc} : SelfCut (enc_list enc).
Proof.
  intros l l' r r'. unfold enc_list. rewrite !str_app_assoc. intros Hf Hf' E.
  assert (Hall : ∀ k, Forall2 (λ x s, enc x = s) k (map enc k)) by (intros k; induction k; by constructor).
  assert (Hne : ∀ x s, enc x = s → s ≠ "") by (intros x ? <-; apply enc_nonempty).
  destruct (counted_cut (λ x s, enc x = s) (λ x s, enc x = s) eq) with (l:=l) (l':=l') (4:=Hall l) (5:=Hall l') (8:=E)
    as [El ->]; [|done..|].
  { intros x y ? ? t t' <- <-. apply self_cut. }
  split; [|done]. by apply list_eq_Forall2.
Qed.
#[export] Instance list_nonempty {A} (enc : A → string) : NonEmpty (enc_list enc).
Proof. intros l. done. Qed.
(** A byte in front says which of two encoders follows. *)
Definition enc_either {A B} (t u : string) (f : A → string) (g : B → string) (x : A + B) : string :=
  match x with inl a => t +:+ f a | inr b => u +:+ g b end.
Lemma either_self_cut {A B} t u (f : A → string) (g : B → string) `{!SelfCut f, !SelfCut g} :
  String.length t = String.length u → t ≠ u → SelfCut (enc_either t u f g).
Proof.
  intros Hl Hne [a|b] [a'|b'] r r'; unfold enc_either; rewrite !str_app_assoc; intros Hf Hf' E;
    apply head_cut in E as [Et E]; try done; apply fits_app in Hf as [_ Hf], Hf' as [_ Hf'].
  - by destruct (self_cut a a' _ _ Hf Hf' E) as [-> ->].
  - by destruct (self_cut b b' _ _ Hf Hf' E) as [-> ->].
Qed.
