(* ===== verification/SessionLedger.v ===== *)
(** * The recall ledger of a session (src/hook_run/session_ledger.rs)

    One ledger per session: what each agent's context was sent, the latest activity and errors,
    and the tasks of subagents that have not started yet. Every ring is bounded, because the hooks
    of a session that runs for days all write to it. *)

From S2P Require Import Prelude RustStr Names Json HookState.

Definition MAIN_AGENT : string := "main".
Definition ACTIVITY_CAP : nat := 20.
Definition ERRORS_CAP : nat := 5.
Definition PENDING_CAP : nat := 8.
Definition MAX_AGENTS : nat := 32.
Definition PENDING_TTL_SECS : Z := 300.
Definition ERROR_HEAD_BYTES : nat := 300.
Definition TASK_HEAD_CHARS : nat := 600.
Definition LEDGER_DIR : string := "recall_session".

Record AgentState := mkAgentState { ag_sent : gset string; ag_scope_sent : bool }.
Definition default_agent : AgentState := mkAgentState ∅ false.

Record Activity := mkActivity { ac_tool : string; ac_target : option string; ac_at : Z }.
Record ToolError := mkToolError { te_tool : string; te_head : string; te_at : Z }.
Record PendingSubagent := mkPending {
  ps_tool_use_id : string; ps_subagent_type : string; ps_task : string; ps_at : Z }.
(** The fields of a [SessionStart]; the cost by its text. *)
Record ResumeCache := mkResumeCache {
  rc_seconds : option N; rc_context_tokens : option N; rc_expired : option bool; rc_cost : option number }.

Record Ledger := mkLedger {
  lg_epoch : N;
  lg_agents : gmap string AgentState;
  lg_activity : list Activity;
  lg_resume_cache : option ResumeCache;
  lg_errors : list ToolError;
  lg_last_query_hash : option string;
  lg_last_turn_at : Z;
  lg_pending : list PendingSubagent;
  lg_project : option string }.
Definition default_ledger : Ledger := mkLedger 0 ∅ [] None [] None 0 [] None.

Definition set_agents (agents : gmap string AgentState) (l : Ledger) : Ledger :=
  mkLedger (lg_epoch l) agents (lg_activity l) (lg_resume_cache l) (lg_errors l) (lg_last_query_hash l)
    (lg_last_turn_at l) (lg_pending l) (lg_project l).
Definition set_pending (pending : list PendingSubagent) (l : Ledger) : Ledger :=
  mkLedger (lg_epoch l) (lg_agents l) (lg_activity l) (lg_resume_cache l) (lg_errors l) (lg_last_query_hash l)
    (lg_last_turn_at l) pending (lg_project l).

(** ** Operations *)

Definition reset (l : Ledger) : Ledger :=
  mkLedger (N.min (lg_epoch l + 1) u64_max) ∅ (lg_activity l) (lg_resume_cache l) (lg_errors l)
    (lg_last_query_hash l) (lg_last_turn_at l) (lg_pending l) (lg_project l).

Definition sent_for (agent : string) (l : Ledger) : gset string :=
  default ∅ (ag_sent <$> lg_agents l !! agent).
Definition scope_sent (agent : string) (l : Ledger) : bool :=
  default false (ag_scope_sent <$> lg_agents l !! agent).
Definition knows_agent (agent : string) (l : Ledger) : bool := bool_decide (is_Some (lg_agents l !! agent)).

(** [agent_mut]: room for [agent], then its entry changed by [f]. *)
Definition victim (agents : gmap string AgentState) : option string :=
  find_first (λ k, k ≠ MAIN_AGENT) (btree_entries agents).*1.
Definition make_room (agent : string) (agents : gmap string AgentState) : gmap string AgentState :=
  if decide (agents !! agent = None ∧ MAX_AGENTS ≤ size agents) then
    match victim agents with Some v => delete v agents | None => agents end
  else agents.
Definition agent_mut (agent : string) (f : AgentState → AgentState) (l : Ledger) : Ledger :=
  let agents := make_room agent (lg_agents l) in
  set_agents (<[agent := f (default default_agent (agents !! agent))]> agents) l.
Definition mark_sent (agent : string) (hashes : list string) (l : Ledger) : Ledger :=
  agent_mut agent (λ a, mkAgentState (ag_sent a ∪ list_to_set hashes) (ag_scope_sent a)) l.
Definition set_scope_sent (agent : string) (l : Ledger) : Ledger :=
  agent_mut agent (λ a, mkAgentState (ag_sent a) true) l.

Definition push_capped {T} (ring : list T) (entry : T) (cap : nat) : list T :=
  let ring := ring ++ [entry] in drop (length ring - cap) ring.

(** The longest prefix within [max] bytes that ends between two characters. *)
Definition is_char_boundary (s : string) (i : nat) : bool :=
  match str_drop i s with "" => true | String c _ => negb (is_continuation c) end.
Fixpoint floor_from (s : string) (i : nat) : nat :=
  if is_char_boundary s i then i else match i with 0 => 0 | S i => floor_from s i end.
Definition floor_char_boundary (s : string) (max : nat) : nat :=
  if decide (String.length s ≤ max) then String.length s else floor_from s max.
Definition head_bytes (text : string) (max : nat) : string := str_take (floor_char_boundary text max) text.

Definition activity_since (at_ : Z) (l : Ledger) : bool :=
  match last (lg_activity l) with Some a => bool_decide (at_ < ac_at a)%Z | None => false end.
Definition push_activity (entry : Activity) (l : Ledger) : Ledger :=
  mkLedger (lg_epoch l) (lg_agents l) (push_capped (lg_activity l) entry ACTIVITY_CAP) (lg_resume_cache l)
    (lg_errors l) (lg_last_query_hash l) (lg_last_turn_at l) (lg_pending l) (lg_project l).
Definition push_error (tool error : string) (now : Z) (l : Ledger) : Ledger :=
  let entry := mkToolError tool (head_bytes error ERROR_HEAD_BYTES) now in
  mkLedger (lg_epoch l) (lg_agents l) (lg_activity l) (lg_resume_cache l)
    (push_capped (lg_errors l) entry ERRORS_CAP) (lg_last_query_hash l) (lg_last_turn_at l) (lg_pending l) (lg_project l).

Definition i64_sub (a b : Z) : Z :=
  Z.max (-9223372036854775808) (Z.min 9223372036854775807 (a - b)).
Definition drop_expired (now : Z) (l : Ledger) : Ledger :=
  set_pending (filter (λ p, i64_sub now (ps_at p) ≤ PENDING_TTL_SECS)%Z (lg_pending l)) l.
Definition queue_subagent (tool_use_id subagent_type prompt : string) (now : Z) (l : Ledger) : Ledger :=
  let l := drop_expired now l in
  if existsb (λ p, bool_decide (ps_tool_use_id p = tool_use_id)) (lg_pending l) then l
  else
    let entry := mkPending tool_use_id subagent_type (of_chars (take TASK_HEAD_CHARS (chars prompt))) now in
    set_pending (push_capped (lg_pending l) entry PENDING_CAP) l.
(** [position], then [remove] at the index. *)
Fixpoint take_first {T} (p : T → bool) (l : list T) : option (T * list T) :=
  match l with
  | [] => None
  | x :: l =>
    if p x then Some (x, l)
    else match take_first p l with Some (y, l) => Some (y, x :: l) | None => None end
  end.
Definition take_subagent (agent_type : string) (now : Z) (l : Ledger) : option PendingSubagent * Ledger :=
  let l := drop_expired now l in
  match take_first (λ p, bool_decide (ps_subagent_type p = agent_type)) (lg_pending l) with
  | Some (p, rest) => (Some p, set_pending rest l)
  | None => (None, l)
  end.
Definition drop_subagent (tool_use_id : string) (l : Ledger) : Ledger :=
  set_pending (filter (λ p, ps_tool_use_id p ≠ tool_use_id) (lg_pending l)) l.

(** ** The store *)

Section store.
Context `{HCodec : Codec Ledger}.

Definition ledger_read (key : string) (h : Hooks) : option Ledger * Hooks :=
  match read_bytes (json_file LEDGER_DIR key) h with
  | Got bytes =>
    match decode bytes with
    | Some l => (Some l, h)
    | None => (Some default_ledger, note (StateCorrupt LEDGER_DIR) h)
    end
  | Missing => (Some default_ledger, h)
  | Failed => (None, h)
  end.
Definition ledger_write (io : HookIo) (key : string) (l : Ledger) (h : Hooks) : bool * Hooks :=
  let h := prune_folder io LEDGER_DIR h in
  let '(done, h) := write_file io (json_file LEDGER_DIR key) (encode l) h in
  if done then (true, h) else (false, note (NotSaved LEDGER_DIR) h).
Definition ledger_load (io : HookIo) (key : string) (h : Hooks) : option Ledger * Hooks :=
  let '(locked, h) := lock_state_file io LEDGER_DIR key h in
  if locked then ledger_read key h else (None, h).
(** [update_reporting_save]: the result of the change and whether it reached the disk. *)
Definition ledger_update {T} (io : HookIo) (key : string) (f : Ledger → T * Ledger) (h : Hooks)
  : option (T * bool) * Hooks :=
  let '(locked, h) := lock_state_file io LEDGER_DIR key h in
  if negb locked then (None, h)
  else
    let '(l, h) := ledger_read key h in
    match l with
    | None => (None, h)
    | Some l =>
      let '(result, l) := f l in
      let '(saved, h) := ledger_write io key l h in (Some (result, saved), h)
    end.
End store.

(** ** What the operations keep *)

Inductive Op :=
| Reset
| MarkSent (agent : string) (hashes : list string)
| SetScopeSent (agent : string)
| PushActivity (entry : Activity)
| PushError (tool error : string) (now : Z)
| QueueSubagent (tool_use_id subagent_type prompt : string) (now : Z)
| TakeSubagent (agent_type : string) (now : Z)
| DropSubagent (tool_use_id : string).
Definition apply_op (op : Op) (l : Ledger) : Ledger :=
  match op with
  | Reset => reset l
  | MarkSent agent hashes => mark_sent agent hashes l
  | SetScopeSent agent => set_scope_sent agent l
  | PushActivity entry => push_activity entry l
  | PushError tool error now => push_error tool error now l
  | QueueSubagent id ty prompt now => queue_subagent id ty prompt now l
  | TakeSubagent ty now => (take_subagent ty now l).2
  | DropSubagent id => drop_subagent id l
  end.

Lemma push_capped_length {T} (ring : list T) entry cap : length (push_capped ring entry cap) ≤ cap.
Proof. unfold push_capped. rewrite length_drop. lia. Qed.
Lemma push_capped_Forall {T} (P : T → Prop) ring entry cap :
  Forall P ring → P entry → Forall P (push_capped ring entry cap).
Proof. intros Hr He. unfold push_capped. apply Forall_drop, Forall_app. split; [done|by constructor]. Qed.

(** *** The agents *)

Lemma victim_Some agents v : victim agents = Some v → is_Some (agents !! v) ∧ v ≠ MAIN_AGENT.
Proof.
  intros [Hin Hv]%find_first_Some. split; [|done]. apply list_elem_of_fmap in Hin as ([k a] & -> & Hin).
  apply elem_of_btree in Hin. eauto.
Qed.
Lemma victim_None agents : victim agents = None → size agents ≤ 1.
Proof.
  intros Hf%find_first_None. rewrite Forall_forall in Hf.
  assert (Hsub : agents ⊆ filter (λ ka, ka.1 = MAIN_AGENT) agents).
  { apply map_subseteq_spec. intros k a Ha. apply map_lookup_filter_Some. split; [done|]. cbn.
    destruct (decide (k = MAIN_AGENT)) as [|Hne]; [done|]. exfalso. eapply Hf; [|exact Hne].
    apply list_elem_of_fmap. exists (k, a). split; [done|]. by apply elem_of_btree. }
  destruct (agents !! MAIN_AGENT) as [a|] eqn:Ha.
  - assert (Heq : agents ⊆ {[MAIN_AGENT := a]}).
    { apply map_subseteq_spec. intros k b Hb. pose proof (lookup_weaken _ _ _ _ Hb Hsub) as Hb'.
      apply map_lookup_filter_Some in Hb' as [_ Hk]. cbn in Hk. subst k. rewrite lookup_singleton_eq. congruence. }
    apply map_subseteq_size in Heq. by rewrite map_size_singleton in Heq.
  - assert (Heq : agents = ∅).
    { apply map_eq. intros k. rewrite lookup_empty. apply eq_None_not_Some. intros [b Hb].
      pose proof (lookup_weaken _ _ _ _ Hb Hsub) as Hb'. apply map_lookup_filter_Some in Hb' as [_ Hk]. cbn in Hk. congruence. }
    rewrite Heq, map_size_empty. lia.
Qed.

Lemma make_room_size agent agents : size agents ≤ MAX_AGENTS →
  make_room agent agents !! agent = None → size (make_room agent agents) < MAX_AGENTS.
Proof.
  intros Hs. unfold make_room. case_decide as Hr.
  - intros _. destruct (victim agents) as [v|] eqn:Hv.
    + apply victim_Some in Hv as [[a Ha] _]. rewrite map_size_delete_Some by eauto. unfold MAX_AGENTS in *. lia.
    + apply victim_None in Hv. unfold MAX_AGENTS. lia.
  - intros Hn. destruct (decide (MAX_AGENTS ≤ size agents)); [naive_solver|lia].
Qed.
Lemma make_room_le agent agents : size agents ≤ MAX_AGENTS → size (make_room agent agents) ≤ MAX_AGENTS.
Proof.
  intros Hs. unfold make_room. case_decide; [|done]. destruct (victim agents); [|done].
  etrans; [|exact Hs]. apply map_subseteq_size, delete_subseteq.
Qed.
Lemma agent_mut_size agent f l : size (lg_agents l) ≤ MAX_AGENTS → size (lg_agents (agent_mut agent f l)) ≤ MAX_AGENTS.
Proof.
  intros Hs. unfold agent_mut. cbn [set_agents lg_agents].
  destruct (make_room agent (lg_agents l) !! agent) as [a|] eqn:Ha.
  - rewrite map_size_insert_Some by eauto. by apply make_room_le.
  - rewrite map_size_insert_None by done. by apply make_room_size.
Qed.

(** What changing the entry of [agent] leaves of another. *)
Lemma agent_mut_same agent f l :
  lg_agents (agent_mut agent f l) !! agent = Some (f (default default_agent (lg_agents l !! agent))).
Proof.
  unfold agent_mut. cbn [set_agents lg_agents]. rewrite lookup_insert_eq. do 3 f_equal. unfold make_room.
  case_decide as Hr; [|done]. destruct (victim (lg_agents l)) as [v|] eqn:Hv; [|done].
  apply victim_Some in Hv as [[a Ha] _]. rewrite lookup_delete_ne; [done|]. intros ->. naive_solver.
Qed.
Lemma agent_mut_other agent f l other : other ≠ agent →
  lg_agents (agent_mut agent f l) !! other = lg_agents l !! other ∨
  other ≠ MAIN_AGENT ∧ lg_agents (agent_mut agent f l) !! other = None.
Proof.
  intros Hne. unfold agent_mut. cbn [set_agents lg_agents]. rewrite lookup_insert_ne by done. unfold make_room.
  case_decide; [|by left]. destruct (victim (lg_agents l)) as [v|] eqn:Hv; [|by left].
  apply victim_Some in Hv as [_ Hv]. destruct (decide (v = other)) as [->|Hvo].
  - right. split; [done|]. apply lookup_delete_eq.
  - left. by apply lookup_delete_ne.
Qed.

(** The part of what [agent] was sent that one operation adds. *)
Definition marked (agent : string) (op : Op) : gset string :=
  match op with
  | MarkSent a hashes => if decide (a = agent) then list_to_set hashes else ∅
  | _ => ∅
  end.

Lemma sent_agent_mut agent other f l : let l' := agent_mut agent f l in
  sent_for other l' = (if decide (other = agent) then ag_sent (f (default default_agent (lg_agents l !! agent))) else sent_for other l) ∨
  other ≠ agent ∧ other ≠ MAIN_AGENT ∧ knows_agent other l' = false ∧ sent_for other l' = ∅.
Proof.
  cbn zeta. unfold sent_for, knows_agent. case_decide as Ho.
  - subst other. left. by rewrite agent_mut_same.
  - destruct (agent_mut_other agent f l other Ho) as [->|[Hm ->]]; [by left|right].
    split; [done|]. split; [done|]. split; [|done]. apply bool_decide_eq_false. by intros [? ?].
Qed.

(** A context is never sent what it was sent before. Until the epoch ends, what an agent was sent
    stays recorded, and is exactly extended by what is marked for it; only the whole entry of a
    subagent can go, to make room for another, and never the entry of the main agent. *)
Theorem sent_records_kept (op : Op) (agent : string) (l : Ledger) :
  op ≠ Reset →
  sent_for agent (apply_op op l) = sent_for agent l ∪ marked agent op ∨
  agent ≠ MAIN_AGENT ∧ knows_agent agent (apply_op op l) = false ∧ marked agent op = ∅.
Proof.
  intros Hop. destruct op as [|a hashes|a|entry|tool error now|id ty prompt now|ty now|id];
    cbn [apply_op marked]; try done.
  - unfold mark_sent. destruct (sent_agent_mut a agent (λ s, mkAgentState (ag_sent s ∪ list_to_set hashes) (ag_scope_sent s)) l)
      as [->|(H1 & H2 & H3 & H4)].
    + left. case_decide as Ha; [subst a|].
      * rewrite decide_True by done. cbn [ag_sent]. unfold sent_for. by destruct (lg_agents l !! agent).
      * rewrite decide_False by congruence. set_solver.
    + right. rewrite decide_False by congruence. done.
  - unfold set_scope_sent. destruct (sent_agent_mut a agent (λ s, mkAgentState (ag_sent s) true) l)
      as [->|(H1 & H2 & H3 & H4)].
    + left. case_decide as Ha; [subst a|set_solver].
      cbn [ag_sent]. unfold sent_for. destruct (lg_agents l !! agent); cbn; set_solver.
    + by right.
  - left. unfold sent_for. cbn. set_solver.
  - left. unfold sent_for. cbn. set_solver.
  - left. unfold sent_for, queue_subagent. destruct (existsb _ _); cbn; set_solver.
  - left. unfold sent_for, take_subagent. destruct (take_first _ _) as [[p rest]|]; cbn; set_solver.
  - left. unfold sent_for. cbn. set_solver.
Qed.

(** *** Bounds *)

Lemma floor_from_spec s i : floor_from s i ≤ i ∧ is_char_boundary s (floor_from s i) = true ∨ floor_from s i = 0.
Proof.
  induction i as [|i IH]; cbn [floor_from].
  - destruct (is_char_boundary s 0) eqn:E; [left; split; [lia|exact E]|by right].
  - destruct (is_char_boundary s (S i)) eqn:E; [left; split; [lia|exact E]|].
    destruct IH as [[H1 H2]|H1]; [left; split; [lia|done]|by right].
Qed.
Lemma floor_char_boundary_le s max : floor_char_boundary s max ≤ max.
Proof.
  unfold floor_char_boundary. case_decide; [done|]. destruct (floor_from_spec s max) as [[? _]| ->]; lia.
Qed.
Lemma head_bytes_length s max : String.length (head_bytes s max) ≤ max.
Proof. unfold head_bytes. rewrite str_take_length. pose proof (floor_char_boundary_le s max). lia. Qed.

(** A head is a prefix of the text within the limit that ends between two characters, and no
    longer prefix does: what comes next up to the limit is inside one character. *)
Theorem head_bytes_correct (text : string) (max : nat) :
  starts_char text = true →
  let head := head_bytes text max in
  (∃ rest, text = head +:+ rest ∧ starts_char rest = true) ∧ String.length head ≤ max ∧
  (∀ n, String.length head < n ≤ max → n ≤ String.length text → is_char_boundary text n = false).
Proof.
  intros Hs. cbn zeta. split; [|split; [apply head_bytes_length|]].
  - exists (str_drop (floor_char_boundary text max) text). split; [symmetry; apply str_take_drop|].
    assert (Hb : is_char_boundary text (floor_char_boundary text max) = true).
    { unfold floor_char_boundary. case_decide as Hl.
      - unfold is_char_boundary. rewrite <-(str_app_nil_r text) at 2. by rewrite str_drop_app.
      - destruct (floor_from_spec text max) as [[_ ?]|E]; [done|]. rewrite E. unfold is_char_boundary.
        cbn [str_drop]. by destruct text. }
    unfold is_char_boundary in Hb. by destruct (str_drop _ text).
  - unfold head_bytes. rewrite str_take_length. intros n Hn Hle. unfold floor_char_boundary in Hn.
    destruct (decide (String.length text ≤ max)) as [Hl|Hl]; [lia|].
    assert (Hlt : floor_from text max < n ≤ max).
    { destruct (floor_from_spec text max) as [[? _]|E]; lia. }
    clear Hn Hl. induction max as [|max IH]; [cbn in Hlt; destruct (is_char_boundary text 0); lia|].
    cbn [floor_from] in Hlt. destruct (is_char_boundary text (S max)) eqn:E; [lia|].
    destruct (decide (n = S max)) as [->|Hne]; [done|]. apply IH; lia.
Qed.

(** The bounds, in numbers. *)
Definition ledger_ok (l : Ledger) : Prop :=
  (lg_epoch l < 2 ^ 64)%N ∧ size (lg_agents l) ≤ 32 ∧
  length (lg_activity l) ≤ 20 ∧
  length (lg_errors l) ≤ 5 ∧ Forall (λ e, String.length (te_head e) ≤ 300) (lg_errors l) ∧
  length (lg_pending l) ≤ 8 ∧ NoDup (ps_tool_use_id <$> lg_pending l) ∧
  Forall (λ p, length (chars (ps_task p)) ≤ 600) (lg_pending l).

Lemma ledger_ok_pending l pending : ledger_ok l → sublist pending (lg_pending l) → ledger_ok (set_pending pending l).
Proof.
  intros (H1 & H2 & H3 & H4 & H5 & H6 & H7 & H8) Hs. unfold ledger_ok, set_pending. cbn.
  repeat (split; [done|]). split; [apply sublist_length in Hs; lia|]. split.
  - eapply sublist_NoDup; [exact H7|]. by apply fmap_sublist.
  - rewrite Forall_forall in *. intros p Hp. apply H8. eapply elem_of_sublist; eauto.
Qed.
Lemma take_first_Some {T} (p : T → bool) l x rest : take_first p l = Some (x, rest) →
  ∃ pre post, l = pre ++ x :: post ∧ rest = pre ++ post ∧ p x = true ∧ Forall (λ y, p y = false) pre.
Proof.
  revert rest. induction l as [|y l IH]; intros rest; cbn [take_first]; [done|]. destruct (p y) eqn:Hy.
  - intros [= -> ->]. by exists [], rest.
  - destruct (take_first p l) as [[z l']|]; [|done]. intros [= -> <-].
    destruct (IH l' eq_refl) as (pre & post & -> & -> & Hp & Hpre). exists (y :: pre), post.
    repeat split; auto.
Qed.
Lemma take_first_None {T} (p : T → bool) l : take_first p l = None → Forall (λ y, p y = false) l.
Proof.
  induction l as [|y l IH]; cbn [take_first]; [done|]. destruct (p y) eqn:Hy; [done|].
  destruct (take_first p l) as [[? ?]|]; [done|]. intros _. constructor; auto.
Qed.
Lemma drop_expired_ok now l : ledger_ok l → ledger_ok (drop_expired now l).
Proof. intros Hl. apply ledger_ok_pending; [done|]. apply sublist_filter. Qed.

Lemma apply_op_ok op l : ledger_ok l → ledger_ok (apply_op op l).
Proof.
  intros Hl. pose proof Hl as (H1 & H2 & H3 & H4 & H5 & H6 & H7 & H8). destruct op as [|a hashes|a|entry|tool error now|id ty prompt now|ty now|id];
    cbn [apply_op].
  - unfold ledger_ok, reset. cbn. rewrite map_size_empty. split; [unfold u64_max; lia|]. split; [lia|]. done.
  - unfold mark_sent. split; [done|]. split; [by apply agent_mut_size|done].
  - unfold set_scope_sent. split; [done|]. split; [by apply agent_mut_size|done].
  - unfold ledger_ok, push_activity. cbn. split; [done|]. split; [done|]. split; [apply push_capped_length|done].
  - unfold ledger_ok, push_error. cbn. do 3 (split; [done|]). split; [apply push_capped_length|].
    split; [|done]. apply push_capped_Forall; [done|]. cbn. apply head_bytes_length.
  - unfold queue_subagent. pose proof (drop_expired_ok now l Hl) as Hd. destruct (existsb _ _) eqn:E; [done|].
    destruct Hd as (D1 & D2 & D3 & D4 & D5 & D6 & D7 & D8). unfold ledger_ok, set_pending. cbn [lg_pending lg_epoch lg_agents lg_activity lg_errors].
    do 5 (split; [done|]). split; [apply push_capped_length|]. split.
    + unfold push_capped. rewrite fmap_drop. eapply sublist_NoDup; [|apply sublist_drop]. rewrite fmap_app. apply NoDup_app.
      split; [done|]. split; [|apply NoDup_singleton]. intros x (p & -> & Hp)%list_elem_of_fmap Hx%list_elem_of_singleton.
      apply not_true_iff_false in E. apply E, existsb_exists. exists p. split; [by apply list_elem_of_In|].
      by apply bool_decide_eq_true.
    + apply push_capped_Forall; [done|]. cbn [ps_task]. rewrite chars_take, length_take. unfold TASK_HEAD_CHARS. lia.
  - unfold take_subagent. pose proof (drop_expired_ok now l Hl) as Hd. destruct (take_first _ _) as [[p rest]|] eqn:E; cbn [snd]; [|done].
    apply take_first_Some in E as (pre & post & E & -> & _). apply ledger_ok_pending; [done|].
    rewrite E. apply sublist_app; [done|]. by apply sublist_cons.
  - apply ledger_ok_pending; [done|]. apply sublist_filter.
Qed.

(** C36: whatever the hooks of a session do, in any order and for however long, its ledger stays within
    its bounds: at most 32 agents, 20 activities, 5 errors of at most 300 bytes, and 8 waiting
    tasks of at most 600 characters with different ids. *)
Theorem ledger_stays_bounded (ops : list Op) : ledger_ok (foldl (λ l op, apply_op op l) default_ledger ops).
Proof.
  assert (Hgen : ∀ l, ledger_ok l → ledger_ok (foldl (λ l op, apply_op op l) l ops)).
  { induction ops as [|op ops IH]; intros l Hl; [done|]. apply IH, apply_op_ok, Hl. }
  apply Hgen. unfold ledger_ok. cbn. rewrite map_size_empty.
  repeat split; try constructor; lia.
Qed.

(** ** Waiting tasks *)

Definition waiting (now : Z) (l : Ledger) : list PendingSubagent :=
  filter (λ p, i64_sub now (ps_at p) ≤ PENDING_TTL_SECS)%Z (lg_pending l).

(** A subagent that starts gets the oldest task of its type that has not expired, and the task
    leaves the queue, which keeps the others in order. A task that was queued before is not queued
    again, and a new one goes to the end, where it displaces the oldest of eight others. *)
Theorem subagent_queue_correct (l : Ledger) (agent_type id prompt : string) (now : Z) :
  match take_subagent agent_type now l with
  | (Some p, l') => ∃ pre post, waiting now l = pre ++ p :: post ∧ lg_pending l' = pre ++ post ∧
      ps_subagent_type p = agent_type ∧ Forall (λ q, ps_subagent_type q ≠ agent_type) pre
  | (None, l') => lg_pending l' = waiting now l ∧ Forall (λ q, ps_subagent_type q ≠ agent_type) (waiting now l)
  end ∧
  lg_pending (queue_subagent id agent_type prompt now l) =
    if decide (id ∈ ps_tool_use_id <$> waiting now l) then waiting now l
    else
      let entry := mkPending id agent_type (of_chars (take TASK_HEAD_CHARS (chars prompt))) now in
      drop (S (length (waiting now l)) - PENDING_CAP) (waiting now l ++ [entry]).
Proof.
  split.
  - unfold take_subagent. change (lg_pending (drop_expired now l)) with (waiting now l).
    destruct (take_first _ _) as [[p rest]|] eqn:E.
    + apply take_first_Some in E as (pre & post & E & -> & Hp & Hpre). exists pre, post.
      split; [done|]. split; [done|]. split; [by apply bool_decide_eq_true in Hp|].
      eapply Forall_impl; [exact Hpre|]. intros q Hq. by apply bool_decide_eq_false in Hq.
    + apply take_first_None in E. split; [done|]. eapply Forall_impl; [exact E|].
      intros q Hq. by apply bool_decide_eq_false in Hq.
  - unfold queue_subagent. change (lg_pending (drop_expired now l)) with (waiting now l).
    destruct (existsb _ _) eqn:E.
    + apply existsb_exists in E as (p & Hp & Hi%bool_decide_eq_true). rewrite decide_True; [done|].
      apply list_elem_of_fmap. exists p. split; [done|]. by apply list_elem_of_In.
    + rewrite decide_False.
      * unfold push_capped. cbn [lg_pending set_pending]. rewrite length_app. cbn [length]. by rewrite Nat.add_1_r.
      * intros (p & -> & Hp)%list_elem_of_fmap. apply not_true_iff_false in E. apply E, existsb_exists.
        exists p. split; [by apply list_elem_of_In|]. by apply bool_decide_eq_true.
Qed.

(** ** The store *)

Section store_laws.
Context `{HCodec : CodecLaws Ledger}.

Definition stored (key : string) (h : Hooks) : option Ledger := (ledger_read key h).1.

Lemma ledger_read_files key h : hk_files (ledger_read key h).2 = hk_files h.
Proof. unfold ledger_read. destruct (read_bytes _ h); [destruct (decode _)|..]; done. Qed.
Lemma stored_files key h h' :
  hk_files h !! json_file LEDGER_DIR key = hk_files h' !! json_file LEDGER_DIR key → stored key h = stored key h'.
Proof.
  intros E. unfold stored, ledger_read, read_bytes. rewrite E.
  destruct (en_content <$> _) as [[s|s tail|s|]|]; try done; by destruct (decode _).
Qed.

(** An update runs only under the lock and on a ledger that could be read, where a missing and a
    damaged file count as an empty one. Otherwise the file stays as it is. When the save succeeds,
    the next reader sees exactly the changed ledger. *)
Theorem ledger_update_correct {T} (io : HookIo) (key : string) (f : Ledger → T * Ledger) (h : Hooks) :
  is_valid_short_name key = true →
  match ledger_update io key f h with
  | (None, h') => (io_lock io LEDGER_DIR ≠ Taken ∨ stored key h = None) ∧
      hk_files h' !! json_file LEDGER_DIR key = hk_files h !! json_file LEDGER_DIR key
  | (Some (result, saved), h') => ∃ l, stored key h = Some l ∧ result = (f l).1 ∧
      saved = io_write io LEDGER_DIR ∧
      (saved = true → ∀ io', io_lock io' LEDGER_DIR = Taken → (ledger_load io' key h').1 = Some (f l).2)
  end.
Proof.
  intros Hv. unfold ledger_update. pose proof (lock_keeps_json io LEDGER_DIR key h LEDGER_DIR key) as Hk.
  assert (Hlock : ∀ io h, (lock_state_file io LEDGER_DIR key h).1 = bool_decide (io_lock io LEDGER_DIR = Taken)).
  { intros io0 h0. unfold lock_state_file. rewrite Hv. cbn [negb]. by destruct (io_lock io0 LEDGER_DIR). }
  pose proof (Hlock io h) as Hl. destruct (lock_state_file io LEDGER_DIR key h) as [locked h1]. cbn [fst snd] in *. subst locked.
  case_bool_decide as Ht; cbn [negb]; [|split; [by left|done]].
  pose proof (stored_files key h1 h Hk) as Hs. unfold stored in Hs at 1. pose proof (ledger_read_files key h1) as Hf.
  destruct (ledger_read key h1) as [[l|] h2]; cbn [fst snd] in *; [|split; [by right|by rewrite Hf]].
  destruct (f l) as [result l'] eqn:El. unfold ledger_write, write_file. cbn [json_file fst].
  destruct (io_write io LEDGER_DIR) eqn:Hw; cbn [fst snd]; exists l; rewrite <-Hs, El;
    (split; [done|]; split; [done|]; split; [done|]); [|done].
  intros _ io' Ht'. unfold ledger_load. pose proof (Hlock io') as Hl'.
  match goal with |- context [lock_state_file io' LEDGER_DIR key ?g] =>
    specialize (Hl' g); pose proof (lock_keeps_bytes io' LEDGER_DIR key g LEDGER_DIR key) as Hb;
    destruct (lock_state_file io' LEDGER_DIR key g) as [locked h3] end.
  cbn [fst snd] in *. rewrite bool_decide_true in Hl' by done. subst locked. unfold ledger_read. rewrite Hb.
  unfold read_bytes, put_file. cbn [hk_files]. unfold json_file. rewrite lookup_insert_eq.
  cbn [fmap option_fmap option_map en_content]. by rewrite decode_encode.
Qed.
End store_laws.
