(* ===== verification/CdGuard.v ===== *)
(** * The [cd] advisory (src/hook_run/cd_guard.rs, shell_tool.rs)

    A shell command that ends with [cd] changes where the next call runs, so the agent is told.
    The parts of the command come from the splitter of the commit gate. *)

From S2P Require Import Prelude RustStr Json HookState ShellSplit.

Definition SHELL_TOOLS : list string := ["Bash"; "Monitor"].
Definition is_shell_tool (tool : string) : bool := bool_decide (tool ∈ SHELL_TOOLS).

Definition ADVISORY : string :=
  "note: this command ends with `cd`, so the next Bash call starts in that directory in the main agent, and a subagent can start elsewhere. Run the commands that need the directory in the same call (`cd /x && cmd`), or use absolute paths.".

Definition CLOSERS : list string := ["}"; "fi"; "done"; "esac"].
Definition is_transparent (words : list string) : bool :=
  let program := program_words words in
  let bare_closer := match program with [w] => bool_decide (w ∈ CLOSERS) | _ => false end in
  bare_closer || bool_decide (head program = Some "eval").

Definition OPENERS : list string := ["then"; "do"; "else"].
Fixpoint skip_openers (program : list string) : list string :=
  match program with
  | w :: rest => if decide (w ∈ OPENERS) then skip_openers rest else program
  | [] => []
  end.
Definition runs_cd_in_this_shell (words : list string) : bool :=
  if match words with w :: _ => starts_with "(" w | [] => false end then false
  else bool_decide (head (skip_openers (program_words words)) = Some "cd").

(** The last command of a call: the last segment that is not transparent. *)
Definition last_command (segments : list (list string)) : option (list string) :=
  find_first (λ words, is_transparent words = false) (rev segments).

(** [Err]: the command nests too deep, which is told to the agent and counts as no [cd]. *)
Definition cd_check (command : string) : result nesting_too_deep bool :=
  segments ← shell_segments command;
  substituted ← ends_with_substitution command;
  if substituted : bool then Ok false
  else Ok (match last_command segments with Some words => runs_cd_in_this_shell words | None => false end).
Definition command_ends_with_cd (command : string) (h : Hooks) : bool * Hooks :=
  match cd_check command with
  | Ok b => (b, h)
  | Err NestingTooDeep => (false, note (CheckOff "cd_guard") h)
  end.

Definition handle_pre_tool_use (enabled : bool) (payload : json) (h : Hooks) : string * Hooks :=
  if negb enabled then ("", h)
  else
    match json_get "tool_name" payload ≫= as_str with
    | None => ("", h)
    | Some tool =>
      if negb (is_shell_tool tool) then ("", h)
      else
        match (json_get "tool_input" payload ≫= json_get "command") ≫= as_str with
        | None => ("", note (PayloadFault "cd_guard") h)
        | Some command =>
          let '(ends, h) := command_ends_with_cd command h in (if ends then ADVISORY else "", h)
        end
    end.

(** ** Plain commands *)

Lemma trim_end_solid pend t c : plain t → plain_char c = true → ws_len (chr c) = 0 →
  trim_end_go 0 pend (t +:+ chr c) = pend +:+ t +:+ chr c.
Proof.
  intros Ht Hc Hw. revert pend. induction t as [|d t IH]; intros pend.
  - change ("" +:+ chr c) with (chr c). unfold chr at 1. cbn [trim_end_go]. change (String c "") with (chr c).
    rewrite Hw. cbn [trim_end_go]. by str_simpl.
  - apply plain_cons in Ht as [Hd Ht]. rewrite str_app_cons. cbn [trim_end_go].
    destruct (ws_len_ascii d (t +:+ chr c) Hd) as [-> Hle]. destruct (ws_len (chr d)) as [|[|k]]; [| |lia].
    + rewrite (IH Ht ""). by str_simpl.
    + rewrite (IH Ht). by str_simpl.
Qed.

Lemma trim_end_plain pend s : plain s → ∃ r, pend +:+ s = trim_end_go 0 pend s +:+ r.
Proof.
  revert pend. induction s as [|c s IH]; intros pend Hs; [by eexists|]. apply plain_cons in Hs as [Hc Hs].
  cbn [trim_end_go]. destruct (ws_len_ascii c s Hc) as [-> Hle]. destruct (ws_len (chr c)) as [|[|k]]; [| |lia].
  - destruct (IH "" Hs) as [r Hr]. exists r. rewrite str_app_nil_l in Hr. rewrite Hr at 1. by str_simpl.
  - destruct (IH (pend +:+ chr c) Hs) as [r Hr]. exists r. rewrite <-Hr. by str_simpl.
Qed.

Lemma ends_with_chr c s : ends_with (chr c) s = true → ∃ t, s = t +:+ chr c.
Proof.
  unfold ends_with. intros [_ H%bool_decide_eq_true]%andb_true_iff.
  exists (str_take (String.length s - 1) s). change (String.length (chr c)) with 1 in H.
  rewrite <-H. symmetry. apply str_take_drop.
Qed.
Lemma plain_no_substitution s : plain s → ends_with_substitution s = Ok false.
Proof.
  intros Hs. unfold ends_with_substitution. destruct (trim_end_plain "" s Hs) as [r Hr].
  rewrite str_app_nil_l in Hr. change (trim_end_go 0 "" s) with (trim_end s) in Hr.
  assert (Ht : plain (trim_end s)) by (rewrite Hr in Hs; apply plain_app in Hs; tauto).
  destruct (ends_with ")" (trim_end s)) eqn:E.
  - cbn [orb negb]. unfold split_at_depth. change (S MAX_SUBSTITUTION_DEPTH - 0) with (S MAX_SUBSTITUTION_DEPTH).
    rewrite split_at_plain by done. cbn [mbind result_bind]. f_equal.
    apply (ends_with_chr ")") in E as [t E]. rewrite E in *. apply plain_app in Ht as [Ht _].
    unfold trim_end. rewrite trim_end_solid by done. rewrite str_app_nil_l. unfold ends_with.
    rewrite str_length_app. change (String.length (chr ")")) with 1. change (String.length ";") with 1.
    rewrite Nat.add_sub, str_drop_app. by rewrite andb_false_r.
  - destruct (ends_with "`" (trim_end s)) eqn:E'; [|done]. apply (ends_with_chr "`") in E' as [t E'].
    rewrite E' in Ht. apply plain_app in Ht as [_ Ht]. done.
Qed.

Lemma last_command_app x y :
  last_command (x ++ y) = match last_command y with Some w => Some w | None => last_command x end.
Proof.
  unfold last_command. rewrite rev_app_distr. generalize (rev y), (rev x). intros l l'. unfold find_first.
  induction l as [|w l IH]; [done|]. cbn. case_decide; [done|]. destruct (list_find _ (l ++ l')) as [[]|], (list_find _ l) as [[]|]; done.
Qed.

(** The advisory looks at the last command only. In a chain of two plain parts, the second part
    decides, unless it holds nothing but closers of groups, and then the first part does. *)
Theorem cd_check_chain (a b : string) (op : ascii) : plain a → plain b → is_operator op = true →
  match shell_segments a, shell_segments b with
  | Ok x, Ok y =>
    cd_check (a +:+ String op b) = if decide (last_command y = None) then cd_check a else cd_check b
  | _, _ => cd_check (a +:+ String op b) = Err NestingTooDeep
  end.
Proof.
  intros Ha Hb Hop. unfold cd_check.
  assert (Hab : plain (a +:+ String op b)).
  { apply plain_app. split; [done|]. apply plain_cons. split; [by apply operator_plain|done]. }
  rewrite !plain_no_substitution by done. unfold shell_segments. rewrite segments_chain by done. unfold both.
  destruct (segments _ a) as [x|[]]; cbn [mbind result_bind]; [|done].
  destruct (segments _ b) as [y|[]]; cbn [mbind result_bind]; [|done].
  rewrite last_command_app. destruct (last_command y); [by rewrite decide_False|by rewrite decide_True].
Qed.
