(* ===== verification/Text.v ===== *)
(** * Text from outside (crates/llmenv-util/src/lib.rs)

    Text that an agent or a file wrote can hold characters that change what a terminal or a
    reader shows. [strip_unsafe_chars] drops them. Also here: lines, and references to environment
    variables in a text. *)

From S2P Require Import Prelude RustStr.

(** [char::is_control]: U+0000 to U+001F and U+007F to U+009F, as UTF-8. *)
Definition is_control (c : string) : bool :=
  match c with
  | String a "" => (code a <? 32)%N || bool_decide (code a = 127)%N
  | String a (String b "") => bool_decide (code a = 194)%N && in_range 128 159 b
  | _ => false
  end.
(** U+061C, U+200B-200F, U+202A-202E, U+2060-2064, U+2066-2069 and U+FEFF. *)
Definition is_unsafe_format_char (c : string) : bool :=
  match c with
  | String a (String b "") => bool_decide (code a = 216 ∧ code b = 156)%N
  | String a (String b (String d "")) =>
    bool_decide (code a = 226 ∧ code b = 128)%N && (in_range 139 143 d || in_range 170 174 d) ||
    bool_decide (code a = 226 ∧ code b = 129)%N && (in_range 160 164 d || in_range 166 169 d) ||
    bool_decide (code a = 239 ∧ code b = 187 ∧ code d = 191)%N
  | _ => false
  end.
Definition is_unsafe_char (c : string) : bool := is_control c || is_unsafe_format_char c.
Definition strip_unsafe_chars (text : string) : string :=
  of_chars (filter (λ c, is_unsafe_char c = false) (chars text)).

(** [str::lines]: the pieces between line feeds, without the empty one after the last and
    without a carriage return before a line feed. *)
Fixpoint drop_last_empty (l : list string) : list string :=
  match l with
  | [] => []
  | [x] => if decide (x = "") then [] else [x]
  | x :: l => default x (strip_suffix (chr "013") x) :: drop_last_empty l
  end.
Definition lines (text : string) : list string :=
  drop_last_empty (split_on (λ c, Ascii.eqb c "010") text).

(** ** References to variables *)

Definition is_name_char (c : ascii) : bool := is_ascii_alphanumeric c || Ascii.eqb c "_".
Fixpoint take_name (s : string) : string * string :=
  match s with
  | String c t => if is_name_char c then let '(name, rest) := take_name t in (String c name, rest) else ("", s)
  | "" => ("", "")
  end.
(** [expand_env_refs]; every turn consumes a character, so the length is fuel enough. *)
Fixpoint expand_loop (env : string → option string) (fuel : nat) (out text : string) : option string :=
  match fuel, text with
  | _, "" => Some out
  | 0, _ => None
  | S fuel, String c text =>
    if negb (Ascii.eqb c "$") then expand_loop env fuel (out +:+ chr c) text
    else
      let '(braced, text) := match strip_prefix "{" text with Some t => (true, t) | None => (false, text) end in
      let '(name, text) := take_name text in
      if decide (name = "") then None
      else
        match (if braced : bool then strip_prefix "}" text else Some text) with
        | None => None
        | Some text =>
          match env name with
          | Some v => if decide (v = "") then None else expand_loop env fuel (out +:+ v) text
          | None => None
          end
        end
  end.
Definition expand_env_refs (text : string) (env : string → option string) : option string :=
  expand_loop env (String.length text) "" text.

(** ** Stripped text *)

Lemma filter_is_char l : Forall is_char l → Forall is_char (filter (λ c, is_unsafe_char c = false) l).
Proof. intros Hl. rewrite Forall_forall in *. intros c [_ Hc]%list_elem_of_filter. auto. Qed.

(** What is left has the characters of the text in order, less exactly the unsafe ones; so it
    holds no control and no invisible character, and stripping it again changes nothing. *)
Theorem strip_unsafe_chars_correct (text : string) : starts_char text = true →
  let out := strip_unsafe_chars text in
  chars out = filter (λ c, is_unsafe_char c = false) (chars text) ∧
  Forall (λ c, is_unsafe_char c = false) (chars out) ∧
  strip_unsafe_chars out = out ∧
  (Forall (λ c, is_unsafe_char c = false) (chars text) → out = text).
Proof.
  intros Ht. cbn zeta. pose proof (chars_is_char _ Ht) as Hc.
  assert (Hout : chars (strip_unsafe_chars text) = filter (λ c, is_unsafe_char c = false) (chars text)).
  { unfold strip_unsafe_chars. apply chars_of_chars. by apply filter_is_char. }
  assert (Hsafe : Forall (λ c, is_unsafe_char c = false) (chars (strip_unsafe_chars text))).
  { rewrite Hout. apply Forall_forall. by intros c [Hc' _]%list_elem_of_filter. }
  assert (Hid : ∀ l, Forall (λ c, is_unsafe_char c = false) l → filter (λ c, is_unsafe_char c = false) l = l).
  { induction 1 as [|c l Hc' Hl IH]; [done|]. by rewrite filter_cons_True, IH. }
  split; [done|]. split; [done|]. split.
  - unfold strip_unsafe_chars at 1. rewrite Hid by done. by apply of_chars_chars.
  - intros Hall. unfold strip_unsafe_chars. rewrite Hid by done. by apply of_chars_chars.
Qed.

(** ** Expanded text *)

Lemma take_name_length s : String.length (take_name s).2 ≤ String.length s.
Proof.
  induction s as [|c s IH]; [done|]. cbn [take_name]. destruct (is_name_char c); [|done].
  destruct (take_name s); cbn in *. lia.
Qed.
Lemma take_name_app name rest : str_all is_name_char name = true →
  (∀ c t, rest = String c t → is_name_char c = false) → take_name (name +:+ rest) = (name, rest).
Proof.
  intros Hn Hr. induction name as [|c name IH].
  - rewrite str_app_nil_l. destruct rest as [|c t]; [done|]. cbn [take_name]. by rewrite (Hr c t).
  - cbn in Hn. apply andb_true_iff in Hn as [Hc Hn]. rewrite str_app_cons. cbn [take_name]. by rewrite Hc, IH.
Qed.
Lemma strip_prefix_char_length c s t : strip_prefix (chr c) s = Some t → String.length s = S (String.length t).
Proof. destruct s as [|d s]; [done|]. cbn. destruct (Ascii.eqb c d); [by intros [=->]|done]. Qed.

Section expand.
Context (env : string → option string).

Lemma expand_loop_fuel f f' out text : String.length text ≤ f → String.length text ≤ f' →
  expand_loop env f out text = expand_loop env f' out text.
Proof.
  revert f' out text. induction f as [|f IH]; intros [|f'] out [|c text] H1 H2; cbn in H1, H2; try done; try lia.
  cbn [expand_loop]. destruct (negb (Ascii.eqb c "$")); [apply IH; lia|].
  assert (Hrest : ∀ braced rest, String.length rest ≤ String.length text →
    (let '(name, text) := take_name rest in
     if decide (name = "") then None
     else match (if braced : bool then strip_prefix "}" text else Some text) with
          | None => None
          | Some text => match env name with
            | Some v => if decide (v = "") then None else expand_loop env f (out +:+ v) text
            | None => None end end) =
    (let '(name, text) := take_name rest in
     if decide (name = "") then None
     else match (if braced : bool then strip_prefix "}" text else Some text) with
          | None => None
          | Some text => match env name with
            | Some v => if decide (v = "") then None else expand_loop env f' (out +:+ v) text
            | None => None end end)).
  { intros braced rest Hle. pose proof (take_name_length rest) as Hl. destruct (take_name rest) as [name tail].
    cbn in Hl. case_decide; [done|]. destruct braced.
    - destruct (strip_prefix "}" tail) as [u|] eqn:E; [|done]. apply (strip_prefix_char_length "}") in E.
      destruct (env name); [|done]. case_decide; [done|]. apply IH; lia.
    - destruct (env name); [|done]. case_decide; [done|]. apply IH; lia. }
  destruct (strip_prefix "{" text) as [t|] eqn:E; [|by apply (Hrest false)].
  apply (strip_prefix_char_length "{") in E. apply (Hrest true). lia.
Qed.
Lemma expand_loop_out f out text : expand_loop env f out text = (λ r, out +:+ r) <$> expand_loop env f "" text.
Proof.
  revert out text. induction f as [|f IH]; intros out [|c text]; cbn [expand_loop]; try (cbn; by rewrite ?str_app_nil_r).
  destruct (negb (Ascii.eqb c "$")).
  - rewrite IH, (IH ("" +:+ chr c)). destruct (expand_loop env f "" text); [|done]. cbn. by str_simpl.
  - destruct (match strip_prefix "{" text with Some t => (true, t) | None => (false, text) end) as [braced rest].
    destruct (take_name rest) as [name tail]. case_decide; [done|].
    destruct (if braced : bool then strip_prefix "}" tail else Some tail) as [u|]; [|done].
    destruct (env name) as [v|]; [|done]. case_decide; [done|]. rewrite IH, (IH ("" +:+ v)).
    destruct (expand_loop env f "" u); [|done]. cbn. by str_simpl.
Qed.

Lemma expand_char c text : Ascii.eqb c "$" = false →
  expand_env_refs (String c text) env = String c <$> expand_env_refs text env.
Proof.
  intros Hc. unfold expand_env_refs. cbn [String.length expand_loop]. rewrite Hc. cbn [negb].
  rewrite expand_loop_out. by destruct (expand_loop env _ "" text).
Qed.

Definition value_of (name : string) : option string := v ← env name; if decide (v = "") then None else Some v.

Lemma expand_dollar text : expand_env_refs (String "$" text) env =
  let '(braced, rest) := match strip_prefix "{" text with Some t => (true, t) | None => (false, text) end in
  let '(name, tail) := take_name rest in
  if decide (name = "") then None
  else u ← (if braced : bool then strip_prefix "}" tail else Some tail);
       v ← value_of name; (λ r, v +:+ r) <$> expand_env_refs u env.
Proof.
  unfold expand_env_refs at 1. cbn [String.length expand_loop negb Ascii.eqb Bool.eqb].
  assert (Hgo : ∀ braced rest, String.length rest ≤ String.length text →
    (let '(name, tail) := take_name rest in
     if decide (name = "") then None
     else match (if braced : bool then strip_prefix "}" tail else Some tail) with
          | None => None
          | Some u => match env name with
            | Some v => if decide (v = "") then None else expand_loop env (String.length text) ("" +:+ v) u
            | None => None end end) =
    (let '(name, tail) := take_name rest in
     if decide (name = "") then None
     else u ← (if braced : bool then strip_prefix "}" tail else Some tail);
       v ← value_of name; (λ r, v +:+ r) <$> expand_env_refs u env)).
  { intros braced rest Hle. pose proof (take_name_length rest) as Hl. destruct (take_name rest) as [name tail].
    cbn in Hl. case_decide; [done|]. destruct (if braced : bool then strip_prefix "}" tail else Some tail) as [u|] eqn:E; [|done].
    assert (Hu : String.length u ≤ String.length text).
    { destruct braced; [apply (strip_prefix_char_length "}") in E; lia|simplify_eq; lia]. }
    cbn [mbind option_bind]. unfold value_of. destruct (env name) as [v|]; [|done]. cbn [mbind option_bind].
    case_decide; [done|]. cbn [mbind option_bind]. rewrite expand_loop_out. unfold expand_env_refs.
    by rewrite (expand_loop_fuel (String.length text) (String.length u)). }
  destruct (strip_prefix "{" text) as [t|] eqn:E; [|by apply (Hgo false)].
  apply (strip_prefix_char_length "{") in E. apply (Hgo true). lia.
Qed.

(** A text without references stays as it is; after it, each reference is replaced by the value
    of its variable, with braces or without, and what follows is expanded in the same way. The
    whole text has no expansion when a variable has no value, when a dollar sign has no name, or
    when a brace does not close. *)
Theorem expand_env_refs_correct (a name rest : string) :
  str_all (λ c, negb (Ascii.eqb c "$")) a = true → str_all is_name_char name = true → name ≠ "" →
  expand_env_refs a env = Some a ∧
  expand_env_refs (a +:+ "${" +:+ name +:+ "}" +:+ rest) env =
    (v ← value_of name; (λ r, a +:+ v +:+ r) <$> expand_env_refs rest env) ∧
  ((∀ c t, rest = String c t → is_name_char c = false) →
   expand_env_refs (a +:+ "$" +:+ name +:+ rest) env =
     (v ← value_of name; (λ r, a +:+ v +:+ r) <$> expand_env_refs rest env) ∧
   (strip_prefix "{" rest = None → expand_env_refs (a +:+ "$" +:+ rest) env = None) ∧
   (strip_prefix "}" rest = None → expand_env_refs (a +:+ "${" +:+ name +:+ rest) env = None)).
Proof.
  intros Ha Hn Hne.
  assert (Hpre : ∀ t, expand_env_refs (a +:+ t) env = (λ r, a +:+ r) <$> expand_env_refs t env).
  { intros t. induction a as [|c a IH]; [symmetry; rewrite str_app_nil_l; destruct (expand_env_refs t env); done|].
    cbn in Ha. apply andb_true_iff in Ha as [Hc Ha]. apply negb_true_iff in Hc.
    rewrite str_app_cons, expand_char, IH by done. by destruct (expand_env_refs t env). }
  assert (Hlift : ∀ o : option string,
    (λ r, a +:+ r) <$> (v ← value_of name; (λ r, v +:+ r) <$> o) = (v ← value_of name; (λ r, a +:+ v +:+ r) <$> o)).
  { intros o. destruct (value_of name), o; done. }
  split; [pose proof (Hpre "") as H0; rewrite str_app_nil_r in H0; rewrite H0; cbn; by rewrite str_app_nil_r|].
  split.
  - rewrite Hpre. change ("${" +:+ name +:+ "}" +:+ rest) with (String "$" ("{" +:+ name +:+ "}" +:+ rest)).
    rewrite expand_dollar, strip_prefix_app. rewrite take_name_app; [|done|intros c t E; change ("}" +:+ rest) with (String "}" rest) in E; by injection E as <- _].
    rewrite decide_False, strip_prefix_app by done. apply Hlift.
  - intros Hr. split; [|split].
    + rewrite Hpre. change ("$" +:+ name +:+ rest) with (String "$" (name +:+ rest)). rewrite expand_dollar.
      assert (Hb : strip_prefix "{" (name +:+ rest) = None).
      { destruct name as [|c name]; [done|]. rewrite str_app_cons. cbn [strip_prefix].
        destruct (Ascii.eqb_spec "{" c) as [<-|]; [|done]. done. }
      rewrite Hb, take_name_app, decide_False by done. apply Hlift.
    + intros Hb. rewrite Hpre. change ("$" +:+ rest) with (String "$" rest). rewrite expand_dollar, Hb.
      rewrite <-(str_app_nil_l rest) at 1. rewrite take_name_app by done. done.
    + intros Hb. rewrite Hpre. change ("${" +:+ name +:+ rest) with (String "$" ("{" +:+ name +:+ rest)).
      rewrite expand_dollar, strip_prefix_app, take_name_app, decide_False, Hb by done. done.
Qed.
End expand.
