(* ===== verification/TaskNudge.v ===== *)
(** * Task nudges and the commit gate (src/hook_run/task_nudge.rs, task_nudge/)

    The nudges fire while the agent works: after a workflow skill starts, after some file edits
    with no task, at the boundary of a step, after a question, at the end of a turn. The commit gate
    denies the first commit with no task in progress. One state file per session holds the counters
    and the marker of the gate. What the tracker says of the project is the [Tracking] of
    [Reminders]. *)

From S2P Require Import Prelude RustStr Names Json HookState ShellSplit CdGuard Reminders.

Definition DIR : string := "task_nudge".

(** [TaskTracker] (schema/task_tracker.rs) and its defaults. *)
Record TaskTracker := mkTracker {
  tt_enabled : bool; tt_block_engine_task_tools : bool; tt_nudges : bool; tt_enforce_commit : bool;
  tt_workflow_skills : option (list string);
  tt_nudge_after : option N; tt_nudge_every : option N; tt_stop_nudge_every : option N }.
Definition default_tracker : TaskTracker := mkTracker false true true true None None None None.

Definition DEFAULT_WORKFLOW_SKILLS : list string :=
  ["dev-sprint"; "ship-issue"; "pre-pr-review"; "executing-plans"; "writing-plans"].
Definition DEFAULT_NUDGE_AFTER : N := 8.
Definition DEFAULT_NUDGE_EVERY : N := 20.
Definition DEFAULT_STOP_NUDGE_EVERY : N := 5.
Definition MUTATING_TOOLS : list string := ["Edit"; "Write"; "MultiEdit"].

Record NudgeState := mkNudge {
  nu_calls : N; nu_last_nudge : N; nu_skill_reminded : bool; nu_commit_denied : bool;
  nu_start_reminded : option string; nu_boundary_reminded : list string;
  nu_stop_quiet_turns : N; nu_ownerless_question_reminded : list string }.
Definition default_nudge : NudgeState := mkNudge 0 0 false false None [] 0 [].
Global Instance NudgeState_eq_dec : EqDecision NudgeState.
Proof. solve_decision. Defined.

Definition with_calls (calls last : N) (s : NudgeState) : NudgeState :=
  mkNudge calls last (nu_skill_reminded s) (nu_commit_denied s) (nu_start_reminded s) (nu_boundary_reminded s)
    (nu_stop_quiet_turns s) (nu_ownerless_question_reminded s).
Definition with_skill_reminded (s : NudgeState) : NudgeState :=
  mkNudge (nu_calls s) (nu_last_nudge s) true (nu_commit_denied s) (nu_start_reminded s) (nu_boundary_reminded s)
    (nu_stop_quiet_turns s) (nu_ownerless_question_reminded s).
Definition with_commit_denied (b : bool) (s : NudgeState) : NudgeState :=
  mkNudge (nu_calls s) (nu_last_nudge s) (nu_skill_reminded s) b (nu_start_reminded s) (nu_boundary_reminded s)
    (nu_stop_quiet_turns s) (nu_ownerless_question_reminded s).
Definition with_start_reminded (slug : string) (s : NudgeState) : NudgeState :=
  mkNudge (nu_calls s) (nu_last_nudge s) (nu_skill_reminded s) (nu_commit_denied s) (Some slug)
    (nu_boundary_reminded s) (nu_stop_quiet_turns s) (nu_ownerless_question_reminded s).
Definition with_boundary_reminded (l : list string) (s : NudgeState) : NudgeState :=
  mkNudge (nu_calls s) (nu_last_nudge s) (nu_skill_reminded s) (nu_commit_denied s) (nu_start_reminded s) l
    (nu_stop_quiet_turns s) (nu_ownerless_question_reminded s).
Definition with_stop_quiet_turns (n : N) (s : NudgeState) : NudgeState :=
  mkNudge (nu_calls s) (nu_last_nudge s) (nu_skill_reminded s) (nu_commit_denied s) (nu_start_reminded s)
    (nu_boundary_reminded s) n (nu_ownerless_question_reminded s).
Definition with_ownerless_reminded (l : list string) (s : NudgeState) : NudgeState :=
  mkNudge (nu_calls s) (nu_last_nudge s) (nu_skill_reminded s) (nu_commit_denied s) (nu_start_reminded s)
    (nu_boundary_reminded s) (nu_stop_quiet_turns s) l.

(** ** The texts *)

Definition start_next (slug : string) : string :=
  "Run `llmenv task start " +:+ slug +:+ "` for the next open step.".
Definition how_to_track (tracking : Tracking) : string :=
  match tracking with
  | NoSession =>
    "Start a session with its first tasks: `llmenv task session start <name> --task " +:+ dq +:+ "<step 1>" +:+ dq +:+
    " --task " +:+ dq +:+ "<step 2>" +:+ dq +:+
    "`. Then run `llmenv task start <slug>` for the step you do first."
  | Tracked _ _ _ (Some slug) _ => start_next slug
  | _ =>
    "Add a task for each step: `llmenv task add " +:+ dq +:+ "<step>" +:+ dq +:+
    "`. Then run `llmenv task start <slug>` for the step you do first. Use `--child-of <slug>` for the parts of a step."
  end.
Definition queued_reminder (slug : string) : string :=
  "llmenv task tracker: tasks are queued, but none is in progress. " +:+ start_next slug.

(** ** The reminders after a tool call, on the state *)

Definition bare_skill (name : string) : string :=
  match rsplit_once ":" name with Some (_, skill) => skill | None => name end.
Definition is_workflow_skill (tracker : TaskTracker) (skill : string) : bool :=
  let skill := bare_skill (trim skill) in
  match tt_workflow_skills tracker with
  | Some l => existsb (λ s, bool_decide (bare_skill (trim s) = skill)) l
  | None => bool_decide (skill ∈ DEFAULT_WORKFLOW_SKILLS)
  end.
Definition untracked (tracking : Tracking) : bool :=
  match tracking with NoSession | NoTasks => true | _ => false end.
Definition is_tracked (tracking : Tracking) : bool :=
  match tracking with Tracked _ _ _ _ _ => true | _ => false end.

Definition settle (tracking : Tracking) (s : NudgeState) : NudgeState :=
  if is_tracked tracking then with_calls 0 0 s else s.

Definition start_reminder (slug : string) (s : NudgeState) : string * NudgeState :=
  if decide (nu_start_reminded s = Some slug) then ("", s)
  else (queued_reminder slug, with_start_reminded slug s).

Definition work_nudge (tracker : TaskTracker) (tracking : Tracking) (s : NudgeState) : string * NudgeState :=
  if negb (untracked tracking) then ("", s)
  else
    let calls := saturating_add32 (nu_calls s) 1 in
    let after := default DEFAULT_NUDGE_AFTER (tt_nudge_after tracker) in
    let every := default DEFAULT_NUDGE_EVERY (tt_nudge_every tracker) in
    let due := if decide (nu_last_nudge s = 0%N) then bool_decide (after ≤ calls)%N
               else bool_decide (every ≤ saturating_sub32 calls (nu_last_nudge s))%N in
    if negb due then ("", with_calls calls (nu_last_nudge s) s)
    else
      ("llmenv task tracker: " +:+ pretty calls +:+
       " file edits ran with no task open. If the work has more than one part, track it. " +:+ how_to_track tracking,
       with_calls calls calls s).

Definition mutation_reminder (tracker : TaskTracker) (tracking : Tracking) (s : NudgeState) : string * NudgeState :=
  match tracking with
  | Tracked None _ _ (Some slug) _ => start_reminder slug s
  | _ => work_nudge tracker tracking s
  end.

Definition skill_reminder (tracker : TaskTracker) (payload : json) (tracking : Tracking) (s : NudgeState)
  : string * NudgeState :=
  let skill := default "" (as_str (json_index "skill" (json_index "tool_input" payload))) in
  if nu_skill_reminded s || negb (untracked tracking) || negb (is_workflow_skill tracker skill) then ("", s)
  else
    ("llmenv task tracker: the skill '" +:+ skill +:+ "' runs in several steps, and no task tracks them. " +:+
     how_to_track tracking, with_skill_reminded s).

(** [boundary_reminder]: text, state and notices. *)
Definition boundary_reminder (payload : json) (tracking : Tracking) (s : NudgeState) (h : Hooks)
  : string * NudgeState * Hooks :=
  let command := default "" (as_str (json_index "command" (json_index "tool_input" payload))) in
  match step_boundary command with
  | Err NestingTooDeep => ("", s, note (CheckOff DIR) h)
  | Ok None => ("", s, h)
  | Ok (Some event) =>
    match tracking with
    | Unknown _ => ("", s, note (CheckOff DIR) h)
    | Tracked (Some slug) _ _ next queued =>
      if decide (queued = 0) then ("", s, h)
      else
        let key := slug +:+ " " +:+ event in
        if decide (key ∈ nu_boundary_reminded s) then ("", s, h)
        else
          ("llmenv task tracker: `" +:+ event +:+ "` ends a step, but '" +:+ slug +:+ "' is still in progress, with " +:+
           pretty (N.of_nat queued) +:+ " task(s) queued behind it. If '" +:+ slug +:+ "' is done, run `llmenv task done " +:+
           slug +:+ "`." +:+ match next with Some n => " " +:+ start_next n | None => "" end,
           with_boundary_reminded (nu_boundary_reminded s ++ [key]) s, h)
    | _ => ("", s, h)
    end
  end.

(** ** The state file *)

Section nudges.
Context `{HC : Codec NudgeState}.

Definition state_path (session_id : string) : option (string * string) :=
  if is_valid_short_name session_id then Some (json_file DIR session_id) else None.

(** [read_state]: the state and whether a corrupt file was reset; [None] is the read error. *)
Definition read_state (path : string * string) (h : Hooks) : option (NudgeState * bool) * Hooks :=
  match read_text path h with
  | Missing => (Some (default_nudge, false), h)
  | Failed => (None, h)
  | Got text =>
    match decode text with
    | Some s => (Some (s, false), h)
    | None => (Some (default_nudge, true), note (StateCorrupt DIR) h)
    end
  end.
Definition load (path : string * string) (h : Hooks) : option (NudgeState * bool) * Hooks :=
  let '(loaded, h) := read_state path h in
  match loaded with Some r => (Some r, h) | None => (None, note (StateUnreadable DIR) h) end.
Definition save (io : HookIo) (path : string * string) (s : NudgeState) (h : Hooks) : bool * Hooks :=
  let '(done, h) := write_file io path (encode s) h in
  if done then (true, h) else (false, note (NotSaved DIR) h).

(** ** The end of a turn *)

Definition with_stop_state {A} (io : HookIo) (caller : option string) (change : NudgeState → A * NudgeState)
    (h : Hooks) : option A * Hooks :=
  match caller ≫= λ id, (λ path, (id, path)) <$> state_path id with
  | None => (None, h)
  | Some (id, path) =>
    let '(locked, h) := lock_state_file io DIR id h in
    if negb locked then (None, h)
    else
      let '(loaded, h) := load path h in
      match loaded with
      | None => (None, h)
      | Some (before, reset) =>
        let '(out, s) := change before in
        (Some out, if decide (s ≠ before ∨ reset = true) then (save io path s h).2 else h)
      end
  end.

Definition waiting_reminder (tracking : Tracking) : string :=
  match tracking with
  | Tracked (Some slug) _ _ _ _ =>
    "llmenv task tracker: you asked the user a question while '" +:+ slug +:+
    "' is in progress. If you wait for the answer, run `llmenv task wait " +:+ slug +:+ " " +:+ dq +:+
    "<what you wait for>" +:+ dq +:+ "`. After the user answers, run `llmenv task start " +:+ slug +:+ "`."
  | _ => ""
  end.

Definition question_reminder (io : HookIo) (tracking : Tracking) (caller : option string) (h : Hooks)
  : string * Hooks :=
  let text := waiting_reminder tracking in
  match tracking with
  | Tracked (Some slug) true _ _ _ =>
    let '(first, h) := with_stop_state io caller (λ s,
      let first := negb (bool_decide (slug ∈ nu_ownerless_question_reminded s)) in
      (first, if first then with_ownerless_reminded (nu_ownerless_question_reminded s ++ [slug]) s else s)) h in
    (if decide (first = Some false) then "" else text, h)
  | _ => (text, h)
  end.

(** Whether a stop with a task in progress is due for its reminder, and the next count. *)
Definition quiet_turn (every : N) (s : NudgeState) : bool * NudgeState :=
  (bool_decide (nu_stop_quiet_turns s = 0%N),
   with_stop_quiet_turns (N.modulo (saturating_add32 (nu_stop_quiet_turns s) 1) every) s).
Definition stop_wip_text (slug : string) (queued : nat) : string :=
  "llmenv task tracker: '" +:+ slug +:+ "' is in progress, and " +:+ pretty (N.of_nat queued) +:+
  " task(s) are queued behind it. If '" +:+ slug +:+ "' is done, run `llmenv task done " +:+ slug +:+
  "`. Then run `llmenv task start <slug>` for the next open step.".
Definition stop_wip_reminder (io : HookIo) (tracker : TaskTracker) (slug : string) (queued : nat)
    (caller : option string) (h : Hooks) : string * Hooks :=
  let every := N.max (default DEFAULT_STOP_NUDGE_EVERY (tt_stop_nudge_every tracker)) 1 in
  let counted := bool_decide (is_Some (caller ≫= state_path)) in
  if negb counted then (stop_wip_text slug queued, h)
  else
    let '(due, h) := with_stop_state io caller (quiet_turn every) h in
    (if decide (due = Some true) then stop_wip_text slug queued else "", h).

(** A folder that can be searched: [try_exists] answers. *)
Definition clear_stop_turns (io : HookIo) (caller : option string) (h : Hooks) : Hooks :=
  match caller ≫= state_path with
  | None => h
  | Some path =>
    if decide (hk_files h !! path = None) then h
    else (with_stop_state io caller (λ s, ((), with_stop_quiet_turns 0 s)) h).2
  end.

Definition is_stalled (tracking : Tracking) : bool :=
  match tracking with Tracked (Some _) _ _ _ (S _) => true | _ => false end.

Definition handle_stop (io : HookIo) (tracker : TaskTracker) (payload : json) (caller : option string)
    (tracking : Tracking) (h : Hooks) : string * Hooks :=
  if negb (tt_nudges tracker) then ("", h)
  else
    let asks := match as_str (json_index "last_assistant_message" payload) with
      | Some m => ends_with "?" (trim_end m)
      | None => false
      end in
    let h := if is_stalled tracking then h else clear_stop_turns io caller h in
    match tracking with
    | Tracked wip ownerless waiting next queued =>
      if decide (is_Some wip ∧ asks = true) then question_reminder io tracking caller h
      else if decide (asks = true ∧ waiting ≠ []) then
        ("llmenv task tracker: waiting on the user: " +:+ join ", " waiting +:+
         ". After the user answers, run `llmenv task start <slug>`.", h)
      else
        match wip, next with
        | None, Some slug => (queued_reminder slug, h)
        | Some slug, _ =>
          if decide (queued = 0) then ("", h) else stop_wip_reminder io tracker slug queued caller h
        | None, None => ("", h)
        end
    | Unknown cause =>
      ("llmenv task tracker: the task reminders did not run, because the task store cannot be read (" +:+ cause +:+
       "). Fix: run `llmenv doctor` to check the state directory.", h)
    | _ => ("", h)
    end.

(** ** After a tool call *)

Definition needs_state (tool : string) : bool := bool_decide (tool = "Skill") || bool_decide (tool ∈ MUTATING_TOOLS).

(** [has_dir]: the folder of the nudge states is there. *)
Definition handle_post_tool_use (io : HookIo) (has_dir : bool) (tracker : TaskTracker) (payload : json)
    (session_id : option string) (tracking : Tracking) (h : Hooks) : string * Hooks :=
  if negb (tt_nudges tracker) then ("", h)
  else
    match as_str (json_index "tool_name" payload) with
    | None => ("", h)
    | Some tool =>
      if decide (tool = "AskUserQuestion") then question_reminder io tracking session_id h
      else
        match session_id ≫= λ id, (λ path, (id, path)) <$> state_path id with
        | None => ("", if needs_state tool then note (BadSessionId DIR) h else h)
        | Some (id, path) =>
          let '(may_save, h) := if has_dir then lock_state_file io DIR id h else (true, h) in
          let '(loaded, h) := load path h in
          match loaded with
          | None => ("", h)
          | Some (before, reset) =>
            let '(text, s, h) :=
              if decide (tool = "Skill") then (skill_reminder tracker payload tracking before, h)
              else if decide (tool ∈ MUTATING_TOOLS) then (mutation_reminder tracker tracking before, h)
              else if is_shell_tool tool then boundary_reminder payload tracking before h
              else ("", before, h) in
            let s := settle tracking s in
            (text,
             if decide (s ≠ before ∨ reset = true) then
               if may_save : bool then (save io path s h).2 else note (NotSaved DIR) h
             else h)
          end
        end
    end.

(** ** The commit gate *)

Inductive DenyWhy :=
| NoCommand
| NoSessionId
| NotPlainName (id : string)
| LockTaken
| StateCannotBeRead
| StoreCannotBeRead (cause : string)
| StateNotSaved
| TooDeep
| NoTaskOpen (tracking : Tracking).
Inductive Verdict := Pass | Denied (why : DenyWhy).

Definition wip_open (tracking : Tracking) (command : string) : bool :=
  match tracking with Tracked (Some slug) _ _ _ _ => negb (ends_task_before_commit command slug) | _ => false end.

(** The call of the gate from the point where the session's state is read. *)
Definition gate_decide (io : HookIo) (path : string * string) (command : string) (tracking : Tracking)
    (s : NudgeState) (h : Hooks) : Verdict * Hooks :=
  let nested := negb (is_ok (shell_segments command)) in
  match tracking with
  | Unknown cause => (Denied (StoreCannotBeRead cause), h)
  | _ =>
    if wip_open tracking command then
      if nu_commit_denied s then
        let '(saved, h) := save io path (with_commit_denied false s) h in
        (if saved : bool then Pass else Denied StateNotSaved, h)
      else (Pass, h)
    else if nu_commit_denied s && negb nested then (Pass, h)
    else
      let '(saved, h) := save io path (with_commit_denied true s) h in
      if negb saved then (Denied StateNotSaved, h)
      else (Denied (if nested then TooDeep else NoTaskOpen tracking), h)
  end.

Definition commit_gate (io : HookIo) (tracker : TaskTracker) (payload : json) (session_id : option string)
    (tracking : Tracking) (h : Hooks) : Verdict * Hooks :=
  let is_shell := default false (is_shell_tool <$> as_str (json_index "tool_name" payload)) in
  if negb (tt_enforce_commit tracker) || negb is_shell then (Pass, h)
  else
    match as_str (json_index "command" (json_index "tool_input" payload)) with
    | None => (Denied NoCommand, h)
    | Some command =>
      if negb (runs_commit_or_pr command) then (Pass, h)
      else
        match session_id with
        | None => (Denied NoSessionId, h)
        | Some id =>
          match state_path id with
          | None => (Denied (NotPlainName id), h)
          | Some path =>
            let '(locked, h) := lock_state_file io DIR id h in
            if negb locked then (Denied LockTaken, h)
            else
              let '(loaded, h) := read_state path h in
              match loaded with
              | None => (Denied StateCannotBeRead, h)
              | Some (s, reset) =>
                let h := if reset : bool then (save io path s h).2 else h in
                gate_decide io path command tracking s h
              end
          end
        end
    end.

(** The texts the gate takes from the file system: the path of the state, why the lock is not
    taken, the error of the read, and the quoted form of a string. *)
Record GateTexts := mkGateTexts { gt_path : string; gt_lock : string; gt_read : string; gt_quote : string → string }.

Definition gate_deny (problem fix_text : string) : string :=
  "__DENY__:llmenv blocked this commit or pull request: " +:+ problem +:+ ". " +:+ fix_text +:+
  ", then run the same command again. To turn this off, set features.task_tracker.enforce_commit to false.".
Definition gate_unavailable_deny (reason : string) : string :=
  gate_deny ("the task commit gate cannot check it, because " +:+ reason) "Fix that".
Definition nesting_reason : string :=
  "this command nests substitutions more than " +:+ pretty (N.of_nat MAX_SUBSTITUTION_DEPTH) +:+
  " levels deep, so llmenv cannot check it. Split the command into smaller commands and run each one.".
Definition deny_text (t : GateTexts) (why : DenyWhy) : string :=
  match why with
  | NoCommand => gate_unavailable_deny "the Bash call has no string `tool_input.command`"
  | NoSessionId => gate_unavailable_deny "the hook payload has no session id"
  | NotPlainName id =>
    gate_unavailable_deny ("the session id " +:+ gt_quote t id +:+
      " is not a plain name, so its state file cannot be placed")
  | LockTaken =>
    gate_unavailable_deny ("the lock for the task nudge state " +:+ gt_path t +:+ " cannot be taken: " +:+ gt_lock t)
  | StateCannotBeRead =>
    gate_deny ("the task nudge state cannot be read (" +:+ gt_read t +:+ ")") "Fix the file or its permissions"
  | StoreCannotBeRead cause =>
    gate_deny ("the task store cannot be read (" +:+ cause +:+
      "), so the gate cannot tell whether a task is in progress") "Fix the task store under the state directory"
  | StateNotSaved => gate_unavailable_deny ("the task nudge state " +:+ gt_path t +:+ " cannot be saved")
  | TooDeep => "__DENY__:llmenv blocked this commit or pull request once: " +:+ nesting_reason
  | NoTaskOpen tracking =>
    "__DENY__:llmenv blocked this commit or pull request once: no task is in progress. " +:+ how_to_track tracking +:+
    " Then run the same command again, and it goes through. To turn this off, set features.task_tracker.enforce_commit to false."
  end.
Definition verdict_text (t : GateTexts) (v : Verdict) : string :=
  match v with Pass => "" | Denied why => deny_text t why end.
Definition handle_pre_tool_use (t : GateTexts) (io : HookIo) (tracker : TaskTracker) (payload : json)
    (session_id : option string) (tracking : Tracking) (h : Hooks) : string * Hooks :=
  let '(v, h) := commit_gate io tracker payload session_id tracking h in (verdict_text t v, h).

(** [state_dir_deny]: the state folder of llmenv cannot be named. *)
Definition state_dir_deny (tracker : TaskTracker) (payload : json) (error : string) : option string :=
  let is_shell := default false (is_shell_tool <$> as_str (json_index "tool_name" payload)) in
  if negb (tt_enforce_commit tracker) || negb is_shell then None
  else
    match as_str (json_index "command" (json_index "tool_input" payload)) with
    | None => Some (gate_unavailable_deny "the Bash call has no string `tool_input.command`")
    | Some command =>
      if negb (runs_commit_or_pr command) then None
      else Some (gate_unavailable_deny ("the llmenv state directory cannot be resolved (" +:+ error +:+ ")"))
    end.

(** ** The marker *)

(** The marker of a session: what its file says. *)
Definition marker (id : string) (h : Hooks) : bool :=
  match read_text (json_file DIR id) h with
  | Got text => default false (nu_commit_denied <$> decode text)
  | _ => false
  end.
(** The commit a call of the gate is about. *)
Definition commit_of (tracker : TaskTracker) (payload : json) : option string :=
  if tt_enforce_commit tracker && default false (is_shell_tool <$> as_str (json_index "tool_name" payload)) then
    match as_str (json_index "command" (json_index "tool_input" payload)) with
    | Some command => if runs_commit_or_pr command then Some command else None
    | None => None
    end
  else None.

Context `{HLaws : !CodecLaws NudgeState}.

Lemma marker_files id h h' :
  hk_files h !! json_file DIR id = hk_files h' !! json_file DIR id → marker id h = marker id h'.
Proof. intros E. unfold marker, read_text. by rewrite E. Qed.
Lemma marker_lock io key id h : marker id (lock_state_file io DIR key h).2 = marker id h.
Proof. apply marker_files, lock_keeps_json. Qed.
Lemma read_state_marker id h s reset h' : read_state (json_file DIR id) h = (Some (s, reset), h') →
  nu_commit_denied s = marker id h ∧ hk_files h' = hk_files h.
Proof.
  unfold read_state, marker. destruct (read_text _ h) as [text| |]; [|by intros [= <- <- <-]|done].
  destruct (decode text) as [s'|]; by intros [= <- <- <-].
Qed.
Lemma load_marker id h s reset h' : load (json_file DIR id) h = (Some (s, reset), h') →
  nu_commit_denied s = marker id h ∧ hk_files h' = hk_files h.
Proof.
  unfold load. destruct (read_state _ h) as [[[s' r']|] h1] eqn:E; [|done]. intros [= -> -> ->].
  by eapply read_state_marker.
Qed.
Lemma load_failed id h h' : load (json_file DIR id) h = (None, h') → hk_files h' = hk_files h.
Proof. unfold load, read_state. destruct (read_text _ h); [by destruct (decode _)|done|by intros [= <-]]. Qed.
Lemma save_text io id s h : (save io (json_file DIR id) s h).1 = true →
  read_text (json_file DIR id) (save io (json_file DIR id) s h).2 = Got (encode s).
Proof.
  unfold save, write_file. destruct (io_write io _); [|done]. intros _. unfold read_text, put_file. cbn [hk_files snd].
  by rewrite lookup_insert_eq.
Qed.
Lemma save_marker io id s h : (save io (json_file DIR id) s h).1 = true →
  marker id (save io (json_file DIR id) s h).2 = nu_commit_denied s.
Proof. intros Hs. unfold marker. by rewrite save_text, decode_encode. Qed.
Lemma save_failed io path s h : (save io path s h).1 = false → hk_files (save io path s h).2 = hk_files h.
Proof. unfold save, write_file. by destruct (io_write io _). Qed.
Lemma save_other io id id' s h : id ≠ id' →
  hk_files (save io (json_file DIR id) s h).2 !! json_file DIR id' = hk_files h !! json_file DIR id'.
Proof.
  intros Hne. unfold save, write_file. destruct (io_write io _); [|done]. cbn. apply lookup_insert_ne.
  intros E%(inj _). done.
Qed.

(** What an event of another kind leaves: the marker, and a file that can be read. *)
Definition kept (id : string) (h h' : Hooks) : Prop :=
  marker id h' = marker id h ∧
  (read_text (json_file DIR id) h ≠ Failed → read_text (json_file DIR id) h' ≠ Failed).
#[local] Instance kept_preorder id : PreOrder (kept id).
Proof. split; [by split|]. intros h1 h2 h3 [E1 R1] [E2 R2]. split; [congruence|auto]. Qed.
Lemma kept_files id h h' :
  hk_files h' !! json_file DIR id = hk_files h !! json_file DIR id → kept id h h'.
Proof. intros E. unfold kept, marker, read_text. by rewrite E. Qed.
Lemma kept_lock io key id h : kept id h (lock_state_file io DIR key h).2.
Proof. apply kept_files, lock_keeps_json. Qed.
Lemma save_kept io id id' s h :
  nu_commit_denied s = marker id h → kept id' h (save io (json_file DIR id) s h).2.
Proof.
  intros Hs. destruct (decide (id = id')) as [<-|Hne]; [|by apply kept_files, save_other].
  destruct (save io (json_file DIR id) s h).1 eqn:E; [|apply kept_files; by rewrite save_failed].
  split; [by rewrite save_marker|by rewrite save_text].
Qed.

(** *** The other events of a session keep it *)

Lemma with_stop_state_kept {A} io caller (change : NudgeState → A * NudgeState) id h :
  (∀ s, nu_commit_denied (change s).2 = nu_commit_denied s) →
  kept id h (with_stop_state io caller change h).2.
Proof.
  intros Hc. unfold with_stop_state, state_path. destruct caller as [key|]; [|done]. cbn [mbind option_bind].
  destruct (is_valid_short_name key); [|done]. cbn [fmap option_fmap option_map].
  pose proof (kept_lock io key id h) as Hl. destruct (lock_state_file io DIR key h) as [[] h1]; [|done].
  cbn [negb snd] in *. etrans; [exact Hl|]. destruct (load _ h1) as [[[before reset]|] h2] eqn:E.
  - apply load_marker in E as [Hb Hf]. specialize (Hc before). destruct (change before) as [out s]. cbn [snd] in *.
    trans h2; [apply kept_files; by rewrite Hf|]. case_decide; [|done]. apply save_kept. rewrite Hc, Hb.
    apply marker_files. by rewrite Hf.
  - apply kept_files. cbn [snd]. by rewrite (load_failed key h1 h2).
Qed.
Lemma question_kept io tracking caller id h : kept id h (question_reminder io tracking caller h).2.
Proof.
  unfold question_reminder. destruct tracking as [| | |[slug|] [] w n q]; try done.
  destruct (with_stop_state _ _ _ _) as [first h1] eqn:E. cbn [snd]. change h1 with (first, h1).2. rewrite <-E.
  apply with_stop_state_kept. intros s. by case_bool_decide.
Qed.
Lemma handle_stop_kept io tracker payload caller tracking id h :
  kept id h (handle_stop io tracker payload caller tracking h).2.
Proof.
  unfold handle_stop. destruct (negb _); [done|].
  set (h1 := if is_stalled tracking then h else clear_stop_turns io caller h).
  trans h1.
  { unfold h1. destruct (is_stalled tracking); [done|]. unfold clear_stop_turns. destruct (caller ≫= state_path); [|done].
    case_decide; [done|]. by apply with_stop_state_kept. }
  destruct tracking as [| | |wip o w n q]; try done.
  case_decide; [apply question_kept|]. case_decide; [done|]. destruct wip as [slug|]; [|by destruct n].
  case_decide; [done|]. unfold stop_wip_reminder. destruct (negb _); [done|].
  destruct (with_stop_state _ _ _ _) as [due h2] eqn:E. cbn [snd]. change h2 with (due, h2).2. rewrite <-E.
  by apply with_stop_state_kept.
Qed.
Lemma reminders_keep_denied tracker payload tracking s h :
  nu_commit_denied (skill_reminder tracker payload tracking s).2 = nu_commit_denied s ∧
  nu_commit_denied (mutation_reminder tracker tracking s).2 = nu_commit_denied s ∧
  nu_commit_denied (boundary_reminder payload tracking s h).1.2 = nu_commit_denied s ∧
  hk_files (boundary_reminder payload tracking s h).2 = hk_files h.
Proof.
  assert (Hw : nu_commit_denied (work_nudge tracker tracking s).2 = nu_commit_denied s).
  { unfold work_nudge. destruct (negb (untracked tracking)); [done|]. by destruct (negb _). }
  split; [unfold skill_reminder; by destruct (_ || _)|]. split.
  - unfold mutation_reminder. destruct tracking as [| | |[?|] ? ? [?|] ?]; try done.
    unfold start_reminder. by case_decide.
  - unfold boundary_reminder. destruct (step_boundary _) as [[event|]|[]]; [|done..].
    destruct tracking as [| | |[?|] ? ? ? ?]; try done. case_decide; [done|]. by case_decide.
Qed.
Lemma post_tool_kept io has_dir tracker payload session_id tracking id h :
  kept id h (handle_post_tool_use io has_dir tracker payload session_id tracking h).2.
Proof.
  unfold handle_post_tool_use. destruct (negb _); [done|]. destruct (as_str _) as [tool|]; [|done].
  case_decide; [apply question_kept|]. unfold state_path.
  destruct session_id as [key|]; [|by destruct (needs_state tool)]. cbn [mbind option_bind].
  destruct (is_valid_short_name key); [|by destruct (needs_state tool)]. cbn [fmap option_fmap option_map].
  assert (Hl : kept id h (if has_dir then lock_state_file io DIR key h else (true, h)).2).
  { destruct has_dir; [apply kept_lock|done]. }
  destruct (if has_dir then _ else _) as [may_save h1]. cbn [snd] in Hl. etrans; [exact Hl|].
  destruct (load _ h1) as [[[before reset]|] h2] eqn:E; [|apply kept_files; cbn [snd]; by rewrite (load_failed key h1 h2)].
  apply load_marker in E as [Hb Hf]. pose proof (reminders_keep_denied tracker payload tracking before h2) as (Hs & Hm & Hd & Hh).
  set (out := if decide (tool = "Skill") then _ else _).
  assert (Hr : nu_commit_denied out.1.2 = nu_commit_denied before ∧ hk_files out.2 = hk_files h2).
  { unfold out. case_decide; [done|]. case_decide; [done|]. by destruct (is_shell_tool tool). }
  destruct out as [[text s] h3]. cbn in Hr. destruct Hr as [Hr Hh3]. cbn [snd].
  trans h3; [apply kept_files; by rewrite Hh3, Hf|]. case_decide; [|done]. destruct may_save; [|by apply kept_files].
  apply save_kept. rewrite (marker_files key h3 h1) by (by rewrite Hh3, Hf). rewrite <-Hb, <-Hr.
  unfold settle. by destruct (is_tracked tracking).
Qed.

(** *** One call of the gate *)

Lemma commit_gate_commit io tracker payload id tracking h command :
  commit_of tracker payload = Some command → is_valid_short_name id = true →
  commit_gate io tracker payload (Some id) tracking h =
    let '(locked, h) := lock_state_file io DIR id h in
    if negb locked then (Denied LockTaken, h)
    else
      match read_state (json_file DIR id) h with
      | (None, h) => (Denied StateCannotBeRead, h)
      | (Some (s, reset), h) =>
        gate_decide io (json_file DIR id) command tracking s
          (if reset : bool then (save io (json_file DIR id) s h).2 else h)
      end.
Proof.
  intros Hc Hv. unfold commit_of in Hc. unfold commit_gate, state_path. rewrite Hv.
  destruct (tt_enforce_commit tracker), (default false _); try done. cbn [andb negb orb] in *.
  destruct (as_str _) as [cmd|]; [|done]. destruct (runs_commit_or_pr cmd); [|done]. simplify_eq.
  destruct (lock_state_file io DIR id h) as [[] h1]; [|done]. cbn [negb].
  by destruct (read_state _ h1) as [[[s reset]|] h2].
Qed.

Lemma gate_decide_marker io id command tracking s h : nu_commit_denied s = marker id h →
  let out := gate_decide io (json_file DIR id) command tracking s h in
  match out.1 with
  | Pass => (∀ cause, tracking ≠ Unknown cause) ∧
      (wip_open tracking command = true ∧ marker id out.2 = false ∨
       wip_open tracking command = false ∧ marker id h = true ∧ marker id out.2 = true ∧
       is_ok (shell_segments command) = true)
  | Denied (StoreCannotBeRead cause) => tracking = Unknown cause ∧ marker id out.2 = marker id h
  | Denied StateNotSaved => marker id out.2 = marker id h ∧ io_write io DIR = false
  | Denied why => (∀ cause, tracking ≠ Unknown cause) ∧ wip_open tracking command = false ∧
      marker id out.2 = true ∧
      why = (if is_ok (shell_segments command) then NoTaskOpen tracking else TooDeep) ∧
      (marker id h = true → is_ok (shell_segments command) = false)
  end.
Proof.
  intros Hs. cbv zeta.
  assert (Hsave : ∀ b, match save io (json_file DIR id) (with_commit_denied b s) h with
    | (true, h') => marker id h' = b | (false, h') => marker id h' = marker id h ∧ io_write io DIR = false end).
  { intros b. pose proof (save_marker io id (with_commit_denied b s) h) as Hm.
    pose proof (save_failed io (json_file DIR id) (with_commit_denied b s) h) as Hf.
    assert (Hw : (save io (json_file DIR id) (with_commit_denied b s) h).1 = io_write io DIR).
    { unfold save, write_file. cbn [json_file fst]. by destruct (io_write io DIR). }
    destruct (save io _ _ h) as [[] h']; cbn in *; [by apply Hm|]. split; [|done]. by apply marker_files; rewrite Hf. }
  assert (Hgo : (∀ cause, tracking ≠ Unknown cause) →
    gate_decide io (json_file DIR id) command tracking s h =
    if wip_open tracking command then
      if nu_commit_denied s then
        let '(saved, h) := save io (json_file DIR id) (with_commit_denied false s) h in
        (if saved : bool then Pass else Denied StateNotSaved, h)
      else (Pass, h)
    else if nu_commit_denied s && is_ok (shell_segments command) then (Pass, h)
    else
      let '(saved, h) := save io (json_file DIR id) (with_commit_denied true s) h in
      if negb saved then (Denied StateNotSaved, h)
      else (Denied (if is_ok (shell_segments command) then NoTaskOpen tracking else TooDeep), h)).
  { intros Hu. unfold gate_decide. rewrite negb_involutive. destruct (is_ok (shell_segments command)); cbn [negb];
      by destruct tracking; try (exfalso; by eapply Hu). }
  assert (Hu : (∃ cause, tracking = Unknown cause) ∨ ∀ cause, tracking ≠ Unknown cause) by (destruct tracking; eauto).
  destruct Hu as [[cause ->]|Hu]; [done|]. rewrite Hgo by done.
  destruct (wip_open tracking command) eqn:Hw; [|destruct (nu_commit_denied s && is_ok (shell_segments command)) eqn:Hd].
  - destruct (nu_commit_denied s) eqn:Hn; [|cbn [fst snd]; rewrite Hs in Hn; auto].
    specialize (Hsave false). destruct (save io _ _ h) as [[] h']; cbn [fst snd]; auto.
  - apply andb_true_iff in Hd as [Hd Ho]. cbn [fst snd]. rewrite <-Hs. tauto.
  - specialize (Hsave true). destruct (save io _ _ h) as [[] h']; cbn [negb fst snd]; [|done].
    assert (Himp : marker id h = true → is_ok (shell_segments command) = false).
    { rewrite <-Hs. intros E. by rewrite E in Hd. }
    by destruct (is_ok (shell_segments command)).
Qed.

(** C9: the gate fails closed: a commit passes only when its session can be named, its state is locked
    and read and the task store is known, and then only with a task in progress that the command
    does not end first (and the marker is clear afterwards), or as the retry of a denied one. *)
Theorem gate_fails_closed (io : HookIo) (tracker : TaskTracker) (payload : json) (session_id : option string)
    (tracking : Tracking) (h : Hooks) (command : string) :
  commit_of tracker payload = Some command →
  (commit_gate io tracker payload session_id tracking h).1 = Pass →
  ∃ id, session_id = Some id ∧ is_valid_short_name id = true ∧ io_lock io DIR = Taken ∧
    read_text (json_file DIR id) h ≠ Failed ∧ (∀ cause, tracking ≠ Unknown cause) ∧
    (wip_open tracking command = true ∧
       marker id (commit_gate io tracker payload session_id tracking h).2 = false ∨
     wip_open tracking command = false ∧ marker id h = true ∧ is_ok (shell_segments command) = true).
Proof.
  intros Hc Hp. destruct session_id as [id|].
  2: { revert Hp. unfold commit_of in Hc. unfold commit_gate. destruct (tt_enforce_commit tracker), (default false _); try done.
       cbn [andb negb orb] in *. destruct (as_str _) as [cmd|]; [|done]. by destruct (runs_commit_or_pr cmd). }
  destruct (is_valid_short_name id) eqn:Hv.
  2: { revert Hp. unfold commit_of in Hc. unfold commit_gate, state_path. rewrite Hv.
       destruct (tt_enforce_commit tracker), (default false _); try done.
       cbn [andb negb orb] in *. destruct (as_str _) as [cmd|]; [|done]. by destruct (runs_commit_or_pr cmd). }
  exists id. split; [done|]. split; [done|]. revert Hp. rewrite (commit_gate_commit _ _ _ _ _ _ _ Hc Hv).
  pose proof (marker_lock io id id h) as Hm. pose proof (lock_keeps_text io DIR id h DIR id) as Ht.
  assert (Hl : (lock_state_file io DIR id h).1 = true → io_lock io DIR = Taken).
  { unfold lock_state_file. destruct (negb _); [done|]. by destruct (io_lock io DIR). }
  destruct (lock_state_file io DIR id h) as [[] h1]; [|done]. cbn [negb fst snd] in *.
  destruct (read_state _ h1) as [[[s reset]|] h2] eqn:E; [|done].
  assert (Hr : read_text (json_file DIR id) h ≠ Failed).
  { rewrite <-Ht. unfold read_state in E. by destruct (read_text _ h1). }
  apply read_state_marker in E as [Hs Hf].
  set (h3 := if reset then _ else h2). assert (Hm3 : marker id h3 = marker id h).
  { assert (E2 : marker id h2 = marker id h1) by (apply marker_files; by rewrite Hf).
    unfold h3. destruct reset; [rewrite (proj1 (save_kept io id id s h2 ltac:(congruence)))|]; congruence. }
  pose proof (gate_decide_marker io id command tracking s h3) as Hg.
  specialize (Hg ltac:(congruence)). cbv zeta in Hg.
  intros Hp. rewrite Hp in Hg. destruct Hg as [Hu Hg]. split; [by apply Hl|]. split; [done|]. split; [done|].
  destruct Hg as [?|(? & ? & ? & ?)]; [by left|right]. split; [done|]. split; congruence.
Qed.

(** *** A session *)

Inductive event :=
| PreTool (payload : json) (tracking : Tracking)
| PostTool (has_dir : bool) (payload : json) (tracking : Tracking)
| TurnEnd (payload : json) (tracking : Tracking).
(** The verdicts of the gate over the events of a session, each with its own file system. *)
Fixpoint verdicts (tracker : TaskTracker) (id : string) (events : list (HookIo * event)) (h : Hooks) : list Verdict :=
  match events with
  | [] => []
  | (io, PreTool payload tracking) :: events =>
    let '(v, h) := commit_gate io tracker payload (Some id) tracking h in v :: verdicts tracker id events h
  | (io, PostTool has_dir payload tracking) :: events =>
    verdicts tracker id events (handle_post_tool_use io has_dir tracker payload (Some id) tracking h).2
  | (io, TurnEnd payload tracking) :: events =>
    verdicts tracker id events (handle_stop io tracker payload (Some id) tracking h).2
  end.

(** The reference has no state: a verdict follows from the earlier commits, the latest first. The
    gate is armed when the latest commit it could judge had no task in progress. *)
Fixpoint armed (past : list (string * Tracking)) : bool :=
  match past with
  | [] => false
  | (_, Unknown _) :: past => armed past
  | (command, tracking) :: _ => negb (wip_open tracking command)
  end.
Definition judged (past : list (string * Tracking)) (command : string) (tracking : Tracking) : Verdict :=
  match tracking with
  | Unknown cause => Denied (StoreCannotBeRead cause)
  | _ =>
    if wip_open tracking command then Pass
    else if is_ok (shell_segments command) then
      if armed past then Pass else Denied (NoTaskOpen tracking)
    else Denied TooDeep
  end.
Definition no_commit_verdict (tracker : TaskTracker) (payload : json) : Verdict :=
  if tt_enforce_commit tracker && default false (is_shell_tool <$> as_str (json_index "tool_name" payload)) &&
     negb (bool_decide (is_Some (as_str (json_index "command" (json_index "tool_input" payload)))))
  then Denied NoCommand else Pass.
Fixpoint judgements (tracker : TaskTracker) (past : list (string * Tracking)) (events : list event) : list Verdict :=
  match events with
  | [] => []
  | PreTool payload tracking :: events =>
    match commit_of tracker payload with
    | None => no_commit_verdict tracker payload :: judgements tracker past events
    | Some command => judged past command tracking :: judgements tracker ((command, tracking) :: past) events
    end
  | _ :: events => judgements tracker past events
  end.

Definition gate_works (ie : HookIo * event) : Prop :=
  match ie.2 with PreTool _ _ => io_lock ie.1 DIR = Taken ∧ io_write ie.1 DIR = true | _ => True end.

Lemma commit_gate_other io tracker payload session_id tracking h : commit_of tracker payload = None →
  commit_gate io tracker payload session_id tracking h = (no_commit_verdict tracker payload, h).
Proof.
  unfold commit_of, commit_gate, no_commit_verdict. destruct (tt_enforce_commit tracker), (default false _); try done.
  cbn [andb negb orb]. destruct (as_str _) as [cmd|]; [|done]. destruct (runs_commit_or_pr cmd); [done|].
  by rewrite bool_decide_true by eauto.
Qed.

Lemma gate_decide_readable io id command tracking s h : io_write io DIR = true →
  read_text (json_file DIR id) h ≠ Failed →
  read_text (json_file DIR id) (gate_decide io (json_file DIR id) command tracking s h).2 ≠ Failed.
Proof.
  intros Hw Hr. assert (Hs : ∀ b, ∃ h', save io (json_file DIR id) (with_commit_denied b s) h = (true, h') ∧
    read_text (json_file DIR id) h' ≠ Failed).
  { intros b. pose proof (save_text io id (with_commit_denied b s) h) as Ht. unfold save, write_file in *.
    cbn [json_file fst] in *. rewrite Hw in *. eexists. split; [done|]. cbn [fst snd] in Ht. by rewrite Ht. }
  destruct (Hs true) as (ht & Et & Hrt), (Hs false) as (hf & Ef & Hrf). unfold gate_decide. rewrite Et, Ef.
  by destruct (wip_open tracking command), (nu_commit_denied s), (is_ok (shell_segments command)), tracking.
Qed.
Lemma commit_gate_judged io tracker payload id tracking h command past :
  commit_of tracker payload = Some command → is_valid_short_name id = true →
  io_lock io DIR = Taken → io_write io DIR = true →
  marker id h = armed past → read_text (json_file DIR id) h ≠ Failed →
  let out := commit_gate io tracker payload (Some id) tracking h in
  out.1 = judged past command tracking ∧ marker id out.2 = armed ((command, tracking) :: past) ∧
  read_text (json_file DIR id) out.2 ≠ Failed.
Proof.
  intros Hc Hv Hl Hw Hm Hr. cbv zeta. rewrite (commit_gate_commit _ _ _ _ _ _ _ Hc Hv).
  pose proof (kept_lock io id id h) as [Hm1 Hr1]. specialize (Hr1 Hr).
  assert (Hok : (lock_state_file io DIR id h).1 = true) by (unfold lock_state_file; by rewrite Hv, Hl).
  destruct (lock_state_file io DIR id h) as [[] h1]; [|done]. cbn [negb fst snd] in *.
  destruct (read_state _ h1) as [[[s reset]|] h2] eqn:E; [|unfold read_state in E; by destruct (read_text _ h1) as [t| |]; try destruct (decode t)].
  apply read_state_marker in E as [Hs Hf].
  set (h3 := if reset then _ else h2). assert (Hk : kept id h1 h3).
  { trans h2; [apply kept_files; by rewrite Hf|]. unfold h3. destruct reset; [|done]. apply save_kept. rewrite Hs.
    apply marker_files. by rewrite Hf. }
  destruct Hk as [Hm3 Hr3]. specialize (Hr3 Hr1).
  pose proof (gate_decide_marker io id command tracking s h3 ltac:(congruence)) as Hg. cbv zeta in Hg.
  pose proof (gate_decide_readable io id command tracking s h3 Hw Hr3) as Hread.
  destruct (gate_decide io (json_file DIR id) command tracking s h3) as [v h4]. cbn [fst snd] in *.
  assert (Hm' : marker id h3 = armed past) by congruence. rewrite Hm' in Hg.
  assert (Hno : ∀ why, (∀ cause, tracking ≠ Unknown cause) ∧ wip_open tracking command = false ∧ marker id h4 = true ∧
      why = (if is_ok (shell_segments command) then NoTaskOpen tracking else TooDeep) ∧
      (armed past = true → is_ok (shell_segments command) = false) →
    Denied why = judged past command tracking ∧ marker id h4 = armed ((command, tracking) :: past)).
  { intros why (Hu & Hwip & Hm4 & -> & Himp). unfold judged. cbn [armed]. rewrite Hwip, Hm4.
    destruct (is_ok (shell_segments command)) eqn:Ho.
    - destruct (armed past); [by specialize (Himp eq_refl)|]. destruct tracking as [c| | |]; [by destruct (Hu c)|done..].
    - destruct tracking as [c| | |]; [by destruct (Hu c)|done..]. }
  rewrite (assoc (∧)). split; [|done].
  destruct v as [|[]]; try by apply Hno.
  - destruct Hg as [Hu Hg]. unfold judged. cbn [armed]. destruct tracking as [c| | |]; [by destruct (Hu c)|..].
    all: by destruct Hg as [[-> ->]|(-> & -> & -> & ->)].
  - by destruct Hg as [-> ->].
  - destruct Hg as [_ Hg]. congruence.
Qed.

(** C8: the commit gate against the reference: on a session whose state can be locked, read and saved
    when the gate runs, every verdict follows from the earlier commits alone. Whatever the nudges
    of tool calls, questions and turn ends write to the same file in between changes none. *)
Theorem gate_refines (tracker : TaskTracker) (id : string) (events : list (HookIo * event))
    (past : list (string * Tracking)) (h : Hooks) :
  is_valid_short_name id = true → Forall gate_works events →
  marker id h = armed past → read_text (json_file DIR id) h ≠ Failed →
  verdicts tracker id events h = judgements tracker past events.*2.
Proof.
  intros Hv He. revert past h. induction He as [|[io e] events Hw He IH]; intros past h Hm Hr; [done|].
  cbn [verdicts judgements fmap list_fmap snd] in *. destruct e as [payload tracking|has_dir payload tracking|payload tracking].
  - destruct Hw as [Hl Hw]. cbn [fst snd] in *. destruct (commit_of tracker payload) as [command|] eqn:Hc.
    + destruct (commit_gate_judged io tracker payload id tracking h command past) as (Hj & Hm' & Hr'); try done.
      destruct (commit_gate io tracker payload (Some id) tracking h) as [v h']. cbn [fst snd] in *. rewrite Hj. f_equal. by apply IH.
    + rewrite commit_gate_other by done. f_equal. by apply IH.
  - destruct (post_tool_kept io has_dir tracker payload (Some id) tracking id h) as [Hm' Hr']. apply IH; [congruence|auto].
  - destruct (handle_stop_kept io tracker payload (Some id) tracking id h) as [Hm' Hr']. apply IH; [congruence|auto].
Qed.
End nudges.

(** ** When the nudges fire *)

(** The state and the nudges after a run of file edits with no task. *)
Fixpoint untracked_edits (tracker : TaskTracker) (tracking : Tracking) (n : nat) (s : NudgeState)
  : list bool * NudgeState :=
  match n with
  | 0 => ([], s)
  | S n =>
    let '(text, s) := mutation_reminder tracker tracking s in
    let '(fired, s) := untracked_edits tracker tracking n (settle tracking s) in
    (negb (bool_decide (text = "")) :: fired, s)
  end.

(** The first edit that is nudged, and the distance between later nudges. *)
Definition first_nudge (tracker : TaskTracker) : N := N.max 1 (default DEFAULT_NUDGE_AFTER (tt_nudge_after tracker)).
Definition nudge_step (tracker : TaskTracker) : N := N.max 1 (default DEFAULT_NUDGE_EVERY (tt_nudge_every tracker)).
Definition nudge_due (tracker : TaskTracker) (k : N) : bool :=
  bool_decide (first_nudge tracker ≤ k)%N && bool_decide ((k - first_nudge tracker) `mod` nudge_step tracker = 0)%N.
(** The last nudge up to edit [k]. *)
Definition last_due (tracker : TaskTracker) (k : N) : N :=
  if bool_decide (first_nudge tracker ≤ k)%N
  then first_nudge tracker + (k - first_nudge tracker) `div` nudge_step tracker * nudge_step tracker else 0.

Lemma step_div_mod a e : (0 < e)%N →
  let q := (a `div` e)%N in let r := (a `mod` e)%N in
  (r < e)%N ∧ a = (q * e + r)%N ∧
  ((r + 1 = e)%N → ((a + 1) `mod` e = 0)%N ∧ ((a + 1) `div` e = q + 1)%N) ∧
  ((r + 1 < e)%N → ((a + 1) `mod` e = r + 1)%N ∧ ((a + 1) `div` e = q)%N).
Proof.
  intros He. cbv zeta. pose proof (N.div_mod a e ltac:(lia)) as Hd. pose proof (N.mod_lt a e ltac:(lia)) as Hm.
  split; [done|]. split; [lia|]. split; intros Hr.
  - split; [symmetry; apply (N.mod_unique _ _ (a `div` e + 1)%N); lia|symmetry; apply (N.div_unique _ _ _ 0%N); lia].
  - split; [symmetry; apply (N.mod_unique _ _ (a `div` e)%N); lia|symmetry; apply (N.div_unique _ _ _ (a `mod` e + 1)%N); lia].
Qed.

Lemma work_nudge_due tracker tracking k s : untracked tracking = true → (k < u32_max)%N →
  nu_calls s = k → nu_last_nudge s = last_due tracker k →
  let out := mutation_reminder tracker tracking s in
  negb (bool_decide (out.1 = "")) = nudge_due tracker (k + 1) ∧
  nu_calls (settle tracking out.2) = (k + 1)%N ∧ nu_last_nudge (settle tracking out.2) = last_due tracker (k + 1).
Proof.
  intros Hu Hk Hc Hl. cbv zeta.
  assert (Hset : ∀ s, settle tracking s = s) by (intros; by destruct tracking).
  assert (Hmut : mutation_reminder tracker tracking s = work_nudge tracker tracking s) by (by destruct tracking).
  rewrite Hset, Hmut. unfold work_nudge. rewrite Hu. cbn [negb]. rewrite Hc, Hl. unfold saturating_add32, saturating_sub32.
  rewrite N.min_l by lia.
  assert (Hdue : (if decide (last_due tracker k = 0%N)
      then bool_decide (default DEFAULT_NUDGE_AFTER (tt_nudge_after tracker) ≤ k + 1)%N
      else bool_decide (default DEFAULT_NUDGE_EVERY (tt_nudge_every tracker) ≤ k + 1 - last_due tracker k)%N) =
    nudge_due tracker (k + 1) ∧
    last_due tracker (k + 1) = if nudge_due tracker (k + 1) then (k + 1)%N else last_due tracker k).
  { clear. unfold nudge_due, last_due, first_nudge, nudge_step.
    set (after := default DEFAULT_NUDGE_AFTER _). set (every := default DEFAULT_NUDGE_EVERY _).
    set (f := N.max 1 after). set (e := N.max 1 every).
    assert (Hfd : f = N.max 1 after) by done. assert (Hed : e = N.max 1 every) by done. clearbody f e.
    destruct (decide (f ≤ k)%N) as [Hf|Hf].
    - rewrite !(bool_decide_true (f ≤ _)%N) by lia. rewrite decide_False by (intros [? _]%N.eq_add_0; lia).
      replace (k + 1 - f)%N with (k - f + 1)%N by lia. pose proof (step_div_mod (k - f) e ltac:(lia)) as (Hr & Ha & H1 & H2).
      cbv zeta in *. destruct (decide ((k - f) `mod` e + 1 = e)%N) as [He|He].
      + destruct (H1 He) as [-> ->]. rewrite (bool_decide_true (0 = 0)%N) by done. rewrite N.mul_add_distr_r. cbn [andb].
        clear H1 H2. set (p := ((k - f) `div` e * e)%N) in *. set (r := ((k - f) `mod` e)%N) in *. clearbody p r. split; [apply bool_decide_true|]; lia.
      + destruct (H2 ltac:(lia)) as [-> ->]. rewrite (bool_decide_false ((k - f) `mod` e + 1 = 0)%N) by (rewrite N.add_1_r; apply N.neq_succ_0).
        cbn [andb]. split; [|done].
        clear H1 H2. set (p := ((k - f) `div` e * e)%N) in *. set (r := ((k - f) `mod` e)%N) in *. clearbody p r. apply bool_decide_false. lia.
    - rewrite (bool_decide_false (f ≤ k)%N), decide_True by done. destruct (decide (f = k + 1)%N) as [He|He].
      + rewrite He, N.sub_diag, !bool_decide_true by (try apply N.Div0.mod_0_l; lia). cbn [andb].
        split; [done|]. rewrite N.Div0.div_0_l. lia.
      + by rewrite !(bool_decide_false (f ≤ _)%N), bool_decide_false by lia. }
  destruct Hdue as [-> ->]. by destruct (nudge_due tracker (k + 1)).
Qed.

(** The edit nudge keeps its schedule: over a run of edits with no task, from a new session on,
    edit [n] is nudged exactly when it is the first one the configuration names or a whole number
    of steps later. A setting of zero counts as one, and the counters stay in u32. *)
Theorem nudge_schedule (tracker : TaskTracker) (tracking : Tracking) (n : nat) :
  untracked tracking = true → (N.of_nat n ≤ u32_max)%N →
  (untracked_edits tracker tracking n default_nudge).1 = (λ k, nudge_due tracker (N.of_nat k)) <$> seq 1 n ∧
  nu_calls (untracked_edits tracker tracking n default_nudge).2 = N.of_nat n.
Proof.
  intros Hu Hn.
  assert (Hgo : ∀ m k s, (N.of_nat (k + m) ≤ u32_max)%N → nu_calls s = N.of_nat k →
    nu_last_nudge s = last_due tracker (N.of_nat k) →
    (untracked_edits tracker tracking m s).1 = (λ k, nudge_due tracker (N.of_nat k)) <$> seq (S k) m ∧
    nu_calls (untracked_edits tracker tracking m s).2 = N.of_nat (k + m)).
  { induction m as [|m IH]; intros k s Hk Hc Hl; [cbn; by rewrite Nat.add_0_r|].
    cbn [untracked_edits seq fmap list_fmap].
    destruct (work_nudge_due tracker tracking (N.of_nat k) s Hu ltac:(lia) Hc Hl) as (Hd & Hc' & Hl').
    destruct (mutation_reminder tracker tracking s) as [text s']. cbn [fst snd] in *. rewrite Hd.
    replace (N.of_nat k + 1)%N with (N.of_nat (S k)) in * by lia.
    specialize (IH (S k) _ ltac:(lia) Hc' Hl'). destruct (untracked_edits tracker tracking m _) as [fired s'']. cbn [fst snd] in *.
    replace (k + S m) with (S k + m) by lia. destruct IH as [-> ->]. done. }
  apply (Hgo n 0); [done|done|]. unfold last_due, first_nudge. rewrite bool_decide_false by lia. done.
Qed.
