(* ===== verification/TaskRedirect.v ===== *)
(** * The redirect of the engine's own task tools (src/hook_run/task_tools.rs, task_tools/update.rs)

    A call of TaskCreate, TaskList or TaskUpdate is refused and its work is done in the tracker
    instead. What the refusal says is a [reply]; [reply_text] is its text. The tag of the project
    and the resume context that [ResumeContext::detected] reads are arguments. *)

From S2P Require Import Prelude RustStr Names Slug Json TaskData TaskStore Blockers.
From S2P Require Import Resume Relation Forest SessionStore SessionFacts SessionLaws TaskResolve TaskOps.
From S2P Require Import TaskFacts ParentLaws TaskLaws System OwnershipLaws Text Reminders.

Definition TASK_TOOLS : list string := ["TaskCreate"; "TaskList"; "TaskUpdate"].
Definition deny (msg : string) : string := "__DENY__:" +:+ msg.
Definition str_field (input : option json) (key : string) : option string := (input ≫= json_get key) ≫= Json.as_str.
(** [.map(str::trim).filter(|s| !s.is_empty())]. *)
Definition nonblank (s : option string) : option string :=
  s ≫= λ s, let s := trim s in if decide (s = "") then None else Some s.
Definition task_tool_name (payload : json) : option string :=
  str_field (Some payload) "tool_name" ≫= λ tool, if decide (tool ∈ TASK_TOOLS) then Some tool else None.

(** What became of the note of an update, and what the update changed. *)
Inductive note_result := NoNote | NoteSaved (slug : string) | NoteLost (e : error).
Inductive change_result := Started (slug : string) | CompletedTask (slug : string) | DeletedTask (slug : string)
  | LeftUnchanged (slug : string) (unknown : option string).
Inductive reply :=
| NoSubject | CreateLockFailed (e : error)
| SessionsUnreadable (e : error) | NoResumeContext (e : error) | PickFailed (cause : string)
| NotTheCallers (e : error) | NoAutoStart (e : error)
| Tracked (slug session : string) (note_lost : option error) | NotRecorded (e : error)
| Listing (tasks : string) | ListUnreadable (e : error)
| NoTaskId | Updated (change : change_result) (note : note_result) (dropped : bool)
| UpdateFailed (id : string) (e : error) (note : note_result) | UpdateStoreFailed (id : string) (e : error)
| UnhandledTool (tool : string) | NoProject (e : error) | TrackerUnavailable (e : error).

(** ** The texts, with the display of errors as a parameter *)

Section texts.
Context (show show_chain : error → string).
Definition note_text (n : note_result) : string :=
  match n with
  | NoNote => ""
  | NoteSaved slug => " (note saved to '" +:+ slug +:+ "')"
  | NoteLost e => " (note not saved: " +:+ show_chain e +:+ ")"
  end.
Definition change_text (c : change_result) : string :=
  match c with
  | Started slug => "started '" +:+ slug +:+ "'"
  | CompletedTask slug => "completed '" +:+ slug +:+ "'"
  | DeletedTask slug => "deleted '" +:+ slug +:+ "'"
  | LeftUnchanged slug unknown =>
    "left '" +:+ slug +:+ "' unchanged" +:+
      match unknown with Some s => " (status '" +:+ s +:+ "' not recognized)" | None => "" end
  end.
Definition manually : string := "; track this with `llmenv task` manually.".
Definition reply_text (r : reply) : string :=
  deny match r with
  | NoSubject => "TaskCreate carried no `subject`; use `llmenv task add " +:+ dq +:+ "<title>" +:+ dq +:+ "`."
  | CreateLockFailed e =>
    "cannot lock the llmenv task store (" +:+ show_chain e +:+ "). Fix: run `llmenv doctor`, then retry TaskCreate."
  | SessionsUnreadable e => "couldn't read the llmenv task tracker's sessions (" +:+ show e +:+ ")" +:+ manually
  | NoResumeContext e =>
    "cannot read the working directory or the git branch for the auto-started task session (" +:+ show_chain e +:+ ")" +:+ manually
  | PickFailed cause => "couldn't pick the task session (" +:+ cause +:+ ")" +:+ manually
  | NotTheCallers e => show_chain e +:+ manually
  | NoAutoStart e => "couldn't auto-start a task session (" +:+ show e +:+ "); run `llmenv task session start`."
  | Tracked slug session note_lost =>
    "Tracked in the llmenv task tracker as '" +:+ slug +:+ "' — do NOT stop tracking and do NOT retry TaskCreate" +:+
    " (it will keep being redirected). Update with `llmenv task start|note|done|wait " +:+ slug +:+
    "`, block on another with `llmenv task block " +:+ slug +:+ " --on <other>`, and list with `llmenv task ls --session " +:+
    session +:+ "` (#1124: `ls` requires --session or --all, never lists every session by default)." +:+
    match note_lost with Some e => " (note: the description wasn't saved — " +:+ show_chain e +:+ ")" | None => "" end
  | NotRecorded e => "couldn't record the task (" +:+ show e +:+ ")."
  | Listing tasks =>
    "The llmenv task tracker is authoritative (Claude's TaskList is redirected here):" +:+ nl +:+ tasks
  | ListUnreadable e => "couldn't read the llmenv task tracker (" +:+ show e +:+ ")" +:+ manually
  | NoTaskId =>
    "TaskUpdate carried no `taskId`; update via `llmenv task start|note|done|wait <id>` or `llmenv task block <id> --on <other>` (see `llmenv task ls --all` for ids)."
  | Updated change note dropped =>
    change_text change +:+ note_text note +:+
      (if dropped then " (description not saved: the task is deleted)" else "") +:+
      " — llmenv task tracker (TaskUpdate redirected)."
  | UpdateFailed id e note =>
    "couldn't update task '" +:+ id +:+ "' (" +:+ show_chain e +:+ ")" +:+ note_text note +:+
      ". If the id is wrong, run `llmenv task ls --all` for the current ids."
  | UpdateStoreFailed id e =>
    "couldn't update task '" +:+ id +:+ "': the task store is unavailable (" +:+ show_chain e +:+
      "). Fix the cause, then run the update again."
  | UnhandledTool tool => "unhandled task tool '" +:+ tool +:+ "'; use `llmenv task`."
  | NoProject e =>
    "couldn't resolve the project for the llmenv task tracker (" +:+ show e +:+ "); track this with `llmenv task` manually."
  | TrackerUnavailable e => "the llmenv task tracker is unavailable (" +:+ show e +:+ ")" +:+ manually
  end.
End texts.

Section redirect.
Context `{Platform} (project : string) (owner : EngineIdentity) (detected : result error ResumeContext).

Definition start_request (resume : ResumeContext) : StartRequest := mkStart None None project owner resume.
Definition outcome_session (o : StartOutcome) : Session :=
  match o with Created s | Resumed s | Replaced s _ => s end.

(** The session of the new task, or the reply that refuses it. *)
Definition ensure_session : ST world reply Session :=
  open ← st_map_err SessionsUnreadable (open_sessions_strict project);
  resume ← st_lift (map_err NoResumeContext detected);
  if decide (open ≠ []) then
    picked ← st_lift (map_err
      (λ e, PickFailed (default "the task session could not be picked"
         (ambiguity_message e "pass --session <id>, or see `llmenv task session ls`")))
      (pick_open_session open owner));
    st_lift (map_err NotTheCallers (check_takes_tasks picked owner));;
    mret picked
  else
    o ← st_map_err NoAutoStart (start_session_as (start_request resume) Auto);
    mret (outcome_session o).

(** A step that cannot fail: its error is its answer. *)
Definition caught {E A} (m : ST world E A) : ST world error (result E A) := st_try m.
Definition settled (m : ST world reply reply) : M reply :=
  r ← caught m; mret match r with Ok r => r | Err r => r end.

Definition create_under_lock (input : option json) (subject : string) : M reply :=
  settled (
    session ← ensure_session;
    t ← st_map_err NotRecorded
          (add_task_with (mkNewTask subject None PQueue None) Detached (Checked session) project);
    match nonblank (str_field input "description") with
    | None => mret (Tracked (t_slug t) (default "<session-id>" (t_session t)) None)
    | Some desc =>
      noted ← st_try (note_task (Resolved (t_slug t)) desc);
      mret (Tracked (t_slug t) (default "<session-id>" (t_session t))
             match noted with Ok _ => None | Err e => Some e end)
    end).
Definition create (input : option json) : M reply :=
  match nonblank (str_field input "subject") with
  | None => mret NoSubject
  | Some subject =>
    r ← st_try (with_store_lock (create_under_lock input subject));
    mret match r with Ok r => r | Err e => CreateLockFailed e end
  end.

Definition list_all : M reply :=
  r ← st_try list_tasks_strict;
  mret match r with
       | Err e => ListUnreadable e
       | Ok tasks =>
         let rendered := render_task_list tasks in
         Listing (if decide (trim rendered = "") then "(no tasks tracked yet)" else rendered)
       end.

(** ** TaskUpdate *)

Definition checked_slug (id : string) : M (string * option OverrideNote * Caller) :=
  caller ← caller_session project owner;
  '(slug, note) ← ensure_task_is_ours id caller None;
  mret (slug, note, caller).
Definition record_check_note (caller : Caller) (slug : string) (note : option OverrideNote) (deleted : bool) : M unit :=
  match note with
  | Some note => if on_owner_less note && deleted then record_owner_less_delete caller [slug] else record_override note
  | None => mret tt
  end.
Definition change (slug : string) (status : option string) : M change_result :=
  let says s := bool_decide (status = Some s) in
  if says "in_progress" then t ← start_task (Resolved slug) false; mret (Started (t_slug t))
  else if says "completed" then c ← complete_task (Resolved slug) false; mret (CompletedTask (t_slug (c_task c)))
  else if says "deleted" then t ← delete_task (Resolved slug); mret (DeletedTask (t_slug t))
  else mret (LeftUnchanged slug status).
Definition save_note (slug : string) (note : option string) : M note_result :=
  match note with
  | None => mret NoNote
  | Some text_ =>
    saved ← st_try (note_task (Resolved slug) text_);
    mret match saved with Ok t => NoteSaved (t_slug t) | Err e => NoteLost e end
  end.
Definition apply_change (id : string) (status note : option string) (deleted : bool)
  : M (result error change_result * note_result) :=
  checked ← st_try (checked_slug id);
  match checked with
  | Err e => mret (Err e, NoNote)
  | Ok (slug, ownership_note, caller) =>
    let owner_less_delete := deleted && match ownership_note with Some n => on_owner_less n | None => false end in
    changed ← st_try (
      (if owner_less_delete then lift (check_owner_less_delete caller) else mret tt);;
      msg ← change slug status;
      record_check_note caller slug ownership_note deleted;;
      mret msg);
    noted ← save_note slug note;
    mret (changed, noted)
  end.
Definition update (input : option json) : M reply :=
  let id := match str_field input "taskId" with Some id => Some id | None => str_field input "task_id" end in
  match nonblank id with
  | None => mret NoTaskId
  | Some id =>
    let status := str_field input "status" in
    let text_ := nonblank match str_field input "description" with Some d => Some d | None => str_field input "subject" end in
    let deleted := bool_decide (status = Some "deleted") in
    let note := if deleted then None else text_ in
    let dropped := deleted && bool_decide (is_Some text_) in
    applied ← st_try (with_store_lock (apply_change id status note deleted));
    mret match applied with
         | Ok (Ok msg, note) => Updated msg note dropped
         | Ok (Err e, note) => UpdateFailed id e note
         | Err e => UpdateStoreFailed id e
         end
  end.

Definition handle_inner_as (tool : string) (input : option json) : M reply :=
  if decide (tool = "TaskCreate") then create input
  else if decide (tool = "TaskList") then list_all
  else if decide (tool = "TaskUpdate") then update input
  else mret (UnhandledTool tool).
End redirect.

Section payload.
Context `{Platform} (detected : result error ResumeContext).

(** [handle_pre_tool_use]: [None] when the tool is none of the three. *)
Definition handle_pre_tool_use (payload : json) (project : result error string) : M (option reply) :=
  match task_tool_name payload with
  | None => mret None
  | Some tool =>
    match project with
    | Err e => mret (Some (NoProject e))
    | Ok project =>
      let owner := from_session_id (str_field (Some payload) "session_id") in
      r ← handle_inner_as project owner detected tool (json_get "tool_input" payload);
      mret (Some r)
    end
  end.
Definition deny_tracker_unavailable (payload : json) (e : error) : option reply :=
  (λ _, TrackerUnavailable e) <$> task_tool_name payload.
End payload.

(** ** Laws *)

Section laws.
Context `{HP : Platform, HL : !PlatformLaws}.
Implicit Types (w : world).

Ltac frames := repeat first [progress solve_frame | apply preserves_try | apply preserves_map_err].

Section invariant.
Context (P : world → Prop) `{!StoreInvariant P}.
Context (HS : ∀ req d, Preserves P (start_session_as req d)) (HN : ∀ id n, Preserves P (append_override_note id n)).
Local Instance redirect_stores {A} (m : M A) : Keeps stores m → Preserves P m | 10 := si_stores m.
Local Instance redirect_add n p s pr : Preserves P (add_task_with n p s pr) := add_task_with_P P n p s pr.
Local Instance redirect_start t f : Preserves P (start_task t f) := start_task_P P t f.
Local Instance redirect_close t f c : Preserves P (close_task t f c) := close_task_P P t f c.
Local Instance redirect_delete t : Preserves P (delete_task t) := delete_task_P P t.
Local Instance redirect_note t n : Preserves P (note_task t n) := note_task_P P t n.

Lemma handle_preserves project owner detected tool input : Preserves P (handle_inner_as project owner detected tool input).
Proof.
  unfold handle_inner_as. repeat case_decide; [| | |apply _].
  - unfold create. destruct (nonblank (str_field input "subject")); [|apply _].
    apply preserves_bind; [|intros; apply _]. apply preserves_try, with_store_lock_inv_P; [done|].
    unfold create_under_lock, settled, caught, ensure_session. frames.
  - unfold list_all. frames.
  - unfold update. destruct (nonblank _); [|apply _].
    apply preserves_bind; [|intros; apply _]. apply preserves_try, with_store_lock_inv_P; [done|].
    unfold apply_change, checked_slug, ensure_task_is_ours, change, complete_task, save_note, record_check_note,
      record_owner_less_delete, record_override, with_context. frames.
Qed.
End invariant.

(** The redirect never breaks the tracker. Whatever the engine sends, a well-formed store stays
    well-formed, and a session that was finished or abandoned is not open again. *)
Theorem redirect_keeps_store project owner detected (tool : string) (input : option json) w :
  world_ok w →
  let w' := (handle_inner_as project owner detected tool input w).2 in
  world_ok w' ∧ ∀ id, (∃ s, lookup_session w id = Some s ∧ ¬ is_open s) → ∃ s, lookup_session w' id = Some s ∧ ¬ is_open s.
Proof.
  intros Hok. cbn zeta. split.
  - by apply (handle_preserves world_ok _ _ project owner detected tool input).
  - intros id Hid. destruct (handle_preserves (closed_in id) _ _ project owner detected tool input w) as [_ H]; [by split|done].
Qed.

(** A note on a known task replaces that one task, or changes no task file when it fails. *)
Lemma note_resolved_inv slug text_ w r w' :
  world_ok w → note_task (Resolved slug) text_ w = (r, w') →
  match r with
  | Err _ => task_files w' = task_files w
  | Ok t' => ∃ t n1 n2, stored w slug t ∧ t' = set_updated_at n2 (push_note n1 text_ t) ∧
      ∀ s, lookup_task w' s = if decide (s = slug) then Some t' else lookup_task w s
  end.
Proof.
  intros Hok. unfold note_task. intros (w1 & H & Ht)%(touch_tail _ (λ t, t)).
  enough (match r with
    | Err _ => task_files w1 = task_files w
    | Ok t' => ∃ t n1 n2, stored w slug t ∧ t' = set_updated_at n2 (push_note n1 text_ t) ∧
        ∀ s, lookup_task w1 s = if decide (s = slug) then Some t' else lookup_task w s end) as E.
  { destruct r as [t'|e]; [|congruence]. destruct E as (t & n1 & n2 & H1 & H2 & H3). exists t, n1, n2.
    split_and!; [done..|]. intros s. by rewrite (task_files_lookup _ _ s Ht). }
  clear Ht. apply lock_quiet in H as [(e0 & -> & Hq)|(w2 & Hq & H)]; [by apply q_same|].
  assert (Hread : ∀ A B (m : M A) (k : A → M B) w0 r0, quiet w w0 → Keeps stores m → (m ≫= k) w0 = (r0, w1) →
    (∃ e, r0 = Err e ∧ task_files w1 = task_files w) ∨ ∃ a w3, m w0 = (Ok a, w3) ∧ quiet w w3 ∧ k a w3 = (r0, w1)).
  { intros A B m k w0 r0 Hq0 Hk E. apply (bind_quiet _ _ _ _ _ _ Hq0) in E as [(e & -> & Hq')|?]; [|by right|done].
    left. exists e. split; [done|]. by apply q_same. }
  apply Hread in H as [(e & -> & ?)|(s & w3 & Hs & Hq3 & H)]; [done| |done|apply _].
  assert (s = slug) as ->.
  { unfold target_slug in Hs. apply st_bind_ok in Hs as (u & w4 & _ & [= <- _]). done. }
  apply Hread in H as [(e & -> & ?)|(t & w4 & Hl & Hq4 & H)]; [done| |done|apply _].
  apply (quiet_stored w) in Hl as Hst; [|done..].
  apply Hread in H as [(e & -> & ?)|(n1 & w5 & _ & Hq5 & H)]; [done| |done|apply _].
  apply Hread in H as [(e & -> & ?)|(n2 & w6 & _ & Hq6 & H)]; [done| |done|apply _].
  apply save_tail in H as [(e & -> & Hf)|[-> [_ Hw]]].
  - destruct Hf as [Hf _]. destruct (q_same _ _ Hq6) as [Hf' _]. congruence.
  - exists t, n1, n2. split_and!; [done..|]. intros x. rewrite Hw. simpl. rewrite (stored_slug _ _ _ Hok Hst).
    case_decide; [done|]. by apply quiet_task.
Qed.
Lemma try_bind_inv {E E' A B} (m : ST world E A) (k : result E A → ST world E' B) w r w' :
  (st_try m ≫= k) w = (r, w') → ∃ ra w1, m w = (ra, w1) ∧ k ra w1 = (r, w').
Proof. unfold mbind, st_bind, st_try. destruct (m w) as [ra w1]. by exists ra, w1. Qed.
Lemma auto_start_task_files req w r w' : start_session_as req Auto w = (r, w') → task_files w' = task_files w.
Proof.
  unfold start_session_as. intros H. apply lock_quiet in H as [(e0 & _ & Hq)|(w2 & Hq & H)]; [by apply q_same|].
  destruct (q_same _ _ Hq) as [<- _].
  assert (Hk : ∀ m : M StartOutcome, Keeps task_files m → m w2 = (r, w') → task_files w' = task_files w2).
  { intros m Hk E. by apply (keeps_run task_files m) in E. }
  eapply Hk; [|exact H]. apply keeps_bind; [apply _|]. intros ss.
  case_decide; [solve_frame|]. apply keeps_bind; [destruct (ei_pid (sr_owner req)); apply _|]. solve_frame.
Qed.
(** The session of a new task: no task file changed, and it is refused with a reply of its own. *)
Lemma ensure_session_inv project owner detected w r w' :
  world_ok w → ensure_session project owner detected w = (r, w') →
  world_ok w' ∧ task_files w' = task_files w ∧ ∀ slug sid lost, r ≠ Err (Tracked slug sid lost).
Proof.
  intros Hok H. split.
  { assert (Hp : Preserves world_ok (ensure_session project owner detected)).
    { unfold ensure_session. repeat first [progress solve_frame | apply preserves_try | apply preserves_map_err]. }
    by eapply (preserves_run world_ok). }
  unfold ensure_session in H.
  apply st_bind_inv in H as [(open & w1 & Ho & H)|(e & Ho & ->)]; unfold st_map_err in Ho;
    destruct (open_sessions_strict project w) as [[l|e'] w2] eqn:Eo; try done;
    apply (keeps_run task_files) in Eo; try apply _; injection Ho as <- <-; [|by split].
  rewrite <- Eo. clear Eo.
  apply st_bind_inv in H as [(resume & w1 & Hr & H)|(e & Hr & ->)]; unfold st_lift in Hr.
  2: { destruct detected; cbn in Hr; simplify_eq; by split. }
  injection Hr as Hd <-. case_decide as He.
  - apply st_bind_inv in H as [(p & w1 & Hp & H)|(e & Hp & ->)]; unfold st_lift in Hp; injection Hp as Hp <-.
    2: { destruct (pick_open_session l owner); cbn in Hp; simplify_eq; by split. }
    apply st_bind_inv in H as [(u & w1 & Hu & [= <- <-])|(e & Hu & ->)]; unfold st_lift in Hu; injection Hu as Hu <-;
      [by split|]. destruct (check_takes_tasks p owner); cbn in Hu; simplify_eq; by split.
  - apply st_bind_inv in H as [(o & w1 & Hs & [= <- <-])|(e & Hs & ->)]; unfold st_map_err in Hs;
      destruct (start_session_as _ _ w2) as [[o'|e'] w3] eqn:Es; simplify_eq/=;
      apply auto_start_task_files in Es; by split.
Qed.

(** A TaskCreate that is reported as tracked is in the tracker. The task is stored under a new
    name, open, in the session that is named, with the subject of the call as its title and its
    description as its only note unless the reply says that the note was lost; no other task
    changed. *)
Theorem redirect_create_tracked project owner detected (input : option json) (slug sid : string)
    (lost : option error) w w' :
  world_ok w → create project owner detected input w = (Ok (Tracked slug sid lost), w') →
  ∃ t, lookup_task w' slug = Some t ∧ t_slug t = slug ∧ t_session t = Some sid ∧ t_state t = Open ∧
    nonblank (str_field input "subject") = Some (t_title t) ∧
    n_text <$> t_notes t = match nonblank (str_field input "description"), lost with Some d, None => [d] | _, _ => [] end ∧
    lookup_task w slug = None ∧ ∀ s, s ≠ slug → lookup_task w' s = lookup_task w s.
Proof.
  intros Hok H. unfold create in H. destruct (nonblank (str_field input "subject")) as [subject|]; [|done].
  apply try_bind_inv in H as (r1 & w1 & Hl & [= H <-]). destruct r1 as [r1|]; [|done]. subst r1.
  apply lock_quiet in Hl as [(e0 & [=] & _)|(w2 & Hq & Hl)]. pose proof (q_ok _ _ Hq Hok) as Hok2.
  unfold create_under_lock, settled, caught in Hl. apply try_bind_inv in Hl as (r3 & w3 & Hl & [= Hr <-]).
  assert (r3 = Ok (Tracked slug sid lost) ∨ r3 = Err (Tracked slug sid lost)) as Hr3 by (destruct r3; naive_solver). clear Hr.
  apply st_bind_inv in Hl as [(s & w4 & Hs & Hl)|(e & Hs & ->)].
  2: { apply ensure_session_inv in Hs as (_ & _ & Hn); [|done]. destruct Hr3 as [|[= ->]]; [done|]. by destruct (Hn slug sid lost). }
  apply ensure_session_inv in Hs as (Hok4 & Hf4 & _); [|done].
  apply st_bind_inv in Hl as [(t & w5 & Ha & Hl)|(e & Ha & ->)]; unfold st_map_err in Ha;
    destruct (add_task_with _ _ _ _ w4) as [[t'|e'] w6] eqn:Ea; try done.
  2: { injection Ha as <- <-. naive_solver. }
  injection Ha as -> ->. pose proof Ea as Ea0; apply add_task_inv in Ea0 as [[[e [=]] _]|(t0 & sid' & [= <-] & Hadd)]; [|done].
  destruct Hadd as (_ & Hnew & Hst & Htitle & Hsess & Hnotes & Hv & _ & Hlook).
  assert (Hok5 : world_ok w5).
  { pose proof (add_task_with_P world_ok (mkNewTask subject None PQueue None) Detached (Checked s) project w4 Hok4) as Hp.
    by rewrite Ea in Hp. }
  assert (Hold : ∀ x, lookup_task w4 x = lookup_task w x).
  { intros x. rewrite (task_files_lookup _ _ x Hf4). by apply quiet_task. }
  assert (Hnone : lookup_task w (t_slug t) = None).
  { rewrite <- Hold. unfold lookup_task, task_files. unfold file_exists in Hnew.
    destruct (d_files (w_tasks w4) !! json_name (t_slug t)) as [n|]; [by destruct n|done]. }
  assert (Hstored : stored w5 (t_slug t) t) by (split; [done|]; by rewrite Hlook, decide_True).
  destruct (nonblank (str_field input "description")) as [desc|].
  - apply try_bind_inv in Hl as (rn & w6 & Hn & [= <- <-]). destruct Hr3 as [[= <- <- <-]|[=]].
    apply note_resolved_inv in Hn; [|done]. destruct rn as [t'|e].
    + destruct Hn as (t1 & n1 & n2 & Hst1 & -> & Hl6). pose proof (stored_fun _ _ _ _ Hst1 Hstored) as ->.
      eexists. rewrite Hl6, decide_True by done. split; [done|]. simpl. rewrite Hnotes, Hsess. split_and!; try done.
      * by rewrite Htitle.
      * intros x Hx. by rewrite Hl6, decide_False, Hlook, decide_False, Hold.
    + exists t. rewrite (task_files_lookup _ _ _ Hn), Hlook, decide_True by done. rewrite Hnotes, Hsess, Htitle.
      split_and!; try done. intros x Hx. by rewrite (task_files_lookup _ _ _ Hn), Hlook, decide_False, Hold.
  - injection Hl as <- <-. destruct Hr3 as [[= <- <- <-]|[=]]. exists t. rewrite Hlook, decide_True by done.
    rewrite Hnotes, Hsess, Htitle. split_and!; try done. intros x Hx. by rewrite Hlook, decide_False, Hold.
Qed.

(** The caller may change the task: it has no session, or it is in an open session of the project that
    has no owner or is owned by the conversation of the caller. *)
Definition callers_task project (owner : EngineIdentity) w (t : Task) : Prop :=
  match t_session t with
  | None => True
  | Some id => ∃ s, lookup_session w id = Some s ∧ is_open s ∧ s_project s = project ∧
      (s_owner_session s = None ∨ ei_session_id owner ≠ None ∧ s_owner_session s = ei_session_id owner)
  end.
Lemma checked_slug_inv project owner id w slug note caller w' :
  world_ok w → checked_slug project owner id w = (Ok (slug, note, caller), w') →
  same_files w w' ∧ ∃ t, stored w slug t ∧ callers_task project owner w t.
Proof.
  intros Hok. unfold checked_slug, ensure_task_is_ours.
  intros (c & w1 & Hc & H)%st_bind_ok. apply keeps_quiet in Hc as Hq; [|apply _].
  apply st_bind_ok in H as ([s n] & w2 & H & [= <- <- <- <-]).
  apply st_bind_ok in H as (checked & w3 & Hens & H). pose proof Hens as Hens'.
  apply ensure_tasks_inv in Hens' as (Hf & Hlen & Hall); [|by apply (q_ok _ _ Hq)].
  unfold lift, st_lift in H. injection H as Hh <-. destruct checked as [|[s' n'] rest]; [done|]. simpl in Hh. injection Hh as -> ->.
  split; [etrans; [by apply (q_same _ _ Hq)|done]|].
  destruct (Hall s n) as (t & Hst & Ht); [by left|]. exists t.
  split; [by apply (stored_same _ _ _ _ (q_same _ _ Hq))|].
  unfold callers_task. destruct (t_session t) as [sid|]; [|done].
  destruct Ht as [[-> _]|(_ & [=] & _)].
  apply caller_session_inv in Hc as (-> & x & Hx & _ & Ho & Hp & Hown); [|done]. by exists x.
Qed.

(** A TaskUpdate acts only on a task that the caller may change. When a change is reported, the
    call named a stored task with no session, or in an open session of the project that is not
    owned by another conversation; when the name is refused, no task file and no session file
    changed and no note was saved. *)
Theorem redirect_update_owned project owner (id : string) (status note : option string) (deleted : bool)
    (changed : result error change_result) (noted : note_result) w w' :
  world_ok w → apply_change project owner id status note deleted w = (Ok (changed, noted), w') →
  (noted = NoNote ∧ same_files w w' ∧ ∃ e, changed = Err e) ∨
  ∃ slug t, stored w slug t ∧ callers_task project owner w t ∧
    (∀ c, changed = Ok c → ∃ w1 w2, same_files w w1 ∧ change slug status w1 = (Ok c, w2)).
Proof.
  intros Hok H. unfold apply_change in H. apply try_bind_inv in H as (rc & w1 & Hc & H).
  destruct rc as [[[slug ownership] caller]|e].
  - right. apply checked_slug_inv in Hc as (Hf & t & Hst & Ht); [|done]. exists slug, t. split_and!; [done..|].
    intros c Hch. apply try_bind_inv in H as (rx & w2 & Hx & H).
    apply st_bind_ok in H as (n & w3 & _ & [= Hrx _ _]). rewrite Hch in Hrx. subst rx.
    apply st_bind_ok in Hx as (u & w4 & Hpre & Hx). apply st_bind_ok in Hx as (msg & w5 & Hm & Hx).
    apply st_bind_ok in Hx as (u' & w6 & _ & [= -> _]). exists w4, w5. split; [|done].
    etrans; [exact Hf|]. apply (f_equal snd) in Hpre. destruct (deleted && _); by cbn in Hpre; subst.
  - left. injection H as <- <- <-. split_and!; [done| |by exists e].
    assert (Hk : Keeps stores (checked_slug project owner id)) by (unfold checked_slug, ensure_task_is_ours; solve_frame).
    by eapply (keeps_stores_same_files (checked_slug project owner id)).
Qed.
End laws.
