(* ===== verification/ConfigSchema.v ===== *)
(** * The configuration (crates/llmenv-config/src/schema.rs, schema/hooks.rs, schema/throttle.rs)

    The records of [config.yaml] that the other models do not declare, with their defaults where
    serde takes them from a function. A value that llmenv never interprets is a [yaml_value], the
    type of serde_yaml; a map is a [gmap] by key. *)

From S2P Require Import Prelude RustStr Json LaunchProxy Permissions RepeatDetect ReadOnce.
From S2P Require Import TaskNudge Scope Bundles.

(** serde_yaml's [Value], which the code here only carries. *)
Class Yaml := yaml_value : Type.

(** ** Servers, skills, models *)

Inductive McpTransport := Stdio | Http | Sse.
Record McpServer := mkMcpServer {
  ms_name : string; ms_when : list string; ms_transport : McpTransport; ms_command : option string;
  ms_args : list string; ms_env : gmap string string; ms_url : option string; ms_headers : gmap string string;
  ms_disabled : bool; ms_disabled_tools : list string; ms_timeout : option N; ms_always_load : option bool }.
Record LspServer `{Yaml} := mkLspServer {
  ls_name : string; ls_when : list string; ls_command : string; ls_args : list string;
  ls_env : gmap string string; ls_disabled : bool; ls_filetypes : list string; ls_root_markers : list string;
  ls_init_options : option yaml_value; ls_timeout : option N; ls_extension_to_language : gmap string string }.
Record SkillSource := mkSkill { sk_name : string; sk_path : string; sk_when : list string }.
Record OutputStyle := mkStyle {
  os_name : string; os_description : string; os_content : string; os_when : list string;
  os_keep_coding_instructions : bool; os_force_for_plugin : bool }.

Record ModelCost := mkCost {
  co_input : number; co_output : number; co_cache_read : option number; co_cache_write : option number }.
Record ModelSource := mkModelSource {
  mo_id : string; mo_name : option string; mo_reasoning : bool; mo_context_window : option N;
  mo_max_tokens : option N; mo_cost : option ModelCost; mo_modalities : list string }.
Record ModelProvider := mkProvider {
  mp_id : string; mp_name : option string; mp_when : list string; mp_base_url : option string;
  mp_api_type : option string; mp_api_key : option string; mp_headers : gmap string string;
  mp_disabled : bool; mp_models : list ModelSource }.
Record ModelRef := mkModelRef { mr_provider : string; mr_model : string }.
Record ModelEffort := mkModelEffort { me_effort_level : option string; me_max_effort_level : option string }.
Record HostEntry := mkHostEntry { he_addr : string }.

(** ** Hooks *)

Inductive HookHandlerKind := HookCommand | McpTool.
Inductive HookOnFailure := Block.
Record HookHandler := mkHandler {
  hh_kind : HookHandlerKind; hh_command : option string; hh_tool : option string; hh_on_failure : option HookOnFailure }.
Record Hook := mkHook {
  ho_event : string; ho_matcher : option string; ho_handler : HookHandler; ho_bundle_origin : option string }.
Global Instance HookHandlerKind_eq_dec : EqDecision HookHandlerKind.
Proof. solve_decision. Defined.
Global Instance HookOnFailure_eq_dec : EqDecision HookOnFailure.
Proof. solve_decision. Defined.
Global Instance HookHandler_eq_dec : EqDecision HookHandler.
Proof. solve_decision. Defined.
Global Instance Hook_eq_dec : EqDecision Hook.
Proof. solve_decision. Defined.

(** ** Features *)

Inductive McpPermissionAction := PAllow | PAsk | PDeny.
Record McpPermissions := mkMcpPermissions {
  mpe_read_only : option McpPermissionAction; mpe_mutation : option McpPermissionAction;
  mpe_destructive : option McpPermissionAction }.
Record ContextMode := mkContextMode { cm_enabled : bool; cm_mcp_permissions : option McpPermissions }.
Inductive UpgradeTrack := Release | Beta.
Record UpgradeConfig := mkUpgrade { up_track : UpgradeTrack }.
Definition UpgradeTrack_as_str (t : UpgradeTrack) : string := match t with Release => "release" | Beta => "beta" end.

Inductive MemoryType := Episodic | Semantic | Procedural.
Inductive ImportanceLevel := LowImportance | Medium | HighImportance | Critical.
Global Instance MemoryType_eq_dec : EqDecision MemoryType.
Proof. solve_decision. Defined.
Definition memory_type_marker (t : MemoryType) : string :=
  match t with Episodic => "episodic" | Semantic => "semantic" | Procedural => "procedural" end.
Definition importance_marker (l : ImportanceLevel) : string :=
  match l with LowImportance => "low" | Medium => "medium" | HighImportance => "high" | Critical => "critical" end.
Inductive ConsolidationBackend := ClaudeCli | AnthropicApi.
Record ConsolidationConfig := mkConsolidation {
  cc_enabled : bool; cc_backend : ConsolidationBackend; cc_max_rules_per_session : N }.
Record RetentionConfig := mkRetention {
  re_episodic : option string; re_semantic : option string; re_procedural : option string }.
Definition default_retention : RetentionConfig := mkRetention (Some "30d") None (Some "365d").
Record Memory := mkMemory {
  me_server_host : string; me_port : N; me_listen_host : string; me_when : list string;
  me_default_topics : list string; me_default_type : option MemoryType;
  me_default_importance : option ImportanceLevel; me_type_importance : list (MemoryType * ImportanceLevel);
  me_consolidation : option ConsolidationConfig; me_retention : option RetentionConfig; me_auto_prune : bool;
  me_mcp_permissions : option McpPermissions; me_wakeup_max_tokens : option N; me_adaptive_recall : bool;
  me_global_topics : list string; me_always_load : option bool }.
Definition default_memory : Memory :=
  mkMemory "" 0 "127.0.0.1" [] [] None None [] None None false None None true ["preferences"; "errors-resolved"] None.
Definition WAKEUP_MAX_TOKENS_MIN : N := 20.
Definition WAKEUP_MAX_TOKENS_MAX : N := 4000.

Record CodebaseMemory := mkCodebaseMemory {
  cb_when : list string; cb_index_path : option string; cb_mcp_permissions : option McpPermissions;
  cb_mem_budget_mb : option N; cb_allowed_roots : list string }.
Record Throttle := mkThrottle {
  th_backend : string; th_when : list string; th_cache_ttl : N; th_max_wait : N; th_soft_threshold : N }.
Definition default_throttle (backend : string) (when : list string) : Throttle := mkThrottle backend when 30 300 20.
Record CdGuardConfig := mkCdGuard { cg_enabled : bool }.
Record LaunchProxyConfig := mkLaunchProxy { lp_enabled : bool; lp_rules : list ProxyRule }.
Inductive SandboxRuntime := AutoRuntime | Docker | Podman.
Record Sandbox := mkSandbox {
  sb_enabled : bool; sb_runtime : SandboxRuntime; sb_image : option string; sb_forward_ssh_agent : bool }.
Definition default_sandbox : Sandbox := mkSandbox false AutoRuntime None true.
Record SlippageControl := mkSlippage {
  sl_enabled : bool; sl_effort_level : option string; sl_rule_reinjection : bool; sl_read_before_edit : bool;
  sl_self_critique : bool; sl_metrics : bool; sl_compact_survival : bool; sl_diagnose_command : bool;
  sl_explain_before_act : bool; sl_answer_before_act : bool }.
Definition default_slippage : SlippageControl := mkSlippage false None true true true true true true false false.

Record Features := mkFeatures {
  fe_memory : list Memory; fe_throttle : list Throttle; fe_context_mode : option ContextMode;
  fe_upgrade : option UpgradeConfig; fe_read_once : option ReadOnceConfig;
  fe_repeat_detect : option RepeatDetectConfig; fe_slippage : option SlippageControl;
  fe_task_tracker : option TaskTracker; fe_codebase_memory : list CodebaseMemory;
  fe_cd_guard : option CdGuardConfig; fe_launch_proxy : option LaunchProxyConfig; fe_sandbox : option Sandbox }.
Definition default_features : Features := mkFeatures [] [] None None None None None None [] None None None.
Definition features_is_empty (f : Features) : bool :=
  bool_decide (fe_memory f = []) && bool_decide (fe_throttle f = []) && bool_decide (fe_codebase_memory f = []) &&
  bool_decide (fe_read_once f = None) && bool_decide (fe_repeat_detect f = None) && bool_decide (fe_slippage f = None) &&
  bool_decide (fe_context_mode f = None) && bool_decide (fe_upgrade f = None) && bool_decide (fe_task_tracker f = None) &&
  bool_decide (fe_cd_guard f = None) && bool_decide (fe_launch_proxy f = None) && bool_decide (fe_sandbox f = None).

(** ** Capabilities *)

Record Capabilities `{Yaml} := mkCapabilities {
  ca_permissions : Permissions; ca_hooks : list Hook; ca_plugins : list string; ca_mcp : list McpServer;
  ca_lsp : list LspServer; ca_skills : list SkillSource; ca_output_styles : list OutputStyle;
  ca_env : gmap string string; ca_auto_memory_enabled : option bool; ca_effort_level : option string;
  ca_model_effort : gmap string ModelEffort; ca_advisor_model : option string; ca_advisor_size : option string;
  ca_native_permissions : gmap string NativePermissionRules; ca_native_hooks : gmap string yaml_value;
  ca_native_plugins : gmap string yaml_value; ca_native_mcp : gmap string yaml_value;
  ca_native_model_providers : gmap string yaml_value; ca_native_default_models : gmap string yaml_value;
  ca_native : gmap string yaml_value; ca_features : option Features; ca_host : gmap string HostEntry;
  ca_model_providers : list ModelProvider; ca_default_models : gmap string ModelRef }.
Definition default_permissions : Permissions := mkPermissions None None [] [] [].
Definition default_capabilities `{Yaml} : Capabilities :=
  mkCapabilities _ default_permissions [] [] [] [] [] [] ∅ None None ∅ None None ∅ ∅ ∅ ∅ ∅ ∅ ∅ None ∅ [] ∅.

(** ** The rest of the file *)

Inductive HashingMode := Loose | Normal | Strict.
Record Cache := mkCacheConfig {
  ch_cache_dir : string; ch_sync_interval_minutes : N; ch_cache_retention_hours : option N;
  ch_hashing : HashingMode; ch_remote_sync : bool }.
Definition default_cache : Cache := mkCacheConfig "~/.cache/llmenv" 15 (Some 168%N) Normal true.
(** [gc_retention], in seconds. *)
Definition gc_retention (c : Cache) : option N :=
  (λ hours, N.min (hours * 3600) u64_max) <$> ch_cache_retention_hours c.

Record StateTool := mkStateTool { sto_env : string; sto_subdir : string }.
Record Marketplace := mkMarketplace { mk_name : string; mk_source : string }.
Record PluginCollection := mkCollection { pl_name : string; pl_when : list string; pl_plugins : list string }.

Inductive LogLevel := Info | DebugLevel | Trace.
Definition level_rank (l : LogLevel) : nat := match l with Info => 0 | DebugLevel => 1 | Trace => 2 end.
Record FileSinkConfig := mkFileSink { fs_enabled : bool; fs_level : LogLevel; fs_path : option string }.
Record TranscriptSinkConfig := mkTranscript {
  tr_enabled : bool; tr_level : LogLevel; tr_retention_days : option N }.
Definition default_transcript : TranscriptSinkConfig := mkTranscript true Info None.
Record SessionLog := mkSessionLog {
  sl_file : option FileSinkConfig; sl_transcript : option TranscriptSinkConfig; sl_max_content_bytes : option N }.
Definition default_session_log : SessionLog := mkSessionLog None (Some default_transcript) None.
Definition file_wants (s : SessionLog) (level : LogLevel) : bool :=
  match sl_file s with Some f => fs_enabled f && (level_rank level <=? level_rank (fs_level f)) | None => false end.
Definition transcript_wants (s : SessionLog) (level : LogLevel) : bool :=
  match sl_transcript s with Some t => tr_enabled t && (level_rank level <=? level_rank (tr_level t)) | None => false end.
Definition any_sink_wants (s : SessionLog) (level : LogLevel) : bool := file_wants s level || transcript_wants s level.
Definition any_sink_enabled (s : SessionLog) : bool :=
  match sl_file s with Some f => fs_enabled f | None => false end ||
  match sl_transcript s with Some t => tr_enabled t | None => false end.

Inductive IconSet := AutoIcons | Nerd | Simple | NoIcons.
Record StatuslineStyle := mkSlStyle { ss_icon_set : IconSet; ss_color : bool }.
Record WidgetConfig := mkWidget {
  wi_format : option string; wi_max_len : option N; wi_style : option string; wi_display : option string;
  wi_width : option N; wi_thresholds : option (N * N) }.
Record StatuslineConfig := mkStatusline {
  sc_rows : list string; sc_style : StatuslineStyle; sc_widgets : gmap string WidgetConfig; sc_icons : gmap string string }.

Record Config `{Yaml} := mkConfiguration {
  cf_disabled_engines : list string; cf_cache : Cache; cf_scope : Scope.Config; cf_capabilities : Capabilities;
  cf_native : gmap string yaml_value; cf_bundle : list Bundle; cf_mcp : list McpServer; cf_lsp : list LspServer;
  cf_skills : list SkillSource; cf_output_styles : list OutputStyle; cf_features : option Features;
  cf_marketplace : list Marketplace; cf_plugin_collection : list PluginCollection; cf_state : list StateTool;
  cf_host : gmap string HostEntry; cf_seeded_settings : gmap string json; cf_session_log : option SessionLog;
  cf_statusline : option StatuslineConfig }.
Definition default_config `{Yaml} : Config :=
  mkConfiguration _ [] default_cache (Scope.mkConfig [] [] [] []) default_capabilities ∅ [] [] [] [] [] None [] [] [] ∅ ∅ None None.

(** ** Names of plugins and marketplaces *)

Inductive MarketplaceSource := FromGit | FromPath.
Definition GIT_SCHEMES : list string := ["https://"; "http://"; "ssh://"; "git://"; "git+ssh://"].
Definition classify_source (source : string) : MarketplaceSource :=
  if existsb (λ s, starts_with s source) GIT_SCHEMES then FromGit
  else if existsb (λ s, starts_with s source) ["/"; "~"; "./"; "../"] then FromPath
  else
    match split_once ":" source with
    | Some (before, after) =>
      if decide (before ≠ "" ∧ after ≠ "" ∧ str_contains_char "/" before = false) then FromGit else FromPath
    | None => FromPath
    end.

Definition split_plugin_ref (s : string) : option (string * string) :=
  match split_once ":" s with
  | Some (marketplace, plugin) =>
    if decide (marketplace = "" ∨ plugin = "" ∨ str_contains_char ":" plugin = true) then None
    else Some (marketplace, plugin)
  | None => None
  end.

Definition RESERVED_OFFICIAL_MARKETPLACES : list string :=
  ["claude-plugins-official"; "claude-code-plugins"; "claude-code-marketplace"; "anthropic-marketplace";
   "anthropic-plugins"].
Definition OFFICIAL_MARKETPLACE_OWNER : string := "anthropics".
Definition is_reserved_official_marketplace (name : string) : bool :=
  bool_decide (name ∈ RESERVED_OFFICIAL_MARKETPLACES).

Definition GITHUB_PREFIXES : list string :=
  ["https://github.com/"; "http://github.com/"; "ssh://git@github.com/"; "git://github.com/"; "git@github.com:"].
Fixpoint strip_first (prefixes : list string) (s : string) : option string :=
  match prefixes with
  | [] => None
  | p :: prefixes => match strip_prefix p s with Some rest => Some rest | None => strip_first prefixes s end
  end.
(** The first two parts of [splitn(3, '/')] are the first two parts of the text. *)
Definition github_owner_repo (source : string) : option (string * string) :=
  rest ← strip_first GITHUB_PREFIXES source;
  match split_on (Ascii.eqb "/") (trim_end_slashes rest) with
  | owner :: repo :: _ =>
    if decide (owner = "" ∨ repo = "") then None
    else
      let repo := default repo (strip_suffix ".git" repo) in
      if decide (repo = "") then None else Some (owner, repo)
  | _ => None
  end.

(** ** Equality of the records of the configuration (crates/llmenv-config/src/schema.rs)

    The source derives [PartialEq] for each of them, and the merge of capabilities compares them. *)
Global Instance McpTransport_eq_dec : EqDecision McpTransport.
Proof. solve_decision. Defined.
Global Instance McpServer_eq_dec : EqDecision McpServer.
Proof. solve_decision. Defined.
Global Instance SkillSource_eq_dec : EqDecision SkillSource.
Proof. solve_decision. Defined.
Global Instance OutputStyle_eq_dec : EqDecision OutputStyle.
Proof. solve_decision. Defined.
Global Instance ModelCost_eq_dec : EqDecision ModelCost.
Proof. solve_decision. Defined.
Global Instance ModelSource_eq_dec : EqDecision ModelSource.
Proof. solve_decision. Defined.
Global Instance ModelProvider_eq_dec : EqDecision ModelProvider.
Proof. solve_decision. Defined.
Global Instance ModelRef_eq_dec : EqDecision ModelRef.
Proof. solve_decision. Defined.
Global Instance ModelEffort_eq_dec : EqDecision ModelEffort.
Proof. solve_decision. Defined.
Global Instance HostEntry_eq_dec : EqDecision HostEntry.
Proof. solve_decision. Defined.
Global Instance PermissionRule_eq_dec : EqDecision PermissionRule.
Proof. solve_decision. Defined.
Global Instance PermissionMode_eq_dec : EqDecision PermissionMode.
Proof. solve_decision. Defined.
Global Instance PermissionPreset_eq_dec : EqDecision PermissionPreset.
Proof. solve_decision. Defined.
Global Instance McpPermissionAction_eq_dec : EqDecision McpPermissionAction.
Proof. solve_decision. Defined.
Global Instance McpPermissions_eq_dec : EqDecision McpPermissions.
Proof. solve_decision. Defined.
Global Instance ContextMode_eq_dec : EqDecision ContextMode.
Proof. solve_decision. Defined.
Global Instance UpgradeTrack_eq_dec : EqDecision UpgradeTrack.
Proof. solve_decision. Defined.
Global Instance UpgradeConfig_eq_dec : EqDecision UpgradeConfig.
Proof. solve_decision. Defined.
Global Instance ImportanceLevel_eq_dec : EqDecision ImportanceLevel.
Proof. solve_decision. Defined.
Global Instance ConsolidationBackend_eq_dec : EqDecision ConsolidationBackend.
Proof. solve_decision. Defined.
Global Instance ConsolidationConfig_eq_dec : EqDecision ConsolidationConfig.
Proof. solve_decision. Defined.
Global Instance RetentionConfig_eq_dec : EqDecision RetentionConfig.
Proof. solve_decision. Defined.
Global Instance Memory_eq_dec : EqDecision Memory.
Proof. solve_decision. Defined.
Global Instance CodebaseMemory_eq_dec : EqDecision CodebaseMemory.
Proof. solve_decision. Defined.
Global Instance Throttle_eq_dec : EqDecision Throttle.
Proof. solve_decision. Defined.
Global Instance CdGuardConfig_eq_dec : EqDecision CdGuardConfig.
Proof. solve_decision. Defined.
Global Instance SandboxRuntime_eq_dec : EqDecision SandboxRuntime.
Proof. solve_decision. Defined.
Global Instance Sandbox_eq_dec : EqDecision Sandbox.
Proof. solve_decision. Defined.
Global Instance SlippageControl_eq_dec : EqDecision SlippageControl.
Proof. solve_decision. Defined.
Global Instance ReadOnceMode_eq_dec : EqDecision ReadOnceMode.
Proof. solve_decision. Defined.
Global Instance ReadOnceConfig_eq_dec : EqDecision ReadOnceConfig.
Proof. solve_decision. Defined.
Global Instance RepeatDetectConfig_eq_dec : EqDecision RepeatDetectConfig.
Proof. solve_decision. Defined.
Global Instance TaskTracker_eq_dec : EqDecision TaskTracker.
Proof. solve_decision. Defined.
Global Instance ProxyTarget_eq_dec : EqDecision ProxyTarget.
Proof. solve_decision. Defined.
Global Instance ProxyConditionTarget_eq_dec : EqDecision ProxyConditionTarget.
Proof. solve_decision. Defined.
Global Instance ProxyOp_eq_dec : EqDecision ProxyOp.
Proof. solve_decision. Defined.
Global Instance ProxyCheck_eq_dec : EqDecision ProxyCheck.
Proof. solve_decision. Defined.
Global Instance ProxyCondition_eq_dec : EqDecision ProxyCondition.
Proof. solve_decision. Defined.
Global Instance ProxyRule_eq_dec : EqDecision ProxyRule.
Proof. solve_decision. Defined.
Global Instance LaunchProxyConfig_eq_dec : EqDecision LaunchProxyConfig.
Proof. solve_decision. Defined.
