(* ===== verification/ConfigValidate.v ===== *)
(** * Validation of the configuration (crates/llmenv-config/src/validate.rs, validate/, effort.rs,
    advisor.rs)

    [validate] runs the checks in the order of the source and ends at the first that fails. What
    regex and ipnet accept are parameters; the parser of IP literals is [NetAddr]. *)

From S2P Require Import Prelude RustStr Names Text NetAddr ProxyPath LaunchProxy Permissions.
From S2P Require Import TaskNudge Scope Bundles ConfigSchema.

Inductive ValidateError :=
| DuplicateScopeId (id : string) | BundleNoTags (name : string) | DuplicateBundleName (name : string)
| InvalidBundleName (name : string) | InvalidCIDR (cidr : string) | InvalidMACAddress (mac : string)
| InvalidHostname (hostname : string) | InvalidProxyPath (path : string) | InvalidProxyRegex (pattern : string)
| CacheDirTraversal (dir : string) | CacheRetentionInvalid | RetentionDaysInvalid
| DuplicateMcpName (name : string) | McpReservedName (name : string) | McpNoTags (name : string)
| McpStdioMissingCommand (name : string) | McpRemoteMissingUrl (name transport : string)
| InvalidHostAddr (host addr : string) | MemoryUnknownServerHost (host : string) | MemoryNoTags
| MemoryInvalidListenHost (host : string) | MemoryWakeupMaxTokensInvalid (n : N) | CodebaseMemoryNoTags
| CodebaseMemoryBudgetInvalid (n : N) | CodebaseMemoryRootInvalid (root : string)
| TaskTrackerNudgeCountInvalid (field : string) | TaskTrackerSkillEmpty
| ThrottleNoTags (backend : string) | ThrottleEmptyBackend
| DuplicateMarketplaceName (name : string) | InvalidMarketplaceName (name : string)
| MarketplaceEmptySource (name : string) | ReservedMarketplaceSource (name got owner : string)
| StateInvalidEnvName (env : string) | StateInvalidSubdir (subdir : string) | StateDuplicateEnv (env : string)
| DuplicatePluginCollectionName (name : string) | PluginCollectionNoTags (name : string)
| InvalidPluginRef (collection plugin : string) | UnknownPluginMarketplace (collection plugin marketplace : string)
| InvalidEffortLevel (context field value allowed hint : string) | ModelEffortEmpty (context model : string)
| ModelEffortKey (context model : string) | AdvisorModelInvalid (context value : string)
| AdvisorSizeRemoved (context : string)
| CapabilitiesReservedEnvKey (context key : string) | CapabilitiesLlmenvPrefixEnvKey (context key : string)
| CapabilitiesInvalidVarName (context key : string)
| McpInvalidEnvKey (mcp key : string) | McpReservedEnvKey (mcp key : string) | McpLlmenvPrefixEnvKey (mcp key : string)
| LspEmptyName (name : string) | LspEmptyCommand (name : string)
| SkillEmptyName (name : string) | SkillEmptyPath (name : string) | SkillPathTraversal (name path : string)
| OutputStyleInvalidName (name : string) | OutputStyleEmptyDescription (name : string)
| OutputStyleEmptyContent (name : string) | OutputStyleDuplicateName (name : string)
| PermissionRuleUnbalancedParens (context tool value : string)
| ModelProviderEmptyId | ModelProviderDuplicateId (id : string) | ModelSourceEmptyId (provider : string)
| ModelSourceDuplicateId (provider model : string) | DefaultModelEmptyRole | DefaultModelEmptyRef (role : string)
| HookCommandMissingCommand (event : string) | HookMcpToolMissingTool (event : string)
| SandboxImageBlank | SandboxImageLooksLikeFlag (image : string) | HookOnFailureNeedsCommand (event : string)
| WidgetDisplayInvalid (widget value allowed : string).
Notation verdict := (result ValidateError unit).

(** ** Loops of checks *)

Definition refuse_if (b : bool) (e : ValidateError) : verdict := if b then Err e else Ok tt.
Definition and_then (a b : verdict) : verdict := a ≫= λ _, b.
Fixpoint all_of (checks : list verdict) : verdict :=
  match checks with [] => Ok tt | c :: checks => and_then c (all_of checks) end.
Fixpoint for_each {A} (check : A → verdict) (l : list A) : verdict :=
  match l with [] => Ok tt | a :: l => and_then (check a) (for_each check l) end.
(** A loop that also refuses a key that was seen before: [pre] runs before the test of the key and
    [post] after it. *)
Fixpoint for_each_new {A} (key : A → string) (pre post : A → verdict) (dup : A → ValidateError)
    (seen : list string) (l : list A) : verdict :=
  match l with
  | [] => Ok tt
  | a :: l =>
    and_then (pre a) (and_then (refuse_if (bool_decide (key a ∈ seen)) (dup a))
      (and_then (post a) (for_each_new key pre post dup (key a :: seen) l)))
  end.
Definition pass {A} (_ : A) : verdict := Ok tt.
Definition on_some {A} (o : option A) (check : A → verdict) : verdict :=
  match o with Some a => check a | None => Ok tt end.

(** ** Shapes of names and texts *)

Definition STATE_DIR_ENV : string := "LLMENV_STATE_DIR".
Definition RESERVED_STATE_ENV_VARS : list string := [STATE_DIR_ENV; "CLAUDE_CONFIG_DIR"].
Definition MEMORY_MCP_NAME : string := "icm".

Definition is_safe_state_subdir (subdir : string) : bool :=
  if decide (subdir = "" ∨ subdir = "." ∨ subdir = "..") then false
  else
    negb (str_contains_char "/" subdir) && negb (str_contains_char "\" subdir) &&
    negb (str_contains_char ":" subdir) && negb (str_contains_char "000" subdir).

Definition is_ascii_letter (c : ascii) : bool := is_ascii_upper c || is_ascii_lower c.
Definition is_valid_var_name (name : string) : bool :=
  match name with
  | "" => false
  | String first _ =>
    if negb (is_ascii_letter first) && negb (Ascii.eqb first "_") then false
    else str_all (λ c, is_ascii_alphanumeric c || Ascii.eqb c "_") name
  end.

Definition is_safe_cache_dir (dir : string) : bool :=
  if decide (dir = "" ∨ 4096 < String.length dir) then false
  else negb (str_contains_char "000" dir) && negb (has_parent_component dir).

Definition allowed_root_shape_is_valid (root : string) : bool :=
  let root := trim root in
  let rest :=
    match strip_prefix "~" root with
    | Some after => if decide (after = "" ∨ starts_with "/" after = true) then Some after else None
    | None => Some root
    end in
  match rest with
  | None => false
  | Some rest =>
    if starts_with "/" root || starts_with "~" root || starts_with "$" root
    then bool_decide (is_Some (expand_env_refs rest (λ _, Some "x"))) else false
  end.

Definition is_valid_mac_octet (part : string) : bool :=
  let digits := match part with String "+" (String c s) => String c s | _ => part end in
  bool_decide (1 ≤ String.length part ≤ 2) && str_all is_ascii_hexdigit digits.
Definition is_valid_mac_address (mac : string) : bool :=
  let parts := split_on is_colon mac in
  bool_decide (length parts = 6) && forallb is_valid_mac_octet parts.

Definition is_valid_label (label : string) : bool :=
  negb (bool_decide (label = "")) && bool_decide (String.length label ≤ 63) && negb (starts_with "-" label) &&
  negb (ends_with "-" label) && str_all (λ c, is_ascii_alphanumeric c || Ascii.eqb c "-") label.
Definition is_valid_hostname (hostname : string) : bool :=
  if decide (hostname = "" ∨ 253 < String.length hostname) then false
  else forallb is_valid_label (split_on (Ascii.eqb ".") hostname).

(** [has_balanced_parens]: the depth and the pending escape over the text. *)
Fixpoint balanced_from (depth : nat) (escaped : bool) (s : string) : bool :=
  match s with
  | "" => bool_decide (depth = 0)
  | String c s =>
    if escaped then balanced_from depth false s
    else if Ascii.eqb c "\" then balanced_from depth true s
    else if Ascii.eqb c "(" then balanced_from (S depth) false s
    else if Ascii.eqb c ")" then match depth with 0 => false | S d => balanced_from d false s end
    else balanced_from depth false s
  end.
Definition has_balanced_parens (s : string) : bool := balanced_from 0 false s.

Definition EFFORT_LEVELS : list string := ["low"; "medium"; "high"; "xhigh"].
Definition MAX_EFFORT_LEVELS : list string := ["low"; "medium"; "high"; "xhigh"; "max"].
Definition ADVISOR_ALIASES : list string := ["fable"; "opus"; "sonnet"].
Definition is_canonical_model_id (model : string) : bool :=
  match strip_prefix "claude-" model with
  | Some rest =>
    forallb (λ word, negb (bool_decide (word = "")) && str_all (λ c, is_ascii_lower c || is_ascii_digit c) word)
      (split_on (Ascii.eqb "-") rest)
  | None => false
  end.

Definition WIDGET_DISPLAY_PRESETS : list (string * list string) :=
  [("usage_5h", ["clock_24h"; "clock_12h"]); ("usage_7d", ["clock_24h"; "clock_12h"]);
   ("model", ["short"; "version"; "full"]); ("pr", ["number"; "url"])].

(** ** Single checks *)

Definition validate_capabilities_env_key (context key : string) : verdict :=
  if decide (key ∈ RESERVED_STATE_ENV_VARS) then Err (CapabilitiesReservedEnvKey context key)
  else if starts_with "LLMENV_" key then Err (CapabilitiesLlmenvPrefixEnvKey context key)
  else if negb (is_valid_var_name key) then Err (CapabilitiesInvalidVarName context key)
  else Ok tt.

Definition MAX_PROXY_PATH_INDEX : N := 10000.
Definition path_index_ok (s : PathSegment) : bool :=
  match s with Index i => bool_decide (i ≤ MAX_PROXY_PATH_INDEX)%N | Key _ => true end.
Definition validate_proxy_path (path : string) : verdict :=
  match parse_path path with
  | Err _ => Err (InvalidProxyPath path)
  | Ok segments => for_each (λ s, refuse_if (negb (path_index_ok s)) (InvalidProxyPath path)) segments
  end.

Definition validate_permission_rule (context : string) (rule : PermissionRule) : verdict :=
  let unbalanced value := refuse_if (negb (has_balanced_parens value))
    (PermissionRuleUnbalancedParens context (pm_tool rule) value) in
  and_then (on_some (pm_pattern rule) unbalanced) (for_each unbalanced (pm_paths rule)).
Definition validate_permission_string (context raw : string) : verdict :=
  refuse_if (negb (has_balanced_parens raw)) (PermissionRuleUnbalancedParens context raw raw).

Definition check_widget_display (widget value : string) : verdict :=
  match find_first (λ p, p.1 = widget) WIDGET_DISPLAY_PRESETS with
  | None => Ok tt
  | Some (_, allowed) => refuse_if (negb (bool_decide (value ∈ allowed))) (WidgetDisplayInvalid widget value (join ", " allowed))
  end.

Definition check_level (context field value : string) (allowed : list string) : verdict :=
  let hint :=
    if decide (value = "max") then
      " max applies to one session only; set CLAUDE_CODE_EFFORT_LEVEL=max in native.claude_code.env instead."
    else if decide (value = "ultracode") then " set native.claude_code.ultracode: true instead."
    else "" in
  refuse_if (negb (bool_decide (value ∈ allowed))) (InvalidEffortLevel context field value (join ", " allowed) hint).
Definition check_model_id (context model : string) : verdict :=
  refuse_if (negb (is_canonical_model_id model)) (ModelEffortKey context model).

Definition is_missing (field : option string) : bool := bool_decide (default "" field = "").
Definition validate_hook (hook : Hook) : verdict :=
  let h := ho_handler hook in
  match hh_kind h with
  | HookCommand => refuse_if (is_missing (hh_command h)) (HookCommandMissingCommand (ho_event hook))
  | McpTool =>
    if is_missing (hh_tool h) then Err (HookMcpToolMissingTool (ho_event hook))
    else refuse_if (bool_decide (is_Some (hh_on_failure h))) (HookOnFailureNeedsCommand (ho_event hook))
  end.
Definition validate_hooks (hooks : list Hook) : verdict := for_each validate_hook hooks.

Definition transport_name (t : McpTransport) : string :=
  match t with Stdio => "stdio" | Http => "http" | Sse => "sse" end.
Definition validate_transport (m : McpServer) : verdict :=
  match ms_transport m with
  | Stdio => refuse_if (bool_decide (ms_command m = None)) (McpStdioMissingCommand (ms_name m))
  | t => refuse_if (bool_decide (ms_url m = None)) (McpRemoteMissingUrl (ms_name m) (transport_name t))
  end.
Definition validate_mcp_env_key (mcp key : string) : verdict :=
  if decide (key ∈ RESERVED_STATE_ENV_VARS) then Err (McpReservedEnvKey mcp key)
  else if starts_with "LLMENV_" key then Err (McpLlmenvPrefixEnvKey mcp key)
  else refuse_if (negb (is_valid_var_name key)) (McpInvalidEnvKey mcp key).
Definition validate_mcp_env (m : McpServer) : verdict :=
  for_each (λ kv, validate_mcp_env_key (ms_name m) kv.1) (btree_entries (ms_env m)).
Definition validate_mcp_servers (mcps : list McpServer) : verdict :=
  for_each_new ms_name
    (λ m, and_then (refuse_if (bool_decide (ms_when m = [])) (McpNoTags (ms_name m)))
            (refuse_if (bool_decide (ms_name m = MEMORY_MCP_NAME)) (McpReservedName (ms_name m))))
    (λ m, and_then (validate_transport m) (validate_mcp_env m))
    (λ m, DuplicateMcpName (ms_name m)) [] mcps.

Definition host_addr_ok (addr : string) : bool := bool_decide (is_Some (parse_ip addr)) || is_valid_hostname addr.
Definition validate_hosts (host : gmap string HostEntry) : verdict :=
  for_each (λ ne, refuse_if (negb (host_addr_ok (he_addr ne.2))) (InvalidHostAddr ne.1 (he_addr ne.2)))
    (btree_entries host).

Definition validate_memory (mem : Memory) (host : gmap string HostEntry) : verdict :=
  all_of [
    refuse_if (bool_decide (me_when mem = [])) MemoryNoTags;
    refuse_if (bool_decide (host !! me_server_host mem = None)) (MemoryUnknownServerHost (me_server_host mem));
    refuse_if (bool_decide (parse_ip (me_listen_host mem) = None)) (MemoryInvalidListenHost (me_listen_host mem));
    on_some (me_wakeup_max_tokens mem) (λ n,
      refuse_if (negb (bool_decide (WAKEUP_MAX_TOKENS_MIN ≤ n ∧ n ≤ WAKEUP_MAX_TOKENS_MAX)%N)) (MemoryWakeupMaxTokensInvalid n))].
Definition validate_throttle (th : Throttle) : verdict :=
  all_of [
    refuse_if (bool_decide (th_when th = [])) (ThrottleNoTags (th_backend th));
    refuse_if (bool_decide (th_backend th = "")) ThrottleEmptyBackend].
Definition validate_task_tracker (t : TaskTracker) : verdict :=
  and_then
    (for_each (λ nv : string * option N, refuse_if (bool_decide (nv.2 = Some 0%N)) (TaskTrackerNudgeCountInvalid nv.1))
      [("nudge_after", tt_nudge_after t); ("nudge_every", tt_nudge_every t); ("stop_nudge_every", tt_stop_nudge_every t)])
    (refuse_if (existsb (λ s, bool_decide (trim s = "")) (default [] (tt_workflow_skills t))) TaskTrackerSkillEmpty).
Definition MEM_BUDGET_MB_MAX : N := 1048576.
Definition validate_codebase_memory (cm : CodebaseMemory) : verdict :=
  all_of [
    refuse_if (bool_decide (cb_when cm = [])) CodebaseMemoryNoTags;
    on_some (cb_mem_budget_mb cm) (λ n,
      refuse_if (negb (bool_decide (1 ≤ n ∧ n ≤ MEM_BUDGET_MB_MAX)%N)) (CodebaseMemoryBudgetInvalid n));
    for_each (λ r, refuse_if (negb (allowed_root_shape_is_valid r)) (CodebaseMemoryRootInvalid r)) (cb_allowed_roots cm)].
Definition validate_features (f : Features) (host : gmap string HostEntry) : verdict :=
  all_of [
    for_each (λ m, validate_memory m host) (fe_memory f);
    for_each validate_throttle (fe_throttle f);
    on_some (fe_task_tracker f) validate_task_tracker;
    for_each validate_codebase_memory (fe_codebase_memory f)].

(** The text of a permission rule of [native_permissions]. *)
Definition native_context (engine : string) : string :=
  "config.yaml: capabilities.native_permissions['" +:+ engine +:+ "']".

Section validate.
Context {HY : Yaml} {HH : LaunchProxy.Http} (ipnet_ok : string → bool).
Implicit Types (c : ConfigSchema.Config) (caps : Capabilities).

(** ** Scopes *)

Definition has_leading_zero (octet : string) : bool := bool_decide (1 < String.length octet) && starts_with "0" octet.
Definition is_valid_cidr (cidr : string) : bool :=
  match split_once "/" cidr with
  | None => false
  | Some (addr, _) =>
    let ipv4_leading_zero :=
      negb (str_contains_char ":" addr) && existsb has_leading_zero (split_on (Ascii.eqb ".") addr) in
    negb ipv4_leading_zero && ipnet_ok cidr
  end.

Definition transcript_retention_days c : option N :=
  s ← cf_session_log c; t ← sl_transcript s; tr_retention_days t.
Definition validate_cache c : verdict :=
  all_of [
    refuse_if (negb (is_safe_cache_dir (ch_cache_dir (cf_cache c)))) (CacheDirTraversal (ch_cache_dir (cf_cache c)));
    refuse_if (bool_decide (ch_cache_retention_hours (cf_cache c) = Some 0%N)) CacheRetentionInvalid;
    refuse_if (bool_decide (transcript_retention_days c = Some 0%N)) RetentionDaysInvalid].

Definition scope_ids c : list string :=
  let s := cf_scope c in
  map ns_id (cfg_network s) ++ map hs_id (cfg_host s) ++ map us_id (cfg_user s) ++ map cs_id (cfg_content s).
Definition validate_scope_ids c : verdict := for_each_new id pass pass DuplicateScopeId [] (scope_ids c).
Definition validate_network_match (s : NetworkScope) : verdict :=
  and_then (on_some (ns_cidr s) (λ cidr, refuse_if (negb (is_valid_cidr cidr)) (InvalidCIDR cidr)))
    (on_some (ns_gateway_mac s) (λ mac, refuse_if (negb (is_valid_mac_address mac)) (InvalidMACAddress mac))).
Definition validate_host_match (s : HostScope) : verdict :=
  on_some (hs_hostname s) (λ h, refuse_if (negb (is_valid_hostname h)) (InvalidHostname h)).
Definition validate_scope_matches c : verdict :=
  and_then (for_each validate_network_match (cfg_network (cf_scope c)))
    (for_each validate_host_match (cfg_host (cf_scope c))).

(** ** Bundles, models, capabilities *)

Definition validate_bundles c : verdict :=
  for_each_new b_name
    (λ b, refuse_if (bool_decide (b_when b = [])) (BundleNoTags (b_name b)))
    (λ b, refuse_if (negb (is_valid_short_name (b_name b))) (InvalidBundleName (b_name b)))
    (λ b, DuplicateBundleName (b_name b)) [] (cf_bundle c).

Definition validate_model_effort (context : string) (entry : string * ModelEffort) : verdict :=
  let '(model, e) := entry in
  all_of [
    check_model_id context model;
    refuse_if (bool_decide (me_effort_level e = None ∧ me_max_effort_level e = None)) (ModelEffortEmpty context model);
    on_some (me_effort_level e) (λ level,
      check_level context ("model_effort." +:+ model +:+ ".effort_level") level EFFORT_LEVELS);
    on_some (me_max_effort_level e) (λ level,
      check_level context ("model_effort." +:+ model +:+ ".max_effort_level") level MAX_EFFORT_LEVELS)].
Definition slippage_effort caps : option string := f ← ca_features caps; s ← fe_slippage f; sl_effort_level s.
Definition validate_effort (context : string) caps : verdict :=
  all_of [
    on_some (ca_effort_level caps) (λ level, check_level context "capabilities.effort_level" level EFFORT_LEVELS);
    on_some (slippage_effort caps) (λ level, check_level context "features.slippage.effort_level" level EFFORT_LEVELS);
    for_each (validate_model_effort context) (btree_entries (ca_model_effort caps))].
Definition validate_advisor (context : string) caps : verdict :=
  and_then (refuse_if (bool_decide (is_Some (ca_advisor_size caps))) (AdvisorSizeRemoved context))
    (on_some (ca_advisor_model caps) (λ model,
      refuse_if (negb (bool_decide (model ∈ ADVISOR_ALIASES)) && negb (is_canonical_model_id model))
        (AdvisorModelInvalid context model))).
Definition validate_capability_env c : verdict :=
  let context := "config.yaml: capabilities" in
  let caps := cf_capabilities c in
  all_of [
    for_each (λ kv, validate_capabilities_env_key context kv.1) (btree_entries (ca_env caps));
    validate_effort context caps;
    validate_advisor context caps].

Definition validate_model_provider (p : ModelProvider) : verdict :=
  for_each_new mo_id (λ m, refuse_if (bool_decide (mo_id m = "")) (ModelSourceEmptyId (mp_id p))) pass
    (λ m, ModelSourceDuplicateId (mp_id p) (mo_id m)) [] (mp_models p).
Definition validate_model_providers c : verdict :=
  for_each_new mp_id (λ p, refuse_if (bool_decide (mp_id p = "")) ModelProviderEmptyId)
    validate_model_provider (λ p, ModelProviderDuplicateId (mp_id p)) [] (ca_model_providers (cf_capabilities c)).
Definition validate_default_model (entry : string * ModelRef) : verdict :=
  let '(role, r) := entry in
  and_then (refuse_if (bool_decide (role = "")) DefaultModelEmptyRole)
    (refuse_if (bool_decide (mr_provider r = "" ∨ mr_model r = "")) (DefaultModelEmptyRef role)).
Definition validate_default_models c : verdict :=
  for_each validate_default_model (btree_entries (ca_default_models (cf_capabilities c))).

Definition validate_permissions c : verdict :=
  let caps := cf_capabilities c in
  let p := ca_permissions caps in
  and_then
    (for_each (validate_permission_rule "config.yaml: capabilities.permissions") (p_allow p ++ p_ask p ++ p_deny p))
    (for_each (λ en : string * NativePermissionRules,
        for_each (validate_permission_string (native_context en.1)) (n_allow en.2 ++ n_ask en.2 ++ n_deny en.2))
      (btree_entries (ca_native_permissions caps))).

(** ** Features *)

Definition sandbox_image c : option string := f ← cf_features c; s ← fe_sandbox f; sb_image s.
Definition validate_sandbox c : verdict :=
  on_some (sandbox_image c) (λ image,
    and_then (refuse_if (bool_decide (trim image = "")) SandboxImageBlank)
      (refuse_if (starts_with "-" image) (SandboxImageLooksLikeFlag image))).

Definition validate_regex (pattern : string) : verdict :=
  refuse_if (bool_decide (regex_is_match pattern = None)) (InvalidProxyRegex pattern).
Definition validate_condition (cond : ProxyCondition) : verdict :=
  and_then (match pc_target cond with CBody (Some path) => validate_proxy_path path | _ => Ok tt end)
    (match pc_check cond with Matches pattern true => validate_regex pattern | _ => Ok tt end).
Definition validate_rule (rule : ProxyRule) : verdict :=
  all_of [
    match pr_target rule with TBody path => validate_proxy_path path | THeader _ => Ok tt end;
    match pr_op rule with OpStrip pattern true => validate_regex pattern | _ => Ok tt end;
    for_each validate_condition (pr_when rule)].
Definition proxy_rules c : list ProxyRule :=
  match f ← cf_features c; fe_launch_proxy f with Some p => lp_rules p | None => [] end.
Definition validate_launch_proxy c : verdict := for_each validate_rule (proxy_rules c).

Definition validate_mcps c : verdict :=
  all_of [
    validate_mcp_servers (cf_mcp c);
    validate_hosts (cf_host c);
    on_some (cf_features c) (λ f, validate_features f (cf_host c))].

Definition validate_widget_displays c : verdict :=
  on_some (cf_statusline c) (λ s,
    for_each (λ wc : string * WidgetConfig, on_some (wi_display wc.2) (check_widget_display wc.1))
      (btree_entries (sc_widgets s))).

(** ** Plugins, state, servers, skills, styles *)

Definition official_source_ok (m : Marketplace) : bool :=
  match github_owner_repo (mk_source m) with
  | Some (owner, _) => bool_decide (to_ascii_lowercase owner = to_ascii_lowercase OFFICIAL_MARKETPLACE_OWNER)
  | None => false
  end.
Definition validate_marketplace (m : Marketplace) : verdict :=
  all_of [
    refuse_if (negb (is_valid_short_name (mk_name m))) (InvalidMarketplaceName (mk_name m));
    refuse_if (bool_decide (mk_source m = "")) (MarketplaceEmptySource (mk_name m));
    refuse_if (is_reserved_official_marketplace (mk_name m) && negb (official_source_ok m))
      (ReservedMarketplaceSource (mk_name m) (mk_source m) OFFICIAL_MARKETPLACE_OWNER)].
Definition validate_plugin_ref (names : list string) (collection plugin : string) : verdict :=
  match split_plugin_ref plugin with
  | None => Err (InvalidPluginRef collection plugin)
  | Some (marketplace, _) =>
    refuse_if (negb (bool_decide (marketplace ∈ names))) (UnknownPluginMarketplace collection plugin marketplace)
  end.
Definition validate_plugins c : verdict :=
  and_then
    (for_each_new mk_name validate_marketplace pass (λ m, DuplicateMarketplaceName (mk_name m)) [] (cf_marketplace c))
    (for_each_new pl_name
      (λ p, refuse_if (bool_decide (pl_when p = [])) (PluginCollectionNoTags (pl_name p)))
      (λ p, for_each (validate_plugin_ref (map mk_name (cf_marketplace c)) (pl_name p)) (pl_plugins p))
      (λ p, DuplicatePluginCollectionName (pl_name p)) [] (cf_plugin_collection c)).

Definition validate_state c : verdict :=
  for_each_new sto_env
    (λ t, and_then (refuse_if (negb (is_valid_var_name (sto_env t))) (StateInvalidEnvName (sto_env t)))
            (refuse_if (negb (is_safe_state_subdir (sto_subdir t))) (StateInvalidSubdir (sto_subdir t))))
    pass (λ t, StateDuplicateEnv (sto_env t)) RESERVED_STATE_ENV_VARS (cf_state c).

Definition validate_lsp_server (l : LspServer) : verdict :=
  and_then (refuse_if (bool_decide (ls_name l = "")) (LspEmptyName (ls_name l)))
    (refuse_if (bool_decide (ls_command l = "")) (LspEmptyCommand (ls_name l))).
Definition validate_lsp c : verdict := for_each validate_lsp_server (cf_lsp c).

Definition bad_skill_name (name : string) : string :=
  name +:+ " (not a valid skill name: use only ASCII letters, digits, '.', '_', '-')".
Definition validate_skill (s : SkillSource) : verdict :=
  all_of [
    refuse_if (bool_decide (sk_name s = "")) (SkillEmptyName (sk_name s));
    refuse_if (bool_decide (sk_path s = "")) (SkillEmptyPath (sk_name s));
    refuse_if (is_unsafe_join_target (sk_path s)) (SkillPathTraversal (sk_name s) (sk_path s));
    refuse_if (negb (is_valid_short_name (sk_name s))) (SkillEmptyName (bad_skill_name (sk_name s)))].
Definition validate_skills c : verdict := for_each validate_skill (cf_skills c).

(** The names are ASCII when their case is folded. *)
Definition validate_output_style (o : OutputStyle) : verdict :=
  all_of [
    refuse_if (negb (is_valid_short_name (os_name o))) (OutputStyleInvalidName (os_name o));
    refuse_if (bool_decide (os_description o = "")) (OutputStyleEmptyDescription (os_name o));
    refuse_if (bool_decide (os_content o = "")) (OutputStyleEmptyContent (os_name o))].
Definition validate_output_styles c : verdict :=
  for_each_new (λ o, to_ascii_lowercase (os_name o)) validate_output_style pass
    (λ o, OutputStyleDuplicateName (os_name o)) [] (cf_output_styles c).

(** ** All the checks *)

Definition validate c : verdict :=
  all_of [
    validate_cache c; validate_widget_displays c; validate_scope_ids c; validate_scope_matches c;
    validate_bundles c; validate_capability_env c; validate_mcps c;
    validate_hooks (ca_hooks (cf_capabilities c)); validate_lsp c; validate_skills c;
    validate_output_styles c; validate_model_providers c; validate_default_models c; validate_plugins c;
    validate_state c; validate_permissions c; validate_launch_proxy c; validate_sandbox c].
End validate.
