(* ===== verification/ConfigLaws.v ===== *)
(** * What validation accepts

    [config_ok] says what a configuration that llmenv works with looks like, group by group;
    [validate] accepts exactly these. It uses none of the tests of the validator: names, paths,
    addresses, model ids, plugin references and sources have a form of their own under Shapes of
    texts, balanced parentheses a grammar, and the lists of accepted words and the bounds are
    written out. The form that the scope matcher gives a MAC address is compared besides. *)

From S2P Require Import Prelude RustStr Json Names Text NetAddr ProxyPath LaunchProxy Permissions.
From S2P Require Import TaskNudge Scope Bundles ConfigSchema ConfigValidate.

(** ** Loops of checks *)

Lemma refuse_if_ok b e : refuse_if b e = Ok tt ↔ b = false.
Proof. by destruct b. Qed.
Lemma and_then_ok a b : and_then a b = Ok tt ↔ a = Ok tt ∧ b = Ok tt.
Proof. destruct a as [[]|e]; cbn; split; try naive_solver. Qed.
Lemma for_each_ok {A} (check : A → verdict) l : for_each check l = Ok tt ↔ Forall (λ a, check a = Ok tt) l.
Proof.
  induction l as [|a l IH]; cbn [for_each]; [split; [constructor|done]|].
  by rewrite and_then_ok, IH, Forall_cons.
Qed.
Lemma on_some_ok {A} (o : option A) (check : A → verdict) :
  on_some o check = Ok tt ↔ ∀ a, o = Some a → check a = Ok tt.
Proof. destruct o; cbn; naive_solver. Qed.
Lemma for_each_new_ok {A} (key : A → string) pre post dup seen l :
  for_each_new key pre post dup seen l = Ok tt ↔
  Forall (λ a, pre a = Ok tt ∧ post a = Ok tt) l ∧ NoDup (map key l) ∧ Forall (λ a, key a ∉ seen) l.
Proof.
  revert seen. induction l as [|a l IH]; intros seen; cbn [for_each_new map].
  { split; [intros _; repeat constructor|done]. }
  rewrite !and_then_ok, refuse_if_ok, bool_decide_eq_false, IH, !Forall_cons, NoDup_cons.
  enough (Forall (λ b, key b ∉ key a :: seen) l ↔ key a ∉ map key l ∧ Forall (λ b, key b ∉ seen) l) by tauto.
  rewrite !Forall_forall. split.
  - intros H. split.
    + intros (b & Hb & Hl)%list_elem_of_fmap. apply (H b Hl). rewrite Hb. by left.
    + intros b Hb Hs. apply (H b Hb). by right.
  - intros [Ha H] b Hb. rewrite elem_of_cons. intros [E|Hs]; [|by apply (H b Hb)].
    apply Ha. rewrite <- E. by apply list_elem_of_fmap_2.
Qed.
Lemma pass_ok {A} (a : A) : pass a = Ok tt ↔ True.
Proof. done. Qed.
Lemma no_checks_ok : all_of [] = Ok tt ↔ True.
Proof. done. Qed.
Lemma all_of_cons_ok a checks : all_of (a :: checks) = Ok tt ↔ a = Ok tt ∧ all_of checks = Ok tt.
Proof. apply and_then_ok. Qed.

Create HintDb verdicts.
#[export] Hint Rewrite and_then_ok refuse_if_ok @on_some_ok no_checks_ok all_of_cons_ok @pass_ok negb_false_iff
  bool_decide_eq_true bool_decide_eq_false andb_false_iff orb_false_iff : verdicts.
Ltac verdicts := autorewrite with verdicts.

(** A fold over the entries of a map is a statement about each of its bindings. *)
Lemma for_entries_ok {A} (check : string * A → verdict) (m : gmap string A) :
  for_each check (btree_entries m) = Ok tt ↔ map_Forall (λ k a, check (k, a) = Ok tt) m.
Proof.
  rewrite for_each_ok, Forall_forall. split.
  - intros H k a Hk. by apply H, elem_of_btree.
  - intros H [k a] Hk. by apply H, elem_of_btree.
Qed.
Lemma for_each_Forall {A} (check : A → verdict) (P : A → Prop) l :
  (∀ a, check a = Ok tt ↔ P a) → for_each check l = Ok tt ↔ Forall P l.
Proof. intros H. rewrite for_each_ok. by apply Forall_iff. Qed.
Lemma for_entries_Forall {A} (check : string * A → verdict) (P : string → A → Prop) (m : gmap string A) :
  (∀ k a, check (k, a) = Ok tt ↔ P k a) → for_each check (btree_entries m) = Ok tt ↔ map_Forall P m.
Proof. intros H. rewrite for_entries_ok. split; intros HP k a Hk; by apply H, HP. Qed.
Lemma for_each_new_Forall {A} (key : A → string) pre post dup seen (P : A → Prop) l :
  (∀ a, pre a = Ok tt ∧ post a = Ok tt ↔ P a) →
  for_each_new key pre post dup seen l = Ok tt ↔
  Forall P l ∧ NoDup (map key l) ∧ Forall (λ a, key a ∉ seen) l.
Proof. intros H. rewrite for_each_new_ok. by rewrite (Forall_iff _ l P H). Qed.
Lemma for_each_new_fresh {A} (key : A → string) pre post dup (P : A → Prop) l :
  (∀ a, pre a = Ok tt ∧ post a = Ok tt ↔ P a) →
  for_each_new key pre post dup [] l = Ok tt ↔ Forall P l ∧ NoDup (map key l).
Proof.
  intros H. rewrite (for_each_new_Forall key pre post dup [] P l H).
  assert (Forall (λ a, key a ∉ []) l) by (apply Forall_forall; intros a _; apply not_elem_of_nil). tauto.
Qed.

(** ** Parentheses *)

(** A backslash takes the next character out; a text that ends in one is still balanced. *)
Inductive Closed : string → Prop :=
| closed_end : Closed ""
| closed_char c s : c ≠ "\"%char → c ≠ "("%char → c ≠ ")"%char → Closed s → Closed (String c s)
| closed_escape c s : Closed s → Closed (String "\" (String c s))
| closed_group s t : Closed s → Closed t → Closed ("(" +:+ s +:+ ")" +:+ t).
Inductive Balanced : string → Prop :=
| bal_end : Balanced ""
| bal_dangling : Balanced "\"
| bal_char c s : c ≠ "\"%char → c ≠ "("%char → c ≠ ")"%char → Balanced s → Balanced (String c s)
| bal_escape c s : Balanced s → Balanced (String "\" (String c s))
| bal_group s t : Closed s → Balanced t → Balanced ("(" +:+ s +:+ ")" +:+ t).
(** What is left to read inside [d] open groups. *)
Inductive Open : nat → string → Prop :=
| open_outside s : Balanced s → Open 0 s
| open_inside d s t : Closed s → Open d t → Open (S d) (s +:+ ")" +:+ t).

(** Whether a backslash at the end has nothing left to take out. *)
Fixpoint dangling (escaped : bool) (s : string) : bool :=
  match s with "" => escaped | String c s => dangling (negb escaped && Ascii.eqb c "\") s end.

Lemma balanced_from_close d s t : Closed s → balanced_from d false (s +:+ t) = balanced_from d false t.
Proof.
  intros H. revert d t. induction H as [|c s N1 N2 N3 H IH|c s H IH|s u H IH H' IH']; intros d t.
  - done.
  - rewrite str_app_cons. cbn [balanced_from].
    rewrite (proj2 (Ascii.eqb_neq _ _) N1), (proj2 (Ascii.eqb_neq _ _) N2), (proj2 (Ascii.eqb_neq _ _) N3). apply IH.
  - rewrite !str_app_cons. cbn [balanced_from Ascii.eqb Bool.eqb]. apply IH.
  - rewrite !str_app_assoc, str_app_cons. cbn [balanced_from Ascii.eqb Bool.eqb]. rewrite str_app_nil_l, IH.
    rewrite str_app_cons. cbn [balanced_from Ascii.eqb Bool.eqb]. rewrite str_app_nil_l. apply IH'.
Qed.
Lemma Balanced_accepted s : Balanced s → balanced_from 0 false s = true.
Proof.
  induction 1 as [| |c s N1 N2 N3 H IH|c s H IH|s u H H' IH']; [done..| | |].
  - cbn [balanced_from].
    by rewrite (proj2 (Ascii.eqb_neq _ _) N1), (proj2 (Ascii.eqb_neq _ _) N2), (proj2 (Ascii.eqb_neq _ _) N3).
  - done.
  - change ("(" +:+ s +:+ ")" +:+ u) with (String "(" (s +:+ ")" +:+ u)).
    cbn [balanced_from Ascii.eqb Bool.eqb]. by rewrite balanced_from_close.
Qed.
Lemma open_char d c s : c ≠ "\"%char → c ≠ "("%char → c ≠ ")"%char → Open d s → Open d (String c s).
Proof.
  intros N1 N2 N3 [s' H|d' u t H H']; [by constructor; apply bal_char|].
  apply (open_inside d' (String c u)); [by apply closed_char|done].
Qed.
Lemma open_escape d c s : Open d s → Open d (String "\" (String c s)).
Proof.
  intros [s' H|d' u t H H']; [by constructor; apply bal_escape|].
  apply (open_inside d' (String "\" (String c u))); [by apply closed_escape|done].
Qed.
Lemma open_group d s t : Closed s → Open d t → Open d ("(" +:+ s +:+ ")" +:+ t).
Proof.
  intros H [t' H'|d' u w Hu Hw]; [by constructor; apply bal_group|].
  replace ("(" +:+ s +:+ ")" +:+ u +:+ ")" +:+ w) with (("(" +:+ s +:+ ")" +:+ u) +:+ ")" +:+ w)
    by by rewrite !str_app_assoc.
  by apply open_inside; [apply closed_group|].
Qed.
Lemma accepted_Open d s : balanced_from d false s = true → Open d s.
Proof.
  remember (String.length s) as n eqn:En. revert d s En.
  induction n as [n IH] using lt_wf_ind. intros d s En. destruct s as [|c s]; cbn [balanced_from].
  { intros H%bool_decide_eq_true. subst d. by constructor; constructor. }
  cbn [String.length] in En. destruct (Ascii.eqb_spec c "\") as [->|N1].
  - destruct s as [|c s]; cbn [balanced_from].
    + intros H%bool_decide_eq_true. subst d. by constructor; constructor.
    + intros H. apply open_escape, (IH (String.length s)); [cbn [String.length] in En; lia|done|done].
  - destruct (Ascii.eqb_spec c "(") as [->|N2]; [|destruct (Ascii.eqb_spec c ")") as [->|N3]].
    + intros H. apply (IH (String.length s)) in H; [|lia|done]. inversion H as [|d' u t Hu Ht]; subst.
      by apply (open_group d u t).
    + destruct d as [|d]; [done|]. intros H. apply (open_inside d "" s); [constructor|].
      apply (IH (String.length s)); [lia|done|done].
    + intros H. apply open_char; [done..|]. apply (IH (String.length s)); [lia|done|done].
Qed.
(** A text of a permission rule passes when its parentheses pair up outside of escapes. *)
Theorem balanced_parens_correct (s : string) : has_balanced_parens s = true ↔ Balanced s.
Proof.
  split; [|apply Balanced_accepted]. intros H%accepted_Open. by inversion H.
Qed.

Lemma balanced_from_app d e s t : balanced_from 0 e s = true → (* the text closes what it opens *)
  balanced_from d e (s +:+ t) = balanced_from d (dangling e s) t.
Proof.
  enough (∀ k, balanced_from k e s = true → balanced_from (k + d) e (s +:+ t) = balanced_from d (dangling e s) t) as H
    by apply (H 0).
  revert e. induction s as [|c s IH]; intros e k.
  { cbn [balanced_from dangling]. intros H%bool_decide_eq_true. by subst k. }
  rewrite str_app_cons. cbn [balanced_from dangling]. destruct e; cbn [negb andb]; [apply IH|].
  destruct (Ascii.eqb c "\") eqn:E1; [apply IH|]. destruct (Ascii.eqb c "("); [apply (IH false (S k))|].
  destruct (Ascii.eqb c ")"); [|apply IH]. destruct k as [|k]; [done|]. apply IH.
Qed.

(** ** MAC addresses *)

Lemma split_on_all (p q : ascii → bool) s : (∀ c, p c = true → q c = true) →
  str_all q s = forallb (str_all q) (split_on p s).
Proof.
  intros Hpq. induction s as [|c s IH]; [done|]. cbn [str_all split_on]. rewrite IH.
  destruct (p c) eqn:Ec; [by rewrite (Hpq c Ec)|].
  destruct (split_on p s) eqn:Es; [by destruct (split_on_nonempty p s)|]. cbn [forallb str_all].
  by rewrite andb_assoc.
Qed.
Lemma mac_octet_agrees p :
  is_Some (mac_octet p) ↔ is_valid_mac_octet p = true ∧ str_contains_char "+" p = false.
Proof.
  unfold mac_octet, is_valid_mac_octet, str_contains_char. rewrite negb_false_iff, andb_true_iff, bool_decide_eq_true.
  assert (Hplus : str_all is_ascii_hexdigit p = true → str_all (λ d, negb (Ascii.eqb d "+")) p = true).
  { apply str_all_impl. intros c Hc. destruct (Ascii.eqb_spec c "+") as [->|]; [done|done]. }
  case_decide as H; split.
  - intros _. destruct H as [H1 H2]. split; [split; [done|]|by apply Hplus].
    destruct p as [|c p]; [done|]. destruct (Ascii.eqb_spec c "+") as [->|N]; [by destruct p|].
    by repeat (case_match; try done).
  - by intros _; eexists.
  - by intros [? ?].
  - intros [[H1 H2] H3]. destruct H. split; [done|]. destruct p as [|c p]; [done|].
    cbn [str_all] in H3. destruct (Ascii.eqb_spec c "+") as [->|N]; [done|].
    by repeat (case_match; try done).
Qed.
Lemma forallb_Forall {A} (p : A → bool) l : forallb p l = true ↔ Forall (λ a, p a = true) l.
Proof. rewrite <- Is_true_true, forallb_True. apply Forall_iff. intros a. apply Is_true_true. Qed.
Lemma no_plus_parts mac :
  str_contains_char "+" mac = false ↔ Forall (λ p, str_contains_char "+" p = false) (split_on is_colon mac).
Proof.
  unfold str_contains_char. rewrite negb_false_iff, (split_on_all is_colon), forallb_Forall.
  - apply Forall_iff. intros p. by rewrite negb_false_iff.
  - intros c Hc. by apply Ascii.eqb_eq in Hc; subst.
Qed.
(** The validator of gateway addresses accepts what the scope matcher can normalise, and an
    octet that begins with a plus sign besides. *)
Theorem mac_validator_agrees (mac : string) :
  is_Some (normalize_mac mac) ↔ is_valid_mac_address mac = true ∧ str_contains_char "+" mac = false.
Proof.
  unfold normalize_mac, is_valid_mac_address.
  rewrite no_plus_parts, andb_true_iff, bool_decide_eq_true, forallb_Forall.
  assert (Hall : is_Some (mapM mac_octet (split_on is_colon mac)) ↔
    Forall (λ p, is_valid_mac_octet p = true) (split_on is_colon mac) ∧
    Forall (λ p, str_contains_char "+" p = false) (split_on is_colon mac)).
  { rewrite mapM_is_Some, <- Forall_and. apply Forall_iff, mac_octet_agrees. }
  destruct (mapM mac_octet (split_on is_colon mac)) as [octets|] eqn:Em; simpl.
  - apply length_mapM in Em. rewrite Em. assert (is_Some (Some octets)) by done. case_decide; split; naive_solver.
  - split; [by intros [? ?]|]. intros ((_ & H1) & H2). by destruct (proj2 Hall (conj H1 H2)).
Qed.

(** ** Shapes of texts *)

Definition has_char (c : ascii) (s : string) : Prop := ∃ a b, s = a +:+ String c b.
Definition only (P : ascii → Prop) (s : string) : Prop := ∀ c, has_char c s → P c.
Definition begins (p s : string) : Prop := ∃ r, s = p +:+ r.
Definition ends (t s : string) : Prop := ∃ r, s = r +:+ t.
Definition alphanumeric (c : ascii) : Prop := is_ascii_alphanumeric c = true.

(** A name that is used as one component of a path. *)
Definition short_name (n : string) : Prop :=
  n ∉ [""; "."; ".."] ∧ ¬ begins "-" n ∧ only (λ c, alphanumeric c ∨ c = "."%char ∨ c = "_"%char ∨ c = "-"%char) n.
Definition var_name (n : string) : Prop :=
  (∃ c r, n = String c r ∧ (is_ascii_upper c = true ∨ is_ascii_lower c = true ∨ c = "_"%char)) ∧
  only (λ c, alphanumeric c ∨ c = "_"%char) n.
(** The folder of a tool below the state directory. *)
Definition state_folder (n : string) : Prop :=
  n ∉ [""; "."; ".."] ∧ ¬ has_char "/" n ∧ ¬ has_char "\" n ∧ ¬ has_char ":" n ∧ ¬ has_char "000" n.
Definition cache_path (d : string) : Prop :=
  d ≠ "" ∧ String.length d ≤ 4096 ∧ ¬ has_char "000" d ∧ ".." ∉ split_on is_slash d.
Definition path_below (p : string) : Prop := ¬ begins "/" p ∧ ".." ∉ split_on is_slash p.
(** Two hexadecimal digits or one; a plus sign may stand for the first of two. *)
Definition mac_part (p : string) : Prop :=
  ∃ a b, (p = String a "" ∧ is_ascii_hexdigit a = true) ∨
    (p = String a (String b "") ∧ (is_ascii_hexdigit a = true ∨ a = "+"%char) ∧ is_ascii_hexdigit b = true).
Definition mac_text (mac : string) : Prop :=
  length (split_on is_colon mac) = 6 ∧ Forall mac_part (split_on is_colon mac).
Definition host_label (l : string) : Prop :=
  1 ≤ String.length l ≤ 63 ∧ ¬ begins "-" l ∧ ¬ ends "-" l ∧ only (λ c, alphanumeric c ∨ c = "-"%char) l.
Definition host_name (h : string) : Prop :=
  1 ≤ String.length h ≤ 253 ∧ Forall host_label (split_on (Ascii.eqb ".") h).
Definition host_address (a : string) : Prop := is_Some (parse_ip a) ∨ host_name a.
Definition model_id (m : string) : Prop :=
  ∃ rest, m = "claude-" +:+ rest ∧
    Forall (λ w, w ≠ "" ∧ only (λ c, is_ascii_lower c = true ∨ is_ascii_digit c = true) w) (split_on (Ascii.eqb "-") rest).
(** A root that is absolute once the home folder and the variables are filled in. *)
Definition root_text (root : string) : Prop :=
  let filled s := is_Some (expand_env_refs s (λ _, Some "x")) in
  trim root = "~" ∨ (∃ r, trim root = "~/" +:+ r ∧ filled ("/" +:+ r)) ∨
  (begins "/" (trim root) ∨ begins "$" (trim root)) ∧ filled (trim root).
Definition plugin_ref_to (names : list string) (ref : string) : Prop :=
  ∃ m name, ref = m +:+ ":" +:+ name ∧ m ≠ "" ∧ name ≠ "" ∧ ¬ has_char ":" m ∧ ¬ has_char ":" name ∧ m ∈ names.
(** A repository of [anthropics] at GitHub. *)
Definition official_source (source : string) : Prop :=
  ∃ prefix rest owner repo more,
    prefix ∈ ["https://github.com/"; "http://github.com/"; "ssh://git@github.com/"; "git://github.com/"; "git@github.com:"] ∧
    source = prefix +:+ rest ∧ split_on (Ascii.eqb "/") (trim_end_slashes rest) = owner :: repo :: more ∧
    repo ∉ [""; ".git"] ∧ to_ascii_lowercase owner = "anthropics".

Lemma str_all_only p s : str_all p s = true ↔ only (λ c, p c = true) s.
Proof.
  unfold only, has_char. induction s as [|c s IH]; cbn [str_all].
  - split; [|done]. intros _ c ([|d a] & b & E); done.
  - rewrite andb_true_iff, IH. split.
    + intros [Hc Hs] d ([|e a] & b & [= -> E]); [done|]. apply Hs. by exists a, b.
    + intros H. split; [by apply H; exists "", s|]. intros d (a & b & ->). apply H. by exists (String c a), b.
Qed.
Lemma contains_has c s : str_contains_char c s = true ↔ has_char c s.
Proof.
  unfold str_contains_char. rewrite negb_true_iff, <-not_true_iff_false, str_all_only. unfold only. split.
  - induction s as [|d s IH]; intros H.
    + destruct H. intros e ([|] & b & E); done.
    + destruct (Ascii.eqb_spec d c) as [->|Hd]; [by exists "", s|]. destruct IH as (a & b & ->); [|by exists (String d a), b].
      intros Hs. apply H. intros e ([|f a] & b & [= -> E]); [by apply negb_true_iff, Ascii.eqb_neq|].
      apply Hs. by exists a, b.
  - intros Hc H. specialize (H c Hc). by rewrite Ascii.eqb_refl in H.
Qed.
Lemma contains_not c s : str_contains_char c s = false ↔ ¬ has_char c s.
Proof. by rewrite <-contains_has, not_true_iff_false. Qed.
Lemma starts_not p s : starts_with p s = false ↔ ¬ begins p s.
Proof. by rewrite <-not_true_iff_false, starts_with_spec. Qed.
Lemma ends_not p s : ends_with p s = false ↔ ¬ ends p s.
Proof. by rewrite <-not_true_iff_false, ends_with_spec. Qed.
Lemma only_iff (P Q : ascii → Prop) s : (∀ c, P c ↔ Q c) → only P s ↔ only Q s.
Proof. intros H. unfold only. by setoid_rewrite H. Qed.
Lemma all_only (p : ascii → bool) (P : ascii → Prop) s : (∀ c, p c = true ↔ P c) → str_all p s = true ↔ only P s.
Proof. intros H. rewrite str_all_only. by apply only_iff. Qed.
Ltac char_class := intros ?c; unfold alphanumeric; rewrite ?orb_true_iff, ?Ascii.eqb_eq; tauto.

Lemma short_name_iff n : is_valid_short_name n = true ↔ short_name n.
Proof.
  unfold is_valid_short_name, short_name. rewrite <-starts_not, !not_elem_of_cons.
  rewrite <-(all_only is_short_name_char) by (unfold is_short_name_char; char_class).
  pose proof (not_elem_of_nil n). case_decide; [naive_solver|]. destruct (starts_with "-" n); naive_solver.
Qed.
Lemma var_name_iff n : is_valid_var_name n = true ↔ var_name n.
Proof.
  unfold is_valid_var_name, var_name. destruct n as [|c r]; [naive_solver|].
  rewrite <-(all_only (λ c, is_ascii_alphanumeric c || Ascii.eqb c "_")) by char_class.
  unfold is_ascii_letter. destruct (is_ascii_upper c) eqn:E1, (is_ascii_lower c) eqn:E2, (Ascii.eqb_spec c "_") as [E3|E3];
    cbn [negb orb andb]; naive_solver congruence.
Qed.
Lemma state_folder_iff n : is_safe_state_subdir n = true ↔ state_folder n.
Proof.
  unfold is_safe_state_subdir, state_folder. rewrite !not_elem_of_cons. pose proof (not_elem_of_nil n).
  case_decide; [naive_solver|]. rewrite !andb_true_iff, !negb_true_iff, !contains_not. naive_solver.
Qed.
Lemma cache_path_iff d : is_safe_cache_dir d = true ↔ cache_path d.
Proof.
  unfold is_safe_cache_dir, cache_path, has_parent_component. case_decide; [split; [done|]; intros (? & ? & _); naive_solver lia|].
  rewrite andb_true_iff, !negb_true_iff, contains_not, bool_decide_eq_false, elem_of_components_parent. naive_solver lia.
Qed.
Lemma path_below_iff p : is_unsafe_join_target p = false ↔ path_below p.
Proof.
  unfold is_unsafe_join_target, path_below, is_absolute, has_parent_component.
  by rewrite orb_false_iff, starts_not, bool_decide_eq_false, elem_of_components_parent.
Qed.
Lemma mac_part_iff p : is_valid_mac_octet p = true ↔ mac_part p.
Proof.
  unfold is_valid_mac_octet, mac_part. rewrite andb_true_iff, bool_decide_eq_true.
  destruct p as [|a [|b [|c p]]]; cbn [String.length].
  - split; [intros [? _]; lia|]. intros (a & b & [[? _]|[? _]]); done.
  - assert (Hd : str_all is_ascii_hexdigit match String a "" with String "+" (String c s) => String c s | _ => String a "" end =
      is_ascii_hexdigit a) by (destruct a as [[] [] [] [] [] [] [] []]; reflexivity).
    rewrite Hd. split; [intros [_ H]; exists a, a; by left|]. intros (x & y & [[[= <-] H]|[? _]]); [split; [lia|done]|done].
  - assert (Hd : str_all is_ascii_hexdigit match String a (String b "") with String "+" (String c s) => String c s | _ => String a (String b "") end =
      (is_ascii_hexdigit a || Ascii.eqb a "+") && is_ascii_hexdigit b).
    { destruct a as [[] [] [] [] [] [] [] []]; cbn [str_all]; destruct (is_ascii_hexdigit b); reflexivity. }
    rewrite Hd, andb_true_iff, orb_true_iff, Ascii.eqb_eq. split.
    + intros (_ & H & Hb). exists a, b. by right.
    + intros (x & y & [[? _]|([= <- <-] & H & Hb)]); [done|]. split; [lia|done].
  - split; [intros [? _]; lia|]. intros (x & y & [[? _]|[? _]]); done.
Qed.
Lemma mac_text_iff mac : is_valid_mac_address mac = true ↔ mac_text mac.
Proof.
  unfold is_valid_mac_address, mac_text. rewrite andb_true_iff, bool_decide_eq_true, forallb_Forall.
  apply and_iff_compat_l, Forall_iff, mac_part_iff.
Qed.
Lemma empty_length s : s = "" ↔ String.length s = 0.
Proof. by destruct s. Qed.
Lemma host_label_iff l : is_valid_label l = true ↔ host_label l.
Proof.
  unfold is_valid_label, host_label. rewrite !andb_true_iff, !negb_true_iff, bool_decide_eq_false, bool_decide_eq_true, empty_length.
  rewrite starts_not, ends_not. rewrite (all_only _ (λ c, alphanumeric c ∨ c = "-"%char)) by char_class. naive_solver lia.
Qed.
Lemma host_name_iff h : is_valid_hostname h = true ↔ host_name h.
Proof.
  unfold is_valid_hostname, host_name. rewrite <-(Forall_iff (λ l, is_valid_label l = true)) by apply host_label_iff.
  rewrite <-forallb_Forall. case_decide as H; rewrite empty_length in H; [split; [done|lia]|]. naive_solver lia.
Qed.
Lemma host_address_iff a : host_addr_ok a = true ↔ host_address a.
Proof. unfold host_addr_ok, host_address. by rewrite orb_true_iff, bool_decide_eq_true, host_name_iff. Qed.
Lemma model_id_iff m : is_canonical_model_id m = true ↔ model_id m.
Proof.
  unfold is_canonical_model_id, model_id.
  assert (Hw : ∀ l, forallb (λ word, negb (bool_decide (word = "")) && str_all (λ c, is_ascii_lower c || is_ascii_digit c) word) l = true ↔
    Forall (λ w, w ≠ "" ∧ only (λ c, is_ascii_lower c = true ∨ is_ascii_digit c = true) w) l).
  { intros l. rewrite forallb_Forall. apply Forall_iff. intros w. rewrite andb_true_iff, negb_true_iff, bool_decide_eq_false.
    apply and_iff_compat_l, all_only. char_class. }
  destruct (strip_prefix "claude-" m) as [rest|] eqn:E.
  - rewrite Hw. assert (Em := E). apply strip_prefix_Some in Em. split; [eauto|]. intros (r & Er%strip_prefix_Some & H). congruence.
  - split; [done|]. intros (r & Er%strip_prefix_Some & _). congruence.
Qed.
Lemma begins_iff p s : starts_with p s = true ↔ begins p s.
Proof. apply starts_with_spec. Qed.
Lemma root_text_iff root : allowed_root_shape_is_valid root = true ↔ root_text root.
Proof.
  unfold allowed_root_shape_is_valid, root_text. generalize (trim root). clear root. intros root.
  destruct (strip_prefix "~" root) as [after|] eqn:E.
  - apply strip_prefix_Some in E as ->. case_decide as H.
    + change (starts_with "~" ("~" +:+ after)) with true. rewrite orb_true_r. cbn [orb]. rewrite bool_decide_eq_true.
      destruct H as [->|(r & ->)%starts_with_spec].
      * split; [by left|]. intros _. by eexists.
      * split; [intros Hf; right; left; by exists r|]. intros [?|[(r' & Er & Hf)|[[(r' & ?)|(r' & ?)] _]]]; [done| |done..].
        injection Er as Er. rewrite !str_app_nil_l in Er. by rewrite Er.
    + split; [done|]. intros [Er|[(r & Er & _)|[[(r & ?)|(r & ?)] _]]]; [| |done..]; destruct H.
      * left. injection Er as Er. by rewrite str_app_nil_l in Er.
      * right. apply starts_with_spec. exists r. injection Er as Er. rewrite !str_app_nil_l in Er. by rewrite Er.
  - assert (Hn : ∀ r, root ≠ "~" +:+ r) by (intros r Er; apply strip_prefix_Some in Er; congruence).
    assert (starts_with "~" root = false) as -> by (rewrite starts_not; intros [r Er]; by apply (Hn r)).
    rewrite orb_false_r, <-!begins_iff. destruct (starts_with "/" root || starts_with "$" root) eqn:Es.
    + rewrite orb_true_iff in Es. rewrite bool_decide_eq_true. split; [by right; right|].
      intros [Er|[(r & Er & _)|[_ ?]]]; [by destruct (Hn "")|by destruct (Hn ("/" +:+ r))|done].
    + rewrite orb_false_iff in Es. destruct Es as [E1 E2]. rewrite E1, E2. split; [done|].
      intros [Er|[(r & Er & _)|[[?|?] _]]]; [by destruct (Hn "")|by destruct (Hn ("/" +:+ r))|done..].
Qed.
Lemma split_once_iff c s a b : split_once c s = Some (a, b) ↔ s = a +:+ String c b ∧ ¬ has_char c a.
Proof.
  split.
  - revert a b. induction s as [|d s IH]; intros a b; [done|]. cbn [split_once]. destruct (Ascii.eqb_spec d c) as [->|Hd].
    + intros [= <- <-]. split; [done|]. intros ([|] & y & E); done.
    + destruct (split_once c s) as [[a' b']|]; [|done]. intros [= <- <-]. destruct (IH a' b' eq_refl) as [-> Hn]. split; [done|].
      intros ([|e x] & y & [= -> E]); [done|]. apply Hn. by exists x, y.
  - intros [-> Hn]. induction a as [|d a IH]; rewrite ?str_app_nil_l, ?str_app_cons; cbn [split_once]; [by rewrite Ascii.eqb_refl|].
    destruct (Ascii.eqb_spec d c) as [->|Hd]; [destruct Hn; by exists "", a|]. rewrite IH; [done|].
    intros (x & y & ->). apply Hn. by exists (String d x), y.
Qed.
Lemma plugin_ref_iff names ref : (∃ m name, split_plugin_ref ref = Some (m, name) ∧ m ∈ names) ↔ plugin_ref_to names ref.
Proof.
  unfold split_plugin_ref, plugin_ref_to. split.
  - intros (m & name & E & Hm). destruct (split_once ":" ref) as [[a b]|] eqn:Es; [|done]. apply split_once_iff in Es as [-> Hn].
    case_decide as Hd; [done|]. injection E as <- <-. exists a, b.
    split_and!; [done|tauto|tauto|done|rewrite <-contains_has; tauto|done].
  - intros (m & name & -> & Hm & Hname & Hc & Hc' & Hin). exists m, name.
    rewrite (proj2 (split_once_iff ":" (m +:+ ":" +:+ name) m name) (conj eq_refl Hc)).
    rewrite decide_False; [done|]. rewrite contains_has. tauto.
Qed.
Lemma strip_first_iff prefixes s rest : (∀ p q r t, p ∈ prefixes → q ∈ prefixes → p +:+ r = q +:+ t → p = q) →
  strip_first prefixes s = Some rest ↔ ∃ p, p ∈ prefixes ∧ s = p +:+ rest.
Proof.
  intros Hx. induction prefixes as [|q prefixes IH]; cbn [strip_first].
  { split; [done|]. by intros (p & Hp%elem_of_nil & _). }
  assert (Hx' : ∀ p q r t, p ∈ prefixes → q ∈ prefixes → p +:+ r = q +:+ t → p = q).
  { intros p' q' r t Hp Hq. apply Hx; by right. }
  destruct (strip_prefix q s) as [r|] eqn:E.
  - assert (Eq := E). apply strip_prefix_Some in E. split.
    + intros [= <-]. exists q. split; [by left|done].
    + intros (p & Hp & ->). assert (p = q) as -> by (eapply Hx; [done|by left|exact E]).
      rewrite <-Eq. by apply strip_prefix_Some.
  - rewrite (IH Hx'). split; intros (p & Hp & Es); exists p; (split; [|done]); [by right|].
    apply elem_of_cons in Hp as [->|?]; [|done]. apply strip_prefix_Some in Es. congruence.
Qed.
Lemma github_prefixes_differ p q r t : p ∈ GITHUB_PREFIXES → q ∈ GITHUB_PREFIXES → p +:+ r = q +:+ t → p = q.
Proof.
  unfold GITHUB_PREFIXES. rewrite !elem_of_cons, !elem_of_nil.
  intros [->|[->|[->|[->|[->|[]]]]]] [->|[->|[->|[->|[->|[]]]]]] E; by try discriminate E.
Qed.
Lemma official_source_iff m : official_source_ok m = true ↔ official_source (mk_source m).
Proof.
  unfold official_source_ok, official_source, github_owner_repo. generalize (mk_source m). clear m. intros s.
  change ["https://github.com/"; "http://github.com/"; "ssh://git@github.com/"; "git://github.com/"; "git@github.com:"] with GITHUB_PREFIXES.
  change (to_ascii_lowercase OFFICIAL_MARKETPLACE_OWNER) with "anthropics".
  assert (Hrest : ∀ r, strip_first GITHUB_PREFIXES s = Some r ↔ ∃ p, p ∈ GITHUB_PREFIXES ∧ s = p +:+ r).
  { intros r. apply strip_first_iff, github_prefixes_differ. }
  assert (Hgit : ∀ repo, repo ≠ "" → default repo (strip_suffix ".git" repo) = "" ↔ repo = ".git").
  { intros repo Hne. split; [|by intros ->]. destruct (strip_suffix ".git" repo) as [x|] eqn:E; [|done]. cbn. intros ->.
    by apply strip_suffix_Some in E. }
  split.
  - destruct (strip_first GITHUB_PREFIXES s) as [rest|]; [|done]. destruct (proj1 (Hrest rest) eq_refl) as (p & Hp & Es). cbn.
    destruct (split_on _ _) as [|owner [|repo more]] eqn:Ep; [done..|]. case_decide as H1; [done|]. case_decide as H2; [done|].
    cbn. intros Ho%bool_decide_eq_true. exists p, rest, owner, repo, more. split_and!; [done..| |done].
    rewrite Hgit in H2 by tauto. set_solver.
  - intros (p & rest & owner & repo & more & Hp & Es & Ep & Hr & Ho). rewrite (proj2 (Hrest rest)) by eauto. cbn. rewrite Ep.
    rewrite decide_False by (intros [->| ->]; [done|set_solver]).
    rewrite decide_False by (rewrite Hgit; set_solver). cbn. by apply bool_decide_eq_true.
Qed.

(** ** The accepted configurations *)

Definition levels_ok (e : ModelEffort) : Prop :=
  (me_effort_level e ≠ None ∨ me_max_effort_level e ≠ None) ∧
  (∀ l, me_effort_level e = Some l → l ∈ ["low"; "medium"; "high"; "xhigh"]) ∧
  (∀ l, me_max_effort_level e = Some l → l ∈ ["low"; "medium"; "high"; "xhigh"; "max"]).
Definition env_key_ok (key : string) : Prop :=
  key ∉ ["LLMENV_STATE_DIR"; "CLAUDE_CONFIG_DIR"] ∧ ¬ begins "LLMENV_" key ∧ var_name key.
Definition rule_text_ok (r : PermissionRule) : Prop :=
  (∀ p, pm_pattern r = Some p → Balanced p) ∧ Forall Balanced (pm_paths r).
Definition hook_ok (h : Hook) : Prop :=
  match hh_kind (ho_handler h) with
  | HookCommand => default "" (hh_command (ho_handler h)) ≠ ""
  | McpTool => default "" (hh_tool (ho_handler h)) ≠ "" ∧ hh_on_failure (ho_handler h) = None
  end.
Definition server_ok (m : McpServer) : Prop :=
  ms_when m ≠ [] ∧ ms_name m ≠ "icm" ∧
  match ms_transport m with Stdio => is_Some (ms_command m) | _ => is_Some (ms_url m) end ∧
  map_Forall (λ key _, env_key_ok key) (ms_env m).
Definition memory_ok (host : gmap string HostEntry) (m : Memory) : Prop :=
  me_when m ≠ [] ∧ is_Some (host !! me_server_host m) ∧ is_Some (parse_ip (me_listen_host m)) ∧
  ∀ n, me_wakeup_max_tokens m = Some n → (20 ≤ n ≤ 4000)%N.
Definition tracker_ok (t : TaskTracker) : Prop :=
  tt_nudge_after t ≠ Some 0%N ∧ tt_nudge_every t ≠ Some 0%N ∧ tt_stop_nudge_every t ≠ Some 0%N ∧
  ∀ l, tt_workflow_skills t = Some l → Forall (λ s, trim s ≠ "") l.
Definition codebase_ok (cm : CodebaseMemory) : Prop :=
  cb_when cm ≠ [] ∧ (∀ n, cb_mem_budget_mb cm = Some n → (1 ≤ n ≤ 1048576)%N) ∧
  Forall root_text (cb_allowed_roots cm).
Definition features_ok (host : gmap string HostEntry) (f : Features) : Prop :=
  Forall (memory_ok host) (fe_memory f) ∧ Forall (λ t, th_when t ≠ [] ∧ th_backend t ≠ "") (fe_throttle f) ∧
  (∀ t, fe_task_tracker f = Some t → tracker_ok t) ∧ Forall codebase_ok (fe_codebase_memory f).
Definition path_ok (path : string) : Prop :=
  ∃ p, parse_path path = Ok p ∧ Forall (λ s, match s with Index i => (i ≤ 10000)%N | Key _ => True end) p.

Lemma check_level_ok context field value allowed : check_level context field value allowed = Ok tt ↔ value ∈ allowed.
Proof. unfold check_level. verdicts. done. Qed.
Lemma env_key_accepted (context key : string) : validate_capabilities_env_key context key = Ok tt ↔ env_key_ok key.
Proof.
  unfold validate_capabilities_env_key, env_key_ok. rewrite <-starts_not, <-var_name_iff.
  change ["LLMENV_STATE_DIR"; "CLAUDE_CONFIG_DIR"] with RESERVED_STATE_ENV_VARS. case_decide as H; [naive_solver|].
  destruct (starts_with "LLMENV_" key), (is_valid_var_name key); naive_solver.
Qed.
Lemma mcp_env_key_accepted (mcp key : string) : validate_mcp_env_key mcp key = Ok tt ↔ env_key_ok key.
Proof.
  unfold validate_mcp_env_key, env_key_ok. rewrite <-starts_not, <-var_name_iff.
  change ["LLMENV_STATE_DIR"; "CLAUDE_CONFIG_DIR"] with RESERVED_STATE_ENV_VARS. case_decide as H; [naive_solver|].
  destruct (starts_with "LLMENV_" key), (is_valid_var_name key); naive_solver.
Qed.
Lemma unbalanced_refused (s : string) e : refuse_if (negb (has_balanced_parens s)) e = Ok tt ↔ Balanced s.
Proof. verdicts. unfold has_balanced_parens. split; [|apply Balanced_accepted]. intros H%accepted_Open. by inversion H. Qed.
Lemma rule_accepted (context : string) r : validate_permission_rule context r = Ok tt ↔ rule_text_ok r.
Proof.
  unfold validate_permission_rule, rule_text_ok. verdicts.
  rewrite (for_each_Forall _ Balanced); [|intros p; apply unbalanced_refused].
  by setoid_rewrite unbalanced_refused.
Qed.
Lemma hook_accepted h : validate_hook h = Ok tt ↔ hook_ok h.
Proof.
  unfold validate_hook, hook_ok, is_missing. destruct (hh_kind (ho_handler h)); verdicts; [done|].
  case_bool_decide; verdicts; [naive_solver|]. rewrite <- eq_None_not_Some. naive_solver.
Qed.
Lemma server_accepted m :
  and_then (refuse_if (bool_decide (ms_when m = [])) (McpNoTags (ms_name m)))
    (refuse_if (bool_decide (ms_name m = MEMORY_MCP_NAME)) (McpReservedName (ms_name m))) = Ok tt ∧
  and_then (validate_transport m) (validate_mcp_env m) = Ok tt ↔ server_ok m.
Proof.
  unfold server_ok, validate_transport, validate_mcp_env. verdicts.
  rewrite (for_entries_Forall _ (λ key _, env_key_ok key)); [|intros k a; apply mcp_env_key_accepted].
  destruct (ms_transport m); verdicts; rewrite <- not_eq_None_Some; tauto.
Qed.
Lemma memory_accepted m host : validate_memory m host = Ok tt ↔ memory_ok host m.
Proof.
  unfold validate_memory, memory_ok. verdicts. rewrite <- !not_eq_None_Some.
  setoid_rewrite refuse_if_ok. setoid_rewrite negb_false_iff. setoid_rewrite bool_decide_eq_true. tauto.
Qed.
Lemma tracker_accepted t : validate_task_tracker t = Ok tt ↔ tracker_ok t.
Proof.
  unfold validate_task_tracker, tracker_ok. rewrite and_then_ok, for_each_ok, !Forall_cons. verdicts.
  rewrite <- not_true_iff_false, existsb_exists. cbn [snd].
  enough ((¬ ∃ x, In x (default [] (tt_workflow_skills t)) ∧ bool_decide (trim x = "") = true) ↔
    ∀ l, tt_workflow_skills t = Some l → Forall (λ s, trim s ≠ "") l) as E.
  { rewrite E. split; [naive_solver|]. intros (? & ? & ? & ?). by repeat split. }
  destruct (tt_workflow_skills t) as [l|]; simpl; [|split; [done|by intros _ (? & [] & _)]].
  split.
  - intros H l' [= <-]. apply Forall_forall. intros s Hs E. apply H. exists s. rewrite bool_decide_eq_true.
    by rewrite <- list_elem_of_In.
  - intros H (s & Hs%list_elem_of_In & E%bool_decide_eq_true). specialize (H l eq_refl).
    rewrite Forall_forall in H. by apply (H s).
Qed.
Lemma codebase_accepted cm : validate_codebase_memory cm = Ok tt ↔ codebase_ok cm.
Proof.
  unfold validate_codebase_memory, codebase_ok. verdicts.
  rewrite (for_each_Forall _ root_text); [|intros r; verdicts; apply root_text_iff].
  setoid_rewrite refuse_if_ok. setoid_rewrite negb_false_iff. setoid_rewrite bool_decide_eq_true. tauto.
Qed.
Lemma features_accepted f host : validate_features f host = Ok tt ↔ features_ok host f.
Proof.
  unfold validate_features, features_ok. verdicts.
  rewrite (for_each_Forall _ (memory_ok host)); [|intros m; apply memory_accepted].
  rewrite (for_each_Forall _ (λ t, th_when t ≠ [] ∧ th_backend t ≠ "")).
  2: { intros t. unfold validate_throttle. verdicts. tauto. }
  rewrite (for_each_Forall _ codebase_ok); [|apply codebase_accepted].
  setoid_rewrite tracker_accepted. tauto.
Qed.
Lemma path_accepted (path : string) : validate_proxy_path path = Ok tt ↔ path_ok path.
Proof.
  unfold validate_proxy_path, path_ok. destruct (parse_path path) as [p|e]; [|naive_solver].
  rewrite (for_each_Forall _ (λ s, match s with Index i => (i ≤ MAX_PROXY_PATH_INDEX)%N | Key _ => True end)); [naive_solver|].
  intros [k|i]; rewrite refuse_if_ok, negb_false_iff; [done|]. apply bool_decide_eq_true.
Qed.

Section laws.
Context {HY : Yaml} {HH : LaunchProxy.Http} (ipnet_ok : string → bool).
Implicit Types (c : ConfigSchema.Config).

Definition regex_ok (pattern : string) : Prop := is_Some (regex_is_match pattern).
Definition condition_ok (k : ProxyCondition) : Prop :=
  (∀ path, pc_target k = CBody (Some path) → path_ok path) ∧
  (∀ p, pc_check k = Matches p true → regex_ok p).
Definition proxy_rule_ok (r : ProxyRule) : Prop :=
  (∀ path, pr_target r = TBody path → path_ok path) ∧ (∀ p, pr_op r = OpStrip p true → regex_ok p) ∧
  Forall condition_ok (pr_when r).
(** An address and a length, for ipnet, without an octet that begins with a zero of two digits. *)
Definition network (cidr : string) : Prop :=
  ∃ addr len, cidr = addr +:+ "/" +:+ len ∧ ¬ has_char "/" addr ∧
    (has_char ":" addr ∨ Forall (λ octet, octet = "0" ∨ ¬ begins "0" octet) (split_on (Ascii.eqb ".") addr)) ∧
    ipnet_ok cidr = true.
Definition scopes_ok c : Prop :=
  let s := cf_scope c in
  NoDup (map ns_id (cfg_network s) ++ map hs_id (cfg_host s) ++ map us_id (cfg_user s) ++ map cs_id (cfg_content s)) ∧
  Forall (λ s, (∀ cidr, ns_cidr s = Some cidr → network cidr) ∧ ∀ mac, ns_gateway_mac s = Some mac → mac_text mac)
    (cfg_network s) ∧
  Forall (λ s, ∀ h, hs_hostname s = Some h → host_name h) (cfg_host s).
Definition bundles_ok c : Prop :=
  Forall (λ b, b_when b ≠ [] ∧ short_name (b_name b)) (cf_bundle c) ∧ NoDup (map b_name (cf_bundle c)).
Definition cache_ok c : Prop :=
  cache_path (ch_cache_dir (cf_cache c)) ∧ ch_cache_retention_hours (cf_cache c) ≠ Some 0%N ∧
  ∀ log t, cf_session_log c = Some log → sl_transcript log = Some t → tr_retention_days t ≠ Some 0%N.
Definition effort_ok c : Prop :=
  let caps := cf_capabilities c in
  (∀ l, ca_effort_level caps = Some l → l ∈ ["low"; "medium"; "high"; "xhigh"]) ∧
  (∀ f s l, ca_features caps = Some f → fe_slippage f = Some s → sl_effort_level s = Some l → l ∈ ["low"; "medium"; "high"; "xhigh"]) ∧
  map_Forall (λ model e, model_id model ∧ levels_ok e) (ca_model_effort caps) ∧
  ca_advisor_size caps = None ∧
  ∀ m, ca_advisor_model caps = Some m → m ∈ ["fable"; "opus"; "sonnet"] ∨ model_id m.
Definition models_ok c : Prop :=
  let caps := cf_capabilities c in
  Forall (λ p, mp_id p ≠ "" ∧ Forall (λ m, mo_id m ≠ "") (mp_models p) ∧ NoDup (map mo_id (mp_models p)))
    (ca_model_providers caps) ∧
  NoDup (map mp_id (ca_model_providers caps)) ∧
  map_Forall (λ role r, role ≠ "" ∧ mr_provider r ≠ "" ∧ mr_model r ≠ "") (ca_default_models caps).
Definition rules_ok c : Prop :=
  let caps := cf_capabilities c in
  Forall rule_text_ok (p_allow (ca_permissions caps) ++ p_ask (ca_permissions caps) ++ p_deny (ca_permissions caps)) ∧
  map_Forall (λ _ n, Forall Balanced (n_allow n ++ n_ask n ++ n_deny n)) (ca_native_permissions caps).
Definition plugins_ok c : Prop :=
  let names := map mk_name (cf_marketplace c) in
  Forall (λ m, short_name (mk_name m) ∧ mk_source m ≠ "" ∧
    (mk_name m ∈ ["claude-plugins-official"; "claude-code-plugins"; "claude-code-marketplace"; "anthropic-marketplace";
       "anthropic-plugins"] → official_source (mk_source m))) (cf_marketplace c) ∧ NoDup names ∧
  Forall (λ p, pl_when p ≠ [] ∧ Forall (plugin_ref_to names) (pl_plugins p)) (cf_plugin_collection c) ∧
  NoDup (map pl_name (cf_plugin_collection c)).
Definition state_ok c : Prop :=
  Forall (λ t, var_name (sto_env t) ∧ state_folder (sto_subdir t) ∧ sto_env t ∉ ["LLMENV_STATE_DIR"; "CLAUDE_CONFIG_DIR"])
    (cf_state c) ∧ NoDup (map sto_env (cf_state c)).
Definition servers_ok c : Prop :=
  Forall server_ok (cf_mcp c) ∧ NoDup (map ms_name (cf_mcp c)) ∧
  map_Forall (λ _ h, host_address (he_addr h)) (cf_host c) ∧
  (∀ f, cf_features c = Some f → features_ok (cf_host c) f).
Definition skills_ok c : Prop :=
  Forall (λ s, short_name (sk_name s) ∧ sk_path s ≠ "" ∧ path_below (sk_path s)) (cf_skills c).
Definition styles_ok c : Prop :=
  Forall (λ o, short_name (os_name o) ∧ os_description o ≠ "" ∧ os_content o ≠ "") (cf_output_styles c) ∧
  NoDup (map (λ o, to_ascii_lowercase (os_name o)) (cf_output_styles c)).
Definition widgets_ok c : Prop :=
  ∀ s, cf_statusline c = Some s → map_Forall (λ widget w, ∀ value, wi_display w = Some value →
    (widget ∈ ["usage_5h"; "usage_7d"] → value ∈ ["clock_24h"; "clock_12h"]) ∧
    (widget = "model" → value ∈ ["short"; "version"; "full"]) ∧ (widget = "pr" → value ∈ ["number"; "url"])) (sc_widgets s).
Definition sandbox_ok c : Prop :=
  ∀ f s image, cf_features c = Some f → fe_sandbox f = Some s → sb_image s = Some image → trim image ≠ "" ∧ ¬ begins "-" image.
Definition proxy_ok c : Prop :=
  ∀ f p, cf_features c = Some f → fe_launch_proxy f = Some p → Forall proxy_rule_ok (lp_rules p).
Record config_ok c : Prop := {
  ok_cache : cache_ok c; ok_widgets : widgets_ok c; ok_scopes : scopes_ok c; ok_bundles : bundles_ok c;
  ok_env : map_Forall (λ key _, env_key_ok key) (ca_env (cf_capabilities c)); ok_effort : effort_ok c;
  ok_servers : servers_ok c; ok_hooks : Forall hook_ok (ca_hooks (cf_capabilities c));
  ok_lsp : Forall (λ l, ls_name l ≠ "" ∧ ls_command l ≠ "") (cf_lsp c); ok_skills : skills_ok c;
  ok_styles : styles_ok c; ok_models : models_ok c; ok_plugins : plugins_ok c; ok_state : state_ok c;
  ok_rules : rules_ok c; ok_proxy : proxy_ok c; ok_sandbox : sandbox_ok c }.

Ltac inner := repeat first
  [ setoid_rewrite refuse_if_ok | setoid_rewrite negb_false_iff | setoid_rewrite bool_decide_eq_true
  | setoid_rewrite bool_decide_eq_false ].

Lemma cache_accepted c : validate_cache c = Ok tt ↔ cache_ok c.
Proof.
  assert (Ht : transcript_retention_days c ≠ Some 0%N ↔
    ∀ log t, cf_session_log c = Some log → sl_transcript log = Some t → tr_retention_days t ≠ Some 0%N).
  { unfold transcript_retention_days. split.
    - intros H log t Hl Ht. by rewrite Hl in H; cbn in H; rewrite Ht in H.
    - intros H. destruct (cf_session_log c) as [log|]; [|done]. cbn. destruct (sl_transcript log) as [t|] eqn:Et; [|done].
      by apply (H log). }
  unfold validate_cache, cache_ok. verdicts. rewrite cache_path_iff, Ht. tauto.
Qed.
Lemma widget_accepted (widget value : string) : check_widget_display widget value = Ok tt ↔
  (widget ∈ ["usage_5h"; "usage_7d"] → value ∈ ["clock_24h"; "clock_12h"]) ∧
  (widget = "model" → value ∈ ["short"; "version"; "full"]) ∧ (widget = "pr" → value ∈ ["number"; "url"]).
Proof.
  unfold check_widget_display, WIDGET_DISPLAY_PRESETS. rewrite elem_of_cons, list_elem_of_singleton.
  destruct (find_first _ _) as [[w allowed]|] eqn:E.
  - verdicts. apply find_first_Some in E as [Hin Hw]. cbn [fst] in Hw. subst w. rewrite !elem_of_cons, elem_of_nil in Hin.
    destruct Hin as [[= -> ->]|[[= -> ->]|[[= -> ->]|[[= -> ->]|[]]]]]; intuition congruence.
  - rewrite find_first_None in E. repeat (apply Forall_cons in E as [? E]). cbn [fst] in *. intuition congruence.
Qed.
Lemma widgets_accepted c : validate_widget_displays c = Ok tt ↔ widgets_ok c.
Proof.
  unfold validate_widget_displays, widgets_ok. verdicts. split; intros H s Hs; specialize (H s Hs).
  - rewrite for_entries_ok in H. intros w cfg Hw value Hv. specialize (H w cfg Hw).
    rewrite on_some_ok in H. by eapply widget_accepted, H.
  - rewrite for_entries_ok. intros w cfg Hw. apply on_some_ok. intros value Hv. apply widget_accepted. by apply (H w cfg Hw).
Qed.

Lemma network_iff cidr : is_valid_cidr ipnet_ok cidr = true ↔ network cidr.
Proof.
  unfold is_valid_cidr, network. destruct (split_once "/" cidr) as [[addr len]|] eqn:E.
  - assert (E' := E). apply split_once_iff in E' as [Ec Hn].
    assert (Ho : existsb has_leading_zero (split_on (Ascii.eqb ".") addr) = false ↔
      Forall (λ octet, octet = "0" ∨ ¬ begins "0" octet) (split_on (Ascii.eqb ".") addr)).
    { rewrite <-not_true_iff_false, existsb_exists, Forall_forall. setoid_rewrite <-list_elem_of_In.
      assert (Hz : ∀ o, has_leading_zero o = true ↔ ¬ (o = "0" ∨ ¬ begins "0" o)).
      { intros o. unfold has_leading_zero. rewrite andb_true_iff, bool_decide_eq_true, begins_iff. split.
        - intros [Hl Hb] [->|Hn']; [cbn in Hl; lia|done].
        - intros Ho. assert (Hb : begins "0" o) by (destruct (starts_with "0" o) eqn:Eb; [by apply begins_iff|]; apply starts_not in Eb; tauto).
          split; [|done]. destruct Hb as [r ->]. destruct r; [destruct Ho; by left|]. rewrite str_length_app. cbn. lia. }
      setoid_rewrite Hz. split; [|naive_solver]. intros H o Hin. destruct (decide (o = "0")) as [|H0]; [by left|]. right.
      intros Hb. apply H. exists o. split; [done|]. intros [?|?]; done. }
    rewrite andb_true_iff, negb_true_iff, andb_false_iff, negb_false_iff, contains_has, Ho. split.
    + intros [H1 H2]. exists addr, len. done.
    + intros (a & l & Ec' & Hn' & H1 & H2). assert (Ea : split_once "/" cidr = Some (a, l)) by (by apply split_once_iff).
      rewrite E in Ea. injection Ea as <- <-. done.
  - split; [done|]. intros (a & l & Ec & Hn & _). assert (Ea : split_once "/" cidr = Some (a, l)) by (by apply split_once_iff). congruence.
Qed.
Lemma scopes_accepted c :
  validate_scope_ids c = Ok tt ∧ validate_scope_matches ipnet_ok c = Ok tt ↔ scopes_ok c.
Proof.
  unfold validate_scope_ids, validate_scope_matches, scopes_ok, validate_network_match, validate_host_match.
  rewrite and_then_ok, (for_each_new_fresh _ _ _ _ (λ _, True)), List.map_id; [|done].
  rewrite (for_each_Forall _ (λ s : NetworkScope,
    (∀ cidr, ns_cidr s = Some cidr → network cidr) ∧ ∀ mac, ns_gateway_mac s = Some mac → mac_text mac)).
  2: { intros s. verdicts. setoid_rewrite refuse_if_ok. setoid_rewrite negb_false_iff.
       setoid_rewrite network_iff. by setoid_rewrite mac_text_iff. }
  rewrite (for_each_Forall _ (λ s : HostScope, ∀ h, hs_hostname s = Some h → host_name h)).
  2: { intros s. verdicts. setoid_rewrite refuse_if_ok. setoid_rewrite negb_false_iff. by setoid_rewrite host_name_iff. }
  assert (Forall (λ _ : string, True) (scope_ids c)) by (by apply Forall_true). unfold scope_ids in *. tauto.
Qed.
Lemma bundles_accepted c : validate_bundles c = Ok tt ↔ bundles_ok c.
Proof. unfold validate_bundles. apply for_each_new_fresh. intros b. verdicts. by rewrite short_name_iff. Qed.
Lemma capability_env_accepted c :
  validate_capability_env c = Ok tt ↔ map_Forall (λ key _, env_key_ok key) (ca_env (cf_capabilities c)) ∧ effort_ok c.
Proof.
  assert (Hs : (∀ l, slippage_effort (cf_capabilities c) = Some l → l ∈ EFFORT_LEVELS) ↔
    ∀ f s l, ca_features (cf_capabilities c) = Some f → fe_slippage f = Some s → sl_effort_level s = Some l →
      l ∈ ["low"; "medium"; "high"; "xhigh"]).
  { unfold slippage_effort. split.
    - intros H f s l Hf Hs Hl. apply H. rewrite Hf. cbn. by rewrite Hs.
    - intros H l (f & Hf & (s & Hs & Hl)%bind_Some)%bind_Some. by apply (H f s). }
  unfold validate_capability_env, validate_effort, validate_advisor, effort_ok. verdicts.
  rewrite (for_entries_Forall _ (λ key _, env_key_ok key)); [|intros k a; apply env_key_accepted].
  rewrite (for_entries_Forall _ (λ model e, model_id model ∧ levels_ok e)).
  2: { intros model e. unfold validate_model_effort, check_model_id, levels_ok. verdicts. rewrite model_id_iff.
       setoid_rewrite check_level_ok.
       destruct (me_effort_level e), (me_max_effort_level e); naive_solver. }
  rewrite <- eq_None_not_Some. setoid_rewrite check_level_ok. setoid_rewrite refuse_if_ok.
  setoid_rewrite andb_false_iff. setoid_rewrite negb_false_iff. setoid_rewrite bool_decide_eq_true.
  setoid_rewrite model_id_iff. cbv zeta. rewrite Hs. tauto.
Qed.
Lemma models_accepted c : validate_model_providers c = Ok tt ∧ validate_default_models c = Ok tt ↔ models_ok c.
Proof.
  unfold validate_model_providers, validate_default_models, models_ok.
  rewrite (for_each_new_fresh _ _ _ _ (λ p, mp_id p ≠ "" ∧ Forall (λ m, mo_id m ≠ "") (mp_models p) ∧
    NoDup (map mo_id (mp_models p)))).
  2: { intros p. unfold validate_model_provider. rewrite (for_each_new_fresh _ _ _ _ (λ m, mo_id m ≠ "")).
       - verdicts. tauto.
       - intros m. verdicts. tauto. }
  rewrite (for_entries_Forall _ (λ role r, role ≠ "" ∧ mr_provider r ≠ "" ∧ mr_model r ≠ "")).
  2: { intros role r. unfold validate_default_model. verdicts. tauto. }
  tauto.
Qed.
Lemma rules_accepted c : validate_permissions c = Ok tt ↔ rules_ok c.
Proof.
  unfold validate_permissions, rules_ok. rewrite and_then_ok, (for_each_Forall _ rule_text_ok) by apply rule_accepted.
  rewrite (for_entries_Forall _ (λ _ n, Forall Balanced (n_allow n ++ n_ask n ++ n_deny n))); [done|].
  intros engine n. apply for_each_Forall. intros s. apply unbalanced_refused.
Qed.
Lemma regex_accepted (pattern : string) : validate_regex pattern = Ok tt ↔ regex_ok pattern.
Proof. unfold validate_regex, regex_ok. by rewrite refuse_if_ok, bool_decide_eq_false, not_eq_None_Some. Qed.
Lemma proxy_rules_ok c : Forall proxy_rule_ok (proxy_rules c) ↔ proxy_ok c.
Proof.
  unfold proxy_rules, proxy_ok. split.
  - intros H f p Hf Hp. rewrite Hf in H. cbn in H. by rewrite Hp in H.
  - intros H. destruct (cf_features c) as [f|]; cbn; [|constructor].
    destruct (fe_launch_proxy f) as [p|] eqn:Ep; [by apply (H f)|constructor].
Qed.
Lemma proxy_accepted c : validate_launch_proxy c = Ok tt ↔ proxy_ok c.
Proof.
  rewrite <-proxy_rules_ok. apply for_each_Forall. intros r. unfold validate_rule, proxy_rule_ok. verdicts.
  rewrite (for_each_Forall _ condition_ok).
  2: { intros k. unfold validate_condition, condition_ok. verdicts.
       destruct (pc_target k) as [|[]], (pc_check k) as [| | |? []];
         rewrite ?path_accepted, ?regex_accepted; naive_solver. }
  destruct (pr_target r), (pr_op r) as [| |? []]; rewrite ?path_accepted, ?regex_accepted; naive_solver.
Qed.
Lemma plugins_accepted c : validate_plugins c = Ok tt ↔ plugins_ok c.
Proof.
  unfold validate_plugins, plugins_ok. cbv zeta.
  change ["claude-plugins-official"; "claude-code-plugins"; "claude-code-marketplace"; "anthropic-marketplace"; "anthropic-plugins"]
    with RESERVED_OFFICIAL_MARKETPLACES. rewrite and_then_ok.
  rewrite (for_each_new_fresh _ _ _ _ (λ m, short_name (mk_name m) ∧ mk_source m ≠ "" ∧
    (mk_name m ∈ RESERVED_OFFICIAL_MARKETPLACES → official_source (mk_source m)))).
  2: { intros m. unfold validate_marketplace, is_reserved_official_marketplace. verdicts.
       rewrite short_name_iff, official_source_iff.
       destruct (decide (mk_name m ∈ RESERVED_OFFICIAL_MARKETPLACES)); tauto. }
  rewrite (for_each_new_fresh _ _ _ _ (λ p, pl_when p ≠ [] ∧
    Forall (plugin_ref_to (map mk_name (cf_marketplace c))) (pl_plugins p))); [tauto|].
  intros p. verdicts. rewrite for_each_ok. apply and_iff_compat_l, Forall_iff. intros ref. rewrite <-plugin_ref_iff.
  unfold validate_plugin_ref. destruct (split_plugin_ref ref) as [[m name]|]; verdicts; naive_solver.
Qed.
Lemma state_accepted c : validate_state c = Ok tt ↔ state_ok c.
Proof.
  unfold validate_state, state_ok.
  rewrite (for_each_new_Forall _ _ _ _ _ (λ t, var_name (sto_env t) ∧ state_folder (sto_subdir t))).
  2: { intros t. verdicts. rewrite var_name_iff, state_folder_iff. tauto. }
  change ["LLMENV_STATE_DIR"; "CLAUDE_CONFIG_DIR"] with RESERVED_STATE_ENV_VARS.
  rewrite !Forall_and. tauto.
Qed.
Lemma servers_accepted c : validate_mcps c = Ok tt ↔ servers_ok c.
Proof.
  unfold validate_mcps, validate_mcp_servers, validate_hosts, servers_ok. verdicts.
  rewrite (for_each_new_fresh _ _ _ _ server_ok) by apply server_accepted.
  rewrite (for_entries_Forall _ (λ _ h, host_address (he_addr h))); [|intros k h; verdicts; apply host_address_iff].
  setoid_rewrite features_accepted. tauto.
Qed.
Lemma skills_accepted c : validate_skills c = Ok tt ↔ skills_ok c.
Proof.
  unfold validate_skills. apply for_each_Forall. intros s. unfold validate_skill. verdicts.
  rewrite path_below_iff, short_name_iff. split; [tauto|]. intros (Hn & Hp & Hu).
  assert (sk_name s ≠ "") by (intros E; destruct Hn as [Hn _]; rewrite E in Hn; set_solver). tauto.
Qed.
Lemma styles_accepted c : validate_output_styles c = Ok tt ↔ styles_ok c.
Proof.
  unfold validate_output_styles. apply for_each_new_fresh. intros o. unfold validate_output_style. verdicts.
  rewrite short_name_iff. tauto.
Qed.
Lemma sandbox_accepted c : validate_sandbox c = Ok tt ↔ sandbox_ok c.
Proof.
  unfold validate_sandbox, sandbox_ok. rewrite on_some_ok. setoid_rewrite and_then_ok. setoid_rewrite refuse_if_ok.
  setoid_rewrite starts_not. setoid_rewrite bool_decide_eq_false. unfold sandbox_image. split.
  - intros H f s image Hf Hs Hi. apply H. rewrite Hf. cbn. by rewrite Hs.
  - intros H image (f & Hf & (s & Hs & Hi)%bind_Some)%bind_Some. by apply (H f s).
Qed.

Lemma validate_iff c : validate ipnet_ok c = Ok tt ↔ config_ok c.
Proof.
  unfold validate. rewrite !all_of_cons_ok, cache_accepted, widgets_accepted, bundles_accepted,
    capability_env_accepted, servers_accepted, skills_accepted, styles_accepted, plugins_accepted,
    state_accepted, rules_accepted, proxy_accepted, sandbox_accepted.
  pose proof (scopes_accepted c) as Hs. pose proof (models_accepted c) as Hm.
  unfold validate_hooks, validate_lsp. rewrite (for_each_Forall _ hook_ok) by apply hook_accepted.
  rewrite (for_each_Forall _ (λ l, ls_name l ≠ "" ∧ ls_command l ≠ "")).
  2: { intros l. unfold validate_lsp_server. by verdicts. }
  split.
  - intros H. split; tauto.
  - intros []. unfold all_of. tauto.
Qed.
(** C12: validation accepts exactly the configurations that are well formed. What that is does not
    use the checks of the validator: names that become paths are single components of plain
    characters, paths that are joined stay below their base, lists of named things have no name
    twice, what refers to a host or a marketplace finds it, addresses, model ids, environment keys,
    permission texts and plugin references have the form that is spelled out, and numbers and
    levels are in the ranges that are listed. *)
Theorem validate_correct c : validate ipnet_ok c = Ok tt ↔ config_ok c.
Proof. apply validate_iff. Qed.
End laws.

(** ** The rewriting proxy under a validated configuration *)

Section proxy.
Context {HY : Yaml} {HH : LaunchProxy.Http} {HJ : JsonText} (ipnet_ok : string → bool) (capacity : N).
Hypothesis Hcapacity : (MAX_PROXY_PATH_INDEX < capacity)%N.

Lemma bounded_path_writes path p v new : path_ok path → parse_path path = Ok p → is_Some (set_path capacity v p new).
Proof.
  intros (q & Hq & Hb) Hp. rewrite Hq in Hp. injection Hp as <-. apply set_path_total.
  eapply Forall_impl; [exact Hb|]. intros [k|i]; [done|]. cbn beta. intros Hi. by eapply N.le_lt_trans.
Qed.
Lemma bounded_rule_runs rule headers body : proxy_rule_ok rule → is_Some (apply_op capacity rule headers body).
Proof.
  intros (Hpath & _). unfold apply_op. destruct (pr_target rule) as [name|path]; [done|].
  specialize (Hpath path eq_refl). unfold apply_body_op.
  destruct (parse_path path) as [p|e] eqn:Ep; [|done].
  destruct (pr_op rule) as [value| |pattern regex].
  - destruct (bounded_path_writes path p body value Hpath Ep) as [b ->]. done.
  - done.
  - destruct (get_path body p ≫= as_str) as [s|]; [|done].
    destruct (bounded_path_writes path p body (JStr (strip_pattern pattern regex s)) Hpath Ep) as [b ->]. done.
Qed.
(** With the rules of a validated configuration the proxy always gets through a request: no
    write of a rule asks for an array longer than the bound of the validator. *)
Theorem validated_rules_run c (headers : header_map) (body : json) :
  validate ipnet_ok c = Ok tt → is_Some (apply_rules capacity (proxy_rules c) headers body).
Proof.
  intros H%validate_iff%ok_proxy%proxy_rules_ok. revert headers body.
  induction H as [|rule rules Hr _ IH]; intros headers body; [done|]. cbn [apply_rules].
  destruct (rule_fires rule headers body); [|apply IH].
  destruct (bounded_rule_runs rule headers body Hr) as [[h b] ->]. apply IH.
Qed.
End proxy.
