(* ===== verification/McpResolve.v ===== *)
(** * The MCP servers of a host (crates/llmenv-mcp/src/resolve.rs, crates/llmenv-paths/src/tilde.rs)

    The servers of the configuration, of the bundles and of the features, as the adapters render
    them. The last section composes the resolver with the validation of the configuration. *)

From S2P Require Import Prelude RustStr Names Ssrf NetAddr Permissions LaunchProxy ConfigSchema.
From S2P Require Import Scope ConfigValidate ConfigLaws.

Inductive ResolvedKind :=
| KStdio (command : string) (args : list string) (env : gmap string string)
| KRemote (url : string) (transport : McpTransport).
Record MemoryHookSettings := mkHookSettings {
  mh_wakeup_max_tokens : option N; mh_adaptive_recall : bool; mh_default_type : option MemoryType;
  mh_default_importance : option ImportanceLevel; mh_global_topics : list string }.
Record ResolvedMcp := mkResolved {
  rm_name : string; rm_kind : ResolvedKind; rm_headers : gmap string string; rm_timeout : option N;
  rm_disabled_tools : list string; rm_mcp_permissions : option McpPermissions;
  rm_memory_hook : option MemoryHookSettings; rm_always_load : option bool }.

Inductive ResolveError :=
| ResolveUnknownServerHost (host : string) | StdioMissingCommand (name : string)
| RemoteMissingUrl (name transport : string) | AmbiguousMemory (hosts : list string)
| AmbiguousCodebaseMemory (tag_sets : list string) | IndexPathUnexpandable (why : tilde_error)
| CleartextPublicAddress (name : string) (addr : IpAddr)
| BundleMcpReservedName (name : string) | BundleMcpInvalidName (name : string)
with tilde_error := HomeMissing (path : string) | HomeNotUnicode (path : string).

(** [expand_tilde_with_env]: [home] is the variable, [None] when it is not UTF-8, empty when it is
    unset. *)
Definition expand_tilde (home : option string) (p : string) : result tilde_error string :=
  match strip_prefix "~" p with
  | Some rest =>
    if bool_decide (rest = "") || starts_with "/" rest then
      match home with
      | None => Err (HomeNotUnicode p)
      | Some home => if decide (home = "") then Err (HomeMissing p) else Ok (home +:+ rest)
      end
    else Ok p
  | None => Ok p
  end.

Definition INDEX_REPOSITORY_TOOL : string := "mcp__codebase-memory-mcp__index_repository".
Definition CODEBASE_MEMORY_MCP_NAME : string := "codebase-memory-mcp".
Definition tag_active (when : list string) (active_tags : gset string) : bool :=
  existsb (λ t, bool_decide (t ∈ active_tags)) when.
Definition memory_is_tag_active (m : Memory) (active_tags : gset string) : bool := tag_active (me_when m) active_tags.
Definition is_valid_mcp_name (name : string) : bool :=
  negb (bool_decide (name = "")) &&
  str_all (λ c, is_ascii_alphanumeric c || Ascii.eqb c "_" || Ascii.eqb c "-") name.
(** The memory server URL: an IPv6 literal needs brackets. *)
Definition is_ipv6 (addr : string) : bool :=
  match read_ipv6 addr with Some (_, rest) => bool_decide (rest = "") | None => false end.
Definition memory_url (addr : string) (port : N) : string :=
  if is_ipv6 addr then "http://[" +:+ addr +:+ "]:" +:+ pretty port +:+ "/mcp"
  else "http://" +:+ addr +:+ ":" +:+ pretty port +:+ "/mcp".

Section resolve.
Context `{Net}.

Definition reject_public_cleartext (name url : string) : result ResolveError unit :=
  match public_cleartext_literal url with
  | Some addr => Err (CleartextPublicAddress name addr)
  | None => Ok tt
  end.
Definition stdio_kind (m : McpServer) : result ResolveError ResolvedKind :=
  command ← ok_or (ms_command m) (StdioMissingCommand (ms_name m));
  Ok (KStdio command (ms_args m) (ms_env m)).
Definition remote_kind (m : McpServer) (transport : McpTransport) : result ResolveError ResolvedKind :=
  url ← ok_or (ms_url m) (RemoteMissingUrl (ms_name m) (transport_name transport));
  reject_public_cleartext (ms_name m) url;;
  Ok (KRemote url transport).
Definition resolve_static (m : McpServer) : result ResolveError ResolvedMcp :=
  kind ← match ms_transport m with Stdio => stdio_kind m | t => remote_kind m t end;
  Ok (mkResolved (ms_name m) kind (ms_headers m) (ms_timeout m) (ms_disabled_tools m) None None (ms_always_load m)).

Definition resolve_memory (mem : Memory) (hosts : gmap string HostEntry) : result ResolveError ResolvedMcp :=
  entry ← ok_or (hosts !! me_server_host mem) (ResolveUnknownServerHost (me_server_host mem));
  let url := memory_url (he_addr entry) (me_port mem) in
  reject_public_cleartext MEMORY_MCP_NAME url;;
  Ok (mkResolved MEMORY_MCP_NAME (KRemote url Http) ∅ None [] (me_mcp_permissions mem)
       (Some (mkHookSettings (me_wakeup_max_tokens mem) (me_adaptive_recall mem) (me_default_type mem)
               (me_default_importance mem) (me_global_topics mem)))
       (Some (default true (me_always_load mem)))).

(** The servers of the configuration that are on, in the order of their declaration. *)
Definition server_active (active_tags : gset string) (m : McpServer) : Prop :=
  ms_disabled m = false ∧ tag_active (ms_when m) active_tags = true.
Definition resolve_mcps (mcp : list McpServer) (memory : list Memory) (host : gmap string HostEntry)
    (active_tags : gset string) : result ResolveError (list ResolvedMcp) :=
  out ← mapM resolve_static (filter (server_active active_tags) mcp);
  match filter (λ m, memory_is_tag_active m active_tags = true) memory with
  | [] => Ok out
  | [mem] => m ← resolve_memory mem host; Ok (out ++ [m])
  | active => Err (AmbiguousMemory (map me_server_host active))
  end.

Definition bundle_active (active_tags : gset string) (m : McpServer) : bool :=
  negb (ms_disabled m) && (bool_decide (ms_when m = []) || tag_active (ms_when m) active_tags).
Fixpoint resolve_bundle_mcps (bundle_mcps : list McpServer) (active_tags : gset string)
  : result ResolveError (list ResolvedMcp) :=
  match bundle_mcps with
  | [] => Ok []
  | m :: rest =>
    if decide (ms_name m = MEMORY_MCP_NAME) then Err (BundleMcpReservedName (ms_name m))
    else if negb (is_valid_mcp_name (ms_name m)) then Err (BundleMcpInvalidName (ms_name m))
    else if bundle_active active_tags m then
      r ← resolve_static m; out ← resolve_bundle_mcps rest active_tags; Ok (r :: out)
    else resolve_bundle_mcps rest active_tags
  end.

Definition resolve_codebase_memory (home : option string) (cm : CodebaseMemory) : result ResolveError ResolvedMcp :=
  env ← match cb_index_path cm with
        | Some p => expanded ← map_err IndexPathUnexpandable (expand_tilde home p);
                    Ok (<["CBM_CACHE_DIR" := expanded]> ∅)
        | None => Ok ∅
        end;
  let env := match cb_mem_budget_mb cm with Some n => <["CBM_MEM_BUDGET_MB" := pretty n]> env | None => env end in
  Ok (mkResolved CODEBASE_MEMORY_MCP_NAME (KStdio "codebase-memory-mcp" [] env) ∅ None [] (cb_mcp_permissions cm) None None).
Definition resolve_codebase_memory_entries (home : option string) (entries : list CodebaseMemory)
    (active_tags : gset string) : result ResolveError (list ResolvedMcp) :=
  match filter (λ c, tag_active (cb_when c) active_tags = true) entries with
  | [] => Ok []
  | [c] => m ← resolve_codebase_memory home c; Ok [m]
  | active => Err (AmbiguousCodebaseMemory (map (λ c, join "," (cb_when c)) active))
  end.

(** ** Laws *)

(** What an adapter may rely on: a remote entry has a transport that can be rendered and does not
    send in the clear to a public address. *)
Definition renderable (r : ResolvedMcp) : Prop :=
  match rm_kind r with KRemote url t => t ≠ Stdio ∧ public_cleartext_literal url = None | KStdio _ _ _ => True end.

Lemma cleartext_passes name url : reject_public_cleartext name url = Ok tt ↔ public_cleartext_literal url = None.
Proof. unfold reject_public_cleartext. by destruct (public_cleartext_literal url). Qed.
Lemma resolve_static_spec m r : resolve_static m = Ok r → renderable r ∧ rm_name r = ms_name m.
Proof.
  unfold resolve_static. intros (kind & Hk & Hr)%result_bind_ok. injection Hr as <-. split; [|done].
  unfold renderable. cbn [rm_kind].
  destruct (ms_transport m) eqn:Et; [unfold stdio_kind in Hk; by destruct (ms_command m); simplify_eq/=|..];
    unfold remote_kind in Hk; apply result_bind_ok in Hk as (url & Hu & Hk);
    apply result_bind_ok in Hk as ([] & Hc & Hk); injection Hk as <-; by apply cleartext_passes in Hc.
Qed.
Lemma resolve_memory_spec mem hosts r : resolve_memory mem hosts = Ok r → renderable r ∧ rm_name r = MEMORY_MCP_NAME.
Proof.
  unfold resolve_memory. intros (e & He & Hr)%result_bind_ok.
  apply result_bind_ok in Hr as ([] & Hc & Hr). injection Hr as <-. by apply cleartext_passes in Hc.
Qed.
Lemma mapM_result_ok {A B E} (f : A → result E B) l k : mapM f l = Ok k ↔ Forall2 (λ a b, f a = Ok b) l k.
Proof.
  revert k. induction l as [|a l IH]; intros k; cbn [mapM].
  - split; [intros [= <-]; constructor|by inversion 1].
  - rewrite result_bind_ok. setoid_rewrite result_bind_ok. split.
    + intros (b & Hb & k' & Hk & E1). injection E1 as <-. constructor; [done|by apply IH].
    + inversion 1 as [|? b ? k' Hb Hk]; subst. exists b. split; [done|]. exists k'. by rewrite IH.
Qed.
Lemma mapM_result_err {A B E} (f : A → result E B) l e : mapM f l = Err e → ∃ a, a ∈ l ∧ f a = Err e.
Proof.
  induction l as [|a l IH]; [done|]. cbn [mapM]. destruct (f a) as [b|e'] eqn:Ea.
  - change (((k ← mapM f l; Ok (b :: k)) = Err e) → ∃ a0, a0 ∈ a :: l ∧ f a0 = Err e).
    destruct (mapM f l) as [k|e'] eqn:El; [done|]. intros [= ->].
    destruct IH as (x & Hx & Hf); [done|]. exists x. split; [by right|done].
  - intros [= ->]. exists a. split; [by left|done].
Qed.

Lemma mcps_spec mcp memory host tags out : resolve_mcps mcp memory host tags = Ok out →
  ∃ static extra, Forall2 (λ m r, resolve_static m = Ok r) (filter (server_active tags) mcp) static ∧
    out = static ++ extra ∧
    ((filter (λ m, memory_is_tag_active m tags = true) memory = [] ∧ extra = []) ∨
     ∃ mem r, filter (λ m, memory_is_tag_active m tags = true) memory = [mem] ∧
       resolve_memory mem host = Ok r ∧ extra = [r]).
Proof.
  unfold resolve_mcps. intros (static & Hs%mapM_result_ok & Hr)%result_bind_ok.
  destruct (filter _ memory) as [|mem [|]]; [..|done].
  - injection Hr as <-. exists static, []. rewrite app_nil_r. split_and!; [done..|by left].
  - apply result_bind_ok in Hr as (r & Hr & E). injection E as <-. exists static, [r].
    split_and!; [done..|]. right. by exists mem, r.
Qed.
(** The servers of a bundle are resolved one by one: none has a reserved or invalid name. *)
Lemma bundle_spec mcps tags out : resolve_bundle_mcps mcps tags = Ok out →
  Forall (λ m, ms_name m ≠ MEMORY_MCP_NAME ∧ is_valid_mcp_name (ms_name m) = true) mcps ∧
  Forall2 (λ m r, resolve_static m = Ok r) (filter (λ m, bundle_active tags m = true) mcps) out.
Proof.
  revert out. induction mcps as [|m mcps IH]; intros out; cbn [resolve_bundle_mcps].
  { intros [= <-]. by split. }
  case_decide as Hn; [done|]. destruct (is_valid_mcp_name (ms_name m)) eqn:Ev; [|done]. cbn [negb].
  rewrite filter_cons. destruct (bundle_active tags m) eqn:Ea.
  - intros (r & Hr & Ho)%result_bind_ok. apply result_bind_ok in Ho as (out' & Ho & E). injection E as <-.
    destruct (IH out' Ho). rewrite decide_True by done. by split; constructor.
  - intros Ho. destruct (IH out Ho). rewrite decide_False by done. by split; [constructor|].
Qed.
Lemma static_renderable l static : Forall2 (λ m r, resolve_static m = Ok r) l static →
  Forall renderable static ∧ map rm_name static = map ms_name l.
Proof.
  induction 1 as [|m r l static Hr _ [IH1 IH2]]; [done|]. apply resolve_static_spec in Hr as [Hr Hn]. split.
  - by constructor.
  - cbn [map]. by rewrite Hn, IH2.
Qed.

(** Whatever the sources are, no resolved server makes an adapter panic or leak: a remote entry
    never has the stdio transport, for which the render has no name, and its URL is not one that
    sends in the clear to a public address. No server of a bundle takes the name of the memory. *)
Theorem resolved_servers_safe (mcp memory_mcp : list McpServer) (memory : list Memory) (host : gmap string HostEntry)
    (home : option string) (cms : list CodebaseMemory) (tags : gset string) :
  (∀ out, resolve_mcps mcp memory host tags = Ok out → Forall renderable out) ∧
  (∀ out, resolve_bundle_mcps mcp tags = Ok out →
    Forall (λ r, renderable r ∧ rm_name r ≠ MEMORY_MCP_NAME) out) ∧
  (∀ out, resolve_codebase_memory_entries home cms tags = Ok out → Forall renderable out ∧ length out ≤ 1).
Proof.
  split_and!; intros out H0.
  - apply mcps_spec in H0 as (static & extra & Hs & -> & He). apply Forall_app. split; [apply (static_renderable _ _ Hs)|].
    destruct He as [[_ ->]|(mem & r & _ & [Hr _]%resolve_memory_spec & ->)]; [done|by constructor].
  - apply bundle_spec in H0 as [Hn Hs]. destruct (static_renderable _ _ Hs) as [Hr En].
    apply Forall_and. split; [done|]. rewrite Forall_forall. intros r Hin E.
    assert (rm_name r ∈ map ms_name (filter (λ m, bundle_active tags m = true) mcp)) as Hm
      by (rewrite <- En; by apply list_elem_of_fmap_2).
    apply list_elem_of_fmap in Hm as (m & Em & [_ Hm]%list_elem_of_filter).
    rewrite Forall_forall in Hn. destruct (Hn m Hm). congruence.
  - unfold resolve_codebase_memory_entries in H0. destruct (filter _ cms) as [|c [|]]; [injection H0 as <-; split; [constructor|cbn; lia]| |done].
    apply result_bind_ok in H0 as (m & Hm & E). injection E as <-. split; [|done]. constructor; [|done].
    unfold resolve_codebase_memory in Hm. apply result_bind_ok in Hm as (env & _ & Hm). by injection Hm as <-.
Qed.
End resolve.

(** ** The servers of a validated configuration *)

Section validated.
Context {HY : Yaml} {HH : LaunchProxy.Http} {HN : Net} (ipnet_ok : string → bool).

Definition feature_memory c : list Memory := match cf_features c with Some f => fe_memory f | None => [] end.

Lemma server_error m e : server_ok m → resolve_static m = Err e → ∃ addr, e = CleartextPublicAddress (ms_name m) addr.
Proof.
  intros (_ & _ & Ht & _). unfold resolve_static, stdio_kind, remote_kind, reject_public_cleartext.
  destruct (ms_transport m); [by destruct (ms_command m), Ht|..];
    destruct (ms_url m) as [url|]; try (by destruct Ht); cbn;
    (destruct (public_cleartext_literal url) as [addr|]; [|done]); intros [= <-]; by eexists.
Qed.
Lemma memory_error host mem e : memory_ok host mem → resolve_memory mem host = Err e →
  ∃ addr, e = CleartextPublicAddress MEMORY_MCP_NAME addr.
Proof.
  intros (_ & [entry Hh] & _). unfold resolve_memory, reject_public_cleartext. rewrite Hh. cbn.
  destruct (public_cleartext_literal _) as [addr|]; [|done]. intros [= <-]. by eexists.
Qed.
Lemma validated_memory c mem : servers_ok c → mem ∈ feature_memory c → memory_ok (cf_host c) mem.
Proof.
  intros (_ & _ & _ & Hf). unfold feature_memory. destruct (cf_features c) as [f|]; [|by intros ?%elem_of_nil].
  destruct (Hf f eq_refl) as [Hm _]. rewrite Forall_forall in Hm. apply Hm.
Qed.
(** The servers of a validated configuration resolve: the only refusals that are left are a
    URL in the clear to a public address and two memory servers whose tags are active at once. When
    they resolve, every active server is there in its order, the names are distinct, and the memory
    server, when there is one, is the last. *)
Theorem validated_servers_resolve c (tags : gset string) :
  validate ipnet_ok c = Ok tt →
  match resolve_mcps (cf_mcp c) (feature_memory c) (cf_host c) tags with
  | Ok out => NoDup (map rm_name out) ∧
      map rm_name out = map ms_name (filter (server_active tags) (cf_mcp c)) ++
        (if decide (filter (λ m, memory_is_tag_active m tags = true) (feature_memory c) = []) then [] else [MEMORY_MCP_NAME])
  | Err e => (∃ name addr, e = CleartextPublicAddress name addr) ∨
      ∃ m1 m2 l, filter (λ m, memory_is_tag_active m tags = true) (feature_memory c) = m1 :: m2 :: l ∧
        e = AmbiguousMemory (map me_server_host (m1 :: m2 :: l))
  end.
Proof.
  intros Hv%validate_iff%ok_servers. pose proof Hv as (Hs & Hd & _).
  destruct (resolve_mcps _ _ _ _) as [out|e] eqn:E.
  - apply mcps_spec in E as (static & extra & Hst & -> & He). destruct (static_renderable _ _ Hst) as [_ En].
    assert (map rm_name extra = if decide (filter (λ m, memory_is_tag_active m tags = true) (feature_memory c) = [])
      then [] else [MEMORY_MCP_NAME]) as Ee.
    { destruct He as [[-> ->]|(mem & r & -> & [_ Hr]%resolve_memory_spec & ->)]; [done|]. cbn [map]. by rewrite Hr. }
    rewrite map_app, En, Ee. split; [|done]. apply NoDup_app.
    split_and!; [|intros name Hn Hm|case_decide; [constructor|apply NoDup_singleton]].
    + eapply sublist_NoDup; [exact Hd|]. apply fmap_sublist, sublist_filter.
    + case_decide; [by apply elem_of_nil in Hm|]. apply list_elem_of_singleton in Hm as ->.
      apply list_elem_of_fmap in Hn as (m & Em & [_ Hm]%list_elem_of_filter).
      rewrite Forall_forall in Hs. by destruct (Hs m Hm) as (_ & Hname & _).
  - unfold resolve_mcps in E. destruct (mapM _ _) as [static|e'] eqn:Em.
    + cbn in E. destruct (filter _ (feature_memory c)) as [|mem [|mem' l]] eqn:Ef; [done|..].
      * left. destruct (resolve_memory mem (cf_host c)) as [r|e'] eqn:Er; [done|]. cbn in E. injection E as ->.
        assert (mem ∈ feature_memory c) as Hin.
        { apply (list_elem_of_filter (λ m, memory_is_tag_active m tags = true)). rewrite Ef. by left. }
        destruct (memory_error _ _ _ (validated_memory c mem Hv Hin) Er) as [addr ->]. by eexists _, _.
      * right. injection E as <-. by eexists _, _, _.
    + left. injection E as ->. apply mapM_result_err in Em as (m & [_ Hm]%list_elem_of_filter & He).
      rewrite Forall_forall in Hs. destruct (server_error _ _ (Hs m Hm) He) as [addr ->]. by eexists _, _.
Qed.
End validated.
