(* ===== verification/ClaudePerms.v ===== *)
(** * The permissions of Claude Code (src/adapter/claude_code/mod.rs, src/adapter/mcp_tiers.rs)

    The rules of the configuration, the native rules of the engine and the tools of the built-in
    servers become three lists of rule strings, and a native fragment of settings is laid over
    them. What a fragment of YAML holds is a parameter ([YamlOps]). *)

From S2P Require Import Prelude RustStr Json JsonMerge Permissions ConfigSchema ConfigValidate ConfigLaws.
From S2P Require Import McpResolve.

(** ** Rule strings *)

Definition normalize_deprecated_tool (rule : string) : string :=
  match strip_prefix "Write" rule with
  | Some rest => if bool_decide (rest = "") || starts_with "(" rest then "Edit" +:+ rest else rule
  | None => rule
  end.
Definition wrap (tool value : string) : string := tool +:+ "(" +:+ value +:+ ")".
Definition render_permission_rule (rule : PermissionRule) : list string :=
  let tool := normalize_deprecated_tool (pm_tool rule) in
  match pm_pattern rule with
  | Some pattern => [wrap tool pattern]
  | None => if decide (pm_paths rule = []) then [tool] else map (wrap tool) (pm_paths rule)
  end.
Definition permission_mode_str (mode : PermissionMode) : string :=
  match mode with
  | AcceptEdits => "acceptEdits" | Plan => "plan" | DefaultMode => "default"
  | BypassPermissions => "bypassPermissions" | Auto => "auto" | DontAsk => "dontAsk" | Manual => "manual"
  end.

(** ** Tiers of the tools of a server *)

Inductive McpTier := ReadOnly | Mutation | Destructive.
Definition tier_action (tier : McpTier) (overrides : option McpPermissions) : McpPermissionAction :=
  let configured :=
    o ← overrides; match tier with ReadOnly => mpe_read_only o | Mutation => mpe_mutation o | Destructive => mpe_destructive o end in
  default (match tier with ReadOnly | Mutation => PAllow | Destructive => PAsk end) configured.

Definition ICM_READ_ONLY : list string :=
  ["icm_wake_up"; "icm_memory_recall"; "icm_memory_related"; "icm_memory_stats"; "icm_memory_health";
   "icm_memory_list_topics"; "icm_feedback_stats"; "icm_feedback_search"; "icm_transcript_search";
   "icm_transcript_stats"; "icm_transcript_show"; "icm_memoir_search"; "icm_memoir_search_all"; "icm_memoir_show";
   "icm_memoir_inspect"; "icm_memoir_export"; "icm_memoir_list"].
Definition ICM_MUTATION : list string :=
  ["icm_memory_store"; "icm_memory_update"; "icm_memory_consolidate"; "icm_memory_embed_all";
   "icm_memory_extract_patterns"; "icm_learn"; "icm_transcript_start_session"; "icm_transcript_record";
   "icm_feedback_record"; "icm_memoir_create"; "icm_memoir_add_concept"; "icm_memoir_refine"; "icm_memoir_link"].
Definition ICM_DESTRUCTIVE : list string := ["icm_memory_forget"; "icm_memory_forget_topic"].
Definition CTX_READ_ONLY : list string := ["ctx_search"; "ctx_stats"; "ctx_doctor"; "ctx_insight"].
Definition CTX_MUTATION : list string :=
  ["ctx_index"; "ctx_execute"; "ctx_execute_file"; "ctx_fetch_and_index"; "ctx_batch_execute"].
Definition CTX_DESTRUCTIVE : list string := ["ctx_purge"; "ctx_upgrade"].
Definition CBM_READ_ONLY : list string :=
  ["search_graph"; "query_graph"; "trace_path"; "get_code_snippet"; "get_file_outline"; "get_graph_schema";
   "compare_graphs"; "get_architecture"; "search_code"; "list_projects"; "index_status"; "check_index_coverage";
   "detect_changes"].
Definition CBM_MUTATION : list string := ["index_repository"; "ingest_traces"].
Definition CBM_DESTRUCTIVE : list string := ["delete_project"; "manage_adr"].

Record PermBuckets := mkBuckets { pb_allow : list string; pb_ask : list string; pb_deny : list string }.
Definition push_bucket (action : McpPermissionAction) (s : string) (b : PermBuckets) : PermBuckets :=
  match action with
  | PAllow => mkBuckets (pb_allow b ++ [s]) (pb_ask b) (pb_deny b)
  | PAsk => mkBuckets (pb_allow b) (pb_ask b ++ [s]) (pb_deny b)
  | PDeny => mkBuckets (pb_allow b) (pb_ask b) (pb_deny b ++ [s])
  end.

(** The native rules that can outrank another source. *)
Record NativeCover := mkCover { nc_deny : list string; nc_ask : list string }.
Definition outranked (cover : NativeCover) (action : McpPermissionAction) (s : string) : bool :=
  match action with
  | PAllow => bool_decide (s ∈ nc_deny cover) || bool_decide (s ∈ nc_ask cover)
  | PAsk => bool_decide (s ∈ nc_deny cover)
  | PDeny => false
  end.
Definition tiers : Type := list (list string * McpTier).
Definition apply_mcp_tier_permissions (prefix : string) (t : tiers) (overrides : option McpPermissions)
    (cover : NativeCover) (b : PermBuckets) : PermBuckets :=
  foldl (λ b tt,
    let action := tier_action tt.2 overrides in
    foldl (λ b tool, if outranked cover action (prefix +:+ tool) then b else push_bucket action (prefix +:+ tool) b)
      b tt.1) b t.

(** ** The three lists *)

Definition render_action (neutral : list PermissionRule) (native_rules : list string) (cover : NativeCover)
    (action : McpPermissionAction) : list string :=
  dedup (filter (λ s, outranked cover action s = false ∨ s ∈ native_rules) (neutral ≫= render_permission_rule)
         ++ native_rules).
Definition normalize_native (native : option NativePermissionRules) (select : NativePermissionRules → list string)
  : list string :=
  match native with Some n => map normalize_deprecated_tool (select n) | None => [] end.

Definition ICM_MCP_PREFIX : string := "mcp__icm__".
Definition CBM_MCP_PREFIX : string := "mcp__codebase-memory-mcp__".
Definition CONTEXT_MODE_MCP_PREFIX : string := "mcp__plugin_context-mode_context-mode__".
Definition CONTEXT_MODE_PLUGIN : string * string := ("context-mode", "context-mode").

(** What the merged manifest says of permissions: the plugins by marketplace and name, the servers
    by name with the override of their tiers. *)
Record PermSource := mkPermSource {
  ps_permissions : Permissions; ps_native : option NativePermissionRules; ps_features : option Features;
  ps_plugins : list (string * string); ps_mcps : list (string * option McpPermissions) }.
Definition context_mode_override (f : option Features) : option McpPermissions :=
  f ← f; c ← fe_context_mode f; cm_mcp_permissions c.
Definition tiered_servers (m : PermSource) : list (string * tiers * option McpPermissions) :=
  let server name := find_first (λ s : string * option McpPermissions, s.1 = name) (ps_mcps m) in
  (if decide (CONTEXT_MODE_PLUGIN ∈ ps_plugins m) then
     [(CONTEXT_MODE_MCP_PREFIX, [(CTX_READ_ONLY, ReadOnly); (CTX_MUTATION, Mutation); (CTX_DESTRUCTIVE, Destructive)],
       context_mode_override (ps_features m))] else []) ++
  match server MEMORY_MCP_NAME with
  | Some (_, o) =>
    [(ICM_MCP_PREFIX, [(ICM_READ_ONLY, ReadOnly); (ICM_MUTATION, Mutation); (ICM_DESTRUCTIVE, Destructive)], o)]
  | None => []
  end ++
  match server CODEBASE_MEMORY_MCP_NAME with
  | Some (_, o) =>
    [(CBM_MCP_PREFIX, [(CBM_READ_ONLY, ReadOnly); (CBM_MUTATION, Mutation); (CBM_DESTRUCTIVE, Destructive)], o)]
  | None => []
  end.

Definition settle (b : PermBuckets) : PermBuckets :=
  let allow := dedup (pb_allow b) in
  let ask := dedup (pb_ask b) in
  let deny := dedup (pb_deny b) in
  let ask := filter (λ s, s ∉ deny) ask in
  let allow := filter (λ s, s ∉ deny) allow in
  mkBuckets (filter (λ s, s ∉ ask) allow) ask deny.
Definition permission_buckets (m : PermSource) : PermBuckets :=
  let perms := ps_permissions m in
  let native_allow := normalize_native (ps_native m) n_allow in
  let native_ask := normalize_native (ps_native m) n_ask in
  let native_deny := normalize_native (ps_native m) n_deny in
  let cover := mkCover native_deny native_ask in
  let rendered := mkBuckets (render_action (p_allow perms) native_allow cover PAllow)
    (render_action (p_ask perms) native_ask cover PAsk) (render_action (p_deny perms) native_deny cover PDeny) in
  settle (foldl (λ b pto, let '(prefix, t, o) := pto in apply_mcp_tier_permissions prefix t o cover b)
    rendered (tiered_servers m)).

(** The object of the settings, when there is anything to say. *)
Definition permissions_value (m : PermSource) : option json :=
  let b := permission_buckets m in
  let mode := p_default_mode (ps_permissions m) in
  if decide (pb_allow b = [] ∧ pb_ask b = [] ∧ pb_deny b = [] ∧ mode = None) then None
  else
    let o := <["allow" := json_strings (pb_allow b)]> (<["ask" := json_strings (pb_ask b)]>
      (<["deny" := json_strings (pb_deny b)]> ∅)) in
    Some (JObj (match mode with Some mode => <["defaultMode" := JStr (permission_mode_str mode)]> o | None => o end)).

(** ** What the lists hold *)

Definition bucket (action : McpPermissionAction) (b : PermBuckets) : list string :=
  match action with PAllow => pb_allow b | PAsk => pb_ask b | PDeny => pb_deny b end.
Definition neutral_rules (m : PermSource) (action : McpPermissionAction) : list PermissionRule :=
  match action with
  | PAllow => p_allow (ps_permissions m) | PAsk => p_ask (ps_permissions m) | PDeny => p_deny (ps_permissions m)
  end.
Definition native_rules (m : PermSource) (action : McpPermissionAction) : list string :=
  normalize_native (ps_native m) (match action with PAllow => n_allow | PAsk => n_ask | PDeny => n_deny end).
Definition tier_tool (t : tiers) (o : option McpPermissions) (prefix : string) (action : McpPermissionAction) (s : string) : Prop :=
  ∃ tools tier, (tools, tier) ∈ t ∧ tier_action tier o = action ∧ ∃ tool, tool ∈ tools ∧ s = prefix +:+ tool.
(** Some source of the configuration asks for [action] on the rule [s]. *)
Definition requested (m : PermSource) (action : McpPermissionAction) (s : string) : Prop :=
  (∃ rule, rule ∈ neutral_rules m action ∧ s ∈ render_permission_rule rule) ∨ s ∈ native_rules m action ∨
  ∃ prefix t o, (prefix, t, o) ∈ tiered_servers m ∧ tier_tool t o prefix action s.

Lemma bucket_push a a' s x b : s ∈ bucket a (push_bucket a' x b) ↔ s ∈ bucket a b ∨ a = a' ∧ s = x.
Proof. destruct a, a'; cbn [bucket push_bucket pb_allow pb_ask pb_deny]; rewrite ?elem_of_app, ?list_elem_of_singleton; naive_solver. Qed.
Lemma bucket_tools a s prefix action cover tools b :
  s ∈ bucket a (foldl (λ b tool, if outranked cover action (prefix +:+ tool) then b else push_bucket action (prefix +:+ tool) b) b tools) ↔
  s ∈ bucket a b ∨ a = action ∧ outranked cover action s = false ∧ ∃ tool, tool ∈ tools ∧ s = prefix +:+ tool.
Proof.
  revert b. induction tools as [|tool tools IH]; intros b; cbn [foldl].
  { split; [by left|]. intros [H|(_ & _ & ? & H & _)]; [done|]. by apply not_elem_of_nil in H. }
  rewrite IH. setoid_rewrite elem_of_cons. destruct (outranked cover action (prefix +:+ tool)) eqn:E.
  - naive_solver congruence.
  - rewrite bucket_push. naive_solver.
Qed.
Lemma bucket_tiers a s prefix t o cover b :
  s ∈ bucket a (apply_mcp_tier_permissions prefix t o cover b) ↔
  s ∈ bucket a b ∨ outranked cover a s = false ∧ tier_tool t o prefix a s.
Proof.
  unfold apply_mcp_tier_permissions, tier_tool. revert b. induction t as [|[tools tier] t IH]; intros b; cbn [foldl].
  { split; [by left|]. intros [H|(_ & ? & ? & H & _)]; [done|]. by apply not_elem_of_nil in H. }
  rewrite IH, bucket_tools. setoid_rewrite elem_of_cons. cbn [fst snd]. naive_solver.
Qed.
Lemma bucket_servers a s cover l b :
  s ∈ bucket a (foldl (λ b pto, let '(prefix, t, o) := pto in apply_mcp_tier_permissions prefix t o cover b) b l) ↔
  s ∈ bucket a b ∨ outranked cover a s = false ∧ ∃ prefix t o, (prefix, t, o) ∈ l ∧ tier_tool t o prefix a s.
Proof.
  revert b. induction l as [|[[prefix t] o] l IH]; intros b; cbn [foldl].
  { split; [by left|]. intros [H|(_ & ? & ? & ? & H & _)]; [done|]. by apply not_elem_of_nil in H. }
  rewrite IH, bucket_tiers. setoid_rewrite elem_of_cons. naive_solver.
Qed.
Lemma elem_of_render_action neutral native cover action s :
  s ∈ render_action neutral native cover action ↔
  s ∈ native ∨ outranked cover action s = false ∧ ∃ rule, rule ∈ neutral ∧ s ∈ render_permission_rule rule.
Proof.
  unfold render_action. rewrite elem_of_dedup, elem_of_app, list_elem_of_filter, list_elem_of_bind. naive_solver.
Qed.

Lemma elem_of_settle b a s : s ∈ bucket a (settle b) ↔
  s ∈ bucket a b ∧ match a with
    | PDeny => True | PAsk => s ∉ pb_deny b | PAllow => s ∉ pb_deny b ∧ s ∉ pb_ask b end.
Proof.
  unfold settle. destruct a; cbn [bucket pb_allow pb_ask pb_deny]; rewrite ?list_elem_of_filter, ?elem_of_dedup; tauto.
Qed.

(** C16: every rule of the settings has the most restrictive effect that a source asks for it, and
    each rule is in one list, once: what any source denies is denied, what is asked for and not
    denied is asked, and what is allowed is neither. *)
Theorem permission_buckets_correct (m : PermSource) (s : string) :
  let b := permission_buckets m in
  (s ∈ pb_deny b ↔ requested m PDeny s) ∧
  (s ∈ pb_ask b ↔ requested m PAsk s ∧ ¬ requested m PDeny s) ∧
  (s ∈ pb_allow b ↔ requested m PAllow s ∧ ¬ requested m PAsk s ∧ ¬ requested m PDeny s) ∧
  NoDup (pb_allow b) ∧ NoDup (pb_ask b) ∧ NoDup (pb_deny b).
Proof.
  cbn zeta. unfold permission_buckets. set (cover := mkCover _ _).
  set (loaded := foldl _ _ _).
  assert (H : ∀ a, s ∈ bucket a loaded ↔ s ∈ native_rules m a ∨ outranked cover a s = false ∧ requested m a s).
  { intros a. unfold loaded. rewrite bucket_servers. unfold requested.
    destruct a; cbn [bucket pb_allow pb_ask pb_deny]; rewrite elem_of_render_action; cbn [neutral_rules native_rules]; tauto. }
  assert (Hn : ∀ a, s ∈ native_rules m a → requested m a s) by (intros a Ha; right; by left).
  assert (Hdeny : s ∈ bucket PDeny loaded ↔ requested m PDeny s).
  { rewrite H. cbn [outranked]. split; [|by right]. intros [|[]]; auto. }
  assert (Hask : outranked cover PAsk s = false ∨ requested m PDeny s).
  { cbn [outranked]. case_bool_decide as Hd; [right|by left]. by apply (Hn PDeny). }
  assert (Hallow : outranked cover PAllow s = false ∨ requested m PDeny s ∨ requested m PAsk s).
  { cbn [outranked]. case_bool_decide as Hd; [right; left; by apply (Hn PDeny)|].
    case_bool_decide as Ha; [right; right; by apply (Hn PAsk)|by left]. }
  pose proof (elem_of_settle loaded PDeny s) as E1. pose proof (elem_of_settle loaded PAsk s) as E2.
  pose proof (elem_of_settle loaded PAllow s) as E3. cbn [bucket] in *.
  pose proof (H PAsk) as Ha. pose proof (H PAllow) as Hl. cbn [bucket] in *.
  pose proof (Hn PAsk). pose proof (Hn PAllow).
  split_and!; [tauto..| | |]; unfold settle; cbn [pb_allow pb_ask pb_deny];
    repeat apply NoDup_filter; apply NoDup_dedup.
Qed.

(** ** The native fragment of permissions *)

(** serde_yaml: the entry of a mapping, a mapping without an entry, and the value as JSON. *)
Class YamlOps `{Yaml} := {
  yaml_get : string → yaml_value → option yaml_value;
  yaml_remove : string → yaml_value → yaml_value;
  yaml_json : yaml_value → option json }.
(** [yaml_remove] takes out its key and nothing else. *)
Class YamlLaws `{YamlOps} := {
  get_removed k v : yaml_get k (yaml_remove k v) = None;
  get_other k k' v : k ≠ k' → yaml_get k (yaml_remove k' v) = yaml_get k v }.

Definition array_strings (v : json) : list string := match v with JArr l => omap as_str l | _ => [] end.
Definition strings_of (key : string) (perms : gmap string json) : list string :=
  match perms !! key with Some v => array_strings v | None => [] end.
Definition kept (drop : list string) (v : json) : bool :=
  match as_str v with Some s => negb (bool_decide (s ∈ drop)) | None => true end.
Definition retain_not (key : string) (drop : list string) (perms : gmap string json) : gmap string json :=
  match perms !! key with
  | Some (JArr l) => <[key := JArr (filter (λ v, kept drop v = true) l)]> perms
  | _ => perms
  end.
Definition apply_permission_authority (perms : gmap string json) : gmap string json :=
  let deny := strings_of "deny" perms in
  let perms := retain_not "allow" deny (retain_not "ask" deny perms) in
  retain_not "allow" (strings_of "ask" perms) perms.

Definition merged_value (key : string) (value : json) (old : option json) : json :=
  if decide (key ∈ ["allow"; "ask"; "deny"]) then
    let old := match old with Some v => array_strings v | None => [] end in
    json_strings (dedup (old ++ map normalize_deprecated_tool (array_strings value)))
  else value.
Inductive native_perm_error := NotJson | DefaultModeNotAccepted.
Definition object_of (v : option json) : gmap string json := default ∅ (v ≫= as_object).

Section native.
Context `{YamlOps}.

Definition merge_native_permissions (settings : gmap string json) (fragment : option yaml_value)
  : result native_perm_error (gmap string json * option yaml_value) :=
  match fragment with
  | None => Ok (settings, None)
  | Some fragment =>
    match yaml_get "permissions" fragment with
    | None => Ok (settings, Some fragment)
    | Some native_perms =>
      native ← ok_or (yaml_json native_perms) NotJson;
      let native := object_of (Some native) in
      let rendered := object_of (settings !! "permissions") in
      if decide (is_Some (native !! "defaultMode")) then Err DefaultModeNotAccepted
      else
        let merged := foldl (λ o kv, <[kv.1 := merged_value kv.1 kv.2 (o !! kv.1)]> o) rendered (btree_entries native) in
        Ok (<["permissions" := JObj (apply_permission_authority merged)]> settings,
            Some (yaml_remove "permissions" fragment))
    end
  end.
End native.

(** [starting_permission_mode]: the mode and the rule that gave it. *)
Inductive mode_reason := SetBySettings | AutoDisabled | BuiltIn.
Definition says_disable (v : option json) : bool := bool_decide (v = Some (JStr "disable")).
Definition starting_permission_mode (settings : json) : result json (string * mode_reason) :=
  let in_permissions key := p ← json_get "permissions" settings; json_get key p in
  match in_permissions "defaultMode" with
  | Some (JStr mode) => Ok (mode, SetBySettings)
  | Some v => Err v
  | None =>
    if says_disable (json_get "disableAutoMode" settings) || says_disable (in_permissions "disableAutoMode")
    then Ok ("default", AutoDisabled) else Ok ("auto", BuiltIn)
  end.

(** ** What a fragment can do *)

Lemma fold_entries_lookup (f : string → json → option json → json) l (o : gmap string json) k :
  NoDup (map fst l) →
  (∀ v, (k, v) ∈ l → foldl (λ o kv, <[kv.1 := f kv.1 kv.2 (o !! kv.1)]> o) o l !! k = Some (f k v (o !! k))) ∧
  (k ∉ map fst l → foldl (λ o kv, <[kv.1 := f kv.1 kv.2 (o !! kv.1)]> o) o l !! k = o !! k).
Proof.
  revert o. induction l as [|[k' v'] l IH]; intros o Hd; cbn [foldl map fst snd] in *.
  { split; [intros v Hv; by apply not_elem_of_nil in Hv|done]. }
  apply NoDup_cons in Hd as [Hk' Hd]. destruct (IH (<[k' := f k' v' (o !! k')]> o) Hd) as [H1 H2]. split.
  - intros v [[= -> ->]|Hv]%elem_of_cons.
    + rewrite H2 by done. by rewrite lookup_insert_eq.
    + rewrite (H1 v Hv), lookup_insert_ne; [done|]. intros ->. apply Hk'. by apply (list_elem_of_fmap_2 fst l (k, v)).
  - intros Hk. rewrite not_elem_of_cons in Hk. destruct Hk as [Hne Hk]. rewrite H2 by done. by apply lookup_insert_ne.
Qed.
Lemma btree_keys_NoDup {A} (m : gmap string A) : NoDup (map fst (btree_entries m)).
Proof.
  change (map fst (btree_entries m)) with ((btree_entries m).*1). rewrite (btree_entries_perm m).
  apply NoDup_fst_map_to_list.
Qed.
Lemma merged_lookup (native rendered : gmap string json) k :
  foldl (λ o kv, <[kv.1 := merged_value kv.1 kv.2 (o !! kv.1)]> o) rendered (btree_entries native) !! k =
  match native !! k with Some v => Some (merged_value k v (rendered !! k)) | None => rendered !! k end.
Proof.
  destruct (fold_entries_lookup merged_value (btree_entries native) rendered k (btree_keys_NoDup native)) as [H1 H2].
  destruct (native !! k) as [v|] eqn:E.
  - by apply H1, elem_of_btree.
  - apply H2. intros ([k' v] & Ek & Hv%elem_of_btree)%list_elem_of_fmap. cbn in Ek. congruence.
Qed.
Lemma array_strings_json l : array_strings (json_strings l) = l.
Proof. cbn. induction l as [|s l IH]; [done|]. cbn. by f_equal. Qed.

Lemma retain_not_strings key drop perms k s : s ∈ strings_of k (retain_not key drop perms) ↔
  s ∈ strings_of k perms ∧ (k = key → s ∉ drop).
Proof.
  unfold retain_not, strings_of. destruct (decide (k = key)) as [->|N].
  - destruct (perms !! key) as [[| | | |l|]|] eqn:E; rewrite ?lookup_insert_eq, ?E; cbn [array_strings];
      try (rewrite elem_of_nil; tauto).
    rewrite !list_elem_of_omap. setoid_rewrite list_elem_of_filter. unfold kept.
    split.
    + intros (v & (Hk & Hv) & Es). rewrite Es in Hk. apply negb_true_iff, bool_decide_eq_false in Hk. naive_solver.
    + intros [(v & Hv & Es) Hd]. exists v. rewrite Es. split_and!; [|done|done].
      apply negb_true_iff, bool_decide_eq_false. by apply Hd.
  - assert (match perms !! key with Some (JArr l) => <[key := JArr (filter (λ v, kept drop v = true) l)]> perms
      | _ => perms end !! k = perms !! k) as ->; [|tauto].
    destruct (perms !! key) as [[| | | | |]|]; try done. by apply lookup_insert_ne.
Qed.
Lemma retain_not_ne key drop perms k : k ≠ key → retain_not key drop perms !! k = perms !! k.
Proof. intros N. unfold retain_not. destruct (perms !! key) as [[]|]; try done. by apply lookup_insert_ne. Qed.
Lemma authority_strings perms s :
  (s ∈ strings_of "deny" (apply_permission_authority perms) ↔ s ∈ strings_of "deny" perms) ∧
  (s ∈ strings_of "ask" (apply_permission_authority perms) ↔ s ∈ strings_of "ask" perms ∧ s ∉ strings_of "deny" perms) ∧
  (s ∈ strings_of "allow" (apply_permission_authority perms) ↔
   s ∈ strings_of "allow" perms ∧ s ∉ strings_of "deny" perms ∧ s ∉ strings_of "ask" perms).
Proof. 
  unfold apply_permission_authority. rewrite !retain_not_strings. split_and!; [naive_solver..|].
  destruct (decide (s ∈ strings_of "deny" perms)); naive_solver.
Qed.

Section native_laws.
Context `{YamlOps}.

(** The rules that a fragment brings, per list. *)
Definition fragment_rules (fragment : yaml_value) (key : string) : list string :=
  match p ← yaml_get "permissions" fragment; v ← yaml_json p; o ← as_object v; o !! key with
  | Some v => map normalize_deprecated_tool (array_strings v)
  | None => []
  end.

Lemma merged_strings key (native rendered : gmap string json) s : key ∈ ["allow"; "ask"; "deny"] →
  s ∈ strings_of key (foldl (λ o kv, <[kv.1 := merged_value kv.1 kv.2 (o !! kv.1)]> o) rendered (btree_entries native)) ↔
  s ∈ strings_of key rendered ∨
  s ∈ match native !! key with Some v => map normalize_deprecated_tool (array_strings v) | None => [] end.
Proof.
  intros Hkey. unfold strings_of. rewrite merged_lookup. destruct (native !! key) as [v|].
  - unfold merged_value. rewrite decide_True by done. rewrite array_strings_json, elem_of_dedup, elem_of_app. done.
  - destruct (rendered !! key); rewrite elem_of_nil; tauto.
Qed.

(** C17: a native fragment over settings that hold permissions can add rules but takes no
    restriction away. What was denied is still denied; what was asked is asked or denied; what is
    allowed afterwards was allowed before or is allowed by the fragment, and no rule of the
    fragment's deny list is allowed or asked. The permission mode and every other setting stay. The
    fragment that is handed on for the overlay has no permissions, so that these cannot be laid
    over the result again, and every other key of it is unchanged. *)
Theorem native_permissions_safe `{!YamlLaws} (settings settings' : gmap string json) (fragment : yaml_value) rest perms :
  settings !! "permissions" = Some (JObj perms) →
  merge_native_permissions settings (Some fragment) = Ok (settings', rest) →
  (∃ r, rest = Some r ∧ yaml_get "permissions" r = None ∧ ∀ k, k ≠ "permissions" → yaml_get k r = yaml_get k fragment) ∧
  ∃ after, settings' !! "permissions" = Some (JObj after) ∧
    (∀ s, s ∈ strings_of "deny" perms ∨ s ∈ fragment_rules fragment "deny" ↔ s ∈ strings_of "deny" after) ∧
    (∀ s, s ∈ strings_of "ask" perms → s ∈ strings_of "ask" after ∨ s ∈ strings_of "deny" after) ∧
    (∀ s, s ∈ strings_of "allow" after → s ∈ strings_of "allow" perms ∨ s ∈ fragment_rules fragment "allow") ∧
    (∀ s, s ∈ fragment_rules fragment "deny" → s ∉ strings_of "ask" after ∧ s ∉ strings_of "allow" after) ∧
    after !! "defaultMode" = perms !! "defaultMode" ∧
    (∀ k, k ≠ "permissions" → settings' !! k = settings !! k).
Proof.
  intros Hp. unfold merge_native_permissions, fragment_rules.
  destruct (yaml_get "permissions" fragment) as [np|] eqn:Eg; cbn [mbind option_bind].
  2: { intros [= <- <-]. split; [by exists fragment|]. exists perms. split_and!; try done; intros s; rewrite ?elem_of_nil; tauto. }
  destruct (yaml_json np) as [v|]; [|done]. cbn [ok_or mbind result_bind option_bind].
  replace (object_of (Some v)) with (default ∅ (as_object v)) by done. rewrite Hp.
  replace (object_of (Some (JObj perms))) with perms by done.
  case_decide as Hm; [done|]. intros [= <- <-].
  split; [eexists; split; [done|]; split; [apply get_removed|by intros; apply get_other]|]. set (native := default ∅ (as_object v)) in *.
  set (merged := foldl _ _ _). exists (apply_permission_authority merged). rewrite lookup_insert_eq.
  assert (Hr : ∀ key, match o ← as_object v; o !! key with
    | Some w => map normalize_deprecated_tool (array_strings w) | None => [] end =
    match native !! key with Some w => map normalize_deprecated_tool (array_strings w) | None => [] end).
  { intros key. unfold native. destruct (as_object v); [done|]. cbn. by rewrite lookup_empty. }
  rewrite !Hr. split; [done|].
  assert (Hs : ∀ key s, key ∈ ["allow"; "ask"; "deny"] → s ∈ strings_of key merged ↔ s ∈ strings_of key perms ∨
    s ∈ match native !! key with Some w => map normalize_deprecated_tool (array_strings w) | None => [] end)
    by (intros; by apply merged_strings).
  assert (Hk1 : "deny" ∈ ["allow"; "ask"; "deny"]) by (by apply (bool_decide_unpack _)).
  assert (Hk2 : "ask" ∈ ["allow"; "ask"; "deny"]) by (by apply (bool_decide_unpack _)).
  assert (Hk3 : "allow" ∈ ["allow"; "ask"; "deny"]) by (by apply (bool_decide_unpack _)).
  split_and!.
  - intros s. destruct (authority_strings merged s) as (E & _ & _). by rewrite E, Hs.
  - intros s Hin. destruct (authority_strings merged s) as (E1 & E2 & _). rewrite E1, E2.
    rewrite (Hs "ask" s Hk2). destruct (decide (s ∈ strings_of "deny" merged)); tauto.
  - intros s. destruct (authority_strings merged s) as (_ & _ & E). rewrite E, (Hs "allow" s Hk3). tauto.
  - intros s Hin. destruct (authority_strings merged s) as (_ & E2 & E3). rewrite E2, E3, (Hs "deny" s Hk1). tauto.
  - unfold apply_permission_authority. rewrite !retain_not_ne by done. unfold merged. rewrite merged_lookup.
    apply eq_None_not_Some in Hm. by rewrite Hm.
  - intros k Hk. by rewrite lookup_insert_ne.
Qed.
End native_laws.

(** ** Rule strings and their parentheses *)

Lemma balanced_prefix d tool s : str_all (λ c, negb (Ascii.eqb c "\" || Ascii.eqb c "(" || Ascii.eqb c ")")) tool = true →
  balanced_from d false (tool +:+ s) = balanced_from d false s.
Proof.
  induction tool as [|c tool IH]; cbn [str_all]; [done|]. intros [Hc Ht]%andb_true_iff.
  rewrite str_app_cons. cbn [balanced_from]. destruct (Ascii.eqb c "\"), (Ascii.eqb c "("), (Ascii.eqb c ")"); try done.
  by apply IH.
Qed.
(** A rule with balanced text is balanced as the string [Tool(text)], unless the text ends in a
    backslash of its own: then the backslash takes the closing parenthesis out and the string is
    refused by the same test that accepted the text. *)
Theorem wrapped_rule_balanced (tool value : string) :
  str_all (λ c, negb (Ascii.eqb c "\" || Ascii.eqb c "(" || Ascii.eqb c ")")) tool = true →
  has_balanced_parens value = true →
  has_balanced_parens (wrap tool value) = negb (dangling false value).
Proof.
  intros Ht Hv. unfold has_balanced_parens, wrap. rewrite balanced_prefix by done.
  change ("(" +:+ value +:+ ")") with (String "(" (value +:+ ")")). cbn [balanced_from Ascii.eqb Bool.eqb].
  rewrite balanced_from_app by done. by destruct (dangling false value).
Qed.
