(* ===== verification/ClaudeJson.v ===== *)
(** * The MCP servers in .claude.json (src/adapter/claude_code/mod.rs 462-476 and 652-956,
    src/adapter/remote_transport.rs)

    Claude Code owns the file and llmenv adds its servers to it: the entries of the configuration
    are written, the ones that llmenv wrote before and no longer has are taken out, and everything
    else stays. A companion file holds the names that llmenv wrote. *)

From S2P Require Import Prelude RustStr Json JsonMerge Permissions LaunchProxy Ssrf ConfigSchema.
From S2P Require Import McpResolve ClaudePerms.

(** [remote_transport_type_str]: [None] is its [unreachable!]. *)
Definition remote_transport_type_str (t : McpTransport) : option string :=
  match t with Sse => Some "sse" | Http => Some "http" | Stdio => None end.

Inductive claude_error :=
| Panics (name : string) | ServerConflict (name : string) (first second : nat) | NativeNotJson
| ClaudeNotJson | ClaudeNotObject | ClaudeUnreadable | WriteFailed (file : string).

Definition render_entry (m : ResolvedMcp) : result claude_error json :=
  o ← match rm_kind m with
      | KStdio command args env =>
        Ok (put_if (negb (bool_decide (env = ∅))) "env" (json_map env)
             (<["command" := JStr command]> (<["args" := json_strings args]> ∅)))
      | KRemote url transport =>
        t ← ok_or (remote_transport_type_str transport) (Panics (rm_name m));
        Ok (put_some "timeout" json_nat (rm_timeout m)
             (put_if (negb (bool_decide (rm_headers m = ∅))) "headers" (json_map (rm_headers m))
               (<["type" := JStr t]> (<["url" := JStr url]> ∅))))
      end;
  Ok (JObj (put_some "alwaysLoad" JBool (rm_always_load m) o)).
Fixpoint build_from (idx : nat) (sources : gmap string nat) (servers : gmap string json) (mcps : list ResolvedMcp)
  : result claude_error (gmap string json) :=
  match mcps with
  | [] => Ok servers
  | m :: mcps =>
    entry ← render_entry m;
    match sources !! rm_name m, servers !! rm_name m with
    | Some prev, Some existing =>
      if decide (existing ≠ entry) then Err (ServerConflict (rm_name m) prev idx)
      else build_from (S idx) (<[rm_name m := idx]> sources) (<[rm_name m := entry]> servers) mcps
    | _, _ => build_from (S idx) (<[rm_name m := idx]> sources) (<[rm_name m := entry]> servers) mcps
    end
  end.
Definition build_mcp_servers (mcps : list ResolvedMcp) : result claude_error (gmap string json) := build_from 0 ∅ ∅ mcps.

Definition RENDERED_ENTRY_KEYS : list string :=
  ["type"; "command"; "args"; "env"; "url"; "headers"; "timeout"; "alwaysLoad"].
(** The keys of an existing entry that come back into the rendered one. *)
Definition carry_runtime_keys (existing new_obj : gmap string json) (nulled : gset string) : gmap string json :=
  new_obj ∪ filter (λ kv, kv.1 ∉ nulled ∧ kv.1 ∉ RENDERED_ENTRY_KEYS) existing.

(** The files: the document of Claude Code and the names that llmenv wrote. *)
Inductive on_disk := Absent | Unreadable | NotJson | Doc (v : json).
Inductive owned_file := NoOwned | BadOwned | OwnedNames (l : list string).
Global Instance owned_file_eq_dec : EqDecision owned_file.
Proof. solve_decision. Defined.
Inductive warning := OwnedIgnored | OwnedNotRemoved.
Record Files := mkFiles { f_claude : on_disk; f_owned : owned_file; f_warnings : list warning }.

Definition entries_at (key : string) (v : json) : gmap string json := default ∅ (json_get key v ≫= as_object).
(** The keys that the native overlay set to null in the entry of a server. *)
Definition nulled_keys (doc : json) (name : string) : gset string :=
  match entries_at "mcpServers" doc !! name with
  | Some (JObj e) => dom (filter (λ kv : string * json, kv.2 = JNull) e)
  | _ => ∅
  end.

(** The servers of the document after the merge. *)
Definition merge_servers (servers_val : json) (llmenv_servers : gmap string json) (nulled : string → gset string)
    (previously_owned : gset string) : gmap string json :=
  match servers_val with
  | JObj servers_obj =>
    let kept := filter (λ kv : string * json, ¬ (kv.1 ∈ previously_owned ∧ llmenv_servers !! kv.1 = None)) servers_obj in
    map_imap (λ name entry, Some match kept !! name, entry with
        | Some (JObj existing), JObj new_obj => JObj (carry_runtime_keys existing new_obj (nulled name))
        | _, _ => entry
        end) llmenv_servers ∪ kept
  | _ => llmenv_servers
  end.

Section merge.
Context `{YamlOps} (claude_writes owned_writes owned_removes : bool).

Definition overlay_native (dst : json) (fragment : option yaml_value) : result claude_error json :=
  match fragment with
  | Some frag => as_json ← ok_or (yaml_json frag) NativeNotJson; Ok (merge_json dst as_json)
  | None => Ok dst
  end.
(** The servers that llmenv writes, and which of their keys are to be gone. *)
Definition rendered_servers (mcps : list ResolvedMcp) (native : option yaml_value)
  : result claude_error (gmap string json * (string → gset string)) :=
  servers ← build_mcp_servers mcps;
  doc ← overlay_native (JObj {[ "mcpServers" := JObj servers ]}) native;
  Ok (entries_at "mcpServers" (strip_json_nulls doc), nulled_keys doc).

Definition warn (w : warning) : ST Files claude_error unit :=
  st_put (λ f, mkFiles (f_claude f) (f_owned f) (f_warnings f ++ [w])).
Definition read_owned_servers : ST Files claude_error (gset string) :=
  owned ← st_get f_owned;
  match owned with
  | NoOwned => mret ∅
  | BadOwned => warn OwnedIgnored;; mret ∅
  | OwnedNames l => mret (list_to_set l)
  end.
Definition read_claude_json : ST Files claude_error json :=
  claude ← st_get f_claude;
  match claude with
  | Absent => mret (JObj ∅)
  | Unreadable => st_fail ClaudeUnreadable
  | NotJson => st_fail ClaudeNotJson
  | Doc v => mret v
  end.
Definition write_claude (v : json) : ST Files claude_error unit :=
  if claude_writes then st_put (λ f, mkFiles (Doc v) (f_owned f) (f_warnings f)) else st_fail (WriteFailed ".claude.json").
Definition write_owned (names : list string) : ST Files claude_error unit :=
  if decide (names = []) then
    owned ← st_get f_owned;
    if decide (owned = NoOwned) then mret tt
    else if owned_removes then st_put (λ f, mkFiles (f_claude f) NoOwned (f_warnings f)) else warn OwnedNotRemoved
  else if owned_writes then st_put (λ f, mkFiles (f_claude f) (OwnedNames names) (f_warnings f))
  else st_fail (WriteFailed ".claude.json.llmenv-owned").

Definition merge_mcp_into_claude_json (mcps : list ResolvedMcp) (native : option yaml_value)
  : ST Files claude_error unit :=
  '(llmenv_servers, nulled) ← st_lift (rendered_servers mcps native);
  previously_owned ← read_owned_servers;
  if decide (llmenv_servers = ∅ ∧ previously_owned = ∅) then mret tt
  else
    claude ← read_claude_json;
    match claude with
    | JObj obj =>
      let servers := merge_servers (default (JObj ∅) (obj !! "mcpServers")) llmenv_servers nulled previously_owned in
      write_claude (JObj (<["mcpServers" := JObj servers]> obj));;
      write_owned (map fst (btree_entries llmenv_servers))
    | _ => st_fail ClaudeNotObject
    end.
End merge.

(** ** Laws *)

(** The files as they are read: a document that is missing is an empty object. *)
Definition claude_obj (f : Files) : option (gmap string json) :=
  match f_claude f with Absent => Some ∅ | Doc (JObj o) => Some o | _ => None end.
Definition owned_names (f : Files) : gset string :=
  match f_owned f with OwnedNames l => list_to_set l | _ => ∅ end.

Lemma lookup_carry existing new nulled k :
  carry_runtime_keys existing new nulled !! k =
  match new !! k with
  | Some v => Some v
  | None => if decide (k ∉ nulled ∧ k ∉ RENDERED_ENTRY_KEYS) then existing !! k else None
  end.
Proof.
  unfold carry_runtime_keys. rewrite lookup_union. destruct (new !! k) as [v|]; [by rewrite union_Some_l|].
  rewrite (left_id_L None _). case_decide as Hk.
  - destruct (existing !! k) as [v|] eqn:Ee; [by apply map_lookup_filter_Some|]. apply map_lookup_filter_None. by left.
  - apply map_lookup_filter_None. right. by intros v _.
Qed.
Lemma carry_twice existing new nulled :
  carry_runtime_keys (carry_runtime_keys existing new nulled) new nulled = carry_runtime_keys existing new nulled.
Proof.
  apply map_eq. intros k. rewrite !lookup_carry. destruct (new !! k); [done|]. by case_decide.
Qed.

(** The entry of a rendered server, given the one that is there. *)
Definition upsert (nulled : gset string) (entry : json) (old : option json) : json :=
  match old, entry with
  | Some (JObj existing), JObj new_obj => JObj (carry_runtime_keys existing new_obj nulled)
  | _, _ => entry
  end.
Lemma lookup_merge_servers v servers nulled owned name :
  merge_servers v servers nulled owned !! name =
  match servers !! name with
  | Some entry => Some (upsert (nulled name) entry (json_get name v))
  | None => if decide (name ∈ owned) then None else json_get name v
  end.
Proof.
  destruct v as [| | | |l|o]; try (cbn [merge_servers json_get]; destruct (servers !! name); [done|by case_decide]).
  cbn [merge_servers json_get]. rewrite lookup_union, map_lookup_imap.
  destruct (servers !! name) as [entry|] eqn:Es; cbn.
  - rewrite union_Some_l. do 2 f_equal. unfold upsert.
    replace (filter _ o !! name) with (o !! name); [done|]. symmetry.
    destruct (o !! name) as [e|] eqn:Eo; [|apply map_lookup_filter_None; by left].
    apply map_lookup_filter_Some. split; [done|]. intros [_ Hs]. cbn in Hs. congruence.
  - rewrite (left_id_L None _). case_decide as Ho.
    + apply map_lookup_filter_None. right. intros e _ H. by apply H.
    + destruct (o !! name) as [e|] eqn:Eo; [|apply map_lookup_filter_None; by left].
      apply map_lookup_filter_Some. split; [done|]. by intros [? _].
Qed.
Lemma upsert_twice nulled entry old : upsert nulled entry (Some (upsert nulled entry old)) = upsert nulled entry old.
Proof.
  destruct entry as [| | | |l|new]; [by destruct old as [[]|]..|].
  destruct old as [[| | | |l|e]|]; cbn [upsert]; rewrite ?carry_twice; try done;
    f_equal; apply map_eq; intros k; rewrite lookup_carry; destruct (new !! k); [done|by case_decide|done|by case_decide|
    done|by case_decide|done|by case_decide|done|by case_decide|done|by case_decide].
Qed.
Lemma merge_servers_twice v servers nulled owned owned' :
  (∀ name, name ∈ owned' → is_Some (servers !! name)) →
  merge_servers (JObj (merge_servers v servers nulled owned)) servers nulled owned' = merge_servers v servers nulled owned.
Proof.
  intros Ho. apply map_eq. intros name. rewrite !lookup_merge_servers. cbn [json_get]. rewrite lookup_merge_servers.
  destruct (servers !! name) as [entry|] eqn:Es.
  - by rewrite upsert_twice.
  - destruct (decide (name ∈ owned')) as [Hn|_]; [|done]. destruct (Ho name Hn). congruence.
Qed.

(** The files after the read of the names. *)
Definition noted (f : Files) : Files :=
  match f_owned f with BadOwned => mkFiles (f_claude f) (f_owned f) (f_warnings f ++ [OwnedIgnored]) | _ => f end.
Lemma read_owned_run f : read_owned_servers f = (Ok (owned_names f), noted f).
Proof. by destruct f as [? [| |l] ?]. Qed.
Lemma read_claude_run f o : claude_obj f = Some o → read_claude_json f = (Ok (JObj o), f).
Proof. unfold claude_obj. destruct f as [[| | |[]] ? ?]; cbn; intros; by simplify_eq. Qed.
Lemma noted_claude f : claude_obj (noted f) = claude_obj f ∧ f_claude (noted f) = f_claude f ∧ f_owned (noted f) = f_owned f.
Proof. by destruct f as [? [| |l] ?]. Qed.

Section laws.
Context `{YamlOps}.

Lemma merge_run cw ow orm mcps native (f : Files) servers nulled o :
  rendered_servers mcps native = Ok (servers, nulled) → claude_obj f = Some o →
  merge_mcp_into_claude_json cw ow orm mcps native f =
  if decide (servers = ∅ ∧ owned_names f = ∅) then (Ok tt, noted f)
  else
    let merged := merge_servers (default (JObj ∅) (o !! "mcpServers")) servers nulled (owned_names f) in
    (write_claude cw (JObj (<["mcpServers" := JObj merged]> o));; write_owned ow orm (map fst (btree_entries servers))) (noted f).
Proof.
  intros Hr Ho. unfold merge_mcp_into_claude_json.
  rewrite (st_bind_eval _ _ _ (servers, nulled) f) by (unfold st_lift; by rewrite Hr).
  rewrite (st_bind_eval _ _ _ _ _ (read_owned_run f)). case_decide; [done|].
  rewrite (st_bind_eval _ _ _ (JObj o) (noted f)); [done|]. apply read_claude_run. by rewrite (proj1 (noted_claude f)).
Qed.
Lemma write_claude_ok cw v f f' : write_claude cw v f = (Ok tt, f') → cw = true ∧ f' = mkFiles (Doc v) (f_owned f) (f_warnings f).
Proof. destruct cw; [|done]. intros [= <-]. done. Qed.
Lemma owned_dom (servers : gmap string json) : list_to_set (map fst (btree_entries servers)) =@{gset string} dom servers.
Proof.
  apply set_eq. intros name. rewrite elem_of_list_to_set, list_elem_of_fmap, elem_of_dom. split.
  - intros ([k v] & -> & Hk%elem_of_btree). by exists v.
  - intros [v Hv]. exists (name, v). by rewrite elem_of_btree.
Qed.
Lemma no_entries (servers : gmap string json) : map fst (btree_entries servers) = [] ↔ servers = ∅.
Proof.
  split.
  - intros E%map_eq_nil. apply map_eq. intros k. destruct (servers !! k) as [v|] eqn:Ek; [|done].
    apply elem_of_btree in Ek. rewrite E in Ek. by apply elem_of_nil in Ek.
  - intros ->. done.
Qed.
Lemma write_owned_ok ow orm (servers : gmap string json) f f' : write_owned ow orm (map fst (btree_entries servers)) f = (Ok tt, f') →
  f_claude f' = f_claude f ∧ (owned_names f' = dom servers ∨ (servers = ∅ ∧ orm = false ∧ OwnedNotRemoved ∈ f_warnings f')).
Proof.
  unfold write_owned. case_decide as Hn.
  - apply no_entries in Hn as ->. unfold st_get, mbind, st_bind.
    destruct (decide (f_owned f = NoOwned)) as [E|E].
    + intros [= <-]. split; [done|]. left. unfold owned_names. by rewrite E, dom_empty_L.
    + destruct orm; intros [= <-].
      * split; [done|]. left. by rewrite dom_empty_L.
      * split; [done|]. right. split_and!; [done..|]. cbn. apply elem_of_app. right. by left.
  - destruct ow; [|done]. intros [= <-]. split; [done|]. left. unfold owned_names. cbn [f_owned]. apply owned_dom.
Qed.





(** C22: the merge never overwrites a file that it cannot read: when [.claude.json] is unreadable, not
    JSON or not an object, no outcome changes it. A run that fails leaves it as it was, except when
    only the write of the companion file failed after it. *)
Theorem claude_json_never_clobbered cw ow orm mcps native (f f' : Files) r :
  merge_mcp_into_claude_json cw ow orm mcps native f = (r, f') →
  (claude_obj f = None → f_claude f' = f_claude f) ∧
  (∀ e, r = Err e → e ≠ WriteFailed ".claude.json.llmenv-owned" → f_claude f' = f_claude f).
Proof.
  intros Hm. destruct (rendered_servers mcps native) as [[servers nulled]|e0] eqn:Hr.
  2: { unfold merge_mcp_into_claude_json in Hm. rewrite (st_bind_err _ _ _ e0 f) in Hm by (unfold st_lift; by rewrite Hr).
       by injection Hm as _ <-. }
  destruct (claude_obj f) as [o|] eqn:Ho.
  - split; [done|]. intros e -> Hne. rewrite (merge_run _ _ _ _ _ _ _ _ _ Hr Ho) in Hm. case_decide; [done|].
    apply st_bind_inv in Hm as [([] & f1 & Hw & Hm)|(e' & Hw & [= ->])].
    + unfold write_owned in Hm. case_decide; [|destruct ow; [done|]; by injection Hm as <- _].
      unfold st_get, mbind, st_bind in Hm. destruct (decide _); [done|]. by destruct orm.
    + destruct cw; [done|]. injection Hw as _ <-. apply noted_claude.
  - unfold merge_mcp_into_claude_json in Hm.
    rewrite (st_bind_eval _ _ _ (servers, nulled) f) in Hm by (unfold st_lift; by rewrite Hr).
    rewrite (st_bind_eval _ _ _ _ _ (read_owned_run f)) in Hm. case_decide.
    { injection Hm as <- <-. split; [|done]. intros _. apply noted_claude. }
    assert (f' = noted f) as ->; [|split; intros; apply noted_claude].
    destruct (noted_claude f) as (_ & E & _). unfold claude_obj in Ho. unfold read_claude_json, st_get, mbind, st_bind in Hm.
    rewrite E in Hm. destruct (f_claude f) as [| | |[]]; try done; by injection Hm as _ <-.
Qed.

(** A second merge of the same servers changes nothing in [.claude.json] and in the companion
    file. *)
Theorem claude_json_merge_idempotent cw mcps native (f f' f'' : Files) o :
  claude_obj f = Some o →
  merge_mcp_into_claude_json cw true true mcps native f = (Ok tt, f') →
  merge_mcp_into_claude_json cw true true mcps native f' = (Ok tt, f'') →
  f_claude f'' = f_claude f' ∧ owned_names f'' = owned_names f'.
Proof.
  intros Ho H1 H2. destruct (rendered_servers mcps native) as [[servers nulled]|e0] eqn:Hr.
  2: { unfold merge_mcp_into_claude_json in H1. by rewrite (st_bind_err _ _ _ e0 f) in H1 by (unfold st_lift; by rewrite Hr). }
  rewrite (merge_run _ _ _ _ _ _ _ _ _ Hr Ho) in H1. case_decide as He.
  { injection H1 as <-. rewrite (merge_run _ _ _ _ _ _ _ _ o Hr) in H2 by (by rewrite (proj1 (noted_claude f))).
    destruct (noted_claude f) as (_ & _ & E). destruct He as [-> He].
    rewrite decide_True in H2 by (unfold owned_names in *; by rewrite E). injection H2 as <-.
    destruct (noted_claude (noted f)) as (_ & Ec & Eo). unfold owned_names. by rewrite Ec, Eo. }
  apply st_bind_ok in H1 as ([] & f1 & [_ ->]%write_claude_ok & [Hc Hw]%write_owned_ok).
  assert (owned_names f' = dom servers) as Hn by (by destruct Hw as [?|(_ & ? & _)]).
  cbn [f_claude] in Hc.
  rewrite (merge_run _ _ _ _ _ _ _ _ (<["mcpServers" := JObj (merge_servers (default (JObj ∅) (o !! "mcpServers"))
    servers nulled (owned_names f))]> o) Hr) in H2 by (unfold claude_obj; by rewrite Hc).
  destruct (noted_claude f') as (_ & Ec & Eo). case_decide.
  { injection H2 as <-. unfold owned_names. by rewrite Ec, Eo. }
  apply st_bind_ok in H2 as ([] & f2 & [_ ->]%write_claude_ok & [Hc2 Hw2]%write_owned_ok).
  destruct Hw2 as [Hn2|(_ & ? & _)]; [|done]. rewrite Hn2, Hn, Hc2, Hc. split; [|done]. cbn [f_claude].
  rewrite lookup_insert_eq. cbn [from_option id]. rewrite Hn, merge_servers_twice, insert_insert_eq; [done|].
  intros name Hd. by apply elem_of_dom in Hd.
Qed.
End laws.

(** ** The servers that are rendered *)

Section build.
Context `{Net}.

Lemma renderable_entry m : renderable m → is_Some (match render_entry m with Ok e => Some e | Err _ => None end).
Proof.
  unfold renderable, render_entry. destruct (rm_kind m) as [c a e|url t]; [by eexists|].
  intros [Ht _]. destruct t; [done|by eexists..].
Qed.
(** The loop keeps the entry of each name; a name that comes again has the same entry. *)
Lemma build_from_ok idx sources servers mcps out :
  dom sources = dom servers → build_from idx sources servers mcps = Ok out →
  ∀ name e, out !! name = Some e ↔
    servers !! name = Some e ∨ ∃ m, m ∈ mcps ∧ rm_name m = name ∧ render_entry m = Ok e.
Proof.
  revert idx sources servers. induction mcps as [|m mcps IH]; intros idx sources servers Hd; cbn [build_from].
  { intros [= <-] name e. split; [by left|]. intros [?|(m & Hm & _)]; [done|by apply elem_of_nil in Hm]. }
  intros (entry & He & Hb)%result_bind_ok.
  assert ((servers !! rm_name m = None ∨ servers !! rm_name m = Some entry) ∧
    build_from (S idx) (<[rm_name m := idx]> sources) (<[rm_name m := entry]> servers) mcps = Ok out) as [Hs Hb'].
  { destruct (sources !! rm_name m) as [prev|] eqn:Es.
    - assert (rm_name m ∈ dom servers) as [x Hx]%elem_of_dom by (rewrite <- Hd; by eapply elem_of_dom_2).
      rewrite Hx in Hb |- *. case_decide as Hne; [done|]. split; [right; destruct (decide (x = entry)) as [->|]; [done|by destruct Hne]|done].
    - split; [left|done]. apply not_elem_of_dom. rewrite <- Hd. by apply not_elem_of_dom. }
  assert (dom (<[rm_name m := idx]> sources) = dom (<[rm_name m := entry]> servers)) as Hd' by (by rewrite !dom_insert_L, Hd).
  intros name e. rewrite (IH _ _ _ Hd' Hb' name e). setoid_rewrite elem_of_cons.
  destruct (decide (name = rm_name m)) as [->|Hn].
  - rewrite lookup_insert_eq. split.
    + intros [[= <-]|(m' & Hm & H1 & H2)]; right; [exists m; auto|exists m'; auto].
    + intros [Hx|(m' & [->|Hm] & H1 & H2)].
      * left. destruct Hs as [Hs|Hs]; rewrite Hs in Hx; by simplify_eq.
      * left. rewrite H2 in He. by simplify_eq.
      * right. by exists m'.
  - rewrite lookup_insert_ne by done. split.
    + intros [?|(m' & Hm & H1 & H2)]; [by left|]. right. exists m'. auto.
    + intros [?|(m' & [->|Hm] & H1 & H2)]; [by left|by subst|]. right. by exists m'.
Qed.
Lemma build_from_total idx sources servers mcps :
  Forall renderable mcps →
  (∀ m e, m ∈ mcps → servers !! rm_name m = Some e → render_entry m = Ok e) →
  (∀ m1 m2, m1 ∈ mcps → m2 ∈ mcps → rm_name m1 = rm_name m2 → render_entry m1 = render_entry m2) →
  ∃ out, build_from idx sources servers mcps = Ok out.
Proof.
  revert idx sources servers. induction mcps as [|m mcps IH]; intros idx sources servers Hr Hs Hc; [by eexists|].
  cbn [build_from]. apply Forall_cons in Hr as [Hm Hr]. destruct (renderable_entry m Hm) as [entry He].
  destruct (render_entry m) as [entry'|] eqn:Ee; [|done]. injection He as ->. cbn [mbind result_bind].
  assert (∃ out, build_from (S idx) (<[rm_name m := idx]> sources) (<[rm_name m := entry]> servers) mcps = Ok out) as Hgo.
  { apply IH; [done| |].
    - intros m' e Hm'. destruct (decide (rm_name m' = rm_name m)) as [En|En].
      + rewrite En, lookup_insert_eq. intros [= <-]. rewrite <- Ee. apply Hc; [by right|by left|done].
      + rewrite lookup_insert_ne by done. apply Hs. by right.
    - intros m1 m2 H1 H2. apply Hc; by right. }
  destruct (sources !! rm_name m); [|done]. destruct (servers !! rm_name m) as [x|] eqn:Ex; [|done].
  rewrite decide_False; [done|]. intros Hne. apply Hne. pose proof (Hs m x (list_elem_of_here _ _) Ex). congruence.
Qed.

(** The object of the servers. When it is built it has exactly the entries that the servers
    render to; and servers that can be rendered are refused only when two of one name differ. *)
Theorem build_mcp_servers_correct (mcps : list ResolvedMcp) :
  (∀ out, build_mcp_servers mcps = Ok out →
     ∀ name e, out !! name = Some e ↔ ∃ m, m ∈ mcps ∧ rm_name m = name ∧ render_entry m = Ok e) ∧
  (Forall renderable mcps →
   (∃ out, build_mcp_servers mcps = Ok out) ↔
   ∀ m1 m2, m1 ∈ mcps → m2 ∈ mcps → rm_name m1 = rm_name m2 → render_entry m1 = render_entry m2).
Proof.
  split.
  - intros out Hb name e. rewrite (build_from_ok _ _ _ _ _ (eq_trans dom_empty_L (eq_sym dom_empty_L)) Hb).
    rewrite lookup_empty. naive_solver.
  - intros Hr. split.
    + intros [out Hb] m1 m2 H1 H2 En. rewrite Forall_forall in Hr.
      destruct (renderable_entry m1 (Hr _ H1)) as [e1 E1], (renderable_entry m2 (Hr _ H2)) as [e2 E2].
      destruct (render_entry m1) as [x1|] eqn:R1, (render_entry m2) as [x2|] eqn:R2; try done.
      pose proof (build_from_ok _ _ _ _ _ (eq_trans dom_empty_L (eq_sym dom_empty_L)) Hb (rm_name m1)) as Hx.
      assert (out !! rm_name m1 = Some x1) by (apply Hx; right; eauto).
      assert (out !! rm_name m1 = Some x2) by (apply Hx; right; exists m2; split_and!; congruence). congruence.
    + intros Hc. apply build_from_total; [done| |done]. intros m e _. by rewrite lookup_empty.
Qed.
End build.
