(* ===== verification/ClaudeSettings.v ===== *)
(** * Reconciliation of settings.json (src/adapter/claude_code/mod.rs 1951-2330,
    src/adapter/claude_code/hook_purge.rs)

    A render is laid over the settings file that is on disk: llmenv owns some keys and replaces
    them, the hooks are a union from which old hooks of llmenv and of disabled plugins are taken
    out, and what Claude Code or a plugin wrote stays. The canonical form of a path is a parameter. *)

From S2P Require Import Prelude RustStr Names Json JsonMerge Permissions LaunchProxy ConfigSchema.
From S2P Require Import McpResolve ClaudePerms ClaudeJson.

Definition LLMENV_OWNED_SETTINGS_KEYS : list string :=
  ["permissions"; "enabledPlugins"; "extraKnownMarketplaces"; "autoMemoryEnabled"; "syncClaudeAiSkills";
   "syncClaudeAiPlugins"; "effortLevel"; "advisorModel"; "outputStyle"; "hooks"; "bypassPermissions";
   "dangerouslySkipPermissions"].

(** Each array of an event without repeats. *)
Definition dedup_entries (v : json) : json := match v with JArr l => JArr (dedup l) | _ => v end.
Definition dedup_hooks_doc (hooks : json) : json :=
  match strip_json_nulls hooks with JObj m => JObj (dedup_entries <$> m) | v => v end.
Definition normalized_hook (entry : json) : json := strip_json_nulls entry.

(** ** Hooks that go away *)

(** The hooks that llmenv rendered the last time for an event and does not render now. *)
Definition items (v : option json) : list json := match v with Some (JArr l) => l | _ => [] end.
Definition stale_hooks (prev_arr fresh_arr : list json) : list json :=
  filter (λ e, e ∉ map normalized_hook fresh_arr) (map normalized_hook prev_arr).
Definition purge_stale_owned_hooks (existing : json) (prev_owned : option json) (fresh : json) : json :=
  match prev_owned, existing with
  | Some (JObj prev), JObj obj =>
    JObj (map_imap (λ event v, Some match v with
      | JArr arr => JArr (filter (λ e, normalized_hook e ∉ stale_hooks (items (prev !! event)) (items (json_get event fresh))) arr)
      | _ => v
      end) obj)
  | _, _ => existing
  end.

Section purge.
Context (canonicalize : string → option string).

Definition path_starts_with (p root : string) : bool := bool_decide (components root `prefix_of` components p).
Definition command_points_under (command root : string) : bool :=
  existsb (λ token, str_contains_char "/" token &&
    match canonicalize token with Some p => path_starts_with p root | None => false end) (split_whitespace command).
Definition traced (roots : list string) (hook : json) : bool :=
  match json_get "command" hook ≫= as_str with
  | Some cmd => existsb (command_points_under cmd) roots
  | None => false
  end.
Definition disabled_roots (prev_plugin_paths enabled_plugins : option json) : list string :=
  match prev_plugin_paths with
  | Some (JObj prev_paths) =>
    let enabled := match enabled_plugins with Some (JObj m) => dom m | _ => ∅ end in
    omap (λ ip : string * json, if decide (ip.1 ∈ enabled) then None else p ← as_str ip.2; canonicalize p)
      (btree_entries prev_paths)
  | _ => []
  end.
(** An entry without the inner hooks that a disabled plugin wrote; none when no hook is left. *)
Definition purge_entry (roots : list string) (entry : json) : option json :=
  match entry with
  | JObj m =>
    match m !! "hooks" with
    | Some (JArr hooks) =>
      let kept := filter (λ h, traced roots h = false) hooks in
      if decide (kept = []) then None else Some (JObj (<["hooks" := JArr kept]> m))
    | _ => Some entry
    end
  | _ => Some entry
  end.
Definition purge_entries (roots : list string) (l : list json) : list json :=
  if decide (roots = []) then l else omap (purge_entry roots) l.
Definition purge_hooks_from_disabled_plugins (existing : json) (prev_plugin_paths enabled_plugins : option json) : json :=
  let roots := disabled_roots prev_plugin_paths enabled_plugins in
  match existing with
  | JObj m => JObj ((λ v, match v with JArr l => JArr (purge_entries roots l) | _ => v end) <$> m)
  | _ => existing
  end.

(** ** The settings *)

Inductive settings_error := SettingsUnreadable | CannotMoveAside.

Definition merged_hooks (on_disk_hooks fresh_val : json) (prev_owned_hooks prev_plugin_paths enabled_plugins : option json) : json :=
  dedup_hooks_doc (merge_json
    (purge_hooks_from_disabled_plugins (purge_stale_owned_hooks on_disk_hooks prev_owned_hooks fresh_val)
       prev_plugin_paths enabled_plugins) fresh_val).
Definition settle_key (fresh_obj : gmap string json) (prev_owned_hooks prev_plugin_paths : option json)
    (merged_obj : gmap string json) (key : string) : gmap string json :=
  match fresh_obj !! key with
  | Some fresh_val =>
    if decide (key = "hooks") then
      match merged_obj !! key with
      | Some v => <[key := merged_hooks v fresh_val prev_owned_hooks prev_plugin_paths (fresh_obj !! "enabledPlugins")]> merged_obj
      | None => <[key := fresh_val]> merged_obj
      end
    else <[key := fresh_val]> merged_obj
  | None => delete key merged_obj
  end.
(** The value of the file after the render, and whether the old file was moved aside. *)
Definition reconcile_settings (disk : on_disk) (can_move : bool) (fresh : json)
    (prev_owned_hooks prev_plugin_paths : option json) : result settings_error (json * bool) :=
  match disk with
  | Unreadable => Err SettingsUnreadable
  | NotJson => if can_move then Ok (fresh, true) else Err CannotMoveAside
  | Absent => Ok (fresh, false)
  | Doc existing =>
    match existing, fresh with
    | JObj on_disk_obj, JObj fresh_obj =>
      let merged_obj := delete "advisorSize"
        (foldl (settle_key fresh_obj prev_owned_hooks prev_plugin_paths) on_disk_obj LLMENV_OWNED_SETTINGS_KEYS) in
      Ok (JObj (filter (λ kv, kv.1 ∉ LLMENV_OWNED_SETTINGS_KEYS) fresh_obj ∪ merged_obj), false)
    | _, _ => Ok (fresh, false)
    end
  end.

(** ** Laws *)

Lemma settle_key_other fresh prev paths obj key k : k ≠ key → settle_key fresh prev paths obj key !! k = obj !! k.
Proof.
  intros Hk. unfold settle_key. destruct (fresh !! key); [|by rewrite lookup_delete_ne].
  case_decide; [|by rewrite lookup_insert_ne]. destruct (obj !! key); by rewrite lookup_insert_ne.
Qed.
Definition settled_value (fresh obj : gmap string json) (prev paths : option json) (key : string) : option json :=
  match fresh !! key, obj !! key with
  | Some f, Some v => if decide (key = "hooks") then Some (merged_hooks v f prev paths (fresh !! "enabledPlugins")) else Some f
  | f, _ => f
  end.
Lemma settle_key_same fresh prev paths obj key :
  settle_key fresh prev paths obj key !! key = settled_value fresh obj prev paths key.
Proof.
  unfold settle_key, settled_value. destruct (fresh !! key) as [f|]; [|apply lookup_delete_eq].
  case_decide; [|rewrite lookup_insert_eq; by destruct (obj !! key)].
  destruct (obj !! key); by rewrite lookup_insert_eq.
Qed.
Lemma settle_all fresh prev paths obj keys k : NoDup keys →
  foldl (settle_key fresh prev paths) obj keys !! k =
  if decide (k ∈ keys) then settled_value fresh obj prev paths k else obj !! k.
Proof.
  intros Hd. revert obj. induction Hd as [|key keys Hn Hd IH]; intros obj; cbn [foldl].
  { by rewrite decide_False by apply not_elem_of_nil. }
  rewrite IH. destruct (decide (k = key)) as [->|Hk].
  - rewrite decide_False, settle_key_same by done. by rewrite decide_True by left.
  - destruct (decide (k ∈ keys)) as [Hi|Hi].
    + rewrite decide_True by (by right). unfold settled_value. by rewrite settle_key_other.
    + rewrite decide_False by (by intros [?|?]%elem_of_cons). by apply settle_key_other.
Qed.
Lemma owned_keys_distinct : NoDup LLMENV_OWNED_SETTINGS_KEYS ∧ "advisorSize" ∉ LLMENV_OWNED_SETTINGS_KEYS.
Proof. split; apply (bool_decide_unpack _); vm_compute; exact I. Qed.
Lemma reconciled_lookup disk_obj fresh prev paths can_move :
  ∃ r, reconcile_settings (Doc (JObj disk_obj)) can_move (JObj fresh) prev paths = Ok (JObj r, false) ∧
    ∀ k, r !! k = if decide (k ∈ LLMENV_OWNED_SETTINGS_KEYS) then settled_value fresh disk_obj prev paths k
                  else match fresh !! k with Some v => Some v | None => if decide (k = "advisorSize") then None else disk_obj !! k end.
Proof.
  eexists. split; [reflexivity|]. intros k. destruct owned_keys_distinct as [Hd Ha].
  rewrite lookup_union. destruct (decide (k ∈ LLMENV_OWNED_SETTINGS_KEYS)) as [Hk|Hk].
  - rewrite (proj2 (map_lookup_filter_None _ _ _)) by (right; intros v _ Hn; by apply Hn).
    rewrite (left_id_L None _), lookup_delete_ne by (intros <-; done).
    rewrite settle_all by done. by rewrite decide_True.
  - destruct (fresh !! k) as [v|] eqn:Ef.
    + by rewrite (proj2 (map_lookup_filter_Some _ _ _ v) (conj Ef Hk)), union_Some_l.
    + rewrite (proj2 (map_lookup_filter_None _ _ _)) by (by left). rewrite (left_id_L None _).
      destruct (decide (k = "advisorSize")) as [->|Hs]; [apply lookup_delete_eq|].
      rewrite lookup_delete_ne by done. rewrite settle_all by done. by rewrite decide_False.
Qed.

(** C18: a render over the settings on disk. A key that llmenv owns, but for the hooks, has the
    value of the render and is gone when the render has none, so that a removed rule never lingers
    and permissions are never a union with old ones. The hooks are gone when the render has none,
    are those of the render when the file has none, and are otherwise merged, as the theorem on
    the merged hooks says. The key advisorSize has the value of the render and is gone when the
    render has none, although it is not in the list of owned keys. Any other key keeps the value on
    disk unless the render has one. A missing file, and one that is no object, is replaced by the
    render. A file that is no JSON is moved aside before it is replaced, and one that cannot be
    read or moved stops the render. *)
Theorem reconcile_settings_correct (disk : on_disk) can_move (fresh : gmap string json) prev paths :
  match disk with
  | Doc (JObj obj) =>
    ∃ r, reconcile_settings disk can_move (JObj fresh) prev paths = Ok (JObj r, false) ∧
      (∀ k, k ∈ LLMENV_OWNED_SETTINGS_KEYS → k ≠ "hooks" → r !! k = fresh !! k) ∧
      (∀ k, k ∉ LLMENV_OWNED_SETTINGS_KEYS → k ≠ "advisorSize" →
         r !! k = match fresh !! k with Some v => Some v | None => obj !! k end) ∧
      r !! "advisorSize" = fresh !! "advisorSize" ∧
      (fresh !! "hooks" = None → r !! "hooks" = None) ∧
      (∀ f, fresh !! "hooks" = Some f → r !! "hooks" = Some (match obj !! "hooks" with
         | Some v => merged_hooks v f prev paths (fresh !! "enabledPlugins") | None => f end))
  | Doc _ | Absent => reconcile_settings disk can_move (JObj fresh) prev paths = Ok (JObj fresh, false)
  | NotJson => reconcile_settings disk can_move (JObj fresh) prev paths =
      if can_move then Ok (JObj fresh, true) else Err CannotMoveAside
  | Unreadable => reconcile_settings disk can_move (JObj fresh) prev paths = Err SettingsUnreadable
  end.
Proof.
  destruct disk as [| | |[| | | | |obj]]; try done.
  destruct (reconciled_lookup obj fresh prev paths can_move) as (r & -> & Hr). exists r. split; [done|].
  destruct owned_keys_distinct as [_ Ha].
  assert (Hh : "hooks" ∈ LLMENV_OWNED_SETTINGS_KEYS) by (apply (bool_decide_unpack _); vm_compute; exact I).
  split_and!.
  - intros k Hk Hn. rewrite Hr, decide_True by done. unfold settled_value. destruct (fresh !! k), (obj !! k); try done.
    by rewrite decide_False.
  - intros k Hk Hn. rewrite Hr, decide_False by done. destruct (fresh !! k); [done|]. by rewrite decide_False.
  - rewrite Hr, decide_False by done. destruct (fresh !! "advisorSize"); [done|]. by rewrite decide_True.
  - intros Hf. rewrite Hr, decide_True by done. unfold settled_value. by rewrite Hf.
  - intros f Hf. rewrite Hr, decide_True by done. unfold settled_value. rewrite Hf. by destruct (obj !! "hooks").
Qed.

(** *** The hooks of an event *)

(** The entries of an event on disk that are kept: not stale, and without the hooks of disabled
    plugins. *)
Definition kept_entries (prev : option json) (f : gmap string json) (roots : list string) (ev : string) (l : list json) : list json :=
  purge_entries roots match prev with
    | Some (JObj p) => filter (λ e, normalized_hook e ∉ stale_hooks (items (p !! ev)) (items (f !! ev))) l
    | _ => l
    end.
Definition purged (h : gmap string json) (prev paths enabled : option json) (f : gmap string json) : json :=
  purge_hooks_from_disabled_plugins (purge_stale_owned_hooks (JObj h) prev (JObj f)) paths enabled.
Lemma purged_lookup h prev paths enabled f :
  ∃ m, purged h prev paths enabled f = JObj m ∧ ∀ ev, m !! ev =
    match h !! ev with
    | Some (JArr l) => Some (JArr (kept_entries prev f (disabled_roots paths enabled) ev l))
    | v => v
    end.
Proof.
  unfold purged, purge_stale_owned_hooks, kept_entries.
  destruct prev as [[| | | | |p]|]; eexists; (split; [reflexivity|]); intros ev;
    rewrite lookup_fmap, ?map_lookup_imap; destruct (h !! ev) as [[]|]; reflexivity.
Qed.
Definition all_arrays (f : gmap string json) : Prop := map_Forall (λ _ v, ∃ a, v = JArr a) f.

(** [dedup_hooks_doc] with the levels below an event as a variable. *)
Definition doc_at (n : nat) (hooks : json) : json :=
  match strip_json_nulls_depth (S (S n)) hooks with JObj m => JObj (dedup_entries <$> m) | v => v end.
Lemma dedup_hooks_doc_at hooks : dedup_hooks_doc hooks = doc_at 63 hooks.
Proof. unfold dedup_hooks_doc, doc_at, strip_json_nulls. reflexivity. Qed.
Lemma doc_lookup n m ev :
  ∃ m', doc_at n (JObj m) = JObj m' ∧
    m' !! ev = (v ← m !! ev; if is_null v then None else Some (dedup_entries (strip_json_nulls_depth (S n) v))).
Proof.
  unfold doc_at. pose proof (strip_depth_get (S n) (JObj m) ev) as H. cbn [json_get] in H.
  destruct (strip_json_nulls_depth (S (S n)) (JObj m)) as [| | | | |m1] eqn:E; try done. eexists. split; [reflexivity|].
  cbn [json_get] in H. rewrite lookup_fmap, H. destruct (m !! ev) as [v|]; [|done]. cbn. by destruct (is_null v).
Qed.
Lemma dedup_entries_arr n l : dedup_entries (strip_json_nulls_depth (S n) (JArr l)) = JArr (dedup (map (strip_json_nulls_depth n) l)).
Proof. done. Qed.
Lemma map_strip_normal n l : Forall normal l → map (strip_json_nulls_depth n) l = l.
Proof.
  intros H. rewrite (map_ext_in _ id), List.map_id; [done|]. intros v Hv%list_elem_of_In. rewrite Forall_forall in H.
  by apply strip_depth_normal, H.
Qed.
Lemma normalized_items l : Forall normal (dedup (map normalize_json l)).
Proof. apply Forall_forall. intros v (w & -> & _)%elem_of_dedup%list_elem_of_fmap. apply normalize_normal. Qed.

(** The hooks of an event after the merge. *)
Lemma merged_event n h prev paths enabled f ev :
  let kept l := kept_entries prev f (disabled_roots paths enabled) ev l in
  ∃ h', doc_at n (merge_json (purged h prev paths enabled f) (JObj f)) = JObj h' ∧
    match f !! ev, h !! ev with
    | Some (JArr a), Some (JArr l) => h' !! ev = Some (JArr (dedup (map normalize_json (kept l ++ a))))
    | Some (JArr a), _ => h' !! ev = Some (JArr (dedup (map normalize_json a)))
    | None, Some (JArr l) => h' !! ev = Some (JArr (dedup (map (strip_json_nulls_depth n) (kept l))))
    | None, None => h' !! ev = None
    | _, _ => True
    end.
Proof.
  intros kept. destruct (purged_lookup h prev paths enabled f) as (m & -> & Hm).
  destruct (merge_json_obj m f ev) as (m2 & -> & Hm2). destruct (doc_lookup n m2 ev) as (h' & -> & Hh).
  exists h'. split; [done|]. rewrite Hm in Hm2. rewrite Hh.
  assert (∀ l, dedup_entries (strip_json_nulls_depth (S n) (JArr (dedup (map normalize_json l)))) = JArr (dedup (map normalize_json l))) as Hn.
  { intros l. rewrite dedup_entries_arr, map_strip_normal by apply normalized_items. f_equal. apply dedup_NoDup, NoDup_dedup. }
  destruct (f !! ev) as [[| | | |a|]|]; try done; destruct (h !! ev) as [[| | | |l|]|]; try done; rewrite Hm2;
    cbn [mbind option_bind merge_json insert_value normalize_json is_null]; try (by rewrite Hn); [by rewrite dedup_entries_arr|done].
Qed.

(** A hook is stale when llmenv rendered it the last time and no hook of the render is like it. *)
Definition stale (prev : option json) (f : gmap string json) (ev : string) (e : json) : Prop :=
  ∃ p, Some (JObj p) = prev ∧ (∃ x, x ∈ items (p !! ev) ∧ normalized_hook e = normalized_hook x) ∧
    ∀ q, q ∈ items (f !! ev) → normalized_hook q ≠ normalized_hook e.
Lemma elem_of_stale prev_arr fresh_arr e :
  e ∈ stale_hooks prev_arr fresh_arr ↔
  (∃ x, x ∈ prev_arr ∧ e = normalized_hook x) ∧ ∀ q, q ∈ fresh_arr → normalized_hook q ≠ e.
Proof.
  unfold stale_hooks. rewrite list_elem_of_filter, !list_elem_of_fmap. naive_solver.
Qed.
Lemma elem_of_kept prev f roots ev l e' :
  e' ∈ kept_entries prev f roots ev l ↔
  ∃ e, e ∈ l ∧ ¬ stale prev f ev e ∧ (if decide (roots = []) then e' = e else purge_entry roots e = Some e').
Proof.
  assert (∀ e, e ∈ match prev with
      | Some (JObj p) => filter (λ e, normalized_hook e ∉ stale_hooks (items (p !! ev)) (items (f !! ev))) l
      | _ => l end ↔ e ∈ l ∧ ¬ stale prev f ev e) as Hf.
  { intros e. unfold stale. destruct prev as [[| | | | |p]|]; try naive_solver.
    rewrite list_elem_of_filter, elem_of_stale. split.
    - intros [Hs Hl]. split; [done|]. intros (p' & [= ->] & Hx & Hq). by apply Hs.
    - intros [Hl Hs]. split; [|done]. intros [Hx Hq]. apply Hs. by exists p. }
  unfold kept_entries, purge_entries. case_decide as Hr.
  - rewrite Hf. naive_solver.
  - rewrite list_elem_of_omap. setoid_rewrite Hf. naive_solver.
Qed.
Lemma kept_nil prev f roots ev : kept_entries prev f roots ev [] = [].
Proof. unfold kept_entries, purge_entries. destruct prev as [[]|]; by case_decide. Qed.

(** A plugin is disabled when the sidecar has its path and the render does not enable it. *)
Definition disabled_root (paths enabled : option json) (root : string) : Prop :=
  ∃ prev name path, paths = Some (JObj prev) ∧ prev !! name = Some (JStr path) ∧ canonicalize path = Some root ∧
    ∀ m, enabled = Some (JObj m) → m !! name = None.
(** A hook is from a disabled plugin when a word of its command is a path at or below its folder. *)
Definition from_disabled (paths enabled : option json) (hook : json) : Prop :=
  ∃ cmd word path root below, json_get "command" hook = Some (JStr cmd) ∧ word ∈ split_whitespace cmd ∧
    str_contains_char "/" word = true ∧ canonicalize word = Some path ∧ disabled_root paths enabled root ∧
    components path = components root ++ below.
(** The second list is the first one without the elements of [P]. *)
Inductive without (P : json → Prop) : list json → list json → Prop :=
| without_nil : without P [] []
| without_cut x l l' : P x → without P l l' → without P (x :: l) l'
| without_keep x l l' : ¬ P x → without P l l' → without P (x :: l) (x :: l').
(** What is left of an entry on disk: the whole of it when no plugin is disabled or when it has no
    list of inner hooks; else the entry with the inner hooks that no disabled plugin wrote, when
    there is one. *)
Definition left_of (paths enabled : option json) (e y : json) : Prop :=
  (∀ root, ¬ disabled_root paths enabled root) ∧ y = e ∨
  (∃ root, disabled_root paths enabled root) ∧
    ((∃ m hooks kept, e = JObj m ∧ m !! "hooks" = Some (JArr hooks) ∧ without (from_disabled paths enabled) hooks kept ∧
        kept ≠ [] ∧ y = JObj (<["hooks" := JArr kept]> m)) ∨
     (∀ hooks, json_get "hooks" e ≠ Some (JArr hooks)) ∧ y = e).

Lemma elem_of_disabled paths enabled root : root ∈ disabled_roots paths enabled ↔ disabled_root paths enabled root.
Proof.
  unfold disabled_roots, disabled_root. destruct paths as [[| | | | |prev]|]; try (rewrite elem_of_nil; naive_solver).
  rewrite list_elem_of_omap. split.
  - intros ([name v] & Hin%elem_of_btree & Hd). cbn [fst snd] in Hd. case_decide as He; [done|].
    apply bind_Some in Hd as (path & Hp & Hc). destruct v as [| | |p| |]; try done. injection Hp as ->.
    exists prev, name, path. split_and!; [done..|]. intros m ->. by apply not_elem_of_dom.
  - intros (? & name & path & [= <-] & Hn & Hc & He). exists (name, JStr path). split; [by apply elem_of_btree|].
    cbn [fst snd]. rewrite decide_False; [exact Hc|]. destruct enabled as [[| | | | |m]|]; try apply not_elem_of_empty.
    apply not_elem_of_dom. by apply He.
Qed.
Lemma traced_from_disabled paths enabled hook : traced (disabled_roots paths enabled) hook = true ↔ from_disabled paths enabled hook.
Proof.
  unfold traced, from_disabled. destruct (json_get "command" hook) as [[| | |cmd| |]|]; cbn; try naive_solver.
  rewrite existsb_exists. unfold command_points_under. setoid_rewrite existsb_exists. setoid_rewrite <-list_elem_of_In. split.
  - intros (root & Hr%elem_of_disabled & word & Hw & [Hs Hp]%andb_true_iff). destruct (canonicalize word) as [path|] eqn:Ec; [|done].
    unfold path_starts_with in Hp. apply bool_decide_eq_true in Hp as [below Hb]. exists cmd, word, path, root, below. done.
  - intros (? & word & path & root & below & [= <-] & Hw & Hs & Hc & Hr & Hb). exists root. split; [by apply elem_of_disabled|].
    exists word. split; [done|]. rewrite Hs, Hc. apply bool_decide_eq_true. by exists below.
Qed.
Lemma purge_left_of paths enabled e y :
  (if decide (disabled_roots paths enabled = []) then y = e else purge_entry (disabled_roots paths enabled) e = Some y) ↔
  left_of paths enabled e y.
Proof.
  unfold left_of. setoid_rewrite <-elem_of_disabled. destruct (disabled_roots paths enabled) as [|root roots] eqn:Er.
  { rewrite decide_True by done. setoid_rewrite elem_of_nil. naive_solver. }
  rewrite decide_False by done. rewrite <-Er. 
  assert (Hin : root ∈ disabled_roots paths enabled) by (rewrite Er; left).
  assert (Hl : (∀ r, r ∉ disabled_roots paths enabled) ↔ False) by naive_solver.
  assert (Hw : ∀ l l', without (from_disabled paths enabled) l l' ↔ filter (λ h, traced (disabled_roots paths enabled) h = false) l = l').
  { intros l l'. assert (∀ x, traced (disabled_roots paths enabled) x = false ↔ ¬ from_disabled paths enabled x) as Hx.
    { intros x. rewrite <-traced_from_disabled. by destruct (traced _ x). }
    split.
    - induction 1 as [|x l l' Hp _ IH|x l l' Hp _ IH]; [done| |].
      + rewrite filter_cons_False; [done|]. rewrite Hx. tauto.
      + rewrite filter_cons_True by (by apply Hx). by rewrite IH.
    - intros <-. induction l as [|x l IH]; [constructor|]. rewrite filter_cons. destruct (decide (traced _ x = false)) as [E|E].
      + constructor; [by apply Hx|done].
      + constructor; [|done]. apply traced_from_disabled. by apply not_false_is_true. }
  setoid_rewrite Hw. destruct e as [| | | | |m]; cbn [purge_entry json_get]; try naive_solver.
  destruct (m !! "hooks") as [[| | | |hooks|]|] eqn:Eh; try naive_solver.
  case_decide as Hk; naive_solver.
Qed.

(** C19: the hooks of an event after a render, where the render and the file have arrays. They
    are, once each, those of the render and those on disk that are kept: a hook that llmenv rendered
    before and does not render now is gone; of every other entry the inner hooks of a disabled
    plugin are cut out, and the entry goes when none is left; and an entry without such hooks stays
    as it is. A disabled plugin is one that the sidecar has a path of and that the render does not
    enable; its hooks are those with a word of their command at or below its folder. The hooks of an
    event that the render names are in normal form; those of another event are only without nulls. *)
Theorem merged_hooks_correct (h f : gmap string json) prev paths enabled ev :
  all_arrays f → (∀ v, h !! ev = Some v → ∃ l, v = JArr l) →
  ∃ h', merged_hooks (JObj h) (JObj f) prev paths enabled = JObj h' ∧
    NoDup (items (h' !! ev)) ∧
    ∀ x, x ∈ items (h' !! ev) ↔ ∃ y,
      (y ∈ items (f !! ev) ∨ ∃ e, e ∈ items (h !! ev) ∧ ¬ stale prev f ev e ∧ left_of paths enabled e y) ∧
      x = if decide (f !! ev = None) then strip_json_nulls_depth 63 y else normalize_json y.
Proof.
  intros Hf Hh. destruct (merged_event 63 h prev paths enabled f ev) as (h' & Em & He).
  exists h'. split. { unfold merged_hooks. rewrite dedup_hooks_doc_at. exact Em. }
  setoid_rewrite <-purge_left_of.
  setoid_rewrite <- (elem_of_kept prev f (disabled_roots paths enabled) ev (items (h !! ev))).
  generalize dependent 63. intros n _ He.
  destruct (f !! ev) as [v|] eqn:Ef.
  - destruct (Hf ev v Ef) as [a ->].
    assert (h' !! ev = Some (JArr (dedup (map normalize_json (kept_entries prev f (disabled_roots paths enabled) ev (items (h !! ev)) ++ a))))) as ->.
    { destruct (h !! ev) as [w|]; [destruct (Hh w eq_refl) as [l ->]; exact He|]. cbn [items]. by rewrite kept_nil. }
    cbn [items]. split; [apply NoDup_dedup|]. intros x. rewrite elem_of_dedup, list_elem_of_fmap.
    setoid_rewrite elem_of_app. destruct (decide (Some (JArr a) = None)); [done|]. naive_solver.
  - destruct (h !! ev) as [w|].
    + destruct (Hh w eq_refl) as [l ->]. rewrite He. cbn [items]. split; [apply NoDup_dedup|].
      intros x. rewrite elem_of_dedup, list_elem_of_fmap. destruct (decide (@None json = None)); [|done]. setoid_rewrite elem_of_nil. naive_solver.
    + rewrite He. cbn [items]. split; [constructor|]. intros x. rewrite kept_nil. setoid_rewrite elem_of_nil. naive_solver.
Qed.

(** *** A second render *)

Lemma stale_self (l : list json) : stale_hooks l l = [].
Proof.
  apply elem_of_nil_inv. intros e. rewrite elem_of_stale. intros [(x & Hx & ->) Hq]. by apply (Hq x Hx).
Qed.
Lemma kept_self f ev l : kept_entries (Some (JObj f)) f [] ev l = l.
Proof.
  unfold kept_entries, purge_entries. rewrite decide_True, stale_self by done.
  induction l as [|e l IH]; [done|]. rewrite filter_cons_True by apply not_elem_of_nil. by rewrite IH.
Qed.
Lemma purged_self h f enabled : purged h (Some (JObj f)) None enabled f = JObj h.
Proof.
  destruct (purged_lookup h (Some (JObj f)) None enabled f) as (m & -> & Hm). f_equal. apply map_eq. intros ev.
  rewrite Hm. cbn [disabled_roots]. destruct (h !! ev) as [[]|]; try done. by rewrite kept_self.
Qed.
Lemma no_nulls_dedup n l : Forall (no_nulls n) l → Forall (no_nulls n) (dedup l).
Proof. rewrite !Forall_forall. intros H x Hx. apply (proj1 (elem_of_dedup l x)) in Hx. exact (H x Hx). Qed.
Lemma doc_at_idemp n v : doc_at n (doc_at n v) = doc_at n v.
Proof.
  unfold doc_at at 2 3. pose proof (strip_depth_no_nulls (S (S n)) v) as Hn.
  destruct (strip_json_nulls_depth (S (S n)) v) as [| | | | |m] eqn:E; unfold doc_at;
    try (rewrite strip_depth_id by exact Hn; done).
  assert (no_nulls (S (S n)) (JObj (dedup_entries <$> m))) as Hd.
  { change (map_Forall (λ _ w, w ≠ JNull ∧ no_nulls (S n) w) (dedup_entries <$> m)). intros k w Hk.
    rewrite lookup_fmap in Hk. apply fmap_Some in Hk as (x & Hx & ->). destruct (Hn k x Hx) as [Hx1 Hx2].
    destruct x; try done. cbn [dedup_entries]. split; [done|]. by apply no_nulls_dedup. }
  rewrite strip_depth_id by exact Hd. f_equal. apply map_eq. intros k. rewrite !lookup_fmap.
  destruct (m !! k) as [[]|]; try done. cbn. do 2 f_equal. apply dedup_NoDup, NoDup_dedup.
Qed.
Lemma doc_at_normal n v : normal v → doc_at n v = v.
Proof.
  intros Hv. unfold doc_at. rewrite strip_depth_normal by done. destruct v as [| | | | |m]; try done. f_equal.
  apply map_eq. intros k. rewrite lookup_fmap. destruct (m !! k) as [v|] eqn:Ek; [|done]. cbn. f_equal.
  inversion Hv as [| | | | |m' Hm]; subst. destruct (Hm k v Ek) as [Hn _]. destruct v as [| | | |l|]; try done.
  cbn. inversion Hn; subst. by rewrite dedup_NoDup.
Qed.
(** The fragment is already in a document that it was merged into. *)
Lemma merge_again n m f : all_arrays f →
  merge_json (doc_at n (merge_json m (JObj f))) (JObj f) = doc_at n (merge_json m (JObj f)).
Proof.
  intros Hf. assert (∃ h0, merge_json m (JObj f) = merge_json (JObj h0) (JObj f)) as [h0 ->].
  { destruct m as [| | | | |h0]; [exists ∅..|by exists h0];
      (change (normalize_json (JObj f) = merge_json (JObj ∅) (JObj f)); symmetry; apply merge_json_obj_eq; [|intros k Hk; rewrite lookup_empty; apply eq_None_not_Some;
         intros [w [E _]%lookup_strip_nulls]; by rewrite lookup_fmap, Hk in E];
       intros k v Hk; rewrite lookup_empty; destruct (Hf k v Hk) as [a ->]; apply lookup_strip_nulls;
       rewrite lookup_fmap, Hk; done). }
  pose proof (merged_event n h0 None None None f) as He. 
  assert (purged h0 None None None f = JObj h0) as Hp.
  { destruct (purged_lookup h0 None None None f) as (p & -> & Hp). f_equal. apply map_eq. intros ev.
    rewrite Hp. by destruct (h0 !! ev) as [[]|]. }
  cbn zeta in He. rewrite Hp in He. destruct (He "") as (h' & Eh & _). rewrite Eh.
  apply merge_json_obj_eq; [|done]. intros ev v Hv. destruct (Hf ev v Hv) as [a ->].
  destruct (He ev) as (h'' & Eh' & Hev). rewrite Eh in Eh'. injection Eh' as <-. rewrite Hv in Hev.
  assert (∃ l, h' !! ev = Some (JArr (dedup (map normalize_json (l ++ a))))) as [l ->].
  { destruct (h0 !! ev) as [[| | | |l|]|]; rewrite Hev; first [by eexists|by exists []]. }
  f_equal. cbn [merge_json]. f_equal. symmetry. rewrite map_app, (map_ext_in normalize_json id (dedup _)), List.map_id.
  - apply dedup_app_old. intros x. rewrite map_app, elem_of_app. by right.
  - intros x Hx%list_elem_of_In. apply normalize_id. pose proof (normalized_items (l ++ a)) as Hn.
    rewrite Forall_forall in Hn. by apply Hn.
Qed.

Lemma purge_any v f enabled :
  purge_hooks_from_disabled_plugins (purge_stale_owned_hooks v (Some (JObj f)) (JObj f)) None enabled = v.
Proof. destruct v as [| | | | |h]; [reflexivity..|]. apply purged_self. Qed.
Lemma doc_merged_again n v f enabled : all_arrays f →
  let w := doc_at n (merge_json v (JObj f)) in
  doc_at n (merge_json (purge_hooks_from_disabled_plugins (purge_stale_owned_hooks w (Some (JObj f)) (JObj f)) None enabled) (JObj f)) = w.
Proof. intros Hf w. rewrite purge_any. unfold w. rewrite merge_again by done. apply doc_at_idemp. Qed.
Lemma doc_merged_self n f enabled : normal (JObj f) →
  doc_at n (merge_json (purge_hooks_from_disabled_plugins (purge_stale_owned_hooks (JObj f) (Some (JObj f)) (JObj f)) None enabled) (JObj f)) = JObj f.
Proof.
  intros Hn. rewrite purge_any. pose proof (merge_normalized (JObj f)) as Hm. rewrite normalize_id in Hm by done.
  rewrite Hm. by apply doc_at_normal.
Qed.
Lemma merged_hooks_at v f prev paths enabled :
  merged_hooks v (JObj f) prev paths enabled =
  doc_at 63 (merge_json (purge_hooks_from_disabled_plugins (purge_stale_owned_hooks v prev (JObj f)) paths enabled) (JObj f)).
Proof. unfold merged_hooks. apply dedup_hooks_doc_at. Qed.
Lemma merged_hooks_again v f prev paths enabled enabled' : all_arrays f →
  merged_hooks (merged_hooks v (JObj f) prev paths enabled) (JObj f) (Some (JObj f)) None enabled' =
  merged_hooks v (JObj f) prev paths enabled.
Proof. intros Hf. rewrite (merged_hooks_at v), merged_hooks_at. by rewrite doc_merged_again. Qed.
Lemma merged_hooks_self f enabled : normal (JObj f) →
  merged_hooks (JObj f) (JObj f) (Some (JObj f)) None enabled = JObj f.
Proof. intros Hn. rewrite merged_hooks_at. by rewrite doc_merged_self. Qed.

(** Rendering again over the result changes nothing: when the hooks of the render are arrays in
    normal form and are what the sidecar holds, a second reconciliation gives the same file,
    whatever was on disk before the first. *)
Theorem reconcile_settings_idempotent (disk : on_disk) can_move (fresh f r : gmap string json) prev moved :
  fresh !! "hooks" = Some (JObj f) → all_arrays f → normal (JObj f) →
  reconcile_settings disk can_move (JObj fresh) prev None = Ok (JObj r, moved) →
  reconcile_settings (Doc (JObj r)) can_move (JObj fresh) (Some (JObj f)) None = Ok (JObj r, false).
Proof.
  intros Hk Hf Hn H1. destruct (reconciled_lookup r fresh (Some (JObj f)) None can_move) as (r2 & -> & Hr2).
  do 3 f_equal. apply map_eq. intros k. rewrite Hr2. unfold settled_value.
  assert (Hcase : r = fresh ∨ ∃ obj, disk = Doc (JObj obj)).
  { destruct disk as [| | |[| | | | |obj]]; try (right; by exists obj); left; unfold reconcile_settings in H1;
      try destruct can_move; by simplify_eq. }
  destruct Hcase as [->|[obj ->]].
  - destruct (decide (k ∈ LLMENV_OWNED_SETTINGS_KEYS)); [|by destruct (fresh !! k); [|case_decide]].
    destruct (fresh !! k) as [v|] eqn:Ek; [|done]. case_decide as Eh; [|done]. subst k. rewrite Hk in Ek. injection Ek as <-.
    by rewrite merged_hooks_self.
  - destruct (reconciled_lookup obj fresh prev None can_move) as (r1 & E1 & Hr1). rewrite E1 in H1. injection H1 as -> _.
    rewrite Hr1. destruct (decide (k ∈ LLMENV_OWNED_SETTINGS_KEYS)).
    + unfold settled_value. destruct (fresh !! k) as [v|] eqn:Ek; [|done].
      destruct (decide (k = "hooks")) as [->|]; [|by destruct (obj !! k)].
      rewrite Hk in Ek. injection Ek as <-. destruct (obj !! "hooks") as [v|]; [by rewrite merged_hooks_again|].
      by rewrite merged_hooks_self.
    + destruct (fresh !! k); [done|]. by case_decide.
Qed.
End purge.
