(* ===== verification/CrushRender.v ===== *)
(** * The settings of Crush (src/adapter/crush/render.rs)

    The fragments of [crush.json] that come from the configuration: servers, model providers, the
    two lists of tools, and the environment, whose values Crush expands as shell words (how it
    does so is a parameter with laws). Log lines
    about a rule that cannot be expressed are left out. *)

From S2P Require Import Prelude RustStr Names Json JsonMerge Permissions LaunchProxy ConfigSchema ClaudePerms.

(** ** Servers and models *)

Section crush.
Context `{YamlOps}.

(** An entry of the servers: [Err] when the options of the server are no JSON. *)
Definition render_lsp_server (srv : LspServer) : result string (gmap string json) :=
  let e := put_some "timeout" json_nat (ls_timeout srv)
    (put_if (negb (bool_decide (ls_root_markers srv = []))) "root_markers" (json_strings (ls_root_markers srv))
    (put_if (negb (bool_decide (ls_filetypes srv = []))) "filetypes" (json_strings (ls_filetypes srv))
    (put_if (negb (bool_decide (ls_env srv = ∅))) "env" (json_map (ls_env srv))
    (put_if (negb (bool_decide (ls_args srv = []))) "args" (json_strings (ls_args srv))
    (<["command" := JStr (ls_command srv)]> ∅))))) in
  match ls_init_options srv with
  | None => Ok e
  | Some opts => v ← ok_or (yaml_json opts) (ls_name srv); Ok (<["init_options" := v]> e)
  end.
Fixpoint render_lsp_from (servers : list LspServer) (o : gmap string json) : result string json :=
  match servers with
  | [] => Ok (JObj o)
  | srv :: servers =>
    if ls_disabled srv then render_lsp_from servers o
    else e ← render_lsp_server srv; render_lsp_from servers (<[ls_name srv := JObj e]> o)
  end.
Definition render_lsp (servers : list LspServer) : result string json := render_lsp_from servers ∅.
End crush.

Definition render_model_source (m : ModelSource) : json :=
  let o := put_some "default_max_tokens" json_nat (mo_max_tokens m)
    (put_some "context_window" json_nat (mo_context_window m)
    (put_if (mo_reasoning m) "can_reason" (JBool true)
    (put_some "name" JStr (mo_name m) (<["id" := JStr (mo_id m)]> ∅)))) in
  JObj match mo_cost m with
       | None => o
       | Some c =>
         put_some "cost_per_1m_out_cached" JNum (co_cache_write c) (put_some "cost_per_1m_in_cached" JNum (co_cache_read c)
           (<["cost_per_1m_out" := JNum (co_output c)]> (<["cost_per_1m_in" := JNum (co_input c)]> o)))
       end.
Definition render_model_provider (p : ModelProvider) : json :=
  JObj (put_if (negb (bool_decide (mp_models p = []))) "models" (JArr (map render_model_source (mp_models p)))
    (put_if (negb (bool_decide (mp_headers p = ∅))) "default_headers" (json_map (mp_headers p))
    (put_some "api_key" JStr (mp_api_key p) (put_some "type" JStr (mp_api_type p)
    (put_some "api_endpoint" JStr (mp_base_url p) (put_some "name" JStr (mp_name p)
    (<["id" := JStr (mp_id p)]> ∅))))))).
Definition render_model_providers (providers : list ModelProvider) : json :=
  JObj (foldl (λ o p, if mp_disabled p then o else <[mp_id p := render_model_provider p]> o) ∅ providers).
Definition render_default_models (models : gmap string ModelRef) : json :=
  JObj ((λ r, JObj (<["provider" := JStr (mr_provider r)]> (<["model" := JStr (mr_model r)]> ∅))) <$> models).

(** ** Permissions *)

(** [allowed_tools] has no patterns and no paths: a rule with either is dropped. *)
Definition render_permission_rule (rule : PermissionRule) : list string :=
  match pm_pattern rule, pm_paths rule with
  | None, [] => match crush_key (pm_tool rule) with Some name => [name] | None => [] end
  | _, _ => []
  end.
Definition crush_aliases (crush_name : string) : list string :=
  if decide (crush_name = "edit") then ["multiedit"]
  else if decide (crush_name = "fetch") then ["agentic_fetch"] else [].
Definition render_disabled_tools (deny : list PermissionRule) : list string :=
  dedup (deny ≫= λ rule, render_permission_rule rule ≫= λ name, name :: crush_aliases name).

Definition native_list (native : option NativePermissionRules) (select : NativePermissionRules → list string) : list string :=
  match native with Some n => select n | None => [] end.
Definition render_permission_lists (perms : Permissions) (native : option NativePermissionRules)
  : list string * list string :=
  let allowed := (p_allow perms ≫= render_permission_rule) ++ native_list native n_allow in
  let withheld := omap (λ rule, crush_key (pm_tool rule)) (p_deny perms ++ p_ask perms) ++
    (if existsb (λ rule, bool_decide (pm_tool rule = "Write")) (p_deny perms) then ["edit"; "multiedit"] else []) ++
    native_list native n_ask ++ native_list native n_deny in
  let disabled := render_disabled_tools (p_deny perms) ++ native_list native n_deny in
  (dedup (filter (λ t, t ∉ withheld) allowed), dedup disabled).

(** [skills_out] is the folder of the skills, when there are any. *)
Definition render_options (skills_out : option string) (disabled_tools : list string) : option json :=
  let o := put_if (negb (bool_decide (disabled_tools = []))) "disabled_tools" (json_strings disabled_tools)
    (put_some "skills_paths" (λ s, json_strings [s]) skills_out ∅) in
  if decide (o = ∅) then None else Some (JObj o).

(** ** Environment *)

(** [str::replace] of one character by a text. *)
Fixpoint replace_char (c : ascii) (by_text s : string) : string :=
  match s with
  | "" => ""
  | String d s => (if Ascii.eqb d c then by_text else chr d) +:+ replace_char c by_text s
  end.
Definition escape_for_crush_expansion (value : string) : string :=
  replace_char "`" "\`" (replace_char "$" "\$" (replace_char "\" "\\" value)).
Definition render_env (env : gmap string string) : json := json_map (escape_for_crush_expansion <$> env).

Definition reject_native_disabled_tools `{YamlOps} (native : option yaml_value) : result unit unit :=
  match n ← native; o ← yaml_get "options" n; yaml_get "disabled_tools" o with
  | Some _ => Err tt
  | None => Ok tt
  end.

(** ** Laws *)

Definition escape_char (c : ascii) : string :=
  if Ascii.eqb c "\" || Ascii.eqb c "$" || Ascii.eqb c "`" then String "\" (chr c) else chr c.
Lemma replace_char_app c t s u : replace_char c t (s +:+ u) = replace_char c t s +:+ replace_char c t u.
Proof.
  induction s as [|d s IH]; [done|]. rewrite str_app_cons. cbn [replace_char]. by rewrite IH, str_app_assoc.
Qed.
Lemma escape_cons c s : escape_for_crush_expansion (String c s) = escape_char c +:+ escape_for_crush_expansion s.
Proof.
  unfold escape_for_crush_expansion, escape_char. cbn [replace_char]. rewrite !replace_char_app. f_equal.
  destruct (Ascii.eqb_spec c "\") as [->|N1]; [done|]. destruct (Ascii.eqb_spec c "$") as [->|N2]; [done|].
  unfold chr. cbn [replace_char orb]. rewrite (proj2 (Ascii.eqb_neq _ _) N2). cbn [replace_char]. unfold chr.
  rewrite str_app_nil_r. cbn [replace_char]. by destruct (Ascii.eqb_spec c "`") as [->|N3].
Qed.
Section expansion.
(** How Crush reads a value as a shell word, which the comment on [render_env] relies on: a
    backslash before a backslash, a dollar or a backquote stands for that character, and a
    character other than those three stands for itself. *)
Context (expand : string → option string).
Let special : list ascii := ["\"; "$"; "`"]%char.
Hypothesis expand_nil : expand "" = Some "".
Hypothesis expand_escape : ∀ c s, c ∈ special → expand (String "\" (String c s)) = String c <$> expand s.
Hypothesis expand_plain : ∀ c s, c ∉ special → expand (String c s) = String c <$> expand s.

(** A reader that expands like this gets every value of the environment as it was written. *)
Theorem crush_env_literal (value : string) : expand (escape_for_crush_expansion value) = Some value.
Proof.
  induction value as [|c s IH]; [done|]. rewrite escape_cons. unfold escape_char.
  destruct (Ascii.eqb c "\" || Ascii.eqb c "$" || Ascii.eqb c "`") eqn:E.
  - change (String "\" (chr c) +:+ escape_for_crush_expansion s) with (String "\" (String c (escape_for_crush_expansion s))).
    rewrite expand_escape, IH; [done|]. rewrite !orb_true_iff, !Ascii.eqb_eq in E. set_solver.
  - change (chr c +:+ escape_for_crush_expansion s) with (String c (escape_for_crush_expansion s)).
    rewrite expand_plain, IH; [done|]. rewrite !orb_false_iff, !Ascii.eqb_neq in E. set_solver.
Qed.
End expansion.

Lemma elem_of_rendered t rule : t ∈ render_permission_rule rule ↔
  pm_pattern rule = None ∧ pm_paths rule = [] ∧ crush_key (pm_tool rule) = Some t.
Proof.
  unfold render_permission_rule.
  destruct (pm_pattern rule), (pm_paths rule), (crush_key (pm_tool rule)) as [n|];
    rewrite ?list_elem_of_singleton, ?elem_of_nil; naive_solver.
Qed.
(** A tool prompts or is off whenever a rule says so. A tool is allowed when an unscoped allow
    rule or a native rule names it and no ask or deny rule, scoped or not, names it; a deny of
    [Write] withholds the two tools that also write. The tools that are off are those of the
    unscoped deny rules with the tools that do the same, and the native denies. A tool in both
    lists is one that an alias turned off. *)
Theorem crush_permissions_correct (perms : Permissions) (native : option NativePermissionRules) (t : string) :
  let '(allowed, disabled) := render_permission_lists perms native in
  let unscoped (rules : list PermissionRule) (name : string) := ∃ r, r ∈ rules ∧ pm_pattern r = None ∧ pm_paths r = [] ∧ crush_key (pm_tool r) = Some name in
  (t ∈ allowed ↔
    (unscoped (p_allow perms) t ∨ t ∈ native_list native n_allow) ∧
    (∀ r, r ∈ p_deny perms ∨ r ∈ p_ask perms → crush_key (pm_tool r) ≠ Some t) ∧
    (t = "edit" ∨ t = "multiedit" → ∀ r, r ∈ p_deny perms → pm_tool r ≠ "Write") ∧
    t ∉ native_list native n_ask ∧ t ∉ native_list native n_deny) ∧
  (t ∈ disabled ↔
    (∃ name, unscoped (p_deny perms) name ∧ (t = name ∨ t ∈ crush_aliases name)) ∨ t ∈ native_list native n_deny) ∧
  (t ∈ allowed → t ∈ disabled → ∃ name, unscoped (p_deny perms) name ∧ t ∈ crush_aliases name) ∧
  NoDup allowed ∧ NoDup disabled.
Proof.
  cbn [render_permission_lists]. cbn zeta.
  set (unscoped := λ (rules : list PermissionRule) (name : string), ∃ r, r ∈ rules ∧ pm_pattern r = None ∧ pm_paths r = [] ∧ crush_key (pm_tool r) = Some name).
  assert (Hw : (t ∈ if existsb (λ rule, bool_decide (pm_tool rule = "Write")) (p_deny perms) then ["edit"; "multiedit"] else []) ↔
    (t = "edit" ∨ t = "multiedit") ∧ ∃ r, r ∈ p_deny perms ∧ pm_tool r = "Write").
  { destruct (existsb _ _) eqn:E.
    - apply existsb_exists in E as (r & Hr%list_elem_of_In & Ew%bool_decide_eq_true).
      rewrite !elem_of_cons, elem_of_nil. naive_solver.
    - rewrite elem_of_nil. split; [done|]. intros [_ (r & Hr & Ew)]. rewrite <- not_true_iff_false in E. apply E.
      apply existsb_exists. exists r. rewrite bool_decide_eq_true. by rewrite <- list_elem_of_In. }
  assert (Hk : t ∈ omap (λ rule, crush_key (pm_tool rule)) (p_deny perms ++ p_ask perms) ↔
    ∃ r, (r ∈ p_deny perms ∨ r ∈ p_ask perms) ∧ crush_key (pm_tool r) = Some t).
  { rewrite list_elem_of_omap. by setoid_rewrite elem_of_app. }
  assert (Ha : t ∈ (p_allow perms ≫= render_permission_rule) ↔ unscoped (p_allow perms) t).
  { rewrite list_elem_of_bind. setoid_rewrite elem_of_rendered. unfold unscoped. naive_solver. }
  assert (Hd : t ∈ render_disabled_tools (p_deny perms) ↔ ∃ name, unscoped (p_deny perms) name ∧ (t = name ∨ t ∈ crush_aliases name)).
  { unfold render_disabled_tools, unscoped. rewrite elem_of_dedup, list_elem_of_bind. setoid_rewrite list_elem_of_bind.
    setoid_rewrite elem_of_rendered. setoid_rewrite elem_of_cons. naive_solver. }
  rewrite !elem_of_dedup, list_elem_of_filter, !elem_of_app, Hw, Hk, Ha, Hd.
  assert (Hboth : ∀ name, unscoped (p_deny perms) name → ∃ r, r ∈ p_deny perms ∧ crush_key (pm_tool r) = Some name)
    by (intros name (r & ? & _ & _ & ?); by exists r).
  split_and!; try apply NoDup_dedup; clear Hw Hk Ha Hd.
  - naive_solver.
  - done.
  - intros [Hn _] [(name & Hu & [->|Hal])|Hnat]; [|by exists name|tauto].
    destruct (Hboth name Hu) as (r & ? & ?). destruct Hn. left. naive_solver.
Qed.
