(* ===== verification/Slippage.v ===== *)
(** * Reads before writes (src/hook_run/slippage.rs, slippage/stats_log.rs, slippage_read.rs,
    slippage_read/shape.rs)

    A [Write] to a file that the session did not read is denied. The reads are kept in a stats log,
    one file per session; a single-file view with a shell command counts as a read. The texts that
    a stop and a turn get are here too. *)

From S2P Require Import Prelude RustStr Names Json HookState ShellSplit CdGuard ConfigSchema.

Definition SLIPPAGE_DIR : string := "slippage".
Definition MOVE_ASIDE_TRIES : nat := 100.

Definition SELF_CRITIQUE : string :=
  "Before finishing, check: did you run the tests and read the output? Is anything you noticed and didn't explain still unexplained? Is the whole ask done, or only the easy part? If any answer is no, say so plainly rather than reporting success.".
Definition RULES_DIGEST : string :=
  "Standing rules for this session: finish the whole task, not the easy part; verify with tests or a real run before reporting success; say plainly when something is unverified, blocked, or skipped; ask before destructive or outward-facing actions.".

(** The layer is on: the feature and the layer's own switch. *)
Definition layer (toggle : SlippageControl → bool) (cfg : option SlippageControl) : bool :=
  match cfg with Some cfg => sl_enabled cfg && toggle cfg | None => false end.
Definition handle_stop (cfg : option SlippageControl) : string :=
  if layer sl_self_critique cfg then SELF_CRITIQUE else "".
Definition handle_turn (cfg : option SlippageControl) : string :=
  if layer sl_rule_reinjection cfg then RULES_DIGEST else "".

(** ** Shell views *)

Definition SHELL_SYNTAX : list ascii :=
  ["|"; ">"; "<"; "&"; ";"; "`"; "$"; "010"; "'"; "034"; "\"; "*"; "?"; "("; ")"]%char.
Definition is_shell_syntax (c : ascii) : bool := bool_decide (c ∈ SHELL_SYNTAX).

Definition is_count (word : string) : bool :=
  negb (bool_decide (word = "")) && str_all is_ascii_digit word && negb (str_all (Ascii.eqb "0") word).
Definition is_sed_range (script : string) : bool :=
  match strip_suffix "p" script with
  | None => false
  | Some range =>
    let bounds := split_on (Ascii.eqb ",") range in
    bool_decide (1 ≤ length bounds ≤ 2) && forallb is_count bounds
  end.
Definition plain_file (word : string) : option string :=
  if starts_with "-" word || starts_with "~" word then None else Some word.

(** The file that the command views, when it is one plain view of one file. *)
Definition single_file_read (command : string) : option string :=
  if negb (str_all (λ c, negb (is_shell_syntax c)) command) then None
  else
    match split_whitespace command with
    | [tool; file] => if decide (tool ∈ ["cat"; "head"; "tail"]) then plain_file file else None
    | [tool; flag; arg; file] =>
      if decide (tool ∈ ["head"; "tail"] ∧ flag = "-n" ∧ is_count arg = true) then plain_file file
      else if decide (tool = "sed" ∧ flag = "-n" ∧ is_sed_range arg = true) then plain_file file
      else None
    | _ => None
    end.

(** ** Modifying commands *)

Definition MODIFYING_COMMANDS : list string :=
  ["rm"; "mv"; "cp"; "dd"; "chmod"; "chown"; "truncate"; "kill"; "pkill"; "shutdown"; "reboot"; "mkfs"; "docker";
   "kubectl"; "terraform"; "systemctl"].
Definition is_modifying_segment (words : list string) : bool :=
  match program_words words with
  | [] => false
  | head :: tail =>
    if decide (program head = "git") then
      match git_subcommand tail with
      | Some sub => bool_decide (sub ∈ ["push"; "reset"; "rebase"; "clean"])
      | None => false
      end
    else bool_decide (program head ∈ MODIFYING_COMMANDS)
  end.
Definition is_modifying (command : string) : bool :=
  match shell_segments command with
  | Ok segments => existsb is_modifying_segment segments
  | Err NestingTooDeep => true
  end.

(** ** The stats log *)

Record SessionStats := mkStats { ss_paths : gset string; ss_tools : gmap string N }.
Definition empty_stats : SessionStats := mkStats ∅ ∅.

(** What the file system says of the log in one call: a read that fails finds bytes of a regular
    file that are no text (or too many); the rename of the log succeeds; the shown path of the log and
    the errors of a read and of the decoder. *)
Record LogIo := mkLogIo {
  li_unusable : bool; li_rename : bool; li_path : string; li_read_error : string; li_decode_error : string }.
(** What it says of a path: the canonical form, or why there is none; and whether it is absent. *)
Record PathView := mkPathView { pv_canonical : string → result string string; pv_absent : string → bool }.

Definition safe_session (session_id : option string) (h : Hooks) : option string * Hooks :=
  match session_id with
  | None => (None, h)
  | Some id => if is_valid_short_name id then (Some id, h) else (None, note (BadSessionId SLIPPAGE_DIR) h)
  end.
Definition stats_path (session_id : string) : string * string := json_file SLIPPAGE_DIR session_id.
Definition stats_lock (io : HookIo) (session_id : string) (h : Hooks) : bool * Hooks :=
  lock_state_file io SLIPPAGE_DIR session_id h.

Inductive Fault := Corrupt (cause : string) | UnreadableLog (cause : string).

Definition resolved_key (view : PathView) (path : string) : string * option string :=
  match pv_canonical view path with Ok p => (p, None) | Err e => (path, Some e) end.
Definition path_key (view : PathView) (path : string) : string := (resolved_key view path).1.

Definition unread_write_deny (path : string) (unresolved : option string) : string :=
  let base := "__DENY__:`" +:+ path +:+ "` already exists and you haven't read it in this session. Write replaces the whole file, so read it first and confirm what you'd be discarding. This fires most often after a compaction dropped the earlier read." in
  match unresolved with
  | None => base
  | Some e => base +:+ " llmenv cannot resolve `" +:+ path +:+ "` (" +:+ e +:+ "), so it compared the path as written. If you read this file by another path, read it again by this path."
  end.

(** [bash_read_key]: the key of the file that a shell call views. *)
Definition bash_read_key (view : PathView) (payload : json) (h : Hooks) : option string * Hooks :=
  match (json_get "tool_input" payload ≫= json_get "command") ≫= as_str with
  | None => (None, note (PayloadFault SLIPPAGE_DIR) h)
  | Some command =>
    match single_file_read command with
    | None => (None, h)
    | Some file =>
      match json_get "cwd" payload ≫= as_str with
      | None =>
        if is_absolute file then (Some (path_key view file), h) else (None, note (TargetFault file) h)
      | Some cwd => (Some (path_key view (path_join cwd file)), h)
      end
    end
  end.

(** The names [<log>.corrupt], [<log>.corrupt.1], ... in order. *)
Definition copy_name (session_id : string) (n : nat) : string * string :=
  let base := session_id +:+ ".json.corrupt" in
  (SLIPPAGE_DIR, if decide (n = 0) then base else base +:+ "." +:+ pretty (N.of_nat n)).
Fixpoint first_free (tries n : nat) (session_id : string) (h : Hooks) : option (string * string) :=
  match tries with
  | 0 => None
  | S tries =>
    if decide (hk_files h !! copy_name session_id n = None) then Some (copy_name session_id n)
    else first_free tries (S n) session_id h
  end.
(** [std::fs::rename] of a file to a name that is free. The change time of the file is then now. *)
Definition rename_file (io : HookIo) (old new : string * string) (h : Hooks) : Hooks :=
  match hk_files h !! old with
  | Some e => mkHooks (<[new := mkEntry (en_content e) (Some (io_now io))]> (delete old (hk_files h))) (hk_notices h)
  | None => h
  end.
Definition move_aside (io : HookIo) (lio : LogIo) (session_id : string) (h : Hooks) : option (string * string) * Hooks :=
  match first_free MOVE_ASIDE_TRIES 0 session_id h with
  | None => (None, h)
  | Some candidate =>
    if li_rename lio then (Some candidate, rename_file io (stats_path session_id) candidate h) else (None, h)
  end.

Section stats.
Context `{HCodec : Codec SessionStats}.

Definition read_checked (lio : LogIo) (session_id : string) (h : Hooks) : result Fault SessionStats :=
  match read_text (stats_path session_id) h with
  | Got text =>
    match decode text with
    | Some stats => Ok stats
    | None => Err (Corrupt ("the slippage stats log " +:+ li_path lio +:+ " is corrupt (" +:+ li_decode_error lio +:+ ")"))
    end
  | Missing => Ok empty_stats
  | Failed =>
    let mangled := match en_content <$> hk_files h !! stats_path session_id with Some (Mangled _) => true | _ => false end in
    if mangled || li_unusable lio
    then Err (Corrupt ("the slippage stats log " +:+ li_path lio +:+ " is not a usable log (" +:+ li_read_error lio +:+ ")"))
    else Err (UnreadableLog ("cannot read the slippage stats log " +:+ li_path lio +:+ " (" +:+ li_read_error lio +:+ ")"))
  end.
Definition fault_text (fault : Fault) : string :=
  match fault with
  | Corrupt cause => cause +:+ ". Fix: remove the file, or Read any file to rewrite the log."
  | UnreadableLog cause => cause +:+ ". Fix: correct the problem in the error, or remove the file."
  end.
Definition read_stats (lio : LogIo) (session_id : string) (h : Hooks) : result string SessionStats :=
  map_err fault_text (read_checked lio session_id h).
Definition load_stats (lio : LogIo) (session_id : string) (h : Hooks) : SessionStats * Hooks :=
  match read_stats lio session_id h with
  | Ok stats => (stats, h)
  | Err _ => (empty_stats, note (StateUnreadable SLIPPAGE_DIR) h)
  end.

Definition load_stats_for_rewrite (io : HookIo) (lio : LogIo) (session_id : string) (locked : bool) (h : Hooks)
  : option SessionStats * Hooks :=
  match read_checked lio session_id h with
  | Ok stats => (Some stats, h)
  | Err (UnreadableLog _) => (None, note (StateUnreadable SLIPPAGE_DIR) h)
  | Err (Corrupt _) =>
    if negb locked then (None, note (StateCorrupt SLIPPAGE_DIR) h)
    else
      match move_aside io lio session_id h with
      | (Some _, h) => (Some empty_stats, note (StateCorrupt SLIPPAGE_DIR) h)
      | (None, h) => (None, note (StateCorrupt SLIPPAGE_DIR) h)
      end
  end.

Definition save_stats (io : HookIo) (session_id : string) (stats : SessionStats) (h : Hooks) : Hooks :=
  let h := prune_folder io SLIPPAGE_DIR h in
  let '(done, h) := write_file io (stats_path session_id) (encode stats) h in
  if done then h else note (NotSaved SLIPPAGE_DIR) h.

(** ** The hooks *)

(** The tool and the path of the call, when it has both. *)
Definition tool_call (payload : json) : option (string * string) :=
  match json_get "tool_name" payload ≫= as_str, (json_get "tool_input" payload ≫= json_get "file_path") ≫= as_str with
  | Some tool, Some path => Some (tool, path)
  | _, _ => None
  end.

(** Both hooks change the log under its lock: a load, a change, a save. *)
Definition update_stats (io : HookIo) (lio : LogIo) (session_id : string) (change : SessionStats → SessionStats)
    (h : Hooks) : Hooks :=
  let '(locked, h) := stats_lock io session_id h in
  match load_stats_for_rewrite io lio session_id locked h with
  | (None, h) => h
  | (Some stats, h) => save_stats io session_id (change stats) h
  end.
Definition with_read (key : option string) (stats : SessionStats) : SessionStats :=
  match key with Some k => mkStats ({[k]} ∪ ss_paths stats) (ss_tools stats) | None => stats end.
Definition guard_write (lio : LogIo) (view : PathView) (session_id path : string) (h : Hooks) : string :=
  if pv_absent view path then ""
  else
    match read_stats lio session_id h with
    | Ok stats =>
      let '(key, unresolved) := resolved_key view path in
      if decide (key ∈ ss_paths stats) then "" else unread_write_deny path unresolved
    | Err problem => "__DENY__:llmenv cannot confirm that you read `" +:+ path +:+ "`. " +:+ problem
    end.
Definition handle_pre_tool_use (io : HookIo) (lio : LogIo) (view : PathView) (cfg : option SlippageControl)
    (payload : json) (session_id : option string) (h : Hooks) : string * Hooks :=
  if negb (layer sl_read_before_edit cfg) then ("", h)
  else
    let '(id, h) := safe_session session_id h in
    match id with
    | None => ("", h)
    | Some session_id =>
      match tool_call payload with
      | None => ("", h)
      | Some (tool, path) =>
        if decide (tool = "Read") then ("", update_stats io lio session_id (with_read (Some (path_key view path))) h)
        else if decide (tool = "Write") then (guard_write lio view session_id path h, h)
        else ("", h)
      end
    end.

(** [u64] addition as the release build does it. *)
Definition count_tool (tool : string) (tools : gmap string N) : gmap string N :=
  <[tool := ((default 0 (tools !! tool) + 1) mod (u64_max + 1))%N]> tools.
Definition with_metric (on : bool) (tool : string) (stats : SessionStats) : SessionStats :=
  if on then mkStats (ss_paths stats) (count_tool tool (ss_tools stats)) else stats.

Definition handle_post_tool_use (io : HookIo) (lio : LogIo) (view : PathView) (cfg : option SlippageControl)
    (payload : json) (session_id : option string) (h : Hooks) : Hooks :=
  match cfg with
  | None => h
  | Some cfg =>
    if negb (sl_enabled cfg) then h
    else
      let '(id, h) := safe_session session_id h in
      match id, json_get "tool_name" payload ≫= as_str with
      | Some session_id, Some tool =>
        let '(read_key, h) :=
          if sl_read_before_edit cfg && is_shell_tool tool then bash_read_key view payload h else (None, h) in
        if bool_decide (read_key = None) && negb (sl_metrics cfg) then h
        else update_stats io lio session_id (λ s, with_metric (sl_metrics cfg) tool (with_read read_key s)) h
      | _, _ => h
      end
  end.

(** [session_metrics_summary]; [ratio] is the float division with one decimal. Sums wrap like [u64]. *)
Definition EDIT_TOOLS : list string := ["Edit"; "Write"; "MultiEdit"].
Definition sum_u64 (l : list N) : N := (foldr N.add 0 l mod (u64_max + 1))%N.
Definition metrics_text (ratio : N → N → string) (tools : gmap string N) : option string :=
  if decide (tools = ∅) then None
  else
    let total := sum_u64 (map_to_list tools).*2 in
    let reads := default 0%N (tools !! "Read") in
    let edits := sum_u64 (omap (λ t, tools !! t) EDIT_TOOLS) in
    let ratio := if decide (edits = 0%N) then "no edits" else ratio reads edits +:+ " reads per edit" in
    Some ("Session tool use: " +:+ pretty total +:+ " calls, " +:+ pretty reads +:+ " reads, " +:+ pretty edits +:+
      " edits (" +:+ ratio +:+ ").").
Definition session_metrics_summary (ratio : N → N → string) (lio : LogIo) (cfg : option SlippageControl)
    (session_id : option string) (h : Hooks) : option string * Hooks :=
  if negb (layer sl_metrics cfg) then (None, h)
  else
    let '(id, h) := safe_session session_id h in
    match id with
    | None => (None, h)
    | Some id => let '(stats, h) := load_stats lio id h in (metrics_text ratio (ss_tools stats), h)
    end.
(** ** The reference *)

Inductive slip_event := PreCall (payload : json) | PostCall (payload : json) | ContextLost.
Record moment := mkMoment { mo_io : HookIo; mo_log : LogIo; mo_view : PathView }.

(** What one event answers, with the log as the state. *)
Definition handle (cfg : option SlippageControl) (id : string) (m : moment) (e : slip_event) (h : Hooks) : string * Hooks :=
  match e with
  | PreCall payload => handle_pre_tool_use (mo_io m) (mo_log m) (mo_view m) cfg payload (Some id) h
  | PostCall payload => ("", handle_post_tool_use (mo_io m) (mo_log m) (mo_view m) cfg payload (Some id) h)
  | ContextLost => ("", reset_read_state_after_compaction (mo_io m) (Some id) true h)
  end.
Fixpoint handle_all (cfg : option SlippageControl) (id : string) (events : list (moment * slip_event)) (h : Hooks)
  : list string :=
  match events with
  | [] => []
  | (m, e) :: events => let '(answer, h) := handle cfg id m e h in answer :: handle_all cfg id events h
  end.

(** The file that an event shows to the agent, and the file that it is about to replace. *)
Definition shows (view : PathView) (e : slip_event) : option string :=
  match e with
  | PreCall payload =>
    match tool_call payload with
    | Some (tool, path) => if decide (tool = "Read") then Some (path_key view path) else None
    | None => None
    end
  | PostCall payload =>
    match json_get "tool_name" payload ≫= as_str with
    | Some tool => if is_shell_tool tool then (bash_read_key view payload (mkHooks ∅ [])).1 else None
    | None => None
    end
  | ContextLost => None
  end.
Definition replaces (e : slip_event) : option string :=
  match e with
  | PreCall payload =>
    match tool_call payload with
    | Some (tool, path) => if decide (tool = "Write") then Some path else None
    | None => None
    end
  | _ => None
  end.
(** The files that the agent has seen since its context was last lost, and the answers that follow. *)
Definition seen_after (view : PathView) (e : slip_event) (seen : gset string) : gset string :=
  match e with
  | ContextLost => ∅
  | _ => match shows view e with Some key => {[key]} ∪ seen | None => seen end
  end.
Definition write_answer (view : PathView) (e : slip_event) (seen : gset string) : string :=
  match replaces e with
  | Some path =>
    if pv_absent view path then ""
    else if decide (path_key view path ∈ seen) then "" else unread_write_deny path (resolved_key view path).2
  | None => ""
  end.
Fixpoint write_answers (events : list (moment * slip_event)) (seen : gset string) : list string :=
  match events with
  | [] => []
  | (m, e) :: events => write_answer (mo_view m) e seen :: write_answers events (seen_after (mo_view m) e seen)
  end.

(** ** The log holds what was read *)

Context `{HLaws : !CodecLaws SessionStats}.

Definition holds (id : string) (seen : gset string) (h : Hooks) : Prop :=
  match read_text (stats_path id) h with
  | Got text => ∃ stats, decode text = Some stats ∧ ss_paths stats = seen
  | Missing => seen = ∅
  | Failed => False
  end.

Lemma holds_seen_files id seen h h' : hk_files h = hk_files h' → holds id seen h → holds id seen h'.
Proof. intros E. unfold holds, read_text. by rewrite E. Qed.
Lemma holds_read lio id seen h : holds id seen h → ∃ stats, read_checked lio id h = Ok stats ∧ ss_paths stats = seen.
Proof.
  unfold holds, read_checked. destruct (read_text _ h) as [text| |]; [| |done].
  - intros (stats & -> & E). eauto.
  - intros ->. by exists empty_stats.
Qed.
Lemma holds_save io id stats h : io_write io SLIPPAGE_DIR = true → holds id (ss_paths stats) (save_stats io id stats h).
Proof.
  intros Hw. unfold save_stats, write_file. cbn [stats_path json_file fst]. rewrite Hw.
  unfold holds, read_text, put_file, stats_path. cbn [hk_files]. rewrite lookup_insert_eq.
  cbn [fmap option_fmap option_map en_content]. rewrite decode_encode. eauto.
Qed.
(** A save that fails leaves the log, or the sweep before it took the log away. *)
Lemma save_fails io id stats kept h : io_write io SLIPPAGE_DIR = false → holds id kept h →
  ∃ kept', holds id kept' (save_stats io id stats h) ∧ kept' ⊆ kept.
Proof.
  intros Hw Hh. unfold save_stats, write_file. cbn [stats_path json_file fst]. rewrite Hw.
  destruct (hk_files (prune_folder io SLIPPAGE_DIR h) !! stats_path id) as [e|] eqn:E.
  - exists kept. split; [|done]. unfold holds, read_text in *. cbn [hk_files note]. rewrite E.
    apply prune_folder_lookup in E as [E _]. by rewrite E in Hh.
  - exists ∅. split; [|set_solver]. unfold holds, read_text. cbn [hk_files note]. by rewrite E.
Qed.
Lemma holds_update io lio id change kept h : holds id kept h → ∃ stats kept', ss_paths stats = kept ∧
  holds id kept' (update_stats io lio id change h) ∧ kept' ⊆ kept ∪ ss_paths (change stats) ∧
  (io_write io SLIPPAGE_DIR = true → kept' = ss_paths (change stats)).
Proof.
  intros Hh. unfold update_stats. destruct (stats_lock io id h) as [locked h1] eqn:E.
  assert (H1 : holds id kept h1).
  { unfold holds, stats_path, stats_lock in *. pose proof (lock_keeps_text io SLIPPAGE_DIR id h SLIPPAGE_DIR id) as Hl.
    rewrite E in Hl. cbn [snd] in Hl. by rewrite Hl. }
  destruct (holds_read lio id kept h1 H1) as (stats & Hr & Hs). unfold load_stats_for_rewrite. rewrite Hr.
  exists stats. destruct (io_write io SLIPPAGE_DIR) eqn:Hw.
  - exists (ss_paths (change stats)). split_and!; [done|by apply holds_save|set_solver|done].
  - destruct (save_fails io id (change stats) kept h1 Hw H1) as (kept' & Hk & Hsub). exists kept'.
    split_and!; [done|done|set_solver|done].
Qed.

Lemma holds_reset io id seen h : is_valid_short_name id = true → (∀ k, io_remove io k = true) →
  holds id seen h → holds id ∅ (reset_read_state_after_compaction io (Some id) true h).
Proof.
  intros Hv Hr _. unfold reset_read_state_after_compaction, reset_read_state. rewrite Hv. cbn [negb READ_STATE foldl].
  assert (Hrem : ∀ n k h, hk_files (remove_file io n k h) = delete k (hk_files h)).
  { intros n k h0. unfold remove_file. case_decide as Hk; [by rewrite delete_id|]. by rewrite Hr. }
  unfold holds, read_text. rewrite !Hrem. rewrite lookup_delete_ne by done. unfold stats_path. by rewrite lookup_delete_eq.
Qed.

Lemma bash_read_key_files view payload h : hk_files (bash_read_key view payload h).2 = hk_files h.
Proof. unfold bash_read_key. repeat case_match; done. Qed.
Lemma bash_read_key_stateless view payload h h' : (bash_read_key view payload h).1 = (bash_read_key view payload h').1.
Proof. unfold bash_read_key. repeat case_match; done. Qed.

(** One event, from a log that holds [kept]: the answer is that of the reference, and the log then
    holds what the event leaves of [kept], or less when it cannot be saved. *)
Lemma handle_step cfg id m e kept h :
  layer sl_read_before_edit cfg = true → is_valid_short_name id = true →
  (e = ContextLost → ∀ k, io_remove (mo_io m) k = true) → holds id kept h →
  ∃ h' kept', handle cfg id m e h = (write_answer (mo_view m) e kept, h') ∧ holds id kept' h' ∧
    kept' ⊆ seen_after (mo_view m) e kept ∧ (io_write (mo_io m) SLIPPAGE_DIR = true → kept' = seen_after (mo_view m) e kept).
Proof.
  intros Hon Hv Hr Hh.
  assert (Hup : ∀ change h1, holds id kept h1 →
    (∀ s, ss_paths s = kept → ss_paths (change s) = seen_after (mo_view m) e kept) → kept ⊆ seen_after (mo_view m) e kept →
    ∃ kept', holds id kept' (update_stats (mo_io m) (mo_log m) id change h1) ∧ kept' ⊆ seen_after (mo_view m) e kept ∧
      (io_write (mo_io m) SLIPPAGE_DIR = true → kept' = seen_after (mo_view m) e kept)).
  { intros change h1 H1 Hc Hsub. destruct (holds_update (mo_io m) (mo_log m) id change kept h1 H1) as (s & kept' & Es & Hk & Hk' & He).
    rewrite (Hc s Es) in *. exists kept'. split_and!; [done|set_solver|done]. }
  destruct e as [payload|payload|]; cbn [handle].
  - unfold handle_pre_tool_use, write_answer, seen_after, shows, replaces, safe_session in *. rewrite Hon, Hv. cbn [negb].
    destruct (tool_call payload) as [[tool path]|]; [|by eexists _, _].
    destruct (decide (tool = "Read")) as [->|Hn].
    { rewrite decide_False by done. destruct (Hup (with_read (Some (path_key (mo_view m) path))) h Hh) as (kept' & Hk);
        [by intros s <-|set_solver|]. eexists _, kept'. by split. }
    destruct (decide (tool = "Write")) as [->|Hn']; [|by eexists _, _]. eexists _, kept. split; [|done]. f_equal. unfold guard_write.
    destruct (pv_absent (mo_view m) path); [done|]. unfold read_stats.
    destruct (holds_read (mo_log m) id kept h Hh) as (s & -> & <-). cbn [map_err]. unfold path_key.
    by destruct (resolved_key (mo_view m) path) as [key unresolved].
  - enough (∃ kept', holds id kept' (handle_post_tool_use (mo_io m) (mo_log m) (mo_view m) cfg payload (Some id) h) ∧
      kept' ⊆ seen_after (mo_view m) (PostCall payload) kept ∧
      (io_write (mo_io m) SLIPPAGE_DIR = true → kept' = seen_after (mo_view m) (PostCall payload) kept)) as (kept' & Hk)
      by (eexists _, kept'; by split).
    unfold handle_post_tool_use, seen_after, shows, layer in *.
    destruct cfg as [cfg|]; [|done]. apply andb_true_iff in Hon as [Hen Hrb]. rewrite Hen, Hrb. unfold safe_session.
    rewrite Hv. cbn [negb andb]. destruct (json_get "tool_name" payload ≫= as_str) as [tool|]; [|by exists kept].
    rewrite (bash_read_key_stateless _ payload (mkHooks ∅ []) h) in *.
    pose proof (bash_read_key_files (mo_view m) payload h) as Hf.
    destruct (is_shell_tool tool); cbn [andb].
    + destruct (bash_read_key _ payload h) as [key h1]. cbn [fst snd] in *.
      pose proof (holds_seen_files id kept h h1 (eq_sym Hf) Hh) as H1.
      destruct key as [key|]; cbn [bool_decide negb andb].
      * apply Hup; [done| |set_solver]. intros s <-. by destruct (sl_metrics cfg).
      * destruct (sl_metrics cfg); [|by exists kept]. apply Hup; [done|by intros s <-|done].
    + cbn [bool_decide]. destruct (sl_metrics cfg); [|by exists kept]. apply Hup; [done|by intros s <-|done].
  - eexists _, ∅. split; [done|]. split_and!; [|done..]. apply (holds_reset _ _ kept); [done|by apply Hr|done].
Qed.
Lemma write_answer_mono view e kept seen : kept ⊆ seen → write_answer view e kept = "" → write_answer view e seen = "".
Proof.
  intros Hs. unfold write_answer. destruct (replaces e) as [path|]; [|done]. destruct (pv_absent view path); [done|].
  case_decide as Hk; [intros _; rewrite decide_True; [done|by apply Hs]|]. unfold unread_write_deny.
  by destruct (resolved_key view path).2.
Qed.
Lemma seen_after_mono view e kept seen : kept ⊆ seen → seen_after view e kept ⊆ seen_after view e seen.
Proof. intros Hs. unfold seen_after. destruct e; [destruct (shows _ _)..|]; set_solver. Qed.

(** C10: the stats log implements the memory of what the agent has seen since its context was last
    lost, by a [Read] or by a plain single-file shell view. In a run of tool calls of one session in
    which the log can be removed when the context is lost, a [Write] that is let through is of a file
    that does not exist or that the agent has seen, whatever else fails: locks, saves, sweeps. When the
    saves succeed too, a [Write] is denied exactly when its file exists and was not seen. *)
Theorem write_guard_refines (cfg : option SlippageControl) (id : string) (events : list (moment * slip_event)) (h : Hooks) :
  layer sl_read_before_edit cfg = true → is_valid_short_name id = true →
  Forall (λ me, me.2 = ContextLost → ∀ k, io_remove (mo_io me.1) k = true) events →
  hk_files h !! stats_path id = None →
  Forall2 (λ answer reference, answer = "" → reference = "") (handle_all cfg id events h) (write_answers events ∅) ∧
  (Forall (λ me, io_write (mo_io me.1) SLIPPAGE_DIR = true) events → handle_all cfg id events h = write_answers events ∅).
Proof.
  intros Hon Hv He Hn. assert (Hh : holds id ∅ h) by (unfold holds, read_text; by rewrite Hn).
  split.
  - clear Hn. assert (Hsub : ∅ ⊆ (∅ : gset string)) by done. revert Hh Hsub.
    generalize (∅ : gset string) at 1 2 as kept. generalize (∅ : gset string) as seen. revert h.
    induction He as [|[m e] events Hr He IH]; intros h seen kept Hh Hsub; [constructor|]. cbn [handle_all write_answers fst snd] in *.
    destruct (handle_step cfg id m e kept h Hon Hv Hr Hh) as (h' & kept' & -> & Hh' & Hk & _). constructor.
    + by apply write_answer_mono.
    + apply (IH h' _ kept'); [done|]. etrans; [exact Hk|]. by apply seen_after_mono.
  - clear Hn. revert Hh. generalize (∅ : gset string) as seen. revert h.
    induction He as [|[m e] events Hr He IH]; intros h seen Hh Hw; [done|]. cbn [handle_all write_answers fst snd] in *.
    apply Forall_cons in Hw as [Hw Hws]. destruct (handle_step cfg id m e seen h Hon Hv Hr Hh) as (h' & kept' & -> & Hh' & _ & Hk).
    f_equal. apply IH; [|done]. by rewrite <- (Hk Hw).
Qed.

(** ** A log that cannot be used *)

(** A log that cannot be read or decoded denies each [Write] to a file that exists, with the log as
    the cause; a file that does not exist may be written whatever the log is. *)
Theorem write_guard_fails_closed (lio : LogIo) (view : PathView) (id path : string) (h : Hooks) :
  guard_write lio view id path h = "" ↔
  pv_absent view path = true ∨ ∃ stats, read_checked lio id h = Ok stats ∧ path_key view path ∈ ss_paths stats.
Proof.
  unfold guard_write, read_stats, path_key. destruct (pv_absent view path); [naive_solver|].
  destruct (read_checked lio id h) as [stats|fault]; cbn [map_err].
  - destruct (resolved_key view path) as [key unresolved]. case_decide as Hk; [naive_solver|].
    split; [|naive_solver]. unfold unread_write_deny. by destruct unresolved.
  - split; [done|]. naive_solver.
Qed.

Lemma copy_not_log id n : copy_name id n ≠ stats_path id.
Proof.
  unfold copy_name, stats_path, json_file. intros [= E]. apply (f_equal String.length) in E. revert E.
  case_decide; rewrite !str_length_app; cbn; lia.
Qed.
Lemma copy_not_lock id n : copy_name id n ≠ lock_file SLIPPAGE_DIR id.
Proof.
  unfold copy_name, lock_file. intros [= E]. case_decide; rewrite ?str_app_assoc in E; by apply (inj (String.app id)) in E.
Qed.
Lemma first_free_spec tries n id h k : first_free tries n id h = Some k →
  ∃ m, k = copy_name id m ∧ hk_files h !! copy_name id m = None.
Proof.
  revert n. induction tries as [|tries IH]; intros n; [done|]. cbn [first_free]. case_decide; [intros [= <-]; eauto|]. apply IH.
Qed.
Lemma lock_other_key io id h k : k ≠ lock_file SLIPPAGE_DIR id →
  hk_files (stats_lock io id h).2 !! k = hk_files h !! k.
Proof.
  intros Hk. unfold stats_lock, lock_state_file. destruct (is_valid_short_name id); cbn [negb]; [|done].
  destruct (io_lock io SLIPPAGE_DIR); cbn; by rewrite ?lookup_insert_ne.
Qed.
Lemma save_keeps_fresh io id stats h k e : k ≠ stats_path id → en_stamp e = Some (io_now io) →
  hk_files h !! k = Some e → hk_files (save_stats io id stats h) !! k = Some e.
Proof.
  intros Hk Hs He. assert (Hp : hk_files (prune_folder io SLIPPAGE_DIR h) !! k = Some e).
  { apply prune_folder_lookup. assert (Hst : is_stale (io_now io) STALE_DAYS e ≠ true).
    { unfold is_stale, file_age. rewrite Hs. cbn [fmap option_fmap option_map]. rewrite bool_decide_eq_true. unfold max_age. lia. }
    split; [done|]. by split; intros [(_ & _ & H & _) _]. }
  unfold save_stats, write_file. cbn [stats_path json_file fst].
  destruct (io_write io SLIPPAGE_DIR); [|done]. cbn [put_file hk_files]. by rewrite lookup_insert_ne.
Qed.

(** The bytes of a log that cannot be used are never lost: after an update of the log they are at
    the log's own name, or, when the lock was held and a later reader can move them, at a copy name
    that was free before. A log that cannot be read at all stays where it is. *)
Theorem bad_log_kept (io : HookIo) (lio : LogIo) (id : string) (change : SessionStats → SessionStats)
    (h : Hooks) (e : Entry) (fault : Fault) :
  hk_files h !! stats_path id = Some e → read_checked lio id h = Err fault →
  let h' := update_stats io lio id change h in
  let kept k := ∃ e', hk_files h' !! k = Some e' ∧ en_content e' = en_content e in
  match fault with
  | UnreadableLog _ => kept (stats_path id)
  | Corrupt _ => kept (stats_path id) ∨
      (stats_lock io id h).1 = true ∧ ∃ n, hk_files h !! copy_name id n = None ∧ kept (copy_name id n)
  end.
Proof.
  intros He Hf h' kept. subst h'. unfold kept, update_stats in *. clear kept.
  pose proof (lock_keeps_json io SLIPPAGE_DIR id h SLIPPAGE_DIR id) as Hj.
  pose proof (lock_other_key io id h) as Hk. fold (stats_lock io id h) in Hj. fold (stats_path id) in Hj.
  destruct (stats_lock io id h) as [locked h1]. cbn [fst snd] in *.
  assert (Hr : read_checked lio id h1 = Err fault).
  { rewrite <- Hf. unfold read_checked, read_text. by rewrite Hj. }
  unfold load_stats_for_rewrite. rewrite Hr. rewrite He in Hj.
  destruct fault as [cause|cause]; [|cbn [note hk_files]; eauto].
  destruct locked; cbn [negb]; [|left; cbn [note hk_files]; eauto].
  unfold move_aside. destruct (first_free _ _ id h1) as [k|] eqn:Hfree; [|left; cbn [note hk_files]; eauto].
  apply first_free_spec in Hfree as (n & -> & Hn). destruct (li_rename lio); [|left; cbn [note hk_files]; eauto].
  right. split; [done|]. exists n. rewrite Hk in Hn by apply copy_not_lock. split; [done|].
  exists (mkEntry (en_content e) (Some (io_now io))). split; [|done]. apply save_keeps_fresh; [apply copy_not_log|done|].
  unfold rename_file. rewrite Hj. cbn [note hk_files]. by rewrite lookup_insert_eq.
Qed.
End stats.

(** ** Shell views are one harmless command *)

Definition no_syntax (s : string) : Prop := str_all (λ c, negb (is_shell_syntax c)) s = true.

Lemma no_syntax_char c : negb (is_shell_syntax c) = true →
  Ascii.eqb c "'" = false ∧ Ascii.eqb c "034" = false ∧ Ascii.eqb c "\" = false ∧
  Ascii.eqb c "$" = false ∧ Ascii.eqb c "`" = false ∧ Ascii.eqb c "<" = false ∧ Ascii.eqb c ">" = false ∧ is_operator c = false.
Proof. destruct c as [[] [] [] [] [] [] [] []]; vm_compute; first [discriminate|repeat split]. Qed.

Lemma split_loop_no_syntax nested f before segment s : no_syntax s → String.length s < f →
  split_loop nested f before segment "" false false s = Ok (before +:+ segment +:+ s).
Proof.
  unfold no_syntax. revert f segment. induction s as [|c s IH]; intros f segment Hs Hf; (destruct f as [|f]; [cbn in Hf; lia|]).
  - cbn. by str_simpl.
  - cbn [str_all] in Hs. apply andb_true_iff in Hs as [Hc Hs].
    destruct (no_syntax_char c Hc) as (H1 & H2 & H3 & H4 & H5 & H6 & H7 & H8). cbn [split_loop].
    rewrite H1, H2, H3, H4, H5, H6, H7, H8. cbn [andb orb negb]. rewrite IH; [|done|cbn in Hf; lia]. by str_simpl.
Qed.

Lemma nonempty_word word : default "" word ≠ "" ∨ word = None → nonempty_piece (default "" word) = option_list word.
Proof. unfold nonempty_piece. destruct word as [w|]; [|done]. cbn. intros [H|[=]]. by rewrite decide_False. Qed.
Lemma words_loop_no_syntax skip words word s : no_syntax s → default "" word ≠ "" ∨ word = None →
  words_loop skip [] words word None s =
  let all := words ++ split_ws_go skip (default "" word) s in if decide (all = []) then [] else [all].
Proof.
  unfold no_syntax. revert skip words word. induction s as [|c s IH]; intros skip words word Hs Hw.
  - cbn. by rewrite nonempty_word.
  - cbn [str_all] in Hs. apply andb_true_iff in Hs as [Hc Hs].
    destruct (no_syntax_char c Hc) as (H1 & H2 & H3 & _ & _ & _ & _ & H8). cbn [words_loop split_ws_go].
    destruct skip as [|skip]; [|by apply IH]. rewrite H1, H2, H3, H8. cbn [orb].
    destruct (ws_len (String c s)) as [|k].
    + rewrite IH; [done|done|left]. cbn. by destruct (default "" word).
    + rewrite IH; [|done|by right]. cbn [default]. by rewrite nonempty_word, <- app_assoc.
Qed.

Lemma segments_no_syntax command words : no_syntax command → split_whitespace command = words → words ≠ [] →
  nested_command words = None → shell_segments command = Ok [words].
Proof.
  intros Hs Hw Hne Hn. unfold shell_segments. cbn [segments split_at].
  rewrite split_loop_no_syntax by (done || lia). cbn [mbind result_bind]. str_simpl. unfold split_words.
  rewrite words_loop_no_syntax by (done || by right). cbn [app default]. unfold split_whitespace in Hw. rewrite Hw.
  rewrite decide_False by done. cbn [segments_loop]. by rewrite Hn.
Qed.

Lemma view_tool_harmless tool args : tool ∈ ["cat"; "head"; "tail"; "sed"] →
  nested_command (tool :: args) = None ∧ is_modifying_segment (tool :: args) = false.
Proof.
  intros Ht. assert (Hw : ∃ tail, program_words (tool :: args) = tool :: tail).
  { unfold program_words, skip_wrappers. rewrite fmap_cons.
    set_unfold in Ht. destruct_or?; subst; (rewrite filter_cons_True by done); by eexists. }
  destruct Hw as (rest & Hw). unfold nested_command, is_modifying_segment. rewrite Hw. unfold env_split_string. rewrite fmap_cons.
  clear Hw. set_unfold in Ht. destruct_or?; subst; by vm_compute.
Qed.

(** A command that counts as a view of a file is one command to the shell splitter of the commit
    gate, with no second command inside; it changes nothing; and the file is one of its words, as the
    shell would pass it: no flag, no path for the shell to expand. *)
Theorem view_is_one_command (command file : string) : single_file_read command = Some file →
  ∃ tool args, split_whitespace command = tool :: args ∧ tool ∈ ["cat"; "head"; "tail"; "sed"] ∧ last args = Some file ∧
    shell_segments command = Ok [tool :: args] ∧ is_modifying command = false ∧
    starts_with "-" file = false ∧ starts_with "~" file = false.
Proof.
  unfold single_file_read. destruct (str_all _ command) eqn:Hs; cbn [negb]; [|done].
  assert (Hplain : ∀ w, plain_file w = Some file → w = file ∧ starts_with "-" file = false ∧ starts_with "~" file = false).
  { unfold plain_file. intros w. destruct (starts_with "-" w) eqn:?, (starts_with "~" w) eqn:?; cbn; try done. by intros [= ->]. }
  assert (Hone : ∀ tool args, split_whitespace command = tool :: args → tool ∈ ["cat"; "head"; "tail"; "sed"] →
    last args = Some file → starts_with "-" file = false ∧ starts_with "~" file = false →
    ∃ tool args, split_whitespace command = tool :: args ∧ tool ∈ ["cat"; "head"; "tail"; "sed"] ∧ last args = Some file ∧
    shell_segments command = Ok [tool :: args] ∧ is_modifying command = false ∧
    starts_with "-" file = false ∧ starts_with "~" file = false).
  { intros tool args Hw Ht Hl [H1 H2]. exists tool, args. destruct (view_tool_harmless tool args Ht) as [Hn Hm].
    assert (Hseg : shell_segments command = Ok [tool :: args]) by by apply segments_no_syntax.
    split_and!; try done. unfold is_modifying. rewrite Hseg. cbn [existsb]. by rewrite Hm. }
  destruct (split_whitespace command) as [|tool [|x [|y [|z [|]]]]] eqn:Hw; try done.
  - case_decide as Ht; [|done]. intros (-> & H)%Hplain. apply (Hone tool [file]); done || set_solver.
  - case_decide as Ht; [|case_decide as Ht'; [|done]]; intros (-> & H)%Hplain; apply (Hone tool [x; y; file]);
      done || set_solver.
Qed.
