(* ===== verification/Transcript.v ===== *)
(** * The transcript checks (src/hook_run/transcript.rs, transcript/tail.rs, handle_transcript_scan
    of slippage.rs)

    The tail of the engine's transcript says whether the user's last message is an unanswered
    question and whether the agent has said anything since. Two checks before a tool call use it.
    [lossy] is [String::from_utf8_lossy]. *)

From S2P Require Import Prelude RustStr Json Text HookState ShellSplit TaskNudge ConfigSchema Slippage.

Definition TAIL_BYTES : N := 1048576.
Definition TAIL_LINES : nat := 200.

(** What opening and reading the file gives. *)
Inductive transcript_file := TNotFound | TNoOpen | TNoMetadata | TNotFile | TNoRead | TBytes (bytes : string).

Definition read_tail (lossy : string → string) (path : string) (file : transcript_file) (h : Hooks)
  : option string * Hooks :=
  match file with
  | TNotFound | TNotFile => (None, h)
  | TNoOpen | TNoMetadata | TNoRead => (None, note (TargetFault path) h)
  | TBytes bytes =>
    let start := (N.of_nat (String.length bytes) - TAIL_BYTES)%N in
    let text := lossy (str_drop (N.to_nat start) bytes) in
    (Some (if decide (start = 0%N) then text
           else match split_once "010" text with Some (_, rest) => rest | None => "" end), h)
  end.

Record TurnState := mkTurn { last_user_text : option string; assistant_spoke_since : bool }.
Definition no_turn : TurnState := mkTurn None false.
Global Instance TurnState_eq_dec : EqDecision TurnState.
Proof. solve_decision. Defined.

Definition has_unanswered_question (s : TurnState) : bool :=
  negb (assistant_spoke_since s) &&
  match last_user_text s with Some t => ends_with "?" (trim_end t) | None => false end.

(** ** Messages *)

Definition is_text_block (block : json) : bool := bool_decide (json_get "type" block ≫= as_str = Some "text").
(** [user_text]: the visible text of a message; a tool result has none. *)
Definition user_text (message : json) : option string :=
  match json_get "content" message with
  | Some (JStr s) => Some s
  | Some (JArr blocks) =>
    let text := join nl (omap (λ b, json_get "text" b ≫= as_str) (filter (λ b, is_text_block b = true) blocks)) in
    if decide (trim text = "") then None else Some text
  | _ => None
  end.
Definition assistant_spoke (message : json) : bool :=
  match json_get "content" message with
  | Some (JStr s) => negb (bool_decide (trim s = ""))
  | Some (JArr blocks) =>
    existsb (λ b, is_text_block b &&
      match json_get "text" b ≫= as_str with Some t => negb (bool_decide (trim t = "")) | None => false end) blocks
  | _ => false
  end.

Section transcript.
Context `{JsonText}.

Definition message_of (line : string) : option json := json_parse line ≫= json_get "message".
Definition role_of (message : json) : option string := json_get "role" message ≫= as_str.

Definition read_line (s : TurnState) (line : string) : TurnState :=
  match message_of line with
  | None => s
  | Some message =>
    if decide (role_of message = Some "user") then
      match user_text message with Some text => mkTurn (Some text) false | None => s end
    else if decide (role_of message = Some "assistant") then
      if assistant_spoke message then mkTurn (last_user_text s) true else s
    else s
  end.
Definition tail_lines (text : string) : list string :=
  let l := lines text in drop (length l - TAIL_LINES) l.
Definition turn_state (text : string) : TurnState := foldl read_line no_turn (tail_lines text).
Definition read_turn_state (lossy : string → string) (path : string) (file : transcript_file) (h : Hooks)
  : option TurnState * Hooks :=
  let '(text, h) := read_tail lossy path file h in (turn_state <$> text, h).

(** [last_assistant_text]: the newest assistant text, cut to [max_chars]. *)
Definition assistant_text (max_chars : nat) (line : string) : option string :=
  message ← message_of line;
  if decide (role_of message ≠ Some "assistant") then None
  else (λ t, of_chars (take max_chars (chars t))) <$> user_text message.
Definition last_assistant_text (lossy : string → string) (path : string) (file : transcript_file)
    (max_chars : nat) (h : Hooks) : option string * Hooks :=
  let '(text, h) := read_tail lossy path file h in
  (text ≫= λ text, last (omap (assistant_text max_chars) (tail_lines text)), h).

(** ** The checks *)

Definition ANSWER_DENY : string :=
  "__DENY__:the user asked a question that you haven't answered yet. Answer it in text first — if the answer needs this tool call, say what you're checking and why before running it.".
Definition EXPLAIN_DENY : string :=
  "__DENY__:this command changes something and you haven't said what you're doing yet. Explain the change and why in text first, then run it.".

Definition scan_answer (cfg : SlippageControl) (payload : json) (state : TurnState) : string :=
  if sl_answer_before_act cfg && has_unanswered_question state then ANSWER_DENY
  else if sl_explain_before_act cfg && negb (assistant_spoke_since state) then
    let command := default "" ((json_get "tool_input" payload ≫= json_get "command") ≫= as_str) in
    if negb (is_ok (shell_segments command)) then "__DENY__:" +:+ nesting_reason
    else if is_modifying command then EXPLAIN_DENY
    else ""
  else "".
Definition handle_transcript_scan (lossy : string → string) (open : string → transcript_file)
    (cfg : option SlippageControl) (payload : json) (h : Hooks) : string * Hooks :=
  match cfg with
  | None => ("", h)
  | Some cfg =>
    if negb (sl_enabled cfg) || (negb (sl_answer_before_act cfg) && negb (sl_explain_before_act cfg)) then ("", h)
    else
      match json_get "transcript_path" payload ≫= as_str with
      | None => ("", h)
      | Some path =>
        let '(state, h) := read_turn_state lossy path (open path) h in
        match state with None => ("", h) | Some state => (scan_answer cfg payload state, h) end
      end
  end.

(** ** The reference: what was said last *)

(** The text that the human typed in a line, and whether the agent says something visible in it. *)
Definition typed (line : string) : option string :=
  message ← message_of line; if decide (role_of message = Some "user") then user_text message else None.
Definition spoken (line : string) : Prop :=
  ∃ message, message_of line = Some message ∧ role_of message = Some "assistant" ∧ assistant_spoke message = true.

Lemma typed_not_spoken line : is_Some (typed line) → ¬ spoken line.
Proof.
  unfold typed, spoken. intros [t Ht] (m & Hm & Hr & _). rewrite Hm in Ht. cbn in Ht. rewrite Hr, decide_False in Ht by congruence. done.
Qed.
Lemma read_line_cases s line :
  (∃ t, typed line = Some t ∧ read_line s line = mkTurn (Some t) false) ∨
  (typed line = None ∧ spoken line ∧ read_line s line = mkTurn (last_user_text s) true) ∨
  (typed line = None ∧ ¬ spoken line ∧ read_line s line = s).
Proof.
  unfold typed, spoken, read_line. destruct (message_of line) as [m|]; cbn; [|right; right; split_and!; [done| |done]; by intros (? & ? & _)].
  case_decide as Hu; [destruct (user_text m); [naive_solver|]|].
  - right. right. split_and!; [done| |done]. intros (? & [= <-] & ? & _). congruence.
  - case_decide as Ha; [destruct (assistant_spoke m) eqn:Hs|].
    + right. left. by eauto 10.
    + right. right. split_and!; [done| |done]. intros (? & [= <-] & _ & ?). congruence.
    + right. right. split_and!; [done| |done]. by intros (? & [= <-] & ? & _).
Qed.

(** The fold over the tail finds the turn: the text is the last one that the human typed (a tool
    result is not typed text), and the agent has spoken exactly when a visible text of it stands
    after the last typed one, or anywhere when there is none. *)
Theorem turn_state_correct (text : string) :
  let said := tail_lines text in
  last_user_text (turn_state text) = last (omap typed said) ∧
  (assistant_spoke_since (turn_state text) = true ↔
   ∃ before line after, said = before ++ line :: after ∧ spoken line ∧ omap typed after = []).
Proof.
  cbn zeta. unfold turn_state. generalize (tail_lines text) as l. induction l as [|line l IH] using rev_ind.
  { split; [done|]. split; [done|]. intros (b & x & a & E & _). by destruct b. }
  rewrite foldl_app. cbn [foldl]. set (s := foldl read_line no_turn l) in *. destruct IH as [IHt IHs].
  assert (Homap : omap typed (l ++ [line]) = omap typed l ++ option_list (typed line)).
  { rewrite omap_app. f_equal. }
  assert (Hsplit : ∀ P : Prop, (P ↔ (spoken line ∨ typed line = None ∧ assistant_spoke_since s = true)) →
    (P ↔ ∃ before x after, l ++ [line] = before ++ x :: after ∧ spoken x ∧ omap typed after = [])).
  { intros P ->. split.
    - intros [Hs|[Hn Hs]]; [by exists l, line, []|]. apply IHs in Hs as (b & x & a & -> & Hx & Ha).
      exists b, x, (a ++ [line]). split; [by rewrite <- app_assoc|]. split; [done|]. rewrite omap_app, Ha. cbn. by rewrite Hn.
    - intros (b & x & a & E & Hx & Ha). destruct a as [|y a _] using rev_ind.
      + apply app_inj_tail in E as [_ <-]. by left.
      + right. change (b ++ x :: a ++ [y]) with (b ++ (x :: a) ++ [y]) in E. rewrite app_assoc in E.
        apply app_inj_tail in E as [-> <-]. rewrite omap_app in Ha. apply app_nil in Ha as [Ha Hl]. cbn in Hl.
        destruct (typed line); [done|]. split; [done|]. apply IHs. by exists b, x, a. }
  rewrite Homap. destruct (read_line_cases s line) as [(t & Ht & ->)|[(Hn & Hs & ->)|(Hn & Hs & ->)]];
    cbn [last_user_text assistant_spoke_since].
  - rewrite Ht. change (option_list (Some t)) with [t]. rewrite last_snoc. split; [done|]. apply Hsplit. split; [done|].
    intros [H1|[H1 _]]; [|congruence]. exfalso. eapply typed_not_spoken; [|exact H1]. rewrite Ht. eauto.
  - rewrite Hn. change (option_list (@None string)) with (@nil string). rewrite app_nil_r. split; [done|]. apply Hsplit. naive_solver.
  - rewrite Hn. change (option_list (@None string)) with (@nil string). rewrite app_nil_r. split; [done|]. apply Hsplit. naive_solver.
Qed.

(** The scan denies a call only when it is on, the transcript can be read, and either the last
    message that the human typed is a question that no visible text has followed, or nothing visible
    has followed and the command changes something (a command too deep to check counts). Without a
    transcript every call passes. *)
Theorem transcript_scan_correct (lossy : string → string) (open : string → transcript_file)
    (cfg : option SlippageControl) (payload : json) (h : Hooks) :
  (handle_transcript_scan lossy open cfg payload h).1 ≠ "" ↔
  ∃ c path text, cfg = Some c ∧ sl_enabled c = true ∧ json_get "transcript_path" payload ≫= as_str = Some path ∧
    (read_tail lossy path (open path) h).1 = Some text ∧ assistant_spoke_since (turn_state text) = false ∧
    (sl_answer_before_act c = true ∧ (∃ q, last (omap typed (tail_lines text)) = Some q ∧ ends_with "?" (trim_end q) = true) ∨
     sl_explain_before_act c = true ∧ is_modifying (default "" ((json_get "tool_input" payload ≫= json_get "command") ≫= as_str)) = true).
Proof.
  unfold handle_transcript_scan, read_turn_state. destruct cfg as [c|]; [|split; [done|by intros (? & ? & ? & [=] & _)]].
  destruct (sl_enabled c) eqn:Hen; cbn [negb orb]; [|split; [done|]; intros (? & ? & ? & [= <-] & ? & _); congruence].
  destruct (negb (sl_answer_before_act c) && negb (sl_explain_before_act c)) eqn:Hoff.
  { apply andb_true_iff in Hoff as [H1%negb_true_iff H2%negb_true_iff]. split; [done|]. intros (? & ? & ? & [= <-] & _ & _ & _ & _ & H3).
    destruct H3 as [[? _]|[? _]]; congruence. }
  destruct (json_get "transcript_path" payload ≫= as_str) as [path|]; [|split; [done|by intros (? & ? & ? & _ & _ & [=] & _)]].
  destruct (read_tail lossy path (open path) h) as [[text|] h'] eqn:Hr; cbn [fst fmap option_fmap option_map];
    [|split; [done|intros (? & ? & ? & _ & _ & [= <-] & Hn & _); by rewrite Hr in Hn]].
  destruct (turn_state_correct text) as [Ht _]. unfold scan_answer, has_unanswered_question. rewrite Ht.
  set (command := default "" _). assert (Hm : negb (is_ok (shell_segments command)) = true → is_modifying command = true).
  { unfold is_modifying. by destruct (shell_segments command) as [|[]]. }
  assert (Hne : "__DENY__:" +:+ nesting_reason ≠ "") by done.
  split.
  - intros Hd. exists c, path, text. rewrite Hr. split_and!; try done.
    + destruct (assistant_spoke_since _); [|done]. cbn [negb andb] in Hd. by rewrite !andb_false_r in Hd.
    + destruct (assistant_spoke_since _); cbn [negb andb] in Hd; [by rewrite !andb_false_r in Hd|]. rewrite !andb_true_r in Hd.
      destruct (sl_answer_before_act c) eqn:Ha; cbn [andb] in Hd.
      * destruct (last _) as [q|]; [destruct (ends_with "?" (trim_end q)) eqn:Hq; [left; eauto|]|];
          (destruct (sl_explain_before_act c); [|done]); (right; split; [done|]);
          (destruct (negb (is_ok _)); [by apply Hm|]); by destruct (is_modifying command).
      * right. destruct (sl_explain_before_act c); [|done]. split; [done|].
        destruct (negb (is_ok _)); [by apply Hm|]. by destruct (is_modifying command).
  - intros (? & ? & ? & [= <-] & _ & [= <-] & Hr' & Hs & Hcase). rewrite Hr in Hr'. injection Hr' as <-. rewrite Hs. cbn [negb andb]. rewrite !andb_true_r.
    destruct Hcase as [(Ha & q & -> & Hq)|(He & Hmod)]; [by rewrite Ha, Hq|].
    destruct (sl_answer_before_act c && _); [done|]. rewrite He, Hmod. by destruct (negb (is_ok _)).
Qed.
End transcript.
