(* ===== verification/CbmRoots.v ===== *)
(** * The roots of the code index (crates/llmenv-mcp/src/cbm_roots.rs, cbm_roots/,
    crates/llmenv-util/src/shell.rs, src/hook_run/cbm_index_guard.rs)

    codebase-memory-mcp may index the folders that the user recorded. llmenv reads that record,
    compares it with the configuration, and denies a call of the index tool that leaves it. What the
    file system says of a path and what the server lists are parameters. *)

From S2P Require Import Prelude RustStr Names Json Text Scope ShellSplit ConfigSchema McpResolve.

(** ** Quoting for a shell *)

(** [s.replace('\'', "'\\''")]. *)
Fixpoint quote_body (s : string) : string :=
  match s with
  | "" => ""
  | String c s => if Ascii.eqb c "'" then "'\''" +:+ quote_body s else String c (quote_body s)
  end.
Definition single_quote (s : string) : string := "'" +:+ quote_body s +:+ "'".
Definition is_plain_word_char (c : ascii) : bool := is_ascii_alphanumeric c || str_contains_char c "/._-+:@%".
Definition shell_word (text : string) : string :=
  if decide (text = "") then "''"
  else if str_all is_plain_word_char text then text else single_quote text.

(** ** The roots that the server recorded *)

(** [Path::starts_with]. *)
Definition path_under (path root : string) : bool := cwd_under_prefix path root.

Fixpoint parse_lines (lines : list string) : result string (list string) :=
  match lines with
  | [] => Ok []
  | line :: lines =>
    if starts_with "/" line then roots ← parse_lines lines; Ok (line :: roots)
    else if starts_with "allowed roots" line || starts_with "no allowed roots" line then parse_lines lines
    else Err line
  end.
(** [Err]: the line that llmenv does not know. *)
Definition parse_roots (listing : string) : result string (list string) :=
  parse_lines (filter (λ l, l ≠ "") (trim <$> lines listing)).

(** What the file system says: the canonical form of a path or why there is none, and whether it
    is a folder. *)
Class Folders := { canonicalize : string → result string string; is_folder : string → bool }.

Section roots.
Context `{Folders}.

Definition canonical (path : string) : option string :=
  match canonicalize path with Ok p => Some p | Err _ => None end.
Definition is_within_any (path : string) (roots : list string) : bool :=
  match canonical path with
  | None => false
  | Some path => existsb (λ root, path_under path root) (omap canonical roots)
  end.
Definition missing_roots (wanted listed : list string) : list string :=
  if decide (listed = []) then []
  else filter (λ root, is_folder root = true ∧ is_within_any root listed = false) wanted.
Definition undeclared_roots (listed wanted : list string) : list string :=
  filter (λ root, is_Some (canonical root) ∧ is_within_any root wanted = false) listed.

Record RootsReport := mkReport {
  rr_listed : list string; rr_missing : list (string * string); rr_undeclared : list string; rr_cache_dir : string }.

Inductive cache_error := CacheTilde (e : tilde_error) | CacheNoHome.
(** [home] as [expand_tilde] takes it; an empty one is no home. *)
Definition cache_dir (cm : CodebaseMemory) (tilde_home : option string) (home : option string)
  : result cache_error string :=
  match cb_index_path cm with
  | Some index_path => map_err CacheTilde (expand_tilde tilde_home index_path)
  | None => match home with Some home => Ok (path_join home ".cache/codebase-memory-mcp") | None => Err CacheNoHome end
  end.

Inductive roots_error := ListFailed (why : string) | ListUnrecognized (line : string) | NoCacheDir (e : cache_error).
(** [list_roots]: [run] is the output of [allow-root --list] for an entry, or why it failed. *)
Definition list_roots (run : CodebaseMemory → result string string) (cm : CodebaseMemory)
  : result roots_error (list string) :=
  out ← map_err ListFailed (run cm);
  map_err ListUnrecognized (parse_roots out).
Definition check_roots (run : CodebaseMemory → result string string) (cm : CodebaseMemory) (wanted : list string)
    (tilde_home home : option string) : result roots_error RootsReport :=
  listed ← list_roots run cm;
  cache ← map_err NoCacheDir (cache_dir cm tilde_home home);
  Ok (mkReport listed ((λ root, (root, "not in the allowed roots")) <$> missing_roots wanted listed)
        (undeclared_roots listed wanted) cache).

(** ** The roots that the configuration declares *)

Definition expand_root (entry : string) (home : option string) (env : string → option string) : option string :=
  let entry := trim entry in
  match strip_prefix "~" entry with
  | Some after =>
    if bool_decide (after = "") || starts_with "/" after then
      home ← home; rest ← expand_env_refs after env; Some (home +:+ rest)
    else None
  | None => expand_env_refs entry env
  end.
(** [Path::parent] is [None] for the root and for the empty path. *)
Definition has_no_parent (path : string) : bool :=
  match last (components path) with None | Some RootDir => true | Some _ => false end.
Definition is_broad_root (path : string) (home : option string) : bool :=
  has_no_parent path || match home with Some h => path_under h path | None => false end.
(** The loop of [configured_roots_in]: each root once, where it comes first. *)
Fixpoint dedup_first (seen : list string) (l : list string) : list string :=
  match l with
  | [] => []
  | x :: l => if decide (x ∈ seen) then dedup_first seen l else x :: dedup_first (x :: seen) l
  end.
Definition configured_roots (cm : CodebaseMemory) (home : option string) (env : string → option string) : list string :=
  dedup_first [] (omap (λ entry, expand_root entry home env) (cb_allowed_roots cm)).

Definition root_problems (cm : CodebaseMemory) (project_root : string) (home : option string)
    (env : string → option string) : list string :=
  let unexpandable := filter (λ entry, expand_root entry home env = None) (cb_allowed_roots cm) in
  let absent := filter (λ root, is_absolute root = true ∧ is_folder root = false)
                  (omap (λ entry, expand_root entry home env) (cb_allowed_roots cm)) in
  (if decide (unexpandable = []) then [] else
    ["codebase-memory: allowed_roots entries that cannot expand (an unset or empty variable, or ~user): " +:+
       join ", " unexpandable +:+ ". Fix the entry in the llmenv config."]) ++
  (if decide (absent = []) then [] else
    ["codebase-memory: allowed_roots entries that are not folders: " +:+ join ", " absent +:+
       ". Fix the entry in the llmenv config."]) ++
  (if is_broad_root project_root home then
    ["codebase-memory: the session folder " +:+ project_root +:+
     " is too broad to allow, so it is not an allowed root. Start the session in a project folder, or add the folders to index to allowed_roots."]
   else []).

(** ** The report *)

Definition allow_root_command (cache_dir root : string) : string :=
  "CBM_CACHE_DIR=" +:+ shell_word cache_dir +:+ " codebase-memory-mcp allow-root " +:+ shell_word root.
Definition describe (r : RootsReport) : bool * string :=
  if decide (rr_listed r = []) then
    (false, "codebase-memory: no allowed roots are recorded, so indexing is unconfined (cache " +:+ rr_cache_dir r +:+ ").")
  else
    let undeclared :=
      if decide (rr_undeclared r = []) then ""
      else " The server also holds roots that the config does not declare: " +:+ join ", " (rr_undeclared r) +:+
        ". Earlier llmenv versions recorded them. Ask the user to clear them: to return to unconfined indexing, the user deletes " +:+
        path_join (rr_cache_dir r) "allowed_roots" +:+
        "; to keep some roots, the user edits that file. Do not delete or edit it yourself." in
    if decide (rr_missing r = []) then
      (false, "codebase-memory: allowed roots " +:+ join ", " (rr_listed r) +:+ " (cache " +:+ rr_cache_dir r +:+ ")." +:+ undeclared)
    else
      (true, "codebase-memory cannot index " +:+ join ", " ((λ m, m.1 +:+ " (" +:+ m.2 +:+ ")") <$> rr_missing r) +:+
        ". Ask the user to run: " +:+ join "; " ((λ m, allow_root_command (rr_cache_dir r) m.1) <$> rr_missing r) +:+
        ". llmenv never runs allow-root itself." +:+ undeclared).
(** [session_start_notice]; [show] is the text of an error. *)
Definition session_start_notice (show : roots_error → string) (run : CodebaseMemory → result string string)
    (cm : CodebaseMemory) (project_root : string) (tilde_home home : option string) (env : string → option string)
  : option string :=
  match check_roots run cm (configured_roots cm home env) tilde_home home with
  | Ok report =>
    let '(warn, text) := describe report in
    let text := join nl ((if warn || negb (bool_decide (rr_undeclared report = [])) then [text] else []) ++
                         root_problems cm project_root home env) in
    if decide (text = "") then None else Some (text +:+ nl)
  | Err e => Some ("codebase-memory: cannot read the allowed roots: " +:+ show e +:+ ". Run `llmenv doctor`." +:+ nl)
  end.

(** ** The guard *)

Definition path_outside_roots (repo_path : string) (roots : list string) : option string :=
  if existsb (λ root, path_under repo_path root) roots then None
  else Some (repo_path +:+ " is outside the codebase-memory allowed roots (" +:+ join ", " roots +:+
    "). Ask the user to record it: `codebase-memory-mcp allow-root <path>`, with CBM_CACHE_DIR set to the entry's index_path when one is set. Do not run allow-root yourself.").
(** [decide]. *)
Definition decide_listed (repo_path : string) (listed : list string) : option string :=
  if decide (listed = []) then None
  else if negb (is_absolute repo_path) then
    Some (repo_path +:+ " is not an absolute path, so it cannot be checked against the codebase-memory allowed roots. Pass the absolute path of the repository.")
  else
    let roots := omap canonical listed in
    if decide (roots = []) then
      Some (repo_path +:+ " cannot be checked: none of the " +:+ pretty (N.of_nat (length listed)) +:+
        " recorded roots resolves to a folder. Ask the user to run `llmenv doctor`.")
    else
      match canonicalize repo_path with
      | Ok canonical => path_outside_roots canonical roots
      | Err e => Some (repo_path +:+ " cannot be indexed: it does not resolve to a folder (" +:+ e +:+
          "). Pass the path of an existing repository.")
      end.
Definition with_unreadable_note (reason : string) (unreadable : list string) : string :=
  if decide (unreadable = []) then reason
  else reason +:+ " The roots that the server recorded could not be read: " +:+ join "; " unreadable +:+ ".".
Definition decide_with_reads (repo_path : string) (listed unreadable : list string) : option string :=
  if decide (listed = [] ∧ unreadable ≠ []) then
    Some (repo_path +:+ " cannot be checked against the codebase-memory allowed roots, because they could not be read: " +:+
      join "; " unreadable +:+ ". Ask the user to run `llmenv doctor`.")
  else (λ reason, with_unreadable_note reason unreadable) <$> decide_listed repo_path listed.

Definition entry_name (cm : CodebaseMemory) : string :=
  match cb_index_path cm with
  | Some path => "the entry with index_path " +:+ path
  | None => "the entry with the default index path"
  end.
Definition serves (active_tags : option (gset string)) (cm : CodebaseMemory) : bool :=
  match active_tags with Some tags => existsb (λ t, bool_decide (t ∈ tags)) (cb_when cm) | None => false end.
Definition serving_entries (entries : list CodebaseMemory) (active_tags : option (gset string)) : list CodebaseMemory :=
  let serving := filter (λ cm, serves active_tags cm = true) entries in
  if decide (length serving = 0) then entries else serving.
Definition guard_decision (show : roots_error → string) (listing : CodebaseMemory → result roots_error (list string))
    (repo_path : string) (entries : list CodebaseMemory) (active_tags : option (gset string)) : option string :=
  if decide (active_tags = None ∧ length entries = 0) then
    Some (repo_path +:+ " cannot be checked: the scopes of this session could not be read, so its codebase-memory entry is unknown. Ask the user to run `llmenv doctor`.")
  else
    let serving := serving_entries entries active_tags in
    decide_with_reads repo_path
      (serving ≫= λ cm, match listing cm with Ok roots => roots | Err _ => [] end)
      (serving ≫= λ cm, match listing cm with Ok _ => [] | Err e => [entry_name cm +:+ " (" +:+ show e +:+ ")"] end).

(** ** The hook *)

Definition is_index_call (payload : json) : bool :=
  bool_decide (json_get "tool_name" payload ≫= as_str = Some INDEX_REPOSITORY_TOOL).
Definition PERSISTENCE_REASON : string :=
  "__DENY__:llmenv blocked `index_repository` with persistence=true. It writes .codebase-memory/graph.db.zst into the repository. Call it without persistence. To share a graph artifact on purpose, run codebase-memory-mcp from a shell.".
Definition name_override_reason (name : string) : string :=
  "__DENY__:llmenv blocked `index_repository` with name=" +:+ dq +:+ name +:+ dq +:+
  ". The name overrides the project key the index is written under, and codebase-memory-mcp doesn't check whether that key already belongs to a different repository — the call would replace that project's index with this one's (upstream DeusData/codebase-memory-mcp#1578). Re-run without `name` to index this repository under its own key. If you genuinely need a custom key, run codebase-memory-mcp directly so the overwrite is a deliberate choice.".
(** A text field of the call, unless it is blank. *)
Definition input_text (field : string) (payload : json) : option string :=
  s ← (json_get "tool_input" payload ≫= json_get field) ≫= as_str;
  if decide (trim s = "") then None else Some s.
Definition handle_pre_tool_use (payload : json) : string :=
  if negb (is_index_call payload) then ""
  else
    match input_text "name" payload with
    | Some name => name_override_reason name
    | None =>
      if decide ((json_get "tool_input" payload ≫= json_get "persistence") ≫= as_bool = Some true)
      then PERSISTENCE_REASON else ""
    end.
(** [handle_roots]. [entries]: the entries of the configuration and of the firing bundles, or why
    a bundle cannot be read; [active_tags]: [None] when the scopes cannot be evaluated. *)
Definition handle_roots (show : roots_error → string) (listing : CodebaseMemory → result roots_error (list string))
    (root_entries : list CodebaseMemory) (active_tags : option (gset string))
    (entries : result string (list CodebaseMemory)) (payload : json) : string :=
  if negb (is_index_call payload) then ""
  else
    match input_text "repo_path" payload with
    | None => ""
    | Some repo_path =>
      let verdict entries := match guard_decision show listing repo_path entries active_tags with
                             | Some reason => "__DENY__:" +:+ reason | None => "" end in
      match active_tags with
      | None => verdict root_entries
      | Some _ =>
        match entries with
        | Ok entries => verdict entries
        | Err e => "__DENY__:" +:+ repo_path +:+ " cannot be checked: " +:+ e +:+
            ". Fix that bundle, or ask the user to run `llmenv doctor`."
        end
      end
    end.

(** ** What the guard promises *)

(** The call stays inside: the repository resolves to a folder below a recorded root of an entry
    that serves the session. *)
Definition inside (listing : CodebaseMemory → result roots_error (list string)) (entries : list CodebaseMemory)
    (active_tags : option (gset string)) (repo_path : string) : Prop :=
  ∃ cm roots root real real_root, cm ∈ serving_entries entries active_tags ∧ listing cm = Ok roots ∧ root ∈ roots ∧
    canonicalize repo_path = Ok real ∧ canonicalize root = Ok real_root ∧
    components real_root `prefix_of` components real.

Lemma listed_elem (listing : CodebaseMemory → result roots_error (list string)) serving root :
  root ∈ (serving ≫= λ cm, match listing cm with Ok roots => roots | Err _ => [] end : list string) ↔
  ∃ cm roots, cm ∈ serving ∧ (listing cm : result roots_error (list string)) = Ok roots ∧ root ∈ roots.
Proof.
  rewrite list_elem_of_bind. split.
  - intros (cm & Hr & Hcm). exists cm. destruct (listing cm) as [roots|]; [eauto|by apply elem_of_nil in Hr].
  - intros (cm & roots & Hcm & E & Hr). exists cm. by rewrite E.
Qed.
Lemma path_outside_None repo roots : path_outside_roots repo roots = None ↔
  ∃ root, root ∈ roots ∧ components root `prefix_of` components repo.
Proof.
  unfold path_outside_roots, path_under, cwd_under_prefix. destruct (existsb _ roots) eqn:E.
  - split; [|done]. intros _. apply existsb_exists in E as (root & Hin & Hp). exists root.
    rewrite list_elem_of_In. by apply bool_decide_eq_true in Hp.
  - split; [done|]. intros (root & Hin & Hp). rewrite <- not_true_iff_false in E. contradict E.
    apply existsb_exists. exists root. rewrite <- list_elem_of_In. by rewrite bool_decide_eq_true.
Qed.

Lemma decide_listed_None repo_path listed : decide_listed repo_path listed = None ↔
  listed = [] ∨ is_absolute repo_path = true ∧ ∃ root real real_root, root ∈ listed ∧
    canonicalize repo_path = Ok real ∧ canonicalize root = Ok real_root ∧ components real_root `prefix_of` components real.
Proof.
  unfold decide_listed. case_decide as Hl; [naive_solver|]. destruct (is_absolute repo_path); cbn [negb]; [|naive_solver].
  assert (Hc : ∀ rr, rr ∈ omap canonical listed ↔ ∃ root, root ∈ listed ∧ canonicalize root = Ok rr).
  { intros rr. rewrite list_elem_of_omap. unfold canonical. split; intros (root & Hin & E); exists root; (split; [done|]).
    - by destruct (canonicalize root); simplify_eq.
    - by rewrite E. }
  case_decide as Hr.
  { split; [done|]. intros [?|[_ (root & real & rr & Hin & _ & Hrr & _)]]; [done|]. destruct (not_elem_of_nil rr).
    rewrite <- Hr. apply Hc. eauto. }
  destruct (canonicalize repo_path) as [real|e]; [|naive_solver]. rewrite path_outside_None. split.
  - intros (rr & (root & Hin & E)%Hc & Hp). right. split; [done|]. exists root, real, rr. done.
  - intros [?|[_ (root & real' & rr & Hin & [= <-] & E & Hp)]]; [done|]. exists rr. split; [|done]. apply Hc. eauto.
Qed.
Lemma decide_with_reads_None repo_path listed unreadable : decide_with_reads repo_path listed unreadable = None ↔
  (listed = [] → unreadable = []) ∧ decide_listed repo_path listed = None.
Proof.
  unfold decide_with_reads. case_decide as H1.
  - split; [done|]. intros [H2 _]. destruct H1 as [H3 H4]. by destruct (H4 (H2 H3)).
  - rewrite fmap_None. split; [|tauto]. intros H2. split; [|done]. intros ->. destruct unreadable; [done|]. by destruct H1.
Qed.
(** Nothing is listed and every read works. *)
Lemma unconfined (listing : CodebaseMemory → result roots_error (list string)) (why : CodebaseMemory → roots_error → string) serving :
  (serving ≫= λ cm, match listing cm with Ok roots => roots | Err _ => [] end) = [] ∧
  (serving ≫= λ cm, match listing cm with Ok _ => [] | Err e => [why cm e] end) = [] ↔
  ∀ cm, cm ∈ serving → listing cm = Ok [].
Proof.
  induction serving as [|cm l IH]; [split; [|done]; intros _ cm H1; by apply elem_of_nil in H1|].
  cbn [mbind list_bind]. rewrite !app_nil. setoid_rewrite elem_of_cons. split.
  - intros ([H1 H2] & [H3 H4]) cm' [->|Hin]; [|by apply IH]. by destruct (listing cm) as [[|]|].
  - intros Hall. rewrite (Hall cm) by by left. destruct (proj2 IH) as [H1 H2]; [|done]. intros cm' Hin. apply Hall. by right.
Qed.

(** C11: the guard lets a call of the index tool pass only when the server is unconfined (every entry
    that serves the session lists no root), or the path is absolute and inside. In all other cases,
    an unreadable record and unreadable scopes among them, it gives a reason. *)
Theorem guard_decision_correct (show : roots_error → string)
    (listing : CodebaseMemory → result roots_error (list string)) (repo_path : string)
    (entries : list CodebaseMemory) (active_tags : option (gset string)) :
  guard_decision show listing repo_path entries active_tags = None ↔
  (active_tags ≠ None ∨ entries ≠ []) ∧
  ((∀ cm, cm ∈ serving_entries entries active_tags → listing cm = Ok []) ∨
   is_absolute repo_path = true ∧ inside listing entries active_tags repo_path).
Proof.
  unfold guard_decision. case_decide as Hn.
  { split; [done|]. intros [[H1|H1] _]; destruct Hn as [H2 H3%length_zero_iff_nil]; done. }
  assert (Hn' : active_tags ≠ None ∨ entries ≠ []).
  { destruct active_tags; [by left|]. right. intros ->. by apply Hn. }
  set (serving := serving_entries entries active_tags). cbn zeta. rewrite decide_with_reads_None, decide_listed_None.
  rewrite <- (unconfined listing (λ cm e, entry_name cm +:+ " (" +:+ show e +:+ ")")).
  unfold inside. fold serving. setoid_rewrite (listed_elem listing serving). split.
  - intros [H1 [H2|H2]]; (split; [done|]); [left; auto|right]. naive_solver.
  - intros [_ [[H1 H2]|H2]]; [tauto|]. split; [|right; naive_solver]. intros H3. exfalso.
    destruct H2 as (_ & cm & roots & root & real & rr & Hcm & E & Hr & _). destruct (not_elem_of_nil root).
    rewrite <- H3. apply listed_elem. eauto.
Qed.

(** ** The notice at the start of a session *)

Lemma join_empty sep l : Forall (λ x, x ≠ "") l → join sep l = "" → l = [].
Proof.
  destruct l as [|x l]; [done|]. intros [Hx _]%Forall_cons. destruct l as [|y l]; cbn [join]; [done|].
  destruct x; [done|]. by rewrite str_app_cons.
Qed.
Lemma root_problems_filled cm project_root home env : Forall (λ x, x ≠ "") (root_problems cm project_root home env).
Proof.
  unfold root_problems. apply Forall_app_2; [|apply Forall_app_2]; repeat case_match; repeat constructor; done.
Qed.
Lemma covered_spec path roots : is_within_any path roots = true ↔
  ∃ root real real_root, root ∈ roots ∧ canonicalize path = Ok real ∧ canonicalize root = Ok real_root ∧
    components real_root `prefix_of` components real.
Proof.
  unfold is_within_any, canonical, path_under, cwd_under_prefix. destruct (canonicalize path) as [real|]; [|naive_solver].
  rewrite existsb_exists. setoid_rewrite <- list_elem_of_In. setoid_rewrite list_elem_of_omap. setoid_rewrite bool_decide_eq_true. split.
  - intros (rr & (root & Hin & E) & Hp). exists root, real, rr. by destruct (canonicalize root); simplify_eq.
  - intros (root & real' & rr & Hin & [= <-] & E & Hp). exists rr. split; [|done]. exists root. by rewrite E.
Qed.

Lemma filter_empty {A} (P : A → Prop) `{∀ x, Decision (P x)} (l : list A) : filter P l = [] ↔ ∀ x, x ∈ l → ¬ P x.
Proof.
  split.
  - intros E x Hx HP. apply (not_elem_of_nil x). rewrite <- E. by apply list_elem_of_filter.
  - intros Hn. destruct (filter P l) as [|x l'] eqn:E; [done|]. assert (Hx : x ∈ filter P l) by (rewrite E; by left).
    apply list_elem_of_filter in Hx as [HP Hx]. by destruct (Hn x).
Qed.

(** The session starts without a word about the roots exactly when the record can be read, it is empty
    or each declared folder lies in a recorded one, each recorded root that resolves lies in a
    declared one, every entry of the configuration is usable and the session folder is not too
    broad. *)
Theorem session_start_silent (show : roots_error → string) (run : CodebaseMemory → result string string)
    (cm : CodebaseMemory) (project_root : string) (tilde_home home : option string) (env : string → option string) :
  let wanted := configured_roots cm home env in
  session_start_notice show run cm project_root tilde_home home env = None ↔
  ∃ listed cache, list_roots run cm = Ok listed ∧ cache_dir cm tilde_home home = Ok cache ∧
    (∀ root, root ∈ wanted → listed ≠ [] → is_folder root = true → is_within_any root listed = true) ∧
    (∀ root, root ∈ listed → is_Some (canonical root) → is_within_any root wanted = true) ∧
    root_problems cm project_root home env = [].
Proof.
  intros wanted. unfold session_start_notice, check_roots. fold wanted.
  destruct (list_roots run cm) as [listed|e]; cbn [mbind result_bind]; [|naive_solver].
  destruct (cache_dir cm tilde_home home) as [cache|e]; cbn [mbind result_bind map_err]; [|naive_solver].
  assert (Hm : missing_roots wanted listed = [] ↔
    ∀ root, root ∈ wanted → listed ≠ [] → is_folder root = true → is_within_any root listed = true).
  { unfold missing_roots. case_decide as Hl; [naive_solver|]. rewrite filter_empty.
    apply forall_proper; intros root. destruct (is_folder root), (is_within_any root listed); naive_solver. }
  assert (Hu : undeclared_roots listed wanted = [] ↔
    ∀ root, root ∈ listed → is_Some (canonical root) → is_within_any root wanted = true).
  { unfold undeclared_roots. rewrite filter_empty.
    apply forall_proper; intros root. destruct (is_within_any root wanted); naive_solver. }
  set (report := mkReport _ _ _ _). pose proof (root_problems_filled cm project_root home env) as Hp.
  assert (Hd : (describe report).1 = false ↔ missing_roots wanted listed = []).
  { unfold describe, report. cbn [rr_listed rr_missing]. case_decide as Hl.
    - split; [|done]. intros _. unfold missing_roots. by rewrite decide_True.
    - case_decide as Hf; [by apply map_eq_nil in Hf|]. split; [done|]. intros E. by rewrite E in Hf. }
  assert (Ht : (describe report).2 ≠ "") by (unfold describe; repeat case_decide; done).
  destruct (describe report) as [warn text]. cbn [fst snd rr_undeclared report] in *.
  case_decide as Hj.
  - apply join_empty in Hj; [|apply Forall_app_2; [|done]; case_match; repeat constructor; done].
    apply app_nil in Hj as [Hw Hpr]. split; [|done]. intros _. exists listed, cache. destruct warn; [done|]. cbn [orb] in Hw.
    case_bool_decide as Hun; [|done]. split_and!; [done|done|by apply Hm, Hd|by apply Hu|done].
  - split; [done|]. intros (? & ? & [= <-] & [= <-] & H1 & H2 & H3). contradict Hj. apply Hm, Hd in H1. apply Hu in H2.
    rewrite H1, H2, H3. done.
Qed.
End roots.

(** ** Quoted words read back *)

Lemma words_loop_quoted words w s rest :
  words_loop 0 [] words (Some w) (Some "'"%char) (quote_body s +:+ "'" +:+ rest) =
  words_loop 0 [] words (Some (w +:+ s)) None rest.
Proof.
  revert w. induction s as [|c s IH]; intros w.
  - cbn [quote_body]. by str_simpl.
  - cbn [quote_body]. destruct (Ascii.eqb_spec c "'") as [->|Hc].
    + rewrite !str_app_assoc.
      change ("'\''" +:+ quote_body s +:+ "'" +:+ rest) with (String "'" (String "\" (String "'" (String "'" (quote_body s +:+ "'" +:+ rest))))).
      cbn [words_loop Ascii.eqb Bool.eqb orb andb]. unfold grow. rewrite IH. cbn. by rewrite str_app_nil_r, str_app_assoc.
    + rewrite str_app_cons. cbn [words_loop]. destruct (Ascii.eqb_spec c "'") as [|_]; [done|].
      cbn [Ascii.eqb Bool.eqb andb]. unfold grow. rewrite IH. cbn [default]. by rewrite str_app_assoc.
Qed.
(** A character that only adds to the word. *)
Definition is_solid (c : ascii) : bool := plain_char c && negb (is_operator c) && Nat.eqb (ws_len (chr c)) 0.
Lemma solid_char c s : is_solid c = true →
  Ascii.eqb c "'" || Ascii.eqb c "034" = false ∧ Ascii.eqb c "\" = false ∧ is_operator c = false ∧ ws_len (String c s) = 0.
Proof.
  unfold is_solid. intros [[Hp Ho%negb_true_iff]%andb_true_iff Hw%Nat.eqb_eq]%andb_true_iff.
  destruct (plain_char_inv c Hp) as (-> & -> & -> & _). by destruct (ws_len_ascii c s Hp) as [-> _].
Qed.
Lemma plain_word_solid c : is_plain_word_char c = true → is_solid c = true.
Proof. destruct c as [[] [] [] [] [] [] [] []]; intros H; vm_compute in H; first [discriminate H|by vm_compute]. Qed.
Lemma words_loop_solid words word s rest : str_all is_solid s = true → s ≠ "" →
  words_loop 0 [] words word None (s +:+ rest) = words_loop 0 [] words (grow word s) None rest.
Proof.
  intros Hs Hne. revert word. induction s as [|c s IH]; intros word; [done|]. cbn [str_all] in Hs.
  apply andb_true_iff in Hs as [Hc Hs]. rewrite str_app_cons. cbn [words_loop].
  destruct (solid_char c (s +:+ rest) Hc) as (-> & -> & -> & ->).
  destruct (decide (s = "")) as [->|Hs']; [by rewrite str_app_nil_l|]. rewrite IH by done. unfold grow, from_option, id.
  by rewrite str_app_assoc.
Qed.
(** A word that [shell_word] wrote joins what was read of the current word. *)
Lemma words_loop_shell_word words word s rest :
  words_loop 0 [] words word None (shell_word s +:+ rest) = words_loop 0 [] words (grow word s) None rest.
Proof.
  unfold shell_word. case_decide as Hs; [by subst|].
  destruct (str_all is_plain_word_char s) eqn:Hp; [apply words_loop_solid; [by eapply str_all_impl; [apply plain_word_solid|]|done]|].
  unfold single_quote. rewrite !str_app_assoc. change ("'" +:+ quote_body s +:+ "'" +:+ rest) with (String "'" (quote_body s +:+ "'" +:+ rest)).
  cbn [words_loop Ascii.eqb Bool.eqb orb andb]. unfold grow at 1. rewrite words_loop_quoted. unfold grow. by rewrite str_app_nil_r.
Qed.

(** The command that a report tells the user to paste reads back, by the word splitter of the
    commit gate, as exactly the words it is meant to be, whatever characters the two paths hold:
    quotes, blanks, operators and substitutions stay part of the path. *)
Theorem allow_root_command_reads_back (cache root : string) :
  split_words (allow_root_command cache root) =
  [["CBM_CACHE_DIR=" +:+ cache; "codebase-memory-mcp"; "allow-root"; root]].
Proof.
  unfold split_words, allow_root_command.
  rewrite (words_loop_solid [] None "CBM_CACHE_DIR=") by done.
  rewrite words_loop_shell_word.
  change (" codebase-memory-mcp allow-root " +:+ shell_word root) with
    (String " " ("codebase-memory-mcp" +:+ String " " ("allow-root" +:+ String " " (shell_word root)))).
  assert (Hblank : ∀ words w s, words_loop 0 [] words (Some w) None (String " " s) = words_loop 0 [] (words ++ [w]) None None s).
  { intros words w s. cbn [words_loop Ascii.eqb Bool.eqb orb]. destruct (ws_len_ascii " " s eq_refl) as [-> _]. done. }
  unfold grow. cbn [from_option id]. rewrite Hblank, (words_loop_solid _ None "codebase-memory-mcp") by done.
  unfold grow. rewrite Hblank, (words_loop_solid _ None "allow-root") by done. unfold grow. rewrite Hblank.
  rewrite <- (str_app_nil_r (shell_word root)), words_loop_shell_word. unfold grow. cbn [words_loop option_list].
  cbn. done.
Qed.
