(* ===== verification/PreTool.v ===== *)
(** * The decision before a tool call (src/hook_run/mod.rs, resolve_pre_tool_decision and
    resolve_pre_tool_text)

    All checks of a tool call in their order: the index guard, the transcript checks, the read before
    a write, the commit gate, the task redirect or read-once, and the two advisories. Only the text
    that starts with the deny mark refuses the call, so a check that refuses must lead the text. *)

From S2P Require Import Prelude RustStr Names Json TaskData TaskStore SessionStore HookState.
From S2P Require Import Reminders TaskNudge CdGuard RepeatDetect ReadOnce TaskRedirect ConfigSchema.
From S2P Require Import ShellSplit Slippage Transcript CbmRoots.

Definition DENY_MARK : string := "__DENY__:".
Definition denies (text : option string) : bool :=
  match text with Some t => starts_with DENY_MARK t | None => false end.
Definition nonempty (text : string) : option string := if decide (text = "") then None else Some text.

Section pre_tool.
Context `{HP : Platform, HF : Folders, HJ : JsonText, HD : Digest}.
Context `{HSaved : Codec Saved, HCache : Codec SessionCache, HNudge : Codec NudgeState, HStats : Codec SessionStats}.

(** What the system answers during one call. *)
Record Surroundings := mkSurroundings {
  su_io : HookIo; su_log : LogIo; su_paths : PathView; su_files : FileView;
  su_lossy : string → string; su_open : string → transcript_file;
  su_gate : GateTexts; su_tracking : Tracking;
  su_project : result error string; su_detected : result error ResumeContext;
  su_show : error → string; su_show_chain : error → string;
  su_show_roots : roots_error → string; su_listing : CodebaseMemory → result roots_error (list string);
  su_active_tags : option (gset string); su_entries : result string (list CodebaseMemory) }.

Definition tracker_of (f : option Features) : option TaskTracker := f ≫= fe_task_tracker.

(** The redirect of a task tool, as a text. *)
Definition redirect (s : Surroundings) (payload : json) (w : world) : option string * world :=
  let '(r, w) := TaskRedirect.handle_pre_tool_use (su_detected s) payload (su_project s) w in
  (match r with Ok (Some r) => Some (reply_text (su_show s) (su_show_chain s) r) | _ => None end, w).

(** The parts that lead and follow: the redirect or read-once, then the two advisories. *)
Definition primary_text (s : Surroundings) (payload : json) (state_id : option string) (f : option Features)
    (enabled : bool) (h : Hooks) (w : world) : option string * Hooks * world :=
  let '(redirected, w) := if enabled then redirect s payload w else (None, w) in
  match redirected with
  | Some t => (Some t, h, w)
  | None =>
    match f ≫= fe_read_once with
    | Some ro =>
      if ro_enabled ro then
        let '(t, h) := ReadOnce.handle_pre_tool_use (su_io s) (su_files s) payload state_id ro h in (nonempty t, h, w)
      else (None, h, w)
    | None => (None, h, w)
    end
  end.
Definition repeat_text (s : Surroundings) (payload : json) (session_id : option string) (f : option Features) (h : Hooks)
  : option string * Hooks :=
  let cfg := default RepeatDetect.default_config (f ≫= fe_repeat_detect) in
  if rd_enabled cfg then
    let '(t, h) := RepeatDetect.handle_pre_tool_use (su_io s) payload session_id cfg h in (nonempty t, h)
  else (None, h).
Definition cd_text (payload : json) (f : option Features) (h : Hooks) : option string * Hooks :=
  let cfg := default (mkCdGuard true) (f ≫= fe_cd_guard) in
  let '(t, h) := CdGuard.handle_pre_tool_use (cg_enabled cfg) payload h in (nonempty t, h).
Definition gate_text (s : Surroundings) (payload : json) (state_id : option string) (f : option Features)
    (enabled : bool) (h : Hooks) : string * Hooks :=
  match tracker_of f with
  | Some tracker =>
    if enabled then TaskNudge.handle_pre_tool_use (su_gate s) (su_io s) tracker payload state_id (su_tracking s) h
    else ("", h)
  | None => ("", h)
  end.

Definition resolve_pre_tool_text (s : Surroundings) (payload : json) (session_id : option string) (f : option Features)
    (enabled : bool) (h : Hooks) (w : world) : option string * Hooks * world :=
  let state_id := (λ id, agent_state_key id payload) <$> session_id in
  let slippage := f ≫= fe_slippage in
  let '(scan, h) := handle_transcript_scan (su_lossy s) (su_open s) slippage payload h in
  if decide (scan ≠ "") then (Some scan, h, w)
  else
    let '(guard, h) := Slippage.handle_pre_tool_use (su_io s) (su_log s) (su_paths s) slippage payload state_id h in
    if decide (guard ≠ "") then (Some guard, h, w)
    else
      let '(gate, h) := gate_text s payload state_id f enabled h in
      if decide (gate ≠ "") then (Some gate, h, w)
      else
        let '(primary, h, w) := primary_text s payload state_id f enabled h w in
        let '(repeated, h) := repeat_text s payload session_id f h in
        let '(cd, h) := cd_text payload f h in
        let parts := omap id [primary; repeated; cd] in
        (if decide (parts = []) then None else Some (join (nl +:+ nl) parts), h, w).

(** [state_dir]: [Err] when the state folder cannot be found. *)
Definition resolve_pre_tool_decision (s : Surroundings) (payload : json) (session_id : option string) (f : option Features)
    (enabled : bool) (state_dir : result error unit) (h : Hooks) (w : world) : option string * Hooks * world :=
  let clobber := CbmRoots.handle_pre_tool_use payload in
  if decide (clobber ≠ "") then (Some clobber, h, w)
  else
    let roots := handle_roots (su_show_roots s) (su_listing s) (default [] (fe_codebase_memory <$> f))
                   (su_active_tags s) (su_entries s) payload in
    if decide (roots ≠ "") then (Some roots, h, w)
    else
      match state_dir with
      | Ok _ => resolve_pre_tool_text s payload session_id f enabled h w
      | Err e =>
        let h := note (CheckOff "read-once and repeat detection") h in
        let gate := if enabled then tracker_of f ≫= λ t, state_dir_deny t payload (su_show s e) else None in
        match gate with
        | Some deny => (Some deny, h, w)
        | None =>
          (if enabled then reply_text (su_show s) (su_show_chain s) <$> deny_tracker_unavailable payload e else None, h, w)
        end
      end.


(** ** Each check refuses with the mark, or is silent *)

Definition marked (text : string) : Prop := text = "" ∨ starts_with DENY_MARK text = true.

Lemma mark_app t : starts_with DENY_MARK ("__DENY__:" +:+ t) = true.
Proof. apply starts_with_spec. by exists t. Qed.
Lemma marked_denies text : marked text → text ≠ "" → denies (Some text) = true.
Proof. by intros [->|]. Qed.
Lemma scan_marked lossy open cfg payload h : marked (handle_transcript_scan lossy open cfg payload h).1.
Proof.
  unfold handle_transcript_scan. destruct cfg as [cfg|]; [|by left]. case_match; [by left|].
  destruct (json_get "transcript_path" payload ≫= Json.as_str) as [path|]; [|by left].
  destruct (read_turn_state lossy path (open path) h) as [[state|] h']; [|by left].
  cbn [fst]. unfold scan_answer. repeat case_match; (by left) || (right; by rewrite ?mark_app).
Qed.
Lemma scan_files lossy open cfg payload h :
  hk_files (handle_transcript_scan lossy open cfg payload h).2 = hk_files h.
Proof.
  unfold handle_transcript_scan, read_turn_state, read_tail. destruct cfg as [cfg|]; [|done]. case_match; [done|].
  destruct (json_get "transcript_path" payload ≫= Json.as_str) as [path|]; [|done]. by destruct (open path).
Qed.
Lemma unread_marked path unresolved : starts_with DENY_MARK (unread_write_deny path unresolved) = true.
Proof.
  unfold unread_write_deny. destruct unresolved; cbv zeta; rewrite ?str_app_assoc;
    rewrite (str_append_String "__DENY__:`") || idtac; apply starts_with_spec; by eexists.
Qed.
Lemma write_marked lio view id path h : marked (guard_write lio view id path h).
Proof.
  unfold guard_write. destruct (pv_absent view path); [by left|]. destruct (read_stats lio id h) as [stats|e].
  - destruct (resolved_key view path). case_decide; [by left|]. right. apply unread_marked.
  - right. apply starts_with_spec. by eexists.
Qed.
Lemma guard_marked io lio view cfg payload id h : marked (Slippage.handle_pre_tool_use io lio view cfg payload id h).1.
Proof.
  unfold Slippage.handle_pre_tool_use. case_match; [by left|]. destruct (safe_session id h) as [[session|] h']; [|by left].
  destruct (tool_call payload) as [[tool path]|]; [|by left]. case_decide; [by left|]. case_decide; [apply write_marked|by left].
Qed.
Lemma gate_deny_marked a b : starts_with DENY_MARK (gate_deny a b) = true.
Proof. unfold gate_deny. apply starts_with_spec. by eexists. Qed.
Lemma deny_text_marked t why : starts_with DENY_MARK (deny_text t why) = true.
Proof.
  unfold deny_text, gate_unavailable_deny. destruct why; try apply gate_deny_marked; apply starts_with_spec; by eexists.
Qed.
Lemma gate_marked s payload id f enabled h : marked (gate_text s payload id f enabled h).1.
Proof.
  unfold gate_text. destruct (tracker_of f) as [t|]; [|by left]. destruct enabled; [|by left].
  unfold TaskNudge.handle_pre_tool_use. destruct (commit_gate _ _ _ _ _ _) as [[|why] h']; [by left|]. right. apply deny_text_marked.
Qed.
Lemma reply_marked show show_chain r : starts_with DENY_MARK (reply_text show show_chain r) = true.
Proof. unfold reply_text, deny. apply mark_app. Qed.

(** ** What an earlier check leaves for a later one *)

Definition tool_of (payload : json) : option string := json_get "tool_name" payload ≫= Json.as_str.

Lemma update_other io lio id change h k : k.1 ≠ SLIPPAGE_DIR →
  hk_files (update_stats io lio id change h) !! k = hk_files h !! k.
Proof.
  intros Hk. unfold update_stats. destruct (stats_lock io id h) as [locked h1] eqn:E.
  assert (H1 : hk_files h1 !! k = hk_files h !! k).
  { pose proof (lock_other io SLIPPAGE_DIR id h k Hk) as Hl. unfold stats_lock in E. by rewrite E in Hl. }
  assert (Hsave : ∀ stats h0, hk_files (save_stats io id stats h0) !! k = hk_files h0 !! k).
  { intros stats h0. unfold save_stats, write_file. destruct (io_write _ _); cbn [note put_file hk_files];
      [rewrite lookup_insert_ne by (intros <-; by apply Hk)|]; by apply prune_folder_other. }
  rewrite <- H1. unfold load_stats_for_rewrite. destruct (read_checked lio id h1) as [stats|[cause|cause]]; [by rewrite Hsave| |done].
  destruct locked; cbn [negb]; [|done]. unfold move_aside. destruct (first_free _ _ _ _) as [c|] eqn:Hc; [|done].
  apply first_free_spec in Hc as (n & -> & _). destruct (li_rename lio); [|done]. rewrite Hsave. unfold rename_file.
  destruct (hk_files h1 !! stats_path id); [|done]. cbn [note hk_files].
  rewrite lookup_insert_ne by (intros <-; by apply Hk). by rewrite lookup_delete_ne by (intros <-; by apply Hk).
Qed.
Lemma guard_other io lio view cfg payload id h k : k.1 ≠ SLIPPAGE_DIR →
  hk_files (Slippage.handle_pre_tool_use io lio view cfg payload id h).2 !! k = hk_files h !! k.
Proof.
  intros Hk. unfold Slippage.handle_pre_tool_use. case_match; [done|]. unfold safe_session.
  destruct id as [id|]; [|done]. destruct (is_valid_short_name id); [|done]. destruct (tool_call payload) as [[tool path]|]; [|done].
  case_decide; [by apply update_other|]. by case_decide.
Qed.

(** The verdict of the gate depends on the session's own state file alone. *)
Lemma gate_same s payload id f enabled h h' :
  (∀ key, read_text (json_file TaskNudge.DIR key) h = read_text (json_file TaskNudge.DIR key) h') →
  (gate_text s payload id f enabled h).1 = (gate_text s payload id f enabled h').1.
Proof.
  intros Hf. unfold gate_text. destruct (tracker_of f) as [t|]; [|done]. destruct enabled; [|done].
  unfold TaskNudge.handle_pre_tool_use. set (io := su_io s).
  assert (Hsave : ∀ path st g g', (TaskNudge.save io path st g).1 = (TaskNudge.save io path st g').1).
  { intros path st g g'. unfold TaskNudge.save, write_file. by destruct (io_write io path.1). }
  assert (Hdec : ∀ path command st g g', (gate_decide io path command (su_tracking s) st g).1 = (gate_decide io path command (su_tracking s) st g').1).
  { intros path command st g g'. unfold gate_decide.
    pose proof (Hsave path (with_commit_denied false st) g g') as H1. pose proof (Hsave path (with_commit_denied true st) g g') as H2.
    destruct (TaskNudge.save io path (with_commit_denied false st) g) as [b1 g1],
      (TaskNudge.save io path (with_commit_denied false st) g') as [b1' g1'],
      (TaskNudge.save io path (with_commit_denied true st) g) as [b2 g2],
      (TaskNudge.save io path (with_commit_denied true st) g') as [b2' g2']. cbn [fst] in *. subst b1' b2'.
    destruct (su_tracking s); try done; destruct (wip_open _ _), (nu_commit_denied st), b1, b2; try done;
      by destruct (negb (is_ok (shell_segments command))). }
  assert (Hv : (commit_gate io t payload id (su_tracking s) h).1 = (commit_gate io t payload id (su_tracking s) h').1).
  { unfold commit_gate. cbv zeta. case_match; [done|]. destruct (Json.as_str (json_index "command" (json_index "tool_input" payload))) as [command|]; [|done]. case_match; [done|].
    destruct id as [id|]; [|done]. unfold state_path. destruct (is_valid_short_name id) eqn:Hid; [|done].
    pose proof (lock_keeps_text io TaskNudge.DIR id h TaskNudge.DIR id) as Hl.
    pose proof (lock_keeps_text io TaskNudge.DIR id h' TaskNudge.DIR id) as Hl'.
    assert (Hlock : (lock_state_file io TaskNudge.DIR id h).1 = (lock_state_file io TaskNudge.DIR id h').1).
    { unfold lock_state_file. rewrite Hid. cbn [negb]. by destruct (io_lock io TaskNudge.DIR). }
    destruct (lock_state_file io TaskNudge.DIR id h) as [b g], (lock_state_file io TaskNudge.DIR id h') as [b' g'].
    cbn [fst snd] in *. subst b'. destruct b; cbn [negb]; [|done]. unfold read_state. rewrite Hl, Hl', Hf.
    destruct (read_text _ h') as [text| |]; [destruct (decode text)|..]; try done; apply Hdec. }
  destruct (commit_gate io t payload id _ h) as [v g], (commit_gate io t payload id _ h') as [v' g']. cbn in *. by subst.
Qed.
Lemma gate_files_other s payload id f enabled h tool : tool_of payload = Some tool → is_shell_tool tool = false →
  gate_text s payload id f enabled h = ("", h).
Proof.
  intros Ht Hs. unfold gate_text. destruct (tracker_of f) as [t|]; [|done]. destruct enabled; [|done].
  unfold TaskNudge.handle_pre_tool_use, commit_gate, json_index. unfold tool_of in Ht. cbv zeta.
  destruct (json_get "tool_name" payload) as [v|]; [|done]. cbn in *. rewrite Ht. cbn. rewrite Hs. by rewrite orb_true_r.
Qed.

(** The redirect answers each call of a task tool and no other. *)
Lemma redirect_total s payload w : is_Some (redirect s payload w).1 ↔ is_Some (task_tool_name payload).
Proof.
  unfold redirect, TaskRedirect.handle_pre_tool_use. destruct (task_tool_name payload) as [tool|]; [|done].
  destruct (su_project s) as [project|e]; [|done]. cbn zeta.
  set (owner := from_session_id _). unfold mbind, st_bind.
  assert (Ht : ∀ {A B} (m : ST world B A) (k : result B A → reply), ∃ r, ((r ← st_try m; mret (k r)) w : result error reply * world).1 = Ok r).
  { intros A B m k. unfold mbind, st_bind, st_try. destruct (m w) as [r w']. by eexists. }
  assert (Hr : ∃ r, (handle_inner_as project owner (su_detected s) tool (json_get "tool_input" payload) w).1 = Ok r).
  { unfold handle_inner_as, create, list_all, update. repeat case_match; try (by eexists); apply Ht. }
  destruct Hr as [r Hr]. destruct (handle_inner_as project owner (su_detected s) tool _ w) as [r' w']. cbn in Hr. subst r'. done.
Qed.
Lemma redirect_marked s payload w t : (redirect s payload w).1 = Some t → starts_with DENY_MARK t = true.
Proof.
  unfold redirect. destruct (TaskRedirect.handle_pre_tool_use _ _ _ _) as [[[r|]|e] w']; try done. intros [= <-]. apply reply_marked.
Qed.

(** Read-once looks at the files of its own folder. *)
Lemma read_once_same io view payload id config h h' :
  (∀ key, read_text (json_file READ_DIR key) h = read_text (json_file READ_DIR key) h') →
  (ReadOnce.handle_pre_tool_use io view payload id config h).1 = (ReadOnce.handle_pre_tool_use io view payload id config h').1.
Proof.
  intros Hf. unfold ReadOnce.handle_pre_tool_use.
  pose proof (read_target_stateless payload h h') as Ht. pose proof (read_target_files payload h) as H1.
  pose proof (read_target_files payload h') as H2.
  destruct (read_target payload h) as [target g], (read_target payload h') as [target' g']. cbn [fst snd] in *. subst target'.
  destruct target as [path|]; [|done]. destruct (fv_stamp view path) as [[mtime size]|]; [|done].
  destruct id as [id|]; [|done]. destruct (is_valid_short_name id); [|done]. cbn [negb]. cbv zeta.
  assert (Hload : (load io id (ro_ttl_seconds config) (lock_state_file io READ_DIR id g).2).1 =
                  (load io id (ro_ttl_seconds config) (lock_state_file io READ_DIR id g').2).1).
  { unfold load, session_cache_path. rewrite !lock_keeps_text.
    assert (Hg : read_text (json_file READ_DIR id) g = read_text (json_file READ_DIR id) g').
    { transitivity (read_text (json_file READ_DIR id) h); [unfold read_text; by rewrite H1|]. rewrite Hf.
      unfold read_text. by rewrite H2. }
    rewrite Hg. destruct (read_text _ g') as [text| |]; [destruct (decode text)|..]; done. }
  destruct (load io id _ (lock_state_file io READ_DIR id g).2) as [[cache failed] k],
    (load io id _ (lock_state_file io READ_DIR id g').2) as [[cache' failed'] k']. cbn [fst] in Hload. injection Hload as <- <-.
  destruct (sc_entries cache !! fv_key view path); [|done]. case_decide; [|done]. by destruct (within_ttl _ _ _).
Qed.
Lemma read_once_other io view payload id config h : tool_of payload ≠ Some "Read" →
  ReadOnce.handle_pre_tool_use io view payload id config h = ("", h).
Proof.
  intros Ht. unfold ReadOnce.handle_pre_tool_use, read_target, json_index.
  rewrite bool_decide_false; [done|]. unfold tool_of in Ht. by destruct (json_get "tool_name" payload).
Qed.
Lemma read_once_length io view payload id config h t : (ReadOnce.handle_pre_tool_use io view payload id config h).1 = t →
  t = "" ∨ ∃ path n, t = held config path n.
Proof.
  unfold ReadOnce.handle_pre_tool_use. destruct (read_target payload h) as [[path|] g]; [|by left; subst].
  destruct (fv_stamp view path) as [[mtime size]|]; [|by left; subst]. destruct id as [id|]; [|by left; subst].
  destruct (negb _); [by left; subst|]. cbv zeta. destruct (load _ _ _ _) as [[cache failed] k].
  destruct (sc_entries cache !! _); [|by left; subst]. case_decide; [|by left; subst].
  destruct (within_ttl _ _ _); [|by left; subst]. intros <-. right. eauto.
Qed.

Lemma mark_joined t rest : 9 ≤ String.length t → starts_with DENY_MARK (t +:+ rest) = starts_with DENY_MARK t.
Proof.
  intros Hl. do 9 (destruct t as [|? t]; [cbn in Hl; lia|]). clear Hl.
  unfold starts_with. rewrite !str_app_cons. apply bool_decide_ext. cbn [DENY_MARK strip_prefix].
  repeat (case_match; [|done]). split; by eexists.
Qed.
Lemma advisory_silent payload s session_id f h :
  (∀ t, (repeat_text s payload session_id f h).1 = Some t → ∀ r, starts_with DENY_MARK (t +:+ r) = false) ∧
  (∀ t h', (cd_text payload f h').1 = Some t → starts_with DENY_MARK t = false).
Proof.
  split.
  - intros t. unfold repeat_text. destruct (rd_enabled _); [|done]. unfold RepeatDetect.handle_pre_tool_use.
    destruct session_id as [id|]; [|done]. destruct (negb _); [done|]. destruct (json_get "tool_name" payload ≫= Json.as_str) as [tool|]; [|done].
    cbv zeta. destruct (RepeatDetect.load _ _) as [st g]. destruct (bump _ _ _) as [last n]. cbn [fst]. unfold nonempty.
    destruct (bool_decide _); [|done]. intros [= <-] r. reflexivity.
  - intros t h'. unfold cd_text, CdGuard.handle_pre_tool_use. destruct (negb _); [done|].
    destruct (json_get "tool_name" payload ≫= Json.as_str) as [tool|]; [|done]. destruct (negb _); [done|].
    destruct ((json_get "tool_input" payload ≫= json_get "command") ≫= Json.as_str); [|done].
    destruct (command_ends_with_cd _ _) as [[] g]; [|done]. intros [= <-]. done.
Qed.

Lemma guard_same io lio view cfg payload id h h' : hk_files h = hk_files h' →
  (Slippage.handle_pre_tool_use io lio view cfg payload id h).1 = (Slippage.handle_pre_tool_use io lio view cfg payload id h').1.
Proof.
  intros Hf. unfold Slippage.handle_pre_tool_use. case_match; [done|]. unfold safe_session.
  destruct id as [id|]; [|done]. destruct (is_valid_short_name id); [|done]. destruct (tool_call payload) as [[tool path]|]; [|done].
  case_decide; [done|]. case_decide; [|done]. cbn [fst]. unfold guard_write, read_stats, read_checked, read_text. by rewrite Hf.
Qed.

Lemma join_lead sep t parts : ∃ rest, join sep (t :: parts) = t +:+ rest.
Proof. destruct parts as [|p parts]; [exists ""; by rewrite str_app_nil_r|]. by eexists. Qed.
Lemma mark_length t : starts_with DENY_MARK t = true → 9 ≤ String.length t.
Proof. intros [r ->]%starts_with_spec. rewrite str_length_app. cbn. lia. Qed.
Lemma parts_deny (primary repeated cd : option string) :
  (∀ t, primary = Some t → 9 ≤ String.length t) →
  (∀ t, repeated = Some t → ∀ r, starts_with DENY_MARK (t +:+ r) = false) →
  (∀ t, cd = Some t → starts_with DENY_MARK t = false) →
  let parts := omap id [primary; repeated; cd] in
  denies (if decide (parts = []) then None else Some (join (nl +:+ nl) parts)) = denies primary.
Proof.
  intros Hp Hr Hc. cbn zeta. destruct primary as [t|].
  - cbn [omap list_omap id]. rewrite decide_False by done. match goal with |- context [join ?a (t :: ?l)] => destruct (join_lead a t l) as [rest ->] end.
    cbn [denies]. by apply mark_joined, Hp.
  - cbn [omap list_omap id]. destruct repeated as [t|].
    + rewrite decide_False by done. match goal with |- context [join ?a (t :: ?l)] => destruct (join_lead a t l) as [rest ->] end.
      cbn [denies]. by apply Hr.
    + destruct cd as [t|]; cbn; [by apply Hc|done].
Qed.

(** What the checks that lead the text say of a call, each asked alone in the state before it. *)
Definition refusals (s : Surroundings) (payload : json) (session_id : option string) (f : option Features)
    (enabled : bool) (h : Hooks) : Prop :=
  let id := (λ id, agent_state_key id payload) <$> session_id in
  (handle_transcript_scan (su_lossy s) (su_open s) (f ≫= fe_slippage) payload h).1 ≠ "" ∨
  (Slippage.handle_pre_tool_use (su_io s) (su_log s) (su_paths s) (f ≫= fe_slippage) payload id h).1 ≠ "" ∨
  (gate_text s payload id f enabled h).1 ≠ "" ∨
  (enabled = true ∧ is_Some (task_tool_name payload)) ∨
  (∃ ro, f ≫= fe_read_once = Some ro ∧ ro_enabled ro = true ∧
     starts_with DENY_MARK (ReadOnce.handle_pre_tool_use (su_io s) (su_files s) payload id ro h).1 = true).

Lemma primary_denies s payload id f enabled h w :
  let primary := (primary_text s payload id f enabled h w).1.1 in
  (∀ t, primary = Some t → 9 ≤ String.length t) ∧
  (denies primary = true ↔ enabled = true ∧ is_Some (task_tool_name payload) ∨
   (∃ ro, f ≫= fe_read_once = Some ro ∧ ro_enabled ro = true ∧
     starts_with DENY_MARK (ReadOnce.handle_pre_tool_use (su_io s) (su_files s) payload id ro h).1 = true)).
Proof.
  cbn zeta. unfold primary_text. destruct (if enabled then redirect s payload w else (None, w)) as [redirected w'] eqn:E.
  assert (Hred : is_Some redirected ↔ enabled = true ∧ is_Some (task_tool_name payload)).
  { destruct enabled; [|injection E as <- _; split; [by intros [? ?]|by intros [? _]]].
    pose proof (redirect_total s payload w) as Hr. rewrite E in Hr. cbn in Hr. rewrite Hr. naive_solver. }
  destruct redirected as [t|].
  - assert (Hm : starts_with DENY_MARK t = true).
    { destruct enabled; [|done]. apply (redirect_marked s payload w). by rewrite E. }
    cbn [fst]. split; [intros ? [= <-]; by apply mark_length|]. split; [|done]. intros _. left. apply Hred. eauto.
  - assert (Hno : ¬ (enabled = true ∧ is_Some (task_tool_name payload))) by (rewrite <- Hred; by intros [? ?]).
    destruct (f ≫= fe_read_once) as [ro|]; [destruct (ro_enabled ro) eqn:Hen|].
    + destruct (ReadOnce.handle_pre_tool_use _ _ payload id ro h) as [t h'] eqn:Er. cbn [fst]. split.
      * intros x Hx. unfold nonempty in Hx. case_decide; [done|]. injection Hx as <-.
        destruct (read_once_length (su_io s) (su_files s) payload id ro h t) as [->|(path & n & ->)]; [by rewrite Er|done|].
        unfold held, held_message. cbv zeta. case_decide; rewrite !str_length_app; cbn; lia.
      * split; [|intros [?|(ro' & [= <-] & _ & Hd)]; [done|]].
        -- intros Hd. right. exists ro. split_and!; [done..|]. rewrite Er. unfold nonempty in Hd. by case_decide.
        -- rewrite Er in Hd. unfold nonempty. case_decide; [subst; done|done].
    + cbn. split; [done|]. split; [done|]. intros [?|(ro' & [= <-] & ? & _)]; [done|congruence].
    + cbn. split; [done|]. split; [done|]. by intros [?|(ro' & [=] & _)].
Qed.

Lemma text_denies (s : Surroundings) (payload : json) (session_id : option string) (f : option Features)
    (enabled : bool) (h : Hooks) (w : world) :
  denies (resolve_pre_tool_text s payload session_id f enabled h w).1.1 = true ↔
  refusals s payload session_id f enabled h.
Proof.
  unfold resolve_pre_tool_text, refusals. set (id := _ <$> session_id).
  pose proof (scan_marked (su_lossy s) (su_open s) (f ≫= fe_slippage) payload h) as Hm1.
  pose proof (scan_files (su_lossy s) (su_open s) (f ≫= fe_slippage) payload h) as Hf1.
  destruct (handle_transcript_scan _ _ _ payload h) as [t1 h1]. cbn [fst snd] in *.
  case_decide as H1. { split; [by left|]. intros _. by apply marked_denies. }
  rewrite (guard_same _ _ _ _ payload id h h1) by done.
  pose proof (guard_marked (su_io s) (su_log s) (su_paths s) (f ≫= fe_slippage) payload id h1) as Hm2.
  pose proof (λ k, guard_other (su_io s) (su_log s) (su_paths s) (f ≫= fe_slippage) payload id h1 k) as Hf2.
  destruct (Slippage.handle_pre_tool_use _ _ _ _ payload id h1) as [t2 h2]. cbn [fst snd] in *.
  case_decide as H2. { split; [by right; left|]. intros _. by apply marked_denies. }
  assert (Hread : ∀ dir key, dir ≠ SLIPPAGE_DIR → read_text (json_file dir key) h2 = read_text (json_file dir key) h).
  { intros dir key Hd. unfold read_text. rewrite Hf2 by done. by rewrite Hf1. }
  rewrite (gate_same s payload id f enabled h h2) by (intros key; by rewrite Hread).
  pose proof (gate_marked s payload id f enabled h2) as Hm3.
  assert (H3f : ∀ ro, (ReadOnce.handle_pre_tool_use (su_io s) (su_files s) payload id ro h).1 =
                 (ReadOnce.handle_pre_tool_use (su_io s) (su_files s) payload id ro (gate_text s payload id f enabled h2).2).1).
  { intros ro. destruct (decide (tool_of payload = Some "Read")) as [Hr|Hr]; [|by rewrite !read_once_other].
    rewrite (gate_files_other s payload id f enabled h2 "Read") by done. apply read_once_same. intros key. by rewrite Hread. }
  destruct (gate_text s payload id f enabled h2) as [t3 h3]. cbn [fst snd] in *.
  case_decide as H3. { split; [by right; right; left|]. intros _. by apply marked_denies. }
  destruct (primary_denies s payload id f enabled h3 w) as [Hlen Hprim].
  destruct (primary_text s payload id f enabled h3 w) as [[primary h4] w']. cbn [fst] in *.
  destruct (advisory_silent payload s session_id f h4) as [Hrep Hcd].
  destruct (repeat_text s payload session_id f h4) as [repeated h5]. cbn [fst] in *.
  specialize (λ t, Hcd t h5). destruct (cd_text payload f h5) as [cd h6]. cbn [fst] in *.
  rewrite parts_deny by done. rewrite Hprim. setoid_rewrite H3f. split; [tauto|].
  intros [?|[?|[?|?]]]; done.
Qed.

Lemma clobber_marked payload : marked (CbmRoots.handle_pre_tool_use payload).
Proof.
  unfold CbmRoots.handle_pre_tool_use. destruct (negb _); [by left|]. destruct (input_text "name" payload) as [n|].
  - right. unfold name_override_reason. apply starts_with_spec. by eexists.
  - case_decide; [by right|by left].
Qed.
Lemma roots_marked show listing root_entries tags entries payload :
  marked (handle_roots show listing root_entries tags entries payload).
Proof.
  unfold handle_roots. destruct (negb _); [by left|]. destruct (input_text "repo_path" payload) as [p|]; [|by left]. cbv zeta.
  destruct tags as [tags|]; [destruct entries as [entries|e]|].
  - destruct (guard_decision _ _ _ _ _); [right; apply mark_app|by left].
  - right. apply mark_app.
  - destruct (guard_decision _ _ _ _ _); [right; apply mark_app|by left].
Qed.

(** The checks that need no state folder. *)
Definition index_refusal (s : Surroundings) (payload : json) (f : option Features) : Prop :=
  CbmRoots.handle_pre_tool_use payload ≠ "" ∨
  handle_roots (su_show_roots s) (su_listing s) (default [] (fe_codebase_memory <$> f)) (su_active_tags s) (su_entries s) payload ≠ "".

(** C7: no refusal is lost and none is made up: the decision refuses a call exactly when one of the
    checks that may refuse it does so by itself, asked in the state before the call; neither the
    checks in front nor the advisories that are joined to the text change that. Without a state
    folder the index guard still refuses, and so do the commit gate, for a commit it cannot check,
    and the redirect of the task tools; every other call passes. *)
Theorem pre_tool_denies (s : Surroundings) (payload : json) (session_id : option string) (f : option Features)
    (enabled : bool) (state_dir : result error unit) (h : Hooks) (w : world) :
  denies (resolve_pre_tool_decision s payload session_id f enabled state_dir h w).1.1 = true ↔
  index_refusal s payload f ∨
  match state_dir with
  | Ok _ => refusals s payload session_id f enabled h
  | Err e => enabled = true ∧
      ((∃ t, tracker_of f = Some t ∧ is_Some (state_dir_deny t payload (su_show s e))) ∨ is_Some (task_tool_name payload))
  end.
Proof.
  unfold resolve_pre_tool_decision, index_refusal. set (roots := handle_roots _ _ _ _ _ payload). cbv zeta.
  pose proof (clobber_marked payload) as Hm1.
  assert (Hm2 : marked roots) by apply roots_marked.
  case_decide as H1. { split; [by left; left|]. intros _. by apply marked_denies. }
  case_decide as H2. { split; [by left; right|]. intros _. by apply marked_denies. }
  destruct state_dir as [u|e]; [rewrite text_denies; tauto|]. destruct enabled; [|cbn; naive_solver].
  assert (Hsd : ∀ t d, state_dir_deny t payload (su_show s e) = Some d → starts_with DENY_MARK d = true).
  { intros t d. unfold state_dir_deny. cbv zeta. destruct (negb (tt_enforce_commit t) || _); [done|].
    destruct (Json.as_str (json_index "command" _)) as [command|]; [destruct (negb (runs_commit_or_pr command)); [done|]|];
      intros [= <-]; apply gate_deny_marked. }
  assert (Htask : is_Some (deny_tracker_unavailable payload e) ↔ is_Some (task_tool_name payload))
    by (unfold deny_tracker_unavailable; by rewrite fmap_is_Some).
  assert (Hfall : denies (reply_text (su_show s) (su_show_chain s) <$> deny_tracker_unavailable payload e) = true ↔ is_Some (task_tool_name payload)).
  { rewrite <- Htask. destruct (deny_tracker_unavailable payload e); cbn; [|by split; [|intros [? [=]]]].
    rewrite reply_marked. split; [eauto|done]. }
  destruct (tracker_of f) as [t|]; cbn [mbind option_bind].
  - destruct (state_dir_deny t payload (su_show s e)) as [d|] eqn:Ed; cbn [fst denies].
    + rewrite (Hsd t d) by done. split; [|done]. intros _. right. split; [done|]. left. exists t. by rewrite Ed.
    + rewrite Hfall. split; [tauto|]. intros [[?|?]|[_ [(t' & [= <-] & Hs)|?]]]; try done. rewrite Ed in Hs. by destruct Hs.
  - cbn [fst]. rewrite Hfall. split; [tauto|]. intros [[?|?]|[_ [(t' & [=] & _)|?]]]; done.
Qed.
End pre_tool.
