(* ===== verification/YamlMerge.v ===== *)
(** * Merging of opaque YAML fragments (crates/llmenv-util/src/lib.rs)

    The [native] fragments of an engine are values of serde_yaml that llmenv never interprets.
    [merge_yaml] lays one over another by shape, and [normalize_yaml] gives the form in which two
    of them are compared. The source says of [merge_yaml] and [merge_json] that the two must stay
    in sync; here they are compared. *)

From S2P Require Import Prelude RustStr Json JsonMerge.

(** What serde_yaml keeps of the leaves: its numbers, and the keys of a mapping, which are values
    of any shape up to their own equality. *)
Class YamlLeaves := {
  yaml_number : Type;
  yaml_number_eq_dec :: EqDecision yaml_number;
  yaml_key : Type;
  yaml_key_eq_dec :: EqDecision yaml_key;
  yaml_key_countable :: Countable yaml_key }.

(** [serde_yaml::Value]. Two mappings are equal when they hold the same entries, so a mapping is
    a map by key. *)
#[warnings="-register-all"]
Inductive yaml `{YamlLeaves} :=
| YNull
| YBool (b : bool)
| YNumber (n : yaml_number)
| YString (s : string)
| YSequence (l : list yaml)
| YMapping (m : gmap yaml_key yaml)
| YTagged (tag : string) (v : yaml).

Section merging.
Context `{YamlLeaves}.

#[global] Instance yaml_eq_dec : EqDecision yaml.
Proof.
  refine (fix go (x y : yaml) {struct x} : Decision (x = y) :=
    let _ : EqDecision yaml := go in
    match x, y with
    | YNull, YNull => left eq_refl
    | YBool a, YBool b => cast_if (decide (a = b))
    | YNumber a, YNumber b => cast_if (decide (a = b))
    | YString a, YString b => cast_if (decide (a = b))
    | YSequence a, YSequence b => cast_if (decide (a = b))
    | YMapping a, YMapping b => cast_if (decide (a = b))
    | YTagged t a, YTagged u b => cast_if_and (decide (t = u)) (decide (a = b))
    | _, _ => right _
    end); congruence.
Defined.

Definition is_null (v : yaml) : bool := match v with YNull => true | _ => false end.
(** [Mapping::retain] of the entries that are not null. *)
Definition retain_non_null (m : gmap yaml_key yaml) : gmap yaml_key yaml := filter (λ kv, is_null kv.2 = false) m.

(** The code drops the null entries and then normalizes the others; a value is null before
    exactly when it is null after. *)
Fixpoint normalize_yaml (value : yaml) : yaml :=
  match value with
  | YSequence items => YSequence (dedup (map normalize_yaml items))
  | YMapping m => YMapping (retain_non_null (normalize_yaml <$> m))
  | _ => value
  end.

Definition insert_fresh (v : yaml) : option yaml := if is_null v then None else Some v.
(** The loop over the entries of the source: each one changes the entry of its key alone. *)
Definition merge_entries (changes : gmap yaml_key (option yaml → option yaml)) (d : gmap yaml_key yaml)
  : gmap yaml_key yaml :=
  merge (λ old change, match change with Some f => f old | None => old end) d changes.

Fixpoint merge_yaml (dst src : yaml) {struct src} : yaml :=
  match src with
  | YMapping s =>
    match dst with
    | YMapping d => YMapping (merge_entries ((λ v old, match old with
        | Some existing => Some (merge_yaml existing v)
        | None => insert_fresh (normalize_yaml v)
        end) <$> s) d)
    | _ => normalize_yaml src
    end
  | YSequence s =>
    match dst with
    | YSequence d => YSequence (dedup (map normalize_yaml (d ++ s)))
    | _ => normalize_yaml src
    end
  | _ => normalize_yaml src
  end.

(** ** Induction over values *)

Fixpoint yaml_size (v : yaml) : nat :=
  match v with
  | YSequence l => S (foldr (λ w n, yaml_size w + n) 0 l)
  | YMapping m => S (map_fold (λ _ w n, yaml_size w + n) 0 m)
  | YTagged _ v => S (yaml_size v)
  | _ => 1
  end.
Lemma yaml_size_item l v : v ∈ l → yaml_size v < yaml_size (YSequence l).
Proof. cbn [yaml_size]. induction 1 as [x l|x y l _ IH]; cbn [foldr]; lia. Qed.
Lemma yaml_size_entry m k v : m !! k = Some v → yaml_size v < yaml_size (YMapping m).
Proof.
  intros Hk. cbn [yaml_size]. rewrite (map_fold_delete_L _ _ k v m); [lia| |done].
  intros. lia.
Qed.
Lemma yaml_nested_ind (P : yaml → Prop) :
  P YNull → (∀ b, P (YBool b)) → (∀ n, P (YNumber n)) → (∀ s, P (YString s)) →
  (∀ l, Forall P l → P (YSequence l)) → (∀ m, map_Forall (λ _, P) m → P (YMapping m)) →
  (∀ t v, P v → P (YTagged t v)) → ∀ v, P v.
Proof.
  intros Hnull Hbool Hnum Hstr Harr Hobj Htag v. remember (yaml_size v) as n eqn:En. revert v En.
  induction n as [n IH] using lt_wf_ind. intros [|b|x|s|l|m|t v] ->; auto.
  - apply Harr, Forall_forall. intros v Hv. eapply IH; [|done]. by apply yaml_size_item.
  - apply Hobj. intros k v Hk. eapply IH; [|done]. by eapply yaml_size_entry.
  - apply Htag. eapply IH; [|done]. cbn [yaml_size]. lia.
Qed.

(** ** Laws *)

Lemma yaml_null_spec v : is_null v = false ↔ v ≠ YNull.
Proof. by destruct v. Qed.
Lemma normalize_yaml_null v : is_null (normalize_yaml v) = is_null v.
Proof. by destruct v. Qed.
Lemma lookup_retain m k : retain_non_null m !! k = m !! k ≫= insert_fresh.
Proof.
  unfold retain_non_null. rewrite map_lookup_filter. destruct (m !! k) as [v|]; [|done]. cbn.
  unfold insert_fresh. by destruct (is_null v).
Qed.
Lemma lookup_normal_map m k :
  retain_non_null (normalize_yaml <$> m) !! k = m !! k ≫= λ v, insert_fresh (normalize_yaml v).
Proof. rewrite lookup_retain, lookup_fmap. by destruct (m !! k). Qed.
(** [retain] first, as the code does, gives the same mapping. *)
Lemma retain_commutes m : normalize_yaml <$> retain_non_null m = retain_non_null (normalize_yaml <$> m).
Proof.
  apply map_eq. intros k. rewrite lookup_normal_map, lookup_fmap, lookup_retain. destruct (m !! k) as [v|]; [|done].
  cbn. unfold insert_fresh. rewrite normalize_yaml_null. by destruct (is_null v).
Qed.
Lemma lookup_merge_entries (f : yaml → option yaml → option yaml) s d k :
  merge_entries (f <$> s) d !! k = match s !! k with Some v => f v (d !! k) | None => d !! k end.
Proof. unfold merge_entries. rewrite lookup_merge, lookup_fmap. by destruct (s !! k), (d !! k). Qed.

Lemma normalize_yaml_idem v : normalize_yaml (normalize_yaml v) = normalize_yaml v.
Proof.
  induction v as [| | | |l IH|m IH|] using yaml_nested_ind; cbn [normalize_yaml]; try done; f_equal.
  - rewrite (map_ext_in _ id), List.map_id; [by apply dedup_NoDup, NoDup_dedup|].
    intros v (w & -> & Hw)%list_elem_of_In%elem_of_dedup%list_elem_of_fmap. rewrite Forall_forall in IH. by apply IH.
  - apply map_eq. intros k. rewrite !lookup_normal_map. destruct (m !! k) as [v|] eqn:Hk; [|done].
    cbn. unfold insert_fresh. rewrite normalize_yaml_null. destruct (is_null v) eqn:En; [done|]. cbn.
    by rewrite (IH k v Hk), normalize_yaml_null, En.
Qed.

Lemma merge_yaml_map d s k : ∃ m, merge_yaml (YMapping d) (YMapping s) = YMapping m ∧
  m !! k = match s !! k, d !! k with
           | Some v, Some existing => Some (merge_yaml existing v)
           | Some v, None => insert_fresh (normalize_yaml v)
           | None, old => old
           end.
Proof. eexists. split; [done|]. rewrite lookup_merge_entries. by destruct (s !! k), (d !! k). Qed.
Lemma merge_yaml_map_eq d d' s :
  (∀ k, d' !! k = match s !! k, d !! k with
           | Some v, Some existing => Some (merge_yaml existing v)
           | Some v, None => insert_fresh (normalize_yaml v)
           | None, old => old
           end) → merge_yaml (YMapping d) (YMapping s) = YMapping d'.
Proof.
  intros Hd. cbn [merge_yaml]. f_equal. apply map_eq. intros k. rewrite lookup_merge_entries, Hd.
  by destruct (s !! k), (d !! k).
Qed.
(** The items of a sequence that is merged already are normal. *)
Lemma normal_items l : map normalize_yaml (dedup (map normalize_yaml l)) = dedup (map normalize_yaml l).
Proof.
  rewrite (map_ext_in _ id), List.map_id; [done|].
  intros v (w & -> & _)%list_elem_of_In%elem_of_dedup%list_elem_of_fmap. apply normalize_yaml_idem.
Qed.
Lemma merge_normal_yaml v : merge_yaml (normalize_yaml v) v = normalize_yaml v.
Proof.
  induction v as [| | | |l IH|m IH|] using yaml_nested_ind; try done; cbn [normalize_yaml].
  - cbn [merge_yaml]. f_equal. by rewrite map_app, normal_items, dedup_app_old.
  - apply merge_yaml_map_eq. intros k. rewrite lookup_normal_map. destruct (m !! k) as [v|] eqn:Hk; [|done].
    cbn. unfold insert_fresh. destruct (is_null (normalize_yaml v)) eqn:En; [done|]. f_equal. symmetry. by apply (IH k v).
Qed.

(** The merge of fragments is idempotent: laying a fragment over the result once more changes
    nothing, and neither does a second normalisation. *)
Theorem merge_yaml_idempotent (dst src : yaml) :
  merge_yaml (merge_yaml dst src) src = merge_yaml dst src ∧
  normalize_yaml (normalize_yaml src) = normalize_yaml src.
Proof.
  split; [|apply normalize_yaml_idem].
  revert dst. induction src as [| | | |s IH|s IH|] using yaml_nested_ind; intros dst; try done.
  - destruct dst as [| | | |d|d|]; try apply (merge_normal_yaml (YSequence s)). cbn [merge_yaml]. f_equal.
    rewrite (map_app _ (dedup _) s), normal_items. apply dedup_app_old.
    intros x. rewrite map_app, elem_of_app. by right.
  - destruct dst as [| | | |d|d|]; try apply (merge_normal_yaml (YMapping s)).
    destruct (merge_yaml (YMapping d) (YMapping s)) as [| | | |d'|d'|] eqn:E; try done.
    apply merge_yaml_map_eq. intros k. destruct (merge_yaml_map d s k) as (m & Em & Hm).
    rewrite E in Em. injection Em as <-. rewrite Hm. destruct (s !! k) as [v|] eqn:Hk; [|done].
    destruct (d !! k) as [e|]; [by rewrite (IH k v Hk)|].
    unfold insert_fresh. destruct (is_null (normalize_yaml v)); [done|]. by rewrite merge_normal_yaml.
Qed.

(** ** In step with the merge of JSON values *)

Section sync.
Context (num : number → yaml_number) (key : string → yaml_key) `{!Inj (=) (=) num, !Inj (=) (=) key}.

(** The YAML value that a JSON value is. *)
Fixpoint yaml_of_json (v : json) : yaml :=
  match v with
  | JNull => YNull
  | JBool b => YBool b
  | JNum n => YNumber (num n)
  | JStr s => YString s
  | JArr l => YSequence (map yaml_of_json l)
  | JObj m => YMapping (kmap key (yaml_of_json <$> m))
  end.

Lemma yaml_of_json_inj : Inj (=) (=) yaml_of_json.
Proof.
  intros v. induction v as [|b|n|s|l IH|m IH] using json_nested_ind; intros w; destruct w as [|b'|n'|s'|l'|m'];
    cbn [yaml_of_json]; try done; intros [= E].
  - by subst.
  - apply (inj num) in E. by subst.
  - by subst.
  - f_equal. revert l' E. induction IH as [|x l Hx _ IHl]; intros [|y l'] [=]; [done|]. f_equal; auto.
  - f_equal. apply (inj (kmap key)) in E. apply map_eq. intros k.
    pose proof (f_equal (lookup k) E) as Ek. rewrite !lookup_fmap in Ek.
    destruct (m !! k) as [x|] eqn:Hx, (m' !! k) as [y|]; cbn in Ek; [|done..]. injection Ek as Ek.
    f_equal. by apply (IH k x Hx).
Qed.
#[local] Existing Instance yaml_of_json_inj.

Lemma dedup_map l : dedup (map yaml_of_json l) = map yaml_of_json (dedup l).
Proof.
  unfold dedup. change (@nil yaml) with (map yaml_of_json []) at 1. generalize (@nil json) as kept.
  induction l as [|x l IH]; intros kept; cbn [dedup_scan map]; [done|].
  destruct (decide (x ∈ kept)) as [Hx|Hx].
  - rewrite decide_True by (by apply list_elem_of_fmap_2). apply IH.
  - rewrite decide_False by (by intros (y & ->%(inj yaml_of_json) & Hy)%list_elem_of_fmap).
    change [yaml_of_json x] with (map yaml_of_json [x]). rewrite <- map_app. apply IH.
Qed.
Lemma lookup_key (m : gmap string json) i : (kmap key (yaml_of_json <$> m) : gmap yaml_key yaml) !! key i = yaml_of_json <$> m !! i.
Proof. by rewrite lookup_kmap, lookup_fmap. Qed.
Lemma lookup_no_key (m : gmap string json) k : (∀ i, k ≠ key i) → (kmap key (yaml_of_json <$> m) : gmap yaml_key yaml) !! k = None.
Proof. intros Hk. apply lookup_kmap_None; [done|]. intros i ->. by destruct (Hk i). Qed.
(** A decidable claim about a key holds when it holds for the keys that JSON can hold and for all
    the others. *)
Lemma key_cases (k : yaml_key) (P : Prop) `{Decision P} : (∀ i, k = key i → P) → ((∀ i, k ≠ key i) → P) → P.
Proof. intros H1 H2. destruct (decide P) as [HP|HP]; [done|]. apply H2. intros i Hi. by apply HP, (H1 i). Qed.
Lemma is_null_of_json v : is_null (yaml_of_json v) = JsonMerge.is_null v.
Proof. by destruct v. Qed.
Lemma lookup_stripped (m : gmap string json) i :
  strip_nulls (normalize_json <$> m) !! i = m !! i ≫= λ v, insert_value (normalize_json v).
Proof.
  unfold strip_nulls. rewrite map_lookup_filter, lookup_fmap. destruct (m !! i) as [v|]; [|done]. cbn.
  unfold insert_value. by destruct (JsonMerge.is_null (normalize_json v)).
Qed.
Lemma normalize_of_json v : normalize_yaml (yaml_of_json v) = yaml_of_json (normalize_json v).
Proof.
  induction v as [| | | |l IH|m IH] using json_nested_ind; cbn [normalize_yaml normalize_json yaml_of_json]; try done; f_equal.
  - rewrite <- dedup_map. f_equal. rewrite !map_map. apply map_ext_in.
    intros v Hv%list_elem_of_In. rewrite Forall_forall in IH. by apply IH.
  - apply map_eq. intros k. rewrite lookup_normal_map. refine (key_cases k _ _ _); [intros i ->|intros Hk].
    + rewrite !lookup_key, lookup_stripped. destruct (m !! i) as [v|] eqn:Hv; [|done]. cbn.
      rewrite (IH i v Hv). unfold insert_fresh, insert_value. rewrite is_null_of_json. by destruct (JsonMerge.is_null _).
    + by rewrite !lookup_no_key.
Qed.

(** C37: the two merges and the two normal forms agree: on fragments that JSON can hold, the merge
    of the YAML values is the merge of the JSON values. *)
Theorem merges_in_sync (dst src : json) :
  merge_yaml (yaml_of_json dst) (yaml_of_json src) = yaml_of_json (merge_json dst src) ∧
  normalize_yaml (yaml_of_json src) = yaml_of_json (normalize_json src).
Proof.
  split; [|apply normalize_of_json].
  revert dst. induction src as [| | | |s IH|s IH] using json_nested_ind; intros dst; try done.
  - destruct dst as [| | | |d|d]; try apply (normalize_of_json (JArr s)).
    cbn [yaml_of_json merge_yaml merge_json]. f_equal. rewrite <- dedup_map, <- map_app. f_equal.
    rewrite !map_map. apply map_ext. apply normalize_of_json.
  - destruct dst as [| | | |d|d]; try apply (normalize_of_json (JObj s)).
    destruct (merge_json (JObj d) (JObj s)) as [| | | | |m] eqn:E; try done.
    cbn [yaml_of_json]. apply merge_yaml_map_eq. intros k. refine (key_cases k _ _ _); [intros i ->|intros Hk].
    + rewrite !lookup_key. destruct (merge_json_obj d s i) as (m' & Em & Hm).
      assert (m = m') as -> by congruence. rewrite Hm.
      destruct (s !! i) as [v|] eqn:Hv; [|by destruct (d !! i)]. destruct (d !! i) as [e|]; cbn.
      * by rewrite (IH i v Hv).
      * rewrite normalize_of_json. unfold insert_fresh, insert_value. rewrite is_null_of_json.
        by destruct (JsonMerge.is_null _).
    + by rewrite !lookup_no_key.
Qed.
End sync.
End merging.
