(* ===== verification/CapMerge.v ===== *)
(** * Merge of capabilities (src/merge/capabilities.rs, precedence.rs, capabilities/preset_rules.rs)

    The capabilities of the configuration and of every selected bundle become one, by the shape of
    each value: lists are joined without repeats, scalars and the entries of maps go to the
    contributor of the highest precedence, and a tie that no scope can break is refused. *)

From S2P Require Import Prelude RustStr JsonMerge YamlMerge Permissions Bundles ConfigSchema.
From S2P Require Import McpResolve.

(** ** Presets *)

Definition bash_rule (pattern : string) : PermissionRule := mkPermRule "Bash" (Some pattern) [].
Definition safe_readonly_allow_rules_for (preset : PermissionPreset) : list PermissionRule :=
  match preset with
  | SafeReadonly => map bash_rule
    ["rg *"; "ast-grep *"; "shellcheck *"; "shfmt *"; "git status"; "git status *"; "git diff"; "git diff *";
     "git log"; "git log *"; "git show"; "git show *"; "git blame"; "git blame *"; "ls"; "ls *"]
  end.
Definition safe_readonly_deny_rules_for (preset : PermissionPreset) : list PermissionRule :=
  match preset with
  | SafeReadonly => map bash_rule
    ["rg *--pre*"; "rg *--hostname-bin*"; "ast-grep *-U*"; "ast-grep *--update-all*"; "shfmt *-w*";
     "shfmt *--write*"; "git diff *--output*"; "git log *--output*"; "git show *--output*"]
  end.

(** ** Hooks that guard the same call (schema/hooks.rs) *)

Definition same_guard (a b : Hook) : bool :=
  bool_decide (ho_bundle_origin a = ho_bundle_origin b ∧ ho_event a = ho_event b ∧ ho_matcher a = ho_matcher b ∧
    hh_kind (ho_handler a) = hh_kind (ho_handler b) ∧ hh_command (ho_handler a) = hh_command (ho_handler b) ∧
    hh_tool (ho_handler a) = hh_tool (ho_handler b)).
Definition or_on_failure (k hook : Hook) : Hook :=
  let h := ho_handler k in
  mkHook (ho_event k) (ho_matcher k)
    (mkHandler (hh_kind h) (hh_command h) (hh_tool h)
      (match hh_on_failure h with Some f => Some f | None => hh_on_failure (ho_handler hook) end))
    (ho_bundle_origin k).
(** One turn of the loop: the first kept hook with the same guard takes the failure mode, or the
    hook is kept. *)
Fixpoint keep_hook (kept : list Hook) (hook : Hook) : list Hook :=
  match kept with
  | [] => [hook]
  | k :: kept => if same_guard k hook then or_on_failure k hook :: kept else k :: keep_hook kept hook
  end.
Definition dedup_hooks (hooks : list Hook) : list Hook := foldl keep_hook [] hooks.

(** ** The merge *)

(** [sort_by_key], which is stable: an element goes behind those with the same key. *)
Fixpoint insert_by {A} (key : A → N) (x : A) (l : list A) : list A :=
  match l with
  | [] => [x]
  | y :: l => if (key x <? key y)%N then x :: y :: l else y :: insert_by key x l
  end.
Definition sort_by_key {A} (key : A → N) (l : list A) : list A := foldl (λ acc x, insert_by key x acc) [] l.

(** A tie, with the names of the two contributors; and an index path that does not expand. *)
Inductive merge_error :=
| Tied (what first other : string)
| IndexPath (raw : string) (why : tilde_error).

Section merge.
Context `{YamlLeaves}.
#[export] Instance fragment_yaml : Yaml := yaml.
#[export] Instance fragment_yaml_eq_dec : EqDecision (@yaml_value fragment_yaml) := yaml_eq_dec.
#[export] Instance LspServer_eq_dec : EqDecision LspServer.
Proof. solve_decision. Defined.

Notation contributor := (CapabilityContributor Capabilities).
Implicit Types (contributors ordered : list contributor) (caps : Capabilities).

(** [merge_native_feature], over contributors in ascending precedence. *)
Definition add_fragment (merged : gmap string yaml) (engine : string) (fragment : yaml) : gmap string yaml :=
  <[engine := match merged !! engine with
              | Some existing => merge_yaml existing fragment
              | None => normalize_yaml fragment
              end]> merged.
Definition merge_native_feature contributors (select : Capabilities → gmap string yaml) : gmap string yaml :=
  foldl (λ merged c, foldl (λ merged kv, add_fragment merged kv.1 kv.2) merged (map_to_list (select (cc_capabilities c))))
    ∅ (sort_by_key cc_precedence contributors).

(** The lists of all contributors, one after the other. *)
Definition extend_all {A} ordered (select : Capabilities → list A) : list A :=
  ordered ≫= λ c, select (cc_capabilities c).
Definition extend_rules (slot rules : NativePermissionRules) : NativePermissionRules :=
  mkNative (n_allow slot ++ n_allow rules) (n_ask slot ++ n_ask rules) (n_deny slot ++ n_deny rules).
Definition extend_native_permissions ordered : gmap string NativePermissionRules :=
  foldl (λ slots c, union_with (λ slot rules, Some (extend_rules slot rules)) slots
                      (ca_native_permissions (cc_capabilities c))) ∅ ordered.
Definition dedup_rules (rules : NativePermissionRules) : NativePermissionRules :=
  mkNative (dedup (n_allow rules)) (dedup (n_ask rules)) (dedup (n_deny rules)).

Definition feature_list {A} (select : Features → list A) caps : list A :=
  match ca_features caps with Some f => select f | None => [] end.
Definition feature {A} (select : Features → option A) caps : option A := f ← ca_features caps; select f.

(** [expand_codebase_memory], with [home] as [expand_tilde] takes it. *)
Definition expand_codebase_memory (home : option string) (cm : CodebaseMemory) : result merge_error CodebaseMemory :=
  match cb_index_path cm with
  | None => Ok cm
  | Some raw =>
    expanded ← map_err (IndexPath raw) (expand_tilde home raw);
    Ok (mkCodebaseMemory (cb_when cm) (Some expanded) (cb_mcp_permissions cm) (cb_mem_budget_mb cm) (cb_allowed_roots cm))
  end.

Definition refuse_tie {T A} (r : result (tie T) A) : result merge_error A :=
  map_err (λ t, Tied (tie_what _ t) (tie_first _ t) (tie_other _ t)) r.
Definition scalar {T} `{EqDecision T} contributors (name : string) (pick : Capabilities → option T)
  : result merge_error (option T) := refuse_tie (highest_precedence contributors name pick).
Definition per_key {T} `{EqDecision T} contributors (label : string) (pick : Capabilities → gmap string T)
  : result merge_error (gmap string T) := refuse_tie (resolve_per_key contributors label pick).

(** The features of the merge, with the lists already joined. *)
Definition merge_features (home : option string) contributors : result merge_error (option Features) :=
  let ordered := sort_by_key cc_precedence contributors in
  codebase_memory ← mapM (expand_codebase_memory home) (extend_all ordered (feature_list fe_codebase_memory));
  slippage ← scalar contributors "slippage" (feature fe_slippage);
  context_mode ← scalar contributors "context_mode" (feature fe_context_mode);
  upgrade ← scalar contributors "upgrade" (feature fe_upgrade);
  read_once ← scalar contributors "read_once" (feature fe_read_once);
  task_tracker ← scalar contributors "task_tracker" (feature fe_task_tracker);
  repeat_detect ← scalar contributors "repeat_detect" (feature fe_repeat_detect);
  cd_guard ← scalar contributors "cd_guard" (feature fe_cd_guard);
  launch_proxy ← scalar contributors "launch_proxy" (feature fe_launch_proxy);
  sandbox ← scalar contributors "sandbox" (feature fe_sandbox);
  let features := mkFeatures (dedup (extend_all ordered (feature_list fe_memory)))
    (dedup (extend_all ordered (feature_list fe_throttle))) context_mode upgrade read_once repeat_detect slippage
    task_tracker (dedup codebase_memory) cd_guard launch_proxy sandbox in
  Ok (if features_is_empty features then None else Some features).

Definition merge_capabilities (home : option string) contributors : result merge_error Capabilities :=
  let ordered := sort_by_key cc_precedence contributors in
  preset ← scalar contributors "preset" (λ c, p_preset (ca_permissions c));
  let allow := extend_all ordered (λ c, p_allow (ca_permissions c)) ++
    match preset with Some p => safe_readonly_allow_rules_for p | None => [] end in
  let deny := extend_all ordered (λ c, p_deny (ca_permissions c)) ++
    match preset with Some p => safe_readonly_deny_rules_for p | None => [] end in
  env ← per_key contributors "env key" ca_env;
  default_models ← per_key contributors "default_models role" ca_default_models;
  model_effort ← per_key contributors "model_effort model" ca_model_effort;
  default_mode ← scalar contributors "default_mode" (λ c, p_default_mode (ca_permissions c));
  host ← per_key contributors "host entry" ca_host;
  auto_memory_enabled ← scalar contributors "auto_memory_enabled" ca_auto_memory_enabled;
  effort_level ← scalar contributors "effort_level" ca_effort_level;
  advisor_model ← scalar contributors "advisor_model" ca_advisor_model;
  features ← merge_features home contributors;
  Ok (mkCapabilities _
    (mkPermissions default_mode preset (dedup allow)
      (dedup (extend_all ordered (λ c, p_ask (ca_permissions c)))) (dedup deny))
    (dedup_hooks (extend_all ordered ca_hooks)) (dedup (extend_all ordered ca_plugins))
    (dedup (extend_all ordered ca_mcp)) (dedup (extend_all ordered ca_lsp)) (dedup (extend_all ordered ca_skills))
    (dedup (extend_all ordered ca_output_styles)) env auto_memory_enabled effort_level model_effort advisor_model
    None (dedup_rules <$> extend_native_permissions ordered)
    (merge_native_feature contributors ca_native_hooks) (merge_native_feature contributors ca_native_plugins)
    (merge_native_feature contributors ca_native_mcp) (merge_native_feature contributors ca_native_model_providers)
    (merge_native_feature contributors ca_native_default_models) (merge_native_feature contributors ca_native)
    features host (dedup (extend_all ordered ca_model_providers)) default_models).
End merge.

(** ** What the merge of capabilities promises (src/merge/capabilities.rs)

    The laws of [CapMerge]: which value each setting has after the merge, when the merge is
    refused, that the order of the contributors does not matter, and that a deny rule or a blocking
    hook of any contributor is never lost. *)

(** ** The stable sort *)

Section sort.
Context {A : Type} (key : A → N).
Lemma insert_by_permutation x l : insert_by key x l ≡ₚ x :: l.
Proof. induction l as [|y l IH]; cbn [insert_by]; [done|]. case_match; [done|]. rewrite IH. constructor. Qed.
Lemma sort_by_key_permutation l : sort_by_key key l ≡ₚ l.
Proof.
  unfold sort_by_key. change l with ([] ++ l) at 2. generalize (@nil A) as acc.
  induction l as [|x l IH]; intros acc; cbn [foldl]; [by rewrite app_nil_r|].
  rewrite IH, insert_by_permutation. apply Permutation_middle.
Qed.
Lemma elem_of_sort_by_key l x : x ∈ sort_by_key key l ↔ x ∈ l.
Proof. by rewrite sort_by_key_permutation. Qed.

Definition ascending (l : list A) : Prop := StronglySorted (λ x y, (key x ≤ key y)%N) l.
Lemma insert_by_ascending x l : ascending l → ascending (insert_by key x l).
Proof.
  unfold ascending. induction 1 as [|y l Hl IH Hy]; cbn [insert_by]; [by repeat constructor|].
  destruct (N.ltb_spec (key x) (key y)) as [Hlt|Hle].
  - constructor; [by constructor|]. constructor; [lia|]. eapply Forall_impl; [exact Hy|]. cbn. lia.
  - constructor; [done|]. rewrite Forall_forall. intros z. rewrite insert_by_permutation, elem_of_cons.
    intros [->|Hz]; [done|]. rewrite Forall_forall in Hy. by apply Hy.
Qed.
Lemma sort_by_key_ascending l : ascending (sort_by_key key l).
Proof.
  unfold sort_by_key. assert (Hacc : ascending []) by constructor. revert Hacc. generalize (@nil A) as acc.
  induction l as [|x l IH]; intros acc Hacc; cbn [foldl]; [done|]. by apply IH, insert_by_ascending.
Qed.
(** Elements of one key keep their order. *)
Lemma insert_by_filter k x l : ascending l →
  filter (λ y, key y = k) (insert_by key x l) = filter (λ y, key y = k) l ++ filter (λ y, key y = k) [x].
Proof.
  unfold ascending. induction 1 as [|y l Hl IH Hy]; cbn [insert_by]; [done|].
  destruct (N.ltb_spec (key x) (key y)) as [Hlt|Hle].
  - destruct (decide (key x = k)) as [<-|Hk].
    + assert (Hnone : filter (λ z, key z = key x) (y :: l) = []).
      { destruct (filter _ (y :: l)) as [|z zs] eqn:E; [done|]. exfalso.
        assert (Hz : z ∈ filter (λ z, key z = key x) (y :: l)) by (rewrite E; left).
        apply list_elem_of_filter in Hz as [Hk Hz]. rewrite Forall_forall in Hy.
        apply elem_of_cons in Hz as [->|Hz]; [lia|]. specialize (Hy z Hz). lia. }
      by rewrite (filter_cons_True _ x), Hnone, filter_cons_True.
    + rewrite !(filter_cons_False _ x) by done. by rewrite app_nil_r.
  - rewrite !(filter_cons _ y). case_decide; rewrite IH; done.
Qed.
Lemma sort_by_key_stable k l : filter (λ y, key y = k) (sort_by_key key l) = filter (λ y, key y = k) l.
Proof.
  unfold sort_by_key. assert (Hacc : ascending []) by constructor. revert Hacc.
  change (filter (λ y, key y = k) l) with (filter (λ y, key y = k) [] ++ filter (λ y, key y = k) l).
  generalize (@nil A) as acc. induction l as [|x l IH]; intros acc Hacc; cbn [foldl]; [by rewrite filter_nil, app_nil_r|].
  rewrite IH by (by apply insert_by_ascending). rewrite insert_by_filter, <- app_assoc by done.
  f_equal. by rewrite <- filter_app.
Qed.
End sort.

(** Elements of a list with distinct images are told apart by their images. *)
Lemma NoDup_image_inj {A B} (f : A → B) (l : list A) x y :
  NoDup (f <$> l) → x ∈ l → y ∈ l → f x = f y → x = y.
Proof.
  induction l as [|z l IH]; intros Hnd Hx Hy E; [by apply elem_of_nil in Hx|].
  rewrite fmap_cons in Hnd. apply NoDup_cons in Hnd as [Hz Hnd].
  apply elem_of_cons in Hx as [->|Hx]; apply elem_of_cons in Hy as [->|Hy]; [done| | |by apply IH]; exfalso; apply Hz.
  - rewrite E. by apply list_elem_of_fmap_2.
  - rewrite <- E. by apply list_elem_of_fmap_2.
Qed.

(** ** Hooks *)

(** What a hook runs and when, without what a failure of it means. *)
Definition guard (h : Hook) : Hook :=
  mkHook (ho_event h) (ho_matcher h)
    (mkHandler (hh_kind (ho_handler h)) (hh_command (ho_handler h)) (hh_tool (ho_handler h)) None) (ho_bundle_origin h).
Definition blocking (h : Hook) : Prop := hh_on_failure (ho_handler h) = Some Block.
Definition guarded (g : Hook) (hooks : list Hook) : Prop := ∃ h, h ∈ hooks ∧ guard h = g ∧ blocking h.

Lemma same_guard_spec a b : same_guard a b = true ↔ guard a = guard b.
Proof.
  unfold same_guard. rewrite bool_decide_eq_true. destruct a as [e m [k c t f] o], b as [e' m' [k' c' t' f'] o'].
  unfold guard. cbn. naive_solver.
Qed.
Lemma guard_or_on_failure k hook : guard (or_on_failure k hook) = guard k.
Proof. done. Qed.
Lemma blocking_or k hook : blocking (or_on_failure k hook) ↔ blocking k ∨ blocking hook.
Proof.
  unfold blocking, or_on_failure. cbn. destruct (hh_on_failure (ho_handler k)) as [[]|]; cbn; [tauto|]. naive_solver.
Qed.
Lemma keep_hook_guards kept hook :
  guard <$> keep_hook kept hook =
  if decide (guard hook ∈ guard <$> kept) then guard <$> kept else (guard <$> kept) ++ [guard hook].
Proof.
  induction kept as [|k kept IH]; [by rewrite decide_False by (rewrite elem_of_nil; tauto)|]. cbn [keep_hook].
  destruct (same_guard k hook) eqn:E.
  - apply same_guard_spec in E. rewrite decide_True; [done|]. cbn. rewrite E. left.
  - assert (Hne : guard hook ≠ guard k) by (intros Hg; rewrite (proj2 (same_guard_spec k hook)) in E; done).
    rewrite fmap_cons, IH. destruct (decide (guard hook ∈ guard <$> kept)) as [Hin|Hin].
    + rewrite decide_True; [done|]. rewrite fmap_cons. by right.
    + rewrite decide_False; [done|]. rewrite fmap_cons, elem_of_cons. tauto.
Qed.
Lemma guarded_nil g : ¬ guarded g [].
Proof. by intros (h & []%elem_of_nil & _). Qed.
Lemma guarded_cons g h l : guarded g (h :: l) ↔ (guard h = g ∧ blocking h) ∨ guarded g l.
Proof.
  unfold guarded. split.
  - intros (x & [->|Hx]%elem_of_cons & Hg & Hb); [by left|]. right. by exists x.
  - intros [[Hg Hb]|(x & Hx & Hg & Hb)]; [exists h|exists x]; (split_and!; [|done..]); [left|by right].
Qed.
Lemma keep_hook_guarded g kept hook :
  guarded g (keep_hook kept hook) ↔ guarded g kept ∨ guard hook = g ∧ blocking hook.
Proof.
  pose proof (guarded_nil g). induction kept as [|k kept IH]; cbn [keep_hook]; [rewrite guarded_cons; tauto|].
  destruct (same_guard k hook) eqn:E; rewrite !guarded_cons.
  - apply same_guard_spec in E. rewrite guard_or_on_failure, blocking_or, E. tauto.
  - tauto.
Qed.

(** The hooks after the merge run the same guards as before, each once and in the order of its
    first entry; and a guard blocks exactly when one of the hooks that were joined into it does. *)
Theorem dedup_hooks_correct (hooks : list Hook) :
  guard <$> dedup_hooks hooks = dedup (guard <$> hooks) ∧
  ∀ h, h ∈ dedup_hooks hooks → blocking h ↔ ∃ h', h' ∈ hooks ∧ guard h' = guard h ∧ blocking h'.
Proof.
  assert (Hg : ∀ kept, guard <$> foldl keep_hook kept hooks = dedup_scan (guard <$> kept) (guard <$> hooks)).
  { induction hooks as [|x hooks IH]; intros kept; [done|]. cbn [foldl]. rewrite IH, keep_hook_guards.
    rewrite fmap_cons. cbn [dedup_scan]. by case_decide. }
  assert (Hb : ∀ g kept, guarded g (foldl keep_hook kept hooks) ↔ guarded g kept ∨ guarded g hooks).
  { intros g. clear Hg. induction hooks as [|x hooks IH]; intros kept; cbn [foldl].
    - pose proof (guarded_nil g). tauto.
    - rewrite IH, keep_hook_guarded, guarded_cons. tauto. }
  split; [apply Hg|]. intros h Hh.
  assert (Hnd : NoDup (guard <$> dedup_hooks hooks)) by (unfold dedup_hooks; rewrite Hg; apply NoDup_dedup).
  assert (Hiff : blocking h ↔ guarded (guard h) (dedup_hooks hooks)).
  { split; [by exists h|]. intros (h' & Hh' & E & Hbl). enough (h' = h) as -> by done.
    by apply (NoDup_image_inj guard (dedup_hooks hooks)). }
  rewrite Hiff. unfold dedup_hooks. rewrite Hb. pose proof (guarded_nil (guard h)). unfold guarded at 2. tauto.
Qed.

Section laws.
Context `{YamlLeaves}.
Notation contributor := (CapabilityContributor Capabilities).
Implicit Types (contributors : list contributor) (caps : Capabilities).

(** ** Scalars and maps *)

(** [r] is the value of a setting that the contributors agree on: no two contributors of one
    precedence disagree, and the highest one that sets it decides. *)
Definition settled {T} contributors (pick : Capabilities → option T) (r : option T) : Prop :=
  ¬ conflict contributors pick ∧
  match r with
  | Some v => decides contributors pick v
  | None => ∀ c, c ∈ contributors → pick (cc_capabilities c) = None
  end.
Definition settled_keys {T} contributors (pick : Capabilities → gmap string T) (m : gmap string T) : Prop :=
  ∀ k, settled contributors (λ caps, pick caps !! k) (m !! k).

Lemma settled_spec {T} `{EqDecision T} contributors name (pick : Capabilities → option T) r :
  highest_precedence contributors name pick = Ok r ↔ settled contributors pick r.
Proof.
  pose proof (highest_precedence_spec contributors name pick) as Hs. unfold settled.
  destruct (highest_precedence contributors name pick) as [[v|]|e].
  - destruct Hs as [Hn Hd]. split.
    + intros [= <-]. split; [done|]. by apply Hd.
    + intros [_ Hr]. destruct r as [w|]; [by apply Hd in Hr as ->|].
      destruct (proj2 (Hd v) eq_refl) as (c & Hc & Hp & _). rewrite (Hr c Hc) in Hp. done.
  - split.
    + intros [= <-]. split; [|done]. intros (c & c' & v & v' & Hc & _ & _ & Hv & _). by rewrite (Hs c Hc) in Hv.
    + intros [_ Hr]. destruct r as [w|]; [|done]. destruct Hr as (c & Hc & Hp & _). by rewrite (Hs c Hc) in Hp.
  - split; [done|]. by intros [Hn _].
Qed.
Lemma scalar_ok {T} `{EqDecision T} contributors name (pick : Capabilities → option T) r :
  scalar contributors name pick = Ok r ↔ settled contributors pick r.
Proof.
  unfold scalar, refuse_tie. rewrite <- (settled_spec _ name). destruct (highest_precedence _ _ _); cbn; naive_solver.
Qed.
Lemma per_key_ok {T} `{EqDecision T} contributors label (pick : Capabilities → gmap string T) m :
  per_key contributors label pick = Ok m ↔ settled_keys contributors pick m.
Proof.
  unfold per_key, refuse_tie. pose proof (resolve_per_key_correct contributors label pick) as Hs. cbv zeta in Hs.
  destruct (resolve_per_key contributors label pick) as [m'|e]; cbn [map_err].
  - split.
    + intros [= <-] k. by eapply settled_spec.
    + intros Hm. f_equal. apply map_eq. intros k. specialize (Hs k). specialize (Hm k).
      eapply settled_spec in Hm. rewrite Hs in Hm. by injection Hm.
  - split; [done|]. intros Hm. destruct Hs as [k Hk]. specialize (Hm k). eapply settled_spec in Hm. by rewrite Hk in Hm.
Qed.
(** A setting that is not refused has a value. *)
Lemma settled_total {T} `{EqDecision T} contributors (pick : Capabilities → option T) :
  ¬ conflict contributors pick → ∃ r, settled contributors pick r.
Proof.
  intros Hn. pose proof (highest_precedence_spec contributors "" pick) as Hs.
  destruct (highest_precedence contributors "" pick) as [r|e] eqn:E; [|done]. exists r. by eapply settled_spec.
Qed.
Lemma settled_keys_total {T} `{EqDecision T} contributors (pick : Capabilities → gmap string T) :
  (∀ k, ¬ conflict contributors (λ caps, pick caps !! k)) → ∃ m, settled_keys contributors pick m.
Proof.
  intros Hn. pose proof (resolve_per_key_correct contributors "" pick) as Hs. cbv zeta in Hs.
  destruct (resolve_per_key contributors "" pick) as [m|e] eqn:E.
  - exists m. intros k. by eapply settled_spec.
  - destruct Hs as [k Hk]. exfalso. pose proof (highest_precedence_spec contributors ("" +:+ " '" +:+ k +:+ "'") (λ caps, pick caps !! k)) as Hc.
    rewrite Hk in Hc. by apply (Hn k).
Qed.
Lemma settled_unique {T} `{EqDecision T} contributors (pick : Capabilities → option T) r r' :
  settled contributors pick r → settled contributors pick r' → r = r'.
Proof. rewrite <- !(settled_spec _ ""). congruence. Qed.
Lemma settled_permutation {T} contributors contributors' (pick : Capabilities → option T) r :
  contributors ≡ₚ contributors' → settled contributors pick r → settled contributors' pick r.
Proof.
  intros Hp. unfold settled, conflict, decides. destruct r; by setoid_rewrite Hp.
Qed.

(** ** Lists *)

(** [l] holds what the contributors list, each element once. *)
Definition joined {A} contributors (pick : Capabilities → list A) (l : list A) : Prop :=
  NoDup l ∧ ∀ x, x ∈ l ↔ ∃ c, c ∈ contributors ∧ x ∈ pick (cc_capabilities c).
Lemma elem_of_extend_all {A} contributors (pick : Capabilities → list A) x :
  x ∈ extend_all (sort_by_key cc_precedence contributors) pick ↔ ∃ c, c ∈ contributors ∧ x ∈ pick (cc_capabilities c).
Proof. unfold extend_all. setoid_rewrite list_elem_of_bind. setoid_rewrite elem_of_sort_by_key. naive_solver. Qed.
Lemma joined_dedup {A} `{EqDecision A} contributors (pick : Capabilities → list A) :
  joined contributors pick (dedup (extend_all (sort_by_key cc_precedence contributors) pick)).
Proof. split; [apply NoDup_dedup|]. intros x. by rewrite elem_of_dedup, elem_of_extend_all. Qed.

(** ** Native fragments *)

(** The fragments of an engine in ascending precedence, and what they are together. *)
Definition fragments contributors (select : Capabilities → gmap string yaml) (engine : string) : list yaml :=
  omap (λ c, select (cc_capabilities c) !! engine) (sort_by_key cc_precedence contributors).
Definition layered (fragments : list yaml) : option yaml :=
  match fragments with
  | [] => None
  | lowest :: others => Some (foldl merge_yaml (normalize_yaml lowest) others)
  end.

Lemma add_fragments_lookup kvs merged engine : NoDup (kvs.*1) →
  foldl (λ merged kv, add_fragment merged kv.1 kv.2) merged kvs !! engine =
  match (list_to_map kvs : gmap string yaml) !! engine with
  | Some fragment => Some (match merged !! engine with
                           | Some existing => merge_yaml existing fragment
                           | None => normalize_yaml fragment end)
  | None => merged !! engine
  end.
Proof.
  revert merged. induction kvs as [|[e f] kvs IH]; intros merged Hnd; cbn [foldl list_to_map foldr fst snd]; [done|].
  rewrite fmap_cons in Hnd. apply NoDup_cons in Hnd as [He Hnd]. rewrite IH by done. cbn.
  destruct (decide (e = engine)) as [->|Hne].
  - rewrite (not_elem_of_list_to_map_1 _ _ He), lookup_insert_eq. unfold add_fragment. by rewrite lookup_insert_eq.
  - rewrite lookup_insert_ne by done. unfold add_fragment. by rewrite lookup_insert_ne by done.
Qed.
Lemma layer_snoc fragment fs old : layered fs = old →
  layered (fs ++ [fragment]) =
  Some (match old with Some existing => merge_yaml existing fragment | None => normalize_yaml fragment end).
Proof. intros <-. destruct fs as [|f fs]; [done|]. cbn. by rewrite foldl_app. Qed.
Lemma merge_native_feature_lookup contributors select engine :
  merge_native_feature contributors select !! engine = layered (fragments contributors select engine).
Proof.
  unfold merge_native_feature, fragments. induction (sort_by_key _ _) as [|c cs IH] using rev_ind; [done|].
  rewrite foldl_app, omap_app. cbn [foldl]. rewrite add_fragments_lookup by apply NoDup_fst_map_to_list.
  rewrite list_to_map_to_list. cbn [omap list_omap]. destruct (select (cc_capabilities c) !! engine) as [f|].
  - symmetry. by apply layer_snoc.
  - by rewrite app_nil_r.
Qed.

(** ** Index paths *)

Definition expands (home : option string) (cm : CodebaseMemory) : Prop := is_ok (expand_codebase_memory home cm) = true.
Lemma mapM_ok {A B E} (f : A → result E B) l l' : mapM f l = Ok l' ↔ Forall2 (λ x y, f x = Ok y) l l'.
Proof.
  revert l'. induction l as [|x l IH]; intros l'; cbn [mapM].
  - split; [by intros [= <-]; constructor|by inversion 1].
  - rewrite result_bind_ok. split.
    + intros (y & Hy & (ys & Hys & [= <-])%result_bind_ok). constructor; [done|by apply IH].
    + inversion_clear 1 as [|? y ? ys Hy Hys]. exists y. split; [done|]. apply result_bind_ok. exists ys.
      split; [by apply IH|done].
Qed.
Lemma mapM_err {A B E} (f : A → result E B) l :
  (∃ e, mapM f l = Err e) ↔ ∃ x, x ∈ l ∧ is_ok (f x) = false.
Proof.
  induction l as [|x l IH]; cbn [mapM].
  - split; [by intros [e [=]]|]. by intros (x & []%elem_of_nil & _).
  - setoid_rewrite elem_of_cons. destruct (f x) as [y|e] eqn:Ex; cbn.
    + assert (Hl : (∃ e, (l' ← mapM f l; Ok (y :: l')) = Err e) ↔ ∃ e, mapM f l = Err e).
      { destruct (mapM f l); cbn; naive_solver. }
      etrans; [exact Hl|]. rewrite IH. split; [naive_solver|]. intros (z & [->|Hz] & Ez); [by rewrite Ex in Ez|eauto].
    + split; [|by eauto]. intros _. exists x. rewrite Ex. auto.
Qed.

(** ** The specification *)

(** [l] holds what the contributors list and [extra], each element once. *)
Definition joined_with {A} contributors (pick : Capabilities → list A) (extra l : list A) : Prop :=
  NoDup l ∧ ∀ x, x ∈ l ↔ (∃ c, c ∈ contributors ∧ x ∈ pick (cc_capabilities c)) ∨ x ∈ extra.

Definition preset_of caps : option PermissionPreset := p_preset (ca_permissions caps).
Definition preset_rules (rules : PermissionPreset → list PermissionRule) caps : list PermissionRule :=
  match preset_of caps with Some p => rules p | None => [] end.

(** The settings of [r] are those that the contributors agree on. *)
Definition settings_merged contributors (r : Capabilities) : Prop :=
  settled contributors preset_of (preset_of r) ∧
  settled contributors (λ c, p_default_mode (ca_permissions c)) (p_default_mode (ca_permissions r)) ∧
  settled_keys contributors ca_env (ca_env r) ∧ settled_keys contributors ca_default_models (ca_default_models r) ∧
  settled_keys contributors ca_model_effort (ca_model_effort r) ∧ settled_keys contributors ca_host (ca_host r) ∧
  settled contributors ca_auto_memory_enabled (ca_auto_memory_enabled r) ∧
  settled contributors ca_effort_level (ca_effort_level r) ∧ settled contributors ca_advisor_model (ca_advisor_model r).
Definition features_merged contributors (r : Capabilities) : Prop :=
  settled contributors (feature fe_slippage) (feature fe_slippage r) ∧
  settled contributors (feature fe_context_mode) (feature fe_context_mode r) ∧
  settled contributors (feature fe_upgrade) (feature fe_upgrade r) ∧
  settled contributors (feature fe_read_once) (feature fe_read_once r) ∧
  settled contributors (feature fe_task_tracker) (feature fe_task_tracker r) ∧
  settled contributors (feature fe_repeat_detect) (feature fe_repeat_detect r) ∧
  settled contributors (feature fe_cd_guard) (feature fe_cd_guard r) ∧
  settled contributors (feature fe_launch_proxy) (feature fe_launch_proxy r) ∧
  settled contributors (feature fe_sandbox) (feature fe_sandbox r) ∧
  joined contributors (feature_list fe_memory) (feature_list fe_memory r) ∧
  joined contributors (feature_list fe_throttle) (feature_list fe_throttle r).
(** Every index path is expanded. *)
Definition roots_merged (home : option string) contributors (r : Capabilities) : Prop :=
  NoDup (feature_list fe_codebase_memory r) ∧
  ∀ cm, cm ∈ feature_list fe_codebase_memory r ↔
    ∃ c raw, c ∈ contributors ∧ raw ∈ feature_list fe_codebase_memory (cc_capabilities c) ∧
      expand_codebase_memory home raw = Ok cm.
Definition lists_merged contributors (r : Capabilities) : Prop :=
  joined_with contributors (λ c, p_allow (ca_permissions c)) (preset_rules safe_readonly_allow_rules_for r)
    (p_allow (ca_permissions r)) ∧
  joined contributors (λ c, p_ask (ca_permissions c)) (p_ask (ca_permissions r)) ∧
  joined_with contributors (λ c, p_deny (ca_permissions c)) (preset_rules safe_readonly_deny_rules_for r)
    (p_deny (ca_permissions r)) ∧
  joined contributors ca_plugins (ca_plugins r) ∧ joined contributors ca_mcp (ca_mcp r) ∧
  joined contributors ca_lsp (ca_lsp r) ∧ joined contributors ca_skills (ca_skills r) ∧
  joined contributors ca_output_styles (ca_output_styles r) ∧
  joined contributors ca_model_providers (ca_model_providers r).
Definition hooks_merged contributors (r : Capabilities) : Prop :=
  joined contributors (λ c, guard <$> ca_hooks c) (guard <$> ca_hooks r) ∧
  ∀ h, h ∈ ca_hooks r → blocking h ↔ ∃ c, c ∈ contributors ∧ guarded (guard h) (ca_hooks (cc_capabilities c)).
Definition natives_merged contributors (r : Capabilities) : Prop :=
  ∀ engine,
    ca_native_hooks r !! engine = layered (fragments contributors ca_native_hooks engine) ∧
    ca_native_plugins r !! engine = layered (fragments contributors ca_native_plugins engine) ∧
    ca_native_mcp r !! engine = layered (fragments contributors ca_native_mcp engine) ∧
    ca_native_model_providers r !! engine = layered (fragments contributors ca_native_model_providers engine) ∧
    ca_native_default_models r !! engine = layered (fragments contributors ca_native_default_models engine) ∧
    ca_native r !! engine = layered (fragments contributors ca_native engine).
(** The native rules of an engine in one of the three lists. *)
Definition native_rules (part : NativePermissionRules → list string) (engine : string) caps : list string :=
  match ca_native_permissions caps !! engine with Some rules => part rules | None => [] end.
Definition native_rules_merged contributors (r : Capabilities) : Prop :=
  ∀ engine, joined contributors (native_rules n_allow engine) (native_rules n_allow engine r) ∧
    joined contributors (native_rules n_ask engine) (native_rules n_ask engine r) ∧
    joined contributors (native_rules n_deny engine) (native_rules n_deny engine r).

(** Why a merge is refused. *)
Definition key_conflict {T} contributors (pick : Capabilities → gmap string T) : Prop :=
  ∃ k, conflict contributors (λ caps, pick caps !! k).
Definition features_refused (home : option string) contributors : Prop :=
  (∃ c raw, c ∈ contributors ∧ raw ∈ feature_list fe_codebase_memory (cc_capabilities c) ∧ ¬ expands home raw) ∨
  conflict contributors (feature fe_slippage) ∨ conflict contributors (feature fe_context_mode) ∨
  conflict contributors (feature fe_upgrade) ∨ conflict contributors (feature fe_read_once) ∨
  conflict contributors (feature fe_task_tracker) ∨ conflict contributors (feature fe_repeat_detect) ∨
  conflict contributors (feature fe_cd_guard) ∨ conflict contributors (feature fe_launch_proxy) ∨
  conflict contributors (feature fe_sandbox).
Definition refused (home : option string) contributors : Prop :=
  conflict contributors preset_of ∨ key_conflict contributors ca_env ∨ key_conflict contributors ca_default_models ∨
  key_conflict contributors ca_model_effort ∨ conflict contributors (λ c, p_default_mode (ca_permissions c)) ∨
  key_conflict contributors ca_host ∨ conflict contributors ca_auto_memory_enabled ∨
  conflict contributors ca_effort_level ∨ conflict contributors ca_advisor_model ∨ features_refused home contributors.

(** ** The merge meets it *)

Lemma bind_refused {A B} (m : result merge_error A) (k : A → result merge_error B) (P Q : Prop) :
  ((∃ e, m = Err e) ↔ P) → (∀ a, m = Ok a → (∃ e, k a = Err e) ↔ Q) → (∃ e, (m ≫= k) = Err e) ↔ P ∨ Q.
Proof.
  intros HP HQ. destruct m as [a|e]; cbn.
  - rewrite (HQ a eq_refl). split; [by right|]. intros [Hp|Hq]; [|done]. apply HP in Hp as [? [=]].
  - split; [|by eauto]. intros _. left. apply HP. eauto.
Qed.
Lemma scalar_refused {T} `{EqDecision T} contributors name (pick : Capabilities → option T) :
  (∃ e, scalar contributors name pick = Err e) ↔ conflict contributors pick.
Proof.
  unfold scalar, refuse_tie. pose proof (highest_precedence_spec contributors name pick) as Hs.
  destruct (highest_precedence contributors name pick) as [[v|]|e]; cbn.
  - split; [by intros [e [=]]|]. by intros Hc%Hs.
  - split; [by intros [e [=]]|]. intros (c & c' & v & v' & Hc & _ & _ & Hv & _). by rewrite (Hs c Hc) in Hv.
  - split; [done|]. eauto.
Qed.
Lemma per_key_refused {T} `{EqDecision T} contributors label (pick : Capabilities → gmap string T) :
  (∃ e, per_key contributors label pick = Err e) ↔ key_conflict contributors pick.
Proof.
  unfold per_key, refuse_tie, key_conflict. pose proof (resolve_per_key_correct contributors label pick) as Hs. cbv zeta in Hs.
  destruct (resolve_per_key contributors label pick) as [m|e]; cbn.
  - split; [by intros [e [=]]|]. intros [k Hk]. specialize (Hs k).
    by apply settled_spec in Hs as [Hn _].
  - split; [|by eauto]. intros _. destruct Hs as [k Hk]. exists k.
    pose proof (highest_precedence_spec contributors (label +:+ " '" +:+ k +:+ "'") (λ caps, pick caps !! k)) as Hc.
    by rewrite Hk in Hc.
Qed.

Lemma features_refused_spec home contributors :
  (∃ e, merge_features home contributors = Err e) ↔ features_refused home contributors.
Proof.
  unfold merge_features, features_refused. apply bind_refused.
  { rewrite mapM_err. setoid_rewrite elem_of_extend_all. unfold expands. setoid_rewrite not_true_iff_false. naive_solver. }
  intros roots _. do 8 (apply bind_refused; [apply scalar_refused|intros ? _]).
  assert (Hlast : ∀ A B (m : result merge_error A) (f : A → B), (∃ e, (m ≫= λ a, Ok (f a)) = Err e) ↔ ∃ e, m = Err e)
    by (intros A B [v|err] f; cbn; naive_solver).
  rewrite Hlast. apply scalar_refused.
Qed.
Lemma refused_spec home contributors :
  (∃ e, merge_capabilities home contributors = Err e) ↔ refused home contributors.
Proof.
  unfold merge_capabilities, refused.
  repeat (apply bind_refused; [first [apply scalar_refused | apply per_key_refused]|intros ? _]).
  rewrite <- features_refused_spec. destruct (merge_features home contributors); cbn; naive_solver.
Qed.

Definition packed (f : Features) : option Features := if features_is_empty f then None else Some f.
Lemma features_empty f : features_is_empty f = true → f = default_features.
Proof.
  destruct f. unfold features_is_empty. cbn. rewrite !andb_true_iff, !bool_decide_eq_true. intros. by destruct_and!; subst.
Qed.
Lemma feature_packed {A} (select : Features → option A) caps f :
  ca_features caps = packed f → select default_features = None → feature select caps = select f.
Proof.
  intros E Hd. unfold feature. rewrite E. unfold packed. destruct (features_is_empty f) eqn:Ef; [|done].
  by apply features_empty in Ef as ->.
Qed.
Lemma feature_list_packed {A} (select : Features → list A) caps f :
  ca_features caps = packed f → select default_features = [] → feature_list select caps = select f.
Proof.
  intros E Hd. unfold feature_list. rewrite E. unfold packed. destruct (features_is_empty f) eqn:Ef; [|done].
  by apply features_empty in Ef as ->.
Qed.

Lemma merge_features_ok home contributors r :
  merge_features home contributors = Ok (ca_features r) →
  features_merged contributors r ∧ roots_merged home contributors r.
Proof.
  unfold merge_features. intros H0. apply result_bind_ok in H0 as (roots & Hroots & H0).
  do 9 (apply result_bind_ok in H0 as (? & ?%scalar_ok & H0)). cbv zeta in H0.
  injection H0 as H0. symmetry in H0.
  match type of H0 with _ = (if features_is_empty ?f then _ else _) => change (ca_features r = packed f) in H0 end.
  unfold features_merged, roots_merged.
  rewrite !(feature_packed _ r _ H0) by done. rewrite !(feature_list_packed _ r _ H0) by done.
  cbn [fe_slippage fe_context_mode fe_upgrade fe_read_once fe_task_tracker fe_repeat_detect fe_cd_guard
    fe_launch_proxy fe_sandbox fe_memory fe_throttle fe_codebase_memory].
  split; [split_and!; [done..|apply joined_dedup|apply joined_dedup]|].
  split; [apply NoDup_dedup|]. intros cm. rewrite elem_of_dedup. apply mapM_ok in Hroots. split.
  - intros [i Hi]%list_elem_of_lookup. destruct (Forall2_lookup_r _ _ _ _ _ Hroots Hi) as (raw & Hr & Hx).
    apply list_elem_of_lookup_2, elem_of_extend_all in Hr as (c & Hc & Hr). eauto.
  - intros (c & raw & Hc & Hr & Hx).
    assert (Hin : raw ∈ extend_all (sort_by_key cc_precedence contributors) (feature_list fe_codebase_memory))
      by (apply elem_of_extend_all; eauto).
    apply list_elem_of_lookup in Hin as [i Hi]. destruct (Forall2_lookup_l _ _ _ _ _ Hroots Hi) as (cm' & Hc' & Hx').
    rewrite Hx in Hx'. injection Hx' as <-. by eapply list_elem_of_lookup_2.
Qed.

Lemma native_rules_joined (part : NativePermissionRules → list string) contributors engine :
  (∀ a b, part (extend_rules a b) = part a ++ part b) → (∀ a, part (dedup_rules a) = dedup (part a)) →
  joined contributors (native_rules part engine)
    match (dedup_rules <$> extend_native_permissions (sort_by_key cc_precedence contributors)) !! engine with
    | Some rules => part rules | None => [] end.
Proof.
  intros Hext Hded. rewrite lookup_fmap.
  assert (Hl : match extend_native_permissions (sort_by_key cc_precedence contributors) !! engine with
               | Some rules => part rules | None => [] end =
               extend_all (sort_by_key cc_precedence contributors) (native_rules part engine)).
  { unfold extend_all, extend_native_permissions. induction (sort_by_key _ _) as [|c cs IH] using rev_ind; [done|].
    rewrite foldl_app, bind_app, <- IH. cbn [foldl]. rewrite lookup_union_with. unfold native_rules at 1.
    cbn [mbind list_bind]. rewrite app_nil_r.
    destruct (foldl _ _ _ !! engine), (ca_native_permissions (cc_capabilities c) !! engine); cbn;
      rewrite ?Hext, ?app_nil_r; done. }
  pose proof (joined_dedup contributors (native_rules part engine)) as Hj. rewrite <- Hl in Hj.
  destruct (extend_native_permissions _ !! engine); cbn; [by rewrite Hded|done].
Qed.
Lemma joined_with_dedup {A} `{EqDecision A} contributors (pick : Capabilities → list A) extra :
  joined_with contributors pick extra (dedup (extend_all (sort_by_key cc_precedence contributors) pick ++ extra)).
Proof. split; [apply NoDup_dedup|]. intros x. by rewrite elem_of_dedup, elem_of_app, elem_of_extend_all. Qed.
Lemma hooks_joined contributors r :
  ca_hooks r = dedup_hooks (extend_all (sort_by_key cc_precedence contributors) ca_hooks) → hooks_merged contributors r.
Proof.
  intros E. unfold hooks_merged, joined. rewrite E. destruct (dedup_hooks_correct (extend_all (sort_by_key cc_precedence contributors) ca_hooks)) as [Hg Hb].
  rewrite Hg. split; [split; [apply NoDup_dedup|]|].
  - intros g. rewrite elem_of_dedup, list_elem_of_fmap. setoid_rewrite elem_of_extend_all. setoid_rewrite list_elem_of_fmap.
    naive_solver.
  - intros h Hh. rewrite (Hb h Hh). setoid_rewrite elem_of_extend_all. unfold guarded. split.
    + intros (h' & (c & Hc & Hh') & Hg' & Hbl). by exists c; split; [|exists h'].
    + intros (c & Hc & h' & Hh' & Hg' & Hbl). exists h'. by split; [exists c|].
Qed.

Lemma merge_ok home contributors r : merge_capabilities home contributors = Ok r →
  settings_merged contributors r ∧ features_merged contributors r ∧ roots_merged home contributors r ∧
  lists_merged contributors r ∧ hooks_merged contributors r ∧ natives_merged contributors r ∧
  native_rules_merged contributors r.
Proof.
  intros H0. unfold merge_capabilities in H0. cbv zeta in H0.
  repeat (let Hx := fresh "Hx" in apply result_bind_ok in H0 as (? & Hx & H0);
          first [apply scalar_ok in Hx | apply per_key_ok in Hx | rename Hx into Hf]).
  injection H0 as <-.
  match goal with |- context[settings_merged _ ?r] => set (out := r) end.
  change (merge_features home contributors = Ok (ca_features out)) in Hf. apply merge_features_ok in Hf as [Hf Hroots].
  split_and!; [|done|done| | | |].
  - unfold settings_merged. by split_and!.
  - unfold lists_merged. split_and!; first [apply joined_with_dedup | apply joined_dedup].
  - by apply hooks_joined.
  - intros engine. split_and!; apply merge_native_feature_lookup.
  - intros engine. split_and!; by apply native_rules_joined.
Qed.

(** C13: the merge of capabilities meets its specification. When it succeeds, each scalar and each
    entry of a map is what the contributors of the highest precedence say, each list holds what
    the contributors list once (with the rules of the preset, and with index paths expanded), a
    hook blocks exactly when some contributor makes it block, and the fragments of each engine are
    laid over one another in ascending precedence. It is refused exactly when two contributors of
    one precedence disagree, or when an index path cannot be expanded. *)
Theorem merge_capabilities_correct (home : option string) contributors :
  (∀ r, merge_capabilities home contributors = Ok r →
     settings_merged contributors r ∧ features_merged contributors r ∧ roots_merged home contributors r ∧
     lists_merged contributors r ∧ hooks_merged contributors r ∧ natives_merged contributors r ∧
     native_rules_merged contributors r) ∧
  ((∃ e, merge_capabilities home contributors = Err e) ↔ refused home contributors).
Proof. split; [apply merge_ok|apply refused_spec]. Qed.

(** ** The order of the contributors *)

(** The same settings, and the same elements in every list. *)
Definition same_settings (r r' : Capabilities) : Prop :=
  preset_of r = preset_of r' ∧ p_default_mode (ca_permissions r) = p_default_mode (ca_permissions r') ∧
  ca_env r = ca_env r' ∧ ca_default_models r = ca_default_models r' ∧ ca_model_effort r = ca_model_effort r' ∧
  ca_host r = ca_host r' ∧ ca_auto_memory_enabled r = ca_auto_memory_enabled r' ∧
  ca_effort_level r = ca_effort_level r' ∧ ca_advisor_model r = ca_advisor_model r'.
Definition same_features (r r' : Capabilities) : Prop :=
  feature fe_slippage r = feature fe_slippage r' ∧ feature fe_context_mode r = feature fe_context_mode r' ∧
  feature fe_upgrade r = feature fe_upgrade r' ∧ feature fe_read_once r = feature fe_read_once r' ∧
  feature fe_task_tracker r = feature fe_task_tracker r' ∧ feature fe_repeat_detect r = feature fe_repeat_detect r' ∧
  feature fe_cd_guard r = feature fe_cd_guard r' ∧ feature fe_launch_proxy r = feature fe_launch_proxy r' ∧
  feature fe_sandbox r = feature fe_sandbox r' ∧ feature_list fe_memory r ≡ₚ feature_list fe_memory r' ∧
  feature_list fe_throttle r ≡ₚ feature_list fe_throttle r' ∧
  feature_list fe_codebase_memory r ≡ₚ feature_list fe_codebase_memory r'.
Definition same_lists (r r' : Capabilities) : Prop :=
  p_allow (ca_permissions r) ≡ₚ p_allow (ca_permissions r') ∧ p_ask (ca_permissions r) ≡ₚ p_ask (ca_permissions r') ∧
  p_deny (ca_permissions r) ≡ₚ p_deny (ca_permissions r') ∧ ca_plugins r ≡ₚ ca_plugins r' ∧ ca_mcp r ≡ₚ ca_mcp r' ∧
  ca_lsp r ≡ₚ ca_lsp r' ∧ ca_skills r ≡ₚ ca_skills r' ∧ ca_output_styles r ≡ₚ ca_output_styles r' ∧
  ca_model_providers r ≡ₚ ca_model_providers r' ∧ (guard <$> ca_hooks r) ≡ₚ (guard <$> ca_hooks r').

Lemma joined_unique {A} contributors contributors' (pick : Capabilities → list A) l l' :
  contributors ≡ₚ contributors' → joined contributors pick l → joined contributors' pick l' → l ≡ₚ l'.
Proof.
  intros Hp [Hnd Hl] [Hnd' Hl']. apply NoDup_Permutation; [done..|]. intros x. rewrite Hl, Hl'. by setoid_rewrite Hp.
Qed.
Lemma joined_with_unique {A} contributors contributors' (pick : Capabilities → list A) extra l l' :
  contributors ≡ₚ contributors' → joined_with contributors pick extra l → joined_with contributors' pick extra l' → l ≡ₚ l'.
Proof.
  intros Hp [Hnd Hl] [Hnd' Hl']. apply NoDup_Permutation; [done..|]. intros x. rewrite Hl, Hl'. by setoid_rewrite Hp.
Qed.
Lemma settled_agree {T} `{EqDecision T} contributors contributors' (pick : Capabilities → option T) r r' :
  contributors ≡ₚ contributors' → settled contributors pick r → settled contributors' pick r' → r = r'.
Proof. intros Hp Hr Hr'. apply (settled_unique contributors' pick); [|done]. by eapply settled_permutation. Qed.
Lemma settled_keys_agree {T} `{EqDecision T} contributors contributors' (pick : Capabilities → gmap string T) m m' :
  contributors ≡ₚ contributors' → settled_keys contributors pick m → settled_keys contributors' pick m' → m = m'.
Proof. intros Hp Hm Hm'. apply map_eq. intros k. eapply settled_agree; [exact Hp|apply Hm|apply Hm']. Qed.
Lemma refused_permutation home contributors contributors' :
  contributors ≡ₚ contributors' → refused home contributors → refused home contributors'.
Proof.
  intros Hp. unfold refused, features_refused, key_conflict, conflict. by setoid_rewrite Hp.
Qed.

Ltac agree Hp := first
  [ eapply settled_agree; [exact Hp|done..] | eapply settled_keys_agree; [exact Hp|done..]
  | eapply joined_unique; [exact Hp|done..] | eapply joined_with_unique; [exact Hp|done..] ].

(** Merges of the same contributors, in any two orders and with any two home directories, agree. *)
Lemma merges_agree home home' contributors contributors' r r' :
  contributors ≡ₚ contributors' → merge_capabilities home contributors = Ok r → merge_capabilities home' contributors' = Ok r' →
  same_settings r r' ∧ feature_list fe_memory r ≡ₚ feature_list fe_memory r' ∧
  (home = home' → same_features r r') ∧ same_lists r r'.
Proof.
  intros Hp (S1 & F1 & R1 & L1 & G1 & _ & _)%merge_ok (S2 & F2 & R2 & L2 & G2 & _ & _)%merge_ok.
  split_and!.
  - unfold settings_merged, same_settings in *. destruct_and!. split_and!; agree Hp.
  - unfold features_merged in *. destruct_and!. agree Hp.
  - intros <-. unfold features_merged, same_features in *. destruct R1 as [Hr1 Hm1], R2 as [Hr2 Hm2]. destruct_and!.
    split_and!; [agree Hp..|]. apply NoDup_Permutation; [done..|]. intros x. rewrite Hm1, Hm2. by setoid_rewrite Hp.
  - destruct G1 as [G1 _], G2 as [G2 _].
    assert (preset_of r = preset_of r') as Ep.
    { unfold settings_merged in *. destruct_and!. agree Hp. }
    unfold lists_merged, same_lists, preset_rules in *. rewrite Ep in L1. destruct_and!. split_and!; agree Hp.
Qed.

(** The order in which the contributors come does not matter: when the merge of some order
    succeeds, so does the merge of every other order, with the same settings and the same
    elements in every list. *)
Theorem merge_order_irrelevant (home : option string) contributors contributors' r :
  contributors ≡ₚ contributors' → merge_capabilities home contributors = Ok r →
  ∃ r', merge_capabilities home contributors' = Ok r' ∧
    same_settings r r' ∧ same_features r r' ∧ same_lists r r'.
Proof.
  intros Hp H1. destruct (merge_capabilities home contributors') as [r'|e] eqn:H2.
  - exists r'. split; [done|]. destruct (merges_agree home home _ _ r r' Hp H1 H2) as (Hs & _ & Hf & Hl). auto.
  - exfalso. assert (Hr : refused home contributors').
    { apply refused_spec. eauto. }
    apply (refused_permutation home _ contributors) in Hr; [|done]. apply refused_spec in Hr as [? Hr]. congruence.
Qed.

(** ** A tie inside native fragments *)

(** A contributor that says one thing: a scalar for one engine. *)
Definition native_caps (engine value : string) : Capabilities :=
  let d := default_capabilities in
  mkCapabilities _ (ca_permissions d) [] [] [] [] [] [] ∅ None None ∅ None None ∅ ∅ ∅ ∅ ∅ ∅
    {[engine := YString value]} None ∅ [] ∅.

(** Two contributors of one precedence that set a scalar of a native fragment to different
    values are not refused: the one that comes last wins. *)
Theorem native_tie_not_refused (home : option string) (p : N) (first other engine value value' : string) :
  let a := mkContributor first p (native_caps engine value) in
  let b := mkContributor other p (native_caps engine value') in
  ∃ r, merge_capabilities home [a; b] = Ok r ∧ ca_native r !! engine = Some (YString value').
Proof.
  intros a b. destruct (merge_capabilities home [a; b]) as [r|e] eqn:E.
  - exists r. split; [done|]. apply merge_ok in E as (_ & _ & _ & _ & _ & Hn & _).
    destruct (Hn engine) as (_ & _ & _ & _ & _ & ->). unfold fragments, sort_by_key.
    cbn [foldl insert_by cc_precedence a b]. rewrite N.ltb_irrefl.
    cbn [omap list_omap cc_capabilities ca_native native_caps a b]. by rewrite !lookup_singleton_eq.
  - exfalso. assert (Hr : refused home [a; b]) by (apply refused_spec; eauto).
    assert (Hc : ∀ c, c ∈ [a; b] → ∃ v, cc_capabilities c = native_caps engine v).
    { intros c [->|[->|[]%elem_of_nil]%elem_of_cons]%elem_of_cons; by eexists. }
    unfold refused, features_refused, key_conflict, conflict in Hr.
    destruct_or?; repeat match goal with H : ∃ _, _ |- _ => destruct H as [? H] | H : _ ∧ _ |- _ => destruct H end;
      match goal with H : ?c ∈ [a; b] |- _ => destruct (Hc c H) as [? Ec]; rewrite Ec in * end; try done.
    all: by match goal with H : _ ∈ feature_list _ _ |- _ => apply elem_of_nil in H end.
Qed.
End laws.
