(* ===== verification/PluginResolve.v ===== *)
(** * Plugins of a host (src/plugins/resolve.rs)

    The plugin collections whose tags are active become one list of plugins without repeats, with
    the marketplaces that it refers to. *)

From S2P Require Import Prelude RustStr LaunchProxy ConfigSchema ConfigValidate ConfigLaws McpResolve.

Record ResolvedPlugin := mkPlugin {
  rp_marketplace : string; rp_plugin : string; rp_collection : string; rp_install_path : option string;
  rp_git_commit_sha : option string }.
Record ResolvedMarketplace := mkMarket {
  rk_name : string; rk_source : string; rk_install_location : option string; rk_head : option string }.
Record ResolvedPlugins := mkPlugins { ps_plugins : list ResolvedPlugin; ps_marketplaces : list ResolvedMarketplace }.
Inductive plugin_error :=
| BadPluginRef (collection plugin : string)
| UnknownMarketplace (collection plugin marketplace : string).

(** A marketplace before it is synced. *)
Definition market_of (m : Marketplace) : ResolvedMarketplace := mkMarket (mk_name m) (mk_source m) None None.

Definition CONTEXT_MODE_MARKETPLACE : string := "context-mode".
Definition CONTEXT_MODE_PLUGIN : string := "context-mode".
Definition CONTEXT_MODE_SOURCE : string := "https://github.com/mksglu/context-mode#v1.0.169".

(** The plugins so far, with the pairs and the marketplaces that were seen. *)
Record Found := mkFound {
  fd_plugins : list ResolvedPlugin; fd_seen : gset (string * string); fd_referenced : gset string }.
Definition add_plugin (marketplace name collection : string) (f : Found) : Found :=
  mkFound (fd_plugins f ++ [mkPlugin marketplace name collection None None])
    ({[(marketplace, name)]} ∪ fd_seen f) ({[marketplace]} ∪ fd_referenced f).

Section resolve.
Context `{Yaml}.
Implicit Types (config : Config).

(** The plugins of one selected collection. *)
Fixpoint collect_plugins (known : list string) (collection : string) (plugins : list string) (f : Found)
  : result plugin_error Found :=
  match plugins with
  | [] => Ok f
  | plugin :: plugins =>
    match split_plugin_ref plugin with
    | None => Err (BadPluginRef collection plugin)
    | Some (marketplace, name) =>
      if decide (marketplace ∈ known) then
        collect_plugins known collection plugins
          (if decide ((marketplace, name) ∈ fd_seen f) then f else add_plugin marketplace name collection f)
      else Err (UnknownMarketplace collection plugin marketplace)
    end
  end.
Fixpoint collect_collections (known : list string) (active_tags : gset string) (collections : list PluginCollection)
    (f : Found) : result plugin_error Found :=
  match collections with
  | [] => Ok f
  | c :: collections =>
    f' ← (if tag_active (pl_when c) active_tags then collect_plugins known (pl_name c) (pl_plugins c) f else Ok f);
    collect_collections known active_tags collections f'
  end.

(** [inject_context_mode], without its log line: the plugins, and whether the built-in
    marketplace is to be added. *)
Definition context_mode_enabled config : bool :=
  match f ← cf_features config; fe_context_mode f with Some c => cm_enabled c | None => false end.
Definition inject_context_mode config (f : Found) : Found * bool :=
  if context_mode_enabled config then
    (if decide ((CONTEXT_MODE_MARKETPLACE, CONTEXT_MODE_PLUGIN) ∈ fd_seen f) then f
     else add_plugin CONTEXT_MODE_MARKETPLACE CONTEXT_MODE_PLUGIN "context_mode (built-in)" f,
     negb (existsb (λ m, bool_decide (mk_name m = CONTEXT_MODE_MARKETPLACE)) (cf_marketplace config)))
  else (f, false).

Definition resolve_plugins config (active_tags : gset string) : result plugin_error ResolvedPlugins :=
  found ← collect_collections (map mk_name (cf_marketplace config)) active_tags (cf_plugin_collection config)
            (mkFound [] ∅ ∅);
  let '(f, builtin) := inject_context_mode config found in
  let declared := map market_of
                    (filter (λ m, mk_name m ∈ fd_referenced f) (cf_marketplace config)) in
  Ok (mkPlugins (fd_plugins f)
       (declared ++ if builtin : bool then [mkMarket CONTEXT_MODE_MARKETPLACE CONTEXT_MODE_SOURCE None None] else [])).
End resolve.

(** ** Laws *)

Definition plugin_ref (p : ResolvedPlugin) : string * string := (rp_marketplace p, rp_plugin p).

Section laws.
Context `{Yaml}.
Implicit Types (config : Config).

(** A pair that an active collection names. *)
Definition selected (collections : list PluginCollection) (active_tags : gset string) (r : string * string) : Prop :=
  ∃ c text, c ∈ collections ∧ tag_active (pl_when c) active_tags = true ∧ text ∈ pl_plugins c ∧ split_plugin_ref text = Some r.

(** What was found is consistent: each pair once, and the two sets say what is in the list. *)
Definition consistent (f : Found) : Prop :=
  NoDup (plugin_ref <$> fd_plugins f) ∧ (∀ r, r ∈ fd_seen f ↔ r ∈ plugin_ref <$> fd_plugins f) ∧
  (∀ m, m ∈ fd_referenced f ↔ m ∈ rp_marketplace <$> fd_plugins f).
Lemma add_consistent marketplace name collection f :
  consistent f → (marketplace, name) ∉ fd_seen f → consistent (add_plugin marketplace name collection f).
Proof.
  intros (H1 & H2 & H3) Hnew. unfold consistent, add_plugin. cbn [fd_plugins fd_seen fd_referenced].
  rewrite !fmap_app. cbn [fmap list_fmap plugin_ref rp_marketplace rp_plugin]. split_and!.
  - apply NoDup_app. split_and!; [done| |apply NoDup_singleton].
    intros r Hr ->%list_elem_of_singleton. by apply Hnew, H2.
  - intros r. rewrite elem_of_union, elem_of_singleton, elem_of_app, H2, list_elem_of_singleton. tauto.
  - intros m. rewrite elem_of_union, elem_of_singleton, elem_of_app, H3, list_elem_of_singleton. tauto.
Qed.

Lemma collect_plugins_spec known collection plugins f f' :
  consistent f → collect_plugins known collection plugins f = Ok f' →
  consistent f' ∧
  (∀ r, r ∈ fd_seen f' ↔ r ∈ fd_seen f ∨ ∃ text, text ∈ plugins ∧ split_plugin_ref text = Some r) ∧
  (Forall (λ m, m ∈ known) (rp_marketplace <$> fd_plugins f) → Forall (λ m, m ∈ known) (rp_marketplace <$> fd_plugins f')).
Proof.
  revert f. induction plugins as [|text plugins IH]; intros f Hf; cbn [collect_plugins].
  { intros [= <-]. split_and!; [done| |done]. setoid_rewrite elem_of_nil. naive_solver. }
  destruct (split_plugin_ref text) as [[m n]|] eqn:Et; [|done]. case_decide as Hk; [|done].
  set (f1 := if decide _ then _ else _). intros E.
  assert (consistent f1 ∧ (∀ r, r ∈ fd_seen f1 ↔ r ∈ fd_seen f ∨ r = (m, n)) ∧
    (Forall (λ m, m ∈ known) (rp_marketplace <$> fd_plugins f) → Forall (λ m, m ∈ known) (rp_marketplace <$> fd_plugins f1)))
    as (Hc & Hs & Hall).
  { subst f1. case_decide as Hin.
    - split_and!; [done|naive_solver|done].
    - split_and!; [by apply add_consistent| |].
      + intros r. cbn. rewrite elem_of_union, elem_of_singleton. tauto.
      + cbn. rewrite fmap_app, Forall_app. intros Ha. split; [done|by constructor]. }
  destruct (IH f1 Hc E) as (H1 & H2 & H3). split_and!; [done| |by auto].
  intros r. rewrite H2, Hs. setoid_rewrite elem_of_cons. naive_solver.
Qed.
Lemma selected_cons c collections tags r :
  selected (c :: collections) tags r ↔ selected [c] tags r ∨ selected collections tags r.
Proof.
  unfold selected. split.
  - intros (x & text & [->|Hx]%elem_of_cons & Hr); [left; exists c, text; split; [by left|done]|right; by exists x, text].
  - intros [(x & text & ->%list_elem_of_singleton & Hr)|(x & text & Hx & Hr)]; [exists c, text|exists x, text];
      (split; [|done]); [by left|by right].
Qed.
Lemma collect_collections_spec known tags collections f f' :
  consistent f → collect_collections known tags collections f = Ok f' →
  consistent f' ∧ (∀ r, r ∈ fd_seen f' ↔ r ∈ fd_seen f ∨ selected collections tags r) ∧
  (Forall (λ m, m ∈ known) (rp_marketplace <$> fd_plugins f) → Forall (λ m, m ∈ known) (rp_marketplace <$> fd_plugins f')).
Proof.
  revert f. induction collections as [|c collections IH]; intros f Hf; cbn [collect_collections].
  { intros [= <-]. split_and!; [done| |done]. unfold selected. setoid_rewrite elem_of_nil. naive_solver. }
  intros (f1 & E1 & E)%result_bind_ok.
  assert (consistent f1 ∧ (∀ r, r ∈ fd_seen f1 ↔ r ∈ fd_seen f ∨ selected [c] tags r) ∧
    (Forall (λ m, m ∈ known) (rp_marketplace <$> fd_plugins f) → Forall (λ m, m ∈ known) (rp_marketplace <$> fd_plugins f1)))
    as (Hc & Hs & Hall).
  { unfold selected. setoid_rewrite list_elem_of_singleton. destruct (tag_active (pl_when c) tags) eqn:Et.
    - destruct (collect_plugins_spec _ _ _ _ _ Hf E1) as (H1 & H2 & H3). split_and!; [done| |done].
      intros r. rewrite H2. naive_solver.
    - injection E1 as <-. split_and!; [done| |done]. intros r. split; [by left|]. intros [?|(? & ? & -> & ? & _)]; congruence. }
  destruct (IH f1 Hc E) as (H1 & H2 & H3). split_and!; [done| |by auto].
  intros r. rewrite H2, Hs, (selected_cons c collections). tauto.
Qed.

Definition context_mode : string * string := (CONTEXT_MODE_MARKETPLACE, CONTEXT_MODE_PLUGIN).
Lemma inject_spec config f : let f' := (inject_context_mode config f).1 in
  let builtin := (inject_context_mode config f).2 in
  consistent f →
  consistent f' ∧ (∀ r, r ∈ fd_seen f' ↔ r ∈ fd_seen f ∨ context_mode_enabled config = true ∧ r = context_mode) ∧
  (builtin = true ↔ context_mode_enabled config = true ∧ CONTEXT_MODE_MARKETPLACE ∉ map mk_name (cf_marketplace config)) ∧
  (∀ m, m ∈ fd_referenced f' → m ∈ fd_referenced f ∨ context_mode_enabled config = true ∧ m = CONTEXT_MODE_MARKETPLACE).
Proof.
  intros f' builtin Hc. subst f' builtin. unfold inject_context_mode. fold context_mode.
  destruct (context_mode_enabled config); cbn [fst snd]; [|split_and!; naive_solver].
  split_and!.
  - case_decide; [done|by apply add_consistent].
  - intros r. case_decide as Hin; [naive_solver|]. cbn [fd_seen add_plugin]. rewrite elem_of_union, elem_of_singleton. unfold context_mode. tauto.
  - rewrite negb_true_iff, <- not_true_iff_false, existsb_exists. setoid_rewrite bool_decide_eq_true.
    rewrite list_elem_of_fmap. setoid_rewrite <- list_elem_of_In. naive_solver.
  - intros m. case_decide; [by left|]. cbn [fd_referenced add_plugin]. rewrite elem_of_union, elem_of_singleton. naive_solver.
Qed.
Lemma marketplace_names (referenced : gset string) markets :
  rk_name <$> map market_of (filter (λ m, mk_name m ∈ referenced) markets) =
  filter (λ n, n ∈ referenced) (map mk_name markets).
Proof.
  induction markets as [|m ms IH]; [done|]. cbn [map]. rewrite !filter_cons.
  case_decide; cbn [map fmap list_fmap]; [by f_equal|done].
Qed.

(** The plugins of a host. Each pair of marketplace and plugin is there once, and the pairs are
    those that an active collection names, with the built-in one when the feature is on. The
    marketplaces are exactly those that the plugins refer to, each once when the configuration
    declares each once. *)
Theorem resolve_plugins_correct config (active_tags : gset string) p :
  resolve_plugins config active_tags = Ok p →
  NoDup (plugin_ref <$> ps_plugins p) ∧
  (∀ r, r ∈ plugin_ref <$> ps_plugins p ↔ selected (cf_plugin_collection config) active_tags r ∨
     context_mode_enabled config = true ∧ r = (CONTEXT_MODE_MARKETPLACE, CONTEXT_MODE_PLUGIN)) ∧
  (∀ m, m ∈ rk_name <$> ps_marketplaces p ↔ m ∈ rp_marketplace <$> ps_plugins p) ∧
  (NoDup (map mk_name (cf_marketplace config)) → NoDup (rk_name <$> ps_marketplaces p)).
Proof.
  unfold resolve_plugins. intros (f & Ef & E)%result_bind_ok.
  assert (Hempty : consistent (mkFound [] ∅ ∅)) by (split_and!; [constructor|..]; set_solver).
  apply collect_collections_spec in Ef as (Hc & Hs & Hk); [|done]. specialize (Hk (Forall_nil_2 _)).
  cbn [fd_seen] in Hs. destruct (inject_spec config f Hc) as (Hc' & H4 & Hb & Hknown).
  destruct (inject_context_mode config f) as [f' builtin]. cbn [fst snd] in *.
  injection E as <-. destruct Hc' as (H1 & H2 & H3). cbn [ps_plugins ps_marketplaces].
  rewrite fmap_app, marketplace_names. set (declared := map mk_name (cf_marketplace config)) in *.
  assert (Hbm : ∀ m, m ∈ rk_name <$> (if builtin then [mkMarket CONTEXT_MODE_MARKETPLACE CONTEXT_MODE_SOURCE None None] else [])
    ↔ builtin = true ∧ m = CONTEXT_MODE_MARKETPLACE).
  { intros m. destruct builtin; cbn [fmap list_fmap]; [rewrite list_elem_of_singleton|rewrite elem_of_nil]; naive_solver. }
  split_and!; [done| | |].
  - intros r. rewrite <- H2, H4, Hs, elem_of_empty. unfold context_mode. tauto.
  - intros m. rewrite elem_of_app, list_elem_of_filter, <- H3, Hbm, Hb. split.
    + intros [[Hm _]|[[Hen _] ->]]; [done|]. apply H3.
      assert (Hin : context_mode ∈ plugin_ref <$> fd_plugins f') by (apply H2, H4; by right).
      apply list_elem_of_fmap in Hin as (pl & Epl & Hpl).
      replace CONTEXT_MODE_MARKETPLACE with (rp_marketplace pl) by (unfold context_mode, plugin_ref in Epl; congruence).
      by apply list_elem_of_fmap_2.
    + intros Hm. destruct (Hknown m Hm) as [Hr|[Hen ->]].
      * left. split; [done|]. rewrite Forall_forall in Hk. apply Hk. destruct Hc as (_ & _ & Hc). by apply Hc.
      * destruct (decide (CONTEXT_MODE_MARKETPLACE ∈ declared)); [by left|by right].
  - intros Hnd. apply NoDup_app. split_and!; [by apply NoDup_filter| |destruct builtin; [apply NoDup_singleton|constructor]].
    intros n [_ Hn]%list_elem_of_filter [Hbt ->]%Hbm. by destruct (proj1 Hb Hbt).
Qed.
End laws.

Section validated.
Context {HY : Yaml} {HH : LaunchProxy.Http} (ipnet_ok : string → bool).

(** The plugin collections of a validated configuration always resolve. *)
Theorem validated_plugins_resolve (c : ConfigSchema.Config) (active_tags : gset string) :
  validate ipnet_ok c = Ok tt → ∃ p, resolve_plugins c active_tags = Ok p.
Proof.
  intros Hv%validate_iff. destruct (ok_plugins _ _ Hv) as (_ & _ & Hall & _). unfold resolve_plugins.
  set (known := map mk_name (cf_marketplace c)) in *. generalize (mkFound [] ∅ ∅) as f.
  induction Hall as [|col cols [_ Href] _ IH]; intros f; cbn [collect_collections].
  { cbn. destruct (inject_context_mode c f). eauto. }
  assert (∃ f', (if tag_active (pl_when col) active_tags then collect_plugins known (pl_name col) (pl_plugins col) f
                 else Ok f) = Ok f') as [f' ->]; [|apply IH].
  destruct (tag_active (pl_when col) active_tags); [|eauto]. revert f.
  induction Href as [|text texts (m & n & Et & Hm)%plugin_ref_iff _ IHt]; intros f; cbn [collect_plugins]; [eauto|].
  rewrite Et, decide_True by done. apply IHt.
Qed.
End validated.
