(* ===== verification/BundleMerge.v ===== *)
(** * Bundle files and their merge (src/merge/mod.rs, bundle_file.rs, rules.rs, agents_md.rs)

    A bundle is a folder with an [AGENTS.md], a [bundle.yaml], a folder of rules and three folders
    that are copied. [merge] reads every selected bundle and gives one manifest. What the folders
    hold is [BundleDisk]; how serde_yaml reads a text is [BundleYaml]. *)

From S2P Require Import Prelude RustStr Names NetAddr TaskStore Marker YamlMerge Permissions Bundles ConfigSchema.
From S2P Require Import ConfigValidate CapMerge McpResolve PluginResolve.
From S2P Require Import JsonMerge ConfigLaws.

(** ** Folders *)

(** What a walk of a folder meets, in the order of [read_dir]: files, folders, links, anything
    else, and an entry that cannot be read. *)
#[warnings="-register-all"]
Inductive folder :=
| NoFolder
| Unlisted (e : io_kind)
| Folder (entries : list (string * node))
with node := NFile | NFolder (f : folder) | NLink | NOther | NBroken (e : io_kind).
Class BundleDisk := bundle_folder : string → folder.

Inductive bundle_error :=
| BundleRead (bundle file : string) (e : io_kind)
| FolderRead (dir : string) (e : io_kind)
| RuleRead (path : string) (e : io_kind)
| BundleParse (bundle : string)
| BundleUnknownKey (bundle : string)
| BundleInvalid (context : string) (e : ValidateError)
| BundleMemoryNoTags (context host : string)
| BundleMemoryListenHost (context host listen : string)
| BundleMemoryTokens (context host : string) (n : N)
| BundleThrottleNoTags (context backend : string)
| BundleThrottleNoBackend (context : string)
| BundleCodebaseNoTags (context : string)
| MergeRefused (e : merge_error)
| MergeUnknownServerHost (host : string)
| MergedInvalid (e : ValidateError).

(** Both walks of the source: [visit] is what they do with a file. [rel] is the path from the
    root of the bundle, by its parts. *)
Section walk.
Context {A : Type} (visit : list string → string → A → result bundle_error A).
Fixpoint walk (rel : list string) (dir : string) (f : folder) (out : A) {struct f} : result bundle_error A :=
  match f with
  | NoFolder => Ok out
  | Unlisted e => Err (FolderRead dir e)
  | Folder entries =>
    (fix each entries out :=
      match entries with
      | [] => Ok out
      | (name, n) :: entries =>
        let rel := rel ++ [name] in
        let p := path_join dir name in
        out ← match n with
              | NFile => visit rel p out
              | NFolder f => walk rel p f out
              | NLink | NOther => Ok out
              | NBroken e => Err (FolderRead dir e)
              end;
        each entries out
      end) entries out
  end.
End walk.

Definition COPIED_SUBDIRS : list string := ["skills"; "plugins"; "hooks"].
Definition insert_file (rel : list string) (p : string) (out : gmap (list string) string)
  : result bundle_error (gmap (list string) string) := Ok (<[rel := p]> out).

(** ** Rules *)

Record RuleFile := mkRuleFile {
  ru_bundle : string; ru_rel : list string; ru_frontmatter : option string; ru_body : string; ru_raw : string }.
Inductive LoadMode := Always | PathFiltered | UnparsedFrontmatter.
Inductive PathsField := One (glob : string) | Many (globs : list string).
Definition paths_is_empty (p : PathsField) : bool :=
  match p with One glob => bool_decide (trim glob = "") | Many globs => bool_decide (globs = []) end.

Definition fence : string := "---" +:+ nl.
Definition split_frontmatter (raw : string) : option string * string :=
  match strip_prefix fence raw with
  | None => (None, raw)
  | Some rest =>
    match strip_prefix fence rest with
    | Some body => (Some "", body)
    | None =>
      if decide (rest = "---") then (Some "", "")
      else
        match find_sub (nl +:+ fence) rest with
        | Some (fm, body) => (Some fm, body)
        | None =>
          match strip_suffix (nl +:+ "---") rest with
          | Some fm => (Some fm, "")
          | None => (None, raw)
          end
        end
    end
  end.
(** [Path::extension]: a leading dot starts no extension. *)
Definition is_md (name : string) : bool := ends_with ".md" name && negb (bool_decide (name = ".md")).

(** The order of paths: part by part. *)
Fixpoint rel_le (a b : list string) : bool :=
  match a, b with
  | [], _ => true
  | _ :: _, [] => false
  | x :: a, y :: b => if decide (x = y) then rel_le a b else bool_decide (str_le x y)
  end.
Definition rule_le (a b : RuleFile) : Prop := rel_le (ru_rel a) (ru_rel b) = true.
#[export] Instance rule_le_dec : RelDecision rule_le.
Proof. unfold rule_le. intros ??. apply _. Defined.

(** ** The text of AGENTS.md *)

Definition end_line (body : string) : string := if ends_with nl body then body else body +:+ nl.
Definition agents_concat (parts : list (string * string)) : string :=
  join "" (map (λ '(name, body), nl +:+ "<!-- # from bundle: " +:+ name +:+ " -->" +:+ nl +:+ end_line body) parts).
Definition append_rules (base : string) (rules : list RuleFile) : string :=
  base +:+ join "" (map (λ r, nl +:+ "<!-- # from bundle: " +:+ ru_bundle r +:+ " " +:+ join "/" (ru_rel r) +:+ " -->" +:+ nl +:+
                           end_line (ru_body r)) rules).

(** ** bundle.yaml *)

(** serde_yaml: a text as a value, a key as a string, a value as the record; and the keys of the
    frontmatter of a rule. *)
Class BundleYaml `{YamlLeaves} := {
  yaml_from_str : string → option yaml;
  yaml_key_str : yaml_key → option string;
  capabilities_from_yaml : yaml → option Capabilities;
  rule_paths : string → option (option PathsField) }.

Definition load_mode `{BundleYaml} (r : RuleFile) : LoadMode :=
  match ru_frontmatter r with
  | Some fm =>
    if decide (trim fm = "") then Always
    else
      match rule_paths fm with
      | None => UnparsedFrontmatter
      | Some paths => if match paths with Some p => paths_is_empty p | None => true end then Always else PathFiltered
      end
  | None => Always
  end.

Definition MAX_BUNDLE_FILE_BYTES : N := 1048576.
Definition BUNDLE_YAML_KNOWN_KEYS : list string :=
  ["permissions"; "hooks"; "plugins"; "mcp"; "lsp"; "skills"; "output_styles"; "env"; "auto_memory_enabled";
   "effort_level"; "model_effort"; "advisor_model"; "advisor_size"; "native_permissions"; "native_hooks";
   "native_plugins"; "native_mcp"; "native_model_providers"; "native_default_models"; "native"; "features"; "host";
   "model_providers"; "default_models"].

Section bundle.
Context `{BundleYaml, FileSystem, BundleDisk}.

Definition read_bundle_text (p : string) : result io_kind (option string) :=
  read_text_bounded (components p) MAX_BUNDLE_FILE_BYTES.

(** A key that is not known; the message of the source names the first one in the file. *)
Definition has_unknown_key (v : yaml) : bool :=
  match v with
  | YMapping m => existsb (λ k, match yaml_key_str k with
      | Some s => negb (bool_decide (s ∈ BUNDLE_YAML_KNOWN_KEYS)) | None => false end) (map fst (map_to_list m))
  | _ => false
  end.
Definition set_origin (root : string) (h : Hook) : Hook := mkHook (ho_event h) (ho_matcher h) (ho_handler h) (Some root).
Definition with_hooks (caps : Capabilities) (hooks : list Hook) : Capabilities :=
  mkCapabilities _ (ca_permissions caps) hooks (ca_plugins caps) (ca_mcp caps) (ca_lsp caps) (ca_skills caps)
    (ca_output_styles caps) (ca_env caps) (ca_auto_memory_enabled caps) (ca_effort_level caps) (ca_model_effort caps)
    (ca_advisor_model caps) (ca_advisor_size caps) (ca_native_permissions caps) (ca_native_hooks caps)
    (ca_native_plugins caps) (ca_native_mcp caps) (ca_native_model_providers caps) (ca_native_default_models caps)
    (ca_native caps) (ca_features caps) (ca_host caps) (ca_model_providers caps) (ca_default_models caps).

Fixpoint all_checks {E} (checks : list (result E unit)) : result E unit :=
  match checks with [] => Ok tt | c :: checks => c ≫= λ _, all_checks checks end.
Definition guard_that (b : bool) (e : bundle_error) : result bundle_error unit := if b then Ok tt else Err e.
Definition check_bundle_memory (context : string) (m : Memory) : result bundle_error unit :=
  all_checks [
    guard_that (negb (bool_decide (me_when m = []))) (BundleMemoryNoTags context (me_server_host m));
    guard_that (negb (bool_decide (parse_ip (me_listen_host m) = None)))
      (BundleMemoryListenHost context (me_server_host m) (me_listen_host m));
    match me_wakeup_max_tokens m with
    | Some n => guard_that (bool_decide (WAKEUP_MAX_TOKENS_MIN ≤ n ∧ n ≤ WAKEUP_MAX_TOKENS_MAX)%N)
                  (BundleMemoryTokens context (me_server_host m) n)
    | None => Ok tt
    end].
Definition check_bundle_throttle (context : string) (th : Throttle) : result bundle_error unit :=
  all_checks [
    guard_that (negb (bool_decide (th_when th = []))) (BundleThrottleNoTags context (th_backend th));
    guard_that (negb (bool_decide (th_backend th = ""))) (BundleThrottleNoBackend context)].
Definition check_bundle_codebase (context : string) (cm : CodebaseMemory) : result bundle_error unit :=
  guard_that (negb (bool_decide (cb_when cm = []))) (BundleCodebaseNoTags context).
Definition check_bundle_features (context : string) (f : Features) : result bundle_error unit :=
  all_checks [
    all_checks (map (check_bundle_memory context) (fe_memory f));
    all_checks (map (check_bundle_throttle context) (fe_throttle f));
    all_checks (map (check_bundle_codebase context) (fe_codebase_memory f))].
(** The checks of a fragment, in their order. *)
Definition check_bundle (name : string) (caps : Capabilities) : result bundle_error unit :=
  let context := "bundle '" +:+ name +:+ "'" in
  let p := ca_permissions caps in
  all_checks [
    map_err (BundleInvalid context) (for_each (λ kv, validate_capabilities_env_key context kv.1) (btree_entries (ca_env caps)));
    map_err (BundleInvalid context) (validate_effort context caps);
    map_err (BundleInvalid context) (validate_hooks (ca_hooks caps));
    map_err (BundleInvalid context) (validate_advisor context caps);
    map_err (BundleInvalid context) (for_each (validate_permission_rule context) (p_allow p ++ p_ask p ++ p_deny p));
    map_err (BundleInvalid context)
      (for_each (λ en : string * NativePermissionRules,
          for_each (validate_permission_string (context +:+ ": native_permissions['" +:+ en.1 +:+ "']"))
            (n_allow en.2 ++ n_ask en.2 ++ n_deny en.2)) (btree_entries (ca_native_permissions caps)));
    match ca_features caps with Some f => check_bundle_features context f | None => Ok tt end].

Definition read_bundle_yaml (root name : string) : result bundle_error (option Capabilities) :=
  text ← map_err (BundleRead name "bundle.yaml") (read_bundle_text (path_join root "bundle.yaml"));
  match text with
  | None => Ok None
  | Some s =>
    raw ← ok_or (yaml_from_str s) (BundleParse name);
    if has_unknown_key raw then Err (BundleUnknownKey name)
    else
      parsed ← ok_or (capabilities_from_yaml raw) (BundleParse name);
      let caps := with_hooks parsed (map (set_origin root) (ca_hooks parsed)) in
      check_bundle name caps;;
      Ok (Some caps)
  end.

Definition visit_rule (bundle : string) (rel : list string) (p : string) (out : list RuleFile)
  : result bundle_error (list RuleFile) :=
  if is_md (default "" (last rel)) then
    raw ← map_err (RuleRead p) (read_bundle_text p);
    let raw := default "" raw in
    let '(frontmatter, body) := split_frontmatter raw in
    Ok (out ++ [mkRuleFile bundle rel frontmatter body raw])
  else Ok out.
Definition collect_from_bundle (root name : string) : result bundle_error (list RuleFile) :=
  let dir := path_join root "rules" in
  out ← walk (visit_rule name) ["rules"] dir (bundle_folder dir) [];
  Ok (merge_sort rule_le out).

(** ** The manifest *)

Record MergedManifest := mkManifest {
  mm_agents_md : string; mm_files : gmap (list string) string; mm_rules : list RuleFile; mm_mcps : list ResolvedMcp;
  mm_plugins : list ResolvedPlugin; mm_marketplaces : list ResolvedMarketplace; mm_capabilities : Capabilities;
  mm_native : gmap string yaml; mm_throttle : option Throttle; mm_session_log : SessionLog }.

(** [Permissions::is_empty] and [Capabilities::is_empty] (schema.rs). *)
Definition permissions_is_empty (p : Permissions) : bool :=
  bool_decide (p_default_mode p = None) && bool_decide (p_preset p = None) && bool_decide (p_allow p = []) &&
  bool_decide (p_ask p = []) && bool_decide (p_deny p = []).
Definition capabilities_is_empty (c : Capabilities) : bool :=
  permissions_is_empty (ca_permissions c) && bool_decide (ca_hooks c = []) && bool_decide (ca_plugins c = []) &&
  bool_decide (ca_mcp c = []) && bool_decide (ca_lsp c = []) && bool_decide (ca_skills c = []) &&
  bool_decide (ca_output_styles c = []) && bool_decide (ca_env c = ∅) && bool_decide (ca_auto_memory_enabled c = None) &&
  bool_decide (ca_effort_level c = None) && bool_decide (ca_model_effort c = ∅) && bool_decide (ca_advisor_model c = None) &&
  bool_decide (ca_native_permissions c = ∅) && bool_decide (ca_native_hooks c = ∅) && bool_decide (ca_native_plugins c = ∅) &&
  bool_decide (ca_native_mcp c = ∅) && bool_decide (ca_native_model_providers c = ∅) &&
  bool_decide (ca_native_default_models c = ∅) && bool_decide (ca_native c = ∅) &&
  match ca_features c with Some f => features_is_empty f | None => true end &&
  bool_decide (ca_host c = ∅) && bool_decide (ca_model_providers c = []) && bool_decide (ca_default_models c = ∅).

(** What the loop over the bundles collects. *)
Record Gathered := mkGathered {
  ga_agents : list (string * string); ga_files : gmap (list string) string; ga_rules : list RuleFile;
  ga_contributors : list (CapabilityContributor Capabilities) }.
Fixpoint copy_folders (root : string) (subs : list string) (files : gmap (list string) string)
  : result bundle_error (gmap (list string) string) :=
  match subs with
  | [] => Ok files
  | sub :: subs =>
    let dir := path_join root sub in
    files ← walk insert_file [sub] dir (bundle_folder dir) files;
    copy_folders root subs files
  end.
Definition gather_bundle (g : Gathered) (b : BundleRef) : result bundle_error Gathered :=
  content ← map_err (BundleRead (br_name b) "AGENTS.md") (read_bundle_text (path_join (br_path b) "AGENTS.md"));
  files ← copy_folders (br_path b) COPIED_SUBDIRS (ga_files g);
  rules ← collect_from_bundle (br_path b) (br_name b);
  caps ← read_bundle_yaml (br_path b) (br_name b);
  Ok (mkGathered
    (match content with Some c => ga_agents g ++ [(br_name b, c)] | None => ga_agents g end) files (ga_rules g ++ rules)
    (match caps with
     | Some caps => ga_contributors g ++ [mkContributor ("bundle '" +:+ br_name b +:+ "'") (br_precedence b) caps]
     | None => ga_contributors g end)).
Fixpoint gather (g : Gathered) (bundles : list BundleRef) : result bundle_error Gathered :=
  match bundles with [] => Ok g | b :: bundles => g ← gather_bundle g b; gather g bundles end.
Definition top_contributor (top_level : Capabilities) : list (CapabilityContributor Capabilities) :=
  if capabilities_is_empty top_level then [] else [mkContributor "config.yaml" TOP_LEVEL_PRECEDENCE top_level].

Definition with_effort_level (caps : Capabilities) (level : option string) : Capabilities :=
  mkCapabilities _ (ca_permissions caps) (ca_hooks caps) (ca_plugins caps) (ca_mcp caps) (ca_lsp caps) (ca_skills caps)
    (ca_output_styles caps) (ca_env caps) (ca_auto_memory_enabled caps) level (ca_model_effort caps)
    (ca_advisor_model caps) (ca_advisor_size caps) (ca_native_permissions caps) (ca_native_hooks caps)
    (ca_native_plugins caps) (ca_native_mcp caps) (ca_native_model_providers caps) (ca_native_default_models caps)
    (ca_native caps) (ca_features caps) (ca_host caps) (ca_model_providers caps) (ca_default_models caps).
(** The effort level of slippage control, when it is on and no other is set. *)
Definition propagate_effort (caps : Capabilities) : Capabilities :=
  match ca_effort_level caps, feature fe_slippage caps with
  | None, Some s => if sl_enabled s then with_effort_level caps (sl_effort_level s) else caps
  | _, _ => caps
  end.
Definition check_server_hosts (caps : Capabilities) : result bundle_error unit :=
  all_checks (map (λ m, guard_that (bool_decide (is_Some (ca_host caps !! me_server_host m)))
                          (MergeUnknownServerHost (me_server_host m))) (feature_list fe_memory caps)).
(** The [native] block of the configuration over the merged one. *)
Definition overlay_natives (merged native : gmap string yaml) : gmap string yaml :=
  foldl (λ merged kv, add_fragment merged kv.1 kv.2) merged (map_to_list native).

Definition merge_bundles (home : option string) (top_level : Capabilities) (native : gmap string yaml) (bundles : list BundleRef)
  : result bundle_error MergedManifest :=
  g ← gather (mkGathered [] ∅ [] (top_contributor top_level)) bundles;
  merged ← map_err MergeRefused (merge_capabilities home (ga_contributors g));
  check_server_hosts merged;;
  let caps := propagate_effort merged in
  map_err MergedInvalid (validate_effort "merged capabilities" caps);;
  map_err MergedInvalid (validate_advisor "merged capabilities" caps);;
  Ok (mkManifest (agents_concat (ga_agents g)) (ga_files g) (ga_rules g) [] [] [] caps
        (overlay_natives (ca_native caps) native) None default_session_log).
End bundle.

(** ** Laws of the merge of bundles (src/merge/mod.rs, bundle_file.rs, rules.rs)

    What a manifest holds once every bundle was read: the rules, hooks and hosts of all of them,
    the files of the three copied folders, and the rule files with their frontmatter apart. *)

(** ** Frontmatter *)

Lemma no_dash_head a t : str_contains_char "-" a = false → ∃ c s, a +:+ nl +:+ t = String c s ∧ c ≠ "-"%char.
Proof.
  destruct a as [|c a]; intros Ha.
  - exists "010"%char, t. by rewrite str_app_nil_l.
  - rewrite contains_char_cons in Ha. exists c, (a +:+ nl +:+ t). rewrite str_app_cons. split; [done|].
    intros ->. by rewrite Ascii.eqb_refl in Ha.
Qed.
Lemma fence_no_dash c s : c ≠ "-"%char → strip_prefix fence (String c s) = None.
Proof.
  intros Hc. change fence with (String "-" ("--" +:+ nl)). cbn [strip_prefix].
  destruct (Ascii.eqb_spec "-" c); [congruence|done].
Qed.
Lemma find_sub_here sub s b : strip_prefix sub s = Some b → find_sub sub s = Some ("", b).
Proof. intros E. destruct s; cbn [find_sub]; by rewrite E. Qed.
Lemma find_fence a b : str_contains_char "-" a = false → find_sub (nl +:+ fence) (a +:+ nl +:+ fence +:+ b) = Some (a, b).
Proof.
  induction a as [|c a IH]; intros Ha.
  - rewrite str_app_nil_l, <- str_app_assoc.
    apply find_sub_here, strip_prefix_app.
  - rewrite contains_char_cons in Ha. apply orb_false_iff in Ha as [Hc Ha].
    rewrite str_app_cons. cbn [find_sub]. rewrite IH by done.
    destruct (strip_prefix (nl +:+ fence) _) as [r|] eqn:E; [|done]. exfalso.
    apply strip_prefix_Some in E. change (nl +:+ fence) with (String "010" fence) in E.
    rewrite str_app_cons in E. injection E as -> E. destruct (no_dash_head a (fence +:+ b) Ha) as (c & s & Es & Hne).
    rewrite Es in E. unfold fence in E. rewrite str_app_assoc in E. change ("---" +:+ nl +:+ r) with (String "-" ("--" +:+ nl +:+ r)) in E.
    congruence.
Qed.

(** Nothing of a rule file is lost or moved: the parts that [split_frontmatter] gives make up the
    file again with its fences, and a block that is closed is found for every frontmatter without
    a dash. *)
Theorem split_frontmatter_correct (raw fm body : string) :
  match split_frontmatter raw with
  | (None, b) => b = raw
  | (Some f, b) =>
      raw = fence +:+ f +:+ nl +:+ fence +:+ b ∨ (raw = fence +:+ f +:+ nl +:+ "---" ∧ b = "") ∨
      (f = "" ∧ (raw = fence +:+ fence +:+ b ∨ (raw = fence +:+ "---" ∧ b = "")))
  end ∧
  (str_contains_char "-" fm = false → split_frontmatter (fence +:+ fm +:+ nl +:+ fence +:+ body) = (Some fm, body)).
Proof.
  split.
  - unfold split_frontmatter. destruct (strip_prefix fence raw) as [rest|] eqn:E1; [|done].
    apply strip_prefix_Some in E1 as ->. destruct (strip_prefix fence rest) as [b|] eqn:E2.
    { apply strip_prefix_Some in E2 as ->. auto. }
    case_decide as E3; [subst; auto 6|]. destruct (find_sub (nl +:+ fence) rest) as [[f b]|] eqn:E4.
    { apply find_sub_Some in E4 as ->. left. by rewrite str_app_assoc. }
    destruct (strip_suffix (nl +:+ "---") rest) as [f|] eqn:E5; [|done].
    apply strip_suffix_Some in E5 as ->. auto.
  - intros Hd. unfold split_frontmatter. rewrite strip_prefix_app, find_fence by done.
    destruct (no_dash_head fm (fence +:+ body) Hd) as (c & s & -> & Hc). rewrite fence_no_dash by done.
    rewrite decide_False; [done|]. by intros [= ->].
Qed.

(** ** Walks *)

Definition path_of (root : string) (rel : list string) : string := foldl path_join root rel.
Lemma path_of_snoc root rel name : path_of root (rel ++ [name]) = path_join (path_of root rel) name.
Proof. unfold path_of. by rewrite foldl_app. Qed.

(** What holds before a walk and is kept by every visit holds after it. *)
Lemma walk_inv {A} (visit : list string → string → A → result bundle_error A) (P : A → Prop) root base :
  (∀ rel out out', base `prefix_of` rel → P out → visit rel (path_of root rel) out = Ok out' → P out') →
  ∀ f rel out out', base `prefix_of` rel → P out → walk visit rel (path_of root rel) f out = Ok out' → P out'.
Proof.
  intros Hv. fix IH 1. intros [|e|entries] rel out out' Hb Hp; cbn [walk]; [by intros [= <-]|done|].
  revert out Hp. induction entries as [|[name n] entries IHe]; intros out Hp; [by intros [= <-]|].
  intros (out1 & E1 & E)%result_bind_ok. apply IHe in E; [done|].
  assert (Hb' : base `prefix_of` rel ++ [name]) by (by apply prefix_app_r). rewrite <- path_of_snoc in E1.
  destruct n as [|f| | |e]; [by eapply Hv|by eapply (IH f)|by injection E1 as <-..|done].
Qed.

Section bundle.
Context `{BundleYaml, FileSystem, BundleDisk}.

(** A file that is copied: it lies below one of the three folders of a bundle, at the path of its key. *)
Definition copied_from (bundles : list BundleRef) (rel : list string) (p : string) : Prop :=
  ∃ b sub, b ∈ bundles ∧ sub ∈ COPIED_SUBDIRS ∧ [sub] `prefix_of` rel ∧ p = path_of (br_path b) rel.
(** A rule of a bundle, with its text taken apart. *)
Definition rule_from (bundles : list BundleRef) (r : RuleFile) : Prop :=
  ∃ b, b ∈ bundles ∧ ru_bundle r = br_name b ∧ ["rules"] `prefix_of` ru_rel r ∧
    is_md (default "" (last (ru_rel r))) = true ∧ split_frontmatter (ru_raw r) = (ru_frontmatter r, ru_body r).
Definition fragment_of (b : BundleRef) : option (CapabilityContributor Capabilities) :=
  match read_bundle_yaml (br_path b) (br_name b) with
  | Ok (Some caps) => Some (mkContributor ("bundle '" +:+ br_name b +:+ "'") (br_precedence b) caps)
  | _ => None
  end.
Definition agents_of (b : BundleRef) : option (string * string) :=
  match read_bundle_text (path_join (br_path b) "AGENTS.md") with Ok (Some c) => Some (br_name b, c) | _ => None end.

Lemma copy_folders_spec b subs files files' :
  subs ⊆ COPIED_SUBDIRS → copy_folders (br_path b) subs files = Ok files' →
  ∀ rel p, files' !! rel = Some p → files !! rel = Some p ∨ copied_from [b] rel p.
Proof.
  revert files. induction subs as [|sub subs IH]; intros files Hsub; cbn [copy_folders].
  { intros [= <-]. by left. }
  intros (f1 & E1 & E)%result_bind_ok rel p Hp. apply (IH f1) with (rel := rel) (p := p) in E; [|set_solver|done].
  destruct E as [E|E]; [|by right]. clear Hp. revert rel p E.
  refine (walk_inv insert_file (λ f, ∀ rel p, f !! rel = Some p → files !! rel = Some p ∨ copied_from [b] rel p)
    (br_path b) [sub] _ _ [sub] files f1 _ _ E1); [|done|by left].
  intros rel out out' Hpre Hout [= <-] rel' p [[<- <-]|[_ Hp]]%lookup_insert_Some; [|by apply Hout].
  right. exists b, sub. split_and!; [by left|set_solver|done|done].
Qed.
Lemma collect_spec b rules : collect_from_bundle (br_path b) (br_name b) = Ok rules → Forall (rule_from [b]) rules.
Proof.
  unfold collect_from_bundle. intros (out & E & [= <-])%result_bind_ok.
  rewrite (merge_sort_Permutation rule_le). refine (walk_inv _ (Forall (rule_from [b])) (br_path b) ["rules"] _ _ _ _ _ _ _ E); [|done|constructor].
  intros rel o o' Hpre Ho. unfold visit_rule. destruct (is_md _) eqn:Em; [|by intros [= <-]].
  intros (raw & _ & E2)%result_bind_ok. destruct (split_frontmatter (default "" raw)) as [fm body] eqn:Es.
  injection E2 as <-. apply Forall_app. split; [done|]. constructor; [|done]. exists b.
  split_and!; [by left|done..].
Qed.

(** ** All the bundles *)

Lemma gather_bundle_spec g b g' : gather_bundle g b = Ok g' →
  ga_contributors g' = ga_contributors g ++ omap fragment_of [b] ∧ ga_agents g' = ga_agents g ++ omap agents_of [b] ∧
  is_ok (read_bundle_yaml (br_path b) (br_name b)) = true ∧
  (∀ rel p, ga_files g' !! rel = Some p → ga_files g !! rel = Some p ∨ copied_from [b] rel p) ∧
  ∃ rules, ga_rules g' = ga_rules g ++ rules ∧ Forall (rule_from [b]) rules.
Proof.
  unfold gather_bundle. intros (content & Ec & E)%result_bind_ok. apply result_bind_ok in E as (files & Ef & E).
  apply result_bind_ok in E as (rules & Er & E). apply result_bind_ok in E as (caps & Ey & E). injection E as <-.
  cbn [ga_contributors ga_agents ga_files ga_rules omap list_omap]. unfold fragment_of, agents_of. rewrite Ey.
  destruct (read_bundle_text _) as [c|] eqn:Et in *; [|done]. injection Ec as ->. split_and!.
  - destruct caps; [done|by rewrite app_nil_r].
  - destruct content; [done|by rewrite app_nil_r].
  - done.
  - by eapply copy_folders_spec.
  - exists rules. split; [done|]. by apply collect_spec.
Qed.
Lemma copied_from_mono bundles bundles' rel p : bundles ⊆ bundles' → copied_from bundles rel p → copied_from bundles' rel p.
Proof. intros Hs (b & sub & Hb & Hr). exists b, sub. by split; [apply Hs|]. Qed.
Lemma rule_from_mono bundles bundles' r : bundles ⊆ bundles' → rule_from bundles r → rule_from bundles' r.
Proof. intros Hs (b & Hb & Hr). exists b. by split; [apply Hs|]. Qed.
Lemma sub_left {A} (l k : list A) : l ⊆ l ++ k.
Proof. intros x Hx. apply elem_of_app. by left. Qed.
Lemma sub_right {A} (l k : list A) : k ⊆ l ++ k.
Proof. intros x Hx. apply elem_of_app. by right. Qed.
Lemma gather_spec g bundles g' : gather g bundles = Ok g' →
  ga_contributors g' = ga_contributors g ++ omap fragment_of bundles ∧
  ga_agents g' = ga_agents g ++ omap agents_of bundles ∧
  Forall (λ b, is_ok (read_bundle_yaml (br_path b) (br_name b)) = true) bundles ∧
  (∀ rel p, ga_files g' !! rel = Some p → ga_files g !! rel = Some p ∨ copied_from bundles rel p) ∧
  ∃ rules, ga_rules g' = ga_rules g ++ rules ∧ Forall (rule_from bundles) rules.
Proof.
  revert g. induction bundles as [|b bundles IH]; intros g; cbn [gather].
  { intros [= <-]. rewrite !app_nil_r. split_and!; [done..|by left|]. exists []. by rewrite app_nil_r. }
  intros (g1 & E1%gather_bundle_spec & E)%result_bind_ok. destruct E1 as (C1 & A1 & O1 & F1 & rules1 & R1 & R1').
  destruct (IH g1 E) as (C2 & A2 & O2 & F2 & rules2 & R2 & R2'). change (b :: bundles) with ([b] ++ bundles).
  rewrite !omap_app. split_and!.
  - by rewrite C2, C1, <- app_assoc.
  - by rewrite A2, A1, <- app_assoc.
  - by constructor.
  - intros rel p Hp. destruct (F2 rel p Hp) as [Hp'|Hp']; [|right; by eapply copied_from_mono; [apply sub_right|]].
    destruct (F1 rel p Hp'); [by left|]. right. by eapply copied_from_mono; [apply sub_left|].
  - exists (rules1 ++ rules2). rewrite R2, R1, <- app_assoc. split; [done|]. apply Forall_app. split.
    + eapply Forall_impl; [exact R1'|]. intros r. apply rule_from_mono, sub_left.
    + eapply Forall_impl; [exact R2'|]. intros r. apply rule_from_mono, sub_right.
Qed.

Lemma all_checks_ok {E} (checks : list (result E unit)) : all_checks checks = Ok tt ↔ Forall (λ c, c = Ok tt) checks.
Proof.
  induction checks as [|c checks IH]; cbn [all_checks]; [by split|]. rewrite result_bind_ok, Forall_cons. split.
  - intros ([] & -> & Hc). by rewrite IH in Hc.
  - intros [-> Hc]. exists tt. by rewrite IH.
Qed.
Lemma guard_that_ok b e : guard_that b e = Ok tt ↔ b = true.
Proof. by destruct b. Qed.
Lemma map_err_ok {E F A} (f : E → F) (r : result E A) a : map_err f r = Ok a ↔ r = Ok a.
Proof. destruct r; cbn; naive_solver. Qed.
Lemma server_hosts_ok caps : check_server_hosts caps = Ok tt ↔
  Forall (λ m, is_Some (ca_host caps !! me_server_host m)) (feature_list fe_memory caps).
Proof.
  unfold check_server_hosts. rewrite all_checks_ok, Forall_map. apply Forall_iff. intros m.
  by rewrite guard_that_ok, bool_decide_eq_true.
Qed.

(** What the merge of the bundles is a merge of. *)
Definition contributors_of (top_level : Capabilities) (bundles : list BundleRef) : list (CapabilityContributor Capabilities) :=
  top_contributor top_level ++ omap fragment_of bundles.
Lemma merge_bundles_ok home top_level native bundles m : merge_bundles home top_level native bundles = Ok m →
  ∃ caps, merge_capabilities home (contributors_of top_level bundles) = Ok caps ∧
    mm_capabilities m = propagate_effort caps ∧ mm_native m = overlay_natives (ca_native (propagate_effort caps)) native ∧
    Forall (λ mem, is_Some (ca_host caps !! me_server_host mem)) (feature_list fe_memory caps) ∧
    mm_agents_md m = agents_concat (omap agents_of bundles) ∧
    (∀ rel p, mm_files m !! rel = Some p → copied_from bundles rel p) ∧ Forall (rule_from bundles) (mm_rules m) ∧
    validate_effort "merged capabilities" (mm_capabilities m) = Ok tt ∧
    validate_advisor "merged capabilities" (mm_capabilities m) = Ok tt ∧
    Forall (λ b, is_ok (read_bundle_yaml (br_path b) (br_name b)) = true) bundles.
Proof.
  unfold merge_bundles. intros (g & Eg%gather_spec & E)%result_bind_ok.
  destruct Eg as (Hc & Ha & Hy & Hf & rules & Hr & Hrules). cbn [ga_contributors ga_agents ga_files ga_rules] in *.
  apply result_bind_ok in E as (caps & Ec%map_err_ok & E). apply result_bind_ok in E as ([] & Eh%server_hosts_ok & E).
  apply result_bind_ok in E as ([] & Ev%map_err_ok & E). apply result_bind_ok in E as ([] & Eadv%map_err_ok & E).
  injection E as <-. cbn [mm_capabilities mm_native mm_agents_md mm_files mm_rules].
  exists caps. unfold contributors_of. rewrite <- Hc. split_and!; try done.
  - by rewrite Ha.
  - intros rel p Hp. destruct (Hf rel p Hp) as [Hp'|]; [|done]. by rewrite lookup_empty in Hp'.
  - by rewrite Hr.
Qed.

(** The settings that [propagate_effort] does not touch. *)
Lemma propagate_effort_keeps {A} (f : Capabilities → A) caps :
  (∀ level, f (with_effort_level caps level) = f caps) → f (propagate_effort caps) = f caps.
Proof. intros Hf. unfold propagate_effort. repeat case_match; auto. Qed.

(** A manifest holds what the bundles hold. Each copied file is below one of the three folders of
    a bundle that was merged, at the same path; each rule is one of a bundle with its text taken
    apart; AGENTS.md is the texts of the bundles in their order; every memory server points at a
    host of the merged table; the levels of effort are ones that the engines take; and the native
    fragments of the configuration lie over those of the bundles. *)
Theorem merge_manifest_correct (home : option string) (top_level : Capabilities) (native : gmap string yaml)
    (bundles : list BundleRef) (m : MergedManifest) :
  merge_bundles home top_level native bundles = Ok m →
  (∀ rel p, mm_files m !! rel = Some p → copied_from bundles rel p) ∧ Forall (rule_from bundles) (mm_rules m) ∧
  mm_agents_md m = agents_concat (omap agents_of bundles) ∧
  Forall (λ mem, is_Some (ca_host (mm_capabilities m) !! me_server_host mem)) (feature_list fe_memory (mm_capabilities m)) ∧
  (∀ level, ca_effort_level (mm_capabilities m) = Some level → level ∈ EFFORT_LEVELS) ∧
  (∀ engine, mm_native m !! engine = match native !! engine with
     | Some fragment => Some (match ca_native (mm_capabilities m) !! engine with
                              | Some existing => merge_yaml existing fragment
                              | None => normalize_yaml fragment end)
     | None => ca_native (mm_capabilities m) !! engine
     end).
Proof.
  intros (caps & Ec & Hm & Hn & Hh & Ha & Hf & Hr & Ev & _ & _)%merge_bundles_ok.
  split_and!; [done..| | |].
  - rewrite Hm. rewrite (propagate_effort_keeps (feature_list fe_memory)) by done.
    by rewrite (propagate_effort_keeps ca_host) by done.
  - intros level El. unfold validate_effort in Ev. cbn [all_of] in Ev. rewrite El in Ev. cbn [on_some] in Ev.
    unfold check_level, refuse_if in Ev. destruct (bool_decide (level ∈ EFFORT_LEVELS)) eqn:Eb; [|done].
    by apply bool_decide_eq_true in Eb.
  - intros engine. rewrite Hn, Hm. unfold overlay_natives. rewrite add_fragments_lookup by apply NoDup_fst_map_to_list.
    by rewrite list_to_map_to_list.
Qed.

(** ** Rules *)

Definition rules_of (caps : Capabilities) : list PermissionRule :=
  let p := ca_permissions caps in p_allow p ++ p_ask p ++ p_deny p.
Definition native_texts (caps : Capabilities) (engine : string) : list string :=
  native_rules n_allow engine caps ++ native_rules n_ask engine caps ++ native_rules n_deny engine caps.
Definition texts_ok (caps : Capabilities) : Prop :=
  Forall rule_text_ok (rules_of caps) ∧ ∀ engine, Forall Balanced (native_texts caps engine).

Lemma native_texts_ok caps :
  map_Forall (λ _ n, Forall Balanced (n_allow n ++ n_ask n ++ n_deny n)) (ca_native_permissions caps) →
  ∀ engine, Forall Balanced (native_texts caps engine).
Proof.
  intros Hall engine. unfold native_texts, native_rules. destruct (ca_native_permissions caps !! engine) as [n|] eqn:En; [|constructor].
  by apply (Hall engine n).
Qed.
Lemma check_bundle_texts name caps : check_bundle name caps = Ok tt → texts_ok caps.
Proof.
  unfold check_bundle. rewrite all_checks_ok, !Forall_cons. intros (_ & _ & _ & _ & Hr & Hn & _ & _).
  apply map_err_ok, for_each_ok in Hr. apply map_err_ok, for_each_ok in Hn. split.
  - unfold rules_of. eapply Forall_impl; [exact Hr|]. intros r. apply rule_accepted.
  - apply native_texts_ok. intros engine n En. rewrite Forall_forall in Hn.
    specialize (Hn (engine, n) (proj2 (elem_of_btree _ _ _) En)). apply for_each_ok in Hn. cbn [snd] in Hn.
    eapply Forall_impl; [exact Hn|]. intros s. apply unbalanced_refused.
Qed.
Lemma fragment_texts b c : fragment_of b = Some c → texts_ok (cc_capabilities c).
Proof.
  unfold fragment_of. destruct (read_bundle_yaml _ _) as [[caps|]|] eqn:E; [|done..]. intros [= <-]. cbn [cc_capabilities].
  unfold read_bundle_yaml in E. apply result_bind_ok in E as ([s|] & _ & E); [|done].
  apply result_bind_ok in E as (raw & _ & E). destruct (has_unknown_key raw); [done|].
  apply result_bind_ok in E as (parsed & _ & E). apply result_bind_ok in E as ([] & Ec & E). injection E as <-.
  by apply check_bundle_texts in Ec.
Qed.
Lemma preset_texts caps : Forall rule_text_ok (preset_rules safe_readonly_allow_rules_for caps) ∧
  Forall rule_text_ok (preset_rules safe_readonly_deny_rules_for caps).
Proof.
  assert (Hrule : ∀ p : string, has_balanced_parens p = true → rule_text_ok (bash_rule p)).
  { intros p Hp. apply (rule_accepted ""). unfold validate_permission_rule, refuse_if. cbn. by rewrite Hp. }
  unfold preset_rules. destruct (preset_of caps) as [[]|]; [|done].
  split; unfold safe_readonly_allow_rules_for, safe_readonly_deny_rules_for; apply Forall_map;
    repeat constructor; apply Hrule; reflexivity.
Qed.

Lemma elem_of_contributors top_level bundles c : c ∈ contributors_of top_level bundles ↔
  (capabilities_is_empty top_level = false ∧ c = mkContributor "config.yaml" TOP_LEVEL_PRECEDENCE top_level) ∨
  ∃ b, b ∈ bundles ∧ fragment_of b = Some c.
Proof.
  unfold contributors_of, top_contributor. rewrite elem_of_app, list_elem_of_omap.
  destruct (capabilities_is_empty top_level); [rewrite elem_of_nil|rewrite list_elem_of_singleton]; naive_solver.
Qed.
(** The lists of an empty configuration are empty, so leaving it out loses nothing. *)
Lemma empty_capabilities caps : capabilities_is_empty caps = true →
  rules_of caps = [] ∧ ca_hooks caps = [] ∧ ca_native_permissions caps = ∅.
Proof.
  unfold capabilities_is_empty, permissions_is_empty, rules_of. rewrite !andb_true_iff, !bool_decide_eq_true.
  intros. destruct_and!. split_and!; [|done..]. by repeat match goal with H : _ = [] |- _ => rewrite H end.
Qed.
Definition contributes (top_level : Capabilities) (bundles : list BundleRef) (caps : Capabilities) : Prop :=
  caps = top_level ∨ ∃ b, b ∈ bundles ∧ read_bundle_yaml (br_path b) (br_name b) = Ok (Some caps).
Lemma contributor_found top_level bundles caps : contributes top_level bundles caps →
  capabilities_is_empty caps = false ∨ (∃ b, b ∈ bundles ∧ read_bundle_yaml (br_path b) (br_name b) = Ok (Some caps)) →
  ∃ c, c ∈ contributors_of top_level bundles ∧ cc_capabilities c = caps.
Proof.
  intros Hc Hne. setoid_rewrite elem_of_contributors.
  assert (Hb : (∃ b, b ∈ bundles ∧ read_bundle_yaml (br_path b) (br_name b) = Ok (Some caps)) →
    ∃ c, (∃ b, b ∈ bundles ∧ fragment_of b = Some c) ∧ cc_capabilities c = caps).
  { intros (b & Hin & E). unfold fragment_of. eexists (mkContributor _ (br_precedence b) caps).
    split; [|done]. exists b. split; [done|]. by rewrite E. }
  destruct Hne as [Hne|Hx]; [|destruct (Hb Hx) as (c & ? & ?); eauto].
  destruct Hc as [->|Hx]; [|destruct (Hb Hx) as (c & ? & ?); eauto].
  eexists. split; [by left|done].
Qed.
Lemma contributes_list {A} (pick : Capabilities → list A) top_level bundles caps x :
  (capabilities_is_empty caps = true → pick caps = []) → contributes top_level bundles caps → x ∈ pick caps →
  ∃ c, c ∈ contributors_of top_level bundles ∧ x ∈ pick (cc_capabilities c).
Proof.
  intros Hp Hc Hx. destruct (contributor_found top_level bundles caps Hc) as (c & Hin & <-); [|eauto].
  destruct (capabilities_is_empty caps) eqn:E; [|by left]. rewrite Hp in Hx by done. by apply elem_of_nil in Hx.
Qed.

(** C14: a refusal is never lost on the way to the engines: every deny rule and every native deny
    rule of the configuration and of every bundle is in the manifest, every hook that blocks still
    blocks under its guard, and with the preset of read-only commands come the refusals that
    close its gaps. *)
Theorem refusals_kept (home : option string) (top_level : Capabilities) (native : gmap string yaml)
    (bundles : list BundleRef) (m : MergedManifest) :
  merge_bundles home top_level native bundles = Ok m →
  (∀ caps, contributes top_level bundles caps →
    (∀ r, r ∈ p_deny (ca_permissions caps) → r ∈ p_deny (ca_permissions (mm_capabilities m))) ∧
    (∀ engine s, s ∈ native_rules n_deny engine caps → s ∈ native_rules n_deny engine (mm_capabilities m)) ∧
    (∀ h, h ∈ ca_hooks caps → blocking h → guarded (guard h) (ca_hooks (mm_capabilities m)))) ∧
  (∀ r, r ∈ preset_rules safe_readonly_deny_rules_for (mm_capabilities m) → r ∈ p_deny (ca_permissions (mm_capabilities m))).
Proof.
  intros (merged & Em & -> & _)%merge_bundles_ok.
  apply merge_ok in Em as (_ & _ & _ & Hl & Hh & _ & Hn). destruct Hl as (_ & _ & [_ Hdeny] & _).
  rewrite (propagate_effort_keeps ca_permissions), (propagate_effort_keeps ca_hooks) by done.
  rewrite (propagate_effort_keeps (preset_rules safe_readonly_deny_rules_for)) by done.
  split; [|intros r Hr; apply Hdeny; by right]. intros caps Hc. split_and!.
  - intros r Hr. apply Hdeny. left. apply (contributes_list (λ c, p_deny (ca_permissions c)) _ _ caps); [|done..].
    intros He. destruct (empty_capabilities caps He) as (E & _ & _). unfold rules_of in E.
    by apply app_eq_nil in E as [_ [_ ?]%app_eq_nil].
  - intros engine s Hs. rewrite (propagate_effort_keeps (native_rules n_deny engine)) by done.
    destruct (Hn engine) as (_ & _ & [_ Hd]). apply Hd. apply (contributes_list _ _ _ caps); [|done..].
    intros He. destruct (empty_capabilities caps He) as (_ & _ & E). unfold native_rules. by rewrite E, lookup_empty.
  - intros h Hin Hb. destruct Hh as [[_ Hg] Hblock].
    destruct (contributes_list ca_hooks top_level bundles caps h) as (c & Hcin & Hhc); [by intros (_ & E & _)%empty_capabilities|done..|].
    assert (Hgin : guard h ∈ guard <$> ca_hooks merged).
    { apply Hg. exists c. split; [done|]. by apply list_elem_of_fmap_2. }
    apply list_elem_of_fmap in Hgin as (h' & E & Hh'). exists h'. split_and!; [done..|]. apply (Hblock h' Hh').
    exists c. split; [done|]. exists h. by rewrite <- E.
Qed.

(** The merge adds no rule that was not checked: when the rules of the configuration are
    balanced, so are all the rules of the manifest, neutral and native, whichever bundle they
    come from. *)
Theorem merged_rules_checked (home : option string) (top_level : Capabilities) (native : gmap string yaml)
    (bundles : list BundleRef) (m : MergedManifest) :
  texts_ok top_level → merge_bundles home top_level native bundles = Ok m → texts_ok (mm_capabilities m).
Proof.
  intros Htop (merged & Em & -> & _)%merge_bundles_ok.
  assert (Hall : ∀ c, c ∈ contributors_of top_level bundles → texts_ok (cc_capabilities c)).
  { intros c [[_ ->]|(b & _ & Hb)]%elem_of_contributors; [done|by eapply fragment_texts]. }
  apply merge_ok in Em as (_ & _ & _ & Hl & _ & _ & Hn).
  destruct Hl as ([_ Ha] & [_ Hk] & [_ Hd] & _). unfold texts_ok, rules_of, native_texts.
  rewrite (propagate_effort_keeps ca_permissions) by done. destruct (preset_texts merged) as [Hpa Hpd].
  split.
  - apply Forall_forall. intros r. rewrite !elem_of_app, Ha, Hk, Hd.
    assert (Hone : ∀ (pick : Capabilities → list PermissionRule), (∀ c x, x ∈ pick c → x ∈ rules_of c) →
      (∃ c, c ∈ contributors_of top_level bundles ∧ r ∈ pick (cc_capabilities c)) → rule_text_ok r).
    { intros pick Hp (c & Hc & Hr). destruct (Hall c Hc) as [Ht _]. rewrite Forall_forall in Ht. by apply Ht, Hp. }
    rewrite Forall_forall in Hpa, Hpd. unfold rules_of in Hone.
    intros [[Hr|Hr]|[Hr|[Hr|Hr]]]; [|by auto| | |by auto].
    + apply (Hone (λ c, p_allow (ca_permissions c))); [|exact Hr]. intros c x. rewrite !elem_of_app. auto.
    + apply (Hone (λ c, p_ask (ca_permissions c))); [|exact Hr]. intros c x. rewrite !elem_of_app. auto.
    + apply (Hone (λ c, p_deny (ca_permissions c))); [|exact Hr]. intros c x. rewrite !elem_of_app. auto.
  - intros engine. rewrite !(propagate_effort_keeps (native_rules _ engine)) by done.
    destruct (Hn engine) as ([_ Na] & [_ Nk] & [_ Nd]). apply Forall_forall. intros s. rewrite !elem_of_app, Na, Nk, Nd.
    intros [(c & Hc & Hs)|[(c & Hc & Hs)|(c & Hc & Hs)]]; destruct (Hall c Hc) as [_ Ht]; specialize (Ht engine);
      rewrite Forall_forall in Ht; apply Ht; unfold native_texts; rewrite !elem_of_app; auto.
Qed.
End bundle.
