(* ===== verification/Throttle.v ===== *)
(** * Usage throttling (src/throttle/mod.rs, src/throttle/backend.rs)

    The entry that is active, the state file that tells the hook of it, the usage that a backend
    reports with its cache, and the delay. Times are in seconds; the age of a file is in
    nanoseconds and is negative for a file from the future. The request to the backend, the clock
    and the parser of timestamps are arguments. *)

From S2P Require Import Prelude RustStr Json LaunchProxy TaskStore ConfigSchema McpResolve.

(** ** The active entry *)

Definition throttle_active (active_tags : gset string) (t : Throttle) : Prop := tag_active (th_when t) active_tags = true.
#[export] Instance throttle_active_dec tags t : Decision (throttle_active tags t).
Proof. unfold throttle_active. apply _. Defined.
Definition resolve_active_throttle (throttle : list Throttle) (active_tags : gset string) : result (list string) (option Throttle) :=
  match filter (throttle_active active_tags) throttle with
  | [] => Ok None
  | [t] => Ok (Some t)
  | active => Err (map th_backend active)
  end.

(** ** The delay *)

Record UsageSnapshot := mkUsage {
  us_remaining : option N; us_limit : option N; us_resets_at : option string; us_penalized : bool }.
Definition saturating_mul64 (a b : N) : N := N.min (a * b) u64_max.
Definition compute_delay (snapshot : UsageSnapshot) (cfg : Throttle) : N :=
  if us_penalized snapshot then th_max_wait cfg
  else
    match us_remaining snapshot with
    | None => 0
    | Some remaining =>
      if decide (remaining = 0%N) then th_max_wait cfg
      else
        let threshold := th_soft_threshold cfg in
        if (remaining <? threshold)%N then saturating_mul64 (th_max_wait cfg) (threshold - remaining) / threshold
        else 0
    end.

Definition budget_note (snapshot : UsageSnapshot) (cfg : Throttle) : string :=
  match us_remaining snapshot, us_limit snapshot with
  | Some remaining, Some limit =>
    if (remaining <? th_soft_threshold cfg)%N then
      "Throttle: " +:+ pretty remaining +:+ "/" +:+ pretty limit +:+ " requests remaining (below soft cap of " +:+
        pretty (th_soft_threshold cfg) +:+ "; delays active)."
    else
      "Throttle: " +:+ pretty remaining +:+ "/" +:+ pretty limit +:+ " requests remaining in window. " +:+
        pretty (remaining - th_soft_threshold cfg)%N +:+ " call(s) before soft cap."
  | Some remaining, None => "Throttle: " +:+ pretty remaining +:+ " requests remaining in window."
  | None, _ => ""
  end.

(** ** The usage body of umans *)

Record UmansPriority := mkPriority { up_low : option bool; up_boxed_until : option string }.
Record UmansUsage := mkUmansUsage { uu_remaining_requests : option N; uu_priority : option UmansPriority }.
Record UmansUsageBody := mkUmansBody {
  ub_limits : option (option (option N));   (** limits, requests, limit *)
  ub_window : option (option string);       (** window, resets_at *)
  ub_usage : option UmansUsage }.
(** [jiff]: whether a text is a time in the future; [None] when it is no timestamp. *)
Definition is_penalized (future : string → option bool) (p : UmansPriority) : bool :=
  default false (up_low p) ||
  match up_boxed_until p with
  | Some s => if decide (s = "") then false else default false (future s)
  | None => false
  end.
Definition map_umans_body (future : string → option bool) (body : UmansUsageBody) : UsageSnapshot :=
  mkUsage (u ← ub_usage body; uu_remaining_requests u) (l ← ub_limits body; r ← l; r) (w ← ub_window body; w)
    (match u ← ub_usage body; uu_priority u with Some p => is_penalized future p | None => false end).

(** ** The cache of the usage *)

Inductive throttle_notice :=
| CacheUnusable | CacheCorrupt | CacheNotSaved | BackendUnknown (name : string)
| HookNameNotString | StdinNotJson | HookFailed.
Inductive throttle_error := BackendName (name : string) | FetchFailed | StateUnreadable | StateCorrupt.

(** What the cache file answers: none, an error of its metadata or time, or its age with the bytes. *)
Inductive cache_file := NoCacheFile | BrokenCacheFile | CacheFile (age_ns : Z) (bytes : option string).
Definition backend_name_ok (name : string) : bool :=
  str_all (λ c, is_ascii_alphanumeric c || Ascii.eqb c "-" || Ascii.eqb c "_") name.

Section cached.
Context `{Codec UsageSnapshot}.

Definition try_read_cache (file : cache_file) (cache_ttl : N) : option UsageSnapshot * list throttle_notice :=
  match file with
  | NoCacheFile => (None, [])
  | BrokenCacheFile => (None, [CacheUnusable])
  | CacheFile age bytes =>
    if (age <? 0)%Z then (None, [CacheUnusable])
    else if (Z.of_N cache_ttl * 1000000000 <=? age)%Z then (None, [])
    else
      match bytes with
      | None => (None, [CacheUnusable])
      | Some bytes => match decode bytes with Some snap => (Some snap, []) | None => (None, [CacheCorrupt]) end
      end
  end.
(** [fetched] is the answer of the backend; [saved] whether the write of the cache succeeds. The
    result holds the bytes that are written, if any. *)
Definition fetch_cached (fetched : option UsageSnapshot) (saved : bool) (file : cache_file) (cfg : Throttle)
  : result throttle_error (UsageSnapshot * option string) * list throttle_notice :=
  if negb (backend_name_ok (th_backend cfg)) then (Err (BackendName (th_backend cfg)), [])
  else
    match try_read_cache file (th_cache_ttl cfg) with
    | (Some snap, notes) => (Ok (snap, None), notes)
    | (None, notes) =>
      match fetched with
      | None => (Err FetchFailed, notes)
      | Some snap => if saved then (Ok (snap, Some (encode snap)), notes) else (Ok (snap, None), notes ++ [CacheNotSaved])
      end
    end.
End cached.

(** ** The state file *)

Section state.
Context `{Codec Throttle}.

(** The file after an export: the active entry, or no file. *)
Definition store_active_throttle (throttle : option Throttle) : option string := encode <$> throttle.
(** [read_throttle_config], over what the bounded read answers. *)
Definition read_throttle_config (read : result io_kind (option string)) : result throttle_error (option Throttle) :=
  match read with
  | Err _ => Err StateUnreadable
  | Ok None => Ok None
  | Ok (Some bytes) => match decode bytes with Some cfg => Ok (Some cfg) | None => Err StateCorrupt end
  end.
End state.

(** ** The hook *)

Definition engine_event_name (event : string) : string :=
  if decide (event = "prompt") then "UserPromptSubmit" else if decide (event = "pre-tool") then "PreToolUse" else "".
Definition hook_event_name `{JsonText} (stdin event : string) : string * list throttle_notice :=
  let '(parsed, notices) :=
    match json_parse stdin with
    | Some v =>
      match json_index "hook_event_name" v with
      | JStr name => (Some name, [])
      | JNull => (None, [])
      | _ => (None, [HookNameNotString])
      end
    | None => if decide (trim stdin = "") then (None, []) else (None, [StdinNotJson])
    end in
  (match parsed with Some name => if decide (name = "") then engine_event_name event else name
   | None => engine_event_name event end, notices).

(** What a run of the hook does: how long it sleeps, its note, and the notices. *)
Record HookRun := mkRun { hr_sleep : N; hr_note : string; hr_notices : list throttle_notice }.
Section hook.
Context `{Codec UsageSnapshot, Codec Throttle}.

Definition run_throttle_inner (event : string) (read : result io_kind (option string)) (file : cache_file)
    (fetched : option UsageSnapshot) (saved : bool) : result throttle_error HookRun :=
  match read_throttle_config read with
  | Err e => Err e
  | Ok None => Ok (mkRun 0 "" [])
  | Ok (Some cfg) =>
    if decide (th_backend cfg = "umans") then
      match fetch_cached fetched saved file cfg with
      | (Err e, _) => Err e
      | (Ok (snapshot, _), notices) =>
        Ok (mkRun (compute_delay snapshot cfg) (if decide (event = "prompt") then budget_note snapshot cfg else "") notices)
      end
    else Ok (mkRun 0 "" [BackendUnknown (th_backend cfg)])
  end.
(** [run_throttle_hook]: an error becomes a notice. *)
Definition run_throttle_hook (event : string) (read : result io_kind (option string)) (file : cache_file)
    (fetched : option UsageSnapshot) (saved : bool) : HookRun :=
  match run_throttle_inner event read file fetched saved with
  | Ok r => r
  | Err _ => mkRun 0 "" [HookFailed]
  end.
End hook.

(** ** Laws *)

Lemma active_spec tags throttle r : resolve_active_throttle throttle tags = Ok r →
  filter (throttle_active tags) throttle = match r with Some t => [t] | None => [] end.
Proof. unfold resolve_active_throttle. destruct (filter _ _) as [|t [|]]; by intros [= <-]. Qed.

(** At most one entry is ever active: the resolver gives the only one whose tags are on, nothing
    when none is, and refuses two, with the backends of all of them. *)
Theorem resolve_active_throttle_correct (throttle : list Throttle) (tags : gset string) :
  match resolve_active_throttle throttle tags with
  | Ok (Some t) => t ∈ throttle ∧ throttle_active tags t ∧ ∀ t', t' ∈ throttle → throttle_active tags t' → t' = t
  | Ok None => ∀ t, t ∈ throttle → ¬ throttle_active tags t
  | Err backends => 2 ≤ length backends ∧
      ∀ b, b ∈ backends ↔ ∃ t, t ∈ throttle ∧ throttle_active tags t ∧ th_backend t = b
  end.
Proof.
  assert (Hin : ∀ t, t ∈ filter (throttle_active tags) throttle ↔ throttle_active tags t ∧ t ∈ throttle)
    by (intros t; apply list_elem_of_filter).
  unfold resolve_active_throttle. destruct (filter _ throttle) as [|t [|t2 ts]].
  - intros t Ht Ha. by apply (not_elem_of_nil t), Hin.
  - destruct (proj1 (Hin t)) as [Ha Ht]; [by left|]. split_and!; [done..|].
    intros t' Ht' Ha'. by apply list_elem_of_singleton, Hin.
  - split; [cbn; lia|]. intros b. change (map ?f ?l) with (f <$> l). rewrite list_elem_of_fmap. split.
    + intros (x & -> & [Ha Ht]%Hin). eauto.
    + intros (x & Ht & Ha & <-). exists x. split; [done|]. by apply Hin.
Qed.

Lemma scaled_le a d t : (d ≤ t → 0 < t → saturating_mul64 a d / t ≤ a)%N.
Proof.
  intros Hd Ht. unfold saturating_mul64. etrans; [apply N.Div0.div_le_mono, N.le_min_l|].
  etrans; [apply N.Div0.div_le_mono, (N.mul_le_mono_l _ _ _ Hd)|]. by rewrite N.div_mul by lia.
Qed.

Lemma compute_delay_le s cfg : (compute_delay s cfg ≤ th_max_wait cfg)%N.
Proof.
  unfold compute_delay. destruct (us_penalized s); [done|]. destruct (us_remaining s) as [r|]; [|lia].
  case_decide; [done|]. destruct (N.ltb_spec r (th_soft_threshold cfg)); [|lia]. apply scaled_le; lia.
Qed.

(** C40: the delay. It never exceeds the configured wait, whatever the numbers overflow; it is the
    whole wait when the server holds the user back or nothing is left; it is zero when the usage is
    unknown or at the soft threshold or above; it never grows with the requests that are left; and
    below the threshold it is the exact share of the wait while the product fits in 64 bits. *)
Theorem compute_delay_correct (s : UsageSnapshot) (cfg : Throttle) :
  (compute_delay s cfg ≤ th_max_wait cfg)%N ∧
  (us_penalized s = true ∨ us_remaining s = Some 0%N → compute_delay s cfg = th_max_wait cfg) ∧
  (us_penalized s = false → us_remaining s = None → compute_delay s cfg = 0%N) ∧
  (∀ r, us_penalized s = false → us_remaining s = Some r → (0 < r)%N → (th_soft_threshold cfg ≤ r)%N → compute_delay s cfg = 0%N) ∧
  (∀ r, us_penalized s = false → us_remaining s = Some r → (0 < r < th_soft_threshold cfg)%N →
     (th_max_wait cfg * th_soft_threshold cfg ≤ u64_max)%N →
     compute_delay s cfg = (th_max_wait cfg * (th_soft_threshold cfg - r) / th_soft_threshold cfg)%N) ∧
  (∀ s' r r', us_penalized s = us_penalized s' → us_remaining s = Some r → us_remaining s' = Some r' → (r ≤ r')%N →
     (compute_delay s' cfg ≤ compute_delay s cfg)%N).
Proof.
  split_and!; [apply compute_delay_le|..].
  - unfold compute_delay. intros [->| ->]; [done|]. by destruct (us_penalized s).
  - unfold compute_delay. by intros -> ->.
  - unfold compute_delay. intros r -> -> Hr Ht. rewrite decide_False by lia.
    by destruct (N.ltb_spec r (th_soft_threshold cfg)); [lia|].
  - unfold compute_delay. intros r -> -> [Hr Hlt] Hfit. rewrite decide_False by lia.
    destruct (N.ltb_spec r (th_soft_threshold cfg)); [|lia]. unfold saturating_mul64. rewrite N.min_l; [done|].
    etrans; [|exact Hfit]. apply N.mul_le_mono_l. lia.
  - intros s' r r' Hp Hr Hr' Hrr. destruct (decide (r = 0%N)) as [->|Hne].
    { replace (compute_delay s cfg) with (th_max_wait cfg); [apply compute_delay_le|]. unfold compute_delay. rewrite Hr.
      by destruct (us_penalized s). }
    unfold compute_delay. rewrite Hp, Hr, Hr'. destruct (us_penalized s'); [done|].
    rewrite !decide_False by lia.
    destruct (N.ltb_spec r' (th_soft_threshold cfg)), (N.ltb_spec r (th_soft_threshold cfg)); try lia; [|apply N.le_0_l].
    apply N.Div0.div_le_mono. unfold saturating_mul64. apply N.min_le_compat_r, N.mul_le_mono_l. lia.
Qed.

Section hook_laws.
Context `{CodecLaws UsageSnapshot, CodecLaws Throttle}.

(** The hook never fails and never sleeps longer than the wait of the entry that an export
    stored; with no active entry it does nothing. The entry is the one that was stored, a fresh
    cache answers for the backend, and what a fetch stored is read back as it was. *)
Theorem throttle_hook_safe (event : string) (entry : option Throttle) (file : cache_file)
    (fetched : option UsageSnapshot) (saved : bool) :
  let r := run_throttle_hook event (Ok (store_active_throttle entry)) file fetched saved in
  match entry with
  | None => r = mkRun 0 "" []
  | Some cfg => (hr_sleep r ≤ th_max_wait cfg)%N ∧ (event ≠ "prompt" → hr_note r = "") ∧
      (∀ snap age, file = CacheFile age (Some (encode snap)) → (0 ≤ age < Z.of_N (th_cache_ttl cfg) * 1000000000)%Z →
         th_backend cfg = "umans" → hr_sleep r = compute_delay snap cfg) ∧
      (th_backend cfg ≠ "umans" → hr_sleep r = 0%N)
  end.
Proof.
  intros r. unfold r, run_throttle_hook, run_throttle_inner, store_active_throttle, read_throttle_config.
  destruct entry as [cfg|]; cbn [fmap option_fmap option_map]; [|done]. rewrite decode_encode.
  destruct (decide (th_backend cfg = "umans")) as [Hu|Hu].
  2:{ cbn [hr_sleep hr_note]. split_and!; [lia|done|done|done]. }
  assert (Hn : backend_name_ok (th_backend cfg) = true) by (rewrite Hu; reflexivity).
  unfold fetch_cached. rewrite Hn. cbn [negb].
  split_and!; [| | |done].
  - destruct (try_read_cache file (th_cache_ttl cfg)) as [[snap|] notes]; [apply compute_delay_le|].
    destruct fetched as [snap|]; [|cbn; lia]. destruct saved; apply compute_delay_le.
  - intros He. destruct (try_read_cache file (th_cache_ttl cfg)) as [[snap|] notes]; [cbn; by rewrite decide_False|].
    destruct fetched as [snap|]; [|done]. destruct saved; cbn; by rewrite decide_False.
  - intros snap age -> Hage _. unfold try_read_cache.
    destruct (Z.ltb_spec age 0); [lia|]. destruct (Z.leb_spec (Z.of_N (th_cache_ttl cfg) * 1000000000) age); [lia|].
    by rewrite decode_encode.
Qed.
End hook_laws.
