(* ===== verification/BuildManifest.v ===== *)
(** * The manifest of a host (src/materialize/build_manifest.rs, plugin_payloads.rs,
    src/materialize/merge_cache.rs, src/merge/mod.rs)

    [build_manifest] composes the merge of the bundles with the servers, the plugins, the throttle
    entry and the features of the configuration. The signature of the merge names the slice of it
    that the hooks read back. What git, the cache of marketplaces and SHA-256 answer is the class
    [PluginCache] and [HexDigest]. *)

From S2P Require Import Prelude RustStr Json TaskStore Marker JsonMerge YamlMerge Permissions Bundles ConfigSchema.
From S2P Require Import CapMerge Scope Names McpResolve PluginResolve Throttle BundleMerge.
From S2P Require Import Idempotency Framing.

(** ** The signature of a merge *)

(** The hexadecimal SHA-256 of bytes, and the YAML text of a record and of a value. *)
Class HexDigest := sha256_hex : string → string.
Class YamlText `{YamlLeaves} := {
  capabilities_text : Capabilities → option string;
  yaml_text : yaml → option string }.
Inductive signature_error := NotSerialized (what : string) | SignatureRead (bundle : string) (e : io_kind).

Section signature.
Context `{YamlText, FileSystem}.

Definition name_le (a b : BundleRef) : Prop := str_le (br_name a) (br_name b).
#[export] Instance name_le_dec : RelDecision name_le.
Proof. unfold name_le. intros ??. apply _. Defined.

Definition native_part (kv : string * yaml) : result signature_error string :=
  text ← ok_or (yaml_text kv.2) (NotSerialized kv.1);
  Ok (len_prefixed kv.1 +:+ len_prefixed text).
Definition bundle_part (b : BundleRef) : result signature_error string :=
  text ← map_err (SignatureRead (br_name b)) (read_bundle_text (path_join (br_path b) "bundle.yaml"));
  Ok (len_prefixed (br_name b) +:+ chr (byte_of (br_precedence b)) +:+ len_prefixed (default "" text)).
(** The bytes that are hashed. The bundles are sorted by name; [build_bundle_refs] gives each name
    once. *)
Definition signature_bytes (top_level : Capabilities) (native : gmap string yaml) (bundles : list BundleRef)
  : result signature_error string :=
  top ← ok_or (capabilities_text top_level) (NotSerialized "top-level capabilities");
  natives ← mapM native_part (btree_entries native);
  let sorted := merge_sort name_le bundles in
  parts ← mapM bundle_part sorted;
  Ok (len_prefixed top +:+ count_bytes (btree_entries native) +:+ join "" natives +:+ count_bytes sorted +:+ join "" parts).
Definition merge_signature `{HexDigest} (top_level : Capabilities) (native : gmap string yaml) (bundles : list BundleRef)
  : result signature_error string :=
  bytes ← signature_bytes top_level native bundles; Ok (sha256_hex bytes).
End signature.

(** ** The cache of the slice *)

Record PersistedMergeCache := mkMergeCache {
  mc_key : string; mc_bundle_memory : list Memory; mc_bundle_host : gmap string HostEntry }.
Section merge_cache.
Context `{Codec PersistedMergeCache}.
Definition write_merge_cache (key : string) (memory : list Memory) (host : gmap string HostEntry) : string :=
  encode (mkMergeCache key memory host).
(** [read_if_matching]: the slice, and whether a notice says that the file is unusable. *)
Definition read_if_matching (read : result io_kind (option string)) (key : string)
  : option (list Memory * gmap string HostEntry) * bool :=
  match read with
  | Err _ => (None, true)
  | Ok None => (None, false)
  | Ok (Some bytes) =>
    match decode bytes with
    | None => (None, true)
    | Some e => (if decide (mc_key e = key) then Some (mc_bundle_memory e, mc_bundle_host e) else None, false)
    end
  end.
End merge_cache.

(** ** Plugins and marketplaces in the cache *)

Inductive sync_error := NotCloned | SyncFailed (why : string).
Record plugin_entry := mkEntry { pe_name : string; pe_source : string }.
(** The manifest of a marketplace, as its plugins with the name it declares or as an error; the
    place and the commit of a payload; and those of a marketplace, with whether to refresh it. *)
Class PluginCache := {
  marketplace_manifest : string → string → result string (list plugin_entry * option string);
  payload_of : string → string → plugin_entry → result sync_error (string * option string);
  sync_marketplace : string → Marketplace → bool → result sync_error (string * option string) }.

Definition is_external_plugin_source (source : string) : bool :=
  negb (starts_with "./" source) && negb (starts_with "../" source) && negb (starts_with "npm:" source) &&
  negb (bool_decide (source = ".")) && negb (bool_decide (source = "./")) && negb (bool_decide (source = "..")).

Inductive unloaded_cause := ManifestUnreadable (why : string) | NameDiffers | MissingEntry | NotFetched | LookupFailed.
Record unloaded := mkUnloaded { un_plugin : string; un_marketplace : string; un_cause : unloaded_cause }.

Section plugins.
Context `{PluginCache}.

(** One plugin: with its payload, or the notice that it is not loaded. *)
Definition sync_plugin_payload (cache_root : string) (p : ResolvedPlugin) : result unloaded ResolvedPlugin :=
  let drop cause := Err (mkUnloaded (rp_plugin p) (rp_marketplace p) cause) in
  match marketplace_manifest cache_root (rp_marketplace p) with
  | Err why => drop (ManifestUnreadable why)
  | Ok (entries, declared) =>
    if match declared with Some name => negb (bool_decide (name = rp_marketplace p)) | None => false end then drop NameDiffers
    else
      match find_first (λ e, pe_name e = rp_plugin p) entries with
      | None => drop MissingEntry
      | Some entry =>
        if negb (is_external_plugin_source (pe_source entry)) then Ok p
        else
          match payload_of cache_root (rp_marketplace p) entry with
          | Ok (location, head) => Ok (mkPlugin (rp_marketplace p) (rp_plugin p) (rp_collection p) (Some location) head)
          | Err NotCloned => drop NotFetched
          | Err (SyncFailed _) => drop LookupFailed
          end
      end
  end.
Definition sync_plugin_payloads (cache_root : string) (plugins : list ResolvedPlugin)
  : list ResolvedPlugin * list unloaded :=
  let synced := map (sync_plugin_payload cache_root) plugins in
  (omap (λ r, match r with Ok p => Some p | Err _ => None end) synced,
   omap (λ r, match r with Err u => Some u | Ok _ => None end) synced).

Inductive manifest_error :=
| MfBundles (e : bundle_error)
| MfServers (context : string) (e : ResolveError)
| MfCodebasePaths
| MfDuplicateServer (name : string)
| MfCacheDir (e : tilde_error)
| MfPlugins (e : plugin_error)
| MfMarketplace (name why : string)
| MfThrottle (backends : list string).

Definition sync_one_marketplace (cache_root : string) (market : Marketplace) (rm : ResolvedMarketplace) (refresh : bool)
  : result manifest_error (option ResolvedMarketplace) :=
  match sync_marketplace cache_root market refresh with
  | Ok (location, head) => Ok (Some (mkMarket (rk_name rm) (rk_source rm) (Some location) head))
  | Err NotCloned => Ok None
  | Err (SyncFailed why) => Err (MfMarketplace (rk_name rm) why)
  end.
(** The last declaration of a name counts, as in the map of the source. *)
Definition declared_market (markets : list Marketplace) (name : string) : option Marketplace :=
  find_first (λ m, mk_name m = name) (rev markets).
Fixpoint sync_marketplaces (markets : list Marketplace) (cache_root : string) (resolved : list ResolvedMarketplace)
    (refresh : bool) : result manifest_error (list ResolvedMarketplace) :=
  match resolved with
  | [] => Ok []
  | rm :: resolved =>
    let market := default (mkMarketplace (rk_name rm) (rk_source rm)) (declared_market markets (rk_name rm)) in
    synced ← sync_one_marketplace cache_root market rm refresh;
    out ← sync_marketplaces markets cache_root resolved refresh;
    Ok (match synced with Some rm => rm :: out | None => out end)
  end.
End plugins.

(** ** The features of the configuration *)

Definition concat_dedup {A} `{EqDecision A} (lead rest : list A) : list A := dedup (lead ++ rest).
Definition or_else {A} (a b : option A) : option A := match a with Some a => Some a | None => b end.
Definition fold_root_features (root merged : option Features) : option Features :=
  match root with
  | None => merged
  | Some r =>
    let out := default default_features merged in
    Some (mkFeatures (concat_dedup (fe_memory r) (fe_memory out)) (concat_dedup (fe_throttle r) (fe_throttle out))
      (or_else (fe_context_mode r) (fe_context_mode out)) (or_else (fe_upgrade r) (fe_upgrade out))
      (or_else (fe_read_once r) (fe_read_once out)) (or_else (fe_repeat_detect r) (fe_repeat_detect out))
      (or_else (fe_slippage r) (fe_slippage out)) (or_else (fe_task_tracker r) (fe_task_tracker out))
      (concat_dedup (fe_codebase_memory r) (fe_codebase_memory out))
      (or_else (fe_cd_guard r) (fe_cd_guard out)) (or_else (fe_launch_proxy r) (fe_launch_proxy out))
      (or_else (fe_sandbox r) (fe_sandbox out)))
  end.

Section build.
Context `{HL : YamlLeaves, !BundleYaml, !YamlText, FileSystem, BundleDisk, HexDigest, PluginCache, Ssrf.Net}.
Implicit Types (config : ConfigSchema.Config) (caps : Capabilities).

Definition root_list {A} (select : Features → list A) config : list A :=
  match cf_features config with Some f => select f | None => [] end.
(** The lists of the configuration first, then those of the bundles, without repeats. *)
Definition all_memory config (bundle_memory : list Memory) : list Memory := dedup (root_list fe_memory config ++ bundle_memory).
Definition all_codebase config caps : list CodebaseMemory :=
  dedup (root_list fe_codebase_memory config ++ feature_list fe_codebase_memory caps).
Definition all_throttle config caps : list Throttle := dedup (root_list fe_throttle config ++ feature_list fe_throttle caps).
(** The hosts of the bundles, and those of the configuration over them. *)
Definition all_host config (bundle_host : gmap string HostEntry) : gmap string HostEntry := cf_host config ∪ bundle_host.

Definition with_root_lists config caps : Capabilities :=
  mkCapabilities _ (ca_permissions caps) (ca_hooks caps) (ca_plugins caps) (ca_mcp caps) (ca_lsp caps ++ cf_lsp config)
    (ca_skills caps ++ cf_skills config) (ca_output_styles caps ++ cf_output_styles config) (ca_env caps)
    (ca_auto_memory_enabled caps) (ca_effort_level caps) (ca_model_effort caps)
    (ca_advisor_model caps) (ca_advisor_size caps) (ca_native_permissions caps) (ca_native_hooks caps)
    (ca_native_plugins caps) (ca_native_mcp caps) (ca_native_model_providers caps) (ca_native_default_models caps)
    (ca_native caps) (ca_features caps) (ca_host caps) (ca_model_providers caps) (ca_default_models caps).
Definition with_features caps (features : option Features) : Capabilities :=
  mkCapabilities _ (ca_permissions caps) (ca_hooks caps) (ca_plugins caps) (ca_mcp caps) (ca_lsp caps) (ca_skills caps)
    (ca_output_styles caps) (ca_env caps) (ca_auto_memory_enabled caps) (ca_effort_level caps) (ca_model_effort caps)
    (ca_advisor_model caps) (ca_advisor_size caps) (ca_native_permissions caps) (ca_native_hooks caps)
    (ca_native_plugins caps) (ca_native_mcp caps) (ca_native_model_providers caps) (ca_native_default_models caps)
    (ca_native caps) features (ca_host caps) (ca_model_providers caps) (ca_default_models caps).

(** The first name that occurs a second time. *)
Fixpoint first_repeat (seen names : list string) : option string :=
  match names with
  | [] => None
  | n :: names => if decide (n ∈ seen) then Some n else first_repeat (n :: seen) names
  end.
(** [paths] tells whether [codebase_memory_paths] finds its two folders. *)
Definition resolve_servers (home : option string) (paths : bool) config (active : ActiveScopes) caps
  : result manifest_error (list ResolvedMcp) :=
  let host_tags := non_project_tags active in
  declared ← map_err (MfServers "resolving MCP servers")
    (resolve_mcps (cf_mcp config) (all_memory config (feature_list fe_memory caps)) (all_host config (ca_host caps)) host_tags);
  bundled ← map_err (MfServers "resolving bundle MCP servers") (resolve_bundle_mcps (ca_mcp caps) host_tags);
  codebase ← (if decide (all_codebase config caps = []) then Ok []
              else if paths then
                map_err (MfServers "resolving codebase_memory servers")
                  (resolve_codebase_memory_entries home (all_codebase config caps) (ac_tags active))
              else Err MfCodebasePaths);
  let mcps := declared ++ bundled ++ codebase in
  match first_repeat [] (map rm_name mcps) with
  | Some name => Err (MfDuplicateServer name)
  | None => Ok mcps
  end.

(** A manifest, the cache folder, the slice that is written with its key when there is one, and
    the plugins that are left out. *)
Record Built := mkBuilt {
  bt_manifest : MergedManifest; bt_cache_root : string;
  bt_slice : option (string * list Memory * gmap string HostEntry); bt_unloaded : list unloaded }.
Definition build_manifest (home : option string) (paths : bool) (path_exists : string → bool) config (config_dir : string)
    (active : ActiveScopes) (firing : list Bundle) (refresh_marketplaces : bool) : result manifest_error (option Built) :=
  let refs := build_bundle_refs path_exists config_dir active firing in
  if decide (refs = []) then Ok None
  else
    merged ← map_err MfBundles (merge_bundles home (cf_capabilities config) (cf_native config) refs);
    let caps := with_root_lists config (mm_capabilities merged) in
    mcps ← resolve_servers home paths config active caps;
    cache_root ← map_err MfCacheDir (expand_tilde home (ch_cache_dir (cf_cache config)));
    let slice := match merge_signature (cf_capabilities config) (cf_native config) refs with
                 | Ok key => Some (key, feature_list fe_memory caps, ca_host caps)
                 | Err _ => None
                 end in
    resolved ← map_err MfPlugins (resolve_plugins config (non_project_tags active));
    let '(plugins, unloaded) := sync_plugin_payloads cache_root (ps_plugins resolved) in
    marketplaces ← sync_marketplaces (cf_marketplace config) cache_root (ps_marketplaces resolved)
                     (refresh_marketplaces && ch_remote_sync (cf_cache config));
    throttle ← map_err MfThrottle (resolve_active_throttle (all_throttle config caps) (non_project_tags active));
    Ok (Some (mkBuilt
      (mkManifest (mm_agents_md merged) (mm_files merged) (mm_rules merged) mcps plugins marketplaces
        (with_features caps (fold_root_features (cf_features config) (ca_features caps))) (mm_native merged) throttle
        (default default_session_log (cf_session_log config)))
      cache_root slice unloaded)).
End build.

(** ** Laws of the manifest (src/materialize/build_manifest.rs, plugin_payloads.rs)

    What the manifest of a host holds: the servers, the plugins with their payloads, the throttle
    entry, and the features of the configuration over those of the bundles. Two settings of the
    root of the configuration do not reach it. *)

(** ** Features *)


Section payloads.
Context `{PluginCache}.


End payloads.

Section build.
Context `{HL : YamlLeaves, !BundleYaml, !YamlText, FileSystem, BundleDisk, HexDigest, PluginCache, Ssrf.Net}.
Context (home : option string) (paths : bool) (path_exists : string → bool).
Implicit Types (config : ConfigSchema.Config) (caps : Capabilities).

(** What a build consists of. *)
Lemma build_ok config config_dir active firing refresh built :
  build_manifest home paths path_exists config config_dir active firing refresh = Ok (Some built) →
  let refs := build_bundle_refs path_exists config_dir active firing in
  refs ≠ [] ∧ ∃ merged plugins,
    merge_bundles home (cf_capabilities config) (cf_native config) refs = Ok merged ∧
    let caps := with_root_lists config (mm_capabilities merged) in
    let m := bt_manifest built in
    resolve_servers home paths config active caps = Ok (mm_mcps m) ∧
    resolve_plugins config (non_project_tags active) = Ok plugins ∧
    sync_plugin_payloads (bt_cache_root built) (ps_plugins plugins) = (mm_plugins m, bt_unloaded built) ∧
    resolve_active_throttle (all_throttle config caps) (non_project_tags active) = Ok (mm_throttle m) ∧
    mm_capabilities m = with_features caps (fold_root_features (cf_features config) (ca_features caps)) ∧
    mm_native m = mm_native merged ∧ mm_files m = mm_files merged ∧ mm_rules m = mm_rules merged ∧
    bt_slice built = (match merge_signature (cf_capabilities config) (cf_native config) refs with
                      | Ok key => Some (key, feature_list fe_memory caps, ca_host caps) | Err _ => None end).
Proof.
  intros E refs. unfold build_manifest in E. fold refs in E. case_decide as Hr; [done|]. split; [done|].
  apply result_bind_ok in E as (merged & Em%map_err_ok & E). apply result_bind_ok in E as (mcps & Es & E).
  apply result_bind_ok in E as (cache_root & _ & E). apply result_bind_ok in E as (plugins & Ep%map_err_ok & E).
  destruct (sync_plugin_payloads cache_root (ps_plugins plugins)) as [loaded notes] eqn:El.
  apply result_bind_ok in E as (markets & _ & E). apply result_bind_ok in E as (throttle & Et%map_err_ok & E).
  injection E as <-. exists merged, plugins. by split_and!.
Qed.

(** The root of the configuration wins. *)
Lemma folded_scalar {A} (select : Features → option A) root merged :
  select default_features = None →
  (∀ r out, select (mkFeatures (concat_dedup (fe_memory r) (fe_memory out)) (concat_dedup (fe_throttle r) (fe_throttle out))
      (or_else (fe_context_mode r) (fe_context_mode out)) (or_else (fe_upgrade r) (fe_upgrade out))
      (or_else (fe_read_once r) (fe_read_once out)) (or_else (fe_repeat_detect r) (fe_repeat_detect out))
      (or_else (fe_slippage r) (fe_slippage out)) (or_else (fe_task_tracker r) (fe_task_tracker out))
      (concat_dedup (fe_codebase_memory r) (fe_codebase_memory out))
      (or_else (fe_cd_guard r) (fe_cd_guard out)) (or_else (fe_launch_proxy r) (fe_launch_proxy out))
      (or_else (fe_sandbox r) (fe_sandbox out))) = or_else (select r) (select out)) →
  (f ← fold_root_features root merged; select f) = or_else (r ← root; select r) (f ← merged; select f).
Proof.
  intros Hd Hs. unfold fold_root_features. destruct root as [r|]; [|done]. cbn [mbind option_bind]. rewrite Hs.
  destruct merged as [out|]; [done|]. cbn [default from_option id mbind option_bind]. by rewrite Hd.
Qed.


(** ** Two settings of the root that do not arrive *)

(** The effort level of the slippage control at the root of the configuration has no effect: the
    level of the manifest is the one of the merge, which the features of the root do not enter. *)
Theorem root_effort_ignored config (config_dir : string) (active : ActiveScopes) (firing : list Bundle)
    (refresh : bool) (built : Built) (merged : MergedManifest) :
  build_manifest home paths path_exists config config_dir active firing refresh = Ok (Some built) →
  merge_bundles home (cf_capabilities config) (cf_native config)
    (build_bundle_refs path_exists config_dir active firing) = Ok merged →
  ca_effort_level (mm_capabilities (bt_manifest built)) = ca_effort_level (mm_capabilities merged) ∧
  ∀ s, fe_slippage <$> cf_features config = Some (Some s) →
    feature fe_slippage (mm_capabilities (bt_manifest built)) = Some s.
Proof.
  intros (_ & merged' & plugins & Em & _ & _ & _ & _ & Ec & _)%build_ok Em'.
  rewrite Em in Em'. injection Em' as ->. rewrite Ec. split; [done|].
  intros s Hs. unfold feature. cbn [ca_features with_features]. rewrite folded_scalar by done.
  destruct (cf_features config) as [f|]; [|done]. injection Hs as Hs. cbn. by rewrite Hs.
Qed.

(** A memory server of a bundle whose host only the [host] table of the root declares makes the
    build fail: the check of the merge sees the hosts of the capabilities alone. *)
Theorem root_host_not_seen config (config_dir : string) (active : ActiveScopes) (firing : list Bundle)
    (refresh : bool) (b : BundleRef) (caps : Capabilities) (mem : Memory) :
  let refs := build_bundle_refs path_exists config_dir active firing in
  b ∈ refs → read_bundle_yaml (br_path b) (br_name b) = Ok (Some caps) → mem ∈ feature_list fe_memory caps →
  is_Some (cf_host config !! me_server_host mem) →
  (∀ caps', contributes (cf_capabilities config) refs caps' → ca_host caps' !! me_server_host mem = None) →
  is_ok (build_manifest home paths path_exists config config_dir active firing refresh) = false.
Proof.
  intros refs Hb Hread Hmem _ Hnone.
  destruct (build_manifest home paths path_exists config config_dir active firing refresh) as [[built|]|] eqn:E; [exfalso..|done].
  - apply build_ok in E as (_ & merged & plugins & Em & _). fold refs in Em.
    apply merge_bundles_ok in Em as (mcaps & Emc & _ & _ & Hhosts & _).
    apply merge_ok in Emc as (Hset & Hfeat & _). destruct Hfeat as (_ & _ & _ & _ & _ & _ & _ & _ & _ & [_ Hm] & _).
    destruct Hset as (_ & _ & _ & _ & _ & Hhost & _). rewrite Forall_forall in Hhosts.
    assert (Hin : mem ∈ feature_list fe_memory mcaps).
    { apply Hm. eexists (mkContributor _ (br_precedence b) caps). split; [|exact Hmem]. apply elem_of_contributors. right.
      exists b. split; [done|]. unfold fragment_of. by rewrite Hread. }
    destruct (Hhosts mem Hin) as [entry He]. destruct (Hhost (me_server_host mem)) as [_ Hd]. rewrite He in Hd.
    destruct Hd as (c & Hc & Hp & _). rewrite (Hnone (cc_capabilities c)) in Hp; [done|].
    apply elem_of_contributors in Hc as [[_ ->]|(b' & Hb' & Hf)]; [by left|]. right. exists b'. split; [done|].
    unfold fragment_of in Hf. destruct (read_bundle_yaml (br_path b') _) as [[caps'|]|]; [|done..]. by injection Hf as <-.
  - unfold build_manifest in E. fold refs in E. case_decide as Hr; [rewrite Hr in Hb; by apply elem_of_nil in Hb|].
    apply result_bind_ok in E as (? & _ & E). apply result_bind_ok in E as (? & _ & E).
    apply result_bind_ok in E as (? & _ & E). apply result_bind_ok in E as (? & _ & E).
    destruct (sync_plugin_payloads _ _). apply result_bind_ok in E as (? & _ & E). by apply result_bind_ok in E as (? & _ & E).
Qed.
End build.
