(* ===== verification/CacheFolder.v ===== *)
(** * Cache folders (src/materialize/cache.rs, materialize/mod.rs, materialize/stale.rs,
    materialize/manifest.rs, src/cli/mod.rs)

    The folder of a render is named after the selection or after a digest of the manifest, and a
    dotfile records the digest and the files that the render owns. The next render deletes the owned
    files that it does not write again, and no other file. *)

From S2P Require Import Prelude RustStr Names HookCommand TaskStore Marker Json JsonMerge YamlMerge Tags Bundles.
From S2P Require Import ConfigSchema McpResolve PluginResolve CapMerge BundleMerge Idempotency Framing BuildManifest.
From S2P Require Import CrushRender.

(** ** The digest of a manifest *)

Definition MAX_ASSET_BYTES : N := 64 * 1024 * 1024.
Inductive hash_error := AssetRead (p : string) (e : io_kind) | AssetMissing (p : string) | NativeNotText (key : string).

Definition transport_debug (t : McpTransport) : string :=
  match t with Stdio => "Stdio" | Http => "Http" | Sse => "Sse" end.
(** The order of [PathBuf]: component by component. *)
Fixpoint rel_le (a b : list string) : Prop :=
  match a, b with
  | [], _ => True
  | _ :: _, [] => False
  | x :: a, y :: b => if decide (x = y) then rel_le a b else str_le x y
  end.
#[export] Instance rel_le_dec : RelDecision rel_le.
Proof. intros a. induction a as [|x a IH]; intros [|y b]; cbn; try apply _. destruct (decide (x = y)); [apply IH|apply _]. Defined.
Definition rel_text (rel : list string) : string := join "/" rel.
Definition rel_entry_le {A} (a b : list string * A) : Prop := rel_le a.1 b.1.
#[export] Instance rel_entry_le_dec {A} : RelDecision (@rel_entry_le A).
Proof. unfold rel_entry_le. intros ??. apply _. Defined.
Definition files_in_order {A} (files : gmap (list string) A) : list (list string * A) :=
  merge_sort rel_entry_le (map_to_list files).

(** What one server adds: a stdio server its command, arguments and variables, a remote one its
    address and transport. *)
Definition HashedKind : Type := string * (list string * list (string * string)) + string * string.
Definition kind_parts (k : ResolvedKind) : HashedKind :=
  match k with
  | KStdio command args env => inl (command, (args, btree_entries env))
  | KRemote url transport => inr (url, transport_debug transport)
  end.
(** Everything that [hash_manifest] mixes in, in its order. *)
Record HashParts := mkParts {
  hp_agents_md : string; hp_files : list (string * string); hp_rules : list (string * (string * string));
  hp_mcps : list (string * HashedKind); hp_plugins : list (string * (string * string));
  hp_marketplaces : list (string * (string * (string * string))); hp_native : list (string * string);
  hp_native_hooks : list (string * string); hp_native_plugins : list (string * string);
  hp_native_mcp : list (string * string); hp_native_model_providers : list (string * string) }.

Section hash.
Context `{HL : YamlLeaves, !YamlText, FileSystem}.

Definition read_asset (p : string) : result hash_error string :=
  match read_file_bounded (components p) MAX_ASSET_BYTES with
  | Ok (Some bytes) => Ok bytes
  | Ok None => Err (AssetMissing p)
  | Err e => Err (AssetRead p e)
  end.
Definition file_parts (f : list string * string) : result hash_error (string * string) :=
  bytes ← read_asset f.2; Ok (rel_text f.1, bytes).
(** [hash_native_capability_map], and the loop over [native]. *)
Definition native_map_parts (m : gmap string yaml) : result hash_error (list (string * string)) :=
  mapM (λ kv : string * yaml, text ← ok_or (yaml_text kv.2) (NativeNotText kv.1); Ok (kv.1, text)) (btree_entries m).
Definition hash_parts (m : MergedManifest) : result hash_error HashParts :=
  files ← mapM file_parts (files_in_order (mm_files m));
  let rules := map (λ r, (ru_bundle r, (rel_text (ru_rel r), ru_raw r))) (mm_rules m) in
  let mcps := map (λ s, (rm_name s, kind_parts (rm_kind s))) (mm_mcps m) in
  let plugins := map (λ p, (rp_marketplace p, (rp_plugin p, default "" (rp_git_commit_sha p)))) (mm_plugins m) in
  let markets := map (λ k, (rk_name k, (rk_source k, (default "" (rk_head k), default "" (rk_install_location k)))))
    (mm_marketplaces m) in
  native ← native_map_parts (mm_native m);
  hooks ← native_map_parts (ca_native_hooks (mm_capabilities m));
  native_plugins ← native_map_parts (ca_native_plugins (mm_capabilities m));
  native_mcp ← native_map_parts (ca_native_mcp (mm_capabilities m));
  providers ← native_map_parts (ca_native_model_providers (mm_capabilities m));
  Ok (mkParts (mm_agents_md m) files rules mcps plugins markets native hooks native_plugins native_mcp providers).
End hash.

Definition enc_two : string * string → string := enc_pair len_prefixed len_prefixed.
Definition enc_kind : HashedKind → string :=
  enc_either (chr (byte_of 0)) (chr (byte_of 1))
    (enc_pair len_prefixed (enc_pair (enc_list len_prefixed) (enc_list enc_two))) enc_two.
Definition parts_bytes (h : HashParts) : string :=
  len_prefixed (hp_agents_md h) +:+ enc_list enc_two (hp_files h) +:+
  enc_list (enc_pair len_prefixed enc_two) (hp_rules h) +:+
  enc_list (enc_pair len_prefixed enc_kind) (hp_mcps h) +:+
  enc_list (enc_pair len_prefixed enc_two) (hp_plugins h) +:+
  enc_list (enc_pair len_prefixed (enc_pair len_prefixed enc_two)) (hp_marketplaces h) +:+
  enc_list enc_two (hp_native h) +:+ enc_list enc_two (hp_native_hooks h) +:+ enc_list enc_two (hp_native_plugins h) +:+
  enc_list enc_two (hp_native_mcp h) +:+ enc_list enc_two (hp_native_model_providers h).
Definition hash_manifest `{HL : YamlLeaves, !YamlText, FileSystem, HexDigest} (m : MergedManifest) : result hash_error string :=
  parts ← hash_parts m; Ok (sha256_hex (parts_bytes parts)).

(** ** The name of the folder *)

Section names.
Context `{HexDigest} (VERSION_TAG PKG_VERSION : string).
Definition is_dot (c : ascii) : bool := Ascii.eqb c ".".
Definition version_major : string := default "" (head (split_on is_dot PKG_VERSION)).
Definition folder_name (mode : HashingMode) (shape content_hash : string) : string :=
  match mode with
  | Loose => shape
  | ConfigSchema.Normal => version_major +:+ "/" +:+ shape
  | Strict => VERSION_TAG +:+ "-" +:+ content_hash
  end.
Definition shape_bytes (tags bundles : gset string) : string :=
  enc_pair (enc_list len_prefixed) (enc_list len_prefixed) (in_order tags, in_order bundles).
Definition shape (tags bundles : gset string) : string := str_take 12 (sha256_hex (shape_bytes tags bundles)).
End names.

(** ** Drift (stale.rs) *)

Inductive StaleStatus := Fresh | Stale (booted current : string) | Unknown.
Definition is_drift (s : StaleStatus) : bool := match s with Stale _ _ => true | _ => false end.
Definition stale_status (booted : option string) (current : string) : StaleStatus :=
  match booted with
  | None => Unknown
  | Some b => if decide (b = current) then Fresh else Stale b current
  end.

(** ** The dotfile (manifest.rs) *)

Inductive AuthSource := Inherited | Explicit | NoAuth.
Record AuthStatus := mkAuthStatus { au_source : AuthSource; au_id : option string; au_email : option string }.
Definition MANIFEST_FILE : string := ".llmenv-manifest.json".
Record CacheManifest := mkCacheManifest {
  cm_content_hash : string; cm_owned : gset string; cm_active_tags : gset string; cm_enabled_bundles : gset string;
  cm_auth_status : AuthStatus }.

Definition normalize_rel (p : string) : string := replace_char "\" "/" p.
Definition manifest_new (content_hash : string) (owned : list string) : CacheManifest :=
  let recorded := filter (λ p, is_unsafe_join_target p = false)
    (filter (λ p, p ≠ MANIFEST_FILE ∧ p ≠ "") (map normalize_rel owned)) in
  mkCacheManifest content_hash (list_to_set recorded) ∅ ∅ (mkAuthStatus NoAuth None None).
Definition with_auth_status (m : CacheManifest) (auth : AuthStatus) : CacheManifest :=
  mkCacheManifest (cm_content_hash m) (cm_owned m) (cm_active_tags m) (cm_enabled_bundles m) auth.
Definition with_selection (m : CacheManifest) (tags bundles : gset string) : CacheManifest :=
  mkCacheManifest (cm_content_hash m) (cm_owned m) tags bundles (cm_auth_status m).
Definition stale_against (previous current : CacheManifest) : list string := in_order (cm_owned previous ∖ cm_owned current).

(** ** A render of a folder

    The files of a disk by their path, and what it lets a program do. *)

#[export] Instance component_countable : Countable component.
Proof.
  refine (inj_countable'
    (λ c, match c with RootDir => inl (inl tt) | CurDir => inl (inr tt) | ParentDir => inr (inl tt) | Names.Normal s => inr (inr s) end)
    (λ x, match x with inl (inl _) => RootDir | inl (inr _) => CurDir | inr (inl _) => ParentDir | inr (inr s) => Names.Normal s end) _).
  by intros [].
Defined.
Abbreviation Disk := (gmap (list component) string).
Class DiskRights := { readable : list component → bool; removable : list component → bool; writable : list component → bool }.
Inductive folder_error := DotfileUnreadable (folder : string) | DotfileNotWritten (folder : string).

Section render.
Context `{Codec CacheManifest, DiskRights}.

Definition manifest_path (folder : string) : list component := components (path_join folder MANIFEST_FILE).
Definition read_manifest (folder : string) (d : Disk) : result folder_error (option CacheManifest) :=
  match d !! manifest_path folder with
  | None => Ok None
  | Some bytes => if readable (manifest_path folder) then Ok (decode bytes) else Err (DotfileUnreadable folder)
  end.
Definition write_manifest (folder : string) (m : CacheManifest) (d : Disk) : result folder_error Disk :=
  if writable (manifest_path folder) then Ok (<[manifest_path folder := encode m]> d) else Err (DotfileNotWritten folder).
Definition remove_ghost (folder : string) (d : Disk) (ghost : string) : Disk :=
  if is_unsafe_join_target ghost then d
  else
    let victim := components (path_join folder ghost) in
    if removable victim then delete victim d else d.
(** The folder after the step, and how the step ends. *)
Definition write_cache_manifest (folder : string) (current : CacheManifest) (mode : HashingMode)
    (previous : result folder_error (option CacheManifest)) (d : Disk) : result folder_error unit * Disk :=
  let finish d := match write_manifest folder current d with Ok d' => (Ok tt, d') | Err e => (Err e, d) end in
  match mode with
  | Strict => finish d
  | Loose | ConfigSchema.Normal =>
    match previous with
    | Err e => (Err e, d)
    | Ok None => finish d
    | Ok (Some previous) => finish (foldl (remove_ghost folder) d (stale_against previous current))
    end
  end.

(** What one render writes: the files of the bundles, then those of the adapter, then the status. *)
Record Render := mkRender {
  rn_hash : string; rn_bundle : gmap (list string) string; rn_adapter : gmap (list string) string; rn_status : string;
  rn_tags : gset string; rn_bundles : gset string; rn_auth : AuthStatus }.
Definition STATUS_FILE : string := "llmenv-status.json".
Definition place (folder : string) (rel : list string) : list component := components folder ++ (Names.Normal <$> rel).
Definition written (r : Render) : gmap (list string) string :=
  <[[STATUS_FILE] := rn_status r]> (rn_adapter r ∪ rn_bundle r).
Definition write_files (folder : string) (files : gmap (list string) string) (d : Disk) : Disk :=
  map_fold (λ rel content d, <[place folder rel := content]> d) d files.
Definition owned_paths (r : Render) : list string :=
  map rel_text (elements (dom (rn_adapter r)) ++ elements (dom (rn_bundle r))) ++ [STATUS_FILE].
Definition manifest_of (r : Render) : CacheManifest :=
  with_auth_status (with_selection (manifest_new (rn_hash r) (owned_paths r)) (rn_tags r) (rn_bundles r)) (rn_auth r).
(** [materialize_from_manifest] with [write_post_materialize]. *)
Definition render (folder : string) (mode : HashingMode) (r : Render) (d : Disk) : result folder_error unit * Disk :=
  let d := write_files folder (rn_bundle r) d in
  let previous := read_manifest folder d in
  let d := write_files folder (rn_adapter r) d in
  let d := write_files folder {[[STATUS_FILE] := rn_status r]} d in
  write_cache_manifest folder (manifest_of r) mode previous d.
End render.

(** ** Laws of the digest *)

#[export] Instance enc_two_cut : SelfCut enc_two.
Proof. unfold enc_two. apply _. Qed.
#[export] Instance enc_two_nonempty : NonEmpty enc_two.
Proof. unfold enc_two. apply _. Qed.
#[export] Instance enc_kind_cut : SelfCut enc_kind.
Proof. by apply either_self_cut; [apply _..| |]. Qed.

Section hash_laws.
Context `{HL : YamlLeaves, !YamlText, HexDigest}.

Lemma parts_bytes_inj h h' : fits (parts_bytes h) → parts_bytes h = parts_bytes h' → h = h'.
Proof.
  set (enc := enc_pair len_prefixed (enc_pair (enc_list enc_two) (enc_pair (enc_list (enc_pair len_prefixed enc_two))
    (enc_pair (enc_list (enc_pair len_prefixed enc_kind)) (enc_pair (enc_list (enc_pair len_prefixed enc_two))
    (enc_pair (enc_list (enc_pair len_prefixed (enc_pair len_prefixed enc_two))) (enc_pair (enc_list enc_two)
    (enc_pair (enc_list enc_two) (enc_pair (enc_list enc_two) (enc_pair (enc_list enc_two) (enc_list enc_two))))))))))).
  set (fields h := (hp_agents_md h, (hp_files h, (hp_rules h, (hp_mcps h, (hp_plugins h, (hp_marketplaces h, (hp_native h,
    (hp_native_hooks h, (hp_native_plugins h, (hp_native_mcp h, hp_native_model_providers h))))))))))).
  change (fits (enc (fields h)) → enc (fields h) = enc (fields h') → h = h'). intros Hf E.
  assert (SelfCut enc) by (unfold enc; apply _). apply self_cut_inj in E; [|done].
  unfold fields in E. destruct h, h'. cbn in E. congruence.
Qed.

(** Two manifests with one content hash, each with the disk of its time, mix the same parts in, or
    SHA-256 has a collision. *)
Theorem same_hash_same_parts (fs fs' : FileSystem) m m' h :
  (∀ parts, @hash_parts _ _ fs m = Ok parts → fits (parts_bytes parts)) →
  @hash_manifest _ _ fs _ m = Ok h → @hash_manifest _ _ fs' _ m' = Ok h →
  (∃ x y : string, x ≠ y ∧ sha256_hex x = sha256_hex y) ∨ @hash_parts _ _ fs m = @hash_parts _ _ fs' m'.
Proof.
  unfold hash_manifest. intros Hf (parts & Hp & <-%ok_inj)%result_bind_ok (parts' & Hp' & E%ok_inj)%result_bind_ok.
  destruct (decide (parts_bytes parts = parts_bytes parts')) as [Eb|Hne]; [right|left; by exists (parts_bytes parts), (parts_bytes parts')].
  rewrite Hp, Hp'. f_equal. apply parts_bytes_inj; [by apply Hf|done].
Qed.
(** The hash does not see the rest of the manifest: the permissions, the hooks, the variables and
    the other capabilities without a [native_] map, and the other fields of a server. *)
Lemma hash_sees_parts `{FileSystem} m m' : hash_parts m = hash_parts m' → hash_manifest m = hash_manifest m'.
Proof. unfold hash_manifest. by intros ->. Qed.

Lemma in_order_inj a b : in_order a = in_order b → a = b.
Proof.
  intros E. apply set_eq. intros x. rewrite <- !elem_of_elements. unfold in_order in E.
  by rewrite <- (merge_sort_Permutation str_le (elements a)), E, merge_sort_Permutation.
Qed.
(** Two selections with one shape are equal, or the first twelve digits of SHA-256 collide. *)
Theorem same_shape_same_selection tags tags' bundles bundles' :
  fits (shape_bytes tags bundles) → shape tags bundles = shape tags' bundles' →
  (∃ x y : string, x ≠ y ∧ str_take 12 (sha256_hex x) = str_take 12 (sha256_hex y)) ∨ (tags = tags' ∧ bundles = bundles').
Proof.
  unfold shape. intros Hf E.
  destruct (decide (shape_bytes tags bundles = shape_bytes tags' bundles')) as [Eb|Hne]; [right|left; eauto].
  unfold shape_bytes in Eb, Hf. apply self_cut_inj in Eb; [|done]. injection Eb as Et Eu. split; by apply in_order_inj.
Qed.
End hash_laws.

(** Drift is reported exactly for a recorded hash that differs. *)
Lemma drift_iff booted current : is_drift (stale_status booted current) = true ↔ ∃ b, booted = Some b ∧ b ≠ current.
Proof. destruct booted as [b|]; cbn; [case_decide; naive_solver|naive_solver]. Qed.

(** ** Laws of a render *)

Section render_laws.
Context `{HC : !Codec CacheManifest, HL : !CodecLaws CacheManifest, HR : !DiskRights}.
Context (folder : string).
Hypothesis folder_named : folder ≠ "".

(** A relative path of plain names. *)
Definition plain_name (n : string) : Prop :=
  n ≠ "" ∧ n ≠ "." ∧ n ≠ ".." ∧ str_all (λ c, negb (is_slash c) && negb (Ascii.eqb c "\")) n = true.
Definition plain (rel : list string) : Prop := rel ≠ [] ∧ Forall plain_name rel.

Lemma plain_no_slash rel : plain rel → Forall (λ n, str_all (λ c, negb (is_slash c)) n = true) rel.
Proof.
  intros [_ H]. eapply Forall_impl; [exact H|]. intros n (_ & _ & _ & Hn). eapply str_all_impl; [|exact Hn].
  intros c Hc. by apply andb_true_iff in Hc as [? _].
Qed.
Lemma rel_parts rel : plain rel → split_on is_slash (rel_text rel) = rel.
Proof. intros H. unfold rel_text. change "/" with (chr "/"). apply split_on_join; [done|apply H|by apply plain_no_slash]. Qed.
Lemma plain_components rel : plain rel → (split_on is_slash (rel_text rel) ≫= component_of) = (Names.Normal <$> rel).
Proof.
  intros H. rewrite rel_parts by done. destruct H as [_ H]. induction H as [|n rel (N1 & N2 & N3 & _) _ IH]; [done|].
  rewrite bind_cons, IH. unfold component_of. by rewrite !decide_False by done.
Qed.
Lemma plain_relative rel : plain rel → is_absolute (rel_text rel) = false.
Proof.
  intros Hp. pose proof (rel_parts rel Hp) as Hs. destruct Hp as [Hne H]. destruct rel as [|n rel]; [done|].
  apply Forall_cons in H as [(N1 & _ & _ & Hn) _]. destruct n as [|c n]; [done|].
  unfold is_absolute, starts_with. assert (∃ t, rel_text (String c n :: rel) = String c t) as [t ->].
  { unfold rel_text. destruct rel; cbn; eauto. }
  cbn [strip_prefix]. cbn [str_all] in Hn. unfold is_slash in Hn. destruct (Ascii.eqb_spec c "/") as [->|Hc]; [done|].
  destruct (Ascii.eqb_spec "/" c) as [<-|]; [done|]. apply bool_decide_eq_false. by intros [].
Qed.
Lemma place_text rel : plain rel → components (path_join folder (rel_text rel)) = place folder rel.
Proof. intros Hp. by rewrite components_join, plain_components by (try apply plain_relative; done). Qed.
#[local] Instance place_inj : Inj (=) (=) (place folder).
Proof. intros a b E. apply app_inv_head in E. revert E. apply list_fmap_eq_inj. by intros ?? [= ->]. Qed.
Lemma rel_text_inj a b : plain a → plain b → rel_text a = rel_text b → a = b.
Proof. intros Ha Hb E. by rewrite <- (rel_parts a), <- (rel_parts b), E. Qed.

Definition listed (r : Render) : Prop := ∀ rel, is_Some (written r !! rel) → plain rel ∧ rel ≠ [MANIFEST_FILE].
(** The files of a render at their paths, with the dotfile. *)
Definition own (r : Render) : Disk := <[manifest_path folder := encode (manifest_of r)]> (kmap (place folder) (written r)).

Lemma manifest_place : manifest_path folder = place folder [MANIFEST_FILE].
Proof. apply (place_text [MANIFEST_FILE]). split; [done|]. constructor; [|done]. by repeat split. Qed.
Lemma write_files_union files d : write_files folder files d = kmap (place folder) files ∪ d.
Proof.
  unfold write_files. revert d. induction files as [|rel c files Hr Hf IH] using map_first_key_ind; intros d.
  - by rewrite map_fold_empty, kmap_empty, (left_id_L ∅ (∪)).
  - rewrite map_fold_insert_first_key by done. rewrite kmap_insert by apply _. rewrite IH.
    by rewrite insert_union_l.
Qed.
Lemma written_union r d :
  write_files folder {[[STATUS_FILE] := rn_status r]} (write_files folder (rn_adapter r) (write_files folder (rn_bundle r) d)) =
  kmap (place folder) (written r) ∪ d.
Proof.
  rewrite !write_files_union. unfold written. rewrite insert_union_singleton_l, !kmap_union by apply _.
  by rewrite <- !(assoc_L (∪)).
Qed.


Definition doomed (p : list component) (g : string) : Prop :=
  is_unsafe_join_target g = false ∧ components (path_join folder g) = p ∧ removable p = true.
#[local] Instance doomed_dec p g : Decision (doomed p g).
Proof. unfold doomed. apply _. Defined.

Lemma dotfile_unwritten r d : listed r → write_files folder (rn_bundle r) d !! manifest_path folder = d !! manifest_path folder.
Proof.
  intros Hl. rewrite write_files_union. apply lookup_union_r. rewrite manifest_place. apply lookup_kmap_None; [apply _|].
  intros rel <-%place_inj. destruct (rn_bundle r !! [MANIFEST_FILE]) eqn:E; [|done].
  assert (is_Some (written r !! [MANIFEST_FILE])) as [_ Hn]%Hl; [|done].
  unfold written. rewrite lookup_insert_ne, lookup_union_is_Some by done. right. by eexists.
Qed.
Hypothesis dotfile_free : readable (manifest_path folder) = true ∧ writable (manifest_path folder) = true.
(** A render of a folder without a dotfile, and one in strict mode, delete nothing. *)
Lemma render_adds r mode d : listed r → mode = Strict ∨ d !! manifest_path folder = None →
  render folder mode r d = (Ok tt, own r ∪ d).
Proof.
  intros Hl Hd. unfold render, read_manifest. destruct dotfile_free as [Hrd Hw]. rewrite dotfile_unwritten, written_union by done.
  assert (own r ∪ d = <[manifest_path folder := encode (manifest_of r)]> (kmap (place folder) (written r) ∪ d)) as ->.
  { unfold own. by rewrite insert_union_l. }
  unfold write_cache_manifest, write_manifest. rewrite Hw. by destruct Hd as [-> | ->]; [|destruct mode].
Qed.

(** ** A life of the folder: renders, and changes of the agent and of other programs *)




(** In strict mode two manifests that mix the same parts in share a folder, and the render of the
    second one keeps the files of the first one. *)
Theorem strict_keeps_ghosts prev r d : listed prev → listed r →
  ∀ p c, own prev !! p = Some c → own r !! p = None →
  (render folder Strict r (render folder Strict prev d).2).2 !! p = Some c.
Proof.
  intros Hl Hl' p c Hp Hn. rewrite !render_adds by auto. cbn [snd]. rewrite lookup_union, Hn, (left_id_L None (∪)).
  by apply lookup_union_Some_l.
Qed.
End render_laws.
