(* ===== verification/CacheSweep.v ===== *)
(** * Removal of old cache folders (src/materialize/cache.rs, cache/gc.rs, cache/gc_report.rs,
    cache/entries.rs, cache/mtime.rs, materialize/expiry.rs)

    [prune] removes the folders of other versions and [gc] the folders that no one has used for
    some time. A folder on disk is a tree that also says what cannot be listed or read; what a
    removal gives is the class [Removal]. *)

From S2P Require Import Prelude RustStr Names TaskStore ConfigSchema CacheFolder.

(** ** Trees on disk *)

(** Seconds since the epoch: the modification time and the change time. *)
Record Times := mkTimes { t_modified : Z; t_changed : Z }.
(** A folder is read to the end or with an error. The stat of an entry can fail; the entry was
    removed during the walk when the error is [NotFound]. *)
Inductive tree :=
| Leaf (link : bool) (t : Times)
| Folder (t : Times) (unreadable : option io_kind) (es : entries)
with entries :=
| NoMore
| BadEntry (e : io_kind) (es : entries)
| Entry (name : string) (unstat : option io_kind) (n : tree) (es : entries).
Scheme tree_mut := Induction for tree Sort Prop
with entries_mut := Induction for entries Sort Prop.
Combined Scheme tree_entries_ind from tree_mut, entries_mut.
Definition tree_times (n : tree) : Times := match n with Leaf _ t => t | Folder t _ _ => t end.

(** ** Ages (expiry.rs, mtime.rs) *)

Inductive AgeSource := MtimeOnly | MtimeOrCtime.
Record AgeRule := mkRule { older_than : Z; source : AgeSource }.
Definition age_rule (older : Z) : AgeRule := mkRule older MtimeOrCtime.
(** [duration_since] fails for a time in the future. *)
Definition is_expired (now mtime older : Z) : bool := bool_decide (mtime ≤ now)%Z && bool_decide (older < now - mtime)%Z.
Definition file_stamp (age : AgeSource) (t : Times) : Z :=
  match age with MtimeOnly => t_modified t | MtimeOrCtime => Z.max (t_modified t) (t_changed t) end.

Record Newest := mkNewest { nw_any : Z; nw_non_dir : option Z }.
Definition seen_any (n : Newest) (stamp : Z) : Newest := mkNewest (Z.max (nw_any n) stamp) (nw_non_dir n).
Definition seen_non_dir (n : Newest) (stamp : Z) : Newest :=
  mkNewest (nw_any n) (Some (match nw_non_dir n with Some m => Z.max m stamp | None => stamp end)).
(** [walk_mtime]: the entries of a folder, and the folder itself when it is below another one. *)
Fixpoint walk_mtime (age : AgeSource) (es : entries) (newest : Newest) : result io_kind Newest :=
  match es with
  | NoMore => Ok newest
  | BadEntry e _ => Err e
  | Entry _ (Some NotFound) _ es => walk_mtime age es newest
  | Entry _ (Some e) _ _ => Err e
  | Entry _ None n es =>
    let stamp := file_stamp age (tree_times n) in
    newest ← walk_tree age n stamp (seen_any newest stamp);
    walk_mtime age es newest
  end
with walk_tree (age : AgeSource) (n : tree) (stamp : Z) (newest : Newest) : result io_kind Newest :=
  match n with
  | Leaf _ _ => Ok (seen_non_dir newest stamp)
  | Folder _ (Some NotFound) _ => Ok newest
  | Folder _ (Some e) _ => Err e
  | Folder _ None es => walk_mtime age es newest
  end.
(** [newest_file_mtime], of a folder. *)
Definition newest_file_mtime (age : AgeSource) (n : tree) : result io_kind Z :=
  let any := file_stamp age (tree_times n) in
  newest ← match n with Folder _ _ _ => walk_tree age n any (mkNewest any None) | Leaf _ _ => Err OtherIo end;
  Ok (default (nw_any newest) (nw_non_dir newest)).

(** ** Reports and removals *)

Inductive cause := CannotReadEntry (e : io_kind) | CannotReadType (e : io_kind) | CannotScan (e : io_kind) | CannotRemove (e : io_kind)
  | CannotSweep (e : io_kind).
(** [GcReport] and [PruneReport]. *)
Record GcReport := mkReport { removed : list string; kept : nat; failed : gmap string cause }.
Definition empty_report : GcReport := mkReport [] 0 ∅.
Definition record_failure (path : string) (c : cause) (r : GcReport) : GcReport :=
  mkReport (removed r) (kept r) (match failed r !! path with Some _ => failed r | None => <[path := c]> (failed r) end).
Definition count_kept (r : GcReport) : GcReport := mkReport (removed r) (S (kept r)) (failed r).
Definition add_removed (path : string) (r : GcReport) : GcReport := mkReport (removed r ++ [path]) (kept r) (failed r).

(** What [remove_dir_all_forcing_writable] and [remove_file] give. *)
Class Removal := { remove_tree : string → result io_kind unit; unlink : string → result io_kind unit }.
Definition skip_vanished {A} (r : result io_kind A) : result io_kind (option A) :=
  match r with Ok v => Ok (Some v) | Err NotFound => Ok None | Err e => Err e end.
Definition gc_remove (dry_run : bool) (path : string) (remove : string → result io_kind unit) (r : GcReport) : GcReport :=
  if dry_run then add_removed path r
  else match skip_vanished (remove path) with Ok _ => add_removed path r | Err e => record_failure path (CannotRemove e) r end.

(** ** The sweep *)

Definition STATE_DIR_NAME : string := "state".
(** [p.extension() == "tmp"]. *)
Definition has_tmp_extension (name : string) : bool :=
  match rsplit_once "." name with Some (stem, ext) => negb (bool_decide (stem = "")) && bool_decide (ext = "tmp") | None => false end.

Section sweep.
Context `{Removal} (VERSION_TAG PKG_VERSION : string).

Definition is_current_name (name : string) (hashing : HashingMode) (current_version : option string) : bool :=
  match hashing with
  | Loose => true
  | ConfigSchema.Normal => bool_decide (current_version = Some name)
  | Strict => starts_with (VERSION_TAG +:+ "-") name
  end.

Section gc.
Context (rule : AgeRule) (dry_run : bool) (now : Z).

(** [newest_file_mtime_or_record] with the two outcomes that follow it. *)
Definition by_age (path : string) (n : tree) (r : GcReport) (expired fresh : GcReport → GcReport) : GcReport :=
  match newest_file_mtime (source rule) n with
  | Ok m => if is_expired now m (older_than rule) then expired r else fresh r
  | Err NotFound => r
  | Err e => record_failure path (CannotScan e) r
  end.
Definition collect_if_expired (path name : string) (n : tree) (r : GcReport) : GcReport :=
  if has_tmp_extension name then gc_remove dry_run path remove_tree r
  else if decide (name = STATE_DIR_NAME) then count_kept r
  else by_age path n r (gc_remove dry_run path remove_tree) count_kept.

(** A walk over the entries of [dir]: an entry that cannot be read is recorded, the others go to
    [step]. *)
Fixpoint walk_entries (dir : string) (step : string → string → tree → GcReport → GcReport) (es : entries) (r : GcReport) : GcReport :=
  match es with
  | NoMore => r
  | BadEntry e es => walk_entries dir step es (record_failure dir (CannotReadEntry e) r)
  | Entry name unstat n es =>
    let path := path_join dir name in
    walk_entries dir step es
      match unstat with
      | None => step path name n r
      | Some NotFound => r
      | Some e => record_failure path (CannotReadType e) r
      end
  end.
Definition shape_step (path name : string) (n : tree) (r : GcReport) : GcReport :=
  match n with Leaf _ _ => count_kept r | Folder _ _ _ => collect_if_expired path name n r end.
Definition gc_normal_shapes (version_dir : string) (unreadable : option io_kind) (es : entries) (r : GcReport)
  : result io_kind GcReport :=
  match unreadable with
  | Some NotFound => Ok r
  | Some e => Err e
  | None => Ok (walk_entries version_dir shape_step es r)
  end.
Definition gc_step (hashing : HashingMode) (path name : string) (n : tree) (r : GcReport) : GcReport :=
  match n with
  | Leaf true _ => gc_remove dry_run path unlink r
  | Leaf false _ => count_kept r
  | Folder _ unreadable es =>
    let current := match hashing with ConfigSchema.Normal => Some (version_major PKG_VERSION) | _ => None end in
    let is_generation := match hashing with ConfigSchema.Normal => is_current_name name hashing current | _ => false end in
    if is_generation then
      match gc_normal_shapes path unreadable es r with Ok r => r | Err e => record_failure path (CannotSweep e) r end
    else collect_if_expired path name n r
  end.
(** [read_dir_optional] of the root. *)
Definition root_entries (root : result io_kind tree) : result io_kind entries :=
  match root with
  | Err NotFound | Ok (Folder _ (Some NotFound) _) => Ok NoMore
  | Err e | Ok (Folder _ (Some e) _) => Err e
  | Ok (Leaf _ _) => Err OtherIo
  | Ok (Folder _ None es) => Ok es
  end.
Definition gc (cache_root : string) (root : result io_kind tree) (hashing : HashingMode) : result io_kind GcReport :=
  es ← root_entries root; Ok (walk_entries cache_root (gc_step hashing) es empty_report).
End gc.

(** ** Pruning *)

Inductive PruneMode := All | OlderThan (rule : AgeRule) | StaleOnly.
Definition prune_step (mode : PruneMode) (hashing : HashingMode) (current_version : option string) (dry_run : bool) (now : Z)
    (path name : string) (n : tree) (r : GcReport) : GcReport :=
  match n with
  | Leaf true _ => gc_remove dry_run path unlink r
  | Leaf false _ => count_kept r
  | Folder _ _ _ =>
    let remove := gc_remove dry_run path remove_tree in
    if has_tmp_extension name then remove r
    else if decide (name = STATE_DIR_NAME) then count_kept r
    else
      let current := is_current_name name hashing current_version in
      match mode with
      | All => remove r
      | StaleOnly => if current then count_kept r else remove r
      | OlderThan rule => if current then by_age rule now path n r remove count_kept else count_kept r
      end
  end.
Definition prune (cache_root : string) (root : result io_kind tree) (mode : PruneMode) (hashing : HashingMode)
    (current_version : option string) (dry_run : bool) (now : Z) : result io_kind GcReport :=
  es ← root_entries root; Ok (walk_entries cache_root (prune_step mode hashing current_version dry_run now) es empty_report).
End sweep.

(** ** The age of a tree *)

(** The stamps of the files and links of a tree that can be seen, and of its folders. *)
Fixpoint file_stamps (age : AgeSource) (es : entries) : list Z :=
  match es with
  | NoMore => []
  | BadEntry _ es | Entry _ (Some _) _ es => file_stamps age es
  | Entry _ None n es => files_of age n ++ file_stamps age es
  end
with files_of (age : AgeSource) (n : tree) : list Z :=
  match n with
  | Leaf _ t => [file_stamp age t]
  | Folder _ None es => file_stamps age es
  | Folder _ (Some _) _ => []
  end.
Fixpoint all_stamps (age : AgeSource) (es : entries) : list Z :=
  match es with
  | NoMore => []
  | BadEntry _ es | Entry _ (Some _) _ es => all_stamps age es
  | Entry _ None n es => stamps_of age n ++ all_stamps age es
  end
with stamps_of (age : AgeSource) (n : tree) : list Z :=
  file_stamp age (tree_times n) :: match n with Folder _ None es => all_stamps age es | _ => [] end.
(** The stamps that judge a folder: those of its files, or all when it has none. *)
Definition judged (age : AgeSource) (n : tree) : list Z :=
  match files_of age n with [] => stamps_of age n | files => files end.
Definition unused (rule : AgeRule) (now : Z) (n : tree) : Prop :=
  Forall (λ s, (s ≤ now)%Z ∧ (older_than rule < now - s)%Z) (judged (source rule) n).

Definition greatest (m : Z) (l : list Z) : Prop := m ∈ l ∧ Forall (λ s, (s ≤ m)%Z) l.
Definition tracks (n n' : Newest) (any files : list Z) : Prop :=
  greatest (nw_any n') (nw_any n :: any) ∧
  match nw_non_dir n' with
  | Some m => greatest m (match nw_non_dir n with Some k => [k] | None => [] end ++ files)
  | None => nw_non_dir n = None ∧ files = []
  end.
Lemma greatest_app m k l l' : greatest m l → greatest k (m :: l') → greatest k (l ++ l').
Proof.
  intros [Hm Hl] [Hk Hl']. apply Forall_cons in Hl' as [Hmk Hl']. split.
  - rewrite elem_of_app. apply elem_of_cons in Hk as [->|Hk]; [by left|by right].
  - apply Forall_app. split; [|done]. eapply Forall_impl; [exact Hl|]. cbn. lia.
Qed.
Lemma tracks_trans n1 n2 n3 a a' f f' : tracks n1 n2 a f → tracks n2 n3 a' f' → tracks n1 n3 (a ++ a') (f ++ f').
Proof.
  intros [Ha Hf] [Ha' Hf']. split; [exact (greatest_app _ _ _ _ Ha Ha')|].
  destruct (nw_non_dir n3) as [m|].
  - destruct (nw_non_dir n2) as [k|]; [|destruct Hf as [-> ->]; exact Hf']. rewrite app_assoc.
    exact (greatest_app _ _ _ _ Hf Hf').
  - destruct Hf' as [E ->]. rewrite E in Hf. destruct Hf as [-> ->]. done.
Qed.
Lemma tracks_refl n : tracks n n [] [].
Proof.
  split; [by split; [left|repeat constructor]|]. destruct (nw_non_dir n) as [m|]; [|done].
  split; [by left|by repeat constructor].
Qed.
Lemma tracks_any n s : tracks n (seen_any n s) [s] [].
Proof.
  split; cbn; [|rewrite ?app_nil_r; destruct (nw_non_dir n) as [m|]; [split; [by left|by repeat constructor]|done]].
  split; [|repeat constructor; lia]. destruct (Z.max_spec (nw_any n) s) as [[_ ->]|[_ ->]]; [right; by left|by left].
Qed.
Lemma tracks_non_dir n s : tracks n (seen_non_dir n s) [] [s].
Proof.
  split; [split; [by left|by repeat constructor]|]. cbn. destruct (nw_non_dir n) as [m|]; cbn; [|split; [by left|by repeat constructor]].
  split; [|repeat constructor; lia]. destruct (Z.max_spec m s) as [[_ ->]|[_ ->]]; [right; by left|by left].
Qed.
Lemma walk_tracks age :
  (∀ n st newest newest', walk_tree age n st newest = Ok newest' →
     (match n with Leaf _ t => st = file_stamp age t | _ => True end) → tracks newest newest' (tail (stamps_of age n)) (files_of age n)) ∧
  (∀ es newest newest', walk_mtime age es newest = Ok newest' → tracks newest newest' (all_stamps age es) (file_stamps age es)).
Proof.
  apply tree_entries_ind.
  - intros link t st newest newest' [= <-] ->. apply tracks_non_dir.
  - intros t [e|] es IH st newest newest' E _; [|by apply IH]. destruct e; try done. injection E as <-. apply tracks_refl.
  - intros newest newest' [= <-]. apply tracks_refl.
  - done.
  - intros name [e|] n IHn es IHes newest newest' E.
    + destruct e; try done. by apply IHes.
    + cbn [walk_mtime] in E. apply result_bind_ok in E as (mid & Em & E). apply IHes in E.
      apply IHn in Em; [|by destruct n].
      pose proof (tracks_trans _ _ _ _ _ _ _ (tracks_any newest (file_stamp age (tree_times n))) Em) as Hn.
      assert (all_stamps age (Entry name None n es) = ([file_stamp age (tree_times n)] ++ tail (stamps_of age n)) ++ all_stamps age es)
        as -> by (by destruct n).
      exact (tracks_trans _ _ _ _ _ _ _ Hn E).
Qed.
Lemma newest_greatest age t u es m : newest_file_mtime age (Folder t u es) = Ok m → greatest m (judged age (Folder t u es)).
Proof.
  unfold newest_file_mtime. intros (newest & E & [= <-])%result_bind_ok. apply walk_tracks in E as [Ha Hf]; [|done].
  unfold judged. cbn [nw_any nw_non_dir] in *. destruct (nw_non_dir newest) as [m|].
  - cbn [default app] in *. by destruct (files_of age (Folder t u es)); [destruct Hf as [Hf _]; inversion Hf|].
  - destruct Hf as [_ ->]. exact Ha.
Qed.
Lemma expired_iff rule now t u es m : newest_file_mtime (source rule) (Folder t u es) = Ok m →
  is_expired now m (older_than rule) = true ↔ unused rule now (Folder t u es).
Proof.
  intros [Hm Hall]%newest_greatest. unfold is_expired, unused. rewrite andb_true_iff, !bool_decide_eq_true. split.
  - intros H. eapply Forall_impl; [exact Hall|]. cbn. lia.
  - rewrite Forall_forall. intros H. by apply H.
Qed.

(** ** The fate of each entry

    A pass decides what to do with each entry, whatever the removals give; the report follows. *)

Inductive fate := Removes (link : bool) | Keeps | Fails (c : cause) | Gone.
#[export] Instance cause_eq_dec : EqDecision cause.
Proof. solve_decision. Defined.
#[export] Instance fate_eq_dec : EqDecision fate.
Proof. solve_decision. Defined.
Section fates.
Context `{Removal} (VERSION_TAG PKG_VERSION : string).

Definition settle (dry_run : bool) (r : GcReport) (x : string * fate) : GcReport :=
  match x.2 with
  | Removes link => gc_remove dry_run x.1 (if link then unlink else remove_tree) r
  | Keeps => count_kept r
  | Fails c => record_failure x.1 c r
  | Gone => r
  end.
Definition removal_of (x : string * fate) : option (result io_kind unit) :=
  match x.2 with Removes link => Some ((if link then unlink else remove_tree) x.1) | _ => None end.
(** The removal is not tried, or it succeeds, or the entry is gone already. *)
Definition goes (dry_run : bool) (x : string * fate) : bool :=
  match removal_of x with
  | Some (Ok _) | Some (Err NotFound) => true
  | Some _ => dry_run
  | None => false
  end.
Definition fails (dry_run : bool) (x : string * fate) : bool :=
  match x.2 with Fails _ => true | Removes _ => negb (goes dry_run x) | _ => false end.
Lemma settle_fields dry_run x r :
  removed (settle dry_run r x) = removed r ++ (if goes dry_run x then [x.1] else []) ∧
  kept (settle dry_run r x) = kept r + (match x.2 with Keeps => 1 | _ => 0 end) ∧
  dom (failed (settle dry_run r x)) = dom (failed r) ∪ (if fails dry_run x then {[x.1]} else ∅).
Proof.
  destruct x as [p f]. unfold settle, fails, goes, removal_of. cbn [fst snd].
  assert (Hf : ∀ c, dom (failed (record_failure p c r)) = dom (failed r) ∪ {[p]}).
  { intros c. unfold record_failure. cbn. destruct (failed r !! p) eqn:E; [|by rewrite dom_insert_L, (comm_L (∪))].
    apply elem_of_dom_2 in E. set_solver. }
  destruct f as [link| |c|]; cbn; rewrite ?app_nil_r, ?Nat.add_0_r, ?(right_id_L ∅ (∪)); try done.
  - unfold gc_remove, skip_vanished. destruct dry_run.
    + destruct ((if link then unlink else remove_tree) p) as [|[]]; cbn; by rewrite ?(right_id_L ∅ (∪)).
    + destruct ((if link then unlink else remove_tree) p) as [|[]]; cbn; rewrite ?app_nil_r, ?(right_id_L ∅ (∪)); try done;
        split_and!; try done; apply (Hf (CannotRemove _)).
  - split_and!; [done|lia|done].
  - split_and!; [done|done|apply Hf].
Qed.
Lemma settled_fields dry_run l r :
  removed (foldl (settle dry_run) r l) = removed r ++ (filter (λ x, goes dry_run x = true) l).*1 ∧
  kept (foldl (settle dry_run) r l) = kept r + length (filter (λ x, x.2 = Keeps) l) ∧
  dom (failed (foldl (settle dry_run) r l)) = dom (failed r) ∪ list_to_set (filter (λ x, fails dry_run x = true) l).*1.
Proof.
  revert r. induction l as [|x l IH]; intros r; cbn [foldl].
  { cbn. by rewrite app_nil_r, Nat.add_0_r, (right_id_L ∅ (∪)). }
  destruct (IH (settle dry_run r x)) as (-> & -> & ->). destruct (settle_fields dry_run x r) as (-> & -> & ->).
  rewrite !filter_cons. split_and!.
  - rewrite <- app_assoc. f_equal. destruct (goes dry_run x); [by rewrite decide_True|by rewrite decide_False].
  - case_decide as E; [rewrite E; cbn [length]; lia|destruct (x.2); cbn [length]; congruence || lia].
  - rewrite <- (assoc_L (∪)). f_equal. destruct (fails dry_run x).
    + by rewrite decide_True.
    + by rewrite decide_False, (left_id_L ∅ (∪)).
Qed.

Section gc_fates.
Context (now : Z).
Definition age_fate (rule : AgeRule) (n : tree) : fate :=
  match newest_file_mtime (source rule) n with
  | Ok m => if is_expired now m (older_than rule) then Removes false else Keeps
  | Err NotFound => Gone
  | Err e => Fails (CannotScan e)
  end.
Definition folder_fate (rule : AgeRule) (name : string) (n : tree) : fate :=
  if has_tmp_extension name then Removes false else if decide (name = STATE_DIR_NAME) then Keeps else age_fate rule n.
Fixpoint entry_fates (dir : string) (f : string → string → tree → list (string * fate)) (es : entries) : list (string * fate) :=
  match es with
  | NoMore => []
  | BadEntry e es => (dir, Fails (CannotReadEntry e)) :: entry_fates dir f es
  | Entry name unstat n es =>
    let path := path_join dir name in
    match unstat with
    | None => f path name n
    | Some NotFound => [(path, Gone)]
    | Some e => [(path, Fails (CannotReadType e))]
    end ++ entry_fates dir f es
  end.
Definition shape_fates (rule : AgeRule) (path name : string) (n : tree) : list (string * fate) :=
  [(path, match n with Leaf _ _ => Keeps | Folder _ _ _ => folder_fate rule name n end)].
Definition is_generation (hashing : HashingMode) (name : string) : bool :=
  match hashing with ConfigSchema.Normal => bool_decide (name = version_major PKG_VERSION) | _ => false end.
Definition gc_fates (rule : AgeRule) (hashing : HashingMode) (path name : string) (n : tree) : list (string * fate) :=
  match n with
  | Leaf link _ => [(path, if link then Removes true else Keeps)]
  | Folder _ unreadable es =>
    if is_generation hashing name then
      match unreadable with
      | Some NotFound => []
      | Some e => [(path, Fails (CannotSweep e))]
      | None => entry_fates path (shape_fates rule) es
      end
    else [(path, folder_fate rule name n)]
  end.
Definition prune_fate (mode : PruneMode) (hashing : HashingMode) (current_version : option string) (name : string) (n : tree) : fate :=
  match n with
  | Leaf link _ => if link then Removes true else Keeps
  | Folder _ _ _ =>
    if has_tmp_extension name then Removes false
    else if decide (name = STATE_DIR_NAME) then Keeps
    else
      match mode, is_current_name VERSION_TAG name hashing current_version with
      | All, _ | StaleOnly, false => Removes false
      | OlderThan rule, true => age_fate rule n
      | _, _ => Keeps
      end
  end.

Lemma walk_settles dry_run dir step f es r : (∀ path name n r, step path name n r = foldl (settle dry_run) r (f path name n)) →
  walk_entries dir step es r = foldl (settle dry_run) r (entry_fates dir f es).
Proof.
  intros Hs. revert r. induction es as [|e es IH|name unstat n es IH]; intros r; cbn [walk_entries entry_fates]; [done|apply IH|].
  rewrite foldl_app, IH. f_equal. destruct unstat as [[]|]; [done..|apply Hs].
Qed.
Lemma age_settles dry_run rule path n r :
  by_age rule now path n r (gc_remove dry_run path remove_tree) count_kept = settle dry_run r (path, age_fate rule n).
Proof.
  unfold by_age, age_fate. destruct (newest_file_mtime _ n) as [m|e]; [by destruct (is_expired _ _ _)|by destruct e].
Qed.
Lemma folder_settles dry_run rule path name n r :
  collect_if_expired rule dry_run now path name n r = settle dry_run r (path, folder_fate rule name n).
Proof.
  unfold collect_if_expired, folder_fate. destruct (has_tmp_extension name); [done|]. case_decide; [done|]. apply age_settles.
Qed.
(** The two passes are passes over verdicts that do not depend on the removals. *)
Lemma gc_settles dry_run rule root es hashing : root_entries root = Ok es → ∀ cache_root,
  gc VERSION_TAG PKG_VERSION rule dry_run now cache_root root hashing = Ok (foldl (settle dry_run) empty_report (entry_fates cache_root (gc_fates rule hashing) es)).
Proof.
  intros E cache_root. unfold gc. rewrite E. cbn. f_equal. apply walk_settles. clear. intros path name n r.
  destruct n as [[] t|t unreadable es]; [done..|]. cbn [gc_step gc_fates]. unfold is_generation, is_current_name.
  assert (Hg : ∀ version : option string, bool_decide (version = Some name) = bool_decide (Some name = version)).
  { intros version. by apply bool_decide_ext. }
  destruct hashing; [apply folder_settles| |apply folder_settles]. rewrite Hg.
  rewrite (bool_decide_ext (Some name = Some (version_major PKG_VERSION)) (name = version_major PKG_VERSION)) by naive_solver.
  destruct (bool_decide _); [|apply folder_settles]. unfold gc_normal_shapes. destruct unreadable as [[]|]; [done..|].
  apply walk_settles. clear. intros path' name n r. destruct n; [done|apply folder_settles].
Qed.
Lemma prune_settles dry_run root es mode hashing version : root_entries root = Ok es → ∀ cache_root,
  prune VERSION_TAG cache_root root mode hashing version dry_run now =
  Ok (foldl (settle dry_run) empty_report
    (entry_fates cache_root (λ path name n, [(path, prune_fate mode hashing version name n)]) es)).
Proof.
  intros E cache_root. unfold prune. rewrite E. cbn. f_equal. apply walk_settles. clear. intros path name n r.
  destruct n as [[] t|t unreadable es]; [done..|]. cbn [prune_step prune_fate foldl].
  destruct (has_tmp_extension name); [done|]. case_decide; [done|].
  destruct mode as [|rule|], (is_current_name VERSION_TAG name hashing version); try done. apply age_settles.
Qed.

(** ** What goes *)

Fixpoint visible (es : entries) : list (string * tree) :=
  match es with
  | NoMore => []
  | BadEntry _ es | Entry _ (Some _) _ es => visible es
  | Entry name None n es => (name, n) :: visible es
  end.
Definition is_folder (n : tree) : bool := match n with Folder _ _ _ => true | Leaf _ _ => false end.
Definition old (rule : AgeRule) (n : tree) : Prop := (∃ m, newest_file_mtime (source rule) n = Ok m) ∧ unused rule now n.
(** A link, a staging folder, or a folder that is not the state folder and that no one used. *)
Definition collectable (rule : AgeRule) (name : string) (n : tree) : Prop :=
  match n with
  | Leaf link _ => link = true
  | Folder _ _ _ => has_tmp_extension name = true ∨ name ≠ STATE_DIR_NAME ∧ old rule n
  end.
Definition gc_target (rule : AgeRule) (hashing : HashingMode) (dir : string) (es : entries) (p : string) : Prop :=
  (∃ name n, (name, n) ∈ visible es ∧ is_folder n && is_generation hashing name = false ∧ collectable rule name n ∧
     p = path_join dir name) ∨
  (∃ gen t es' name n, (gen, Folder t None es') ∈ visible es ∧ is_generation hashing gen = true ∧ (name, n) ∈ visible es' ∧
     is_folder n = true ∧ collectable rule name n ∧ p = path_join (path_join dir gen) name).
Definition prunable (mode : PruneMode) (hashing : HashingMode) (version : option string) (name : string) (n : tree) : Prop :=
  match n with
  | Leaf link _ => link = true
  | Folder _ _ _ =>
    has_tmp_extension name = true ∨
    name ≠ STATE_DIR_NAME ∧
    match mode with
    | All => True
    | StaleOnly => is_current_name VERSION_TAG name hashing version = false
    | OlderThan rule => is_current_name VERSION_TAG name hashing version = true ∧ old rule n
    end
  end.

Definition goner (x : string * fate) : Prop := ∃ link, x.2 = Removes link.
Lemma visible_fates dir g es p link :
  (p, Removes link) ∈ entry_fates dir g es ↔ ∃ name n, (name, n) ∈ visible es ∧ (p, Removes link) ∈ g (path_join dir name) name n.
Proof.
  induction es as [|e es IH|name unstat n es IH]; cbn [entry_fates visible].
  - split; [by intros ?%not_elem_of_nil|by intros (? & ? & ?%not_elem_of_nil & _)].
  - rewrite elem_of_cons, IH. naive_solver.
  - rewrite elem_of_app, IH. destruct unstat as [e|].
    + assert (Hn : ¬ (p, Removes link) ∈ match e with NotFound => [(path_join dir name, Gone)]
        | _ => [(path_join dir name, Fails (CannotReadType e))] end) by (by destruct e; intros ?%list_elem_of_singleton).
      naive_solver.
    + setoid_rewrite elem_of_cons. split.
      * intros [?|(m & k & ? & ?)]; [by exists name, n; auto|by exists m, k; auto].
      * intros (m & k & [[= -> ->]|?] & ?); [by left|right; by exists m, k].
Qed.
Lemma age_goes rule t u es link : age_fate rule (Folder t u es) = Removes link ↔ link = false ∧ old rule (Folder t u es).
Proof.
  unfold age_fate, old. destruct (newest_file_mtime _ _) as [m|e] eqn:E.
  - rewrite <- (expired_iff rule now t u es m E). destruct (is_expired _ _ _); naive_solver.
  - split; [by destruct e|]. by intros (_ & [m Hm] & _).
Qed.
Lemma folder_goes rule name t u es link :
  folder_fate rule name (Folder t u es) = Removes link ↔ link = false ∧ collectable rule name (Folder t u es).
Proof.
  unfold folder_fate. cbn [collectable]. destruct (has_tmp_extension name); [naive_solver|].
  case_decide; [naive_solver|]. rewrite age_goes. naive_solver.
Qed.
Lemma prune_goes mode hashing version name n :
  (∃ link, prune_fate mode hashing version name n = Removes link) ↔ prunable mode hashing version name n.
Proof.
  destruct n as [[] t|t u es]; [naive_solver..|]. cbn [prune_fate prunable].
  destruct (has_tmp_extension name); [naive_solver|]. case_decide; [naive_solver|].
  destruct mode as [|rule|], (is_current_name VERSION_TAG name hashing version); try naive_solver.
  setoid_rewrite age_goes. naive_solver.
Qed.
Lemma gc_goes rule hashing dir es p :
  (∃ link, (p, Removes link) ∈ entry_fates dir (gc_fates rule hashing) es) ↔ gc_target rule hashing dir es p.
Proof.
  setoid_rewrite visible_fates. split.
  - intros (link & name & n & Hv & Hg). destruct n as [[] t|t u es']; cbn [gc_fates] in Hg.
    + apply list_elem_of_singleton in Hg as [= -> ->]. left. by exists name, (Leaf true t).
    + by apply list_elem_of_singleton in Hg.
    + destruct (is_generation hashing name) eqn:Eg.
      * destruct u as [e|]; [exfalso; destruct e; first [by apply not_elem_of_nil in Hg|by apply list_elem_of_singleton in Hg]|].
        apply visible_fates in Hg as (shape & k & Hk & Hs). apply list_elem_of_singleton in Hs as [= -> Ef].
        destruct k as [l tk|tk uk esk]; [done|]. right. exists name, t, es', shape, (Folder tk uk esk).
        symmetry in Ef. apply folder_goes in Ef as [_ Ef]. done.
      * apply list_elem_of_singleton in Hg as [= -> Ef]. symmetry in Ef. apply folder_goes in Ef as [_ Ef].
        left. exists name, (Folder t u es'). by rewrite Eg.
  - intros [(name & n & Hv & Hg & Hc & ->)|(gen & t & es' & name & n & Hv & Hg & Hn & Hf & Hc & ->)].
    + destruct n as [l t|t u es'].
      * cbn in Hc. subst l. exists true, name, (Leaf true t). split; [done|]. by left.
      * exists false, name, (Folder t u es'). split; [done|]. cbn [gc_fates]. cbn in Hg. rewrite Hg.
        apply list_elem_of_singleton. f_equal. symmetry. by apply folder_goes.
    + exists false, gen, (Folder t None es'). split; [done|]. cbn [gc_fates]. rewrite Hg. apply visible_fates.
      exists name, n. split; [done|]. apply list_elem_of_singleton. f_equal. destruct n; [done|]. symmetry. by apply folder_goes.
Qed.

(** ** What the reports say *)

(** A preview of a pass and the pass itself agree: every path of the preview is removed, or it is
    reported with its cause, and nothing else is removed. *)
Definition agree (target : string → Prop) (preview real : GcReport) : Prop :=
  (∀ p, p ∈ removed preview ↔ target p) ∧ (∀ p, p ∈ removed real → target p) ∧
  (∀ p, target p → p ∈ removed real ∨ p ∈ dom (failed real)) ∧ kept preview = kept real.
Lemma pass_agrees target r l : removed r = [] → (∀ p, (∃ link, (p, Removes link) ∈ l) ↔ target p) →
  agree target (foldl (settle true) r l) (foldl (settle false) r l).
Proof.
  intros Hr Ht. destruct (settled_fields true l r) as (Er & Ek & _), (settled_fields false l r) as (Er' & Ek' & Ef').
  unfold agree. rewrite Er, Er', Ek, Ek', Ef', Hr. cbn [app].
  assert (Hin : ∀ dry p, p ∈ (filter (λ x, goes dry x = true) l).*1 ↔ ∃ f, goes dry (p, f) = true ∧ (p, f) ∈ l).
  { intros dry p. rewrite list_elem_of_fmap. setoid_rewrite list_elem_of_filter. split; [intros ([q f] & -> & ? & ?); eauto|].
    intros (f & ? & ?). by exists (p, f). }
  assert (Hgo : ∀ dry p f, goes dry (p, f) = true → ∃ link, f = Removes link) by (intros ? ? []; cbn; eauto; done).
  assert (Hpre : ∀ p link, goes true (p, Removes link) = true).
  { intros p link. unfold goes, removal_of. cbn. by destruct (_ p) as [|[]]. }
  setoid_rewrite Hin. split_and!; [..|done].
  - intros p. rewrite <- Ht. split; [intros (f & [link ->]%Hgo & ?); eauto|intros [link ?]; eauto].
  - intros p (f & [link ->]%Hgo & ?). apply Ht. eauto.
  - intros p [link Hl]%Ht. destruct (goes false (p, Removes link)) eqn:E; [left; eauto|right].
    apply elem_of_union_r, elem_of_list_to_set, list_elem_of_fmap. exists (p, Removes link). split; [done|]. apply list_elem_of_filter.
    split; [|done]. change (negb (goes false (p, Removes link)) = true). by rewrite E.
Qed.

(** C24: the age sweep of a folder removes exactly its links, its staging folders, and its folders that
    no one used for longer than the rule says, where the folder of the current generation is
    replaced by the folders in it; a folder is used when any file in it is new, and a folder with
    the name of the state folder is kept. A preview lists what a real run removes or reports. *)
Theorem gc_correct rule cache_root root es hashing : root_entries root = Ok es →
  ∃ preview real,
    gc VERSION_TAG PKG_VERSION rule true now cache_root root hashing = Ok preview ∧
    gc VERSION_TAG PKG_VERSION rule false now cache_root root hashing = Ok real ∧
    agree (gc_target rule hashing cache_root es) preview real.
Proof.
  intros E. eexists _, _. rewrite !(gc_settles _ _ _ _ _ E). split_and!; [done..|]. apply pass_agrees; [done|]. intros p. apply gc_goes.
Qed.
(** Pruning removes exactly the links, the staging folders, and the folders that the mode names:
    all, those of other versions, or those of this version that no one used; never the state
    folder. *)
Theorem prune_correct mode cache_root root es hashing version : root_entries root = Ok es →
  ∃ preview real,
    prune VERSION_TAG cache_root root mode hashing version true now = Ok preview ∧
    prune VERSION_TAG cache_root root mode hashing version false now = Ok real ∧
    agree (λ p, ∃ name n, (name, n) ∈ visible es ∧ prunable mode hashing version name n ∧ p = path_join cache_root name)
      preview real.
Proof.
  intros E. eexists _, _. rewrite !(prune_settles _ _ _ _ _ _ E). split_and!; [done..|]. apply pass_agrees; [done|]. intros p.
  setoid_rewrite visible_fates. setoid_rewrite list_elem_of_singleton. setoid_rewrite <- prune_goes. split.
  - intros (link & name & n & Hv & [= -> Hf]). exists name, n. split_and!; [done|by exists link|done].
  - intros (name & n & Hv & [link Hl] & ->). exists link, name, n. by rewrite Hl.
Qed.
End gc_fates.
End fates.

(** The sweep of the command runs on the folder above those of the adapters. An adapter folder that
    no one used goes with the state folder in it, whatever the hashing mode. *)
Definition old_file (t : Z) : tree := Leaf false (mkTimes t t).
Definition old_cache : result io_kind tree :=
  Ok (Folder (mkTimes 0 0) None
    (Entry "claude-code" None
      (Folder (mkTimes 0 0) None
        (Entry "2" None (Folder (mkTimes 0 0) None (Entry "shape" None (Folder (mkTimes 0 0) None (Entry "settings.json" None (old_file 1) NoMore)) NoMore))
        (Entry STATE_DIR_NAME None (Folder (mkTimes 0 0) None (Entry "history.jsonl" None (old_file 1) NoMore)) NoMore)))
      NoMore)).
#[local] Instance all_removed : Removal := { remove_tree _ := Ok tt; unlink _ := Ok tt }.
Theorem sweep_takes_state hashing :
  gc "2.0.0" "2.0.0" (age_rule (168 * 3600)) false 1000000 "/home/u/.cache/llmenv" old_cache hashing =
  Ok (mkReport ["/home/u/.cache/llmenv/claude-code"] 0 ∅).
Proof. by destruct hashing; vm_compute. Qed.
