(* ===== verification/StateSweep.v ===== *)
(** * The sweeps of the cleanup command (src/materialize/tmp_sweep.rs, tmp_sweep/claude_root.rs,
    materialize/dir_size.rs, src/cli/doctor/cache_gc/cache_sweep.rs, src/cli/clean.rs)

    The temp folder of the tools is swept by age, except what a process holds open; the list of
    open paths is slow to get, so it is asked for only when something could go. A clone of a
    marketplace goes when no entry of the configuration names it. *)

From S2P Require Import Prelude RustStr Names TaskStore ConfigSchema McpResolve PluginResolve Framing CacheFolder CacheSweep.

(** ** The temp folder *)

Record StaleEntry := mkStale { st_path : string; st_is_dir : bool }.
Record Scan := mkScan { sc_stale : list StaleEntry; sc_kept : nat; sc_failed : gmap string cause }.
Definition scan_failure (path : string) (c : cause) (s : Scan) : Scan :=
  mkScan (sc_stale s) (sc_kept s) (<[path := c]> (sc_failed s)).
Definition scan_keep (s : Scan) : Scan := mkScan (sc_stale s) (S (sc_kept s)) (sc_failed s).
Definition scan_stale (path : string) (is_dir : bool) (s : Scan) : Scan :=
  mkScan (sc_stale s ++ [mkStale path is_dir]) (sc_kept s) (sc_failed s).

Definition HAWK_TARGET_ROOT : string := "cargo-hawk-target".
Definition is_claude_root (name : string) : bool :=
  match strip_prefix "claude-" name with
  | Some uid => negb (bool_decide (uid = "")) && str_all is_ascii_digit uid
  | None => false
  end.
Definition is_split_root (name : string) : bool := bool_decide (name = HAWK_TARGET_ROOT) || is_claude_root name.

Section scan.
Context (rule : AgeRule) (now : Z).

Definition entry_mtime (n : tree) : result io_kind Z :=
  match n with Leaf _ t => Ok (file_stamp (source rule) t) | Folder _ _ _ => newest_file_mtime (source rule) n end.
Definition judge_entry (path : string) (n : tree) (s : Scan) : Scan :=
  match entry_mtime n with
  | Ok m => if is_expired now m (older_than rule) then scan_stale path (is_folder n) s else scan_keep s
  | Err NotFound => s
  | Err e => scan_failure path (CannotScan e) s
  end.
Definition holds_used (in_use : list string) (path : string) : bool := existsb (λ used, cwd_under_prefix used path) in_use.
Fixpoint scan_entries (in_use : list string) (dir : string) (judge : string → string → tree → Scan → Scan) (es : entries) (s : Scan)
  : Scan :=
  match es with
  | NoMore => s
  | BadEntry e es => scan_entries in_use dir judge es (scan_failure dir (CannotReadEntry e) s)
  | Entry name unstat n es =>
    let path := path_join dir name in
    scan_entries in_use dir judge es
      (if holds_used in_use path then scan_keep s
       else
         match unstat with
         | None => judge path name n s
         | Some NotFound => s
         | Some e => scan_failure path (CannotReadType e) s
         end)
  end.
Definition scan_split_root (in_use : list string) (split_root : string) (unreadable : option io_kind) (es : entries) (s : Scan) : Scan :=
  match unreadable with
  | Some NotFound => s
  | Some e => scan_failure split_root (CannotSweep e) s
  | None => scan_entries in_use split_root (λ path _ n, judge_entry path n) es s
  end.
Definition judge_top (in_use : list string) (path name : string) (n : tree) (s : Scan) : Scan :=
  match n with
  | Folder _ unreadable es => if is_split_root name then scan_split_root in_use path unreadable es s else judge_entry path n s
  | Leaf _ _ => judge_entry path n s
  end.
(** [scan] of the folder as [canonicalize] gives it. *)
Definition scan (root : string) (disk : result io_kind tree) (in_use : list string) : result io_kind Scan :=
  es ← root_entries disk; Ok (scan_entries in_use root (judge_top in_use) es (mkScan [] 0 ∅)).

Definition sweep `{Removal} (root : string) (disk : result io_kind tree) (in_use : list string) (dry_run : bool)
  : result io_kind GcReport :=
  s ← scan root disk in_use;
  Ok (foldl (λ r st, gc_remove dry_run (st_path st) (if st_is_dir st then remove_tree else unlink) r)
        (mkReport [] (sc_kept s) (sc_failed s)) (sc_stale s)).

(** [DirSize]: the bytes of a tree, and how many entries are not counted. *)
Record DirSize := mkSize { ds_bytes : N; ds_skipped : N }.
Definition combine (a b : DirSize) : DirSize :=
  mkSize (N.min (ds_bytes a + ds_bytes b) u64_max) (N.min (ds_skipped a + ds_skipped b) u64_max).
(** What a walk without links finds: the length of a file, the entries of a folder, or the error at
    their place. *)
Inductive sized := Bytes (len : result io_kind N) | Listed (unlisted : option io_kind) (es : sizes)
with sizes := AllSized | Unsized (e : io_kind) (es : sizes) | Sized (n : sized) (es : sizes).
Scheme sized_mut := Induction for sized Sort Prop
with sizes_mut := Induction for sizes Sort Prop.
Combined Scheme sized_sizes_ind from sized_mut, sizes_mut.
Definition add_bytes (len : N) (d : DirSize) : DirSize := mkSize (N.min (ds_bytes d + len) u64_max) (ds_skipped d).
Definition skip_entry (d : DirSize) : DirSize := mkSize (ds_bytes d) (ds_skipped d + 1).
Fixpoint walk_size (n : sized) (d : DirSize) : DirSize :=
  match n with
  | Bytes (Ok len) => add_bytes len d
  | Bytes (Err _) | Listed (Some _) _ => skip_entry d
  | Listed None es => walk_sizes es d
  end
with walk_sizes (es : sizes) (d : DirSize) : DirSize :=
  match es with
  | AllSized => d
  | Unsized _ es => walk_sizes es (skip_entry d)
  | Sized n es => walk_sizes es (walk_size n d)
  end.
(** [None]: the root is there and cannot be read. *)
Definition dir_size (root : result io_kind sized) : option DirSize :=
  match root with
  | Err NotFound | Ok (Listed (Some NotFound) _) => Some (mkSize 0 0)
  | Err _ | Ok (Listed (Some _) _) | Ok (Bytes (Err _)) => None
  | Ok n => Some (walk_size n (mkSize 0 0))
  end.
Class Sizes := on_disk : string → result io_kind sized.
Record StaleSummary := mkSummary { ss_count : nat; ss_bytes : N; ss_bytes_partial : bool; ss_unreadable : nat }.
Definition stale_summary_in `{Sizes} (root : string) (disk : result io_kind tree) (in_use : list string) : result io_kind StaleSummary :=
  s ← scan root disk in_use;
  let '(total, unsized_entries) := foldl (λ '(total, n) st,
    match dir_size (on_disk (st_path st)) with Some size => (combine total size, n) | None => (total, S n) end) (mkSize 0 0, 0) (sc_stale s) in
  Ok (mkSummary (length (sc_stale s)) (ds_bytes total)
        (negb (bool_decide (ds_skipped total = 0%N)) || negb (bool_decide (unsized_entries = 0)))
        (size (sc_failed s) + unsized_entries)).
(** [in_use] is asked only when the bound of the summary is not zero. The flag says whether it was. *)
Definition stale_summary_with `{Sizes} (root : string) (disk : result io_kind tree) (in_use : result io_kind (list string))
  : result io_kind StaleSummary * bool :=
  match stale_summary_in root disk [] with
  | Err e => (Err e, false)
  | Ok bound =>
    if bool_decide (ss_count bound = 0) && bool_decide (ss_unreadable bound = 0) then (Ok bound, false)
    else (used ← in_use; stale_summary_in root disk used, true)
  end.
End scan.

(** ** Clones of marketplaces *)

Definition clone_of (suffix entry : string) : option string :=
  rest ← strip_suffix suffix entry;
  '(name, pid) ← rsplit_once "." rest;
  if negb (bool_decide (pid = "")) && str_all is_ascii_digit pid then Some name else None.
Definition owning_clone (entry : string) : string :=
  match clone_of ".tmp" entry with
  | Some name => name
  | None => match clone_of ".old" entry with Some name => name | None => entry end
  end.
Section marketplaces.
Context `{HY : Yaml, Removal}.
Definition referenced_marketplaces (config : Config) : list string :=
  omap (λ p, fst <$> split_plugin_ref p) (concat (map pl_plugins (cf_plugin_collection config))).
Definition referenced_marketplace_names (config : Config) : list string :=
  map to_ascii_lowercase (map mk_name (cf_marketplace config) ++ referenced_marketplaces config ++ [CONTEXT_MODE_MARKETPLACE]).
Definition is_kept (name : string) (keep : list string) : bool := bool_decide (to_ascii_lowercase (owning_clone name) ∈ keep).
(** Another removal is not looked for here: the error of an entry is always recorded. *)
Fixpoint prune_clones (dry_run : bool) (root : string) (keep : list string) (es : entries) (r : GcReport) : GcReport :=
  match es with
  | NoMore => r
  | BadEntry e es => prune_clones dry_run root keep es (record_failure root (CannotReadEntry e) r)
  | Entry name unstat n es =>
    let path := path_join root name in
    prune_clones dry_run root keep es
      (if is_kept name keep then count_kept r
       else
         match unstat, n with
         | Some e, _ => record_failure path (CannotReadType e) r
         | None, Leaf true _ => gc_remove dry_run path unlink r
         | None, Folder _ _ _ => gc_remove dry_run path remove_tree r
         | None, Leaf false _ => count_kept r
         end)
  end.
(** The folder of the clones, where a link is refused. *)
Definition prune_orphan_marketplaces (cache_dir : string) (clones : result io_kind tree) (config : Config) (dry_run : bool) : GcReport :=
  let root := path_join cache_dir "marketplaces" in
  match clones with
  | Ok (Leaf true _) => record_failure root (CannotSweep OtherIo) empty_report
  | _ =>
    match root_entries clones with
    | Ok es => prune_clones dry_run root (referenced_marketplace_names config) es empty_report
    | Err e => record_failure root (CannotSweep e) empty_report
    end
  end.
End marketplaces.

(** ** The cache folders of all adapters *)

Definition registered_adapters : list string := ["claude-code"; "codex"; "crush"; "opencode"].
Section clean.
Context `{HY : Yaml, Removal} (VERSION_TAG PKG_VERSION : string) (now : Z).
(** The folders below the cache folder. *)
Context (disk : string → result io_kind tree).

Definition add_report (a b : GcReport) : GcReport :=
  mkReport (removed a ++ removed b) (kept a + kept b) (failed b ∪ failed a).
Definition prune_folders (hashing : HashingMode) (cache_dir : string) (mode : PruneMode) (dry_run : bool)
  : GcReport * option io_kind :=
  let current_version := match hashing with ConfigSchema.Normal => Some (version_major PKG_VERSION) | _ => None end in
  foldl (λ '(totals, first_error) adapter,
    let dir := path_join cache_dir adapter in
    match prune VERSION_TAG dir (disk adapter) mode hashing current_version dry_run now with
    | Ok report => (add_report totals report, first_error)
    | Err e => (totals, match first_error with Some e' => Some e' | None => Some e end)
    end) (empty_report, None) registered_adapters.
(** [sweep_cache]: the age sweep of the cache folder, then the clones. A cache folder that is a link
    or that cannot be written is refused ([sweep_cache_root]). The value is the count of failures;
    the entries of removed folders in the keychain are not part of the model. *)
Definition sweep_cache (config : Config) (hashing : HashingMode) (cache_dir : string) (root : result io_kind tree) (retention : Z)
    (dry_run : bool) : option (GcReport * GcReport) * nat :=
  match gc VERSION_TAG PKG_VERSION (age_rule retention) dry_run now cache_dir root hashing with
  | Ok report =>
    let orphans := prune_orphan_marketplaces cache_dir (disk "marketplaces") config dry_run in
    (Some (report, orphans), size (failed report) + size (failed orphans))
  | Err _ => (None, 1)
  end.
Inductive root_stat := RootLink | RootReadOnly | RootFolder | RootMissing | RootUnreadable.
Definition sweep_cache_root (stat : root_stat) (config : Config) (hashing : HashingMode) (cache_dir : string) (root : result io_kind tree)
    (retention : Z) (dry_run : bool) : option (GcReport * GcReport) * nat :=
  match stat with
  | RootLink | RootReadOnly | RootUnreadable => (None, 1)
  | RootMissing => (None, 0)
  | RootFolder => sweep_cache config hashing cache_dir root retention dry_run
  end.
End clean.

(** ** Laws of the temp sweep *)

(** ** Laws of the sizes *)

Fixpoint lengths (n : sized) : list N :=
  match n with Bytes (Ok len) => [len] | Listed None es => all_lengths es | _ => [] end
with all_lengths (es : sizes) : list N :=
  match es with AllSized => [] | Unsized _ es => all_lengths es | Sized n es => lengths n ++ all_lengths es end.
Fixpoint unread (n : sized) : N :=
  match n with Bytes (Ok _) => 0 | Listed None es => all_unread es | _ => 1 end
with all_unread (es : sizes) : N :=
  match es with AllSized => 0 | Unsized _ es => 1 + all_unread es | Sized n es => unread n + all_unread es end.
Fixpoint total (l : list N) : N := match l with [] => 0%N | x :: l => (x + total l)%N end.
Lemma total_app l l' : total (l ++ l') = (total l + total l')%N.
Proof. induction l as [|x l IH]; cbn [app total]; [done|]. rewrite IH. lia. Qed.
Lemma walked :
  (∀ n d, (ds_bytes d ≤ u64_max)%N → walk_size n d = mkSize (N.min (ds_bytes d + total (lengths n)) u64_max) (ds_skipped d + unread n)) ∧
  (∀ es d, (ds_bytes d ≤ u64_max)%N → walk_sizes es d = mkSize (N.min (ds_bytes d + total (all_lengths es)) u64_max) (ds_skipped d + all_unread es)).
Proof.
  apply sized_sizes_ind; cbn [walk_size walk_sizes lengths unread all_lengths all_unread].
  - intros [len|e] [b k] Hb; cbn [total ds_bytes ds_skipped] in *; unfold add_bytes, skip_entry; cbn [ds_bytes ds_skipped]; f_equal; lia.
  - intros [e|] es IH [b k] Hb; [unfold skip_entry; cbn [total ds_bytes ds_skipped] in *; f_equal; lia|by apply IH].
  - intros [b k] Hb. cbn [total ds_bytes ds_skipped] in *. f_equal; lia.
  - intros e es IH [b k] Hb. rewrite IH by done. unfold skip_entry. cbn [ds_bytes ds_skipped] in *. f_equal; lia.
  - intros n IHn es IH [b k] Hb. rewrite IHn, IH by (cbn [ds_bytes] in *; lia). rewrite total_app. cbn [ds_bytes ds_skipped] in *. f_equal; lia.
Qed.
(** The size is the sum of the files that can be read, up to the bound of the counter, with the number
    of the entries left out; there is none exactly when the root is there and cannot be read. *)
Theorem dir_size_correct root : dir_size root =
  match root with
  | Ok (Bytes (Ok len)) => Some (mkSize (N.min len u64_max) 0)
  | Ok (Listed None es) => Some (mkSize (N.min (total (all_lengths es)) u64_max) (all_unread es))
  | Err NotFound | Ok (Listed (Some NotFound) _) => Some (mkSize 0 0)
  | _ => None
  end.
Proof.
  destruct root as [[[len|e]|[[]|] es]|[]]; try done; cbn [dir_size]; f_equal.
  unfold walk_size. fold walk_sizes. rewrite (proj2 walked) by done. cbn [ds_bytes ds_skipped]. f_equal; lia.
Qed.

(** Sizes add up in any order and grouping. *)
Lemma combine_laws a b c : combine a b = combine b a ∧ combine (combine a b) c = combine a (combine b c) ∧
  ((ds_bytes a ≤ u64_max)%N → (ds_skipped a ≤ u64_max)%N → combine a (mkSize 0 0) = a).
Proof.
  destruct a, b, c. unfold combine. cbn [ds_bytes ds_skipped]. split_and!; [f_equal; lia..|]. intros. f_equal; lia.
Qed.

Section scan_laws.
Context (rule : AgeRule) (now : Z).

(** What the entries of a folder add to the stale entries and to the failures. *)
Section outputs.
Context (in_use : list string) (J : string → string → tree → list StaleEntry) (F : string → string → tree → gset string).
Fixpoint stale_of (dir : string) (es : entries) : list StaleEntry :=
  match es with
  | NoMore => []
  | BadEntry _ es | Entry _ (Some _) _ es => stale_of dir es
  | Entry name None n es =>
    let path := path_join dir name in (if holds_used in_use path then [] else J path name n) ++ stale_of dir es
  end.
Fixpoint failed_of (dir : string) (es : entries) : gset string :=
  match es with
  | NoMore => ∅
  | BadEntry _ es => {[dir]} ∪ failed_of dir es
  | Entry name unstat n es =>
    let path := path_join dir name in
    (if holds_used in_use path then ∅
     else match unstat with None => F path name n | Some NotFound => ∅ | Some _ => {[path]} end) ∪ failed_of dir es
  end.
Lemma scan_outputs dir judge es s :
  (∀ path name n s, sc_stale (judge path name n s) = sc_stale s ++ J path name n ∧
     dom (sc_failed (judge path name n s)) = dom (sc_failed s) ∪ F path name n) →
  sc_stale (scan_entries in_use dir judge es s) = sc_stale s ++ stale_of dir es ∧
  dom (sc_failed (scan_entries in_use dir judge es s)) = dom (sc_failed s) ∪ failed_of dir es.
Proof.
  intros Hj. revert s. induction es as [|e es IH|name unstat n es IH]; intros s; cbn [scan_entries stale_of failed_of].
  - by rewrite app_nil_r, (right_id_L ∅ (∪)).
  - destruct (IH (scan_failure dir (CannotReadEntry e) s)) as [-> ->]. cbn. split; [done|]. rewrite dom_insert_L. set_solver.
  - match goal with |- context [scan_entries in_use dir judge es ?s'] => destruct (IH s') as [-> ->] end.
    destruct (holds_used in_use _).
    + split; [by destruct unstat|]. cbn. by rewrite (left_id_L ∅ (∪)).
    + destruct unstat as [e|].
      * destruct e; cbn; rewrite ?dom_insert_L; split; first [done|set_solver].
      * destruct (Hj (path_join dir name) name n s) as [-> ->]. by rewrite <- app_assoc, (assoc_L (∪)).
Qed.
End outputs.

Definition entry_stale (path : string) (n : tree) : list StaleEntry :=
  match entry_mtime rule n with
  | Ok m => if is_expired now m (older_than rule) then [mkStale path (is_folder n)] else []
  | Err _ => []
  end.
Definition entry_failed (path : string) (n : tree) : gset string :=
  match entry_mtime rule n with Err NotFound | Ok _ => ∅ | Err _ => {[path]} end.
Definition top_stale (in_use : list string) (path name : string) (n : tree) : list StaleEntry :=
  match n with
  | Folder _ unreadable es =>
    if is_split_root name then match unreadable with None => stale_of in_use (λ p _, entry_stale p) path es | Some _ => [] end
    else entry_stale path n
  | Leaf _ _ => entry_stale path n
  end.
Definition top_failed (in_use : list string) (path name : string) (n : tree) : gset string :=
  match n with
  | Folder _ unreadable es =>
    if is_split_root name then
      match unreadable with
      | None => failed_of in_use (λ p _, entry_failed p) path es
      | Some NotFound => ∅
      | Some _ => {[path]}
      end
    else entry_failed path n
  | Leaf _ _ => entry_failed path n
  end.
Lemma judge_outputs path n s :
  sc_stale (judge_entry rule now path n s) = sc_stale s ++ entry_stale path n ∧
  dom (sc_failed (judge_entry rule now path n s)) = dom (sc_failed s) ∪ entry_failed path n.
Proof.
  unfold judge_entry, entry_stale, entry_failed. destruct (entry_mtime rule n) as [m|e].
  - destruct (is_expired _ _ _); cbn; by rewrite ?app_nil_r, (right_id_L ∅ (∪)).
  - destruct e; cbn; rewrite ?app_nil_r, ?dom_insert_L; split; first [done|set_solver].
Qed.
Lemma top_outputs in_use path name n s :
  sc_stale (judge_top rule now in_use path name n s) = sc_stale s ++ top_stale in_use path name n ∧
  dom (sc_failed (judge_top rule now in_use path name n s)) = dom (sc_failed s) ∪ top_failed in_use path name n.
Proof.
  destruct n as [l t|t u es]; [apply judge_outputs|]. cbn [judge_top top_stale top_failed].
  destruct (is_split_root name); [|apply judge_outputs]. unfold scan_split_root. destruct u as [e|].
  - destruct e; cbn; rewrite ?app_nil_r, ?dom_insert_L; split; first [done|set_solver].
  - apply scan_outputs. intros p _ n s'. apply judge_outputs.
Qed.
Lemma scan_spec root disk in_use es : root_entries disk = Ok es → ∃ s, scan rule now root disk in_use = Ok s ∧
  sc_stale s = stale_of in_use (top_stale in_use) root es ∧ dom (sc_failed s) = failed_of in_use (top_failed in_use) root es.
Proof.
  intros E. unfold scan. rewrite E. eexists. split; [done|].
  destruct (scan_outputs in_use (top_stale in_use) (top_failed in_use) root (judge_top rule now in_use) es (mkScan [] 0 ∅)) as [-> ->].
  { intros path name n s. apply top_outputs. }
  cbn. split; [done|]. by rewrite dom_empty_L, (left_id_L ∅ (∪)).
Qed.

(** A longer list of open paths only keeps more. *)
Lemma stale_bound in_use J J' dir es : (∀ p name n, J p name n ⊆ J' p name n) → stale_of in_use J dir es ⊆ stale_of [] J' dir es.
Proof.
  intros Hj. induction es as [|e es IH|name [e|] n es IH]; cbn [stale_of holds_used existsb]; [done..|].
  intros st. rewrite !elem_of_app. destruct (holds_used _ _); [|specialize (Hj (path_join dir name) name n)];
    intros [H|H]; [by apply not_elem_of_nil in H|right; by apply IH|left; by apply Hj|right; by apply IH].
Qed.
Lemma failed_bound in_use F F' dir es : (∀ p name n, F p name n ⊆ F' p name n) → failed_of in_use F dir es ⊆ failed_of [] F' dir es.
Proof.
  intros Hf. induction es as [|e es IH|name unstat n es IH]; cbn [failed_of]; [done|set_solver|].
  specialize (Hf (path_join dir name) name n). cbn [holds_used existsb]. destruct (holds_used _ _), unstat as [[]|]; set_solver.
Qed.
Lemma top_bound in_use p name n :
  top_stale in_use p name n ⊆ top_stale [] p name n ∧ top_failed in_use p name n ⊆ top_failed [] p name n.
Proof.
  destruct n as [l t|t u es]; [done|]. cbn [top_stale top_failed]. destruct (is_split_root name); [|done].
  destruct u as [e|]; [done|]. by split; [apply stale_bound|apply failed_bound].
Qed.

(** The summary is the one that the list of open paths gives, also when that list is not asked for;
    it is not asked for only when nothing could go. *)
Theorem summary_needs_no_list `{Sizes} root disk in_use :
  (stale_summary_with rule now root disk (Ok in_use)).1 = stale_summary_in rule now root disk in_use.
Proof.
  unfold stale_summary_with. destruct (root_entries disk) as [es|e] eqn:E.
  2: { unfold stale_summary_in, scan. by rewrite E. }
  destruct (scan_spec root disk [] es E) as (s & Es & Hs & Hf), (scan_spec root disk in_use es E) as (s' & Es' & Hs' & Hf').
  destruct (stale_summary_in rule now root disk []) as [bound|e] eqn:Eb; [|unfold stale_summary_in in Eb; rewrite Es in Eb; cbn in Eb;
    by destruct (foldl _ _ _)].
  destruct (bool_decide (ss_count bound = 0) && bool_decide (ss_unreadable bound = 0)) eqn:Ez; [|done].
  apply andb_true_iff in Ez as [Ec%bool_decide_eq_true Eu%bool_decide_eq_true]. cbn [fst]. rewrite <- Eb.
  unfold stale_summary_in in *. rewrite Es in *. rewrite Es'. cbn in Eb |- *.
  assert (sc_stale s = []) as En.
  { destruct (foldl _ _ (sc_stale s)) as [total k]. injection Eb as <-. by apply nil_length_inv in Ec. }
  assert (sc_failed s = ∅) as Ef.
  { destruct (foldl _ _ (sc_stale s)) as [total k]. injection Eb as <-. cbn in Eu. apply map_size_empty_inv. lia. }
  assert (sc_stale s' = []) as En'.
  { apply list_nil_subseteq. rewrite <- En, Hs, Hs'. apply stale_bound. intros p name n. apply top_bound. }
  assert (sc_failed s' = ∅) as Ef'.
  { apply dom_empty_inv_L. rewrite Hf'. pose proof (failed_bound in_use (top_failed in_use) (top_failed []) root es) as Hb.
    rewrite <- Hf, Ef, dom_empty_L in Hb. apply leibniz_equiv. apply (anti_symm (⊆)); [|set_solver]. apply Hb.
    intros p name n. apply top_bound. }
  by rewrite En, Ef, En', Ef'.
Qed.

Lemma stale_targets in_use J dir es st :
  st ∈ stale_of in_use J dir es ↔
  ∃ name n, (name, n) ∈ visible es ∧ holds_used in_use (path_join dir name) = false ∧ st ∈ J (path_join dir name) name n.
Proof.
  induction es as [|e es IH|name [e|] n es IH]; cbn [stale_of visible]; [|exact IH..|].
  - split; [by intros ?%not_elem_of_nil|by intros (? & ? & ?%not_elem_of_nil & _)].
  - rewrite elem_of_app, IH. setoid_rewrite elem_of_cons. split.
    + intros [H|(m & k & ? & ?)]; [|exists m, k; auto]. exists name, n. destruct (holds_used _ _); [by apply not_elem_of_nil in H|auto].
    + intros (m & k & [[= -> ->]|?] & Hu & ?); [left; by rewrite Hu|right; by exists m, k].
Qed.
(** Every file of the entry is old; a link or a file by its own age. *)
Definition old_entry (n : tree) : Prop := (∃ m, entry_mtime rule n = Ok m) ∧ unused rule now n.
Lemma entry_targets path n st : st ∈ entry_stale path n ↔ old_entry n ∧ st = mkStale path (is_folder n).
Proof.
  unfold entry_stale, old_entry. destruct (entry_mtime rule n) as [m|e] eqn:E.
  - assert (is_expired now m (older_than rule) = true ↔ unused rule now n) as <-.
    { destruct n as [l t|t u es]; [|by apply expired_iff]. injection E as <-. unfold unused, judged. cbn [files_of].
      unfold is_expired. rewrite andb_true_iff, !bool_decide_eq_true, Forall_singleton. done. }
    destruct (is_expired _ _ _); [rewrite list_elem_of_singleton; naive_solver|].
    split; [by intros ?%not_elem_of_nil|by intros [[_ ?] _]].
  - split; [by intros ?%not_elem_of_nil|by intros [[[m Hm] _] _]].
Qed.
(** A stale entry of the temp folder, or of one of the folders in it that hold unrelated entries. *)
Definition tmp_target (in_use : list string) (root : string) (es : entries) (st : StaleEntry) : Prop :=
  (∃ name n, (name, n) ∈ visible es ∧ is_folder n && is_split_root name = false ∧ old_entry n ∧
     st = mkStale (path_join root name) (is_folder n)) ∨
  (∃ gen t es' name n, (gen, Folder t None es') ∈ visible es ∧ is_split_root gen = true ∧ (name, n) ∈ visible es' ∧ old_entry n ∧
     st = mkStale (path_join (path_join root gen) name) (is_folder n) ∧ holds_used in_use (path_join root gen) = false).
Lemma scan_targets in_use root es st :
  st ∈ stale_of in_use (top_stale in_use) root es ↔ tmp_target in_use root es st ∧ holds_used in_use (st_path st) = false.
Proof.
  rewrite stale_targets. unfold tmp_target. split.
  - intros (name & n & Hv & Hu & Hst). destruct n as [l t|t u es']; cbn [top_stale] in Hst.
    + apply entry_targets in Hst as [Ho ->]. split; [|done]. left. by exists name, (Leaf l t).
    + destruct (is_split_root name) eqn:Es.
      * destruct u as [e|]; [by apply not_elem_of_nil in Hst|]. apply stale_targets in Hst as (k & n & Hk & Hu' & Hst).
        apply entry_targets in Hst as [Ho ->]. split; [|done]. right. by exists name, t, es', k, n.
      * apply entry_targets in Hst as [Ho ->]. split; [|done]. left. exists name, (Folder t u es'). by rewrite Es.
  - intros [[(name & n & Hv & Hs & Ho & ->)|(gen & t & es' & name & n & Hv & Hs & Hn & Ho & -> & Hg)] Hu].
    + exists name, n. split_and!; [done..|]. destruct n as [l t|t u es']; cbn [top_stale]; [by apply entry_targets|].
      cbn in Hs. rewrite Hs. by apply entry_targets.
    + exists gen, (Folder t None es'). split_and!; [done..|]. cbn [top_stale]. rewrite Hs. apply stale_targets.
      exists name, n. split_and!; [done..|]. by apply entry_targets.
Qed.

(** C25: the sweep of the temp folder removes exactly the entries that no file in them makes new and that
    hold no path that a process has open; of a folder that holds unrelated entries, the entries in
    it, never the folder. A preview lists what a real run removes or reports. *)
Theorem sweep_correct `{Removal} root disk in_use es : root_entries disk = Ok es →
  ∃ preview real, sweep rule now root disk in_use true = Ok preview ∧ sweep rule now root disk in_use false = Ok real ∧
    agree (λ p, holds_used in_use p = false ∧ ∃ is_dir, tmp_target in_use root es (mkStale p is_dir)) preview real.
Proof.
  intros E. destruct (scan_spec root disk in_use es E) as (s & Es & Hs & _). unfold sweep. rewrite Es. eexists _, _. split_and!; [done..|].
  set (verdict := λ st, (st_path st, Removes (negb (st_is_dir st)))).
  assert (Hfold : ∀ dry r, foldl (λ r st, gc_remove dry (st_path st) (if st_is_dir st then remove_tree else unlink) r) r (sc_stale s) =
    foldl (settle dry) r (map verdict (sc_stale s))).
  { clear. intros dry. generalize (sc_stale s). intros l. induction l as [|st l IH]; intros r; [done|].
    cbn [foldl map]. rewrite IH. f_equal. by destruct st as [p []]. }
  rewrite !Hfold. apply pass_agrees; [done|]. intros p. rewrite Hs. clear.
  assert (Hin : (∃ link, (p, Removes link) ∈ map verdict (stale_of in_use (top_stale in_use) root es)) ↔
    ∃ is_dir, mkStale p is_dir ∈ stale_of in_use (top_stale in_use) root es).
  { change (map verdict) with (fmap (M:=list) verdict). setoid_rewrite list_elem_of_fmap. split.
    - intros (link & [q d] & [= -> _] & ?). by exists d.
    - intros [d ?]. exists (negb d), (mkStale p d). done. }
  rewrite Hin. setoid_rewrite scan_targets. naive_solver.
Qed.
End scan_laws.

(** ** Laws of the clones *)

Section clone_laws.
Context `{HY : Yaml, Removal}.

(** A staging folder and a backup of a sync belong to the clone. *)
Lemma clone_staging name pid : pid ≠ "" → str_all is_ascii_digit pid = true →
  owning_clone (name +:+ "." +:+ pid +:+ ".tmp") = name ∧ owning_clone (name +:+ "." +:+ pid +:+ ".old") = name.
Proof.
  intros Hne Hd. assert (Hc : ∀ suffix, clone_of suffix (name +:+ "." +:+ pid +:+ suffix) = Some name).
  { intros suffix. unfold clone_of.
    rewrite (proj2 (strip_suffix_Some suffix _ (name +:+ "." +:+ pid))) by (by rewrite !str_app_assoc).
    cbn [mbind option_bind]. change ("." +:+ pid) with (String "." pid). rewrite rsplit_once_app.
    - cbn [mbind option_bind]. by rewrite Hd, bool_decide_eq_false_2 by done.
    - unfold str_contains_char. apply negb_false_iff. eapply str_all_impl; [|exact Hd]. intros c Hc.
      destruct (Ascii.eqb_spec c "."); [by subst|done]. }
  unfold owning_clone. rewrite !Hc. split; [done|].
  assert (clone_of ".tmp" (name +:+ "." +:+ pid +:+ ".old") = None) as ->; [|done]. unfold clone_of.
  destruct (strip_suffix ".tmp" _) as [rest|] eqn:Es; [|done]. exfalso. apply strip_suffix_Some in Es.
  assert (Es' : (name +:+ "." +:+ pid) +:+ ".old" = rest +:+ ".tmp") by (by rewrite <- Es, !str_app_assoc).
  apply head_cut in Es' as [_ ?]; [done|]. apply (f_equal String.length) in Es'. rewrite !str_length_app.
  do 4 (try rewrite str_length_app in Es'). cbn in Es' |- *. lia.
Qed.
Lemma clones_removed dry_run root keep es r p : p ∈ removed (prune_clones dry_run root keep es r) → p ∈ removed r ∨
  ∃ name n, (name, n) ∈ visible es ∧ p = path_join root name ∧ is_kept name keep = false ∧ n ≠ Leaf false (tree_times n).
Proof.
  revert r. induction es as [|e es IH|name unstat n es IH]; intros r; cbn [prune_clones visible]; [by left| |].
  - intros [?|(m & k & ? & ?)]%IH; [by left|right; by exists m, k].
  - set (r' := if is_kept name keep then _ else _).
    assert (Hr : p ∈ removed r' → p ∈ removed r ∨ unstat = None ∧ p = path_join root name ∧ is_kept name keep = false ∧
      n ≠ Leaf false (tree_times n)).
    { unfold r'. destruct (is_kept name keep); [by left|]. destruct unstat as [e|]; [by left|].
      assert (Hg : ∀ remove, p ∈ removed (gc_remove dry_run (path_join root name) remove r) → p ∈ removed r ∨ p = path_join root name).
      { intros remove. unfold gc_remove. destruct dry_run; [|destruct (skip_vanished _); [|by left]]; cbn;
          rewrite elem_of_app, list_elem_of_singleton; naive_solver. }
      destruct n as [[] t|t u es']; [|by left|]; (intros [?| ->]%Hg; [by left|by right]). }
    intros [Hp%Hr|(m & k & ? & ?)]%IH.
    + destruct Hp as [?|(-> & -> & ? & ?)]; [by left|]. right. exists name, n. split_and!; [by left|done..].
    + right. exists m, k. split; [destruct unstat; [done|by right]|done].
Qed.
(** The clone of a marketplace that the configuration names, in any case of letters, is never removed,
    nor a staging folder or a backup of it. *)
Theorem referenced_clones_kept cache_dir clones config dry_run p :
  p ∈ removed (prune_orphan_marketplaces cache_dir clones config dry_run) →
  ∃ name, p = path_join (path_join cache_dir "marketplaces") name ∧
    ∀ m, m ∈ map mk_name (cf_marketplace config) ++ referenced_marketplaces config ++ [CONTEXT_MODE_MARKETPLACE] →
      to_ascii_lowercase (owning_clone name) ≠ to_ascii_lowercase m.
Proof.
  unfold prune_orphan_marketplaces. set (root := path_join cache_dir "marketplaces").
  assert (Hmain : p ∈ removed match root_entries clones with
      | Ok es => prune_clones dry_run root (referenced_marketplace_names config) es empty_report
      | Err e => record_failure root (CannotSweep e) empty_report end →
    ∃ name, p = path_join root name ∧
      ∀ m, m ∈ map mk_name (cf_marketplace config) ++ referenced_marketplaces config ++ [CONTEXT_MODE_MARKETPLACE] →
        to_ascii_lowercase (owning_clone name) ≠ to_ascii_lowercase m).
  { destruct (root_entries clones) as [es|e]; [|by intros ?%not_elem_of_nil].
    intros [?%not_elem_of_nil|(name & n & _ & -> & Hk & _)]%clones_removed; [done|]. exists name. split; [done|].
    intros m Hm E. unfold is_kept in Hk. apply bool_decide_eq_false in Hk. apply Hk. rewrite E.
    unfold referenced_marketplace_names. change (map to_ascii_lowercase) with (fmap (M:=list) to_ascii_lowercase).
    apply list_elem_of_fmap. by exists m. }
  by destruct clones as [[[] t|t u es]|e].
Qed.
End clone_laws.

(** The cleanup of the folders of the adapters removes only what the mode names, and no state folder. *)
Theorem prune_folders_correct `{HR : Removal} VERSION_TAG PKG_VERSION now disk hashing cache_dir mode dry_run p :
  let version := match hashing with ConfigSchema.Normal => Some (version_major PKG_VERSION) | _ => None end in
  p ∈ removed (prune_folders VERSION_TAG PKG_VERSION now disk hashing cache_dir mode dry_run).1 →
  ∃ adapter es name n, adapter ∈ registered_adapters ∧ root_entries (disk adapter) = Ok es ∧ (name, n) ∈ visible es ∧
    prunable VERSION_TAG now mode hashing version name n ∧ p = path_join (path_join cache_dir adapter) name.
Proof.
  intros version. unfold prune_folders. fold version.
  assert (Hall : ∀ l acc, l ⊆ registered_adapters → p ∈ removed (foldl (λ '(totals, first_error) adapter,
      let dir := path_join cache_dir adapter in
      match prune VERSION_TAG dir (disk adapter) mode hashing version dry_run now with
      | Ok report => (add_report totals report, first_error)
      | Err e => (totals, match first_error with Some e' => Some e' | None => Some e end)
      end) acc l).1 → p ∈ removed acc.1 ∨
    ∃ adapter es name n, adapter ∈ registered_adapters ∧ root_entries (disk adapter) = Ok es ∧ (name, n) ∈ visible es ∧
      prunable VERSION_TAG now mode hashing version name n ∧ p = path_join (path_join cache_dir adapter) name).
  { induction l as [|adapter l IH]; intros [totals err] Hl; cbn [foldl]; [by left|]. intros [Hp|?]%IH; [|by right|set_solver].
    destruct (root_entries (disk adapter)) as [es|e] eqn:E; [|unfold prune in Hp; rewrite E in Hp; by left].
    destruct (prune_correct VERSION_TAG now mode (path_join cache_dir adapter) (disk adapter) es hashing version E)
      as (preview & real & Epre & Ereal & Hpre & Hreal & _).
    assert (Htarget : ∃ r, prune VERSION_TAG (path_join cache_dir adapter) (disk adapter) mode hashing version dry_run now = Ok r ∧
      (p ∈ removed r → ∃ name n, (name, n) ∈ visible es ∧ prunable VERSION_TAG now mode hashing version name n ∧
        p = path_join (path_join cache_dir adapter) name)).
    { destruct dry_run; [exists preview|exists real]; (split; [done|]); [apply Hpre|apply Hreal]. }
    destruct Htarget as (r & Er & Hr). rewrite Er in Hp. cbn in Hp. apply elem_of_app in Hp as [Hp|Hp]; [by left|].
    destruct (Hr Hp) as (name & n & Hv & Hm & Ep). right. exists adapter, es, name, n. split_and!; [set_solver|done..]. }
  intros [?%not_elem_of_nil|?]%Hall; [done..|set_solver].
Qed.
