(* ===== verification/Inherit.v ===== *)
(** * State that outlives a cache folder (src/materialize/inherit.rs, inherit/fold.rs,
    inherit/link_site.rs, inherit/stranded.rs, inherit/copy.rs)

    The transcripts of a session, its history and its databases must not end with the folder of the
    configuration. Folders are folded into a durable store and become links to it, single files are
    copied both ways. A folder is a tree whose entries have distinct names; both ends are on one
    file system, so that a move is a rename. *)

From S2P Require Import Prelude RustStr TaskStore.

(** ** Trees *)

(** The age of an entry, when it can be read. A link and any other kind of entry is [Other]. *)
Inductive item :=
| File (content : string) (age : option Z)
| Other (age : option Z)
| Dir (age : option Z) (ks : items)
with items := Empty | More (name : string) (i : item) (ks : items).
Scheme item_mut := Induction for item Sort Prop
with items_mut := Induction for items Sort Prop.
Combined Scheme item_items_ind from item_mut, items_mut.

Definition age_of (i : item) : option Z := match i with File _ a | Other a | Dir a _ => a end.
Fixpoint get (name : string) (ks : items) : option item :=
  match ks with Empty => None | More n i ks => if decide (n = name) then Some i else get name ks end.
Fixpoint put (name : string) (i : item) (ks : items) : items :=
  match ks with
  | Empty => More name i Empty
  | More n j ks => if decide (n = name) then More n i ks else More n j (put name i ks)
  end.
Fixpoint at_path (p : list string) (o : option item) : option item :=
  match p with
  | [] => o
  | n :: p => match o with Some (Dir _ ks) => at_path p (get n ks) | _ => None end
  end.
Definition restore (name : string) (left : option item) (ks : items) : items :=
  match left with Some i => More name i ks | None => ks end.
Fixpoint names (ks : items) : list string := match ks with Empty => [] | More n _ ks => n :: names ks end.
Fixpoint tidy (i : item) : Prop :=
  match i with Dir _ ks => tidy_items ks | _ => True end
with tidy_items (ks : items) : Prop :=
  match ks with Empty => True | More n i ks => n ∉ names ks ∧ tidy i ∧ tidy_items ks end.

(** ** The fold (fold.rs) *)

Inductive fold_error := NotAFolder (p : list string) | IsAFolder (p : list string).
(** [age_order_at]: the source against its copy. *)
Definition age_order_at (i : item) (copy : option item) : option comparison :=
  match age_of i with
  | None => None
  | Some m =>
    match copy with
    | None => Some Gt
    | Some d => match age_of d with Some k => Some (m ?= k)%Z | None => Some Gt end
    end
  end.
(** How the fold ends, what stays in the source, the store after it, and the entries left. *)
Record outcome (A : Type) := mkOut { o_end : result fold_error unit; o_left : A; o_store : items; o_skipped : list (list string) }.
Arguments mkOut {A}. Arguments o_end {A}. Arguments o_left {A}. Arguments o_store {A}. Arguments o_skipped {A}.

(** [move_file_at], by [renameat]. *)
Definition move_file (name : string) (i : item) (store : items) (p : list string) : outcome (option item) :=
  match get name store with
  | Some (Dir _ _) => mkOut (Err (IsAFolder p)) (Some i) store []
  | _ => mkOut (Ok tt) None (put name i store) []
  end.
Definition fold_file (name : string) (i : item) (store : items) (p : list string) : outcome (option item) :=
  let skip := mkOut (Ok tt) (Some i) store [p] in
  match age_order_at i (get name store) with
  | Some Gt => move_file name i store p
  | Some Lt => match get name store with Some (File _ _) => mkOut (Ok tt) None store [] | _ => skip end
  | Some Eq | None => skip
  end.
Fixpoint move_entry (name : string) (i : item) (store : items) (at_ : list string) : outcome (option item) :=
  let p := at_ ++ [name] in
  match i with
  | Dir age ks =>
    let fold_into age' sub :=
      let o := move_dir ks sub p in
      mkOut (o_end o) (Some (Dir age (o_left o))) (put name (Dir age' (o_store o)) store) (o_skipped o) in
    match get name store with
    | None => fold_into None Empty
    | Some (Dir age' sub) => fold_into age' sub
    | Some _ => mkOut (Err (NotAFolder p)) (Some i) store []
    end
  | Other _ => mkOut (Ok tt) (Some i) store [p]
  | File _ _ => fold_file name i store p
  end
with move_dir (ks : items) (store : items) (at_ : list string) : outcome items :=
  match ks with
  | Empty => mkOut (Ok tt) Empty store []
  | More name i rest =>
    let o := move_entry name i store at_ in
    match o_end o with
    | Err e => mkOut (Err e) (restore name (o_left o) rest) (o_store o) (o_skipped o)
    | Ok _ =>
      let o' := move_dir rest (o_store o) at_ in
      mkOut (o_end o') (restore name (o_left o) (o_left o')) (o_store o') (o_skipped o ++ o_skipped o')
    end
  end.
(** [move_dir_newest_wins], of a folder into a store that is a folder or absent. *)
Definition move_dir_newest_wins (src store : items) : outcome items := move_dir src store [].

(** ** Stranded folders (stranded.rs) *)

Definition PROJECTS_DIR : string := "projects".
Definition child_dirs (ks : items) : list (string * items) :=
  (fix go ks := match ks with
   | Empty => []
   | More n (Dir _ sub) ks => (if bool_decide (is_Some (strip_suffix ".tmp" n)) then [] else [(n, sub)]) ++ go ks
   | More _ _ ks => go ks
   end) ks.
Definition projects_dir (ks : items) : list items := match get PROJECTS_DIR ks with Some (Dir _ sub) => [sub] | _ => [] end.
(** The trees below the folder of an adapter, without those of the state folder. *)
Definition stranded_projects_dirs (state_name : string) (adapter_root : items) : list items :=
  concat (map (λ level1 : string * items,
    if decide (level1.1 = state_name) then []
    else projects_dir level1.2 ++ concat (map (λ level2, projects_dir level2.2) (child_dirs level1.2))) (child_dirs adapter_root)).
(** Each tree is folded in turn; an error ends the migration. The trees are apart: no project has the
    name of their folder. *)
Fixpoint migrate_stranded_projects (srcs : list items) (store : items) : result fold_error nat * list items * items :=
  match srcs with
  | [] => (Ok 0, [], store)
  | src :: rest =>
    let o := move_dir_newest_wins src store in
    match o_end o with
    | Err e => (Err e, o_left o :: rest, o_store o)
    | Ok _ => let '(r, kept, store) := migrate_stranded_projects rest (o_store o) in (n ← r; Ok (S n), o_left o :: kept, store)
    end
  end.

(** ** The link to the store (link_site.rs) *)

Inductive site := NoEntry | LinkTo (dest : string) | RealDir (ks : items) | RealFile.
(** [prune_empty_dirs]: the folders that hold no entry go, from the inside out. *)
Fixpoint prune_items (ks : items) : items :=
  match ks with
  | Empty => Empty
  | More n i ks => match prune_item i with Some i => More n i (prune_items ks) | None => prune_items ks end
  end
with prune_item (i : item) : option item :=
  match i with
  | Dir a ks => match prune_items ks with Empty => None | ks => Some (Dir a ks) end
  | i => Some i
  end.
(** Whether the link can be made now; what is at its place; the store. *)
Definition clear_link_site (link : site) (target : string) (store : items) : result fold_error bool * site * items :=
  match link with
  | NoEntry => (Ok true, NoEntry, store)
  | LinkTo dest => if decide (dest = target) then (Ok false, link, store) else (Ok true, NoEntry, store)
  | RealDir ks =>
    let o := move_dir_newest_wins ks store in
    match o_end o with
    | Err e => (Err e, RealDir (o_left o), o_store o)
    | Ok _ =>
      let ks := prune_items (o_left o) in
      match o_skipped o, ks with
      | [], Empty => (Ok true, NoEntry, o_store o)
      | _, _ => (Ok false, RealDir ks, o_store o)
      end
    end
  | RealFile => (Ok false, RealFile, store)
  end.
Definition link_durable_dir (link : site) (target : string) (store : items) : result fold_error unit * site * items :=
  let '(r, link, store) := clear_link_site link target store in
  match r with
  | Ok true => (Ok tt, LinkTo target, store)
  | Ok false => (Ok tt, link, store)
  | Err e => (Err e, link, store)
  end.

(** ** Files that are copied (inherit.rs, copy.rs) *)

Inductive dirent := Real (content : string) (age : Z) | Symlink (dest : string) | Odd.
Abbreviation FileMap := (gmap string dirent).
Definition is_real_file (d : option dirent) : bool := match d with Some (Real _ _) => true | _ => false end.
Definition dest_already_present (d : option dirent) : bool := bool_decide (is_Some d).
(** A copy is a new file, whose age is [now]. *)
Definition copy_files_named (now : Z) (files : list string) (src dst : FileMap) : FileMap :=
  foldl (λ dst name,
    match src !! name with
    | Some (Real c _) => if dest_already_present (dst !! name) then dst else <[name := Real c now]> dst
    | _ => dst
    end) dst files.
Definition COPIED_FILES : list string := ["history.jsonl"; "mcp-needs-auth-cache.json"].
Definition CODEX_COPIED_FILES : list string := ["history.jsonl"].
(** [capture_copied_files], then [inherit_copied_files]: the store and the folder. *)
Definition exchange (now : Z) (files : list string) (store config : FileMap) : FileMap * FileMap :=
  let store := copy_files_named now files config store in (store, copy_files_named now files store config).

Definition CODEX_AUTH_FILE : string := "auth.json".
Definition src_is_newer (src dst : option dirent) : bool :=
  match src, dst with
  | Some (Real _ m), Some (Real _ k) => bool_decide (k < m)%Z
  | Some (Real _ _), _ => true
  | _, _ => false
  end.
(** [capture_codex_auth]: [stable] is the text when it did not change during the read. *)
Definition capture_codex_auth (is_valid_json : string → bool) (now : Z) (stable : option string) (store config : FileMap) : FileMap :=
  let src := config !! CODEX_AUTH_FILE in
  let dst := store !! CODEX_AUTH_FILE in
  if negb (is_real_file src) then store
  else if dest_already_present dst && negb (src_is_newer src dst) then store
  else
    match stable with
    | Some text => if is_valid_json text then <[CODEX_AUTH_FILE := Real text now]> store else store
    | None => store
    end.
Definition inherit_codex_auth (now : Z) (store config : FileMap) : FileMap := copy_files_named now [CODEX_AUTH_FILE] store config.

(** ** The databases of Codex *)

Definition CODEX_INHERITED_SQLITE_DBS : list string := ["goals_1.sqlite"; "memories_1.sqlite"; "queue_1.sqlite"].
Definition SQLITE_SIDECAR_SUFFIXES : list string := ["-wal"; "-shm"].
Definition family (name : string) : list string := name :: map (λ s, name +:+ s) SQLITE_SIDECAR_SUFFIXES.
Section sqlite.
Context (now : Z) (store_path : string → string).
Definition family_has_an_unmigrated_member (name : string) (config : FileMap) : bool :=
  existsb (λ member, is_real_file (config !! member)) (family name).
Definition sqlite_fold_would_race_a_live_db (name : string) (config : FileMap) : bool :=
  family_has_an_unmigrated_member name config && bool_decide (is_Some (config !! (name +:+ "-shm"))).
(** [metadata] follows the link of a member that is migrated: the two are then one file. A link in
    the store is taken to lead nowhere. *)
Definition local_sqlite_db_is_newer (name : string) (store config : FileMap) : bool :=
  negb (bool_decide (is_Some (store !! name))) || src_is_newer (config !! name) (store !! name).
Definition link_durable_sqlite_member (prefer_local : bool) (member : string) (s : FileMap * FileMap) : FileMap * FileMap :=
  let '(store, config) := s in
  let linked := <[member := Symlink (store_path member)]> config in
  match config !! member with
  | None => (store, linked)
  | Some (Symlink dest) => (store, if decide (dest = store_path member) then config else linked)
  | Some (Real c _) =>
    ((if negb (bool_decide (is_Some (store !! member))) || prefer_local then <[member := Real c now]> store else store), linked)
  | Some Odd => (store, config)
  end.
Definition link_family (name : string) (s : FileMap * FileMap) : FileMap * FileMap :=
  let '(store, config) := s in
  if sqlite_fold_would_race_a_live_db name config then s
  else
    let prefer_local := local_sqlite_db_is_newer name store config in
    foldl (λ s member, link_durable_sqlite_member prefer_local member s) s (family name).
Definition link_codex_sqlite_dbs (s : FileMap * FileMap) : FileMap * FileMap :=
  foldl (λ s name, link_family name s) s CODEX_INHERITED_SQLITE_DBS.
End sqlite.

(** ** Laws of the fold *)

Lemma get_put_eq name i ks : get name (put name i ks) = Some i.
Proof. induction ks as [|n j ks IH]; cbn [put get]; [by rewrite decide_True|]. case_decide; cbn [get]; [by rewrite decide_True|by rewrite decide_False]. Qed.
Lemma get_put_ne name n i ks : name ≠ n → get n (put name i ks) = get n ks.
Proof.
  intros Hn. induction ks as [|k j ks IH]; cbn [put get]; [by rewrite decide_False|].
  case_decide as E; cbn [get]; [subst; by rewrite !(decide_False (P:=name = n))|]. by rewrite IH.
Qed.
Lemma get_names name ks : is_Some (get name ks) ↔ name ∈ names ks.
Proof.
  induction ks as [|n i ks IH]; cbn [get names]; [split; [by intros []|by intros ?%not_elem_of_nil]|].
  rewrite elem_of_cons, <- IH. case_decide; [subst; split; [by left|by eexists]|]. naive_solver.
Qed.
Lemma get_restore name n left ks : get n (restore name left ks) = if decide (name = n) then match left with Some i => Some i | None => get n ks end else get n ks.
Proof. destruct left as [i|]; cbn [restore get]; [done|]. by case_decide. Qed.

Definition is_file (o : option item) : bool := match o with Some (File _ _) => true | _ => false end.
(** The ages of two entries in this order, or the first one has no age that can be read. *)
Definition older (a b : option item) : Prop :=
  match a, b with
  | Some a, Some b => match age_of b with Some m => match age_of a with Some k => (k < m)%Z | None => True end | None => False end
  | _, _ => False
  end.
(** What a fold may do at one place: the entry of the source stays, or it is now in the store, or the
    store holds a newer file; and the entry of the store stays, or an entry of the source that is
    newer took its place. *)
Definition kept_at (i d i' d' : option item) (p : list string) : Prop :=
  (is_file (at_path p i) = true →
     at_path p i' = at_path p i ∨ at_path p d' = at_path p i ∨
     at_path p d' = at_path p d ∧ is_file (at_path p d) = true ∧ older (at_path p i) (at_path p d)) ∧
  (is_file (at_path p d) = true →
     at_path p d' = at_path p d ∨ at_path p d' = at_path p i ∧ older (at_path p d) (at_path p i)).
Definition kept (i d i' d' : option item) : Prop := ∀ p, kept_at i d i' d' p.
Lemma kept_same i d : kept i d i d.
Proof. intros p. split; intros _; by left. Qed.
Lemma kept_dir a b c d ks dks ks' dks' : (∀ n, kept (get n ks) (get n dks) (get n ks') (get n dks')) →
  kept (Some (Dir a ks)) (Some (Dir b dks)) (Some (Dir c ks')) (Some (Dir d dks')).
Proof. intros H [|n p]; [split; intros [=]|]. exact (H n p). Qed.
Lemma kept_new_dir a c d ks ks' dks' : (∀ n, kept (get n ks) None (get n ks') (get n dks')) →
  kept (Some (Dir a ks)) None (Some (Dir c ks')) (Some (Dir d dks')).
Proof.
  intros H [|n p]; [split; intros [=]|]. destruct (H n p) as [Hi _]. assert (at_path p None = None) as E by (by destruct p).
  rewrite E in Hi. split; [|by intros [=]]. intros Hf. destruct (Hi Hf) as [?|[?|(_ & [=] & _)]]; [by left|right; by left].
Qed.

(** A folder in the source, folded into what the store has at its name. *)
Lemma move_entry_dir name age ks store at_ :
  move_entry name (Dir age ks) store at_ =
  let into age' sub :=
    let o := move_dir ks sub (at_ ++ [name]) in
    mkOut (o_end o) (Some (Dir age (o_left o))) (put name (Dir age' (o_store o)) store) (o_skipped o) in
  match get name store with
  | None => into None Empty
  | Some (Dir age' sub) => into age' sub
  | Some _ => mkOut (Err (NotAFolder (at_ ++ [name]))) (Some (Dir age ks)) store []
  end.
Proof. done. Qed.

Lemma kept_moved c a d : match d with Some (Dir _ _) => False | Some _ => older d (Some (File c a)) | None => True end →
  kept (Some (File c a)) d None (Some (File c a)).
Proof.
  intros Hd [|n p]; split; cbn; intros Hf; try done; [right; by left|right|by destruct d as [[]|]].
  by destruct d as [[]|].
Qed.
Lemma fold_file_kept name c a store p : let o := fold_file name (File c a) store p in
  kept (Some (File c a)) (get name store) (o_left o) (get name (o_store o)) ∧
  ∀ n, n ≠ name → get n (o_store o) = get n store.
Proof.
  cbv zeta. unfold fold_file. pose proof (kept_same (Some (File c a)) (get name store)) as Hsame.
  unfold age_order_at. cbn [age_of]. destruct a as [m|]; [|by split].
  assert (Hput : ∀ d, match d with Some (Dir _ _) => False | Some _ => older d (Some (File c (Some m))) | None => True end →
    kept (Some (File c (Some m))) d None (get name (put name (File c (Some m)) store)) ∧
    ∀ n, n ≠ name → get n (put name (File c (Some m)) store) = get n store).
  { intros d Hd. rewrite get_put_eq. split; [by apply kept_moved|]. intros n Hn. by rewrite get_put_ne. }
  assert (Hgt : match get name store with Some d => match age_of d with Some k => (m > k)%Z | None => True end | None => True end →
    let o := move_file name (File c (Some m)) store p in
    kept (Some (File c (Some m))) (get name store) (o_left o) (get name (o_store o)) ∧ ∀ n, n ≠ name → get n (o_store o) = get n store).
  { intros Hold. unfold move_file. destruct (get name store) as [[c' k|k|k ks]|] eqn:Ed; cbn [o_left o_store].
    3: { split; [|done]. rewrite Ed. exact Hsame. }
    all: apply Hput; cbn in Hold |- *; try done; destruct k; try done; lia. }
  destruct (get name store) as [d|] eqn:Ed; [cbn in Hgt|by apply Hgt].
  destruct (age_of d) as [k|] eqn:Ea; [|by apply Hgt].
  destruct (Z.compare_spec m k) as [->|Hlt|Hgt'].
  - cbn [o_left o_store]. rewrite Ed. by split.
  - destruct d as [c' a'| |]; cbn [o_left o_store]; rewrite Ed; try by split. cbn in Ea. subst a'. split; [|done].
    intros [|n q]; split; cbn; intros Hf; try done; [right; by right|by left].
  - apply Hgt. lia.
Qed.

(** An entry that is not a folder. *)
Definition leaf (o : option item) : Prop := match o with Some (File _ _) | Some (Other _) => True | _ => False end.
Definition skips (at_ : list string) (ks : items) (l : list (list string)) : Prop :=
  ∀ q, q ∈ l ↔ ∃ n p, q = at_ ++ n :: p ∧ leaf (at_path p (get n ks)).
Definition entry_folded (name : string) (i : item) (store : items) (at_ : list string) (o : outcome (option item)) : Prop :=
  kept (Some i) (get name store) (o_left o) (get name (o_store o)) ∧
  (∀ n, n ≠ name → get n (o_store o) = get n store) ∧
  (o_end o = Ok tt → skips at_ (restore name (o_left o) Empty) (o_skipped o)).
Definition dir_folded (ks store : items) (at_ : list string) (o : outcome items) : Prop :=
  (∀ n, kept (get n ks) (get n store) (get n (o_left o)) (get n (o_store o))) ∧
  (∀ n, n ∉ names ks → get n (o_store o) = get n store ∧ get n (o_left o) = None) ∧
  (o_end o = Ok tt → skips at_ (o_left o) (o_skipped o)).
Lemma at_none p : at_path p None = None.
Proof. by destruct p. Qed.
Lemma skips_leaf at_ name i : (∀ n p, at_path (n :: p) (Some i) = None) → leaf (Some i) →
  skips at_ (restore name (Some i) Empty) [at_ ++ [name]].
Proof.
  intros Hi Hl q. rewrite list_elem_of_singleton. cbn [restore get]. split.
  - intros ->. exists name, []. by rewrite decide_True.
  - intros (n & p & -> & Hp). case_decide as E; [subst|by rewrite at_none in Hp]. destruct p as [|m p]; [done|]. by rewrite Hi in Hp.
Qed.
Lemma skips_none at_ name : skips at_ (restore name None Empty) [].
Proof. intros q. split; [by intros ?%not_elem_of_nil|]. intros (n & p & _ & Hp). cbn [restore get] in Hp. by rewrite at_none in Hp. Qed.
Lemma skips_dir at_ name age ks l : skips (at_ ++ [name]) ks l → skips at_ (restore name (Some (Dir age ks)) Empty) l.
Proof.
  intros Hs q. rewrite (Hs q). cbn [restore get]. split.
  - intros (n & p & -> & Hp). exists name, (n :: p). rewrite decide_True by done. by rewrite <- app_assoc.
  - intros (m & p & -> & Hp). case_decide as E; [subst|by rewrite at_none in Hp]. destruct p as [|n p]; [done|].
    exists n, p. by rewrite <- app_assoc.
Qed.
Lemma skips_more at_ name left ks l l' : get name ks = None → skips at_ (restore name left Empty) l → skips at_ ks l' →
  skips at_ (restore name left ks) (l ++ l').
Proof.
  intros Hn Hl Hl' q. rewrite elem_of_app, (Hl q), (Hl' q). setoid_rewrite get_restore. split.
  - intros [(n & p & -> & Hp)|(n & p & -> & Hp)]; exists n, p; (split; [done|]).
    + cbn [get] in Hp. case_decide; [|by rewrite at_none in Hp]. destruct left; [done|by rewrite at_none in Hp].
    + case_decide; [subst; by rewrite Hn, at_none in Hp|done].
  - intros (n & p & -> & Hp). case_decide; [|right; by exists n, p]. subst.
    destruct left as [i|]; [left; exists n, p; by rewrite decide_True|right; by exists n, p].
Qed.
Lemma fold_file_skips name c a store p at_ : p = at_ ++ [name] → let o := fold_file name (File c a) store p in
  o_end o = Ok tt → skips at_ (restore name (o_left o) Empty) (o_skipped o).
Proof.
  intros ->. cbv zeta. unfold fold_file, move_file. pose proof (skips_leaf at_ name (File c a) (λ _ _, eq_refl) I) as Hleaf.
  pose proof (skips_none at_ name) as Hnone.
  destruct (age_order_at _ _) as [[]|]; [done| | |done]; destruct (get name store) as [[]|]; done.
Qed.
Lemma fold_spec :
  (∀ i, tidy i → ∀ name store at_, entry_folded name i store at_ (move_entry name i store at_)) ∧
  (∀ ks, tidy_items ks → ∀ store at_, dir_folded ks store at_ (move_dir ks store at_)).
Proof.
  apply item_items_ind.
  - intros c a _ name store at_. destruct (fold_file_kept name c a store (at_ ++ [name])) as [Hk Hf].
    split_and!; [exact Hk|exact Hf|by apply fold_file_skips].
  - intros a _ name store at_. split_and!; [apply kept_same|done|]. intros _. by apply skips_leaf.
  - intros a ks IH Ht name store at_. rewrite move_entry_dir. cbv zeta.
    destruct (get name store) as [[c' a'|a'|a' sub]|] eqn:Ed.
    + split_and!; [cbn; rewrite Ed; apply kept_same|done|done].
    + split_and!; [cbn; rewrite Ed; apply kept_same|done|done].
    + destruct (IH Ht sub (at_ ++ [name])) as (Hk & _ & Hs). split_and!; cbn [o_left o_store o_end o_skipped].
      * rewrite Ed, get_put_eq. by apply kept_dir.
      * intros n Hn. by apply get_put_ne.
      * intros E. by apply skips_dir, Hs.
    + destruct (IH Ht Empty (at_ ++ [name])) as (Hk & _ & Hs). split_and!; cbn [o_left o_store o_end o_skipped].
      * rewrite Ed, get_put_eq. by apply kept_new_dir.
      * intros n Hn. by apply get_put_ne.
      * intros E. by apply skips_dir, Hs.
  - intros _ store at_. split_and!; [intros n; apply kept_same|done|]. intros _ q. split; [by intros ?%not_elem_of_nil|].
    intros (n & p & _ & Hp). cbn in Hp. by rewrite at_none in Hp.
  - intros name i IHi ks IH (Hn & Hti & Ht) store at_. cbn [move_dir].
    destruct (IHi Hti name store at_) as (Hk & Hf & Hs). set (o := move_entry name i store at_) in *.
    assert (Hnone : get name ks = None) by (apply eq_None_not_Some; by rewrite get_names).
    destruct (o_end o) as [[]|e] eqn:Ee.
    + destruct (IH Ht (o_store o) at_) as (Hk' & Hf' & Hs'). set (o' := move_dir ks (o_store o) at_) in *.
      destruct (Hf' name Hn) as [Hstore Hleft]. split_and!; cbn [o_left o_store o_end o_skipped].
      * intros n. rewrite get_restore. cbn [get]. case_decide as E.
        { subst n. rewrite Hstore, Hleft. by destruct (o_left o). }
        rewrite <- (Hf n) by done. apply Hk'.
      * intros n Hni. cbn [names] in Hni. apply not_elem_of_cons in Hni as [Hne Hni]. rewrite get_restore, decide_False by done.
        destruct (Hf' n Hni) as [-> ->]. by rewrite Hf by done.
      * intros E. apply skips_more; [done|by apply Hs|by apply Hs'].
    + split_and!; cbn [o_left o_store o_end o_skipped].
      * intros n. rewrite get_restore. cbn [get]. case_decide as E.
        { subst n. rewrite Hnone. by destruct (o_left o). }
        rewrite Hf by done. apply kept_same.
      * intros n Hni. cbn [names] in Hni. apply not_elem_of_cons in Hni as [Hne Hni]. rewrite get_restore, decide_False by done.
        rewrite Hf by done. split; [done|]. apply eq_None_not_Some. by rewrite get_names.
      * done.
Qed.

(** What is left in the source has distinct names too. *)
Lemma left_tidy :
  (∀ i, tidy i → ∀ name store at_, match o_left (move_entry name i store at_) with Some i => tidy i | None => True end) ∧
  (∀ ks, tidy_items ks → ∀ store at_, tidy_items (o_left (move_dir ks store at_))).
Proof.
  apply item_items_ind.
  - intros c a _ name store at_. cbn [move_entry]. unfold fold_file, move_file.
    destruct (age_order_at _ _) as [[]|]; [done| | |done]; by destruct (get name store) as [[]|].
  - done.
  - intros a ks IH Ht name store at_. rewrite move_entry_dir. cbv zeta.
    destruct (get name store) as [[]|]; first [exact Ht|apply (IH Ht)].
  - done.
  - intros name i IHi ks IH (Hn & Hti & Ht) store at_. cbn [move_dir].
    specialize (IHi Hti name store at_). set (o := move_entry name i store at_) in *.
    assert (∀ left, name ∉ names left → tidy_items left → tidy_items (restore name (o_left o) left)) as Hr.
    { intros left Hnl Hl. destruct (o_left o); [by split_and!|done]. }
    destruct (o_end o); apply Hr; [|by apply IH|done|done].
    rewrite <- get_names, <- eq_None_not_Some. by apply (proj2 fold_spec ks Ht).
Qed.

(** The fold loses no file, on an error neither: every file of the source stays, is in the store or
    is older than the file of the store that has its path, and a file of the store is replaced by a
    newer one only. The entries that it names are the links and files that are left. *)
Theorem fold_loses_nothing src store : tidy_items src → let o := move_dir_newest_wins src store in
  (∀ n, kept (get n src) (get n store) (get n (o_left o)) (get n (o_store o))) ∧
  (o_end o = Ok tt → ∀ n p, n :: p ∈ o_skipped o ↔ leaf (at_path p (get n (o_left o)))).
Proof.
  intros Ht. cbv zeta. destruct (proj2 fold_spec src Ht store []) as (Hk & _ & Hs). split; [exact Hk|].
  intros Hok n p. rewrite (Hs Hok (n :: p)). split; [by intros (? & ? & [= -> ->] & ?)|]. intros Hp. by exists n, p.
Qed.

(** ** Laws of the link *)

Lemma prune_spec :
  (∀ i, tidy i → (∀ p, leaf (at_path p (Some i)) → at_path p (prune_item i) = at_path p (Some i)) ∧
     ((∀ p, ¬ leaf (at_path p (Some i))) → prune_item i = None)) ∧
  (∀ ks, tidy_items ks → (∀ n p, leaf (at_path p (get n ks)) → at_path p (get n (prune_items ks)) = at_path p (get n ks)) ∧
     ((∀ n p, ¬ leaf (at_path p (get n ks))) → prune_items ks = Empty) ∧
     ∀ n, get n ks = None → get n (prune_items ks) = None).
Proof.
  apply item_items_ind.
  - intros c a _. split; [done|]. intros H. by destruct (H []).
  - intros a _. split; [done|]. intros H. by destruct (H []).
  - intros a ks IH Ht. destruct (IH Ht) as (Hk & He & _). split.
    + intros [|n p] Hp; [done|]. cbn [at_path] in Hp |- *. specialize (Hk n p Hp). cbn [prune_item].
      destruct (prune_items ks); [cbn in Hk |- *; by rewrite at_none in Hk|exact Hk].
    + intros H. cbn [prune_item]. rewrite He; [done|]. intros n p. exact (H (n :: p)).
  - intros _. split_and!; [|done|done]. intros n p Hp. cbn in Hp. by rewrite at_none in Hp.
  - intros name i IHi ks IH (Hn & Hti & Ht). destruct (IHi Hti) as (Hki & Hei). destruct (IH Ht) as (Hk & He & Hg).
    assert (Hnone : get name ks = None) by (apply eq_None_not_Some; by rewrite get_names).
    assert (Hget : ∀ n, get n (prune_items (More name i ks)) = if decide (name = n) then prune_item i else get n (prune_items ks)).
    { intros n. cbn [prune_items]. destruct (prune_item i); cbn [get]; [done|]. case_decide; [subst; by apply Hg|done]. }
    split_and!.
    + intros n p. rewrite Hget. cbn [get]. case_decide; [apply Hki|apply Hk].
    + intros H. cbn [prune_items]. rewrite Hei, He; [done| |].
      * intros n p Hp. apply (H n p). cbn [get]. case_decide; [|done]. subst n. by rewrite Hnone, at_none in Hp.
      * intros p Hp. apply (H name p). cbn [get]. by rewrite decide_True.
    + intros n. rewrite Hget. cbn [get]. case_decide; [done|apply Hg].
Qed.
Lemma prune_none ks : prune_items ks = Empty → tidy_items ks → ∀ n p, ¬ leaf (at_path p (get n ks)).
Proof.
  intros He Ht n p Hp. pose proof (proj1 (proj2 prune_spec ks Ht) n p Hp) as Hk.
  rewrite He in Hk. cbn in Hk. rewrite at_none in Hk. by rewrite <- Hk in Hp.
Qed.
Lemma file_leaf o : is_file o = true → leaf o.
Proof. by destruct o as [[]|]. Qed.
Lemma kept_pruned ks n i d d' : tidy_items ks → kept i d (get n ks) d' → kept i d (get n (prune_items ks)) d'.
Proof.
  intros Ht Hk p. destruct (Hk p) as [Hi Hd]. split; [|exact Hd]. intros Hf. destruct (Hi Hf) as [E|E]; [left|by right].
  rewrite <- E. apply (proj2 prune_spec ks Ht). rewrite E. by apply file_leaf.
Qed.

Definition left_at (link : site) : items := match link with RealDir ks => ks | _ => Empty end.
(** C26: the link takes the place of a folder when the fold leaves nothing in it but empty folders. Then
    each of its files is in the store, or the store has a newer one; else the folder stays, and no
    file is lost. *)
Theorem link_loses_nothing ks target store : tidy_items ks →
  let '(r, link, store') := link_durable_dir (RealDir ks) target store in
  (∀ n, kept (get n ks) (get n store) (get n (left_at link)) (get n store')) ∧
  (link = LinkTo target ∧ r = Ok tt ∨ ∃ left, link = RealDir left) ∧
  (link = LinkTo target → ∀ n p, is_file (at_path p (get n ks)) = true →
     at_path p (get n store') = at_path p (get n ks) ∨ older (at_path p (get n ks)) (at_path p (get n store'))) ∧
  (r = Ok tt → link = LinkTo target ↔ ∀ n p, ¬ leaf (at_path p (get n (o_left (move_dir_newest_wins ks store))))).
Proof.
  intros Ht. unfold link_durable_dir, clear_link_site, move_dir_newest_wins.
  destruct (proj2 fold_spec ks Ht store []) as (Hk & _ & Hs). pose proof (proj2 left_tidy ks Ht store []) as Hlt.
  set (o := move_dir ks store []) in *. destruct (o_end o) as [[]|e] eqn:Ee; cbn [left_at].
  2: { split_and!; [exact Hk|right; by eexists|done|done]. }
  specialize (Hs eq_refl).
  assert (Hsk : o_skipped o = [] ↔ ∀ n p, ¬ leaf (at_path p (get n (o_left o)))).
  { split; [intros E n p Hp|intros H]; [|apply elem_of_nil_inv; intros q Hq].
    - assert ([] ++ n :: p ∈ o_skipped o) as Hin by (apply Hs; by exists n, p). by rewrite E, elem_of_nil in Hin.
    - apply Hs in Hq as (n & p & _ & Hp). by destruct (H n p). }
  destruct (o_skipped o) as [|q l] eqn:El.
  - pose proof (proj1 Hsk eq_refl) as Hno. rewrite (proj1 (proj2 (proj2 prune_spec _ Hlt)) Hno). cbn [left_at].
    assert (∀ n, kept (get n ks) (get n store) None (get n (o_store o))) as Hk'.
    { intros n. pose proof (kept_pruned _ n _ _ _ Hlt (Hk n)) as H. by rewrite (proj1 (proj2 (proj2 prune_spec _ Hlt)) Hno) in H. }
    split_and!; [exact Hk'|by left| |done].
    intros _ n p Hf. destruct (Hk' n p) as [Hi _]. destruct (Hi Hf) as [E|[E|(E & _ & Hold)]].
    + rewrite at_none in E. by rewrite <- E in Hf.
    + by left.
    + right. by rewrite E.
  - cbn [left_at]. split_and!.
    + intros n. apply kept_pruned; [done|apply Hk].
    + right. by eexists.
    + done.
    + intros _. split; [done|]. intros H. by apply Hsk in H.
Qed.

(** ** Laws of the copies *)

Lemma copied_spec now files src dst name :
  copy_files_named now files src dst !! name =
    match dst !! name with
    | Some d => Some d
    | None => match src !! name with Some (Real c _) => if bool_decide (name ∈ files) then Some (Real c now) else None | _ => None end
    end.
Proof.
  unfold copy_files_named. revert dst. induction files as [|f files IH]; intros dst; cbn [foldl].
  - rewrite bool_decide_false by apply not_elem_of_nil. by destruct (dst !! name), (src !! name) as [[]|].
  - rewrite IH. clear IH. destruct (decide (f = name)) as [->|Hn].
    + rewrite (bool_decide_true (name ∈ name :: files)) by left. unfold dest_already_present.
      destruct (src !! name) as [[c a| |]|] eqn:Es; [|done..].
      destruct (dst !! name) as [d|] eqn:Ed; cbn; [by rewrite Ed|by rewrite lookup_insert_eq].
    + rewrite (bool_decide_ext (name ∈ f :: files) (name ∈ files)) by (rewrite elem_of_cons; naive_solver).
      destruct (src !! f) as [[c a| |]|]; [|done..]. destruct (dest_already_present _); [done|]. by rewrite lookup_insert_ne.
Qed.
(** An exchange changes no file that is there: on each listed name the store keeps what it has or takes
    the file of the folder, then the folder keeps what it has or takes the file of the store. It is
    idempotent, and no other name is touched. *)
Theorem exchange_correct now later files store config : let '(store', config') := exchange now files store config in
  (∀ name d, store !! name = Some d → store' !! name = Some d) ∧
  (∀ name d, config !! name = Some d → config' !! name = Some d) ∧
  (∀ name, name ∉ files → store' !! name = store !! name ∧ config' !! name = config !! name) ∧
  (∀ name c a, name ∈ files → config !! name = Some (Real c a) → store !! name = None → store' !! name = Some (Real c now)) ∧
  (∀ name c a, name ∈ files → store !! name = Some (Real c a) → config !! name = None → config' !! name = Some (Real c now)) ∧
  exchange later files store' config' = (store', config').
Proof.
  unfold exchange. set (store' := copy_files_named now files config store).
  set (config' := copy_files_named now files store' config).
  assert (Hs : ∀ name, store' !! name = _) by (intros name; apply copied_spec).
  assert (Hc : ∀ name, config' !! name = _) by (intros name; apply copied_spec).
  split_and!.
  - intros name d E. by rewrite Hs, E.
  - intros name d E. by rewrite Hc, E.
  - intros name Hn. rewrite Hc, Hs, bool_decide_false by done.
    destruct (store !! name) as [[]|], (config !! name) as [[]|]; done.
  - intros name c a Hin Ec Es. by rewrite Hs, Es, Ec, bool_decide_true by done.
  - intros name c a Hin Es Ec. by rewrite Hc, Ec, Hs, Es, bool_decide_true by done.
  - assert (H1 : copy_files_named later files config' store' = store').
    { apply map_eq. intros name. rewrite copied_spec, Hc, Hs.
      destruct (store !! name) as [[]|] eqn:Es, (config !! name) as [[]|] eqn:Ec; try done; by destruct (bool_decide _). }
    rewrite H1. f_equal. apply map_eq. intros name. rewrite copied_spec, Hc, Hs.
    destruct (store !! name) as [[]|] eqn:Es, (config !! name) as [[]|] eqn:Ec; try done; by destruct (bool_decide _).
Qed.

(** ** The families of a database *)

(** The members of a family are to come from one side. They do not when the store has no member of a
    name: a log of the older local database is put beside the newer base of the store. *)
Example family_mixes :
  let store : FileMap := {["queue_1.sqlite" := Real "base B" 9%Z]} in
  let config : FileMap := {["queue_1.sqlite" := Real "base A" 5%Z; "queue_1.sqlite-wal" := Real "log of A" 5%Z]} in
  let after := (link_family 10%Z (λ m, m) "queue_1.sqlite" (store, config)).1 in
  after !! "queue_1.sqlite" = Some (Real "base B" 9%Z) ∧ after !! "queue_1.sqlite-wal" = Some (Real "log of A" 10%Z).
Proof. by vm_compute. Qed.
(** Nor when the local database is newer and has no log: the log of the store's old base stays. *)
Example family_mixes_back :
  let store : FileMap := {["queue_1.sqlite" := Real "base B" 5%Z; "queue_1.sqlite-wal" := Real "log of B" 5%Z]} in
  let config : FileMap := {["queue_1.sqlite" := Real "base A" 9%Z]} in
  let after := (link_family 10%Z (λ m, m) "queue_1.sqlite" (store, config)).1 in
  after !! "queue_1.sqlite" = Some (Real "base A" 10%Z) ∧ after !! "queue_1.sqlite-wal" = Some (Real "log of B" 5%Z).
Proof. by vm_compute. Qed.
(** A family that a running program may have open stays as it is. *)
Lemma live_family_kept now path name store config : is_Some (config !! (name +:+ "-shm")) →
  family_has_an_unmigrated_member name config = true → link_family now path name (store, config) = (store, config).
Proof. intros Hs Hm. unfold link_family, sqlite_fold_would_race_a_live_db. by rewrite Hm, bool_decide_true. Qed.
(** What becomes of a member that has the first contents [sd] and [cd]. *)
Definition member_moved now (path : string → string) prefer_local m (sd cd : option dirent) (s : FileMap * FileMap) : Prop :=
  match cd with
  | Some (Real c _) => s.1 !! m = (if negb (bool_decide (is_Some sd)) || prefer_local then Some (Real c now) else sd) ∧ s.2 !! m = Some (Symlink (path m))
  | Some Odd => s.1 !! m = sd ∧ s.2 !! m = Some Odd
  | _ => s.1 !! m = sd ∧ s.2 !! m = Some (Symlink (path m))
  end.
Lemma link_member_frame now path pl m n s : n ≠ m →
  (link_durable_sqlite_member now path pl m s).1 !! n = s.1 !! n ∧ (link_durable_sqlite_member now path pl m s).2 !! n = s.2 !! n.
Proof.
  destruct s as [store config]. intros Hn. unfold link_durable_sqlite_member.
  destruct (config !! m) as [[c a|dest|]|]; cbn [fst snd]; try case_decide; try case_match; by rewrite ?lookup_insert_ne.
Qed.
Lemma link_member_spec now path pl m s : member_moved now path pl m (s.1 !! m) (s.2 !! m) (link_durable_sqlite_member now path pl m s).
Proof.
  destruct s as [store config]. unfold link_durable_sqlite_member, member_moved. cbn [fst snd].
  destruct (config !! m) as [[c a|dest|]|] eqn:Ec; cbn [fst snd]; rewrite ?lookup_insert_eq; try done.
  - case_match; by rewrite ?lookup_insert_eq.
  - case_decide; [subst dest; by rewrite Ec|by rewrite lookup_insert_eq].
Qed.
Lemma link_members_spec now path pl ms s m : NoDup ms → m ∈ ms →
  member_moved now path pl m (s.1 !! m) (s.2 !! m) (foldl (λ s m, link_durable_sqlite_member now path pl m s) s ms).
Proof.
  assert (Hframe : ∀ ms s, m ∉ ms → let s' := foldl (λ s m, link_durable_sqlite_member now path pl m s) s ms in s'.1 !! m = s.1 !! m ∧ s'.2 !! m = s.2 !! m).
  { clear. induction ms as [|n ms IH]; intros s Hn; [done|]. apply not_elem_of_cons in Hn as [Hn Hms]. cbn [foldl].
    destruct (IH (link_durable_sqlite_member now path pl n s) Hms) as [-> ->]. by apply link_member_frame. }
  revert s. induction ms as [|n ms IH]; intros s Hnd Hm; [by apply not_elem_of_nil in Hm|]. cbn [foldl]. inv Hnd.
  apply elem_of_cons in Hm as [->|Hm].
  - pose proof (link_member_spec now path pl n s) as Hspec. destruct (Hframe ms (link_durable_sqlite_member now path pl n s)) as [E1 E2]; [done|].
    unfold member_moved in *. by rewrite E1, E2.
  - assert (m ≠ n) as Hne by (by intros ->).
    destruct (link_member_frame now path pl n m s Hne) as [<- <-]. by apply IH.
Qed.
Lemma family_nodup name : NoDup (family name).
Proof.
  assert (∀ a b, name +:+ a = name +:+ b → a = b) as Hinj by (intros a b; apply (inj (String.append name))).
  assert (∀ b, name = name +:+ b → "" = b) as Hnil by (intros b E; apply Hinj; by rewrite str_app_nil_r).
  unfold family. cbn [map SQLITE_SIDECAR_SUFFIXES]. rewrite !NoDup_cons, !not_elem_of_cons. split_and!; try apply not_elem_of_nil.
  - by intros E%Hnil.
  - by intros E%Hnil.
  - by intros E%Hinj.
  - apply NoDup_nil_2.
Qed.
(** A family that the store has no file of is moved as a whole: each file of it is in the store, and a
    link is at its place. *)
Theorem fresh_family_moved now path name store config : (∀ m, m ∈ family name → store !! m = None) →
  sqlite_fold_would_race_a_live_db name config = false →
  let s := link_family now path name (store, config) in
  ∀ m, m ∈ family name → config !! m ≠ Some Odd →
    s.2 !! m = Some (Symlink (path m)) ∧
    s.1 !! m = match config !! m with Some (Real c _) => Some (Real c now) | _ => None end.
Proof.
  intros Hno Hrace s m Hm Hodd. subst s. unfold link_family. rewrite Hrace.
  pose proof (link_members_spec now path (local_sqlite_db_is_newer name store config) (family name) (store, config) m (family_nodup name) Hm) as H.
  unfold member_moved in H. cbn [fst snd] in H. rewrite (Hno m Hm) in H. destruct (config !! m) as [[]|]; try done; tauto.
Qed.
