(* ===== verification/SessionLog.v ===== *)
(** * The session log and its rotations (src/session_log/file_sink.rs, rotation.rs, prune.rs,
    reaper.rs)

    The hooks append lines to one file. A file that reached its size is renamed to generation 1, the
    older generations move up by one, and the oldest is dropped. Old generations are pruned by age, and
    the active file is reaped by age. Generation 0 stands for the active file. What the file system
    refuses is an input of each operation. *)

From S2P Require Import Prelude TaskStore CacheSweep RustStr.

(** ** Rotation (rotation.rs) *)

Definition MAX_BYTES : nat := N.to_nat 67108864.
Definition KEPT_ROTATIONS : nat := 3.
Inductive log_file := Regular (text : string) | LinkFile | OtherFile.
Abbreviation Logs := (gmap nat log_file).
Inductive log_error := IsSymlink | NotRegular | Io (e : io_kind).

(** What each call gives: the stat of the active file, the lock, the removal of the last generation,
    the rename of generation [n] to the next one, the open and the writes. *)
Record Calls := mkCalls {
  stats : option io_kind; locks : option io_kind; drops : option io_kind; moves_up : nat → option io_kind;
  opens : option io_kind; puts : option (io_kind * nat) }.
Definition is_full (c : Calls) (logs : Logs) (max_bytes : nat) : result log_error bool :=
  match logs !! 0 with
  | None => Ok false
  | Some f =>
    match stats c with
    | Some e => Err (Io e)
    | None =>
      match f with
      | LinkFile => Err IsSymlink
      | OtherFile => Err NotRegular
      | Regular text => Ok (bool_decide (max_bytes ≤ String.length text))
      end
    end
  end.
(** [rename], where a file that is not there is [NotFound]. *)
Definition rename (c : Calls) (n : nat) (logs : Logs) : result io_kind unit * Logs :=
  match logs !! n with
  | None => (Err NotFound, logs)
  | Some f => match moves_up c n with Some e => (Err e, logs) | None => (Ok tt, <[S n := f]> (delete n logs)) end
  end.
Definition ignore_missing (r : result io_kind unit) : result io_kind unit := match r with Err NotFound => Ok tt | _ => r end.
Definition remove_oldest (c : Calls) (logs : Logs) : result io_kind unit * Logs :=
  match logs !! KEPT_ROTATIONS with
  | None => (Err NotFound, logs)
  | Some _ => match drops c with Some e => (Err e, logs) | None => (Ok tt, delete KEPT_ROTATIONS logs) end
  end.
(** The generations [n], [n - 1], ..., 1 move up; an error ends the loop. *)
Fixpoint shift_up (c : Calls) (n : nat) (logs : Logs) : result io_kind unit * Logs :=
  match n with
  | 0 => (Ok tt, logs)
  | S m =>
    let '(r, logs) := rename c n logs in
    match ignore_missing r with Ok _ => shift_up c m logs | Err e => (Err e, logs) end
  end.
(** Whether a rotation happened. The second check is made under the lock. *)
Definition rotate_if_full (c : Calls) (max_bytes : nat) (logs : Logs) : result log_error bool * Logs :=
  match is_full c logs max_bytes with
  | Err e => (Err e, logs)
  | Ok false => (Ok false, logs)
  | Ok true =>
    match locks c with
    | Some e => (Err (Io e), logs)
    | None =>
      match is_full c logs max_bytes with
      | Err e => (Err e, logs)
      | Ok false => (Ok false, logs)
      | Ok true =>
        let '(r, logs) := remove_oldest c logs in
        match ignore_missing r with
        | Err e => (Err (Io e), logs)
        | Ok _ =>
          let '(r, logs) := shift_up c (KEPT_ROTATIONS - 1) logs in
          match r with
          | Err e => (Err (Io e), logs)
          | Ok _ => let '(r, logs) := rename c 0 logs in (match r with Ok _ => Ok true | Err e => Err (Io e) end, logs)
          end
        end
      end
    end
  end.

(** ** The sink (file_sink.rs) *)

(** The append to the active file, which is created when it is absent. A link is refused by the open,
    and a write can fail after some bytes. *)
Definition append_to (c : Calls) (text : string) (logs : Logs) : result log_error unit * Logs :=
  match opens c with
  | Some e => (Err (Io e), logs)
  | None =>
    match logs !! 0 with
    | Some LinkFile => (Err (Io OtherIo), logs)
    | Some OtherFile => (Err NotRegular, logs)
    | other =>
      let old := match other with Some (Regular old) => old | _ => "" end in
      match puts c with
      | Some (e, n) => (Err (Io e), <[0 := Regular (old +:+ str_take n text)]> logs)
      | None => (Ok tt, <[0 := Regular (old +:+ text)]> logs)
      end
    end
  end.
(** ** Pruning by age (prune.rs) *)

(** [<base>.<digits>]. *)
Definition is_rotation_of (name base : string) : bool :=
  match strip_prefix base name with
  | Some rest => match strip_prefix "." rest with Some digits => negb (bool_decide (digits = "")) && str_all is_ascii_digit digits | None => false end
  | None => false
  end.
Record Expiry := mkExpiry { ex_now : Z; ex_rule : AgeRule }.
Abbreviation Stat := (string → result io_kind Times).
Definition is_old (stat : Stat) (name : string) (expiry : Expiry) : result io_kind bool :=
  t ← stat name; Ok (is_expired (ex_now expiry) (file_stamp (source (ex_rule expiry)) t) (older_than (ex_rule expiry))).
Inductive prune_failure := UnnamedEntry (e : io_kind) | FileFails (name : string) (e : io_kind).
Inductive prune_cause := NoName | CannotReadFolder (e : io_kind) | LockBusy (e : io_kind) (were_kept : nat) (failures : list prune_failure)
  | FilesFailed (failures : list prune_failure).
Record PruneError := mkPruneError { pe_removed : list string; pe_cause : prune_cause }.
(** The rotations of [base] that are old, and what could not be checked. *)
Fixpoint find_expired (base : string) (stat : Stat) (expiry : Expiry) (es : list (result io_kind string)) : list string * list prune_failure :=
  match es with
  | [] => ([], [])
  | Err e :: es => let '(expired, failures) := find_expired base stat expiry es in (expired, UnnamedEntry e :: failures)
  | Ok name :: es =>
    let '(expired, failures) := find_expired base stat expiry es in
    if is_rotation_of name base then
      match is_old stat name expiry with
      | Ok true => (name :: expired, failures)
      | Ok false | Err NotFound => (expired, failures)
      | Err e => (expired, FileFails name e :: failures)
      end
    else (expired, failures)
  end.
Fixpoint remove_candidates (stat : Stat) (remove : string → result io_kind unit) (expiry : Expiry) (candidates : list string)
  : list string * list prune_failure :=
  match candidates with
  | [] => ([], [])
  | name :: rest =>
    let '(gone, failures) := remove_candidates stat remove expiry rest in
    match is_old stat name expiry with
    | Ok true =>
      match remove name with
      | Ok _ => (name :: gone, failures)
      | Err NotFound => (gone, failures)
      | Err e => (gone, FileFails name e :: failures)
      end
    | Ok false | Err NotFound => (gone, failures)
    | Err e => (gone, FileFails name e :: failures)
    end
  end.
(** [before] is the stat of the scan, [after] the one that is made again under the lock. *)
Definition prune_rotations_at (base : option string) (listing : result io_kind (list (result io_kind string))) (expiry : Expiry)
    (before after : Stat) (lock : option io_kind) (remove : string → result io_kind unit) (dry_run : bool)
  : result PruneError (list string) :=
  match base with
  | None => Err (mkPruneError [] NoName)
  | Some base =>
    match listing with
    | Err NotFound => Ok []
    | Err e => Err (mkPruneError [] (CannotReadFolder e))
    | Ok es =>
      let '(expired, failures) := find_expired base before expiry es in
      let finish gone failures := match failures with [] => Ok gone | _ => Err (mkPruneError gone (FilesFailed failures)) end in
      if dry_run || bool_decide (expired = []) then finish expired failures
      else
        match lock with
        | Some e => Err (mkPruneError [] (LockBusy e (length expired) failures))
        | None => let '(gone, more) := remove_candidates after remove expiry expired in finish gone (failures ++ more)
        end
    end
  end.

(** ** Reaping of the active file (reaper.rs) *)

Inductive reap_notice := CannotReadAge (e : io_kind) | FromTheFuture | CannotReap (e : io_kind) | CannotReadParent (e : io_kind) | CannotRemoveParent (e : io_kind).
Record Reaped := mkReaped { rp_file : bool; rp_folder : bool; rp_notice : option reap_notice }.
(** [empty]: whether the folder has no entry left; [None] of [remove_dir] is the case that it has one. *)
Definition reap_session_log (retention_days : N) (src : AgeSource) (now : Z) (stat : result io_kind Times) (remove : result io_kind unit)
    (empty : result io_kind bool) (remove_dir : result (option io_kind) unit) : Reaped :=
  if (retention_days =? 0)%N then mkReaped false false None
  else
    match stat with
    | Err NotFound => mkReaped false false None
    | Err e => mkReaped false false (Some (CannotReadAge e))
    | Ok t =>
      let stamp := file_stamp src t in
      if bool_decide (stamp ≤ now)%Z then
        if bool_decide (now - stamp < Z.of_N (N.min (retention_days * 86400) u64_max))%Z then mkReaped false false None
        else
          match remove with
          | Err NotFound => mkReaped false false None
          | Err e => mkReaped false false (Some (CannotReap e))
          | Ok _ =>
            match empty with
            | Err e => mkReaped true false (Some (CannotReadParent e))
            | Ok false => mkReaped true false None
            | Ok true =>
              match remove_dir with
              | Ok _ => mkReaped true true None
              | Err None => mkReaped true false None
              | Err (Some e) => mkReaped true false (Some (CannotRemoveParent e))
              end
            end
          end
      else mkReaped false false (Some FromTheFuture)
    end.

Section sink.
(** The JSON of the two markers. *)
Context (rotation_marker : string) (rotation_failed_marker : log_error → string).
Definition preface (rotated : result log_error bool) : string :=
  match rotated with
  | Ok true => rotation_marker +:+ nl
  | Ok false => ""
  | Err e => rotation_failed_marker e +:+ nl
  end.
(** A path that is refused ends the append; any other failure of the rotation does not. *)
Definition try_append (c : Calls) (max_bytes : nat) (line : string) (logs : Logs) : result log_error unit * Logs :=
  let '(rotated, logs) := rotate_if_full c max_bytes logs in
  match rotated with
  | Err IsSymlink => (Err IsSymlink, logs)
  | Err NotRegular => (Err NotRegular, logs)
  | _ => append_to c (preface rotated +:+ line +:+ nl) logs
  end.

(** ** What the log keeps *)

Definition text_of (logs : Logs) (n : nat) : string := match logs !! n with Some (Regular text) => text | _ => "" end.
(** The generations, the oldest first. *)
Definition history (logs : Logs) : string := text_of logs 3 +:+ text_of logs 2 +:+ text_of logs 1 +:+ text_of logs 0.
Definition regular (logs : Logs) : Prop := map_Forall (λ n f, n ≤ KEPT_ROTATIONS ∧ ∃ text, f = Regular text) logs.
(** No gap between the generations, and each rotated one was full. *)
Definition stacked (max_bytes : nat) (logs : Logs) : Prop :=
  ∀ n, 1 ≤ n → is_Some (logs !! n) → max_bytes ≤ String.length (text_of logs n) ∧ (1 < n → is_Some (logs !! (n - 1))).

Lemma text_at logs n f : logs !! n = f → text_of logs n = match f with Some (Regular text) => text | _ => "" end.
Proof. by intros <-. Qed.
Lemma text_insert logs n m f : text_of (<[n := f]> logs) m = if decide (n = m) then match f with Regular text => text | _ => "" end else text_of logs m.
Proof. unfold text_of. case_decide; [subst; by rewrite lookup_insert_eq|by rewrite lookup_insert_ne]. Qed.
Lemma text_delete logs n m : text_of (delete n logs) m = if decide (n = m) then "" else text_of logs m.
Proof. unfold text_of. case_decide; [subst; by rewrite lookup_delete_eq|by rewrite lookup_delete_ne]. Qed.
(** A file that is there is not [NotFound]: the lock keeps the other passes out. *)
Definition honest (c : Calls) : Prop := drops c ≠ Some NotFound ∧ ∀ n, moves_up c n ≠ Some NotFound.
(** A rename to a generation that is free moves no text in the history. *)
Lemma rename_keeps c n logs : honest c → n < KEPT_ROTATIONS → logs !! S n = None → regular logs →
  let '(r, logs') := rename c n logs in
  history logs' = history logs ∧ regular logs' ∧ (ignore_missing r = Ok tt → logs' !! n = None) ∧
  (∀ m, m ≠ n → m ≠ S n → logs' !! m = logs !! m) ∧ (r = Ok tt → logs' !! S n = logs !! n ∧ is_Some (logs !! n)).
Proof.
  intros [_ Hc] Hn Hfree Hreg. specialize (Hc n). unfold rename. destruct (logs !! n) as [f|] eqn:Ef; [|split_and!; done].
  destruct (moves_up c n) as [e|]; [split_and!; try done; by destruct e|].
  destruct (Hreg n f Ef) as [_ [text ->]]. split_and!.
  - pose proof (text_at _ _ _ Ef) as Et. pose proof (text_at _ _ _ Hfree) as Es. cbn in Et, Es.
    unfold history. rewrite !text_insert, !text_delete. unfold KEPT_ROTATIONS in Hn.
    destruct n as [|[|[|]]]; [..|lia]; repeat case_decide; try lia; by rewrite ?Et, ?Es, ?str_app_nil_r, ?str_app_nil_l.
  - intros m f Hm. apply lookup_insert_Some in Hm as [[<- <-]|[_ Hm]]; [split; [lia|by eexists]|].
    apply lookup_delete_Some in Hm as [_ Hm]. by apply (Hreg m).
  - intros _. rewrite lookup_insert_ne by lia. apply lookup_delete_eq.
  - intros m H1 H2. by rewrite lookup_insert_ne, lookup_delete_ne by done.
  - intros _. split; [apply lookup_insert_eq|by eexists].
Qed.

Lemma shift_keeps c n logs : honest c → n < KEPT_ROTATIONS → logs !! S n = None → regular logs →
  let '(r, logs') := shift_up c n logs in
  history logs' = history logs ∧ regular logs' ∧ (r = Ok tt → logs' !! 1 = None) ∧ logs' !! 0 = logs !! 0.
Proof.
  intros Hc. revert logs. induction n as [|n IH]; intros logs Hn Hfree Hreg; cbn [shift_up]; [by split_and!|].
  pose proof (rename_keeps c (S n) logs Hc Hn Hfree Hreg) as Hr. destruct (rename c (S n) logs) as [r logs1].
  destruct Hr as (Hh & Hreg1 & Hnone & Hother & _). assert (logs1 !! 0 = logs !! 0) as H0 by (apply Hother; lia).
  destruct (ignore_missing r) as [[]|e]; [|by split_and!]. specialize (IH logs1 ltac:(lia) (Hnone eq_refl) Hreg1).
  destruct (shift_up c n logs1) as [r' logs2]. destruct IH as (Hh2 & Hreg2 & Hr2 & H02). split_and!; [by rewrite Hh2|done..|by rewrite H02].
Qed.
Lemma full_regular c max logs : regular logs →
  match is_full c logs max with
  | Ok true => max ≤ String.length (text_of logs 0)
  | Ok false => True
  | Err e => e ≠ IsSymlink ∧ e ≠ NotRegular
  end.
Proof.
  intros Hreg. unfold is_full, text_of. destruct (logs !! 0) as [f|] eqn:E; [|done]. destruct (Hreg 0 f E) as [_ [text ->]].
  destruct (stats c); [done|]. by case_bool_decide.
Qed.
Lemma oldest_dropped c logs : honest c → regular logs → let '(r, logs') := remove_oldest c logs in
  match ignore_missing r with
  | Ok _ => text_of logs 3 +:+ history logs' = history logs ∧ regular logs' ∧ logs' !! 3 = None ∧ logs' !! 0 = logs !! 0
  | Err _ => logs' = logs
  end.
Proof.
  intros [Hc _] Hreg. unfold remove_oldest. destruct (logs !! KEPT_ROTATIONS) as [f|] eqn:E; unfold KEPT_ROTATIONS in E.
  - destruct (drops c) as [e|]; [by destruct e|]. cbn [ignore_missing]. split_and!; [|by intros n g [_ Hg]%lookup_delete_Some; apply (Hreg n)|by apply lookup_delete_eq|by apply lookup_delete_ne].
    unfold history. rewrite !text_delete. cbn [decide]. repeat case_decide; try (unfold KEPT_ROTATIONS in *; lia). by rewrite str_app_nil_l.
  - cbn [ignore_missing]. split_and!; try done. unfold text_of at 1. by rewrite E, str_app_nil_l.
Qed.
(** A rotation drops nothing but the oldest generation, and only when the active file is full; what a
    failure leaves half done loses nothing more. *)
Lemma rotate_keeps c max logs : honest c → regular logs →
  let '(r, logs') := rotate_if_full c max logs in
  regular logs' ∧ (r ≠ Err IsSymlink ∧ r ≠ Err NotRegular) ∧
  ∃ dropped, dropped +:+ history logs' = history logs ∧
    (dropped = "" ∨ dropped = text_of logs 3 ∧ max ≤ String.length (text_of logs 0)).
Proof.
  intros Hc Hreg. unfold rotate_if_full. pose proof (full_regular c max logs Hreg) as Hfull.
  assert (Hsame : ∃ dropped, dropped +:+ history logs = history logs ∧
    (dropped = "" ∨ dropped = text_of logs 3 ∧ max ≤ String.length (text_of logs 0))) by (exists ""; split; [done|by left]).
  destruct (is_full c logs max) as [[]|e]; [|by split_and!|split_and!; [done|naive_solver..|done]].
  destruct (locks c); [by split_and!|]. pose proof (oldest_dropped c logs Hc Hreg) as Hd.
  destruct (remove_oldest c logs) as [r logs1]. destruct (ignore_missing r) as [[]|e]; [|subst; by split_and!].
  destruct Hd as (Hh1 & Hreg1 & H3 & H0). unfold KEPT_ROTATIONS. cbn [Nat.sub].
  pose proof (shift_keeps c 2 logs1 Hc ltac:(unfold KEPT_ROTATIONS; lia) H3 Hreg1) as Hs.
  destruct (shift_up c 2 logs1) as [r2 logs2]. destruct Hs as (Hh2 & Hreg2 & Hnone & _).
  destruct r2 as [[]|e].
  - pose proof (rename_keeps c 0 logs2 Hc ltac:(unfold KEPT_ROTATIONS; lia) (Hnone eq_refl) Hreg2) as Hr.
    destruct (rename c 0 logs2) as [r3 logs3]. destruct Hr as (Hh3 & Hreg3 & _). split_and!; [done|by destruct r3..|].
    exists (text_of logs 3). rewrite Hh3, Hh2. split; [done|by right].
  - split_and!; try done. exists (text_of logs 3). rewrite Hh2. split; [done|by right].
Qed.
Lemma append_adds c text logs : regular logs → let '(r, logs') := append_to c text logs in
  regular logs' ∧ ∃ written, history logs' = history logs +:+ written ∧ (r = Ok tt → written = text).
Proof.
  intros Hreg. unfold append_to. assert (Hnone : ∃ written, history logs = history logs +:+ written ∧ (Err (A:=unit) (Io OtherIo) = Ok tt → written = text))
    by (exists ""; by rewrite str_app_nil_r).
  destruct (opens c) as [e|]; [split; [done|exists ""; by rewrite str_app_nil_r]|].
  assert (∀ t, regular (<[0 := Regular t]> logs)) as Hreg'.
  { intros t n f [[<- <-]|[_ Hf]]%lookup_insert_Some; [split; [unfold KEPT_ROTATIONS; lia|by eexists]|by apply (Hreg n)]. }
  assert (∀ extra, history (<[0 := Regular (text_of logs 0 +:+ extra)]> logs) = history logs +:+ extra) as Hadd.
  { intros extra. unfold history. rewrite !text_insert. repeat case_decide; try lia. by rewrite !str_app_assoc. }
  destruct (logs !! 0) as [f|] eqn:E.
  - destruct (Hreg 0 f E) as [_ [old ->]]. assert (text_of logs 0 = old) as <- by (unfold text_of; by rewrite E).
    destruct (puts c) as [[e n]|]; (split; [apply Hreg'|eexists; split; [apply Hadd|done]]).
  - assert (text_of logs 0 = "") as E0 by (unfold text_of; by rewrite E). rewrite E0 in Hadd.
    destruct (puts c) as [[e n]|]; (split; [apply Hreg'|eexists; split; [apply Hadd|done]]).
Qed.
(** An append keeps the log in its order: what the files hold after it is what they held, with the new
    text behind it and, at most, the oldest generation gone; whatever fails. An append that succeeds
    wrote its line. *)
Theorem append_keeps_order c max line logs : honest c → regular logs →
  let '(r, logs') := try_append c max line logs in
  regular logs' ∧ ∃ dropped written,
    dropped +:+ history logs' = history logs +:+ written ∧
    (dropped = "" ∨ dropped = text_of logs 3 ∧ max ≤ String.length (text_of logs 0)) ∧
    (r = Ok tt → ∃ rotated, written = preface rotated +:+ line +:+ nl).
Proof.
  intros Hc Hreg. unfold try_append. pose proof (rotate_keeps c max logs Hc Hreg) as Hr.
  destruct (rotate_if_full c max logs) as [rotated logs1]. destruct Hr as (Hreg1 & [Hl Ho] & dropped & Hh & Hd).
  pose proof (append_adds c (preface rotated +:+ line +:+ nl) logs1 Hreg1) as Ha.
  assert (match rotated with Err IsSymlink => (Err IsSymlink, logs1) | Err NotRegular => (Err NotRegular, logs1)
    | _ => append_to c (preface rotated +:+ line +:+ nl) logs1 end = append_to c (preface rotated +:+ line +:+ nl) logs1) as ->
    by (destruct rotated as [|[]]; done).
  destruct (append_to c _ logs1) as [r logs2]. destruct Ha as (Hreg2 & written & Hw & Hok). split; [done|].
  exists dropped, written. rewrite Hw, <- str_app_assoc, Hh. split_and!; [done..|]. intros E. exists rotated. by apply Hok.
Qed.

(** ** What is kept when nothing fails *)

Definition calm : Calls := mkCalls None None None (λ _, None) None None.
Lemma calm_honest : honest calm.
Proof. by split. Qed.
Lemma calm_rename n logs : n < KEPT_ROTATIONS → logs !! S n = None → regular logs → let '(r, logs') := rename calm n logs in
  ignore_missing r = Ok tt ∧ (is_Some (logs !! n) → r = Ok tt) ∧ regular logs' ∧ logs' !! S n = logs !! n ∧ logs' !! n = None ∧
  ∀ m, m ≠ n → m ≠ S n → logs' !! m = logs !! m.
Proof.
  intros Hn Hfree Hreg. pose proof (rename_keeps calm n logs calm_honest Hn Hfree Hreg) as H. unfold rename in *.
  destruct (logs !! n) as [f|] eqn:E; cbn [calm moves_up] in *.
  - destruct H as (_ & Hreg' & Hnone & Hother & Hok). split_and!; try done; [by apply Hok|by apply Hnone].
  - by split_and!.
Qed.
Lemma calm_rotation max logs : regular logs → max ≤ String.length (text_of logs 0) → is_Some (logs !! 0) →
  let '(r, logs') := rotate_if_full calm max logs in
  r = Ok true ∧ logs' !! 0 = None ∧ ∀ n, 1 ≤ n ≤ 3 → logs' !! n = logs !! (n - 1).
Proof.
  intros Hreg Hfull [f E0]. unfold rotate_if_full. destruct (Hreg 0 f E0) as [_ [text ->]].
  assert (is_full calm logs max = Ok true) as ->.
  { unfold is_full. rewrite E0. cbn [calm stats]. unfold text_of in Hfull. rewrite E0 in Hfull. by rewrite bool_decide_true. }
  cbn [calm locks]. pose proof (oldest_dropped calm logs calm_honest Hreg) as Hd.
  assert (Hother : ∀ m, m ≠ 3 → (remove_oldest calm logs).2 !! m = logs !! m).
  { intros m Hm. unfold remove_oldest. destruct (logs !! KEPT_ROTATIONS); [|done]. by apply lookup_delete_ne. }
  assert (ignore_missing (remove_oldest calm logs).1 = Ok tt) as Hr by (unfold remove_oldest; by destruct (logs !! KEPT_ROTATIONS)).
  destruct (remove_oldest calm logs) as [r logs1]. cbn [fst snd] in Hr, Hother. rewrite Hr in Hd |- *.
  destruct Hd as (_ & Hreg1 & H3 & _). unfold KEPT_ROTATIONS. cbn [Nat.sub shift_up].
  pose proof (calm_rename 2 logs1 ltac:(unfold KEPT_ROTATIONS; lia) H3 Hreg1) as H2. destruct (rename calm 2 logs1) as [r2 logs2].
  destruct H2 as (-> & _ & Hreg2 & E3 & H2 & Ho2).
  pose proof (calm_rename 1 logs2 ltac:(unfold KEPT_ROTATIONS; lia) H2 Hreg2) as H1. destruct (rename calm 1 logs2) as [r1 logs3].
  destruct H1 as (-> & _ & Hreg3 & E2 & H1 & Ho1). cbn [ignore_missing].
  pose proof (calm_rename 0 logs3 ltac:(unfold KEPT_ROTATIONS; lia) H1 Hreg3) as Hz. destruct (rename calm 0 logs3) as [r0 logs4].
  destruct Hz as (_ & Hok & _ & E1 & Hn0 & Ho0).
  assert (logs3 !! 0 = logs !! 0) as E by (rewrite Ho1, Ho2, Hother by lia; done).
  rewrite Hok by (rewrite E, E0; by eexists). split_and!; [done..|].
  intros n Hn. destruct n as [|[|[|[|]]]]; try lia; cbn [Nat.sub].
  - by rewrite E1, E.
  - rewrite Ho0, E2, Ho2, Hother by lia. done.
  - rewrite Ho0, Ho1, E3, Hother by lia. done.
Qed.
Lemma stacked_rotated max logs logs' : stacked max logs → regular logs' → max ≤ String.length (text_of logs 0) → is_Some (logs !! 0) →
  (∀ n, 1 ≤ n ≤ 3 → logs' !! n = logs !! (n - 1)) → stacked max logs'.
Proof.
  intros Hs Hreg Hfull H0 Hn n Hpos [f Hf]. destruct (Hreg n f Hf) as [Hle _]. unfold KEPT_ROTATIONS in Hle.
  assert (text_of logs' n = text_of logs (n - 1)) as Et by (unfold text_of; by rewrite Hn by lia).
  rewrite Hn in Hf by lia. rewrite Et. destruct (decide (n = 1)) as [->|]; [split; [done|lia]|].
  destruct (Hs (n - 1) ltac:(lia) ltac:(by eexists)) as [Hlen Hprev]. split; [done|]. intros _. rewrite Hn by lia.
  destruct (decide (n = 2)) as [->|]; [done|]. apply Hprev. lia.
Qed.

Lemma stacked_append max logs extra : stacked max logs → stacked max (<[0 := Regular extra]> logs).
Proof.
  intros Hs n Hpos. rewrite text_insert, lookup_insert_ne, decide_False by lia. intros Hn. destruct (Hs n Hpos Hn) as [Hl Hp].
  split; [exact Hl|]. intros H1. rewrite lookup_insert_ne by lia. by apply Hp.
Qed.
Lemma calm_append_to max text logs : regular logs → stacked max logs → let '(r, logs') := append_to calm text logs in
  r = Ok tt ∧ stacked max logs'.
Proof.
  intros Hreg Hs. unfold append_to. cbn [calm opens puts]. destruct (logs !! 0) as [f|] eqn:E.
  - destruct (Hreg 0 f E) as [_ [old ->]]. split; [done|by apply stacked_append].
  - split; [done|by apply stacked_append].
Qed.
Lemma three_full max logs logs' : stacked max logs → max ≤ String.length (text_of logs 0) → text_of logs 3 ≠ "" →
  (∀ n, 1 ≤ n ≤ 3 → logs' !! n = logs !! (n - 1)) → 3 * max ≤ String.length (history logs').
Proof.
  intros Hs Hfull H3 Hn.
  assert (is_Some (logs !! 3)) as Hs3 by (unfold text_of in H3; destruct (logs !! 3); [by eexists|done]).
  destruct (Hs 3 ltac:(lia) Hs3) as [_ Hs2]. destruct (Hs 2 ltac:(lia) (Hs2 ltac:(lia))) as [Hl2 Hs1].
  destruct (Hs 1 ltac:(lia) (Hs1 ltac:(lia))) as [Hl1 _].
  assert (∀ n, 1 ≤ n ≤ 3 → text_of logs' n = text_of logs (n - 1)) as Ht by (intros n Hr; unfold text_of; by rewrite Hn).
  unfold history. rewrite !str_length_app, !Ht by lia. cbn [Nat.sub]. lia.
Qed.
Lemma calm_append max line logs : regular logs → stacked max logs → let '(r, logs') := try_append calm max line logs in
  r = Ok tt ∧ regular logs' ∧ stacked max logs' ∧ ∃ dropped pre,
    dropped +:+ history logs' = history logs +:+ pre +:+ line +:+ nl ∧ (pre = "" ∨ pre = rotation_marker +:+ nl) ∧
    (dropped = "" ∨ 3 * max ≤ String.length (history logs')).
Proof.
  intros Hreg Hs. unfold try_append. pose proof (rotate_keeps calm max logs calm_honest Hreg) as Hk.
  assert (∃ rotated logs1, rotate_if_full calm max logs = (Ok rotated, logs1) ∧ stacked max logs1 ∧
    (rotated = true → text_of logs 3 ≠ "" → 3 * max ≤ String.length (history logs1)) ∧ (rotated = false → logs1 = logs)) as (rotated & logs1 & Er & Hs1 & H3 & Hsame).
  { destruct (is_full calm logs max) as [[]|e] eqn:Ef.
    - assert (is_Some (logs !! 0)) as H0 by (unfold is_full in Ef; destruct (logs !! 0); [by eexists|done]).
      pose proof (full_regular calm max logs Hreg) as Hf. rewrite Ef in Hf. pose proof (calm_rotation max logs Hreg Hf H0) as Hr.
      destruct (rotate_if_full calm max logs) as [r logs1]. destruct Hr as (-> & _ & Hn). exists true, logs1.
      split_and!; [done| | |done]; [by eapply stacked_rotated; [|apply Hk|..]|]. intros _ H3. by eapply three_full.
    - exists false, logs. unfold rotate_if_full. rewrite Ef. by split_and!.
    - unfold is_full in Ef. destruct (logs !! 0) as [f|] eqn:E0; [|done]. destruct (Hreg 0 f E0) as [_ [t ->]]. done. }
  rewrite Er in Hk |- *. destruct Hk as (Hreg1 & _ & dropped & Hh & Hd).
  set (text := preface (Ok rotated) +:+ line +:+ nl).
  pose proof (append_adds calm text logs1 Hreg1) as Ha. pose proof (calm_append_to max text logs1 Hreg1 Hs1) as Hc.
  destruct (append_to calm text logs1) as [r logs2]. destruct Hc as [-> Hs2]. destruct Ha as (Hreg2 & written & Hw & Hok).
  rewrite (Hok eq_refl) in Hw. split_and!; [done..|].
  exists dropped, (preface (Ok rotated)). split_and!.
  - by rewrite Hw, <- str_app_assoc, Hh.
  - destruct rotated; [by right|by left].
  - destruct (decide (dropped = "")) as [|Hne]; [by left|right]. destruct Hd as [?|[-> _]]; [done|].
    destruct rotated; [|destruct Hne; rewrite (Hsame eq_refl) in Hh; apply (f_equal String.length) in Hh; rewrite str_length_app in Hh;
      destruct (text_of logs 3); [done|cbn in Hh; lia]].
    rewrite Hw, str_length_app. specialize (H3 eq_refl Hne). lia.
Qed.
Definition log_lines (max : nat) (lines : list string) (logs : Logs) : Logs := foldl (λ logs line, (try_append calm max line logs).2) logs lines.
(** A line as it is written: alone, or behind the marker of the rotation that its append made. *)
Definition written_as (line piece : string) : Prop := ∃ pre, piece = pre +:+ line +:+ nl ∧ (pre = "" ∨ pre = rotation_marker +:+ nl).
(** C28: while nothing fails the log is the tail of what was logged, in its order: the files hold all lines,
    or they hold the last ones and at least three times the size at which a file rotates. *)
Theorem log_is_tail max lines : ∃ pieces dropped, Forall2 written_as lines pieces ∧
  dropped +:+ history (log_lines max lines ∅) = foldr String.append "" pieces ∧
  (dropped = "" ∨ 3 * max ≤ String.length (history (log_lines max lines ∅))).
Proof.
  assert (Hgen : ∀ logs, regular logs → stacked max logs → ∃ pieces dropped, Forall2 written_as lines pieces ∧
    dropped +:+ history (log_lines max lines logs) = history logs +:+ foldr String.append "" pieces ∧
    (dropped = "" ∨ 3 * max ≤ String.length (history (log_lines max lines logs))) ∧
    (3 * max ≤ String.length (history logs) → 3 * max ≤ String.length (history (log_lines max lines logs)))).
  { induction lines as [|line lines IH]; intros logs Hreg Hs.
    - exists [], "". split_and!; [constructor|by rewrite str_app_nil_l, str_app_nil_r|by left|done].
    - pose proof (calm_append max line logs Hreg Hs) as Ha. unfold log_lines. cbn [foldl].
      destruct (try_append calm max line logs) as [r logs1]. destruct Ha as (_ & Hreg1 & Hs1 & dropped & pre & Eh & Hpre & Hd).
      destruct (IH logs1 Hreg1 Hs1) as (pieces & dropped' & Hp & Eh' & Hd' & Hmono). cbn [snd].
      exists ((pre +:+ line +:+ nl) :: pieces), (dropped +:+ dropped'). fold (log_lines max lines logs1).
      assert (3 * max ≤ String.length (history logs) → 3 * max ≤ String.length (history logs1)) as Hm1.
      { intros Hl. destruct Hd as [->|?]; [|done]. rewrite str_app_nil_l in Eh. rewrite Eh, str_length_app. lia. }
      split_and!.
      + constructor; [by exists pre|done].
      + cbn [foldr]. rewrite str_app_assoc, Eh', <- !str_app_assoc, Eh. by rewrite !str_app_assoc.
      + destruct Hd as [->|Hbig]; [rewrite str_app_nil_l; exact Hd'|right; by apply Hmono].
      + intros Hl. by apply Hmono, Hm1. }
  destruct (Hgen ∅) as (pieces & dropped & Hp & Eh & Hd & _).
  - by intros n f ?%lookup_empty_Some.
  - intros n _ Hn. rewrite lookup_empty in Hn. by destruct Hn.
  - exists pieces, dropped. split_and!; [done| |done]. by rewrite Eh.
Qed.
End sink.

(** ** Laws of the pruning *)

Lemma active_not_rotation base : is_rotation_of base base = false.
Proof.
  unfold is_rotation_of. assert (strip_prefix base base = Some "") as -> by (rewrite <- (str_app_nil_r base) at 2; apply strip_prefix_app).
  done.
Qed.
Lemma expired_spec base stat expiry es name : name ∈ (find_expired base stat expiry es).1 ↔
  Ok name ∈ es ∧ is_rotation_of name base = true ∧ is_old stat name expiry = Ok true.
Proof.
  induction es as [|[n|e] es IH]; cbn [find_expired].
  - split; [by intros ?%elem_of_nil|by intros [?%elem_of_nil _]].
  - rewrite elem_of_cons. destruct (find_expired base stat expiry es) as [expired failures]. cbn [fst] in IH.
    assert (Hskip : (is_rotation_of n base = true → is_old stat n expiry ≠ Ok true) →
      name ∈ expired ↔ (Ok (E:=io_kind) name = Ok n ∨ Ok name ∈ es) ∧ is_rotation_of name base = true ∧ is_old stat name expiry = Ok true).
    { intros Hno. rewrite IH. split; [tauto|]. intros [[[= ->]|?] [Hr Ho]]; [by destruct (Hno Hr)|done]. }
    destruct (is_rotation_of n base) eqn:Er; [|by apply Hskip].
    destruct (is_old stat n expiry) as [[]|[]] eqn:Eo; cbn [fst]; try (by apply Hskip).
    rewrite elem_of_cons, IH. split; [intros [->|?]; [split; [by left|done]|tauto]|]. intros [[[= ->]|?] ?]; [by left|by right].
  - rewrite elem_of_cons. destruct (find_expired base stat expiry es) as [expired failures]. cbn [fst] in IH |- *. rewrite IH. naive_solver.
Qed.
Lemma removed_spec stat remove expiry candidates name : name ∈ (remove_candidates stat remove expiry candidates).1 ↔
  name ∈ candidates ∧ is_old stat name expiry = Ok true ∧ remove name = Ok tt.
Proof.
  induction candidates as [|n rest IH]; cbn [remove_candidates]; [split; [by intros ?%elem_of_nil|by intros [?%elem_of_nil _]]|].
  rewrite elem_of_cons. destruct (remove_candidates stat remove expiry rest) as [gone failures]. cbn [fst] in IH.
  assert (Hskip : (is_old stat n expiry = Ok true → remove n ≠ Ok tt) →
    name ∈ gone ↔ (name = n ∨ name ∈ rest) ∧ is_old stat name expiry = Ok true ∧ remove name = Ok tt).
  { intros Hno. rewrite IH. split; [tauto|]. intros [[->|?] [Ho Hr]]; [by destruct (Hno Ho)|done]. }
  destruct (is_old stat n expiry) as [[]|[]] eqn:Eo; cbn [fst]; try (by apply Hskip).
  destruct (remove n) as [[]|[]] eqn:Er; cbn [fst]; try (by apply Hskip).
  rewrite elem_of_cons, IH. split; [intros [->|?]; [split; [by left|done]|tauto]|]. intros [[->|?] ?]; [by left|by right].
Qed.
(** What a failure of a file says: it names a rotation that could not be checked or removed. *)
Lemma unfailed stat remove expiry candidates name : (remove_candidates stat remove expiry candidates).2 = [] → name ∈ candidates →
  name ∈ (remove_candidates stat remove expiry candidates).1 ∨ is_old stat name expiry = Ok false ∨ is_old stat name expiry = Err NotFound ∨
  remove name = Err NotFound.
Proof.
  induction candidates as [|n rest IH]; cbn [remove_candidates]; [by intros _ ?%elem_of_nil|].
  destruct (remove_candidates stat remove expiry rest) as [gone failures]. cbn [fst snd] in IH. intros Hf Hin.
  destruct (is_old stat n expiry) as [[]|[]] eqn:Eo; try (destruct (remove n) as [[]|[]] eqn:Er); cbn [fst snd] in *; try done;
    apply elem_of_cons in Hin as [->|Hin]; try (specialize (IH Hf Hin)); try rewrite elem_of_cons; tauto.
Qed.
Definition removed_of (r : result PruneError (list string)) : list string := match r with Ok l => l | Err e => pe_removed e end.
(** A pass removes only rotations that are old when it looks and still old under the lock; a preview lists
    exactly the old ones; and a pass that ends well leaves an old rotation only when it is young again or
    gone. The active file is no rotation of itself. *)
Theorem prune_rotations_correct base es expiry before after lock remove dry_run :
  let r := prune_rotations_at (Some base) (Ok es) expiry before after lock remove dry_run in
  let old p := Ok p ∈ es ∧ is_rotation_of p base = true ∧ is_old before p expiry = Ok true in
  (∀ p, p ∈ removed_of r → old p ∧ p ≠ base ∧ (dry_run = false → is_old after p expiry = Ok true ∧ remove p = Ok tt)) ∧
  (dry_run = true → ∀ p, p ∈ removed_of r ↔ old p) ∧
  (∀ l, r = Ok l → ∀ p, old p → p ∈ l ∨ is_old after p expiry = Ok false ∨ is_old after p expiry = Err NotFound ∨ remove p = Err NotFound).
Proof.
  intros r old. subst r. unfold prune_rotations_at.
  assert (Hold : ∀ p, p ∈ (find_expired base before expiry es).1 ↔ old p) by (intros p; apply expired_spec).
  destruct (find_expired base before expiry es) as [expired failures]. cbn [fst] in Hold.
  assert (Hbase : ∀ p, old p → p ≠ base) by (intros p (_ & Hr & _) ->; by rewrite active_not_rotation in Hr).
  assert (Hfin : ∀ gone failures, removed_of (match failures with [] => Ok gone | _ => Err (mkPruneError gone (FilesFailed failures)) end) = gone)
    by (by intros gone []).
  destruct (dry_run || bool_decide (expired = [])) eqn:Ed.
  - rewrite Hfin. split_and!.
    + intros p Hp. apply orb_true_iff in Ed as [->|Ed%bool_decide_eq_true]; [|subst; by apply elem_of_nil in Hp].
      apply Hold in Hp. split_and!; [done|by apply Hbase|done].
    + intros _ p. apply Hold.
    + intros l Hl p Hp%Hold. left. destruct failures; [by injection Hl as <-|done].
  - apply orb_false_iff in Ed as [-> Ed]. destruct lock as [e|]; [split_and!; [by intros p ?%elem_of_nil|done|done]|].
    pose proof (λ p, removed_spec after remove expiry expired p) as Hrem. pose proof (λ p, unfailed after remove expiry expired p) as Hun.
    destruct (remove_candidates after remove expiry expired) as [gone more]. cbn [fst snd] in Hrem, Hun. rewrite Hfin. split_and!.
    + intros p (Hp & Ho & Hr)%Hrem. apply Hold in Hp. split_and!; [done|by apply Hbase|done].
    + done.
    + intros l Hl p Hp%Hold. destruct (failures ++ more) eqn:Ef; [|done]. injection Hl as <-. apply app_eq_nil in Ef as [_ ->]. by apply Hun.
Qed.
(** The reaper removes the file exactly when retention is on, its age is known and has reached it, and
    the removal passes; the folder goes only after the file and only when it is empty. *)
Lemma reap_correct days src now stat remove empty remove_dir : let r := reap_session_log days src now stat remove empty remove_dir in
  (rp_file r = true ↔ days ≠ 0%N ∧ remove = Ok tt ∧
     ∃ t, stat = Ok t ∧ (Z.of_N (N.min (days * 86400) u64_max) ≤ now - file_stamp src t)%Z) ∧
  (rp_folder r = true → rp_file r = true ∧ empty = Ok true).
Proof.
  cbv zeta. unfold reap_session_log. destruct (N.eqb_spec days 0) as [->|Hd]; [split; [|done]; split; [done|naive_solver]|].
  destruct stat as [t|e]; [|destruct e; (split; [|done]; split; [done|naive_solver])]. case_bool_decide as Hs.
  2: { split; [|done]. split; [done|]. intros (_ & _ & t' & [= <-] & Ht). lia. }
  case_bool_decide as Ha; [split; [|done]; split; [done|]; intros (_ & _ & t' & [= <-] & Ht); lia|].
  destruct remove as [[]|e]; [|destruct e; (split; [|done]; split; [done|naive_solver])].
  assert (days ≠ 0%N ∧ Ok (E:=io_kind) tt = Ok tt ∧ ∃ t', Ok (E:=io_kind) t = Ok t' ∧ (Z.of_N (N.min (days * 86400) u64_max) ≤ now - file_stamp src t')%Z) as Hyes
    by (split_and!; [done..|exists t; split; [done|lia]]).
  destruct empty as [[]|]; [destruct remove_dir as [|[]]| |]; by split.
Qed.
