(* ===== verification/TranscriptLink.v ===== *)
(** * The link from a session to its transcript (src/session_log/state.rs, state/link.rs,
    src/hook_run/transcript_link.rs)

    The hooks of a session are processes of their own. A map on disk says which transcript of the
    memory server a session writes to, and a pending marker in it is to keep two hooks from starting
    two transcripts. An operation on the map holds a lock from its read to its write, so it is one
    step; a look-up takes no lock. The clock is read once, before the look-up, and every check of the
    same hook uses that time. Hooks of other sessions claim, record and clear in the same map, whose
    cap evicts the least key. *)

From stdpp Require Import relations pretty.
From S2P Require Import Prelude Json Tags ReadOnce RustStr.

(** ** Links (state/link.rs) *)

Definition PENDING_PREFIX : string := "pending:".
Definition DEFAULT_PENDING_TTL_SECS : Z := 600.
Inductive Link := Missing | Pending (since : Z) | Linked (id : string).
#[export] Instance Link_eq_dec : EqDecision Link.
Proof. solve_decision. Defined.
(** [str::parse] of an [i64]. *)
Definition parse_i64 (s : string) : option Z :=
  match s with
  | String "-" "" => None
  | String "-" digits => n ← digits_value 0 digits; if decide (n ≤ 9223372036854775808)%N then Some (- Z.of_N n)%Z else None
  | _ => Z.of_N <$> parse_unsigned 9223372036854775807 s
  end.
Definition classify (value : option string) (now : Z) : Link :=
  match value with
  | None => Missing
  | Some value =>
    match strip_prefix PENDING_PREFIX value with
    | None => Linked value
    | Some text =>
      match parse_i64 text with
      | Some since =>
        let age := saturating_sub64 now since in
        if bool_decide (0 ≤ age < DEFAULT_PENDING_TTL_SECS)%Z then Pending since else Missing
      | None => Missing
      end
    end
  end.
Definition is_marker (value : string) : bool := bool_decide (is_Some (strip_prefix PENDING_PREFIX value)).
Definition is_expired_marker (value : string) (now : Z) : bool := is_marker value && bool_decide (classify (Some value) now = Missing).
Definition marker (now : Z) : string := PENDING_PREFIX +:+ pretty now.

(** ** The map (state.rs) *)

Definition MAX_CORRELATION_ENTRIES : nat := 1000.
Abbreviation SessionMap := (gmap string string).
(** [BTreeMap::pop_first]. *)
Definition pop_first (m : SessionMap) : SessionMap := match in_order (dom m) with k :: _ => delete k m | [] => m end.
Fixpoint pop_over (fuel : nat) (m : SessionMap) : SessionMap :=
  match fuel with
  | 0 => m
  | S fuel => if decide (MAX_CORRELATION_ENTRIES < size m) then pop_over fuel (pop_first m) else m
  end.
Definition insert_capped (m : SessionMap) (key value : string) (now : Z) : SessionMap :=
  let m := filter (λ kv : string * string, kv.1 = key ∨ is_expired_marker kv.2 now = false) m in
  let m := if bool_decide (m !! key = None) && bool_decide (MAX_CORRELATION_ENTRIES ≤ size m) then pop_first m else m in
  let m := <[key := value]> m in
  pop_over (size m) m.

(** The file of the map, and the corrupt maps that were moved aside, by the end of their name. *)
Inductive map_file := NoFile | Unreadable | Bytes (text : string).
Record disk := mkDisk { d_map : map_file; d_aside : gmap string string }.
Inductive map_error := CannotReadMap | CorruptMap | CannotReserve | CannotMove | NotLocked | CannotWriteMap.
(** What the file system answers during one operation. *)
Record Answers := mkAnswers { lock_taken : bool; creates : string → bool; moves : bool; writes : bool; nanos : N }.
Definition MAX_STATE_BYTES : nat := 4194304.
Section map_file.
Context `{Codec SessionMap}.

Definition read_map_bytes (f : map_file) : result map_error (option string) :=
  match f with
  | NoFile => Ok None
  | Unreadable => Err CannotReadMap
  | Bytes text => if decide (MAX_STATE_BYTES < String.length text) then Err CannotReadMap else Ok (Some text)
  end.
Definition load_at (f : map_file) : result map_error SessionMap :=
  s ← read_map_bytes f;
  match s with None => Ok ∅ | Some text => match decode text with Some m => Ok m | None => Err CorruptMap end end.
Definition link_at (f : map_file) (csid : string) (now : Z) : result map_error Link :=
  m ← load_at f; Ok (classify (m !! csid) now).

Definition ASIDE : string := "json.corrupt".
Definition create_new_empty (a : Answers) (aside : gmap string string) (name : string) : bool :=
  bool_decide (aside !! name = None) && creates a name.
Definition reserve_aside_name (a : Answers) (aside : gmap string string) : result map_error string :=
  if create_new_empty a aside ASIDE then Ok ASIDE
  else if bool_decide (is_Some (aside !! ASIDE)) then
    let fallback := ASIDE +:+ "." +:+ pretty (nanos a) in
    if create_new_empty a aside fallback then Ok fallback else Err CannotReserve
  else Err CannotReserve.
Definition load_for_write (a : Answers) (d : disk) : result map_error SessionMap * disk :=
  match read_map_bytes (d_map d) with
  | Err e => (Err e, d)
  | Ok None => (Ok ∅, d)
  | Ok (Some text) =>
    match decode text with
    | Some m => (Ok m, d)
    | None =>
      match reserve_aside_name a (d_aside d) with
      | Err e => (Err e, d)
      | Ok name => if moves a then (Ok ∅, mkDisk NoFile (<[name := text]> (d_aside d))) else (Err CannotMove, d)
      end
    end
  end.
Definition write_map (a : Answers) (d : disk) (m : SessionMap) : result map_error unit * disk :=
  if writes a then (Ok tt, mkDisk (Bytes (encode m)) (d_aside d)) else (Err CannotWriteMap, d).
(** A read, a change and a write under the lock. The change gives no map when there is none to write. *)
Definition update_map (a : Answers) (change : SessionMap → option SessionMap) (d : disk) : result map_error bool * disk :=
  if lock_taken a then
    let '(r, d) := load_for_write a d in
    match r with
    | Err e => (Err e, d)
    | Ok m =>
      match change m with
      | None => (Ok false, d)
      | Some m' => let '(w, d) := write_map a d m' in ((_ ← w; Ok true), d)
      end
    end
  else (Err NotLocked, d).
Definition record_at (a : Answers) (csid id : string) (now : Z) : disk → result map_error bool * disk :=
  update_map a (λ m, Some (insert_capped m csid id now)).
Definition claim (csid : string) (seen : Link) (now : Z) (m : SessionMap) : option SessionMap :=
  let current := classify (m !! csid) now in
  if negb (bool_decide (current = seen)) || match current with Pending _ => true | _ => false end then None
  else Some (insert_capped m csid (marker now) now).
Definition claim_pending_at (a : Answers) (csid : string) (seen : Link) (now : Z) : disk → result map_error bool * disk :=
  update_map a (claim csid seen now).
Definition clear (csid : string) (m : SessionMap) : option SessionMap :=
  match m !! csid with Some value => if is_marker value then Some (delete csid m) else None | None => None end.
Definition clear_pending_at (a : Answers) (csid : string) : disk → result map_error bool * disk := update_map a (clear csid).

(** ** The hook (transcript_link.rs) *)

Inductive Liveness := Live | Gone.
(** What a hook knows: whether transcripts are on, whether there is a client of the memory server,
    whether it verifies a link, and what the server says of it. *)
Record Hook := mkHook { wants : bool; client : bool; verify : bool; verdict : string → result unit Liveness }.
Definition cached_transcript_id (h : Hook) (existing : string) : option string :=
  if client h && verify h then match verdict h existing with Ok Gone => None | _ => Some existing end else Some existing.
(** Where a hook is: it has not looked, it is to claim, it is to start, it is to record, it is done. *)
Inductive phase := Arrived | Seen (seen : Link) (now : Z) | Claimed | Started (id : string) | Done (id : option string).
Definition look (h : Hook) (csid : string) (now : Z) (f : map_file) : phase :=
  let go seen := if wants h && client h then Seen seen now else Done None in
  match link_at f csid now with
  | Err _ | Ok (Pending _) => Done None
  | Ok (Linked existing) => match cached_transcript_id h existing with Some id => Done (Some id) | None => go (Linked existing) end
  | Ok Missing => go Missing
  end.
Definition take_claim (a : Answers) (csid : string) (seen : Link) (now : Z) (d : disk) : phase * disk :=
  let '(r, d) := claim_pending_at a csid seen now d in
  (match r with Ok true => Claimed | _ => Done None end, d).
(** The answer of the server to the start; after a failure the marker is cleared. *)
Definition start (a : Answers) (csid : string) (answer : result unit string) (d : disk) : phase * disk :=
  match answer with Ok id => (Started id, d) | Err _ => (Done None, (clear_pending_at a csid d).2) end.
Definition record_link (a : Answers) (csid id : string) (now : Z) (d : disk) : phase * disk :=
  let '(r, d) := record_at a csid id now d in
  (match r with Ok _ => Done (Some id) | Err _ => Done None end, d).
End map_file.

(** ** Laws of the links *)

Definition in_i64 (z : Z) : Prop := (i64_min ≤ z ≤ i64_max)%Z.
Lemma parse_i64_pretty z : in_i64 z → parse_i64 (pretty z) = Some z.
Proof.
  unfold in_i64, i64_min, i64_max. intros Hz.
  assert (Hpos : ∀ n : N, parse_i64 (pretty n) = Z.of_N <$> parse_unsigned 9223372036854775807 (pretty n)).
  { intros n. destruct (pretty_digits n) as [Hne Hd]. unfold parse_i64. destruct (pretty n) as [|c s]; [done|].
    cbn [str_all] in Hd. apply andb_true_iff in Hd as [Hc _]. by destruct c as [[] [] [] [] [] [] [] []]. }
  destruct z as [|p|p].
  - done.
  - change (pretty (Z.pos p)) with (pretty (N.pos p)). rewrite Hpos, parse_pretty by lia. done.
  - change (pretty (Z.neg p)) with ("-" +:+ pretty (N.pos p)). rewrite str_app_cons, str_app_nil_l. cbn [parse_i64].
    destruct (pretty_digits (N.pos p)) as [Hne _]. destruct (pretty (N.pos p)) as [|c s] eqn:E; [done|].
    rewrite <- E, digits_value_pretty. cbn. rewrite decide_True by lia. done.
Qed.
Lemma marker_is_marker since : is_marker (marker since) = true.
Proof. unfold is_marker, marker. rewrite strip_prefix_app. by apply bool_decide_eq_true. Qed.
Lemma classify_marker since now : in_i64 since →
  classify (Some (marker since)) now =
    if bool_decide (0 ≤ saturating_sub64 now since < DEFAULT_PENDING_TTL_SECS)%Z then Pending since else Missing.
Proof. intros Hs. unfold classify, marker. by rewrite strip_prefix_app, parse_i64_pretty. Qed.
Lemma linked_is_value value now id : classify (Some value) now = Linked id → value = id ∧ is_marker value = false.
Proof.
  unfold classify, is_marker. destruct (strip_prefix PENDING_PREFIX value) as [text|]; [|by intros [= ->]].
  destruct (parse_i64 text); [|done]. by destruct (bool_decide _).
Qed.

(** ** Laws of the map *)

Lemma first_key (m : SessionMap) : m ≠ ∅ → ∃ k rest, in_order (dom m) = k :: rest ∧ k ∈ dom m ∧ ∀ k', k' ∈ dom m → str_le k k'.
Proof.
  intros Hm. unfold in_order. pose proof (merge_sort_Permutation str_le (elements (dom m))) as Hp.
  destruct (merge_sort str_le (elements (dom m))) as [|k rest] eqn:E.
  { apply Permutation_nil in Hp. apply elements_empty_inv, dom_empty_inv in Hp. done. }
  exists k, rest. assert (Hin : ∀ x, x ∈ dom m ↔ x ∈ k :: rest) by (intros x; by rewrite Hp, elem_of_elements).
  split_and!; [done|apply Hin; by left|]. intros k' Hk'%Hin.
  assert (Hs : StronglySorted str_le (k :: rest)) by (rewrite <- E; apply (StronglySorted_merge_sort str_le)).
  inv Hs. apply elem_of_cons in Hk' as [->|Hk']; [reflexivity|]. by eapply Forall_forall in Hk'.
Qed.
Lemma pop_first_spec (m : SessionMap) : m ≠ ∅ → ∃ k, k ∈ dom m ∧ pop_first m = delete k m ∧ size (pop_first m) < size m ∧
  ∀ k', k' ∈ dom m → str_le k k'.
Proof.
  intros Hm. destruct (first_key m Hm) as (k & rest & E & Hk & Hmin). exists k.
  assert (pop_first m = delete k m) as -> by (unfold pop_first; by rewrite E). split_and!; [done..| |done]. apply elem_of_dom in Hk as [v Hv]. rewrite map_size_delete_Some by eauto.
  assert (size m ≠ 0) by (rewrite map_size_non_empty_iff; done). lia.
Qed.
Lemma pop_over_size fuel (m : SessionMap) : size m ≤ fuel + MAX_CORRELATION_ENTRIES → size (pop_over fuel m) ≤ MAX_CORRELATION_ENTRIES.
Proof.
  revert m. induction fuel as [|fuel IH]; intros m Hs; cbn [pop_over]; [exact Hs|]. case_decide as Hd; [|lia].
  apply IH. destruct (pop_first_spec m) as (k & _ & _ & Hlt & _); [|lia]. intros ->. rewrite map_size_empty in Hd. lia.
Qed.
Lemma pop_over_same fuel (m : SessionMap) : size m ≤ MAX_CORRELATION_ENTRIES → pop_over fuel m = m.
Proof. intros Hs. destruct fuel; cbn [pop_over]; [done|]. by rewrite decide_False by lia. Qed.
(** An insert keeps the map within its bound, whatever it was before. In a map within the bound it sets
    the key, and drops only expired markers and, when a new key finds the map full, the least key. *)
Theorem insert_capped_correct m key value now : let m' := insert_capped m key value now in
  size m' ≤ MAX_CORRELATION_ENTRIES ∧
  (size m ≤ MAX_CORRELATION_ENTRIES →
    m' !! key = Some value ∧
    (∀ k v, k ≠ key → m' !! k = Some v → m !! k = Some v) ∧
    ∀ k v, k ≠ key → m !! k = Some v → m' !! k = Some v ∨ is_expired_marker v now = true ∨
      m !! key = None ∧ size m = MAX_CORRELATION_ENTRIES ∧ ∀ k', k' ∈ dom m' → k' ≠ key → str_le k k').
Proof.
  cbv zeta. unfold insert_capped.
  set (live := filter (λ kv : string * string, kv.1 = key ∨ is_expired_marker kv.2 now = false) m).
  set (room := if bool_decide (live !! key = None) && bool_decide (MAX_CORRELATION_ENTRIES ≤ size live) then pop_first live else live).
  split; [apply pop_over_size; lia|]. intros Hsize.
  assert (Hlive : live ⊆ m) by apply map_filter_subseteq. pose proof (map_subseteq_size _ _ Hlive) as Hls.
  assert (Hkey : live !! key = None → m !! key = None).
  { intros E. apply eq_None_not_Some. intros [v Hv]. apply map_lookup_filter_None in E as [E|E]; [congruence|]. apply (E v Hv). by left. }
  assert (Hroom : room ⊆ live ∧ (room !! key = None → size room < MAX_CORRELATION_ENTRIES) ∧
    ∀ k v, live !! k = Some v → room !! k = Some v ∨ live !! key = None ∧ size live = MAX_CORRELATION_ENTRIES ∧ ∀ k', k' ∈ dom room → str_le k k').
  { subst room. destruct (bool_decide (live !! key = None)) eqn:Ek; cbn [andb];
      [apply bool_decide_eq_true in Ek|apply bool_decide_eq_false in Ek; split_and!; [done|done|by left]].
    destruct (bool_decide (MAX_CORRELATION_ENTRIES ≤ size live)) eqn:Es;
      [apply bool_decide_eq_true in Es|apply bool_decide_eq_false in Es; split_and!; [done|lia|by left]].
    destruct (pop_first_spec live) as (k0 & Hk0 & Epop & Hlt & Hmin).
    { intros E. rewrite E, map_size_empty in Es. unfold MAX_CORRELATION_ENTRIES in Es. lia. }
    rewrite Epop in *. split_and!; [apply delete_subseteq|lia|]. intros k v Hv. destruct (decide (k0 = k)) as [->|Hne].
    - right. split_and!; [done|lia|]. intros k' Hk'. apply Hmin. rewrite dom_delete in Hk'. set_solver.
    - left. by rewrite lookup_delete_ne. }
  destruct Hroom as (Hsub & Hspace & Hdrop).
  assert (Hfit : size (<[key := value]> room) ≤ MAX_CORRELATION_ENTRIES).
  { pose proof (map_subseteq_size _ _ Hsub). destruct (room !! key) as [v|] eqn:E.
    - rewrite map_size_insert_Some by eauto. lia.
    - rewrite map_size_insert_None by done. specialize (Hspace eq_refl). lia. }
  rewrite pop_over_same by done. split_and!.
  - by rewrite lookup_insert_eq.
  - intros k v Hk Hv. rewrite lookup_insert_ne in Hv by done. by do 2 (eapply lookup_weaken in Hv; [|done]).
  - intros k v Hk Hv. rewrite lookup_insert_ne by done. destruct (is_expired_marker v now) eqn:Ee; [right; by left|].
    assert (live !! k = Some v) as Hlk by (apply map_lookup_filter_Some; split; [done|by right]).
    destruct (Hdrop k v Hlk) as [?|(En & Efull & Hmin)]; [by left|]. right; right. split_and!; [by apply Hkey|lia|].
    intros k' Hk' Hne. apply Hmin. rewrite dom_insert in Hk'. set_solver.
Qed.

(** The insert of a key drops no other key of [m] but expired markers: the map has the key or has
    room, or the least key, which goes when it is full, is not [csid]. *)
Definition spares (csid : string) (m : SessionMap) (key : string) : Prop :=
  is_Some (m !! key) ∨ size m < MAX_CORRELATION_ENTRIES ∨ ∃ k, k ∈ dom m ∧ k ≠ csid ∧ str_le k csid.
Lemma insert_other csid m key value now : size m ≤ MAX_CORRELATION_ENTRIES → csid ≠ key → spares csid m key →
  (∀ v, m !! csid = Some v → is_expired_marker v now = false) → insert_capped m key value now !! csid = m !! csid.
Proof.
  intros Hs Hne Hsp He. destruct (insert_capped_correct m key value now) as [_ Hc]. destruct (Hc Hs) as (_ & Hold & Hkeep).
  destruct (m !! csid) as [v|] eqn:Ev.
  2: { destruct (insert_capped m key value now !! csid) as [v|] eqn:E; [|done]. apply Hold in E; [congruence|done]. }
  destruct (Hkeep csid v Hne Ev) as [?|[Hx|(Hk & Hfull & _)]]; [done|rewrite He in Hx by done; done|].
  unfold insert_capped. set (live := filter _ m).
  assert (Hlive : live ⊆ m) by apply map_filter_subseteq.
  assert (Hl : live !! csid = Some v) by (apply map_lookup_filter_Some; split; [done|right; by apply He]).
  assert (Hlk : live !! key = None) by (apply map_lookup_filter_None; by left).
  rewrite bool_decide_true by done. cbn [andb]. set (room := if bool_decide _ then _ else live).
  assert (Hroom : room !! csid = Some v ∧ size room < MAX_CORRELATION_ENTRIES ∧ room !! key = None).
  { subst room. pose proof (map_subseteq_size _ _ Hlive). case_bool_decide as Hsize; [|split_and!; [done|lia|done]].
    assert (live = m) as -> by (apply map_subseteq_size_eq; [done|lia]).
    destruct (pop_first_spec m) as (k0 & Hk0 & Epop & Hlt & Hmin).
    { intros E. rewrite E, map_size_empty in Hfull. done. }
    rewrite Epop in *. split_and!; [|lia|by rewrite lookup_delete_None; right].
    rewrite lookup_delete_ne; [done|]. intros ->. destruct Hsp as [[w Hw]|[Hlt'|(k & Hk1 & Hk2 & Hk3)]]; [congruence|lia|].
    apply Hk2. apply (anti_symm str_le); [done|]. by apply Hmin. }
  destruct Hroom as (Hr & Hsz & Hrk). rewrite pop_over_same by (rewrite map_size_insert_None by done; lia).
  by rewrite lookup_insert_ne.
Qed.
(** What the cap costs: when a new key finds a full map without an expired marker, the least key goes,
    also when its value is the marker of a hook that is starting a transcript. *)
Lemma full_map_evicts csid m key value now : size m = MAX_CORRELATION_ENTRIES → m !! key = None → is_Some (m !! csid) →
  map_Forall (λ _ v, is_expired_marker v now = false) m → (∀ k, k ∈ dom m → str_le csid k) →
  insert_capped m key value now !! csid = None.
Proof.
  intros Hs Hk [v Hv] He Hmin. unfold insert_capped. assert (filter (λ kv : string * string, kv.1 = key ∨ is_expired_marker kv.2 now = false) m = m) as ->.
  { apply map_filter_id. intros k w Hw. right. by apply (He k). }
  rewrite !bool_decide_true by (done || lia). cbn [andb].
  destruct (pop_first_spec m) as (k0 & Hk0 & Epop & Hlt & Hmin0).
  { intros E. rewrite E, map_size_empty in Hs. done. }
  assert (k0 = csid) as -> by (apply (anti_symm str_le); [apply Hmin0; by apply elem_of_dom_2 in Hv|by apply Hmin]).
  rewrite Epop in *. rewrite pop_over_same.
  - rewrite lookup_insert_ne by congruence. apply lookup_delete_eq.
  - rewrite map_size_insert_None by (rewrite lookup_delete_None; by right). lia.
Qed.

(** ** Laws of an operation on the map *)

Section laws.
Context `{Codec SessionMap, !CodecLaws SessionMap}.

(** The map that a write starts from: a corrupt file counts as empty. *)
Definition view (d : disk) : result map_error SessionMap :=
  s ← read_map_bytes (d_map d);
  Ok (match s with Some text => match decode text with Some m => m | None => ∅ end | None => ∅ end).
(** A corrupt map is never lost: a write keeps it as it is, or moves it to a name that was free. *)
Lemma corrupt_kept a d text : d_map d = Bytes text → decode text = None →
  let '(r, d') := load_for_write a d in
  d' = d ∨ ∃ name, d_aside d !! name = None ∧ d_aside d' = <[name := text]> (d_aside d) ∧ d_map d' = NoFile ∧ r = Ok ∅.
Proof.
  intros Ef Ed. unfold load_for_write. rewrite Ef. cbn [read_map_bytes]. case_decide; [by left|]. rewrite Ed.
  unfold reserve_aside_name, create_new_empty. destruct (d_aside d !! ASIDE) as [t|] eqn:Ea.
  - rewrite bool_decide_false by done. cbn [andb]. rewrite bool_decide_true by done.
    case_bool_decide; cbn [andb]; [|by left]. destruct (creates a _), (moves a); try by left. right. eexists. split_and!; done.
  - rewrite bool_decide_true by done. cbn [andb]. rewrite bool_decide_false by (intros [? [=]]).
    destruct (creates a ASIDE), (moves a); try by left. right. eexists. split_and!; done.
Qed.
Lemma load_view a d : let '(r, d') := load_for_write a d in
  view d' = view d ∧ match r with Ok m => view d = Ok m | Err _ => True end.
Proof.
  destruct d as [f aside]. unfold load_for_write. cbn [d_map]. destruct (read_map_bytes f) as [[text|]|e] eqn:E; cbn [d_map].
  - destruct (decode text) as [m|] eqn:Ed; [unfold view; cbn [d_map]; rewrite E; cbn; by rewrite Ed|].
    destruct (reserve_aside_name a _) as [name|]; [|done]. destruct (moves a); [|done].
    unfold view. cbn [d_map]. rewrite E. cbn. by rewrite Ed.
  - unfold view. cbn [d_map]. by rewrite E.
  - done.
Qed.
(** An operation leaves the view of the map, or it succeeds and the map is the changed one, which is
    read back unless it is too large. *)
Lemma update_view a change d : let '(r, d') := update_map a change d in
  r ≠ Ok true ∧ view d' = view d ∨
  r = Ok true ∧ ∃ m m', view d = Ok m ∧ change m = Some m' ∧ (view d' = Ok m' ∨ view d' = Err CannotReadMap).
Proof.
  unfold update_map. destruct (lock_taken a); [|by left]. pose proof (load_view a d) as Hl.
  destruct (load_for_write a d) as [[m|e] d1]; destruct Hl as [Hv Hm]; [|by left].
  destruct (change m) as [m'|] eqn:Ec; [|by left]. unfold write_map. destruct (writes a); [|by left].
  right. split; [done|]. exists m, m'. split_and!; [done..|]. unfold view. cbn [d_map read_map_bytes].
  case_decide; [by right|left]. cbn. by rewrite decode_encode.
Qed.

(** ** Hooks that run at once *)

(** The files, the hooks of the session, and the transcripts that were started for it. *)
Record world := mkWorld { w_disk : disk; w_hooks : gmap nat phase; w_started : list string }.
Definition entry (csid : string) (d : disk) : result map_error (option string) := m ← view d; Ok (m !! csid).
Definition bounded (d : disk) : Prop := ∀ m, view d = Ok m → size m ≤ MAX_CORRELATION_ENTRIES.
Definition go_on (p : nat) (r : phase * disk) (started : list string) (w : world) : world :=
  mkWorld r.2 (<[p := r.1]> (w_hooks w)) started.
Section protocol.
Context (csid : string) (hook : nat → Hook) (may_claim : Z → Z → Prop) (may_insert : SessionMap → string → Prop).
(** What a hook of another session does to the map, with the key of that session: it claims, it
    records a link, or it clears its marker. *)
Inductive operation := Claiming (seen : Link) (now : Z) | Recording (id : string) (now : Z) | Clearing.
Definition change_of (key : string) (op : operation) : SessionMap → option SessionMap :=
  match op with
  | Claiming seen now => claim key seen now
  | Recording id now => λ m, Some (insert_capped m key id now)
  | Clearing => clear key
  end.
Definition inserts_at (op : operation) : option Z :=
  match op with Claiming _ now | Recording _ now => Some now | Clearing => None end.
(** [may_claim since now]: a hook whose time is [now] may meet a marker of the time [since].
    [may_insert m key]: a hook of another session may insert its key into the map. *)
Inductive step : world → world → Prop :=
| Looks w p now : w_hooks w !! p = Some Arrived → in_i64 now →
    step w (go_on p (look (hook p) csid now (d_map (w_disk w)), w_disk w) (w_started w) w)
| Claims w p a seen now : w_hooks w !! p = Some (Seen seen now) →
    (∀ since, in_i64 since → entry csid (w_disk w) = Ok (Some (marker since)) → may_claim since now) →
    step w (go_on p (take_claim a csid seen now (w_disk w)) (w_started w) w)
| Starts w p a answer : w_hooks w !! p = Some Claimed →
    step w (go_on p (start a csid answer (w_disk w)) (match answer with Ok id => id :: w_started w | Err _ => w_started w end) w)
| Records w p a id now : w_hooks w !! p = Some (Started id) →
    step w (go_on p (record_link a csid id now (w_disk w)) (w_started w) w)
| Dies w p : step w (mkWorld (w_disk w) (delete p (w_hooks w)) (w_started w))
| Others w a key op : key ≠ csid →
    (∀ m now, view (w_disk w) = Ok m → inserts_at op = Some now → may_insert m key ∧
       ∀ since, in_i64 since → m !! csid = Some (marker since) → may_claim since now) →
    step w (mkWorld (update_map a (change_of key op) (w_disk w)).2 (w_hooks w) (w_started w)).
End protocol.
(** The hook is between its claim and the end of its start. *)
Definition holds (w : world) (p : nat) : Prop := match w_hooks w !! p with Some (Claimed | Started _) => True | _ => False end.
Definition all_arrived (w : world) : Prop := map_Forall (λ _ ph, ph = Arrived) (w_hooks w).
(** A claim meets no marker from its future and none that expired. *)
Definition in_time (since now : Z) : Prop := (0 ≤ now - since < DEFAULT_PENDING_TTL_SECS)%Z.

Lemma classify_in_time since now : in_i64 since → in_time since now → classify (Some (marker since)) now = Pending since.
Proof.
  intros Hs Ht. rewrite classify_marker by done. rewrite bool_decide_true; [done|].
  unfold in_time in Ht. unfold saturating_sub64, i64_min, i64_max, DEFAULT_PENDING_TTL_SECS in *. lia.
Qed.
Definition held (ph : phase) : Prop := match ph with Claimed | Started _ => True | _ => False end.
Lemma holds_go p r started w q : holds (go_on p r started w) q ↔ if decide (p = q) then held r.1 else holds w q.
Proof.
  unfold holds, go_on. cbn [w_hooks]. case_decide as E; [subst; by rewrite lookup_insert_eq|by rewrite lookup_insert_ne].
Qed.
Lemma look_free h csid now f : ¬ held (look h csid now f) ∧ ∀ s n, look h csid now f = Seen s n → n = now.
Proof.
  unfold look. destruct (link_at f csid now) as [[| |id]|]; try destruct (cached_transcript_id h id); destruct (wants h && client h);
    (split; [by intros []|by intros ?? [=]]).
Qed.
Lemma entry_view csid d d' : view d = view d' → entry csid d = entry csid d'.
Proof. unfold entry. by intros ->. Qed.
Lemma bounded_view d d' : view d = view d' → bounded d → bounded d'.
Proof. unfold bounded. by intros ->. Qed.
Lemma bounded_write d change a : bounded d →
  (∀ m m', view d = Ok m → change m = Some m' → size m' ≤ MAX_CORRELATION_ENTRIES) → bounded (update_map a change d).2.
Proof.
  intros Hb Hc. pose proof (update_view a change d) as Hu. destruct (update_map a change d) as [r d1]. cbn [snd].
  destruct Hu as [[_ E]|(_ & m & m' & Ev & Em & [E|E])]; intros m1; rewrite E; [apply Hb|intros [= <-]; by eapply Hc|done].
Qed.

(** A file that is too large to read stays so: no operation writes over it. *)
Lemma update_unreadable csid a change d : (∃ e, entry csid d = Err e) → ∃ e, entry csid (update_map a change d).2 = Err e.
Proof.
  intros [e He]. pose proof (update_view a change d) as Hu. destruct (update_map a change d) as [r d']. cbn [snd].
  destruct Hu as [[_ Ev]|(_ & m & m' & Ev & _)]; [exists e; by rewrite (entry_view csid d' d)|].
  unfold entry in He. by rewrite Ev in He.
Qed.

Section inv.
Context (csid : string) (hook : nat → Hook).
Definition guarded (w : world) : Prop :=
  bounded (w_disk w) ∧ (∀ p s now, w_hooks w !! p = Some (Seen s now) → in_i64 now) ∧
  ∀ p, holds w p → (∀ q, holds w q → p = q) ∧
    ((∃ since, in_i64 since ∧ entry csid (w_disk w) = Ok (Some (marker since))) ∨ ∃ e, entry csid (w_disk w) = Err e).
Lemma guarded_go p r started w : guarded w → bounded r.2 → (∀ s now, r.1 = Seen s now → in_i64 now) →
  (∀ q, q ≠ p → holds w q → held r.1 → False) →
  (held r.1 ∨ (∃ q, q ≠ p ∧ holds w q) →
    (∃ since, in_i64 since ∧ entry csid r.2 = Ok (Some (marker since))) ∨ ∃ e, entry csid r.2 = Err e) →
  guarded (go_on p r started w).
Proof.
  intros (_ & Hn & Hh) Hb Hs Hone He. split_and!; [exact Hb| |].
  - intros q s now. cbn [go_on w_hooks]. destruct (decide (p = q)) as [->|Hne]; [rewrite lookup_insert_eq; intros [= E]; by eapply Hs|].
    rewrite lookup_insert_ne by done. apply Hn.
  - intros q Hq. split.
    + intros q' Hq'. rewrite holds_go in Hq, Hq'. repeat case_decide; subst; [done| | |by apply (Hh q)].
      * exfalso. apply (Hone q); congruence.
      * exfalso. apply (Hone q'); congruence.
    + cbn [go_on w_disk]. apply He. rewrite holds_go in Hq. case_decide; [by left|right; exists q; done].
Qed.
Lemma claims_guarded w p a seen now : guarded w → w_hooks w !! p = Some (Seen seen now) →
  (∀ since, in_i64 since → entry csid (w_disk w) = Ok (Some (marker since)) → in_time since now) →
  guarded (go_on p (take_claim a csid seen now (w_disk w)) (w_started w) w).
Proof.
  intros Hg Hp Hin. pose proof Hg as (Hb & Hn & Hh).
  unfold take_claim, claim_pending_at. pose proof (update_view a (claim csid seen now) (w_disk w)) as Hu.
  pose proof (bounded_write (w_disk w) (claim csid seen now) a Hb) as Hbw.
  destruct (update_map a (claim csid seen now) (w_disk w)) as [r d']. cbn [snd] in Hbw.
  destruct Hu as [[Hr Ev]|(-> & m & m' & Ev & Em & Ew)].
  - assert (¬ held match r with Ok true => Claimed | _ => Done None end) as Hnh by (destruct r as [[]|]; auto).
    apply guarded_go; cbn [fst snd]; [done|by eapply bounded_view|by destruct r as [[]|]|done|].
    intros [?|(q & _ & Hq)]; [done|]. rewrite (entry_view csid d' (w_disk w)) by done. by apply (Hh q).
  - unfold claim in Em. destruct (negb _ || _) eqn:Eb; [done|]. apply orb_false_iff in Eb as [_ Epend]. injection Em as <-.
    destruct (insert_capped_correct m csid (marker now) now) as [Hsz Hset]. destruct (Hset (Hb m Ev)) as (Hkey & _ & _).
    assert (Hempty : ∀ q, ¬ holds w q).
    { intros q Hq. destruct (Hh q Hq) as [_ [(since & Hs & He)|[e He]]]; [|unfold entry in He; by rewrite Ev in He].
      pose proof (Hin since Hs He) as Ht. unfold entry in He. rewrite Ev in He. cbn in He. injection He as He.
      by rewrite He, classify_in_time in Epend. }
    apply guarded_go; cbn [fst snd]; [done| |done|by intros q _ Hq%Hempty|].
    + apply Hbw. intros m1 m2 Ev1. rewrite Ev in Ev1. injection Ev1 as <-. unfold claim. destruct (negb _ || _); [done|]. by intros [= <-].
    + intros _. destruct Ew as [Ew|Ew]; [left|right; exists CannotReadMap; unfold entry; by rewrite Ew].
      exists now. split; [by eapply Hn|]. unfold entry. rewrite Ew. cbn. by rewrite Hkey.
Qed.
Lemma starts_guarded w p a answer started : guarded w → w_hooks w !! p = Some Claimed →
  guarded (go_on p (start a csid answer (w_disk w)) started w).
Proof.
  intros Hg Hp. pose proof Hg as (Hb & _ & Hh).
  assert (holds w p) as Hhp by (unfold holds; by rewrite Hp). destruct (Hh p Hhp) as [Hone He].
  destruct answer as [id|e]; cbn [start].
  - apply guarded_go; cbn [fst snd]; try done. intros q Hne Hq _. by apply Hne, eq_sym, Hone.
  - apply guarded_go; cbn [fst snd]; [done| |done|done|].
    + apply (bounded_write _ _ _ Hb). intros m m' Ev. unfold clear. destruct (m !! csid); [|done].
      destruct (is_marker _); [|done]. intros [= <-]. specialize (Hb m Ev).
      pose proof (map_subseteq_size _ _ (delete_subseteq m csid)). lia.
    + intros [[]|(q & Hne & Hq)]. destruct Hne. symmetry. by apply Hone.
Qed.
Lemma records_guarded w p a id now : guarded w → w_hooks w !! p = Some (Started id) →
  guarded (go_on p (record_link a csid id now (w_disk w)) (w_started w) w).
Proof.
  intros Hg Hp. pose proof Hg as (Hb & _ & Hh).
  assert (holds w p) as Hhp by (unfold holds; by rewrite Hp). destruct (Hh p Hhp) as [Hone _].
  unfold record_link, record_at. set (change := λ m : SessionMap, _). pose proof (bounded_write (w_disk w) change a Hb) as Hbw.
  destruct (update_map a change (w_disk w)) as [r d']. apply guarded_go; cbn [fst snd] in *; [done| |by destruct r|by destruct r|].
  - apply Hbw. intros m m' _ [= <-]. apply insert_capped_correct.
  - intros [?|(q & Hne & Hq)]; [by destruct r|]. destruct Hne. symmetry. by apply Hone.
Qed.
Lemma others_bounded a key op d : bounded d → bounded (update_map a (change_of key op) d).2.
Proof.
  intros Hb. apply bounded_write; [done|]. intros m m' Ev. destruct op as [seen now|id now|]; cbn [change_of].
  - unfold claim. destruct (negb _ || _); [done|]. intros [= <-]. apply insert_capped_correct.
  - intros [= <-]. apply insert_capped_correct.
  - unfold clear. destruct (m !! key); [|done]. destruct (is_marker _); [|done]. intros [= <-].
    pose proof (map_subseteq_size _ _ (delete_subseteq m key)). specialize (Hb m Ev). lia.
Qed.
(** The step of another session keeps the entry of this one when the map has room for it and the marker
    that it meets is not expired. *)
Lemma others_entry a key op d : key ≠ csid → bounded d →
  (∀ m now, view d = Ok m → inserts_at op = Some now → spares csid m key ∧
     ∀ v, m !! csid = Some v → is_expired_marker v now = false) →
  let d' := (update_map a (change_of key op) d).2 in entry csid d' = entry csid d ∨ ∃ e, entry csid d' = Err e.
Proof.
  intros Hne Hb Hok. cbv zeta.
  assert (Hc : ∀ m m', view d = Ok m → change_of key op m = Some m' → m' !! csid = m !! csid).
  { intros m m' Ev Em. pose proof (Hb m Ev) as Hsz. destruct op as [seen now|id now|]; cbn [change_of] in Em.
    - unfold claim in Em. destruct (negb _ || _); [done|]. injection Em as <-. destruct (Hok m now Ev eq_refl) as [Hsp He].
      by apply insert_other.
    - injection Em as <-. destruct (Hok m now Ev eq_refl) as [Hsp He]. by apply insert_other.
    - unfold clear in Em. destruct (m !! key); [|done]. destruct (is_marker _); [|done]. injection Em as <-.
      by apply lookup_delete_ne. }
  pose proof (update_view a (change_of key op) d) as Hu. destruct (update_map a _ d) as [r d']. cbn [snd].
  destruct Hu as [[_ Ev]|(_ & m & m' & Ev & Em & [Ew|Ew])].
  - left. by apply entry_view.
  - left. unfold entry. rewrite Ew, Ev. cbn. by rewrite (Hc m m' Ev Em).
  - right. exists CannotReadMap. unfold entry. by rewrite Ew.
Qed.
Lemma in_time_not_expired since now : in_i64 since → in_time since now → is_expired_marker (marker since) now = false.
Proof.
  intros Hs Ht. unfold is_expired_marker. rewrite marker_is_marker, classify_in_time by done. cbn [andb].
  by apply bool_decide_eq_false.
Qed.
Lemma step_guarded w w' : step csid hook in_time (spares csid) w w' → guarded w → guarded w'.
Proof.
  intros Hstep Hg. pose proof Hg as (Hb & Hn & Hh).
  destruct Hstep as [w p now Hp Hi|w p a seen now Hp Hin|w p a answer Hp|w p a id now Hp|w p|w a key op Hne Hok].
  - destruct (look_free (hook p) csid now (d_map (w_disk w))) as [Hfree Hnow]. apply guarded_go; cbn [fst snd]; try done.
    + by intros s n ->%Hnow.
    + intros [?|(q & _ & Hq)]; [done|]. by apply (Hh q).
  - by apply claims_guarded.
  - by apply starts_guarded.
  - by apply records_guarded.
  - assert (∀ q, holds (mkWorld (w_disk w) (delete p (w_hooks w)) (w_started w)) q → holds w q) as Hsub.
    { intros q. unfold holds. cbn [w_hooks]. destruct (decide (p = q)) as [->|Hne]; [by rewrite lookup_delete_eq|by rewrite lookup_delete_ne]. }
    split_and!; [exact Hb| |].
    + intros q s now. cbn [w_hooks]. rewrite lookup_delete_Some. intros [_ Hq]. by eapply Hn.
    + intros q Hq%Hsub. destruct (Hh q Hq) as [Hone He]. split; [|exact He]. intros q' Hq'%Hsub. by apply Hone.
  - split_and!; cbn [w_disk w_hooks]; [by apply others_bounded|exact Hn|].
    intros q Hq. destruct (Hh q Hq) as [Hone He]. split; [exact Hone|].
    destruct He as [(since & Hs & He)|He]; [|right; by apply (update_unreadable csid a _ (w_disk w))].
    destruct (others_entry a key op (w_disk w) Hne Hb) as [->|?]; [|left; by exists since|by right].
    intros m now Ev Hi. destruct (Hok m now Ev Hi) as [Hsp Ht]. split; [exact Hsp|]. intros v Hv.
    unfold entry in He. rewrite Ev in He. cbn in He. injection He as He. rewrite Hv in He. injection He as ->.
    apply in_time_not_expired; [done|]. by apply Ht.
Qed.
End inv.

(** C27: at most one hook of a session is between its claim and the end of its start, whatever the hooks
    do, in any interleaving, with any failure, and with the claims, records and clears of other
    sessions in between; and while one is, the map holds a marker or cannot be read. It holds as
    long as no hook, of this session or another, judges a marker of this session from its own
    future or one that expired, and as long as no other session inserts a new key into a full map
    in which the key of this session is the least one, which is the one that the cap evicts. *)
Theorem one_start_at_a_time csid hook w w' : all_arrived w → bounded (w_disk w) → rtc (step csid hook in_time (spares csid)) w w' →
  ∀ p q, holds w' p → holds w' q →
    p = q ∧ ((∃ since, entry csid (w_disk w') = Ok (Some (marker since))) ∨ ∃ e, entry csid (w_disk w') = Err e).
Proof.
  intros Ha Hb Hsteps. assert (guarded csid w) as Hg.
  { split_and!; [exact Hb|..].
    - intros p s now Hp. by apply Ha in Hp.
    - intros p. unfold holds. destruct (w_hooks w !! p) eqn:E; [|done]. apply Ha in E. by subst. }
  assert (guarded csid w') as (_ & _ & Hh).
  { clear Ha Hb. induction Hsteps as [|w1 w2 w3 Hs _ IH]; [exact Hg|]. by apply IH, (step_guarded csid hook w1). }
  intros p q Hp Hq. destruct (Hh p Hp) as [Hone He]. split; [by apply Hone|]. destruct He as [(since & _ & ?)|?]; [left; by exists since|by right].
Qed.

(** A session that is linked keeps its link and starts nothing, as long as the server does not say that
    the transcript is gone and no other session evicts its key. *)
Theorem linked_stays_linked csid hook may_claim id w w' : all_arrived w → bounded (w_disk w) →
  entry csid (w_disk w) = Ok (Some id) → is_marker id = false → (∀ p, verdict (hook p) id ≠ Ok Gone) →
  rtc (step csid hook may_claim (spares csid)) w w' →
  w_started w' = w_started w ∧ (entry csid (w_disk w') = Ok (Some id) ∨ ∃ e, entry csid (w_disk w') = Err e).
Proof.
  intros Ha Hb He Hid Hlive Hsteps.
  set (inv v := bounded (w_disk v) ∧ (∀ p ph, w_hooks v !! p = Some ph → ph = Arrived ∨ ∃ r, ph = Done r) ∧
    (entry csid (w_disk v) = Ok (Some id) ∨ ∃ e, entry csid (w_disk v) = Err e)).
  assert (inv w) as Hinv by (split_and!; [done|intros p ph Hp; left; by apply (Ha p)|by left]).
  clear Ha Hb He. induction Hsteps as [w|w1 w2 w3 Hs _ IH]; [by destruct Hinv as (_ & _ & ?)|].
  assert (inv w2 ∧ w_started w2 = w_started w1) as [H2 E2]; [|destruct (IH H2) as [-> ?]; by split].
  clear IH w3. destruct Hinv as (Hb & Hph & He).
  destruct Hs as [w p now Hp Hi|w p a seen now Hp _|w p a answer Hp|w p a i now Hp|w p|w a key op Hne Hok];
    try (destruct (Hph p _ Hp) as [|[]]; done); (split; [|done]).
  - split_and!; [exact Hb| |exact He]. intros q ph. cbn [go_on w_hooks fst]. destruct (decide (p = q)) as [->|Hne]; [|rewrite lookup_insert_ne by done; apply Hph].
    rewrite lookup_insert_eq. intros [= <-]. right. unfold look, link_at, load_at. unfold entry, view in He.
    destruct (read_map_bytes (d_map (w_disk w))) as [[text|]|e]; cbn in He |- *; [|destruct He as [[=]|[e [=]]]|by eexists].
    destruct (decode text) as [m|]; cbn in He |- *; [|destruct He as [[=]|[e [=]]]].
    destruct He as [[= Em]|[e [=]]]. rewrite Em. unfold classify. unfold is_marker in Hid. apply bool_decide_eq_false in Hid.
    apply eq_None_not_Some in Hid. rewrite Hid. unfold cached_transcript_id. destruct (client (hook q) && verify (hook q)); [|by eexists].
    specialize (Hlive q). destruct (verdict (hook q) id) as [[]|]; [by eexists|done|by eexists].
  - split_and!; [exact Hb| |exact He]. intros q ph. cbn [w_hooks]. rewrite lookup_delete_Some. intros [_ Hq]. by eapply Hph.
  - unfold inv. cbn [w_disk w_hooks]. destruct He as [He|He].
    + pose proof (others_entry csid a key op (w_disk w) Hne Hb) as Ho. rewrite He in Ho.
      split_and!; [by apply others_bounded|exact Hph|apply Ho]. clear Ho.
      intros m now Ev Hi. split; [by apply (Hok m now)|]. intros v Hv. unfold entry in He. rewrite Ev in He. cbn in He.
      injection He as He. rewrite Hv in He. injection He as ->. unfold is_expired_marker. by rewrite Hid.
    + split_and!; [|exact Hph|right; by apply update_unreadable].
      apply (others_bounded a key op (w_disk w) Hb).
Qed.

(** A marker that its hook left behind does not block a session for ever: once it expired, a hook that
    looks finds no link, and its claim passes when it can lock, read and write the map. *)
Theorem retry_after_ttl m csid since now a d : in_i64 since → (since + DEFAULT_PENDING_TTL_SECS ≤ now ≤ i64_max)%Z →
  view d = Ok m → size m ≤ MAX_CORRELATION_ENTRIES → m !! csid = Some (marker since) → lock_taken a = true → writes a = true →
  classify (m !! csid) now = Missing ∧ (load_at (d_map d) = Ok m → (take_claim a csid Missing now d).1 = Claimed).
Proof.
  intros Hs Hnow Ev Hsz Hm Hl Hw.
  assert (classify (m !! csid) now = Missing) as Hc.
  { rewrite Hm, classify_marker by done. rewrite bool_decide_false; [done|].
    unfold saturating_sub64, i64_min, i64_max, in_i64, DEFAULT_PENDING_TTL_SECS in *. lia. }
  split; [exact Hc|]. intros Hload. unfold take_claim, claim_pending_at, update_map. rewrite Hl. unfold load_for_write.
  unfold load_at in Hload. destruct (read_map_bytes (d_map d)) as [[text|]|e]; cbn in Hload; [|injection Hload as <-|done].
  - destruct (decode text) as [m0|]; [injection Hload as ->|done]. unfold claim. rewrite Hc. cbn. unfold write_map. by rewrite Hw.
  - by rewrite lookup_empty in Hm.
Qed.

(** Without that bound the claim is not exclusive: a hook that read the clock in one second, and
    claims after a hook that read it in the next, takes the marker for an expired one. Both start a
    transcript. *)
Definition eager : Hook := mkHook true true false (λ _, Ok Live).
Definition granted : Answers := mkAnswers true (λ _, true) true true 0%N.
(** The two claims of the run below. *)
Lemma late_claim (m := {["s" := marker 10]} : SessionMap) : String.length (encode m) ≤ MAX_STATE_BYTES →
  take_claim granted "s" Missing 10 (mkDisk NoFile ∅) = (Claimed, mkDisk (Bytes (encode m)) ∅) ∧
  ∃ d, take_claim granted "s" Missing 9 (mkDisk (Bytes (encode m)) ∅) = (Claimed, d).
Proof.
  intros Hlen. split.
  - unfold take_claim, claim_pending_at, update_map. cbn [lock_taken granted load_for_write read_map_bytes d_map].
    assert (claim "s" Missing 10 ∅ = Some m) as -> by (by vm_compute). done.
  - eexists. unfold take_claim, claim_pending_at, update_map, load_for_write. cbn [lock_taken granted read_map_bytes d_map].
    rewrite decide_False by lia. rewrite decode_encode.
    assert (claim "s" Missing 9 m = Some {["s" := marker 9]}) as -> by (by vm_compute). done.
Qed.
Theorem stale_clock_starts_two : String.length (encode (A:=SessionMap) {["s" := marker 10]}) ≤ MAX_STATE_BYTES →
  ∃ w, rtc (step "s" (λ _, eager) (λ _ _, True) (λ _ _, True)) (mkWorld (mkDisk NoFile ∅) {[0 := Arrived; 1 := Arrived]} []) w ∧
    w_started w = ["b"; "a"] ∧ holds w 0 ∧ holds w 1.
Proof.
  intros Hlen. destruct (late_claim Hlen) as [E10 [d E9]].
  eexists. split.
  - eapply rtc_l; [apply (Looks _ _ _ _ _ 1 9); [done|by unfold in_i64, i64_min, i64_max; lia]|].
    eapply rtc_l; [apply (Looks _ _ _ _ _ 0 10); [done|by unfold in_i64, i64_min, i64_max; lia]|].
    eapply rtc_l; [apply (Claims _ _ _ _ _ 0 granted Missing 10); [done|done]|].
    eapply rtc_l; [apply (Claims _ _ _ _ _ 1 granted Missing 9); [done|done]|]. cbn [go_on w_disk snd fst].
    rewrite E10. cbn [fst snd]. rewrite E9.
    eapply rtc_l; [apply (Starts _ _ _ _ _ 0 granted (Ok "a")); done|].
    eapply rtc_l; [apply (Starts _ _ _ _ _ 1 granted (Ok "b")); done|]. apply rtc_refl.
  - done.
Qed.
End laws.
