(* ===== verification/Splice.v ===== *)
(** * Additions to config.yaml by inserting text (src/onboarding/config_splice.rs)

    A configuration that is written again loses its comments and its order, so the setup inserts lines
    and changes none, but for a key whose value is empty. The result must parse to the old
    configuration plus the additions, or the splice is refused. serde_yaml is a parameter: the parser,
    and the printer of a block. *)

From S2P Require Import Prelude RustStr Text YamlMerge.

(** ** Additions *)

(** A block to print: a list, the keys of a mapping in their order, or one key with a block. *)
Inductive block `{YamlLeaves} := ListBlock (items : list yaml) | KeysBlock (keys : list (yaml_key * yaml)) | KeyBlock (name : string) (b : block).
Class YamlFile `{YamlLeaves} := {
  from_str : string → option yaml;
  to_string : block → result string string;
  name_key : string → yaml_key }.
Section splice.
Context `{HL : YamlLeaves, HF : !YamlFile}.

Inductive Addition := Items (key : string) (sub : option string) (items : list yaml) | Keys (key : string) (sub : option string) (keys : list (yaml_key * yaml)).
Definition a_key (a : Addition) : string := match a with Items key _ _ | Keys key _ _ => key end.
Definition a_sub (a : Addition) : option string := match a with Items _ sub _ | Keys _ sub _ => sub end.
Definition a_value (a : Addition) : block := match a with Items _ _ items => ListBlock items | Keys _ _ keys => KeysBlock keys end.
Definition under_key (a : Addition) : block := match a_sub a with Some sub => KeyBlock sub (a_value a) | None => a_value a end.
Definition a_name (a : Addition) : string := match a_sub a with Some sub => a_key a +:+ "." +:+ sub | None => a_key a end.

Record Hunk := mkHunk { h_line : nat; h_removed : list string; h_added : list string }.
Definition render_diff (hunks : list Hunk) : string :=
  join "" (map (λ h, "@@ line " +:+ pretty (h_line h) +:+ " of the new config.yaml @@" +:+ nl +:+
    join "" (map (λ l, "- " +:+ l +:+ nl) (h_removed h)) +:+ join "" (map (λ l, "+ " +:+ l +:+ nl) (h_added h))) hunks).
Inductive splice_error := MixedEndings | InlineValue (key : string) | NotABlockList | CannotPrint (e : string) | OldDoesNotParse | NewDoesNotParse | Differs
  | NotAMapping | NotAList.

(** ** The lines of a key *)

Inductive KeyValue := Block | EmptyValue | Inline.
(** [split(" #").next()]. *)
Fixpoint before_comment (s : string) : string :=
  match s with
  | String " " (String "#" _) => ""
  | String c s => String c (before_comment s)
  | "" => ""
  end.
Definition key_value (line key : string) : KeyValue :=
  let rest := default "" (strip_prefix key (trim_start line)) in
  let rest := default "" (strip_prefix ":" rest) in
  let value := trim (before_comment rest) in
  if decide (value = "") then Block
  else if decide (value ∈ ["null"; "~"; "[]"; "{}"]) then EmptyValue
  else Inline.
Fixpoint indent_of (line : string) : nat := match line with String " " line => S (indent_of line) | _ => 0 end.
Definition is_content (line : string) : bool :=
  let trimmed := trim_start line in negb (bool_decide (trimmed = "")) && negb (starts_with "#" trimmed).
Definition is_key_line (key : string) (indent : nat) (line : string) : bool :=
  bool_decide (indent_of line = indent) && match strip_prefix key (trim_start line) with Some rest => starts_with ":" rest | None => false end.
(** The first index of [lines[from..to]] that satisfies [p]. *)
Fixpoint first_from (p : string → bool) (i : nat) (l : list string) : option nat :=
  match l with [] => None | line :: l => if p line then Some i else first_from p (S i) l end.
Definition slice (lines : list string) (from to : nat) : list string := take (to - from) (drop from lines).
Definition find_key (lines : list string) (from to : nat) (key : string) (indent : nat) : option nat :=
  first_from (is_key_line key indent) from (slice lines from to).
Definition is_item (line : string) : bool := starts_with "- " (trim_start line).
Fixpoint block_length (indent : nat) (rest : list string) : nat :=
  match rest with
  | [] => 0
  | line :: rest =>
    let deeper := bool_decide (indent < indent_of line) in
    let item := bool_decide (indent_of line = indent) && is_item line in
    if is_content line && (negb (deeper || item) || starts_with "---" line) then 0 else S (block_length indent rest)
  end.
Definition block_end (lines : list string) (start indent : nat) : nat := S start + block_length indent (drop (S start) lines).
(** The lines up to the last one with content. *)
Fixpoint content_length (l : list string) : nat :=
  match l with
  | [] => 0
  | line :: l => match content_length l with 0 => if is_content line then 1 else 0 | n => S n end
  end.
Definition after_content (lines : list string) (start end_ : nat) : nat :=
  match content_length (slice lines start end_) with 0 => S start | n => start + n end.

(** ** The insert *)

Definition spaces (n : nat) : string := join "" (repeat " " n).
Definition yaml_lines (b : block) (indent : nat) : result splice_error (list string) :=
  match to_string b with
  | Ok text => Ok (map (λ l, spaces indent +:+ l) (lines text))
  | Err e => Err (CannotPrint e)
  end.
Definition keyed_lines (name : string) (b : block) (indent : nat) : result splice_error (list string) := yaml_lines (KeyBlock name b) indent.
Definition put (ls : list string) (pos remove : nat) (new : list string) : list string * Hunk :=
  let pos := pos `min` length ls in
  let stop := (pos + remove) `min` length ls in
  (take pos ls ++ new ++ drop stop ls, mkHunk (S pos) (slice ls pos stop) new).
Definition first_content (ls : list string) (from to : nat) : option string := head (filter (λ l, is_content l = true) (slice ls from to)).
Definition insert_entries (ls : list string) (at_ end_ indent : nat) (a : Addition) : result splice_error (list string * Hunk) :=
  let first := first_content ls (S at_) end_ in
  let child := match first with Some l => indent_of l | None => indent + 2 end in
  match a, first with
  | Items _ _ _, Some l => if is_item l then Ok tt else Err NotABlockList
  | _, _ => Ok tt
  end ;;
  new ← yaml_lines (a_value a) child;
  Ok (put ls (after_content ls at_ end_) 0 new).
Definition insert_sub (ls : list string) (at_ end_ : nat) (sub : string) (a : Addition) : result splice_error (list string * Hunk) :=
  let child := match first_content ls (S at_) end_ with Some l => indent_of l | None => 2 end in
  match find_key ls (S at_) end_ sub child with
  | None => new ← keyed_lines sub (a_value a) child; Ok (put ls (after_content ls at_ end_) 0 new)
  | Some sub_at =>
    match key_value (default "" (ls !! sub_at)) sub with
    | EmptyValue => new ← keyed_lines sub (a_value a) child; Ok (put ls sub_at 1 new)
    | Inline => Err (InlineValue sub)
    | Block => insert_entries ls sub_at (block_end ls sub_at child) child a
    end
  end.
Definition insert_addition (ls : list string) (a : Addition) : result splice_error (list string * Hunk) :=
  let key := a_key a in
  match find_key ls 0 (length ls) key 0 with
  | None => new ← keyed_lines key (under_key a) 0; Ok (put ls (length ls) 0 new)
  | Some at_ =>
    match key_value (default "" (ls !! at_)) key with
    | EmptyValue => new ← keyed_lines key (under_key a) 0; Ok (put ls at_ 1 new)
    | Inline => Err (InlineValue key)
    | Block =>
      let end_ := block_end ls at_ 0 in
      match a_sub a with Some sub => insert_sub ls at_ end_ sub a | None => insert_entries ls at_ end_ 0 a end
    end
  end.

(** ** The splice *)

Fixpoint count_crlf (s : string) : nat :=
  match s with String "013" (String "010" s) => S (count_crlf s) | String _ s => count_crlf s | "" => 0 end.
Fixpoint count_lf (s : string) : nat := match s with String c s => (if Ascii.eqb c "010" then 1 else 0) + count_lf s | "" => 0 end.
Definition crlf : string := chr "013" +:+ nl.
Definition line_ending (text : string) : result splice_error string :=
  let n := count_crlf text in
  if bool_decide (n = 0) then Ok nl else if bool_decide (n = count_lf text) then Ok crlf else Err MixedEndings.
(** [Value::is_null] and the [as_*_mut] look through the tags of a value. *)
Fixpoint tagged_null (v : yaml) : bool := match v with YNull => true | YTagged _ v => tagged_null v | _ => false end.
Fixpoint untagged (f : yaml → result splice_error yaml) (v : yaml) : result splice_error yaml :=
  match v with YTagged t v => v' ← untagged f v; Ok (YTagged t v') | _ => f v end.
Definition null_to (v new : yaml) : yaml := if tagged_null v then new else v.
Definition parse (text : string) : option yaml := v ← from_str text; Some (null_to v (YMapping ∅)).
Definition add_entries (a : Addition) (slot : yaml) : result splice_error yaml :=
  match a with
  | Items _ _ items => untagged (λ v, match v with YSequence l => Ok (YSequence (l ++ items)) | _ => Err NotAList end) (null_to slot (YSequence []))
  | Keys _ _ keys =>
    untagged (λ v, match v with YMapping m => Ok (YMapping (foldl (λ m kv, <[kv.1 := kv.2]> m) m keys)) | _ => Err NotAMapping end) (null_to slot (YMapping ∅))
  end.
Definition in_mapping (v : yaml) (key : string) (f : yaml → result splice_error yaml) : result splice_error yaml :=
  untagged (λ v, match v with
    | YMapping m => new ← f (default YNull (m !! name_key key)); Ok (YMapping (<[name_key key := new]> m))
    | _ => Err NotAMapping
    end) v.
Definition add_to_value (a : Addition) (config : yaml) : result splice_error yaml :=
  in_mapping config (a_key a) (λ slot,
    match a_sub a with
    | Some sub => in_mapping (null_to slot (YMapping ∅)) sub (add_entries a)
    | None => add_entries a slot
    end).
Fixpoint add_all (additions : list Addition) (config : yaml) : result splice_error yaml :=
  match additions with [] => Ok config | a :: additions => v ← add_to_value a config; add_all additions v end.
Definition verify (old new : string) (additions : list Addition) : result splice_error unit :=
  match parse old with
  | None => Err OldDoesNotParse
  | Some v =>
    expected ← add_all additions v;
    match parse new with
    | None => Err NewDoesNotParse
    | Some got => if decide (got = expected) then Ok tt else Err Differs
    end
  end.
(** An insert at or above an earlier hunk moves that hunk down. *)
Definition move_hunks (hunk : Hunk) (hunks : list Hunk) : list Hunk :=
  let grew := length (h_added hunk) - length (h_removed hunk) in
  map (λ h, if decide (h_line hunk ≤ h_line h) then mkHunk (h_line h + grew) (h_removed h) (h_added h) else h) hunks.
Definition manual_fix (a : Addition) : string :=
  let ls := match keyed_lines (a_key a) (under_key a) 0 with
    | Ok ls => ls
    | Err (CannotPrint e) => ["(the lines cannot be shown: encoding the addition as YAML: " +:+ e +:+ ")"]
    | Err _ => []
    end in
  "llmenv cannot add to `" +:+ a_name a +:+ "` in config.yaml safely. Fix: add these lines to config.yaml by hand, merged into the existing key:" +:+
    nl +:+ join nl ls.
(** An error under a context. *)
Definition with_context {A} (c : string) (r : result splice_error A) : result (option string * splice_error) A :=
  match r with Ok a => Ok a | Err e => Err (Some c, e) end.
Fixpoint insert_all (additions : list Addition) (ls : list string) (hunks : list Hunk) : result (option string * splice_error) (list string * list Hunk) :=
  match additions with
  | [] => Ok (ls, hunks)
  | a :: additions =>
    r ← with_context (manual_fix a) (insert_addition ls a);
    let '(ls, hunk) := r in
    insert_all additions ls (move_hunks hunk hunks ++ [hunk])
  end.
Definition splice (old : string) (additions : list Addition) : result (option string * splice_error) (string * string) :=
  eol ← match line_ending old with Ok eol => Ok eol | Err e => Err (None, e) end;
  r ← insert_all additions (lines old) [];
  let '(ls, hunks) := r in
  let text := join eol ls +:+ eol in
  with_context (join nl (map manual_fix additions)) (verify old text additions) ;;
  Ok (text, render_diff hunks).

(** ** Laws of the insert *)

(** A list that grew out of another one: lines may be added anywhere, and a line with [P] may go. *)
Inductive grown (P : string → Prop) : list string → list string → Prop :=
| grown_nil : grown P [] []
| grown_keep x l l' : grown P l l' → grown P (x :: l) (x :: l')
| grown_add x l l' : grown P l l' → grown P l (x :: l')
| grown_drop x l l' : P x → grown P l l' → grown P (x :: l) l'.
Lemma grown_refl P l : grown P l l.
Proof. induction l; by constructor. Qed.
Lemma grown_app P a a' b b' : grown P a a' → grown P b b' → grown P (a ++ b) (a' ++ b').
Proof. intros Ha Hb. induction Ha; cbn; [done|by constructor..]. Qed.
Lemma grown_new P l : grown P [] l.
Proof. induction l; by constructor. Qed.
Lemma grown_gone P l : Forall P l → grown P l [].
Proof. induction 1; by constructor. Qed.
Lemma grown_mono (P Q : string → Prop) l l' : (∀ x, P x → Q x) → grown P l l' → grown Q l l'.
Proof. intros H Hg. induction Hg; constructor; auto. Qed.
Lemma grown_trans P l1 l2 l3 : grown P l1 l2 → grown P l2 l3 → grown P l1 l3.
Proof.
  intros H12 H23. revert l1 H12. induction H23 as [|x l2 l3 H IH|x l2 l3 H IH|x l2 l3 Hx H IH]; intros l1 H12.
  - done.
  - remember (x :: l2) as m eqn:E. induction H12 as [|y l l' H12 _|y l l' H12 _|y l l' Hy H12 IH12]; simplify_eq.
    + by constructor; apply IH.
    + by apply grown_add, IH.
    + by apply grown_drop, IH12.
  - by apply grown_add, IH.
  - remember (x :: l2) as m eqn:E. induction H12 as [|y l l' H12 _|y l l' H12 _|y l l' Hy H12 IH12]; simplify_eq.
    + by apply grown_drop, IH.
    + by apply IH.
    + by apply grown_drop, IH12.
Qed.

Lemma slice_split ls from to : from ≤ to → ls = take from ls ++ slice ls from to ++ drop to ls.
Proof.
  intros Hle. unfold slice. rewrite <- (take_drop from ls) at 1. f_equal.
  rewrite <- (take_drop (to - from) (drop from ls)) at 1. f_equal. rewrite drop_drop. f_equal. lia.
Qed.
Lemma put_grows P ls pos remove new : Forall P (slice ls (pos `min` length ls) ((pos `min` length ls + remove) `min` length ls)) →
  grown P ls (put ls pos remove new).1.
Proof.
  intros H. unfold put. cbn [fst]. set (from := pos `min` length ls) in *. set (to := (from + remove) `min` length ls) in *.
  rewrite (slice_split ls from to) at 1 by lia. apply grown_app; [apply grown_refl|].
  rewrite <- (app_nil_l (slice ls from to)) at 1. rewrite <- app_assoc. apply grown_app; [apply grown_new|].
  rewrite <- (app_nil_l (drop to ls)) at 2. apply grown_app; [by apply grown_gone|apply grown_refl].
Qed.
Lemma slice_empty ls from : slice ls from from = [].
Proof. unfold slice. by rewrite Nat.sub_diag. Qed.
Lemma put_adds ls pos new : let r := put ls pos 0 new in grown (λ _, False) ls r.1 ∧ h_removed r.2 = [] ∧ h_added r.2 = new.
Proof.
  cbv zeta. assert (slice ls (pos `min` length ls) ((pos `min` length ls + 0) `min` length ls) = []) as E
    by (replace ((pos `min` length ls + 0) `min` length ls) with (pos `min` length ls) by lia; apply slice_empty).
  split_and!; [apply put_grows; by rewrite E|unfold put; cbn; exact E|done].
Qed.
Lemma put_fills ls i line new : ls !! i = Some line → let r := put ls i 1 new in
  grown (λ l, l = line) ls r.1 ∧ h_removed r.2 = [line] ∧ h_added r.2 = new.
Proof.
  intros Hi. cbv zeta. pose proof (lookup_lt_Some _ _ _ Hi) as Hlt.
  assert (slice ls (i `min` length ls) ((i `min` length ls + 1) `min` length ls) = [line]) as E.
  { replace (i `min` length ls) with i by lia. replace ((i + 1) `min` length ls) with (S i) by lia. unfold slice.
    replace (S i - i) with 1 by lia. by rewrite (drop_S _ line i). }
  split_and!; [apply put_grows; rewrite E; by constructor|unfold put; cbn; exact E|done].
Qed.
Lemma first_from_spec p i l j : first_from p i l = Some j → i ≤ j ∧ ∃ line, l !! (j - i) = Some line ∧ p line = true.
Proof.
  revert i. induction l as [|line l IH]; intros i; cbn [first_from]; [done|]. destruct (p line) eqn:E.
  - intros [= ->]. split; [done|]. rewrite Nat.sub_diag. by exists line.
  - intros H%IH. destruct H as (Hle & x & Hx & Hp). split; [lia|]. exists x. split; [|done]. by replace (j - i) with (S (j - S i)) by lia.
Qed.
Lemma find_key_spec ls from to key indent i : find_key ls from to key indent = Some i →
  ∃ line, ls !! i = Some line ∧ is_key_line key indent line = true.
Proof.
  intros (Hle & line & Hl & Hp)%first_from_spec. exists line. split; [|done]. unfold slice in Hl.
  apply lookup_take_Some in Hl as [Hl _]. rewrite lookup_drop in Hl. by replace (from + (i - from)) with i in Hl by lia.
Qed.

(** The line of a key of the addition whose value is empty. *)
Definition fillable (a : Addition) (line : string) : Prop :=
  ∃ key indent, (key = a_key a ∨ a_sub a = Some key) ∧ is_key_line key indent line = true ∧ key_value line key = EmptyValue.
(** What one insert does to the lines, and what its hunk says of it. *)
Definition inserted (a : Addition) (ls : list string) (r : list string * Hunk) : Prop :=
  grown (λ l, fillable a l ∧ l ∈ h_removed r.2) ls r.1.
Lemma inserted_adds a ls pos new : inserted a ls (put ls pos 0 new).
Proof. destruct (put_adds ls pos new) as [H _]. eapply grown_mono; [|exact H]. done. Qed.
Lemma inserted_fills a ls i key indent new : (key = a_key a ∨ a_sub a = Some key) → find_key ls 0 (length ls) key indent = Some i ∨
    (∃ from to, find_key ls from to key indent = Some i) →
  key_value (default "" (ls !! i)) key = EmptyValue → inserted a ls (put ls i 1 new).
Proof.
  intros Hkey Hfind Hv. assert (∃ line, ls !! i = Some line ∧ is_key_line key indent line = true) as (line & Hi & Hk)
    by (destruct Hfind as [H|(from & to & H)]; by eapply find_key_spec).
  rewrite Hi in Hv. destruct (put_fills ls i line new Hi) as (Hg & Hr & _). eapply grown_mono; [|exact Hg].
  intros x ->. split; [by exists key, indent|]. rewrite Hr. by left.
Qed.
Lemma insert_entries_put ls at_ end_ indent a r : insert_entries ls at_ end_ indent a = Ok r → ∃ pos new, r = put ls pos 0 new.
Proof.
  unfold insert_entries. set (first := first_content _ _ _). intros H.
  destruct a as [key sub items|key sub keys]; destruct first as [l|]; try destruct (is_item l); cbn in H; try done;
    destruct (yaml_lines _ _) as [new|] in H; try done; injection H as <-; eauto.
Qed.
Lemma insert_entries_grows ls at_ end_ indent a r : insert_entries ls at_ end_ indent a = Ok r → inserted a ls r.
Proof. intros (pos & new & ->)%insert_entries_put. apply inserted_adds. Qed.
Lemma insert_addition_grows ls a r : insert_addition ls a = Ok r → inserted a ls r.
Proof.
  unfold insert_addition. destruct (find_key ls 0 (length ls) (a_key a) 0) as [at_|] eqn:Ef.
  2: { destruct (keyed_lines _ _ _) as [new|]; [|done]. intros [= <-]. apply inserted_adds. }
  destruct (key_value _ _) eqn:Ev.
  - destruct (a_sub a) as [sub|] eqn:Es; [|apply insert_entries_grows]. unfold insert_sub.
    destruct (find_key ls (S at_) _ sub _) as [sub_at|] eqn:Efs.
    + destruct (key_value (default "" (ls !! sub_at)) sub) eqn:Evs; [apply insert_entries_grows| |done].
      destruct (keyed_lines _ _ _) as [new|]; [|done]. intros [= <-]. eapply inserted_fills; [right; exact Es|right; eauto|done].
    + destruct (keyed_lines _ _ _) as [new|]; [|done]. intros [= <-]. apply inserted_adds.
  - destruct (keyed_lines _ _ _) as [new|]; [|done]. intros [= <-]. eapply inserted_fills; [by left|by left|done].
  - done.
Qed.

Lemma move_hunks_keeps hunk hunks h : h ∈ hunks →
  ∃ h', h' ∈ move_hunks hunk hunks ∧ h_removed h' = h_removed h ∧ h_added h' = h_added h.
Proof. intros H. eexists. split; [unfold move_hunks; apply list_elem_of_fmap; eexists; split; [reflexivity|exact H]|]. by destruct (decide _). Qed.
Lemma insert_all_keeps adds ls hunks after hs h : insert_all adds ls hunks = Ok (after, hs) → h ∈ hunks →
  ∃ h', h' ∈ hs ∧ h_removed h' = h_removed h ∧ h_added h' = h_added h.
Proof.
  revert ls hunks h. induction adds as [|a adds IH]; intros ls hunks h; cbn [insert_all]; [intros [= <- <-]; eauto|].
  destruct (insert_addition ls a) as [[ls' hunk]|]; cbn; [|done]. intros H Hh.
  destruct (move_hunks_keeps hunk hunks h Hh) as (h1 & H1 & <- & <-). eapply IH; [exact H|]. apply elem_of_app. by left.
Qed.
(** The lines that may go: one of a key whose value is empty, and a hunk shows it. *)
Definition replaced (adds : list Addition) (hs : list Hunk) (l : string) : Prop :=
  (∃ a, a ∈ adds ∧ fillable a l) ∧ ∃ h, h ∈ hs ∧ l ∈ h_removed h.
Lemma insert_all_grows adds ls hunks after hs : insert_all adds ls hunks = Ok (after, hs) → grown (replaced adds hs) ls after.
Proof.
  revert ls hunks. induction adds as [|a adds IH]; intros ls hunks; cbn [insert_all]; [intros [= <- <-]; apply grown_refl|].
  destruct (insert_addition ls a) as [[ls' hunk]|] eqn:E; cbn; [|done]. intros H. apply grown_trans with ls'.
  - eapply grown_mono; [|exact (insert_addition_grows _ _ _ E)]. cbn. intros l [Hf Hl]. split; [exists a; set_solver|].
    destruct (insert_all_keeps _ _ _ _ _ hunk H ltac:(set_solver)) as (h' & Hh & Er & _). exists h'. by rewrite Er.
  - eapply grown_mono; [|by eapply IH]. intros l [(b & Hb & Hf) Hh]. split; [|done]. exists b. set_solver.
Qed.
Lemma verify_ok old new adds : verify old new adds = Ok tt → ∃ v got, parse old = Some v ∧ add_all adds v = Ok got ∧ parse new = Some got.
Proof.
  unfold verify. destruct (parse old) as [v|]; [|done]. destruct (add_all adds v) as [expected|] eqn:Ea; cbn; [|done].
  destruct (parse new) as [got|]; [|done]. destruct (decide _) as [->|]; [|done]. eauto.
Qed.

(** A splice that is done keeps each line of the old file, in its order, but for the lines of keys whose
    value is empty, which the diff shows as removed. The new file parses, and what it holds is the old
    configuration with each addition made in it. *)
Theorem splice_correct old adds new diff : splice old adds = Ok (new, diff) → ∃ eol after hs v got,
  line_ending old = Ok eol ∧ new = join eol after +:+ eol ∧ diff = render_diff hs ∧
  grown (replaced adds hs) (lines old) after ∧
  parse old = Some v ∧ add_all adds v = Ok got ∧ parse new = Some got.
Proof.
  unfold splice. destruct (line_ending old) as [eol|]; [|done]. cbn.
  destruct (insert_all adds (lines old) []) as [[after hs]|] eqn:Ei; cbn; [|done].
  destruct (verify old _ adds) as [[]|] eqn:Ev; cbn; [|done]. intros [= <- <-].
  destruct (verify_ok _ _ _ Ev) as (v & got & Hp & Ha & Hn). exists eol, after, hs, v, got. split_and!; try done.
  by eapply insert_all_grows.
Qed.
(** A key with an inline value is never touched: the splice is refused with the lines to add by hand. *)
Theorem inline_refused old a adds eol i : line_ending old = Ok eol → find_key (lines old) 0 (length (lines old)) (a_key a) 0 = Some i →
  key_value (default "" (lines old !! i)) (a_key a) = Inline → splice old (a :: adds) = Err (Some (manual_fix a), InlineValue (a_key a)).
Proof. intros He Hf Hv. unfold splice. rewrite He. cbn [insert_all]. unfold insert_addition. by rewrite Hf, Hv. Qed.

(** *** The line numbers of the diff *)

Definition points (ls : list string) (h : Hunk) : Prop := 1 ≤ h_line h ∧ h_added h ≠ [] ∧ ls !! pred (h_line h) = head (h_added h).
Lemma put_points ls pos new h : points ls h → Forall (points (put ls pos 0 new).1) (move_hunks (put ls pos 0 new).2 [h]).
Proof.
  intros (Hle & Hne & Hl). unfold move_hunks, put. cbn [map fst snd h_line h_added h_removed]. set (p := pos `min` length ls).
  replace ((p + 0) `min` length ls) with p by lia. rewrite slice_empty. constructor; [|constructor].
  destruct (decide (S p ≤ h_line h)) as [Hp|Hp]; (split_and!; cbn [h_line h_added]; [lia|done|]).
  - rewrite lookup_app_r by (rewrite length_take; lia). rewrite length_take, lookup_app_r by (cbn; lia). rewrite lookup_drop, <- Hl.
    f_equal. cbn. lia.
  - rewrite lookup_app_l by (rewrite length_take; lia). by rewrite lookup_take_lt by lia.
Qed.
Lemma put_points_self ls pos new : new ≠ [] → points (put ls pos 0 new).1 (put ls pos 0 new).2.
Proof.
  intros Hne. unfold put, points. cbn. set (p := pos `min` length ls). split_and!; [lia|done|].
  rewrite lookup_app_r by (rewrite length_take; lia). rewrite length_take, lookup_app_l by (destruct new; cbn; [done|lia]).
  replace (p - p `min` length ls) with 0 by lia. by destruct new.
Qed.
Lemma put_one_removes ls i new : i < length ls → h_removed (put ls i 1 new).2 ≠ [].
Proof. intros [line Hi]%lookup_lt_is_Some. destruct (put_fills ls i line new Hi) as (_ & -> & _). done. Qed.
Lemma insert_addition_put ls a r : insert_addition ls a = Ok r → h_removed r.2 = [] → ∃ pos new, r = put ls pos 0 new.
Proof.
  unfold insert_addition. destruct (find_key ls 0 (length ls) (a_key a) 0) as [at_|] eqn:Ef.
  2: { destruct (keyed_lines _ _ _) as [new|]; [|done]. intros [= <-]. eauto. }
  destruct (find_key_spec _ _ _ _ _ _ Ef) as (line & Hl%lookup_lt_Some & _). destruct (key_value _ _).
  - destruct (a_sub a) as [sub|]; [|intros H _; by eapply insert_entries_put]. unfold insert_sub.
    destruct (find_key ls (S at_) _ sub _) as [sub_at|] eqn:Efs.
    + destruct (find_key_spec _ _ _ _ _ _ Efs) as (sline & Hs%lookup_lt_Some & _).
      destruct (key_value _ sub); [intros H _; by eapply insert_entries_put| |done].
      destruct (keyed_lines _ _ _) as [new|]; [|done]. intros [= <-] Hr. by apply put_one_removes in Hr.
    + destruct (keyed_lines _ _ _) as [new|]; [|done]. intros [= <-]. eauto.
  - destruct (keyed_lines _ _ _) as [new|]; [|done]. intros [= <-] Hr. by apply put_one_removes in Hr.
  - done.
Qed.
Definition adds_only (h : Hunk) : Prop := h_removed h = [] ∧ h_added h ≠ [].
Lemma insert_all_points adds ls hunks after hs : insert_all adds ls hunks = Ok (after, hs) → (∀ h, h ∈ hs → adds_only h) →
  (∀ h, h ∈ hunks → points ls h) → ∀ h, h ∈ hs → points after h.
Proof.
  revert ls hunks. induction adds as [|a adds IH]; intros ls hunks; cbn [insert_all]; [intros [= <- <-]; auto|].
  destruct (insert_addition ls a) as [[ls' hunk]|] eqn:E; cbn; [|done]. intros H Ho Hp.
  destruct (insert_all_keeps _ _ _ _ _ hunk H ltac:(set_solver)) as (h' & [Hr Hn]%Ho & E1 & E2).
  destruct (insert_addition_put _ _ _ E) as (pos & new & Eput); [cbn; congruence|].
  assert (ls' = (put ls pos 0 new).1 ∧ hunk = (put ls pos 0 new).2) as [-> ->] by by rewrite <- Eput.
  apply (IH _ _ H Ho). intros h [(h0 & -> & Hh0)%list_elem_of_fmap| ->%list_elem_of_singleton]%elem_of_app.
  - pose proof (put_points ls pos new h0 (Hp h0 Hh0)) as Hf. unfold move_hunks in Hf. cbn [map] in Hf. by apply Forall_cons in Hf as [Hf _].
  - apply put_points_self. cbn in E2. by rewrite <- E2.
Qed.
(** When the splice only adds, the line number of each hunk is that of its first added line in the new
    file, however many additions came after it. *)
Theorem hunks_point adds ls after hs : insert_all adds ls [] = Ok (after, hs) → (∀ h, h ∈ hs → adds_only h) →
  ∀ h, h ∈ hs → 1 ≤ h_line h ∧ after !! pred (h_line h) = head (h_added h).
Proof.
  intros H Ho h Hh. destruct (insert_all_points _ _ _ _ _ H Ho) with h as (? & _ & ?); [|done|done]. intros h' Hin%elem_of_nil. done.
Qed.
End splice.
