(* ===== verification/MemoryEndpoint.v ===== *)
(** * The memory server of a session (src/memory/resolve.rs)

    The hooks find the memory server of the running session from the configuration and the firing
    bundles, as an export does, with the slice of the last merge as a cache; and when there is none
    they say why. *)

From S2P Require Import Prelude RustStr Json TaskStore Marker JsonMerge YamlMerge Bundles ConfigSchema CapMerge.
From S2P Require Import Scope Names ConfigValidate McpResolve PluginResolve BundleMerge BuildManifest.

Inductive Endpoint :=
| Active (url : string) (settings : MemoryHookSettings)
| NoBundlesFired
| NotDeclared (skipped_bundles : list string)
| SuppressedByDisableBundles (names : list string)
| TagInactive (server_hosts : list string).

Definition skipped_bundles (e : Endpoint) : list string := match e with NotDeclared s => s | _ => [] end.
Definition endpoint_settings (e : Endpoint) : option MemoryHookSettings := match e with Active _ s => Some s | _ => None end.
Definition default_memory_hook : MemoryHookSettings := mkHookSettings None true None None (me_global_topics default_memory).
Definition ENDPOINT_PREFIX : string := "no memory backend active for this scope".
Definition into_url (e : Endpoint) : result string string :=
  match e with
  | Active url _ => Ok url
  | NoBundlesFired => Err (ENDPOINT_PREFIX +:+ ": no bundles fired and config.yaml declares no features.memory")
  | NotDeclared [] => Err (ENDPOINT_PREFIX +:+ ": no active bundle or config.yaml declares features.memory")
  | NotDeclared skipped =>
    Err (ENDPOINT_PREFIX +:+ ": bundle(s) " +:+ join ", " skipped +:+
         " fired but were skipped while loading bundle content — either no content directory under the config dir's bundles/, or the bundle name was rejected (e.g. a traversal/absolute path) — so any features.memory they declare was never loaded")
  | SuppressedByDisableBundles names =>
    Err (ENDPOINT_PREFIX +:+ ": features.memory is supplied only by bundle(s) " +:+ join ", " names +:+
         ", which this project turns off via disable_bundles")
  | TagInactive hosts =>
    Err (ENDPOINT_PREFIX +:+ ": features.memory declares server_host(s) " +:+ join ", " hosts +:+
         ", but none of their `when` tags are in the active scope")
  end.
Definition into_url_and_settings (e : Endpoint) : result string (string * MemoryHookSettings) :=
  url ← into_url e; Ok (url, default default_memory_hook (endpoint_settings e)).

(** [annotate_resolve_error]: the bundles that would have declared the host, if they were not
    turned off. *)
Inductive endpoint_error :=
| EndpointMerge (e : bundle_error)
| EndpointResolve (e : ResolveError) (suppliers : list string).

Section endpoint.
Context `{HL : YamlLeaves, !BundleYaml, !YamlText, FileSystem, BundleDisk, HexDigest, Codec PersistedMergeCache, Ssrf.Net}.
Context (home : option string) (path_exists : string → bool).
Implicit Types (config : ConfigSchema.Config) (caps : Capabilities).

(** [resolve_bundle_memory_host]; [read] is what the bounded read of the cache file answers. *)
Definition disk_hit config (refs : list BundleRef) (read : result io_kind (option string))
  : option (list Memory * gmap string HostEntry) :=
  match merge_signature (cf_capabilities config) (cf_native config) refs, expand_tilde home (ch_cache_dir (cf_cache config)) with
  | Ok key, Ok _ => (read_if_matching read key).1
  | _, _ => None
  end.
Definition resolve_bundle_memory_host config (refs : list BundleRef) (read : result io_kind (option string))
  : result bundle_error (list Memory * gmap string HostEntry) :=
  if decide (refs = []) then Ok ([], ∅)
  else
    match disk_hit config refs read with
    | Some hit => Ok hit
    | None =>
      merged ← merge_bundles home (cf_capabilities config) (cf_native config) refs;
      Ok (feature_list fe_memory (mm_capabilities merged), ca_host (mm_capabilities merged))
    end.

Record MergedMemory := mkMergedMemory {
  mz_firing : list Bundle; mz_refs : list BundleRef; mz_memory : list Memory; mz_host : gmap string HostEntry }.
Definition merged_memory config (config_dir : string) (active : ActiveScopes) (read : result io_kind (option string))
  : result bundle_error MergedMemory :=
  let firing := firing_bundles (cf_bundle config) active None in
  let refs := build_bundle_refs path_exists config_dir active firing in
  slice ← resolve_bundle_memory_host config refs read;
  Ok (mkMergedMemory firing refs (all_memory config slice.1) (all_host config slice.2)).

(** [suppressed_bundle_capabilities]: a bundle that cannot be read is left out, with a notice. *)
Definition suppressed_bundle_capabilities config (config_dir : string) (active : ActiveScopes)
  : list (string * Capabilities) :=
  let disabled := marker_disabled_bundle_names active in
  if decide (disabled = ∅) then []
  else
    let would_fire := filter (λ b, tag_or_marker_selected b active (marker_enabled_bundle_names active) = true)
      (filter (λ b, b_name b ∈ disabled) (cf_bundle config)) in
    omap (λ r, match read_bundle_yaml (br_path r) (br_name r) with
               | Ok (Some caps) => Some (br_name r, caps) | _ => None end)
      (build_bundle_refs path_exists config_dir active would_fire).
Definition suppressed_memory_bundles config (config_dir : string) (active : ActiveScopes) : list string :=
  map fst (filter (λ nc : string * Capabilities,
      existsb (λ m, memory_is_tag_active m (ac_tags active)) (feature_list fe_memory nc.2) = true)
    (suppressed_bundle_capabilities config config_dir active)).

Definition classify_missing_memory config (config_dir : string) (active : ActiveScopes) (firing : list Bundle)
    (refs : list BundleRef) (memory : list Memory) : Endpoint :=
  let suppressed := suppressed_memory_bundles config config_dir active in
  if negb (bool_decide (suppressed = [])) then SuppressedByDisableBundles suppressed
  else
    let skipped := filter (λ n, n ∉ br_name <$> refs) (map b_name firing) in
    if negb (bool_decide (skipped = [])) then NotDeclared skipped
    else if negb (bool_decide (memory = [])) then TagInactive (Tags.in_order (list_to_set (map me_server_host memory)))
    else if bool_decide (firing = []) then NoBundlesFired
    else NotDeclared [].

Definition annotate_resolve_error (e : ResolveError) config (config_dir : string) (active : ActiveScopes) : endpoint_error :=
  match e with
  | ResolveUnknownServerHost host =>
    EndpointResolve e (map fst (filter (λ nc : string * Capabilities, is_Some (ca_host nc.2 !! host))
                         (suppressed_bundle_capabilities config config_dir active)))
  | _ => EndpointResolve e []
  end.
(** The first remote server with the name of the memory. *)
Definition memory_match (m : ResolvedMcp) : option (string * option MemoryHookSettings) :=
  match rm_kind m with
  | KRemote url _ => if decide (rm_name m = MEMORY_MCP_NAME) then Some (url, rm_memory_hook m) else None
  | KStdio _ _ _ => None
  end.
Definition memory_endpoint config (config_dir : string) (active : ActiveScopes) (read : result io_kind (option string))
  : result endpoint_error Endpoint :=
  merged ← map_err EndpointMerge (merged_memory config config_dir active read);
  match resolve_mcps (cf_mcp config) (mz_memory merged) (mz_host merged) (ac_tags active) with
  | Err e => Err (annotate_resolve_error e config config_dir active)
  | Ok resolved =>
    Ok match head (omap memory_match resolved) with
       | Some (url, settings) => Active url (default default_memory_hook settings)
       | None => classify_missing_memory config config_dir active (mz_firing merged) (mz_refs merged) (mz_memory merged)
       end
  end.

(** ** Why there is one, or none *)

Notation live merged active := (filter (λ m, memory_is_tag_active m (ac_tags active) = true) (mz_memory merged)).

(** A bundle that this project turns off, and that would have given an active memory server. *)
Definition supplier config (config_dir : string) (active : ActiveScopes) (n : string) : Prop :=
  ∃ caps m, (n, caps) ∈ suppressed_bundle_capabilities config config_dir active ∧
    m ∈ feature_list fe_memory caps ∧ memory_is_tag_active m (ac_tags active) = true.
(** A bundle that fired, but whose content was not loaded. *)
Definition without_content (merged : MergedMemory) (n : string) : Prop :=
  n ∈ map b_name (mz_firing merged) ∧ n ∉ br_name <$> mz_refs merged.
Definition explained config (config_dir : string) (active : ActiveScopes) (merged : MergedMemory) (e : Endpoint) : Prop :=
  match e with
  | Active url settings =>
      ∃ mem host, live merged active = [mem] ∧ mz_host merged !! me_server_host mem = Some host ∧
        url = memory_url (he_addr host) (me_port mem) ∧ Ssrf.public_cleartext_literal url = None ∧
        settings = mkHookSettings (me_wakeup_max_tokens mem) (me_adaptive_recall mem) (me_default_type mem)
                     (me_default_importance mem) (me_global_topics mem)
  | SuppressedByDisableBundles names =>
      live merged active = [] ∧ names ≠ [] ∧ (∀ n, n ∈ names ↔ supplier config config_dir active n) ∧
      ∀ n, n ∈ names → n ∈ marker_disabled_bundle_names active
  | NotDeclared skipped =>
      live merged active = [] ∧ (∀ n, ¬ supplier config config_dir active n) ∧
      (∀ n, n ∈ skipped ↔ without_content merged n) ∧
      (skipped = [] → mz_memory merged = [] ∧ mz_firing merged ≠ [])
  | TagInactive hosts =>
      live merged active = [] ∧ (∀ n, ¬ supplier config config_dir active n) ∧ (∀ n, ¬ without_content merged n) ∧
      hosts ≠ [] ∧ ∀ h, h ∈ hosts ↔ ∃ m, m ∈ mz_memory merged ∧ me_server_host m = h
  | NoBundlesFired => mz_memory merged = [] ∧ mz_firing merged = [] ∧ ∀ n, ¬ supplier config config_dir active n
  end.

Lemma suppressed_suppliers config config_dir active n :
  n ∈ suppressed_memory_bundles config config_dir active ↔ supplier config config_dir active n.
Proof.
  unfold suppressed_memory_bundles, supplier. rewrite list_elem_of_fmap. split.
  - intros ([n' caps] & -> & [Hm Hin]%list_elem_of_filter). apply existsb_exists in Hm as (m & Hm & Ha).
    exists caps, m. split_and!; [done|by apply list_elem_of_In|done].
  - intros (caps & m & Hin & Hm & Ha). exists (n, caps). split; [done|]. apply list_elem_of_filter. split; [|done].
    apply existsb_exists. exists m. split; [by apply list_elem_of_In|done].
Qed.
Lemma suppressed_disabled config config_dir active n caps :
  (n, caps) ∈ suppressed_bundle_capabilities config config_dir active → n ∈ marker_disabled_bundle_names active.
Proof.
  unfold suppressed_bundle_capabilities. case_decide; [by intros ?%elem_of_nil|].
  intros (r & Hr & E)%list_elem_of_omap. destruct (read_bundle_yaml _ _) as [[c|]|]; [|done..]. injection E as <- <-.
  destruct (build_bundle_refs_correct path_exists config_dir active
    (filter (λ b, tag_or_marker_selected b active (marker_enabled_bundle_names active) = true)
      (filter (λ b, b_name b ∈ marker_disabled_bundle_names active) (cf_bundle config)))) as (_ & _ & Hn & _).
  destruct (proj1 (Hn (br_name r)) (list_elem_of_fmap_2 br_name _ r Hr)) as (_ & b & Hb & <-).
  by apply list_elem_of_filter in Hb as [_ [Hb _]%list_elem_of_filter].
Qed.
Lemma classify_explained config config_dir active (merged : MergedMemory) :
  live merged active = [] →
  explained config config_dir active merged
    (classify_missing_memory config config_dir active (mz_firing merged) (mz_refs merged) (mz_memory merged)).
Proof.
  intros Hl. unfold classify_missing_memory.
  pose proof (suppressed_suppliers config config_dir active) as Hs.
  set (suppressed := suppressed_memory_bundles config config_dir active) in *.
  assert (Hskip : ∀ n, n ∈ filter (λ n, n ∉ br_name <$> mz_refs merged) (map b_name (mz_firing merged)) ↔ without_content merged n).
  { intros n. rewrite list_elem_of_filter. unfold without_content. tauto. }
  set (skipped := filter _ (map b_name _)) in *.
  case_bool_decide as E1; cbn [negb].
  2:{ cbn. split_and!; [done..|]. intros n (caps & m & Hc & _)%Hs. by apply suppressed_disabled in Hc. }
  assert (Hno : ∀ n, ¬ supplier config config_dir active n).
  { intros n Hn%Hs. rewrite E1 in Hn. by apply elem_of_nil in Hn. }
  case_bool_decide as E2; cbn [negb]; [|cbn; by split_and!].
  assert (Hfull : ∀ n, ¬ without_content merged n).
  { intros n Hn%Hskip. rewrite E2 in Hn. by apply elem_of_nil in Hn. }
  case_bool_decide as E3; cbn [negb].
  - case_bool_decide as E4; cbn; [done|]. split_and!; [done..| |done].
    intros n. rewrite elem_of_nil. split; [done|apply Hfull].
  - cbn. assert (Hin : ∀ h, h ∈ Tags.in_order (list_to_set (map me_server_host (mz_memory merged))) ↔
      ∃ m, m ∈ mz_memory merged ∧ me_server_host m = h).
    { intros h. unfold Tags.in_order. rewrite merge_sort_Permutation, elem_of_elements, elem_of_list_to_set, list_elem_of_fmap.
      naive_solver. }
    split_and!; [done..| |done]. intros E. destruct (mz_memory merged) as [|m l] eqn:Em; [done|].
    rewrite E in Hin. apply (not_elem_of_nil (me_server_host m)), Hin. exists m. split; [by left|done].
Qed.
Lemma no_static_match mcp static : Forall (λ m, ms_name m ≠ MEMORY_MCP_NAME) mcp →
  Forall2 (λ m r, resolve_static m = Ok r) mcp static → omap memory_match static = [].
Proof.
  intros Hall Hs. induction Hs as [|m r mcp static Hm _ IH]; [done|]. apply Forall_cons in Hall as [Hn Hall].
  cbn [omap list_omap]. unfold resolve_static in Hm. apply result_bind_ok in Hm as (kind & _ & Hm). injection Hm as <-.
  unfold memory_match at 1. cbn [rm_kind rm_name]. destruct kind; [by apply IH|]. rewrite decide_False by done. by apply IH.
Qed.

(** What a hook says of its memory server is true. A URL is that of the one memory server whose
    tags are active, on a host that is declared, and never one in the clear on a public address;
    and when there is none, no memory server is active and the reason that is given holds: the
    bundles that are named are exactly those that the project turns off and that would give one, or
    exactly those that fired without a content folder, or every declared server is on a host whose
    tags are not active, or nothing fired. *)
Theorem memory_endpoint_correct config (config_dir : string) (active : ActiveScopes) (read : result io_kind (option string))
    (merged : MergedMemory) (e : Endpoint) :
  Forall (λ m, ms_name m ≠ MEMORY_MCP_NAME) (cf_mcp config) →
  merged_memory config config_dir active read = Ok merged → memory_endpoint config config_dir active read = Ok e →
  explained config config_dir active merged e.
Proof.
  intros Hn Hm. unfold memory_endpoint. rewrite Hm. cbn [map_err mbind result_bind].
  destruct (resolve_mcps (cf_mcp config) (mz_memory merged) (mz_host merged) (ac_tags active)) as [resolved|] eqn:Er; [|done]. cbn. intros [= <-].
  apply mcps_spec in Er as (static & extra & Hs & -> & He). rewrite omap_app.
  rewrite (no_static_match (filter (server_active (ac_tags active)) (cf_mcp config)) static);
    [|rewrite Forall_forall in *; intros m [_ Hin]%list_elem_of_filter; auto|done].
  destruct He as [[Hl ->]|(mem & r & Hl & Hr & ->)]; [by apply classify_explained|].
  unfold resolve_memory in Hr. apply result_bind_ok in Hr as (host & Hh & Hr).
  apply result_bind_ok in Hr as ([] & Hc & Hr). injection Hr as <-. cbn.
  exists mem, host. apply cleartext_passes in Hc. split_and!; [done| |done..].
  by destruct (mz_host merged !! me_server_host mem); [injection Hh as ->|].
Qed.
End endpoint.
