(* ===== verification/MergeCacheLaws.v ===== *)
(** * The cache of the merge (src/merge/mod.rs, src/materialize/merge_cache.rs)

    A stale slice would give the hooks a wrong memory server, so the key of the cache must name
    everything that the slice depends on. Here two states of the disk with the same key are
    compared: the one at the export that wrote the slice, and the one at the hook that reads it. *)

From S2P Require Import Prelude RustStr Json TaskStore Marker JsonMerge YamlMerge Bundles ConfigSchema.
From S2P Require Import CapMerge Names McpResolve BundleMerge.
From S2P Require Import HookState Idempotency Framing BuildManifest.

(** ** The key *)

Section key.
Context `{HL : YamlLeaves, !BundleYaml, !YamlText, HexDigest}.
(** The disk at the export and at the hook. *)
Context (fs fs' : FileSystem) (disk disk' : BundleDisk).

Definition bundle_text (f : FileSystem) (b : BundleRef) : result io_kind (option string) :=
  @read_bundle_text f (path_join (br_path b) "bundle.yaml").
(** One bundle at both times: its name, its precedence and the text of its fragment. *)
Definition same_bundle (b b' : BundleRef) : Prop :=
  br_name b = br_name b' ∧ br_precedence b = br_precedence b' ∧
  ∃ t t', bundle_text fs b = Ok t ∧ bundle_text fs' b' = Ok t' ∧ default "" t = default "" t'.
Definition ranked (b : BundleRef) : Prop := (br_precedence b ≤ TOP_LEVEL_PRECEDENCE)%N.

Lemma bundle_cut b b' s s' r r' :
  ranked b ∧ @bundle_part fs b = Ok s → ranked b' ∧ @bundle_part fs' b' = Ok s' →
  fits (s +:+ r) → fits (s' +:+ r') → s +:+ r = s' +:+ r' → same_bundle b b' ∧ r = r'.
Proof.
  unfold bundle_part. intros [Hp (t & Ht%map_err_ok & E)%result_bind_ok] [Hp' (t' & Ht'%map_err_ok & E')%result_bind_ok].
  injection E as <-. injection E' as <-. rewrite !str_app_assoc. intros Hf Hf' E.
  destruct (prefixed_cut _ _ _ _ Hf Hf' E) as [En E1]. apply fits_app in Hf as [_ Hf], Hf' as [_ Hf'].
  apply head_cut in E1 as [Ep E1]; [|done]. apply fits_app in Hf as [_ Hf], Hf' as [_ Hf'].
  destruct (prefixed_cut _ _ _ _ Hf Hf' E1) as [Et Er]. split; [|done]. split_and!; [done| |by exists t, t'].
  injection Ep as Ep. apply (f_equal Ascii.N_of_ascii) in Ep. unfold byte_of, ranked, TOP_LEVEL_PRECEDENCE in *.
  rewrite !Ascii.N_ascii_embedding in Ep by (apply N.mod_lt; done). by rewrite !N.mod_small in Ep by lia.
Qed.
Lemma native_cut kv kv' s s' r r' : native_part kv = Ok s → native_part kv' = Ok s' →
  fits (s +:+ r) → fits (s' +:+ r') → s +:+ r = s' +:+ r' → True ∧ r = r'.
Proof.
  unfold native_part. intros (t & _ & E)%result_bind_ok (t' & _ & E')%result_bind_ok. injection E as <-. injection E' as <-.
  rewrite !str_app_assoc. intros Hf Hf' E. destruct (prefixed_cut _ _ _ _ Hf Hf' E) as [_ E1].
  apply fits_app in Hf as [_ Hf], Hf' as [_ Hf']. by destruct (prefixed_cut _ _ _ _ Hf Hf' E1).
Qed.
Lemma native_nonempty kv s : native_part kv = Ok s → s ≠ "".
Proof. unfold native_part. intros (t & _ & <-%ok_inj)%result_bind_ok. done. Qed.
Lemma bundle_nonempty f b s : ranked b ∧ @bundle_part f b = Ok s → s ≠ "".
Proof. unfold bundle_part. intros [_ (t & _ & <-%ok_inj)%result_bind_ok]. done. Qed.

Lemma ranked_parts f refs ps : Forall ranked refs → Forall2 (λ b s, @bundle_part f b = Ok s) (merge_sort name_le refs) ps →
  Forall2 (λ b s, ranked b ∧ @bundle_part f b = Ok s) (merge_sort name_le refs) ps.
Proof.
  rewrite <- (merge_sort_Permutation name_le refs) at 1. intros Hr Hs.
  induction Hs as [|b s l ps Hb _ IH]; [constructor|]. inversion Hr. constructor; [done|]. by apply IH.
Qed.
Lemma signature_cut top top' native native' refs refs' bytes :
  Forall ranked refs → Forall ranked refs' → fits bytes →
  @signature_bytes _ _ fs top native refs = Ok bytes → @signature_bytes _ _ fs' top' native' refs' = Ok bytes →
  capabilities_text top = capabilities_text top' ∧ is_Some (capabilities_text top) ∧
  Forall2 same_bundle (merge_sort name_le refs) (merge_sort name_le refs').
Proof.
  intros Hr Hr' Hfit. unfold signature_bytes.
  intros (t & Et & E)%result_bind_ok (t' & Et' & E')%result_bind_ok.
  apply result_bind_ok in E as (ns & En%mapM_ok & E), E' as (ns' & En'%mapM_ok & E').
  apply result_bind_ok in E as (ps & Ep%mapM_ok & E), E' as (ps' & Ep'%mapM_ok & E').
  apply ok_inj in E, E'. subst bytes. symmetry in E'.
  assert (Hfit' := Hfit). rewrite E' in Hfit'.
  destruct (prefixed_cut _ _ _ _ Hfit Hfit' E') as [Etop E1].
  apply fits_app in Hfit as [_ Hfit], Hfit' as [_ Hfit'].
  destruct (counted_cut _ _ (λ _ _, True) native_cut native_nonempty native_nonempty _ _ ns ns' _ _ En En' Hfit Hfit' E1) as [_ E2].
  apply fits_app in Hfit as [_ Hfit], Hfit' as [_ Hfit'].
  apply fits_app in Hfit as [_ Hfit], Hfit' as [_ Hfit'].
  rewrite <- (str_app_nil_r (join "" ps)) in Hfit, E2. rewrite <- (str_app_nil_r (join "" ps')) in Hfit', E2.
  destruct (counted_cut _ _ same_bundle bundle_cut (bundle_nonempty fs) (bundle_nonempty fs') _ _ ps ps' _ _
    (ranked_parts fs refs ps Hr Ep) (ranked_parts fs' refs' ps' Hr' Ep') Hfit Hfit' E2) as [Hall _].
  apply ok_or_ok in Et, Et'. rewrite Et, Et', Etop. by split_and!; [|eexists|].
Qed.

(** ** The slice *)

Context `{!Codec PersistedMergeCache, !CodecLaws PersistedMergeCache, Ssrf.Net}.
(** The two fields that are not written: the origin of a hook, which a configuration does not have,
    and the removed [advisor_size], which the validation refuses. *)
Definition loaded (c : Capabilities) : Prop := Forall (λ h, ho_bundle_origin h = None) (ca_hooks c) ∧ ca_advisor_size c = None.
(** The YAML text of loaded capabilities determines them: serde_yaml writes every other field. *)
Hypothesis texts_differ : ∀ c c' t, loaded c → loaded c' → capabilities_text c = Some t → capabilities_text c' = Some t → c = c'.

(** The bundles of a configuration directory, with distinct names, no one with an empty fragment. *)
Definition placed (f : FileSystem) (dir : string) (refs : list BundleRef) : Prop :=
  Forall (λ b, br_path b = path_join dir (br_name b) ∧ ranked b ∧ bundle_text f b ≠ Ok (Some "")) refs.

Lemma same_placed dir refs refs' : placed fs dir refs → placed fs' dir refs' →
  Forall2 same_bundle (merge_sort name_le refs) (merge_sort name_le refs') →
  merge_sort name_le refs = merge_sort name_le refs' ∧
  Forall (λ b, bundle_text fs b = bundle_text fs' b) (merge_sort name_le refs).
Proof.
  unfold placed. rewrite <- (merge_sort_Permutation name_le refs), <- (merge_sort_Permutation name_le refs') at 1.
  intros Hb1 Hb2 Hs. induction Hs as [|b b' l l' (En & Ep & t & t' & Et & Et' & E) _ IH]; [by split|].
  apply Forall_cons in Hb1 as [(P1 & _ & N1) Hb1], Hb2 as [(P2 & _ & N2) Hb2]. destruct (IH Hb1 Hb2) as [-> Hall].
  assert (b = b') as <- by (destruct b, b'; cbn in *; congruence).
  split; [done|]. constructor; [|done]. rewrite Et, Et' in *. destruct t as [[]|], t' as [[]|]; cbn in E; congruence.
Qed.
Lemma same_fragment b : bundle_text fs b = bundle_text fs' b → @fragment_of _ _ fs b = @fragment_of _ _ fs' b.
Proof. unfold bundle_text, fragment_of, read_bundle_yaml. by intros ->. Qed.
Lemma same_contributors top refs refs' : merge_sort name_le refs = merge_sort name_le refs' →
  Forall (λ b, bundle_text fs b = bundle_text fs' b) (merge_sort name_le refs) →
  @contributors_of _ _ fs top refs ≡ₚ @contributors_of _ _ fs' top refs'.
Proof.
  intros E Hall. unfold contributors_of. f_equiv.
  rewrite <- (merge_sort_Permutation name_le refs), <- (merge_sort_Permutation name_le refs'), <- E. clear E.
  induction Hall as [|b l Hb _ IH]; [done|]. cbn [omap list_omap]. rewrite (same_fragment b Hb).
  destruct (fragment_of b); [by f_equiv|done].
Qed.

Lemma merged_slice home home' top native native' refs refs' m m' :
  @contributors_of _ _ fs top refs ≡ₚ @contributors_of _ _ fs' top refs' →
  @merge_bundles _ _ fs disk home top native refs = Ok m → @merge_bundles _ _ fs' disk' home' top native' refs' = Ok m' →
  feature_list fe_memory (mm_capabilities m) ≡ₚ feature_list fe_memory (mm_capabilities m') ∧
  ca_host (mm_capabilities m) = ca_host (mm_capabilities m').
Proof.
  intros Hp (caps & Ec & -> & _)%merge_bundles_ok (caps' & Ec' & -> & _)%merge_bundles_ok.
  rewrite !(propagate_effort_keeps (feature_list fe_memory)), !(propagate_effort_keeps ca_host) by done.
  destruct (merges_agree home home' _ _ _ _ Hp Ec Ec') as (Hs & Hm & _). split; [done|]. apply Hs.
Qed.
Lemma all_memory_perm config l l' : l ≡ₚ l' → all_memory config l ≡ₚ all_memory config l'.
Proof.
  intros Hp. unfold all_memory. apply NoDup_Permutation; [apply NoDup_dedup..|]. intros x.
  by rewrite !elem_of_dedup, Hp.
Qed.
Lemma resolve_mcps_perm mcp memory memory' host tags out : memory ≡ₚ memory' →
  resolve_mcps mcp memory host tags = Ok out → resolve_mcps mcp memory' host tags = Ok out.
Proof.
  intros Hp. apply (filter_Permutation (λ mem, memory_is_tag_active mem tags = true)) in Hp. unfold resolve_mcps.
  destruct (mapM resolve_static _) as [static|e]; [|done]. cbn.
  destruct (filter _ memory) as [|mem1 [|mem2 rest]].
  - by apply Permutation_nil_l in Hp as <-.
  - by apply Permutation_singleton_l in Hp as <-.
  - done.
Qed.

(** C15: a hit of the merge cache is sound. An export wrote the slice of its merge under the signature
    of its inputs; when a hook, whose configuration and bundles may have changed since, finds
    that slice under its own signature, then the slice holds the memory servers and the hosts that a
    merge of the hook would give, and the servers resolve to the same list. This needs that the
    two inputs, as they are framed for the hash, do not have one SHA-256 unless they are equal;
    that the YAML text of the top-level capabilities determines them, apart from the origin of a
    hook and the removed advisor_size, which are not written and which loaded capabilities do not
    have; that every bundle lies in the configuration directory under its name with the precedence
    of a bundle, and none has an empty bundle.yaml, which the signature does not tell from a missing
    one; and that no part of the input is longer than its length prefix can say. *)
Theorem cache_hit_sound home home' dir top top' native native' refs refs' key key' m m' slice :
  loaded top → loaded top' → placed fs dir refs → placed fs' dir refs' →
  (∀ bytes, @signature_bytes _ _ fs top native refs = Ok bytes → fits bytes) →
  (∀ x y, @signature_bytes _ _ fs top native refs = Ok x → @signature_bytes _ _ fs' top' native' refs' = Ok y →
     sha256_hex x = sha256_hex y → x = y) →
  @merge_signature _ _ fs _ top native refs = Ok key → @merge_bundles _ _ fs disk home top native refs = Ok m →
  @merge_signature _ _ fs' _ top' native' refs' = Ok key' → @merge_bundles _ _ fs' disk' home' top' native' refs' = Ok m' →
  read_if_matching (Ok (Some (write_merge_cache key (feature_list fe_memory (mm_capabilities m)) (ca_host (mm_capabilities m)))))
    key' = (Some slice, false) →
  slice.1 ≡ₚ feature_list fe_memory (mm_capabilities m') ∧ slice.2 = ca_host (mm_capabilities m') ∧
  ∀ config mcp tags out,
    resolve_mcps mcp (all_memory config slice.1) (all_host config slice.2) tags = Ok out ↔
    resolve_mcps mcp (all_memory config (feature_list fe_memory (mm_capabilities m')))
      (all_host config (ca_host (mm_capabilities m'))) tags = Ok out.
Proof.
  intros Htop Htop' Hpl Hpl' Hfit Hcoll Hk Hm Hk' Hm' Hread. unfold read_if_matching, write_merge_cache in Hread. rewrite decode_encode in Hread.
  cbn [mc_key mc_bundle_memory mc_bundle_host] in Hread. case_decide as E; [|done]. injection Hread as <-. subst key'. cbn [fst snd].
  unfold merge_signature in Hk, Hk'. apply result_bind_ok in Hk as (x & Hx & <-%ok_inj), Hk' as (y & Hy & E%ok_inj).
  assert (x = y) as <- by (by apply Hcoll). clear E Hcoll.
  assert (Hranked : ∀ f l, placed f dir l → Forall ranked l).
  { intros f l Hl. eapply Forall_impl; [exact Hl|]. naive_solver. }
  destruct (signature_cut top top' native native' refs refs' x) as (Et & [t Ht] & Hsame);
    [exact (Hranked _ _ Hpl)|exact (Hranked _ _ Hpl')|exact (Hfit x Hx)|exact Hx|exact Hy|].
  assert (top = top') as <- by (apply (texts_differ _ _ t); congruence).
  destruct (same_placed dir refs refs' Hpl Hpl' Hsame) as [Erefs Htexts].
  destruct (merged_slice home home' top native native' refs refs' m m') as [Hmem ->]; [by apply same_contributors|done..|].
  split_and!; [done|done|]. intros config mcp tags out.
  split; apply resolve_mcps_perm, all_memory_perm; [done|by symmetry].
Qed.
End key.
