(* ===== verification/Witnesses.v ===== *)
(** * Witnesses

    A concrete platform that meets [PlatformLaws], concrete stores, and for each theorem
    with hypotheses an input where they hold. The JSON text of a record is the record
    itself, and a folder is listed in the order of the map. *)

From S2P Require Import Prelude RustStr Names Slug TaskData TaskStore Resume.
From S2P Require Import Blockers Relation Forest SessionStore SessionFacts SessionLaws TaskResolve TaskOps.
From S2P Require Import TaskFacts ParentLaws TaskLaws System TaskInvariants OwnershipLaws Glob Tags.
From S2P Require Import Marker Scope Bundles Ssrf ShellSplit.


(** ** A platform *)

Inductive demo_text := DTask (t : Task) | DSession (s : Session) | DJunk.

#[global] Instance demo_platform : Platform := {
  text := demo_text;
  task_to_json := DTask;
  task_from_json c := match c with DTask t => Some t | _ => None end;
  session_to_json := DSession;
  session_from_json c := match c with DSession s => Some s | _ => None end;
  readdir d := (uncurry DEntry <$> map_to_list (d_files d)) ++ replicate (d_bad d) DEntryErr;
  clock n := "2026-01-01T00:00:" +:+ pretty n +:+ "Z";
  system_now n := Z.of_nat n;
  parse_rfc3339 _ := None;
  format_duration n := pretty n +:+ "s";
  ps_etime _ := None }.

#[global] Instance demo_laws : PlatformLaws.
Proof. by split. Qed.

(** ** A store: a session with a parent, its sub-task, and a task behind it *)

Definition demo_task (slug : string) (st : TaskState) (parent : option string) (r : Relation)
    (created : string) : Task :=
  mkTask slug slug st parent r false [] [] None (Some "s1") created created.

Definition alpha : Task := demo_task "alpha" Open None Queued "1".
Definition part : Task := demo_task "part" Open (Some "alpha") Child "2".
Definition beta : Task := set_blocked_on ["part"] (demo_task "beta" Open None Queued "3").
Definition demo_tasks : list Task := [alpha; part; beta].

Definition demo_session : Session :=
  mkSession "s1" None "/p" None "1" "1" None None (Some "conv") None resume_default.

Definition task_file (t : Task) : string * node text := (json_name (t_slug t), NText (DTask t)).
Definition session_file (s : Session) : string * node text := (json_name (s_id s), NText (DSession s)).

Definition folder (status : dir_status) (fs : list (string * node text)) : dir text :=
  mkDir status (list_to_map fs) 0 ∅.
Definition demo_world (ts : list Task) (ss : list Session) : world :=
  mkWorld (folder Present (task_file <$> ts)) (folder Present (session_file <$> ss)) true 0
    (Value "conv") NotPresent [].

Definition w_empty : world :=
  mkWorld (folder Missing []) (folder Missing []) true 0 (Value "conv") NotPresent [].
Definition w_demo : world := demo_world demo_tasks [demo_session].
(** The same store with the work of [alpha] under way, and with all of it done. *)
Definition w_busy : world :=
  demo_world [set_state Wip alpha; set_state Done part; beta] [demo_session].

Definition valid_record_file (p : string * node text) : Prop :=
  match p.2 with
  | NText (DTask t) => p.1 = json_name (t_slug t) ∧ is_valid_short_name (t_slug t) = true
  | NText (DSession s) => p.1 = json_name (s_id s) ∧ is_valid_short_name (s_id s) = true
  | _ => False
  end.

Lemma folder_tasks_wf st ts n : folder st (task_file <$> ts) = n →
  Forall (λ t, is_valid_short_name (t_slug t) = true) ts →
  map_Forall wf_task_entry (d_files n).
Proof.
  intros <- Hv name nd Hl%elem_of_list_to_map_2 _.
  apply list_elem_of_fmap in Hl as (t & [= -> ->] & Ht).
  exists t. split_and!; [done..|]. by eapply Forall_forall in Hv.
Qed.

Lemma folder_sessions_wf st ss n : folder st (session_file <$> ss) = n →
  Forall (λ s, is_valid_short_name (s_id s) = true) ss →
  map_Forall wf_session_entry (d_files n).
Proof.
  intros <- Hv name nd Hl%elem_of_list_to_map_2 _.
  apply list_elem_of_fmap in Hl as (t & [= -> ->] & Ht).
  exists t. split_and!; [done..|]. by eapply Forall_forall in Hv.
Qed.

Lemma demo_world_ok ts ss :
  Forall (λ t, is_valid_short_name (t_slug t) = true) ts →
  Forall (λ s, is_valid_short_name (s_id s) = true) ss → world_ok (demo_world ts ss).
Proof.
  intros Ht Hs. split.
  - by eapply folder_tasks_wf.
  - by eapply folder_sessions_wf.
  - by intros [?|?].
  - by intros [?|?].
Qed.

Lemma w_demo_ok : world_ok w_demo.
Proof. by apply demo_world_ok; repeat constructor. Qed.
Lemma w_busy_ok : world_ok w_busy.
Proof. by apply demo_world_ok; repeat constructor. Qed.
Lemma w_empty_initial : initial w_empty.
Proof. done. Qed.

(** The tasks that a demo world stores. *)
Lemma demo_stored ts ss slug t : stored (demo_world ts ss) slug t → t ∈ ts ∧ json_name slug = json_name (t_slug t).
Proof.
  intros [_ Hl]. unfold lookup_task, task_files in Hl. simpl in Hl.
  apply bind_Some in Hl as (n & Hn%elem_of_list_to_map_2 & Hp).
  apply list_elem_of_fmap in Hn as (t' & [= Ht ->] & Hin). simpl in Hp. by injection Hp as <-.
Qed.

(** What a run gave, when it succeeded, and the world after it. *)
Definition got {A} (p : result error A * world) : option A :=
  match p.1 with Ok a => Some a | Err _ => None end.

(** Run the command [m] in [w]: [run_ok] for a run that succeeds, [run_err] for one that
    fails. [observe] evaluates a fact [P] of the run and restates it with the outcome [E]. *)
Ltac run_ok m w a w' E :=
  let H := fresh in
  assert (H : bool_decide (is_Some (got (m w))) = true) by (vm_compute; reflexivity);
  destruct (m w) as [[a|?] w'] eqn:E; [clear H|discriminate H].
Ltac run_err m w e w' E :=
  let H := fresh in
  assert (H : bool_decide (is_Some (got (m w))) = false) by (vm_compute; reflexivity);
  destruct (m w) as [[?|e] w'] eqn:E; [discriminate H|clear H].
Ltac observe H P E := assert (H : P) by (vm_compute; reflexivity); rewrite E in H; simpl in H.

Lemma reachable_world_ok_witness : ∃ w', rtc step w_empty w' ∧ world_ok w' ∧
  task_files w' ≠ ∅ ∧ session_files w' ≠ ∅.
Proof.
  set (req := mkStart None (Some "Work") "/p" (mkIdentity (Some "conv") None) resume_default).
  set (new := mkNewTask "First" None PQueue None).
  set (w1 := (run (SessionStart req Auto) w_empty).2).
  set (w2 := (run (Add new Detached (Resolve (mkIdentity (Some "conv") None)) "/p") w1).2).
  assert (Hr : rtc step w_empty w2).
  { eapply rtc_l; [apply step_run|]. eapply rtc_l; [apply step_run|]. apply rtc_refl. }
  exists w2. split; [exact Hr|]. split; [exact (reachable_world_ok w_empty w2 w_empty_initial Hr)|].
  split; intros E.
  - assert (Hs : size (task_files w2) = 1) by (vm_compute; reflexivity).
    rewrite E in Hs. discriminate.
  - assert (Hs : size (session_files w2) = 1) by (vm_compute; reflexivity).
    rewrite E in Hs. discriminate.
Defined.

(** A session that was finished, and that a resume tries to open again. *)
Definition closed_session : Session := set_finished_at (Some "2") demo_session.
Definition w_closed : world := demo_world demo_tasks [closed_session].
Lemma w_closed_ok : world_ok w_closed.
Proof. by apply demo_world_ok; repeat constructor. Qed.

Lemma closed_stays_closed_witness :
  let req := mkStart None None "/p" (mkIdentity (Some "conv") None) resume_default in
  let w' := (run (SessionStart req (Resume "s1")) w_closed).2 in
  ∃ s, lookup_session w' "s1" = Some s ∧ ¬ is_open s.
Proof.
  intros req w'. apply (closed_stays_closed "s1" w_closed).
  - exact w_closed_ok.
  - exists closed_session. split; [vm_compute; reflexivity|intros [H _]; discriminate H].
  - apply rtc_once. apply (step_run (SessionStart req (Resume "s1")) w_closed).
Defined.

Lemma w_busy_done_parents : done_parents w_busy.
Proof.
  intros a b ta tb [Hin _]%demo_stored Hr Hp [_ _]%demo_stored _.
  rewrite !elem_of_cons, elem_of_nil in Hin. destruct Hin as [->|[->|[->|[]]]]; done.
Qed.

Lemma done_parents_kept_witness : ∃ w',
  run (Finish (Resolved "alpha") false None) w_busy = (Ok tt, w') ∧ done_parents w' ∧
  (t_state <$> lookup_task w' "alpha") = Some Done.
Proof.
  run_ok (run (Finish (Resolved "alpha") false None)) w_busy u w' E. destruct u.
  observe Ha ((t_state <$> lookup_task (run (Finish (Resolved "alpha") false None) w_busy).2 "alpha")
    = Some Done) E.
  exists w'. split; [reflexivity|]. split; [|exact Ha].
  exact (proj1 (done_parents_kept (Finish (Resolved "alpha") false None) w_busy w' w_busy_ok w_busy_done_parents E) eq_refl).
Defined.

Lemma start_task_correct_witness : ∃ t' w',
  start_task (Resolved "part") false w_demo = (Ok t', w') ∧
  lookup_task w' "part" = Some t' ∧ t_state t' = Wip ∧
  (t_state <$> lookup_task w' "alpha") = Some Wip ∧ lookup_task w' "beta" = Some beta.
Proof.
  run_ok (start_task (Resolved "part") false) w_demo t' w' E.
  observe Hs (t_slug <$> got (start_task (Resolved "part") false w_demo) = Some "part") E.
  observe Ha ((t_state <$> lookup_task (start_task (Resolved "part") false w_demo).2 "alpha")
    = Some Wip) E.
  observe Hb (lookup_task (start_task (Resolved "part") false w_demo).2 "beta" = Some beta) E.
  exists t', w'. split; [reflexivity|].
  destruct (start_task_correct (Resolved "part") false w_demo w' t' w_demo_ok E)
    as (slug & t & all & anc & now & Hst & _ & _ & -> & _ & _ & _ & Hl & _ & _).
  assert (slug = "part") as ->.
  { apply demo_stored in Hst as [_ ->%json_name_inj]. by injection Hs. }
  by split_and!.
Defined.

Lemma start_task_failed_witness : ∃ e w',
  start_task (Resolved "beta") false w_demo = (Err e, w') ∧
  (lookup_task w' "beta" = lookup_task w_demo "beta" ∨
   ∃ x now, lookup_task w_demo "beta" = Some x ∧ lookup_task w' "beta" = Some (to_wip now x) ∧
     t_state x ≠ Done).
Proof.
  run_err (start_task (Resolved "beta") false) w_demo e w' E. exists e, w'. split; [reflexivity|].
  exact (start_task_failed (Resolved "beta") false w_demo w' e w_demo_ok E "beta" eq_refl).
Defined.

Lemma close_task_correct_witness : ∃ c w',
  close_task (Resolved "alpha") false None w_busy = (Ok c, w') ∧
  t_state (c_task c) = Done ∧ c_prior c = Wip ∧ lookup_task w' "beta" = Some beta.
Proof.
  run_ok (close_task (Resolved "alpha") false None) w_busy c w' E.
  observe Hp (c_prior <$> got (close_task (Resolved "alpha") false None w_busy) = Some Wip) E.
  observe Hb (lookup_task (close_task (Resolved "alpha") false None w_busy).2 "beta" = Some beta) E.
  exists c, w'. split; [reflexivity|].
  destruct (close_task_correct (Resolved "alpha") false None w_busy w' c w_busy_ok E)
    as (slug & t & _ & _ & Hd & _). split; [exact Hd|]. split; [by injection Hp|exact Hb].
Defined.

Definition gamma_request : NewTask := mkNewTask "Gamma ray" None (PChild "alpha") None.
Definition conv : EngineIdentity := mkIdentity (Some "conv") None.

Lemma add_task_correct_witness : ∃ t w',
  add_task_with gamma_request Detached (Resolve conv) "/p" w_demo = (Ok t, w') ∧
  t_slug t = "gamma-ray" ∧ lookup_task w' "gamma-ray" = Some t ∧ t_parent t = Some "alpha".
Proof.
  run_ok (add_task_with gamma_request Detached (Resolve conv) "/p") w_demo t w' E.
  observe Hs ((λ t, (t_slug t, t_parent t)) <$>
    got (add_task_with gamma_request Detached (Resolve conv) "/p" w_demo)
    = Some ("gamma-ray", Some "alpha")) E.
  exists t, w'. split; [reflexivity|]. injection Hs as Hs Hp.
  pose proof (add_task_correct gamma_request Detached (Resolve conv) "/p" w_demo w' (Ok t)
    w_demo_ok E) as (sid & _ & _ & _ & _ & _ & _ & _ & [_ Hl] & _).
  rewrite Hs in Hl. by split_and!.
Defined.

Lemma finish_session_correct_witness : ∃ out w',
  finish_session "s1" true w_busy = (Ok out, w') ∧
  fo_done out + length (fo_abandoned out) = fo_total out ∧ fo_total out = 3 ∧
  (∃ s now, lookup_session w' "s1" = Some (set_finished_at (Some now) s)) ∧
  (t_session <$> lookup_task w' "beta") = Some None.
Proof.
  run_ok (finish_session "s1" true) w_busy out w' E.
  observe Ht (fo_total <$> got (finish_session "s1" true w_busy) = Some 3) E.
  observe Hb ((t_session <$> lookup_task (finish_session "s1" true w_busy).2 "beta") = Some None) E.
  exists out, w'. split; [reflexivity|].
  destruct (finish_session_correct "s1" true w_busy w' out w_busy_ok E)
    as (s & now & note & _ & _ & _ & _ & Hs & _ & _ & Hn & _).
  specialize (Hs "s1"). rewrite decide_True in Hs by reflexivity.
  split_and!; [exact Hn|by injection Ht|by exists s, now|exact Hb].
Defined.

Lemma finish_session_refused_witness : ∃ e w',
  finish_session "s1" false w_busy = (Err e, w') ∧ same_files w_busy w'.
Proof.
  run_err (finish_session "s1" false) w_busy e w' E. exists e, w'. split; [reflexivity|].
  exact (finish_session_refused "s1" w_busy w' e w_busy_ok E).
Defined.

Definition work_request : StartRequest := mkStart None (Some "Next work") "/p" conv resume_default.

Lemma start_replace_correct_witness : ∃ s w',
  (start_session_as work_request Replace w_busy).1 =
    Ok (Replaced s [set_abandoned_at (Some "2026-01-01T00:00:0Z") demo_session]) ∧
  w' = (start_session_as work_request Replace w_busy).2 ∧
  is_open s ∧ lookup_session w_busy (s_id s) = None ∧
  (∀ s', is_valid_short_name (s_id s') = true → lookup_session w' (s_id s') = Some s' →
     is_open s' → s_project s' = "/p" → s' = s).
Proof.
  run_ok (start_session_as work_request Replace) w_busy out w' E.
  observe Ho (got (start_session_as work_request Replace w_busy) =
    Some (Replaced (mkSession "session" None "/p" (Some "Next work") "2026-01-01T00:00:1Z"
      "2026-01-01T00:00:1Z" None None (Some "conv") None resume_default)
      [set_abandoned_at (Some "2026-01-01T00:00:0Z") demo_session])) E.
  destruct (start_replace_correct work_request w_busy w' out w_busy_ok E)
    as (s & ab & -> & Hop & _ & Hnew & Honly & _). injection Ho as _ Ha.
  exists s, w'. split_and!; [simpl; by rewrite Ha|reflexivity|apply Hop..|exact Hnew|exact Honly].
Defined.

Lemma start_auto_correct_witness : ∃ own s w',
  start_session_as work_request Auto w_busy = (Ok (Resumed s), w') ∧
  task_files w' = task_files w_busy ∧ lookup_session w_busy (s_id s) = Some own ∧
  ownership own conv ≠ ONone ∧ is_open s.
Proof.
  run_ok (start_session_as work_request Auto) w_busy out w' E.
  observe Ho (match got (start_session_as work_request Auto w_busy) with
              | Some (Resumed s) => true | _ => false end = true) E.
  pose proof (start_auto_correct work_request w_busy w' (Ok out) w_busy_ok E) as [Ht Hr].
  destruct out as [s|s|s ab]; [discriminate Ho| |discriminate Ho].
  destruct Hr as (own & Hl & _ & _ & Hown & Hs & _). exists own, s, w'. by split_and!.
Defined.

Lemma ensure_tasks_are_ours_correct_witness : ∃ found w',
  ensure_tasks_are_ours ["al"; "beta"] (CallerSession "s2") (Some "s1") w_busy = (Ok found, w') ∧
  same_files w_busy w' ∧ length found = 2 ∧
  ∃ n, ("alpha", Some n) ∈ found ∧ on_owner_less n = false.
Proof.
  run_ok (ensure_tasks_are_ours ["al"; "beta"] (CallerSession "s2") (Some "s1")) w_busy found w' E.
  observe Hc ((λ l : list (string * option OverrideNote), l.*1) <$>
    got (ensure_tasks_are_ours ["al"; "beta"] (CallerSession "s2") (Some "s1") w_busy)
    = Some ["alpha"; "beta"]) E.
  destruct (ensure_tasks_are_ours_correct ["al"; "beta"] (CallerSession "s2") (Some "s1")
    w_busy w' found w_busy_ok E) as (Hsf & Hlen & Hall).
  exists found, w'. split_and!; [reflexivity|apply Hsf..|exact Hlen|].
  destruct found as [|[a n] rest]; [discriminate Hc|]. injection Hc as -> _.
  destruct (Hall "alpha" n) as (t & Ht & Hm); [left|].
  apply demo_stored in Ht as [Hin Hj]. apply json_name_inj in Hj.
  rewrite !elem_of_cons, elem_of_nil in Hin. destruct Hin as [->|[->|[->|[]]]]; try discriminate Hj.
  simpl in Hm. destruct Hm as [[H _]|(_ & _ & m & -> & _ & Hm)]; [discriminate H|].
  exists m. split; [left|exact Hm].
Defined.

Lemma caller_session_correct_witness : ∃ w',
  caller_session "/p" conv w_busy = (Ok (CallerSession "s1"), w') ∧ w' = w_busy ∧
  ∃ s, lookup_session w_busy "s1" = Some s ∧ is_open s ∧ s_owner_session s = Some "conv".
Proof.
  run_ok (caller_session "/p" conv) w_busy c w' E.
  observe Hc (got (caller_session "/p" conv w_busy) = Some (CallerSession "s1")) E.
  injection Hc as ->. exists w'. split; [reflexivity|].
  destruct (caller_session_correct "/p" conv w_busy w' "s1" w_busy_ok E)
    as (-> & s & Hs & _ & Ho & _ & [Hn|[_ Hn]]).
  - exfalso. assert (Hd : lookup_session w_busy "s1" = Some demo_session) by (vm_compute; reflexivity).
    rewrite Hd in Hs. injection Hs as <-. discriminate Hn.
  - split; [reflexivity|]. exists s. exact (conj Hs (conj Ho Hn)).
Defined.

Lemma resolve_with_correct_witness : ∃ w',
  resolve_with "al" conv demo_tasks w_busy = (Ok "alpha", w') ∧
  same_files w_busy w' ∧ starts_with "al" "alpha" = true ∧ "alpha" ∈ t_slug <$> demo_tasks.
Proof.
  run_ok (resolve_with "al" conv demo_tasks) w_busy c w' E.
  observe Hc (got (resolve_with "al" conv demo_tasks w_busy) = Some "alpha") E.
  injection Hc as ->. exists w'. split; [reflexivity|].
  destruct (resolve_with_correct "al" conv demo_tasks w_busy w' "alpha" E)
    as (Hs & Hp & [Hin|[H _]] & _); [|discriminate H].
  by split_and!; try apply Hs.
Defined.

Lemma w_busy_acyclic : Irreflexive (tc (parent_of w_busy)).
Proof.
  assert (Hp : ∀ a b, parent_of w_busy a b → a = "part" ∧ b = "alpha").
  { intros a b (t & [Hin Hj%json_name_inj]%demo_stored & Hb).
    rewrite !elem_of_cons, elem_of_nil in Hin. destruct Hin as [->|[->|[->|[]]]]; simpl in *; naive_solver. }
  assert (Ht : ∀ a b, tc (parent_of w_busy) a b → a = "part" ∧ b = "alpha").
  { intros a b H. induction H as [a b H|a b c H _ IH]; [by apply Hp|].
    apply Hp in H as [-> ->]. by destruct IH. }
  intros a Ha. destruct (Ht _ _ Ha) as [-> H]. discriminate H.
Qed.

Definition parent_edit : TaskEdit := mkTaskEdit None (Some "alpha") false [] [] None None None.
Lemma edit_task_acyclic_witness : ∃ t w',
  edit_task (Input "be") parent_edit w_busy = (Ok t, w') ∧ t_parent t = Some "alpha" ∧
  Irreflexive (tc (parent_of w')).
Proof.
  run_ok (edit_task (Input "be") parent_edit) w_busy t w' E.
  observe Ht (t_parent <$> got (edit_task (Input "be") parent_edit w_busy) = Some (Some "alpha")) E.
  exists t, w'. split; [reflexivity|]. split; [by injection Ht|].
  exact (edit_task_acyclic (Input "be") parent_edit w_busy w' (Ok t) w_busy_ok w_busy_acyclic E).
Defined.

Lemma reject_cycle_correct_witness :
  (reject_cycle "beta" "part" w_busy).1 = Ok tt ∧ chain_ends w_busy "part" ∧
  ¬ rtc (parent_of w_busy) "part" "beta".
Proof.
  assert (H : (reject_cycle "beta" "part" w_busy).1 = Ok tt) by (vm_compute; reflexivity).
  split; [exact H|]. exact (proj1 (proj2 (reject_cycle_correct "beta" "part" w_busy)) H).
Defined.

Lemma demo_slugs_distinct : NoDup (t_slug <$> demo_tasks).
Proof. refine (bool_decide_eq_true_1 _ _); vm_compute; reflexivity. Qed.

Lemma undone_descendants_exact_witness :
  undone_descendants "alpha" demo_tasks = [part] ∧ rtc (child_of demo_tasks) "alpha" "part".
Proof.
  assert (E : undone_descendants "alpha" demo_tasks = [part]) by (vm_compute; reflexivity).
  split; [exact E|].
  destruct (undone_descendants_exact "alpha" demo_tasks demo_slugs_distinct) as [H _].
  apply (H part). rewrite E. left.
Defined.

Lemma queue_block_correct_witness :
  queue_block beta demo_tasks ≠ None ∧
  ¬ (¬ (t_state beta = Open ∧ beta ∈ queue demo_tasks) ∨
     (∀ t, t ∈ queue demo_tasks → t_state t = Wip → t = beta) ∧
     (∀ b, directly_ahead demo_tasks b beta → t_state b = Done ∨ t_state b = Waiting)).
Proof.
  assert (E : bool_decide (is_Some (queue_block beta demo_tasks)) = true) by (vm_compute; reflexivity).
  assert (Hn : queue_block beta demo_tasks ≠ None) by (intros H; rewrite H in E; discriminate E).
  split; [exact Hn|]. intros H. apply Hn.
  apply (queue_block_correct demo_tasks beta demo_slugs_distinct); [right; right; left|exact H].
Defined.

Lemma demo_keyed : keyed (by_slug demo_tasks).
Proof. unfold keyed. refine (bool_decide_eq_true_1 _ _); vm_compute; reflexivity. Qed.

Lemma first_undone_correct_witness :
  first_undone_in_subtree "part" "beta" (by_slug demo_tasks) = Ok (Some "part") ∧
  ¬ task_done (by_slug demo_tasks) "part".
Proof.
  assert (E : first_undone_in_subtree "part" "beta" (by_slug demo_tasks) = Ok (Some "part"))
    by (vm_compute; reflexivity).
  split; [exact E|].
  destruct (first_undone_correct (by_slug demo_tasks) "beta" "part" demo_keyed) as (_ & H & _).
  apply (H "part" E).
Defined.

Lemma display_rows_complete_witness :
  (r_task <$> display_rows [beta; part; alpha] ["s1"]) = [alpha; part; beta] ∧
  (r_task <$> display_rows [beta; part; alpha] ["s1"]) ≡ₚ [beta; part; alpha].
Proof.
  split; [vm_compute; reflexivity|].
  apply (display_rows_complete [beta; part; alpha] ["s1"]). refine (bool_decide_eq_true_1 _ _); vm_compute; reflexivity.
Defined.

Lemma display_rows_forest_witness : ∃ forests : list (option string * list tree),
  display_rows demo_tasks [] = concat ((λ f, concat (preorder 0 <$> f.2)) <$> forests) ∧
  fst <$> forests = [Some "s1"].
Proof.
  destruct (display_rows_forest demo_tasks [] demo_slugs_distinct) as (forests & Hr & Hk & _).
  exists forests. split; [exact Hr|]. rewrite Hk. vm_compute. reflexivity.
Defined.

Lemma child_progress_total_witness : ∃ p,
  child_progress "alpha" demo_tasks = Some p ∧ cp_total p = length (children "alpha" demo_tasks) ∧
  cp_stalled p = true ∧ ∃ t, first_open_child "alpha" demo_tasks = Some t.
Proof.
  destruct (child_progress "alpha" demo_tasks) as [p|] eqn:E;
    [|exfalso; vm_compute in E; discriminate E].
  destruct (child_progress_total "alpha" demo_tasks p E) as (_ & Ht & Hs).
  assert (Hst : cp_stalled p = true)
    by (vm_compute in E; injection E as <-; vm_compute; reflexivity).
  destruct (Hs Hst) as (t & Hf & _). exists p. split_and!; [reflexivity|exact Ht|exact Hst|by exists t].
Defined.

Lemma list_tasks_strict_exact_witness : ∃ ts w',
  list_tasks_strict w_demo = (Ok ts, w') ∧ w' = w_demo ∧ beta ∈ ts.
Proof.
  run_ok list_tasks_strict w_demo ts w' E. exists ts, w'.
  destruct (list_tasks_strict_exact w_demo w' ts eq_refl E) as (Hw & _ & Ht & _).
  split; [reflexivity|]. split; [exact Hw|]. apply Ht. exists (json_name "beta"), (NText (DTask beta)).
  split_and!; vm_compute; reflexivity.
Defined.

Lemma list_tasks_strict_refines_witness : ∃ ts,
  list_tasks_strict w_demo = (Ok ts, w_demo) ∧ NoDup (t_slug <$> ts).
Proof.
  destruct (list_tasks_strict_refines w_demo (ok_tasks _ w_demo_ok) eq_refl eq_refl)
    as (ts & E & Hn & _). exists ts. exact (conj E Hn).
Defined.

(** A folder with a file that holds no task. *)
Definition w_junk : world :=
  mkWorld (folder Present [task_file alpha; ("broken.json", NText DJunk)]) (folder Missing []) true 0
    NotPresent NotPresent [].
Lemma try_list_tasks_keeps_readable_witness : ∃ ts w',
  try_list_tasks w_junk = (Ok ts, w') ∧ task_files w' = task_files w_junk ∧ alpha ∈ ts ∧
  (∃ e, (list_tasks_strict w_junk).1 = Err e).
Proof.
  destruct (try_list_tasks_keeps_readable w_junk eq_refl) as (ts & w' & E & Hf & _ & Ht).
  exists ts, w'. split; [exact E|]. split; [exact Hf|]. split.
  - apply Ht. exists (json_name "alpha"), (NText (DTask alpha)). split_and!; vm_compute; reflexivity.
  - destruct (list_tasks_strict w_junk) as [[?|e] w1] eqn:E1; [|by exists e].
    exfalso. assert (H : bool_decide (is_Some (got (list_tasks_strict w_junk))) = false)
      by (vm_compute; reflexivity). rewrite E1 in H. discriminate H.
Defined.

Lemma save_load_roundtrip_witness : ∃ w',
  save_task alpha w_empty = (Ok tt, w') ∧ load_task "alpha" w' = (Ok alpha, w').
Proof.
  run_ok (save_task alpha) w_empty u w' E. destruct u. exists w'. split; [reflexivity|].
  exact (save_load_roundtrip alpha w_empty w' E).
Defined.

(** ** The configuration side *)

(** A file system with a marker in [/home/u/repo] that links to a file beside it. *)
Definition at_ (names : list string) : list component := RootDir :: (Normal <$> names).
Definition repo : list component := at_ ["home"; "u"; "repo"].

#[global] Instance demo_fs : FileSystem := {
  fs_open p := if decide (p = repo ++ [Normal "real.yaml"])
               then Ok (mkOpenFile true (Ok "tags: [rust]")) else Err NotFound;
  fs_lstat p := if decide (p = repo ++ [MARKER]) then Ok true
                else if decide (p = repo ++ [Normal "real.yaml"]) then Ok false else Err NotFound;
  fs_read_link p := if decide (p = repo ++ [MARKER]) then Ok "./real.yaml" else Err OtherIo;
  fs_canonicalize p := Ok p;
  utf8_ok _ := true;
  project_from_yaml _ := Some (mkProjectFile None None None ["rust"] [] [] []) }.

Lemma resolve_inside_contained_witness :
  let r := resolve_inside repo [MARKER] [] in
  r.1 = Ok (repo ++ [Normal "real.yaml"]) ∧ r.2 = [repo ++ [MARKER]; repo ++ [MARKER]; repo ++ [Normal "real.yaml"]] ∧
  Forall (under repo) r.2 ∧ contained repo (repo ++ [Normal "real.yaml"]).
Proof.
  assert (E : resolve_inside repo [MARKER] [] = (Ok (repo ++ [Normal "real.yaml"]),
    [repo ++ [MARKER]; repo ++ [MARKER]; repo ++ [Normal "real.yaml"]])) by (vm_compute; reflexivity).
  cbv zeta. rewrite E. split; [reflexivity|]. split; [reflexivity|].
  destruct (resolve_inside_contained repo [MARKER] (repo ++ [Normal "real.yaml"]) _ _ E) as [Hl Hp].
  split; [exact Hl|]. apply Hp. reflexivity.
Defined.

(** A project found through the link, from a folder below it. *)
Example discover_project_example :
  rp_tags <$> (discover_project "/home/u/repo/src" (Some "/home/u")).2 = Some ["rust"].
Proof. vm_compute. reflexivity. Qed.

(** One network block, one glob, and a folder with two files. *)
#[global] Instance demo_matchers : Matchers := {
  addr := N;
  cidr_parse c := if decide (c = "10.0.0.0/8") then Some (λ a, bool_decide (a = 10%N)) else None;
  glob_new g := if decide (g = "*.rs") then Some (λ p, ends_with ".rs" p) else None;
  walkdir _ limit :=
    let all := [WalkEntry (Some "") 0 true; WalkEntry (Some "a.md") 1 false; WalkEntry (Some "s/b.rs") 2 false] in
    match limit with Some d => filter (λ e, entry_depth e ≤ d) all | None => all end;
  path_exists _ := true }.
#[global] Instance demo_matchers_laws : MatchersLaws.
Proof. split. intros root d. simpl. reflexivity. Qed.

Definition office : NetworkScope := mkNetworkScope "office" None None (Some "10.0.0.0/8") ["work"].
Definition demo_env : Env :=
  mkEnv "laptop" "u" "/home/u/repo" (Some "1:2:3:4:5:6") [10%N] (Some "wifi") (Some "/home/u") "linux" [].
Lemma probes_suffice_witness :
  from_scopes [office] = mkNeeds false true false ∧
  matches_network office (probed (from_scopes [office]) demo_env) = matches_network office demo_env ∧
  matches_network office demo_env = true.
Proof.
  split; [reflexivity|]. split; [|vm_compute; reflexivity].
  apply (probes_suffice [office] (from_scopes [office]) demo_env office); [reflexivity|left].
Defined.

Definition rust_scope : ContentScope := mkContentScope "rs" "*.rs" (Some 2) ["rust"].
Lemma content_walk_correct_witness : "rs" ∈ (matches_content_all [rust_scope] "/home/u/repo").2.
Proof.
  apply (content_walk_correct [rust_scope] "/home/u/repo" "rs").
  exists rust_scope, (λ p, ends_with ".rs" p), "s/b.rs", 2.
  split; [left|]. split; [reflexivity|]. split; [reflexivity|]. split; [right; right; left|].
  split; [simpl; lia|vm_compute; reflexivity].
Defined.

Lemma extra_tags_roundtrip_witness :
  parse_extra_tags "rust,work-vpn" = ([], ["rust"; "work-vpn"]).
Proof.
  apply (extra_tags_roundtrip ["rust"; "work-vpn"]); [|simpl; lia].
  repeat constructor; vm_compute; repeat constructor.
Defined.

(** Two contributors set one key, at different ranks. *)
Definition demo_contributors : list (CapabilityContributor (gmap string N)) :=
  [mkContributor "low" 1 {["k" := 1%N]}; mkContributor "high" 5 {["k" := 2%N]}].
Lemma highest_precedence_correct_witness :
  highest_precedence (reverse demo_contributors) "k" (lookup "k") = Ok (Some 2%N).
Proof.
  apply (proj2 (highest_precedence_correct demo_contributors "k" (lookup "k"))).
  - symmetry. apply reverse_Permutation.
  - vm_compute. reflexivity.
Defined.

(** A resolver that knows one name, with a public and a link-local address. *)
Definition public_v4 : ipv4 := mkV4 93 184 216 34.
Definition metadata_v4 : ipv4 := mkV4 169 254 169 254.
#[global] Instance demo_net : Net := {
  url_parse u := if decide (u = "http://host.local/") then Some (mkUrl "http" (Some (HDomain "host.local")) (Some 80%N))
                 else None;
  to_socket_addrs _ port := RaceResolved [mkSocket (V4 metadata_v4) port; mkSocket (V4 public_v4) port];
  host_to_string h := match h with HDomain n => n | _ => "ip" end }.
Lemma validate_url_correct_witness :
  validate_url_production "http://host.local/" AllowPrivateNetwork =
    Ok ("host.local", [mkSocket (V4 public_v4) 80]) ∧
  validate_url_production "http://host.local/" PublicOnly = Err (Blocked "link-local IPv4" (V4 metadata_v4)) ∧
  permitted AllowPrivateNetwork (V4 public_v4).
Proof.
  assert (E : validate_url_production "http://host.local/" AllowPrivateNetwork =
    Ok ("host.local", [mkSocket (V4 public_v4) 80])) by (vm_compute; reflexivity).
  split; [exact E|]. split; [vm_compute; reflexivity|].
  destruct (validate_url_correct _ _ _ _ E) as (u & host & _ & _ & _ & _ & _ & Hp & _).
  apply (Forall_inv Hp).
Defined.

Lemma gate_chain_witness :
  runs_commit_or_pr "cd /x && sudo -u root git -C /r commit -m x" = true ∧
  runs_commit_or_pr "cd /x && git status" = false.
Proof.
  destruct (gate_chain "cd /x &" " sudo -u root git -C /r commit -m x" "t" "&" eq_refl eq_refl) as [E _].
  destruct (gate_chain "cd /x &" " git status" "t" "&" eq_refl eq_refl) as [E' _].
  split; [refine (eq_trans E _)|refine (eq_trans E' _)]; vm_compute; reflexivity.
Defined.

Lemma gate_nesting_witness :
  runs_commit_or_pr (nest 32 "git commit") = true ∧ runs_commit_or_pr (nest 32 "git status") = false ∧
  runs_commit_or_pr (nest 33 "git status") = true.
Proof.
  destruct (gate_nesting 32 "git commit" "t" eq_refl) as [H1 _].
  destruct (gate_nesting 32 "git status" "t" eq_refl) as [H2 _].
  destruct (gate_nesting 33 "git status" "t" eq_refl) as [_ H3].
  split; [|split].
  - refine (eq_trans (proj1 (H1 _)) _); [lia|vm_compute; reflexivity].
  - refine (eq_trans (proj1 (H2 _)) _); [lia|vm_compute; reflexivity].
  - apply H3. lia.
Defined.

(** ** A loop that an add can close

    [edit] refuses a parent loop; [add] does not look for one. When the parent of a task was
    deleted and a task of that name is added again below it, the links form a loop. *)
Definition orphan : Task := demo_task "b" Open (Some "a") Queued "1".
Definition w_orphan : world := demo_world [orphan] [demo_session].
Example add_task_closes_a_loop :
  let w' := (add_task_with (mkNewTask "A" None (PChild "b") None) Detached (Resolve conv) "/p" w_orphan).2 in
  (t_parent <$> lookup_task w' "a") = Some (Some "b") ∧
  (t_parent <$> lookup_task w' "b") = Some (Some "a").
Proof. split; vm_compute; reflexivity. Qed.
