(* ===== verification/HookWitnesses.v ===== *)
(** * Witnesses of the hooks, the rules and the launch proxy

    Concrete instances of the classes the hook models take (a text form of records, of JSON
    values, a digest, the HTTP library), and for each theorem with hypotheses an input where they
    hold. *)

From S2P Require Import Prelude RustStr Names TaskData SessionStore Json ProxyPath LaunchProxy.
From S2P Require Import Wildcard HookState RepeatDetect StopDedupe ReadOnce Idempotency.
From S2P Require Import SessionLedger ShellSplit CdGuard Text Reminders TaskNudge.

(** ** Instances *)

(** The text of a record is the number that stands for it. *)
Definition number_text {A} `{Countable A} (a : A) : string := pretty (Npos (countable.encode a)).
Definition number_read {A} `{Countable A} (s : string) : option A :=
  n ← digits_value 0 s; match n with Npos p => countable.decode p | N0 => None end.
#[local] Instance countable_codec {A} `{Countable A} : Codec A := { encode := number_text; decode := number_read }.
#[local] Instance countable_codec_laws {A} `{Countable A} : CodecLaws A.
Proof. split. intros a. unfold decode, encode, countable_codec, number_read, number_text. rewrite digits_value_pretty. apply countable.decode_encode. Qed.

#[local] Instance Saved_eq_dec : EqDecision Saved.
Proof. solve_decision. Defined.
#[local] Instance Saved_countable : Countable Saved.
Proof.
  refine (inj_countable' (λ s, (rd_session_id s, last_signature s, consecutive s, last_stop_signature s, stop_consecutive s))
    (λ p, let '(a, b, c, d, e) := p in mkSaved a b c d e) _). by intros [].
Defined.
#[local] Instance LastReminder_eq_dec : EqDecision LastReminder.
Proof. solve_decision. Defined.
#[local] Instance LastReminder_countable : Countable LastReminder.
Proof. refine (inj_countable' lr_hash mkLast _). by intros []. Defined.
#[local] Instance ReadEntry_eq_dec : EqDecision ReadEntry.
Proof. solve_decision. Defined.
#[local] Instance ReadEntry_countable : Countable ReadEntry.
Proof.
  refine (inj_countable' (λ e, (e_path e, e_mtime_unix e, e_first_read_at e, e_hits e, e_tokens_saved e))
    (λ p, let '(a, b, c, d, e) := p in mkReadEntry a b c d e) _). by intros [].
Defined.
#[local] Instance SessionCache_eq_dec : EqDecision SessionCache.
Proof. solve_decision. Defined.
#[local] Instance SessionCache_countable : Countable SessionCache.
Proof. refine (inj_countable' (λ c, (sc_session_id c, sc_entries c)) (uncurry mkCache) _). by intros []. Defined.
#[local] Instance NudgeState_countable : Countable NudgeState.
Proof.
  refine (inj_countable' (λ s, (nu_calls s, nu_last_nudge s, nu_skill_reminded s, nu_commit_denied s, nu_start_reminded s,
      nu_boundary_reminded s, nu_stop_quiet_turns s, nu_ownerless_question_reminded s))
    (λ p, let '(a, b, c, d, e, f, g, i) := p in mkNudge a b c d e f g i) _). by intros [].
Defined.
#[local] Instance AgentState_eq_dec : EqDecision AgentState.
Proof. solve_decision. Defined.
#[local] Instance AgentState_countable : Countable AgentState.
Proof. refine (inj_countable' (λ c, (ag_sent c, ag_scope_sent c)) (uncurry mkAgentState) _). by intros []. Defined.
#[local] Instance Activity_eq_dec : EqDecision Activity.
Proof. solve_decision. Defined.
#[local] Instance Activity_countable : Countable Activity.
Proof. refine (inj_countable' (λ c, (ac_tool c, ac_target c, ac_at c)) (λ p, let '(a, b, c) := p in mkActivity a b c) _). by intros []. Defined.
#[local] Instance ToolError_eq_dec : EqDecision ToolError.
Proof. solve_decision. Defined.
#[local] Instance ToolError_countable : Countable ToolError.
Proof. refine (inj_countable' (λ c, (te_tool c, te_head c, te_at c)) (λ p, let '(a, b, c) := p in mkToolError a b c) _). by intros []. Defined.
#[local] Instance PendingSubagent_eq_dec : EqDecision PendingSubagent.
Proof. solve_decision. Defined.
#[local] Instance PendingSubagent_countable : Countable PendingSubagent.
Proof.
  refine (inj_countable' (λ c, (ps_tool_use_id c, ps_subagent_type c, ps_task c, ps_at c))
    (λ p, let '(a, b, c, d) := p in mkPending a b c d) _). by intros [].
Defined.
#[local] Instance number_countable : Countable number.
Proof.
  refine (inj_countable' (λ n, match n with NumInt z => inl z | NumFloat t => inr t end)
    (λ s, match s with inl z => NumInt z | inr t => NumFloat t end) _). by intros [].
Defined.
#[local] Instance ResumeCache_eq_dec : EqDecision ResumeCache.
Proof. solve_decision. Defined.
#[local] Instance ResumeCache_countable : Countable ResumeCache.
Proof.
  refine (inj_countable' (λ c, (rc_seconds c, rc_context_tokens c, rc_expired c, rc_cost c))
    (λ p, let '(a, b, c, d) := p in mkResumeCache a b c d) _). by intros [].
Defined.
#[local] Instance Ledger_eq_dec : EqDecision Ledger.
Proof. solve_decision. Defined.
#[local] Instance Ledger_countable : Countable Ledger.
Proof.
  refine (inj_countable' (λ l, (lg_epoch l, lg_agents l, lg_activity l, lg_resume_cache l, lg_errors l, lg_last_query_hash l,
      lg_last_turn_at l, lg_pending l, lg_project l))
    (λ p, let '(a, b, c, d, e, f, g, i, j) := p in mkLedger a b c d e f g i j) _). by intros [].
Defined.

(** JSON text, for the values that the witnesses write. *)
#[local] Instance demo_json : JsonText := {
  json_text v := match v with JNull => "null" | JStr s => dq +:+ s +:+ dq | _ => "{}" end;
  json_parse s := if decide (s = "null") then Some JNull else if decide (s = "{}") then Some (JObj ∅) else None }.

(** A digest that tells one text from all others. *)
#[local] Instance demo_digest : Digest := λ s, if decide (s = "a") then "a000000000000000" else "0000000000000000".
#[local] Instance demo_digest_laws : DigestLaws.
Proof. split; intros s; unfold hash_prefix, demo_digest; by case_decide. Qed.

(** A file system that always answers. *)
Definition good_io (now : Z) : HookIo := mkIo now (λ _, Taken) (λ _, true) (λ _, true) (λ _, true).
Definition bad_io : HookIo := mkIo 0 (λ _, Busy) (λ _, false) (λ _, false) (λ _, false).
Definition no_files : Hooks := mkHooks ∅ [].

(** ** Repeat detection and the stop hook *)

Definition call (tool : string) (input : list (string * json)) : json :=
  JObj (list_to_map [("tool_name", JStr tool); ("tool_input", JObj (list_to_map input))]).

Definition repeat_events : list (HookIo * RepeatDetect.event) :=
  [(good_io 1, RepeatDetect.PreTool (call "Bash" [])); (good_io 2, Reminder "a"); (good_io 3, Reminder "b")].
Lemma repeat_detect_refines_witness :
  (handle_all default_config "s1" repeat_events no_files).1 = answers default_config [] [] repeat_events.*2.
Proof. apply (repeat_detect_refines default_config "s1" repeat_events no_files); [done| |done]. by repeat constructor. Defined.

Definition nine_reminders : list (HookIo * RepeatDetect.event) := replicate 8 (good_io 1, Reminder "a").
Lemma reminder_falls_silent_witness :
  (handle_all default_config "s1" (nine_reminders ++ [(good_io 1, Reminder "a")]) no_files).1 !! 8%nat = Some "".
Proof.
  apply (reminder_falls_silent default_config "s1" "a" (good_io 1) nine_reminders [] [] [] no_files); [done|done|done| | |].
  - by repeat constructor.
  - by repeat constructor.
  - by vm_compute.
Defined.

Definition three_stops : list (HookIo * json) :=
  [(good_io 1, JNull); (bad_io, JNull); (bad_io, JObj {["stop_hook_active" := JBool true]})].
Lemma stop_hook_settles_witness :
  let answers := run_stops (Some "s1") (mkRdConfig false 3) three_stops (mkTexts "a" "" "") no_files in
  answers !! 0 = Some "a" ∧ answers !! 1 = Some "" ∧ answers !! 2 = Some "".
Proof.
  destruct (stop_hook_settles "s1" (mkRdConfig false 3) three_stops (mkTexts "a" "" "") no_files) as (Hc & Hl & Hf); [done|].
  intros answers. split_and!.
  - by apply (Hf (good_io 1) JNull).
  - apply (Hl 0 1 (good_io 1) JNull); [done..|]. cbn; lia.
  - by apply (Hc 2 bad_io (JObj {["stop_hook_active" := JBool true]})).
Defined.

Definition stop_texts : list (HookIo * stop_event) :=
  [(good_io 1, Stop "a"); (good_io 2, Stop "a"); (good_io 3, Prompt); (good_io 4, Stop "a"); (good_io 5, Stop "b")].
Lemma emit_once_refines_witness : handle_events "s1" stop_texts no_files = ["a"; ""; ""; "a"; "b"].
Proof.
  change ["a"; ""; ""; "a"; "b"] with (emitted None stop_texts.*2).
  apply (emit_once_refines "s1" stop_texts no_files); [done| | |done].
  - by repeat constructor.
  - intros x y Hx Hy. change (texts_of stop_texts.*2) with ["a"; "a"; "a"; "b"] in *.
    rewrite !elem_of_cons, elem_of_nil in *. destruct Hx as [->|[->|[->|[->|[]]]]], Hy as [->|[->|[->|[->|[]]]]];
    first [done | vm_compute; discriminate].
Defined.

(** ** Read-once, request ids, the ledger *)

Definition read_config : ReadOnceConfig := mkRoConfig true Warn 60.
Definition file_view : FileView := mkView (λ p, if decide (p = "/f") then Some (7%Z, 400%N) else None) (λ p, p).
Definition read_call : json := call "Read" [("file_path", JStr "/f")].
Definition three_reads : list (HookIo * FileView * json) :=
  [(good_io 1, file_view, read_call); (good_io 2, file_view, read_call); (good_io 100, file_view, read_call)].
Lemma read_once_refines_witness :
  handle_reads read_config "s1" three_reads no_files = read_answers read_config three_reads ∅.
Proof.
  apply (read_once_refines read_config "s1" three_reads no_files); [done| | |done].
  - by repeat constructor.
  - cbn. repeat constructor; lia.
Defined.

Definition two_attempts : list Attempt :=
  [mkAttempt (good_io 1) (good_io 2) "s1" "id" true; mkAttempt (good_io 3) (good_io 4) "s1" "id" true].
Lemma attempts_exactly_once_witness :
  NoDup (attempts_done two_attempts [] no_files) ∧
  ∀ p, p ∈ attempts_done two_attempts [] no_files ↔
       ∃ a, a ∈ two_attempts ∧ at_call a = true ∧ p = (state_key (at_key a), at_id a).
Proof.
  apply (attempts_exactly_once 0 two_attempts no_files).
  - unfold seen_io. by repeat constructor.
  - by vm_compute; lia.
  - done.
Defined.

Lemma ledger_update_correct_witness :
  match ledger_update (good_io 1) "s1" (λ l, ((), reset l)) no_files with
  | (None, h') => (io_lock (good_io 1) LEDGER_DIR ≠ Taken ∨ stored "s1" no_files = None) ∧
      hk_files h' !! json_file LEDGER_DIR "s1" = hk_files no_files !! json_file LEDGER_DIR "s1"
  | (Some (result, saved), h') => ∃ l, stored "s1" no_files = Some l ∧ result = () ∧
      saved = io_write (good_io 1) LEDGER_DIR ∧
      (saved = true → ∀ io', io_lock io' LEDGER_DIR = Taken → (ledger_load io' "s1" h').1 = Some (reset l))
  end.
Proof. by apply (ledger_update_correct (good_io 1) "s1" (λ l, ((), reset l)) no_files). Defined.

Lemma sent_records_kept_witness :
  sent_for "main" (apply_op (QueueSubagent "id" "t" "task" 1) default_ledger) = ∅ ∪ marked "main" (QueueSubagent "id" "t" "task" 1) ∨
  "main" ≠ MAIN_AGENT ∧ knows_agent "main" (apply_op (QueueSubagent "id" "t" "task" 1) default_ledger) = false ∧
  marked "main" (QueueSubagent "id" "t" "task" 1) = ∅.
Proof. by apply (sent_records_kept (QueueSubagent "id" "t" "task" 1) "main" default_ledger). Defined.

Lemma agent_state_key_correct_witness :
  let p := JObj {["agent_id" := JStr "a"]} in
  is_valid_short_name (agent_state_key "s1" p) = true ∧ (agent_of p = None → agent_state_key "s1" p = "s1") ∧
  (agent_state_key "s1" p = agent_state_key "s1" p →
   match agent_of p, agent_of p with
   | None, None => "s1" = "s1"
   | Some a, Some b => "s1" = "s1" ∧ hash_prefix ("s1" +:+ NUL +:+ a) = hash_prefix ("s1" +:+ NUL +:+ b)
   | Some a, None => "s1" = "s1" +:+ ".agent-" +:+ hash_prefix ("s1" +:+ NUL +:+ a)
   | None, Some b => "s1" = "s1" +:+ ".agent-" +:+ hash_prefix ("s1" +:+ NUL +:+ b)
   end).
Proof. intros p. by apply (agent_state_key_correct "s1" "s1" p p). Defined.

(** ** The commit gate and the nudges *)

Definition commit_call : json := call "Bash" [("command", JStr "git commit")].
Definition working : Tracking := Tracked (Some "ship") false [] (Some "next") 1.
Definition queued_only : Tracking := Tracked None false [] (Some "next") 1.
Definition gate_events : list (HookIo * TaskNudge.event) :=
  [(good_io 1, TaskNudge.PreTool commit_call queued_only);
   (bad_io, PostTool true (call "Edit" []) queued_only);
   (good_io 2, TaskNudge.PreTool commit_call queued_only);
   (good_io 3, TurnEnd (JObj ∅) working);
   (good_io 4, TaskNudge.PreTool commit_call working);
   (good_io 5, TaskNudge.PreTool commit_call queued_only)].
Lemma gate_refines_witness :
  verdicts default_tracker "s1" gate_events no_files =
    [Denied (NoTaskOpen queued_only); Pass; Pass; Denied (NoTaskOpen queued_only)].
Proof.
  transitivity (judgements default_tracker [] gate_events.*2); [|vm_compute; reflexivity].
  apply (gate_refines default_tracker "s1" gate_events [] no_files); [done| |done|done].
  by repeat constructor.
Defined.

Lemma gate_fails_closed_witness : ∃ id, Some "s1" = Some id ∧ is_valid_short_name id = true ∧
  io_lock (good_io 1) TaskNudge.DIR = Taken ∧
  read_text (json_file TaskNudge.DIR id) no_files ≠ Failed ∧ (∀ cause, working ≠ Unknown cause) ∧
  (wip_open working "git commit" = true ∧
     marker id (commit_gate (good_io 1) default_tracker commit_call (Some "s1") working no_files).2 = false ∨
   wip_open working "git commit" = false ∧ marker id no_files = true ∧ is_ok (shell_segments "git commit") = true).
Proof.
  apply (gate_fails_closed (good_io 1) default_tracker commit_call (Some "s1") working no_files "git commit");
    vm_compute; reflexivity.
Defined.

Lemma nudge_schedule_witness :
  (untracked_edits default_tracker NoTasks 30 default_nudge).1 = (λ k, nudge_due default_tracker (N.of_nat k)) <$> seq 1 30 ∧
  nu_calls (untracked_edits default_tracker NoTasks 30 default_nudge).2 = 30%N.
Proof. by apply (nudge_schedule default_tracker NoTasks 30). Defined.

(** ** Reminders *)

Definition own_session : Session :=
  mkSession "s1" None "/p" None "1" "1" None None (Some "conv") None resume_default.
Definition other_session : Session :=
  mkSession "s2" None "/q" None "1" "1" None None (Some "other") None resume_default.
Lemma stop_reminder_scoped_witness :
  stop_hook_reminder (Ok "/p") (mkStored (Ok []) (Ok [own_session; other_session])) (Some "conv") =
  stop_hook_reminder (Ok "/p") (mkStored (Ok []) (Ok [own_session])) (Some "conv").
Proof. by apply (stop_reminder_scoped "/p" "conv" (Ok []) [own_session; other_session] [own_session]). Defined.

Lemma unreadable_store_named_witness : ∃ parts,
  stop_hook_reminder (Ok "/p") (mkStored (Err "bad json") (Ok [own_session])) (Some "conv") = join blank_line parts ∧
  store_warning_text (store_unreadable "bad json") ∈ parts ∧ NoDup parts.
Proof.
  apply (unreadable_store_named "/p" (mkStored (Err "bad json") (Ok [own_session])) (Some "conv") "bad json").
  by right.
Defined.

(** ** Rules and paths *)

Lemma patterns_overlap_correct_witness :
  patterns_overlap "git *" "*push*" = true ↔
  ∃ input, wildcard_matches "git *" input = true ∧ wildcard_matches "*push*" input = true.
Proof. by apply (patterns_overlap_correct "git *" "*push*"). Defined.
Lemma pattern_subsumes_complete_witness : pattern_subsumes "*" "git *" = true.
Proof.
  apply (pattern_subsumes_complete "*" "git *"); [done|]. intros input _.
  apply wildcard_matches_correct. left. change (chars (to_slashes "*")) with ["*"]. generalize (chars (to_slashes input)).
  intros l. exists l, []. by rewrite app_nil_r.
Defined.
Lemma parse_path_roundtrip_witness : parse_path (spell [Key "a"; Index 2; Key "b"]) = Ok [Key "a"; Index 2; Key "b"].
Proof. apply (parse_path_roundtrip [Key "a"; Index 2; Key "b"]); [done|]. by repeat constructor. Defined.
Lemma set_path_correct_witness : ∃ v', set_path 10 JNull [Key "a"; Index 2] (JBool true) = Some v' ∧
  get_path v' [Key "a"; Index 2] = Some (JBool true).
Proof.
  destruct (set_path_correct 10 JNull (JBool true) [Key "a"; Index 2]) as [Hs Hv].
  assert (Hp : Forall (λ s, match s with Index i => (i < 10)%N | Key _ => True end) [Key "a"; Index 2]).
  { constructor; [done|]. by repeat constructor. }
  destruct (Hs Hp) as [v' E]. exists v'. split; [exact E|]. exact (proj1 (Hv v' E)).
Defined.
Lemma expand_env_refs_correct_witness :
  expand_env_refs ("a-" +:+ "${" +:+ "B" +:+ "}" +:+ "c") (λ _, Some "b") = Some "a-bc".
Proof.
  destruct (expand_env_refs_correct (λ _, Some "b") "a-" "B" "c") as (_ & E & _); [done..|].
  rewrite E. vm_compute. reflexivity.
Defined.

(** ** The launch proxy *)

Inductive demo_name := HToken | HOther.
#[local] Instance demo_name_eq_dec : EqDecision demo_name.
Proof. solve_decision. Defined.
Definition name_text (n : demo_name) : string := match n with HToken => PEER_AUTH_HEADER | HOther => "x-other" end.
#[local] Instance demo_http : Http := {
  header_name := demo_name; header_value := string; header_map := list (demo_name * string);
  url := string * string * option string; url_origin := string;
  name_of s := if decide (s = PEER_AUTH_HEADER) then Some HToken else if decide (s = "x-other") then Some HOther else None;
  name_str := name_text; value_of := Some; value_str := Some;
  headers_get h n := snd <$> find_first (λ p, p.1 = n) h;
  headers_insert n v h := (n, v) :: filter (λ p, p.1 ≠ n) h;
  headers_remove n h := filter (λ p, p.1 ≠ n) h;
  headers_list h := h;
  regex_is_match _ := None; regex_strip _ := None;
  origin u := u.1.1; url_path u := u.1.2;
  url_set_path p u := (u.1.1, p, u.2); url_set_query q u := (u.1, q) }.
#[local] Instance demo_http_laws : HttpLaws.
Proof.
  split.
  - by intros [].
  - by intros [].
  - intros n v h n' v'. cbn. rewrite elem_of_cons, list_elem_of_filter. cbn. naive_solver.
  - intros n h n' v'. cbn. by rewrite list_elem_of_filter.
  - intros h n. cbn. rewrite fmap_is_Some. split.
    + intros [[n' v] [Hin <-]%find_first_Some]. by exists v.
    + intros [v Hin]. destruct (find_first (λ p, p.1 = n) h) as [p|] eqn:E; [done|].
      apply find_first_None in E. rewrite Forall_forall in E. by destruct (E _ Hin).
  - done.
  - done.
Qed.

Definition demo_request : Request :=
  mkRequest "POST" "/v1/messages" None [(HToken, "secret"); (HOther, "1")] (Some "null").
Definition demo_upstream : url := ("https://api", "/base", None).
Lemma handle_correct_witness : ∃ target headers body,
  LaunchProxy.handle 10 demo_request demo_upstream [] "secret" = Some (Forward "POST" target headers body) ∧
  origin target = origin demo_upstream ∧ PEER_AUTH_HEADER ∉ headers.*1.
Proof.
  destruct (handle_correct 10 demo_request demo_upstream [] "secret") as [_ Hf].
  assert (E : LaunchProxy.handle 10 demo_request demo_upstream [] "secret" =
    Some (Forward "POST" ("https://api", "/base/v1/messages", None) [("x-other", "1")] "null")) by (vm_compute; reflexivity).
  eexists _, _, _. split; [exact E|]. destruct (Hf _ _ _ _ E) as (Ho & H1 & b & v0 & h0 & v1 & H2 & H3 & H4 & H5 & Hh). split; [exact Ho|].
  intros ([n v] & En & Hin)%list_elem_of_fmap. cbn in En. subst n. apply Hh in Hin as [Hn _]. apply Hn. set_solver.
Defined.
