(* ===== verification/ConfigWitnesses.v ===== *)
(** * Witnesses of the configuration, the adapters and the redirect

    A YAML value is its JSON form; the HTTP and resolver classes get small instances. For each
    theorem with hypotheses there is an input where they hold. *)

From S2P Require Import Prelude RustStr Names TaskData TaskStore SessionStore Json JsonMerge ProxyPath.
From S2P Require Import LaunchProxy Permissions Ssrf TaskOps TaskResolve OwnershipLaws ConfigSchema ConfigValidate.
From S2P Require Import ConfigLaws McpResolve ClaudePerms ClaudeJson ClaudeSettings HookCommand TaskRedirect.
From S2P Require Import Scope ParentLaws Witnesses.
From S2P Require Import HookState ShellSplit HookWitnesses Slippage.

#[local] Instance json_yaml : Yaml := json.
#[local] Instance json_yaml_ops : YamlOps := {
  yaml_get := json_get;
  yaml_remove k v := match v with JObj m => JObj (delete k m) | _ => v end;
  yaml_json := Some }.
#[local] Instance json_yaml_laws : YamlLaws.
Proof.
  split.
  - intros k [| | | | |m]; try done. apply lookup_delete_eq.
  - intros k k' [| | | | |m] Hk; try done. by apply lookup_delete_ne.
Qed.
#[local] Instance plain_json : JsonText := { json_text _ := ""; json_parse _ := None }.
#[local] Instance plain_http : LaunchProxy.Http := {
  header_name := string; header_value := string; header_map := list (string * string); url := string; url_origin := unit;
  name_of := Some; name_str n := n; value_of := Some; value_str := Some;
  headers_get h n := snd <$> find_first (λ p, p.1 = n) h;
  headers_insert n v h := (n, v) :: filter (λ p, p.1 ≠ n) h;
  headers_remove n h := filter (λ p, p.1 ≠ n) h; headers_list h := h;
  regex_is_match _ := None; regex_strip _ := None;
  origin _ := tt; url_path u := u; url_set_path p _ := p; url_set_query _ u := u }.

(** ** A configuration with a server, a memory and a rule of the proxy *)

Definition demo_server : McpServer := mkMcpServer "docs" ["dev"] Stdio (Some "docs-mcp") [] ∅ None ∅ false [] None None.
Definition demo_memory : Memory :=
  mkMemory "box" 7878 "127.0.0.1" ["dev"] [] None None [] None None false None None true [] None.
Definition demo_rule : ProxyRule := mkRule [] (TBody "system[2].text") (OpSet (JStr "x")).
Definition demo_features : Features :=
  mkFeatures [demo_memory] [] None None None None None None [] None (Some (mkLaunchProxy true [demo_rule])) None.
Definition demo_config : ConfigSchema.Config :=
  mkConfiguration _ [] default_cache (Scope.mkConfig [] [] [] []) default_capabilities ∅ [] [demo_server] [] [] []
    (Some demo_features) [] [] [] {[ "box" := mkHostEntry "10.0.0.7" ]} ∅ None None.
Lemma demo_config_valid : validate (λ _, true) demo_config = Ok tt.
Proof. vm_compute. reflexivity. Qed.

Lemma validated_rules_run_witness : ∃ h b,
  apply_rules 20000 (proxy_rules demo_config) [] (JObj ∅) = Some (h, b) ∧ proxy_rules demo_config = [demo_rule].
Proof.
  destruct (validated_rules_run (λ _, true) 20000 (ltac:(reflexivity)) demo_config [] (JObj ∅) demo_config_valid) as [[h b] E].
  exists h, b. by split.
Defined.
Lemma validated_servers_resolve_witness : ∃ out,
  resolve_mcps (cf_mcp demo_config) (feature_memory demo_config) (cf_host demo_config) {[ "dev" ]} = Ok out ∧
  NoDup (map rm_name out) ∧ map rm_name out = ["docs"; "icm"].
Proof.
  pose proof (validated_servers_resolve (λ _, true) demo_config {[ "dev" ]} demo_config_valid) as H.
  assert (E : ∃ out, resolve_mcps (cf_mcp demo_config) (feature_memory demo_config) (cf_host demo_config) {[ "dev" ]} = Ok out)
    by (vm_compute; by eexists).
  destruct E as [out E]. rewrite E in H. exists out. split; [done|]. destruct H as [Hd Hn]. split; [exact Hd|].
  rewrite Hn. vm_compute. reflexivity.
Defined.

(** ** Permissions of a native fragment *)

Definition rendered_perms : gmap string json :=
  {[ "allow" := json_strings ["Read"; "Bash(ls)"]; "ask" := json_strings []; "deny" := json_strings ["WebFetch"] ]}.
Definition native_fragment : json := JObj {[ "permissions" := JObj {[ "deny" := json_strings ["Bash(ls)"] ]} ]}.
Lemma native_permissions_safe_witness : ∃ after,
  merge_native_permissions {[ "permissions" := JObj rendered_perms ]} (Some native_fragment) =
    Ok ({[ "permissions" := JObj after ]}, Some (JObj ∅)) ∧
  "WebFetch" ∈ strings_of "deny" after ∧ "Bash(ls)" ∈ strings_of "deny" after ∧ "Bash(ls)" ∉ strings_of "allow" after.
Proof.
  assert (E : ∃ after, merge_native_permissions {[ "permissions" := JObj rendered_perms ]} (Some native_fragment) =
    Ok ({[ "permissions" := JObj after ]}, Some (JObj ∅))) by (eexists; vm_compute; reflexivity).
  destruct E as [after E]. exists after. split; [exact E|].
  destruct (native_permissions_safe _ _ _ _ rendered_perms (lookup_insert_eq _ _ _) E) as (_ & after' & Ha & Hd & _ & _ & Hx & _).
  rewrite lookup_singleton_eq in Ha. injection Ha as <-.
  assert (Hw : "WebFetch" ∈ strings_of "deny" rendered_perms) by (apply (bool_decide_unpack _); vm_compute; exact I).
  assert (Hb : "Bash(ls)" ∈ fragment_rules native_fragment "deny") by (apply (bool_decide_unpack _); vm_compute; exact I).
  split_and!; [by apply Hd; left|by apply Hd; right|by apply (Hx "Bash(ls)" Hb)].
Defined.
Lemma wrapped_rule_balanced_witness :
  has_balanced_parens (wrap "Bash" "git (log|diff)") = true ∧ has_balanced_parens (wrap "Bash" "x\") = false.
Proof.
  split; rewrite wrapped_rule_balanced by (vm_compute; reflexivity); vm_compute; reflexivity.
Defined.

(** ** The files of Claude Code *)

Definition old_server : json := JObj {[ "command" := JStr "old"; "auth" := JStr "token" ]}.
Definition claude_doc : gmap string json :=
  {[ "numStartups" := JNull; "mcpServers" := JObj {[ "docs" := old_server; "gone" := old_server; "mine" := old_server ]} ]}.
Definition claude_files : Files := mkFiles (Doc (JObj claude_doc)) (OwnedNames ["gone"]) [].
Definition docs_resolved : ResolvedMcp := mkResolved "docs" (KStdio "docs-mcp" [] ∅) ∅ None [] None None None.
Definition claude_run : result claude_error unit * Files :=
  merge_mcp_into_claude_json true true true [docs_resolved] None claude_files.

Lemma claude_json_never_clobbered_witness :
  f_claude (merge_mcp_into_claude_json true true true [docs_resolved] None (mkFiles NotJson NoOwned [])).2 = NotJson.
Proof.
  destruct (merge_mcp_into_claude_json true true true [docs_resolved] None (mkFiles NotJson NoOwned [])) as [r f'] eqn:E.
  exact (proj1 (claude_json_never_clobbered _ _ _ _ _ _ _ _ E) eq_refl).
Defined.
Lemma claude_json_merge_idempotent_witness : ∃ f' f'',
  claude_run = (Ok tt, f') ∧ merge_mcp_into_claude_json true true true [docs_resolved] None f' = (Ok tt, f'') ∧
  f_claude f'' = f_claude f'.
Proof.
  assert (E : ∃ f', claude_run = (Ok tt, f') ∧ ∃ f'', merge_mcp_into_claude_json true true true [docs_resolved] None f' = (Ok tt, f''))
    by (eexists; split; [vm_compute; reflexivity|eexists; vm_compute; reflexivity]).
  destruct E as (f' & E1 & f'' & E2). exists f', f''. split_and!; [exact E1|exact E2|].
  apply (claude_json_merge_idempotent true [docs_resolved] None claude_files f' f'' claude_doc eq_refl E1 E2).
Defined.

(** ** The settings *)

Definition hook_of (command : string) : json := JObj {[ "hooks" := JArr [JObj {[ "command" := JStr command ]}] ]}.
Definition fresh_hooks : gmap string json := {[ "Stop" := JArr [hook_of "new"] ]}.
Definition disk_hooks : gmap string json := {[ "Stop" := JArr [hook_of "old"; hook_of "mine"] ]}.
Lemma fresh_hooks_arrays : all_arrays fresh_hooks.
Proof. unfold fresh_hooks. apply map_Forall_singleton. by eexists. Qed.
Lemma merged_hooks_correct_witness : ∃ h',
  merged_hooks (λ _, None) (JObj disk_hooks) (JObj fresh_hooks) (Some (JObj {[ "Stop" := JArr [hook_of "old"] ]})) None None = JObj h' ∧
  NoDup (items (h' !! "Stop")) ∧ normalize_json (hook_of "new") ∈ items (h' !! "Stop") ∧
  normalize_json (hook_of "mine") ∈ items (h' !! "Stop").
Proof.
  destruct (merged_hooks_correct (λ _, None) disk_hooks fresh_hooks (Some (JObj {[ "Stop" := JArr [hook_of "old"] ]})) None None "Stop"
    fresh_hooks_arrays) as (h' & E & Hd & Hx).
  { intros v. unfold disk_hooks. rewrite lookup_singleton_eq. intros [= <-]. by eexists. }
  exists h'. split; [exact E|]. split; [exact Hd|]. rewrite !Hx. split.
  - exists (hook_of "new"). split; [left|by rewrite decide_False by done].
    apply (bool_decide_unpack _). vm_compute. exact I.
  - exists (hook_of "mine"). split; [right|by rewrite decide_False by done].
    exists (hook_of "mine"). split_and!; [apply (bool_decide_unpack _); vm_compute; exact I| |].
    2: { left. split; [|done]. by intros root (prev & name & path & E' & _). }
    intros (p & [= ->] & (x & Hin & Hn) & _). cbn [items] in Hin.
    assert (x = hook_of "old") as -> by (revert Hin; rewrite lookup_singleton_eq; cbn; by intros ?%list_elem_of_singleton).
    apply (bool_decide_unpack (normalized_hook (hook_of "mine") ≠ normalized_hook (hook_of "old"))); [vm_compute; exact I|exact Hn].
Defined.
Lemma reconcile_settings_idempotent_witness : ∃ r moved,
  reconcile_settings (λ _, None) (Doc (JObj {[ "hooks" := JObj disk_hooks; "theme" := JStr "dark" ]})) true
    (JObj {[ "hooks" := JObj fresh_hooks ]}) None None = Ok (JObj r, moved) ∧
  reconcile_settings (λ _, None) (Doc (JObj r)) true (JObj {[ "hooks" := JObj fresh_hooks ]}) (Some (JObj fresh_hooks)) None =
    Ok (JObj r, false).
Proof.
  assert (E : ∃ r moved, reconcile_settings (λ _, None) (Doc (JObj {[ "hooks" := JObj disk_hooks; "theme" := JStr "dark" ]})) true
    (JObj {[ "hooks" := JObj fresh_hooks ]}) None None = Ok (JObj r, moved)) by (eexists _, _; vm_compute; reflexivity).
  destruct E as (r & moved & E). exists r, moved. split; [exact E|].
  assert (Hn : normal (JObj fresh_hooks)).
  { replace (JObj fresh_hooks) with (normalize_json (JObj fresh_hooks)) by (vm_compute; reflexivity). apply normalize_normal. }
  exact (reconcile_settings_idempotent _ _ _ _ fresh_hooks r None moved (lookup_insert_eq _ _ _) fresh_hooks_arrays Hn E).
Defined.

(** ** The redirect *)

Definition create_input : json := JObj {[ "subject" := JStr "Write the tests"; "description" := JStr "all of them" ]}.
Definition no_context : result error ResumeContext := Ok resume_default.
Lemma redirect_create_tracked_witness : ∃ w' t,
  create "/p" conv no_context (Some create_input) w_demo = (Ok (Tracked "write-the-tests" "s1" None), w') ∧
  lookup_task w' "write-the-tests" = Some t ∧ t_title t = "Write the tests" ∧ n_text <$> t_notes t = ["all of them"].
Proof.
  assert (H : bool_decide ((match (create "/p" conv no_context (Some create_input) w_demo).1 with
    | Ok (Tracked a b None) => Some (a, b) | _ => None end) = Some ("write-the-tests", "s1")) = true) by (vm_compute; reflexivity).
  destruct (create "/p" conv no_context (Some create_input) w_demo) as [r w'] eqn:E. apply bool_decide_eq_true in H. cbn [fst] in H.
  destruct r as [[]|]; try discriminate H. destruct note_lost; [discriminate H|]. injection H as -> ->.
  destruct (redirect_create_tracked "/p" conv no_context (Some create_input) _ _ _ _ _ w_demo_ok E)
    as (t & Hl & _ & _ & _ & Ht & Hn & _).
  exists w', t. split; [reflexivity|]. split; [exact Hl|]. split; [by injection Ht|exact Hn].
Defined.
Lemma redirect_update_owned_witness : ∃ c n w' slug t,
  apply_change "/p" conv "beta" (Some "deleted") None true w_demo = (Ok (Ok c, n), w') ∧
  stored w_demo slug t ∧ callers_task "/p" conv w_demo t.
Proof.
  assert (H : match (apply_change "/p" conv "beta" (Some "deleted") None true w_demo).1 with
    | Ok (Ok c, _) => true | _ => false end = true) by (vm_compute; reflexivity).
  destruct (apply_change "/p" conv "beta" (Some "deleted") None true w_demo) as [r w'] eqn:E. cbn [fst] in H.
  destruct r as [[[c|] n]|]; try discriminate H.
  destruct (redirect_update_owned "/p" conv "beta" (Some "deleted") None true _ _ _ _ w_demo_ok E)
    as [(_ & _ & e & [=])|(slug & t & Hs & Hc & _)].
  exists c, n, w', slug, t. split; [reflexivity|]. by split.
Defined.

(** ** Witnesses of the guards of a tool call

    A text form of the stats log, a log that was read and one that cannot be decoded, and for each
    theorem with hypotheses an input where they hold. *)

#[local] Instance SessionStats_eq_dec : EqDecision SessionStats.
Proof. solve_decision. Defined.
#[local] Instance SessionStats_countable : Countable SessionStats.
Proof. refine (inj_countable' (λ s, (ss_paths s, ss_tools s)) (uncurry mkStats) _). by intros []. Defined.
#[local] Instance stats_codec : Codec SessionStats := { encode := number_text; decode := number_read }.
#[local] Instance stats_codec_laws : CodecLaws SessionStats.
Proof. split. intros a. unfold decode, encode, stats_codec, number_read, number_text. rewrite digits_value_pretty. apply countable.decode_encode. Qed.

Definition guard_on : SlippageControl := mkSlippage true None true true true true true true false false.
Definition plain_log : LogIo := mkLogIo false true "/state/slippage/s1.json" "io" "syntax".
Definition plain_paths : PathView := mkPathView Ok (λ p, bool_decide (p = "/new")).
Definition moment_at (t : Z) : moment := mkMoment (good_io t) plain_log plain_paths.
Definition file_call (tool path : string) : json := call tool [("file_path", JStr path)].
Definition view_call : json :=
  JObj (list_to_map [("tool_name", JStr "Bash"); ("cwd", JStr "/w"); ("tool_input", JObj (list_to_map [("command", JStr "head -n 5 b")]))]).

(** A write of a new file, an unread one, one that was read, one that a shell command showed; then
    the context is lost. *)
Definition guarded_events : list (moment * slip_event) :=
  [(moment_at 1, PreCall (file_call "Write" "/new")); (moment_at 2, PreCall (file_call "Write" "/w/a"));
   (moment_at 3, PreCall (file_call "Read" "/w/a")); (moment_at 4, PreCall (file_call "Write" "/w/a"));
   (moment_at 5, PostCall view_call); (moment_at 6, PreCall (file_call "Write" "/w/b"));
   (moment_at 7, ContextLost); (moment_at 8, PreCall (file_call "Write" "/w/b"))].
Lemma write_guard_refines_witness :
  handle_all (Some guard_on) "s1" guarded_events no_files = write_answers guarded_events ∅ ∧
  (λ a, bool_decide (a = "")) <$> write_answers guarded_events ∅ = [true; false; true; true; true; true; true; false].
Proof.
  split; [|vm_compute; reflexivity].
  apply (write_guard_refines (Some guard_on) "s1" guarded_events no_files); [reflexivity|vm_compute; reflexivity| |reflexivity|];
    repeat constructor.
Defined.

(** A log with text that is no record: a locked update moves it aside. *)
Definition bad_log : Hooks := mkHooks {[ stats_path "s1" := mkEntry (HookState.Text "x") (Some 0%Z) ]} [].
Lemma bad_log_kept_witness :
  let h' := update_stats (good_io 9) plain_log "s1" (with_read (Some "/w/a")) bad_log in
  ss_paths <$> (match read_text (stats_path "s1") h' with Got t => decode t | _ => None end) = Some {["/w/a"]} ∧
  ∃ n e', hk_files h' !! copy_name "s1" n = Some e' ∧ en_content e' = HookState.Text "x".
Proof.
  cbn zeta. split; [vm_compute; reflexivity|].
  destruct (bad_log_kept (HCodec := stats_codec) (good_io 9) plain_log "s1" (with_read (Some "/w/a")) bad_log
    (mkEntry (HookState.Text "x") (Some 0%Z))
    (Corrupt "the slippage stats log /state/slippage/s1.json is corrupt (syntax)") eq_refl ltac:(vm_compute; reflexivity))
    as [(e' & He & Hc)|(_ & n & _ & e' & He & Hc)].
  - vm_compute in He. injection He as <-. discriminate Hc.
  - exists n, e'. split; [exact He|exact Hc].
Defined.

Lemma view_is_one_command_witness : ∃ tool args, split_whitespace "head -n 5 b" = tool :: args ∧
  shell_segments "head -n 5 b" = Ok [tool :: args] ∧ is_modifying "head -n 5 b" = false.
Proof.
  destruct (view_is_one_command "head -n 5 b" "b") as (tool & args & H1 & _ & _ & H2 & H3 & _); [vm_compute; reflexivity|].
  by exists tool, args.
Defined.
