(* ===== verification/ManifestWitnesses.v ===== *)
(** * Witnesses of the merge and of the manifest

    A configuration folder with one bundle, whose fragment declares a memory server, its host, a
    deny rule and a hook that blocks. The text of the fragment stands for its value. *)

From S2P Require Import Prelude RustStr Names TaskStore Marker Json JsonMerge YamlMerge Permissions Ssrf Tags Bundles.
From S2P Require Import Scope ConfigSchema ConfigValidate CapMerge McpResolve PluginResolve.
From S2P Require Import Framing.
From S2P Require Import BundleMerge BuildManifest MemoryEndpoint MergeCacheLaws Idempotency.
From S2P Require Import Witnesses HookWitnesses.

(** ** Instances *)

#[local] Instance text_leaves : YamlLeaves := { yaml_number := N; yaml_key := string }.
Definition guard_hook : Hook := mkHook "PreToolUse" (Some "Bash") (mkHandler HookCommand (Some "guard.sh") None (Some Block)) None.
Definition box_memory : Memory :=
  mkMemory "box" 7878 "127.0.0.1" ["dev"] [] None None [] None None false None None true [] None.
Definition base_caps : Capabilities :=
  mkCapabilities _ (mkPermissions None (Some SafeReadonly) [] [] [bash_rule "rm *"]) [guard_hook] [] [] [] [] []
    ∅ None None ∅ None None ∅ ∅ ∅ ∅ ∅ ∅ ∅
    (Some (mkFeatures [box_memory] [] None None None None None None [] None None None))
    {[ "box" := mkHostEntry "10.0.0.7" ]} [] ∅.
#[local] Instance one_fragment : BundleYaml := {
  yaml_from_str s := Some (YString s); yaml_key_str := Some;
  capabilities_from_yaml v := match v with YString s => if decide (s = "base") then Some base_caps else None | _ => None end;
  rule_paths _ := None }.
#[local] Instance one_file : FileSystem := {
  fs_open p := if decide (p = components "/cfg/bundles/base/bundle.yaml") then Ok (mkOpenFile true (Ok "base")) else Err NotFound;
  fs_lstat _ := Err NotFound; fs_read_link _ := Err NotFound; fs_canonicalize _ := Err NotFound;
  utf8_ok _ := true; project_from_yaml _ := None }.
#[local] Instance no_folders : BundleDisk := λ _, NoFolder.
#[local] Instance Permissions_eq_dec : EqDecision Permissions.
Proof. solve_decision. Defined.
#[local] Instance NativePermissionRules_eq_dec : EqDecision NativePermissionRules.
Proof. solve_decision. Defined.
#[local] Instance Features_eq_dec : EqDecision Features.
Proof. solve_decision. Defined.
#[local] Instance Capabilities_eq_dec : EqDecision Capabilities.
Proof. solve_decision. Defined.
#[local] Instance plain_text : YamlText := {
  capabilities_text c := if decide (c = default_capabilities) then Some "" else None; yaml_text _ := Some "" }.
#[local] Instance whole_text : HexDigest := λ s, s.
#[local] Instance empty_cache : PluginCache := {
  marketplace_manifest _ _ := Err ""; payload_of _ _ _ := Err NotCloned; sync_marketplace _ _ _ := Err NotCloned }.

Definition base_ref : BundleRef := mkBundleRef "base" "/cfg/bundles/base" 1.
Definition base_merged : result bundle_error MergedManifest := merge_bundles None default_capabilities ∅ [base_ref].
Example base_merges : is_ok base_merged = true.
Proof. vm_compute. reflexivity. Qed.

Lemma refusals_kept_witness : ∃ m, merge_bundles None default_capabilities ∅ [base_ref] = Ok m ∧
  bash_rule "rm *" ∈ p_deny (ca_permissions (mm_capabilities m)) ∧
  bash_rule "rg *--pre*" ∈ p_deny (ca_permissions (mm_capabilities m)) ∧
  guarded (guard (set_origin "/cfg/bundles/base" guard_hook)) (ca_hooks (mm_capabilities m)).
Proof.
  destruct base_merged as [m|e] eqn:E; [|by vm_compute in E]. exists m. split; [exact E|].
  destruct (refusals_kept None default_capabilities ∅ [base_ref] m E) as [Hk Hp].
  assert (Hc : contributes default_capabilities [base_ref] (with_hooks base_caps (map (set_origin "/cfg/bundles/base") (ca_hooks base_caps)))).
  { right. exists base_ref. split; [by left|]. vm_compute. reflexivity. }
  destruct (Hk _ Hc) as (Hd & _ & Hg). split; [apply Hd; by left|]. split; [|apply Hg; [by left|done]].
  apply Hp. unfold base_merged in E. apply merge_bundles_ok in E as (caps & Em & -> & _).
  vm_compute in Em. injection Em as <-. vm_compute. by left.
Defined.

(** ** A build *)

Definition dev_scope : ActiveScope := mkActiveScope "h" KHost ["dev"] None [] [] None None [].
Definition dev_active : ActiveScopes := mkActiveScopes [dev_scope] {[ "dev" ]} ∅.
Definition base_bundle : Bundle := mkBundle "base" ["dev"].
Definition base_config : ConfigSchema.Config :=
  mkConfiguration _ [] (mkCacheConfig "/c" 15 None Normal true) (Scope.mkConfig [] [] [] []) default_capabilities
    ∅ [base_bundle] [] [] [] [] None [] [] [] ∅ ∅ None None.


(** ** The memory server *)

#[local] Instance MemoryType_countable : Countable MemoryType.
Proof.
  refine (inj_countable' (λ t, match t with Episodic => 0 | Semantic => 1 | Procedural => 2 end)
    (λ n, match n with 0 => Episodic | 1 => Semantic | _ => Procedural end) _). by intros [].
Defined.
#[local] Instance ImportanceLevel_countable : Countable ImportanceLevel.
Proof.
  refine (inj_countable' (λ t, match t with LowImportance => 0 | Medium => 1 | HighImportance => 2 | Critical => 3 end)
    (λ n, match n with 0 => LowImportance | 1 => Medium | 2 => HighImportance | _ => Critical end) _). by intros [].
Defined.
#[local] Instance McpPermissionAction_countable : Countable McpPermissionAction.
Proof.
  refine (inj_countable' (λ a, match a with PAllow => 0 | PAsk => 1 | PDeny => 2 end)
    (λ n, match n with 0 => PAllow | 1 => PAsk | _ => PDeny end) _). by intros [].
Defined.
#[local] Instance ConsolidationConfig_countable : Countable ConsolidationConfig.
Proof.
  refine (inj_countable' (λ c, (cc_enabled c, match cc_backend c with ClaudeCli => true | AnthropicApi => false end, cc_max_rules_per_session c))
    (λ p, let '(e, b, n) := p in mkConsolidation e (if b : bool then ClaudeCli else AnthropicApi) n) _). by intros [? [] ?].
Defined.
#[local] Instance RetentionConfig_countable : Countable RetentionConfig.
Proof.
  refine (inj_countable' (λ r, (re_episodic r, re_semantic r, re_procedural r))
    (λ p, let '(e, s, q) := p in mkRetention e s q) _). by intros [].
Defined.
#[local] Instance McpPermissions_countable : Countable McpPermissions.
Proof.
  refine (inj_countable' (λ p, (mpe_read_only p, mpe_mutation p, mpe_destructive p))
    (λ p, let '(r, m, d) := p in mkMcpPermissions r m d) _). by intros [].
Defined.
#[local] Instance Memory_countable : Countable Memory.
Proof.
  refine (inj_countable' (λ m, ((me_server_host m, me_port m, me_listen_host m, me_when m),
      (me_default_topics m, me_default_type m, me_default_importance m, me_type_importance m),
      (me_consolidation m, me_retention m, me_auto_prune m, me_mcp_permissions m),
      (me_wakeup_max_tokens m, me_adaptive_recall m, me_global_topics m, me_always_load m)))
    (λ p, let '((a, b, c, d), (e, f, g, h), (i, j, k, l), (m, n, o, q)) := p in
      mkMemory a b c d e f g h i j k l m n o q) _). by intros [].
Defined.
#[local] Instance HostEntry_countable : Countable HostEntry.
Proof. refine (inj_countable' he_addr mkHostEntry _). by intros []. Defined.
#[local] Instance PersistedMergeCache_eq_dec : EqDecision PersistedMergeCache.
Proof. solve_decision. Defined.
#[local] Instance PersistedMergeCache_countable : Countable PersistedMergeCache.
Proof.
  refine (inj_countable' (λ c, (mc_key c, mc_bundle_memory c, mc_bundle_host c))
    (λ p, let '(k, m, h) := p in mkMergeCache k m h) _). by intros [].
Defined.
#[local] Instance slice_codec : Codec PersistedMergeCache := { encode := number_text; decode := number_read }.
#[local] Instance slice_codec_laws : CodecLaws PersistedMergeCache.
Proof. split. intros a. unfold decode, encode, slice_codec, number_read, number_text. rewrite digits_value_pretty. apply countable.decode_encode. Qed.

Lemma memory_endpoint_correct_witness : ∃ settings,
  memory_endpoint None (λ _, true) base_config "/cfg" dev_active (Ok None) = Ok (Active "http://10.0.0.7:7878/mcp" settings) ∧
  ∃ mem host, me_server_host mem = "box" ∧ "http://10.0.0.7:7878/mcp" = memory_url (he_addr host) (me_port mem).
Proof.
  destruct (merged_memory None (λ _, true) base_config "/cfg" dev_active (Ok None)) as [merged|e] eqn:Em; [|by vm_compute in Em].
  destruct (memory_endpoint None (λ _, true) base_config "/cfg" dev_active (Ok None)) as [e|e] eqn:E; [|by vm_compute in E].
  pose proof (memory_endpoint_correct None (λ _, true) base_config "/cfg" dev_active (Ok None) merged e
    (List.Forall_nil _) Em E) as Hx.
  vm_compute in E. injection E as <-. eexists. split; [reflexivity|].
  destruct Hx as (mem & host & Hl & _ & Hu & _). exists mem, host. split; [|exact Hu].
  vm_compute in Em. injection Em as <-. vm_compute in Hl. by injection Hl as <-.
Defined.

Lemma texts_injective c c' t : loaded c → loaded c' → capabilities_text c = Some t → capabilities_text c' = Some t → c = c'.
Proof. intros _ _. unfold capabilities_text, plain_text. repeat case_decide; congruence. Qed.
(** The slice of an export, found by a hook: nothing changed, and the text of a hash is the input. *)
Lemma cache_hit_sound_witness : ∃ key m slice,
  merge_signature default_capabilities ∅ [base_ref] = Ok key ∧ base_merged = Ok m ∧
  read_if_matching (Ok (Some (write_merge_cache key (feature_list fe_memory (mm_capabilities m)) (ca_host (mm_capabilities m)))))
    key = (Some slice, false) ∧
  slice.1 ≡ₚ feature_list fe_memory (mm_capabilities m) ∧ slice.2 = ca_host (mm_capabilities m).
Proof.
  destruct (merge_signature default_capabilities ∅ [base_ref]) as [key|e] eqn:Ek; [|by vm_compute in Ek].
  unfold base_merged. destruct (merge_bundles None default_capabilities ∅ [base_ref]) as [m|e] eqn:Em; [|by vm_compute in Em].
  exists key, m, (feature_list fe_memory (mm_capabilities m), ca_host (mm_capabilities m)).
  assert (Hread : read_if_matching (Ok (Some (write_merge_cache key (feature_list fe_memory (mm_capabilities m)) (ca_host (mm_capabilities m)))))
    key = (Some (feature_list fe_memory (mm_capabilities m), ca_host (mm_capabilities m)), false)).
  { unfold read_if_matching, write_merge_cache. rewrite decode_encode. cbn [mc_key]. by rewrite decide_True. }
  split; [done|]. split; [done|]. split; [exact Hread|].
  assert (Hloaded : loaded default_capabilities) by (split; [constructor|done]).
  assert (Hplaced : placed one_file "/cfg/bundles" [base_ref]).
  { constructor; [|constructor]. split; [reflexivity|]. split; [vm_compute; discriminate|]. vm_compute. discriminate. }
  assert (Hfits : ∀ bytes, signature_bytes default_capabilities ∅ [base_ref] = Ok bytes → fits bytes).
  { intros bytes Hb. vm_compute in Hb. injection Hb as <-. vm_compute. discriminate. }
  assert (Hcoll : ∀ x y, signature_bytes default_capabilities ∅ [base_ref] = Ok x →
    signature_bytes default_capabilities ∅ [base_ref] = Ok y → sha256_hex x = sha256_hex y → x = y) by (intros; congruence).
  pose proof (cache_hit_sound one_file one_file no_folders no_folders
    texts_injective
    None None "/cfg/bundles" default_capabilities default_capabilities ∅ ∅ [base_ref] [base_ref] key key m m _
    Hloaded Hloaded Hplaced Hplaced
    Hfits Hcoll Ek Em Ek Em Hread) as H.
  split; apply H.
Defined.

(** ** Fragments that JSON can hold *)

Section json_leaves.
#[local] Instance json_leaves : YamlLeaves := { yaml_number := number; yaml_key := string }.
Definition json_num : number → @yaml_number json_leaves := id.
Definition json_key : string → @yaml_key json_leaves := id.
#[local] Instance json_num_inj : Inj (=) (=) json_num := λ _ _ E, E.
#[local] Instance json_key_inj : Inj (=) (=) json_key := λ _ _ E, E.
Lemma merges_in_sync_witness :
  let l := JObj {[ "a" := JArr [JStr "x"]; "b" := JNull ]} in
  let r := JObj {[ "a" := JArr [JStr "y"; JStr "x"] ]} in
  merge_json l r = JObj {[ "a" := JArr [JStr "x"; JStr "y"]; "b" := JNull ]} ∧
  merge_yaml (yaml_of_json json_num json_key l) (yaml_of_json json_num json_key r) =
    yaml_of_json json_num json_key (merge_json l r).
Proof.
  intros l r. split; [vm_compute; reflexivity|]. apply (merges_in_sync json_num json_key l r).
Defined.
End json_leaves.
