(* ===== verification/FolderWitnesses.v ===== *)
(** * Witnesses of the cache folders and of their removal *)

From S2P Require Import Prelude RustStr Names TaskStore Json ConfigSchema CacheFolder CacheSweep StateSweep.
From S2P Require Import YamlMerge Inherit SessionLog TranscriptLink Splice.
From S2P Require Import HookWitnesses.

(** ** A folder that is rendered twice *)

#[local] Instance auth_source_eq_dec : EqDecision AuthSource.
Proof. solve_decision. Defined.
#[local] Instance auth_source_countable : Countable AuthSource.
Proof.
  refine (inj_countable' (λ a, match a with Inherited => 0 | Explicit => 1 | NoAuth => 2 end)
    (λ n, match n with 0 => Inherited | 1 => Explicit | _ => NoAuth end) _). by intros [].
Defined.
#[local] Instance auth_status_eq_dec : EqDecision AuthStatus.
Proof. solve_decision. Defined.
#[local] Instance auth_status_countable : Countable AuthStatus.
Proof.
  refine (inj_countable' (λ a, (au_source a, au_id a, au_email a)) (λ '(s, i, e), mkAuthStatus s i e) _). by intros [].
Defined.
#[local] Instance cache_manifest_eq_dec : EqDecision CacheManifest.
Proof. solve_decision. Defined.
#[local] Instance cache_manifest_countable : Countable CacheManifest.
Proof.
  refine (inj_countable' (λ m, (cm_content_hash m, cm_owned m, cm_active_tags m, cm_enabled_bundles m, cm_auth_status m))
    (λ '(h, o, t, b, a), mkCacheManifest h o t b a) _). by intros [].
Defined.
#[local] Instance dotfile_codec : Codec CacheManifest := { encode := number_text; decode := number_read }.
#[local] Instance dotfile_codec_laws : CodecLaws CacheManifest.
Proof. split. intros a. unfold decode, encode, dotfile_codec, number_read, number_text. rewrite digits_value_pretty. apply countable.decode_encode. Qed.
#[local] Instance all_rights : DiskRights := { readable _ := true; removable _ := true; writable _ := true }.

#[local] Instance plain_dec rel : Decision (plain rel).
Proof. unfold plain, plain_name. apply _. Defined.


(** ** Sweeps of an old tree *)

#[local] Instance removes_all : Removal := CacheSweep.all_removed.
Definition week : AgeRule := age_rule (168 * 3600).
Definition old_tree : tree := Folder (mkTimes 0 0) None (Entry "settings.json" None (old_file 1) NoMore).
Definition new_tree : tree := Folder (mkTimes 0 0) None (Entry "settings.json" None (old_file 999999) NoMore).
(** A folder in use of the current generation beside an old one, and the state folder. *)
Definition adapter_entries : entries :=
  Entry "2" None (Folder (mkTimes 0 0) None (Entry "aaa" None old_tree (Entry "bbb" None new_tree NoMore)))
    (Entry STATE_DIR_NAME None old_tree NoMore).
Definition adapter_folder : result io_kind tree := Ok (Folder (mkTimes 0 0) None adapter_entries).
Lemma old_tree_old : old 1000000 week old_tree.
Proof. split; [by eexists; vm_compute|]. unfold unused. apply (bool_decide_unpack _). by vm_compute. Qed.
Lemma gc_correct_witness : ∃ real,
  gc "2.0.0" "2.0.0" week false 1000000 "/c/claude-code" adapter_folder ConfigSchema.Normal = Ok real ∧
  ("/c/claude-code/2/aaa" ∈ removed real ∨ "/c/claude-code/2/aaa" ∈ dom (failed real)) ∧
  "/c/claude-code/state" ∉ removed real.
Proof.
  destruct (gc_correct "2.0.0" "2.0.0" 1000000 week "/c/claude-code" adapter_folder adapter_entries ConfigSchema.Normal eq_refl)
    as (preview & real & _ & Er & _ & Hreal & Htarget & _).
  exists real. split; [exact Er|]. split.
  - apply Htarget. right. exists "2", (mkTimes 0 0). do 3 eexists. split_and!; [by left|by vm_compute|by left|done| |done].
    right. split; [done|exact old_tree_old].
  - vm_compute in Er. injection Er as <-. apply (bool_decide_unpack _). by vm_compute.
Defined.

Definition tmp_entries : entries :=
  Entry "old-build" None old_tree (Entry "open-build" None old_tree (Entry "new-build" None new_tree NoMore)).
Definition tmp_folder : result io_kind tree := Ok (Folder (mkTimes 0 0) None tmp_entries).
Lemma sweep_correct_witness : ∃ real,
  sweep week 1000000 "/tmp" tmp_folder ["/tmp/open-build/bin"] false = Ok real ∧
  ("/tmp/old-build" ∈ removed real ∨ "/tmp/old-build" ∈ dom (failed real)) ∧ "/tmp/open-build" ∉ removed real.
Proof.
  destruct (sweep_correct week 1000000 "/tmp" tmp_folder ["/tmp/open-build/bin"] tmp_entries eq_refl)
    as (preview & real & _ & Er & _ & Hreal & Htarget & _).
  exists real. split; [exact Er|]. split.
  - apply Htarget. split; [by vm_compute|]. exists true. left. exists "old-build", old_tree.
    split_and!; [by left|by vm_compute|split; [by eexists; vm_compute|apply old_tree_old]|done].
  - intros Hin%Hreal. destruct Hin as [Hu _]. by vm_compute in Hu.
Defined.

(** ** A folder of transcripts that becomes a link *)

Definition transcripts : items :=
  More "app" (Dir None (More "a.jsonl" (File "new" (Some 5%Z)) (More "b.jsonl" (File "old" (Some 1%Z)) Inherit.Empty))) Inherit.Empty.
Definition stored : items :=
  More "app" (Dir None (More "a.jsonl" (File "stale" (Some 2%Z)) (More "b.jsonl" (File "later" (Some 9%Z)) Inherit.Empty))) Inherit.Empty.
Lemma link_loses_nothing_witness :
  (link_durable_dir (RealDir transcripts) "/s/projects" stored).1.2 = LinkTo "/s/projects" ∧
  at_path ["a.jsonl"] (get "app" (link_durable_dir (RealDir transcripts) "/s/projects" stored).2) = Some (File "new" (Some 5%Z)).
Proof.
  assert (tidy_items transcripts) as Ht.
  { cbn. split_and!; try done; try apply not_elem_of_nil. by intros [[=]|?%not_elem_of_nil]%elem_of_cons. }
  pose proof (link_loses_nothing transcripts "/s/projects" stored Ht) as (_ & _ & Hfile & _).
  split; [by vm_compute|].
  destruct (Hfile ltac:(by vm_compute) "app" ["a.jsonl"] ltac:(done)) as [E|E]; [exact E|by vm_compute in E].
Defined.

(** ** Two hooks of a session *)

#[local] Instance map_codec : Codec SessionMap := { encode := number_text; decode := number_read }.
#[local] Instance map_codec_laws : CodecLaws SessionMap.
Proof. split. intros a. unfold decode, encode, map_codec, number_read, number_text. rewrite digits_value_pretty. apply countable.decode_encode. Qed.
Definition no_map : disk := mkDisk NoFile ∅.
Definition two_arrived : world := mkWorld no_map {[0 := Arrived; 1 := Arrived]} [].
Definition both_seen : world := go_on 1 (look eager "s" 10 NoFile, no_map) [] (go_on 0 (look eager "s" 10 NoFile, no_map) [] two_arrived).
Definition first_claimed : world := go_on 0 (take_claim granted "s" Missing 10 no_map) [] both_seen.
Lemma one_start_at_a_time_witness : holds first_claimed 0 ∧ ∀ q, holds first_claimed q → 0 = q.
Proof.
  assert (holds first_claimed 0) as H0.
  { apply holds_go. rewrite decide_True by done. unfold take_claim, claim_pending_at, update_map, no_map.
    cbn [lock_taken granted load_for_write read_map_bytes d_map].
    assert (claim "s" Missing 10 ∅ = Some {["s" := marker 10]}) as -> by (by vm_compute). exact I. }
  split; [exact H0|]. intros q Hq.
  refine (proj1 (one_start_at_a_time "s" (λ _, eager) two_arrived first_claimed _ _ _ 0 q H0 Hq)).
  - apply map_Forall_insert_2; [done|]. by apply map_Forall_singleton.
  - intros m [= <-]. unfold MAX_CORRELATION_ENTRIES. rewrite map_size_empty. lia.
  - assert (in_i64 10) as Hi by (unfold in_i64, ReadOnce.i64_min, ReadOnce.i64_max; lia).
    eapply rtc_l; [by apply (Looks _ _ _ _ two_arrived 0 10)|].
    eapply rtc_l; [by apply (Looks _ _ _ _ _ 1 10)|].
    eapply rtc_l; [apply (Claims _ _ _ _ both_seen 0 granted Missing 10); [done|by intros]|]. apply rtc_refl.
Defined.

(** ** An addition to config.yaml *)

#[local] Instance splice_leaves : YamlLeaves := { yaml_number := N; yaml_key := string }.
Definition old_config : string := "# mine" +:+ nl +:+ "bundles: # all" +:+ nl +:+ "  - a" +:+ nl +:+ "host: null" +:+ nl.
Definition new_config : string := "# mine" +:+ nl +:+ "bundles: # all" +:+ nl +:+ "  - a" +:+ nl +:+ "  - b" +:+ nl +:+ "host:" +:+ nl +:+ "  x: y" +:+ nl.
(** serde_yaml on the texts and blocks of this example. *)
#[local] Instance splice_file : YamlFile := {
  from_str t :=
    if decide (t = old_config) then Some (YMapping {["bundles" := YSequence [YString "a"]; "host" := YNull]})
    else if decide (t = new_config) then
      Some (YMapping {["bundles" := YSequence [YString "a"; YString "b"]; "host" := YMapping {["x" := YString "y"]}]})
    else None;
  to_string b := match b with ListBlock [YString s] => Ok ("- " +:+ s +:+ nl) | _ => Ok ("host:" +:+ nl +:+ "  x: y" +:+ nl) end;
  name_key k := k }.
Definition two_additions : list Addition := [Items "bundles" None [YString "b"]; Keys "host" None [("x", YString "y")]].
Definition two_hunks : string :=
  "@@ line 4 of the new config.yaml @@" +:+ nl +:+ "+   - b" +:+ nl +:+
  "@@ line 5 of the new config.yaml @@" +:+ nl +:+ "- host: null" +:+ nl +:+ "+ host:" +:+ nl +:+ "+   x: y" +:+ nl.
Lemma splice_correct_witness : splice old_config two_additions = Ok (new_config, two_hunks) ∧
  ∃ got, add_all two_additions (YMapping {["bundles" := YSequence [YString "a"]; "host" := YNull]}) = Ok got ∧ parse new_config = Some got.
Proof.
  assert (splice old_config two_additions = Ok (new_config, two_hunks)) as H by (by vm_compute). split; [exact H|].
  destruct (splice_correct _ _ _ _ H) as (_ & _ & _ & v & got & _ & _ & _ & _ & Hp & Ha & Hn). exists got. split; [|exact Hn].
  assert (parse old_config = Some (YMapping {["bundles" := YSequence [YString "a"]; "host" := YNull]})) as E by (by vm_compute).
  rewrite E in Hp. injection Hp as <-. exact Ha.
Defined.
